(* ===== verification/_CoqProject ===== *)
-Q . S2P
Prelude.v
Utf8.v
Encoding.v
Bstream.v
Varbit.v
XorChunk.v
Tombstones.v
Postings.v
MemPostings.v
Labels.v
Relabel.v
Record.v
Wlog.v
SegmentReader.v
HeadWal.v
Alerting.v
Isolation.v
TxRing.v
Compact.v
Promql.v
PromqlEval.v
PromqlTimes.v
Exemplar.v
Index.v
IndexWriter.v
IndexClose.v
IndexReader.v
IndexFile.v
IndexQuery.v
Merge.v
Regexp.v
RegexpSound.v
RegexpMatchers.v
RegexpFast.v
Matcher.v
Querier.v
QuerierSpec.v
HeadIndex.v
Heap.v
SampleIter.v
ChainIter.v
ChainSpec.v
MergeSet.v
MergeQuerier.v
DeletedIter.v
XorIter.v
BlockQuery.v
BlockQuerySpec.v
BlockSeries.v
