(* ===== verification/Prelude.v ===== *)
(** * A verification library for the Prometheus server

    This library models the storage core of the server in [src/] (Go) and
    proves what makes it correct.  It is a shallow embedding: a Go function is
    a Rocq function of the same name, an object that a method mutates is a
    record passed through, an error value is data of an [option] or sum type, a
    run-time panic is [Panic] of the type [outcome], and machine integers are
    [Z] with their wrap-around written out.  Floating-point numbers are bit
    patterns.  Bytes are [Z] below 256, strings are lists of bytes.

    ** Parts, and how they build on each other

    - [Prelude] (this file): outcomes and the state monad [GoM], integer words,
      big-endian bytes, bit lists, [sort.Search], list lemmas.  [Utf8]: characters
      and Go strings.
    - [Encoding] ([tsdb/encoding/encoding.go]): [Encbuf] and [Decbuf]; class
      [VarintLib] for the varint decoder of another module, class [Codec] for
      a writer and a reader that undo each other, frames with a checksum.
    - [Bstream], [Varbit], [XorChunk] ([tsdb/chunkenc]): the bit stream, the
      variable-width integers on it, and the chunks of float samples on those:
      [Appender] writes samples, the iterator reads them back.
    - [Tombstones] ([tsdb/tombstones]): sets of deleted intervals and their file.
    - [Postings], [MemPostings] ([tsdb/index/postings.go]): iterators over
      sorted series references (a class of operations [PostingsOps] with its
      contract [PostingsOK], for which list, big-endian, intersection and
      removal iterators are instances) and the index from labels to them, with
      [EnsureOrder] in its batches and any schedule of its workers;
      [Merge] (same file): unions, over the loser tree of another module.
    - [Regexp] ([model/labels/regexp.go]): matching of label values with the
      optimisations that avoid the engine; [RegexpSound], [RegexpMatchers] and
      [RegexpFast] prove it against [denotes], the meaning of expressions.
      [Matcher] ([model/labels/matcher.go]): the matchers of a selector.
    - [Querier] ([tsdb/querier.go]): selection of series by matchers over the
      class [IndexReader]; [QuerierSpec]: what it selects, from the laws
      [IndexReaderOK] of an index; [HeadIndex] ([tsdb/head_read.go]): the index
      reader of the head, which obeys them, on [MemPostings] and [Merge].
    - [Labels] ([model/labels]): label sets as one string, their builders.
      [Relabel] ([model/relabel/relabel.go]): the rules that rewrite them; class
      [RelabelLib] for regular expressions, MD5 and the tables of letter cases.
    - [Heap]: the binary heap of Go's [container/heap].  [SampleIter]
      ([tsdb/chunkenc/chunk.go], [storage/series.go]): the interface [IterOps] of
      iterators over samples, its contract [IterOK], and the lists as instance;
      loops over iterators are programs of type [run].
    - [ChainIter] ([storage/merge.go]): the overlapping iterators of one series
      read as one, with [Heap]; [ChainSpec] proves the contract for it.
      [MergeSet] (same file): sorted sets of series (class [SetOps], contract
      [SetOK]) read as one, series with equal labels merged.
      [MergeQuerier] (same file and [storage/secondary.go]): label queries of
      several queriers as one, with failures of the secondary ones as warnings.
    - [DeletedIter] ([tsdb/querier.go]): an iterator less deleted intervals;
      [XorIter] ([tsdb/chunkenc/xor.go]): the iterator of [XorChunk] as an
      [IterOps], with its [Seek].
    - [BlockQuery] ([tsdb/querier.go]): the series of a block, their chunks with
      the samples outside the query and the deleted ones removed, and the
      iterator over the chunks of a series, on [Postings], [Tombstones],
      [DeletedIter] and any chunk iterator; [BlockQuerySpec] and [BlockSeries]
      prove what a query of a block returns.
    - [Index], [IndexWriter], [IndexReader] ([tsdb/index/index.go]): the sections
      of the index file and their decoders, the writer with its stages, the
      reader with its queries; [IndexClose] proves which bytes the writer
      leaves, [IndexFile] that the reader opens them, [IndexQuery] what the
      reader then answers.
    - [Record] ([tsdb/record]): the records of the write-ahead log, on
      [Encoding], [Labels] and [Tombstones].
    - [Wlog] ([tsdb/wlog]): records cut into fragments, pages and segments, and
      the reader, over the class [IoReader] of what it reads from, with plain bytes
      as an instance; class [CompressLib] for the compression modules.
      [SegmentReader] ([tsdb/wlog/wlog.go]): [segmentBufReader], which a restart reads
      through and which fills short segments with zeros, as another instance.
    - [HeadWal] ([tsdb/head_append.go], [tsdb/head_wal.go], [tsdb/head.go]): what a
      commit logs and what a restart decodes, segment by segment ([load_segments]),
      against the class [WalLog]; [Wlog] is an instance, which composes the two.
    - [Alerting] ([rules/alerting.go]): the state machine of an alert, from
      pending over firing to resolved, its notifications and its restoration.
    - [Isolation] ([tsdb/isolation.go]): the open appends and reads of the head
      as doubly linked lists on a heap; [TxRing] (same file and
      [tsdb/head_read.go]): the append ids of a series, and what a read
      by [Next] returns of it, on [Isolation]; [Seek] is modelled as it is
      promoted from the embedded iterator, past the stop.
    - [Exemplar] ([tsdb/exemplar.go]): the circular buffer of exemplars, its
      index and the linked exemplars of each series.
    - [Compact] ([tsdb/compact.go], [tsdb/db.go]): planning of compactions,
      merging of meta data, retention, and the loop over them; classes
      [GoSort] for the sorting of the standard library and [BlockWriter] for
      the contents of blocks.
    - [Promql] ([promql/parser]): the syntax tree of queries, the table of
      functions and the type checker [checkAST]; [PromqlEval]
      ([promql/engine.go]): what is done to a checked tree before it is
      evaluated, and what the evaluator asserts of it; [PromqlTimes] (same
      file): the walk over a tree and the range of times a query reads.

    ** What the theorems show

    - Round trips: what [Encoding], [Varbit], [XorChunk], [Labels],
      [Tombstones], [Record] and [Wlog] write is read back exactly, with the
      deltas that wrap and the boundaries of pages and segments included; and
      composed, that commits to the log decode to the batches committed.  An
      index file gives back its symbols and every series.
    - Refinement: the iterators of [Postings] yield the sets they stand for
      whatever sequence of [Next] and [Seek] is called, [MemPostings] is a map
      from labels to sorted references, the label [Builder] a finite map,
      [Intervals.Add] the union of intervals, the linked lists of [Isolation]
      plain lists, the ring of [TxRing] and the buffer of [Exemplar] a queue;
      queries of an index file answer like a search through all series, and the
      selection by matchers in the head returns the series that pass them all.
      Chained iterators are an iterator over the union of their samples, merged
      sets hold each label set once, a query of a block returns exactly the
      samples that are in its range and not deleted or panics on adding an interval,
      and relabelling acts on the labels as a map.
    - Equivalence: the optimised matching of regular expressions decides what
      they mean, whichever shortcuts were taken, if no part of them ignores case
      or names a surrogate; with those it can differ.
    - Invariants: the alerts of a rule are well-formed in every reachable state,
      label sets and interval sets stay normalised, and compaction keeps blocks
      disjoint and their sources complete.
    - Types: the query checker decides the typing rules of the language; a query for
      a vector or scalar that it accepts fails no assertion of the evaluator, except
      one with an [@] modifier on the labels of [info], and
      wrapping what does not depend on the time keeps the meaning of a query, except
      of [info] over arguments that stay the same and of parameters of aggregations
      that change.
    - Liveness and termination: an alert that is held fires, one that is gone is
      resolved and dropped; the compaction loop ends.
    - Safety and errors: which inputs make a decoder panic and which cannot, that
      decoding loops end, that a truncated log yields a prefix of its records and
      at most one torn record that the zeros of the reader complete,
      that a merged label query fails only with a primary querier,
      that a read by [Next] sees no part of an append that was open when it began, that
      the range of times a query asks of the storage holds every sample it reads, apart
      from info series when [info] has no argument that is read at the time itself.
    - Where a theorem has an exception of this kind, a lemma beside it shows an input on
      which the code differs, and the manifest lists it as a finding.

    ** Fuel

    The loops over iterators ([rloop] of [SampleIter]) are run with any fuel, and
    [returns m a] says that with enough of it [m] returns [a]: the theorems prove
    it, never only that a result is right if there is one.
    Other loops whose recursion is not structural take a fixed fuel: the length of the
    buffer (every turn consumes a byte or ends in an error), ten bytes for a
    varint, the number of elements for a binary search, an iterator, a linked
    list or a ring, the size of the file for the passes over an index, the number
    of values for a query of it, the size of a syntax tree and the number of bars
    of an expression for its analysis; the compaction loop takes as many rounds as there are blocks
    and blocks with tombstones ([compact_blocks_ends]).  Each has
    a lemma that the fuel is enough ([record_decoders_terminate],
    [decode_no_fuel], [next_loop_fuel], [put_uvarint_fuel_enough],
    [sort_search_spec], the [yields] contract of [PostingsOK], ...), so that no
    theorem holds because a loop ran out.

    ** Code outside the repository

    The varint decoder [github.com/dennwc/varint], the compression modules,
    the names of metric types, sorting by a key, the hash and the templates of
    alerts, the parser, simplifier and engine of regular expressions with the
    tables of characters, the loser tree of merged iterators, stable sorting, MD5, the tables of letter cases, the meaning of the operators of
    the query language and the writing of blocks are classes; their laws are the documented
    behaviour, and witnesses instantiate them with concrete functions.

    ** Not modelled

    The evaluation of queries (floating-point functions), the lexer and the
    generated parser, the HTTP API and web interface,
    service discovery, scraping and its text formats, remote read and write,
    notification, configuration, and of the storage engine the memory series of
    the head, checkpoints and chunk snapshots (with the reader of segments from an
    offset), series read as chunks and the chunk files; they are listed
    with reasons in the manifest.  The memory that iterators reuse and the joining of
    error messages are left out of [ChainIter], the annotations of sets of series
    and their adapters out of [MergeSet], concurrent selects out of [MergeQuerier], YAML and JSON out of [Relabel].
    Locks, background goroutines, syncing of files, metrics and logging are left
    out of the components that are modelled. *)

From stdpp Require Import base list numbers gmap.
From Stdlib Require Import ZArith Lia.
From Stdlib Require Import SpecFloat.
From Stdlib Require Sorting.Sorted.

#[global] Open Scope Z_scope.

Abbreviation bytes := (list Z).

(** ** Outcomes of Go code

    [Ret a] is a normal return, [Panic] a run-time panic (an index or slice
    bound out of range).  Errors that the code returns as values of type
    [error] are data of the component and are not panics. *)
Inductive outcome (A : Type) : Type :=
| Ret (a : A)
| Panic.
Arguments Ret {A} a.
Arguments Panic {A}.

(** Code that threads a mutable object of type [St] through calls. *)
Definition GoM (St A : Type) : Type := St -> outcome (A * St).

Definition go_ret {St A} (a : A) : GoM St A := fun s => Ret (a, s).

Definition go_bind {St A B} (m : GoM St A) (k : A -> GoM St B) : GoM St B :=
  fun s => match m s with
           | Ret (a, s') => k a s'
           | Panic => Panic
           end.

Definition go_get {St} : GoM St St := fun s => Ret (s, s).
Definition go_put {St} (s : St) : GoM St unit := fun _ => Ret (tt, s).
Definition go_panic {St A} : GoM St A := fun _ => Panic.

Declare Scope go_scope.
Delimit Scope go_scope with go.
Notation "x <-- m ;; k" := (go_bind m (fun x => k))
  (at level 100, m at next level, right associativity) : go_scope.
Notation "m ;;; k" := (go_bind m (fun _ => k))
  (at level 100, right associativity) : go_scope.
#[global] Open Scope go_scope.

Definition outcome_bind {A B} (o : outcome A) (k : A -> outcome B) : outcome B :=
  match o with Ret a => k a | Panic => Panic end.

Lemma go_bind_ret {St A B} (m : GoM St A) (k : A -> GoM St B) s a s' :
  m s = Ret (a, s') -> go_bind m k s = k a s'.
Proof. intros E. unfold go_bind. rewrite E. reflexivity. Qed.

(** Runs the next bind of a [GoM] program whose first step is known. *)
Ltac go_step H := erewrite go_bind_ret; [| apply H].

(** ** Machine integers

    An unsigned w-bit integer is a [Z] in [[0, 2^w)], a signed 64-bit one a
    [Z] in [[-2^63, 2^63)]; Go's [int] has 64 bits.  The conversions wrap. *)
Definition u8 (z : Z) : Z := z mod 2 ^ 8.
Definition u16 (z : Z) : Z := z mod 2 ^ 16.
Definition u32 (z : Z) : Z := z mod 2 ^ 32.
Definition u64 (z : Z) : Z := z mod 2 ^ 64.
Definition i64 (z : Z) : Z :=
  let m := z mod 2 ^ 64 in if m <? 2 ^ 63 then m else m - 2 ^ 64.

Definition i32 (z : Z) : Z :=
  let m := z mod 2 ^ 32 in if m <? 2 ^ 31 then m else m - 2 ^ 32.

Definition is_u8 (z : Z) : Prop := 0 <= z < 2 ^ 8.
Definition is_u16 (z : Z) : Prop := 0 <= z < 2 ^ 16.
Definition is_u32 (z : Z) : Prop := 0 <= z < 2 ^ 32.
Definition is_u64 (z : Z) : Prop := 0 <= z < 2 ^ 64.
Definition is_i64 (z : Z) : Prop := - 2 ^ 63 <= z < 2 ^ 63.

Definition is_i32 (z : Z) : Prop := - 2 ^ 31 <= z < 2 ^ 31.

Definition MinInt64 : Z := - 2 ^ 63.
Definition MaxInt64 : Z := 2 ^ 63 - 1.

(** Unfolds the integer vocabulary, for [lia]; [zdlia] also makes division and
    remainder by constants linear. *)
Ltac zpow :=
  unfold u8, u16, u32, u64, i32, i64, is_u8, is_u16, is_u32, is_u64, is_i32, is_i64,
    MinInt64, MaxInt64 in *.
Ltac zlia := zpow; lia.
Ltac zdlia := zpow; Z.div_mod_to_equations; lia.

Lemma u8_range z : is_u8 (u8 z).
Proof. unfold is_u8, u8. apply Z.mod_pos_bound. lia. Qed.
Lemma u16_range z : is_u16 (u16 z).
Proof. unfold is_u16, u16. apply Z.mod_pos_bound. lia. Qed.
Lemma u32_range z : is_u32 (u32 z).
Proof. unfold is_u32, u32. apply Z.mod_pos_bound. lia. Qed.
Lemma u64_range z : is_u64 (u64 z).
Proof. unfold is_u64, u64. apply Z.mod_pos_bound. lia. Qed.
Lemma i64_range z : is_i64 (i64 z).
Proof. unfold is_i64, i64. destruct (Z.ltb_spec (z mod 2 ^ 64) (2 ^ 63)); zdlia. Qed.

Lemma u8_id z : is_u8 z -> u8 z = z.
Proof. apply Z.mod_small. Qed.
Lemma u16_id z : is_u16 z -> u16 z = z.
Proof. apply Z.mod_small. Qed.
Lemma u32_id z : is_u32 z -> u32 z = z.
Proof. apply Z.mod_small. Qed.
Lemma u64_id z : is_u64 z -> u64 z = z.
Proof. apply Z.mod_small. Qed.
Lemma i64_id z : is_i64 z -> i64 z = z.
Proof. unfold i64. intros. destruct (Z.ltb_spec (z mod 2 ^ 64) (2 ^ 63)); zdlia. Qed.

Lemma i32_id z : is_i32 z -> i32 z = z.
Proof. unfold i32. intros. destruct (Z.ltb_spec (z mod 2 ^ 32) (2 ^ 31)); zdlia. Qed.

(** Converting to unsigned and back loses nothing: both represent the same
    residue modulo [2^64]. *)
Lemma i64_u64 z : i64 (u64 z) = i64 z.
Proof. unfold i64, u64. rewrite Z.mod_mod by lia. reflexivity. Qed.
Lemma u64_i64 z : u64 (i64 z) = u64 z.
Proof.
  unfold i64, u64. destruct (Z.ltb_spec (z mod 2 ^ 64) (2 ^ 63)).
  - apply Z.mod_mod. lia.
  - rewrite <- (Z.mod_add (z mod 2 ^ 64 - 2 ^ 64) 1) by lia.
    replace (z mod 2 ^ 64 - 2 ^ 64 + 1 * 2 ^ 64) with (z mod 2 ^ 64) by lia.
    apply Z.mod_mod. lia.
Qed.

(** Wrapped arithmetic: an operand may be replaced by any integer with the same
    residue, so intermediate wraps can be dropped. *)
Lemma i64_cong x y : x mod 2 ^ 64 = y mod 2 ^ 64 -> i64 x = i64 y.
Proof. intros H. unfold i64. rewrite H. reflexivity. Qed.

Lemma i64_mod x : i64 x mod 2 ^ 64 = x mod 2 ^ 64.
Proof. exact (u64_i64 x). Qed.

Lemma add_wrap_l f x y : f x mod 2 ^ 64 = x mod 2 ^ 64 -> (f x + y) mod 2 ^ 64 = (x + y) mod 2 ^ 64.
Proof. intros H. rewrite Zplus_mod, H, <- Zplus_mod. reflexivity. Qed.

Lemma u64_add_wrap x y : u64 (i64 x + i64 y) = u64 (x + y).
Proof.
  unfold u64. rewrite (add_wrap_l i64), Z.add_comm, (add_wrap_l i64), Z.add_comm by apply i64_mod.
  reflexivity.
Qed.

Lemma i64_add_wrap x y : i64 (x + i64 y) = i64 (x + y).
Proof.
  apply i64_cong. rewrite Z.add_comm, (add_wrap_l i64), Z.add_comm by apply i64_mod. reflexivity.
Qed.

(** A float64; [f64_of_int] converts an integer, rounding to nearest even. *)
Abbreviation float64 := spec_float.
Definition f64_of_int (z : Z) : float64 := binary_normalize 53 1024 z 0 false.

Create HintDb goint.
Create Rewrite HintDb goint.
#[export] Hint Resolve u8_range u16_range u32_range u64_range i64_range : goint.
#[export] Hint Rewrite i64_u64 u64_i64 : goint.
#[export] Hint Rewrite u8_id u16_id u32_id u64_id i64_id using assumption : goint.

(** ** Big-endian bytes

    The fixed-width encodings of Go's [encoding/binary]: [be_bytes n x] are the
    [n] low bytes of [x], most significant first ([BigEndian.PutUint16/32/64]),
    [be_val] reads them back ([BigEndian.Uint16/32/64]). *)
Fixpoint be_bytes (n : nat) (x : Z) : list Z :=
  match n with
  | O => []
  | S n' => u8 (Z.shiftr x (8 * Z.of_nat n')) :: be_bytes n' x
  end.

Definition be_val (bs : list Z) : Z := fold_left (fun acc b => acc * 256 + b) bs 0.

Lemma length_be_bytes n x : length (be_bytes n x) = n.
Proof. induction n; simpl; congruence. Qed.

Lemma be_bytes_u8 n x : Forall is_u8 (be_bytes n x).
Proof. induction n; simpl; constructor; auto with goint. Qed.

Lemma fold_be_acc bs acc :
  fold_left (fun acc b => acc * 256 + b) bs acc
  = acc * 2 ^ (8 * Z.of_nat (length bs)) + be_val bs.
Proof.
  unfold be_val. revert acc. induction bs as [|b bs IH]; intros acc; simpl fold_left.
  - simpl. lia.
  - rewrite IH, (IH (0 * 256 + b)). simpl length.
    replace (8 * Z.of_nat (S (length bs))) with (8 + 8 * Z.of_nat (length bs)) by lia.
    rewrite Z.pow_add_r by lia. change (2 ^ 8) with 256. ring.
Qed.

Lemma be_val_cons b bs :
  be_val (b :: bs) = b * 2 ^ (8 * Z.of_nat (length bs)) + be_val bs.
Proof. unfold be_val at 1. simpl. rewrite fold_be_acc. f_equal. Qed.

Lemma be_val_bytes n x : be_val (be_bytes n x) = x mod 2 ^ (8 * Z.of_nat n).
Proof.
  induction n as [|n IH].
  - simpl. rewrite Z.mod_1_r. reflexivity.
  - simpl be_bytes. rewrite be_val_cons, length_be_bytes, IH.
    unfold u8. rewrite Z.shiftr_div_pow2 by lia.
    replace (8 * Z.of_nat (S n)) with (8 * Z.of_nat n + 8) by lia.
    rewrite Z.pow_add_r by lia.
    rewrite (Z.rem_mul_r x (2 ^ (8 * Z.of_nat n)) (2 ^ 8)) by lia. ring.
Qed.

Lemma be_val_bound bs :
  Forall is_u8 bs -> 0 <= be_val bs < 2 ^ (8 * Z.of_nat (length bs)).
Proof.
  induction 1 as [|b bs Hb _ IH]; [compute; split; congruence|].
  rewrite be_val_cons. unfold is_u8 in Hb. simpl length.
  replace (8 * Z.of_nat (S (length bs))) with (8 + 8 * Z.of_nat (length bs)) by lia.
  rewrite Z.pow_add_r by lia. nia.
Qed.

Lemma be_bytes_cong n x y :
  x mod 2 ^ (8 * Z.of_nat n) = y mod 2 ^ (8 * Z.of_nat n) -> be_bytes n x = be_bytes n y.
Proof.
  revert x y. induction n as [|n IH]; intros x y H; [reflexivity|]. simpl. f_equal.
  - unfold u8. apply Z.bits_inj'. intros i Hi. apply (f_equal (fun z => Z.testbit z (i + 8 * Z.of_nat n))) in H.
    destruct (Z.lt_ge_cases i 8).
    + rewrite !Z.mod_pow2_bits_low, !Z.shiftr_spec by lia.
      rewrite !Z.mod_pow2_bits_low in H by lia. exact H.
    + rewrite !Z.mod_pow2_bits_high by lia. reflexivity.
  - apply IH. apply Z.bits_inj'. intros i Hi.
    apply (f_equal (fun z => Z.testbit z i)) in H.
    destruct (Z.lt_ge_cases i (8 * Z.of_nat n)).
    + rewrite !Z.mod_pow2_bits_low in * by lia. exact H.
    + rewrite !Z.mod_pow2_bits_high by lia. reflexivity.
Qed.

Lemma be_bytes_val bs : Forall is_u8 bs -> be_bytes (length bs) (be_val bs) = bs.
Proof.
  induction 1 as [|b bs Hb Hbs IH]; [reflexivity|].
  simpl length. simpl be_bytes. rewrite be_val_cons.
  pose proof (be_val_bound bs Hbs) as Hv. f_equal.
  - rewrite Z.shiftr_div_pow2, Z.div_add_l by lia. rewrite Z.div_small by lia.
    rewrite Z.add_0_r. apply u8_id. exact Hb.
  - etransitivity; [|exact IH]. apply be_bytes_cong.
    rewrite Z.add_comm, Z.mod_add by lia. reflexivity.
Qed.

#[export] Hint Rewrite length_be_bytes be_val_bytes : goint.

(** ** Bits of a word, most significant first *)
Fixpoint msb_bits (n : nat) (u : Z) : list bool :=
  match n with
  | O => []
  | S n' => Z.testbit u (Z.of_nat n') :: msb_bits n' u
  end.

Definition bits_val (bs : list bool) : Z :=
  fold_left (fun acc b => 2 * acc + Z.b2z b) bs 0.

Lemma length_msb_bits n u : length (msb_bits n u) = n.
Proof. induction n; simpl; congruence. Qed.

Lemma fold_bits_acc bs acc :
  fold_left (fun acc b => 2 * acc + Z.b2z b) bs acc
  = acc * 2 ^ Z.of_nat (length bs) + bits_val bs.
Proof.
  unfold bits_val. revert acc. induction bs as [|b bs IH]; intros acc; simpl fold_left.
  - simpl. lia.
  - rewrite IH, (IH (2 * 0 + Z.b2z b)). simpl length.
    rewrite Nat2Z.inj_succ, Z.pow_succ_r by lia. ring.
Qed.

Lemma bits_val_cons b bs :
  bits_val (b :: bs) = Z.b2z b * 2 ^ Z.of_nat (length bs) + bits_val bs.
Proof. unfold bits_val at 1. simpl. rewrite fold_bits_acc. f_equal. Qed.

Lemma bits_val_app l1 l2 :
  bits_val (l1 ++ l2) = bits_val l1 * 2 ^ Z.of_nat (length l2) + bits_val l2.
Proof. unfold bits_val at 1. rewrite fold_left_app. apply fold_bits_acc. Qed.

Lemma bits_val_bound bs : 0 <= bits_val bs < 2 ^ Z.of_nat (length bs).
Proof.
  induction bs as [|b bs IH]; [compute; split; congruence|].
  rewrite bits_val_cons. simpl length. rewrite Nat2Z.inj_succ, Z.pow_succ_r by lia.
  destruct b; simpl Z.b2z; lia.
Qed.

Lemma bits_val_msb n u : bits_val (msb_bits n u) = u mod 2 ^ Z.of_nat n.
Proof.
  induction n as [|n IH]; [simpl; rewrite Z.mod_1_r; reflexivity|].
  simpl msb_bits. rewrite bits_val_cons, length_msb_bits, IH.
  rewrite Nat2Z.inj_succ, Z.pow_succ_r by lia. rewrite (Z.mul_comm 2).
  rewrite (Z.rem_mul_r u (2 ^ Z.of_nat n) 2) by lia.
  rewrite Z.testbit_spec' by lia. ring.
Qed.

Lemma msb_bits_mod n m u : (n <= m)%nat -> msb_bits n (u mod 2 ^ Z.of_nat m) = msb_bits n u.
Proof.
  intros H. induction n as [|n IH]; [reflexivity|]. simpl. rewrite IH by lia.
  rewrite Z.mod_pow2_bits_low by lia. reflexivity.
Qed.

Lemma msb_bits_val l : msb_bits (length l) (bits_val l) = l.
Proof.
  induction l as [|b l IH]; [reflexivity|].
  simpl length. simpl msb_bits. rewrite bits_val_cons. pose proof (bits_val_bound l).
  f_equal.
  - apply Z.b2z_inj. rewrite Z.testbit_spec' by lia.
    rewrite Z.div_add_l by lia. rewrite Z.div_small by lia.
    destruct b; reflexivity.
  - rewrite <- (msb_bits_mod (length l) (length l)) by lia.
    rewrite Z.add_comm, Z.mod_add by lia. rewrite Z.mod_small by lia. exact IH.
Qed.

(** Splitting off the high bits. *)
Lemma msb_bits_app n m u :
  msb_bits (n + m) u = msb_bits n (Z.shiftr u (Z.of_nat m)) ++ msb_bits m u.
Proof.
  induction n as [|n IH]; [reflexivity|]. simpl. rewrite IH.
  rewrite Z.shiftr_spec by lia. f_equal. f_equal. lia.
Qed.

Lemma msb_bits_ext n u v :
  (forall i, 0 <= i < Z.of_nat n -> Z.testbit u i = Z.testbit v i) ->
  msb_bits n u = msb_bits n v.
Proof.
  intros H. induction n as [|n IH]; [reflexivity|].
  simpl. rewrite IH by (intros; apply H; lia). f_equal. apply H. lia.
Qed.

(** Or-ing a word into bits that are still zero is addition. *)
Lemma lor_shift_add a b s : 0 <= s -> 0 <= a < 2 ^ s -> Z.lor a (b * 2 ^ s) = a + b * 2 ^ s.
Proof.
  intros Hs Ha. rewrite <- Z.add_nocarry_lor; [reflexivity|].
  rewrite <- Z.shiftl_mul_pow2 by lia. apply Z.bits_inj'. intros n Hn.
  rewrite Z.land_spec, Z.bits_0. destruct (Z.lt_ge_cases n s).
  - rewrite Z.shiftl_spec_low by lia. apply andb_false_r.
  - rewrite <- (Z.mod_small a (2 ^ s)) by lia. rewrite Z.mod_pow2_bits_high by lia. reflexivity.
Qed.

(** Low bits of a word as a remainder. *)
Lemma land_ones_mod x n : 0 <= n -> Z.land x (2 ^ n - 1) = x mod 2 ^ n.
Proof. intros. rewrite <- Z.land_ones by lia. rewrite Z.ones_equiv. reflexivity. Qed.

Lemma land_1_mod x : Z.land x 1 = x mod 2.
Proof. apply (land_ones_mod x 1). lia. Qed.

(** ** [sort.Search] of Go's standard library

    Binary search for the smallest index in [[0, n)] at which [f] holds, [n] if
    there is none.  The loop halves [j - i], so [n] iterations are enough:
    [sort_search_spec] shows that the fuel never runs out. *)
Fixpoint sort_search_loop (fuel : nat) (f : nat -> bool) (i j : nat) : nat :=
  match fuel with
  | O => i
  | S fuel' =>
      if (i <? j)%nat then
        let h := ((i + j) / 2)%nat in
        if f h then sort_search_loop fuel' f i h
        else sort_search_loop fuel' f (S h) j
      else i
  end.

Definition sort_search (n : nat) (f : nat -> bool) : nat := sort_search_loop n f 0 n.

Definition monotone_upto (n : nat) (f : nat -> bool) : Prop :=
  forall i j, (i <= j < n)%nat -> f i = true -> f j = true.

Lemma mid_bounds i j : (i < j)%nat -> (i <= (i + j) / 2 < j)%nat.
Proof.
  intros H. pose proof (Nat.div_mod_eq (i + j) 2).
  pose proof (Nat.mod_upper_bound (i + j) 2). lia.
Qed.

Lemma sort_search_loop_spec fuel f n i j :
  monotone_upto n f -> (j - i <= fuel)%nat -> (i <= j <= n)%nat ->
  (forall k, (k < i)%nat -> f k = false) ->
  (forall k, (j <= k < n)%nat -> f k = true) ->
  let r := sort_search_loop fuel f i j in
  (r <= n)%nat
  /\ (forall k, (k < r)%nat -> f k = false) /\ (forall k, (r <= k < n)%nat -> f k = true).
Proof.
  intros Hm. revert i j. induction fuel as [|fuel IH]; intros i j Hf Hij Hlo Hhi; cbn -[Nat.div Nat.ltb].
  - assert (i = j) by lia. subst. split; [lia|auto].
  - destruct (Nat.ltb_spec i j) as [Hlt|Hge].
    2: { assert (i = j) by lia. subst. split; [lia|auto]. }
    pose proof (mid_bounds i j Hlt) as Hh.
    destruct (f ((i + j) / 2)%nat) eqn:E; apply IH; try lia; auto.
    + intros k Hk. destruct (Nat.le_gt_cases j k); [apply Hhi; lia|].
      apply (Hm ((i + j) / 2)%nat); [lia|exact E].
    + intros k Hk. destruct (f k) eqn:Ek; [|reflexivity].
      assert (f ((i + j) / 2)%nat = true) by (apply (Hm k); [lia|exact Ek]). congruence.
Qed.

Lemma sort_search_spec n f :
  monotone_upto n f ->
  (sort_search n f <= n)%nat
  /\ (forall k, (k < sort_search n f)%nat -> f k = false)
  /\ (forall k, (sort_search n f <= k < n)%nat -> f k = true).
Proof. intros Hm. apply sort_search_loop_spec; auto; lia. Qed.

(** Without monotonicity the result is still in range. *)
Lemma sort_search_loop_range fuel f i j :
  (i <= j)%nat -> (i <= sort_search_loop fuel f i j <= j)%nat.
Proof.
  revert i j. induction fuel as [|fuel IH]; intros i j H; cbn -[Nat.div Nat.ltb]; [lia|].
  destruct (Nat.ltb_spec i j) as [Hlt|Hge]; [|lia].
  pose proof (mid_bounds i j Hlt) as Hh.
  destruct (f ((i + j) / 2)%nat).
  - specialize (IH i ((i + j) / 2)%nat). lia.
  - specialize (IH (S ((i + j) / 2)) j). lia.
Qed.

Lemma sort_search_le n f : (sort_search n f <= n)%nat.
Proof. apply sort_search_loop_range. lia. Qed.

Lemma sort_search_loop_ext fuel f g i j :
  (forall i, f i = g i) -> sort_search_loop fuel f i j = sort_search_loop fuel g i j.
Proof.
  intros H. revert i j. induction fuel as [|fuel IH]; intros i j; cbn -[Nat.div Nat.ltb]; [reflexivity|].
  rewrite H, !IH. reflexivity.
Qed.

Lemma sort_search_ext n f g : (forall i, f i = g i) -> sort_search n f = sort_search n g.
Proof. apply sort_search_loop_ext. Qed.

(** On a list that splits into a part where [p] fails and one where it holds,
    the search finds the boundary. *)
Lemma sort_search_split {A} (p : A -> bool) d (l1 l2 : list A) :
  Forall (fun x => p x = false) l1 -> Forall (fun x => p x = true) l2 ->
  sort_search (length (l1 ++ l2)) (fun i => p (nth i (l1 ++ l2) d)) = length l1.
Proof.
  intros H1 H2. set (f := fun i => p (nth i (l1 ++ l2) d)).
  assert (Hlo : forall i, (i < length l1)%nat -> f i = false).
  { intros i Hi. unfold f. rewrite app_nth1 by lia.
    eapply List.Forall_forall in H1; [exact H1|apply nth_In; lia]. }
  assert (Hhi : forall i, (length l1 <= i < length (l1 ++ l2))%nat -> f i = true).
  { intros i Hi. unfold f. rewrite length_app in Hi. rewrite app_nth2 by lia.
    eapply List.Forall_forall in H2; [exact H2|apply nth_In; lia]. }
  destruct (sort_search_spec (length (l1 ++ l2)) f) as (Hle & Hf & Ht).
  { intros i j Hij Hi. apply Hhi. split; [|lia].
    destruct (Nat.lt_ge_cases i (length l1)) as [Hl|Hl]; [rewrite Hlo in Hi; [discriminate|exact Hl]|lia]. }
  set (r := sort_search _ f) in *. rewrite length_app in *.
  destruct (Nat.lt_trichotomy r (length l1)) as [Hr|[Hr|Hr]]; [|exact Hr|].
  - specialize (Ht r ltac:(lia)). rewrite Hlo in Ht by lia. discriminate.
  - specialize (Hf (length l1) Hr). rewrite Hhi in Hf by lia. discriminate.
Qed.

(** ** Filtering a list on which the test is constant *)
Lemma filter_all {A} (p : A -> bool) l : Forall (fun x => p x = true) l -> List.filter p l = l.
Proof. induction 1 as [|x l Hx _ IH]; [reflexivity|]. cbn. rewrite Hx, IH. reflexivity. Qed.

Lemma filter_none {A} (p : A -> bool) l : Forall (fun x => p x = false) l -> List.filter p l = [].
Proof. induction 1 as [|x l Hx _ IH]; [reflexivity|]. cbn. rewrite Hx, IH. reflexivity. Qed.

(** ** Strongly sorted lists *)
Lemma filter_sorted {A} (R : A -> A -> Prop) (f : A -> bool) l :
  Sorted.StronglySorted R l -> Sorted.StronglySorted R (List.filter f l).
Proof.
  induction 1 as [|x l Hs IH Hf]; cbn; [constructor|]. destruct (f x); [|exact IH]. constructor; [exact IH|].
  apply List.Forall_forall. intros y Hy. apply filter_In in Hy as [Hy _].
  exact (proj1 (List.Forall_forall _ _) Hf y Hy).
Qed.

(** For a symmetric relation the order does not matter. *)
Lemma sorted_perm {A} (R : A -> A -> Prop) l l' : (forall x y, R x y -> R y x) ->
  Permutation l l' -> Sorted.StronglySorted R l -> Sorted.StronglySorted R l'.
Proof.
  intros HR. induction 1 as [|x l l' Hp IH|x y l|l l' l'' _ IH1 _ IH2]; intros Hs; auto.
  - apply Sorted.StronglySorted_inv in Hs as [Hs Hf]. constructor; [auto|]. eapply Permutation_Forall; eassumption.
  - apply Sorted.StronglySorted_inv in Hs as [Hs Hf]. apply Sorted.StronglySorted_inv in Hs as [Hs Hf'].
    pose proof (List.Forall_inv Hf). pose proof (List.Forall_inv_tail Hf). repeat constructor; auto.
Qed.

Lemma strongly_sorted_app {A} (R : A -> A -> Prop) l1 l2 : Sorted.StronglySorted R (l1 ++ l2) ->
  Sorted.StronglySorted R l1 /\ Sorted.StronglySorted R l2 /\ forall x y, In x l1 -> In y l2 -> R x y.
Proof.
  induction l1 as [|a l1 IH]; cbn; intros H; [split; [constructor|split; [exact H|intros x y []]]|].
  apply Sorted.StronglySorted_inv in H as [H Hf]. destruct (IH H) as (H1 & H2 & H3). apply List.Forall_app in Hf as [Hf1 Hf2].
  split; [constructor; assumption|]. split; [exact H2|]. intros x y [<-|Hx] Hy; [|auto].
  exact (proj1 (List.Forall_forall _ _) Hf2 y Hy).
Qed.
