(* ===== verification/Utf8.v ===== *)
(** * Characters of Go strings ([unicode/utf8] of the standard library)

    A Go string is a list of bytes; [range] loops, conversions from slices of
    runes and the functions of [unicode/utf8] read it as UTF-8.  The library is
    not part of the repository: this file models what the repository uses of
    it, and proves the facts about encodings that the matchers of label values
    depend on: an encoded string can be cut at every byte that begins a
    character, and nowhere else. *)
From stdpp Require Import base list numbers.
From Stdlib Require Import ZArith Lia Strings.Ascii.
From Stdlib Require Strings.String.
From S2P Require Import Prelude.

Abbreviation runes := (list Z).

Definition RuneError : Z := 65533.
Definition MaxRune : Z := 1114111.

(** The length of the first character of a string: a byte that begins no
    well-formed character counts for itself. *)
Definition continues (lo hi : Z) (s : bytes) (i : nat) : bool :=
  match s !! i with Some b => (lo <=? b) && (b <=? hi) | None => false end.
Definition rune_size (s : bytes) : nat :=
  match s with
  | [] => 0%nat
  | b :: _ =>
      let two lo hi := continues lo hi s 1%nat in
      let three lo hi := two lo hi && continues 128 191 s 2%nat in
      let four lo hi := three lo hi && continues 128 191 s 3%nat in
      if (194 <=? b) && (b <=? 223) then if two 128 191 then 2%nat else 1%nat
      else if b =? 224 then if three 160 191 then 3%nat else 1%nat
      else if b =? 237 then if three 128 159 then 3%nat else 1%nat
      else if (225 <=? b) && (b <=? 239) then if three 128 191 then 3%nat else 1%nat
      else if b =? 240 then if four 144 191 then 4%nat else 1%nat
      else if (241 <=? b) && (b <=? 243) then if four 128 191 then 4%nat else 1%nat
      else if b =? 244 then if four 128 143 then 4%nat else 1%nat
      else 1%nat
  end.
Fixpoint rune_loop (fuel : nat) (s : bytes) : Z :=
  match fuel, s with
  | S f, _ :: _ => 1 + rune_loop f (drop (rune_size s) s)
  | _, _ => 0
  end.
Definition RuneCountInString (s : bytes) : Z := rune_loop (length s) s.

(** [DecodeRuneInString]: the first character and its length, [RuneError] for a
    byte that begins none. *)
Definition DecodeRuneInString (s : bytes) : Z * nat :=
  let low i := nth i s 0 - 128 in
  match s with
  | [] => (RuneError, 0%nat)
  | b :: _ =>
      match rune_size s with
      | 2%nat => ((b - 192) * 64 + low 1%nat, 2%nat)
      | 3%nat => ((b - 224) * 4096 + low 1%nat * 64 + low 2%nat, 3%nat)
      | 4%nat => ((b - 240) * 262144 + low 1%nat * 4096 + low 2%nat * 64 + low 3%nat, 4%nat)
      | _ => if b <? 128 then (b, 1%nat) else (RuneError, 1%nat)
      end
  end.

(** The characters that a [range] loop over a string sees. *)
Fixpoint decode_loop (fuel : nat) (s : bytes) : runes :=
  match fuel, s with
  | S f, _ :: _ => fst (DecodeRuneInString s) :: decode_loop f (drop (rune_size s) s)
  | _, _ => []
  end.
Definition to_runes (s : bytes) : runes := decode_loop (length s) s.

(** [utf8.AppendRune] and the conversion [string(r)]: what is no character is
    replaced. *)
Definition is_surrogate (r : Z) : bool := (55296 <=? r) && (r <=? 57343).
Definition of_rune (r : Z) : bytes :=
  if (r <? 0) || is_surrogate r || (MaxRune <? r) then [239; 191; 189]
  else if r <? 128 then [r]
  else if r <? 2048 then [192 + r / 64; 128 + r mod 64]
  else if r <? 65536 then [224 + r / 4096; 128 + (r / 64) mod 64; 128 + r mod 64]
  else [240 + r / 262144; 128 + (r / 4096) mod 64; 128 + (r / 64) mod 64; 128 + r mod 64].

(** The conversion [string(rs)] of a slice of runes. *)
Fixpoint of_runes (rs : runes) : bytes := match rs with [] => [] | r :: rs => of_rune r ++ of_runes rs end.

(** What a decoder can return of valid UTF-8: a code point that is no surrogate. *)
Definition valid_rune (r : Z) : Prop := 0 <= r <= MaxRune /\ is_surrogate r = false.

Lemma rune_loop_nonneg fuel s : 0 <= rune_loop fuel s.
Proof.
  revert s. induction fuel as [|fuel IH]; intros [|b s]; cbn [rune_loop]; try lia.
  pose proof (IH (drop (rune_size (b :: s)) (b :: s))). lia.
Qed.

(** ** Encoding and decoding *)

(** Which bytes begin a character; all others of an encoding continue one. *)
Definition continuation (b : Z) : Prop := 128 <= b <= 191.

(** Settles tests on integers that arithmetic decides. *)
Ltac settle_tests :=
  repeat match goal with
  | |- context [?a <=? ?b] => first [rewrite (proj2 (Z.leb_le a b)) by lia | rewrite (proj2 (Z.leb_gt a b)) by lia]
  | |- context [?a =? ?b] => first [rewrite (proj2 (Z.eqb_eq a b)) by lia | rewrite (proj2 (Z.eqb_neq a b)) by lia]
  | |- context [?a <? ?b] => first [rewrite (proj2 (Z.ltb_lt a b)) by lia | rewrite (proj2 (Z.ltb_ge a b)) by lia]
  end.

Lemma of_rune_cases r : valid_rune r ->
  (r < 128 /\ of_rune r = [r])
  \/ (exists a b, 2 <= a < 32 /\ 0 <= b < 64 /\ r = a * 64 + b /\ of_rune r = [192 + a; 128 + b])
  \/ (exists a b c, 0 <= a < 16 /\ 0 <= b < 64 /\ 0 <= c < 64 /\ r = a * 4096 + b * 64 + c /\ (a = 0 -> 32 <= b) /\ (a = 13 -> b < 32)
      /\ of_rune r = [224 + a; 128 + b; 128 + c])
  \/ (exists a b c d, 0 <= a < 5 /\ 0 <= b < 64 /\ 0 <= c < 64 /\ 0 <= d < 64 /\ r = a * 262144 + b * 4096 + c * 64 + d
      /\ (a = 0 -> 16 <= b) /\ (a = 4 -> b < 16) /\ of_rune r = [240 + a; 128 + b; 128 + c; 128 + d]).
Proof.
  unfold valid_rune, of_rune, is_surrogate, MaxRune. intros [Hr Hs]. rewrite Hs.
  apply andb_false_iff in Hs. rewrite !Z.leb_gt in Hs.
  replace (r <? 0) with false by (symmetry; apply Z.ltb_ge; lia). replace (1114111 <? r) with false by (symmetry; apply Z.ltb_ge; lia). cbn [orb].
  destruct (Z.ltb_spec r 128); [left; auto|right]. destruct (Z.ltb_spec r 2048); [left|right].
  - exists (r / 64), (r mod 64). repeat split; try reflexivity; Z.div_mod_to_equations; lia.
  - destruct (Z.ltb_spec r 65536); [left|right].
    + exists (r / 4096), ((r / 64) mod 64), (r mod 64). repeat split; try reflexivity; Z.div_mod_to_equations; lia.
    + exists (r / 262144), ((r / 4096) mod 64), ((r / 64) mod 64), (r mod 64). repeat split; try reflexivity; Z.div_mod_to_equations; lia.
Qed.

(** The first byte of an encoding, and the others. *)
Lemma of_rune_shape r : valid_rune r -> exists b bs, of_rune r = b :: bs /\ ~ continuation b /\ Forall continuation bs.
Proof.
  intros H. unfold continuation.
  destruct (of_rune_cases r H) as [[Hr ->]|[(a&b&?&?&?&->)|[(a&b&c&?&?&?&?&?&?&->)|(a&b&c&d&?&?&?&?&?&?&?&->)]]];
    eexists _, _; (split; [reflexivity|]); (split; [destruct H; lia|]); repeat constructor; lia.
Qed.

Lemma decode_of_rune r s : valid_rune r ->
  DecodeRuneInString (of_rune r ++ s) = (r, length (of_rune r)) /\ rune_size (of_rune r ++ s) = length (of_rune r).
Proof.
  intros H. destruct (of_rune_cases r H) as [[Hr ->]|[(a&b&?&?&?&->)|[(a&b&c&?&?&?&?&?&?&->)|(a&b&c&d&?&?&?&?&?&?&?&->)]]];
    unfold DecodeRuneInString; cbn [app length nth].
  - assert (E : rune_size (r :: s) = 1%nat).
    { destruct H as [H _]. unfold rune_size. settle_tests. reflexivity. }
    rewrite E. settle_tests. auto.
  - assert (E : rune_size (192 + a :: 128 + b :: s) = 2%nat).
    { unfold rune_size, continues. cbn [lookup list_lookup]. settle_tests. reflexivity. }
    rewrite E. split; [|reflexivity]. f_equal. lia.
  - assert (E : rune_size (224 + a :: 128 + b :: 128 + c :: s) = 3%nat).
    { unfold rune_size, continues. cbn [lookup list_lookup].
      destruct (decide (a = 0)); [|destruct (decide (a = 13))]; settle_tests; reflexivity. }
    rewrite E. split; [|reflexivity]. f_equal. lia.
  - assert (E : rune_size (240 + a :: 128 + b :: 128 + c :: 128 + d :: s) = 4%nat).
    { unfold rune_size, continues. cbn [lookup list_lookup].
      destruct (decide (a = 0)); [|destruct (decide (a = 4))]; settle_tests; reflexivity. }
    rewrite E. split; [|reflexivity]. f_equal. lia.
Qed.

Lemma of_runes_app a b : of_runes (a ++ b) = of_runes a ++ of_runes b.
Proof. induction a as [|r a IH]; [reflexivity|]. cbn. rewrite IH, app_assoc. reflexivity. Qed.

Lemma of_rune_nonempty r : (1 <= length (of_rune r))%nat.
Proof. unfold of_rune. repeat case_match; cbn; lia. Qed.

Lemma of_runes_nil rs : of_runes rs = [] -> rs = [].
Proof.
  destruct rs as [|r rs]; [auto|]. cbn. intros E. apply (f_equal length) in E. rewrite length_app in E.
  pose proof (of_rune_nonempty r). cbn in E. lia.
Qed.

(** Equal encodings begin with equal characters. *)
Lemma of_rune_inj r r' s s' : valid_rune r -> valid_rune r' -> of_rune r ++ s = of_rune r' ++ s' -> r = r' /\ s = s'.
Proof.
  intros H H' E. pose proof (proj1 (decode_of_rune r s H)) as D. rewrite E, (proj1 (decode_of_rune r' s' H')) in D.
  injection D as -> _. split; [reflexivity|]. apply app_inv_head in E. exact E.
Qed.

(** An encoding that begins with the encoding of [l] is one of a string that begins with [l]. *)
Lemma of_runes_prefix l rs t : Forall valid_rune l -> Forall valid_rune rs -> of_runes rs = of_runes l ++ t ->
  exists rs', rs = l ++ rs' /\ t = of_runes rs'.
Proof.
  intros Hl. revert rs. induction Hl as [|r l Hr _ IH]; intros rs Hrs E; [exists rs; split; [reflexivity|symmetry; exact E]|].
  destruct Hrs as [|r' rs Hr' Hrs].
  - cbn in E. destruct (of_rune r) eqn:E'; [|discriminate E]. pose proof (of_rune_nonempty r) as L. rewrite E' in L. cbn in L. lia.
  - cbn in E. rewrite <- app_assoc in E. apply of_rune_inj in E as [-> E]; [|assumption..].
    destruct (IH rs Hrs E) as (rs' & -> & ->). eauto.
Qed.

Lemma of_runes_inj rs rs' : Forall valid_rune rs -> Forall valid_rune rs' -> of_runes rs = of_runes rs' -> rs = rs'.
Proof.
  intros H H' E. rewrite <- (app_nil_r (of_runes rs')) in E. apply of_runes_prefix in E as (l & -> & E); [|assumption..].
  symmetry in E. apply of_runes_nil in E as ->. apply app_nil_r.
Qed.

(** An encoding can be cut before a byte that continues no character. *)
Lemma of_runes_cut rs a b t : Forall valid_rune rs -> of_runes rs = a ++ b :: t -> ~ continuation b ->
  exists r1 r2, rs = r1 ++ r2 /\ a = of_runes r1 /\ b :: t = of_runes r2.
Proof.
  intros H. revert a. induction H as [|r rs Hr Hrs IH]; intros a E Hb; [destruct a; discriminate E|].
  destruct a as [|c a]; [exists [], (r :: rs); auto|]. cbn in E.
  destruct (of_rune_shape r Hr) as (h & hs & Eh & _ & Hc). rewrite Eh in E. injection E as <- E.
  destruct (Nat.le_gt_cases (length hs) (length a)) as [L|L].
  - assert (Ea : a = hs ++ drop (length hs) a).
    { rewrite <- (take_drop (length hs) a) at 1. f_equal.
      apply (f_equal (take (length hs))) in E. rewrite take_app_length, take_app_le in E by exact L. symmetry. exact E. }
    rewrite Ea, <- app_assoc in E. apply app_inv_head in E. destruct (IH _ E Hb) as (r1 & r2 & -> & E1 & E2).
    exists (r :: r1), r2. split; [reflexivity|]. split; [|exact E2]. cbn. rewrite Eh, <- E1, Ea at 1. reflexivity.
  - exfalso. apply Hb. assert (In b hs) by (apply (f_equal (fun l => nth_error l (length a))) in E;
      rewrite nth_error_app1, nth_error_app2, Nat.sub_diag in E by lia; cbn in E; eapply nth_error_In; exact E).
    exact (proj1 (List.Forall_forall _ _) Hc b H).
Qed.

Lemma of_runes_lead l : Forall valid_rune l -> l <> [] -> exists b t, of_runes l = b :: t /\ ~ continuation b.
Proof.
  intros H Hl. destruct H as [|r l Hr _]; [congruence|]. destruct (of_rune_shape r Hr) as (b & bs & E & Hb & _).
  exists b, (bs ++ of_runes l). cbn. rewrite E. auto.
Qed.

(** An occurrence of an encoding is an occurrence of what it encodes. *)
Lemma of_runes_infix l rs a t : Forall valid_rune l -> l <> [] -> Forall valid_rune rs -> of_runes rs = a ++ of_runes l ++ t ->
  exists r1 r2, rs = r1 ++ l ++ r2 /\ a = of_runes r1 /\ t = of_runes r2.
Proof.
  intros Hl Hn Hrs E. destruct (of_runes_lead l Hl Hn) as (b & u & El & Hb).
  rewrite El in E. destruct (of_runes_cut rs a b (u ++ t) Hrs E Hb) as (r1 & r2 & -> & Ea & E2).
  apply List.Forall_app in Hrs as [_ H2].
  assert (E2' : of_runes r2 = of_runes l ++ t) by (rewrite El; symmetry; exact E2).
  apply of_runes_prefix in E2' as (r2' & -> & ->); [|assumption..]. eauto.
Qed.

Lemma to_runes_of_runes rs : Forall valid_rune rs -> to_runes (of_runes rs) = rs.
Proof.
  intros H. unfold to_runes. enough (G : forall fuel, (length (of_runes rs) <= fuel)%nat -> decode_loop fuel (of_runes rs) = rs) by (apply G; lia).
  induction H as [|r rs Hr _ IH]; intros fuel Hf; [destruct fuel; reflexivity|].
  pose proof (of_rune_nonempty r) as Hn. cbn [of_runes] in *. rewrite length_app in Hf.
  destruct fuel as [|fuel]; [lia|]. destruct (decode_of_rune r (of_runes rs) Hr) as [D S].
  destruct (of_rune r ++ of_runes rs) as [|b t] eqn:E; [destruct (of_rune r); cbn in *; [lia|discriminate]|].
  cbn [decode_loop]. rewrite D, S, <- E. cbn [fst]. rewrite drop_app_length, IH by lia. reflexivity.
Qed.

(** ** Bytes and Go strings *)

Definition to_string (s : bytes) : String.string := String.string_of_list_ascii (map (fun b => ascii_of_N (Z.to_N b)) s).
Definition of_string (s : String.string) : bytes := map (fun c => Z.of_N (N_of_ascii c)) (String.list_ascii_of_string s).

Lemma to_of_string s : to_string (of_string s) = s.
Proof.
  unfold to_string, of_string. rewrite map_map. rewrite (map_ext _ (fun c => c)), map_id; [apply String.string_of_list_ascii_of_string|].
  intros c. rewrite N2Z.id. apply ascii_N_embedding.
Qed.

Lemma of_to_string s : Forall is_u8 s -> of_string (to_string s) = s.
Proof.
  intros Hs. unfold to_string, of_string. rewrite String.list_ascii_of_string_of_list_ascii, map_map.
  rewrite (map_ext_in _ (fun b => b)), map_id; [reflexivity|]. intros b Hb. apply (proj1 (List.Forall_forall _ _) Hs) in Hb.
  unfold is_u8 in Hb. rewrite N_ascii_embedding; lia.
Qed.

Lemma of_string_inj s t : of_string s = of_string t -> s = t.
Proof. intros E. rewrite <- (to_of_string s), E. apply to_of_string. Qed.

Lemma of_string_u8 s : Forall is_u8 (of_string s).
Proof.
  unfold of_string. apply List.Forall_map, List.Forall_forall. intros c _. unfold is_u8. pose proof (N_ascii_bounded c). lia.
Qed.
