(* ===== verification/Encoding.v ===== *)
(** * Byte buffers: [tsdb/encoding/encoding.go]

    [Encbuf] and [Decbuf], the append-only writer and the bounds-checked reader
    that every on-disk format of the storage engine is written with; the
    variable-length integers of Go's [encoding/binary]; the Castagnoli checksum
    of [hash/crc32].  The module [github.com/dennwc/varint], which decodes the
    unsigned varints, is not part of the repository: it is the class
    [VarintLib], and what its documentation promises is [VarintLibOK].  The
    class [Codec] is the interface the record and tombstone formats use: a
    writer and a reader that undo each other. *)

From stdpp Require Import base list numbers.
From Stdlib Require Import ZArith Lia.
From S2P Require Import Prelude.


(** ** [encoding/binary]: variable-length integers *)

Definition MaxVarintLen64 : nat := 10.
Definition MaxVarintLen32 : nat := 5.

(** [binary.PutUvarint]: seven bits per byte, least significant first.  A
    uint64 needs at most [MaxVarintLen64] bytes, which is the fuel
    ([put_uvarint_fuel_enough] shows that more changes nothing). *)
Fixpoint put_uvarint_fuel (fuel : nat) (x : Z) : bytes :=
  match fuel with
  | O => []
  | S f => if x <? 128 then [x]
           else Z.lor (Z.land x 127) 128 :: put_uvarint_fuel f (Z.shiftr x 7)
  end.
Definition put_uvarint (x : Z) : bytes := put_uvarint_fuel MaxVarintLen64 x.

(** [binary.PutVarint]: zig-zag, then as unsigned. *)
Definition zigzag (x : Z) : Z :=
  let ux := u64 (Z.shiftl (u64 x) 1) in
  if x <? 0 then u64 (Z.lnot ux) else ux.
Definition unzigzag (ux : Z) : Z :=
  let x := i64 (Z.shiftr ux 1) in
  if Z.land ux 1 =? 0 then x else Z.lnot x.
Definition put_varint (x : Z) : bytes := put_uvarint (zigzag x).

(** [binary.Uvarint]: the value and the number of bytes read; [(0, 0)] when the
    buffer ends too early, [(0, -n)] on overflow. *)
Fixpoint binary_uvarint_loop (buf : bytes) (i : nat) (x s : Z) : Z * Z :=
  match buf with
  | [] => (0, 0)
  | b :: rest =>
      if (i =? MaxVarintLen64)%nat then (0, - Z.of_nat (S i))
      else if b <? 128 then
        if (i =? MaxVarintLen64 - 1)%nat && (1 <? b) then (0, - Z.of_nat (S i))
        else (Z.lor x (u64 (Z.shiftl b s)), Z.of_nat (S i))
      else binary_uvarint_loop rest (S i) (Z.lor x (u64 (Z.shiftl (Z.land b 127) s))) (s + 7)
  end.
Definition binary_uvarint (buf : bytes) : Z * Z := binary_uvarint_loop buf 0 0 0.

(** The decoder of [github.com/dennwc/varint], and its documented contract: it
    reads what [binary.PutUvarint] wrote, never claims more bytes than there
    are, and returns a 64-bit value. *)
Class VarintLib := varint_uvarint : bytes -> Z * Z.

Class VarintLibOK (V : VarintLib) : Prop := {
  varint_decodes : forall x rest, is_u64 x ->
    varint_uvarint (put_uvarint x ++ rest) = (x, Z.of_nat (length (put_uvarint x)));
  varint_in_bounds : forall buf x n, Forall is_u8 buf ->
    varint_uvarint buf = (x, n) -> is_u64 x /\ n <= Z.of_nat (length buf)
}.

(** ** [hash/crc32] with the Castagnoli polynomial *)
Definition castagnoli_poly : Z := 0x82f63b78.

Fixpoint crc32_shift (k : nat) (crc : Z) : Z :=
  match k with
  | O => crc
  | S k' => crc32_shift k'
              (if Z.testbit crc 0 then Z.lxor (Z.shiftr crc 1) castagnoli_poly
               else Z.shiftr crc 1)
  end.
Definition crc32_step (crc b : Z) : Z :=
  Z.lxor (crc32_shift 8 (Z.lxor (Z.land crc 255) b)) (Z.shiftr crc 8).
Definition crc32_checksum (bs : bytes) : Z :=
  u32 (Z.lxor (fold_left crc32_step bs 0xffffffff) 0xffffffff).

(** ** [Encbuf] *)

(** The scratch array [C] never outlives a call and is left out. *)
Record Encbuf := mkEncbuf { eB : bytes }.

Definition EReset (e : Encbuf) : Encbuf := mkEncbuf [].
Definition EGet (e : Encbuf) : bytes := eB e.
Definition ELen (e : Encbuf) : Z := Z.of_nat (length (eB e)).

Definition PutBytes (b : bytes) (e : Encbuf) : Encbuf := mkEncbuf (eB e ++ b).
Definition PutString (s : bytes) (e : Encbuf) : Encbuf := PutBytes s e.
Definition PutByte (c : Z) (e : Encbuf) : Encbuf := PutBytes [c] e.
Definition PutBE32 (x : Z) (e : Encbuf) : Encbuf := PutBytes (be_bytes 4 x) e.
Definition PutBE64 (x : Z) (e : Encbuf) : Encbuf := PutBytes (be_bytes 8 x) e.
Definition PutUvarint64 (x : Z) (e : Encbuf) : Encbuf := PutBytes (put_uvarint x) e.
Definition PutVarint64 (x : Z) (e : Encbuf) : Encbuf := PutBytes (put_varint x) e.
Definition PutBE32int (x : Z) (e : Encbuf) : Encbuf := PutBE32 (u32 x) e.
Definition PutUvarint32 (x : Z) (e : Encbuf) : Encbuf := PutUvarint64 x e.
Definition PutBE64int64 (x : Z) (e : Encbuf) : Encbuf := PutBE64 (u64 x) e.
Definition PutUvarint (x : Z) (e : Encbuf) : Encbuf := PutUvarint64 (u64 x) e.
(** A float64 is its IEEE 754 bit pattern ([math.Float64bits]). *)
Definition PutBEFloat64 (x : Z) (e : Encbuf) : Encbuf := PutBE64 x e.
Definition PutUvarintBytes (b : bytes) (e : Encbuf) : Encbuf :=
  PutBytes b (PutUvarint (Z.of_nat (length b)) e).
Definition PutUvarintStr (s : bytes) (e : Encbuf) : Encbuf :=
  PutString s (PutUvarint (Z.of_nat (length s)) e).
(** [PutHash] with the CRC-32 hash: reset, write the buffer, append the sum. *)
Definition PutHash (e : Encbuf) : Encbuf := PutBytes (be_bytes 4 (crc32_checksum (eB e))) e.

(** ** [Decbuf] *)
Inductive enc_error : Type :=
| ErrInvalidSize
| ErrInvalidChecksum
| ErrInvalidUvarint (n : Z).

#[export] Instance enc_error_eq_dec : EqDecision enc_error.
Proof. solve_decision. Defined.

Record Decbuf := mkDecbuf { dB : bytes; dE : option enc_error }.

Definition Dec (A : Type) : Type := GoM Decbuf A.

Definition slice (l : bytes) (i j : nat) : bytes := take (j - i) (drop i l).

Definition d_fail {A} (zero : A) (e : enc_error) : Dec A :=
  fun d => Ret (zero, mkDecbuf (dB d) (Some e)).

(** [x := d.B[:n]; d.B = d.B[n:]] *)
Definition d_split (n : Z) : Dec bytes := fun d =>
  if (n <? 0) || (Z.of_nat (length (dB d)) <? n) then Panic
  else Ret (take (Z.to_nat n) (dB d), mkDecbuf (drop (Z.to_nat n) (dB d)) (dE d)).

Section decbuf.
Context {V : VarintLib}.

Definition Uvarint64 : Dec Z := fun d =>
  match dE d with
  | Some _ => Ret (0, d)
  | None =>
      let '(x, n) := varint_uvarint (dB d) in
      if n <? 1 then d_fail 0 ErrInvalidSize d
      else (d_split n ;;; go_ret x) d
  end.

Definition Varint64 : Dec Z := fun d =>
  match dE d with
  | Some _ => Ret (0, d)
  | None =>
      let '(ux, n) := varint_uvarint (dB d) in
      if n <? 1 then d_fail 0 ErrInvalidSize d
      else (d_split n ;;; go_ret (unzigzag ux)) d
  end.

Definition Uvarint : Dec Z := x <-- Uvarint64 ;; go_ret (i64 x).
Definition Uvarint32 : Dec Z := x <-- Uvarint64 ;; go_ret (u32 x).

(** The length test converts the length to [int]; the slice expression then
    uses the unsigned length. *)
Definition UvarintBytes : Dec bytes :=
  l <-- Uvarint64 ;;
  d <-- go_get ;;
  match dE d with
  | Some _ => go_ret []
  | None => if Z.of_nat (length (dB d)) <? i64 l then d_fail [] ErrInvalidSize
            else d_split l
  end.
Definition UvarintStr : Dec bytes := UvarintBytes.
End decbuf.

Definition d_fixed (n : nat) : Dec Z := fun d =>
  match dE d with
  | Some _ => Ret (0, d)
  | None => if (length (dB d) <? n)%nat then d_fail 0 ErrInvalidSize d
            else (b <-- d_split (Z.of_nat n) ;; go_ret (be_val b)) d
  end.
Definition Be64 : Dec Z := d_fixed 8.
Definition Be32 : Dec Z := d_fixed 4.
Definition DByte : Dec Z := d_fixed 1.
Definition Be64int64 : Dec Z := x <-- Be64 ;; go_ret (i64 x).
Definition Be32int : Dec Z := Be32.
Definition Be64Float64 : Dec Z := Be64.

Definition Skip (l : Z) : Dec unit := fun d =>
  if Z.of_nat (length (dB d)) <? l then d_fail tt ErrInvalidSize d
  else (d_split l ;;; go_ret tt) d.

Fixpoint drop_zeros (b : bytes) : bytes :=
  match b with
  | 0 :: ((_ :: _) as rest) => drop_zeros rest
  | _ => b
  end.
Definition ConsumePadding : Dec unit := fun d =>
  match dE d with
  | Some _ => Ret (tt, d)
  | None => let b := drop_zeros (dB d) in
            if (length b <? 1)%nat then Ret (tt, mkDecbuf b (Some ErrInvalidSize))
            else Ret (tt, mkDecbuf b None)
  end.

Definition DErr (d : Decbuf) : option enc_error := dE d.
Definition DLen (d : Decbuf) : Z := Z.of_nat (length (dB d)).
Definition DCrc32 (d : Decbuf) : Z := crc32_checksum (dB d).

(** ** Framed buffers *)

(** [NewDecbufAt]: four bytes of length, the contents, four bytes of checksum.
    [check] is [castagnoliTable != nil]. *)
Definition NewDecbufAt (bs : bytes) (off : nat) (check : bool) : Decbuf :=
  if (length bs <? off + 4)%nat then mkDecbuf [] (Some ErrInvalidSize)
  else
    let l := Z.to_nat (be_val (slice bs off (off + 4))) in
    if (length bs <? off + 4 + l + 4)%nat then mkDecbuf [] (Some ErrInvalidSize)
    else
      let b := slice bs (off + 4) (off + 4 + l + 4) in
      let dec := mkDecbuf (take (length b - 4) b) None in
      if check && negb (DCrc32 dec =? be_val (drop (length b - 4) b))
      then mkDecbuf [] (Some ErrInvalidChecksum)
      else dec.

(** [NewDecbufUvarintAt]: the length is an unsigned varint of at most
    [MaxVarintLen32] bytes. *)
Definition NewDecbufUvarintAt {V : VarintLib} (bs : bytes) (off : nat) : Decbuf :=
  if (length bs <? off + MaxVarintLen32)%nat then mkDecbuf [] (Some ErrInvalidSize)
  else
    let '(l, n) := varint_uvarint (slice bs off (off + MaxVarintLen32)) in
    if (n <=? 0) || (Z.of_nat MaxVarintLen32 <? n)
    then mkDecbuf [] (Some (ErrInvalidUvarint n))
    else
      let n := Z.to_nat n in
      let l := Z.to_nat l in
      if (length bs <? off + n + l + 4)%nat then mkDecbuf [] (Some ErrInvalidSize)
      else
        let b := slice bs (off + n) (off + n + l + 4) in
        let dec := mkDecbuf (take (length b - 4) b) None in
        if negb (DCrc32 dec =? be_val (drop (length b - 4) b))
        then mkDecbuf [] (Some ErrInvalidChecksum)
        else dec.

Definition NewDecbufRaw (bs : bytes) (length_ : nat) : Decbuf :=
  if (length bs <? length_)%nat then mkDecbuf [] (Some ErrInvalidSize)
  else mkDecbuf (slice bs 0 length_) None.

(** ** The variable-length integers round-trip *)

Lemma uvarint_byte x :
  Z.lor (Z.land x 127) 128 = x mod 128 + 128.
Proof.
  change 127 with (2 ^ 7 - 1). rewrite land_ones_mod by lia. change 128 with (1 * 2 ^ 7).
  apply lor_shift_add; [lia|]. apply Z.mod_pos_bound. lia.
Qed.

Lemma uvarint_byte_low x : Z.land (Z.lor (Z.land x 127) 128) 127 = x mod 128.
Proof.
  rewrite uvarint_byte. change 127 with (2 ^ 7 - 1). rewrite land_ones_mod by lia.
  change (2 ^ 7) with 128. zdlia.
Qed.

Lemma put_uvarint_fuel_u8 f x : 0 <= x -> Forall is_u8 (put_uvarint_fuel f x).
Proof.
  revert x. induction f as [|f IH]; intros x Hx; simpl; [constructor|].
  destruct (Z.ltb_spec x 128).
  - repeat constructor; zlia.
  - constructor.
    + rewrite uvarint_byte. zdlia.
    + apply IH. rewrite Z.shiftr_div_pow2 by lia. zdlia.
Qed.

Lemma put_uvarint_u8 x : 0 <= x -> Forall is_u8 (put_uvarint x).
Proof. apply put_uvarint_fuel_u8. Qed.

Lemma put_uvarint_length x : (1 <= length (put_uvarint x) <= 10)%nat.
Proof.
  assert (H : forall f x, (length (put_uvarint_fuel f x) <= f)%nat).
  { induction f as [|f IH]; intros y; simpl; [lia|]. destruct (y <? 128); simpl; [lia|].
    specialize (IH (Z.shiftr y 7)). lia. }
  assert (H1 : forall f x, (1 <= length (put_uvarint_fuel (S f) x))%nat).
  { intros f y. simpl. destruct (y <? 128); simpl; lia. }
  split; [apply (H1 9%nat)|apply (H 10%nat)].
Qed.

(** Ten bytes hold every 64-bit value: with any larger fuel the bytes are the same. *)
Lemma put_uvarint_fuel_enough f k x :
  0 <= x < 2 ^ (7 * Z.of_nat (S f)) ->
  put_uvarint_fuel (S f + k) x = put_uvarint_fuel (S f) x.
Proof.
  revert x. induction f as [|f IH]; intros x Hx.
  - change (2 ^ (7 * Z.of_nat 1)) with 128 in Hx. simpl.
    destruct (Z.ltb_spec x 128); [reflexivity|lia].
  - change (S (S f) + k)%nat with (S (S f + k)). cbn [put_uvarint_fuel].
    destruct (x <? 128); [reflexivity|]. f_equal. apply IH.
    rewrite Z.shiftr_div_pow2 by lia. change (2 ^ 7) with 128.
    replace (7 * Z.of_nat (S (S f))) with (7 * Z.of_nat (S f) + 7) in Hx by lia.
    rewrite Z.pow_add_r in Hx by lia. change (2 ^ 7) with 128 in Hx.
    split; [apply Z.div_pos; lia|apply Z.div_lt_upper_bound; lia].
Qed.

(** The accumulator step of the decoding loop: seven more bits. *)
Lemma uvarint_acc acc b s :
  0 <= s -> 0 <= acc < 2 ^ s -> 0 <= b -> b * 2 ^ s < 2 ^ 64 ->
  Z.lor acc (u64 (Z.shiftl b s)) = acc + b * 2 ^ s.
Proof.
  intros. rewrite Z.shiftl_mul_pow2 by lia.
  rewrite u64_id by (unfold is_u64; split; [apply Z.mul_nonneg_nonneg|]; lia).
  apply lor_shift_add; lia.
Qed.

Lemma uvarint_bounds x i :
  (i < 10)%nat -> 0 <= x < 2 ^ (64 - 7 * Z.of_nat i) -> x * 2 ^ (7 * Z.of_nat i) < 2 ^ 64.
Proof.
  intros Hi Hx. replace (2 ^ 64) with (2 ^ (64 - 7 * Z.of_nat i) * 2 ^ (7 * Z.of_nat i)).
  - apply Z.mul_lt_mono_pos_r; lia.
  - rewrite <- Z.pow_add_r by lia. f_equal. lia.
Qed.

(** What the value left to encode looks like after one more byte. *)
Lemma uvarint_next x i :
  (i < 10)%nat -> 128 <= x < 2 ^ (64 - 7 * Z.of_nat i) ->
  (i < 9)%nat /\ 0 <= x / 128 < 2 ^ (64 - 7 * Z.of_nat (S i)).
Proof.
  intros Hi Hx. assert (i < 9)%nat.
  { destruct (Nat.eq_dec i 9); [|lia]. subst.
    change (2 ^ (64 - 7 * Z.of_nat 9)) with 2 in Hx. lia. }
  split; [assumption|]. split; [apply Z.div_pos; lia|].
  apply Z.div_lt_upper_bound; [lia|]. change 128 with (2 ^ 7).
  rewrite <- Z.pow_add_r by lia.
  replace (7 + (64 - 7 * Z.of_nat (S i))) with (64 - 7 * Z.of_nat i) by lia. lia.
Qed.

Lemma uvarint_acc_next acc x i :
  (i < 10)%nat -> 0 <= acc < 2 ^ (7 * Z.of_nat i) ->
  0 <= acc + x mod 128 * 2 ^ (7 * Z.of_nat i) < 2 ^ (7 * Z.of_nat (S i)).
Proof.
  intros Hi Hacc. pose proof (Z.mod_pos_bound x 128 ltac:(lia)).
  replace (7 * Z.of_nat (S i)) with (7 + 7 * Z.of_nat i) by lia.
  rewrite Z.pow_add_r by lia. change (2 ^ 7) with 128. nia.
Qed.

Lemma binary_uvarint_loop_put f x i acc rest :
  (i + f = 10)%nat -> (i < 10)%nat -> 0 <= x < 2 ^ (64 - 7 * Z.of_nat i) ->
  0 <= acc < 2 ^ (7 * Z.of_nat i) ->
  binary_uvarint_loop (put_uvarint_fuel f x ++ rest) i acc (7 * Z.of_nat i)
  = (acc + x * 2 ^ (7 * Z.of_nat i),
     Z.of_nat i + Z.of_nat (length (put_uvarint_fuel f x))).
Proof.
  revert x i acc. induction f as [|f IH]; intros x i acc Hif Hi Hx Hacc; [lia|].
  pose proof (uvarint_bounds x i Hi Hx) as Hb. cbn [put_uvarint_fuel].
  destruct (Z.ltb_spec x 128) as [Hs|Hl]; cbn [app binary_uvarint_loop length];
    (replace (i =? MaxVarintLen64)%nat with false
       by (symmetry; apply Nat.eqb_neq; unfold MaxVarintLen64; lia)).
  - destruct (Z.ltb_spec x 128); [|lia].
    replace ((i =? MaxVarintLen64 - 1)%nat && (1 <? x)) with false.
    2: { symmetry. apply andb_false_iff. destruct (Nat.eqb_spec i (MaxVarintLen64 - 1)); auto.
         right. subst i. change (2 ^ (64 - 7 * Z.of_nat (MaxVarintLen64 - 1))) with 2 in Hx. lia. }
    rewrite uvarint_acc by lia. f_equal. lia.
  - destruct (uvarint_next x i Hi ltac:(lia)) as [Hi' Hx'].
    pose proof (uvarint_acc_next acc x i Hi Hacc) as Hacc'.
    rewrite uvarint_byte_low.
    destruct (Z.ltb_spec (Z.lor (Z.land x 127) 128) 128) as [Hc|_];
      [rewrite uvarint_byte in Hc; zdlia|].
    rewrite uvarint_acc; [| lia | lia | zdlia |].
    2: { pose proof (Z.mod_le x 128). nia. }
    rewrite Z.shiftr_div_pow2 by lia. change (2 ^ 7) with 128.
    replace (7 * Z.of_nat i + 7) with (7 * Z.of_nat (S i)) by lia.
    rewrite IH by (lia || assumption). f_equal; [|lia].
    replace (7 * Z.of_nat (S i)) with (7 + 7 * Z.of_nat i) by lia.
    rewrite Z.pow_add_r by lia. change (2 ^ 7) with 128.
    pose proof (Z.div_mod x 128 ltac:(lia)). nia.
Qed.

(** ** The standard library's decoder meets the contract *)

Lemma binary_uvarint_loop_range buf i acc x n :
  Forall is_u8 buf -> (i <= 10)%nat ->
  ((i < 10)%nat -> 0 <= acc < 2 ^ (7 * Z.of_nat i)) ->
  binary_uvarint_loop buf i acc (7 * Z.of_nat i) = (x, n) ->
  is_u64 x /\ n <= Z.of_nat i + Z.of_nat (length buf).
Proof.
  intros Hb. revert i acc. induction Hb as [|b buf Hb _ IH]; intros i acc Hi Hacc E;
    cbn [binary_uvarint_loop length] in E |- *.
  { injection E as <- <-. unfold is_u64. lia. }
  destruct (Nat.eqb_spec i MaxVarintLen64) as [->|Hne].
  { injection E as <- <-. unfold is_u64. lia. }
  unfold MaxVarintLen64 in Hne. assert (Hi9 : (i < 10)%nat) by lia.
  specialize (Hacc Hi9). unfold is_u8 in Hb.
  assert (Hp : (i < 9)%nat -> 2 ^ (7 * Z.of_nat i) <= 2 ^ 56)
    by (intros; apply Z.pow_le_mono_r; lia).
  destruct (Z.ltb_spec b 128) as [Hlt|Hge].
  - destruct ((i =? MaxVarintLen64 - 1)%nat && (1 <? b)) eqn:Eo.
    { injection E as <- <-. unfold is_u64. lia. }
    injection E as <- <-. split; [|lia]. apply andb_false_iff in Eo.
    assert (Hbs : b * 2 ^ (7 * Z.of_nat i) + 2 ^ (7 * Z.of_nat i) <= 2 ^ 64).
    { destruct (Nat.eq_dec i 9) as [->|]; [|nia].
      change (2 ^ (7 * Z.of_nat 9)) with (2 ^ 63).
      destruct Eo as [Eo|Eo]; [discriminate|]. apply Z.ltb_ge in Eo. lia. }
    rewrite uvarint_acc by nia. unfold is_u64. nia.
  - replace (7 * Z.of_nat i + 7) with (7 * Z.of_nat (S i)) in E by lia.
    apply IH in E; [destruct E; split; [assumption|lia] | lia |].
    intros Hi'. change 127 with (2 ^ 7 - 1). rewrite land_ones_mod by lia.
    change (2 ^ 7) with 128. pose proof (Z.mod_pos_bound b 128 ltac:(lia)).
    specialize (Hp ltac:(lia)).
    rewrite uvarint_acc by nia. apply uvarint_acc_next; lia.
Qed.

#[export] Instance binary_VarintLib : VarintLib := binary_uvarint.

#[export] Instance binary_VarintLibOK : VarintLibOK binary_VarintLib.
Proof.
  split.
  - intros x rest Hx. unfold is_u64 in Hx.
    pose proof (binary_uvarint_loop_put 10 x 0 0 rest) as H.
    change (7 * Z.of_nat 0) with 0 in H.
    unfold varint_uvarint, binary_VarintLib, binary_uvarint, put_uvarint, MaxVarintLen64.
    rewrite H by (simpl; lia). f_equal.
    rewrite Z.pow_0_r. lia.
  - intros buf x n Hb E.
    apply (binary_uvarint_loop_range buf 0 0) in E; simpl; lia || assumption.
Qed.

(** ** Zig-zag *)

Lemma unzigzag_zigzag x : is_i64 x -> unzigzag (zigzag x) = x.
Proof.
  intros Hx. unfold unzigzag, zigzag. rewrite Z.shiftl_mul_pow2, Z.shiftr_div_pow2 by lia.
  rewrite land_1_mod. change (2 ^ 1) with 2.
  destruct (Z.ltb_spec x 0) as [Hn|Hp].
  - assert (E : u64 (Z.lnot (u64 (u64 x * 2))) = -1 - 2 * x).
    { unfold Z.lnot, Z.pred. zdlia. }
    rewrite E. replace ((-1 - 2 * x) mod 2 =? 0) with false by (symmetry; apply Z.eqb_neq; zdlia).
    replace ((-1 - 2 * x) / 2) with (-1 - x) by (Z.div_mod_to_equations; lia).
    rewrite i64_id by zlia. unfold Z.lnot, Z.pred. lia.
  - assert (E : u64 (u64 x * 2) = 2 * x) by zdlia.
    rewrite E. replace (2 * x mod 2 =? 0) with true by (symmetry; apply Z.eqb_eq; zdlia).
    replace (2 * x / 2) with x by (Z.div_mod_to_equations; lia). apply i64_id. assumption.
Qed.

Lemma zigzag_u64 x : is_u64 (zigzag x).
Proof. unfold zigzag. destruct (x <? 0); apply u64_range. Qed.

#[export] Hint Resolve zigzag_u64 put_uvarint_u8 : goint.

(** ** Readers undo writers *)

(** What a format promises its users: [put] appends [enc a], and [get], started
    on those bytes, returns [a] and leaves the rest unread. *)
Class Codec {A : Type} (wf : A -> Prop) (put : A -> Encbuf -> Encbuf) (get : Dec A) := {
  enc : A -> bytes;
  codec_put : forall a e, wf a -> eB (put a e) = eB e ++ enc a;
  codec_get : forall a rest, wf a ->
    get (mkDecbuf (enc a ++ rest) None) = Ret (a, mkDecbuf rest None)
}.

(** Runs a reader that opens a decoding program, through its [Codec]. *)
Ltac dec_step :=
  lazymatch goal with
  | |- context [go_bind ?m ?k ?s] =>
      erewrite (go_bind_ret m k s); [|apply (codec_get (get := m)); try assumption]
  end.

Lemma d_split_app a rest e :
  d_split (Z.of_nat (length a)) (mkDecbuf (a ++ rest) e) = Ret (a, mkDecbuf rest e).
Proof.
  unfold d_split. cbn [dB dE]. rewrite length_app.
  destruct (Z.ltb_spec (Z.of_nat (length a)) 0); [lia|].
  destruct (Z.ltb_spec (Z.of_nat (length a + length rest)) (Z.of_nat (length a))); [lia|].
  cbn [orb]. rewrite Nat2Z.id, take_app_length, drop_app_length. reflexivity.
Qed.

Lemma d_fixed_app n x rest :
  d_fixed n (mkDecbuf (be_bytes n x ++ rest) None)
  = Ret (x mod 2 ^ (8 * Z.of_nat n), mkDecbuf rest None).
Proof.
  unfold d_fixed. cbn [dE dB]. rewrite length_app, length_be_bytes.
  destruct (Nat.ltb_spec (n + length rest) n); [lia|].
  pose proof (d_split_app (be_bytes n x) rest None) as H1. rewrite length_be_bytes in H1.
  rewrite (go_bind_ret _ _ _ _ _ H1), be_val_bytes. reflexivity.
Qed.

Section codecs.
Context {V : VarintLib} {VOK : VarintLibOK V}.

(** The two varint readers share the lookup of the encoded value. *)
Lemma varint_split x rest :
  is_u64 x ->
  varint_uvarint (put_uvarint x ++ rest) = (x, Z.of_nat (length (put_uvarint x)))
  /\ (Z.of_nat (length (put_uvarint x)) <? 1) = false.
Proof.
  intros Hx. split; [apply varint_decodes; assumption|].
  pose proof (put_uvarint_length x). apply Z.ltb_ge. lia.
Qed.

Lemma uvarint64_get x rest : is_u64 x ->
  Uvarint64 (mkDecbuf (put_uvarint x ++ rest) None) = Ret (x, mkDecbuf rest None).
Proof.
  intros Hx. unfold Uvarint64. cbn [dE dB].
  destruct (varint_split x rest Hx) as [-> ->].
  unfold go_bind. rewrite d_split_app. reflexivity.
Qed.

Lemma varint64_get x rest : is_i64 x ->
  Varint64 (mkDecbuf (put_varint x ++ rest) None) = Ret (x, mkDecbuf rest None).
Proof.
  intros Hx. unfold Varint64, put_varint. cbn [dE dB].
  destruct (varint_split (zigzag x) rest (zigzag_u64 x)) as [-> ->].
  unfold go_bind. rewrite d_split_app. cbv [go_ret].
  rewrite unzigzag_zigzag by assumption. reflexivity.
Qed.

Definition is_len (x : Z) : Prop := 0 <= x <= MaxInt64.
Definition wf_bytes (b : bytes) : Prop := is_len (Z.of_nat (length b)).

Lemma is_len_words x : is_len x -> is_u64 x /\ is_i64 x.
Proof. unfold is_len. zlia. Qed.

Lemma uvarint_get x rest : is_len x ->
  Uvarint (mkDecbuf (put_uvarint x ++ rest) None) = Ret (x, mkDecbuf rest None).
Proof.
  intros [Hu Hi]%is_len_words. unfold Uvarint. go_step (uvarint64_get x rest Hu).
  rewrite i64_id by assumption. reflexivity.
Qed.

Lemma uvarint_bytes_get b rest : wf_bytes b ->
  UvarintBytes (mkDecbuf ((put_uvarint (Z.of_nat (length b)) ++ b) ++ rest) None)
  = Ret (b, mkDecbuf rest None).
Proof.
  intros [Hu Hi]%is_len_words. unfold UvarintBytes. rewrite <- app_assoc.
  go_step (uvarint64_get _ (b ++ rest) Hu). unfold go_bind, go_get. cbn [dE dB].
  rewrite length_app, i64_id by assumption.
  destruct (Z.ltb_spec (Z.of_nat (length b + length rest)) (Z.of_nat (length b))); [lia|].
  apply d_split_app.
Qed.

#[export] Instance codec_uvarint64 : Codec is_u64 PutUvarint64 Uvarint64 :=
  Build_Codec _ is_u64 PutUvarint64 Uvarint64 (put_uvarint) (fun _ _ _ => eq_refl) (uvarint64_get).

#[export] Instance codec_varint64 : Codec is_i64 PutVarint64 Varint64 :=
  Build_Codec _ is_i64 PutVarint64 Varint64 (put_varint) (fun _ _ _ => eq_refl) (varint64_get).

#[export] Instance codec_uvarint : Codec is_len PutUvarint Uvarint.
Proof.
  refine {| enc := put_uvarint; codec_get := uvarint_get |}.
  intros x e [Hu _]%is_len_words. unfold PutUvarint. rewrite u64_id by assumption. reflexivity.
Defined.

Lemma put_uvarint_bytes_eq b e : wf_bytes b ->
  eB (PutUvarintBytes b e) = eB e ++ (put_uvarint (Z.of_nat (length b)) ++ b).
Proof.
  intros Hb. unfold PutUvarintBytes, PutBytes. cbn [eB].
  rewrite (codec_put (Codec := codec_uvarint)) by exact Hb. rewrite <- app_assoc. reflexivity.
Qed.

#[export] Instance codec_uvarint_bytes : Codec wf_bytes PutUvarintBytes UvarintBytes :=
  {| enc := fun b => put_uvarint (Z.of_nat (length b)) ++ b;
     codec_put := put_uvarint_bytes_eq; codec_get := uvarint_bytes_get |}.

#[export] Instance codec_uvarint_str : Codec wf_bytes PutUvarintStr UvarintStr :=
  {| enc := fun b => put_uvarint (Z.of_nat (length b)) ++ b;
     codec_put := put_uvarint_bytes_eq; codec_get := uvarint_bytes_get |}.
End codecs.

Lemma d_fixed_get n x rest : 0 <= x < 2 ^ (8 * Z.of_nat n) ->
  d_fixed n (mkDecbuf (be_bytes n x ++ rest) None) = Ret (x, mkDecbuf rest None).
Proof. intros Hx. rewrite d_fixed_app, Z.mod_small by assumption. reflexivity. Qed.

Lemma dbyte_get x rest : is_u8 x ->
  DByte (mkDecbuf (x :: rest) None) = Ret (x, mkDecbuf rest None).
Proof.
  intros Hx. pose proof (d_fixed_get 1 x rest Hx) as H. simpl be_bytes in H.
  rewrite Z.shiftr_0_r, u8_id in H by assumption. exact H.
Qed.

Lemma be64int64_get x rest : is_i64 x ->
  Be64int64 (mkDecbuf (be_bytes 8 (u64 x) ++ rest) None) = Ret (x, mkDecbuf rest None).
Proof.
  intros Hx. unfold Be64int64, Be64. go_step (d_fixed_get 8 (u64 x) rest (u64_range x)).
  rewrite i64_u64, i64_id by assumption. reflexivity.
Qed.

#[export] Instance codec_be64 : Codec is_u64 PutBE64 Be64 :=
  Build_Codec _ is_u64 PutBE64 Be64 (be_bytes 8) (fun _ _ _ => eq_refl) (d_fixed_get 8).
#[export] Instance codec_be64_float : Codec is_u64 PutBEFloat64 Be64Float64 :=
  Build_Codec _ is_u64 PutBEFloat64 Be64Float64 (be_bytes 8) (fun _ _ _ => eq_refl) (d_fixed_get 8).
#[export] Instance codec_be32 : Codec is_u32 PutBE32 Be32 :=
  Build_Codec _ is_u32 PutBE32 Be32 (be_bytes 4) (fun _ _ _ => eq_refl) (d_fixed_get 4).
#[export] Instance codec_byte : Codec is_u8 PutByte DByte :=
  Build_Codec _ is_u8 PutByte DByte (fun c => [c]) (fun _ _ _ => eq_refl) (dbyte_get).
#[export] Instance codec_be64int64 : Codec is_i64 PutBE64int64 Be64int64 :=
  Build_Codec _ is_i64 PutBE64int64 Be64int64 (fun x => be_bytes 8 (u64 x)) (fun _ _ _ => eq_refl) (be64int64_get).

(** ** Frames: length, contents, checksum *)

Definition frame (c : bytes) : bytes :=
  be_bytes 4 (Z.of_nat (length c)) ++ c ++ be_bytes 4 (crc32_checksum c).

Lemma crc32_u32 c : is_u32 (crc32_checksum c).
Proof. apply u32_range. Qed.

Lemma slice_app l i j : (i <= j)%nat ->
  drop i l = slice l i j ++ drop j l.
Proof.
  intros H. unfold slice. rewrite <- (take_drop (j - i) (drop i l)) at 1.
  rewrite drop_drop. replace (i + (j - i))%nat with j by lia. reflexivity.
Qed.

Lemma length_slice l i j : (i <= j <= length l)%nat -> length (slice l i j) = (j - i)%nat.
Proof. intros H. unfold slice. rewrite length_take, length_drop. lia. Qed.

Lemma Forall_slice {P} l i j : Forall P l -> Forall P (slice l i j).
Proof. intros. unfold slice. auto using Forall_take, Forall_drop. Qed.

(** A slice of known contents. *)
Lemma slice_of_drop l i a rest :
  drop i l = a ++ rest -> slice l i (i + length a) = a.
Proof.
  intros E. unfold slice. rewrite E. replace (i + length a - i)%nat with (length a) by lia.
  apply take_app_length.
Qed.

Lemma drop_app_shift {A} (l : list A) i a rest :
  drop i l = a ++ rest -> drop (i + length a) l = rest.
Proof. intros E. rewrite <- drop_drop, E. apply drop_app_length. Qed.

(** What the two length tests and the checksum test establish. *)
Lemma NewDecbufAt_complete bs off c rest :
  Z.of_nat (length c) < 2 ^ 32 ->
  drop off bs = frame c ++ rest ->
  NewDecbufAt bs off true = mkDecbuf c None.
Proof.
  intros Hc E. unfold frame in E. rewrite <- !app_assoc in E.
  pose proof (slice_of_drop _ _ _ _ E) as Hl. rewrite length_be_bytes in Hl.
  pose proof (drop_app_shift _ _ _ _ E) as E2. rewrite length_be_bytes, app_assoc in E2.
  pose proof (slice_of_drop _ _ _ _ E2) as Hb.
  rewrite length_app, length_be_bytes in Hb.
  assert (Hlen : (length (drop off bs) = 4 + (length c + (4 + length rest)))%nat).
  { rewrite E, !length_app, !length_be_bytes. reflexivity. }
  rewrite length_drop in Hlen.
  unfold NewDecbufAt. destruct (Nat.ltb_spec (length bs) (off + 4)); [lia|].
  rewrite Hl, be_val_bytes, Z.mod_small by lia. rewrite Nat2Z.id.
  destruct (Nat.ltb_spec (length bs) (off + 4 + length c + 4)); [lia|].
  replace (off + 4 + length c + 4)%nat with (off + 4 + (length c + 4))%nat by lia.
  rewrite Hb, length_app, length_be_bytes.
  replace (length c + 4 - 4)%nat with (length c) by lia.
  rewrite take_app_length, drop_app_length. unfold DCrc32. cbn [dB].
  rewrite be_val_bytes, Z.mod_small by apply crc32_u32. rewrite Z.eqb_refl. reflexivity.
Qed.

Lemma NewDecbufAt_sound bs off c :
  Forall is_u8 bs -> NewDecbufAt bs off true = mkDecbuf c None ->
  Z.of_nat (length c) < 2 ^ 32 /\ exists rest, drop off bs = frame c ++ rest.
Proof.
  intros H8. unfold NewDecbufAt.
  destruct (Nat.ltb_spec (length bs) (off + 4)) as [|H1]; [discriminate|].
  set (l := Z.to_nat _).
  destruct (Nat.ltb_spec (length bs) (off + 4 + l + 4)) as [|H2]; [discriminate|].
  set (b := slice bs (off + 4) _).
  destruct (_ && _) eqn:Ecrc; [discriminate|]. intros [= <-].
  cbn [andb] in Ecrc. apply negb_false_iff, Z.eqb_eq in Ecrc. unfold DCrc32 in Ecrc. cbn [dB] in Ecrc.
  assert (Hb : length b = (l + 4)%nat) by (subst b; rewrite length_slice; lia).
  rewrite Hb in Ecrc |- *. replace (l + 4 - 4)%nat with l in Ecrc |- * by lia.
  pose proof (be_val_bound _ (Forall_slice bs off (off + 4) H8)) as Hv.
  pose proof (length_slice bs off (off + 4) ltac:(lia)) as Hl4.
  rewrite Hl4 in Hv. replace (off + 4 - off)%nat with 4%nat in * by lia.
  assert (Hlen : length (take l b) = l) by (rewrite length_take; lia).
  split; [rewrite Hlen; subst l; lia|].
  exists (drop (off + 4 + l + 4) bs). unfold frame. rewrite Hlen, Ecrc.
  assert (Hd : length (drop l b) = 4%nat) by (rewrite length_drop; lia).
  rewrite <- Hd at 2. rewrite be_bytes_val by (subst b; auto using Forall_drop, Forall_slice).
  subst l. rewrite Z2Nat.id by lia. rewrite <- Hl4 at 1.
  rewrite be_bytes_val by auto using Forall_slice. rewrite take_drop.
  rewrite <- app_assoc, (slice_app bs off (off + 4)) by lia.
  rewrite (slice_app bs (off + 4) (off + 4 + Z.to_nat (be_val (slice bs off (off + 4))) + 4)) by lia.
  reflexivity.
Qed.

(** ** Reads consume input

    What makes the loops over a buffer end: a read that leaves no error has
    shortened the buffer. *)
Section shrinks.
Context {V : VarintLib}.

(** A read shortens the buffer strictly, or leaves it in error. *)
Definition shrinks {A} (m : Dec A) : Prop :=
  forall d x d', m d = Ret (x, d') ->
  (length (dB d') <= length (dB d))%nat
  /\ (dE d' = None -> dE d = None /\ (length (dB d') < length (dB d))%nat).

Lemma d_split_shrinks {A} n (x : A) d y d' : (n <? 1) = false ->
  go_bind (d_split n) (fun _ => go_ret x) d = Ret (y, d') ->
  y = x /\ dE d' = dE d /\ (length (dB d') < length (dB d))%nat.
Proof.
  intros Hn. unfold go_bind, d_split, go_ret. apply Z.ltb_ge in Hn.
  destruct (Z.ltb_spec n 0); cbn [orb]; [discriminate|].
  destruct (Z.ltb_spec (Z.of_nat (length (dB d))) n); [discriminate|].
  intros [= <- <-]. cbn [dE dB]. rewrite length_drop. split; [reflexivity|]. split; [reflexivity|lia].
Qed.

Lemma Uvarint64_shrinks : shrinks Uvarint64.
Proof.
  intros d x d'. unfold Uvarint64. destruct (dE d) as [e|] eqn:Ed.
  - intros [= <- <-]. split; [lia|]. congruence.
  - destruct (varint_uvarint (dB d)) as [v n]. destruct (n <? 1) eqn:En.
    + intros [= <- <-]. cbn. split; [lia|discriminate].
    + intros (_ & _ & Hl)%(d_split_shrinks _ _ _ _ _ En). split; [lia|auto].
Qed.

Lemma Varint64_shrinks : shrinks Varint64.
Proof.
  intros d x d'. unfold Varint64. destruct (dE d) as [e|] eqn:Ed.
  - intros [= <- <-]. split; [lia|]. congruence.
  - destruct (varint_uvarint (dB d)) as [v n]. destruct (n <? 1) eqn:En.
    + intros [= <- <-]. cbn. split; [lia|discriminate].
    + intros (_ & _ & Hl)%(d_split_shrinks _ _ _ _ _ En). split; [lia|auto].
Qed.

Lemma shrinks_bind {A B} (m : Dec A) (k : A -> Dec B) :
  shrinks m -> (forall x d y d', k x d = Ret (y, d') ->
    (length (dB d') <= length (dB d))%nat /\ (dE d' = None -> dE d = None)) ->
  shrinks (go_bind m k).
Proof.
  intros Hm Hk d y d'. unfold go_bind. destruct (m d) as [[x d1]|] eqn:E1; [|discriminate].
  intros E2. destruct (Hm _ _ _ E1) as [H1 H2], (Hk _ _ _ _ E2) as [H3 H4].
  split; [lia|]. intros H. destruct (H2 (H4 H)). split; [assumption|lia].
Qed.

Lemma shrinks_weak {A} (m : Dec A) d y d' : shrinks m -> m d = Ret (y, d') ->
  (length (dB d') <= length (dB d))%nat /\ (dE d' = None -> dE d = None).
Proof. intros Hm E. destruct (Hm _ _ _ E) as [H1 H2]. split; [exact H1|]. intros H. apply H2, H. Qed.

End shrinks.

(** ** Sequences of fields

    A format is a sequence of typed fields; [put_field] and [get_field] are the
    writer and the reader of one. *)
Inductive field : Type :=
| FByte (c : Z) | FBE32 (x : Z) | FBE64 (x : Z) | FUvarint (x : Z) | FVarint (x : Z)
| FStr (s : bytes).

Definition wf_field (f : field) : Prop :=
  match f with
  | FByte c => is_u8 c | FBE32 x => is_u32 x | FBE64 x => is_u64 x
  | FUvarint x => is_u64 x | FVarint x => is_i64 x | FStr s => wf_bytes s
  end.

Definition put_field (f : field) : Encbuf -> Encbuf :=
  match f with
  | FByte c => PutByte c | FBE32 x => PutBE32 x | FBE64 x => PutBE64 x
  | FUvarint x => PutUvarint64 x | FVarint x => PutVarint64 x | FStr s => PutUvarintStr s
  end.

(** Reads a field of the same kind as [f]. *)
Definition get_field {V : VarintLib} (f : field) : Dec field :=
  match f with
  | FByte _ => c <-- DByte ;; go_ret (FByte c)
  | FBE32 _ => x <-- Be32 ;; go_ret (FBE32 x)
  | FBE64 _ => x <-- Be64 ;; go_ret (FBE64 x)
  | FUvarint _ => x <-- Uvarint64 ;; go_ret (FUvarint x)
  | FVarint _ => x <-- Varint64 ;; go_ret (FVarint x)
  | FStr _ => s <-- UvarintStr ;; go_ret (FStr s)
  end.

Definition put_fields (fs : list field) (e : Encbuf) : Encbuf :=
  fold_left (fun e f => put_field f e) fs e.

Fixpoint get_fields {V : VarintLib} (fs : list field) : Dec (list field) :=
  match fs with
  | [] => go_ret []
  | f :: fs' => x <-- get_field f ;; xs <-- get_fields fs' ;; go_ret (x :: xs)
  end.

Section fields.
Context {V : VarintLib} {VOK : VarintLibOK V}.

Lemma field_codec f : wf_field f ->
  exists bs, (forall e, eB (put_field f e) = eB e ++ bs)
    /\ forall rest, get_field f (mkDecbuf (bs ++ rest) None) = Ret (f, mkDecbuf rest None).
Proof.
  destruct f; cbn [wf_field put_field get_field]; intros Hw;
    (eexists; split; [intros e; apply codec_put; exact Hw|]);
    intros rest; dec_step; reflexivity.
Qed.

Lemma fields_codec fs : Forall wf_field fs ->
  exists bs, (forall e, eB (put_fields fs e) = eB e ++ bs)
    /\ forall rest, get_fields fs (mkDecbuf (bs ++ rest) None) = Ret (fs, mkDecbuf rest None).
Proof.
  induction 1 as [|f fs Hf _ (bs & Hput & Hget)].
  - exists []. split; [intros; symmetry; apply app_nil_r|reflexivity].
  - destruct (field_codec f Hf) as (b & Hb & Hg). exists (b ++ bs). split.
    + intros e. unfold put_fields. cbn [fold_left]. fold (put_fields fs (put_field f e)).
      rewrite Hput, Hb. symmetry. apply app_assoc.
    + intros rest. cbn [get_fields]. rewrite <- app_assoc. go_step Hg. go_step Hget. reflexivity.
Qed.
End fields.

(** ** Properties *)

(** whatever sequence of fields (bytes, fixed-width integers, signed and
    unsigned varints, length-prefixed strings) is appended to an [Encbuf], a
    [Decbuf] over the appended bytes reads the same fields back, consumes
    exactly those bytes and ends without an error. *)
Theorem encbuf_decbuf_roundtrip (V : VarintLib) (VOK : VarintLibOK V)
    (fs : list field) (e : Encbuf) (rest : bytes) :
  Forall wf_field fs ->
  get_fields fs (mkDecbuf (drop (length (eB e)) (eB (put_fields fs e)) ++ rest) None)
  = Ret (fs, mkDecbuf rest None).
Proof.
  intros H. destruct (fields_codec fs H) as (bs & Hput & Hget).
  rewrite Hput, drop_app_length. apply Hget.
Qed.

(** [NewDecbufAt] with a checksum table returns contents [c] without an
    error exactly when the bytes at the offset are a frame of [c]: its length
    in four big-endian bytes, [c] itself and the Castagnoli CRC-32 of [c]. *)
Theorem new_decbuf_at_iff_frame (bs : bytes) (off : nat) (c : bytes) :
  Forall is_u8 bs ->
  (NewDecbufAt bs off true = mkDecbuf c None <->
   Z.of_nat (length c) < 2 ^ 32 /\ exists rest, drop off bs = frame c ++ rest).
Proof.
  intros H8. split.
  - apply NewDecbufAt_sound. exact H8.
  - intros [Hc [rest E]]. eapply NewDecbufAt_complete; eassumption.
Qed.

(** C37: on a buffer without an error, [UvarintBytes] panics exactly when the
    encoded length is [2^63] or more: the length test compares after converting
    to a signed [int], the slice expression uses the unsigned value.  In every
    other case it returns normally. *)
Theorem uvarint_bytes_panics_iff (V : VarintLib) (VOK : VarintLibOK V) (b : bytes) :
  Forall is_u8 b -> Z.of_nat (length b) < 2 ^ 63 ->
  (UvarintBytes (mkDecbuf b None) = Panic <->
   1 <= snd (varint_uvarint b) /\ 2 ^ 63 <= fst (varint_uvarint b)).
Proof.
  intros H8 Hlen. unfold UvarintBytes, Uvarint64, go_bind at 1 2. cbn [dE dB].
  destruct (varint_uvarint b) as [x n] eqn:E. cbn [fst snd].
  destruct (varint_in_bounds _ _ _ H8 E) as [Hx Hn]. unfold is_u64 in Hx.
  destruct (Z.ltb_spec n 1) as [Hlt|Hge].
  { cbn. split; [discriminate|lia]. }
  unfold go_bind, d_split at 1, go_get, go_ret. cbn [dB dE].
  destruct (Z.ltb_spec n 0); [lia|].
  destruct (Z.ltb_spec (Z.of_nat (length b)) n); [lia|]. cbn [orb dE dB].
  set (r := drop (Z.to_nat n) b).
  assert (Hr : (length r <= length b)%nat) by (subst r; rewrite length_drop; lia).
  unfold i64. rewrite (Z.mod_small x) by lia. unfold d_split. cbn [dB dE].
  destruct (Z.ltb_spec x 0); [lia|].
  destruct (Z.ltb_spec x (2 ^ 63)) as [Hs|Hb].
  - destruct (Z.ltb_spec (Z.of_nat (length r)) x) as [|H3]; [cbn; split; [discriminate|lia]|].
    cbn. apply Z.ltb_ge in H3. rewrite H3. split; [discriminate|lia].
  - destruct (Z.ltb_spec (Z.of_nat (length r)) (x - 2 ^ 64)); [lia|].
    cbn. replace (Z.of_nat (length r) <? x) with true by (symmetry; apply Z.ltb_lt; lia).
    split; [lia|reflexivity].
Qed.

Lemma uvarint_bytes_panics_iff_witness :
  UvarintBytes (V := binary_VarintLib) (mkDecbuf [128; 128; 128; 128; 128; 128; 128; 128; 128; 1; 65] None)
  = Panic.
Proof.
  apply (uvarint_bytes_panics_iff binary_VarintLib binary_VarintLibOK);
    [repeat constructor; compute; congruence|vm_compute; reflexivity|].
  vm_compute. split; congruence.
Defined.
