(* ===== verification/Bstream.v ===== *)
(** * Bit streams: [tsdb/chunkenc/bstream.go]

    The bit-level writer and reader under every chunk encoding.  The writer's
    contract is [repr b l]: the stream [b] holds exactly the bits [l], most
    significant first, padded with zeros to a whole byte.  The reader's
    contract is [Reads m a l]: on any reader whose unread bits start with [l],
    [m] succeeds with [a] and consumes exactly [l].  The clients (varbit and
    the XOR chunk) are proved against these two contracts only. *)

From stdpp Require Import base list numbers.
From Stdlib Require Import ZArith Lia.
From S2P Require Import Prelude Encoding.

(** ** The writer *)

(** [bs_count] is the number of bits still free in the last byte. *)
Record bstream := mkBstream { bs_stream : bytes; bs_count : Z }.

Definition bs_Reset (stream : bytes) : bstream := mkBstream stream 0.
Definition bs_bytes (b : bstream) : bytes := bs_stream b.

(** [b.stream[len(b.stream)-1] = f(b.stream[len(b.stream)-1])].  The stream is
    never empty here: [bs_count <> 0] only after a byte was appended. *)
Definition upd_last (f : Z -> Z) (l : bytes) : bytes := alter f (length l - 1)%nat l.

Definition writeBit (bit : bool) (b : bstream) : bstream :=
  let b := if bs_count b =? 0 then mkBstream (bs_stream b ++ [0]) 8 else b in
  let stream :=
    if bit then upd_last (fun x => Z.lor x (u8 (Z.shiftl 1 (bs_count b - 1)))) (bs_stream b)
    else bs_stream b in
  mkBstream stream (bs_count b - 1).

Definition writeByte (byt : Z) (b : bstream) : bstream :=
  if bs_count b =? 0 then mkBstream (bs_stream b ++ [byt]) 0
  else
    let stream := upd_last (fun x => Z.lor x (Z.shiftr byt (8 - bs_count b))) (bs_stream b) in
    mkBstream (stream ++ [u8 (Z.shiftl byt (bs_count b))]) (bs_count b).

(** The first loop of [writeBits] runs [nbits / 8] times, the second [nbits mod 8]. *)
Fixpoint writeBits_bytes (k : nat) (u : Z) (b : bstream) : Z * bstream :=
  match k with
  | O => (u, b)
  | S k' => writeBits_bytes k' (u64 (Z.shiftl u 8)) (writeByte (u8 (Z.shiftr u 56)) b)
  end.
Fixpoint writeBits_bits (k : nat) (u : Z) (b : bstream) : bstream :=
  match k with
  | O => b
  | S k' => writeBits_bits k' (u64 (Z.shiftl u 1)) (writeBit (Z.shiftr u 63 =? 1) b)
  end.
Definition writeBits (u : Z) (nbits : nat) (b : bstream) : bstream :=
  let '(u, b) := writeBits_bytes (nbits / 8) (u64 (Z.shiftl u (64 - Z.of_nat nbits))) b in
  writeBits_bits (nbits mod 8) u b.

(** ** The reader *)

Inductive rd_err : Type :=
| EOF
| UnexpectedEOF
| VarintOverflow
| InvalidBitPattern (d : Z).

Record bstreamReader := mkReader {
  br_stream : bytes;
  br_streamOffset : nat;
  br_buffer : Z;
  br_valid : Z;
  br_last : Z
}.

(** Readers return a value or an error and leave a new reader state. *)
Definition Rd (A : Type) : Type := bstreamReader -> (rd_err + A) * bstreamReader.
Definition rd_ret {A} (a : A) : Rd A := fun r => (inr a, r).
Definition rd_err_ret {A} (e : rd_err) : Rd A := fun r => (inl e, r).
Definition rd_bind {A B} (m : Rd A) (k : A -> Rd B) : Rd B :=
  fun r => match m r with
           | (inr a, r') => k a r'
           | (inl e, r') => (inl e, r')
           end.
(** [x, err := m1; if err != nil { x, err = m2 }] *)
Definition rd_else {A} (m1 m2 : Rd A) : Rd A :=
  fun r => match m1 r with
           | (inr a, r') => (inr a, r')
           | (inl _, r') => m2 r'
           end.

Declare Scope rd_scope.
Delimit Scope rd_scope with rd.
Notation "x <~ m ;; k" := (rd_bind m (fun x => k))
  (at level 100, m at next level, k at level 200, right associativity) : rd_scope.
Open Scope rd_scope.

Definition newBReader (b : bytes) : bstreamReader :=
  let last := match rev b with [] => 0 | x :: _ => x end in
  mkReader b 0 0 0 last.

(** The byte loop of [loadNextBuffer]: [nbytes - skip] bytes from the offset. *)
Definition load_bytes (r : bstreamReader) (nbytes skip : nat) (buffer : Z) : Z :=
  fold_left
    (fun buffer i =>
       Z.lor buffer (u64 (Z.shiftl (nth (br_streamOffset r + i) (br_stream r) 0)
                            (8 * (Z.of_nat nbytes - Z.of_nat i - 1)))))
    (seq 0 (nbytes - skip)) buffer.

Definition loadNextBuffer (nbits : Z) (r : bstreamReader) : bool * bstreamReader :=
  let off := br_streamOffset r in
  let len := length (br_stream r) in
  if (len <=? off)%nat then (false, r)
  else if (off + 8 <? len)%nat then
    (true, mkReader (br_stream r) (off + 8) (be_val (take 8 (drop off (br_stream r)))) 64 (br_last r))
  else
    let nbytes := Z.to_nat (nbits / 8 + 1) in
    let nbytes := if (len <? off + nbytes)%nat then (len - off)%nat else nbytes in
    let '(buffer, skip) :=
      if (off + nbytes =? len)%nat then (Z.lor 0 (br_last r), 1%nat) else (0, 0%nat) in
    let buffer := load_bytes r nbytes skip buffer in
    (true, mkReader (br_stream r) (off + nbytes) buffer (u8 (Z.of_nat nbytes * 8)) (br_last r)).

Definition set_valid (r : bstreamReader) (v : Z) : bstreamReader :=
  mkReader (br_stream r) (br_streamOffset r) (br_buffer r) v (br_last r).

Definition readBitFast : Rd bool := fun r =>
  if br_valid r =? 0 then (inl EOF, r)
  else
    let valid := br_valid r - 1 in
    let bitmask := u64 (Z.shiftl 1 valid) in
    (inr (negb (Z.land (br_buffer r) bitmask =? 0)), set_valid r valid).

Definition readBit : Rd bool := fun r =>
  if br_valid r =? 0 then
    let '(ok, r) := loadNextBuffer 1 r in
    if ok then readBitFast r else (inl EOF, r)
  else readBitFast r.

(** [(uint64(1) << n) - 1], all ones when [n] is 64 or more. *)
Definition low_mask (n : Z) : Z := u64 (u64 (Z.shiftl 1 n) - 1).

Definition readBitsFast (nbits : Z) : Rd Z := fun r =>
  if br_valid r <? nbits then (inl EOF, r)
  else
    let valid := br_valid r - nbits in
    (inr (Z.land (Z.shiftr (br_buffer r) valid) (low_mask nbits)), set_valid r valid).

(** The part of [readBits] after the buffer was found non-empty or filled.
    [valid] and [nbits] are [uint8]: the last subtraction wraps. *)
Definition readBits_loaded (nbits : Z) : Rd Z := fun r =>
  if nbits <=? br_valid r then readBitsFast nbits r
  else
    let nbits' := nbits - br_valid r in
    let v := u64 (Z.shiftl (Z.land (br_buffer r) (low_mask (br_valid r))) nbits') in
    let '(ok, r2) := loadNextBuffer nbits' (set_valid r 0) in
    if ok then
      let rest := u8 (br_valid r2 - nbits') in
      (inr (Z.lor v (Z.land (Z.shiftr (br_buffer r2) rest) (low_mask nbits'))), set_valid r2 rest)
    else (inl EOF, r2).

Definition readBits (nbits : Z) : Rd Z := fun r =>
  if br_valid r =? 0 then
    let '(ok, r) := loadNextBuffer nbits r in
    if ok then readBits_loaded nbits r else (inl EOF, r)
  else readBits_loaded nbits r.

Definition ReadByte : Rd Z := v <~ readBits 8 ;; rd_ret (u8 v).

(** The retry idiom of every caller: the fast path, then the full one. *)
Definition readBit_retry : Rd bool := rd_else readBitFast readBit.
Definition readBits_retry (nbits : Z) : Rd Z := rd_else (readBitsFast nbits) (readBits nbits).

(** ** Bits of a byte sequence *)

Definition bits_of (bs : bytes) : list bool := concat (map (msb_bits 8) bs).

Lemma bits_of_app a b : bits_of (a ++ b) = bits_of a ++ bits_of b.
Proof. unfold bits_of. rewrite map_app, concat_app. reflexivity. Qed.

Lemma bits_of_cons x b : bits_of (x :: b) = msb_bits 8 x ++ bits_of b.
Proof. reflexivity. Qed.

Lemma bits_of_one x : bits_of [x] = msb_bits 8 x.
Proof. unfold bits_of. simpl. reflexivity. Qed.

Lemma length_bits_of bs : length (bits_of bs) = (8 * length bs)%nat.
Proof.
  induction bs as [|b bs IH]; [reflexivity|].
  rewrite bits_of_cons, length_app, length_msb_bits, IH. simpl length. lia.
Qed.

(** Bytes read as one big-endian word. *)
Lemma bits_of_be_val bs : Forall is_u8 bs -> msb_bits (8 * length bs) (be_val bs) = bits_of bs.
Proof.
  induction 1 as [|b bs Hb Hbs IH]; [reflexivity|].
  pose proof (be_val_bound bs Hbs) as Hv.
  simpl length. replace (8 * S (length bs))%nat with (8 + 8 * length bs)%nat by lia.
  rewrite msb_bits_app, be_val_cons, bits_of_cons, Z.shiftr_div_pow2 by lia.
  replace (Z.of_nat (8 * length bs)) with (8 * Z.of_nat (length bs)) by lia.
  rewrite Z.div_add_l, Z.div_small, Z.add_0_r by lia. f_equal.
  rewrite <- IH. apply msb_bits_ext. intros i Hi.
  rewrite <- (Z.mod_pow2_bits_low _ (8 * Z.of_nat (length bs))) by lia.
  rewrite Z.add_comm, Z.mod_add, Z.mod_small by lia. reflexivity.
Qed.

Lemma msb_bits_zero n : msb_bits n 0 = replicate n false.
Proof. induction n; simpl; [reflexivity|]. rewrite IHn, Z.bits_0. reflexivity. Qed.

(** A word whose low bits are zero. *)
Lemma msb_bits_shifted n k W :
  msb_bits (n + k) (W * 2 ^ Z.of_nat k) = msb_bits n W ++ replicate k false.
Proof.
  rewrite msb_bits_app, Z.shiftr_div_pow2, Z.div_mul by lia. f_equal.
  rewrite <- msb_bits_zero. apply msb_bits_ext. intros i Hi.
  rewrite <- (Z.mod_pow2_bits_low _ (Z.of_nat k)) by lia. rewrite Z.mod_mul by lia. reflexivity.
Qed.

Lemma msb_bits_inj n u v :
  0 <= u < 2 ^ Z.of_nat n -> 0 <= v < 2 ^ Z.of_nat n -> msb_bits n u = msb_bits n v -> u = v.
Proof.
  intros Hu Hv E. apply (f_equal bits_val) in E. rewrite !bits_val_msb in E.
  rewrite !Z.mod_small in E by assumption. exact E.
Qed.

(** A byte that holds the bits [l2] and then zeros. *)
Lemma byte_of_bits x l2 k :
  is_u8 x -> msb_bits 8 x = l2 ++ replicate k false -> x = bits_val l2 * 2 ^ Z.of_nat k.
Proof.
  intros Hx E. assert (Hl : (length l2 + k = 8)%nat).
  { apply (f_equal length) in E. rewrite length_app, length_replicate, length_msb_bits in E. lia. }
  pose proof (bits_val_bound l2) as Hb.
  apply (msb_bits_inj 8).
  - exact Hx.
  - split; [apply Z.mul_nonneg_nonneg; lia|].
    replace (Z.of_nat 8) with (Z.of_nat (length l2) + Z.of_nat k) by lia.
    rewrite Z.pow_add_r by lia. apply Z.mul_lt_mono_pos_r; lia.
  - rewrite E, <- Hl, msb_bits_shifted, msb_bits_val. reflexivity.
Qed.

(** ** The writer's contract *)

Definition repr (b : bstream) (l : list bool) : Prop :=
  Forall is_u8 (bs_stream b) /\ 0 <= bs_count b < 8
  /\ bits_of (bs_stream b) = l ++ replicate (Z.to_nat (bs_count b)) false.

Lemma repr_reset stream : Forall is_u8 stream -> repr (bs_Reset stream) (bits_of stream).
Proof. intros H. repeat split; try (simpl; lia); [exact H|]. simpl. rewrite app_nil_r. reflexivity. Qed.

Lemma upd_last_app f l x : upd_last f (l ++ [x]) = l ++ [f x].
Proof.
  unfold upd_last. rewrite length_app. simpl length.
  replace (length l + 1 - 1)%nat with (length l + 0)%nat by lia.
  rewrite alter_app_r. reflexivity.
Qed.

(** The last byte of a stream with [k] free bits. *)
Lemma last_byte stream l k :
  (0 < k <= 8)%nat -> Forall is_u8 stream -> bits_of stream = l ++ replicate k false ->
  exists init l2, stream = init ++ [bits_val l2 * 2 ^ Z.of_nat k]
    /\ l = bits_of init ++ l2 /\ (length l2 + k = 8)%nat.
Proof.
  intros Hk H8 E. destruct (exists_last (l := stream)) as (init & x & ->).
  { intros ->. apply (f_equal length) in E. rewrite length_app, length_replicate in E. simpl in E. lia. }
  apply Forall_app in H8. destruct H8 as [_ Hx]. inversion_clear Hx as [|? ? Hx' _].
  rewrite bits_of_app, bits_of_one in E.
  assert (Hlen : (length (bits_of init) <= length l)%nat).
  { apply (f_equal length) in E.
    rewrite !length_app, length_replicate, length_msb_bits in E. lia. }
  exists init, (drop (length (bits_of init)) l).
  assert (Hl : l = bits_of init ++ drop (length (bits_of init)) l).
  { apply (f_equal (take (length (bits_of init)))) in E.
    rewrite take_app_length, take_app_le in E by lia.
    rewrite E at 1. symmetry. apply take_drop. }
  rewrite Hl in E at 1. rewrite <- app_assoc in E. apply app_inv_head in E.
  split; [|split; [exact Hl|]].
  - rewrite (byte_of_bits _ _ _ Hx' E) at 1. reflexivity.
  - apply (f_equal length) in E. rewrite length_app, length_replicate, length_msb_bits in E. lia.
Qed.

Lemma bits_val_snoc l b : bits_val (l ++ [b]) = 2 * bits_val l + Z.b2z b.
Proof. rewrite bits_val_app. destruct b; cbn; lia. Qed.

(** The byte holding [l2] then [k] zeros, as a word. *)
Lemma packed_u8 l2 k : (length l2 + k = 8)%nat -> is_u8 (bits_val l2 * 2 ^ Z.of_nat k).
Proof.
  intros H. pose proof (bits_val_bound l2). unfold is_u8.
  replace (2 ^ 8) with (2 ^ Z.of_nat (length l2) * 2 ^ Z.of_nat k).
  - split; [apply Z.mul_nonneg_nonneg; lia|apply Z.mul_lt_mono_pos_r; lia].
  - rewrite <- Z.pow_add_r by lia. f_equal. lia.
Qed.

Lemma packed_bits l2 k : (length l2 + k = 8)%nat ->
  msb_bits 8 (bits_val l2 * 2 ^ Z.of_nat k) = l2 ++ replicate k false.
Proof. intros <-. rewrite msb_bits_shifted, msb_bits_val. reflexivity. Qed.

(** Or-ing [v] into the free low [k] bits of a packed byte. *)
Lemma packed_lor l2 k v : 0 <= v < 2 ^ Z.of_nat k ->
  Z.lor (bits_val l2 * 2 ^ Z.of_nat k) v = bits_val (l2 ++ msb_bits k v).
Proof.
  intros Hv. rewrite Z.lor_comm, lor_shift_add by lia.
  rewrite bits_val_app, length_msb_bits, bits_val_msb, Z.mod_small by lia. lia.
Qed.

Lemma repr_last b l : repr b l -> 0 < bs_count b ->
  exists init l2, bs_stream b = init ++ [bits_val l2 * 2 ^ bs_count b]
    /\ Forall is_u8 init /\ l = bits_of init ++ l2
    /\ (length l2 + Z.to_nat (bs_count b) = 8)%nat.
Proof.
  intros (H8 & Hc & E) Hpos.
  destruct (last_byte _ _ (Z.to_nat (bs_count b)) ltac:(lia) H8 E) as (init & l2 & Hs & Hl & Hlen).
  rewrite Z2Nat.id in Hs by lia. exists init, l2. repeat split; auto.
  rewrite Hs in H8. apply Forall_app in H8. tauto.
Qed.

(** Closes [repr] goals about a stream that ends in one packed byte. *)
Lemma repr_packed init l2 c :
  Forall is_u8 init -> 0 <= c < 8 -> (length l2 + Z.to_nat c = 8)%nat ->
  repr (mkBstream (init ++ [bits_val l2 * 2 ^ c]) c) (bits_of init ++ l2).
Proof.
  intros H8 Hc Hl. unfold repr. cbn [bs_stream bs_count].
  pose proof (packed_u8 l2 (Z.to_nat c) Hl) as Hu.
  pose proof (packed_bits l2 (Z.to_nat c) Hl) as Hb. rewrite Z2Nat.id in Hu, Hb by lia.
  split; [|split; [lia|]].
  - apply Forall_app. auto.
  - rewrite bits_of_app, bits_of_one, Hb. apply app_assoc.
Qed.

Lemma writeBit_packed init l2 c (bit : bool) :
  Forall is_u8 init -> 1 <= c <= 8 -> (length l2 + Z.to_nat c = 8)%nat ->
  let stream := if bit then upd_last (fun x => Z.lor x (u8 (Z.shiftl 1 (c - 1))))
                              (init ++ [bits_val l2 * 2 ^ c])
                else init ++ [bits_val l2 * 2 ^ c] in
  repr (mkBstream stream (c - 1)) (bits_of init ++ l2 ++ [bit]).
Proof.
  intros H8 Hc Hl stream.
  assert (E : stream = init ++ [bits_val (l2 ++ [bit]) * 2 ^ (c - 1)]).
  { subst stream. rewrite bits_val_snoc.
    assert (Hp : 2 ^ c = 2 * 2 ^ (c - 1)) by (rewrite <- Z.pow_succ_r by lia; f_equal; lia).
    destruct bit; cbn [Z.b2z]; [|do 2 f_equal; lia].
    rewrite upd_last_app. do 2 f_equal. rewrite Z.shiftl_mul_pow2, Z.mul_1_l by lia.
    assert (0 < 2 ^ (c - 1) <= 2 ^ 7) by (split; [lia|apply Z.pow_le_mono_r; lia]).
    rewrite u8_id by (unfold is_u8; lia). rewrite Z.lor_comm, lor_shift_add by lia. lia. }
  rewrite E. apply repr_packed; [assumption|lia|]. rewrite length_app. simpl length. lia.
Qed.

Lemma writeBit_repr b l bit : repr b l -> repr (writeBit bit b) (l ++ [bit]).
Proof.
  intros H. unfold writeBit. destruct (Z.eqb_spec (bs_count b) 0) as [E|E].
  - destruct H as (H8 & _ & Hb). rewrite E in Hb. simpl in Hb. rewrite app_nil_r in Hb. subst l.
    cbn [bs_stream bs_count]. apply (writeBit_packed (bs_stream b) [] 8 bit); auto; lia.
  - assert (Hpos : 0 < bs_count b) by (destruct H; lia).
    destruct (repr_last b l H Hpos) as (init & l2 & Hs & Hi & -> & Hl). rewrite Hs, <- app_assoc.
    destruct H as (_ & Hc & _). apply writeBit_packed; auto; lia.
Qed.

(** [byt] splits into the [c] bits that complete the last byte and the rest. *)
Lemma byte_split byt c : is_u8 byt -> 0 < c < 8 ->
  let hi := msb_bits (Z.to_nat c) (Z.shiftr byt (8 - c)) in
  let lo := msb_bits (8 - Z.to_nat c) byt in
  msb_bits 8 byt = hi ++ lo
  /\ 0 <= Z.shiftr byt (8 - c) < 2 ^ c
  /\ u8 (Z.shiftl byt c) = bits_val lo * 2 ^ c.
Proof.
  intros Hb Hc hi lo. unfold is_u8 in Hb. split; [|split].
  - subst hi lo. replace 8%nat with (Z.to_nat c + (8 - Z.to_nat c))%nat at 1 by lia.
    rewrite msb_bits_app. do 4 f_equal. lia.
  - rewrite Z.shiftr_div_pow2 by lia. split; [apply Z.div_pos; lia|].
    apply Z.div_lt_upper_bound; [lia|].
    rewrite <- Z.pow_add_r by lia. replace (8 - c + c) with 8 by lia. lia.
  - subst lo. rewrite Z.shiftl_mul_pow2, bits_val_msb by lia. unfold u8.
    replace (2 ^ 8) with (2 ^ (8 - c) * 2 ^ c) by (rewrite <- Z.pow_add_r by lia; f_equal; lia).
    rewrite Z.mul_mod_distr_r by lia. do 3 f_equal. lia.
Qed.

(** A byte whose eight bits are all known. *)
Lemma full_byte l2 : length l2 = 8%nat -> is_u8 (bits_val l2) /\ msb_bits 8 (bits_val l2) = l2.
Proof.
  intros H. pose proof (packed_u8 l2 0) as H1. pose proof (packed_bits l2 0) as H2.
  change (2 ^ Z.of_nat 0) with 1 in *. rewrite Z.mul_1_r in *.
  rewrite app_nil_r in H2. split; [apply H1|apply H2]; lia.
Qed.

Lemma writeByte_packed init l2 c byt :
  is_u8 byt -> Forall is_u8 init -> 0 < c < 8 -> (length l2 + Z.to_nat c = 8)%nat ->
  repr (mkBstream ((init ++ [Z.lor (bits_val l2 * 2 ^ c) (Z.shiftr byt (8 - c))])
                     ++ [u8 (Z.shiftl byt c)]) c)
    ((bits_of init ++ l2) ++ msb_bits 8 byt).
Proof.
  intros Hb Hi Hc Hl. destruct (byte_split byt c Hb Hc) as (Hs & Hhi & Hlo).
  pose proof (packed_lor l2 (Z.to_nat c) (Z.shiftr byt (8 - c))) as Hlor.
  rewrite Z2Nat.id in Hlor by lia. rewrite Hlor, Hlo, Hs by lia.
  set (hi := msb_bits (Z.to_nat c) (Z.shiftr byt (8 - c))).
  destruct (full_byte (l2 ++ hi)) as [Hu Hf].
  { subst hi. rewrite length_app, length_msb_bits. lia. }
  assert (E : bits_of (init ++ [bits_val (l2 ++ hi)]) = (bits_of init ++ l2) ++ hi).
  { rewrite bits_of_app, bits_of_one, Hf. apply app_assoc. }
  rewrite app_assoc, <- E.
  apply repr_packed; [|lia|rewrite length_msb_bits; lia].
  apply Forall_app. auto.
Qed.

Lemma writeByte_repr b l byt : is_u8 byt -> repr b l -> repr (writeByte byt b) (l ++ msb_bits 8 byt).
Proof.
  intros Hb H. unfold writeByte. destruct (Z.eqb_spec (bs_count b) 0) as [E|E].
  - destruct H as (H8 & _ & Hbits). rewrite E in Hbits. simpl in Hbits. rewrite app_nil_r in Hbits.
    repeat split; cbn [bs_stream bs_count]; try lia; [apply Forall_app; auto|].
    rewrite bits_of_app, bits_of_one, Hbits, app_nil_r. reflexivity.
  - assert (Hpos : 0 < bs_count b) by (destruct H; lia).
    destruct (repr_last b l H Hpos) as (init & l2 & Hs & Hi & -> & Hl).
    destruct H as (_ & Hc & _). rewrite Hs, upd_last_app. apply writeByte_packed; auto; lia.
Qed.

(** ** [writeBits] *)

Lemma drop_msb_bits k n u : (k <= n)%nat -> drop k (msb_bits n u) = msb_bits (n - k) u.
Proof.
  intros H. replace n with (k + (n - k))%nat at 1 by lia. rewrite msb_bits_app.
  apply drop_app_length'. rewrite length_msb_bits. reflexivity.
Qed.

Lemma take_msb_bits k n u : (k <= n)%nat ->
  take k (msb_bits n u) = msb_bits k (Z.shiftr u (Z.of_nat (n - k))).
Proof.
  intros H. replace n with (k + (n - k))%nat at 1 by lia. rewrite msb_bits_app.
  apply take_app_length'. rewrite length_msb_bits. reflexivity.
Qed.

(** Shifting the 64-bit word left drops bits at the front. *)
Lemma shl_bits k u : (k <= 64)%nat ->
  msb_bits 64 (u64 (Z.shiftl u (Z.of_nat k))) = drop k (msb_bits 64 u) ++ replicate k false.
Proof.
  intros Hk. unfold u64. change (2 ^ 64) with (2 ^ Z.of_nat 64). rewrite msb_bits_mod by lia.
  rewrite Z.shiftl_mul_pow2 by lia.
  replace 64%nat with ((64 - k) + k)%nat at 1 by lia. rewrite msb_bits_shifted. f_equal.
  symmetry. apply drop_msb_bits. lia.
Qed.

Lemma top_bits k u : (k <= 64)%nat -> is_u64 u ->
  msb_bits k (Z.shiftr u (64 - Z.of_nat k)) = take k (msb_bits 64 u).
Proof.
  intros Hk Hu. rewrite take_msb_bits by lia. do 2 f_equal. lia.
Qed.

Lemma take_take_drop {A} i j (l : list A) : take i l ++ take j (drop i l) = take (i + j) l.
Proof.
  revert l. induction i as [|i IH]; intros [|x l]; simpl; try reflexivity.
  - rewrite take_nil. reflexivity.
  - f_equal. apply IH.
Qed.

(** Taking [s] and then [k] bits off a word that is shifted left in between. *)
Lemma shift_take (l : list bool) s k : (s + k <= length l)%nat ->
  take s l ++ take k (drop s l ++ replicate s false) = take (s + k) l.
Proof.
  intros H. rewrite take_app_le by (rewrite length_drop; lia). apply take_take_drop.
Qed.

Lemma shift_drop (l : list bool) s k : (s + k <= length l)%nat ->
  drop k (drop s l ++ replicate s false) ++ replicate k false
  = drop (s + k) l ++ replicate (s + k) false.
Proof.
  intros H. rewrite drop_app_le by (rewrite length_drop; lia).
  rewrite drop_drop, <- app_assoc, replicate_add. reflexivity.
Qed.

Lemma writeBits_bytes_repr k u b l :
  (8 * k <= 64)%nat -> is_u64 u -> repr b l ->
  let '(u', b') := writeBits_bytes k u b in
  repr b' (l ++ take (8 * k) (msb_bits 64 u)) /\ is_u64 u'
  /\ msb_bits 64 u' = drop (8 * k) (msb_bits 64 u) ++ replicate (8 * k) false.
Proof.
  revert u b l. induction k as [|k IH]; intros u b l Hk Hu Hr.
  - cbn -[msb_bits]. rewrite !app_nil_r. auto.
  - cbn [writeBits_bytes].
    pose proof (shl_bits 8 u ltac:(lia)) as Hb. change (Z.of_nat 8) with 8 in Hb.
    pose proof (writeByte_repr b l (u8 (Z.shiftr u 56)) (u8_range _) Hr) as Hw.
    unfold u8 in Hw at 2. change (2 ^ 8) with (2 ^ Z.of_nat 8) in Hw.
    pose proof (top_bits 8 u ltac:(lia) Hu) as Ht. change (64 - Z.of_nat 8) with 56 in Ht.
    rewrite msb_bits_mod, Ht in Hw by lia.
    specialize (IH (u64 (Z.shiftl u 8)) _ _ ltac:(lia) (u64_range _) Hw).
    destruct (writeBits_bytes k _ _) as [u' b']. destruct IH as (IH1 & IH2 & IH3).
    rewrite Hb in IH1, IH3. replace (8 * S k)%nat with (8 + 8 * k)%nat by lia.
    rewrite <- app_assoc, shift_take in IH1 by (rewrite length_msb_bits; lia).
    rewrite shift_drop in IH3 by (rewrite length_msb_bits; lia). auto.
Qed.

Lemma top_bit u : is_u64 u -> [Z.shiftr u 63 =? 1] = take 1 (msb_bits 64 u).
Proof.
  intros Hu. rewrite <- (top_bits 1 u ltac:(lia) Hu). change (64 - Z.of_nat 1) with 63.
  unfold is_u64 in Hu. cbn [msb_bits]. f_equal. change (Z.of_nat 0) with 0.
  assert (0 <= Z.shiftr u 63 < 2).
  { rewrite Z.shiftr_div_pow2 by lia. split; [apply Z.div_pos; lia|apply Z.div_lt_upper_bound; lia]. }
  assert (E : Z.shiftr u 63 = 0 \/ Z.shiftr u 63 = 1) by lia. destruct E as [-> | ->]; reflexivity.
Qed.

Lemma writeBits_bits_repr k u b l :
  (k <= 64)%nat -> is_u64 u -> repr b l ->
  repr (writeBits_bits k u b) (l ++ take k (msb_bits 64 u)).
Proof.
  revert u b l. induction k as [|k IH]; intros u b l Hk Hu Hr.
  - cbn -[msb_bits]. rewrite app_nil_r. exact Hr.
  - cbn [writeBits_bits].
    pose proof (writeBit_repr b l (Z.shiftr u 63 =? 1) Hr) as Hw. rewrite (top_bit u Hu) in Hw.
    specialize (IH (u64 (Z.shiftl u 1)) _ _ ltac:(lia) (u64_range _) Hw).
    pose proof (shl_bits 1 u ltac:(lia)) as Hb. change (Z.of_nat 1) with 1 in Hb. rewrite Hb in IH.
    rewrite <- app_assoc, shift_take in IH by (rewrite length_msb_bits; lia). exact IH.
Qed.

Lemma writeBits_repr b l u n : (n <= 64)%nat -> repr b l -> repr (writeBits u n b) (l ++ msb_bits n u).
Proof.
  intros Hn Hr. unfold writeBits.
  set (u1 := u64 (Z.shiftl u (64 - Z.of_nat n))).
  assert (Hu1 : msb_bits 64 u1 = msb_bits n u ++ replicate (64 - n) false).
  { subst u1. replace (64 - Z.of_nat n) with (Z.of_nat (64 - n)) by lia. rewrite shl_bits by lia.
    f_equal. rewrite drop_msb_bits by lia. f_equal. lia. }
  pose proof (Nat.div_mod_eq n 8) as Hd. pose proof (Nat.mod_upper_bound n 8 ltac:(lia)) as Hm.
  pose proof (writeBits_bytes_repr (n / 8) u1 b l ltac:(lia) (u64_range _) Hr) as H1.
  destruct (writeBits_bytes (n / 8) u1 b) as [u2 b2]. destruct H1 as (H1 & H2 & H3).
  pose proof (writeBits_bits_repr (n mod 8) u2 b2 _ ltac:(lia) H2 H1) as H4.
  rewrite H3, <- app_assoc in H4.
  rewrite take_app_le, take_take_drop, <- Hd, Hu1 in H4
    by (rewrite length_drop, length_msb_bits; lia).
  rewrite take_app_length' in H4 by (rewrite length_msb_bits; reflexivity). exact H4.
Qed.

(** ** The reader's contract *)

(** The stream as this reader sees it: its last byte is the copy taken when the
    reader was made, since an appender may still be completing that byte. *)
Definition br_view (r : bstreamReader) : bytes :=
  take (length (br_stream r) - 1) (br_stream r)
    ++ (if (length (br_stream r) =? 0)%nat then [] else [br_last r]).

(** The bits that are still to be read. *)
Definition br_rem (r : bstreamReader) : list bool :=
  msb_bits (Z.to_nat (br_valid r)) (br_buffer r)
    ++ bits_of (drop (br_streamOffset r) (br_view r)).

Definition wf_reader (r : bstreamReader) : Prop :=
  Forall is_u8 (br_stream r) /\ is_u8 (br_last r) /\ 0 <= br_valid r <= 64
  /\ is_u64 (br_buffer r).

Definition Reads {A} (m : Rd A) (a : A) (l : list bool) : Prop :=
  forall r rest, wf_reader r -> br_rem r = l ++ rest ->
  exists r', m r = (inr a, r') /\ wf_reader r' /\ br_rem r' = rest.

Lemma Reads_ret {A} (a : A) : Reads (rd_ret a) a [].
Proof. intros r rest Hw E. exists r. auto. Qed.

Lemma Reads_bind {A B} (m : Rd A) (k : A -> Rd B) a b l1 l2 :
  Reads m a l1 -> Reads (k a) b l2 -> Reads (x <~ m ;; k x) b (l1 ++ l2).
Proof.
  intros Hm Hk r rest Hw E. rewrite <- app_assoc in E.
  destruct (Hm r _ Hw E) as (r1 & E1 & Hw1 & R1). destruct (Hk r1 _ Hw1 R1) as (r2 & E2 & H2).
  exists r2. unfold rd_bind. rewrite E1. auto.
Qed.

Lemma Reads_eq {A} (m : Rd A) a a' l l' : Reads m a l -> a = a' -> l = l' -> Reads m a' l'.
Proof. intros H <- <-. exact H. Qed.

Lemma length_br_view r : length (br_view r) = length (br_stream r).
Proof.
  unfold br_view. rewrite length_app, length_take.
  destruct (Nat.eqb_spec (length (br_stream r)) 0); simpl; lia.
Qed.

Lemma br_view_u8 r : wf_reader r -> Forall is_u8 (br_view r).
Proof.
  intros (H8 & Hl & _). unfold br_view. apply Forall_app. split; [auto using Forall_take|].
  destruct (_ =? _)%nat; auto.
Qed.

(** Everything but the last byte is read from the stream itself. *)
Lemma br_view_take r off k : (off + k < length (br_stream r))%nat ->
  take k (drop off (br_stream r)) = take k (drop off (br_view r)).
Proof.
  intros H. unfold br_view. rewrite drop_app_le by (rewrite length_take; lia).
  rewrite take_app_le by (rewrite length_drop, length_take; lia).
  rewrite <- (take_drop (length (br_stream r) - 1) (br_stream r)) at 1.
  rewrite drop_app_le, take_app_le by (rewrite ?length_drop, length_take; lia). reflexivity.
Qed.

(** ** [loadNextBuffer] *)

(** The byte loop puts the bytes at [off], [off+1], ... at the top of an
    [nbytes]-byte word. *)
Lemma load_bytes_spec r nbytes k low :
  Forall is_u8 (br_stream r) -> (k <= nbytes <= 8)%nat ->
  (br_streamOffset r + k <= length (br_stream r))%nat ->
  fold_left (fun buffer i =>
       Z.lor buffer (u64 (Z.shiftl (nth (br_streamOffset r + i) (br_stream r) 0)
                            (8 * (Z.of_nat nbytes - Z.of_nat i - 1)))))
    (seq 0 k) low
  = Z.lor (be_val (take k (drop (br_streamOffset r) (br_stream r)))
             * 2 ^ (8 * Z.of_nat (nbytes - k))) low.
Proof.
  intros H8 Hk Hlen. induction k as [|k IH].
  - simpl. rewrite take_0. reflexivity.
  - rewrite seq_S, fold_left_app, IH by lia. cbn [fold_left]. rewrite Nat.add_0_l.
    set (off := br_streamOffset r) in *. set (s := br_stream r) in *.
    assert (Hnth : drop off s !! k = Some (nth (off + k) s 0)).
    { rewrite lookup_drop. destruct (s !! (off + k)%nat) eqn:E; [|apply lookup_ge_None in E; lia].
      rewrite (nth_lookup_Some _ _ _ _ E). reflexivity. }
    rewrite (take_S_r _ _ _ Hnth).
    set (x := nth (off + k) s 0) in *. set (P := be_val (take k (drop off s))).
    assert (Hx : is_u8 x).
    { eapply (Forall_lookup_1 _ s (off + k)%nat); [exact H8|]. rewrite <- lookup_drop. exact Hnth. }
    unfold is_u8 in Hx.
    assert (HP : be_val (take k (drop off s) ++ [x]) = P * 256 + x).
    { unfold be_val, P, be_val. rewrite fold_left_app. reflexivity. }
    rewrite HP. set (m := (nbytes - S k)%nat).
    replace (Z.of_nat nbytes - Z.of_nat k - 1) with (Z.of_nat m) by lia.
    replace (nbytes - k)%nat with (S m) by lia. rewrite Z.shiftl_mul_pow2 by lia.
    assert (Hm : 2 ^ (8 * Z.of_nat m) <= 2 ^ 56) by (apply Z.pow_le_mono_r; lia).
    rewrite u64_id by (unfold is_u64; nia).
    rewrite <- Z.lor_assoc, (Z.lor_comm low), Z.lor_assoc. f_equal.
    rewrite Z.lor_comm. replace (8 * Z.of_nat (S m)) with (8 + 8 * Z.of_nat m) by lia.
    assert (Hp : 2 ^ (8 + 8 * Z.of_nat m) = 256 * 2 ^ (8 * Z.of_nat m))
      by (rewrite Z.pow_add_r by lia; reflexivity).
    rewrite lor_shift_add by nia. rewrite Hp. ring.
Qed.

Lemma br_view_take_all r off k : (off + S k = length (br_stream r))%nat ->
  take (S k) (drop off (br_view r)) = take k (drop off (br_stream r)) ++ [br_last r].
Proof.
  intros H. rewrite take_ge by (rewrite length_drop, length_br_view; lia).
  unfold br_view. destruct (Nat.eqb_spec (length (br_stream r)) 0); [lia|].
  rewrite drop_app_le by (rewrite length_take; lia). f_equal.
  rewrite take_drop_commute. f_equal. f_equal. lia.
Qed.

(** What the slow path puts in the buffer. *)
Lemma load_bytes_view r nbytes :
  wf_reader r -> (1 <= nbytes <= 8)%nat ->
  (br_streamOffset r + nbytes <= length (br_stream r))%nat ->
  let '(low, skip) := if (br_streamOffset r + nbytes =? length (br_stream r))%nat
                      then (Z.lor 0 (br_last r), 1%nat) else (0, 0%nat) in
  load_bytes r nbytes skip low = be_val (take nbytes (drop (br_streamOffset r) (br_view r))).
Proof.
  intros (H8 & Hl & _) Hn Hlen. unfold load_bytes.
  destruct (Nat.eqb_spec (br_streamOffset r + nbytes) (length (br_stream r))) as [E|E].
  - rewrite load_bytes_spec by (assumption || lia).
    destruct nbytes as [|k]; [lia|]. rewrite (br_view_take_all r _ k E).
    replace (S k - (S k - 1))%nat with 1%nat by lia. replace (S k - 1)%nat with k by lia.
    rewrite Z.lor_0_l, Z.lor_comm. change (8 * Z.of_nat 1) with 8. unfold is_u8 in Hl.
    rewrite lor_shift_add by lia. unfold be_val at 2. rewrite fold_left_app. cbn [fold_left].
    fold (be_val (take k (drop (br_streamOffset r) (br_stream r)))). change (2 ^ 8) with 256. ring.
  - rewrite load_bytes_spec by (assumption || lia). rewrite Nat.sub_0_r, Nat.sub_diag.
    rewrite Z.lor_0_r, Z.mul_1_r. rewrite br_view_take by lia. reflexivity.
Qed.

Lemma length_br_rem r : wf_reader r ->
  length (br_rem r) = (Z.to_nat (br_valid r) + 8 * (length (br_stream r) - br_streamOffset r))%nat.
Proof.
  intros _. unfold br_rem.
  rewrite length_app, length_msb_bits, length_bits_of, length_drop, length_br_view. reflexivity.
Qed.

(** The state after loading [k] bytes. *)
Lemma loaded_reader r k :
  wf_reader r -> br_valid r = 0 -> (1 <= k <= 8)%nat ->
  (br_streamOffset r + k <= length (br_stream r))%nat ->
  let r' := mkReader (br_stream r) (br_streamOffset r + k)
              (be_val (take k (drop (br_streamOffset r) (br_view r)))) (Z.of_nat k * 8) (br_last r) in
  wf_reader r' /\ br_rem r' = br_rem r.
Proof.
  intros Hw Hv Hk Hlen r'. pose proof (br_view_u8 r Hw) as H8. destruct Hw as (Hs & Hl & _ & _).
  set (d := drop (br_streamOffset r) (br_view r)) in *.
  assert (Hd : length (take k d) = k).
  { subst d. rewrite length_take, length_drop, length_br_view. lia. }
  assert (Ht : Forall is_u8 (take k d)) by (subst d; auto using Forall_take, Forall_drop).
  split.
  - repeat split; cbn; try assumption; try lia; try apply Hl;
      destruct (be_val_bound _ Ht) as [Hb1 Hb2]; rewrite Hd in Hb2; [exact Hb1|].
    eapply Z.lt_le_trans; [exact Hb2|]. apply Z.pow_le_mono_r; lia.
  - unfold br_rem. subst r'. cbn [br_valid br_buffer br_streamOffset]. rewrite Hv.
    unfold br_view. cbn [br_stream br_last]. fold (br_view r). change (msb_bits (Z.to_nat 0) (br_buffer r)) with (@nil bool).
    rewrite app_nil_l. fold d. rewrite <- drop_drop. fold d.
    replace (Z.to_nat (Z.of_nat k * 8)) with (8 * length (take k d))%nat by lia.
    rewrite bits_of_be_val by assumption. rewrite <- bits_of_app, take_drop. reflexivity.
Qed.

Lemma loadNextBuffer_spec nbits r :
  wf_reader r -> br_valid r = 0 -> 0 <= nbits <= 64 -> br_rem r <> [] ->
  exists r', loadNextBuffer nbits r = (true, r') /\ wf_reader r' /\ br_rem r' = br_rem r
    /\ Z.min nbits (Z.of_nat (length (br_rem r))) <= br_valid r' /\ 0 < br_valid r'.
Proof.
  intros Hw Hv Hn Hne. pose proof (length_br_rem r Hw) as Hlen. rewrite Hv in Hlen.
  assert (Hpos : length (br_rem r) <> 0%nat) by (destruct (br_rem r); simpl; congruence).
  unfold loadNextBuffer. set (off := br_streamOffset r) in *.
  destruct (Nat.leb_spec (length (br_stream r)) off); [simpl in Hlen; lia|].
  destruct (Nat.ltb_spec (off + 8) (length (br_stream r))) as [Hbig|Hsmall].
  - destruct (loaded_reader r 8 Hw Hv) as [H1 H2]; try (unfold off in *; lia).
    rewrite br_view_take by assumption. eexists. split; [reflexivity|].
    split; [exact H1|]. split; [exact H2|]. cbn. lia.
  - pose proof (Z.div_pos nbits 8 ltac:(lia) ltac:(lia)).
    pose proof (Z.div_mod nbits 8 ltac:(lia)). pose proof (Z.mod_pos_bound nbits 8 ltac:(lia)).
    set (want := Z.to_nat (nbits / 8 + 1)).
    set (nbytes := if (_ <? _)%nat then _ else _).
    assert (Hnb : (1 <= nbytes <= 8)%nat /\ (off + nbytes <= length (br_stream r))%nat
                  /\ (nbytes = want \/ nbytes = length (br_stream r) - off)%nat).
    { subst nbytes. destruct (Nat.ltb_spec (length (br_stream r)) (off + want)); lia. }
    destruct Hnb as (Hnb & Hoff & Hor).
    pose proof (load_bytes_view r nbytes Hw Hnb Hoff) as Hload. fold off in Hload.
    destruct (if (off + nbytes =? length (br_stream r))%nat then _ else _) as [low skip].
    rewrite Hload. destruct (loaded_reader r nbytes Hw Hv Hnb Hoff) as [H3 H4].
    rewrite u8_id by (unfold is_u8; lia).
    eexists. split; [reflexivity|]. split; [exact H3|]. split; [exact H4|]. cbn. lia.
Qed.

Lemma loadNextBuffer_empty nbits r :
  wf_reader r -> br_rem r = [] -> loadNextBuffer nbits r = (false, r).
Proof.
  intros Hw E. pose proof (length_br_rem r Hw) as Hlen. rewrite E in Hlen. simpl in Hlen.
  unfold loadNextBuffer. destruct (Nat.leb_spec (length (br_stream r)) (br_streamOffset r)); [reflexivity|lia].
Qed.

(** ** Reading bits *)

Lemma wf_set_valid r v : wf_reader r -> 0 <= v <= 64 -> wf_reader (set_valid r v).
Proof. intros (H1 & H2 & _ & H4) Hv. repeat split; cbn; try assumption; try apply H2; try apply H4; lia. Qed.

Lemma low_mask_spec n : 0 <= n <= 64 -> low_mask n = 2 ^ n - 1.
Proof.
  intros Hn. unfold low_mask. rewrite Z.shiftl_mul_pow2, Z.mul_1_l by lia.
  destruct (Z.eq_dec n 64) as [->|]; [reflexivity|].
  assert (0 < 2 ^ n <= 2 ^ 63) by (split; [lia|apply Z.pow_le_mono_r; lia]).
  rewrite !u64_id; unfold is_u64; rewrite ?u64_id; unfold is_u64; lia.
Qed.

(** The unread bits after consuming [k] bits of the buffer. *)
Lemma br_rem_drop r k : wf_reader r -> (k <= Z.to_nat (br_valid r))%nat ->
  br_rem (set_valid r (br_valid r - Z.of_nat k)) = drop k (br_rem r).
Proof.
  intros (_ & _ & Hv & _) Hk. unfold br_rem.
  change (br_view (set_valid r (br_valid r - Z.of_nat k))) with (br_view r).
  cbn [set_valid br_valid br_buffer br_stream br_streamOffset br_last].
  rewrite (drop_app_le (msb_bits (Z.to_nat (br_valid r)) (br_buffer r))) by (rewrite length_msb_bits; lia). rewrite drop_msb_bits by lia.
  do 2 f_equal. lia.
Qed.

Lemma br_rem_take r k : 0 <= br_valid r -> (k <= Z.to_nat (br_valid r))%nat ->
  take k (br_rem r) = msb_bits k (Z.shiftr (br_buffer r) (br_valid r - Z.of_nat k)).
Proof.
  intros Hv Hk. unfold br_rem. rewrite take_app_le by (rewrite length_msb_bits; lia).
  rewrite take_msb_bits by lia. do 2 f_equal. lia.
Qed.

Lemma split_rem r l rest k : br_rem r = l ++ rest -> length l = k ->
  take k (br_rem r) = l /\ drop k (br_rem r) = rest.
Proof. intros -> <-. split; [apply take_app_length|apply drop_app_length]. Qed.

Lemma readBitsFast_ok n l r rest :
  wf_reader r -> br_rem r = l ++ rest -> 0 <= n <= br_valid r -> Z.of_nat (length l) = n ->
  exists r', readBitsFast n r = (inr (bits_val l), r') /\ wf_reader r' /\ br_rem r' = rest.
Proof.
  intros Hw E Hn Hl. assert (Hv : br_valid r <= 64) by apply Hw.
  destruct (split_rem r l rest _ E eq_refl) as [Ht Hd].
  unfold readBitsFast. destruct (Z.ltb_spec (br_valid r) n); [lia|].
  rewrite low_mask_spec, land_ones_mod by lia. subst n.
  rewrite <- bits_val_msb, <- br_rem_take, Ht by lia.
  eexists. split; [reflexivity|]. split; [apply wf_set_valid; [assumption|lia]|].
  rewrite br_rem_drop by (assumption || lia). exact Hd.
Qed.

(** Splitting a read over the end of the buffer. *)
Lemma bits_val_split l k : (k <= length l)%nat ->
  Z.lor (bits_val (take k l) * 2 ^ Z.of_nat (length l - k)) (bits_val (drop k l)) = bits_val l.
Proof.
  intros H. pose proof (bits_val_bound (drop k l)) as Hb. rewrite length_drop in Hb.
  rewrite Z.lor_comm, lor_shift_add by lia.
  pose proof (bits_val_app (take k l) (drop k l)) as Ha.
  rewrite take_drop, length_drop in Ha. lia.
Qed.

Lemma readBits_loaded_ok n l r rest :
  wf_reader r -> br_rem r = l ++ rest -> 0 <= n <= 64 -> Z.of_nat (length l) = n ->
  exists r', readBits_loaded n r = (inr (bits_val l), r') /\ wf_reader r' /\ br_rem r' = rest.
Proof.
  intros Hw E Hn Hl. unfold readBits_loaded.
  destruct (Z.leb_spec n (br_valid r)) as [Hle|Hgt]; [apply readBitsFast_ok; auto; lia|].
  assert (Hv : 0 <= br_valid r <= 64) by apply Hw. set (k := Z.to_nat (br_valid r)).
  assert (Hk : (k <= length l)%nat) by lia.
  pose proof (br_rem_drop r k Hw ltac:(lia)) as Hr0. rewrite E, drop_app_le in Hr0 by lia.
  replace (br_valid r - Z.of_nat k) with 0 in Hr0 by lia.
  assert (Hlo : Z.land (br_buffer r) (low_mask (br_valid r)) = bits_val (take k l)).
  { rewrite low_mask_spec, land_ones_mod by lia. replace (br_valid r) with (Z.of_nat k) by lia.
    rewrite <- bits_val_msb. pose proof (br_rem_take r k ltac:(lia) ltac:(lia)) as Ht.
    rewrite E, take_app_le in Ht by lia. rewrite Ht.
    replace (br_valid r - Z.of_nat k) with 0 by lia. rewrite Z.shiftr_0_r. reflexivity. }
  rewrite Hlo. set (n' := n - br_valid r).
  destruct (loadNextBuffer_spec n' (set_valid r 0)) as (r2 & E2 & Hw2 & R2 & Hmin & _).
  { apply wf_set_valid; [assumption|lia]. } { reflexivity. } { lia. }
  { rewrite Hr0. intros Hnil. apply (f_equal length) in Hnil.
    rewrite length_app, length_drop in Hnil. simpl in Hnil. lia. }
  rewrite E2. rewrite Hr0, length_app, length_drop in Hmin.
  assert (Hv2 : br_valid r2 <= 64) by apply Hw2.
  rewrite (u8_id (br_valid r2 - n')) by (unfold is_u8; lia). rewrite Hr0 in R2.
  destruct (readBitsFast_ok n' (drop k l) r2 rest Hw2 R2) as (r3 & E3 & Hw3 & R3);
    [lia|rewrite length_drop; lia|].
  unfold readBitsFast in E3. destruct (Z.ltb_spec (br_valid r2) n'); [lia|].
  injection E3 as E3 <-. rewrite E3. eexists. split; [|split; [exact Hw3|exact R3]].
  pose proof (bits_val_bound (take k l)) as Hb. rewrite length_take, Nat.min_l in Hb by lia.
  rewrite Z.shiftl_mul_pow2 by lia. replace n' with (Z.of_nat (length l - k)) by lia.
  rewrite u64_id; [rewrite bits_val_split by lia; reflexivity|].
  unfold is_u64. split; [apply Z.mul_nonneg_nonneg; lia|].
  apply Z.lt_le_trans with (2 ^ Z.of_nat k * 2 ^ Z.of_nat (length l - k)).
  - apply Z.mul_lt_mono_pos_r; lia.
  - rewrite <- Z.pow_add_r by lia. apply Z.pow_le_mono_r; lia.
Qed.

Lemma readBits_reads n l : 1 <= n <= 64 -> Z.of_nat (length l) = n ->
  Reads (readBits n) (bits_val l) l.
Proof.
  intros Hn Hl r rest Hw E. unfold readBits. destruct (Z.eqb_spec (br_valid r) 0) as [Hv|Hv].
  - destruct (loadNextBuffer_spec n r Hw Hv ltac:(lia)) as (r2 & E2 & Hw2 & R2 & _).
    { rewrite E. destruct l; [simpl in Hl; lia|discriminate]. }
    rewrite E2. apply readBits_loaded_ok; auto; [congruence|lia].
  - apply readBits_loaded_ok; auto; lia.
Qed.

Lemma readBits_retry_reads n l : 1 <= n <= 64 -> Z.of_nat (length l) = n ->
  Reads (readBits_retry n) (bits_val l) l.
Proof.
  intros Hn Hl r rest Hw E. unfold readBits_retry, rd_else.
  destruct (Z.le_gt_cases n (br_valid r)) as [Hle|Hgt].
  - destruct (readBitsFast_ok n l r rest Hw E ltac:(lia) Hl) as (r' & -> & H). exists r'. auto.
  - unfold readBitsFast at 1. destruct (Z.ltb_spec (br_valid r) n); [|lia].
    apply readBits_reads; auto.
Qed.

(** A word written with [writeBits] is read back by [readBits]. *)
Lemma readBits_word n u : (1 <= n <= 64)%nat ->
  Reads (readBits_retry (Z.of_nat n)) (u mod 2 ^ Z.of_nat n) (msb_bits n u).
Proof.
  intros Hn. rewrite <- bits_val_msb. apply readBits_retry_reads; rewrite ?length_msb_bits; lia.
Qed.

Lemma readBits_word_slow n u : (1 <= n <= 64)%nat ->
  Reads (readBits (Z.of_nat n)) (u mod 2 ^ Z.of_nat n) (msb_bits n u).
Proof.
  intros Hn. rewrite <- bits_val_msb. apply readBits_reads; rewrite ?length_msb_bits; lia.
Qed.

Lemma ReadByte_reads byt : is_u8 byt -> Reads ReadByte byt (msb_bits 8 byt).
Proof.
  intros Hb. rewrite <- (app_nil_r (msb_bits 8 byt)).
  eapply Reads_bind; [apply (readBits_word_slow 8 byt); lia|].
  change (2 ^ Z.of_nat 8) with (2 ^ 8). fold (u8 byt). rewrite (u8_id byt) by assumption.
  eapply Reads_eq; [apply Reads_ret|apply u8_id; assumption|reflexivity].
Qed.

(** [readBitFast] tests one bit where [readBitsFast 1] extracts it. *)
Lemma bit_test buffer v : 0 <= v < 64 ->
  negb (Z.land buffer (u64 (Z.shiftl 1 v)) =? 0) = Z.testbit buffer v.
Proof.
  intros Hv. rewrite Z.shiftl_mul_pow2, Z.mul_1_l by lia.
  rewrite u64_id by (unfold is_u64; split; [lia|apply Z.pow_lt_mono_r; lia]).
  destruct (Z.testbit buffer v) eqn:E.
  - apply negb_true_iff, Z.eqb_neq. intros H. apply (f_equal (fun z => Z.testbit z v)) in H.
    rewrite Z.land_spec, Z.pow2_bits_true, E, Z.bits_0 in H by lia. discriminate.
  - apply negb_false_iff, Z.eqb_eq. apply Z.bits_inj'. intros i Hi.
    rewrite Z.land_spec, Z.pow2_bits_eqb, Z.bits_0 by lia.
    destruct (Z.eqb_spec v i) as [->|]; [rewrite E|rewrite andb_false_r]; reflexivity.
Qed.

Lemma readBitFast_ok r b rest : wf_reader r -> 0 < br_valid r -> br_rem r = b :: rest ->
  exists r', readBitFast r = (inr b, r') /\ wf_reader r' /\ br_rem r' = rest.
Proof.
  intros Hw Hv E. assert (Hv2 : br_valid r <= 64) by apply Hw. unfold readBitFast.
  destruct (Z.eqb_spec (br_valid r) 0); [lia|]. rewrite bit_test by lia.
  destruct (split_rem r [b] rest 1 E eq_refl) as [Ht Hd].
  rewrite br_rem_take in Ht by lia. apply (f_equal (hd false)) in Ht. cbn [msb_bits hd] in Ht.
  change (Z.of_nat 0) with 0 in Ht. change (Z.of_nat 1) with 1 in Ht.
  rewrite Z.shiftr_spec, Z.add_0_l in Ht by lia. rewrite Ht.
  eexists. split; [reflexivity|]. split; [apply wf_set_valid; [assumption|lia]|].
  rewrite <- Hd. apply (br_rem_drop r 1); [assumption|lia].
Qed.

Lemma readBit_reads b : Reads readBit b [b].
Proof.
  intros r rest Hw E. unfold readBit. destruct (Z.eqb_spec (br_valid r) 0) as [Hv|Hv].
  - destruct (loadNextBuffer_spec 1 r Hw Hv ltac:(lia)) as (r2 & -> & Hw2 & R2 & _ & Hv2).
    { rewrite E. discriminate. }
    apply readBitFast_ok; auto. rewrite R2. exact E.
  - apply readBitFast_ok; auto. destruct Hw as (_ & _ & ? & _). lia.
Qed.

Lemma readBit_retry_reads b : Reads readBit_retry b [b].
Proof.
  intros r rest Hw E. unfold readBit_retry, rd_else.
  destruct (Z.eq_dec (br_valid r) 0) as [Hv|Hv].
  - unfold readBitFast at 1. rewrite Hv. cbn [Z.eqb]. apply readBit_reads; auto.
  - destruct (readBitFast_ok r b rest Hw) as (r' & -> & H); auto; [|exists r'; auto].
    destruct Hw as (_ & _ & ? & _). lia.
Qed.

(** At the end of the stream both report [EOF]. *)
Lemma readBit_retry_eof r : wf_reader r -> br_rem r = [] -> readBit_retry r = (inl EOF, r).
Proof.
  intros Hw E. pose proof (length_br_rem r Hw) as Hl. rewrite E in Hl. simpl in Hl.
  assert (Hv : br_valid r = 0) by (destruct Hw as (_ & _ & ? & _); lia).
  unfold readBit_retry, rd_else, readBitFast at 1, readBit. cbv beta.
  rewrite Hv. cbn [Z.eqb]. rewrite Hv. cbn [Z.eqb].
  rewrite loadNextBuffer_empty by assumption. reflexivity.
Qed.

(** A fresh reader over what a writer produced. *)
Lemma newBReader_repr b l : repr b l ->
  let r := newBReader (bs_bytes b) in
  wf_reader r /\ br_rem r = l ++ replicate (Z.to_nat (bs_count b)) false.
Proof.
  intros (H8 & _ & E) r. subst r. unfold newBReader, bs_bytes.
  assert (Hrev : Forall is_u8 (rev (bs_stream b))) by (apply Forall_rev; exact H8).
  destruct (rev (bs_stream b)) as [|x t] eqn:Er.
  - assert (Hs : bs_stream b = []) by (rewrite <- (rev_involutive (bs_stream b)), Er; reflexivity).
    rewrite Hs in *. rewrite <- E. split; [|reflexivity].
    repeat split; cbn; try constructor; unfold is_u8, is_u64; lia.
  - assert (Hs : bs_stream b = rev t ++ [x]).
    { rewrite <- (rev_involutive (bs_stream b)), Er. reflexivity. }
    inversion_clear Hrev as [|? ? Hx _]. split.
    + repeat split; cbn; try assumption; try apply Hx; unfold is_u64; lia.
    + rewrite <- E. unfold br_rem, br_view. cbn [br_valid br_buffer br_stream br_streamOffset br_last].
      rewrite Hs, length_app. simpl length. rewrite drop_0.
      replace (length (rev t) + 1 - 1)%nat with (length (rev t)) by lia.
      rewrite take_app_length. destruct (Nat.eqb_spec (length (rev t) + 1) 0); [lia|]. reflexivity.
Qed.

(** ** Concurrent appends

    An appender may still fill up the last byte of the stream a reader was made
    on; nothing else in the reader's part of the stream changes. *)
Inductive same_but_last : bstreamReader -> bstreamReader -> Prop :=
| sbl init x y off buffer valid last :
    same_but_last (mkReader (init ++ [x]) off buffer valid last)
                  (mkReader (init ++ [y]) off buffer valid last).

Lemma load_bytes_sbl init x y off buffer valid last nbytes skip low :
  (off + (nbytes - skip) <= length init)%nat ->
  load_bytes (mkReader (init ++ [x]) off buffer valid last) nbytes skip low
  = load_bytes (mkReader (init ++ [y]) off buffer valid last) nbytes skip low.
Proof.
  intros H. unfold load_bytes. cbn [br_streamOffset br_stream].
  generalize (nbytes - skip)%nat H. intros k Hk. induction k as [|k IH]; [reflexivity|].
  rewrite !seq_S, !fold_left_app, IH by lia. cbn [fold_left].
  rewrite !app_nth1 by lia. reflexivity.
Qed.

Lemma loadNextBuffer_sbl nbits r1 r2 : same_but_last r1 r2 ->
  fst (loadNextBuffer nbits r1) = fst (loadNextBuffer nbits r2)
  /\ same_but_last (snd (loadNextBuffer nbits r1)) (snd (loadNextBuffer nbits r2)).
Proof.
  intros [init x y off buffer valid last]. unfold loadNextBuffer.
  cbn [br_stream br_streamOffset br_last]. rewrite !length_app. cbn [length].
  destruct (Nat.leb_spec (length init + 1) off); [split; [reflexivity|constructor]|].
  destruct (Nat.ltb_spec (off + 8) (length init + 1)).
  - rewrite !drop_app_le, !take_app_le by (rewrite ?length_drop; lia).
    split; [reflexivity|constructor].
  - set (nbytes := if (_ <? _)%nat then _ else _).
    assert (Hnb : (off + nbytes <= length init + 1)%nat).
    { subst nbytes. destruct (Nat.ltb_spec (length init + 1) (off + Z.to_nat (nbits / 8 + 1))); lia. }
    destruct (Nat.eqb_spec (off + nbytes) (length init + 1));
      rewrite (load_bytes_sbl init x y) by lia; split; reflexivity || constructor.
Qed.

(** Results agree and the next states are related again. *)
Definition sbl_result {A} (p1 p2 : (rd_err + A) * bstreamReader) : Prop :=
  fst p1 = fst p2 /\ same_but_last (snd p1) (snd p2).

Lemma sbl_set_valid r1 r2 v : same_but_last r1 r2 ->
  same_but_last (set_valid r1 v) (set_valid r2 v).
Proof. intros []. constructor. Qed.

Lemma sbl_fields r1 r2 : same_but_last r1 r2 ->
  br_valid r1 = br_valid r2 /\ br_buffer r1 = br_buffer r2.
Proof. intros []. auto. Qed.

Lemma readBitsFast_sbl n r1 r2 : same_but_last r1 r2 ->
  sbl_result (readBitsFast n r1) (readBitsFast n r2).
Proof.
  intros H. unfold readBitsFast. destruct (sbl_fields _ _ H) as [-> ->].
  destruct (_ <? _); (split; [reflexivity|]); cbn [snd]; [exact H|apply sbl_set_valid; exact H].
Qed.

Lemma readBits_loaded_sbl n r1 r2 : same_but_last r1 r2 ->
  sbl_result (readBits_loaded n r1) (readBits_loaded n r2).
Proof.
  intros H. unfold readBits_loaded. destruct (sbl_fields _ _ H) as [Hv Hb]. rewrite Hv, Hb.
  destruct (_ <=? _); [apply readBitsFast_sbl; exact H|].
  destruct (loadNextBuffer_sbl (n - br_valid r2) _ _ (sbl_set_valid _ _ 0 H)) as [H1 H2].
  destruct (loadNextBuffer _ (set_valid r1 0)) as [ok1 s1].
  destruct (loadNextBuffer _ (set_valid r2 0)) as [ok2 s2]. cbn [fst snd] in H1, H2. subst ok2.
  destruct ok1; [|split; [reflexivity|exact H2]]. destruct (sbl_fields _ _ H2) as [-> ->].
  split; [reflexivity|]. cbn [snd]. apply sbl_set_valid. exact H2.
Qed.

Lemma readBits_sbl n r1 r2 : same_but_last r1 r2 -> sbl_result (readBits n r1) (readBits n r2).
Proof.
  intros H. unfold readBits. destruct (sbl_fields _ _ H) as [-> _].
  destruct (_ =? _); [|apply readBits_loaded_sbl; exact H].
  destruct (loadNextBuffer_sbl n _ _ H) as [H1 H2].
  destruct (loadNextBuffer _ r1) as [ok1 s1], (loadNextBuffer _ r2) as [ok2 s2].
  cbn [fst snd] in H1, H2. subst ok2. destruct ok1; [|split; [reflexivity|exact H2]].
  apply readBits_loaded_sbl; exact H2.
Qed.

Lemma rd_bind_sbl {A B} (m : Rd A) (k : A -> Rd B) :
  (forall r1 r2, same_but_last r1 r2 -> sbl_result (m r1) (m r2)) ->
  (forall a r1 r2, same_but_last r1 r2 -> sbl_result (k a r1) (k a r2)) ->
  forall r1 r2, same_but_last r1 r2 -> sbl_result (rd_bind m k r1) (rd_bind m k r2).
Proof.
  intros Hm Hk r1 r2 H. unfold rd_bind. destruct (Hm _ _ H) as [H1 H2].
  destruct (m r1) as [o1 s1], (m r2) as [o2 s2]. cbn [fst snd] in H1, H2. subst o2.
  destruct o1; [split; [reflexivity|exact H2]|apply Hk; exact H2].
Qed.

(** ** Sequences of words *)

Definition write_words (ws : list (Z * nat)) (b : bstream) : bstream :=
  fold_left (fun b w => writeBits (fst w) (snd w) b) ws b.

Fixpoint read_words (ns : list nat) : Rd (list Z) :=
  match ns with
  | [] => rd_ret []
  | n :: ns' => x <~ readBits (Z.of_nat n) ;; xs <~ read_words ns' ;; rd_ret (x :: xs)
  end.

Lemma write_words_repr ws b l :
  Forall (fun w => (1 <= snd w <= 64)%nat) ws -> repr b l ->
  repr (write_words ws b) (l ++ concat (map (fun w => msb_bits (snd w) (fst w)) ws)).
Proof.
  intros H. revert b l. induction H as [|w ws Hw _ IH]; intros b l Hr.
  - cbn. rewrite app_nil_r. exact Hr.
  - cbn [write_words fold_left map concat]. rewrite app_assoc. apply IH.
    apply writeBits_repr; [lia|exact Hr].
Qed.

Lemma read_words_reads ws :
  Forall (fun w => (1 <= snd w <= 64)%nat) ws ->
  Reads (read_words (map snd ws)) (map (fun w => fst w mod 2 ^ Z.of_nat (snd w)) ws)
    (concat (map (fun w => msb_bits (snd w) (fst w)) ws)).
Proof.
  induction 1 as [|w ws Hw _ IH]; [apply Reads_ret|].
  cbn [map concat read_words]. eapply Reads_bind; [apply readBits_word_slow; exact Hw|].
  rewrite <- (app_nil_r (concat _)). eapply Reads_bind; [exact IH|]. apply Reads_ret.
Qed.

(** ** Properties *)

(** any sequence of words written with [writeBits] (1 to 64 bits each,
    crossing byte and 64-bit buffer boundaries anywhere) is read back by the
    same sequence of [readBits] over the written bytes, each word reduced to
    its width. *)
Theorem bstream_roundtrip (ws : list (Z * nat)) :
  Forall (fun w => (1 <= snd w <= 64)%nat) ws ->
  fst (read_words (map snd ws) (newBReader (bs_bytes (write_words ws (bs_Reset [])))))
  = inr (map (fun w => fst w mod 2 ^ Z.of_nat (snd w)) ws).
Proof.
  intros H. pose proof (write_words_repr ws (bs_Reset []) [] H) as Hr.
  specialize (Hr (repr_reset [] (Forall_nil_2 _))).
  destruct (newBReader_repr _ _ Hr) as [Hw E].
  destruct (read_words_reads ws H _ _ Hw E) as (r' & -> & _). reflexivity.
Qed.

(** reading is not affected by a concurrent appender: if two streams differ
    only in the last byte, which the reader copied when it was made, any
    sequence of [readBits] returns the same words or the same error on both. *)
Theorem read_words_ignore_last_byte (ns : list nat) (init : bytes) (x y off buffer valid last : Z) :
  fst (read_words ns (mkReader (init ++ [x]) (Z.to_nat off) buffer valid last))
  = fst (read_words ns (mkReader (init ++ [y]) (Z.to_nat off) buffer valid last)).
Proof.
  assert (H : forall r1 r2, same_but_last r1 r2 -> sbl_result (read_words ns r1) (read_words ns r2)).
  { induction ns as [|n ns IH]; intros r1 r2 H; [split; auto|].
    cbn [read_words]. apply rd_bind_sbl; auto using readBits_sbl. intros a s1 s2 Hs.
    apply rd_bind_sbl; auto. intros xs t1 t2 Ht. split; auto. }
  apply H. constructor.
Qed.

(** on a truncated stream [readBits] can succeed with made-up zero bits:
    after three of the 24 bits of a three-byte stream were read, asking for 64
    more returns a value and no error although only 21 bits are left, and the
    reader then claims 213 valid bits (the uint8 subtraction wrapped). *)
Theorem readBits_truncated_succeeds :
  exists v r,
    (x <~ readBits 3 ;; readBits 64) (newBReader [255%Z; 255%Z; 255%Z]) = (inr v, r)
    /\ v = 31 * 2 ^ 59 /\ br_valid r = 213.
Proof. eexists _, _. vm_compute. repeat split. Qed.
