(* ===== verification/Varbit.v ===== *)
(** * Variable-width integers on bit streams: [tsdb/chunkenc/varbit.go]

    The bucketed encoding of the histogram chunks, and the pieces it shares with
    the XOR chunk: [bitRange], the unary bucket prefix and the sign extension of
    a bucket's payload. *)

From stdpp Require Import base list numbers.
From Stdlib Require Import ZArith Lia.
From S2P Require Import Prelude Encoding Bstream.

(** [bitRange] (xor.go): [-(2^(nbits-1)-1) <= x <= 2^(nbits-1)]. *)
Definition bitRange (x nbits : Z) : bool :=
  (- (2 ^ (nbits - 1) - 1) <=? x) && (x <=? 2 ^ (nbits - 1)).

(** [bits.LeadingZeros64] of the standard library, and [bitRangeUint]. *)
Definition leadingZeros64 (x : Z) : Z := if x =? 0 then 64 else 63 - Z.log2 x.
Definition bitRangeUint (x nbits : Z) : bool := 64 - nbits <=? leadingZeros64 x.

(** The prefix loop: at most [k] bits, until a zero bit. *)
Fixpoint read_prefix (k : nat) (d : Z) : Rd Z :=
  match k with
  | O => rd_ret d
  | S k' =>
      let d := u8 (Z.shiftl d 1) in
      bit <~ readBit_retry ;;
      if negb bit then rd_ret d else read_prefix k' (Z.lor d 1)
  end.

(** [if bits > (1 << (sz - 1)) { bits -= (1 << sz) }; val = int64(bits)] *)
Definition sign_extend (sz bits : Z) : Z :=
  i64 (if 2 ^ (sz - 1) <? bits then u64 (bits - 2 ^ sz) else bits).

Definition putVarbitInt (val : Z) (b : bstream) : bstream :=
  if val =? 0 then writeBit false b
  else if bitRange val 3 then writeBits (u64 val) 3 (writeBits 2 2 b)
  else if bitRange val 6 then writeBits (u64 val) 6 (writeBits 6 3 b)
  else if bitRange val 9 then writeBits (u64 val) 9 (writeBits 14 4 b)
  else if bitRange val 12 then writeBits (u64 val) 12 (writeBits 30 5 b)
  else if bitRange val 18 then writeBits (u64 val) 18 (writeBits 62 6 b)
  else if bitRange val 25 then writeBits (u64 val) 25 (writeBits 126 7 b)
  else if bitRange val 56 then writeBits (u64 val) 56 (writeBits 254 8 b)
  else writeBits (u64 val) 64 (writeBits 255 8 b).

Definition putVarbitUint (val : Z) (b : bstream) : bstream :=
  if val =? 0 then writeBit false b
  else if bitRangeUint val 3 then writeBits val 3 (writeBits 2 2 b)
  else if bitRangeUint val 6 then writeBits val 6 (writeBits 6 3 b)
  else if bitRangeUint val 9 then writeBits val 9 (writeBits 14 4 b)
  else if bitRangeUint val 12 then writeBits val 12 (writeBits 30 5 b)
  else if bitRangeUint val 18 then writeBits val 18 (writeBits 62 6 b)
  else if bitRangeUint val 25 then writeBits val 25 (writeBits 126 7 b)
  else if bitRangeUint val 56 then writeBits val 56 (writeBits 254 8 b)
  else writeBits val 64 (writeBits 255 8 b).

(** The size table both readers switch on. *)
Definition varbit_size (d : Z) : option Z :=
  if d =? 0 then Some 0
  else if d =? 2 then Some 3
  else if d =? 6 then Some 6
  else if d =? 14 then Some 9
  else if d =? 30 then Some 12
  else if d =? 62 then Some 18
  else if d =? 126 then Some 25
  else if d =? 254 then Some 56
  else None.

Definition readVarbitInt : Rd Z :=
  d <~ read_prefix 8 0 ;;
  if d =? 255 then bits <~ readBits 64 ;; rd_ret (i64 bits)
  else
    match varbit_size d with
    | None => rd_err_ret (InvalidBitPattern d)
    | Some sz =>
        if sz =? 0 then rd_ret 0
        else bits <~ readBits_retry sz ;; rd_ret (sign_extend sz bits)
    end.

Definition readVarbitUint : Rd Z :=
  d <~ read_prefix 8 0 ;;
  if d =? 255 then readBits 64
  else
    match varbit_size d with
    | None => rd_err_ret (InvalidBitPattern d)
    | Some sz => if sz =? 0 then rd_ret 0 else readBits_retry sz
    end.

(** ** Lemmas *)

Lemma sign_extend_word sz val : 2 <= sz <= 56 -> bitRange val sz = true ->
  sign_extend sz (u64 val mod 2 ^ sz) = val.
Proof.
  intros Hsz H. unfold bitRange in H. apply andb_true_iff in H. destruct H as [H1 H2].
  apply Z.leb_le in H1, H2. unfold sign_extend.
  assert (Hp : 2 ^ sz = 2 * 2 ^ (sz - 1)) by (rewrite <- Z.pow_succ_r by lia; f_equal; lia).
  assert (Hb : 0 < 2 ^ (sz - 1) <= 2 ^ 55) by (split; [lia|apply Z.pow_le_mono_r; lia]).
  assert (Hm : u64 val mod 2 ^ sz = val mod 2 ^ sz).
  { unfold u64. replace (2 ^ 64) with (2 ^ sz * 2 ^ (64 - sz)) by
      (rewrite <- Z.pow_add_r by lia; f_equal; lia).
    rewrite Z.rem_mul_r by lia. rewrite Z.mul_comm, Z.mod_add, Z.mod_mod by lia. reflexivity. }
  rewrite Hm. destruct (Z.lt_ge_cases val 0).
  - rewrite <- (Z.mod_add val 1), Z.mod_small by lia.
    destruct (Z.ltb_spec (2 ^ (sz - 1)) (val + 1 * 2 ^ sz)); [|lia].
    rewrite i64_u64. rewrite i64_id by zlia. lia.
  - rewrite Z.mod_small by lia. destruct (Z.ltb_spec (2 ^ (sz - 1)) val); [lia|].
    apply i64_id. zlia.
Qed.

Lemma bitRangeUint_spec x n : 0 < n <= 64 -> is_u64 x -> x <> 0 ->
  bitRangeUint x n = true -> x < 2 ^ n.
Proof.
  intros Hn Hx Hne H. unfold bitRangeUint, leadingZeros64 in H. unfold is_u64 in Hx.
  destruct (Z.eqb_spec x 0); [lia|]. apply Z.leb_le in H.
  apply Z.log2_lt_pow2; lia.
Qed.

(** The value of the prefix loop on [k] ones and a zero. *)
Fixpoint prefix_val (k : nat) (d : Z) : Z :=
  match k with
  | O => u8 (Z.shiftl d 1)
  | S k' => prefix_val k' (Z.lor (u8 (Z.shiftl d 1)) 1)
  end.

Lemma read_prefix_zero k j d :
  Reads (read_prefix (S (k + j)) d) (prefix_val k d) (replicate k true ++ [false]).
Proof.
  revert d. induction k as [|k IH]; intros d; cbn [read_prefix prefix_val replicate app].
  - rewrite <- (app_nil_r [false]). eapply Reads_bind; [apply readBit_retry_reads|]. apply Reads_ret.
  - change (true :: replicate k true ++ [false]) with ([true] ++ (replicate k true ++ [false])).
    eapply Reads_bind; [apply readBit_retry_reads|]. apply IH.
Qed.

Fixpoint prefix_ones (k : nat) (d : Z) : Z :=
  match k with O => d | S k' => prefix_ones k' (Z.lor (u8 (Z.shiftl d 1)) 1) end.

Lemma read_prefix_ones k d : Reads (read_prefix k d) (prefix_ones k d) (replicate k true).
Proof.
  revert d. induction k as [|k IH]; intros d; cbn [read_prefix prefix_ones replicate].
  - apply Reads_ret.
  - change (true :: replicate k true) with ([true] ++ replicate k true).
    eapply Reads_bind; [apply readBit_retry_reads|]. apply IH.
Qed.

(** [put] appends bits that [m], wherever they are followed by, reads as [a]. *)
Definition bit_codec {A} (put : bstream -> bstream) (m : Rd A) (a : A) : Prop :=
  exists bs, (forall b l, repr b l -> repr (put b) (l ++ bs)) /\ Reads m a bs.

Lemma bit_codec_seq {A B} put1 put2 (m : Rd A) (k : A -> Rd B) a b :
  bit_codec put1 m a -> bit_codec put2 (k a) b ->
  bit_codec (fun s => put2 (put1 s)) (x <~ m ;; k x) b.
Proof.
  intros (l1 & P1 & R1) (l2 & P2 & R2). exists (l1 ++ l2). split.
  - intros s l Hr. rewrite app_assoc. auto.
  - eapply Reads_bind; eassumption.
Qed.

Lemma bit_codec_map {A B} put (m : Rd A) (f : A -> B) a :
  bit_codec put m a -> bit_codec put (x <~ m ;; rd_ret (f x)) (f a).
Proof.
  intros (l & P & R). exists l. split; [exact P|].
  rewrite <- (app_nil_r l). eapply Reads_bind; [exact R|]. apply Reads_ret.
Qed.

Lemma bit_codec_bit b : bit_codec (writeBit b) readBit_retry b.
Proof. exists [b]. split; [intros; apply writeBit_repr; assumption|apply readBit_retry_reads]. Qed.

Lemma bit_codec_word n u : (1 <= n <= 64)%nat ->
  bit_codec (writeBits u n) (readBits_retry (Z.of_nat n)) (u mod 2 ^ Z.of_nat n).
Proof.
  intros Hn. exists (msb_bits n u).
  split; [intros; apply writeBits_repr; [lia|assumption]|apply readBits_word; exact Hn].
Qed.

Lemma bit_codec_word_slow n u : (1 <= n <= 64)%nat ->
  bit_codec (writeBits u n) (readBits (Z.of_nat n)) (u mod 2 ^ Z.of_nat n).
Proof.
  intros Hn. exists (msb_bits n u).
  split; [intros; apply writeBits_repr; [lia|assumption]|apply readBits_word_slow; exact Hn].
Qed.

Lemma bit_codec_byte byt : is_u8 byt -> bit_codec (writeByte byt) ReadByte byt.
Proof.
  intros Hb. exists (msb_bits 8 byt).
  split; [intros; apply writeByte_repr; assumption|apply ReadByte_reads; exact Hb].
Qed.

(** A prefix that the code writes as one word. *)
Lemma bit_codec_prefix p plen k m :
  (plen <= 64)%nat -> (k < m)%nat -> p = prefix_val k 0 ->
  msb_bits plen p = replicate k true ++ [false] ->
  bit_codec (writeBits p plen) (read_prefix m 0) p.
Proof.
  intros Hp Hk E1 E2. exists (replicate k true ++ [false]). split.
  - intros b l Hr. rewrite <- E2. apply writeBits_repr; assumption.
  - rewrite E1. replace m with (S (k + (m - S k))) by lia. apply read_prefix_zero.
Qed.

Lemma bit_codec_prefix_ones p m :
  (m <= 64)%nat -> p = prefix_ones m 0 -> msb_bits m p = replicate m true ->
  bit_codec (writeBits p m) (read_prefix m 0) p.
Proof.
  intros Hm E1 E2. exists (replicate m true). split.
  - intros b l Hr. rewrite <- E2. apply writeBits_repr; assumption.
  - rewrite E1. apply read_prefix_ones.
Qed.

Lemma bit_codec_prefix_none m : (0 < m)%nat -> bit_codec (writeBit false) (read_prefix m 0) 0.
Proof.
  intros Hm. exists [false]. split; [intros; apply writeBit_repr; assumption|].
  replace m with (S (0 + (m - 1))) by lia. apply (read_prefix_zero 0).
Qed.

Lemma bit_codec_ret {A} (a : A) : bit_codec (fun s => s) (rd_ret a) a.
Proof. exists []. split; [intros; rewrite app_nil_r; assumption|apply Reads_ret]. Qed.

(** A signed payload of [n] bits. *)
Lemma bit_codec_signed n val : (2 <= n <= 56)%nat -> bitRange val (Z.of_nat n) = true ->
  bit_codec (writeBits (u64 val) n)
    (bits <~ readBits_retry (Z.of_nat n) ;; rd_ret (sign_extend (Z.of_nat n) bits)) val.
Proof.
  intros Hn H. rewrite <- (sign_extend_word (Z.of_nat n) val) at 2 by (assumption || lia).
  apply bit_codec_map, bit_codec_word. lia.
Qed.

(** A full 64-bit signed payload. *)
Lemma bit_codec_signed64 val : is_i64 val ->
  bit_codec (writeBits (u64 val) 64) (bits <~ readBits 64 ;; rd_ret (i64 bits)) val.
Proof.
  intros H. rewrite <- (i64_id val) at 2 by assumption. rewrite <- i64_u64.
  rewrite <- (u64_id (u64 val)) at 2 by apply u64_range.
  apply (bit_codec_map _ _ i64), (bit_codec_word_slow 64). lia.
Qed.

(** An unsigned payload. *)
Lemma bit_codec_unsigned n val : (1 <= n <= 64)%nat -> 0 <= val < 2 ^ Z.of_nat n ->
  bit_codec (writeBits val n) (readBits_retry (Z.of_nat n)) val.
Proof.
  intros Hn H. pose proof (bit_codec_word n val Hn) as Hc. rewrite Z.mod_small in Hc by lia. exact Hc.
Qed.

(** Reads the prefix [p] written as [plen] bits, [k] of them ones, and goes on
    with what the reader does on [p]. *)
Ltac bucket k :=
  eapply bit_codec_seq with (put1 := writeBits _ (S k));
  [apply (bit_codec_prefix _ (S k) k); [lia|lia|reflexivity|reflexivity]|cbn -[readBits_retry sign_extend Z.of_nat]].

Lemma varbit_int_codec val : is_i64 val -> bit_codec (putVarbitInt val) readVarbitInt val.
Proof.
  intros Hv. unfold putVarbitInt, readVarbitInt.
  destruct (Z.eqb_spec val 0) as [->|_].
  { eapply (bit_codec_seq (writeBit false) (fun s => s));
      [apply bit_codec_prefix_none; lia|apply bit_codec_ret]. }
  destruct (bitRange val 3) eqn:E3; [bucket 1%nat; apply (bit_codec_signed 3); [lia|exact E3]|].
  destruct (bitRange val 6) eqn:E6; [bucket 2%nat; apply (bit_codec_signed 6); [lia|exact E6]|].
  destruct (bitRange val 9) eqn:E9; [bucket 3%nat; apply (bit_codec_signed 9); [lia|exact E9]|].
  destruct (bitRange val 12) eqn:E12; [bucket 4%nat; apply (bit_codec_signed 12); [lia|exact E12]|].
  destruct (bitRange val 18) eqn:E18; [bucket 5%nat; apply (bit_codec_signed 18); [lia|exact E18]|].
  destruct (bitRange val 25) eqn:E25; [bucket 6%nat; apply (bit_codec_signed 25); [lia|exact E25]|].
  destruct (bitRange val 56) eqn:E56; [bucket 7%nat; apply (bit_codec_signed 56); [lia|exact E56]|].
  eapply bit_codec_seq with (put1 := writeBits 255 8);
    [apply bit_codec_prefix_ones; [lia|reflexivity|reflexivity]|].
  apply bit_codec_signed64. exact Hv.
Qed.

Lemma varbit_uint_codec val : is_u64 val -> bit_codec (putVarbitUint val) readVarbitUint val.
Proof.
  intros Hv. unfold putVarbitUint, readVarbitUint.
  destruct (Z.eqb_spec val 0) as [->|Hne].
  { eapply (bit_codec_seq (writeBit false) (fun s => s));
      [apply bit_codec_prefix_none; lia|apply bit_codec_ret]. }
  assert (H : forall n, 0 < n <= 64 -> bitRangeUint val n = true -> 0 <= val < 2 ^ n).
  { intros n Hn E. split; [apply Hv|]. apply bitRangeUint_spec; auto. }
  destruct (bitRangeUint val 3) eqn:E3;
    [bucket 1%nat; apply (bit_codec_unsigned 3); [lia|apply (H 3); [lia|exact E3]]|].
  destruct (bitRangeUint val 6) eqn:E6;
    [bucket 2%nat; apply (bit_codec_unsigned 6); [lia|apply (H 6); [lia|exact E6]]|].
  destruct (bitRangeUint val 9) eqn:E9;
    [bucket 3%nat; apply (bit_codec_unsigned 9); [lia|apply (H 9); [lia|exact E9]]|].
  destruct (bitRangeUint val 12) eqn:E12;
    [bucket 4%nat; apply (bit_codec_unsigned 12); [lia|apply (H 12); [lia|exact E12]]|].
  destruct (bitRangeUint val 18) eqn:E18;
    [bucket 5%nat; apply (bit_codec_unsigned 18); [lia|apply (H 18); [lia|exact E18]]|].
  destruct (bitRangeUint val 25) eqn:E25;
    [bucket 6%nat; apply (bit_codec_unsigned 25); [lia|apply (H 25); [lia|exact E25]]|].
  destruct (bitRangeUint val 56) eqn:E56;
    [bucket 7%nat; apply (bit_codec_unsigned 56); [lia|apply (H 56); [lia|exact E56]]|].
  eapply bit_codec_seq with (put1 := writeBits 255 8);
    [apply bit_codec_prefix_ones; [lia|reflexivity|reflexivity]|].
  pose proof (bit_codec_word_slow 64 val ltac:(lia)) as Hc.
  change (2 ^ Z.of_nat 64) with (2 ^ 64) in Hc. fold (u64 val) in Hc.
  rewrite u64_id in Hc by exact Hv. exact Hc.
Qed.

(** Sequences of encoded values over one stream. *)
Fixpoint read_n {A} (m : Rd A) (n : nat) : Rd (list A) :=
  match n with
  | O => rd_ret []
  | S n' => x <~ m ;; xs <~ read_n m n' ;; rd_ret (x :: xs)
  end.

Lemma bit_codec_list {A} (put : A -> bstream -> bstream) (m : Rd A) (vals : list A) :
  Forall (fun v => bit_codec (put v) m v) vals ->
  bit_codec (fun b => fold_left (fun b v => put v b) vals b) (read_n m (length vals)) vals.
Proof.
  induction 1 as [|v vals Hv _ IH]; [apply bit_codec_ret|].
  cbn [fold_left length read_n].
  eapply (bit_codec_seq (put v) (fun b => fold_left (fun b v => put v b) vals b)); [exact Hv|].
  apply (bit_codec_map _ _ (cons v)). exact IH.
Qed.

Lemma bit_codec_run {A} (put : bstream -> bstream) (m : Rd A) (a : A) :
  bit_codec put m a -> fst (m (newBReader (bs_bytes (put (bs_Reset []))))) = inr a.
Proof.
  intros (l & P & R). pose proof (P (bs_Reset []) [] (repr_reset [] (Forall_nil_2 _))) as Hr.
  destruct (newBReader_repr _ _ Hr) as [Hw E]. destruct (R _ _ Hw E) as (r' & -> & _). reflexivity.
Qed.

(** Whatever the reader returns, the prefix loop ends on a unary code. *)
Lemma read_prefix_cases k d r p r' : read_prefix k d r = (inr p, r') ->
  (exists j, (j < k)%nat /\ p = prefix_val j d) \/ p = prefix_ones k d.
Proof.
  revert d r. induction k as [|k IH]; intros d r E; cbn [read_prefix] in E.
  - injection E as <- _. right. reflexivity.
  - unfold rd_bind in E. destruct (readBit_retry r) as [[e|bit] r1]; [discriminate|].
    destruct bit; cbn [negb] in E.
    + apply IH in E. destruct E as [(j & Hj & ->)|E]; [left; exists (S j); split; [lia|reflexivity]|].
      right. exact E.
    + injection E as <- _. left. exists 0%nat. split; [lia|reflexivity].
Qed.

(** The only error a bit read reports is the end of the stream. *)
Definition only_eof {A} (m : Rd A) : Prop := forall r e r', m r = (inl e, r') -> e = EOF.

Lemma readBits_only_eof n : only_eof (readBits n).
Proof.
  assert (Hl : only_eof (readBits_loaded n)).
  { intros r e r' E. unfold readBits_loaded, readBitsFast in E.
    destruct (n <=? br_valid r).
    - destruct (br_valid r <? n); injection E; congruence.
    - destruct (loadNextBuffer _ _) as [[] r2]; injection E; congruence. }
  intros r e r' E. unfold readBits in E. destruct (br_valid r =? 0); [|eapply Hl; exact E].
  destruct (loadNextBuffer n r) as [[] r2]; [eapply Hl; exact E|injection E; congruence].
Qed.

Lemma readBit_retry_only_eof : only_eof readBit_retry.
Proof.
  assert (Hf : only_eof readBitFast).
  { intros r e r' E. unfold readBitFast in E. destruct (br_valid r =? 0); injection E; congruence. }
  assert (Hb : only_eof readBit).
  { intros r e r' E. unfold readBit in E. destruct (br_valid r =? 0); [|eapply Hf; exact E].
    destruct (loadNextBuffer 1 r) as [[] r2]; [eapply Hf; exact E|injection E; congruence]. }
  intros r e r' E. unfold readBit_retry, rd_else in E.
  destruct (readBitFast r) as [[e1|a] r1]; [eapply Hb; exact E|discriminate].
Qed.

Lemma readBits_retry_only_eof n : only_eof (readBits_retry n).
Proof.
  intros r e r' E. unfold readBits_retry, rd_else in E.
  destruct (readBitsFast n r) as [[e1|a] r1]; [eapply readBits_only_eof; exact E|discriminate].
Qed.

Lemma only_eof_bind {A B} (m : Rd A) (k : A -> Rd B) :
  only_eof m -> (forall a, only_eof (k a)) -> only_eof (rd_bind m k).
Proof.
  intros Hm Hk r e r' E. unfold rd_bind in E. destruct (m r) as [[e1|a] r1] eqn:Em.
  - injection E as <- _. eapply Hm. exact Em.
  - eapply Hk. exact E.
Qed.

Lemma only_eof_ret {A} (a : A) : only_eof (rd_ret a).
Proof. intros r e r' E. discriminate. Qed.

Lemma read_prefix_only_eof k d : only_eof (read_prefix k d).
Proof.
  revert d. induction k as [|k IH]; intros d; [apply only_eof_ret|].
  apply only_eof_bind; [apply readBit_retry_only_eof|].
  intros []; [apply IH|apply only_eof_ret].
Qed.

(** ** Properties *)

(** any sequence of int64 values written with [putVarbitInt] and then of
    uint64 values written with [putVarbitUint] to one stream is read back by
    [readVarbitInt] and [readVarbitUint], whatever buckets the values fall in. *)
Theorem varbit_roundtrip (ints : list Z) (uints : list Z) :
  Forall is_i64 ints -> Forall is_u64 uints ->
  let b := fold_left (fun b v => putVarbitUint v b) uints
             (fold_left (fun b v => putVarbitInt v b) ints (bs_Reset [])) in
  fst ((xs <~ read_n readVarbitInt (length ints) ;;
        ys <~ read_n readVarbitUint (length uints) ;;
        rd_ret (xs, ys)) (newBReader (bs_bytes b))) = inr (ints, uints).
Proof.
  intros Hi Hu b. subst b.
  apply (bit_codec_run (fun b => fold_left (fun b v => putVarbitUint v b) uints
                          (fold_left (fun b v => putVarbitInt v b) ints b))).
  eapply (bit_codec_seq (fun b => fold_left (fun b v => putVarbitInt v b) ints b)).
  - apply bit_codec_list. apply (Forall_impl _ varbit_int_codec Hi).
  - apply (bit_codec_map _ _ (pair ints)), bit_codec_list.
    apply (Forall_impl _ varbit_uint_codec Hu).
Qed.

(** the eight-bit prefix loop can only end on one of the nine size classes
    of the switch that follows it, so [readVarbitInt] never takes its "invalid
    bit pattern" branch: on every reader state, the only error is EOF. *)
Theorem varbit_no_invalid_pattern (r : bstreamReader) :
  match readVarbitInt r with (inl e, _) => e = EOF | (inr _, _) => True end.
Proof.
  destruct (readVarbitInt r) as [[e|v] r'] eqn:E; [|exact I].
  unfold readVarbitInt, rd_bind at 1 in E.
  destruct (read_prefix 8 0 r) as [[e1|p] r1] eqn:Ep.
  { injection E as <- _. eapply read_prefix_only_eof. exact Ep. }
  assert (Hk : forall sz, only_eof (bits <~ readBits_retry sz ;; rd_ret (sign_extend sz bits))).
  { intros sz. apply only_eof_bind; [apply readBits_retry_only_eof|intros; apply only_eof_ret]. }
  destruct (read_prefix_cases _ _ _ _ _ Ep) as [(j & Hj & ->)| ->].
  - do 8 (destruct j as [|j]; [first [discriminate E | eapply Hk; exact E]|]). lia.
  - revert E. apply only_eof_bind; [apply readBits_only_eof|intros; apply only_eof_ret].
Qed.
