(* ===== verification/XorChunk.v ===== *)
(** * The XOR (Gorilla) chunk: [tsdb/chunkenc/xor.go]

    [XORChunk], its appender and its iterator.  Timestamps are int64, values are
    the 64 bits of a float64.  The appender writes the first sample in full, the
    second as a timestamp delta, later ones as a delta of deltas, and every value
    but the first as a XOR with its predecessor.  The iterator undoes it.  The
    two states are related by [synced], which is what makes a chunk readable and
    an appender re-openable. *)

From stdpp Require Import base list numbers.
From Stdlib Require Import ZArith Lia.
From S2P Require Import Prelude Encoding Bstream Varbit.

(** ** Counting zeros ([math/bits]) *)
Fixpoint pos_trailing (p : positive) : Z :=
  match p with xO p' => 1 + pos_trailing p' | _ => 0 end.
Definition trailingZeros64 (x : Z) : Z :=
  match x with Zpos p => pos_trailing p | _ => 64 end.

(** ** The chunk *)

(** [NewXORChunk]: two header bytes for the sample count. *)
Definition NewXORChunk : bstream := mkBstream [0; 0] 0.
Definition be_uint16 (b : bytes) : Z := be_val (take 2 b).
Definition put_uint16 (b : bytes) (x : Z) : bytes := be_bytes 2 x ++ drop 2 b.
Definition NumSamples (c : bstream) : Z := be_uint16 (bs_bytes c).

(** ** The appender *)

Record xorAppender := mkXorAppender {
  xa_b : bstream;
  xa_t : Z;
  xa_v : Z;
  xa_tDelta : Z;
  xa_leading : Z;
  xa_trailing : Z
}.

Definition xa_write (a : xorAppender) (f : bstream -> bstream) : xorAppender :=
  mkXorAppender (f (xa_b a)) (xa_t a) (xa_v a) (xa_tDelta a) (xa_leading a) (xa_trailing a).

(** [xorWrite] returns the stream and the updated leading and trailing counts. *)
Definition xorWrite (b : bstream) (newValue currentValue leading trailing : Z)
    : bstream * Z * Z :=
  let delta := Z.lxor newValue currentValue in
  if delta =? 0 then (writeBit false b, leading, trailing)
  else
    let b := writeBit true b in
    let newLeading := leadingZeros64 delta in
    let newTrailing := trailingZeros64 delta in
    let newLeading := if 32 <=? newLeading then 31 else newLeading in
    if negb (leading =? 255) && (leading <=? newLeading) && (trailing <=? newTrailing) then
      (writeBits (Z.shiftr delta trailing) (Z.to_nat (64 - leading - trailing)) (writeBit false b),
       leading, trailing)
    else
      let sigbits := u8 (64 - newLeading - newTrailing) in
      (writeBits (Z.shiftr delta newTrailing) (Z.to_nat sigbits)
         (writeBits sigbits 6 (writeBits newLeading 5 (writeBit true b))),
       newLeading, newTrailing).

Definition writeVDelta (v : Z) (a : xorAppender) : xorAppender :=
  let '(b, leading, trailing) := xorWrite (xa_b a) v (xa_v a) (xa_leading a) (xa_trailing a) in
  mkXorAppender b (xa_t a) (xa_v a) (xa_tDelta a) leading trailing.

Definition write_bytes (bs : bytes) (b : bstream) : bstream :=
  fold_left (fun b x => writeByte x b) bs b.

(** The delta-of-delta buckets of [Append]. *)
Definition write_dod (dod : Z) (b : bstream) : bstream :=
  if dod =? 0 then writeBit false b
  else if bitRange dod 14 then
    writeByte (u8 dod) (writeByte (Z.lor (Z.shiftl 2 6) (Z.land (u8 (Z.shiftr dod 8)) (2 ^ 6 - 1))) b)
  else if bitRange dod 17 then writeBits (u64 dod) 17 (writeBits 6 3 b)
  else if bitRange dod 20 then writeBits (u64 dod) 20 (writeBits 14 4 b)
  else writeBits (u64 dod) 64 (writeBits 15 4 b).

Definition Append (t v : Z) (a : xorAppender) : xorAppender :=
  let num := be_uint16 (bs_bytes (xa_b a)) in
  let '(tDelta, a) :=
    if num =? 0 then
      (0, xa_write a (fun b => writeBits v 64 (write_bytes (put_varint t) b)))
    else if num =? 1 then
      let tDelta := u64 (i64 (t - xa_t a)) in
      (tDelta, writeVDelta v (xa_write a (write_bytes (put_uvarint tDelta))))
    else
      let tDelta := u64 (i64 (t - xa_t a)) in
      let dod := i64 (u64 (tDelta - xa_tDelta a)) in
      (tDelta, writeVDelta v (xa_write a (write_dod dod)))
  in
  mkXorAppender
    (mkBstream (put_uint16 (bs_bytes (xa_b a)) (num + 1)) (bs_count (xa_b a)))
    t v tDelta (xa_leading a) (xa_trailing a).

(** ** The iterator *)

Record xorIterator := mkXorIterator {
  it_br : bstreamReader;
  it_numTotal : Z;
  it_numRead : Z;
  it_t : Z;
  it_val : Z;
  it_leading : Z;
  it_trailing : Z;
  it_tDelta : Z;
  it_err : option rd_err
}.

(** [iterator(nil)] of a chunk. *)
Definition xor_iterator (c : bstream) : xorIterator :=
  mkXorIterator (newBReader (drop 2 (bs_bytes c))) (be_uint16 (bs_bytes c)) 0 MinInt64 0 0 0 0 None.

(** [Reset]: a reused iterator starts from time 0. *)
Definition xor_Reset (b : bytes) : xorIterator :=
  mkXorIterator (newBReader (drop 2 b)) (be_uint16 b) 0 0 0 0 0 0 None.

(** Code that reads and updates an iterator; an error is returned to [Next],
    which stores it. *)
Definition ItM (A : Type) : Type := xorIterator -> (rd_err + A) * xorIterator.
Definition it_ret {A} (a : A) : ItM A := fun it => (inr a, it).
Definition it_bind {A B} (m : ItM A) (k : A -> ItM B) : ItM B :=
  fun it => match m it with
            | (inr a, it') => k a it'
            | (inl e, it') => (inl e, it')
            end.
Notation "x <@ m ;; k" := (it_bind m (fun x => k))
  (at level 100, m at next level, right associativity).
Definition it_get : ItM xorIterator := fun it => (inr it, it).
Definition it_read {A} (m : Rd A) : ItM A := fun it =>
  let '(o, br) := m (it_br it) in
  (o, mkXorIterator br (it_numTotal it) (it_numRead it) (it_t it) (it_val it)
        (it_leading it) (it_trailing it) (it_tDelta it) (it_err it)).
Definition it_set_t (t : Z) : ItM unit := fun it =>
  (inr tt, mkXorIterator (it_br it) (it_numTotal it) (it_numRead it) t (it_val it)
             (it_leading it) (it_trailing it) (it_tDelta it) (it_err it)).
Definition it_set_val (v : Z) : ItM unit := fun it =>
  (inr tt, mkXorIterator (it_br it) (it_numTotal it) (it_numRead it) (it_t it) v
             (it_leading it) (it_trailing it) (it_tDelta it) (it_err it)).
Definition it_set_lt (leading trailing : Z) : ItM unit := fun it =>
  (inr tt, mkXorIterator (it_br it) (it_numTotal it) (it_numRead it) (it_t it) (it_val it)
             leading trailing (it_tDelta it) (it_err it)).
Definition it_set_tDelta (d : Z) : ItM unit := fun it =>
  (inr tt, mkXorIterator (it_br it) (it_numTotal it) (it_numRead it) (it_t it) (it_val it)
             (it_leading it) (it_trailing it) d (it_err it)).
Definition it_inc_read : ItM unit := fun it =>
  (inr tt, mkXorIterator (it_br it) (it_numTotal it) (u16 (it_numRead it + 1)) (it_t it) (it_val it)
             (it_leading it) (it_trailing it) (it_tDelta it) (it_err it)).

(** [binary.ReadUvarint] and [binary.ReadVarint] over a [ByteReader]. *)
Fixpoint ReadUvarint_loop (fuel i : nat) (x s : Z) : Rd Z :=
  match fuel with
  | O => rd_err_ret VarintOverflow
  | S f => fun r =>
      match ReadByte r with
      | (inl e, r') => (inl (if (0 <? i)%nat then UnexpectedEOF else e), r')
      | (inr b, r') =>
          if b <? 128 then
            if (i =? MaxVarintLen64 - 1)%nat && (1 <? b) then (inl VarintOverflow, r')
            else (inr (Z.lor x (u64 (Z.shiftl b s))), r')
          else ReadUvarint_loop f (S i) (Z.lor x (u64 (Z.shiftl (Z.land b 127) s))) (s + 7) r'
      end
  end.
Definition ReadUvarint : Rd Z := ReadUvarint_loop MaxVarintLen64 0 0 0.
Definition ReadVarint : Rd Z := ux <~ ReadUvarint ;; rd_ret (unzigzag ux).

(** [xorRead], on the iterator's value, leading and trailing fields. *)
Definition xorRead : ItM unit :=
  bit <@ it_read readBit_retry ;;
  if negb bit then it_ret tt
  else
    bit <@ it_read readBit_retry ;;
    nt_mb <@ (if negb bit then
                it <@ it_get ;;
                it_ret (it_trailing it, u8 (64 - it_leading it - it_trailing it))
              else
                bits <@ it_read (readBits_retry 5) ;;
                let newLeading := u8 bits in
                bits <@ it_read (readBits_retry 6) ;;
                let mbits := if u8 bits =? 0 then 64 else u8 bits in
                let newTrailing := u8 (64 - newLeading - mbits) in
                _ <@ it_set_lt newLeading newTrailing ;;
                it_ret (newTrailing, mbits)) ;;
    bits <@ it_read (readBits_retry (snd nt_mb)) ;;
    it <@ it_get ;;
    it_set_val (Z.lxor (it_val it) (u64 (Z.shiftl bits (fst nt_mb)))).

Definition readValue : ItM unit := _ <@ xorRead ;; it_inc_read.

(** The size table of the delta-of-delta prefix; the four-bit loop cannot leave it. *)
Definition dod_size (d : Z) : Z :=
  if d =? 2 then 14 else if d =? 6 then 17 else if d =? 14 then 20 else 0.

Definition read_dod : Rd Z :=
  d <~ read_prefix 4 0 ;;
  if d =? 15 then bits <~ readBits 64 ;; rd_ret (i64 bits)
  else if dod_size d =? 0 then rd_ret 0
  else bits <~ readBits_retry (dod_size d) ;; rd_ret (sign_extend (dod_size d) bits).

Definition next_body : ItM unit :=
  it <@ it_get ;;
  if it_numRead it =? 0 then
    t <@ it_read ReadVarint ;;
    v <@ it_read (readBits 64) ;;
    _ <@ it_set_t t ;; _ <@ it_set_val v ;; it_inc_read
  else if it_numRead it =? 1 then
    tDelta <@ it_read ReadUvarint ;;
    _ <@ it_set_tDelta tDelta ;; _ <@ it_set_t (i64 (it_t it + i64 tDelta)) ;; readValue
  else
    dod <@ it_read read_dod ;;
    let tDelta := u64 (i64 (i64 (it_tDelta it) + dod)) in
    _ <@ it_set_tDelta tDelta ;; _ <@ it_set_t (i64 (it_t it + i64 tDelta)) ;; readValue.

(** [Next]: [true] is [ValFloat], [false] is [ValNone]. *)
Definition Next (it : xorIterator) : bool * xorIterator :=
  match it_err it with
  | Some _ => (false, it)
  | None =>
      if it_numRead it =? it_numTotal it then (false, it)
      else match next_body it with
           | (inr _, it') => (true, it')
           | (inl e, it') =>
               (false, mkXorIterator (it_br it') (it_numTotal it') (it_numRead it') (it_t it')
                         (it_val it') (it_leading it') (it_trailing it') (it_tDelta it') (Some e))
           end
  end.

Definition At (it : xorIterator) : Z * Z := (it_t it, it_val it).

(** [for it.Next() != ValNone {}], at most one iteration per sample. *)
Fixpoint drain (fuel : nat) (it : xorIterator) : xorIterator :=
  match fuel with
  | O => it
  | S f => match Next it with (true, it') => drain f it' | (false, it') => it' end
  end.

(** [Appender]: replays the chunk to recover the appender's state. *)
Definition Appender (c : bstream) : rd_err + xorAppender :=
  let it := drain (S (Z.to_nat (be_uint16 (bs_bytes c)))) (xor_iterator c) in
  match it_err it with
  | Some e => inl e
  | None =>
      inr (mkXorAppender c (it_t it) (it_val it) (it_tDelta it)
             (if it_numTotal it =? 0 then 255 else it_leading it) (it_trailing it))
  end.

(** The samples an iterator still yields. *)
Fixpoint collect (fuel : nat) (it : xorIterator) : list (Z * Z) * xorIterator :=
  match fuel with
  | O => ([], it)
  | S f => match Next it with
           | (true, it') => let '(ss, it2) := collect f it' in (At it' :: ss, it2)
           | (false, it') => ([], it')
           end
  end.

Definition append_all (ss : list (Z * Z)) (a : xorAppender) : xorAppender :=
  fold_left (fun a s => Append (fst s) (snd s) a) ss a.

(** ** Reading through the iterator *)

(** The fields the samples are decoded into, with any sample count and reader. *)
Definition set_br (it : xorIterator) (N : Z) (br : bstreamReader) : xorIterator :=
  mkXorIterator br N (it_numRead it) (it_t it) (it_val it)
    (it_leading it) (it_trailing it) (it_tDelta it) (it_err it).

(** [m] reads the bits [l], returns [a] and takes the other fields of the
    iterator from [it] to [it']. *)
Definition ItReads {A} (m : ItM A) (it : xorIterator) (a : A) (it' : xorIterator)
    (l : list bool) : Prop :=
  forall N br rest, wf_reader br -> br_rem br = l ++ rest ->
  exists br', m (set_br it N br) = (inr a, set_br it' N br') /\ wf_reader br' /\ br_rem br' = rest.

Lemma ItReads_ret {A} (a : A) it : ItReads (it_ret a) it a it [].
Proof. intros N br rest Hw E. exists br. auto. Qed.

Lemma ItReads_bind {A B} (m : ItM A) (k : A -> ItM B) it0 it1 it2 a b l1 l2 :
  ItReads m it0 a it1 l1 -> ItReads (k a) it1 b it2 l2 ->
  ItReads (x <@ m ;; k x) it0 b it2 (l1 ++ l2).
Proof.
  intros Hm Hk N br rest Hw E. rewrite <- app_assoc in E.
  destruct (Hm N br _ Hw E) as (br1 & E1 & Hw1 & R1).
  destruct (Hk N br1 _ Hw1 R1) as (br2 & E2 & H2).
  exists br2. unfold it_bind. rewrite E1. auto.
Qed.

(** Steps that read no bits. *)
Lemma ItReads_get {B} (k : xorIterator -> ItM B) it b it' l :
  (forall N br, ItReads (k (set_br it N br)) it b it' l) -> ItReads (x <@ it_get ;; k x) it b it' l.
Proof. intros H N br rest Hw E. apply (H N br N br rest Hw E). Qed.

Lemma ItReads_set {A} (m : ItM unit) (k : unit -> ItM A) it it1 a it2 l :
  (forall N br, m (set_br it N br) = (inr tt, set_br it1 N br)) ->
  ItReads (k tt) it1 a it2 l -> ItReads (x <@ m ;; k x) it a it2 l.
Proof. intros Hm Hk N br rest Hw E. unfold it_bind. rewrite Hm. apply Hk; assumption. Qed.

Lemma ItReads_last (m : ItM unit) it it1 :
  (forall N br, m (set_br it N br) = (inr tt, set_br it1 N br)) -> ItReads m it tt it1 [].
Proof. intros Hm N br rest Hw E. exists br. rewrite Hm. auto. Qed.

Lemma ItReads_read {A} (m : Rd A) it a l : Reads m a l -> ItReads (it_read m) it a it l.
Proof.
  intros H N br rest Hw E. destruct (H br rest Hw E) as (br' & E' & H').
  exists br'. unfold it_read. cbn. rewrite E'. auto.
Qed.

(** ** Varints through the reader *)

Lemma ReadUvarint_loop_reads f x i acc :
  (i + f = 10)%nat -> (i < 10)%nat -> 0 <= x < 2 ^ (64 - 7 * Z.of_nat i) ->
  0 <= acc < 2 ^ (7 * Z.of_nat i) ->
  Reads (ReadUvarint_loop f i acc (7 * Z.of_nat i)) (acc + x * 2 ^ (7 * Z.of_nat i))
    (bits_of (put_uvarint_fuel f x)).
Proof.
  revert x i acc. induction f as [|f IH]; intros x i acc Hif Hi Hx Hacc; [lia|].
  pose proof (uvarint_bounds x i Hi Hx) as Hb. cbn [put_uvarint_fuel].
  destruct (Z.ltb_spec x 128) as [Hs|Hl]; intros r rest Hw E; cbn [ReadUvarint_loop].
  - destruct (ReadByte_reads x ltac:(unfold is_u8; lia) r rest Hw E) as (r' & -> & H').
    destruct (Z.ltb_spec x 128); [|lia].
    replace ((i =? MaxVarintLen64 - 1)%nat && (1 <? x)) with false.
    2: { symmetry. apply andb_false_iff. destruct (Nat.eqb_spec i (MaxVarintLen64 - 1)); auto.
         right. subst i. change (2 ^ (64 - 7 * Z.of_nat (MaxVarintLen64 - 1))) with 2 in Hx. lia. }
    rewrite uvarint_acc by lia. exists r'. auto.
  - destruct (uvarint_next x i Hi ltac:(lia)) as [Hi' Hx'].
    pose proof (uvarint_acc_next acc x i Hi Hacc) as Hacc'.
    assert (Hbyte : is_u8 (Z.lor (Z.land x 127) 128)) by (rewrite uvarint_byte; zdlia).
    rewrite bits_of_cons, <- app_assoc in E.
    destruct (ReadByte_reads _ Hbyte r _ Hw E) as (r1 & -> & Hw1 & R1).
    destruct (Z.ltb_spec (Z.lor (Z.land x 127) 128) 128) as [Hc|_];
      [rewrite uvarint_byte in Hc; zdlia|].
    rewrite uvarint_byte_low, uvarint_acc; [| lia | lia | zdlia | pose proof (Z.mod_le x 128); nia].
    replace (7 * Z.of_nat i + 7) with (7 * Z.of_nat (S i)) by lia.
    rewrite Z.shiftr_div_pow2 in R1 by lia. change (2 ^ 7) with 128 in R1.
    destruct (IH (x / 128) (S i) _ ltac:(lia) ltac:(lia) Hx' Hacc' r1 rest Hw1 R1) as (r2 & -> & H2).
    exists r2. split; [|exact H2]. do 2 f_equal.
    replace (7 * Z.of_nat (S i)) with (7 + 7 * Z.of_nat i) by lia.
    rewrite Z.pow_add_r by lia. change (2 ^ 7) with 128.
    pose proof (Z.div_mod x 128 ltac:(lia)). nia.
Qed.

Lemma ReadUvarint_reads x : is_u64 x -> Reads ReadUvarint x (bits_of (put_uvarint x)).
Proof.
  intros Hx. pose proof (ReadUvarint_loop_reads 10 x 0 0) as H.
  change (7 * Z.of_nat 0) with 0 in H. rewrite Z.pow_0_r, Z.mul_1_r, Z.add_0_l in H.
  apply H; unfold is_u64 in Hx; lia.
Qed.

Lemma ReadVarint_reads x : is_i64 x -> Reads ReadVarint x (bits_of (put_varint x)).
Proof.
  intros Hx. rewrite <- (app_nil_r (bits_of _)). unfold ReadVarint.
  eapply Reads_bind; [apply ReadUvarint_reads, zigzag_u64|].
  eapply Reads_eq; [apply Reads_ret|apply unzigzag_zigzag; exact Hx|reflexivity].
Qed.

Lemma write_bytes_repr bs b l : Forall is_u8 bs -> repr b l -> repr (write_bytes bs b) (l ++ bits_of bs).
Proof.
  intros H. revert b l. induction H as [|x bs Hx _ IH]; intros b l Hr.
  - cbn. rewrite app_nil_r. exact Hr.
  - rewrite bits_of_cons, app_assoc. apply IH. apply writeByte_repr; assumption.
Qed.

(** ** Leading and trailing zeros *)

Lemma pos_trailing_spec p :
  0 <= pos_trailing p <= Z.log2 (Zpos p) /\ Zpos p = Zpos p / 2 ^ pos_trailing p * 2 ^ pos_trailing p.
Proof.
  induction p as [p IH|p IH|]; cbn [pos_trailing].
  - split; [pose proof (Z.log2_nonneg (Zpos (xI p))); lia|]. rewrite Z.pow_0_r, Z.div_1_r. lia.
  - destruct IH as [IH1 IH2]. change (Zpos (xO p)) with (2 * Zpos p).
    rewrite Z.log2_double by lia. split; [lia|].
    rewrite Z.pow_add_r by lia. change (2 ^ 1) with 2.
    rewrite Z.div_mul_cancel_l by lia. lia.
  - split; [cbn; lia|reflexivity].
Qed.

(** The window of significant bits of a non-zero XOR. *)
Lemma delta_window delta : is_u64 delta -> delta <> 0 ->
  let lz := leadingZeros64 delta in let tz := trailingZeros64 delta in
  0 <= lz /\ 0 <= tz /\ lz + tz <= 63 /\ delta < 2 ^ (64 - lz) /\ delta = delta / 2 ^ tz * 2 ^ tz.
Proof.
  intros Hd Hne. unfold is_u64 in Hd. destruct delta as [|p|p]; try lia.
  unfold leadingZeros64, trailingZeros64. cbn [Z.eqb].
  destruct (pos_trailing_spec p) as [[H1 H2] H3].
  assert (Z.log2 (Zpos p) < 64) by (apply Z.log2_lt_pow2; lia).
  pose proof (Z.log2_nonneg (Zpos p)). pose proof (Z.log2_spec (Zpos p) ltac:(lia)) as [_ Hlt].
  repeat split; try lia.
  replace (64 - (63 - Z.log2 (Z.pos p))) with (Z.succ (Z.log2 (Z.pos p))) by lia. exact Hlt.
Qed.

(** Cutting off trailing zeros and putting them back. *)
Lemma window_roundtrip delta L T : is_u64 delta -> 0 <= L -> 0 <= T -> L + T <= 63 ->
  delta < 2 ^ (64 - L) -> delta = delta / 2 ^ T * 2 ^ T ->
  Z.shiftr delta T mod 2 ^ (64 - L - T) = Z.shiftr delta T
  /\ u64 (Z.shiftl (Z.shiftr delta T) T) = delta.
Proof.
  intros Hd HL HT HLT Hlt Hdiv. unfold is_u64 in Hd. rewrite Z.shiftr_div_pow2 by lia. split.
  - apply Z.mod_small. split; [apply Z.div_pos; lia|]. apply Z.div_lt_upper_bound; [lia|].
    rewrite <- Z.pow_add_r by lia. replace (T + (64 - L - T)) with (64 - L) by lia. exact Hlt.
  - rewrite Z.shiftl_mul_pow2, <- Hdiv by lia. apply u64_id. exact Hd.
Qed.

Lemma div_exact_le x T t : 0 <= T <= t -> x = x / 2 ^ t * 2 ^ t -> x = x / 2 ^ T * 2 ^ T.
Proof.
  intros HT Hx. assert (H : (2 ^ T | x)).
  { rewrite Hx. replace (2 ^ t) with (2 ^ (t - T) * 2 ^ T) at 2
      by (rewrite <- Z.pow_add_r by lia; f_equal; lia).
    apply Z.divide_mul_r, Z.divide_factor_r. }
  destruct H as [q ->]. rewrite Z.div_mul by lia. reflexivity.
Qed.

(** ** One value *)

(** The window the appender may reuse is the iterator's, unless it is unset. *)
Definition lt_synced (leading trailing : Z) (it : xorIterator) : Prop :=
  (leading = 255 \/ (leading = it_leading it /\ trailing = it_trailing it))
  /\ 0 <= it_leading it <= 31 /\ 0 <= it_trailing it /\ it_leading it + it_trailing it <= 63.

Definition with_val (it : xorIterator) (v : Z) : xorIterator :=
  mkXorIterator (it_br it) (it_numTotal it) (it_numRead it) (it_t it) v
    (it_leading it) (it_trailing it) (it_tDelta it) (it_err it).
Definition with_lt (it : xorIterator) (l t : Z) : xorIterator :=
  mkXorIterator (it_br it) (it_numTotal it) (it_numRead it) (it_t it) (it_val it)
    l t (it_tDelta it) (it_err it).

Definition with_t (it : xorIterator) (t : Z) : xorIterator :=
  mkXorIterator (it_br it) (it_numTotal it) (it_numRead it) t (it_val it)
    (it_leading it) (it_trailing it) (it_tDelta it) (it_err it).
Definition with_tDelta (it : xorIterator) (d : Z) : xorIterator :=
  mkXorIterator (it_br it) (it_numTotal it) (it_numRead it) (it_t it) (it_val it)
    (it_leading it) (it_trailing it) d (it_err it).

Lemma set_t_step {A} t (k : unit -> ItM A) it a it' l :
  ItReads (k tt) (with_t it t) a it' l -> ItReads (x <@ it_set_t t ;; k x) it a it' l.
Proof. apply ItReads_set. reflexivity. Qed.

Lemma set_val_step {A} v (k : unit -> ItM A) it a it' l :
  ItReads (k tt) (with_val it v) a it' l -> ItReads (x <@ it_set_val v ;; k x) it a it' l.
Proof. apply ItReads_set. reflexivity. Qed.

Lemma set_tDelta_step {A} d (k : unit -> ItM A) it a it' l :
  ItReads (k tt) (with_tDelta it d) a it' l -> ItReads (x <@ it_set_tDelta d ;; k x) it a it' l.
Proof. apply ItReads_set. reflexivity. Qed.

Lemma set_val_reads it v : ItReads (it_set_val v) it tt (with_val it v) [].
Proof. apply ItReads_last. reflexivity. Qed.

(** The last step of [xorRead]: the significant bits of a window [(L, T)]. *)
Lemma read_window it L T delta newValue :
  is_u64 delta -> 0 <= L -> 0 <= T -> L + T <= 63 -> delta < 2 ^ (64 - L) ->
  delta = delta / 2 ^ T * 2 ^ T -> Z.lxor (it_val it) delta = newValue ->
  ItReads (bits <@ it_read (readBits_retry (64 - L - T)) ;; it <@ it_get ;;
           it_set_val (Z.lxor (it_val it) (u64 (Z.shiftl bits T)))) it tt (with_val it newValue)
    (msb_bits (Z.to_nat (64 - L - T)) (Z.shiftr delta T)).
Proof.
  intros Hd HL HT HLT Hlt Hdiv Hv.
  destruct (window_roundtrip delta L T Hd HL HT HLT Hlt Hdiv) as [Hm Hs].
  rewrite <- (app_nil_r (msb_bits _ _)).
  eapply ItReads_bind.
  - apply ItReads_read. pose proof (readBits_word (Z.to_nat (64 - L - T)) (Z.shiftr delta T) ltac:(lia)) as H.
    rewrite Z2Nat.id in H by lia. rewrite Hm in H. exact H.
  - apply ItReads_get. intros N br. rewrite Hs. cbn [set_br it_val]. rewrite Hv. apply set_val_reads.
Qed.

(** Reading the two control bits. *)
Lemma read_bit_step {B} b (k : bool -> ItM B) it x it' l :
  ItReads (k b) it x it' l -> ItReads (y <@ it_read readBit_retry ;; k y) it x it' (b :: l).
Proof.
  intros H. change (b :: l) with ([b] ++ l).
  eapply ItReads_bind; [apply ItReads_read, readBit_retry_reads|exact H].
Qed.

Lemma xorRead_same it newValue : it_val it = newValue -> ItReads xorRead it tt (with_val it newValue) [false].
Proof.
  intros <-. unfold xorRead. apply read_bit_step. cbn [negb]. destruct it. apply ItReads_ret.
Qed.

Lemma xorRead_reuse it delta newValue :
  is_u64 delta -> 0 <= it_leading it <= 31 -> 0 <= it_trailing it ->
  it_leading it + it_trailing it <= 63 -> delta < 2 ^ (64 - it_leading it) ->
  delta = delta / 2 ^ it_trailing it * 2 ^ it_trailing it -> Z.lxor (it_val it) delta = newValue ->
  ItReads xorRead it tt (with_val it newValue)
    (true :: false :: msb_bits (Z.to_nat (64 - it_leading it - it_trailing it)) (Z.shiftr delta (it_trailing it))).
Proof.
  intros Hd HL HT HLT Hlt Hdiv Hv. unfold xorRead. do 2 apply read_bit_step. cbn [negb].
  rewrite <- (app_nil_l (msb_bits _ _)).
  eapply ItReads_bind.
  - apply ItReads_get. intros N br. cbn [set_br it_leading it_trailing].
    rewrite u8_id by (unfold is_u8; lia). apply ItReads_ret.
  - cbn [fst snd]. apply read_window; auto; lia.
Qed.

Lemma xorRead_new it L T delta newValue :
  is_u64 delta -> 0 <= L <= 31 -> 0 <= T -> L + T <= 63 -> delta < 2 ^ (64 - L) ->
  delta = delta / 2 ^ T * 2 ^ T -> Z.lxor (it_val it) delta = newValue ->
  ItReads xorRead it tt (with_val (with_lt it L T) newValue)
    (true :: true :: (msb_bits 5 L ++ msb_bits 6 (64 - L - T))
       ++ msb_bits (Z.to_nat (64 - L - T)) (Z.shiftr delta T)).
Proof.
  intros Hd HL HT HLT Hlt Hdiv Hv. unfold xorRead. do 2 apply read_bit_step. cbn [negb].
  eapply ItReads_bind with (it1 := with_lt it L T) (a := (T, 64 - L - T)).
  - eapply ItReads_bind; [apply ItReads_read, (readBits_word 5 L); lia|].
    rewrite <- (app_nil_r (msb_bits 6 _)).
    eapply ItReads_bind; [apply ItReads_read, (readBits_word 6 (64 - L - T)); lia|].
    change (2 ^ Z.of_nat 5) with 32. change (2 ^ Z.of_nat 6) with 64.
    rewrite (Z.mod_small L) by lia. rewrite (u8_id L) by (unfold is_u8; lia). cbv beta zeta.
    assert (Hm : (if u8 ((64 - L - T) mod 64) =? 0 then 64 else u8 ((64 - L - T) mod 64)) = 64 - L - T).
    { destruct (Z.eq_dec (L + T) 0) as [E|E].
      - replace (64 - L - T) with 64 by lia. reflexivity.
      - rewrite Z.mod_small, u8_id by (unfold is_u8; lia).
        destruct (Z.eqb_spec (64 - L - T) 0); lia. }
    rewrite Hm. replace (64 - L - (64 - L - T)) with T by lia. rewrite (u8_id T) by (unfold is_u8; lia).
    eapply (ItReads_set _ _ _ (with_lt it L T)); [reflexivity|]. apply ItReads_ret.
  - cbn [fst snd]. apply read_window; auto; lia.
Qed.

Lemma lxor_u64 x y : is_u64 x -> is_u64 y -> is_u64 (Z.lxor x y).
Proof.
  intros Hx Hy. unfold is_u64 in *.
  assert (H0 : 0 <= Z.lxor x y) by (apply Z.lxor_nonneg; lia). split; [exact H0|].
  destruct (Z.eq_dec (Z.lxor x y) 0) as [E|E]; [lia|]. apply Z.log2_lt_pow2; [lia|].
  assert (Hb : forall z, 0 <= z < 2 ^ 64 -> Z.log2 z < 64).
  { intros z Hz. destruct (Z.eq_dec z 0); [subst; cbn; lia|]. apply Z.log2_lt_pow2; lia. }
  pose proof (Z.log2_lxor x y ltac:(lia) ltac:(lia)). pose proof (Hb x Hx). pose proof (Hb y Hy). lia.
Qed.

Lemma lxor_cancel x y : Z.lxor y (Z.lxor x y) = x.
Proof. rewrite Z.lxor_comm, Z.lxor_assoc, Z.lxor_nilpotent. apply Z.lxor_0_r. Qed.

(** The two kinds of bits [xorWrite] appends for a non-zero XOR. *)
Lemma write_reuse_repr delta L T b l :
  0 <= L -> 0 <= T -> L + T <= 63 -> repr b l ->
  repr (writeBits (Z.shiftr delta T) (Z.to_nat (64 - L - T)) (writeBit false (writeBit true b)))
    (l ++ true :: false :: msb_bits (Z.to_nat (64 - L - T)) (Z.shiftr delta T)).
Proof.
  intros HL HT HLT Hr. change (true :: false :: ?x) with ([true] ++ [false] ++ x).
  rewrite !app_assoc. apply writeBits_repr; [lia|].
  apply writeBit_repr, writeBit_repr. exact Hr.
Qed.

Lemma write_new_repr delta L T b l :
  0 <= L -> 0 <= T -> L + T <= 63 -> repr b l ->
  repr (writeBits (Z.shiftr delta T) (Z.to_nat (64 - L - T))
          (writeBits (64 - L - T) 6 (writeBits L 5 (writeBit true (writeBit true b)))))
    (l ++ true :: true :: (msb_bits 5 L ++ msb_bits 6 (64 - L - T))
       ++ msb_bits (Z.to_nat (64 - L - T)) (Z.shiftr delta T)).
Proof.
  intros HL HT HLT Hr. change (true :: true :: ?x) with ([true] ++ [true] ++ x).
  rewrite !app_assoc. apply writeBits_repr; [lia|]. do 2 (apply writeBits_repr; [lia|]).
  apply writeBit_repr, writeBit_repr. exact Hr.
Qed.

(** The window the appender picks for a non-zero XOR. *)
Lemma new_window delta : is_u64 delta -> delta <> 0 ->
  let nl := if 32 <=? leadingZeros64 delta then 31 else leadingZeros64 delta in
  let tz := trailingZeros64 delta in
  0 <= nl <= 31 /\ 0 <= tz /\ nl + tz <= 63 /\ delta = delta / 2 ^ tz * 2 ^ tz
  /\ forall L, L <= nl -> delta < 2 ^ (64 - L).
Proof.
  intros Hd Hne nl tz. destruct (delta_window delta Hd Hne) as (Hlz & Htz & Hsum & Hlt & Hdiv).
  fold tz in Htz, Hsum, Hdiv.
  assert (Hnl : 0 <= nl <= 31 /\ nl <= leadingZeros64 delta).
  { subst nl. destruct (Z.leb_spec 32 (leadingZeros64 delta)); lia. }
  repeat split; try lia; try exact Hdiv.
  intros L HL. eapply Z.lt_le_trans; [exact Hlt|]. apply Z.pow_le_mono_r; lia.
Qed.

(** What [xorWrite] appends, [xorRead] reads, and the windows stay in step. *)
Lemma xorWrite_xorRead it newValue leading trailing :
  is_u64 newValue -> is_u64 (it_val it) -> lt_synced leading trailing it ->
  exists bs leading' trailing' it',
    (forall b l, repr b l ->
       exists b', xorWrite b newValue (it_val it) leading trailing = (b', leading', trailing')
                  /\ repr b' (l ++ bs))
    /\ ItReads xorRead it tt (with_val it' newValue) bs
    /\ (exists L T, it' = with_lt it L T)
    /\ lt_synced leading' trailing' it'.
Proof.
  intros Hn Hc Hs. unfold xorWrite. pose proof (lxor_u64 _ _ Hn Hc) as Hd.
  pose proof (lxor_cancel newValue (it_val it)) as Hx. set (delta := Z.lxor newValue (it_val it)) in *.
  assert (Hid : it = with_lt it (it_leading it) (it_trailing it)) by (destruct it; reflexivity).
  destruct (Z.eqb_spec delta 0) as [E0|Hne].
  { exists [false], leading, trailing, it.
    rewrite E0, Z.lxor_0_r in Hx. split; [|split; [|split]]; [| |eauto|exact Hs].
    - intros b l Hr. eexists. split; [reflexivity|]. apply writeBit_repr; exact Hr.
    - apply xorRead_same. exact Hx. }
  destruct (new_window delta Hd Hne) as (Hnl & Htz & Hsum & Hdiv & Hlt).
  set (nl := if 32 <=? leadingZeros64 delta then 31 else leadingZeros64 delta) in *.
  set (tz := trailingZeros64 delta) in *.
  destruct (negb (leading =? 255) && (leading <=? nl) && (trailing <=? tz)) eqn:Ereuse.
  - apply andb_true_iff in Ereuse. destruct Ereuse as [Ereuse Ht].
    apply andb_true_iff in Ereuse. destruct Ereuse as [H255 Hl].
    apply negb_true_iff, Z.eqb_neq in H255. apply Z.leb_le in Hl, Ht.
    pose proof Hs as ([|[-> ->]] & HL & HT & HLT); [lia|].
    do 3 eexists. exists it. split; [|split; [|split]]; [| |eauto|exact Hs].
    + intros b l Hr. eexists. split; [reflexivity|]. apply write_reuse_repr; auto; lia.
    + apply xorRead_reuse; auto. apply (div_exact_le _ _ tz); auto.
  - rewrite (u8_id (64 - nl - tz)) by (unfold is_u8; lia).
    do 3 eexists. exists (with_lt it nl tz). split; [|split; [|split]]; [| |eauto|].
    + intros b l Hr. eexists. split; [reflexivity|]. apply write_new_repr; auto; lia.
    + apply xorRead_new; auto. apply Hlt. lia.
    + split; [right; split; reflexivity|]. cbn. lia.
Qed.

(** ** Timestamps *)

(** The two bytes of the 14-bit bucket are its prefix and its payload. *)
Lemma dod14_bits dod :
  msb_bits 8 (Z.lor (Z.shiftl 2 6) (Z.land (u8 (Z.shiftr dod 8)) (2 ^ 6 - 1))) ++ msb_bits 8 (u8 dod)
  = [true; false] ++ msb_bits 14 (u64 dod).
Proof.
  assert (Hhi : Z.land (u8 (Z.shiftr dod 8)) (2 ^ 6 - 1) = Z.shiftr dod 8 mod 2 ^ 6).
  { rewrite land_ones_mod by lia. unfold u8. change (2 ^ 8) with (2 ^ 6 * 4).
    rewrite Z.rem_mul_r by lia. rewrite Z.mul_comm, Z.mod_add, Z.mod_mod by lia. reflexivity. }
  rewrite Hhi. change (Z.shiftl 2 6) with (2 * 2 ^ 6).
  pose proof (Z.mod_pos_bound (Z.shiftr dod 8) (2 ^ 6) ltac:(lia)).
  rewrite Z.lor_comm, lor_shift_add by lia.
  change 8%nat with (2 + 6)%nat at 1. rewrite msb_bits_app.
  change (Z.of_nat 6) with 6. rewrite Z.shiftr_div_pow2, Z.div_add, Z.div_small by lia.
  rewrite <- (msb_bits_mod 6 6 (_ + _)) by lia. change (2 ^ Z.of_nat 6) with (2 ^ 6).
  rewrite Z.mod_add, Z.mod_mod by lia. change (2 ^ 6) with (2 ^ Z.of_nat 6).
  rewrite msb_bits_mod by lia. unfold u64, u8.
  change (2 ^ 64) with (2 ^ Z.of_nat 64). rewrite msb_bits_mod by lia.
  change (2 ^ 8) with (2 ^ Z.of_nat 8). rewrite msb_bits_mod by lia.
  change 14%nat with (6 + 8)%nat. rewrite msb_bits_app. rewrite <- app_assoc. reflexivity.
Qed.

Lemma u8_or_dod dod : is_u8 (Z.lor (Z.shiftl 2 6) (Z.land (u8 (Z.shiftr dod 8)) (2 ^ 6 - 1))).
Proof.
  rewrite land_ones_mod by lia. pose proof (Z.mod_pos_bound (u8 (Z.shiftr dod 8)) (2 ^ 6) ltac:(lia)).
  change (Z.shiftl 2 6) with (2 * 2 ^ 6). rewrite Z.lor_comm, lor_shift_add by lia. unfold is_u8. lia.
Qed.

Lemma dod_codec dod : is_i64 dod -> bit_codec (write_dod dod) read_dod dod.
Proof.
  intros Hd. unfold write_dod, read_dod.
  destruct (Z.eqb_spec dod 0) as [->|_].
  { eapply (bit_codec_seq (writeBit false) (fun s => s));
      [apply bit_codec_prefix_none; lia|apply bit_codec_ret]. }
  destruct (bitRange dod 14) eqn:E14.
  { exists ([true; false] ++ msb_bits 14 (u64 dod)). split.
    - intros b l Hr. rewrite <- dod14_bits, app_assoc.
      apply writeByte_repr; [apply u8_range|]. apply writeByte_repr; [apply u8_or_dod|exact Hr].
    - eapply (Reads_bind _ _ 2); [apply (read_prefix_zero 1 2)|].
      cbn -[readBits_retry sign_extend msb_bits].
      rewrite <- (app_nil_r (msb_bits 14 _)). eapply Reads_bind; [apply (readBits_word 14); lia|].
      eapply Reads_eq; [apply Reads_ret| |reflexivity].
      apply (sign_extend_word 14); [lia|exact E14]. }
  destruct (bitRange dod 17) eqn:E17; [bucket 2%nat; apply (bit_codec_signed 17); [lia|exact E17]|].
  destruct (bitRange dod 20) eqn:E20; [bucket 3%nat; apply (bit_codec_signed 20); [lia|exact E20]|].
  eapply bit_codec_seq with (put1 := writeBits 15 4);
    [apply bit_codec_prefix_ones; [lia|reflexivity|reflexivity]|].
  apply bit_codec_signed64. exact Hd.
Qed.

(** ** The header *)

Lemma bits_of_inj a b : Forall is_u8 a -> Forall is_u8 b -> length a = length b ->
  bits_of a = bits_of b -> a = b.
Proof.
  intros Ha. revert b. induction Ha as [|x a Hx _ IH]; intros [|y b] Hb Hl E; try discriminate; [reflexivity|].
  inversion_clear Hb as [|? ? Hy Hb']. rewrite !bits_of_cons in E.
  apply app_inj_1 in E; [|rewrite !length_msb_bits; reflexivity]. destruct E as [E1 E2].
  f_equal; [apply (msb_bits_inj 8); assumption|]. apply IH; auto.
Qed.

Definition header (n : Z) : list bool := bits_of (be_bytes 2 n).

Lemma header_spec b n l : is_u16 n -> repr b (header n ++ l) ->
  bs_bytes b = be_bytes 2 n ++ drop 2 (bs_bytes b)
  /\ repr (mkBstream (drop 2 (bs_bytes b)) (bs_count b)) l.
Proof.
  intros Hn (H8 & Hc & E). unfold bs_bytes. set (s := bs_stream b) in *.
  assert (Hlen : (2 <= length s)%nat).
  { apply (f_equal length) in E. unfold header in E.
    rewrite !length_app, !length_bits_of, length_be_bytes in E. lia. }
  rewrite <- (take_drop 2 s) in E at 1. rewrite bits_of_app, <- app_assoc in E.
  apply app_inj_1 in E; [|unfold header; rewrite !length_bits_of, length_be_bytes, length_take; lia].
  destruct E as [E1 E2].
  assert (Ht : take 2 s = be_bytes 2 n).
  { apply bits_of_inj; auto using Forall_take, be_bytes_u8.
    rewrite length_be_bytes, length_take. lia. }
  split; [rewrite <- Ht; symmetry; apply take_drop|].
  split; [cbn; auto using Forall_drop|]. split; [exact Hc|exact E2].
Qed.

Lemma header_num b n l : is_u16 n -> repr b (header n ++ l) -> be_uint16 (bs_bytes b) = n.
Proof.
  intros Hn Hr. destruct (header_spec b n l Hn Hr) as [Hs _]. unfold be_uint16.
  rewrite Hs, take_app_length' by (rewrite length_be_bytes; reflexivity).
  rewrite be_val_bytes. apply Z.mod_small. exact Hn.
Qed.

Lemma header_put b n n' l : is_u16 n -> repr b (header n ++ l) ->
  repr (mkBstream (put_uint16 (bs_bytes b) n') (bs_count b)) (header n' ++ l).
Proof.
  intros Hn Hr. destruct (header_spec b n l Hn Hr) as (_ & H8 & Hc & E).
  unfold put_uint16, header. split; [|split]; cbn [bs_stream bs_count] in *.
  - apply Forall_app. split; [apply be_bytes_u8|exact H8].
  - exact Hc.
  - rewrite bits_of_app, E, app_assoc. reflexivity.
Qed.

(** ** One sample *)

(** The appender's state is the iterator's after it has read the same samples. *)
Record synced (a : xorAppender) (it : xorIterator) : Prop := {
  sy_t : xa_t a = it_t it;
  sy_v : xa_v a = it_val it;
  sy_tDelta : xa_tDelta a = it_tDelta it;
  sy_lt : lt_synced (xa_leading a) (xa_trailing a) it;
  sy_ti : is_i64 (it_t it);
  sy_vu : is_u64 (it_val it);
  sy_du : is_u64 (it_tDelta it)
}.

(** What reading a sample leaves alone. *)
Definition same_frame (it it' : xorIterator) : Prop := it_err it' = it_err it.

Lemma value_step a it v :
  is_u64 v -> is_u64 (it_val it) -> lt_synced (xa_leading a) (xa_trailing a) it ->
  xa_v a = it_val it ->
  exists bs it2,
    (forall l, repr (xa_b a) l -> repr (xa_b (writeVDelta v a)) (l ++ bs))
    /\ ItReads readValue it tt it2 bs
    /\ lt_synced (xa_leading (writeVDelta v a)) (xa_trailing (writeVDelta v a)) it2
    /\ it_val it2 = v /\ it_numRead it2 = u16 (it_numRead it + 1) /\ it_t it2 = it_t it
    /\ it_tDelta it2 = it_tDelta it /\ same_frame it it2.
Proof.
  intros Hv Hc Hs Hav.
  destruct (xorWrite_xorRead it v _ _ Hv Hc Hs) as (bs & L & T & it' & Hw & Hr & (L' & T' & ->) & Hs').
  exists bs, (mkXorIterator (it_br it) (it_numTotal it) (u16 (it_numRead it + 1)) (it_t it) v
                L' T' (it_tDelta it) (it_err it)).
  assert (Hwd : forall l, repr (xa_b a) l ->
            repr (xa_b (writeVDelta v a)) (l ++ bs)
            /\ xa_leading (writeVDelta v a) = L /\ xa_trailing (writeVDelta v a) = T).
  { intros l Hl. unfold writeVDelta. rewrite Hav. destruct (Hw _ _ Hl) as (b' & -> & Hb'). auto. }
  assert (Hlt : xa_leading (writeVDelta v a) = L /\ xa_trailing (writeVDelta v a) = T).
  { unfold writeVDelta. rewrite Hav. unfold xorWrite in *.
    destruct (Hw (bs_Reset []) [] (repr_reset [] (Forall_nil_2 _))) as (b' & E & _).
    destruct (Z.lxor v (it_val it) =? 0); [|destruct (negb (xa_leading a =? 255) && _ && _)];
      injection E as _ <- <-; split; reflexivity. }
  split; [intros l Hl; apply Hwd; exact Hl|]. destruct Hlt as [-> ->].
  split; [|repeat split; apply Hs'].
  unfold readValue. rewrite <- (app_nil_r bs). eapply ItReads_bind; [exact Hr|].
  apply ItReads_last. reflexivity.
Qed.

(** The stream of the appender holds the header for [n] samples and the bits [l]. *)
Definition holds (a : xorAppender) (n : Z) (l : list bool) : Prop :=
  repr (xa_b a) (header n ++ l) /\ is_u16 n.

(** What appending the sample [(t, v)] to [a] and reading it with [it] achieves. *)
Definition sample_step (a : xorAppender) (it : xorIterator) (n t v : Z) (l : list bool) : Prop :=
  exists bs it',
    ItReads next_body it tt it' bs /\ holds (Append t v a) (n + 1) (l ++ bs)
    /\ synced (Append t v a) it' /\ it_numRead it' = n + 1 /\ At it' = (t, v)
    /\ same_frame it it'.

Lemma first_sample a it t v l :
  synced a it -> holds a 0 l -> it_numRead it = 0 -> is_i64 t -> is_u64 v ->
  lt_synced (xa_leading a) (xa_trailing a) it -> it_tDelta it = 0 ->
  sample_step a it 0 t v l.
Proof.
  intros Hs [Hr Hn] H0 Ht Hv Hlt Htd. unfold sample_step.
  exists (bits_of (put_varint t) ++ msb_bits 64 v),
    (mkXorIterator (it_br it) (it_numTotal it) 1 t v (it_leading it) (it_trailing it) (it_tDelta it) (it_err it)).
  assert (E : Append t v a = mkXorAppender
    (let b := writeBits v 64 (write_bytes (put_varint t) (xa_b a)) in
     mkBstream (put_uint16 (bs_bytes b) 1) (bs_count b)) t v 0 (xa_leading a) (xa_trailing a)).
  { unfold Append. rewrite (header_num _ 0 l Hn Hr). reflexivity. }
  rewrite E. split; [|split; [|split; [|repeat split]]].
  - unfold next_body. apply ItReads_get. intros N br. cbn [set_br it_numRead]. rewrite H0. cbn [Z.eqb].
    eapply ItReads_bind; [apply ItReads_read, ReadVarint_reads; exact Ht|].
    rewrite <- (app_nil_r (msb_bits 64 v)).
    eapply ItReads_bind; [apply ItReads_read, (readBits_word_slow 64); lia|].
    change (2 ^ Z.of_nat 64) with (2 ^ 64). fold (u64 v). rewrite (u64_id v) by exact Hv.
    apply set_t_step, set_val_step. apply ItReads_last. intros N' br'. unfold it_inc_read, set_br. cbn. rewrite H0. reflexivity.
  - split; [|unfold is_u16; lia]. cbn [xa_b]. apply (header_put _ 0); [exact Hn|].
    rewrite app_assoc, app_assoc. apply writeBits_repr; [lia|].
    apply write_bytes_repr; [apply put_uvarint_u8, zigzag_u64|exact Hr].
  - destruct Hs. split; cbn; auto.
Qed.

(** The samples after the first: the timestamp part [wr]/[rd], then the value. *)
Lemma later_sample a it t v l n (f : bstream -> bstream) (m : Rd Z) x tDelta
    (k : Z -> Z) :
  synced a it -> holds a n l -> it_numRead it = n -> 0 <= n < 65535 -> is_u64 v ->
  bit_codec f m x -> is_u64 tDelta -> i64 (it_t it + i64 tDelta) = t -> k x = tDelta ->
  let a1 := writeVDelta v (xa_write a f) in
  exists bs it',
    ItReads (x <@ it_read m ;; _ <@ it_set_tDelta (k x) ;;
             _ <@ it_set_t (i64 (it_t it + i64 (k x))) ;; readValue) it tt it' bs
    /\ holds (mkXorAppender (mkBstream (put_uint16 (bs_bytes (xa_b a1)) (n + 1)) (bs_count (xa_b a1)))
                t v tDelta (xa_leading a1) (xa_trailing a1)) (n + 1) (l ++ bs)
    /\ synced (mkXorAppender (mkBstream (put_uint16 (bs_bytes (xa_b a1)) (n + 1)) (bs_count (xa_b a1)))
                t v tDelta (xa_leading a1) (xa_trailing a1)) it'
    /\ it_numRead it' = n + 1 /\ At it' = (t, v) /\ same_frame it it'.
Proof.
  intros Hs [Hr Hn] Hnr Hlt Hv (l1 & Hw & Hrd) Hd Ht Hk a1.
  set (it1 := mkXorIterator (it_br it) (it_numTotal it) (it_numRead it) t (it_val it)
                (it_leading it) (it_trailing it) tDelta (it_err it)).
  destruct (value_step (xa_write a f) it1 v Hv (sy_vu _ _ Hs) (sy_lt _ _ Hs) (sy_v _ _ Hs))
    as (bs & it2 & Hw2 & Hr2 & Hs2 & Ev & En & Et & Ed & Hf).
  fold a1 in Hw2, Hs2. cbn [it1 it_numRead it_t it_tDelta] in En, Et, Ed.
  exists (l1 ++ bs), it2. split; [|split; [|split; [|split; [|split]]]].
  - eapply ItReads_bind; [apply ItReads_read; exact Hrd|]. rewrite Hk, Ht.
    apply set_tDelta_step, set_t_step. exact Hr2.
  - split; [|unfold is_u16 in *; lia]. cbn [xa_b]. apply (header_put _ n); [exact Hn|].
    rewrite (app_assoc l), (app_assoc (header n)). apply Hw2.
    cbn [xa_write xa_b]. rewrite app_assoc. apply Hw. exact Hr.
  - split; cbn; try congruence; try assumption.
    + rewrite Et, <- Ht. apply i64_range.
  - rewrite En, Hnr. apply u16_id. unfold is_u16. lia.
  - unfold At. congruence.
  - exact Hf.
Qed.

Lemma delta_restores a t : is_i64 t -> i64 (a + i64 (u64 (i64 (t - a)))) = t.
Proof.
  intros Ht. rewrite i64_u64, i64_add_wrap. rewrite <- (i64_id t Ht) at 2.
  rewrite i64_add_wrap. f_equal. lia.
Qed.

Lemma dod_restores new old : is_u64 new ->
  u64 (i64 (i64 old + i64 (u64 (new - old)))) = new.
Proof.
  intros Hn. rewrite u64_i64, i64_u64, u64_add_wrap. rewrite <- (u64_id new Hn) at 2. f_equal. lia.
Qed.

Lemma append_step a it n t v l :
  synced a it -> holds a n l -> it_numRead it = n -> 0 <= n < 65535 -> is_i64 t -> is_u64 v ->
  (n = 0 -> it_tDelta it = 0) -> sample_step a it n t v l.
Proof.
  intros Hs Hh Hnr Hn Ht Hv H0. destruct (Z.eq_dec n 0) as [->|Hn0].
  { apply first_sample; auto. apply Hs. }
  assert (Hd : i64 (it_t it + i64 (u64 (i64 (t - xa_t a)))) = t).
  { rewrite (sy_t _ _ Hs). apply delta_restores. exact Ht. }
  unfold sample_step, Append. rewrite (header_num _ n l (proj2 Hh) (proj1 Hh)).
  destruct (Z.eqb_spec n 0); [lia|]. destruct (Z.eqb_spec n 1) as [->|Hn1].
  - assert (Hc : bit_codec (write_bytes (put_uvarint (u64 (i64 (t - xa_t a))))) ReadUvarint
                   (u64 (i64 (t - xa_t a)))).
    { exists (bits_of (put_uvarint (u64 (i64 (t - xa_t a))))). split.
      - intros b l' Hr. apply write_bytes_repr; [apply put_uvarint_u8, u64_range|exact Hr].
      - apply ReadUvarint_reads, u64_range. }
    destruct (later_sample a it t v l 1 _ _ _ (u64 (i64 (t - xa_t a))) (fun x => x)
                Hs Hh Hnr Hn Hv Hc (u64_range _) Hd eq_refl) as (bs & it' & Hrd & Hrest).
    exists bs, it'. split; [|exact Hrest].
    unfold next_body. apply ItReads_get. intros N br. cbn [set_br it_numRead it_t]. rewrite Hnr.
    exact Hrd.
  - set (tDelta := u64 (i64 (t - xa_t a))) in *.
    pose proof (dod_codec (i64 (u64 (tDelta - xa_tDelta a))) (i64_range _)) as Hc.
    assert (Hk : u64 (i64 (i64 (it_tDelta it) + i64 (u64 (tDelta - xa_tDelta a)))) = tDelta).
    { rewrite (sy_tDelta _ _ Hs). apply dod_restores, u64_range. }
    destruct (later_sample a it t v l n _ _ _ tDelta
                (fun dod => u64 (i64 (i64 (it_tDelta it) + dod)))
                Hs Hh Hnr Hn Hv Hc (u64_range _) Hd Hk) as (bs & it' & Hrd & Hrest).
    exists bs, it'. split; [|exact Hrest].
    unfold next_body. apply ItReads_get. intros N br. cbn [set_br it_numRead it_t it_tDelta]. rewrite Hnr.
    destruct (Z.eqb_spec n 0); [lia|]. destruct (Z.eqb_spec n 1); [lia|]. exact Hrd.
Qed.

(** ** Many samples *)

Definition wf_sample (s : Z * Z) : Prop := is_i64 (fst s) /\ is_u64 (snd s).

(** Iterating from [it] over the bits [l] yields [ss] and goes on from [it']. *)
Definition Yields (it : xorIterator) (ss : list (Z * Z)) (it' : xorIterator) (l : list bool) : Prop :=
  forall N br rest, it_numRead it + Z.of_nat (length ss) <= N ->
  wf_reader br -> br_rem br = l ++ rest ->
  exists br', wf_reader br' /\ br_rem br' = rest
    /\ (forall k, collect (length ss + k) (set_br it N br)
                  = (ss ++ fst (collect k (set_br it' N br')), snd (collect k (set_br it' N br'))))
    /\ (forall k, drain (length ss + k) (set_br it N br) = drain k (set_br it' N br')).

Lemma Next_ok it it' N br br' :
  it_err it = None -> it_numRead it <> N ->
  next_body (set_br it N br) = (inr tt, set_br it' N br') ->
  Next (set_br it N br) = (true, set_br it' N br').
Proof.
  intros He Hn E. unfold Next. cbn [set_br it_err it_numRead it_numTotal]. rewrite He.
  destruct (Z.eqb_spec (it_numRead it) N); [contradiction|]. fold (set_br it N br). rewrite E. reflexivity.
Qed.

Lemma append_all_yields ss a it n l :
  Forall wf_sample ss -> synced a it -> holds a n l -> it_numRead it = n -> it_err it = None ->
  0 <= n -> n + Z.of_nat (length ss) <= 65535 -> (n = 0 -> it_tDelta it = 0) ->
  exists bs it',
    Yields it ss it' bs /\ holds (append_all ss a) (n + Z.of_nat (length ss)) (l ++ bs)
    /\ synced (append_all ss a) it' /\ it_numRead it' = n + Z.of_nat (length ss)
    /\ it_err it' = None /\ (n + Z.of_nat (length ss) = 0 -> it_tDelta it' = 0).
Proof.
  intros Hf. revert a it n l. induction Hf as [|[t v] ss [Ht Hv] _ IH];
    intros a it n l Hs Hh Hnr He Hn Hlen H0; cbn [length] in *.
  - exists [], it. cbn [append_all fold_left]. rewrite app_nil_r, Z.add_0_r.
    split; [|auto]. intros N br rest _ Hw E. exists br. split; [exact Hw|]. split; [exact E|].
    split; intros k; cbn [length app Nat.add]; [destruct (collect k (set_br it N br))|]; reflexivity.
  - cbn [fst snd] in Ht, Hv.
    destruct (append_step a it n t v l Hs Hh Hnr ltac:(lia) Ht Hv H0)
      as (b1 & it1 & Hrd & Hh1 & Hs1 & Hn1 & Hat & Hf1).
    destruct (IH (Append t v a) it1 (n + 1) (l ++ b1) Hs1 Hh1 Hn1) as (b2 & it2 & Hy & Hh2 & Hs2 & Hn2 & He2 & Hz);
      [unfold same_frame in Hf1; congruence|lia|lia|lia|].
    exists (b1 ++ b2), it2. rewrite app_assoc.
    replace (n + Z.of_nat (S (length ss))) with (n + 1 + Z.of_nat (length ss)) by lia.
    split; [|cbn [append_all fold_left fst snd]; auto 8].
    intros N br rest HN Hw E. cbn [length] in HN. rewrite <- app_assoc in E.
    destruct (Hrd N br _ Hw E) as (br1 & E1 & Hw1 & R1).
    destruct (Hy N br1 rest ltac:(lia) Hw1 R1) as (br2 & Hw2 & R2 & Hc & Hd).
    assert (Hnext : Next (set_br it N br) = (true, set_br it1 N br1)) by (apply Next_ok; auto; lia).
    exists br2. split; [exact Hw2|]. split; [exact R2|]. split; intros k.
    + cbn [length Nat.add collect]. rewrite Hnext, Hc.
      change (At (set_br it1 N br1)) with (At it1). rewrite Hat. reflexivity.
    + cbn [length Nat.add drain]. rewrite Hnext. apply Hd.
Qed.

(** ** A whole chunk *)

Definition new_appender : xorAppender := mkXorAppender NewXORChunk MinInt64 0 0 255 0.
Definition start_iterator : xorIterator :=
  mkXorIterator (newBReader []) 0 0 MinInt64 0 0 0 0 None.

Lemma new_chunk_appender : Appender NewXORChunk = inr new_appender.
Proof. vm_compute. reflexivity. Qed.

Lemma new_synced : synced new_appender start_iterator.
Proof.
  split; cbn; try reflexivity; unfold is_i64, is_u64, MinInt64; try lia.
  split; [left; reflexivity|cbn; lia].
Qed.

Lemma new_holds : holds new_appender 0 [].
Proof.
  split; [|unfold is_u16; lia]. split; [|split]; cbn [new_appender xa_b NewXORChunk bs_stream bs_count].
  - repeat constructor; unfold is_u8; lia.
  - lia.
  - reflexivity.
Qed.

Lemma iterator_of_chunk c n l : repr c (header n ++ l) -> is_u16 n ->
  exists br rest, xor_iterator c = set_br start_iterator n br /\ wf_reader br /\ br_rem br = l ++ rest.
Proof.
  intros Hr Hn. destruct (header_spec c n l Hn Hr) as [_ Hb].
  destruct (newBReader_repr _ _ Hb) as [Hw E]. do 2 eexists. split; [|split; [exact Hw|exact E]].
  unfold xor_iterator. rewrite (header_num c n l Hn Hr). reflexivity.
Qed.

(** At the end of the samples [Next] reports [ValNone] and no error. *)
Lemma collect_end it N br k : it_err it = None -> it_numRead it = N ->
  collect (S k) (set_br it N br) = ([], set_br it N br)
  /\ drain (S k) (set_br it N br) = set_br it N br.
Proof.
  intros He Hn. cbn [collect drain]. unfold Next. cbn [set_br it_err it_numRead it_numTotal].
  rewrite He, Hn, Z.eqb_refl. split; reflexivity.
Qed.

(** An appender's chunk reads back as the samples that went in, and re-opening
    it gives an appender in the same state. *)
Definition good_appender (a : xorAppender) (ss : list (Z * Z)) : Prop :=
  exists it l, holds a (Z.of_nat (length ss)) l /\ Yields start_iterator ss it l
    /\ synced a it /\ it_numRead it = Z.of_nat (length ss) /\ it_err it = None
    /\ (Z.of_nat (length ss) = 0 -> it_tDelta it = 0).

Lemma Yields_app it ss1 it1 l1 ss2 it2 l2 :
  it_numRead it1 = it_numRead it + Z.of_nat (length ss1) ->
  Yields it ss1 it1 l1 -> Yields it1 ss2 it2 l2 -> Yields it (ss1 ++ ss2) it2 (l1 ++ l2).
Proof.
  intros Hn H1 H2 N br rest HN Hw E. rewrite length_app in HN. rewrite <- app_assoc in E.
  destruct (H1 N br _ ltac:(lia) Hw E) as (br1 & Hw1 & R1 & C1 & D1).
  destruct (H2 N br1 rest ltac:(lia) Hw1 R1) as (br2 & Hw2 & R2 & C2 & D2).
  exists br2. split; [exact Hw2|]. split; [exact R2|]. rewrite length_app. split; intros k.
  - rewrite <- Nat.add_assoc, C1, C2. cbn [fst snd]. rewrite app_assoc. reflexivity.
  - rewrite <- Nat.add_assoc, D1, D2. reflexivity.
Qed.

Lemma good_new : good_appender new_appender [].
Proof.
  exists start_iterator, []. split; [exact new_holds|]. split; [|split; [exact new_synced|auto]].
  intros N br rest _ Hw E. exists br. split; [exact Hw|]. split; [exact E|].
  split; intros k; cbn [length app Nat.add]; [destruct (collect k _)|]; reflexivity.
Qed.

Lemma good_append_all a ss1 ss2 :
  good_appender a ss1 -> Forall wf_sample ss2 -> Z.of_nat (length (ss1 ++ ss2)) <= 65535 ->
  good_appender (append_all ss2 a) (ss1 ++ ss2).
Proof.
  intros (it & l & Hh & Hy & Hs & Hn & He & H0) Hf Hlen. rewrite length_app in Hlen.
  destruct (append_all_yields ss2 a it _ l Hf Hs Hh Hn He) as (bs & it' & Hy' & Hh' & Hs' & Hn' & He' & H0');
    [lia|lia|exact H0|].
  exists it', (l ++ bs). rewrite length_app, Nat2Z.inj_add.
  split; [exact Hh'|]. split; [|auto]. eapply Yields_app; [|exact Hy|exact Hy'].
  rewrite Hn. cbn [start_iterator it_numRead]. lia.
Qed.

Lemma good_iterates a ss : good_appender a ss ->
  exists it, collect (S (length ss)) (xor_iterator (xa_b a)) = (ss, it) /\ it_err it = None.
Proof.
  intros (it & l & [Hr Hu] & Hy & _ & Hn & He & _).
  destruct (iterator_of_chunk _ _ _ Hr Hu) as (br & rest & -> & Hw & E).
  destruct (Hy (Z.of_nat (length ss)) br rest ltac:(cbn; lia) Hw E) as (br' & Hw' & R & Hc & _).
  specialize (Hc 1%nat). rewrite Nat.add_1_r in Hc. rewrite Hc.
  destruct (collect_end it (Z.of_nat (length ss)) br' 0 He Hn) as [-> _].
  cbn [fst snd]. rewrite app_nil_r. eexists. split; [reflexivity|exact He].
Qed.

(** Re-opening: the recovered appender is good for the same samples. *)
Lemma good_reopen a ss : good_appender a ss ->
  exists a', Appender (xa_b a) = inr a' /\ good_appender a' ss.
Proof.
  intros (it & l & [Hr Hu] & Hy & Hs & Hn & He & H0). unfold Appender.
  rewrite (header_num _ _ l Hu Hr).
  destruct (iterator_of_chunk _ _ _ Hr Hu) as (br & rest & -> & Hw & E).
  destruct (Hy (Z.of_nat (length ss)) br rest ltac:(cbn; lia) Hw E) as (br' & _ & _ & _ & Hd).
  specialize (Hd 1%nat). rewrite Nat.add_1_r in Hd. rewrite Nat2Z.id, Hd.
  destruct (collect_end it (Z.of_nat (length ss)) br' 0 He Hn) as [_ ->].
  cbn [set_br it_err it_t it_val it_tDelta it_leading it_trailing it_numTotal]. rewrite He.
  eexists. split; [reflexivity|]. exists it, l. split; [split; assumption|].
  split; [exact Hy|]. split; [|auto].
  destruct Hs as [? ? ? [_ Hb] ? ? ?]. split; cbn; auto. split; [|exact Hb].
  destruct (Z.of_nat (length ss) =? 0); auto.
Qed.

(** ** Properties *)

(** C17: a chunk written by the appender of a new chunk, with up to 65535 samples
    of any int64 timestamps (in any order) and any float64 bit patterns,
    reports the number of samples and iterates to exactly the samples appended,
    after which [Next] returns [ValNone] without an error. *)
Theorem xor_chunk_roundtrip (ss : list (Z * Z)) :
  Forall wf_sample ss -> Z.of_nat (length ss) <= 65535 ->
  exists a it,
    Appender NewXORChunk = inr a
    /\ NumSamples (xa_b (append_all ss a)) = Z.of_nat (length ss)
    /\ collect (S (length ss)) (xor_iterator (xa_b (append_all ss a))) = (ss, it)
    /\ it_err it = None.
Proof.
  intros Hf Hlen. pose proof (good_append_all _ [] ss good_new Hf Hlen) as Hg. cbn [app] in Hg.
  destruct (good_iterates _ _ Hg) as (it & Hc & He).
  exists new_appender, it. split; [exact new_chunk_appender|]. split; [|auto].
  destruct Hg as (_ & l & [Hr Hu] & _). apply (header_num _ _ l Hu Hr).
Qed.

Lemma xor_chunk_roundtrip_witness :
  exists a it, Appender NewXORChunk = inr a
    /\ NumSamples (xa_b (append_all [(1000, 2 ^ 62); (1015, 2 ^ 62); (1031, 2 ^ 63 + 5); (-7, 0)] a)) = 4
    /\ collect 5 (xor_iterator (xa_b (append_all [(1000, 2 ^ 62); (1015, 2 ^ 62); (1031, 2 ^ 63 + 5); (-7, 0)] a)))
       = ([(1000, 2 ^ 62); (1015, 2 ^ 62); (1031, 2 ^ 63 + 5); (-7, 0)], it)
    /\ it_err it = None.
Proof.
  apply (xor_chunk_roundtrip [(1000, 2 ^ 62); (1015, 2 ^ 62); (1031, 2 ^ 63 + 5); (-7, 0)]);
    [repeat constructor; vm_compute; congruence|vm_compute; congruence].
Defined.

(** an appender can be re-opened at any point: [Appender] on a chunk that
    holds [ss1] succeeds, and appending [ss2] with the recovered appender gives a
    chunk that iterates to [ss1] followed by [ss2] without an error. *)
Theorem xor_chunk_reopen (ss1 ss2 : list (Z * Z)) :
  Forall wf_sample (ss1 ++ ss2) -> Z.of_nat (length (ss1 ++ ss2)) <= 65535 ->
  exists a a' it,
    Appender NewXORChunk = inr a
    /\ Appender (xa_b (append_all ss1 a)) = inr a'
    /\ collect (S (length (ss1 ++ ss2))) (xor_iterator (xa_b (append_all ss2 a'))) = (ss1 ++ ss2, it)
    /\ it_err it = None.
Proof.
  intros Hf Hlen. apply Forall_app in Hf. destruct Hf as [Hf1 Hf2].
  assert (Hl1 : Z.of_nat (length ss1) <= 65535) by (rewrite length_app in Hlen; lia).
  pose proof (good_append_all _ [] ss1 good_new Hf1 Hl1) as Hg1. cbn [app] in Hg1.
  destruct (good_reopen _ _ Hg1) as (a' & Ha' & Hg').
  destruct (good_iterates _ _ (good_append_all _ _ ss2 Hg' Hf2 Hlen)) as (it & Hc & He).
  exists new_appender, a', it. split; [exact new_chunk_appender|auto].
Qed.
