(* ===== verification/Tombstones.v ===== *)
(** * Deletion markers: [tsdb/tombstones/tombstones.go]

    Interval sets with the merging insertion [Add], the in-memory table
    [MemTombstones] and its file format.  Reads and writes of the file are
    modelled on its contents; a Go map is a [gmap], and where its iteration
    order shows (in the encoding) the order is an arbitrary enumeration. *)

From stdpp Require Import base list numbers gmap.
From Stdlib Require Import ZArith Lia Sorted.
From S2P Require Import Prelude Encoding.

(** ** Intervals *)

Record Interval := mkInterval { Mint : Z; Maxt : Z }.
Abbreviation Intervals := (list Interval).

#[export] Instance interval_eq_dec : EqDecision Interval.
Proof. solve_decision. Defined.

Definition InBounds (tr : Interval) (t : Z) : bool := (Mint tr <=? t) && (t <=? Maxt tr).

Fixpoint IsSubrange (tr : Interval) (dranges : Intervals) : bool :=
  match dranges with
  | [] => false
  | r :: rest =>
      if InBounds r (Mint tr) && InBounds r (Maxt tr) then true else IsSubrange tr rest
  end.

Definition iv0 : Interval := mkInterval 0 0.
Definition iv_at (l : Intervals) (i : nat) : Interval := nth i l iv0.

(** The tail of [Add]: the intervals [mini .. mini+maxi-1] become one.  The index
    [maxi+mini-1] and the slice bound [maxi+mini] are checked by Go. *)
Definition Add_merge (l : Intervals) (n : Interval) (mini maxi : nat) : outcome Intervals :=
  if (length l <=? maxi + mini - 1)%nat then Panic
  else
    let mint := if Mint n <? Mint (iv_at l mini) then Mint n else Mint (iv_at l mini) in
    let maxt := Maxt (iv_at l (maxi + mini - 1)) in
    let maxt := if maxt <? Maxt n then Maxt n else maxt in
    if (length l <? maxi + mini)%nat then Panic
    else Ret (take (mini + 1) (<[mini := mkInterval mint maxt]> l)
                ++ drop (maxi + mini) (<[mini := mkInterval mint maxt]> l)).

Definition Add (l : Intervals) (n : Interval) : outcome Intervals :=
  if (length l =? 0)%nat then Ret (l ++ [n])
  else
    let mini := if Mint n =? MinInt64 then 0%nat
                else sort_search (length l) (fun i => Mint n - 1 <=? Maxt (iv_at l i)) in
    if negb (Mint n =? MinInt64) && (mini =? length l)%nat then Ret (l ++ [n])
    else
      let maxi := if Maxt n =? MaxInt64 then length l
                  else sort_search (length l - mini)
                         (fun i => Maxt n + 1 <? Mint (iv_at l (mini + i))) in
      if negb (Maxt n =? MaxInt64) && (maxi =? 0)%nat then
        if (mini =? 0)%nat then Ret (n :: l)
        else Ret (take mini l ++ n :: drop mini l)
      else Add_merge l n mini maxi.

(** ** [MemTombstones] *)

Abbreviation MemTombstones := (gmap Z (list Interval)).

Definition NewMemTombstones : MemTombstones := ∅.
Definition Get (t : MemTombstones) (ref : Z) : Intervals := default [] (t !! ref).

Fixpoint AddInterval (t : MemTombstones) (ref : Z) (itvs : Intervals) : outcome MemTombstones :=
  match itvs with
  | [] => Ret t
  | itv :: rest =>
      outcome_bind (Add (default [] (t !! ref)) itv)
        (fun ivs => AddInterval (<[ref := ivs]> t) ref rest)
  end.

Definition DeleteTombstones (t : MemTombstones) (refs : gset Z) : MemTombstones :=
  filter (fun kv => fst kv ∉ refs) t.

(** The loop from the last interval down to the first that ended before [beforeT]. *)
Fixpoint truncate_rev (beforeT : Z) (rivs : Intervals) : Intervals :=
  match rivs with
  | [] => []
  | iv :: rest => if Maxt iv <? beforeT then [] else iv :: truncate_rev beforeT rest
  end.
Definition truncate_ivs (beforeT : Z) (ivs : Intervals) : Intervals :=
  rev (truncate_rev beforeT (rev ivs)).
Definition TruncateBefore (t : MemTombstones) (beforeT : Z) : MemTombstones :=
  omap (fun ivs => match truncate_ivs beforeT ivs with [] => None | l => Some l end) t.

Definition Total (t : MemTombstones) : Z :=
  map_fold (fun _ ivs n => u64 (n + Z.of_nat (length ivs))) 0 t.

(** ** The file *)

Definition MagicTombstone : Z := 0x0130BA30.
Definition tombstoneFormatV1 : Z := 1.
Definition tombstonesHeaderSize : nat := 5.
Definition tombstonesCRCSize : nat := 4.

(** [Encode]; [kvs] enumerates the map in the order [Iter] happened to take. *)
Definition encode_stone (ref : Z) (buf : Encbuf) (iv : Interval) : Encbuf :=
  PutVarint64 (Maxt iv) (PutVarint64 (Mint iv) (PutUvarint64 ref buf)).
Definition encode_group (buf : Encbuf) (kv : Z * Intervals) : Encbuf :=
  fold_left (encode_stone (fst kv)) (snd kv) buf.
Definition Encode (kvs : list (Z * Intervals)) : bytes :=
  EGet (fold_left encode_group kvs (PutByte tombstoneFormatV1 (mkEncbuf []))).

Inductive tomb_err : Type :=
| ErrFormat (flag : Z)
| ErrMagic (mg : Z)
| ErrChecksum
| ErrHeader
| ErrDec (e : enc_error)
| ErrFuel.

Section with_varint.
Context {V : VarintLib}.

(** One iteration of the loop of [Decode]: the three reads. *)
Definition read_stone : Dec (Z * Interval) :=
  k <-- Uvarint64 ;; mint <-- Varint64 ;; maxt <-- Varint64 ;;
  go_ret (k, mkInterval mint maxt).

(** Every iteration that does not stop consumes input, so a fuel of the buffer
    length is never exhausted ([decode_no_fuel]). *)
Fixpoint decode_loop (fuel : nat) (d : Decbuf) (t : MemTombstones)
    : outcome (tomb_err + MemTombstones) :=
  if DLen d <=? 0 then Ret (inr t)
  else
    match fuel with
    | O => Ret (inl ErrFuel)
    | S f =>
        outcome_bind (read_stone d) (fun '((k, iv), d') =>
          match DErr d' with
          | Some e => Ret (inl (ErrDec e))
          | None => outcome_bind (AddInterval t k [iv]) (decode_loop f d')
          end)
    end.

Definition Decode (b : bytes) : outcome (tomb_err + MemTombstones) :=
  outcome_bind (DByte (mkDecbuf b None)) (fun '(flag, d) =>
    if negb (flag =? tombstoneFormatV1) then Ret (inl (ErrFormat flag))
    else match DErr d with
         | Some e => Ret (inl (ErrDec e))
         | None => decode_loop (length b) d NewMemTombstones
         end).

(** [WriteFile]: the bytes of the file. *)
Definition WriteFile (kvs : list (Z * Intervals)) : bytes :=
  let buf := EGet (PutBE32 MagicTombstone (mkEncbuf [])) in
  let bs := Encode kvs in
  buf ++ bs ++ be_bytes 4 (crc32_checksum (drop 1 bs)).

(** [ReadTombstones] on the bytes of an existing file. *)
Definition ReadTombstones (b : bytes) : outcome (tomb_err + (MemTombstones * Z)) :=
  if (length b <? tombstonesHeaderSize)%nat then Ret (inl ErrHeader)
  else
    let payload := take (length b - tombstonesCRCSize) b in
    outcome_bind (Be32 (mkDecbuf payload None)) (fun '(mg, d) =>
      if negb (mg =? MagicTombstone) then Ret (inl (ErrMagic mg))
      else if (length (dB d) <? 1)%nat then Panic
      else if negb (be_val (drop (length b - tombstonesCRCSize) b) =? crc32_checksum (drop 1 (dB d)))
      then Ret (inl ErrChecksum)
      else match DErr d with
           | Some e => Ret (inl (ErrDec e))
           | None =>
               outcome_bind (Decode (dB d)) (fun r =>
                 match r with
                 | inl e => Ret (inl e)
                 | inr t => Ret (inr (t, Z.of_nat (length b)))
                 end)
           end).
End with_varint.

(** ** Normal form and meaning of interval sets *)

(** Strictly before, with at least one instant in between. *)
Definition iv_before (a b : Interval) : Prop := Maxt a + 1 < Mint b.

Definition wf_interval (iv : Interval) : Prop :=
  is_i64 (Mint iv) /\ is_i64 (Maxt iv) /\ Mint iv <= Maxt iv.

Definition wf_intervals (l : Intervals) : Prop :=
  StronglySorted iv_before l /\ Forall wf_interval l.

Definition covers (l : Intervals) (t : Z) : Prop := Exists (fun iv => Mint iv <= t <= Maxt iv) l.

Lemma covers_app l1 l2 t : covers (l1 ++ l2) t <-> covers l1 t \/ covers l2 t.
Proof. apply Exists_app. Qed.

Lemma covers_one iv t : covers [iv] t <-> Mint iv <= t <= Maxt iv.
Proof. unfold covers. rewrite Exists_cons, Exists_nil. tauto. Qed.

Lemma ssorted_app {A} (R : A -> A -> Prop) l1 l2 :
  StronglySorted R (l1 ++ l2) <->
  StronglySorted R l1 /\ StronglySorted R l2 /\ Forall (fun x => Forall (R x) l2) l1.
Proof.
  induction l1 as [|x l1 IH]; cbn [app].
  - split; [|tauto]. intros H. split; [constructor|]. split; [exact H|constructor].
  - split.
    + intros H. inversion_clear H as [|? ? H1 H2]. apply IH in H1. destruct H1 as (H1 & H3 & H4).
      apply Forall_app in H2. destruct H2 as [H2 H5].
      split; [constructor; assumption|]. split; [exact H3|constructor; assumption].
    + intros (H1 & H2 & H3). inversion_clear H1 as [|? ? H4 H5]. inversion_clear H3 as [|? ? H6 H7].
      constructor; [apply IH; auto|]. apply Forall_app. auto.
Qed.

Lemma wf_intervals_app l1 l2 :
  wf_intervals (l1 ++ l2) <->
  wf_intervals l1 /\ wf_intervals l2 /\ Forall (fun x => Forall (iv_before x) l2) l1.
Proof. unfold wf_intervals. rewrite ssorted_app, Forall_app. tauto. Qed.

(** ** Where a new interval falls *)

Definition left_of (n iv : Interval) : Prop := Maxt iv < Mint n - 1.
Definition right_of (n iv : Interval) : Prop := Maxt n + 1 < Mint iv.
Definition touches (n iv : Interval) : Prop := Mint n - 1 <= Maxt iv /\ Mint iv <= Maxt n + 1.

(** A sorted list is: the intervals before [n], those touching it, those after. *)
Record placed (l : Intervals) (n : Interval) (A B C : Intervals) : Prop := {
  pl_eq : l = A ++ B ++ C;
  pl_left : Forall (left_of n) A;
  pl_mid : Forall (touches n) B;
  pl_right : Forall (right_of n) C
}.

Lemma place l n : wf_intervals l -> wf_interval n -> exists A B C, placed l n A B C.
Proof.
  intros [Hs Hw] (_ & _ & Hn). induction Hs as [|iv l Hs IH Hf].
  - exists [], [], []. split; constructor.
  - inversion_clear Hw as [|? ? Hiv Hw']. destruct (IH Hw') as (A & B & C & [-> HA HB HC]).
    destruct Hiv as (_ & _ & Hiv). apply Forall_app in Hf. destruct Hf as [HfA Hf].
    apply Forall_app in Hf. destruct Hf as [HfB HfC].
    destruct (Z.lt_ge_cases (Maxt iv) (Mint n - 1)) as [Hl|Hl].
    { exists (iv :: A), B, C.
      split; [reflexivity|constructor; [exact Hl|exact HA]|exact HB|exact HC]. }
    assert (A = []) as ->.
    { destruct A as [|a A]; [reflexivity|]. apply Forall_cons_1 in HA, HfA.
      unfold left_of, iv_before in *. destruct HA as [HA _], HfA as [HfA _].
      apply Forall_cons_1 in Hw'. destruct Hw' as [(_ & _ & ?) _]. lia. }
    destruct (Z.le_gt_cases (Mint iv) (Maxt n + 1)) as [Hr|Hr].
    { exists [], (iv :: B), C.
      split; [reflexivity|constructor|constructor; [split; lia|exact HB]|exact HC]. }
    assert (B = []) as ->.
    { destruct B as [|b B]; [reflexivity|]. apply Forall_cons_1 in HB, HfB.
      unfold touches, iv_before in *. destruct HB as [HB _], HfB as [HfB _]. lia. }
    exists [], [], (iv :: C).
    split; [reflexivity|constructor|constructor|constructor; [unfold right_of; lia|exact HC]].
Qed.

(** The two searches of [Add] find the boundaries. *)
Lemma find_mini l n A B C : wf_intervals l -> wf_interval n -> placed l n A B C ->
  (if Mint n =? MinInt64 then 0%nat
   else sort_search (length l) (fun i => Mint n - 1 <=? Maxt (iv_at l i))) = length A
  /\ (Mint n = MinInt64 -> A = []).
Proof.
  intros [_ Hw] Hn [-> HA HB HC].
  assert (Hmin : Mint n = MinInt64 -> A = []).
  { intros E. destruct A as [|a A]; [reflexivity|]. apply Forall_cons_1 in HA, Hw.
    destruct HA as [HA _], Hw as [(_ & (Ha & _) & _) _]. unfold left_of in HA. rewrite E in HA. zlia. }
  split; [|exact Hmin]. destruct (Z.eqb_spec (Mint n) MinInt64) as [E|E].
  { rewrite Hmin by exact E. reflexivity. }
  unfold iv_at. apply (sort_search_split (fun iv => Mint n - 1 <=? Maxt iv)).
  - eapply List.Forall_impl; [|exact HA]. intros iv H. apply Z.leb_gt. exact H.
  - apply Forall_app in Hw. destruct Hw as [_ Hw]. apply Forall_app in Hw. destruct Hw as [_ HwC].
    apply Forall_app. split.
    + eapply List.Forall_impl; [|exact HB]. intros iv [H _]. apply Z.leb_le. exact H.
    + apply List.Forall_forall. intros iv Hin. apply Z.leb_le.
      eapply List.Forall_forall in HC; [|exact Hin]. eapply List.Forall_forall in HwC; [|exact Hin].
      unfold right_of in HC. destruct HwC as (_ & _ & ?), Hn as (_ & _ & ?). lia.
Qed.

Lemma find_maxi n A B C : Forall (touches n) B -> Forall (right_of n) C ->
  sort_search (length (A ++ B ++ C) - length A)
    (fun i => Maxt n + 1 <? Mint (iv_at (A ++ B ++ C) (length A + i))) = length B.
Proof.
  intros HB HC. rewrite length_app.
  replace (length A + length (B ++ C) - length A)%nat with (length (B ++ C)) by lia.
  rewrite <- (sort_search_split (fun iv => Maxt n + 1 <? Mint iv) iv0 B C).
  - apply sort_search_ext. intros i. unfold iv_at. rewrite app_nth2 by lia. do 3 f_equal. lia.
  - eapply List.Forall_impl; [|exact HB]. intros iv [_ H]. apply Z.ltb_ge. lia.
  - eapply List.Forall_impl; [|exact HC]. intros iv H. apply Z.ltb_lt. exact H.
Qed.

(** The tail of [Add] on a known placement. *)
Definition merged (n : Interval) (b : Interval) (B : Intervals) : Interval :=
  mkInterval (Z.min (Mint n) (Mint b)) (Z.max (Maxt n) (Maxt (List.last (b :: B) iv0))).

Lemma nth_last_cons b (B : Intervals) : nth (length B) (b :: B) iv0 = List.last (b :: B) iv0.
Proof.
  revert b. induction B as [|b' B IH]; intros b; [reflexivity|].
  change (nth (length B) (b' :: B) iv0 = List.last (b' :: B) iv0). apply IH.
Qed.

Lemma Add_merge_placed n A b B C :
  Add_merge (A ++ (b :: B) ++ C) n (length A) (S (length B)) = Ret (A ++ merged n b B :: C).
Proof.
  unfold Add_merge. set (l := A ++ (b :: B) ++ C).
  assert (Hl : length l = (length A + (S (length B) + length C))%nat).
  { subst l. rewrite !length_app. reflexivity. }
  destruct (Nat.leb_spec (length l) (S (length B) + length A - 1)); [lia|].
  destruct (Nat.ltb_spec (length l) (S (length B) + length A)); [lia|].
  assert (H1 : iv_at l (length A) = b).
  { unfold iv_at, l. rewrite app_nth2, Nat.sub_diag by lia. reflexivity. }
  assert (H2 : iv_at l (S (length B) + length A - 1) = List.last (b :: B) iv0).
  { unfold iv_at, l. rewrite app_nth2, app_nth1 by (cbn [length]; lia).
    rewrite <- nth_last_cons. f_equal. lia. }
  rewrite H1, H2.
  replace (mkInterval _ _) with (merged n b B).
  2: { unfold merged. f_equal.
       - destruct (Z.ltb_spec (Mint n) (Mint b)); lia.
       - destruct (Z.ltb_spec (Maxt (List.last (b :: B) iv0)) (Maxt n)); lia. }
  assert (H3 : <[length A := merged n b B]> l = A ++ merged n b B :: B ++ C).
  { subst l. rewrite <- (Nat.add_0_r (length A)) at 1. rewrite insert_app_r. reflexivity. }
  rewrite H3. f_equal. rewrite take_app_ge, drop_app_ge by lia.
  replace (length A + 1 - length A)%nat with 1%nat by lia.
  replace (S (length B) + length A - length A)%nat with (S (length B)) by lia.
  cbn [take drop]. rewrite take_0, <- app_assoc. cbn [app]. do 2 f_equal.
  rewrite drop_app_length. reflexivity.
Qed.

(** [Add] as a function of the placement. *)
Definition add_spec (n : Interval) (A B C : Intervals) : outcome Intervals :=
  match B with
  | [] => Ret (A ++ n :: C)
  | b :: B' =>
      if (Maxt n =? MaxInt64) && negb (length A =? 0)%nat then Panic
      else Ret (A ++ merged n b B' :: C)
  end.

Lemma right_empty n C : Maxt n = MaxInt64 -> Forall (right_of n) C -> Forall wf_interval C -> C = [].
Proof.
  intros E HC Hw. destruct C as [|c C]; [reflexivity|]. apply Forall_cons_1 in HC, Hw.
  destruct HC as [HC _], Hw as [((_ & Hc) & _ & _) _]. unfold right_of in HC. rewrite E in HC. zlia.
Qed.

Lemma Add_placed l n A B C : wf_intervals l -> wf_interval n -> placed l n A B C ->
  Add l n = add_spec n A B C.
Proof.
  intros Hl Hn Hp. destruct (find_mini l n A B C Hl Hn Hp) as [Hmini Hmin].
  unfold Add. rewrite Hmini. destruct Hp as [-> HA HB HC].
  assert (HwC : Forall wf_interval C).
  { destruct Hl as [_ Hw]. do 2 (apply Forall_app in Hw; destruct Hw as [_ Hw]). exact Hw. }
  destruct (Nat.eqb_spec (length (A ++ B ++ C)) 0) as [E0|E0].
  { rewrite !length_app in E0.
    destruct A, B, C; cbn [length] in E0; try lia. reflexivity. }
  destruct (negb (Mint n =? MinInt64) && (length A =? length (A ++ B ++ C))%nat) eqn:Eend.
  { apply andb_true_iff in Eend. destruct Eend as [_ Eend]. apply Nat.eqb_eq in Eend.
    rewrite !length_app in Eend. destruct B, C; cbn [length] in Eend; try lia.
    rewrite !app_nil_r. reflexivity. }
  destruct (Z.eqb_spec (Maxt n) MaxInt64) as [EM|EM]; cbn [negb andb].
  - pose proof (right_empty n C EM HC HwC) as ->. destruct B as [|b B].
    + (* nothing touches [n]: the list is [A], which the first search covered *)
      rewrite !app_nil_r in *. exfalso. apply andb_false_iff in Eend.
      destruct Eend as [Eend|Eend]; [|rewrite Nat.eqb_refl in Eend; discriminate].
      apply negb_false_iff, Z.eqb_eq in Eend. rewrite Hmin in E0 by exact Eend. apply E0. reflexivity.
    + unfold add_spec. rewrite EM, Z.eqb_refl. cbn [andb].
      destruct (Nat.eqb_spec (length A) 0) as [EA|EA]; cbn [negb].
      * apply nil_length_inv in EA. subst A. cbn [app length]. rewrite app_nil_r.
        pose proof (Add_merge_placed n [] b B []) as H. cbn [app length] in H.
        rewrite app_nil_r in H. exact H.
      * unfold Add_merge. rewrite !length_app. cbn [length].
        destruct (Nat.leb_spec (length A + (S (length B) + 0)) (length A + (S (length B) + 0) + length A - 1));
          [reflexivity|lia].
  - rewrite find_maxi by assumption. destruct B as [|b B]; cbn [length Nat.eqb].
    + destruct (Nat.eqb_spec (length A) 0) as [EA|EA].
      * apply nil_length_inv in EA. subst A. reflexivity.
      * cbn [app add_spec]. rewrite take_app_length, drop_app_length. reflexivity.
    + rewrite Add_merge_placed. unfold add_spec.
      destruct (Z.eqb_spec (Maxt n) MaxInt64); [contradiction|]. reflexivity.
Qed.

(** In a sorted list the first interval starts first and the last ends last. *)
Lemma sorted_hull b B : wf_intervals (b :: B) ->
  Forall (fun x => Mint b <= Mint x /\ Maxt x <= Maxt (List.last (b :: B) iv0)) (b :: B)
  /\ In (List.last (b :: B) iv0) (b :: B).
Proof.
  revert b. induction B as [|c B IH]; intros b [Hs Hw].
  - cbn. split; [constructor; [lia|constructor]|auto].
  - inversion_clear Hs as [|? ? Hs' Hf]. inversion_clear Hw as [|? ? Hb Hw'].
    destruct (IH c (conj Hs' Hw')) as [IH1 IH2].
    change (List.last (b :: c :: B) iv0) with (List.last (c :: B) iv0).
    assert (Hbc : Maxt b + 1 < Mint c) by (apply Forall_cons_1 in Hf; apply Hf).
    destruct Hb as (_ & _ & Hb). split; [constructor|right; exact IH2].
    + split; [lia|]. pose proof (proj1 (List.Forall_forall _ _) IH1 _ IH2) as [H1 _].
      pose proof (proj1 (List.Forall_forall _ _) Hw' _ IH2) as (_ & _ & H2). lia.
    + eapply List.Forall_impl; [|exact IH1]. cbn. intros x [H1 H2]. lia.
Qed.

(** The merged interval is the union of [n] and the intervals that touch it. *)
Lemma merged_covers n b B t : wf_interval n -> wf_intervals (b :: B) -> Forall (touches n) (b :: B) ->
  Mint (merged n b B) <= t <= Maxt (merged n b B) <-> (Mint n <= t <= Maxt n \/ covers (b :: B) t).
Proof.
  intros (_ & _ & Hn) Hw Ht. destruct (sorted_hull b B Hw) as [Hh Hlast].
  set (z := List.last (b :: B) iv0) in *. unfold merged. fold z. cbn [Mint Maxt].
  pose proof (proj1 (List.Forall_forall _ _) Ht z Hlast) as [Hz1 Hz2].
  apply Forall_cons_1 in Ht. destruct Ht as [[Hb1 Hb2] _]. unfold covers. rewrite Exists_exists. split.
  - intros Hm. destruct (Z.lt_ge_cases t (Mint n)); [|destruct (Z.le_gt_cases t (Maxt n)); [left; lia|]].
    + right. exists b. rewrite list_elem_of_In. split; [left; reflexivity|lia].
    + right. exists z. rewrite list_elem_of_In. split; [exact Hlast|lia].
  - intros [Hin|(x & Hx & Hxt)]; [lia|]. rewrite list_elem_of_In in Hx.
    pose proof (proj1 (List.Forall_forall _ _) Hh x Hx) as [H1 H2]. lia.
Qed.

(** A list with one interval between the ones on its left and on its right. *)
Lemma wf_insert A m C : wf_intervals A -> wf_intervals C -> wf_interval m ->
  Forall (fun a => iv_before a m) A -> Forall (iv_before m) C ->
  Forall (fun a => Forall (iv_before a) C) A -> wf_intervals (A ++ m :: C).
Proof.
  intros HA [HC1 HC2] Hm HAm HmC HAC. apply wf_intervals_app. split; [exact HA|]. split.
  - split; constructor; auto.
  - apply List.Forall_forall. intros a Ha. rewrite List.Forall_forall in HAm, HAC. constructor; auto.
Qed.

(** The separations a placement gives. *)
Lemma placed_wf l n A B C : wf_intervals l -> placed l n A B C ->
  wf_intervals A /\ wf_intervals B /\ wf_intervals C
  /\ Forall (fun a => Forall (iv_before a) B) A /\ Forall (fun a => Forall (iv_before a) C) A
  /\ Forall (fun b => Forall (iv_before b) C) B.
Proof.
  intros Hl [-> _ _ _]. apply wf_intervals_app in Hl. destruct Hl as (HA & HBC & HAB).
  apply wf_intervals_app in HBC. destruct HBC as (HB & HC & HBC).
  repeat split; try assumption; try apply HA; try apply HB; try apply HC;
    (eapply List.Forall_impl; [|exact HAB]); intros a Ha; apply Forall_app in Ha; tauto.
Qed.

Lemma insert_wf l n A C : wf_intervals l -> wf_interval n -> placed l n A [] C ->
  wf_intervals (A ++ n :: C).
Proof.
  intros Hl Hn Hp. destruct (placed_wf _ _ _ _ _ Hl Hp) as (HA & _ & HC & _ & HAC & _).
  destruct Hp as [_ HAn _ HCn]. apply wf_insert; auto.
  - eapply List.Forall_impl; [|exact HAn]. unfold left_of, iv_before. lia.
Qed.

Lemma merged_wf l n A b B C : wf_intervals l -> wf_interval n -> placed l n A (b :: B) C ->
  wf_intervals (A ++ merged n b B :: C).
Proof.
  intros Hl Hn Hp. destruct (placed_wf _ _ _ _ _ Hl Hp) as (HA & HB & HC & HAB & HAC & HBC).
  destruct Hp as [_ HAn HBn HCn]. destruct (sorted_hull b B HB) as [Hh Hlast].
  set (z := List.last (b :: B) iv0) in *.
  assert (Hz : wf_interval z) by (apply (proj1 (List.Forall_forall _ _) (proj2 HB) z Hlast)).
  assert (Hb : wf_interval b) by (apply (Forall_inv (proj2 HB))).
  unfold merged. fold z. apply wf_insert; auto.
  - destruct Hz as (? & ? & ?), Hb as (? & ? & ?), Hn as (? & ? & ?).
    repeat split; cbn [Mint Maxt]; zlia.
  - apply List.Forall_forall. intros a Ha.
    pose proof (proj1 (List.Forall_forall _ _) HAn a Ha) as H1.
    pose proof (Forall_inv (proj1 (List.Forall_forall _ _) HAB a Ha)) as H2.
    unfold left_of, iv_before in *. cbn [Mint]. lia.
  - apply List.Forall_forall. intros c Hc.
    pose proof (proj1 (List.Forall_forall _ _) HCn c Hc) as H1.
    pose proof (proj1 (List.Forall_forall _ _) (proj1 (List.Forall_forall _ _) HBC z Hlast) c Hc) as H2.
    unfold right_of, iv_before in *. cbn [Maxt]. lia.
Qed.

(** What a successful [Add] establishes. *)
Lemma Add_result l n out : wf_intervals l -> wf_interval n -> Add l n = Ret out ->
  wf_intervals out /\ forall t, covers out t <-> covers l t \/ Mint n <= t <= Maxt n.
Proof.
  intros Hl Hn E. destruct (place l n Hl Hn) as (A & B & C & Hp).
  rewrite (Add_placed l n A B C Hl Hn Hp) in E. pose proof (pl_eq _ _ _ _ _ Hp) as El.
  destruct B as [|b B]; cbn [add_spec] in E.
  - injection E as <-. split; [eapply insert_wf; eassumption|]. intros t. subst l.
    change (n :: C) with ([n] ++ C). cbn [app]. change (n :: C) with ([n] ++ C).
    rewrite !covers_app, covers_one. tauto.
  - destruct (_ && _); [discriminate|]. injection E as <-.
    split; [eapply merged_wf; eassumption|]. intros t. subst l.
    change (merged n b B :: C) with ([merged n b B] ++ C). rewrite !covers_app, covers_one.
    rewrite merged_covers; [tauto|exact Hn| |exact (pl_mid _ _ _ _ _ Hp)].
    apply (placed_wf _ _ _ _ _ Hl Hp).
Qed.

(** When [Add] panics. *)
Lemma Add_panics l n : wf_intervals l -> wf_interval n ->
  (Add l n = Panic <->
   Maxt n = MaxInt64 /\ (exists a, In a l /\ Maxt a < Mint n - 1)
   /\ (exists b, In b l /\ Mint n - 1 <= Maxt b)).
Proof.
  intros Hl Hn. destruct (place l n Hl Hn) as (A & B & C & Hp).
  rewrite (Add_placed l n A B C Hl Hn Hp). destruct Hp as [El HA HB HC].
  assert (HwC : Forall wf_interval C).
  { subst l. destruct Hl as [_ Hw]. do 2 (apply Forall_app in Hw; destruct Hw as [_ Hw]). exact Hw. }
  split.
  - destruct B as [|b B]; cbn [add_spec]; [discriminate|].
    destruct (Z.eqb_spec (Maxt n) MaxInt64) as [EM|]; [|discriminate].
    destruct A as [|a A]; [discriminate|]. intros _. split; [exact EM|]. subst l. split.
    + exists a. split; [left; reflexivity|exact (Forall_inv HA)].
    + exists b. split; [apply in_or_app; right; left; reflexivity|apply (Forall_inv HB)].
  - intros (EM & (a & Ha & Hal) & (b & Hb & Hbl)). pose proof (right_empty n C EM HC HwC) as ->.
    rewrite app_nil_r in El. subst l. apply in_app_or in Ha, Hb.
    assert (HaA : In a A).
    { destruct Ha as [Ha|Ha]; [exact Ha|]. pose proof (proj1 (List.Forall_forall _ _) HB a Ha) as [H _]. lia. }
    assert (HbB : In b B).
    { destruct Hb as [Hb|Hb]; [|exact Hb]. pose proof (proj1 (List.Forall_forall _ _) HA b Hb) as H.
      unfold left_of in H. lia. }
    destruct B as [|b0 B]; [contradiction|]. cbn [add_spec]. rewrite EM, Z.eqb_refl.
    destruct A; [contradiction|]. reflexivity.
Qed.

(** ** [TruncateBefore] *)

Lemma truncate_rev_spec beforeT rl :
  exists dropped, rl = truncate_rev beforeT rl ++ dropped
    /\ Forall (fun iv => beforeT <= Maxt iv) (truncate_rev beforeT rl)
    /\ match dropped with [] => True | iv :: _ => Maxt iv < beforeT end.
Proof.
  induction rl as [|iv rl (dr & E & H1 & H2)]; cbn [truncate_rev].
  - exists []. auto.
  - destruct (Z.ltb_spec (Maxt iv) beforeT).
    + exists (iv :: rl). auto.
    + exists dr. cbn [app]. split; [congruence|]. auto.
Qed.

(** On a sorted list the loop keeps exactly the intervals that end at or after
    [beforeT]. *)
Lemma truncate_ivs_filter beforeT l : wf_intervals l ->
  truncate_ivs beforeT l = List.filter (fun iv => beforeT <=? Maxt iv) l.
Proof.
  intros [Hs Hw]. unfold truncate_ivs.
  destruct (truncate_rev_spec beforeT (rev l)) as (dr & E & Hk & Hd).
  set (kept := truncate_rev beforeT (rev l)) in *.
  apply (f_equal (@rev _)) in E. rewrite rev_involutive, rev_app_distr in E. rewrite E in Hs, Hw |- *.
  rewrite List.filter_app.
  rewrite (filter_all _ (rev kept)).
  2: { apply Forall_rev. eapply List.Forall_impl; [|exact Hk]. intros x Hx. apply Z.leb_le. exact Hx. }
  destruct dr as [|iv dr]; [reflexivity|]. cbn [rev] in *.
  assert (Hall : Forall (fun x => Maxt x < beforeT) (rev dr ++ [iv])).
  { apply Forall_app. split; [|constructor; [exact Hd|constructor]].
    apply ssorted_app in Hs. destruct Hs as (Hs & _ & _). apply ssorted_app in Hs.
    destruct Hs as (_ & _ & Hb). apply Forall_app in Hw. destruct Hw as [Hw _].
    apply Forall_app in Hw. destruct Hw as [_ Hw]. apply Forall_inv in Hw. destruct Hw as (_ & _ & Hiv).
    eapply List.Forall_impl; [|exact Hb]. intros x Hx. apply Forall_inv in Hx. unfold iv_before in Hx. lia. }
  rewrite (filter_none _ (rev dr ++ [iv])); [reflexivity|].
  eapply List.Forall_impl; [|exact Hall]. intros x Hx. apply Z.leb_gt. exact Hx.
Qed.

(** ** The reads of [Decode] consume input *)
Section decode.
Context {V : VarintLib}.

Lemma read_stone_shrinks : shrinks read_stone.
Proof.
  apply shrinks_bind; [apply Uvarint64_shrinks|]. intros k d y d'. apply shrinks_weak.
  apply shrinks_bind; [apply Varint64_shrinks|]. intros mint d1 y1 d1'. apply shrinks_weak.
  apply shrinks_bind; [apply Varint64_shrinks|]. intros maxt d2 y2 d2' [= <- <-]. auto.
Qed.

Lemma decode_loop_no_fuel fuel d t :
  (length (dB d) <= fuel)%nat -> decode_loop fuel d t <> Ret (inl ErrFuel).
Proof.
  revert d t. induction fuel as [|fuel IH]; intros d t Hf; cbn [decode_loop]; unfold DLen;
    destruct (Z.leb_spec (Z.of_nat (length (dB d))) 0); try discriminate; [lia|].
  unfold outcome_bind. destruct (read_stone d) as [[[k iv] d']|] eqn:E; [|discriminate].
  unfold DErr. destruct (dE d') eqn:Ee; [discriminate|].
  destruct (AddInterval t k [iv]); [|discriminate]. apply IH.
  destruct (read_stone_shrinks _ _ _ E) as [_ H2]. destruct (H2 Ee). lia.
Qed.

(** The loop of [Decode] always ends by itself. *)
Lemma decode_no_fuel b : Decode b <> Ret (inl ErrFuel).
Proof.
  unfold Decode, outcome_bind. destruct (DByte (mkDecbuf b None)) as [[flag d]|] eqn:E; [|discriminate].
  destruct (negb _); [discriminate|]. unfold DErr. destruct (dE d) eqn:Ee; [discriminate|].
  apply decode_loop_no_fuel. unfold DByte, d_fixed in E. cbn [dE dB] in E.
  destruct (Nat.ltb_spec (length b) 1); [injection E as <- <-; discriminate|].
  unfold go_bind, d_split, go_ret in E. cbn [dB dE] in E. destruct (_ || _); [discriminate|].
  injection E as <- <-. cbn [dB]. rewrite length_drop. lia.
Qed.
End decode.

Lemma wf_filter p l : wf_intervals l -> wf_intervals (List.filter p l).
Proof.
  intros [Hs Hw]. induction Hs as [|iv l Hs IH Hf]; [split; constructor|].
  apply Forall_cons in Hw. destruct Hw as [Hiv Hw]. destruct (IH Hw) as [IH1 IH2]. cbn.
  destruct (p iv); [|split; assumption]. split; constructor; try assumption.
  apply List.Forall_forall. intros x [Hx _]%filter_In. apply (proj1 (List.Forall_forall _ _) Hf x Hx).
Qed.

(** ** The file holds the table *)

Definition stone_enc (s : Z * Interval) : bytes :=
  put_uvarint (fst s) ++ put_varint (Mint (snd s)) ++ put_varint (Maxt (snd s)).

Definition wf_stone (s : Z * Interval) : Prop := is_u64 (fst s) /\ wf_interval (snd s).

Definition stones (kvs : list (Z * Intervals)) : list (Z * Interval) :=
  flat_map (fun kv => map (pair (fst kv)) (snd kv)) kvs.

Lemma encode_group_eq kv e :
  eB (encode_group e kv) = eB e ++ flat_map stone_enc (map (pair (fst kv)) (snd kv)).
Proof.
  destruct kv as [k ivs]. unfold encode_group. cbn [fst snd]. revert e.
  induction ivs as [|iv ivs IH]; intros e; cbn [fold_left map flat_map]; [rewrite app_nil_r; reflexivity|].
  rewrite IH. unfold encode_stone, stone_enc. cbn [eB PutVarint64 PutUvarint64 PutBytes fst snd].
  rewrite <- !app_assoc. reflexivity.
Qed.

Lemma Encode_eq kvs : Encode kvs = tombstoneFormatV1 :: flat_map stone_enc (stones kvs).
Proof.
  unfold Encode, EGet, stones.
  assert (H : forall e, eB (fold_left encode_group kvs e) =
    eB e ++ flat_map stone_enc (flat_map (fun kv => map (pair (fst kv)) (snd kv)) kvs)).
  { induction kvs as [|kv kvs IH]; intros e; cbn [fold_left flat_map]; [rewrite app_nil_r; reflexivity|].
    rewrite IH, encode_group_eq, flat_map_app, app_assoc. reflexivity. }
  rewrite H. reflexivity.
Qed.

Fixpoint add_stones (t : MemTombstones) (l : list (Z * Interval)) : outcome MemTombstones :=
  match l with
  | [] => Ret t
  | (k, iv) :: rest => outcome_bind (AddInterval t k [iv]) (fun t' => add_stones t' rest)
  end.

Lemma add_stones_app t l1 l2 :
  add_stones t (l1 ++ l2) = outcome_bind (add_stones t l1) (fun t' => add_stones t' l2).
Proof.
  revert t. induction l1 as [|[k iv] l1 IH]; intros t; cbn [app add_stones]; [reflexivity|].
  unfold outcome_bind. destruct (AddInterval t k [iv]); [apply IH|reflexivity].
Qed.

(** Appending an interval that lies after all others. *)
Lemma Add_snoc l n : wf_intervals (l ++ [n]) -> Add l n = Ret (l ++ [n]).
Proof.
  intros H. apply wf_intervals_app in H. destruct H as (Hl & [_ Hn] & Hf).
  apply Forall_inv in Hn. rewrite (Add_placed l n l [] []); [reflexivity|exact Hl|exact Hn|].
  split; [rewrite app_nil_r; reflexivity| |constructor|constructor].
  eapply List.Forall_impl; [|exact Hf]. intros a Ha. apply Forall_inv in Ha.
  unfold iv_before, left_of in *. lia.
Qed.

Lemma add_stones_group t k pre ivs :
  wf_intervals (pre ++ ivs) -> ivs <> [] -> default [] (t !! k) = pre ->
  add_stones t (map (pair k) ivs) = Ret (<[k := pre ++ ivs]> t).
Proof.
  revert t pre. induction ivs as [|iv ivs IH]; intros t pre Hw Hne Hpre; [congruence|].
  assert (Hw1 : wf_intervals (pre ++ [iv])).
  { change (iv :: ivs) with ([iv] ++ ivs) in Hw. rewrite app_assoc in Hw.
    apply wf_intervals_app in Hw. apply Hw. }
  cbn [map add_stones AddInterval]. rewrite Hpre, Add_snoc by exact Hw1. cbn [outcome_bind].
  destruct ivs as [|iv' ivs]; [reflexivity|].
  rewrite (IH _ (pre ++ [iv])).
  - rewrite insert_insert_eq, <- app_assoc. reflexivity.
  - rewrite <- app_assoc. exact Hw.
  - discriminate.
  - rewrite lookup_insert_eq. reflexivity.
Qed.

Definition wf_group (kv : Z * Intervals) : Prop :=
  is_u64 (fst kv) /\ wf_intervals (snd kv) /\ snd kv <> [].

Lemma add_stones_groups kvs t :
  Forall wf_group kvs -> NoDup (kvs.*1) -> (forall k, k ∈ kvs.*1 -> t !! k = None) ->
  add_stones t (stones kvs) = Ret (list_to_map kvs ∪ t).
Proof.
  intros Hw. revert t. induction Hw as [|[k ivs] kvs (_ & Hi & Hne) _ IH]; intros t Hnd Hfresh.
  - cbn. rewrite (left_id_L ∅ (∪)). reflexivity.
  - cbn [fst snd fmap list_fmap] in *. apply NoDup_cons in Hnd. destruct Hnd as [Hk Hnd].
    change (stones ((k, ivs) :: kvs)) with (map (pair k) ivs ++ stones kvs).
    rewrite add_stones_app, (add_stones_group t k []); cbn [app].
    + cbn [outcome_bind]. rewrite IH; [|exact Hnd|].
      * f_equal. rewrite list_to_map_cons, <- insert_union_l, insert_union_r; [reflexivity|].
        apply not_elem_of_list_to_map_1. exact Hk.
      * intros k' Hk'. rewrite lookup_insert_ne by (intros ->; contradiction).
        apply Hfresh. apply list_elem_of_further. exact Hk'.
    + exact Hi.
    + exact Hne.
    + rewrite Hfresh by apply list_elem_of_here. reflexivity.
Qed.

Lemma wf_stones kvs : Forall wf_group kvs -> Forall wf_stone (stones kvs).
Proof.
  induction 1 as [|[k ivs] kvs (Hk & [_ Hi] & _) _ IH]; [constructor|].
  change (stones ((k, ivs) :: kvs)) with (map (pair k) ivs ++ stones kvs). apply Forall_app. split; [|exact IH].
  apply List.Forall_forall. intros s [iv [<- Hin]]%in_map_iff. split; [exact Hk|].
  apply (proj1 (List.Forall_forall _ _) Hi iv Hin).
Qed.

Section file.
Context {V : VarintLib} {VOK : VarintLibOK V}.

Lemma read_stone_get s rest : wf_stone s ->
  read_stone (mkDecbuf (stone_enc s ++ rest) None) = Ret (s, mkDecbuf rest None).
Proof.
  destruct s as [k [mint maxt]]. intros (Hk & H1 & H2 & _). unfold read_stone, stone_enc.
  cbn [fst snd Mint Maxt] in *. rewrite <- !app_assoc.
  go_step (uvarint64_get k (put_varint mint ++ put_varint maxt ++ rest) Hk).
  go_step (varint64_get mint (put_varint maxt ++ rest) H1).
  go_step (varint64_get maxt rest H2). reflexivity.
Qed.

Lemma stone_enc_nonempty s : (1 <= length (stone_enc s))%nat.
Proof. unfold stone_enc. rewrite length_app. pose proof (put_uvarint_length (fst s)). lia. Qed.

Lemma decode_loop_stones l fuel t : Forall wf_stone l ->
  (length (flat_map stone_enc l) <= fuel)%nat ->
  decode_loop fuel (mkDecbuf (flat_map stone_enc l) None) t
  = outcome_bind (add_stones t l) (fun t' => Ret (inr t')).
Proof.
  intros Hl. revert fuel t. induction Hl as [|s l Hs _ IH]; intros fuel t Hf.
  - destruct fuel; reflexivity.
  - cbn [flat_map] in *. pose proof (stone_enc_nonempty s). rewrite length_app in Hf.
    destruct fuel as [|fuel]; [lia|]. cbn [decode_loop]. unfold DLen. cbn [dB]. rewrite length_app.
    destruct (Z.leb_spec (Z.of_nat (length (stone_enc s) + length (flat_map stone_enc l))) 0); [lia|].
    rewrite read_stone_get by exact Hs. cbn [outcome_bind DErr dE]. destruct s as [k iv].
    cbn [add_stones]. destruct (AddInterval t k [iv]) as [t'|]; cbn [outcome_bind]; [|reflexivity].
    apply IH. lia.
Qed.

Lemma Decode_Encode kvs : Forall wf_group kvs -> NoDup (kvs.*1) ->
  Decode (Encode kvs) = Ret (inr (list_to_map kvs)).
Proof.
  intros Hw Hnd. unfold Decode. rewrite Encode_eq, dbyte_get by (unfold tombstoneFormatV1; zlia).
  cbn [outcome_bind]. rewrite Z.eqb_refl. cbn [negb DErr dE].
  rewrite decode_loop_stones by (try apply wf_stones; try assumption; cbn [length]; lia).
  rewrite add_stones_groups; [|assumption|assumption|intros; apply lookup_empty].
  cbn [outcome_bind]. unfold NewMemTombstones. rewrite (right_id_L ∅ (∪)). reflexivity.
Qed.

Lemma ReadTombstones_WriteFile kvs : Forall wf_group kvs -> NoDup (kvs.*1) ->
  ReadTombstones (WriteFile kvs) = Ret (inr (list_to_map kvs, Z.of_nat (length (WriteFile kvs)))).
Proof.
  intros Hw Hnd. unfold ReadTombstones, WriteFile, EGet. cbn [eB PutBE32 PutBytes app].
  set (bs := Encode kvs). set (mg := be_bytes 4 MagicTombstone).
  set (crc := be_bytes 4 (crc32_checksum _)).
  assert (Hbs : (1 <= length bs)%nat) by (subst bs; rewrite Encode_eq; cbn [length]; lia).
  assert (Hmg : length mg = 4%nat) by apply length_be_bytes.
  assert (Hcrc : length crc = 4%nat) by apply length_be_bytes.
  unfold tombstonesHeaderSize, tombstonesCRCSize.
  destruct (Nat.ltb_spec (length (mg ++ bs ++ crc)) 5) as [H|_]; [rewrite !length_app in H; lia|].
  replace (length (mg ++ bs ++ crc) - 4)%nat with (length (mg ++ bs)) by (rewrite !length_app; lia).
  rewrite (app_assoc mg bs crc), take_app_length, drop_app_length.
  unfold Be32, mg. rewrite d_fixed_get by (unfold MagicTombstone; lia). cbn [outcome_bind dB dE DErr].
  rewrite Z.eqb_refl. cbn [negb]. destruct (Nat.ltb_spec (length bs) 1); [lia|].
  unfold crc. rewrite be_val_bytes, Z.mod_small by apply crc32_u32. rewrite Z.eqb_refl. cbn [negb].
  subst bs. rewrite Decode_Encode by assumption. reflexivity.
Qed.
End file.

(** ** Properties *)

(** C29: inserting an interval in a normalised set (sorted, no two intervals
    touching or overlapping) gives a normalised set that covers exactly the
    instants of the old set and of the new interval, unless it panics; and it can
    only panic for an interval that ends at [MaxInt64], when some interval of the set
    lies entirely before it with a gap and another touches or follows it. *)
Theorem intervals_add_correct (l : Intervals) (n : Interval) :
  wf_intervals l -> wf_interval n ->
  match Add l n with
  | Ret out => wf_intervals out /\ forall t, covers out t <-> covers l t \/ Mint n <= t <= Maxt n
  | Panic => Maxt n = MaxInt64 /\ (exists a, In a l /\ Maxt a < Mint n - 1) /\ (exists b, In b l /\ Mint n - 1 <= Maxt b)
  end.
Proof.
  intros Hl Hn. destruct (Add l n) as [out|] eqn:E; [eapply Add_result; eassumption|]. apply Add_panics; assumption.
Qed.

Lemma intervals_add_correct_witness :
  match Add [mkInterval 1 2; mkInterval 10 20; mkInterval 30 40] (mkInterval 3 MaxInt64) with
  | Ret out => wf_intervals out /\ forall t, covers out t <-> covers [mkInterval 1 2; mkInterval 10 20; mkInterval 30 40] t \/ 3 <= t <= MaxInt64
  | Panic => MaxInt64 = MaxInt64 /\ (exists a, In a [mkInterval 1 2; mkInterval 10 20; mkInterval 30 40] /\ Maxt a < 3 - 1)
      /\ (exists b, In b [mkInterval 1 2; mkInterval 10 20; mkInterval 30 40] /\ 3 - 1 <= Maxt b)
  end.
Proof.
  apply (intervals_add_correct _ (mkInterval 3 MaxInt64)).
  - split; repeat constructor; cbn; zlia.
  - repeat split; cbn; zlia.
Defined.

(** C39: inserting in a normalised set panics (an index out of range) exactly
    when the interval ends at [MaxInt64], some interval of the set lies entirely
    before it with a gap, and some interval of the set touches or follows it:
    the end of the merged range is then computed as an absolute index and used
    as an offset. *)
Theorem intervals_add_panics_iff (l : Intervals) (n : Interval) :
  wf_intervals l -> wf_interval n ->
  (Add l n = Panic <->
   Maxt n = MaxInt64 /\ (exists a, In a l /\ Maxt a < Mint n - 1)
   /\ (exists b, In b l /\ Mint n - 1 <= Maxt b)).
Proof. apply Add_panics. Qed.

Lemma intervals_add_panics_iff_witness :
  Add [mkInterval 1 2; mkInterval 10 20] (mkInterval 15 MaxInt64) = Panic.
Proof.
  apply intervals_add_panics_iff.
  - split; repeat constructor; cbn; zlia.
  - repeat split; cbn; zlia.
  - split; [reflexivity|]. split.
    + exists (mkInterval 1 2). split; [left; reflexivity|cbn; lia].
    + exists (mkInterval 10 20). split; [right; left; reflexivity|cbn; lia].
Defined.

Definition wf_tombstones (t : MemTombstones) : Prop :=
  map_Forall (fun ref ivs => wf_group (ref, ivs)) t.

(** C38: whatever order the map is enumerated in, reading the file that
    [WriteFile] wrote gives back the same table and the size of the file. *)
Theorem tombstones_file_roundtrip (V : VarintLib) (VOK : VarintLibOK V)
    (t : MemTombstones) (kvs : list (Z * Intervals)) :
  wf_tombstones t -> Permutation kvs (map_to_list t) ->
  ReadTombstones (WriteFile kvs) = Ret (inr (t, Z.of_nat (length (WriteFile kvs)))).
Proof.
  intros Hw Hp. rewrite <- (list_to_map_to_list t). rewrite <- (list_to_map_proper kvs).
  - apply ReadTombstones_WriteFile.
    + rewrite Hp. apply map_Forall_to_list in Hw. eapply List.Forall_impl; [|exact Hw]. intros [k ivs]. exact id.
    + rewrite Hp. apply NoDup_fst_map_to_list.
  - rewrite Hp. apply NoDup_fst_map_to_list.
  - exact Hp.
Qed.

Lemma tombstones_file_roundtrip_witness :
  ReadTombstones (V := binary_VarintLib) (WriteFile [(7, [mkInterval (-5) 3; mkInterval 9 9])])
  = Ret (inr ({[ 7 := [mkInterval (-5) 3; mkInterval 9 9] ]},
              Z.of_nat (length (WriteFile [(7, [mkInterval (-5) 3; mkInterval 9 9])])))).
Proof.
  apply (tombstones_file_roundtrip binary_VarintLib binary_VarintLibOK).
  - apply map_Forall_singleton. split; [cbn; zlia|]. split; [|discriminate].
    split; repeat constructor; cbn; zlia.
  - rewrite map_to_list_singleton. reflexivity.
Defined.

(** truncating a well-formed table before a time keeps it well-formed and
    leaves of every series exactly the intervals that end at or after that
    time, dropping the series that have none. *)
Theorem truncate_before_correct (t : MemTombstones) (beforeT : Z) :
  wf_tombstones t ->
  wf_tombstones (TruncateBefore t beforeT)
  /\ forall ref, Get (TruncateBefore t beforeT) ref
                 = List.filter (fun iv => beforeT <=? Maxt iv) (Get t ref).
Proof.
  intros Hw. unfold TruncateBefore, Get. split.
  - intros ref ivs. rewrite lookup_omap. destruct (t !! ref) as [l|] eqn:E; [|discriminate]. cbn.
    destruct (Hw ref l E) as (Hr & Hl & _). rewrite truncate_ivs_filter by exact Hl.
    destruct (List.filter _ l) as [|x k] eqn:Ef; [discriminate|]. intros [= <-].
    split; [exact Hr|]. split; [|discriminate]. cbn [snd]. rewrite <- Ef. apply wf_filter. exact Hl.
  - intros ref. rewrite lookup_omap. destruct (t !! ref) as [l|] eqn:E; [|reflexivity]. cbn.
    destruct (Hw ref l E) as (_ & Hl & _). rewrite truncate_ivs_filter by exact Hl.
    destruct (List.filter _ l); reflexivity.
Qed.

(** A file that holds only the magic number and four more bytes makes
    [ReadTombstones] panic: the payload is empty when its first byte is skipped. *)
Lemma read_tombstones_short_panics (V : VarintLib) x :
  ReadTombstones (be_bytes 4 MagicTombstone ++ be_bytes 4 x) = Panic.
Proof. reflexivity. Qed.
