(* ===== verification/Postings.v ===== *)
(** * Postings iterators: [tsdb/index/postings.go]

    The iterators over sorted lists of series references and their algebra:
    lists, big-endian lists, intersection, difference.  [PostingsOps] is the
    Go interface [Postings]; [PostingsOK] is what an implementation promises:
    it refines the ideal iterator over a sorted list.  The combinators are
    proved against the interface, for any implementation of their arguments.

    A method may loop; it takes a fuel and returns [None] when that runs out.
    The contract says that some fuel, and every larger one, is enough. *)

From stdpp Require Import base list numbers strings.
From Stdlib Require Import ZArith Lia Sorted.
From S2P Require Import Prelude.

(** ** The interface *)

Class PostingsOps (S : Type) := {
  pNext : nat -> S -> option (bool * S);
  pSeek : nat -> Z -> S -> option (bool * S);
  pAt : S -> Z;
  pErr : S -> option string
}.

(** [errPostings]; [emptyPostings] is the one without an error. *)
Record errPostings := mkErrPostings { e_err : option string }.
Definition EmptyPostings : errPostings := mkErrPostings None.
Definition ErrPostings (e : string) : errPostings := mkErrPostings (Some e).

#[export] Instance errPostings_ops : PostingsOps errPostings := {|
  pNext := fun _ e => Some (false, e);
  pSeek := fun _ _ e => Some (false, e);
  pAt := fun _ => 0;
  pErr := e_err
|}.

(** ** [ListPostings] *)
Record ListPostings := mkListPostings { lp_list : list Z; lp_cur : Z }.

Definition NewListPostings (list : list Z) : ListPostings := mkListPostings list 0.

Definition lp_Next (it : ListPostings) : bool * ListPostings :=
  match lp_list it with
  | x :: rest => (true, mkListPostings rest x)
  | [] => (false, mkListPostings [] 0)
  end.

(** [slices.BinarySearch] finds the first position that is not below [x]. *)
Definition lp_Seek (x : Z) (it : ListPostings) : bool * ListPostings :=
  if x <=? lp_cur it then (true, it)
  else if (length (lp_list it) =? 0)%nat then (false, it)
  else
    let i := sort_search (length (lp_list it)) (fun i => x <=? nth i (lp_list it) 0) in
    if (i <? length (lp_list it))%nat then
      (true, mkListPostings (drop (i + 1) (lp_list it)) (nth i (lp_list it) 0))
    else (false, mkListPostings [] (lp_cur it)).

Definition lp_Len (it : ListPostings) : nat := length (lp_list it).

#[export] Instance ListPostings_ops : PostingsOps ListPostings := {|
  pNext := fun _ it => Some (lp_Next it);
  pSeek := fun _ x it => Some (lp_Seek x it);
  pAt := lp_cur;
  pErr := fun _ => None
|}.

(** ** [bigEndianPostings] *)
Record bigEndianPostings := mkBigEndianPostings { be_list : list Z; be_cur : Z }.

Definition newBigEndianPostings (list : list Z) : bigEndianPostings := mkBigEndianPostings list 0.

(** [binary.BigEndian.Uint32(list[j:])] *)
Definition be_at (list : list Z) (j : nat) : Z := be_val (take 4 (drop j list)).

Definition be_Next (it : bigEndianPostings) : bool * bigEndianPostings :=
  if (4 <=? length (be_list it))%nat
  then (true, mkBigEndianPostings (drop 4 (be_list it)) (be_at (be_list it) 0))
  else (false, it).

(** The reference sought is compared after truncation to 32 bits. *)
Definition be_Seek (x : Z) (it : bigEndianPostings) : bool * bigEndianPostings :=
  if x <=? be_cur it then (true, it)
  else
    let num := (length (be_list it) / 4)%nat in
    let i := sort_search num (fun i => u32 x <=? be_at (be_list it) (i * 4)) in
    if (i <? num)%nat then
      (true, mkBigEndianPostings (drop (i * 4 + 4) (be_list it)) (be_at (be_list it) (i * 4)))
    else (false, mkBigEndianPostings [] (be_cur it)).

#[export] Instance bigEndianPostings_ops : PostingsOps bigEndianPostings := {|
  pNext := fun _ it => Some (be_Next it);
  pSeek := fun _ x it => Some (be_Seek x it);
  pAt := be_cur;
  pErr := fun _ => None
|}.

(** ** Values of two implementations *)
#[export] Instance sum_ops {A B} `{PostingsOps A} `{PostingsOps B} : PostingsOps (A + B) := {|
  pNext := fun f p => match p with
                      | inl a => '(b, a') ← pNext f a; Some (b, inl a')
                      | inr a => '(b, a') ← pNext f a; Some (b, inr a')
                      end;
  pSeek := fun f x p => match p with
                        | inl a => '(b, a') ← pSeek f x a; Some (b, inl a')
                        | inr a => '(b, a') ← pSeek f x a; Some (b, inr a')
                        end;
  pAt := fun p => match p with inl a => pAt a | inr a => pAt a end;
  pErr := fun p => match p with inl a => pErr a | inr a => pErr a end
|}.

(** ** [ExpandPostings] *)
Section expand.
Context {S : Type} `{PostingsOps S}.

Fixpoint expand_loop (fuel : nat) (p : S) (res : list Z) : option (list Z * S) :=
  match fuel with
  | O => None
  | Datatypes.S f =>
      '(b, p') ← pNext f p;
      if (b : bool) then expand_loop f p' (res ++ [pAt p']) else Some (res, p')
  end.
Definition ExpandPostings (fuel : nat) (p : S) : option (list Z * option string) :=
  '(res, p') ← expand_loop fuel p []; Some (res, pErr p').
End expand.

(** ** [intersectPostings] *)
Section intersect.
Context {S : Type} `{PostingsOps S}.

Record intersectPostings := mkIntersect { i_arr : list S; i_cur : Z }.

Definition newIntersectPostings (its : list S) : intersectPostings := mkIntersect its 0.

(** One run of the inner loop of [doNext]: every member is at [cur], or one has
    gone past it, or one has ended. *)
Inductive pass_result := PassOk | PassRaise (v : Z) | PassFail.

Fixpoint seek_all (fuel : nat) (cur : Z) (arr : list S) : option (pass_result * list S) :=
  match arr with
  | [] => Some (PassOk, [])
  | p :: rest =>
      '(b, p') ← pSeek fuel cur p;
      if (b : bool) then
        if cur <? pAt p' then Some (PassRaise (pAt p'), p' :: rest)
        else '(r, rest') ← seek_all fuel cur rest; Some (r, p' :: rest')
      else Some (PassFail, p' :: rest)
  end.

Fixpoint doNext (fuel : nat) (it : intersectPostings) : option (bool * intersectPostings) :=
  match fuel with
  | O => None
  | Datatypes.S f =>
      '(r, arr') ← seek_all f (i_cur it) (i_arr it);
      match r with
      | PassOk => Some (true, mkIntersect arr' (i_cur it))
      | PassFail => Some (false, mkIntersect arr' (i_cur it))
      | PassRaise v => doNext f (mkIntersect arr' v)
      end
  end.

(** The loop of [Next]: whether all members moved, the members, the largest head. *)
Fixpoint next_all (fuel : nat) (cur : Z) (arr : list S) : option (bool * list S * Z) :=
  match arr with
  | [] => Some (true, [], cur)
  | p :: rest =>
      '(b, p') ← pNext fuel p;
      if (b : bool) then
        '(b', rest', cur') ← next_all fuel (if cur <? pAt p' then pAt p' else cur) rest;
        Some (b', p' :: rest', cur')
      else Some (false, p' :: rest, cur)
  end.

Definition i_Next (fuel : nat) (it : intersectPostings) : option (bool * intersectPostings) :=
  '(b, arr', cur') ← next_all fuel (i_cur it) (i_arr it);
  if (b : bool) then doNext fuel (mkIntersect arr' cur') else Some (false, mkIntersect arr' cur').

Definition i_Seek (fuel : nat) (id : Z) (it : intersectPostings) : option (bool * intersectPostings) :=
  doNext fuel (mkIntersect (i_arr it) id).

Fixpoint i_Err (arr : list S) : option string :=
  match arr with
  | [] => None
  | p :: rest => match pErr p with Some e => Some e | None => i_Err rest end
  end.

#[export] Instance intersectPostings_ops : PostingsOps intersectPostings := {|
  pNext := i_Next;
  pSeek := i_Seek;
  pAt := i_cur;
  pErr := fun it => i_Err (i_arr it)
|}.

(** [Intersect]; [is_empty] is the comparison with [EmptyPostings()]. *)
Definition Intersect (is_empty : S -> bool) (its : list S) : errPostings + (S + intersectPostings) :=
  match its with
  | [] => inl EmptyPostings
  | [p] => inr (inl p)
  | _ => if existsb is_empty its then inl EmptyPostings else inr (inr (newIntersectPostings its))
  end.
End intersect.
Arguments intersectPostings S : clear implicits.

(** ** [removedPostings] *)
Section removed.
Context {F R : Type} `{PostingsOps F} `{PostingsOps R}.

Record removedPostings := mkRemoved {
  rp_full : F; rp_remove : R; rp_cur : Z;
  rp_initialized : bool; rp_fok : bool; rp_rok : bool
}.

Definition newRemovedPostings (full : F) (remove : R) : removedPostings :=
  mkRemoved full remove 0 false false false.

Fixpoint rp_loop (fuel : nat) (full : F) (remove : R) (cur : Z) (fok rok : bool)
    : option (bool * removedPostings) :=
  match fuel with
  | O => None
  | S f =>
      if negb fok then Some (false, mkRemoved full remove cur true fok rok)
      else if negb rok then
        '(fok', full') ← pNext f full;
        Some (true, mkRemoved full' remove (pAt full) true fok' rok)
      else
        let fcur := pAt full in let rcur := pAt remove in
        if fcur <? rcur then
          '(fok', full') ← pNext f full;
          Some (true, mkRemoved full' remove fcur true fok' rok)
        else if rcur <? fcur then
          '(rok', remove') ← pSeek f fcur remove;
          rp_loop f full remove' cur fok rok'
        else
          '(fok', full') ← pNext f full;
          rp_loop f full' remove cur fok' rok
  end.

Definition rp_Next (fuel : nat) (rp : removedPostings) : option (bool * removedPostings) :=
  if rp_initialized rp
  then rp_loop fuel (rp_full rp) (rp_remove rp) (rp_cur rp) (rp_fok rp) (rp_rok rp)
  else
    '(fok, full) ← pNext fuel (rp_full rp);
    '(rok, remove) ← pNext fuel (rp_remove rp);
    rp_loop fuel full remove (rp_cur rp) fok rok.

Definition rp_Seek (fuel : nat) (id : Z) (rp : removedPostings) : option (bool * removedPostings) :=
  if id <=? rp_cur rp then Some (true, rp)
  else
    '(fok, full) ← pSeek fuel id (rp_full rp);
    '(rok, remove) ← pSeek fuel id (rp_remove rp);
    rp_Next fuel (mkRemoved full remove (rp_cur rp) true fok rok).

#[export] Instance removedPostings_ops : PostingsOps removedPostings := {|
  pNext := rp_Next;
  pSeek := rp_Seek;
  pAt := rp_cur;
  pErr := fun rp => match pErr (rp_full rp) with Some e => Some e | None => pErr (rp_remove rp) end
|}.

Definition Without (full_is_empty : F -> bool) (drop_is_empty : R -> bool) (full : F) (drop : R)
    : errPostings + (F + removedPostings) :=
  if full_is_empty full then inl EmptyPostings
  else if drop_is_empty drop then inr (inl full)
  else inr (inr (newRemovedPostings full drop)).
End removed.
Arguments removedPostings F R : clear implicits.

(** ** Fuel *)

(** [m] returns [r] for some fuel and every larger one. *)
Definition yields {A} (m : nat -> option A) (r : A) : Prop :=
  exists N, forall n, (N <= n)%nat -> m n = Some r.

Lemma yields_ret {A} (r : A) : yields (fun _ => Some r) r.
Proof. exists 0%nat. reflexivity. Qed.

Lemma yields_bind {A B} (m : nat -> option A) (k : nat -> A -> option B) a r :
  yields m a -> yields (fun f => k f a) r -> yields (fun f => m f ≫= k f) r.
Proof.
  intros [N1 H1] [N2 H2]. exists (N1 + N2)%nat. intros n Hn. rewrite H1 by lia. cbn. apply H2. lia.
Qed.

Lemma yields_step {A} (m : nat -> option A) r :
  yields m r -> yields (fun n => match n with O => None | Datatypes.S f => m f end) r.
Proof. intros [N H]. exists (Datatypes.S N). intros [|n] Hn; [lia|]. apply H. lia. Qed.

Lemma yields_ext {A} (m1 m2 : nat -> option A) r :
  (forall n, m1 n = m2 n) -> yields m1 r -> yields m2 r.
Proof. intros He [N H]. exists N. intros n Hn. rewrite <- He. apply H. exact Hn. Qed.

Lemma yields_det {A} (m : nat -> option A) r1 r2 : yields m r1 -> yields m r2 -> r1 = r2.
Proof.
  intros [N1 H1] [N2 H2]. specialize (H1 (N1 + N2)%nat ltac:(lia)).
  specialize (H2 (N1 + N2)%nat ltac:(lia)). congruence.
Qed.

(** One bind of a looping method, its first step known to yield. *)
Ltac y_step H := eapply yields_bind; [exact H|]; cbn beta iota.

(** ** Sorted lists of references *)

Definition incr (l : list Z) : Prop := StronglySorted Z.lt l.

Lemma incr_cons_inv c l : incr (c :: l) -> incr l /\ forall z, z ∈ l -> c < z.
Proof.
  intros H. inversion_clear H as [|? ? Hs Hf]. split; [exact Hs|].
  intros z Hz. apply (proj1 (List.Forall_forall _ _) Hf z). apply list_elem_of_In. exact Hz.
Qed.

Lemma incr_cons c l : incr l -> (forall z, z ∈ l -> c < z) -> incr (c :: l).
Proof.
  intros H1 H2. constructor; [exact H1|]. apply List.Forall_forall. intros z Hz. apply H2.
  apply list_elem_of_In. exact Hz.
Qed.

Lemma incr_low c d l : incr (c :: l) -> d < c -> incr (d :: c :: l).
Proof.
  intros H Hd. apply incr_cons; [exact H|]. intros z [->|Hz]%elem_of_cons; [exact Hd|].
  destruct (incr_cons_inv _ _ H) as [_ H2]. specialize (H2 z Hz). lia.
Qed.

Lemma incr_skip c d l : incr (c :: d :: l) -> incr (c :: l).
Proof.
  intros H. destruct (incr_cons_inv _ _ H) as [H1 H2]. apply incr_cons.
  - apply (incr_cons_inv _ _ H1).
  - intros z Hz. apply H2. apply elem_of_cons. auto.
Qed.

(** A sorted list is determined by its elements. *)
Lemma incr_ext l1 l2 : incr l1 -> incr l2 -> (forall z, z ∈ l1 <-> z ∈ l2) -> l1 = l2.
Proof.
  revert l2. induction l1 as [|x l1 IH]; intros [|y l2] H1 H2 He.
  - reflexivity.
  - exfalso. apply (not_elem_of_nil y). apply He. apply elem_of_cons. auto.
  - exfalso. apply (not_elem_of_nil x). apply He. apply elem_of_cons. auto.
  - destruct (incr_cons_inv _ _ H1) as [H1a H1b], (incr_cons_inv _ _ H2) as [H2a H2b].
    assert (x = y) as ->.
    { destruct (proj1 (elem_of_cons _ _ _) (proj1 (He x) ltac:(apply elem_of_cons; auto))) as [|Hx]; [assumption|].
      destruct (proj1 (elem_of_cons _ _ _) (proj2 (He y) ltac:(apply elem_of_cons; auto))) as [|Hy]; [congruence|].
      specialize (H1b _ Hy). specialize (H2b _ Hx). lia. }
    f_equal. apply IH; try assumption. intros z. specialize (He z). rewrite !elem_of_cons in He.
    split; intros Hz.
    + destruct (proj1 He (or_intror Hz)) as [->|]; [specialize (H1b _ Hz); lia|assumption].
    + destruct (proj2 He (or_intror Hz)) as [->|]; [specialize (H2b _ Hz); lia|assumption].
Qed.

(** The ideal [Seek]: skip what is below [x]. *)
Fixpoint drop_lt (x : Z) (l : list Z) : list Z :=
  match l with
  | y :: r => if y <? x then drop_lt x r else l
  | [] => []
  end.

Lemma drop_lt_suffix x l : exists pre, l = pre ++ drop_lt x l /\ Forall (fun y => (x <=? y) = false) pre.
Proof.
  induction l as [|y l (pre & E & H)]; cbn [drop_lt].
  - exists []. auto.
  - destruct (Z.ltb_spec y x).
    + exists (y :: pre). split; [cbn; congruence|]. constructor; [apply Z.leb_gt; assumption|exact H].
    + exists []. auto.
Qed.

Lemma drop_lt_incr x l : incr l -> incr (drop_lt x l).
Proof.
  induction l as [|y l IH]; intros H; cbn [drop_lt]; [constructor|].
  destruct (y <? x); [apply IH, (incr_cons_inv _ _ H)|exact H].
Qed.

Lemma drop_lt_elem x l z : incr l -> z ∈ drop_lt x l <-> z ∈ l /\ x <= z.
Proof.
  induction l as [|y l IH]; intros H; cbn [drop_lt].
  - split; [intros Hz; apply elem_of_nil in Hz; contradiction|tauto].
  - destruct (incr_cons_inv _ _ H) as [H1 H2]. specialize (IH H1).
    destruct (Z.ltb_spec y x); rewrite ?IH, elem_of_cons; split.
    + tauto.
    + intros [[->|?] ?]; [lia|tauto].
    + intros [->|Hz]; [split; [auto|lia]|]. specialize (H2 z Hz). split; [auto|lia].
    + tauto.
Qed.

Lemma drop_lt_head_le x c l : x <= c -> drop_lt x (c :: l) = c :: l.
Proof. intros H. cbn. destruct (Z.ltb_spec c x); [lia|reflexivity]. Qed.

Lemma drop_lt_head_gt x c l : c < x -> drop_lt x (c :: l) = drop_lt x l.
Proof. intros H. cbn. destruct (Z.ltb_spec c x); [reflexivity|lia]. Qed.

Lemma drop_lt_cons x l y r : drop_lt x l = y :: r -> x <= y.
Proof.
  induction l as [|w l IH]; cbn [drop_lt]; [discriminate|].
  destruct (Z.ltb_spec w x); [exact IH|]. intros [= <- <-]. assumption.
Qed.

(** ** The contract

    [Rep s c m l]: the iterator [s] stands at the reference [c] (0 before the
    first), will return [l], and has already been asked, without success, for
    references up to [m]; references sought must not fall in between. *)
Definition wf_abs (maxref c m : Z) (l : list Z) : Prop :=
  0 <= c <= m /\ (l <> [] -> m = c) /\ incr (c :: l) /\ Forall (fun z => z <= maxref) (c :: l).

Class PostingsOK (maxref : Z) (S : Type) `{PostingsOps S} := {
  Rep : S -> Z -> Z -> list Z -> Prop;
  rep_wf : forall s c m l, Rep s c m l -> wf_abs maxref c m l;
  rep_err : forall s c m l, Rep s c m l -> pErr s = None;
  next_cons : forall s c m x l, Rep s c m (x :: l) ->
    exists s', yields (fun f => pNext f s) (true, s') /\ Rep s' x x l /\ pAt s' = x;
  next_nil : forall s c m, Rep s c m [] ->
    exists s' c' m', yields (fun f => pNext f s) (false, s') /\ Rep s' c' m' []
      /\ (c' = 0 \/ c' = c) /\ m' <= m /\ (m = c -> m' = c');
  seek_at : forall s c m l x, Rep s c m l -> 1 <= x <= c ->
    exists s', yields (fun f => pSeek f x s) (true, s') /\ Rep s' c m l /\ pAt s' = c;
  seek_fwd : forall s c m l x, Rep s c m l -> c < x -> m <= x -> x <= maxref ->
    match drop_lt x l with
    | y :: r => exists s', yields (fun f => pSeek f x s) (true, s') /\ Rep s' y y r /\ pAt s' = y
    | [] => exists s' c', yields (fun f => pSeek f x s) (false, s') /\ Rep s' c' x []
              /\ (c' = 0 \/ c' = c)
    end
}.

(** A robust iterator forgets what it was asked for: any reference may be
    sought after it has ended. *)
Class PostingsRobust (maxref : Z) (S : Type) `{PostingsOK maxref S} : Prop :=
  rep_reset : forall s c m, Rep s c m [] -> Rep s c c [].

(** ** Plain lists *)

Lemma drop_split {A} (pre : list A) y r : drop (length pre + 1) (pre ++ y :: r) = r.
Proof. rewrite drop_app_ge by lia. replace (_ - _)%nat with 1%nat by lia. reflexivity. Qed.

Lemma lp_Seek_fwd x list cur : incr list -> cur < x ->
  lp_Seek x (mkListPostings list cur) =
  match drop_lt x list with
  | y :: r => (true, mkListPostings r y)
  | [] => (false, mkListPostings [] cur)
  end.
Proof.
  intros Hs Hc. unfold lp_Seek. cbn [lp_cur lp_list].
  destruct (Z.leb_spec x cur); [lia|]. destruct (Nat.eqb_spec (length list) 0) as [E|_].
  { apply nil_length_inv in E. subst. reflexivity. }
  destruct (drop_lt_suffix x list) as (pre & E & Hpre).
  assert (Hpost : Forall (fun y => (x <=? y) = true) (drop_lt x list)).
  { apply List.Forall_forall. intros z Hz. apply list_elem_of_In in Hz.
    apply drop_lt_elem in Hz; [|exact Hs]. apply Z.leb_le. apply Hz. }
  remember (drop_lt x list) as d eqn:Ed. clear Ed Hs. subst list.
  rewrite (sort_search_split (fun y => x <=? y) 0 pre d Hpre Hpost). destruct d as [|y r].
  - rewrite app_nil_r. destruct (Nat.ltb_spec (length pre) (length pre)); [lia|reflexivity].
  - rewrite length_app. cbn [length].
    destruct (Nat.ltb_spec (length pre) (length pre + Datatypes.S (length r))); [|lia].
    rewrite drop_split, app_nth2, Nat.sub_diag by lia. reflexivity.
Qed.

Lemma wf_abs_live maxref c l :
  0 <= c -> incr (c :: l) -> Forall (fun z => z <= maxref) (c :: l) -> wf_abs maxref c c l.
Proof. intros H1 H2 H3. split; [lia|]. split; [reflexivity|]. split; assumption. Qed.

Lemma wf_abs_next maxref c m x l : wf_abs maxref c m (x :: l) -> wf_abs maxref x x l.
Proof.
  intros (H1 & _ & H2 & H3). destruct (incr_cons_inv _ _ H2) as [H4 H5].
  specialize (H5 x ltac:(apply elem_of_cons; auto)). apply Forall_cons_1 in H3.
  apply wf_abs_live; [lia|exact H4|apply H3].
Qed.

Lemma wf_abs_nil maxref c m : 0 <= c <= m -> c <= maxref -> wf_abs maxref c m [].
Proof.
  intros H1 H2. split; [exact H1|]. split; [congruence|]. split; [repeat constructor|].
  repeat constructor. exact H2.
Qed.

Lemma wf_abs_seek maxref c m x l y r :
  wf_abs maxref c m l -> drop_lt x l = y :: r -> wf_abs maxref y y r.
Proof.
  intros (H1 & _ & H2 & H3) E. destruct (incr_cons_inv _ _ H2) as [H4 H5].
  pose proof (drop_lt_incr x l H4) as H6. rewrite E in H6. destruct (drop_lt_suffix x l) as (pre & El & _).
  rewrite E in El. specialize (H5 y). rewrite El in H5 at 1.
  specialize (H5 ltac:(apply elem_of_app; right; apply elem_of_cons; auto)).
  apply Forall_cons_1 in H3. destruct H3 as [_ H3]. rewrite El in H3. apply Forall_app in H3.
  apply wf_abs_live; [lia|exact H6|apply H3].
Qed.

#[export] Program Instance ListPostings_ok (maxref : Z) : PostingsOK maxref ListPostings := {|
  Rep := fun it c m l => wf_abs maxref c m l /\ lp_list it = l /\ lp_cur it = c
|}.
Next Obligation. intros maxref s c m l H. apply H. Qed.
Next Obligation. reflexivity. Qed.
Next Obligation.
  intros maxref [list cur] c m x l (Hw & E1 & E2). cbn in *. subst.
  eexists. split; [apply yields_ret|]. cbn. split; [|reflexivity]. split; [|auto].
  eapply wf_abs_next; exact Hw.
Qed.
Next Obligation.
  intros maxref [list cur] c m (Hw & E1 & E2). cbn in *. subst. exists (mkListPostings [] 0), 0, 0.
  split; [apply yields_ret|]. cbn. destruct Hw as (H & _ & _ & Hm). apply Forall_cons_1 in Hm.
  repeat split; try lia; auto; repeat constructor; lia.
Qed.
Next Obligation.
  intros maxref [list cur] c m l x (Hw & E1 & E2) Hx. cbn in *. subst.
  exists (mkListPostings l c). split; [|repeat split; apply Hw].
  exists 0%nat. intros _ _. unfold lp_Seek. cbn. destruct (Z.leb_spec x c); [reflexivity|lia].
Qed.
Next Obligation.
  intros maxref [list cur] c m l x (Hw & E1 & E2) Hc Hm Hx. cbn [lp_list lp_cur] in *. subst.
  pose proof (lp_Seek_fwd x l c) as Hs. destruct Hw as (H1 & H2 & H3 & H4).
  specialize (Hs (proj1 (incr_cons_inv _ _ H3)) Hc).
  destruct (drop_lt x l) as [|y r] eqn:E.
  - exists (mkListPostings [] c), c. split; [exists 0%nat; intros; cbn; rewrite Hs; reflexivity|].
    split; [|auto]. split; [|auto]. apply Forall_cons_1 in H4. apply wf_abs_nil; [lia|apply H4].
  - exists (mkListPostings r y). split; [exists 0%nat; intros; cbn; rewrite Hs; reflexivity|].
    split; [|reflexivity]. split; [|auto].
    eapply wf_abs_seek; [|exact E]. split; [exact H1|]. split; [exact H2|]. split; [exact H3|exact H4].
Qed.

#[export] Instance ListPostings_robust maxref : PostingsRobust maxref ListPostings.
Proof.
  intros s c m (Hw & E1 & E2). split; [|auto]. destruct Hw as (H & _ & _ & Hm).
  apply Forall_cons_1 in Hm. apply wf_abs_nil; [lia|apply Hm].
Qed.

(** ** Empty postings *)
#[export] Program Instance errPostings_ok (maxref : Z) : PostingsOK maxref errPostings := {|
  Rep := fun e c m l => e_err e = None /\ c = 0 /\ l = [] /\ 0 <= m /\ 0 <= maxref
|}.
Next Obligation. intros maxref s c m l (_ & -> & -> & H1 & H2). apply wf_abs_nil; lia. Qed.
Next Obligation. intros maxref s c m l H. apply H. Qed.
Next Obligation. intros maxref s c m x l (_ & _ & [=] & _). Qed.
Next Obligation.
  intros maxref s c m (He & -> & _ & Hm & Hr). exists s, 0, 0. split; [apply yields_ret|].
  repeat split; auto; lia.
Qed.
Next Obligation. intros maxref s c m l x (_ & -> & _) Hx. lia. Qed.
Next Obligation.
  intros maxref s c m l x (He & -> & -> & Hm & Hr) H1 H2 H3. cbn. exists s, 0.
  split; [apply yields_ret|]. repeat split; auto; lia.
Qed.

#[export] Instance errPostings_robust maxref : PostingsRobust maxref errPostings.
Proof. intros s c m (He & -> & _ & Hm & Hr). repeat split; auto; lia. Qed.

(** ** Big-endian lists *)

Definition be_encode (l : list Z) : list Z := flat_map (be_bytes 4) l.

Lemma length_be_encode l : length (be_encode l) = (4 * length l)%nat.
Proof. induction l as [|x l IH]; [reflexivity|]. cbn [be_encode flat_map]. rewrite length_app, length_be_bytes.
  fold (be_encode l). rewrite IH. cbn [length]. lia. Qed.

Lemma be_encode_app l1 l2 : be_encode (l1 ++ l2) = be_encode l1 ++ be_encode l2.
Proof. apply flat_map_app. Qed.

Lemma drop_be_encode l i : drop (i * 4) (be_encode l) = be_encode (drop i l).
Proof.
  revert l. induction i as [|i IH]; intros l; [reflexivity|]. destruct l as [|x l]; [reflexivity|].
  cbn [drop be_encode flat_map]. fold (be_encode l). rewrite <- IH.
  replace (Datatypes.S i * 4)%nat with (length (be_bytes 4 x) + i * 4)%nat by (rewrite length_be_bytes; lia).
  apply drop_app_add.
Qed.

Lemma be_at_encode l i : (i < length l)%nat -> Forall is_u32 l -> be_at (be_encode l) (i * 4) = nth i l 0.
Proof.
  intros Hi Hl. unfold be_at. rewrite drop_be_encode. revert i Hi.
  induction Hl as [|x l Hx _ IH]; intros i Hi; cbn [length] in Hi; [lia|]. destruct i as [|i].
  - cbn [drop be_encode flat_map nth]. rewrite take_app_le by (rewrite length_be_bytes; lia).
    rewrite take_ge by (rewrite length_be_bytes; lia). rewrite be_val_bytes. apply Z.mod_small. exact Hx.
  - cbn [drop nth]. apply IH. lia.
Qed.

(** The two list-like iterators search alike. *)
Lemma sort_search_ext_lt n f g : (forall i, (i < n)%nat -> f i = g i) -> sort_search n f = sort_search n g.
Proof.
  intros H. assert (HL : forall fuel i j, (j <= n)%nat -> sort_search_loop fuel f i j = sort_search_loop fuel g i j).
  { induction fuel as [|fuel IH]; intros i j Hj; cbn -[Nat.div Nat.ltb]; [reflexivity|].
    destruct (Nat.ltb_spec i j) as [Hij|]; [|reflexivity]. pose proof (mid_bounds i j Hij).
    rewrite H by lia. rewrite !IH by lia. reflexivity. }
  apply HL. lia.
Qed.

Lemma be_Seek_fwd x l cur : Forall is_u32 l -> incr l -> is_u32 x -> cur < x ->
  be_Seek x (mkBigEndianPostings (be_encode l) cur) =
  match drop_lt x l with
  | y :: r => (true, mkBigEndianPostings (be_encode r) y)
  | [] => (false, mkBigEndianPostings [] cur)
  end.
Proof.
  intros Hu Hs Hx Hc. unfold be_Seek. cbn [be_cur be_list].
  destruct (Z.leb_spec x cur); [lia|].
  assert (Hn : (length (be_encode l) / 4 = length l)%nat).
  { rewrite length_be_encode, Nat.mul_comm. apply Nat.div_mul. lia. }
  rewrite Hn, u32_id by exact Hx.
  rewrite (sort_search_ext_lt _ _ (fun i => x <=? nth i l 0)).
  2: { intros i Hi. rewrite be_at_encode by assumption. reflexivity. }
  destruct (drop_lt_suffix x l) as (pre & E & Hpre).
  assert (Hpost : Forall (fun y => (x <=? y) = true) (drop_lt x l)).
  { apply List.Forall_forall. intros z Hz. apply list_elem_of_In in Hz.
    apply drop_lt_elem in Hz; [|exact Hs]. apply Z.leb_le. apply Hz. }
  remember (drop_lt x l) as d eqn:Ed. clear Ed Hs Hn. subst l.
  rewrite (sort_search_split (fun y => x <=? y) 0 pre d Hpre Hpost). destruct d as [|y r].
  - rewrite app_nil_r. destruct (Nat.ltb_spec (length pre) (length pre)); [lia|reflexivity].
  - rewrite be_at_encode; [|rewrite length_app; cbn [length]; lia|exact Hu].
    rewrite length_app. cbn [length].
    destruct (Nat.ltb_spec (length pre) (length pre + Datatypes.S (length r))); [|lia].
    replace (length pre * 4 + 4)%nat with ((length pre + 1) * 4)%nat by lia.
    rewrite drop_be_encode, drop_split, app_nth2, Nat.sub_diag by lia. reflexivity.
Qed.

Lemma wf_abs_u32 maxref c m l : maxref < 2 ^ 32 -> wf_abs maxref c m l -> Forall is_u32 l.
Proof.
  intros Hm (H1 & _ & H2 & H3). destruct (incr_cons_inv _ _ H2) as [_ H4]. apply Forall_cons_1 in H3.
  destruct H3 as [_ H3]. apply List.Forall_forall. intros z Hz.
  pose proof (proj1 (List.Forall_forall _ _) H3 z Hz). apply list_elem_of_In, H4 in Hz. zlia.
Qed.

#[export] Program Instance bigEndianPostings_ok (maxref : Z) : PostingsOK maxref bigEndianPostings := {|
  Rep := fun it c m l => wf_abs maxref c m l /\ be_list it = be_encode l /\ be_cur it = c
                         /\ maxref < 2 ^ 32
|}.
Next Obligation. intros maxref s c m l H. apply H. Qed.
Next Obligation. reflexivity. Qed.
Next Obligation.
  intros maxref [list cur] c m x l (Hw & E1 & E2 & Hmax). cbn [be_list be_cur] in *. subst.
  pose proof (wf_abs_u32 _ _ _ _ Hmax Hw) as Hu.
  exists (mkBigEndianPostings (be_encode l) x). split; [|split; [|reflexivity]].
  - exists 0%nat. intros n _. cbn [pNext bigEndianPostings_ops]. unfold be_Next. cbn [be_list].
    rewrite length_be_encode. cbn [length]. destruct (Nat.leb_spec 4 (4 * Datatypes.S (length l))); [|lia].
    pose proof (be_at_encode (x :: l) 0 ltac:(cbn [length]; lia) Hu) as Hb. cbn [Nat.mul nth] in Hb. rewrite Hb.
    change 4%nat with (1 * 4)%nat at 1. rewrite (drop_be_encode (x :: l) 1). reflexivity.
  - split; [|auto]. eapply wf_abs_next. exact Hw.
Qed.
Next Obligation.
  intros maxref [list cur] c m (Hw & E1 & E2 & Hmax). cbn in E1, E2. subst.
  exists (mkBigEndianPostings [] c), c, c. split; [apply yields_ret|].
  destruct Hw as (H & _ & _ & Hm). apply Forall_cons_1 in Hm.
  split; [|split; [auto|split; lia]]. split; [apply wf_abs_nil; [lia|apply Hm]|auto].
Qed.
Next Obligation.
  intros maxref [list cur] c m l x (Hw & E1 & E2 & Hmax) Hx. cbn [be_list be_cur] in *. subst.
  exists (mkBigEndianPostings (be_encode l) c). split; [|split; [split; [exact Hw|auto]|reflexivity]].
  exists 0%nat. intros n _. cbn [pSeek bigEndianPostings_ops]. unfold be_Seek. cbn [be_cur].
  destruct (Z.leb_spec x c); [reflexivity|lia].
Qed.
Next Obligation.
  intros maxref [list cur] c m l x (Hw & E1 & E2 & Hmax) Hc Hm Hx. cbn [be_list be_cur] in *. subst.
  pose proof (be_Seek_fwd x l c (wf_abs_u32 _ _ _ _ Hmax Hw)) as Hs. pose proof Hw as Hw'.
  destruct Hw as (H1 & H2 & H3 & H4).
  specialize (Hs (proj1 (incr_cons_inv _ _ H3)) ltac:(zlia) Hc).
  destruct (drop_lt x l) as [|y r] eqn:E.
  - exists (mkBigEndianPostings [] c), c. split; [exists 0%nat; intros; cbn [pSeek bigEndianPostings_ops]; rewrite Hs; reflexivity|].
    split; [|auto]. split; [|auto]. apply Forall_cons_1 in H4. apply wf_abs_nil; [lia|apply H4].
  - exists (mkBigEndianPostings (be_encode r) y).
    split; [exists 0%nat; intros; cbn [pSeek bigEndianPostings_ops]; rewrite Hs; reflexivity|].
    split; [|reflexivity]. split; [|auto]. eapply wf_abs_seek; eassumption.
Qed.

#[export] Instance bigEndianPostings_robust maxref : PostingsRobust maxref bigEndianPostings.
Proof.
  intros s c m (Hw & E1 & E2 & Hmax). split; [|auto]. destruct Hw as (H & _ & _ & Hm).
  apply Forall_cons_1 in Hm. apply wf_abs_nil; [lia|apply Hm].
Qed.

(** ** Either of two implementations *)
Section sum.
Context {maxref : Z} {A B : Type} `{PostingsOK maxref A} `{PostingsOK maxref B}.

Lemma yields_inl {X Y Z} (m : nat -> option (X * Y)) x y (k : Y -> Z) :
  yields m (x, y) -> yields (fun f => '(b, a) ← m f; Some (b, k a)) (x, k y).
Proof. intros Hm. eapply yields_bind; [exact Hm|]. apply yields_ret. Qed.

#[export] Program Instance sum_ok : PostingsOK maxref (A + B) := {|
  Rep := fun p c m l => match p with inl a => Rep a c m l | inr b => Rep b c m l end
|}.
Next Obligation. intros [a|b] c m l Hr; exact (rep_wf _ _ _ _ Hr). Qed.
Next Obligation. intros [a|b] c m l Hr; exact (rep_err _ _ _ _ Hr). Qed.
Next Obligation.
  intros [a|b] c m x l Hr; destruct (next_cons _ _ _ _ _ Hr) as (s' & H3 & H4 & H5);
    (eexists; split; [apply yields_inl; exact H3|]); cbn; auto.
Qed.
Next Obligation.
  intros [a|b] c m Hr; destruct (next_nil _ _ _ Hr) as (s' & c' & m' & H3 & H4);
    (eexists _, c', m'; split; [apply yields_inl; exact H3|]); cbn; auto.
Qed.
Next Obligation.
  intros [a|b] c m l x Hr Hx; destruct (seek_at _ _ _ _ _ Hr Hx) as (s' & H3 & H4 & H5);
    (eexists; split; [apply yields_inl; exact H3|]); cbn; auto.
Qed.
Next Obligation.
  intros [a|b] c m l x Hr H1' H2' H3'; pose proof (seek_fwd _ _ _ _ _ Hr H1' H2' H3') as Hs;
    destruct (drop_lt x l) as [|y r].
  1, 3: destruct Hs as (s' & c' & H3 & H4); (eexists _, c'; split; [apply yields_inl; exact H3|]); exact H4.
  all: destruct Hs as (s' & H3 & H4 & H5); (eexists; split; [apply yields_inl; exact H3|]); cbn; auto.
Qed.

#[export] Instance sum_robust `{!PostingsRobust maxref A} `{!PostingsRobust maxref B} :
  PostingsRobust maxref (A + B).
Proof.
  intros [a|b] c m Hr.
  - exact (rep_reset (S := A) _ _ _ Hr).
  - exact (rep_reset (S := B) _ _ _ Hr).
Qed.
End sum.

(** A [Seek] on an iterator that stands at [c] or has not started. *)
Lemma live_seek {maxref S} {sops : PostingsOps S} {SOK : PostingsOK maxref S} (s : S) c l x :
  Rep s c c l -> 1 <= x <= maxref ->
  match drop_lt x (c :: l) with
  | y :: r => exists s', yields (fun f => pSeek f x s) (true, s') /\ Rep s' y y r /\ pAt s' = y
  | [] => exists s' c', yields (fun f => pSeek f x s) (false, s') /\ Rep s' c' x []
            /\ (c' = 0 \/ c' = c)
  end.
Proof.
  intros Hs Hx. destruct (Z.le_gt_cases x c) as [Hc|Hc].
  - rewrite drop_lt_head_le by exact Hc. apply (seek_at _ _ _ _ _ Hs). lia.
  - rewrite drop_lt_head_gt by lia. apply (seek_fwd _ _ _ _ x Hs); lia.
Qed.

(** ** Intersection

    A member is abstracted to its current reference and what it still returns. *)
Section intersect_ok.
Context {maxref : Z} {S : Type} `{PRob : PostingsRobust maxref S}.

Definition members (cl : Z * list Z) : list Z := fst cl :: snd cl.
Definition stands (s : S) (cl : Z * list Z) : Prop := Rep s (fst cl) (fst cl) (snd cl).
Definition common (cls : list (Z * list Z)) (z : Z) : Prop := Forall (fun cl => z ∈ members cl) cls.
Definition common_rest (cls : list (Z * list Z)) (z : Z) : Prop := Forall (fun cl => z ∈ snd cl) cls.

(** How a member changes when it is only asked for references from [id] on. *)
Definition sub (id : Z) (cl cl' : Z * list Z) : Prop :=
  (forall z, z ∈ members cl' -> z ∈ members cl) /\ (fst cl' = fst cl \/ id <= fst cl').
Definition adv (id : Z) (cl cl' : Z * list Z) : Prop := cl' = (0, []) \/ sub id cl cl'.

Lemma sub_refl id cl : sub id cl cl.
Proof. split; auto. Qed.

Lemma sub_trans id a b c : sub id a b -> sub id b c -> sub id a c.
Proof. intros [H1 H2] [H3 H4]. split; [auto|]. destruct H4 as [->|]; auto. Qed.

Lemma sub_adv id a b c : sub id a b -> adv id b c -> adv id a c.
Proof. intros H1 [->|H2]; [left; reflexivity|right; eapply sub_trans; eassumption]. Qed.

Lemma sub_le id id' a b : id <= id' -> sub id' a b -> sub id a b.
Proof. intros Hi [H1 H2]. split; [exact H1|]. destruct H2; [auto|right; lia]. Qed.

Lemma Forall2_trans {A} (P Q T : A -> A -> Prop) l1 l2 l3 :
  (forall x y z, P x y -> Q y z -> T x z) -> Forall2 P l1 l2 -> Forall2 Q l2 l3 -> Forall2 T l1 l3.
Proof.
  intros Ht H1. revert l3. induction H1 as [|x y l1 l2 Hxy _ IH]; intros l3 H2; inversion_clear H2; constructor; eauto.
Qed.

Lemma Forall2_self {A} (P : A -> A -> Prop) l : (forall x, P x x) -> Forall2 P l l.
Proof. intros Hp. induction l; constructor; auto. Qed.

Lemma stands_wf s cl : stands s cl ->
  0 <= fst cl /\ incr (members cl) /\ Forall (fun z => z <= maxref) (members cl).
Proof. intros Hs. apply rep_wf in Hs. destruct Hs as (H1 & _ & H2 & H3). split; [lia|]. split; assumption. Qed.

Lemma head_least s cl z : stands s cl -> z ∈ members cl -> fst cl <= z.
Proof.
  intros (_ & Hi & _)%stands_wf Hz. apply elem_of_cons in Hz. destruct Hz as [->|Hz]; [lia|].
  destruct (incr_cons_inv _ _ Hi) as [_ H2]. specialize (H2 z Hz). lia.
Qed.

Lemma head_bound s cl : stands s cl -> 0 <= fst cl <= maxref.
Proof. intros (H1 & _ & H2)%stands_wf. apply Forall_cons_1 in H2. split; [exact H1|apply H2]. Qed.

(** A robust iterator answers every [Seek]. *)
Lemma stands_seek s cl x : stands s cl -> 1 <= x <= maxref ->
  match drop_lt x (members cl) with
  | y :: r => exists s', yields (fun f => pSeek f x s) (true, s') /\ stands s' (y, r) /\ pAt s' = y
  | [] => exists s' c', yields (fun f => pSeek f x s) (false, s') /\ stands s' (c', [])
            /\ (c' = 0 \/ c' = fst cl)
  end.
Proof.
  intros Hs Hx. pose proof (live_seek _ _ _ _ Hs Hx) as H1. unfold members.
  destruct (drop_lt x (fst cl :: snd cl)) as [|y r]; [|exact H1]. destruct H1 as (s' & c' & H1 & H2 & H3).
  exists s', c'. split; [exact H1|]. split; [|exact H3]. apply (rep_reset _ _ _ H2).
Qed.

Lemma stands_next_nil s c : stands s (c, []) ->
  exists s' c', yields (fun f => pNext f s) (false, s') /\ stands s' (c', []) /\ (c' = 0 \/ c' = c).
Proof.
  intros Hs. destruct (next_nil _ _ _ Hs) as (s' & c' & m' & H1 & H2 & H3 & _ & H4).
  specialize (H4 eq_refl). cbn in H4. subst m'. exists s', c'. auto.
Qed.

Lemma drop_lt_sub id cur s cl : stands s cl -> id <= cur -> forall y r,
  drop_lt cur (members cl) = y :: r -> sub id cl (y, r).
Proof.
  intros (_ & Hi & _)%stands_wf Hid y r E. split.
  - intros z Hz. unfold members in Hz. cbn in Hz. rewrite <- E in Hz. apply (drop_lt_elem _ _ _ Hi) in Hz. apply Hz.
  - right. cbn. apply drop_lt_cons in E. lia.
Qed.

Lemma fail_sub id c' cl : c' = 0 \/ c' = fst cl -> adv id cl (c', []).
Proof.
  intros [->| ->]; [left; reflexivity|]. right. split; [|auto].
  intros z Hz. unfold members in *. cbn in Hz. apply elem_of_cons in Hz. apply elem_of_cons.
  destruct Hz as [->|Hz]; [auto|]. apply elem_of_nil in Hz. contradiction.
Qed.

(** A member that stands at [cur]. *)
Definition reached (cur : Z) (cl cl' : Z * list Z) : Prop :=
  cur ∈ members cl /\ fst cl' = cur /\ forall z, z ∈ snd cl' <-> z ∈ members cl /\ cur < z.

Lemma reached_drop s cl cur r : stands s cl -> drop_lt cur (members cl) = cur :: r -> reached cur cl (cur, r).
Proof.
  intros (_ & Hi & _)%stands_wf E. pose proof (drop_lt_incr cur _ Hi) as Hr. rewrite E in Hr.
  destruct (incr_cons_inv _ _ Hr) as [_ Hlt]. split; [|split; [reflexivity|]].
  - apply (drop_lt_elem cur _ cur Hi). rewrite E. apply elem_of_cons. auto.
  - intros z. cbn [snd]. split.
    + intros Hz. split; [|apply Hlt, Hz]. apply (drop_lt_elem cur _ z Hi). rewrite E. apply elem_of_cons. auto.
    + intros [Hz Hc]. assert (Hin : z ∈ cur :: r) by (rewrite <- E; apply drop_lt_elem; [exact Hi|split; [exact Hz|lia]]).
      apply elem_of_cons in Hin. destruct Hin as [->|]; [lia|assumption].
Qed.

Lemma reached_all cur cls cls' : Forall2 (reached cur) cls cls' -> cls <> [] ->
  common cls cur /\ Forall (fun cl' => fst cl' = cur) cls'
  /\ forall z, common_rest cls' z <-> common cls z /\ cur < z.
Proof.
  intros Hr Hne. split; [|split].
  - clear Hne. induction Hr as [|cl cl' cls cls' (H1 & _) _ IH]; constructor; assumption.
  - clear Hne. induction Hr as [|cl cl' cls cls' (_ & H1 & _) _ IH]; constructor; assumption.
  - intros z. split.
    + intros Hz. split.
      * clear Hne. induction Hr as [|cl cl' cls cls' (_ & _ & H1) _ IH]; [constructor|].
        apply Forall_cons_1 in Hz. constructor; [apply H1, Hz|apply IH, Hz].
      * inversion Hr as [|cl cl' ? ? (_ & _ & H1)]; subst; [congruence|]. apply Forall_cons_1 in Hz. apply H1, Hz.
    + intros [Hz Hc]. clear Hne. induction Hr as [|cl cl' cls cls' (_ & _ & H1) _ IH]; [constructor|].
      apply Forall_cons_1 in Hz. constructor; [apply H1; split; [apply Hz|exact Hc]|apply IH, Hz].
Qed.

(** One pass of the inner loop of [doNext]. *)
Lemma seek_all_spec id cur arr cls :
  Forall2 stands arr cls -> 1 <= cur <= maxref -> id <= cur ->
  exists r arr' cls', yields (fun f => seek_all f cur arr) (r, arr') /\ Forall2 stands arr' cls' /\
  match r with
  | PassOk => Forall2 (sub id) cls cls' /\ Forall2 (reached cur) cls cls'
  | PassRaise v => Forall2 (sub id) cls cls' /\ cur < v <= maxref
              /\ (forall z, common cls z -> cur <= z -> v <= z /\ common cls' z)
  | PassFail => Forall2 (adv id) cls cls' /\ (forall z, common cls z -> z < cur)
              /\ Exists (fun cl' => snd cl' = []) cls'
  end.
Proof.
  intros Hs Hcur Hid. induction Hs as [|s cl arr cls Hs Hss IH].
  - exists PassOk, [], []. split; [apply yields_ret|]. repeat split; constructor.
  - pose proof (stands_wf _ _ Hs) as (_ & Hi & Hb).
    pose proof (stands_seek _ _ cur Hs Hcur) as Hk.
    destruct (drop_lt cur (members cl)) as [|y r] eqn:E.
    + destruct Hk as (s' & c' & Hy & Hs' & Hc'). exists PassFail, (s' :: arr), ((c', []) :: cls). split.
      { cbn [seek_all]. eapply yields_bind; [exact Hy|]. apply yields_ret. }
      split; [constructor; assumption|]. split.
      { constructor; [apply fail_sub; exact Hc'|]. apply Forall2_self. intros x. right. apply sub_refl. }
      split; [|left; reflexivity]. intros z Hz. apply Forall_cons_1 in Hz. destruct Hz as [Hz _].
      destruct (Z.lt_ge_cases z cur); [assumption|]. exfalso. apply (not_elem_of_nil z). rewrite <- E.
      apply drop_lt_elem; auto.
    + destruct Hk as (s' & Hy & Hs' & Hat). pose proof (drop_lt_cons _ _ _ _ E) as Hyc.
      pose proof (drop_lt_sub id cur _ _ Hs Hid _ _ E) as Hsub.
      destruct (Z.ltb_spec cur y) as [Hlt|Hge].
      * exists (PassRaise y), (s' :: arr), ((y, r) :: cls). split.
        { cbn [seek_all]. eapply yields_bind; [exact Hy|]. cbn beta iota. rewrite Hat.
          destruct (Z.ltb_spec cur y); [apply yields_ret|lia]. }
        split; [constructor; assumption|].
        split; [constructor; [exact Hsub|apply Forall2_self; apply sub_refl]|]. split.
        { pose proof (head_bound _ _ Hs'). cbn in *. lia. }
        intros z Hz Hzc. apply Forall_cons_1 in Hz. destruct Hz as [Hz Hz'].
        assert (Hin : z ∈ members (y, r)) by (unfold members; cbn; rewrite <- E; apply drop_lt_elem; auto).
        split; [apply (head_least _ _ _ Hs' Hin)|]. constructor; assumption.
      * assert (Ey : y = cur) by lia. rewrite Ey in *. clear y Ey. destruct IH as (res & arr' & cls' & Hy' & Hss' & IH).
        exists res, (s' :: arr'), ((cur, r) :: cls'). split.
        { cbn [seek_all]. eapply yields_bind; [exact Hy|]. cbn. rewrite Hat, Z.ltb_irrefl.
          eapply yields_bind; [exact Hy'|]. apply yields_ret. }
        split; [constructor; assumption|]. destruct res as [|v|].
        -- destruct IH as (IH1 & IH2). split; constructor; try assumption.
           eapply reached_drop; eassumption.
        -- destruct IH as (IH1 & IH2 & IH3). split; [constructor; assumption|]. split; [exact IH2|].
           intros z Hz Hzc. apply Forall_cons_1 in Hz. destruct Hz as [Hz Hz'].
           destruct (IH3 z Hz' Hzc) as [H1 H2]. split; [exact H1|]. constructor; [|exact H2].
           unfold members. cbn. rewrite <- E. apply drop_lt_elem; auto.
        -- destruct IH as (IH1 & IH2 & IH3). split; [constructor; [right; exact Hsub|exact IH1]|].
           split; [|right; exact IH3]. intros z Hz. apply Forall_cons_1 in Hz. apply IH2, Hz.
Qed.

Lemma common_sub id cls cls' z : Forall2 (sub id) cls cls' -> common cls' z -> common cls z.
Proof.
  intros Hsub. induction Hsub as [|cl cl' cls cls' [Hs _] _ IH]; intros Hz; [constructor|].
  apply Forall_cons_1 in Hz. constructor; [apply Hs, Hz|apply IH, Hz].
Qed.

(** The loop ends: every round raises the reference sought, which is bounded. *)
Lemma doNext_spec id cur arr cls :
  Forall2 stands arr cls -> cls <> [] -> 1 <= cur <= maxref -> id <= cur ->
  exists b it' cls', yields (fun f => doNext f (mkIntersect arr cur)) (b, it')
    /\ Forall2 stands (i_arr it') cls' /\ 1 <= i_cur it' <= maxref /\
  if (b : bool) then
    Forall2 (sub id) cls cls' /\ cur <= i_cur it' /\ common cls (i_cur it')
    /\ (forall z, common cls z -> cur <= z -> i_cur it' <= z)
    /\ Forall (fun cl' => fst cl' = i_cur it') cls'
    /\ (forall z, common_rest cls' z <-> common cls z /\ i_cur it' < z)
  else Forall2 (adv id) cls cls' /\ (forall z, common cls z -> z < cur)
       /\ Exists (fun cl' => snd cl' = []) cls'.
Proof.
  remember (Z.to_nat (maxref - cur)) as k eqn:Ek. revert cur arr cls Ek.
  induction k as [k IH] using lt_wf_ind. intros cur arr cls -> Hs Hne Hcur Hid.
  destruct (seek_all_spec id cur arr cls Hs Hcur Hid) as (r & arr' & cls1 & Hy & Hs1 & Hr).
  assert (Hstep : forall res,
    yields (fun f => match r with
      | PassOk => Some (true, mkIntersect arr' cur)
      | PassRaise v => doNext f (mkIntersect arr' v)
      | PassFail => Some (false, mkIntersect arr' cur) end) res ->
    yields (fun f => doNext f (mkIntersect arr cur)) res).
  { intros res Hres. eapply yields_ext; [|apply (yields_step (fun f =>
      '(r, arr') ← seek_all f cur arr;
      match r with
      | PassOk => Some (true, mkIntersect arr' cur)
      | PassFail => Some (false, mkIntersect arr' cur)
      | PassRaise v => doNext f (mkIntersect arr' v) end) res)].
    - intros [|n]; reflexivity.
    - eapply yields_bind; [exact Hy|]. eapply yields_ext; [|exact Hres]. intros n. destruct r; reflexivity. }
  destruct r as [|v|].
  - destruct Hr as (Hsub & Hreach). exists true, (mkIntersect arr' cur), cls1.
    split; [apply Hstep, yields_ret|]. cbn [i_arr i_cur]. split; [exact Hs1|]. split; [exact Hcur|].
    destruct (reached_all _ _ _ Hreach Hne) as (H1 & H2 & H3).
    split; [exact Hsub|]. split; [lia|]. split; [exact H1|]. split; [auto|]. split; [exact H2|exact H3].
  - destruct Hr as (Hsub & Hv & Hcom).
    destruct (IH (Z.to_nat (maxref - v)) ltac:(lia) v arr' cls1 eq_refl Hs1) as (b & it' & cls' & Hy' & Hs' & Hi' & Hb).
    { intros ->. inversion Hsub. congruence. }
    { lia. } { lia. }
    exists b, it', cls'. split; [apply Hstep; exact Hy'|]. split; [exact Hs'|]. split; [exact Hi'|].
    destruct b.
    + destruct Hb as (B1 & B2 & B3 & B4 & B5 & B6). split; [eapply Forall2_trans; [apply sub_trans| |]; eassumption|].
      split; [lia|]. split; [eapply common_sub; eassumption|]. split; [|split; [exact B5|]].
      * intros z Hz Hzc. destruct (Hcom z Hz Hzc). auto.
      * intros z. rewrite B6. split; intros [Hz Hlt]; (split; [|exact Hlt]).
        -- eapply common_sub; eassumption.
        -- apply Hcom; [exact Hz|lia].
    + destruct Hb as (B1 & B2 & B3). split; [eapply Forall2_trans; [apply sub_adv| |]; eassumption|].
      split; [|exact B3]. intros z Hz. destruct (Z.lt_ge_cases z cur) as [|Hge]; [assumption|].
      destruct (Hcom z Hz Hge) as [H1 H2]. specialize (B2 z H2). lia.
  - destruct Hr as (Hadv & Hcom & Hex). exists false, (mkIntersect arr' cur), cls1.
    split; [apply Hstep, yields_ret|]. cbn [i_arr i_cur]. auto.
Qed.

(** The loop of [Next]. *)
Lemma next_all_spec id cur arr cls :
  Forall2 stands arr cls -> 0 <= cur <= maxref -> Forall (fun cl => id <= fst cl + 1) cls ->
  exists b arr' cur' cls', yields (fun f => next_all f cur arr) (b, arr', cur')
    /\ Forall2 stands arr' cls' /\ cur <= cur' <= maxref /\
  if (b : bool) then
    Forall2 (sub id) cls cls' /\ Forall2 (fun cl cl' => members cl' = snd cl) cls cls'
    /\ Forall (fun cl' => 1 <= cur') cls' /\ (forall z, cur <= z -> common cls' z -> cur' <= z)
  else Forall2 (adv id) cls cls' /\ Exists (fun cl => snd cl = []) cls /\ Exists (fun cl' => snd cl' = []) cls'.
Proof.
  intros Hs. revert cur. induction Hs as [|s cl arr cls Hs Hss IH]; intros cur Hcur Hid.
  - exists true, [], cur, []. split; [apply yields_ret|]. split; [constructor|]. split; [lia|].
    repeat split; try constructor. auto.
  - apply Forall_cons_1 in Hid. destruct Hid as [Hid Hid'].
    destruct cl as [c [|x l]].
    + destruct (stands_next_nil _ _ Hs) as (s' & c' & Hy & Hs' & Hc').
      exists false, (s' :: arr), cur, ((c', []) :: cls). split.
      { cbn [next_all]. eapply yields_bind; [exact Hy|]. apply yields_ret. }
      split; [constructor; assumption|]. split; [lia|]. split.
      { constructor; [apply fail_sub; exact Hc'|]. apply Forall2_self. intros z. right. apply sub_refl. }
      split; left; reflexivity.
    + destruct (next_cons _ _ _ _ _ Hs) as (s' & Hy & Hs' & Hat). change (stands s' (x, l)) in Hs'.
      assert (Hsub : sub id (c, x :: l) (x, l)).
      { split; [intros z Hz; apply elem_of_cons; right; exact Hz|]. right. cbn in *.
        destruct (stands_wf _ _ Hs) as (_ & Hi & _). destruct (incr_cons_inv _ _ Hi) as [_ Hlt].
        specialize (Hlt x ltac:(apply elem_of_cons; auto)). cbn in Hlt. lia. }
      pose proof (head_bound _ _ Hs) as Hcb. pose proof (head_bound _ _ Hs') as Hxb. cbn in Hcb, Hxb.
      assert (Hx1 : 1 <= x).
      { destruct (stands_wf _ _ Hs) as (_ & Hi & _). destruct (incr_cons_inv _ _ Hi) as [_ Hlt].
        specialize (Hlt x ltac:(apply elem_of_cons; auto)). cbn in Hlt. lia. }
      set (cur1 := if cur <? x then x else cur).
      assert (Hcur1 : cur <= cur1 <= maxref /\ x <= cur1).
      { subst cur1. destruct (Z.ltb_spec cur x); lia. }
      destruct (IH cur1 ltac:(lia) Hid') as (b & arr' & cur' & cls' & Hy' & Hss' & Hcur' & Hb).
      exists b, (s' :: arr'), cur', ((x, l) :: cls'). split.
      { cbn [next_all]. eapply yields_bind; [exact Hy|]. cbn. rewrite Hat. fold cur1.
        eapply yields_bind; [exact Hy'|]. apply yields_ret. }
      split; [constructor; assumption|]. split; [lia|]. destruct b.
      * destruct Hb as (B1 & B2 & B3 & B4). split; [constructor; assumption|].
        split; [constructor; [reflexivity|assumption]|]. split; [constructor; [lia|assumption]|].
        intros z Hz Hc. apply Forall_cons_1 in Hc. destruct Hc as [Hc1 Hc2]. apply B4; [|exact Hc2].
        pose proof (head_least _ _ _ Hs' Hc1). cbn in *. subst cur1. destruct (cur <? x); lia.
      * destruct Hb as (B1 & B2 & B3). split; [constructor; [right; exact Hsub|exact B1]|].
        split; right; assumption.
Qed.

(** What the members say about the intersection: all stand at [c] and [l] is
    what they have in common, or nothing is left. *)
Definition meets (cls : list (Z * list Z)) (icur c : Z) (l : list Z) : Prop :=
  (Forall (fun cl => fst cl = c) cls /\ (forall z, z ∈ l <-> common_rest cls z) /\ (l <> [] -> icur = c))
  \/ (c = 0 /\ l = [] /\ forall z, 1 <= z -> ~ common cls z).

(** Failing leaves the intersection in one of the two situations. *)
Lemma fail_meets arr cls cls' id c icur :
  Forall2 stands arr cls' -> Forall (fun cl => fst cl = c) cls -> c < id -> 0 <= c ->
  Forall2 (adv id) cls cls' -> Exists (fun cl' => snd cl' = []) cls' ->
  (forall z, common cls' z -> z < id) ->
  exists c', (c' = 0 \/ c' = c) /\ meets cls' icur c' [].
Proof.
  intros Hs Hc Hid Hc0 Hadv Hex Hlt.
  assert (Hrest : forall z, z ∈ [] <-> common_rest cls' z).
  { intros z. split; [intros Hz; apply elem_of_nil in Hz; contradiction|]. intros Hz. exfalso.
    clear -Hex Hz. induction Hex as [cl cls' He|cl cls' _ IH]; apply Forall_cons_1 in Hz; [|apply IH, Hz].
    rewrite He in Hz. apply (not_elem_of_nil z), Hz. }
  destruct (decide (1 <= c /\ Forall (fun cl => fst cl = c) cls')) as [[H1 H2]|Hn].
  - exists c. split; [auto|]. left. split; [exact H2|]. split; [exact Hrest|congruence].
  - exists 0. split; [auto|]. right. split; [reflexivity|]. split; [reflexivity|]. intros z Hz Hcom. apply Hn.
    specialize (Hlt z Hcom).
    assert (Hall : Forall (fun cl' => fst cl' = c /\ (snd cl' = [] -> z = c)) cls').
    { clear Hex Hrest Hn. revert arr Hs Hcom. induction Hadv as [|cl cl' cls cls' Ha _ IH]; intros arr Hs Hcom; [constructor|].
      inversion_clear Hs as [|s ? ? ? Hs1 Hs2]. apply Forall_cons_1 in Hc, Hcom.
      destruct Hc as [Hc1 Hc2], Hcom as [Hz1 Hz2]. constructor; [|eapply IH; eassumption].
      pose proof (head_least _ _ _ Hs1 Hz1). destruct Ha as [->|[Ha1 Ha2]].
      - unfold members in Hz1. cbn in Hz1. apply elem_of_cons in Hz1. destruct Hz1 as [->|Hz1]; [lia|]. apply elem_of_nil in Hz1. contradiction.
      - assert (fst cl' = c) by lia. split; [assumption|]. intros E. unfold members in Hz1. rewrite E in Hz1.
        apply elem_of_cons in Hz1. destruct Hz1 as [->|Hz1]; [assumption|]. apply elem_of_nil in Hz1. contradiction. }
    split; [|eapply List.Forall_impl; [|exact Hall]; intros ? [? _]; assumption].
    assert (z = c) as <-; [|exact Hz]. clear -Hall Hex.
    induction Hex as [cl cls' He|cl cls' _ IH]; apply Forall_cons_1 in Hall; [apply Hall; exact He|apply IH, Hall].
Qed.

Lemma common_heads cls c : Forall (fun cl => fst cl = c) cls ->
  common cls c /\ forall z, z <> c -> common cls z <-> common_rest cls z.
Proof.
  intros Hc. split.
  - eapply List.Forall_impl; [|exact Hc]. intros cl <-. apply elem_of_cons. auto.
  - intros z Hz. unfold common, common_rest. rewrite !List.Forall_forall. rewrite List.Forall_forall in Hc.
    split; intros Hf cl Hin; specialize (Hf cl Hin); specialize (Hc cl Hin).
    + apply elem_of_cons in Hf. destruct Hf; [congruence|assumption].
    + apply elem_of_cons. auto.
Qed.

Lemma common_shift cls cls' : Forall2 (fun cl cl' => members cl' = snd cl) cls cls' ->
  forall z, common cls' z <-> common_rest cls z.
Proof.
  intros Hs z. induction Hs as [|cl cl' cls cls' E _ IH]; [split; constructor|].
  unfold common, common_rest in *. rewrite !Forall_cons, IH, E. reflexivity.
Qed.

(** An intersection that has nothing left never finds anything again. *)
Lemma dead_adv id cls cls' : cls <> [] -> Forall2 (adv id) cls cls' ->
  (forall z, 1 <= z -> ~ common cls z) -> forall z, 1 <= z -> ~ common cls' z.
Proof.
  intros _ Hadv Hd z Hz Hc. apply (Hd z Hz). clear Hd.
  induction Hadv as [|cl cl' cls cls' Ha _ IH]; [constructor|]. apply Forall_cons_1 in Hc.
  destruct Hc as [Hc1 Hc2]. constructor; [|apply IH, Hc2]. destruct Ha as [->|[Ha _]]; [|apply Ha, Hc1].
  unfold members in Hc1. cbn in Hc1. apply elem_of_cons in Hc1.
  destruct Hc1 as [->|Hc1]; [lia|]. apply elem_of_nil in Hc1. contradiction.
Qed.

Lemma ended_member cls cls' c z : Forall (fun cl => fst cl = c) cls -> 0 <= c ->
  Forall2 (adv (c + 1)) cls cls' -> Exists (fun cl => snd cl = []) cls -> common cls' z -> z < c + 1.
Proof.
  intros Hc Hc0 Hadv Hex. revert Hc. induction Hadv as [|cl cl' cls cls' Ha _ IH]; intros Hc Hz.
  - inversion Hex.
  - apply Forall_cons_1 in Hc, Hz. destruct Hc as [Hc1 Hc2], Hz as [Hz1 Hz2].
    inversion_clear Hex as [? ? He|? ? He]; [|apply IH; assumption].
    destruct Ha as [->|[Ha _]].
    + unfold members in Hz1. cbn in Hz1. apply elem_of_cons in Hz1. destruct Hz1 as [->|Hz1]; [lia|].
      apply elem_of_nil in Hz1. contradiction.
    + apply Ha in Hz1. unfold members in Hz1. rewrite He in Hz1. apply elem_of_cons in Hz1.
      destruct Hz1 as [->|Hz1]; [lia|]. apply elem_of_nil in Hz1. contradiction.
Qed.

Lemma rest_not_ended cls z : common_rest cls z -> Exists (fun cl => snd cl = []) cls -> False.
Proof.
  intros Hz Hex. induction Hex as [cl cls He|cl cls _ IH]; apply Forall_cons_1 in Hz; [|apply IH, Hz].
  rewrite He in Hz. apply (not_elem_of_nil z), Hz.
Qed.

Lemma stands_nil arr cls : Forall2 stands arr cls -> arr <> [] -> cls <> [].
Proof. intros Hs Hne ->. inversion Hs. congruence. Qed.

Lemma stands_nonneg arr cls : Forall2 stands arr cls -> Forall (fun cl => 0 <= fst cl + 1) cls.
Proof. induction 1 as [|s cl arr cls Hs _ IH]; constructor; [|exact IH]. apply head_bound in Hs. lia. Qed.

Definition RepI (it : intersectPostings S) (c m : Z) (l : list Z) : Prop :=
  wf_abs maxref c m l /\ 0 <= i_cur it <= maxref
  /\ exists cls, cls <> [] /\ Forall2 stands (i_arr it) cls /\ meets cls (i_cur it) c l.

Lemma RepI_nil it c m cls icur : 0 <= c <= m -> c <= maxref -> 0 <= i_cur it <= maxref ->
  Forall2 stands (i_arr it) cls -> cls <> [] -> meets cls icur c [] -> RepI it c m [].
Proof.
  intros H1 H2 H3 H4 H5 H6. split; [apply wf_abs_nil; assumption|].
  split; [exact H3|]. exists cls. split; [exact H5|]. split; [exact H4|].
  destruct H6 as [(H6 & H7 & _)|H6]; [left|right; exact H6].
  split; [exact H6|]. split; [exact H7|congruence].
Qed.

(** A successful [doNext] from a state where what is common from [cur] on is [y :: r]. *)
Lemma found_rep cls it' cls' cur y r m :
  wf_abs maxref y y r -> cls <> [] ->
  (forall z, common cls z /\ cur <= z <-> z ∈ y :: r) ->
  Forall2 stands (i_arr it') cls' -> 1 <= i_cur it' <= maxref ->
  Forall2 (sub m) cls cls' -> cur <= i_cur it' -> common cls (i_cur it') ->
  (forall z, common cls z -> cur <= z -> i_cur it' <= z) ->
  Forall (fun cl' => fst cl' = i_cur it') cls' ->
  (forall z, common_rest cls' z <-> common cls z /\ i_cur it' < z) ->
  RepI it' y y r /\ i_cur it' = y.
Proof.
  intros Hw Hne Hiff Hs Hic B1 B2 B3 B4 B5 B6.
  pose proof Hw as (_ & _ & Hi & _). destruct (incr_cons_inv _ _ Hi) as [_ Hyr].
  assert (Ey : i_cur it' = y).
  { destruct (proj2 (Hiff y) ltac:(apply elem_of_cons; auto)) as [Hy1 Hy2].
    specialize (B4 y Hy1 Hy2). pose proof (proj1 (Hiff _) (conj B3 B2)) as Hin. apply elem_of_cons in Hin.
    destruct Hin as [|Hin]; [assumption|]. specialize (Hyr _ Hin). lia. }
  split; [|exact Ey]. split; [exact Hw|]. split; [lia|]. exists cls'.
  split; [intros ->; inversion B1; congruence|]. split; [exact Hs|]. left. rewrite Ey in *.
  split; [exact B5|]. split; [|reflexivity]. intros z. rewrite B6. split.
  - intros Hz. specialize (Hyr z Hz). split; [|exact Hyr]. apply Hiff. apply elem_of_cons. auto.
  - intros [Hz Hlt]. assert (Hin : z ∈ y :: r) by (apply Hiff; split; [exact Hz|lia]). apply elem_of_cons in Hin.
    destruct Hin as [->|]; [lia|assumption].
Qed.

Lemma adv_nonempty {P : Z * list Z -> Z * list Z -> Prop} cls cls' : Forall2 P cls cls' -> cls <> [] -> cls' <> [].
Proof. intros Hp Hne ->. inversion Hp. congruence. Qed.

(** The four obligations of the contract. *)
Lemma i_next_cons it c m x l : RepI it c m (x :: l) ->
  exists it', yields (fun f => i_Next f it) (true, it') /\ RepI it' x x l /\ i_cur it' = x.
Proof.
  intros (Hw & Hic & cls & Hne & Hs & Hm). destruct Hm as [(Hc & Hl & Hcur)|(_ & [=] & _)].
  specialize (Hcur ltac:(discriminate)). pose proof (wf_abs_next _ _ _ _ _ Hw) as Hwx.
  destruct Hw as (_ & _ & Hi & _). destruct (incr_cons_inv _ _ Hi) as [Hi2 Hcx].
  assert (Hx : x ∈ x :: l) by (apply elem_of_cons; auto).
  destruct (next_all_spec (c + 1) (i_cur it) (i_arr it) cls Hs Hic) as (b & arr' & cur' & cls1 & Hy & Hs1 & Hcur' & Hb).
  { eapply List.Forall_impl; [|exact Hc]. cbn. lia. }
  destruct b; [|exfalso; destruct Hb as (_ & He & _); eapply rest_not_ended; [apply Hl; exact Hx|exact He]].
  destruct Hb as (Hsub & Hsh & H1 & Hle). pose proof (common_shift _ _ Hsh) as Hcom.
  pose proof (adv_nonempty _ _ Hsub Hne) as Hne1.
  assert (Hle' : forall z, z ∈ x :: l -> cur' <= z).
  { intros z Hz. apply Hle; [rewrite Hcur; specialize (Hcx z Hz); lia|]. apply Hcom, Hl, Hz. }
  assert (Hge1 : 1 <= cur') by (destruct cls1; [congruence|apply (Forall_inv H1)]).
  destruct (doNext_spec 1 cur' arr' cls1 Hs1 Hne1) as (b & it' & cls2 & Hy2 & Hs2 & Hi2' & Hb2); [lia|lia|].
  destruct b.
  2: { exfalso. destruct Hb2 as (_ & H2 & _). specialize (H2 x ltac:(apply Hcom, Hl, Hx)).
       specialize (Hle' x Hx). lia. }
  destruct Hb2 as (B1 & B2 & B3 & B4 & B5 & B6).
  exists it'. split; [unfold i_Next; y_step Hy; exact Hy2|].
  eapply found_rep; try eassumption. intros z. rewrite Hcom, <- Hl. split; [tauto|auto].
Qed.

(** From a state with nothing left in common, nothing is found. *)
Lemma doNext_dead cur arr cls : Forall2 stands arr cls -> cls <> [] -> 1 <= cur <= maxref ->
  (forall z, 1 <= z -> ~ common cls z) ->
  exists it' cls', yields (fun f => doNext f (mkIntersect arr cur)) (false, it')
    /\ Forall2 stands (i_arr it') cls' /\ cls' <> [] /\ 1 <= i_cur it' <= maxref /\ meets cls' 0 0 [].
Proof.
  intros Hs Hne Hcur Hd. destruct (doNext_spec 1 cur arr cls Hs Hne Hcur) as (b & it' & cls' & Hy & Hs' & Hi & Hb); [lia|].
  destruct b.
  { exfalso. destruct Hb as (_ & _ & B3 & _). apply (Hd (i_cur it')); [lia|exact B3]. }
  destruct Hb as (B1 & _). exists it', cls'. split; [exact Hy|]. split; [exact Hs'|].
  split; [eapply adv_nonempty; eassumption|]. split; [exact Hi|]. right.
  split; [reflexivity|]. split; [reflexivity|]. eapply dead_adv; eassumption.
Qed.

Lemma no_common cls : (forall z, z ∈ [] <-> common_rest cls z) -> forall z, ~ common_rest cls z.
Proof. intros Hl z Hz. apply Hl in Hz. apply elem_of_nil in Hz. exact Hz. Qed.

Lemma i_next_nil it c m : RepI it c m [] ->
  exists it' c' m', yields (fun f => i_Next f it) (false, it') /\ RepI it' c' m' []
    /\ (c' = 0 \/ c' = c) /\ m' <= m /\ (m = c -> m' = c').
Proof.
  intros (Hw & Hic & cls & Hne & Hs & Hm).
  assert (Hcm : 0 <= c <= m /\ c <= maxref).
  { destruct Hw as (H1 & _ & _ & H2). apply Forall_cons_1 in H2. split; [exact H1|apply H2]. }
  assert (Hgoal : forall it' c' cls' icur, yields (fun f => i_Next f it) (false, it') ->
    Forall2 stands (i_arr it') cls' -> cls' <> [] -> 0 <= i_cur it' <= maxref -> (c' = 0 \/ c' = c) ->
    meets cls' icur c' [] -> exists it' c' m', yields (fun f => i_Next f it) (false, it') /\ RepI it' c' m' []
    /\ (c' = 0 \/ c' = c) /\ m' <= m /\ (m = c -> m' = c')).
  { intros it' c' cls' icur H1 H2 H3 H4 H5 H6. exists it', c', c'. split; [exact H1|].
    split; [apply (RepI_nil it' c' c' cls' icur); try assumption; destruct H5; lia|]. split; [exact H5|]. split; [destruct H5; lia|auto]. }
  destruct Hm as [(Hc & Hl & _)|(-> & _ & Hd)].
  - destruct (next_all_spec (c + 1) (i_cur it) (i_arr it) cls Hs Hic) as (b & arr' & cur' & cls1 & Hy & Hs1 & Hcur' & Hb).
    { eapply List.Forall_impl; [|exact Hc]. cbn. lia. }
    destruct b.
    + destruct Hb as (Hsub & Hsh & H1 & Hle). pose proof (common_shift _ _ Hsh) as Hcom.
      pose proof (adv_nonempty _ _ Hsub Hne) as Hne1.
      assert (Hge1 : 1 <= cur') by (destruct cls1; [congruence|apply (Forall_inv H1)]).
      destruct (doNext_dead cur' arr' cls1 Hs1 Hne1) as (it' & cls' & Hy2 & Hs' & Hne' & Hi & Hm'); [lia| |].
      { intros z _ Hz. apply Hcom in Hz. eapply no_common; eassumption. }
      eapply (Hgoal it' 0); try eassumption; [|lia|auto]. unfold i_Next. y_step Hy. exact Hy2.
    + destruct Hb as (Hadv & He1 & He2).
      destruct (fail_meets arr' cls cls1 (c + 1) c 0 Hs1 Hc ltac:(lia) ltac:(lia) Hadv He2) as (c' & Hc' & Hm').
      { intros z. eapply ended_member; try eassumption. lia. }
      eapply (Hgoal (mkIntersect arr' cur') c'); try eassumption;
        [|eapply adv_nonempty; eassumption|cbn; lia].
      unfold i_Next. y_step Hy. apply yields_ret.
  - destruct (next_all_spec 0 (i_cur it) (i_arr it) cls Hs Hic (stands_nonneg _ _ Hs)) as (b & arr' & cur' & cls1 & Hy & Hs1 & Hcur' & Hb).
    destruct b.
    + destruct Hb as (Hsub & Hsh & H1 & Hle). pose proof (adv_nonempty _ _ Hsub Hne) as Hne1.
      assert (Hge1 : 1 <= cur') by (destruct cls1; [congruence|apply (Forall_inv H1)]).
      destruct (doNext_dead cur' arr' cls1 Hs1 Hne1) as (it' & cls' & Hy2 & Hs' & Hne' & Hi & Hm'); [lia| |].
      { intros z Hz Hzc. apply (Hd z Hz). eapply common_sub; eassumption. }
      eapply (Hgoal it' 0); try eassumption; [|lia|auto]. unfold i_Next. y_step Hy. exact Hy2.
    + destruct Hb as (Hadv & _). eapply (Hgoal (mkIntersect arr' cur') 0); try eassumption.
      * unfold i_Next. y_step Hy. apply yields_ret.
      * eapply adv_nonempty; eassumption.
      * cbn. lia.
      * auto.
      * right. split; [reflexivity|]. split; [reflexivity|]. eapply dead_adv; eassumption.
  Unshelve. all: exact 0.
Qed.

Lemma i_seek_at it c m l x : RepI it c m l -> 1 <= x <= c ->
  exists it', yields (fun f => i_Seek f x it) (true, it') /\ RepI it' c m l /\ i_cur it' = c.
Proof.
  intros (Hw & Hic & cls & Hne & Hs & Hm) Hx. destruct Hm as [(Hc & Hl & _)|(-> & _)]; [|lia].
  pose proof (common_heads _ _ Hc) as [Hcc Hcr]. pose proof Hw as (Hcm & _ & Hi & Hb).
  apply Forall_cons_1 in Hb. destruct Hb as [Hcb _]. destruct (incr_cons_inv _ _ Hi) as [_ Hlt].
  destruct (doNext_spec x x (i_arr it) cls Hs Hne) as (b & it' & cls' & Hy & Hs' & Hi' & Hb); [lia|lia|].
  destruct b; [|exfalso; destruct Hb as (_ & H2 & _); specialize (H2 c Hcc); lia].
  destruct Hb as (B1 & B2 & B3 & B4 & B5 & B6). exists it'. split; [exact Hy|].
  assert (Hge : forall z, common cls z -> c <= z).
  { intros z Hz. destruct (Z.eq_dec z c); [lia|]. apply Hcr, Hl, Hlt in Hz; [|assumption]. lia. }
  assert (Ec : i_cur it' = c).
  { specialize (B4 c Hcc ltac:(lia)). specialize (Hge _ B3). lia. }
  split; [|exact Ec]. split; [exact Hw|]. split; [lia|]. exists cls'.
  split; [eapply adv_nonempty; eassumption|]. split; [exact Hs'|]. left. rewrite Ec in *. split; [exact B5|].
  split; [|reflexivity]. intros z. rewrite B6. split.
  - intros Hz. specialize (Hlt z Hz). split; [|exact Hlt]. apply Hcr; [lia|]. apply Hl, Hz.
  - intros [Hz Hzc]. apply Hl, Hcr; [lia|exact Hz].
Qed.

Lemma i_seek_fwd it c m l x : RepI it c m l -> c < x -> m <= x -> x <= maxref ->
  match drop_lt x l with
  | y :: r => exists it', yields (fun f => i_Seek f x it) (true, it') /\ RepI it' y y r /\ i_cur it' = y
  | [] => exists it' c', yields (fun f => i_Seek f x it) (false, it') /\ RepI it' c' x []
            /\ (c' = 0 \/ c' = c)
  end.
Proof.
  intros (Hw & Hic & cls & Hne & Hs & Hm) Hx Hmx Hmax. pose proof Hw as (Hcm & _ & Hi & _).
  destruct (incr_cons_inv _ _ Hi) as [Hil _].
  destruct Hm as [(Hc & Hl & _)|(-> & -> & Hd)].
  2: { destruct (doNext_dead x (i_arr it) cls Hs Hne) as (it' & cls' & Hy & Hs' & Hne' & Hi' & Hm'); [lia|exact Hd|].
       exists it', 0. split; [exact Hy|]. split; [|auto]. eapply RepI_nil; try eassumption; lia. }
  pose proof (common_heads _ _ Hc) as [_ Hcr].
  assert (Hiff : forall z, common cls z /\ x <= z <-> z ∈ drop_lt x l).
  { intros z. rewrite drop_lt_elem by exact Hil. rewrite Hl. split; intros [H1 H2]; (split; [|exact H2]);
      (apply Hcr; [lia|exact H1]). }
  destruct (doNext_spec x x (i_arr it) cls Hs Hne) as (b & it' & cls' & Hy & Hs' & Hi' & Hb); [lia|lia|].
  destruct (drop_lt x l) as [|y r] eqn:E.
  - destruct b.
    { exfalso. destruct Hb as (_ & B2 & B3 & _). apply (not_elem_of_nil (i_cur it')). apply Hiff. auto. }
    destruct Hb as (B1 & B2 & B3).
    destruct (fail_meets (i_arr it') cls cls' x c 0 Hs' Hc Hx ltac:(lia) B1 B3) as (c' & Hc' & Hm').
    { intros z Hz. destruct (Z.lt_ge_cases z 1); [lia|]. apply B2.
      clear -B1 Hz H1. induction B1 as [|cl cl' cls cls' Ha _ IH]; [constructor|]. apply Forall_cons_1 in Hz.
      destruct Hz as [Hz1 Hz2]. constructor; [|apply IH, Hz2]. destruct Ha as [->|[Ha _]]; [|apply Ha, Hz1].
      unfold members in Hz1. cbn in Hz1. apply elem_of_cons in Hz1.
      destruct Hz1 as [->|Hz1]; [lia|]. apply elem_of_nil in Hz1. contradiction. }
    exists it', c'. split; [exact Hy|]. split; [|exact Hc'].
    eapply RepI_nil; try eassumption; try (destruct Hc'; lia). eapply adv_nonempty; eassumption.
  - destruct b.
    2: { exfalso. destruct Hb as (_ & B2 & _). destruct (proj2 (Hiff y) ltac:(apply elem_of_cons; auto)) as [H1 H2].
         specialize (B2 y H1). lia. }
    destruct Hb as (B1 & B2 & B3 & B4 & B5 & B6). exists it'. split; [exact Hy|].
    eapply found_rep; try eassumption. eapply wf_abs_seek; eassumption.
Qed.

Lemma i_err it c m l : RepI it c m l -> i_Err (i_arr it) = None.
Proof.
  intros (_ & _ & cls & _ & Hs & _). induction Hs as [|s cl arr cls Hs _ IH]; [reflexivity|].
  cbn [i_Err]. rewrite (rep_err _ _ _ _ Hs). exact IH.
Qed.

#[export] Instance intersectPostings_ok : PostingsOK maxref (intersectPostings S) := {|
  Rep := RepI;
  rep_wf := fun it c m l Hr => proj1 Hr;
  rep_err := i_err;
  next_cons := i_next_cons;
  next_nil := i_next_nil;
  seek_at := i_seek_at;
  seek_fwd := i_seek_fwd
|}.

#[export] Instance intersectPostings_robust : PostingsRobust maxref (intersectPostings S).
Proof.
  intros it c m (Hw & Hic & cls & Hne & Hs & Hm). destruct Hw as (H1 & _ & _ & H2).
  apply Forall_cons_1 in H2. eapply RepI_nil; try eassumption; [lia|apply H2].
Qed.
End intersect_ok.

(** ** Difference *)
Section removed_ok.
Context {maxref : Z} {F R : Type} {fops : PostingsOps F}
  {FOK : PostingsOK maxref F} {rops : PostingsOps R} {ROK : PostingsOK maxref R}
  {RRob : PostingsRobust maxref R}.

(** The difference has yielded everything, or its full side has not been
    advanced past what the other side removes. *)
Definition ended (rp : removedPostings F R) (c m cr : Z) : Prop :=
  exists cf mf, Rep (rp_full rp) cf mf []
    /\ (((cf < m \/ cf <= c) /\ mf <= m) \/ (rp_rok rp = true /\ cf = cr /\ mf = cf)).

(** The full side stands past [c], and [l] is what it holds less the removed. *)
Definition running (rp : removedPostings F R) (c cr : Z) (lr l : list Z) : Prop :=
  exists cf lf, Rep (rp_full rp) cf cf lf /\ pAt (rp_full rp) = cf /\ c < cf
    /\ forall z, z ∈ l <-> z ∈ cf :: lf /\ (rp_rok rp = true -> z ∉ cr :: lr).

Definition started (rp : removedPostings F R) (c m : Z) (l : list Z) : Prop :=
  rp_initialized rp = true /\ exists cr lr, Rep (rp_remove rp) cr cr lr
    /\ (if rp_rok rp then pAt (rp_remove rp) = cr else lr = [] /\ (cr < m \/ cr <= c))
    /\ if rp_fok rp then m = c /\ running rp c cr lr l else l = [] /\ ended rp c m cr.

Definition fresh (rp : removedPostings F R) (c m : Z) (l : list Z) : Prop :=
  rp_initialized rp = false /\ c = 0 /\ m = 0 /\ exists lf lr,
    Rep (rp_full rp) 0 0 lf /\ Rep (rp_remove rp) 0 0 lr /\ forall z, z ∈ l <-> z ∈ lf /\ z ∉ lr.

Definition RepR (rp : removedPostings F R) (c m : Z) (l : list Z) : Prop :=
  wf_abs maxref c m l /\ rp_cur rp = c /\ (fresh rp c m l \/ started rp c m l).

Lemma rep_live_bounds {T} {tops : PostingsOps T} {TOK : PostingsOK maxref T} (s : T) c m l : Rep s c m l ->
  0 <= c <= maxref /\ incr (c :: l) /\ forall z, z ∈ l -> c < z <= maxref.
Proof.
  intros (H1 & _ & H2 & H3)%rep_wf. apply Forall_cons_1 in H3. destruct H3 as [H3 H4].
  split; [lia|]. split; [exact H2|]. intros z Hz. split; [apply (incr_cons_inv _ _ H2), Hz|].
  apply list_elem_of_In in Hz. apply (proj1 (List.Forall_forall _ _) H4 z Hz).
Qed.

(** The outcome of a call that should return the first of [l]. *)
Definition rp_outcome (m : nat -> option (bool * removedPostings F R)) (cur floor : Z) (l : list Z) : Prop :=
  exists rp', match l with
  | y :: r => yields m (true, rp') /\ RepR rp' y y r /\ rp_cur rp' = y
  | [] => yields m (false, rp') /\ RepR rp' cur floor []
  end.

Lemma rp_outcome_step (m m' : nat -> option (bool * removedPostings F R)) cur floor l :
  (forall r, yields m r -> yields m' r) -> rp_outcome m cur floor l -> rp_outcome m' cur floor l.
Proof. intros Hm [rp' H1]. exists rp'. destruct l; (split; [apply Hm; apply H1|apply H1]). Qed.

Lemma incr_sub l cf lf : incr l -> incr (cf :: lf) -> (forall z, z ∈ l -> z ∈ cf :: lf) -> cf ∈ l ->
  exists r, l = cf :: r.
Proof.
  intros Hl Hf Hs Hin. destruct l as [|y r]; [apply elem_of_nil in Hin; contradiction|].
  exists r. f_equal. pose proof (Hs y ltac:(apply elem_of_cons; auto)) as Hy.
  apply elem_of_cons in Hin, Hy. destruct Hin as [|Hin]; [congruence|]. destruct Hy as [|Hy]; [assumption|].
  destruct (incr_cons_inv _ _ Hl) as [_ H1], (incr_cons_inv _ _ Hf) as [_ H2].
  specialize (H1 _ Hin). specialize (H2 _ Hy). lia.
Qed.

(** Yielding the full side's current reference and moving it on. *)
Lemma rp_yield full remove cr lr rok cf lf l :
  Rep full cf cf lf -> Rep remove cr cr lr ->
  (if (rok : bool) then pAt remove = cr else lr = [] /\ cr <= cf) ->
  incr l -> (forall z, z ∈ l <-> z ∈ cf :: lf /\ (rok = true -> z ∉ cr :: lr)) -> cf ∈ l ->
  exists r fok' full', l = cf :: r /\ yields (fun f => pNext f full) (fok', full')
    /\ RepR (mkRemoved full' remove cf true fok' rok) cf cf r.
Proof.
  intros Hf Hr Hrok Hl Hiff Hin. pose proof (rep_live_bounds _ _ _ _ Hf) as (Hcf & Hif & Hlf).
  destruct (incr_sub l cf lf Hl Hif) as [r ->]; [intros z Hz; apply Hiff, Hz|exact Hin|].
  destruct (incr_cons_inv _ _ Hl) as [_ Hlt].
  assert (Hiff' : forall z, z ∈ r <-> z ∈ lf /\ (rok = true -> z ∉ cr :: lr)).
  { intros z. split.
    - intros Hz. pose proof (proj1 (Hiff z) ltac:(apply elem_of_cons; auto)) as [Hz1 Hz2].
      split; [|exact Hz2]. specialize (Hlt z Hz). apply elem_of_cons in Hz1. destruct Hz1; [lia|assumption].
    - intros [Hz1 Hz2]. pose proof (proj2 (Hiff z) (conj (proj2 (elem_of_cons _ _ _) (or_intror Hz1)) Hz2)) as Hz.
      specialize (Hlf z Hz1). apply elem_of_cons in Hz. destruct Hz; [lia|assumption]. }
  assert (Hw : wf_abs maxref cf cf r).
  { apply wf_abs_live; [lia|exact Hl|]. constructor; [lia|]. apply List.Forall_forall. intros z Hz.
    apply list_elem_of_In, Hiff' in Hz. apply Hlf. apply Hz. }
  destruct lf as [|x lf].
  - destruct (next_nil _ _ _ Hf) as (full' & c' & m' & Hy & Hf' & Hc' & _ & Hm'). specialize (Hm' eq_refl). subst m'.
    exists r, false, full'. split; [reflexivity|]. split; [exact Hy|].
    assert (r = []) as -> .
    { destruct r as [|z r]; [reflexivity|]. destruct (proj1 (Hiff' z) ltac:(apply elem_of_cons; auto)) as [Hz _].
      apply elem_of_nil in Hz. contradiction. }
    split; [exact Hw|]. split; [reflexivity|]. right. split; [reflexivity|]. exists cr, lr. cbn [rp_remove rp_rok rp_fok].
    split; [exact Hr|]. split; [destruct rok; [exact Hrok|split; [apply Hrok|right; apply Hrok]]|].
    split; [reflexivity|]. exists c', c'. cbn [rp_full]. split; [exact Hf'|]. left. destruct Hc' as [-> | ->]; lia.
  - destruct (next_cons _ _ _ _ _ Hf) as (full' & Hy & Hf' & Hat). exists r, true, full'.
    split; [reflexivity|]. split; [exact Hy|]. split; [exact Hw|]. split; [reflexivity|]. right.
    split; [reflexivity|]. exists cr, lr. cbn [rp_remove rp_rok rp_fok]. split; [exact Hr|].
    split; [destruct rok; [exact Hrok|split; [apply Hrok|right; apply Hrok]]|]. split; [reflexivity|].
    exists x, lf. cbn [rp_full rp_rok]. split; [exact Hf'|]. split; [exact Hat|].
    split; [apply Hlf; apply elem_of_cons; auto|exact Hiff'].
Qed.

Lemma elem_of_tail c (l1 l2 : list Z) : incr (c :: l1) -> incr (c :: l2) ->
  (forall z, z ∈ c :: l1 <-> z ∈ c :: l2) -> forall z, z ∈ l1 <-> z ∈ l2.
Proof. intros H1 H2 He. pose proof (incr_ext _ _ H1 H2 He) as E. injection E as ->. reflexivity. Qed.

(** The loop of [Next]: every round advances one of the two sides. *)
Lemma rp_loop_live full remove cr lr rok cf lf cur floor l :
  Rep full cf cf lf -> pAt full = cf -> Rep remove cr cr lr ->
  (if (rok : bool) then pAt remove = cr else lr = [] /\ cr < cf) ->
  0 <= cur < cf -> cur <= floor <= cf -> incr l ->
  (forall z, z ∈ l <-> z ∈ cf :: lf /\ (rok = true -> z ∉ cr :: lr)) ->
  rp_outcome (fun f => rp_loop f full remove cur true rok) cur floor l.
Proof.
  remember (length lf + length lr + (if rok then 1 else 0))%nat as k eqn:Ek.
  revert full remove cr lr rok cf lf Ek. induction k as [k IH] using lt_wf_ind.
  intros full remove cr lr rok cf lf Ek Hf Hat Hr Hrok Hcur Hfl Hl Hiff.
  pose proof (rep_live_bounds _ _ _ _ Hf) as (Hcf & Hif & Hlf).
  pose proof (rep_live_bounds _ _ _ _ Hr) as (Hcr & Hir & Hlr).
  apply (rp_outcome_step (fun f =>
      if negb rok then
        '(fok', full') ← pNext f full;
        Some (true, mkRemoved full' remove (pAt full) true fok' rok)
      else if pAt full <? pAt remove then
          '(fok', full') ← pNext f full;
          Some (true, mkRemoved full' remove (pAt full) true fok' rok)
        else if pAt remove <? pAt full then
          '(rok', remove') ← pSeek f (pAt full) remove;
          rp_loop f full remove' cur true rok'
        else
          '(fok', full') ← pNext f full;
          rp_loop f full' remove cur fok' rok)).
  { intros res Hres. eapply yields_ext; [|apply (yields_step _ _ Hres)]. intros [|n]; reflexivity. }
  rewrite Hat. destruct rok; cbn [negb].
  2: { destruct (rp_yield full remove cr lr false cf lf l Hf Hr) as (r & fok' & full' & -> & Hy & Hrep).
       { split; [apply Hrok|lia]. } { exact Hl. } { exact Hiff. }
       { apply Hiff. split; [apply elem_of_cons; auto|discriminate]. }
       eexists. split; [y_step Hy; apply yields_ret|]. split; [exact Hrep|reflexivity]. }
  rewrite Hrok. destruct (Z.ltb_spec cf cr) as [Hlt|Hge].
  - destruct (rp_yield full remove cr lr true cf lf l Hf Hr Hrok Hl Hiff) as (r & fok' & full' & -> & Hy & Hrep).
    { apply Hiff. split; [apply elem_of_cons; auto|]. intros _ [Hz|Hz]%elem_of_cons; [lia|]. apply Hlr in Hz. lia. }
    eexists. split; [y_step Hy; apply yields_ret|]. split; [exact Hrep|reflexivity].
  - destruct (Z.ltb_spec cr cf) as [Hlt|Hge'].
    + pose proof (seek_fwd _ _ _ _ cf Hr Hlt ltac:(lia) ltac:(lia)) as Hs.
      pose proof (incr_cons_inv _ _ Hir) as [Hilr _].
      assert (Hdrop : forall z, z ∈ cf :: lf -> z ∈ cr :: lr <-> z ∈ drop_lt cf lr).
      { intros z Hz. rewrite drop_lt_elem by exact Hilr. rewrite elem_of_cons.
        assert (cf <= z) by (apply elem_of_cons in Hz; destruct Hz as [->|Hz]; [lia|apply Hlf in Hz; lia]).
        split; [intros [->|]; [lia|auto]|tauto]. }
      destruct (drop_lt_suffix cf lr) as (pre & Epre & _).
      destruct (drop_lt cf lr) as [|y r].
      * destruct Hs as (remove' & c' & Hy & Hr' & Hc').
        eapply rp_outcome_step; [intros res Hres; y_step Hy; exact Hres|].
        apply (IH (length lf + 0 + 0)%nat) with (cr := c') (lr := []) (cf := cf) (lf := lf); try assumption; try reflexivity.
        -- subst k. lia.
        -- apply (rep_reset _ _ _ Hr').
        -- split; [reflexivity|]. destruct Hc'; lia.
        -- intros z. rewrite Hiff. split; intros [H1' H2']; (split; [exact H1'|]).
           ++ discriminate.
           ++ intros _ Hz. apply Hdrop in Hz; [|exact H1']. apply (not_elem_of_nil z), Hz.
      * destruct Hs as (remove' & Hy & Hr' & Hat').
        eapply rp_outcome_step; [intros res Hres; y_step Hy; exact Hres|].
        eapply (IH (length lf + length r + 1)%nat); try eassumption; try reflexivity.
        -- subst k. rewrite Epre, length_app. cbn [length]. lia.
        -- intros z. rewrite Hiff. split; intros [H1' H2']; (split; [exact H1'|]); intros _ Hz;
             apply (H2' eq_refl); apply (Hdrop z H1'); exact Hz.
    + assert (Ecr : cr = cf) by lia. rewrite Ecr in *. clear cr Ecr.
      assert (Hiff' : forall z, z ∈ l <-> z ∈ lf /\ z ∉ cf :: lr).
      { intros z. rewrite Hiff. rewrite elem_of_cons. split.
        - intros [[->|H1'] H2']; [|auto]. exfalso. apply (H2' eq_refl). apply elem_of_cons. auto.
        - intros [H1' H2']. auto. }
      destruct lf as [|x lf].
      * destruct (next_nil _ _ _ Hf) as (full' & c' & m' & Hy & Hf' & Hc' & _ & Hm'). specialize (Hm' eq_refl). subst m'.
        assert (l = []) as ->.
        { destruct l as [|z l]; [reflexivity|]. destruct (proj1 (Hiff' z) ltac:(apply elem_of_cons; auto)) as [Hz _].
          apply elem_of_nil in Hz. contradiction. }
        exists (mkRemoved full' remove cur true false true). split.
        { y_step Hy. exists 1%nat. intros [|n] Hn; [lia|reflexivity]. }
        split; [apply wf_abs_nil; lia|]. split; [reflexivity|]. right. split; [reflexivity|].
        exists cf, lr. cbn [rp_remove rp_rok rp_fok]. split; [exact Hr|]. split; [exact Hrok|].
        split; [reflexivity|]. exists c', c'. split; [exact Hf'|]. cbn [rp_rok]. destruct Hc' as [->| ->]; [left; lia|right; auto].
      * destruct (next_cons _ _ _ _ _ Hf) as (full' & Hy & Hf' & Hat').
        assert (Hxc : cf < x) by (apply Hlf; apply elem_of_cons; auto).
        eapply rp_outcome_step; [intros res Hres; y_step Hy; exact Hres|].
        eapply (IH (length lf + length lr + 1)%nat); try eassumption; try reflexivity.
        -- subst k. cbn [length]. lia.
        -- lia.
        -- lia.
        -- intros z. rewrite Hiff'. split; intros [H1' H2']; split; auto.
Qed.

Lemma empty_list (l : list Z) : (forall z, ~ z ∈ l) -> l = [].
Proof. destruct l as [|z l]; [reflexivity|]. intros Hn. exfalso. apply (Hn z), elem_of_cons. auto. Qed.

(** Nothing is left on the full side: the call returns false at once. *)
Lemma rp_stop full remove c floor rok cr lr :
  0 <= c <= floor -> c <= maxref -> Rep remove cr cr lr ->
  (if (rok : bool) then pAt remove = cr else lr = [] /\ (cr < floor \/ cr <= c)) ->
  ended (mkRemoved full remove c true false rok) c floor cr ->
  rp_outcome (fun f => rp_loop f full remove c false rok) c floor [].
Proof.
  intros Hc Hmax Hr Hrok He. exists (mkRemoved full remove c true false rok). split.
  - exists 1%nat. intros [|n] Hn; [lia|reflexivity].
  - split; [apply wf_abs_nil; assumption|]. split; [reflexivity|]. right. split; [reflexivity|].
    exists cr, lr. cbn. auto.
Qed.

Lemma rp_next_fresh rp m l : RepR rp 0 m l -> fresh rp 0 m l -> rp_outcome (fun f => rp_Next f rp) 0 m l.
Proof.
  intros (Hw & Hcur & _) (Hini & _ & -> & lf & lr & Hf & Hr & Hiff). unfold rp_Next. rewrite Hini, Hcur.
  pose proof (rep_live_bounds _ _ _ _ Hf) as (Hcf & Hif & Hlf).
  pose proof Hw as (_ & _ & Hil & _). destruct (incr_cons_inv _ _ Hil) as [Hil' _].
  assert (Hrem : exists rok remove' cr lr', yields (fun f => pNext f (rp_remove rp)) (rok, remove')
    /\ Rep remove' cr cr lr' /\ (if (rok : bool) then pAt remove' = cr else lr' = [] /\ cr = 0)
    /\ forall z, z ∈ lr <-> rok = true /\ z ∈ cr :: lr').
  { destruct lr as [|y r].
    - destruct (next_nil _ _ _ Hr) as (s' & c' & m' & Hy & Hr' & Hc' & _ & Hm'). specialize (Hm' eq_refl). subst m'.
      exists false, s', c', []. split; [exact Hy|]. split; [exact Hr'|]. split; [split; [reflexivity|lia]|].
      intros z. rewrite elem_of_nil. split; [contradiction|]. intros [[=] _].
    - destruct (next_cons _ _ _ _ _ Hr) as (s' & Hy & Hr' & Hat). exists true, s', y, r.
      split; [exact Hy|]. split; [exact Hr'|]. split; [exact Hat|]. tauto. }
  destruct Hrem as (rok & remove' & cr & lr' & Hyr & Hr' & Hrok & Hlr).
  destruct lf as [|x lf].
  - destruct (next_nil _ _ _ Hf) as (s' & c' & m' & Hy & Hf' & Hc' & _ & Hm'). specialize (Hm' eq_refl). subst m'.
    rewrite (empty_list l) by (intros z Hz; apply Hiff in Hz; destruct Hz as [Hz _]; apply elem_of_nil in Hz; exact Hz).
    eapply rp_outcome_step; [intros res Hres; y_step Hy; y_step Hyr; exact Hres|].
    eapply rp_stop; try eassumption; [lia|lia| |].
    + destruct rok; [exact Hrok|]. split; [apply Hrok|lia].
    + exists c', c'. split; [exact Hf'|]. left. lia.
  - destruct (next_cons _ _ _ _ _ Hf) as (s' & Hy & Hf' & Hat).
    assert (Hx : 0 < x) by (apply Hlf, elem_of_cons; auto).
    eapply rp_outcome_step; [intros res Hres; y_step Hy; y_step Hyr; exact Hres|].
    eapply rp_loop_live; try eassumption; try lia.
    + destruct rok; [exact Hrok|]. split; [apply Hrok|lia].
    + intros z. rewrite Hiff, Hlr. split; intros [H1' H2']; (split; [exact H1'|]).
      * intros Hrk Hz. apply H2'. auto.
      * intros [Hrk Hz]. apply (H2' Hrk Hz).
Qed.

Lemma rp_next rp c m l : RepR rp c m l -> rp_outcome (fun f => rp_Next f rp) c m l.
Proof.
  intros Hrep. pose proof Hrep as (Hw & Hcur & [Hfr|Hst]).
  { pose proof Hfr as (_ & -> & _). apply rp_next_fresh; assumption. }
  destruct Hst as (Hini & cr & lr & Hr & Hrok & Hfok). unfold rp_Next. rewrite Hini, Hcur.
  destruct rp as [full remove cur ini fok rok]. cbn in *. subst cur ini.
  pose proof Hw as (Hcm & _ & Hil & Hb). destruct (incr_cons_inv _ _ Hil) as [Hil' _].
  apply Forall_cons_1 in Hb. destruct Hb as [Hb _]. destruct fok.
  - destruct Hfok as (-> & cf & lf & Hf & Hat & Hlt & Hiff). cbn in *.
    eapply rp_loop_live; try eassumption; try lia. destruct rok; [exact Hrok|]. split; [apply Hrok|lia].
  - destruct Hfok as [-> He]. eapply rp_stop; try eassumption.
Qed.

(** [Seek] forward while the full side has not been found to be exhausted. *)
Lemma rp_seek_live full remove c x cf lf cr lr l :
  Rep full cf cf lf -> Rep remove cr cr lr -> 0 <= c < x -> x <= maxref -> incr l ->
  (forall z, z ∈ l <-> (z ∈ cf :: lf) /\ (z ∉ cr :: lr) /\ x <= z) ->
  rp_outcome (fun f => '(fok, full') ← pSeek f x full; '(rok, remove') ← pSeek f x remove;
                       rp_Next f (mkRemoved full' remove' c true fok rok)) c x l.
Proof.
  intros Hf Hr Hc Hx Hl Hiff. pose proof (live_seek full cf lf x Hf ltac:(lia)) as Hsf.
  pose proof (rep_live_bounds _ _ _ _ Hf) as (_ & Hif & _). pose proof (rep_live_bounds _ _ _ _ Hr) as (_ & Hir & _).
  assert (Hrem : exists rok remove' cr' lr', yields (fun f => pSeek f x remove) (rok, remove')
    /\ Rep remove' cr' cr' lr' /\ (if (rok : bool) then pAt remove' = cr' else lr' = [] /\ cr' < x)
    /\ forall z, x <= z -> z ∈ cr :: lr <-> rok = true /\ z ∈ cr' :: lr').
  { pose proof (stands_seek remove (cr, lr) x Hr ltac:(lia)) as Hs. unfold members in Hs. cbn [fst snd] in Hs.
    pose proof (fun z => drop_lt_elem x (cr :: lr) z Hir) as Hd.
    destruct (drop_lt x (cr :: lr)) as [|y r].
    - destruct Hs as (s' & c' & Hy & Hr' & Hc'). exists false, s', c', []. split; [exact Hy|]. split; [exact Hr'|].
      split.
      + split; [reflexivity|]. destruct Hc' as [-> | ->]; [lia|]. destruct (Z.lt_ge_cases cr x); [assumption|].
        exfalso. apply (not_elem_of_nil cr). apply Hd. split; [apply elem_of_cons; auto|lia].
      + intros z Hz. split; [|intros [[=] _]]. intros Hin. exfalso. apply (not_elem_of_nil z), Hd. auto.
    - destruct Hs as (s' & Hy & Hr' & Hat). exists true, s', y, r. split; [exact Hy|]. split; [exact Hr'|].
      split; [exact Hat|]. intros z Hz. rewrite Hd. tauto. }
  destruct Hrem as (rok & remove' & cr' & lr' & Hyr & Hr' & Hrok & Hrz).
  pose proof (fun z => drop_lt_elem x (cf :: lf) z Hif) as Hd.
  destruct (drop_lt x (cf :: lf)) as [|y r] eqn:E.
  - destruct Hsf as (s' & c' & Hy & Hf' & Hc').
    eapply rp_outcome_step; [intros res Hres; y_step Hy; y_step Hyr; exact Hres|].
    rewrite (empty_list l).
    2: { intros z Hz. apply Hiff in Hz. apply (not_elem_of_nil z), Hd. tauto. }
    eapply rp_stop; try eassumption; [lia|lia| |].
    + destruct rok; [exact Hrok|]. split; [apply Hrok|lia].
    + exists c', x. split; [exact Hf'|]. left. split; [|lia]. left. destruct Hc' as [-> | ->]; [lia|].
      destruct (Z.lt_ge_cases cf x); [assumption|]. exfalso. apply (not_elem_of_nil cf), Hd.
      split; [apply elem_of_cons; auto|lia].
  - destruct Hsf as (s' & Hy & Hf' & Hat). pose proof (drop_lt_cons _ _ _ _ E) as Hxy.
    eapply rp_outcome_step; [intros res Hres; y_step Hy; y_step Hyr; exact Hres|].
    eapply rp_loop_live; try eassumption; try lia.
    + destruct rok; [exact Hrok|]. split; [apply Hrok|lia].
    + intros z. rewrite Hiff, Hd. split.
      * intros (H1' & H2' & H3'). split; [auto|]. intros Hrk Hz. apply H2'. apply Hrz; auto.
      * intros ([H1' H2'] & H3'). split; [exact H1'|]. split; [|exact H2']. intros Hz. apply Hrz in Hz; [|exact H2'].
        destruct Hz as [Hrk Hz]. apply (H3' Hrk Hz).
Qed.

Lemma rp_seek rp c m l x : RepR rp c m l -> c < x -> m <= x -> x <= maxref ->
  rp_outcome (fun f => rp_Seek f x rp) c x (drop_lt x l).
Proof.
  intros (Hw & Hcur & Hst) Hc Hm Hx. unfold rp_Seek. rewrite Hcur.
  destruct (Z.leb_spec x c); [lia|]. pose proof Hw as (Hcm & _ & Hil & _).
  destruct (incr_cons_inv _ _ Hil) as [Hil' _]. pose proof (drop_lt_incr x l Hil') as Hid.
  destruct Hst as [(_ & -> & -> & lf & lr & Hf & Hr & Hiff)|(_ & cr & lr & Hr & Hrok & Hfok)].
  - eapply rp_seek_live; try eassumption; [lia|]. intros z. rewrite drop_lt_elem by exact Hil'.
    rewrite Hiff, !elem_of_cons. split.
    + intros ([H1' H2'] & H3'). split; [auto|]. split; [|exact H3']. intros [->|Hz]; [lia|auto].
    + intros (H1' & H2' & H3'). split; [|exact H3']. split; [|tauto]. destruct H1' as [->|]; [lia|assumption].
  - destruct rp as [full remove cur ini fok rok]. cbn in *. destruct fok.
    + destruct Hfok as (-> & cf & lf & Hf & Hat & Hlt & Hiff). cbn in *.
      eapply rp_seek_live; try eassumption; [lia|]. intros z. rewrite drop_lt_elem by exact Hil'. rewrite Hiff.
      destruct rok; [split; intros Hz; [destruct Hz as ([H1' H2'] & H3')|destruct Hz as (H1' & H2' & H3')]; auto|].
      destruct Hrok as [-> Hcr]. split.
      * intros ([H1' H2'] & H3'). split; [exact H1'|]. split; [|exact H3'].
        intros [->|Hz]%elem_of_cons; [lia|]. apply elem_of_nil in Hz. exact Hz.
      * intros (H1' & H2' & H3'). split; [|exact H3']. split; [exact H1'|]. discriminate.
    + destruct Hfok as [-> (cf & mf & Hf & He)]. cbn [rp_full rp_rok] in *. destruct He as [[He1 He2]|(-> & -> & ->)].
      * pose proof (seek_fwd _ _ _ _ x Hf ltac:(lia) ltac:(lia) ltac:(lia)) as Hsf. cbn in Hsf.
        destruct Hsf as (s' & c' & Hy & Hf' & Hc').
        pose proof (stands_seek remove (cr, lr) x Hr ltac:(lia)) as Hs. unfold members in Hs. cbn [fst snd] in Hs.
        pose proof (rep_live_bounds _ _ _ _ Hr) as (_ & Hir & _).
        pose proof (fun z => drop_lt_elem x (cr :: lr) z Hir) as Hd.
        destruct (drop_lt x (cr :: lr)) as [|y r] eqn:E.
        -- destruct Hs as (s2 & c2 & Hy2 & Hr2 & Hc2).
           eapply rp_outcome_step; [intros res Hres; y_step Hy; y_step Hy2; exact Hres|].
           apply (rp_stop s' s2 c x false c2 []); [lia|lia|exact Hr2| |].
           ++ split; [reflexivity|]. left. destruct Hc2 as [-> | ->]; [lia|]. destruct (Z.lt_ge_cases cr x); [assumption|].
              exfalso. apply (not_elem_of_nil cr), Hd. split; [apply elem_of_cons; auto|lia].
           ++ exists c', x. split; [exact Hf'|]. left. split; [left; destruct Hc' as [-> | ->]; lia|lia].
        -- destruct Hs as (s2 & Hy2 & Hr2 & Hat2).
           eapply rp_outcome_step; [intros res Hres; y_step Hy; y_step Hy2; exact Hres|].
           apply (rp_stop s' s2 c x true y r); [lia|lia|exact Hr2|exact Hat2|].
           exists c', x. split; [exact Hf'|]. left. split; [left; destruct Hc' as [-> | ->]; lia|lia].
      * cbn [drop_lt]. eapply rp_seek_live; try eassumption; [lia|]. intros z. rewrite elem_of_nil. split; [contradiction|].
        intros (H1' & H2' & _). apply H2'. apply elem_of_cons in H1'. apply elem_of_cons. destruct H1' as [|Hz]; [auto|].
        apply elem_of_nil in Hz. contradiction.
Qed.

#[export] Program Instance removedPostings_ok : PostingsOK maxref (removedPostings F R) := {| Rep := RepR |}.
Next Obligation. intros rp c m l Hr. apply Hr. Qed.
Next Obligation.
  intros rp c m l (_ & _ & [(_ & _ & _ & lf & lr & Hf & Hr & _)|(_ & cr & lr & Hr & _ & Hfok)]); cbn.
  - rewrite (rep_err _ _ _ _ Hf). apply (rep_err _ _ _ _ Hr).
  - assert (Hf : pErr (rp_full rp) = None).
    { destruct (rp_fok rp); [destruct Hfok as (_ & cf & lf & Hf & _)|destruct Hfok as (_ & cf & mf & Hf & _)];
        apply (rep_err _ _ _ _ Hf). }
    rewrite Hf. apply (rep_err _ _ _ _ Hr).
Qed.
Next Obligation. intros rp c m x l Hr. apply (rp_next _ _ _ _ Hr). Qed.
Next Obligation.
  intros rp c m Hr. destruct (rp_next _ _ _ _ Hr) as (rp' & Hy & Hr'). exists rp', c, m.
  split; [exact Hy|]. split; [exact Hr'|]. split; [auto|]. split; [lia|auto].
Qed.
Next Obligation.
  intros rp c m l x Hr Hx. exists rp. pose proof Hr as (_ & Hcur & _). split; [|split; [exact Hr|exact Hcur]].
  exists 0%nat. intros n _. cbn. unfold rp_Seek. rewrite Hcur. destruct (Z.leb_spec x c); [reflexivity|lia].
Qed.
Next Obligation.
  intros rp c m l x Hr H1' H2' H3'. pose proof (rp_seek _ _ _ _ _ Hr H1' H2' H3') as (rp' & Ho).
  destruct (drop_lt x l) as [|y r]; exists rp'; [exists c; split; [apply Ho|split; [apply Ho|auto]]|exact Ho].
Qed.
End removed_ok.

(** ** Iterators as their clients see them

    A client calls [Next] and [Seek] until one returns false; it sees the
    reference of every call that returned true. *)
Inductive op := ONext | OSeek (x : Z).

Fixpoint run {S} `{PostingsOps S} (fuel : nat) (ops : list op) (s : S) : option (list (option Z)) :=
  match ops with
  | [] => Some []
  | o :: rest =>
      '(b, s') ← (match o with ONext => pNext fuel s | OSeek x => pSeek fuel x s end);
      if (b : bool) then t ← run fuel rest s'; Some (Some (pAt s') :: t) else Some [None]
  end.

(** The same calls on the ideal iterator over a sorted list: [c] is the current
    reference, [l] what is still to come. *)
Fixpoint ideal (ops : list op) (c : Z) (l : list Z) : list (option Z) :=
  match ops with
  | [] => []
  | ONext :: rest => match l with x :: r => Some x :: ideal rest x r | [] => [None] end
  | OSeek x :: rest =>
      if x <=? c then Some c :: ideal rest c l
      else match drop_lt x l with y :: r => Some y :: ideal rest y r | [] => [None] end
  end.

Definition valid_op (maxref : Z) (o : op) : Prop :=
  match o with ONext => True | OSeek x => 1 <= x <= maxref end.

Section clients.
Context {maxref : Z} {S : Type} {sops : PostingsOps S} {SOK : PostingsOK maxref S}.

Lemma run_ideal ops (s : S) c l : Forall (valid_op maxref) ops -> Rep s c c l ->
  yields (fun f => run f ops s) (ideal ops c l).
Proof.
  intros Hops. revert s c l. induction Hops as [|o ops Ho _ IH]; intros s c l Hs; [apply yields_ret|].
  destruct o as [|x]; cbn [run ideal valid_op] in *.
  - destruct l as [|x r].
    + destruct (next_nil _ _ _ Hs) as (s' & c' & m' & Hy & _). y_step Hy. apply yields_ret.
    + destruct (next_cons _ _ _ _ _ Hs) as (s' & Hy & Hs' & Hat). y_step Hy. rewrite Hat.
      eapply yields_bind; [apply IH; exact Hs'|]. apply yields_ret.
  - destruct (Z.leb_spec x c) as [Hx|Hx].
    + destruct (seek_at _ _ _ _ x Hs ltac:(lia)) as (s' & Hy & Hs' & Hat). y_step Hy. rewrite Hat.
      eapply yields_bind; [apply IH; exact Hs'|]. apply yields_ret.
    + pose proof (seek_fwd _ _ _ _ x Hs Hx ltac:(lia) ltac:(lia)) as Hk. destruct (drop_lt x l) as [|y r].
      * destruct Hk as (s' & c' & Hy & _). y_step Hy. apply yields_ret.
      * destruct Hk as (s' & Hy & Hs' & Hat). y_step Hy. rewrite Hat.
        eapply yields_bind; [apply IH; exact Hs'|]. apply yields_ret.
Qed.

Lemma expand_ok (s : S) c l : Rep s c c l -> yields (fun f => ExpandPostings f s) (l, None).
Proof.
  intros Hs. assert (Hl : forall res, exists s' c' m',
    yields (fun f => expand_loop f s res) (res ++ l, s') /\ Rep s' c' m' []).
  { revert s c Hs. induction l as [|x l IH]; intros s c Hs res.
    - destruct (next_nil _ _ _ Hs) as (s' & c' & m' & Hy & Hs' & _). exists s', c', m'. split; [|exact Hs'].
      rewrite app_nil_r. eapply yields_ext; [|apply (yields_step (fun f => '(b, p') ← pNext f s;
        if (b : bool) then expand_loop f p' (res ++ [pAt p']) else Some (res, p')))].
      + intros [|n]; reflexivity.
      + y_step Hy. apply yields_ret.
    - destruct (next_cons _ _ _ _ _ Hs) as (s' & Hy & Hs' & Hat).
      destruct (IH s' x Hs' (res ++ [x])) as (s2 & c2 & m2 & Hy2 & Hs2). exists s2, c2, m2. split; [|exact Hs2].
      rewrite <- app_assoc in Hy2. eapply yields_ext; [|apply (yields_step (fun f => '(b, p') ← pNext f s;
        if (b : bool) then expand_loop f p' (res ++ [pAt p']) else Some (res, p')))].
      + intros [|n]; reflexivity.
      + y_step Hy. rewrite Hat. exact Hy2. }
  destruct (Hl []) as (s' & c' & m' & Hy & Hs'). unfold ExpandPostings. y_step Hy.
  rewrite (rep_err _ _ _ _ Hs'). apply yields_ret.
Qed.
End clients.

(** Sorted references in the range the iterators work on. *)
Definition refs (maxref : Z) (l : list Z) : Prop := incr (0 :: l) /\ Forall (fun z => z <= maxref) l.

Lemma refs_wf maxref l : 0 <= maxref -> refs maxref l -> wf_abs maxref 0 0 l.
Proof. intros Hm [H1 H2]. apply wf_abs_live; [lia|exact H1|]. constructor; assumption. Qed.

Definition meet_all (l : list Z) (ls : list (list Z)) : list Z :=
  List.filter (fun z => forallb (existsb (Z.eqb z)) ls) l.
Definition minus (l d : list Z) : list Z := List.filter (fun z => negb (existsb (Z.eqb z) d)) l.

Lemma incr_filter p l : incr l -> incr (List.filter p l).
Proof.
  induction l as [|x l IH]; intros Hi; [constructor|]. destruct (incr_cons_inv _ _ Hi) as [H1 H2]. cbn.
  destruct (p x); [|apply IH, H1]. apply incr_cons; [apply IH, H1|]. intros z Hz. apply H2.
  apply list_elem_of_In in Hz. apply filter_In in Hz. apply list_elem_of_In, Hz.
Qed.

Lemma elem_filter p (l : list Z) z : z ∈ List.filter p l <-> z ∈ l /\ p z = true.
Proof. rewrite !list_elem_of_In. apply filter_In. Qed.

Lemma existsb_elem z (l : list Z) : existsb (Z.eqb z) l = true <-> z ∈ l.
Proof.
  rewrite existsb_exists, list_elem_of_In. split.
  - intros (x & Hx & E). apply Z.eqb_eq in E. subst. exact Hx.
  - intros Hz. exists z. split; [exact Hz|apply Z.eqb_refl].
Qed.

Lemma meet_all_elem l ls z : z ∈ meet_all l ls <-> z ∈ l /\ Forall (fun l' => z ∈ l') ls.
Proof.
  unfold meet_all. rewrite elem_filter, forallb_forall, List.Forall_forall.
  split; intros [H1 H2]; (split; [exact H1|]); intros l' Hl'; apply existsb_elem, H2, Hl'.
Qed.

Lemma minus_elem l d z : z ∈ minus l d <-> z ∈ l /\ z ∉ d.
Proof.
  unfold minus. rewrite elem_filter, negb_true_iff, <- not_true_iff_false, existsb_elem. reflexivity.
Qed.

Lemma wf_abs_filter maxref p l : wf_abs maxref 0 0 l -> wf_abs maxref 0 0 (List.filter p l).
Proof.
  intros (_ & _ & H1 & H2). destruct (incr_cons_inv _ _ H1) as [H3 H4]. apply Forall_cons_1 in H2.
  apply wf_abs_live; [lia| |].
  - apply incr_cons; [apply incr_filter, H3|]. intros z Hz. apply H4. apply elem_filter in Hz. apply Hz.
  - constructor; [apply H2|]. apply List.Forall_forall. intros z Hz. apply filter_In in Hz.
    apply (proj1 (List.Forall_forall _ _) (proj2 H2)). apply Hz.
Qed.

(** A new intersection of iterators that have not started. *)
Lemma new_intersect_rep {maxref S} {sops : PostingsOps S} {SOK : PostingsOK maxref S}
    {SR : PostingsRobust maxref S} (s : S) (l : list Z) arr ls :
  Rep s 0 0 l -> Forall2 (fun s l => Rep s 0 0 l) arr ls ->
  Rep (newIntersectPostings (s :: arr)) 0 0 (meet_all l ls).
Proof.
  intros Hs Hss. pose proof (rep_wf _ _ _ _ Hs) as Hw. split; [apply wf_abs_filter; exact Hw|].
  pose proof Hw as (_ & _ & _ & Hm). apply Forall_cons_1 in Hm. cbn [i_cur i_arr newIntersectPostings].
  split; [lia|]. exists (map (pair 0) (l :: ls)). split; [discriminate|]. split.
  - constructor; [exact Hs|]. clear -Hss. induction Hss; constructor; assumption.
  - left. split; [|split; [|reflexivity]].
    + apply List.Forall_forall. intros cl [l' [<- _]]%in_map_iff. reflexivity.
    + intros z. rewrite meet_all_elem. unfold common_rest. cbn [map]. rewrite Forall_cons, Forall_map. reflexivity.
Qed.

Lemma new_removed_rep {maxref F R} {fops : PostingsOps F} {FOK : PostingsOK maxref F}
    {rops : PostingsOps R} {ROK : PostingsOK maxref R} {RRob : PostingsRobust maxref R}
    (full : F) (remove : R) lf lr :
  Rep full 0 0 lf -> Rep remove 0 0 lr ->
  Rep (newRemovedPostings full remove) 0 0 (minus lf lr).
Proof.
  intros Hf Hr. split; [apply wf_abs_filter, (rep_wf _ _ _ _ Hf)|]. split; [reflexivity|]. left.
  split; [reflexivity|]. split; [reflexivity|]. split; [reflexivity|]. exists lf, lr.
  split; [exact Hf|]. split; [exact Hr|]. intros z. apply minus_elem.
Qed.

(** [Seek] on a [bigEndianPostings] truncates what it looks for to 32 bits: above
    that it can stop at a reference below the one sought. *)
Lemma be_seek_truncates :
  be_Seek (2 ^ 32 + 1) (newBigEndianPostings (be_encode [5])) = (true, mkBigEndianPostings [] 5).
Proof. reflexivity. Qed.

(** ** Properties *)

(** whatever sequence of [Next] and [Seek] a client makes until the first
    call that returns false, a [ListPostings] over sorted references and a
    [bigEndianPostings] over their four-byte encodings return what the ideal
    sorted iterator returns. *)
Theorem list_postings_ideal (maxref : Z) (l : list Z) (ops : list op) :
  0 <= maxref < 2 ^ 32 -> refs maxref l -> Forall (valid_op maxref) ops ->
  yields (fun f => run f ops (NewListPostings l)) (ideal ops 0 l)
  /\ yields (fun f => run f ops (newBigEndianPostings (be_encode l))) (ideal ops 0 l).
Proof.
  intros Hm Hl Hops. pose proof (refs_wf maxref l ltac:(lia) Hl) as Hw. split;
    eapply run_ideal; try exact Hops; (split; [exact Hw|]); cbn; auto. split; [reflexivity|]. split; [reflexivity|lia].
Qed.

(** C25: the intersection of any robust iterators that have not started behaves,
    for every sequence of [Next] and [Seek], like the ideal iterator over the
    references they all contain; in particular every call ends. *)
Theorem intersect_postings_ideal (maxref : Z) (S : Type) (sops : PostingsOps S)
    (SOK : PostingsOK maxref S) (SR : PostingsRobust maxref S)
    (s : S) (l : list Z) (arr : list S) (ls : list (list Z)) (ops : list op) :
  Rep s 0 0 l -> Forall2 (fun s l => Rep s 0 0 l) arr ls -> Forall (valid_op maxref) ops ->
  yields (fun f => run f ops (newIntersectPostings (s :: arr))) (ideal ops 0 (meet_all l ls)).
Proof.
  intros Hs Hss Hops. eapply run_ideal; [exact Hops|]. apply new_intersect_rep; assumption.
Qed.

Lemma intersect_postings_ideal_witness :
  yields (fun f => run f [ONext; OSeek 6] (newIntersectPostings
            [NewListPostings [1; 3; 5; 8]; NewListPostings [3; 4; 8]; NewListPostings [2; 3; 8; 9]]))
         [Some 3; Some 8].
Proof.
  assert (Hr : forall l, refs 100 l -> Rep (maxref := 100) (NewListPostings l) 0 0 l).
  { intros l Hl. split; [apply refs_wf; [lia|exact Hl]|auto]. }
  apply (intersect_postings_ideal 100 ListPostings _ _ _ _ [1; 3; 5; 8] _ [[3; 4; 8]; [2; 3; 8; 9]]).
  - apply Hr. split; repeat constructor; lia.
  - repeat constructor; lia.
  - repeat constructor; cbn; lia.
Defined.

(** the difference of any two iterators that have not started, the removed
    one robust, behaves, for every sequence of [Next] and [Seek], like the
    ideal iterator over the references of the first that are not in the second. *)
Theorem removed_postings_ideal (maxref : Z) (F R : Type) (fops : PostingsOps F)
    (FOK : PostingsOK maxref F) (rops : PostingsOps R) (ROK : PostingsOK maxref R)
    (RRob : PostingsRobust maxref R) (full : F) (drop : R) (lf ld : list Z) (ops : list op) :
  Rep full 0 0 lf -> Rep drop 0 0 ld -> Forall (valid_op maxref) ops ->
  yields (fun f => run f ops (newRemovedPostings full drop)) (ideal ops 0 (minus lf ld)).
Proof.
  intros Hf Hd Hops. eapply run_ideal; [exact Hops|]. apply new_removed_rep; assumption.
Qed.

(** the combination the querier builds for positive and negative matchers,
    [ExpandPostings(Without(Intersect(...), ...))], returns, given enough fuel,
    exactly the references of the first list that are in all the others and not
    among the dropped ones, in increasing order and without an error. *)
Theorem expand_without_intersect (maxref : Z) (l : list Z) (ls : list (list Z)) (d : list Z) :
  0 <= maxref -> refs maxref l -> Forall (refs maxref) ls -> refs maxref d ->
  yields (fun f => ExpandPostings f
            (newRemovedPostings (newIntersectPostings (map NewListPostings (l :: ls))) (NewListPostings d)))
         (minus (meet_all l ls) d, None).
Proof.
  intros Hm Hl Hls Hd.
  assert (Hr : forall l, refs maxref l -> Rep (maxref := maxref) (NewListPostings l) 0 0 l).
  { intros k Hk. split; [apply refs_wf; assumption|auto]. }
  eapply (expand_ok (maxref := maxref)). apply new_removed_rep; [|apply Hr; exact Hd].
  cbn [map]. apply new_intersect_rep; [apply Hr; exact Hl|].
  induction Hls as [|k ls Hk _ IH]; constructor; [apply Hr; exact Hk|exact IH].
Qed.
