(* ===== verification/MemPostings.v ===== *)
(** * The in-memory postings index: [MemPostings] of [tsdb/index/postings.go]

    The map from label pairs to sorted lists of series references, with the
    list of the values of every label name kept beside it.  Locks are left
    out.  Go's random map order shows in the list of label values after a
    deletion: [range_keys] is an arbitrary enumeration of the keys of a map. *)

From stdpp Require Import base list numbers gmap strings sorting.
From Stdlib Require Import ZArith Lia Sorted.
From S2P Require Import Prelude Postings.

(** [labels.Label]: a name and a value. *)
Abbreviation Label := (string * string)%type.

Definition allPostingsKey : Label := (""%string, ""%string).

Record MemPostings := mkMemPostings {
  mp_m : gmap string (gmap string (list Z));
  mp_lvs : gmap string (list string);
  mp_ordered : bool
}.

Definition NewMemPostings : MemPostings := mkMemPostings ∅ ∅ true.
Definition NewUnorderedMemPostings : MemPostings := mkMemPostings ∅ ∅ false.

(** The loop that moves the last element down to its place:
    [for i := len(list) - 1; i >= 1; i--]. *)
Fixpoint repair (i : nat) (li : list Z) : list Z :=
  match i with
  | O => li
  | S i' =>
      let x := nth i li 0 in let y := nth i' li 0 in
      if y <=? x then li else repair i' (<[i := y]> (<[i' := x]> li))
  end.

Definition addFor (id : Z) (l : Label) (p : MemPostings) : MemPostings :=
  let nm := default ∅ (mp_m p !! l.1) in
  let vm := nm !! l.2 in
  let lvs := match vm with
             | Some _ => mp_lvs p
             | None => <[l.1 := default [] (mp_lvs p !! l.1) ++ [l.2]]> (mp_lvs p)
             end in
  let li := default [] vm ++ [id] in
  let li := if mp_ordered p then repair (length li - 1) li else li in
  mkMemPostings (<[l.1 := <[l.2 := li]> nm]> (mp_m p)) lvs (mp_ordered p).

Definition Add (id : Z) (lset : list Label) (p : MemPostings) : MemPostings :=
  addFor id allPostingsKey (fold_left (fun p l => addFor id l p) lset p).

(** [p.m[l.Name][l.Value]], the empty list when there is no entry. *)
Definition list_of (p : MemPostings) (l : Label) : list Z :=
  default [] (default ∅ (mp_m p !! l.1) !! l.2).

(** The keys of the lists of the index, in the order of [map_to_list]. *)
Definition list_keys (m : gmap string (gmap string (list Z))) : list Label := '(n, e) ← map_to_list m; '(v, _) ← map_to_list e; [(n, v)].

Definition ensureOrderBatchSize : nat := Z.to_nat 1024.

(** The loop of [EnsureOrder] over the lists, in the order [range] gives them: the
    jobs sent to the workers.  A list is passed by reference, as its key here. *)
Fixpoint send_jobs (nextJob : list Label) (lists : list Label) : list (list Label) :=
  match lists with
  | [] => if (0 <? length nextJob)%nat then [nextJob] else []
  | l :: lists =>
      let nextJob := nextJob ++ [l] in
      if (ensureOrderBatchSize <=? length nextJob)%nat then nextJob :: send_jobs [] lists else send_jobs nextJob lists
  end.

(** [slices.Sort] on a list, in place. *)
Definition sort_list (m : gmap string (gmap string (list Z))) (l : Label) : gmap string (gmap string (list Z)) :=
  alter (alter (merge_sort Z.le) l.2) l.1 m.

(** [range_lists] is the order in which [range] visits the lists, [schedule] the order
    in which the workers come to sort the lists of the jobs. *)
Definition EnsureOrder (range_lists : gmap string (gmap string (list Z)) -> list Label) (schedule : list (list Label) -> list Label) (p : MemPostings) : MemPostings :=
  if mp_ordered p then p
  else mkMemPostings (fold_left sort_list (schedule (send_jobs [] (range_lists (mp_m p)))) (mp_m p)) (mp_lvs p) true.

(** [process] of [Delete], with the set of affected label names. *)
Definition process (deleted : gset Z) (l : Label) (st : gmap string (gmap string (list Z)) * gset string)
    : gmap string (gmap string (list Z)) * gset string :=
  let '(m, names) := st in
  let repl := filter (.∉ deleted) (default [] (default ∅ (m !! l.1) !! l.2)) in
  match repl with
  | _ :: _ => (<[l.1 := <[l.2 := repl]> (default ∅ (m !! l.1))]> m, names)
  | [] => (alter (delete l.2) l.1 m, {[l.1]} ∪ names)
  end.

Section range.
Variable range_keys : gmap string (list Z) -> list string.

(** The second loop of [Delete]: refresh the values of an affected name. *)
Definition refresh (p : MemPostings) (name : string) : MemPostings :=
  let e := default ∅ (mp_m p !! name) in
  if (size e =? 0)%nat then mkMemPostings (delete name (mp_m p)) (delete name (mp_lvs p)) (mp_ordered p)
  else mkMemPostings (mp_m p) (<[name := range_keys e]> (mp_lvs p)) (mp_ordered p).

(** [affected] in the order the map was ranged over. *)
Definition Delete (deleted : gset Z) (affected : list Label) (p : MemPostings) : MemPostings :=
  let '(m, names) := fold_left (fun st l => process deleted l st) affected (mp_m p, ∅) in
  let '(m, names) := process deleted allPostingsKey (m, names) in
  fold_left refresh (elements names) (mkMemPostings m (mp_lvs p) (mp_ordered p)).
End range.

Definition LabelNames (p : MemPostings) : list string :=
  filter (.≠ allPostingsKey.1) (map fst (map_to_list (mp_m p))).

(** [limit] is [hints.Limit], 0 when there are no hints. *)
Definition LabelValues (p : MemPostings) (name : string) (limit : nat) : list string :=
  let values := default [] (mp_lvs p !! name) in
  if (0 <? limit)%nat && (limit <? length values)%nat then take limit values else values.

(** The lists [Postings] hands to [Merge]. *)
Definition postings_lists (p : MemPostings) (name : string) (values : list string) : list ListPostings :=
  omap (fun value => match default ∅ (mp_m p !! name) !! value with
                     | Some lp => Some (NewListPostings lp)
                     | None => None
                     end) values.

(** ** The repair loop inserts in order *)

Lemma swap_app (l : list Z) x y tail :
  <[S (length l) := y]> (<[length l := x]> (l ++ y :: x :: tail)) = l ++ x :: y :: tail.
Proof. induction l as [|z l IH]; [reflexivity|]. cbn. f_equal. exact IH. Qed.

Lemma repair_split l id tail :
  exists a b, l = a ++ b /\ repair (length l) (l ++ id :: tail) = a ++ id :: b ++ tail
    /\ Forall (fun x => id < x) b /\ (forall a' y, a = a' ++ [y] -> y <= id).
Proof.
  revert tail. induction l as [|y l IH] using rev_ind; intros tail.
  - exists [], []. cbn. split; [reflexivity|]. split; [reflexivity|]. split; [constructor|].
    intros [|? ?] y; discriminate.
  - rewrite length_app. cbn [length]. replace (length l + 1)%nat with (S (length l)) by lia.
    cbn [repair]. rewrite <- app_assoc. cbn [app].
    rewrite (app_nth2 l (y :: id :: tail)) by lia. rewrite (app_nth2 l (y :: id :: tail)) by lia.
    replace (S (length l) - length l)%nat with 1%nat by lia. rewrite Nat.sub_diag. cbn [nth].
    destruct (Z.leb_spec y id) as [Hle|Hgt].
    + exists (l ++ [y]), []. split; [rewrite app_nil_r; reflexivity|]. split; [rewrite <- app_assoc; reflexivity|].
      split; [constructor|]. intros a' y' E. apply app_inj_tail in E. destruct E as [_ <-]. exact Hle.
    + rewrite swap_app. destruct (IH (y :: tail)) as (a & b & -> & E & Hb & Ha). exists a, (b ++ [y]).
      rewrite <- !app_assoc in *. split; [reflexivity|]. split; [exact E|].
      split; [apply Forall_app; split; [exact Hb|constructor; [lia|constructor]]|exact Ha].
Qed.

Lemma repair_snoc l id : repair (length (l ++ [id]) - 1) (l ++ [id]) = repair (length l) (l ++ id :: []).
Proof. rewrite length_app. cbn [length]. f_equal. lia. Qed.

Lemma repair_perm l id : Permutation (repair (length l) (l ++ [id])) (id :: l).
Proof.
  destruct (repair_split l id []) as (a & b & E & -> & _). rewrite E, app_nil_r. symmetry.
  apply Permutation_middle.
Qed.

Lemma repair_sorted (R : relation Z) `{!Transitive R} l id : (forall x, id < x -> R id x) -> (forall x, In x l -> x <= id -> R x id) ->
  StronglySorted R l -> StronglySorted R (repair (length l) (l ++ [id])).
Proof.
  intros Hlt Hle Hs. destruct (repair_split l id []) as (a & b & -> & -> & Hb & Ha). rewrite app_nil_r.
  assert (Hab : forall x y, In x a -> In y b -> R x y).
  { intros x y Hx Hy. clear -Hs Hx Hy. induction a as [|w a IH]; [destruct Hx|].
    inversion_clear Hs as [|? ? Hs1 Hs2]. destruct Hx as [->|Hx]; [|apply IH; assumption].
    apply (proj1 (List.Forall_forall _ _) Hs2). apply in_or_app. auto. }
  assert (Hrest : StronglySorted R (id :: b)).
  { constructor.
    - clear -Hs. induction a as [|w a IH]; [exact Hs|]. inversion_clear Hs as [|? ? Hs1 Hs2]. apply IH, Hs1.
    - apply List.Forall_forall. intros x Hx. apply Hlt. apply (proj1 (List.Forall_forall _ _) Hb x Hx). }
  assert (Hlast : forall x, In x a -> R x id).
  { destruct a as [|z a] using rev_ind; [intros x []|]. clear IHa. intros x Hx.
    assert (Hz : R z id) by (apply Hle; [apply in_or_app; left; apply in_or_app; right; left; reflexivity|eapply Ha; reflexivity]).
    apply in_app_or in Hx. destruct Hx as [Hx|[<-|[]]]; [|exact Hz]. transitivity z; [|exact Hz].
    clear -Hs Hx. rewrite <- app_assoc in Hs. induction a as [|w a IH]; [destruct Hx|].
    inversion_clear Hs as [|? ? Hs1 Hs2]. destruct Hx as [->|Hx]; [|apply IH; assumption].
    apply (proj1 (List.Forall_forall _ _) Hs2). apply in_or_app. right. left. reflexivity. }
  assert (Hsa : StronglySorted R a).
  { clear -Hs. induction a as [|w a IH]; [constructor|]. inversion_clear Hs as [|? ? Hs1 Hs2].
    constructor; [apply IH, Hs1|]. apply Forall_app in Hs2. apply Hs2. }
  clear -Hsa Hrest Hab Hlast. induction a as [|w a IH]; [exact Hrest|].
  inversion_clear Hsa as [|? ? Hs1 Hs2]. cbn [app]. constructor.
  - apply IH; [intros; apply Hab; [right|]; assumption|intros; apply Hlast; right; assumption|exact Hs1].
  - apply Forall_app. split; [exact Hs2|]. constructor; [apply Hlast; left; reflexivity|].
    apply List.Forall_forall. intros y Hy. apply Hab; [left; reflexivity|exact Hy].
Qed.

Lemma repair_incr l id : incr l -> id ∉ l -> incr (repair (length l) (l ++ [id])).
Proof.
  intros Hl Hid. apply repair_sorted; [apply _|auto| |exact Hl].
  intros x Hx Hle. destruct (Z.eq_dec x id); [|lia]. subst. exfalso. apply Hid. apply list_elem_of_In. exact Hx.
Qed.

(** ** What [addFor] does *)

Definition lof (m : gmap string (gmap string (list Z))) (l : Label) : list Z :=
  default [] (default ∅ (m !! l.1) !! l.2).
Definition vals_of (lvs : gmap string (list string)) (n : string) : list string := default [] (lvs !! n).

(** The invariant, for the names outside [dirty]; for those in [dirty] the
    values may be out of date and the inner map empty. *)
Record inv_except (dirty : gset string) (m : gmap string (gmap string (list Z)))
    (lvs : gmap string (list string)) : Prop := {
  inv_lists : forall n e v li, m !! n = Some e -> e !! v = Some li -> li <> [] /\ incr li;
  inv_nonempty : forall n e, n ∉ dirty -> m !! n = Some e -> e <> ∅;
  inv_nodup : forall n, NoDup (vals_of lvs n);
  inv_values : forall n v, n ∉ dirty -> v ∈ vals_of lvs n <-> is_Some (default ∅ (m !! n) !! v)
}.

Definition inv (p : MemPostings) : Prop := mp_ordered p = true /\ inv_except ∅ (mp_m p) (mp_lvs p).

Lemma lof_incr dirty m lvs l : inv_except dirty m lvs -> incr (lof m l).
Proof.
  intros Hi. unfold lof. destruct (m !! l.1) as [e|] eqn:E; cbn; [|rewrite lookup_empty; constructor].
  destruct (e !! l.2) as [li|] eqn:E2; [|constructor]. eapply (inv_lists _ _ _ Hi); eassumption.
Qed.

Lemma lof_insert m l li l' :
  lof (<[l.1 := <[l.2 := li]> (default ∅ (m !! l.1))]> m) l' = if decide (l' = l) then li else lof m l'.
Proof.
  unfold lof. destruct l as [n v], l' as [n' v']. cbn [fst snd]. destruct (decide (n' = n)) as [->|Hn].
  - rewrite lookup_insert_eq. cbn. destruct (decide (v' = v)) as [->|Hv].
    + rewrite lookup_insert_eq. destruct (decide _); [reflexivity|congruence].
    + rewrite lookup_insert_ne by congruence. destruct (decide _); [congruence|reflexivity].
  - rewrite lookup_insert_ne by congruence. destruct (decide _); [congruence|reflexivity].
Qed.

(** Replacing one list, its value being known or new. *)
Lemma inv_insert m lvs l li : inv_except ∅ m lvs -> li <> [] -> incr li ->
  inv_except ∅ (<[l.1 := <[l.2 := li]> (default ∅ (m !! l.1))]> m)
    (match default ∅ (m !! l.1) !! l.2 with
     | Some _ => lvs
     | None => <[l.1 := default [] (lvs !! l.1) ++ [l.2]]> lvs end).
Proof.
  intros Hi Hne Hinc. destruct l as [n v]. cbn [fst snd]. split.
  - intros n' e v' li'. destruct (decide (n' = n)) as [->|Hn].
    + rewrite lookup_insert_eq. intros [= <-]. destruct (decide (v' = v)) as [->|Hv].
      * rewrite lookup_insert_eq. intros [= <-]. auto.
      * rewrite lookup_insert_ne by congruence. intros E. destruct (m !! n) as [e|] eqn:Em; cbn in E; [|rewrite lookup_empty in E; discriminate].
        eapply (inv_lists _ _ _ Hi); eassumption.
    + rewrite lookup_insert_ne by congruence. apply (inv_lists _ _ _ Hi).
  - intros n' e Hd. destruct (decide (n' = n)) as [->|Hn].
    + rewrite lookup_insert_eq. intros [= <-]. apply insert_non_empty.
    + rewrite lookup_insert_ne by congruence. apply (inv_nonempty _ _ _ Hi); assumption.
  - intros n'. destruct (default ∅ (m !! n) !! v) as [o|] eqn:Eo; [apply (inv_nodup _ _ _ Hi)|].
    unfold vals_of. destruct (decide (n' = n)) as [->|Hn].
    + rewrite lookup_insert_eq. cbn. apply NoDup_app. split; [apply (inv_nodup _ _ _ Hi n)|].
      split; [|apply NoDup_singleton]. intros w Hw Hv. apply list_elem_of_singleton in Hv. subst w.
      apply (inv_values _ _ _ Hi n v ltac:(set_solver)) in Hw. rewrite Eo in Hw. destruct Hw. discriminate.
    + rewrite lookup_insert_ne by congruence. apply (inv_nodup _ _ _ Hi).
  - intros n' v' _. destruct (decide (n' = n)) as [->|Hn].
    + rewrite lookup_insert_eq. cbn. destruct (default ∅ (m !! n) !! v) as [o|] eqn:Eo.
      * rewrite (inv_values _ _ _ Hi n v' ltac:(set_solver)). destruct (decide (v' = v)) as [->|Hv].
        -- rewrite lookup_insert_eq, Eo. split; eauto.
        -- rewrite lookup_insert_ne by congruence. reflexivity.
      * unfold vals_of. rewrite lookup_insert_eq. cbn. rewrite elem_of_app, list_elem_of_singleton.
        change (default [] (lvs !! n)) with (vals_of lvs n). rewrite (inv_values _ _ _ Hi n v' ltac:(set_solver)).
        destruct (decide (v' = v)) as [->|Hv].
        -- rewrite lookup_insert_eq. split; eauto.
        -- rewrite lookup_insert_ne by congruence. tauto.
    + rewrite lookup_insert_ne by congruence. rewrite <- (inv_values _ _ _ Hi n' v' ltac:(set_solver)).
      destruct (default ∅ (m !! n) !! v); [reflexivity|]. unfold vals_of. rewrite lookup_insert_ne by congruence. reflexivity.
Qed.

Lemma addFor_ok id l p : inv p -> id ∉ list_of p l ->
  inv (addFor id l p)
  /\ forall z l', z ∈ list_of (addFor id l p) l' <-> (z = id /\ l' = l) \/ z ∈ list_of p l'.
Proof.
  intros [Ho Hi] Hid. unfold addFor. rewrite Ho, repair_snoc.
  change (default [] (default ∅ (mp_m p !! l.1) !! l.2)) with (lof (mp_m p) l) in *.
  set (li := repair _ _). assert (Hli : Permutation li (id :: lof (mp_m p) l)) by apply repair_perm.
  split.
  - split; [reflexivity|]. cbn [mp_m mp_lvs]. apply inv_insert; [exact Hi| |].
    + intros E. rewrite E in Hli. apply Permutation_nil in Hli. discriminate.
    + apply repair_incr; [eapply lof_incr; exact Hi|exact Hid].
  - intros z l'. change (z ∈ lof (<[l.1 := <[l.2 := li]> (default ∅ (mp_m p !! l.1))]> (mp_m p)) l' <-> (z = id /\ l' = l) \/ z ∈ lof (mp_m p) l').
    rewrite lof_insert. destruct (decide (l' = l)) as [->|Hl].
    + rewrite Hli, elem_of_cons. tauto.
    + tauto.
Qed.

Lemma addFor_all_ok id lset p : inv p -> NoDup lset -> (forall l, l ∈ lset -> id ∉ list_of p l) ->
  inv (fold_left (fun p l => addFor id l p) lset p)
  /\ forall z l', z ∈ list_of (fold_left (fun p l => addFor id l p) lset p) l'
                  <-> (z = id /\ l' ∈ lset) \/ z ∈ list_of p l'.
Proof.
  revert p. induction lset as [|l lset IH]; intros p Hp Hnd Hid; cbn [fold_left].
  - split; [exact Hp|]. intros z l'. rewrite elem_of_nil. tauto.
  - apply NoDup_cons in Hnd. destruct Hnd as [Hl Hnd].
    destruct (addFor_ok id l p Hp (Hid l ltac:(apply elem_of_cons; auto))) as [H1 H2].
    destruct (IH _ H1 Hnd) as [H3 H4].
    { intros l' Hl' Hin. apply H2 in Hin. destruct Hin as [[_ ->]|Hin]; [contradiction|].
      eapply Hid; [|exact Hin]. apply elem_of_cons. auto. }
    split; [exact H3|]. intros z l'. rewrite H4, H2, elem_of_cons. tauto.
Qed.

Lemma Add_ok id lset p : inv p -> NoDup (allPostingsKey :: lset) ->
  (forall l, l ∈ allPostingsKey :: lset -> id ∉ list_of p l) ->
  inv (Add id lset p)
  /\ forall z l', z ∈ list_of (Add id lset p) l'
                  <-> (z = id /\ l' ∈ allPostingsKey :: lset) \/ z ∈ list_of p l'.
Proof.
  intros Hp Hnd Hid. apply NoDup_cons in Hnd. destruct Hnd as [Hk Hnd]. unfold Add.
  destruct (addFor_all_ok id lset p Hp Hnd) as [H1 H2]; [intros l Hl; apply Hid, elem_of_cons; auto|].
  destruct (addFor_ok id allPostingsKey _ H1) as [H3 H4].
  { intros Hin. apply H2 in Hin. destruct Hin as [[_ Hin]|Hin]; [contradiction|].
    eapply Hid; [|exact Hin]. apply elem_of_cons. auto. }
  split; [exact H3|]. intros z l'. rewrite H4, H2, elem_of_cons. tauto.
Qed.

(** ** What [Delete] does *)

Lemma incr_stdpp_filter (P : Z -> Prop) `{!forall x, Decision (P x)} l : incr l -> incr (filter P l).
Proof.
  induction l as [|x l IH]; intros Hi; [constructor|]. destruct (incr_cons_inv _ _ Hi) as [H1 H2].
  rewrite filter_cons. destruct (decide (P x)); [|apply IH, H1]. apply incr_cons; [apply IH, H1|].
  intros z Hz. apply H2. apply list_elem_of_filter in Hz. apply Hz.
Qed.

Lemma process_lof deleted l m names l' :
  lof (process deleted l (m, names)).1 l'
  = if decide (l' = l) then filter (.∉ deleted) (lof m l) else lof m l'.
Proof.
  unfold process. change (default [] (default ∅ (m !! l.1) !! l.2)) with (lof m l).
  destruct (filter (.∉ deleted) (lof m l)) as [|x r] eqn:E; cbn [fst].
  - unfold lof at 1. destruct l as [n v], l' as [n' v']. cbn [fst snd]. destruct (decide (n' = n)) as [->|Hn].
    + rewrite lookup_alter_eq. destruct (m !! n) as [e|] eqn:Em; cbn.
      * destruct (decide (v' = v)) as [->|Hv].
        -- rewrite lookup_delete_eq. destruct (decide _); [reflexivity|congruence].
        -- rewrite lookup_delete_ne by congruence. destruct (decide _); [congruence|]. unfold lof. cbn. rewrite Em. reflexivity.
      * rewrite lookup_empty. cbn. destruct (decide _); [reflexivity|]. unfold lof. cbn. rewrite Em. cbn.
        rewrite lookup_empty. reflexivity.
    + rewrite lookup_alter_ne by congruence. destruct (decide _); [congruence|reflexivity].
  - rewrite lof_insert. destruct (decide (l' = l)); reflexivity.
Qed.

Lemma process_inv deleted l m names lvs : inv_except names m lvs ->
  let '(m', names') := process deleted l (m, names) in inv_except names' m' lvs /\ names ⊆ names'.
Proof.
  intros Hi. unfold process. change (default [] (default ∅ (m !! l.1) !! l.2)) with (lof m l).
  destruct l as [n v]. cbn [fst snd].
  destruct (filter (.∉ deleted) (lof m (n, v))) as [|x r] eqn:E.
  - split; [|set_solver]. split.
    + intros n' e v' li. rewrite lookup_alter_Some. intros [(-> & e0 & Em & ->)|[Hn Em]] Ee.
      * apply lookup_delete_Some in Ee. eapply (inv_lists _ _ _ Hi); [exact Em|apply Ee].
      * eapply (inv_lists _ _ _ Hi); eassumption.
    + intros n' e Hd. rewrite lookup_alter_ne by set_solver. apply (inv_nonempty _ _ _ Hi). set_solver.
    + apply (inv_nodup _ _ _ Hi).
    + intros n' v' Hd. rewrite lookup_alter_ne by set_solver. apply (inv_values _ _ _ Hi n'). set_solver.
  - split; [|reflexivity].
    assert (Hold : exists e li, m !! n = Some e /\ e !! v = Some li).
    { unfold lof in E. cbn [fst snd] in E. destruct (m !! n) as [e|]; cbn in E; [|rewrite lookup_empty in E; discriminate].
      destruct (e !! v) as [li|] eqn:Ev; [|discriminate]. eauto. }
    destruct Hold as (e0 & li0 & Em0 & Ev0). rewrite Em0. cbn [default]. split.
    + intros n' e v' li. destruct (decide (n' = n)) as [->|Hn].
      * rewrite lookup_insert_eq. intros [= <-]. destruct (decide (v' = v)) as [->|Hv].
        -- rewrite lookup_insert_eq. intros [= <-]. split; [discriminate|]. rewrite <- E.
           apply incr_stdpp_filter. eapply lof_incr. exact Hi.
        -- rewrite lookup_insert_ne by congruence. intros Ee. eapply (inv_lists _ _ _ Hi); eassumption.
      * rewrite lookup_insert_ne by congruence. apply (inv_lists _ _ _ Hi).
    + intros n' e Hd. destruct (decide (n' = n)) as [->|Hn].
      * rewrite lookup_insert_eq. intros [= <-]. apply insert_non_empty.
      * rewrite lookup_insert_ne by congruence. apply (inv_nonempty _ _ _ Hi). exact Hd.
    + apply (inv_nodup _ _ _ Hi).
    + intros n' v' Hd. rewrite (inv_values _ _ _ Hi n' v' Hd). destruct (decide (n' = n)) as [->|Hn].
      * rewrite lookup_insert_eq, Em0. cbn. destruct (decide (v' = v)) as [->|Hv].
        -- rewrite lookup_insert_eq, Ev0. split; eauto.
        -- rewrite lookup_insert_ne by congruence. reflexivity.
      * rewrite lookup_insert_ne by congruence. reflexivity.
Qed.

Lemma process_all deleted affected m names lvs : inv_except names m lvs ->
  let st := fold_left (fun st l => process deleted l st) affected (m, names) in
  inv_except st.2 st.1 lvs
  /\ forall l', lof st.1 l' = if decide (l' ∈ affected) then filter (.∉ deleted) (lof m l') else lof m l'.
Proof.
  revert m names. induction affected as [|l affected IH]; intros m names Hi; cbn [fold_left].
  - cbn. split; [exact Hi|]. intros l'. destruct (decide _) as [Hin|]; [|reflexivity].
    apply elem_of_nil in Hin. contradiction.
  - pose proof (process_inv deleted l m names lvs Hi) as Hp. pose proof (process_lof deleted l m names) as Hl.
    destruct (process deleted l (m, names)) as [m' names']. cbn [fst] in Hl. destruct Hp as [Hi' _].
    specialize (IH m' names' Hi'). cbn zeta in IH |- *. destruct IH as [IH1 IH2]. split; [exact IH1|].
    intros l'. rewrite IH2, Hl. destruct (decide (l' = l)) as [->|Hn].
    + rewrite (decide_True (P := l ∈ l :: affected)) by (apply elem_of_cons; auto).
      destruct (decide (l ∈ affected)); [|reflexivity]. rewrite list_filter_filter_l; [reflexivity|auto].
    + destruct (decide (l' ∈ affected)) as [Ha|Ha], (decide (l' ∈ l :: affected)) as [Hb|Hb]; try reflexivity;
        rewrite elem_of_cons in Hb; tauto.
Qed.

Section delete_ok.
Variable range_keys : gmap string (list Z) -> list string.
Hypothesis range_keys_perm : forall e, Permutation (range_keys e) (map_to_list e).*1.

Lemma range_keys_elem e v : v ∈ range_keys e <-> is_Some (e !! v).
Proof.
  rewrite range_keys_perm, list_elem_of_fmap. split.
  - intros [[k li] [-> Hin]]. apply elem_of_map_to_list in Hin. eauto.
  - intros [li E]. exists (v, li). split; [reflexivity|]. apply elem_of_map_to_list. exact E.
Qed.

Lemma not_dirty (n n' : string) (names : gset string) : n' ∉ names -> n' <> n -> n' ∉ {[n]} ∪ names.
Proof. rewrite not_elem_of_union, not_elem_of_singleton. auto. Qed.

Lemma refresh_ok p n names : inv_except ({[n]} ∪ names) (mp_m p) (mp_lvs p) ->
  let p' := refresh range_keys p n in
  inv_except names (mp_m p') (mp_lvs p') /\ mp_ordered p' = mp_ordered p
  /\ forall l, lof (mp_m p') l = lof (mp_m p) l.
Proof.
  intros Hi. unfold refresh. destruct (Nat.eqb_spec (size (default ∅ (mp_m p !! n))) 0) as [Hz|Hz];
    cbn [mp_m mp_lvs mp_ordered]; split; try (split; [reflexivity|]).
  - apply map_size_empty_iff in Hz. split.
    + intros n' e v li Em. apply lookup_delete_Some in Em. eapply (inv_lists _ _ _ Hi), Em.
    + intros n' e Hd Em. apply lookup_delete_Some in Em. apply (inv_nonempty _ _ _ Hi n' e); [|apply Em].
      apply not_dirty; [exact Hd|]. destruct Em as [Em _]. congruence.
    + intros n'. unfold vals_of. destruct (decide (n' = n)) as [->|Hn].
      * rewrite lookup_delete_eq. constructor.
      * rewrite lookup_delete_ne by congruence. apply (inv_nodup _ _ _ Hi).
    + intros n' v Hd. unfold vals_of. destruct (decide (n' = n)) as [->|Hn].
      * rewrite !lookup_delete_eq. cbn. rewrite lookup_empty, elem_of_nil. split; [contradiction|intros [? [=]]].
      * rewrite !lookup_delete_ne by congruence. apply (inv_values _ _ _ Hi n'). apply not_dirty; assumption.
  - intros l. unfold lof. apply map_size_empty_iff in Hz. destruct (decide (l.1 = n)) as [->|Hn].
    + rewrite lookup_delete_eq, Hz. reflexivity.
    + rewrite lookup_delete_ne by congruence. reflexivity.
  - assert (He : forall e, mp_m p !! n = Some e -> e <> ∅).
    { intros e Em ->. rewrite Em in Hz. apply Hz. apply map_size_empty_iff. reflexivity. }
    split.
    + apply (inv_lists _ _ _ Hi).
    + intros n' e Hd Em. destruct (decide (n' = n)) as [->|Hn]; [apply He, Em|].
      apply (inv_nonempty _ _ _ Hi n' e); [apply not_dirty; assumption|exact Em].
    + intros n'. unfold vals_of. destruct (decide (n' = n)) as [->|Hn].
      * rewrite lookup_insert_eq. cbn. rewrite range_keys_perm. apply NoDup_fst_map_to_list.
      * rewrite lookup_insert_ne by congruence. apply (inv_nodup _ _ _ Hi).
    + intros n' v Hd. unfold vals_of. destruct (decide (n' = n)) as [->|Hn].
      * rewrite lookup_insert_eq. cbn. apply range_keys_elem.
      * rewrite lookup_insert_ne by congruence. apply (inv_values _ _ _ Hi n'). apply not_dirty; assumption.
  - reflexivity.
Qed.

Lemma refresh_all ns p : inv_except (list_to_set ns) (mp_m p) (mp_lvs p) ->
  let p' := fold_left (refresh range_keys) ns p in
  inv_except ∅ (mp_m p') (mp_lvs p') /\ mp_ordered p' = mp_ordered p
  /\ forall l, lof (mp_m p') l = lof (mp_m p) l.
Proof.
  revert p. induction ns as [|n ns IH]; intros p Hi; cbn [fold_left]; [auto|].
  destruct (refresh_ok p n (list_to_set ns) Hi) as (H1 & H2 & H3).
  destruct (IH _ H1) as (H4 & H5 & H6). split; [exact H4|]. split; [congruence|].
  intros l. rewrite H6. apply H3.
Qed.

Lemma Delete_ok deleted affected p : inv p ->
  let p' := Delete range_keys deleted affected p in
  inv p' /\ forall l, list_of p' l =
    if decide (l ∈ allPostingsKey :: affected) then filter (.∉ deleted) (list_of p l) else list_of p l.
Proof.
  intros [Ho Hi]. unfold Delete.
  pose proof (process_all deleted (affected ++ [allPostingsKey]) (mp_m p) ∅ (mp_lvs p) Hi) as Hp.
  rewrite fold_left_app in Hp. cbn [fold_left] in Hp. cbn zeta in Hp.
  destruct (fold_left _ affected _) as [m names]. destruct (process deleted allPostingsKey (m, names)) as [m' names'].
  cbn [fst snd] in Hp. destruct Hp as [Hi' Hl].
  destruct (refresh_all (elements names') (mkMemPostings m' (mp_lvs p) (mp_ordered p))) as (H1 & H2 & H3).
  { rewrite list_to_set_elements_L. exact Hi'. }
  cbn zeta. split; [split; [rewrite H2; exact Ho|exact H1]|]. intros l.
  change (list_of ?q l) with (lof (mp_m q) l). rewrite H3. cbn [mp_m]. rewrite Hl.
  destruct (decide (l ∈ affected ++ [allPostingsKey])) as [Ha|Ha], (decide (l ∈ allPostingsKey :: affected)) as [Hb|Hb];
    try reflexivity; rewrite elem_of_app, list_elem_of_singleton in Ha; rewrite elem_of_cons in Hb; tauto.
Qed.
End delete_ok.

(** ** The index as a set of pairs *)

Inductive mp_op :=
| OpAdd (id : Z) (lset : list Label)
| OpDelete (deleted : gset Z) (affected : list Label).

Definition mp_step (range_keys : gmap string (list Z) -> list string) (p : MemPostings) (o : mp_op) : MemPostings :=
  match o with
  | OpAdd id lset => Add id lset p
  | OpDelete deleted affected => Delete range_keys deleted affected p
  end.

(** What the index promises: which series is indexed under which label. *)
Abbreviation index := (gset (Z * Label)).

Definition index_step (s : index) (o : mp_op) : index :=
  match o with
  | OpAdd id lset => list_to_set (map (pair id) (allPostingsKey :: lset)) ∪ s
  | OpDelete deleted affected =>
      filter (fun x => ~ (x.1 ∈ deleted /\ x.2 ∈ allPostingsKey :: affected)) s
  end.

(** A label set holds a label once, never the key of all postings, and a series
    is added once. *)
Definition op_ok (s : index) (o : mp_op) : Prop :=
  match o with
  | OpAdd id lset => NoDup (allPostingsKey :: lset) /\ forall l, l ∈ allPostingsKey :: lset -> (id, l) ∉ s
  | OpDelete _ _ => True
  end.

Fixpoint ops_ok (s : index) (ops : list mp_op) : Prop :=
  match ops with [] => True | o :: rest => op_ok s o /\ ops_ok (index_step s o) rest end.

Definition represents (p : MemPostings) (s : index) : Prop :=
  inv p /\ forall id l, id ∈ list_of p l <-> (id, l) ∈ s.

Lemma represents_new : represents NewMemPostings ∅.
Proof.
  split.
  - split; [reflexivity|]. split.
    + intros n e v li. cbn. rewrite lookup_empty. discriminate.
    + intros n e _. cbn. rewrite lookup_empty. discriminate.
    + intros n. unfold vals_of. cbn. rewrite lookup_empty. constructor.
    + intros n v _. unfold vals_of. cbn. rewrite !lookup_empty. cbn. rewrite lookup_empty, elem_of_nil.
      split; [contradiction|intros [? [=]]].
  - intros id l. unfold list_of. cbn. rewrite lookup_empty. cbn. rewrite lookup_empty. cbn. rewrite elem_of_nil. set_solver.
Qed.

Lemma elem_of_pairs (id z : Z) (l : Label) ls : (z, l) ∈ map (pair id) ls <-> z = id /\ l ∈ ls.
Proof.
  rewrite list_elem_of_In, in_map_iff. split.
  - intros (l' & [= -> ->] & Hl). split; [reflexivity|]. apply list_elem_of_In. exact Hl.
  - intros [-> Hl]. exists l. split; [reflexivity|]. apply list_elem_of_In. exact Hl.
Qed.

Section run.
Variable range_keys : gmap string (list Z) -> list string.
Hypothesis range_keys_perm : forall e, Permutation (range_keys e) (map_to_list e).*1.

Lemma step_represents p s o : represents p s -> op_ok s o ->
  represents (mp_step range_keys p o) (index_step s o).
Proof.
  intros [Hi Hs] Ho. destruct o as [id lset|deleted affected]; cbn [mp_step index_step op_ok] in *.
  - destruct Ho as [Hnd Hfr]. destruct (Add_ok id lset p Hi Hnd) as [H1 H2].
    { intros l Hl Hin. apply Hs in Hin. apply (Hfr l Hl Hin). }
    split; [exact H1|]. intros z l'. rewrite H2, Hs, elem_of_union, elem_of_list_to_set, elem_of_pairs. reflexivity.
  - destruct (Delete_ok range_keys range_keys_perm deleted affected p Hi) as [H1 H2]. split; [exact H1|].
    intros z l'. rewrite H2, elem_of_filter. cbn [fst snd].
    destruct (decide (l' ∈ allPostingsKey :: affected)) as [Hl|Hl].
    + rewrite list_elem_of_filter, Hs. tauto.
    + rewrite Hs. tauto.
Qed.

Lemma run_represents ops p s : represents p s -> ops_ok s ops ->
  represents (fold_left (mp_step range_keys) ops p) (fold_left index_step ops s).
Proof.
  revert p s. induction ops as [|o ops IH]; intros p s Hr Ho; [exact Hr|].
  destruct Ho as [Ho Hos]. apply IH; [apply step_represents; assumption|exact Hos].
Qed.
End run.

Lemma label_values_spec p s n : represents p s ->
  NoDup (LabelValues p n 0) /\ forall v, v ∈ LabelValues p n 0 <-> exists id, (id, (n, v)) ∈ s.
Proof.
  intros [[_ Hi] Hs]. unfold LabelValues. cbn [Nat.ltb Nat.leb andb].
  change (default [] (mp_lvs p !! n)) with (vals_of (mp_lvs p) n). split; [apply (inv_nodup _ _ _ Hi)|].
  intros v. rewrite (inv_values _ _ _ Hi n v (not_elem_of_empty n)). split.
  - intros [li E]. destruct (mp_m p !! n) as [e|] eqn:Em; cbn in E; [|rewrite lookup_empty in E; discriminate].
    destruct (inv_lists _ _ _ Hi _ _ _ _ Em E) as [Hne _]. destruct li as [|id li]; [congruence|].
    exists id. apply Hs. unfold list_of. cbn. rewrite Em. cbn. rewrite E. apply elem_of_cons. auto.
  - intros [id Hin]. apply Hs in Hin. unfold list_of in Hin. cbn in Hin.
    destruct (default ∅ (mp_m p !! n) !! v); [eauto|]. apply elem_of_nil in Hin. contradiction.
Qed.

Lemma label_names_spec p s n : represents p s ->
  n ∈ LabelNames p <-> n <> allPostingsKey.1 /\ exists v id, (id, (n, v)) ∈ s.
Proof.
  intros [[_ Hi] Hs]. unfold LabelNames. rewrite list_elem_of_filter, list_elem_of_In, in_map_iff.
  apply and_iff_compat_l. split.
  - intros ([k e] & <- & Hin). apply list_elem_of_In, elem_of_map_to_list in Hin. cbn [fst].
    pose proof (inv_nonempty _ _ _ Hi k e (not_elem_of_empty k) Hin) as Hne.
    apply map_choose in Hne. destruct Hne as (v & li & E).
    destruct (inv_lists _ _ _ Hi _ _ _ _ Hin E) as [Hnl _]. destruct li as [|id li]; [congruence|].
    exists v, id. apply Hs. unfold list_of. cbn. rewrite Hin. cbn. rewrite E. apply elem_of_cons. auto.
  - intros (v & id & Hin). apply Hs in Hin. unfold list_of in Hin. cbn in Hin.
    destruct (mp_m p !! n) as [e|] eqn:Em; cbn in Hin; [|rewrite lookup_empty in Hin; apply elem_of_nil in Hin; contradiction].
    exists (n, e). split; [reflexivity|]. apply list_elem_of_In, elem_of_map_to_list. exact Em.
Qed.

(** ** Bulk loading *)

(** An ordered index whose lists are the sorted lists of an unordered one. *)
Definition sorted_copy (po pu : MemPostings) : Prop :=
  mp_ordered po = true /\ mp_ordered pu = false /\ mp_lvs po = mp_lvs pu
  /\ mp_m po = fmap (M := gmap string) (fmap (M := gmap string) (merge_sort Z.le)) (mp_m pu).

Lemma merge_sort_ssorted l : StronglySorted Z.le (merge_sort Z.le l).
Proof. apply StronglySorted_merge_sort; apply _. Qed.

Lemma sort_snoc l id :
  repair (length (merge_sort Z.le l ++ [id]) - 1) (merge_sort Z.le l ++ [id]) = merge_sort Z.le (l ++ [id]).
Proof.
  rewrite repair_snoc. apply (StronglySorted_unique Z.le); [| apply merge_sort_ssorted |].
  - apply repair_sorted; [apply _|intros; lia|auto|apply merge_sort_ssorted].
  - rewrite repair_perm, !merge_sort_Permutation. apply Permutation_cons_append.
Qed.

Lemma sorted_copy_addFor id l po pu : sorted_copy po pu -> sorted_copy (addFor id l po) (addFor id l pu).
Proof.
  intros (H1 & H2 & H3 & H4). unfold addFor. rewrite H1, H2, H3, H4.
  assert (Hvm : default ∅ (fmap (M := gmap string) (fmap (M := gmap string) (merge_sort Z.le)) (mp_m pu) !! l.1)
                = fmap (M := gmap string) (merge_sort Z.le) (default ∅ (mp_m pu !! l.1))).
  { rewrite lookup_fmap. destruct (mp_m pu !! l.1); [reflexivity|]. cbn. rewrite fmap_empty. reflexivity. }
  rewrite Hvm, lookup_fmap. split; [reflexivity|]. split; [reflexivity|]. cbn [mp_lvs mp_m]. split.
  - destruct (default ∅ (mp_m pu !! l.1) !! l.2); reflexivity.
  - rewrite !fmap_insert. do 2 f_equal. destruct (default ∅ (mp_m pu !! l.1) !! l.2) as [li|]; cbn [fmap option_fmap option_map default].
    + apply sort_snoc.
    + reflexivity.
Qed.

Lemma sorted_copy_adds series po pu : sorted_copy po pu ->
  sorted_copy (fold_left (fun p x => Add x.1 x.2 p) series po) (fold_left (fun p x => Add x.1 x.2 p) series pu).
Proof.
  revert po pu. induction series as [|[id lset] series IH]; intros po pu Hc; [exact Hc|]. cbn [fold_left fst snd].
  apply IH. unfold Add. apply sorted_copy_addFor. revert po pu Hc.
  induction lset as [|l lset IHl]; intros po pu Hc; [exact Hc|]. cbn [fold_left]. apply IHl, sorted_copy_addFor, Hc.
Qed.

(** Every list is sent to a worker, and only once. *)
Lemma concat_jobs lists : forall nextJob, concat (send_jobs nextJob lists) = nextJob ++ lists.
Proof.
  induction lists as [|l lists IH]; intros job; cbn [send_jobs].
  - rewrite app_nil_r. destruct job; [reflexivity|]. cbn. rewrite app_nil_r. reflexivity.
  - destruct (_ <=? _)%nat; [cbn [concat]; rewrite (IH []), <- app_assoc; reflexivity|]. rewrite IH, <- app_assoc. reflexivity.
Qed.

(** The list of a key, if there is one. *)
Definition list_at (m : gmap string (gmap string (list Z))) (l : Label) : option (list Z) := m !! l.1 ≫= (.!! l.2).

Lemma list_keys_spec m l : l ∈ list_keys m <-> is_Some (list_at m l).
Proof.
  destruct l as [n v]. unfold list_keys, list_at. cbn [fst snd]. rewrite list_elem_of_bind. split.
  - intros ([n' e] & H & Hin). apply elem_of_map_to_list in Hin. apply list_elem_of_bind in H as ([v' x] & H & Hv). apply elem_of_map_to_list in Hv.
    apply list_elem_of_singleton in H as [= -> ->]. rewrite Hin. cbn. rewrite Hv. eauto.
  - intros [x Hx]. destruct (m !! n) as [e|] eqn:E; [|discriminate]. cbn in Hx. exists (n, e). split; [|apply elem_of_map_to_list; exact E].
    apply list_elem_of_bind. exists (v, x). split; [left|apply elem_of_map_to_list; exact Hx].
Qed.

Lemma list_keys_NoDup m : NoDup (list_keys m).
Proof.
  unfold list_keys. apply NoDup_bind.
  - intros [n e] [n' e'] l H1 H2 Hl Hl'. apply elem_of_map_to_list in H1, H2. apply list_elem_of_bind in Hl as ([v x] & Hl & _), Hl' as ([v' x'] & Hl' & _).
    apply list_elem_of_singleton in Hl as ->, Hl' as [= -> ->]. congruence.
  - intros [n e] _. apply NoDup_bind; [|intros [v x] _; apply NoDup_singleton|apply NoDup_map_to_list].
    intros [v x] [v' x'] l H1 H2 Hl Hl'. apply elem_of_map_to_list in H1, H2. apply list_elem_of_singleton in Hl as ->, Hl' as [= ->]. congruence.
  - apply NoDup_map_to_list.
Qed.

Lemma sort_list_at m k l : list_at (sort_list m k) l = (if bool_decide (k = l) then merge_sort Z.le else id) <$> list_at m l.
Proof.
  unfold list_at, sort_list. destruct k as [n v], l as [n' v']. cbn [fst snd]. destruct (decide (n = n')) as [->|Hn].
  - rewrite lookup_alter_eq. destruct (m !! n') as [e|]; [|reflexivity]. cbn. destruct (decide (v = v')) as [->|Hv].
    + rewrite lookup_alter_eq, bool_decide_eq_true_2 by reflexivity. reflexivity.
    + rewrite lookup_alter_ne, bool_decide_eq_false_2, option_fmap_id by congruence. reflexivity.
  - rewrite lookup_alter_ne, bool_decide_eq_false_2, option_fmap_id by congruence. reflexivity.
Qed.

Lemma sort_lists_at ks : forall m l, NoDup ks -> list_at (fold_left sort_list ks m) l = (if bool_decide (l ∈ ks) then merge_sort Z.le else id) <$> list_at m l.
Proof.
  induction ks as [|k ks IH]; intros m l Hnd; cbn [fold_left]; [rewrite bool_decide_eq_false_2, option_fmap_id by apply not_elem_of_nil; reflexivity|].
  apply NoDup_cons in Hnd as [Hk Hnd]. rewrite (IH _ _ Hnd), sort_list_at, <- option_fmap_compose. apply option_fmap_ext. intros x. cbn.
  destruct (decide (k = l)) as [->|Hkl].
  - rewrite (bool_decide_eq_false_2 (l ∈ ks)), (bool_decide_eq_true_2 (l = l)), (bool_decide_eq_true_2 (l ∈ l :: ks)) by (exact Hk || reflexivity || left). reflexivity.
  - rewrite (bool_decide_eq_false_2 (k = l)) by exact Hkl. unfold id at 1. f_equal. erewrite bool_decide_ext; [reflexivity|]. rewrite elem_of_cons. intuition congruence.
Qed.

(** Sorting never adds or removes a name. *)
Lemma sort_lists_name ks : forall m n, fold_left sort_list ks m !! n = None <-> m !! n = None.
Proof. induction ks as [|k ks IH]; intros m n; cbn [fold_left]; [reflexivity|]. rewrite IH. apply lookup_alter_None. Qed.

(** Every list is sorted, whatever the order. *)
Lemma sort_lists_all m ks : ks ≡ₚ list_keys m -> fold_left sort_list ks m = fmap (M := gmap string) (fmap (M := gmap string) (merge_sort Z.le)) m.
Proof.
  intros Hp. assert (Hnd : NoDup ks) by (rewrite Hp; apply list_keys_NoDup). apply map_eq. intros n. rewrite lookup_fmap. destruct (m !! n) as [e|] eqn:E; cbn.
  - destruct (fold_left sort_list ks m !! n) as [e'|] eqn:E'; [|apply sort_lists_name in E'; congruence]. f_equal. apply map_eq. intros v. rewrite lookup_fmap.
    pose proof (sort_lists_at ks m (n, v) Hnd) as H. unfold list_at in H. cbn [fst snd] in H. rewrite E, E' in H. cbn in H. rewrite H.
    destruct (e !! v) as [x|] eqn:Ev; [|destruct (bool_decide _); reflexivity]. rewrite bool_decide_eq_true_2; [reflexivity|]. rewrite Hp. apply list_keys_spec. unfold list_at. cbn. rewrite E. cbn. rewrite Ev. eauto.
  - apply sort_lists_name. exact E.
Qed.

(** ** Properties *)

(** C9: after any sequence of additions and deletions, started from an empty
    index, [MemPostings] represents exactly the set of (series, label) pairs
    that were added and not deleted: the list of every label is strictly
    increasing and holds exactly its series, the values of every name are
    listed once each, and the names are exactly those still in use.  This
    holds for every order in which Go may range over its maps. *)
Theorem mem_postings_refines (range_keys : gmap string (list Z) -> list string) (ops : list mp_op) :
  (forall e, Permutation (range_keys e) (map_to_list e).*1) -> ops_ok ∅ ops ->
  let p := fold_left (mp_step range_keys) ops NewMemPostings in
  let s := fold_left index_step ops ∅ in
  (forall l, incr (list_of p l) /\ forall id, id ∈ list_of p l <-> (id, l) ∈ s)
  /\ (forall n, NoDup (LabelValues p n 0) /\ forall v, v ∈ LabelValues p n 0 <-> exists id, (id, (n, v)) ∈ s)
  /\ (forall n, n ∈ LabelNames p <-> n <> allPostingsKey.1 /\ exists v id, (id, (n, v)) ∈ s).
Proof.
  intros Hrk Hok p s. pose proof (run_represents range_keys Hrk ops _ _ represents_new Hok) as Hr.
  fold p s in Hr. split; [|split].
  - intros l. split; [|exact (fun id => proj2 Hr id l)]. destruct Hr as [[_ Hi] _]. eapply lof_incr. exact Hi.
  - intros n. apply label_values_spec. exact Hr.
  - intros n. apply label_names_spec. exact Hr.
Qed.

Lemma mem_postings_refines_witness :
  let ops := [OpAdd 7 [("job", "a")]; OpAdd 3 [("job", "a")]; OpDelete {[7]} [("job", "a")]]%string in
  let p := fold_left (mp_step (fun e => (map_to_list e).*1)) ops NewMemPostings in
  incr (list_of p ("job", "a")%string) /\ list_of p ("job", "a")%string = [3].
Proof.
  cbv zeta. split; [|vm_compute; reflexivity].
  refine (proj1 (proj1 (mem_postings_refines (fun e => (map_to_list e).*1) _ (fun e => Permutation_refl _) _) _)).
  cbn [ops_ok op_ok index_step]. split; [|split; [|split; [exact I|exact I]]].
  - split; [apply (bool_decide_unpack _); vm_compute; exact I|]. intros l _. set_solver.
  - split; [apply (bool_decide_unpack _); vm_compute; exact I|]. intros l _ Hin.
    apply elem_of_union in Hin. destruct Hin as [Hin|Hin]; [|set_solver].
    apply elem_of_list_to_set, elem_of_pairs in Hin. destruct Hin as [[=] _].
Defined.

(** C35: filling an unordered index and calling [EnsureOrder] gives exactly the
    index that ordered insertions would have built, in whatever order Go ranges over
    the lists and in whatever order the workers sort the lists of the batches they get. *)
Theorem ensure_order_equivalent (range_lists : gmap string (gmap string (list Z)) -> list Label) (schedule : list (list Label) -> list Label) (series : list (Z * list Label)) :
  (forall m, range_lists m ≡ₚ list_keys m) -> (forall jobs, schedule jobs ≡ₚ concat jobs) ->
  EnsureOrder range_lists schedule (fold_left (fun p x => Add x.1 x.2 p) series NewUnorderedMemPostings)
  = fold_left (fun p x => Add x.1 x.2 p) series NewMemPostings.
Proof.
  intros Hr Hs. pose proof (sorted_copy_adds series NewMemPostings NewUnorderedMemPostings) as Hc.
  destruct Hc as (H1 & H2 & H3 & H4).
  { split; [reflexivity|]. split; [reflexivity|]. split; [reflexivity|]. cbn. rewrite fmap_empty. reflexivity. }
  unfold EnsureOrder. rewrite H2, (sort_lists_all _ (schedule _)) by (rewrite Hs, concat_jobs; apply Hr).
  destruct (fold_left _ series NewMemPostings) as [m lvs o]. cbn [mp_m mp_lvs mp_ordered] in *. congruence.
Qed.

Lemma ensure_order_equivalent_witness :
  EnsureOrder list_keys (fun jobs => rev (concat jobs)) (fold_left (fun p x => Add x.1 x.2 p) [(7, [("job", "a")]); (3, [("job", "a")])]%string NewUnorderedMemPostings)
  = fold_left (fun p x => Add x.1 x.2 p) [(7, [("job", "a")]); (3, [("job", "a")])]%string NewMemPostings.
Proof.
  apply (ensure_order_equivalent list_keys (fun jobs => rev (concat jobs))); [reflexivity|]. intros jobs. symmetry. apply Permutation_rev.
Defined.
