(* ===== verification/Labels.v ===== *)
(** * Label sets: [model/labels/labels_stringlabels.go] and [labels_common.go]

    The default representation of a label set: one flat string in which every
    name and every value is preceded by its length.  The package assumes that
    these strings are built by itself; an index out of range is a panic. *)

From stdpp Require Import base list numbers sorting.
From Stdlib Require Import ZArith Lia Sorted.
From S2P Require Import Prelude Encoding.

(** A Go string is its bytes. *)
Record Label := mkLabel { Name : bytes; Value : bytes }.

#[export] Instance label_eq_dec : EqDecision Label.
Proof. solve_decision. Defined.

(** [strings.Compare] and the comparison of Go strings. *)
Fixpoint str_compare (a b : bytes) : comparison :=
  match a, b with
  | [], [] => Eq
  | [], _ :: _ => Lt
  | _ :: _, [] => Gt
  | x :: a', y :: b' => match Z.compare x y with Eq => str_compare a' b' | c => c end
  end.
Definition str_ltb (a b : bytes) : bool := match str_compare a b with Lt => true | _ => false end.
Definition str_eqb (a b : bytes) : bool := match str_compare a b with Eq => true | _ => false end.
Definition str_le (a b : bytes) : Prop := str_compare a b <> Gt.

#[export] Instance str_le_dec a b : Decision (str_le a b).
Proof. unfold str_le. destruct (str_compare a b); [left|left|right]; congruence. Defined.

Definition label_le (a b : Label) : Prop := str_le (Name a) (Name b).
#[export] Instance label_le_dec a b : Decision (label_le a b).
Proof. unfold label_le. apply _. Defined.

(** ** Reading *)

Definition byte_at (data : bytes) (i : nat) : outcome Z :=
  match data !! i with Some b => Ret b | None => Panic end.

Definition decodeSize (data : bytes) (index : nat) : outcome (nat * nat) :=
  outcome_bind (byte_at data index) (fun b =>
    let index := S index in
    if b =? 255 then
      outcome_bind (byte_at data index) (fun b0 =>
      outcome_bind (byte_at data (index + 1)) (fun b1 =>
      outcome_bind (byte_at data (index + 2)) (fun b2 =>
        Ret (Z.to_nat (b0 + Z.shiftl b1 8 + Z.shiftl b2 16), (index + 3)%nat))))
    else Ret (Z.to_nat b, index)).

(** [data[i:j]] *)
Definition str_slice (data : bytes) (i j : nat) : outcome bytes :=
  if (j <? i)%nat || (length data <? j)%nat then Panic else Ret (slice data i j).

Definition decodeString (data : bytes) (index : nat) : outcome (bytes * nat) :=
  outcome_bind (decodeSize data index) (fun '(size, index) =>
    outcome_bind (str_slice data index (index + size)) (fun s => Ret (s, (index + size)%nat))).

(** [Range], as the list of the labels it visits.  The index grows with every
    length that is read, so a fuel of the length of the data is enough. *)
Fixpoint range_loop (fuel : nat) (data : bytes) (i : nat) : outcome (list Label) :=
  if (length data <=? i)%nat then Ret []
  else
    match fuel with
    | O => Panic
    | S f =>
        outcome_bind (decodeString data i) (fun '(n, i) =>
        outcome_bind (decodeString data i) (fun '(v, i) =>
        outcome_bind (range_loop f data i) (fun r => Ret (mkLabel n v :: r))))
    end.
Definition Range (data : bytes) : outcome (list Label) := range_loop (length data) data 0.

(** [Len] skips the strings without slicing them. *)
Fixpoint len_loop (fuel : nat) (data : bytes) (i count : nat) : outcome nat :=
  if (length data <=? i)%nat then Ret count
  else
    match fuel with
    | O => Panic
    | S f =>
        outcome_bind (decodeSize data i) (fun '(size, i) =>
        outcome_bind (decodeSize data (i + size)) (fun '(size, i) =>
          len_loop f data (i + size) (S count)))
    end.
Definition Len (data : bytes) : outcome nat := len_loop (length data) data 0 0.

(** The loop of [Get] and [Has]: the index just after the name that was found. *)
Fixpoint find_loop (fuel : nat) (data name : bytes) (i : nat) : outcome (option nat) :=
  if (length data <=? i)%nat then Ret None
  else
    match fuel with
    | O => Panic
    | S f =>
        outcome_bind (decodeSize data i) (fun '(size, i) =>
        outcome_bind (byte_at data i) (fun b =>
          let next i :=
            outcome_bind (decodeSize data i) (fun '(size, i) => find_loop f data name (i + size)) in
          if b =? nth 0 name 0 then
            outcome_bind (str_slice data i (i + size)) (fun lName =>
              if str_eqb lName name then Ret (Some (i + size)%nat) else next (i + size)%nat)
          else if nth 0 name 0 <? b then Ret None
          else next (i + size)%nat))
    end.

Definition Get (data name : bytes) : outcome bytes :=
  if (length name =? 0)%nat then Ret []
  else outcome_bind (find_loop (length data) data name 0) (fun r =>
    match r with
    | Some i => outcome_bind (decodeString data i) (fun '(lValue, _) => Ret lValue)
    | None => Ret []
    end).

Definition Has (data name : bytes) : outcome bool :=
  if (length name =? 0)%nat then Ret false
  else outcome_bind (find_loop (length data) data name 0) (fun r =>
    Ret (match r with Some _ => true | None => false end)).

Fixpoint dup_loop (fuel : nat) (data : bytes) (i : nat) (prevName : bytes) : outcome (bytes * bool) :=
  if (length data <=? i)%nat then Ret ([], false)
  else
    match fuel with
    | O => Panic
    | S f =>
        outcome_bind (decodeString data i) (fun '(lName, i) =>
        outcome_bind (decodeString data i) (fun '(_, i) =>
          if str_eqb lName prevName then Ret (lName, true) else dup_loop f data i lName))
    end.
Definition HasDuplicateLabelNames (data : bytes) : outcome (bytes * bool) :=
  dup_loop (length data) data 0 [].

(** [Labels.Validate]: the first error of the function. *)
Fixpoint validate_labels {St E} (fuel : nat) (f : Label -> St -> option E * St) (data : bytes) (i : nat) (st : St)
    : outcome (option E * St) :=
  if (length data <=? i)%nat then Ret (None, st)
  else
    match fuel with
    | O => Panic
    | S fuel' =>
        outcome_bind (decodeString data i) (fun '(lName, i) =>
        outcome_bind (decodeString data i) (fun '(lValue, i) =>
          match f (mkLabel lName lValue) st with
          | (Some err, st) => Ret (Some err, st)
          | (None, st) => validate_labels fuel' f data i st
          end))
    end.
Definition Validate {St E} (f : Label -> St -> option E * St) (data : bytes) (st : St) : outcome (option E * St) :=
  validate_labels (length data) f data 0 st.

(** ** Comparing *)

(** The first loop compares eight bytes at a time, the second one byte. *)
Fixpoint words_loop (fuel : nat) (shorter longer : bytes) (i : nat) : nat :=
  match fuel with
  | O => i
  | S f =>
      if (Z.of_nat i <? Z.of_nat (length shorter) - 8) &&
         bool_decide (slice shorter i (i + 8) = slice longer i (i + 8))
      then words_loop f shorter longer (i + 8)
      else i
  end.
Fixpoint bytes_loop (fuel : nat) (shorter longer : bytes) (i : nat) : nat :=
  match fuel with
  | O => i
  | S f =>
      if (i <? length shorter)%nat && (nth i shorter 0 =? nth i longer 0)
      then bytes_loop f shorter longer (S i)
      else i
  end.

(** The walk to the field that holds the first difference. *)
Fixpoint field_loop (fuel : nat) (data : bytes) (first i : nat) : outcome nat :=
  match fuel with
  | O => Panic
  | S f =>
      outcome_bind (decodeSize data i) (fun '(size, nextI) =>
        if (nextI + size <=? first)%nat then field_loop f data first (nextI + size) else Ret i)
  end.

Definition Compare (a b : bytes) : outcome Z :=
  let '(shorter, longer) := if (length b <? length a)%nat then (b, a) else (a, b) in
  let i := words_loop (length shorter) shorter longer 0 in
  let i := bytes_loop (length shorter) shorter longer i in
  if (i =? length shorter)%nat then Ret (Z.of_nat (length a) - Z.of_nat (length b))
  else
    outcome_bind (field_loop (S (length a)) a i 0) (fun i =>
    outcome_bind (decodeString a i) (fun '(aStr, _) =>
    outcome_bind (decodeString b i) (fun '(bStr, _) =>
      Ret (if str_ltb aStr bStr then -1 else 1)))).

(** ** Writing *)

Definition sizeWhenEncoded (x : Z) : outcome nat :=
  if x <? 255 then Ret 1%nat else if x <=? Z.shiftl 1 24 then Ret 4%nat else Panic.

Definition labelSize (m : Label) : outcome nat :=
  outcome_bind (sizeWhenEncoded (Z.of_nat (length (Name m)))) (fun n1 =>
  outcome_bind (sizeWhenEncoded (Z.of_nat (length (Value m)))) (fun n2 =>
    Ret (length (Name m) + n1 + (length (Value m) + n2))%nat)).

Fixpoint labelsSize (lbls : list Label) : outcome nat :=
  match lbls with
  | [] => Ret 0%nat
  | e :: rest => outcome_bind (labelSize e) (fun n =>
                 outcome_bind (labelsSize rest) (fun m => Ret (n + m)%nat))
  end.

(** [copy(data[i:], src)] with room for all of [src]. *)
Definition copy_at (data : bytes) (i : nat) (src : bytes) : bytes :=
  take i data ++ src ++ drop (i + length src) data.

(** The buffer is filled from its end: [offset] is the first byte written. *)
Definition encodeSize (data : bytes) (offset v : nat) : outcome (bytes * nat) :=
  let z := Z.of_nat v in
  if z <? 255 then
    if (offset <? 1)%nat then Panic else Ret (copy_at data (offset - 1) [u8 z], (offset - 1)%nat)
  else
    if (offset <? 4)%nat then Panic
    else Ret (copy_at data (offset - 4) [255; u8 z; u8 (Z.shiftr z 8); u8 (Z.shiftr z 16)], (offset - 4)%nat).

(** Writes the label so that it ends at [i]; returns where it starts. *)
Definition marshalLabelToSizedBuffer (m : Label) (data : bytes) (i : nat) : outcome (bytes * nat) :=
  if (i <? length (Value m))%nat then Panic
  else
    let i := (i - length (Value m))%nat in
    outcome_bind (encodeSize (copy_at data i (Value m)) i (length (Value m))) (fun '(data, i) =>
      if (i <? length (Name m))%nat then Panic
      else
        let i := (i - length (Name m))%nat in
        encodeSize (copy_at data i (Name m)) i (length (Name m))).

(** The loop from the last label to the first. *)
Fixpoint marshal_rev (rlbls : list Label) (data : bytes) (i : nat) : outcome (bytes * nat) :=
  match rlbls with
  | [] => Ret (data, i)
  | m :: rest => outcome_bind (marshalLabelToSizedBuffer m data i) (fun '(data, i) => marshal_rev rest data i)
  end.
Definition marshalLabelsToSizedBuffer (lbls : list Label) (data : bytes) : outcome bytes :=
  outcome_bind (marshal_rev (rev lbls) data (length data)) (fun '(data, _) => Ret data).

(** [buf := make([]byte, labelsSize(ls)); marshalLabelsToSizedBuffer(ls, buf)] *)
Definition marshal (ls : list Label) : outcome bytes :=
  outcome_bind (labelsSize ls) (fun size => marshalLabelsToSizedBuffer ls (replicate size 0)).

(** The sort is by name; the order of equal names is not specified by Go. *)
Definition sort_labels (ls : list Label) : list Label := merge_sort label_le ls.

Definition New (ls : list Label) : outcome bytes := marshal (sort_labels ls).

Definition appendLabelTo (buf : bytes) (m : Label) : outcome bytes :=
  outcome_bind (labelSize m) (fun size =>
    let buf := buf ++ replicate size 0 in
    outcome_bind (marshalLabelToSizedBuffer m buf (length buf)) (fun '(buf, _) => Ret buf)).

(** ** [ScratchBuilder] *)
Record ScratchBuilder := mkScratch { sb_add : list Label; sb_output : bytes }.

Definition sb_Reset (b : ScratchBuilder) : ScratchBuilder := mkScratch [] [].
Definition sb_Add (name value : bytes) (b : ScratchBuilder) : ScratchBuilder :=
  mkScratch (sb_add b ++ [mkLabel name value]) (sb_output b).
Definition sb_Sort (b : ScratchBuilder) : ScratchBuilder := mkScratch (sort_labels (sb_add b)) (sb_output b).
Definition sb_Assign (l : bytes) (b : ScratchBuilder) : ScratchBuilder := mkScratch (sb_add b) l.
Definition sb_Labels (b : ScratchBuilder) : outcome (bytes * ScratchBuilder) :=
  match sb_output b with
  | [] => outcome_bind (marshal (sb_add b)) (fun data => Ret (data, mkScratch (sb_add b) data))
  | out => Ret (out, b)
  end.

(** ** [Builder] *)
Record Builder := mkBuilder { b_base : bytes; b_del : list bytes; b_add : list Label }.

Definition b_Reset (base : bytes) : outcome Builder :=
  outcome_bind (Range base) (fun ls =>
    Ret (mkBuilder base (omap (fun l => if bool_decide (Value l = []) then Some (Name l) else None) ls) [])).
Definition NewBuilder (base : bytes) : outcome Builder := b_Reset base.

(** [for i, a := range b.add]: the range is over the slice as it was, [k] more
    elements from [i]; [append(b.add[:i], b.add[i+1:]...)] shifts its array in
    place, and [len] is the current length of [b.add]. *)
Fixpoint del_loop (k : nat) (n : bytes) (arr : list Label) (len i : nat) : outcome (list Label * nat) :=
  match k with
  | O => Ret (arr, len)
  | S k' =>
      match arr !! i with
      | None => Panic
      | Some a =>
          if str_eqb (Name a) n then
            if (len <? S i)%nat then Panic
            else
              let tail := take (len - S i) (drop (S i) arr) in
              del_loop k' n (take i arr ++ tail ++ drop (i + length tail) arr) (len - 1) (S i)
          else del_loop k' n arr len (S i)
      end
  end.

Definition b_Del1 (b : Builder) (n : bytes) : outcome Builder :=
  outcome_bind (del_loop (length (b_add b)) n (b_add b) (length (b_add b)) 0) (fun '(arr, len) =>
    Ret (mkBuilder (b_base b) (b_del b ++ [n]) (take len arr))).

Fixpoint b_Del (b : Builder) (ns : list bytes) : outcome Builder :=
  match ns with
  | [] => Ret b
  | n :: rest => outcome_bind (b_Del1 b n) (fun b => b_Del b rest)
  end.

Definition contains (ns : list bytes) (n : bytes) : bool := existsb (fun m => str_eqb m n) ns.

Definition b_Keep (b : Builder) (ns : list bytes) : outcome Builder :=
  outcome_bind (Range (b_base b)) (fun ls =>
    Ret (mkBuilder (b_base b)
           (b_del b ++ omap (fun l => if contains ns (Name l) then None else Some (Name l)) ls) (b_add b))).

(** The loop of [Set]: the first entry of that name gets the value. *)
Fixpoint set_value (n v : bytes) (add : list Label) : option (list Label) :=
  match add with
  | [] => None
  | a :: rest => if str_eqb (Name a) n then Some (mkLabel (Name a) v :: rest)
                 else match set_value n v rest with Some r => Some (a :: r) | None => None end
  end.

Definition b_Set (b : Builder) (n v : bytes) : outcome Builder :=
  if (length v =? 0)%nat then b_Del b [n]
  else Ret (mkBuilder (b_base b) (b_del b)
              (match set_value n v (b_add b) with Some add => add | None => b_add b ++ [mkLabel n v] end)).

Fixpoint find_label (n : bytes) (add : list Label) : option bytes :=
  match add with
  | [] => None
  | a :: rest => if str_eqb (Name a) n then Some (Value a) else find_label n rest
  end.

Definition b_Get (b : Builder) (n : bytes) : outcome bytes :=
  match find_label n (b_add b) with
  | Some v => Ret v
  | None => if contains (b_del b) n then Ret [] else Get (b_base b) n
  end.

(** [for d < len(b.del) && b.del[d] < lName] on the deletions not yet passed. *)
Fixpoint skip_del (del : list bytes) (lName : bytes) : list bytes :=
  match del with
  | d :: rest => if str_ltb d lName then skip_del rest lName else del
  | [] => []
  end.

(** Inserts the additions whose name is before [lName]. *)
Fixpoint insert_adds (buf : bytes) (add : list Label) (lName : bytes) : outcome (bytes * list Label) :=
  match add with
  | a :: rest => if str_ltb (Name a) lName
                 then outcome_bind (appendLabelTo buf a) (fun buf => insert_adds buf rest lName)
                 else Ret (buf, add)
  | [] => Ret (buf, [])
  end.

Fixpoint append_all (buf : bytes) (add : list Label) : outcome bytes :=
  match add with
  | a :: rest => outcome_bind (appendLabelTo buf a) (fun buf => append_all buf rest)
  | [] => Ret buf
  end.

(** The merge: the rest of the base from [pos], of the deletions and of the
    additions. *)
Fixpoint merge_loop (fuel : nat) (data : bytes) (pos : nat) (del : list bytes) (add : list Label)
    (buf : bytes) : outcome bytes :=
  if (length data <=? pos)%nat then append_all buf add
  else
    match fuel with
    | O => Panic
    | S f =>
        let oldPos := pos in
        outcome_bind (decodeString data pos) (fun '(lName, pos) =>
        outcome_bind (decodeString data pos) (fun '(_, pos) =>
          let del := skip_del del lName in
          if match del with d :: _ => str_eqb d lName | [] => false end then merge_loop f data pos del add buf
          else
            outcome_bind (insert_adds buf add lName) (fun '(buf, add) =>
              match add with
              | a :: rest =>
                  if str_eqb (Name a) lName then
                    outcome_bind (appendLabelTo buf a) (fun buf => merge_loop f data pos del rest buf)
                  else outcome_bind (str_slice data oldPos pos) (fun s => merge_loop f data pos del add (buf ++ s))
              | [] => outcome_bind (str_slice data oldPos pos) (fun s => merge_loop f data pos del add (buf ++ s))
              end)))
    end.

Definition b_Labels (b : Builder) : outcome (bytes * Builder) :=
  if (length (b_del b) =? 0)%nat && (length (b_add b) =? 0)%nat then Ret (b_base b, b)
  else
    let add := sort_labels (b_add b) in
    let del := merge_sort str_le (b_del b) in
    outcome_bind (merge_loop (length (b_base b)) (b_base b) 0 del add []) (fun data =>
      Ret (data, mkBuilder (b_base b) del add)).

(** ** The encoding *)

Definition enc_size (n : nat) : bytes :=
  let z := Z.of_nat n in
  if z <? 255 then [u8 z] else [255; u8 z; u8 (Z.shiftr z 8); u8 (Z.shiftr z 16)].
Definition enc_str (s : bytes) : bytes := enc_size (length s) ++ s.
Definition enc_label (m : Label) : bytes := enc_str (Name m) ++ enc_str (Value m).
Definition enc_labels (ls : list Label) : bytes := flat_map enc_label ls.

Definition short (s : bytes) : Prop := Z.of_nat (length s) < 2 ^ 24.
Definition wf_label (m : Label) : Prop := short (Name m) /\ short (Value m).

Lemma enc_size_length n : (1 <= length (enc_size n) <= 4)%nat.
Proof. unfold enc_size. destruct (_ <? _); cbn; lia. Qed.

Lemma enc_str_length s : length (enc_str s) = (length (enc_size (length s)) + length s)%nat.
Proof. apply length_app. Qed.

Lemma byte_at_drop data i k b : drop i data !! k = Some b -> byte_at data (i + k) = Ret b.
Proof. unfold byte_at. rewrite lookup_drop. intros ->. reflexivity. Qed.

Lemma decodeSize_ok data i n rest : Z.of_nat n < 2 ^ 24 -> drop i data = enc_size n ++ rest ->
  decodeSize data i = Ret (n, (i + length (enc_size n))%nat).
Proof.
  intros Hn E. unfold decodeSize, enc_size in *. destruct (Z.ltb_spec (Z.of_nat n) 255) as [Hlt|Hge].
  - pose proof (byte_at_drop data i 0 (u8 (Z.of_nat n))) as H0. rewrite E, Nat.add_0_r in H0.
    rewrite H0 by reflexivity. cbn [outcome_bind length]. rewrite u8_id by zlia.
    destruct (Z.eqb_spec (Z.of_nat n) 255); [lia|]. rewrite Nat2Z.id. do 2 f_equal. lia.
  - assert (Hb : forall k b, (enc_size n ++ rest) !! k = Some b -> byte_at data (i + k) = Ret b).
    { intros k b Hk. apply byte_at_drop. rewrite E. unfold enc_size in Hk.
      destruct (Z.ltb_spec (Z.of_nat n) 255); [lia|exact Hk]. }
    unfold enc_size in Hb. destruct (Z.ltb_spec (Z.of_nat n) 255); [lia|].
    pose proof (Hb 0%nat 255 eq_refl) as H0. pose proof (Hb 1%nat _ eq_refl) as H1.
    pose proof (Hb 2%nat _ eq_refl) as H2. pose proof (Hb 3%nat _ eq_refl) as H3.
    rewrite Nat.add_0_r in H0. rewrite H0. cbn [outcome_bind length].
    replace (S i + 1)%nat with (i + 2)%nat by lia. replace (S i + 2)%nat with (i + 3)%nat by lia.
    replace (S i) with (i + 1)%nat by lia. rewrite Z.eqb_refl, H1, H2, H3. cbn [outcome_bind].
    do 2 f_equal; [|lia]. rewrite !Z.shiftl_mul_pow2, !Z.shiftr_div_pow2 by lia.
    rewrite <- (Nat2Z.id n) at 4. f_equal. zdlia.
Qed.

Lemma slice_drop data i s rest : drop i data = s ++ rest -> slice data i (i + length s) = s.
Proof. intros E. unfold slice. rewrite E. replace (i + length s - i)%nat with (length s) by lia. apply take_app_length. Qed.

Lemma str_slice_ok data i s rest : (i <= length data)%nat -> drop i data = s ++ rest ->
  str_slice data i (i + length s) = Ret s.
Proof.
  intros Hi E. unfold str_slice. apply (f_equal length) in E as El. rewrite length_drop, length_app in El.
  destruct (Nat.ltb_spec (i + length s) i); [lia|]. destruct (Nat.ltb_spec (length data) (i + length s)); [lia|].
  cbn [orb]. rewrite (slice_drop _ _ _ _ E). reflexivity.
Qed.

Lemma drop_shift {A} (data : list A) i a rest : drop i data = a ++ rest -> drop (i + length a) data = rest.
Proof. intros E. rewrite <- drop_drop, E. apply drop_app_length. Qed.

Lemma drop_nonempty {A} (data : list A) i a rest : drop i data = a ++ rest -> (1 <= length a)%nat ->
  (i + length a <= length data)%nat.
Proof. intros E Ha. apply (f_equal length) in E. rewrite length_drop, length_app in E. lia. Qed.

Lemma decodeString_ok data i s rest : short s -> drop i data = enc_str s ++ rest ->
  decodeString data i = Ret (s, (i + length (enc_str s))%nat).
Proof.
  intros Hs E. unfold decodeString. unfold enc_str in E. rewrite <- app_assoc in E.
  rewrite (decodeSize_ok _ _ _ _ Hs E). cbn [outcome_bind].
  pose proof (drop_nonempty _ _ _ _ E (proj1 (enc_size_length _))) as Hl.
  rewrite (str_slice_ok data _ s rest Hl (drop_shift _ _ _ _ E)). cbn [outcome_bind].
  rewrite enc_str_length. do 2 f_equal. lia.
Qed.

(** Reading the label at the front of what is left. *)
Lemma front_label data i m rest : drop i data = enc_label m ++ rest ->
  drop i data = enc_str (Name m) ++ enc_str (Value m) ++ rest
  /\ drop (i + length (enc_str (Name m))) data = enc_str (Value m) ++ rest
  /\ drop (i + length (enc_str (Name m)) + length (enc_str (Value m))) data = rest
  /\ (i + length (enc_str (Name m)) + length (enc_str (Value m)) <= length data)%nat.
Proof.
  unfold enc_label. rewrite <- app_assoc. intros E. pose proof (drop_shift _ _ _ _ E) as E2.
  pose proof (drop_shift _ _ _ _ E2) as E3. split; [exact E|]. split; [exact E2|]. split; [exact E3|].
  apply (drop_nonempty _ _ _ _ E2). rewrite enc_str_length. pose proof (enc_size_length (length (Value m))). lia.
Qed.

Lemma enc_label_pos m : (2 <= length (enc_label m))%nat.
Proof.
  unfold enc_label. rewrite length_app, !enc_str_length. pose proof (enc_size_length (length (Name m))).
  pose proof (enc_size_length (length (Value m))). lia.
Qed.

Lemma at_end {A} (data : list A) i : drop i data = [] -> (length data <=? i)%nat = true.
Proof. intros E. apply (f_equal length) in E. rewrite length_drop in E. cbn in E. apply Nat.leb_le. lia. Qed.

Lemma not_at_end data i m rest : drop i data = enc_label m ++ rest -> (length data <=? i)%nat = false.
Proof.
  intros E. apply (f_equal length) in E. rewrite length_drop, length_app in E. pose proof (enc_label_pos m).
  apply Nat.leb_gt. lia.
Qed.

(** Unfolds one round of a loop over the labels, on data that starts with [m]. *)
Ltac label_step fuel Hf E :=
  destruct fuel as [|fuel]; [exfalso; apply (f_equal length) in E; rewrite length_drop, length_app in E;
    match type of E with context [enc_label ?m] => pose proof (enc_label_pos m) end; lia|];
  cbn -[Nat.leb]; rewrite (not_at_end _ _ _ _ E).

Lemma range_loop_ok ls data i fuel : Forall wf_label ls -> drop i data = enc_labels ls ->
  (length data - i <= fuel)%nat -> range_loop fuel data i = Ret ls.
Proof.
  intros Hw. revert i fuel. induction Hw as [|m ls [Hn Hv] _ IH]; intros i fuel E Hf.
  - destruct fuel; cbn -[Nat.leb]; rewrite (at_end _ _ E); reflexivity.
  - cbn [enc_labels flat_map] in E. label_step fuel Hf E.
    destruct (front_label _ _ _ _ E) as (E1 & E2 & E3 & Hl).
    rewrite (decodeString_ok _ _ _ _ Hn E1). cbn [outcome_bind].
    rewrite (decodeString_ok _ _ _ _ Hv E2). cbn [outcome_bind].
    rewrite (IH _ fuel E3). { cbn [outcome_bind]. destruct m; reflexivity. }
    pose proof (enc_str_length (Name m)). pose proof (enc_size_length (length (Name m))). lia.
Qed.

Lemma Range_ok ls : Forall wf_label ls -> Range (enc_labels ls) = Ret ls.
Proof. intros Hw. apply range_loop_ok; [exact Hw|reflexivity|lia]. Qed.

Fixpoint fold_validate {St E} (f : Label -> St -> option E * St) (ls : list Label) (st : St) : option E * St :=
  match ls with
  | [] => (None, st)
  | l :: ls => match f l st with (Some err, st) => (Some err, st) | (None, st) => fold_validate f ls st end
  end.

Lemma validate_labels_ok {St E} (f : Label -> St -> option E * St) ls data i st fuel :
  Forall wf_label ls -> drop i data = enc_labels ls -> (length data - i <= fuel)%nat ->
  validate_labels fuel f data i st = Ret (fold_validate f ls st).
Proof.
  intros Hw. revert i st fuel. induction Hw as [|m ls [Hn Hv] _ IH]; intros i st fuel E0 Hf.
  - destruct fuel; cbn -[Nat.leb]; rewrite (at_end _ _ E0); reflexivity.
  - cbn [enc_labels flat_map] in E0. label_step fuel Hf E0.
    destruct (front_label _ _ _ _ E0) as (E1 & E2 & E3 & Hl).
    rewrite (decodeString_ok _ _ _ _ Hn E1). cbn [outcome_bind].
    rewrite (decodeString_ok _ _ _ _ Hv E2). cbn [outcome_bind].
    replace (mkLabel (Name m) (Value m)) with m by (destruct m; reflexivity).
    destruct (f m st) as [[err|] st']; [reflexivity|]. apply IH; [exact E3|].
    pose proof (enc_str_length (Name m)). pose proof (enc_size_length (length (Name m))). lia.
Qed.

Lemma len_loop_ok ls data i count fuel : Forall wf_label ls -> drop i data = enc_labels ls ->
  (length data - i <= fuel)%nat -> len_loop fuel data i count = Ret (count + length ls)%nat.
Proof.
  intros Hw. revert i count fuel. induction Hw as [|m ls [Hn Hv] _ IH]; intros i count fuel E Hf.
  - destruct fuel; cbn -[Nat.leb]; rewrite (at_end _ _ E); f_equal; lia.
  - cbn [enc_labels flat_map] in E. label_step fuel Hf E.
    destruct (front_label _ _ _ _ E) as (E1 & E2 & E3 & Hl).
    unfold enc_str at 1 in E1. unfold enc_str at 2 in E2. rewrite <- app_assoc in E1, E2.
    rewrite (decodeSize_ok _ _ _ _ Hn E1). cbn [outcome_bind].
    replace (i + length (enc_size (length (Name m))) + length (Name m))%nat with (i + length (enc_str (Name m)))%nat
      by (rewrite enc_str_length; lia).
    rewrite (decodeSize_ok _ _ _ _ Hv E2). cbn [outcome_bind].
    replace (i + length (enc_str (Name m)) + length (enc_size (length (Value m))) + length (Value m))%nat
      with (i + length (enc_str (Name m)) + length (enc_str (Value m)))%nat by (rewrite (enc_str_length (Value m)); lia).
    rewrite (IH _ (S count) fuel E3). { f_equal. lia. }
    pose proof (enc_str_length (Name m)). pose proof (enc_size_length (length (Name m))). lia.
Qed.

Lemma Len_ok ls : Forall wf_label ls -> Len (enc_labels ls) = Ret (length ls).
Proof. intros Hw. unfold Len. rewrite (len_loop_ok ls); [reflexivity|exact Hw|reflexivity|lia]. Qed.

(** ** Writing from the end of the buffer *)

Lemma take_copy (data : bytes) j src tl k : (k <= j <= length data)%nat -> take k (take j data ++ src ++ tl) = take k data.
Proof. intros H. rewrite take_app_le by (rewrite length_take; lia). rewrite take_take. f_equal. lia. Qed.

Lemma drop_copy (data : bytes) j (src tl : bytes) : (j <= length data)%nat -> drop j (take j data ++ src ++ tl) = src ++ tl.
Proof. intros H. rewrite drop_app_ge by (rewrite length_take; lia). rewrite length_take. replace (_ - _)%nat with 0%nat by lia. reflexivity. Qed.

Lemma length_copy (data : bytes) j (src : bytes) : (j + length src <= length data)%nat ->
  length (take j data ++ src ++ drop (j + length src) data) = length data.
Proof. intros H. rewrite !length_app, length_take, length_drop. lia. Qed.

Lemma encodeSize_ok data k v : (k + length (enc_size v) <= length data)%nat ->
  encodeSize data (k + length (enc_size v)) v = Ret (copy_at data k (enc_size v), k).
Proof.
  intros Hl. unfold encodeSize, enc_size in *. destruct (Z.of_nat v <? 255); cbn [length] in *.
  - destruct (Nat.ltb_spec (k + 1) 1); [lia|]. replace (k + 1 - 1)%nat with k by lia. reflexivity.
  - destruct (Nat.ltb_spec (k + 4) 4); [lia|]. replace (k + 4 - 4)%nat with k by lia. reflexivity.
Qed.

Lemma copy_copy data k (a b : bytes) : (k + length a + length b <= length data)%nat ->
  copy_at (copy_at data (k + length a) b) k a = copy_at data k (a ++ b).
Proof.
  intros Hl. unfold copy_at. rewrite take_copy by lia. rewrite drop_copy by lia.
  rewrite length_app, <- app_assoc, Nat.add_assoc. reflexivity.
Qed.

Lemma length_copy_at data k (a : bytes) : (k + length a <= length data)%nat -> length (copy_at data k a) = length data.
Proof. intros H. apply length_copy. exact H. Qed.

Lemma marshalLabel_ok m data k : (k + length (enc_label m) <= length data)%nat ->
  marshalLabelToSizedBuffer m data (k + length (enc_label m)) = Ret (copy_at data k (enc_label m), k).
Proof.
  intros Hl. unfold marshalLabelToSizedBuffer, enc_label, enc_str in *. rewrite !length_app in *.
  set (i := (k + _)%nat). destruct (Nat.ltb_spec i (length (Value m))); [subst i; lia|].
  replace (i - length (Value m))%nat
    with (k + length (enc_size (length (Name m))) + length (Name m) + length (enc_size (length (Value m))))%nat by (subst i; lia).
  rewrite encodeSize_ok by (rewrite length_copy_at; lia). cbn [outcome_bind].
  rewrite copy_copy by lia.
  destruct (Nat.ltb_spec (k + length (enc_size (length (Name m))) + length (Name m)) (length (Name m))); [lia|].
  replace (k + length (enc_size (length (Name m))) + length (Name m) - length (Name m))%nat
    with (k + length (enc_size (length (Name m))))%nat by lia.
  rewrite copy_copy by (rewrite ?length_app; lia).
  rewrite encodeSize_ok by (rewrite !length_copy_at; rewrite ?length_app; lia).
  rewrite copy_copy by (rewrite ?length_app; lia). rewrite <- !app_assoc. reflexivity.
Qed.

Lemma marshal_rev_ok ls data k : (k + length (enc_labels ls) <= length data)%nat ->
  marshal_rev (rev ls) data (k + length (enc_labels ls)) = Ret (copy_at data k (enc_labels ls), k).
Proof.
  revert data. induction ls as [|m ls IH] using rev_ind; intros data Hl.
  - cbn. unfold copy_at. cbn [length app]. rewrite Nat.add_0_r, take_drop. reflexivity.
  - rewrite rev_app_distr. cbn [rev app marshal_rev]. unfold enc_labels in *. rewrite flat_map_app in *.
    cbn [flat_map] in *. rewrite app_nil_r in *. rewrite length_app in Hl |- *.
    rewrite Nat.add_assoc, marshalLabel_ok by lia. cbn [outcome_bind].
    rewrite IH by (rewrite length_copy_at; lia). rewrite copy_copy by lia. reflexivity.
Qed.

Lemma size_ok n : Z.of_nat n < 2 ^ 24 -> sizeWhenEncoded (Z.of_nat n) = Ret (length (enc_size n)).
Proof.
  intros Hn. unfold sizeWhenEncoded, enc_size. destruct (_ <? 255); [reflexivity|].
  rewrite Z.shiftl_mul_pow2 by lia. destruct (Z.leb_spec (Z.of_nat n) (1 * 2 ^ 24)); [reflexivity|lia].
Qed.

Lemma labelSize_ok m : wf_label m -> labelSize m = Ret (length (enc_label m)).
Proof.
  intros [Hn Hv]. unfold labelSize. rewrite (size_ok _ Hn), (size_ok _ Hv). cbn [outcome_bind].
  unfold enc_label. rewrite length_app, !enc_str_length. f_equal. lia.
Qed.

Lemma labelsSize_ok ls : Forall wf_label ls -> labelsSize ls = Ret (length (enc_labels ls)).
Proof.
  induction 1 as [|m ls Hm _ IH]; [reflexivity|]. cbn [labelsSize enc_labels flat_map].
  rewrite (labelSize_ok m Hm). cbn [outcome_bind]. fold (enc_labels ls). rewrite IH. cbn [outcome_bind].
  rewrite length_app. reflexivity.
Qed.

Lemma copy_all (data src : bytes) : length data = length src -> copy_at data 0 src = src.
Proof.
  intros H. unfold copy_at. rewrite take_0, Nat.add_0_l. rewrite drop_ge by lia. rewrite app_nil_r. reflexivity.
Qed.

Lemma marshal_ok ls : Forall wf_label ls -> marshal ls = Ret (enc_labels ls).
Proof.
  intros Hw. unfold marshal, marshalLabelsToSizedBuffer. rewrite (labelsSize_ok _ Hw). cbn [outcome_bind].
  rewrite length_replicate. pose proof (marshal_rev_ok ls (replicate (length (enc_labels ls)) 0) 0) as H.
  rewrite Nat.add_0_l in H. rewrite H by (rewrite length_replicate; lia). cbn [outcome_bind].
  rewrite copy_all by apply length_replicate. reflexivity.
Qed.

Lemma appendLabelTo_ok buf m : wf_label m -> appendLabelTo buf m = Ret (buf ++ enc_label m).
Proof.
  intros Hm. unfold appendLabelTo. rewrite (labelSize_ok _ Hm). cbn [outcome_bind].
  rewrite length_app, length_replicate, marshalLabel_ok by (rewrite length_app, length_replicate; lia).
  cbn [outcome_bind]. unfold copy_at. rewrite take_app_length. f_equal. f_equal.
  rewrite drop_ge by (rewrite length_app, length_replicate; lia). apply app_nil_r.
Qed.

(** ** The order of strings *)

Lemma str_compare_eq a b : str_compare a b = Eq <-> a = b.
Proof.
  revert b. induction a as [|x a IH]; intros [|y b]; cbn; try (split; congruence).
  destruct (Z.compare_spec x y) as [->|H|H].
  - rewrite IH. split; congruence.
  - split; [discriminate|]. intros [= -> _]. lia.
  - split; [discriminate|]. intros [= -> _]. lia.
Qed.

Lemma str_compare_refl a : str_compare a a = Eq.
Proof. apply str_compare_eq. reflexivity. Qed.

Lemma str_compare_opp a b : str_compare b a = CompOpp (str_compare a b).
Proof.
  revert b. induction a as [|x a IH]; intros [|y b]; cbn; try reflexivity.
  rewrite (Z.compare_antisym x y). destruct (x ?= y); cbn; [apply IH|reflexivity|reflexivity].
Qed.

Definition str_lt (a b : bytes) : Prop := str_compare a b = Lt.

Lemma str_lt_trans a b c : str_lt a b -> str_lt b c -> str_lt a c.
Proof.
  unfold str_lt. revert b c. induction a as [|x a IH]; intros [|y b] [|z c]; cbn; try congruence.
  destruct (Z.compare_spec x y) as [->|H|H]; try discriminate.
  - destruct (y ?= z); try congruence. apply IH.
  - intros _. destruct (Z.compare_spec y z) as [->|H2|H2]; try discriminate; intros _.
    + rewrite (proj2 (Z.compare_lt_iff x z)) by lia. reflexivity.
    + rewrite (proj2 (Z.compare_lt_iff x z)) by lia. reflexivity.
Qed.

Lemma str_lt_irrefl a : ~ str_lt a a.
Proof. unfold str_lt. rewrite str_compare_refl. discriminate. Qed.

Lemma str_ltb_spec a b : str_ltb a b = true <-> str_lt a b.
Proof. unfold str_ltb, str_lt. destruct (str_compare a b); split; congruence. Qed.

Lemma str_eqb_spec a b : str_eqb a b = true <-> a = b.
Proof. unfold str_eqb. rewrite <- str_compare_eq. destruct (str_compare a b); split; congruence. Qed.

Lemma str_eqb_false a b : str_eqb a b = false <-> a <> b.
Proof. rewrite <- str_eqb_spec. destruct (str_eqb a b); split; congruence. Qed.

Lemma str_ltb_false a b : str_ltb a b = false <-> str_le b a.
Proof.
  unfold str_ltb, str_le. rewrite (str_compare_opp a b). destruct (str_compare a b); cbn; split; congruence.
Qed.

Lemma str_le_lt_eq a b : str_le a b <-> str_lt a b \/ a = b.
Proof.
  unfold str_le, str_lt. rewrite <- (str_compare_eq a b). destruct (str_compare a b); split; intuition congruence.
Qed.

#[export] Instance str_le_trans : Transitive str_le.
Proof.
  intros a b c. rewrite !str_le_lt_eq. intros [H1| ->] [H2| ->]; auto. left. eapply str_lt_trans; eassumption.
Qed.
#[export] Instance str_le_total : Total str_le.
Proof. intros a b. unfold str_le. rewrite (str_compare_opp a b). destruct (str_compare a b); cbn; [left|left|right]; congruence. Qed.
#[export] Instance label_le_trans : Transitive label_le.
Proof. intros a b c. apply str_le_trans. Qed.
#[export] Instance label_le_total : Total label_le.
Proof. intros a b. apply str_le_total. Qed.

(** Sorted by name, every name once. *)
Definition label_lt (a b : Label) : Prop := str_lt (Name a) (Name b).
Definition sorted (ls : list Label) : Prop := StronglySorted label_lt ls.

Lemma sorted_cons m ls : sorted (m :: ls) <-> sorted ls /\ Forall (label_lt m) ls.
Proof. split; [intros H; inversion_clear H; auto|intros [H1 H2]; constructor; assumption]. Qed.

Lemma sort_labels_sorted ls : NoDup (map Name ls) -> sorted (sort_labels ls) /\ Permutation (sort_labels ls) ls.
Proof.
  intros Hnd. assert (Hp : Permutation (sort_labels ls) ls) by apply merge_sort_Permutation.
  split; [|exact Hp]. rewrite <- Hp in Hnd.
  pose proof (StronglySorted_merge_sort label_le ls) as Hs. fold (sort_labels ls) in Hs. clear Hp.
  induction Hs as [|m l Hs IH Hf]; [constructor|]. apply NoDup_cons in Hnd. destruct Hnd as [Hm Hnd].
  apply sorted_cons. split; [apply IH, Hnd|]. apply List.Forall_forall. intros x Hx.
  pose proof (proj1 (List.Forall_forall _ _) Hf x Hx) as Hle. apply str_le_lt_eq in Hle.
  destruct Hle as [|E]; [assumption|]. exfalso. apply Hm. rewrite E. apply list_elem_of_In, in_map, Hx.
Qed.

Lemma find_label_in ls m : sorted ls -> In m ls -> find_label (Name m) ls = Some (Value m).
Proof.
  intros Hs. induction Hs as [|x ls Hs IH Hf]; intros Hm; [destruct Hm|]. cbn [find_label].
  destruct Hm as [->|Hm].
  - rewrite (proj2 (str_eqb_spec _ _) eq_refl). reflexivity.
  - destruct (str_eqb (Name x) (Name m)) eqn:E; [|apply IH, Hm]. apply str_eqb_spec in E. exfalso.
    pose proof (proj1 (List.Forall_forall _ _) Hf m Hm) as Hlt. unfold label_lt in Hlt. rewrite E in Hlt.
    apply (str_lt_irrefl _ Hlt).
Qed.

Lemma find_label_None n ls : find_label n ls = None <-> forall m, In m ls -> Name m <> n.
Proof.
  induction ls as [|x ls IH]; cbn; [split; [intros _ m []|reflexivity]|].
  destruct (str_eqb (Name x) n) eqn:E.
  - apply str_eqb_spec in E. split; [discriminate|]. intros H. exfalso. apply (H x); auto.
  - apply str_eqb_false in E. rewrite IH. split; [intros H m [<-|Hm]; auto|auto].
Qed.

Lemma find_label_Some n v ls : find_label n ls = Some v -> exists m, In m ls /\ Name m = n /\ Value m = v.
Proof.
  induction ls as [|x ls IH]; cbn; [discriminate|]. destruct (str_eqb (Name x) n) eqn:E.
  - apply str_eqb_spec in E. intros [= <-]. exists x. auto.
  - intros H. destruct (IH H) as (m & H1 & H2). exists m. auto.
Qed.

(** ** [Get] and [Has] *)

Definition wf_get (m : Label) : Prop := wf_label m /\ Name m <> [].

Lemma byte_front data i s rest x : drop i data = (x :: s) ++ rest -> byte_at data i = Ret x.
Proof.
  intros E. pose proof (byte_at_drop data i 0 x) as H. rewrite E, Nat.add_0_r in H. apply H. reflexivity.
Qed.

Lemma later_names m ls n c : Forall (label_lt m) ls -> nth 0 n 0 < c -> n <> [] ->
  nth 0 (Name m) 0 = c -> Name m <> [] -> forall m', In m' (m :: ls) -> Name m' <> n.
Proof.
  intros Hf Hc Hn Em Hm m' [<-|Hm'] E.
  - rewrite E in Em. lia.
  - pose proof (proj1 (List.Forall_forall _ _) Hf m' Hm') as Hlt. unfold label_lt, str_lt in Hlt. rewrite E in Hlt.
    destruct (Name m) as [|x a]; [congruence|]. destruct n as [|y b]; [congruence|]. cbn in *. subst c.
    rewrite (proj2 (Z.compare_gt_iff x y)) in Hlt by lia. discriminate.
Qed.

Lemma find_loop_ok ls data name i fuel : Forall wf_get ls -> sorted ls -> name <> [] ->
  drop i data = enc_labels ls -> (length data - i <= fuel)%nat ->
  exists r, find_loop fuel data name i = Ret r /\
  match r with
  | Some j => exists m rest, In m ls /\ Name m = name /\ drop j data = enc_str (Value m) ++ rest
  | None => find_label name ls = None
  end.
Proof.
  intros Hw Hs Hn. revert i fuel. induction Hs as [|m ls Hs IH Hf]; intros i fuel E Hfuel.
  - exists None. split; [|reflexivity]. destruct fuel; cbn -[Nat.leb]; rewrite (at_end _ _ E); reflexivity.
  - apply Forall_cons_1 in Hw. destruct Hw as [[[Hmn Hmv] Hmne] Hw]. cbn [enc_labels flat_map] in E.
    label_step fuel Hf E. destruct (front_label _ _ _ _ E) as (E1 & E2 & E3 & Hl).
    unfold enc_str at 1 in E1. rewrite <- app_assoc in E1. rewrite (decodeSize_ok _ _ _ _ Hmn E1). cbn [outcome_bind].
    pose proof (drop_shift _ _ _ _ E1) as E1'. pose proof (drop_nonempty _ _ _ _ E1 (proj1 (enc_size_length _))) as Hl1.
    destruct (Name m) as [|c cs] eqn:Em; [congruence|]. rewrite (byte_front _ _ _ _ _ E1'). cbn [outcome_bind].
    set (j := (i + length (enc_size (length (c :: cs))))%nat) in *.
    assert (Hj : (j + length (c :: cs) = i + length (enc_str (c :: cs)))%nat) by (rewrite enc_str_length; subst j; lia).
    assert (Hnext : exists r, outcome_bind (decodeSize data (j + length (c :: cs)))
        (fun '(size, i) => find_loop fuel data name (i + size)) = Ret r /\
      match r with
      | Some j => exists m rest, In m ls /\ Name m = name /\ drop j data = enc_str (Value m) ++ rest
      | None => find_label name ls = None
      end).
    { rewrite Hj. unfold enc_str in E2 at 2. rewrite <- app_assoc in E2.
      rewrite (decodeSize_ok _ _ _ _ Hmv E2). cbn [outcome_bind].
      replace (i + length (enc_str (c :: cs)) + length (enc_size (length (Value m))) + length (Value m))%nat
        with (i + length (enc_str (c :: cs)) + length (enc_str (Value m)))%nat by (rewrite (enc_str_length (Value m)); lia).
      apply IH; [exact Hw|exact E3|]. pose proof (enc_str_length (c :: cs)). cbn [length] in *. lia. }
    destruct (Z.eqb_spec c (nth 0 name 0)) as [Ec|Ec].
    + rewrite (str_slice_ok _ _ _ _ Hl1 E1'). cbn [outcome_bind]. destruct (str_eqb (c :: cs) name) eqn:Eq.
      * apply str_eqb_spec in Eq. eexists. split; [reflexivity|]. exists m, (enc_labels ls).
        split; [left; reflexivity|]. split; [rewrite ?Em; exact Eq|]. rewrite Hj. exact E2.
      * destruct Hnext as (r & Hr & Hres). exists r. split; [exact Hr|]. destruct r as [j'|].
        -- destruct Hres as (m' & rest & H1 & H2). exists m', rest. split; [right; exact H1|exact H2].
        -- cbn [find_label]. rewrite ?Em, ?Eq. exact Hres.
    + assert (Hne : str_eqb (c :: cs) name = false).
      { apply str_eqb_false. intros <-. apply Ec. reflexivity. }
      destruct (Z.ltb_spec (nth 0 name 0) c) as [Hlt|Hge].
      * exists None. split; [reflexivity|]. rewrite Hne. apply find_label_None. intros m' Hm'.
        apply (later_names m ls name c Hf Hlt Hn); [rewrite Em; reflexivity|rewrite Em; discriminate|right; exact Hm'].
      * destruct Hnext as (r & Hr & Hres). exists r. split; [exact Hr|]. destruct r as [j'|].
        -- destruct Hres as (m' & rest & H1 & H2). exists m', rest. split; [right; exact H1|exact H2].
        -- cbn [find_label]. rewrite ?Em, ?Hne. exact Hres.
Qed.

Definition lookup_value (n : bytes) (ls : list Label) : bytes := default [] (find_label n ls).

Lemma wf_get_wf ls : Forall wf_get ls -> Forall wf_label ls.
Proof. intros H. eapply List.Forall_impl; [|exact H]. intros m [Hm _]. exact Hm. Qed.

Lemma Get_ok ls n : Forall wf_get ls -> sorted ls -> n <> [] ->
  Get (enc_labels ls) n = Ret (lookup_value n ls)
  /\ Has (enc_labels ls) n = Ret (match find_label n ls with Some _ => true | None => false end).
Proof.
  intros Hw Hs Hn. unfold Get, Has. destruct (Nat.eqb_spec (length n) 0) as [E|_].
  { apply nil_length_inv in E. congruence. }
  destruct (find_loop_ok ls (enc_labels ls) n 0 (length (enc_labels ls)) Hw Hs Hn eq_refl ltac:(lia)) as (r & -> & Hr).
  cbn [outcome_bind]. unfold lookup_value. destruct r as [j|].
  - destruct Hr as (m & rest & Hm & <- & E). rewrite (find_label_in _ _ Hs Hm).
    pose proof (proj1 (List.Forall_forall _ _) Hw m Hm) as [[_ Hv] _].
    rewrite (decodeString_ok _ _ _ _ Hv E). auto.
  - rewrite Hr. auto.
Qed.

(** ** The builder's merge *)

Fixpoint adds_before (add : list Label) (n : bytes) : list Label * list Label :=
  match add with
  | a :: rest => if str_ltb (Name a) n then let '(p, r) := adds_before rest n in (a :: p, r) else ([], add)
  | [] => ([], [])
  end.

(** The merge on label lists. *)
Fixpoint merge_spec (base : list Label) (del : list bytes) (add : list Label) : list Label :=
  match base with
  | [] => add
  | m :: base' =>
      let del := skip_del del (Name m) in
      if match del with d :: _ => str_eqb d (Name m) | [] => false end then merge_spec base' del add
      else
        let '(pre, add) := adds_before add (Name m) in
        pre ++ match add with
               | a :: rest => if str_eqb (Name a) (Name m) then a :: merge_spec base' del rest
                              else m :: merge_spec base' del add
               | [] => m :: merge_spec base' del add
               end
  end.

Lemma enc_labels_app l1 l2 : enc_labels (l1 ++ l2) = enc_labels l1 ++ enc_labels l2.
Proof. apply flat_map_app. Qed.

Lemma append_all_ok add buf : Forall wf_label add -> append_all buf add = Ret (buf ++ enc_labels add).
Proof.
  intros Hw. revert buf. induction Hw as [|a add Ha _ IH]; intros buf; cbn [append_all].
  - rewrite app_nil_r. reflexivity.
  - rewrite (appendLabelTo_ok _ _ Ha). cbn [outcome_bind]. rewrite IH, <- app_assoc. reflexivity.
Qed.

Lemma insert_adds_ok add n buf : Forall wf_label add ->
  insert_adds buf add n = Ret (buf ++ enc_labels (adds_before add n).1, (adds_before add n).2)
  /\ Forall wf_label (adds_before add n).2.
Proof.
  intros Hw. revert buf. induction Hw as [|a add Ha Hw IH]; intros buf; cbn [insert_adds adds_before].
  - cbn. rewrite app_nil_r. auto.
  - destruct (str_ltb (Name a) n).
    + rewrite (appendLabelTo_ok _ _ Ha). cbn [outcome_bind]. destruct (IH (buf ++ enc_label a)) as [IH1 IH2].
      rewrite IH1. destruct (adds_before add n) as [p r]. cbn [fst snd] in *. cbn [enc_labels flat_map].
      rewrite <- app_assoc. auto.
    + cbn. rewrite app_nil_r. split; [reflexivity|constructor; assumption].
Qed.

Lemma merge_loop_ok base data pos del add buf fuel : Forall wf_label base -> Forall wf_label add ->
  drop pos data = enc_labels base -> (length data - pos <= fuel)%nat ->
  merge_loop fuel data pos del add buf = Ret (buf ++ enc_labels (merge_spec base del add)).
Proof.
  intros Hb. revert pos del add buf fuel. induction Hb as [|m base [Hn Hv] _ IH]; intros pos del add buf fuel Ha E Hf.
  - cbn [merge_spec]. destruct fuel; cbn -[Nat.leb]; rewrite (at_end _ _ E); apply append_all_ok, Ha.
  - cbn [enc_labels flat_map] in E. destruct fuel as [|fuel].
    { exfalso. apply (f_equal length) in E. rewrite length_drop, length_app in E. pose proof (enc_label_pos m). lia. }
    cbn [merge_loop merge_spec]. rewrite (not_at_end _ _ _ _ E).
    destruct (front_label _ _ _ _ E) as (E1 & E2 & E3 & Hl).
    rewrite (decodeString_ok _ _ _ _ Hn E1). cbn [outcome_bind].
    rewrite (decodeString_ok _ _ _ _ Hv E2). cbn [outcome_bind].
    set (del' := skip_del del (Name m)).
    set (pos' := (pos + length (enc_str (Name m)) + length (enc_str (Value m)))%nat) in *.
    assert (Hpos : (length data - pos' <= fuel)%nat).
    { subst pos'. pose proof (enc_str_length (Name m)). pose proof (enc_size_length (length (Name m))). lia. }
    assert (Hsl : str_slice data pos pos' = Ret (enc_label m)).
    { replace pos' with (pos + length (enc_label m))%nat by (subst pos'; unfold enc_label; rewrite length_app; lia).
      eapply str_slice_ok; [|exact E]. subst pos'. lia. }
    destruct (match del' with d :: _ => str_eqb d (Name m) | [] => false end); [apply IH; assumption|].
    destruct (insert_adds_ok add (Name m) buf Ha) as [-> Hr]. cbn [outcome_bind].
    destruct (adds_before add (Name m)) as [pre add']. cbn [fst snd] in *. rewrite enc_labels_app.
    destruct add' as [|a rest].
    + rewrite Hsl. cbn [outcome_bind]. rewrite IH by assumption. cbn [enc_labels flat_map]. rewrite <- !app_assoc. reflexivity.
    + destruct (str_eqb (Name a) (Name m)).
      * apply Forall_cons_1 in Hr. destruct Hr as [Hra Hr]. rewrite (appendLabelTo_ok _ _ Hra). cbn [outcome_bind].
        rewrite IH by assumption. cbn [enc_labels flat_map]. rewrite <- !app_assoc. reflexivity.
      * rewrite Hsl. cbn [outcome_bind]. rewrite IH by assumption. cbn [enc_labels flat_map]. rewrite <- !app_assoc. reflexivity.
Qed.

(** *** What the merge computes *)

Lemma skip_del_spec del n : StronglySorted str_le del ->
  StronglySorted str_le (skip_del del n)
  /\ (forall x, str_le n x -> In x (skip_del del n) <-> In x del)
  /\ (match skip_del del n with d :: _ => str_eqb d n | [] => false end = true <-> In n del).
Proof.
  induction 1 as [|d del Hs IH Hf]; cbn [skip_del].
  - split; [constructor|]. split; [tauto|]. split; [discriminate|intros []].
  - destruct (str_ltb d n) eqn:Ed.
    + apply str_ltb_spec in Ed. destruct IH as (IH1 & IH2 & IH3). split; [exact IH1|]. split.
      * intros x Hx. rewrite (IH2 x Hx). split; [intros; right; assumption|]. intros [->|]; [|assumption].
        exfalso. apply str_le_lt_eq in Hx. destruct Hx as [Hx| ->]; [|apply (str_lt_irrefl _ Ed)].
        apply (str_lt_irrefl n). eapply str_lt_trans; eassumption.
      * rewrite IH3. split; [intros; right; assumption|]. intros [->|]; [|assumption]. destruct (str_lt_irrefl _ Ed).
    + apply str_ltb_false in Ed. split; [constructor; assumption|]. split; [tauto|].
      rewrite str_eqb_spec. split; [intros ->; left; reflexivity|]. intros [->|Hin]; [reflexivity|].
      pose proof (proj1 (List.Forall_forall _ _) Hf n Hin) as H1. apply str_le_lt_eq in Ed, H1.
      destruct Ed as [Ed|Ed]; [|congruence]. destruct H1 as [H1|H1]; [|congruence].
      exfalso. apply (str_lt_irrefl n). eapply str_lt_trans; eassumption.
Qed.

Lemma adds_before_spec add n : sorted add ->
  add = (adds_before add n).1 ++ (adds_before add n).2
  /\ Forall (fun a => str_lt (Name a) n) (adds_before add n).1
  /\ Forall (fun a => str_le n (Name a)) (adds_before add n).2.
Proof.
  induction 1 as [|a add Hs IH Hf]; cbn [adds_before]; [cbn; auto|].
  destruct (str_ltb (Name a) n) eqn:Ea.
  - destruct (adds_before add n) as [p r]. cbn [fst snd] in *. destruct IH as (E & IH1 & IH2).
    split; [cbn; congruence|]. split; [constructor; [apply str_ltb_spec; exact Ea|exact IH1]|exact IH2].
  - cbn. split; [reflexivity|]. split; [constructor|]. apply str_ltb_false in Ea. constructor; [exact Ea|].
    eapply List.Forall_impl; [|exact Hf]. intros x Hx. transitivity (Name a); [exact Ea|].
    apply str_le_lt_eq. left. exact Hx.
Qed.

Lemma sorted_app l1 l2 : sorted (l1 ++ l2) <->
  sorted l1 /\ sorted l2 /\ (forall x y, In x l1 -> In y l2 -> label_lt x y).
Proof.
  unfold sorted. induction l1 as [|x l1 IH]; cbn [app].
  - split; [|tauto]. intros H. split; [constructor|]. split; [exact H|]. intros x y [].
  - split.
    + intros H. inversion_clear H as [|? ? H1 H2]. apply IH in H1. destruct H1 as (H1 & H3 & H4).
      apply Forall_app in H2. destruct H2 as [H2 H5]. split; [constructor; assumption|]. split; [exact H3|].
      intros a y [<-|Ha] Hy; [|auto]. apply (proj1 (List.Forall_forall _ _) H5 y Hy).
    + intros (H1 & H2 & H3). inversion_clear H1 as [|? ? H4 H5]. constructor.
      * apply IH. split; [exact H4|]. split; [exact H2|]. intros a y Ha Hy. apply H3; [right; exact Ha|exact Hy].
      * apply Forall_app. split; [exact H5|]. apply List.Forall_forall. intros y Hy. apply H3; [left; reflexivity|exact Hy].
Qed.

(** One emitted label between those before it and those after it. *)
Lemma emit_sorted pre e tl n : Name e = n -> sorted pre -> (forall a, In a pre -> str_lt (Name a) n) ->
  sorted tl -> (forall y, In y tl -> str_lt n (Name y)) -> sorted (pre ++ e :: tl).
Proof.
  intros <- Hp Hpe Ht Het. apply sorted_app. split; [exact Hp|]. split.
  - apply sorted_cons. split; [exact Ht|]. apply List.Forall_forall. exact Het.
  - intros x y Hx [<-|Hy]; [apply Hpe, Hx|]. eapply str_lt_trans; [apply Hpe, Hx|apply Het, Hy].
Qed.

(** What the merge of [base] keeps of it. *)
Definition kept (del : list bytes) (add : list Label) (x : Label) : Prop :=
  ~ In (Name x) del /\ forall a, In a add -> Name a <> Name x.
Definition merged (base : list Label) (del : list bytes) (add out : list Label) : Prop :=
  sorted out /\ forall x, In x out <-> In x add \/ (In x base /\ kept del add x).

(** The base label is deleted. *)
Lemma merged_deleted m base del del' add out : In (Name m) del ->
  (forall x, In x base -> In (Name x) del' <-> In (Name x) del) ->
  merged base del' add out -> merged (m :: base) del add out.
Proof.
  intros Hm Hdel [H1 H2]. split; [exact H1|]. intros x. rewrite H2. unfold kept. cbn [In]. split.
  - intros [Hx|(Hx & H3 & H4)]; [auto|]. right. rewrite <- (Hdel x Hx). auto.
  - intros [Hx|([->|Hx] & H3 & H4)]; [auto|contradiction|]. right. rewrite (Hdel x Hx). auto.
Qed.

(** The base label is replaced by the addition [a] of its name. *)
Lemma merged_replaced m base del del' pre a rest out :
  Name a = Name m -> sorted pre -> (forall a, In a pre -> str_lt (Name a) (Name m)) ->
  (forall a, In a rest -> str_lt (Name m) (Name a)) -> (forall x, In x base -> str_lt (Name m) (Name x)) ->
  (forall x, In x base -> In (Name x) del' <-> In (Name x) del) ->
  merged base del' rest out -> merged (m :: base) del (pre ++ a :: rest) (pre ++ a :: out).
Proof.
  intros Ham Hsp Hpre Hrest Hbase Hdel [H1 H2]. split.
  - apply (emit_sorted pre a out (Name m)); try assumption. intros y Hy. apply H2 in Hy.
    destruct Hy as [Hy|[Hy _]]; auto.
  - intros x. rewrite !in_app_iff. cbn [In]. rewrite H2. unfold kept. split.
    + intros [Hx|[<-|[Hx|(Hx & H3 & H4)]]]; [auto|auto|auto|]. right. split; [auto|]. rewrite <- (Hdel x Hx).
      split; [exact H3|]. intros b. rewrite in_app_iff. pose proof (Hbase x Hx) as Hlt. intros [Hb|[<-|Hb]] E.
      * apply (str_lt_irrefl (Name m)). eapply str_lt_trans; [exact Hlt|]. rewrite <- E. apply Hpre, Hb.
      * apply (str_lt_irrefl (Name m)). rewrite <- Ham at 2. rewrite E. exact Hlt.
      * apply (H4 b Hb E).
    + intros [[Hx|[<-|Hx]]|([->|Hx] & H3 & H4)]; [auto|auto|auto| |].
      * exfalso. apply (H4 a); [apply in_or_app; right; left; reflexivity|exact Ham].
      * right. right. right. split; [exact Hx|]. rewrite (Hdel x Hx). split; [exact H3|].
        intros b Hb. apply H4, in_or_app. right. right. exact Hb.
Qed.

(** The base label is kept. *)
Lemma merged_kept m base del del' pre post out :
  ~ In (Name m) del -> sorted pre -> (forall a, In a pre -> str_lt (Name a) (Name m)) ->
  (forall a, In a post -> str_lt (Name m) (Name a)) -> (forall x, In x base -> str_lt (Name m) (Name x)) ->
  (forall x, In x base -> In (Name x) del' <-> In (Name x) del) ->
  merged base del' post out -> merged (m :: base) del (pre ++ post) (pre ++ m :: out).
Proof.
  intros Hnd Hsp Hpre Hpost Hbase Hdel [H1 H2]. split.
  - apply (emit_sorted pre m out (Name m)); try assumption; [reflexivity|]. intros y Hy. apply H2 in Hy.
    destruct Hy as [Hy|[Hy _]]; auto.
  - intros x. rewrite !in_app_iff. cbn [In]. rewrite H2. unfold kept. split.
    + intros [Hx|[<-|[Hx|(Hx & H3 & H4)]]]; [auto| |auto|].
      * right. split; [auto|]. split; [exact Hnd|]. intros b. rewrite in_app_iff. intros [Hb|Hb] E.
        -- specialize (Hpre b Hb). rewrite E in Hpre. apply (str_lt_irrefl _ Hpre).
        -- specialize (Hpost b Hb). rewrite E in Hpost. apply (str_lt_irrefl _ Hpost).
      * right. split; [auto|]. rewrite <- (Hdel x Hx). split; [exact H3|]. intros b. rewrite in_app_iff.
        intros [Hb|Hb] E; [|apply (H4 b Hb E)]. apply (str_lt_irrefl (Name m)).
        eapply str_lt_trans; [apply (Hbase x Hx)|]. rewrite <- E. apply Hpre, Hb.
    + intros [[Hx|Hx]|([->|Hx] & H3 & H4)]; [auto|auto|auto|]. right. right. right. split; [exact Hx|].
      rewrite (Hdel x Hx). split; [exact H3|]. intros b Hb. apply H4, in_or_app. right. exact Hb.
Qed.

Lemma merge_spec_ok base del add : sorted base -> sorted add -> StronglySorted str_le del ->
  merged base del add (merge_spec base del add).
Proof.
  intros Hb. revert del add. induction Hb as [|m base Hb IH Hf]; intros del add Ha Hd; cbn [merge_spec].
  - split; [exact Ha|]. intros x. cbn. tauto.
  - destruct (skip_del_spec del (Name m) Hd) as (Hd' & Hdin & Hdhd). set (del' := skip_del del (Name m)) in *.
    assert (Hlater : forall x, In x base -> str_lt (Name m) (Name x)) by (apply List.Forall_forall; exact Hf).
    assert (Hdel : forall x, In x base -> In (Name x) del' <-> In (Name x) del).
    { intros x Hx. apply Hdin. apply str_le_lt_eq. left. apply Hlater, Hx. }
    destruct (match del' with d :: _ => str_eqb d (Name m) | [] => false end).
    + apply (merged_deleted m base del del'); [apply Hdhd; reflexivity|exact Hdel|apply IH; assumption].
    + assert (Hnd : ~ In (Name m) del) by (intros Hc; apply Hdhd in Hc; discriminate).
      destruct (adds_before_spec add (Name m) Ha) as (Eadd & Hpre & Hpost).
      destruct (adds_before add (Name m)) as [pre add']. cbn [fst snd] in *. subst add.
      apply sorted_app in Ha. destruct Ha as (Hsp & Hsa & _). rewrite List.Forall_forall in Hpre, Hpost.
      destruct add' as [|a rest].
      * apply merged_kept with (del' := del'); try assumption; [intros a []|apply IH; assumption].
      * pose proof Hsa as Hsa'. apply sorted_cons in Hsa'. destruct Hsa' as [Hsr Hfa]. rewrite List.Forall_forall in Hfa.
        pose proof (Hpost a (or_introl eq_refl)) as Hma. apply str_le_lt_eq in Hma.
        destruct (str_eqb (Name a) (Name m)) eqn:Eam.
        -- apply str_eqb_spec in Eam. apply merged_replaced with (del' := del'); try assumption; [|apply IH; assumption].
           intros x Hx. rewrite <- Eam. apply Hfa, Hx.
        -- apply str_eqb_false in Eam. destruct Hma as [Hma|]; [|congruence].
           apply merged_kept with (del' := del'); try assumption; [|apply IH; assumption].
           intros x [<-|Hx]; [exact Hma|]. eapply str_lt_trans; [exact Hma|apply Hfa, Hx].
Qed.

(** ** The builder as a finite map *)

Definition drop_name (n : bytes) (add : list Label) : list Label :=
  List.filter (fun a => negb (str_eqb (Name a) n)) add.

Lemma drop_name_none n add : (forall a, In a add -> Name a <> n) -> drop_name n add = add.
Proof.
  intros H. apply filter_all. apply List.Forall_forall. intros a Ha. apply negb_true_iff, str_eqb_false, H, Ha.
Qed.

Lemma del_loop_none k n arr len i : (i + k <= length arr)%nat ->
  (forall a, In a (take k (drop i arr)) -> Name a <> n) -> del_loop k n arr len i = Ret (arr, len).
Proof.
  revert i. induction k as [|k IH]; intros i Hl Hn; cbn [del_loop]; [reflexivity|].
  destruct (lookup_lt_is_Some_2 arr i ltac:(lia)) as [a Ea]. rewrite Ea.
  pose proof (drop_S arr a i Ea) as Ed. rewrite Ed in Hn. cbn [take] in Hn.
  rewrite (proj2 (str_eqb_false _ _) (Hn a (or_introl eq_refl))). apply IH; [lia|].
  intros b Hb. apply Hn. right. exact Hb.
Qed.

(** The aliasing loop removes the entry of that name, if there is one. *)
Lemma del_loop_ok n pre l : NoDup (map Name l) -> exists arr len,
  del_loop (length l) n (pre ++ l) (length (pre ++ l)) (length pre) = Ret (arr, len)
  /\ take len arr = pre ++ drop_name n l.
Proof.
  revert pre. induction l as [|a l IH]; intros pre Hnd; cbn [length del_loop].
  - eexists _, _. split; [reflexivity|]. rewrite app_nil_r, take_ge by lia. cbn. rewrite app_nil_r. reflexivity.
  - apply NoDup_cons in Hnd. destruct Hnd as [Ha Hnd].
    rewrite lookup_app_r, Nat.sub_diag by lia. cbn [lookup list_lookup]. cbn [drop_name List.filter].
    destruct (str_eqb (Name a) n) eqn:E; cbn [negb].
    + apply str_eqb_spec in E. subst n. assert (Hl : forall x, In x l -> Name x <> Name a).
      { intros x Hx E. apply Ha. rewrite <- E. apply list_elem_of_In, in_map, Hx. }
      fold (drop_name (Name a) l). rewrite (drop_name_none _ _ Hl).
      destruct (Nat.ltb_spec (length (pre ++ a :: l)) (S (length pre))) as [H|_].
      { rewrite length_app in H. cbn in H. lia. }
      assert (Hd : drop (S (length pre)) (pre ++ a :: l) = l).
      { rewrite drop_app_ge by lia. replace (S (length pre) - length pre)%nat with 1%nat by lia. reflexivity. }
      rewrite Hd, take_app_length, (take_ge l) by (rewrite length_app; cbn [length]; lia).
      assert (Htl : drop (length pre + length l) (pre ++ a :: l) = drop (length l) (a :: l)) by apply drop_app_add.
      rewrite Htl. set (arr := pre ++ l ++ drop (length l) (a :: l)).
      assert (Hlen : length arr = length (pre ++ a :: l)).
      { subst arr. rewrite !length_app, length_drop. cbn [length]. lia. }
      eexists arr, _. split.
      * apply del_loop_none; [rewrite Hlen, length_app; cbn [length]; lia|].
        intros x Hx. subst arr. rewrite drop_app_ge in Hx by lia.
        replace (S (length pre) - length pre)%nat with 1%nat in Hx by lia.
        destruct l as [|b l']; [cbn in Hx; destruct Hx|]. apply Hl. cbn [app drop length] in Hx.
        apply list_elem_of_In, elem_of_take in Hx. destruct Hx as (i & Hx & _).
        apply list_elem_of_lookup_2, list_elem_of_In, in_app_or in Hx. destruct Hx as [Hx|Hx]; [right; exact Hx|].
        apply list_elem_of_In, list_elem_of_lookup in Hx. destruct Hx as [j Hx]. rewrite lookup_drop in Hx.
        apply list_elem_of_In. eapply list_elem_of_lookup_2. exact Hx.
      * subst arr. replace (length (pre ++ a :: l) - 1)%nat with (length (pre ++ l)) by (rewrite !length_app; cbn [length]; lia).
        rewrite app_assoc, take_app_length. reflexivity.
    + specialize (IH (pre ++ [a]) Hnd). rewrite <- app_assoc in IH. cbn [app] in IH.
      replace (length (pre ++ [a])) with (S (length pre)) in IH by (rewrite length_app; cbn [length]; lia).
      destruct IH as (arr & len & IH1 & IH2). exists arr, len. split; [exact IH1|].
      rewrite IH2, <- app_assoc. reflexivity.
Qed.

Lemma b_Del1_ok b n : NoDup (map Name (b_add b)) ->
  b_Del1 b n = Ret (mkBuilder (b_base b) (b_del b ++ [n]) (drop_name n (b_add b))).
Proof.
  intros Hnd. unfold b_Del1. destruct (del_loop_ok n [] (b_add b) Hnd) as (arr & len & E & Ht).
  cbn [app length] in E, Ht. rewrite E. cbn [outcome_bind]. rewrite Ht. reflexivity.
Qed.

(** What the builder stands for: the value of every name, if it has one. *)
Abbreviation model := (bytes -> option bytes).
Definition upd (f : model) (n : bytes) (v : option bytes) : model := fun k => if decide (k = n) then v else f k.

Definition base_model (base : list Label) : model :=
  fun n => match find_label n base with Some [] => None | r => r end.

Inductive b_op := BSet (n v : bytes) | BDel (ns : list bytes).
Definition b_step (b : Builder) (o : b_op) : outcome Builder :=
  match o with BSet n v => b_Set b n v | BDel ns => b_Del b ns end.
Fixpoint b_run (b : Builder) (ops : list b_op) : outcome Builder :=
  match ops with [] => Ret b | o :: rest => outcome_bind (b_step b o) (fun b => b_run b rest) end.
Definition model_step (f : model) (o : b_op) : model :=
  match o with
  | BSet n [] => upd f n None
  | BSet n v => upd f n (Some v)
  | BDel ns => fold_left (fun f n => upd f n None) ns f
  end.
Definition op_ok (o : b_op) : Prop :=
  match o with BSet n v => n <> [] /\ short n /\ short v | BDel _ => True end.

Definition effective (base : list Label) (del : list bytes) (add : list Label) : model :=
  fun n => match find_label n add with
           | Some v => Some v
           | None => if contains del n then None else find_label n base
           end.

Definition wf_add (a : Label) : Prop := wf_get a /\ Value a <> [].

Record represents (base : list Label) (b : Builder) (f : model) : Prop := {
  rp_base : b_base b = enc_labels base;
  rp_names : NoDup (map Name (b_add b));
  rp_add : Forall wf_add (b_add b);
  rp_empty : forall m, In m base -> Value m = [] -> contains (b_del b) (Name m) = true;
  rp_model : forall n, n <> [] -> f n = effective base (b_del b) (b_add b) n
}.

Lemma contains_spec ns n : contains ns n = true <-> In n ns.
Proof.
  unfold contains. rewrite existsb_exists. split.
  - intros (x & Hx & E). apply str_eqb_spec in E. subst. exact Hx.
  - intros H. exists n. split; [exact H|]. apply str_eqb_spec. reflexivity.
Qed.

Lemma contains_snoc ns n k : contains (ns ++ [n]) k = contains ns k || bool_decide (k = n).
Proof.
  unfold contains. rewrite existsb_app. cbn. rewrite orb_false_r. f_equal.
  destruct (str_eqb n k) eqn:E; symmetry; [apply str_eqb_spec in E|apply str_eqb_false in E].
  - apply bool_decide_eq_true. auto.
  - apply bool_decide_eq_false. auto.
Qed.

Lemma find_drop_name n k add : find_label k (drop_name n add) = if decide (k = n) then None else find_label k add.
Proof.
  induction add as [|a add IH]; cbn [drop_name List.filter find_label]; [destruct (decide _); reflexivity|].
  fold (drop_name n add). destruct (str_eqb (Name a) n) eqn:E; cbn [negb].
  - apply str_eqb_spec in E. rewrite IH. destruct (decide (k = n)) as [->|Hk]; [reflexivity|].
    rewrite (proj2 (str_eqb_false _ _)); [reflexivity|congruence].
  - cbn [find_label]. apply str_eqb_false in E. rewrite IH. destruct (decide (k = n)) as [->|Hk]; [|reflexivity].
    rewrite (proj2 (str_eqb_false _ _)); [reflexivity|exact E].
Qed.

Lemma new_builder_ok base : Forall wf_get base -> sorted base ->
  exists b, NewBuilder (enc_labels base) = Ret b /\ represents base b (base_model base).
Proof.
  intros Hw Hs. unfold NewBuilder, b_Reset. rewrite (Range_ok _ (wf_get_wf _ Hw)). cbn [outcome_bind].
  eexists. split; [reflexivity|].
  assert (Hin : forall n, contains (omap (fun l => if bool_decide (Value l = []) then Some (Name l) else None) base) n = true
                <-> exists m, In m base /\ Value m = [] /\ Name m = n).
  { intros n. rewrite contains_spec, <- list_elem_of_In, list_elem_of_omap. split.
    - intros (m & Hm & E). exists m. apply list_elem_of_In in Hm. destruct (bool_decide_reflect (Value m = [])); [|discriminate].
      injection E as <-. auto.
    - intros (m & Hm & Hv & <-). exists m. rewrite list_elem_of_In, Hv, bool_decide_true by reflexivity. auto. }
  split; cbn [b_base b_del b_add].
  - reflexivity.
  - constructor.
  - constructor.
  - intros m Hm Hv. apply Hin. exists m. auto.
  - intros n Hn. unfold base_model, effective. cbn [find_label].
    destruct (contains _ n) eqn:Ec.
    + apply Hin in Ec. destruct Ec as (m & Hm & Hv & <-). rewrite (find_label_in _ _ Hs Hm), Hv. reflexivity.
    + destruct (find_label n base) as [[|x v]|] eqn:E; try reflexivity. exfalso.
      destruct (find_label_Some _ _ _ E) as (m & Hm & En & Ev).
      assert (Ht : contains (omap (fun l => if bool_decide (Value l = []) then Some (Name l) else None) base) n = true)
        by (apply Hin; exists m; auto). congruence.
Qed.

Lemma del1_represents base b f n : represents base b f ->
  exists b', b_Del1 b n = Ret b' /\ represents base b' (upd f n None).
Proof.
  intros [H1 H2 H3 H4 H5]. rewrite (b_Del1_ok _ _ H2). eexists. split; [reflexivity|].
  split; cbn [b_base b_del b_add].
  - exact H1.
  - clear -H2. induction (b_add b) as [|a add IH]; [constructor|]. apply NoDup_cons in H2. destruct H2 as [Ha Hnd].
    cbn [drop_name List.filter]. fold (drop_name n add). destruct (negb _); [|apply IH, Hnd]. cbn [map].
    apply NoDup_cons. split; [|apply IH, Hnd]. intros Hin. apply Ha. apply list_elem_of_In, in_map_iff in Hin.
    destruct Hin as (x & Ex & Hx). apply filter_In in Hx. rewrite <- Ex. apply list_elem_of_In, in_map, Hx.
  - apply List.Forall_forall. intros a Ha. apply filter_In in Ha. apply (proj1 (List.Forall_forall _ _) H3 a), Ha.
  - intros m Hm Hv. rewrite contains_snoc, (H4 m Hm Hv). reflexivity.
  - intros k Hk. unfold upd, effective. rewrite find_drop_name, contains_snoc. destruct (decide (k = n)) as [->|Hkn].
    + rewrite bool_decide_true by reflexivity. rewrite orb_true_r. reflexivity.
    + rewrite bool_decide_false by assumption. rewrite orb_false_r. apply H5, Hk.
Qed.

Lemma del_represents base ns b f : represents base b f ->
  exists b', b_Del b ns = Ret b' /\ represents base b' (fold_left (fun f n => upd f n None) ns f).
Proof.
  revert b f. induction ns as [|n ns IH]; intros b f Hr; cbn [b_Del fold_left].
  - exists b. auto.
  - destruct (del1_represents base b f n Hr) as (b1 & -> & Hr1). cbn [outcome_bind]. apply IH, Hr1.
Qed.

Lemma set_value_spec n v add :
  match set_value n v add with
  | Some add' => map Name add' = map Name add /\ (forall k, find_label k add' = if decide (k = n) then Some v else find_label k add)
                 /\ (forall a, In a add' -> In a add \/ (Name a = n /\ Value a = v))
  | None => forall a, In a add -> Name a <> n
  end.
Proof.
  induction add as [|a add IH]; cbn [set_value]; [intros a []|].
  destruct (str_eqb (Name a) n) eqn:E.
  - apply str_eqb_spec in E. split; [reflexivity|]. split.
    + intros k. cbn [find_label Name Value]. rewrite E. destruct (decide (k = n)) as [->|Hk].
      * rewrite (proj2 (str_eqb_spec _ _) eq_refl). reflexivity.
      * rewrite (proj2 (str_eqb_false _ _)) by congruence. reflexivity.
    + intros b [<-|Hb]; [right; auto|left; right; exact Hb].
  - apply str_eqb_false in E. destruct (set_value n v add) as [add'|].
    + destruct IH as (IH1 & IH2 & IH3). split; [cbn; congruence|]. split.
      * intros k. cbn [find_label]. rewrite IH2. destruct (str_eqb (Name a) k) eqn:Ek; [|reflexivity].
        apply str_eqb_spec in Ek. subst k. destruct (decide (Name a = n)); [contradiction|reflexivity].
      * intros b [<-|Hb]; [left; left; reflexivity|]. destruct (IH3 b Hb); [left; right; assumption|right; assumption].
    + intros b [<-|Hb]; [exact E|apply IH, Hb].
Qed.

Lemma find_label_app k l1 l2 : find_label k (l1 ++ l2) = match find_label k l1 with Some v => Some v | None => find_label k l2 end.
Proof. induction l1 as [|a l1 IH]; [reflexivity|]. cbn. rewrite IH. destruct (str_eqb (Name a) k); reflexivity. Qed.

Lemma set_represents base b f n v : represents base b f -> v <> [] -> n <> [] -> short n -> short v ->
  exists b', b_Set b n v = Ret b' /\ represents base b' (upd f n (Some v)).
Proof.
  intros [H1 H2 H3 H4 H5] Hv Hn Hsn Hsv. unfold b_Set. destruct (Nat.eqb_spec (length v) 0) as [E|_].
  { apply nil_length_inv in E. contradiction. }
  eexists. split; [reflexivity|]. pose proof (set_value_spec n v (b_add b)) as Hset.
  assert (Hnew : wf_add (mkLabel n v)) by (repeat split; assumption).
  destruct (set_value n v (b_add b)) as [add'|]; split; cbn [b_base b_del b_add]; try assumption.
  - destruct Hset as (-> & _). exact H2.
  - destruct Hset as (_ & _ & H). apply List.Forall_forall. intros a Ha. destruct (H a Ha) as [Ha'|[En Ev]].
    + apply (proj1 (List.Forall_forall _ _) H3 a Ha').
    + destruct a as [an av]. cbn in En, Ev. subst. exact Hnew.
  - destruct Hset as (_ & H & _). intros k Hk. unfold upd, effective. rewrite H.
    destruct (decide (k = n)); [reflexivity|apply H5, Hk].
  - rewrite map_app. cbn [map Name]. apply NoDup_app. split; [exact H2|]. split; [|apply NoDup_singleton].
    intros x Hx Hc. apply list_elem_of_singleton in Hc. subst x. apply list_elem_of_In, in_map_iff in Hx.
    destruct Hx as (a & Ea & Ha). apply (Hset a Ha Ea).
  - apply Forall_app. split; [exact H3|]. constructor; [exact Hnew|constructor].
  - intros k Hk. unfold upd, effective. rewrite find_label_app. cbn [find_label Name Value].
    destruct (decide (k = n)) as [->|Hkn].
    + rewrite (proj2 (find_label_None n (b_add b)) Hset), (proj2 (str_eqb_spec _ _) eq_refl). reflexivity.
    + rewrite (proj2 (str_eqb_false n k)) by congruence. rewrite (H5 k Hk). unfold effective.
      destruct (find_label k (b_add b)); reflexivity.
Qed.

Lemma builder_run_represents base ops b f : Forall op_ok ops -> represents base b f ->
  exists b', b_run b ops = Ret b' /\ represents base b' (fold_left model_step ops f).
Proof.
  intros Hops. revert b f. induction Hops as [|o ops Ho _ IH]; intros b f Hr; cbn [b_run fold_left]; [eauto|].
  assert (Hstep : exists b', b_step b o = Ret b' /\ represents base b' (model_step f o)).
  { destruct o as [n v|ns]; cbn [b_step model_step op_ok] in *.
    - destruct v as [|x v].
      + unfold b_Set. cbn [length Nat.eqb]. apply (del_represents base [n] b f Hr).
      + destruct Ho as (Hn & Hsn & Hsv). apply set_represents; try assumption. discriminate.
    - apply del_represents, Hr. }
  destruct Hstep as (b1 & -> & Hr1). cbn [outcome_bind]. apply IH, Hr1.
Qed.

Lemma sort_strings_sorted l : StronglySorted str_le (merge_sort str_le l) /\ Permutation (merge_sort str_le l) l.
Proof. split; [apply StronglySorted_merge_sort; apply _|apply merge_sort_Permutation]. Qed.

Lemma labels_represents base b f : Forall wf_get base -> sorted base -> represents base b f ->
  exists out b', b_Labels b = Ret (enc_labels out, b') /\ sorted out
    /\ Forall wf_add out /\ forall n, n <> [] -> find_label n out = f n.
Proof.
  intros Hw Hs [H1 H2 H3 H4 H5]. unfold b_Labels.
  destruct (_ && _) eqn:E0.
  { apply andb_true_iff in E0. destruct E0 as [E1 E2]. apply Nat.eqb_eq, nil_length_inv in E1, E2.
    exists base, b. rewrite H1. split; [reflexivity|]. split; [exact Hs|]. rewrite E1 in H4. split.
    - apply List.Forall_forall. intros m Hm. split; [apply (proj1 (List.Forall_forall _ _) Hw m Hm)|].
      intros Hv. specialize (H4 m Hm Hv). discriminate.
    - intros n Hn. rewrite (H5 n Hn). unfold effective. rewrite E1, E2. reflexivity. }
  clear E0. destruct (sort_labels_sorted _ H2) as [Hsa Hpa]. destruct (sort_strings_sorted (b_del b)) as [Hsd Hpd].
  set (add := sort_labels (b_add b)) in *. set (del := merge_sort str_le (b_del b)) in *.
  assert (Hwa : Forall wf_add add) by (rewrite Hpa; exact H3).
  assert (Hwal : Forall wf_label add) by (eapply List.Forall_impl; [|exact Hwa]; intros a [[Ha _] _]; exact Ha).
  rewrite H1, (merge_loop_ok base (enc_labels base) 0 del add []); [|apply wf_get_wf, Hw|exact Hwal|reflexivity|lia].
  cbn [outcome_bind app]. destruct (merge_spec_ok base del add Hs Hsa Hsd) as [Hso Hin].
  set (out := merge_spec base del add) in *. eexists out, _. split; [reflexivity|]. split; [exact Hso|]. split.
  - apply List.Forall_forall. intros x Hx. apply Hin in Hx. destruct Hx as [Hx|(Hx & Hnd & _)].
    + apply (proj1 (List.Forall_forall _ _) Hwa x Hx).
    + split; [apply (proj1 (List.Forall_forall _ _) Hw x Hx)|]. intros Hv. apply Hnd.
      specialize (H4 x Hx Hv). apply contains_spec in H4. apply (Permutation_in _ (Permutation_sym Hpd)). exact H4.
  - intros n Hn. rewrite (H5 n Hn). unfold effective.
    destruct (find_label n (b_add b)) as [v|] eqn:Ea.
    { destruct (find_label_Some _ _ _ Ea) as (a & Ha & <- & <-). apply (find_label_in _ _ Hso). apply Hin. left.
      apply (Permutation_in _ (Permutation_sym Hpa)). exact Ha. }
    assert (Hna : forall a, In a add -> Name a <> n).
    { intros a Ha. apply (proj1 (find_label_None n (b_add b)) Ea). apply (Permutation_in _ Hpa). exact Ha. }
    destruct (contains (b_del b) n) eqn:Ec.
    + apply contains_spec in Ec. apply find_label_None. intros m Hm E. apply Hin in Hm. destruct Hm as [Hm|(_ & Hnd & _)].
      * apply (Hna m Hm E).
      * apply Hnd. rewrite E. apply (Permutation_in _ (Permutation_sym Hpd)). exact Ec.
    + destruct (find_label n base) as [v|] eqn:Eb.
      * destruct (find_label_Some _ _ _ Eb) as (m & Hm & <- & <-). apply (find_label_in _ _ Hso). apply Hin. right.
        split; [exact Hm|]. split; [|exact Hna]. intros Hd. apply (Permutation_in _ Hpd), contains_spec in Hd. congruence.
      * apply find_label_None. intros m Hm E. apply Hin in Hm. destruct Hm as [Hm|(Hm & _)]; [apply (Hna m Hm E)|].
        apply (proj1 (find_label_None n base) Eb m Hm E).
Qed.

Lemma b_Get_represents base b f n : Forall wf_get base -> sorted base -> represents base b f -> n <> [] ->
  b_Get b n = Ret (default [] (f n)).
Proof.
  intros Hw Hs [H1 H2 H3 H4 H5] Hn. unfold b_Get. rewrite (H5 n Hn). unfold effective.
  destruct (find_label n (b_add b)); [reflexivity|]. destruct (contains (b_del b) n); [reflexivity|].
  rewrite H1. apply (Get_ok base n Hw Hs Hn).
Qed.

(** ** [Compare] is the lexicographic order *)

(** The names and values in order, and their comparison. *)
Definition fields (ls : list Label) : list bytes := flat_map (fun m => [Name m; Value m]) ls.
Definition enc_fields (fs : list bytes) : bytes := flat_map enc_str fs.

Fixpoint fields_compare (a b : list bytes) : comparison :=
  match a, b with
  | [], [] => Eq
  | [], _ :: _ => Lt
  | _ :: _, [] => Gt
  | x :: a', y :: b' => match str_compare x y with Eq => fields_compare a' b' | c => c end
  end.

(** Label by label, the name before the value; a prefix is smaller. *)
Fixpoint labels_compare (a b : list Label) : comparison :=
  match a, b with
  | [], [] => Eq
  | [], _ :: _ => Lt
  | _ :: _, [] => Gt
  | x :: a', y :: b' =>
      match str_compare (Name x) (Name y) with
      | Eq => match str_compare (Value x) (Value y) with Eq => labels_compare a' b' | c => c end
      | c => c
      end
  end.

Lemma labels_fields_compare a b : labels_compare a b = fields_compare (fields a) (fields b).
Proof.
  revert b. induction a as [|x a IH]; intros [|y b]; try reflexivity. cbn.
  destruct (str_compare (Name x) (Name y)); try reflexivity.
  destruct (str_compare (Value x) (Value y)); try reflexivity. apply IH.
Qed.

Lemma enc_labels_fields ls : enc_labels ls = enc_fields (fields ls).
Proof.
  unfold enc_labels, enc_fields, fields. induction ls as [|m ls IH]; [reflexivity|]. cbn [flat_map app].
  rewrite IH. unfold enc_label. rewrite <- app_assoc. reflexivity.
Qed.

Lemma fields_short ls : Forall wf_label ls -> Forall short (fields ls).
Proof. induction 1 as [|m ls [H1 H2] _ IH]; [constructor|]. repeat constructor; assumption. Qed.

(** The encoding of a field is prefix-free. *)
Lemma enc_str_unique x y r1 r2 : short x -> short y -> enc_str x ++ r1 = enc_str y ++ r2 -> x = y /\ r1 = r2.
Proof.
  intros Hx Hy E. pose proof (decodeString_ok (enc_str x ++ r1) 0 x r1 Hx eq_refl) as Dx.
  pose proof (decodeString_ok (enc_str x ++ r1) 0 y r2 Hy E) as Dy. rewrite Dx in Dy. injection Dy as -> _.
  split; [reflexivity|]. apply app_inv_head in E. exact E.
Qed.

Lemma enc_fields_prefix fa fb t : Forall short fa -> Forall short fb -> enc_fields fb = enc_fields fa ++ t ->
  exists t', fb = fa ++ t'.
Proof.
  intros Ha. revert fb. induction Ha as [|x fa Hx _ IH]; intros fb Hb E; [exists fb; reflexivity|].
  destruct Hb as [|y fb Hy Hb].
  - exfalso. cbn [enc_fields flat_map] in E. apply (f_equal length) in E. rewrite !length_app, enc_str_length in E.
    pose proof (enc_size_length (length x)). cbn in E. lia.
  - cbn [enc_fields flat_map] in E. rewrite <- app_assoc in E. apply enc_str_unique in E; try assumption.
    destruct E as [-> E]. destruct (IH fb Hb E) as [t' ->]. exists t'. reflexivity.
Qed.

Lemma fields_compare_prefix fa t : fields_compare fa (fa ++ t) = match t with [] => Eq | _ => Lt end.
Proof. induction fa as [|x fa IH]; [destruct t; reflexivity|]. cbn. rewrite str_compare_refl. exact IH. Qed.

Lemma fields_compare_opp a b : fields_compare b a = CompOpp (fields_compare a b).
Proof.
  revert b. induction a as [|x a IH]; intros [|y b]; try reflexivity. cbn. rewrite (str_compare_opp x y).
  destruct (str_compare x y); cbn; [apply IH|reflexivity|reflexivity].
Qed.

(** A common beginning of [r] bytes, then different bytes. *)
Definition agree (s l : bytes) (r : nat) : Prop := take r s = take r l.

Lemma agree_S s l r : (r < length s)%nat -> (r < length l)%nat -> agree s l r -> nth r s 0 = nth r l 0 -> agree s l (S r).
Proof.
  unfold agree. intros H1 H2 E En. destruct (lookup_lt_is_Some_2 s r H1) as [x Ex], (lookup_lt_is_Some_2 l r H2) as [y Ey].
  rewrite (take_S_r _ _ _ Ex), (take_S_r _ _ _ Ey), E. do 2 f_equal.
  rewrite !nth_lookup, Ex, Ey in En. exact En.
Qed.

Lemma words_loop_ok fuel s l i : (length s <= length l)%nat -> (i <= length s)%nat -> agree s l i ->
  let r := words_loop fuel s l i in (i <= r <= length s)%nat /\ agree s l r.
Proof.
  intros Hl. revert i. induction fuel as [|fuel IH]; intros i Hi Ha; cbn [words_loop]; [split; [lia|exact Ha]|].
  destruct (Z.ltb_spec (Z.of_nat i) (Z.of_nat (length s) - 8)); cbn [andb]; [|split; [lia|exact Ha]].
  destruct (bool_decide_reflect (slice s i (i + 8) = slice l i (i + 8))) as [E|]; [|split; [lia|exact Ha]].
  destruct (IH (i + 8)%nat) as [H1 H2]; [lia| |split; [lia|exact H2]].
  unfold agree, slice in *. replace (i + 8 - i)%nat with 8%nat in E by lia.
  rewrite <- !take_take_drop, Ha, E. reflexivity.
Qed.

Lemma bytes_loop_ok fuel s l i : (length s <= length l)%nat -> (i <= length s)%nat -> agree s l i ->
  (length s - i <= fuel)%nat ->
  let r := bytes_loop fuel s l i in
  (r <= length s)%nat /\ agree s l r /\ (r = length s \/ nth r s 0 <> nth r l 0).
Proof.
  intros Hl. revert i. induction fuel as [|fuel IH]; intros i Hi Ha Hf; cbn [bytes_loop].
  - split; [lia|]. split; [exact Ha|left; lia].
  - destruct (Nat.ltb_spec i (length s)) as [Hlt|Hge]; cbn [andb].
    + destruct (Z.eqb_spec (nth i s 0) (nth i l 0)) as [E|E].
      * apply IH; [lia| |lia]. apply agree_S; try assumption. lia.
      * split; [lia|]. split; [exact Ha|right; exact E].
    + split; [lia|]. split; [exact Ha|left; lia].
Qed.

(** Where two encodings first differ: after common fields, inside a field. *)
Lemma differ_in_field fa fb r : Forall short fa -> Forall short fb ->
  (r < length (enc_fields fa))%nat -> (r < length (enc_fields fb))%nat ->
  agree (enc_fields fa) (enc_fields fb) r -> nth r (enc_fields fa) 0 <> nth r (enc_fields fb) 0 ->
  exists p x y fa' fb', fa = p ++ x :: fa' /\ fb = p ++ y :: fb' /\ x <> y
    /\ (length (enc_fields p) <= r < length (enc_fields p) + length (enc_str x))%nat.
Proof.
  intros Ha. revert fb r. induction Ha as [|x fa Hx Ha IH]; intros fb r Hb Hra Hrb Hag Hne; [cbn in Hra; lia|].
  destruct Hb as [|y fb Hy Hb]; [cbn in Hrb; lia|]. cbn [enc_fields flat_map] in *.
  fold (enc_fields fa) in *. fold (enc_fields fb) in *.
  destruct (decide (x = y)) as [->|Hxy].
  - assert (Hr : (length (enc_str y) <= r)%nat).
    { destruct (Nat.le_gt_cases (length (enc_str y)) r); [assumption|]. exfalso. apply Hne. rewrite !app_nth1 by lia. reflexivity. }
    rewrite length_app in Hra, Hrb. rewrite !app_nth2 in Hne by lia.
    destruct (IH fb (r - length (enc_str y))%nat Hb) as (p & u & v & fa' & fb' & -> & -> & Huv & Hp); [lia|lia| |exact Hne|].
    + unfold agree in *. rewrite !take_app_ge in Hag by lia. apply app_inv_head in Hag. exact Hag.
    + exists (y :: p), u, v, fa', fb'. split; [reflexivity|]. split; [reflexivity|]. split; [exact Huv|].
      cbn [enc_fields flat_map]. fold (enc_fields p). rewrite length_app. lia.
  - exists [], x, y, fa, fb. split; [reflexivity|]. split; [reflexivity|]. split; [exact Hxy|]. cbn [enc_fields flat_map length].
    split; [lia|]. destruct (Nat.le_gt_cases (length (enc_str x)) r) as [Hr|]; [|assumption]. exfalso. apply Hxy.
    assert (E : enc_str x = take (length (enc_str x)) (enc_str y ++ enc_fields fb)).
    { unfold agree in Hag. apply (f_equal (take (length (enc_str x)))) in Hag. rewrite !take_take in Hag.
      replace (length (enc_str x) `min` r)%nat with (length (enc_str x)) in Hag by lia.
      rewrite take_app_length in Hag. exact Hag. }
    apply (enc_str_unique x y (drop (length (enc_str x)) (enc_str y ++ enc_fields fb)) (enc_fields fb) Hx Hy).
    rewrite E at 1. apply take_drop.
Qed.

Lemma enc_fields_app p q : enc_fields (p ++ q) = enc_fields p ++ enc_fields q.
Proof. apply flat_map_app. Qed.

Lemma drop_fields p q : drop (length (enc_fields p)) (enc_fields (p ++ q)) = enc_fields q.
Proof. rewrite enc_fields_app. apply drop_app_length. Qed.

(** The walk stops at the field that holds byte [r]. *)
Lemma field_loop_ok done p x rest r fuel :
  Forall short p -> short x ->
  (length (enc_fields (done ++ p)) <= r < length (enc_fields (done ++ p)) + length (enc_str x))%nat ->
  (length p < fuel)%nat ->
  field_loop fuel (enc_fields (done ++ p ++ x :: rest)) r (length (enc_fields done))
  = Ret (length (enc_fields (done ++ p))).
Proof.
  intros Hp Hx. revert done fuel. induction Hp as [|y p Hy _ IH]; intros done fuel Hr Hf;
    (destruct fuel as [|fuel]; [cbn in Hf; lia|]); cbn [field_loop].
  - pose proof (drop_fields done ([] ++ x :: rest)) as E. cbn [app enc_fields flat_map] in E. unfold enc_str at 1 in E.
    rewrite <- app_assoc in E. cbn [app]. cbn [app] in E.
    rewrite (decodeSize_ok _ _ _ _ Hx E). cbn [outcome_bind]. rewrite app_nil_r in *.
    rewrite enc_str_length in Hr. destruct (Nat.leb_spec (length (enc_fields done) + length (enc_size (length x)) + length x) r); [lia|].
    reflexivity.
  - pose proof (drop_fields done ((y :: p) ++ x :: rest)) as E. cbn [app enc_fields flat_map] in E. unfold enc_str at 1 in E.
    rewrite <- app_assoc in E. cbn [app]. rewrite (decodeSize_ok _ _ _ _ Hy E). cbn [outcome_bind].
    assert (Hlen : (length (enc_fields (done ++ [y])) = length (enc_fields done) + length (enc_size (length y)) + length y)%nat).
    { rewrite enc_fields_app, length_app. cbn. rewrite app_nil_r, enc_str_length. lia. }
    assert (Hle : (length (enc_fields (done ++ [y])) <= length (enc_fields (done ++ y :: p)))%nat).
    { replace (done ++ y :: p) with ((done ++ [y]) ++ p) by (rewrite <- app_assoc; reflexivity).
      rewrite (enc_fields_app (done ++ [y])), length_app. lia. }
    destruct (Nat.leb_spec (length (enc_fields done) + length (enc_size (length y)) + length y) r); [|lia].
    rewrite <- Hlen. replace (done ++ y :: p ++ x :: rest) with ((done ++ [y]) ++ p ++ x :: rest) by (rewrite <- app_assoc; reflexivity).
    replace (done ++ y :: p) with ((done ++ [y]) ++ p) in * by (rewrite <- app_assoc; reflexivity).
    apply IH; [exact Hr|cbn in Hf; lia].
Qed.

Lemma enc_fields_length_ge p : (length p <= length (enc_fields p))%nat.
Proof.
  induction p as [|x p IH]; [cbn; lia|]. cbn. fold (enc_fields p). rewrite length_app, enc_str_length.
  pose proof (enc_size_length (length x)). lia.
Qed.

(** The part of [Compare] after the first difference was found. *)
Lemma compare_tail fa fb r : Forall short fa -> Forall short fb ->
  (r < length (enc_fields fa))%nat -> (r < length (enc_fields fb))%nat ->
  agree (enc_fields fa) (enc_fields fb) r -> nth r (enc_fields fa) 0 <> nth r (enc_fields fb) 0 ->
  exists z, outcome_bind (field_loop (S (length (enc_fields fa))) (enc_fields fa) r 0) (fun i =>
    outcome_bind (decodeString (enc_fields fa) i) (fun '(aStr, _) =>
    outcome_bind (decodeString (enc_fields fb) i) (fun '(bStr, _) =>
      Ret (if str_ltb aStr bStr then -1 else 1)))) = Ret z /\ Z.compare z 0 = fields_compare fa fb.
Proof.
  intros Ha Hb Hra Hrb Hag Hne.
  destruct (differ_in_field fa fb r Ha Hb Hra Hrb Hag Hne) as (p & x & y & fa' & fb' & -> & -> & Hxy & Hp).
  apply Forall_app in Ha, Hb. destruct Ha as [Hpa Ha], Hb as [_ Hb]. apply Forall_cons_1 in Ha, Hb.
  pose proof (field_loop_ok [] p x fa' r (S (length (enc_fields (p ++ x :: fa')))) Hpa (proj1 Ha) Hp) as Hw.
  cbn [app] in Hw. change (length (enc_fields [])) with 0%nat in Hw. rewrite Hw.
  2: { pose proof (enc_fields_length_ge (p ++ x :: fa')). rewrite length_app in *. lia. }
  cbn [outcome_bind].
  rewrite (decodeString_ok _ _ x (enc_fields fa') (proj1 Ha) (drop_fields p (x :: fa'))). cbn [outcome_bind].
  rewrite (decodeString_ok _ _ y (enc_fields fb') (proj1 Hb) (drop_fields p (y :: fb'))). cbn [outcome_bind].
  eexists. split; [reflexivity|].
  assert (E : fields_compare (p ++ x :: fa') (p ++ y :: fb') = str_compare x y).
  { clear -Hxy. induction p as [|z p IH]; cbn; [|rewrite str_compare_refl; exact IH].
    destruct (str_compare x y) eqn:E; try reflexivity. apply str_compare_eq in E. contradiction. }
  rewrite E. unfold str_ltb. destruct (str_compare x y) eqn:Exy; try reflexivity.
  apply str_compare_eq in Exy. contradiction.
Qed.

(** One encoding is a prefix of the other: the shorter set is smaller. *)
Lemma compare_prefix fa fb : Forall short fa -> Forall short fb ->
  (length (enc_fields fa) <= length (enc_fields fb))%nat ->
  agree (enc_fields fa) (enc_fields fb) (length (enc_fields fa)) ->
  fields_compare fa fb = Z.compare (Z.of_nat (length (enc_fields fa)) - Z.of_nat (length (enc_fields fb))) 0.
Proof.
  intros Ha Hb Hl Hag. unfold agree in Hag. rewrite take_ge in Hag by lia.
  assert (E : enc_fields fb = enc_fields fa ++ drop (length (enc_fields fa)) (enc_fields fb)).
  { rewrite Hag at 1. symmetry. apply take_drop. }
  destruct (enc_fields_prefix _ _ _ Ha Hb E) as [t ->]. rewrite fields_compare_prefix, enc_fields_app, length_app.
  symmetry. destruct t as [|x t]; [apply Z.compare_eq_iff; cbn; lia|]. apply Z.compare_lt_iff.
  pose proof (enc_fields_length_ge (x :: t)). cbn [length] in *. lia.
Qed.

Lemma Compare_ok a b : Forall wf_label a -> Forall wf_label b ->
  exists z, Compare (enc_labels a) (enc_labels b) = Ret z /\ Z.compare z 0 = labels_compare a b.
Proof.
  intros Ha Hb. rewrite !enc_labels_fields, labels_fields_compare.
  apply fields_short in Ha, Hb. set (fa := fields a) in *. set (fb := fields b) in *. unfold Compare.
  set (s := if (length (enc_fields fb) <? length (enc_fields fa))%nat then enc_fields fb else enc_fields fa).
  set (l := if (length (enc_fields fb) <? length (enc_fields fa))%nat then enc_fields fa else enc_fields fb).
  replace (if (length (enc_fields fb) <? length (enc_fields fa))%nat then (enc_fields fb, enc_fields fa) else (enc_fields fa, enc_fields fb))
    with (s, l) by (subst s l; destruct (_ <? _)%nat; reflexivity).
  assert (Hsl : (length s <= length l)%nat).
  { subst s l. destruct (Nat.ltb_spec (length (enc_fields fb)) (length (enc_fields fa))); lia. }
  destruct (words_loop_ok (length s) s l 0 Hsl ltac:(lia) eq_refl) as [Hw1 Hw2].
  destruct (bytes_loop_ok (length s) s l _ Hsl (proj2 Hw1) Hw2 ltac:(lia)) as (Hr & Hag & Hend).
  set (r := bytes_loop (length s) s l (words_loop (length s) s l 0)) in *.
  destruct (Nat.eqb_spec r (length s)) as [E|E].
  - eexists. split; [reflexivity|]. rewrite E in Hag. subst s l.
    destruct (Nat.ltb_spec (length (enc_fields fb)) (length (enc_fields fa))).
    + rewrite (fields_compare_opp fb fa), (compare_prefix fb fa Hb Ha ltac:(lia) Hag).
      rewrite <- Z.compare_antisym.
      destruct (Z.compare_spec (Z.of_nat (length (enc_fields fa)) - Z.of_nat (length (enc_fields fb))) 0),
        (Z.compare_spec 0 (Z.of_nat (length (enc_fields fb)) - Z.of_nat (length (enc_fields fa)))); lia || reflexivity.
    + symmetry. apply compare_prefix; assumption.
  - destruct Hend as [|Hne]; [contradiction|].
    assert (Hrl : (r < length (enc_fields fa))%nat /\ (r < length (enc_fields fb))%nat
      /\ agree (enc_fields fa) (enc_fields fb) r /\ nth r (enc_fields fa) 0 <> nth r (enc_fields fb) 0).
    { unfold agree in *. subst s l. destruct (Nat.ltb_spec (length (enc_fields fb)) (length (enc_fields fa)));
        (split; [lia|]); (split; [lia|]); split; auto; congruence. }
    destruct Hrl as (H1 & H2 & H3 & H4). apply compare_tail; assumption.
Qed.

(** ** Properties *)

(** C34: a label set built from unique names, each string shorter than 2^24
    bytes, is visited in the order of its names, its length is the number of
    labels, and looking up any non-empty name gives its value, the empty string
    when it is missing. *)
Theorem labels_new_correct (ls : list Label) :
  Forall wf_get ls -> NoDup (map Name ls) ->
  exists data, New ls = Ret data
    /\ Range data = Ret (sort_labels ls) /\ sorted (sort_labels ls) /\ Permutation (sort_labels ls) ls
    /\ Len data = Ret (length ls)
    /\ forall n, n <> [] ->
         Get data n = Ret (lookup_value n (sort_labels ls))
         /\ Has data n = Ret (match find_label n (sort_labels ls) with Some _ => true | None => false end).
Proof.
  intros Hw Hnd. destruct (sort_labels_sorted ls Hnd) as [Hs Hp].
  assert (Hw' : Forall wf_get (sort_labels ls)) by (rewrite Hp; exact Hw).
  exists (enc_labels (sort_labels ls)). pose proof (wf_get_wf _ Hw') as Hwl.
  split; [apply marshal_ok, Hwl|]. split; [apply Range_ok, Hwl|]. split; [exact Hs|]. split; [exact Hp|].
  split; [rewrite (Len_ok _ Hwl), (Permutation_length Hp); reflexivity|]. intros n Hn. apply Get_ok; assumption.
Qed.

Lemma labels_new_correct_witness :
  exists data, New [mkLabel [106] [50]; mkLabel [97] [49; 49]] = Ret data
    /\ Get data [97] = Ret [49; 49] /\ Get data [98] = Ret [].
Proof.
  destruct (labels_new_correct [mkLabel [106] [50]; mkLabel [97] [49; 49]]) as (data & H1 & _ & _ & _ & _ & H2).
  - repeat constructor; cbn; try lia; discriminate.
  - apply (bool_decide_unpack _). vm_compute. exact I.
  - exists data. split; [exact H1|]. split.
    + exact (proj1 (H2 [97] ltac:(discriminate))).
    + exact (proj1 (H2 [98] ltac:(discriminate))).
Defined.

(** C19: a [Builder] over a sorted label set is a finite map: after any sequence
    of [Set] and [Del], [Get] returns the last value given to a name (a value
    set to the empty string counts as deleted), and [Labels] returns the sorted
    label set with exactly the names that have a value.  No call panics, although
    [Del] shifts the slice it is ranging over. *)
Theorem builder_refines_map (base : list Label) (ops : list b_op) :
  Forall wf_get base -> sorted base -> Forall op_ok ops ->
  let f := fold_left model_step ops (base_model base) in
  exists b out b', outcome_bind (NewBuilder (enc_labels base)) (fun b => b_run b ops) = Ret b
    /\ b_Labels b = Ret (enc_labels out, b') /\ sorted out
    /\ forall n, n <> [] -> find_label n out = f n /\ b_Get b n = Ret (default [] (f n)).
Proof.
  intros Hw Hs Hops f. destruct (new_builder_ok base Hw Hs) as (b0 & -> & Hr0). cbn [outcome_bind].
  destruct (builder_run_represents base ops b0 _ Hops Hr0) as (b & -> & Hr).
  destruct (labels_represents base b _ Hw Hs Hr) as (out & b' & E & Hso & _ & Hf).
  exists b, out, b'. split; [reflexivity|]. split; [exact E|]. split; [exact Hso|]. intros n Hn.
  split; [apply Hf, Hn|]. eapply b_Get_represents; eassumption.
Qed.

Lemma builder_refines_map_witness :
  exists b out b', outcome_bind (NewBuilder (enc_labels [mkLabel [97] [49]; mkLabel [99] [51]]))
      (fun b => b_run b [BSet [98] [50]; BDel [[99]]; BSet [97] [52]]) = Ret b
    /\ b_Labels b = Ret (enc_labels out, b') /\ find_label [97] out = Some [52] /\ find_label [99] out = None.
Proof.
  destruct (builder_refines_map [mkLabel [97] [49]; mkLabel [99] [51]] [BSet [98] [50]; BDel [[99]]; BSet [97] [52]])
    as (b & out & b' & H1 & H2 & _ & H3).
  - repeat constructor; cbn; try lia; discriminate.
  - repeat constructor.
  - repeat constructor; cbn; try lia; discriminate.
  - exists b, out, b'. split; [exact H1|]. split; [exact H2|]. split.
    + exact (proj1 (H3 [97] ltac:(discriminate))).
    + exact (proj1 (H3 [99] ltac:(discriminate))).
Defined.

(** C30: [Compare] of two label sets is the lexicographic order of their labels,
    each name before its value, although it looks for the first differing byte
    of the encodings, in which a length precedes every string. *)
Theorem labels_compare_lexicographic (a b : list Label) :
  Forall wf_label a -> Forall wf_label b ->
  exists z, Compare (enc_labels a) (enc_labels b) = Ret z /\ Z.compare z 0 = labels_compare a b.
Proof. apply Compare_ok. Qed.

Lemma labels_compare_lexicographic_witness :
  exists z, Compare (enc_labels [mkLabel [97] [49; 49; 49]]) (enc_labels [mkLabel [97] [50]; mkLabel [98] [49]]) = Ret z
    /\ Z.compare z 0 = Lt.
Proof.
  exact (labels_compare_lexicographic [mkLabel [97] [49; 49; 49]] [mkLabel [97] [50]; mkLabel [98] [49]]
           ltac:(repeat constructor; cbn; lia) ltac:(repeat constructor; cbn; lia)).
Defined.

(** a string of exactly 2^24 bytes passes the length check, but its length
    is written as zero: the three length bytes hold 24 bits. *)
Theorem label_size_limit_off_by_one (v := Z.to_nat (2 ^ 24)) :
  sizeWhenEncoded (Z.of_nat v) = Ret 4%nat
  /\ encodeSize [0; 0; 0; 0] 4 v = Ret ([255; 0; 0; 0], 0%nat)
  /\ decodeSize [255; 0; 0; 0] 0 = Ret (0%nat, 4%nat).
Proof.
  assert (E : Z.of_nat v = 2 ^ 24) by (apply Z2Nat.id; lia). unfold encodeSize. rewrite E.
  split; [reflexivity|]. split; reflexivity.
Qed.
