(* ===== verification/Relabel.v ===== *)
(** * Relabelling ([model/relabel/relabel.go])

    A list of rules rewrites the labels of a target or of a sample through a
    [labels.Builder].  Regular expressions, the hash, the case tables and the syntax of
    label names are outside of the repository.

    The meaning of a rule is given on the map that a builder stands for: the
    operations it makes on the map, or that it drops the labels. *)
From stdpp Require Import base list numbers strings pretty.
From Stdlib Require Import ZArith Lia Sorted.
From S2P Require Import Prelude Utf8 Labels.

(** ** Outside code *)

(** [R] is a pointer to a compiled expression, [Ix] the positions of its groups
    in a match. *)
Class RelabelLib (R Ix : Type) := {
  re_MatchString : R -> bytes -> bool;
  re_FindStringSubmatchIndex : R -> bytes -> option Ix;
  re_ExpandString : R -> bytes -> bytes -> Ix -> bytes;
  re_ReplaceAllString : R -> bytes -> bytes -> bytes;
  re_default : R;
  ToLower : bytes -> bytes;
  ToUpper : bytes -> bytes;
  md5_Sum : bytes -> bytes;
  IsValidName : bytes -> bool }.

(** ** Configurations *)

Inductive Action := Replace | Keep | Drop | KeepEqual | DropEqual | HashMod | LabelMap | LabelDrop | LabelKeep | Lowercase | Uppercase | UnknownAction (s : bytes).

#[export] Instance action_eq_dec : EqDecision Action.
Proof. solve_decision. Defined.

Record Config (R : Type) := mkConfig {
  SourceLabels : option (list bytes); Separator : bytes; Regex : R; Modulus : Z; TargetLabel : bytes; Replacement : bytes; cfg_Action : Action }.
Arguments mkConfig {R}. Arguments SourceLabels {R}. Arguments Separator {R}. Arguments Regex {R}. Arguments Modulus {R}.
Arguments TargetLabel {R}. Arguments Replacement {R}. Arguments cfg_Action {R}.

(** The errors of [Validate], in the order of the checks. *)
Inductive config_error := ErrNoAction | ErrNoModulus | ErrNoTarget | ErrTarget (l : bytes) | ErrReplacementSet | ErrReplacement (l : bytes) | ErrEqualFields | ErrNameFields.

(** ** [Regexp] *)

(** [NewRegexp] compiles this pattern; [String] takes its text back. *)
Definition regexp_pattern (s : bytes) : bytes := of_string "^(?s:" ++ s ++ of_string ")$".
Definition regexp_String (str : bytes) : outcome bytes := str_slice str 5 (length str - 2).

Lemma regexp_String_pattern s : regexp_String (regexp_pattern s) = Ret s.
Proof.
  unfold regexp_String, regexp_pattern. change (of_string "^(?s:") with [94; 40; 63; 115; 58]. change (of_string ")$") with [41; 36]. rewrite !length_app. cbn [length].
  replace (5 + (length s + 2) - 2)%nat with (5 + length s)%nat by lia. apply (str_slice_ok _ 5 s [41; 36]); [cbn; lia|reflexivity].
Qed.

Section relabel.
Context {R Ix : Type} {Rdec : EqDecision R} {lib : RelabelLib R Ix}.

Definition default_separator : bytes := of_string ";".
Definition default_replacement : bytes := of_string "$1".
Definition DefaultRelabelConfig : Config R := mkConfig None default_separator re_default 0 [] default_replacement Replace.

Definition varInRegexTemplate (template : bytes) : bool := existsb (fun c => c =? 36) template.

Definition one_of (a : Action) (l : list Action) : bool := bool_decide (a ∈ l).

Definition Validate (c : Config R) : option config_error :=
  let a := cfg_Action c in
  if bool_decide (a = UnknownAction []) then Some ErrNoAction
  else if (Modulus c =? 0) && bool_decide (a = HashMod) then Some ErrNoModulus
  else if one_of a [Replace; HashMod; Lowercase; Uppercase; KeepEqual; DropEqual] && bool_decide (TargetLabel c = []) then Some ErrNoTarget
  else if bool_decide (a = Replace) && negb (varInRegexTemplate (TargetLabel c)) && negb (IsValidName (TargetLabel c)) then Some (ErrTarget (TargetLabel c))
  else if bool_decide (a = Replace) && varInRegexTemplate (TargetLabel c) && negb (IsValidName (TargetLabel c)) then Some (ErrTarget (TargetLabel c))
  else if one_of a [Lowercase; Uppercase; KeepEqual; DropEqual] && negb (IsValidName (TargetLabel c)) then Some (ErrTarget (TargetLabel c))
  else if one_of a [Lowercase; Uppercase; KeepEqual; DropEqual] && negb (bool_decide (Replacement c = default_replacement)) then Some ErrReplacementSet
  else if bool_decide (a = LabelMap) && negb (IsValidName (Replacement c)) then Some (ErrReplacement (Replacement c))
  else if bool_decide (a = HashMod) && negb (IsValidName (TargetLabel c)) then Some (ErrTarget (TargetLabel c))
  else if one_of a [DropEqual; KeepEqual] && negb (bool_decide (Regex c = re_default) && (Modulus c =? 0) && bool_decide (Separator c = default_separator) && bool_decide (Replacement c = default_replacement)) then Some ErrEqualFields
  else if one_of a [LabelDrop; LabelKeep] && negb (bool_decide (SourceLabels c = None) && bool_decide (TargetLabel c = []) && (Modulus c =? 0) && bool_decide (Separator c = default_separator)
            && bool_decide (Replacement c = default_replacement)) then Some ErrNameFields
  else None.

(** ** Rules *)

(** The label of the base was neither deleted nor set. *)
Definition untouched (b : Builder) (l : Label) : bool := negb (contains (b_del b) (Name l)) && negb (existsb (fun a => str_eqb (Name a) (Name l)) (b_add b)).

(** [Builder.Range]: the labels, as they are before the callback changes any. *)
Definition b_Range (b : Builder) : outcome (list Label) :=
  outcome_bind (Range (b_base b)) (fun ls => Ret (List.filter (untouched b) ls ++ b_add b)).

Definition strings_Join (values : list bytes) (sep : bytes) : bytes :=
  match values with [] => [] | v :: vs => v ++ flat_map (fun w => sep ++ w) vs end.

Fixpoint get_all (b : Builder) (ns : list bytes) : outcome (list bytes) :=
  match ns with [] => Ret [] | n :: ns => outcome_bind (b_Get b n) (fun v => outcome_bind (get_all b ns) (fun vs => Ret (v :: vs))) end.

Definition FormatUint (x : Z) : bytes := of_string (pretty (Z.to_N x)).
Definition be_uint64 (b : bytes) : Z := be_val (take 8 b).

(** [binary.BigEndian.Uint64(hash[8:]) % cfg.Modulus] *)
Definition hash_mod (val : bytes) (modulus : Z) : outcome bytes :=
  if modulus =? 0 then Panic else Ret (FormatUint (be_uint64 (drop 8 (md5_Sum val)) mod modulus)).

Definition keep_with (o : outcome Builder) : outcome (bool * Builder) := outcome_bind o (fun b => Ret (true, b)).

(** The callback on every label of the builder. *)
Fixpoint for_labels (f : Builder -> Label -> outcome Builder) (ls : list Label) (b : Builder) : outcome Builder :=
  match ls with [] => Ret b | l :: ls => outcome_bind (f b l) (for_labels f ls) end.
Definition range_with (f : Builder -> Label -> outcome Builder) (b : Builder) : outcome (bool * Builder) :=
  keep_with (outcome_bind (b_Range b) (fun ls => for_labels f ls b)).

Definition replace (cfg : Config R) (val : bytes) (b : Builder) : outcome Builder :=
  if bool_decide (val = []) && bool_decide (Regex cfg = re_default) && negb (varInRegexTemplate (TargetLabel cfg)) && negb (varInRegexTemplate (Replacement cfg))
  then b_Set b (TargetLabel cfg) (Replacement cfg)
  else match re_FindStringSubmatchIndex (Regex cfg) val with
       | None => Ret b
       | Some indexes =>
           let target := re_ExpandString (Regex cfg) (TargetLabel cfg) val indexes in
           if negb (IsValidName target) then Ret b
           else let res := re_ExpandString (Regex cfg) (Replacement cfg) val indexes in
                if (length res =? 0)%nat then b_Del b [target] else b_Set b target res
       end.

Definition relabel (cfg : Config R) (b : Builder) : outcome (bool * Builder) :=
  outcome_bind (get_all b (default [] (SourceLabels cfg))) (fun values =>
  let val := strings_Join values (Separator cfg) in
  match cfg_Action cfg with
  | Drop => Ret (negb (re_MatchString (Regex cfg) val), b)
  | Keep => Ret (re_MatchString (Regex cfg) val, b)
  | DropEqual => outcome_bind (b_Get b (TargetLabel cfg)) (fun v => Ret (negb (str_eqb v val), b))
  | KeepEqual => outcome_bind (b_Get b (TargetLabel cfg)) (fun v => Ret (str_eqb v val, b))
  | Replace => keep_with (replace cfg val b)
  | Lowercase => keep_with (b_Set b (TargetLabel cfg) (ToLower val))
  | Uppercase => keep_with (b_Set b (TargetLabel cfg) (ToUpper val))
  | HashMod => keep_with (outcome_bind (hash_mod val (Modulus cfg)) (b_Set b (TargetLabel cfg)))
  | LabelMap => range_with (fun b l => if re_MatchString (Regex cfg) (Name l) then b_Set b (re_ReplaceAllString (Regex cfg) (Name l) (Replacement cfg)) (Value l) else Ret b) b
  | LabelDrop => range_with (fun b l => if re_MatchString (Regex cfg) (Name l) then b_Del b [Name l] else Ret b) b
  | LabelKeep => range_with (fun b l => if re_MatchString (Regex cfg) (Name l) then Ret b else b_Del b [Name l]) b
  | UnknownAction _ => Panic
  end).

Fixpoint ProcessBuilder (b : Builder) (cfgs : list (Config R)) : outcome (bool * Builder) :=
  match cfgs with
  | [] => Ret (true, b)
  | cfg :: cfgs => outcome_bind (relabel cfg b) (fun '(keep, b) => if keep : bool then ProcessBuilder b cfgs else Ret (false, b))
  end.

Definition Process (lbls : bytes) (cfgs : list (Config R)) : outcome (bytes * bool) :=
  outcome_bind (NewBuilder lbls) (fun lb =>
  outcome_bind (ProcessBuilder lb cfgs) (fun '(keep, lb) =>
  if negb keep then Ret ([], false) else outcome_bind (b_Labels lb) (fun '(ls, _) => Ret (ls, true)))).
End relabel.

(** ** What a rule means *)

(** The builder after the rules, or that the labels are dropped; [Unfit] when a
    rule makes a label without a name, or with a string that label sets cannot hold. *)
Inductive result := Dropped | Kept (f : model) | Unfit.

(** A rule drops the labels or makes changes. *)
Inductive verdict := Discard | Change (ops : list b_op).

Section meaning.
Context {R Ix : Type} {Rdec : EqDecision R} {lib : RelabelLib R Ix}.

Definition value_of (f : model) (n : bytes) : bytes := if decide (n = []) then [] else default [] (f n).
Definition joined (cfg : Config R) (f : model) : bytes := strings_Join (map (value_of f) (default [] (SourceLabels cfg))) (Separator cfg).

(** The labels of the map in some order. *)
Definition listing (f : model) (ls : list Label) : Prop :=
  NoDup (map Name ls) /\ forall n v, n <> [] -> f n = Some v <-> In (mkLabel n v) ls.

Definition discard_if (b : bool) : verdict := if b then Discard else Change [].

Definition meaning (cfg : Config R) (f : model) (ls : list Label) : verdict :=
  let val := joined cfg f in
  let matching := fun l => re_MatchString (Regex cfg) (Name l) in
  match cfg_Action cfg with
  | Drop => discard_if (re_MatchString (Regex cfg) val)
  | Keep => discard_if (negb (re_MatchString (Regex cfg) val))
  | DropEqual => discard_if (bool_decide (value_of f (TargetLabel cfg) = val))
  | KeepEqual => discard_if (negb (bool_decide (value_of f (TargetLabel cfg) = val)))
  | Replace =>
      match re_FindStringSubmatchIndex (Regex cfg) val with
      | None => Change []
      | Some ix =>
          let target := re_ExpandString (Regex cfg) (TargetLabel cfg) val ix in
          if IsValidName target then Change [BSet target (re_ExpandString (Regex cfg) (Replacement cfg) val ix)] else Change []
      end
  | Lowercase => Change [BSet (TargetLabel cfg) (ToLower val)]
  | Uppercase => Change [BSet (TargetLabel cfg) (ToUpper val)]
  | HashMod => Change [BSet (TargetLabel cfg) (FormatUint (be_uint64 (drop 8 (md5_Sum val)) mod Modulus cfg))]
  | LabelMap => Change (map (fun l => BSet (re_ReplaceAllString (Regex cfg) (Name l) (Replacement cfg)) (Value l)) (List.filter matching ls))
  | LabelDrop => Change (map (fun l => BDel [Name l]) (List.filter matching ls))
  | LabelKeep => Change (map (fun l => BDel [Name l]) (List.filter (fun l => negb (matching l)) ls))
  | UnknownAction _ => Discard
  end.

Inductive relabelled : list (Config R) -> model -> result -> Prop :=
| rl_end f : relabelled [] f (Kept f)
| rl_drop cfg cfgs f ls : listing f ls -> meaning cfg f ls = Discard -> relabelled (cfg :: cfgs) f Dropped
| rl_change cfg cfgs f ls ops r : listing f ls -> meaning cfg f ls = Change ops -> Forall op_ok ops -> relabelled cfgs (fold_left model_step ops f) r -> relabelled (cfg :: cfgs) f r
| rl_unfit cfg cfgs f ls ops : listing f ls -> meaning cfg f ls = Change ops -> ~ Forall op_ok ops -> relabelled (cfg :: cfgs) f Unfit.

(** What is used of the outside code. *)
Class RelabelLibOK : Prop := {
  default_matches_empty : exists ix, re_FindStringSubmatchIndex re_default [] = Some ix;
  expand_literal re template val ix : varInRegexTemplate template = false -> re_ExpandString re template val ix = template;
  valid_not_empty n : IsValidName n = true -> n <> [] }.

(** ** The rules do what they mean *)

Context {LOK : RelabelLibOK}.

Lemma b_Get_any base b f n : Forall wf_get base -> sorted base -> represents base b f -> b_Get b n = Ret (value_of f n).
Proof.
  intros Hw Hs Hr. unfold value_of. destruct (decide (n = [])) as [->|Hn]; [|exact (b_Get_represents base b f n Hw Hs Hr Hn)].
  unfold b_Get. assert (E : find_label [] (b_add b) = None).
  { apply find_label_None. intros a Ha E. pose proof (proj1 (List.Forall_forall _ _) (rp_add _ _ _ Hr) a Ha) as [[_ Hne] _]. contradiction. }
  rewrite E. destruct (contains (b_del b) []); reflexivity.
Qed.

Lemma get_all_ok base b f ns : Forall wf_get base -> sorted base -> represents base b f -> get_all b ns = Ret (map (value_of f) ns).
Proof.
  intros Hw Hs Hr. induction ns as [|n ns IH]; [reflexivity|]. cbn [get_all map]. rewrite (b_Get_any base b f n Hw Hs Hr), IH. reflexivity.
Qed.

Lemma sorted_names (ls : list Label) : sorted ls -> NoDup (map Name ls).
Proof.
  induction 1 as [|l ls Hs IH Hf]; [constructor|]. cbn. apply NoDup_cons. split; [|exact IH]. intros Hin. apply list_elem_of_In, in_map_iff in Hin as (m & E & Hm).
  pose proof (proj1 (List.Forall_forall _ _) Hf m Hm) as Hlt. unfold label_lt, str_lt in Hlt. rewrite E in Hlt.
  assert (Heq : str_compare (Name l) (Name l) = Eq) by (pose proof (proj2 (str_eqb_spec (Name l) (Name l)) eq_refl) as H; unfold str_eqb in H; destruct (str_compare (Name l) (Name l)); [reflexivity|discriminate|discriminate]).
  congruence.
Qed.

Lemma find_label_iff n v ls : NoDup (map Name ls) -> find_label n ls = Some v <-> In (mkLabel n v) ls.
Proof.
  induction ls as [|[an av] ls IH]; intros Hnd; [split; [discriminate|intros []]|]. cbn in Hnd. apply NoDup_cons in Hnd as [Ha Hnd]. cbn [find_label Name Value]. destruct (str_eqb an n) eqn:E.
  - apply str_eqb_spec in E. subst an. split; [intros [= ->]; left; reflexivity|]. intros [[= ->]|Hin]; [reflexivity|]. exfalso. apply Ha, list_elem_of_In, in_map_iff. exists (mkLabel n v). auto.
  - apply str_eqb_false in E. rewrite (IH Hnd). split; [right; assumption|]. intros [[= <- _]|Hin]; [congruence|exact Hin].
Qed.

(** [Range] visits every label of the map once. *)
Lemma b_Range_ok base b f : Forall wf_get base -> sorted base -> represents base b f -> exists ls, b_Range b = Ret ls /\ listing f ls.
Proof.
  intros Hw Hs [H1 H2 H3 H4 H5]. unfold b_Range. rewrite H1, (Range_ok base (wf_get_wf _ Hw)). cbn [outcome_bind]. eexists. split; [reflexivity|].
  set (g := untouched b).
  assert (Hg : forall l, g l = true -> contains (b_del b) (Name l) = false /\ forall a, In a (b_add b) -> Name a <> Name l).
  { intros l Hl. apply andb_true_iff in Hl as [Hd Ha]. apply negb_true_iff in Hd, Ha. split; [exact Hd|]. intros a Hin E.
    assert (Ht : existsb (fun a => str_eqb (Name a) (Name l)) (b_add b) = true) by (apply existsb_exists; exists a; split; [exact Hin|apply str_eqb_spec; exact E]). congruence. }
  assert (Hnd : NoDup (map Name (List.filter g base))).
  { pose proof (sorted_names base Hs) as Hn. clear -Hn. induction base as [|l base IH]; [constructor|]. cbn in Hn |- *. apply NoDup_cons in Hn as [Hl Hn]. destruct (g l); [|exact (IH Hn)]. cbn. apply NoDup_cons. split; [|exact (IH Hn)].
    intros Hin. apply Hl. apply list_elem_of_In, in_map_iff in Hin as (m & E & Hm). apply filter_In in Hm as [Hm _]. apply list_elem_of_In, in_map_iff. eauto. }
  split.
  - rewrite map_app. apply NoDup_app. split; [exact Hnd|]. split; [|exact H2]. intros x Hx Hy. apply list_elem_of_In, in_map_iff in Hx as (l & <- & Hl). apply list_elem_of_In, in_map_iff in Hy as (a & E & Ha).
    apply filter_In in Hl as [_ Hl]. exact (proj2 (Hg l Hl) a Ha E).
  - intros n v Hn. rewrite (H5 n Hn). unfold effective. rewrite in_app_iff. destruct (find_label n (b_add b)) as [w|] eqn:Ea.
    + pose proof (proj1 (find_label_iff n w (b_add b) H2) Ea) as Hin. split; [intros [= ->]; right; exact Hin|]. intros [Hl|Hl].
      * apply filter_In in Hl as [_ Hl]. destruct (proj2 (Hg _ Hl) _ Hin eq_refl).
      * f_equal. pose proof (proj2 (find_label_iff n v (b_add b) H2) Hl). congruence.
    + assert (Hno : ~ In (mkLabel n v) (b_add b)) by (intros Hin; apply (find_label_iff n v (b_add b) H2) in Hin; congruence). destruct (contains (b_del b) n) eqn:Ec.
      * split; [discriminate|]. intros [Hl|Hl]; [|contradiction]. apply filter_In in Hl as [_ Hl]. destruct (Hg _ Hl) as [Hd _]. cbn in Hd. congruence.
      * rewrite (find_label_iff n v base (sorted_names base Hs)). split; [|intros [Hl|Hl]; [apply filter_In in Hl; tauto|contradiction]].
        intros Hl. left. apply filter_In. split; [exact Hl|]. unfold g, untouched. cbn [Name]. rewrite Ec. cbn [negb andb]. apply negb_true_iff, not_true_is_false. intros He.
        apply existsb_exists in He as (a & Ha & E). apply str_eqb_spec in E. exact (proj1 (find_label_None n (b_add b)) Ea a Ha E).
Qed.

(** What validation says about a rule. *)
Definition valid (cfg : Config R) : Prop := Validate cfg = None /\ forall s, cfg_Action cfg <> UnknownAction s.

Lemma valid_modulus cfg : valid cfg -> cfg_Action cfg = HashMod -> Modulus cfg <> 0.
Proof.
  intros [Hv _] E Em. unfold Validate in Hv. rewrite E, Em in Hv. cbn in Hv. discriminate.
Qed.

Lemma valid_target cfg : valid cfg -> cfg_Action cfg = Replace -> IsValidName (TargetLabel cfg) = true.
Proof.
  intros [Hv _] E. unfold Validate in Hv. rewrite E in Hv. destruct (IsValidName (TargetLabel cfg)); [reflexivity|].
  exfalso. rewrite (bool_decide_eq_false_2 (Replace = UnknownAction [])) in Hv by discriminate. rewrite (bool_decide_eq_false_2 (Replace = HashMod)), andb_false_r in Hv by discriminate.
  rewrite (bool_decide_eq_true_2 (Replace = Replace)) in Hv by reflexivity. destruct (one_of _ _ && _); [discriminate|]. destruct (varInRegexTemplate (TargetLabel cfg)); discriminate.
Qed.

(** The fast path of [replace] does what the match would. *)
Lemma replace_ok cfg b f : valid cfg -> cfg_Action cfg = Replace ->
  exists ops, meaning cfg f [] = Change ops /\ replace cfg (joined cfg f) b = b_run b ops.
Proof.
  intros Hv Ea. pose proof (valid_target cfg Hv Ea) as Ht. unfold meaning, replace. rewrite Ea. set (val := joined cfg f).
  assert (Hone : forall n v, b_Set b n v = b_run b [BSet n v]) by (intros n v; cbn; destruct (b_Set b n v); reflexivity).
  destruct (_ && _ && _ && _) eqn:Efast.
  - rewrite !andb_true_iff, !negb_true_iff in Efast. destruct Efast as [[[E1 E2] E3] E4]. apply bool_decide_eq_true in E1, E2. destruct default_matches_empty as [ix Hix].
    rewrite E2, E1, Hix, !expand_literal by assumption. rewrite Ht. eexists. split; [reflexivity|]. apply Hone.
  - destruct (re_FindStringSubmatchIndex (Regex cfg) val) as [ix|]; [|exists []; split; reflexivity]. set (target := re_ExpandString _ _ _ _). destruct (IsValidName target); [|exists []; split; reflexivity].
    eexists. split; [reflexivity|]. set (res := re_ExpandString _ (Replacement cfg) _ _). cbn [negb]. rewrite <- Hone. unfold b_Set. destruct (length res =? 0)%nat; reflexivity.
Qed.

(** The callbacks of [Range] are operations on the builder. *)
Lemma for_labels_run (c : Label -> bool) (o : Label -> b_op) ls b :
  for_labels (fun b l => if c l then b_step b (o l) else Ret b) ls b = b_run b (map o (List.filter c ls)).
Proof.
  revert b. induction ls as [|l ls IH]; intros b; [reflexivity|]. cbn [for_labels List.filter]. destruct (c l); cbn [map b_run outcome_bind]; [|apply IH].
  destruct (b_step b (o l)) as [b1|]; [apply IH|reflexivity].
Qed.

Lemma for_labels_ext (g h : Builder -> Label -> outcome Builder) ls b : (forall b l, g b l = h b l) -> for_labels g ls b = for_labels h ls b.
Proof. intros H. revert b. induction ls as [|l ls IH]; intros b; [reflexivity|]. cbn. rewrite H. destruct (h b l); [apply IH|reflexivity]. Qed.

Lemma relabel_ok base b f cfg : Forall wf_get base -> sorted base -> represents base b f -> valid cfg ->
  exists ls, listing f ls /\ match meaning cfg f ls with Discard => relabel cfg b = Ret (false, b) | Change ops => relabel cfg b = keep_with (b_run b ops) end.
Proof.
  intros Hw Hs Hr Hv. destruct (b_Range_ok base b f Hw Hs Hr) as (ls & Els & Hls). exists ls. split; [exact Hls|]. unfold relabel. rewrite (get_all_ok base b f _ Hw Hs Hr). cbn [outcome_bind].
  fold (joined cfg f). assert (Hget : b_Get b (TargetLabel cfg) = Ret (value_of f (TargetLabel cfg))) by exact (b_Get_any base b f _ Hw Hs Hr).
  assert (Hone : forall n v, keep_with (b_Set b n v) = keep_with (b_run b [BSet n v])) by (intros n v; cbn; destruct (b_Set b n v); reflexivity).
  assert (Hrange : forall (c : Label -> bool) (o : Label -> b_op), range_with (fun b l => if c l then b_step b (o l) else Ret b) b = keep_with (b_run b (map o (List.filter c ls)))).
  { intros c o. unfold range_with. rewrite Els. cbn [outcome_bind]. rewrite for_labels_run. reflexivity. }
  assert (Heq : forall v w, str_eqb v w = bool_decide (v = w)).
  { intros v w. destruct (str_eqb v w) eqn:E; [apply str_eqb_spec in E|apply str_eqb_false in E]; [rewrite bool_decide_eq_true_2 by exact E|rewrite bool_decide_eq_false_2 by exact E]; reflexivity. }
  unfold meaning. destruct (cfg_Action cfg) eqn:Ea.
  - destruct (replace_ok cfg b f Hv Ea) as (ops & Em & Er). unfold meaning in Em. rewrite Ea in Em. rewrite Em, Er. reflexivity.
  - unfold discard_if. destruct (re_MatchString (Regex cfg) (joined cfg f)); reflexivity.
  - unfold discard_if. destruct (re_MatchString (Regex cfg) (joined cfg f)); reflexivity.
  - rewrite Hget. cbn [outcome_bind]. rewrite Heq. unfold discard_if. destruct (bool_decide _); reflexivity.
  - rewrite Hget. cbn [outcome_bind]. rewrite Heq. unfold discard_if. destruct (bool_decide _); reflexivity.
  - unfold hash_mod. destruct (Z.eqb_spec (Modulus cfg) 0) as [E|_]; [destruct (valid_modulus cfg Hv Ea E)|]. apply Hone.
  - apply (Hrange (fun l => re_MatchString (Regex cfg) (Name l)) (fun l => BSet (re_ReplaceAllString (Regex cfg) (Name l) (Replacement cfg)) (Value l))).
  - apply (Hrange (fun l => re_MatchString (Regex cfg) (Name l)) (fun l => BDel [Name l])).
  - rewrite <- (Hrange (fun l => negb (re_MatchString (Regex cfg) (Name l))) (fun l => BDel [Name l])). unfold range_with. rewrite Els. cbn [outcome_bind]. f_equal. apply for_labels_ext.
    intros b' l. destruct (re_MatchString (Regex cfg) (Name l)); reflexivity.
  - apply Hone.
  - apply Hone.
  - destruct (proj2 Hv s Ea).
Qed.

Lemma process_builder_ok base cfgs : Forall wf_get base -> sorted base -> Forall valid cfgs -> forall b f, represents base b f ->
  exists r, relabelled cfgs f r /\ match r with
  | Dropped => exists b', ProcessBuilder b cfgs = Ret (false, b')
  | Kept f' => exists b', ProcessBuilder b cfgs = Ret (true, b') /\ represents base b' f'
  | Unfit => True
  end.
Proof.
  intros Hw Hs. induction 1 as [|cfg cfgs Hv _ IH]; intros b f Hr; [exists (Kept f); split; [constructor|]; exists b; split; [reflexivity|exact Hr]|].
  destruct (relabel_ok base b f cfg Hw Hs Hr Hv) as (ls & Hls & Hm). destruct (meaning cfg f ls) as [|ops] eqn:Em.
  - exists Dropped. split; [eapply rl_drop; eassumption|]. exists b. cbn [ProcessBuilder]. rewrite Hm. reflexivity.
  - assert (Hdec : Forall op_ok ops \/ ~ Forall op_ok ops).
    { assert (Hd : forall o, op_ok o \/ ~ op_ok o) by (intros [n v|ns]; [unfold op_ok, short; destruct (decide (n = [])), (Z.lt_ge_cases (Z.of_nat (length n)) (2 ^ 24)), (Z.lt_ge_cases (Z.of_nat (length v)) (2 ^ 24)); intuition lia|left; exact I]).
      clear -Hd. induction ops as [|o ops [IH|IH]]; [left; constructor| |right; intros H; apply Forall_cons in H; tauto]. destruct (Hd o) as [Ho|Ho]; [left; constructor; assumption|right; intros H; apply Forall_cons in H; tauto]. }
    destruct Hdec as [Hok|Hok]; [|exists Unfit; split; [eapply rl_unfit; eassumption|exact I]]. destruct (builder_run_represents base ops b f Hok Hr) as (b1 & E1 & Hr1).
    destruct (IH b1 _ Hr1) as (r & Hrel & Hres). exists r. split; [eapply rl_change; eassumption|]. cbn [ProcessBuilder]. rewrite Hm. unfold keep_with. rewrite E1. cbn [outcome_bind]. exact Hres.
Qed.
End meaning.

(** C11: relabelling a sorted label set by valid rules does to the labels, taken as a map, what
    the rules mean, one after the other: it drops them, or gives the sorted label set
    of exactly the labels that remain; it never panics.  Where rules that rename
    labels collide, some label wins.  Nothing is said only once a rule makes a label
    without a name or with a string of 16 MiB. *)
Theorem relabel_means {R Ix} {Rdec : EqDecision R} {lib : RelabelLib R Ix} {LOK : RelabelLibOK} (base : list Label) (cfgs : list (Config R)) :
  Forall wf_get base -> sorted base -> Forall valid cfgs ->
  exists r, relabelled cfgs (base_model base) r /\ match r with
  | Dropped => Process (enc_labels base) cfgs = Ret ([], false)
  | Kept f => exists out, Process (enc_labels base) cfgs = Ret (enc_labels out, true) /\ sorted out /\ forall n, n <> [] -> find_label n out = f n
  | Unfit => True
  end.
Proof.
  intros Hw Hs Hv. destruct (new_builder_ok base Hw Hs) as (b0 & E0 & Hr0). destruct (process_builder_ok base cfgs Hw Hs Hv b0 _ Hr0) as (r & Hrel & H). exists r. split; [exact Hrel|].
  unfold Process. rewrite E0. cbn [outcome_bind]. destruct r as [|f|]; [destruct H as (b' & ->); reflexivity| |exact I].
  destruct H as (b' & -> & Hr). cbn [outcome_bind negb]. destruct (labels_represents base b' f Hw Hs Hr) as (out & b2 & -> & Hso & _ & Hf). exists out. auto.
Qed.

(** Expressions that match everything, in one group, or one string, without a group. *)
Inductive example_re := REAny | RELit (s : bytes).
#[export] Instance example_re_dec : EqDecision example_re.
Proof. solve_decision. Defined.

Definition example_match (r : example_re) (s : bytes) : bool := match r with REAny => true | RELit l => str_eqb l s end.
Definition example_expand (r : example_re) (template val : bytes) : bytes :=
  if str_eqb template default_replacement then match r with REAny => val | RELit _ => [] end else template.

#[local] Instance example_lib : RelabelLib example_re unit := {|
  re_MatchString := example_match; re_FindStringSubmatchIndex r s := if example_match r s then Some tt else None;
  re_ExpandString r template val _ := example_expand r template val; re_ReplaceAllString r s repl := if example_match r s then example_expand r repl s else s;
  re_default := REAny; ToLower s := s; ToUpper s := s; md5_Sum _ := repeat 0 16; IsValidName n := negb (bool_decide (n = [])) |}.

#[local] Instance example_lib_ok : RelabelLibOK.
Proof.
  constructor.
  - exists tt. reflexivity.
  - intros re template val ix H. cbn. unfold example_expand. destruct (str_eqb template default_replacement) eqn:E; [|reflexivity]. apply str_eqb_spec in E. subst. discriminate.
  - intros n H. cbn in H. apply negb_true_iff, bool_decide_eq_false in H. exact H.
Qed.

Definition example_labels : list Label := [mkLabel (of_string "a") (of_string "1"); mkLabel (of_string "b") (of_string "2")].
Definition example_rules : list (Config example_re) :=
  [mkConfig (Some [of_string "a"; of_string "b"]) default_separator REAny 0 (of_string "c") default_replacement Replace;
   mkConfig None default_separator (RELit (of_string "a")) 0 [] default_replacement LabelDrop;
   mkConfig (Some [of_string "b"]) default_separator (RELit (of_string "2")) 0 [] default_replacement Keep].

Lemma relabel_means_witness : exists r, relabelled example_rules (base_model example_labels) r /\ match r with
  | Dropped => Process (enc_labels example_labels) example_rules = Ret ([], false)
  | Kept f => exists out, Process (enc_labels example_labels) example_rules = Ret (enc_labels out, true) /\ sorted out /\ forall n, n <> [] -> find_label n out = f n
  | Unfit => True
  end.
Proof.
  apply (relabel_means example_labels example_rules).
  - repeat constructor; vm_compute; try reflexivity; discriminate.
  - repeat constructor.
  - repeat constructor; discriminate.
Defined.

Example relabel_example : Process (enc_labels example_labels) example_rules = Ret (enc_labels [mkLabel (of_string "b") (of_string "2"); mkLabel (of_string "c") (of_string "1;2")], true).
Proof. vm_compute. reflexivity. Qed.

(** A [labelmap] whose expression has no group, with the default replacement, is valid
    and makes a label without a name. *)
Definition unnamed_rule : Config example_re := mkConfig None default_separator (RELit (of_string "a")) 0 [] default_replacement LabelMap.

Lemma labelmap_unnamed : valid unnamed_rule /\ Process (enc_labels example_labels) [unnamed_rule]
  = Ret (enc_labels (mkLabel [] (of_string "1") :: example_labels), true).
Proof. split; [split; [vm_compute; reflexivity|discriminate]|vm_compute; reflexivity]. Qed.
