(* ===== verification/Record.v ===== *)
(** * WAL records: [tsdb/record/record.go]

    The records of the write-ahead log and of the in-memory snapshot: [Encoder]
    and [Decoder] for series, metadata, samples, tombstones, exemplars, m-map
    markers and the two kinds of histograms.  A float64 is its bit pattern, a
    label set the flat string of [Labels.v].  The strings that a decoder
    returns share the bytes of the record in the code; a record is not written
    to while its decoded entries are in use, and sharing is left out. *)

From stdpp Require Import base list numbers.
From Stdlib Require Import ZArith Lia.
From S2P Require Import Prelude Encoding Labels Tombstones.

(** ** Types *)

Definition Unknown : Z := 255.
Definition Series_t : Z := 1.
Definition Samples_t : Z := 2.
Definition Tombstones_t : Z := 3.
Definition Exemplars_t : Z := 4.
Definition MmapMarkers_t : Z := 5.
Definition Metadata_t : Z := 6.
Definition HistogramSamples_t : Z := 7.
Definition FloatHistogramSamples_t : Z := 8.
Definition CustomBucketsHistogramSamples_t : Z := 9.
Definition CustomBucketsFloatHistogramSamples_t : Z := 10.

Definition record_types : list Z :=
  [Series_t; Samples_t; Tombstones_t; Exemplars_t; MmapMarkers_t; Metadata_t; HistogramSamples_t;
   FloatHistogramSamples_t; CustomBucketsHistogramSamples_t; CustomBucketsFloatHistogramSamples_t].

Definition Decoder_Type (rec : bytes) : Z :=
  match rec with
  | [] => Unknown
  | t :: _ => if bool_decide (t ∈ record_types) then t else Unknown
  end.

(** The names of metric types are those of [prometheus/common/model]. *)
Class MetricTypes := {
  MetricType : Type;
  MetricType_eq_dec :: EqDecision MetricType;
  MetricTypeCounter : MetricType; MetricTypeGauge : MetricType; MetricTypeHistogram : MetricType;
  MetricTypeGaugeHistogram : MetricType; MetricTypeSummary : MetricType; MetricTypeInfo : MetricType;
  MetricTypeStateset : MetricType; MetricTypeUnknown : MetricType
}.

Section metric_types.
Context `{M : MetricTypes}.

Definition GetMetricType (t : MetricType) : Z :=
  if decide (t = MetricTypeCounter) then 1
  else if decide (t = MetricTypeGauge) then 2
  else if decide (t = MetricTypeHistogram) then 3
  else if decide (t = MetricTypeGaugeHistogram) then 4
  else if decide (t = MetricTypeSummary) then 5
  else if decide (t = MetricTypeInfo) then 6
  else if decide (t = MetricTypeStateset) then 7
  else 0.

Definition ToMetricType (m : Z) : MetricType :=
  if m =? 1 then MetricTypeCounter
  else if m =? 2 then MetricTypeGauge
  else if m =? 3 then MetricTypeHistogram
  else if m =? 4 then MetricTypeGaugeHistogram
  else if m =? 5 then MetricTypeSummary
  else if m =? 6 then MetricTypeInfo
  else if m =? 7 then MetricTypeStateset
  else MetricTypeUnknown.
End metric_types.

(** ["UNIT"] and ["HELP"] *)
Definition unitMetaName : bytes := [85; 78; 73; 84].
Definition helpMetaName : bytes := [72; 69; 76; 80].

Record RefSeries := mkRefSeries { rs_Ref : Z; rs_Labels : bytes }.
Record RefSample := mkRefSample { s_Ref : Z; s_T : Z; s_V : Z }.
Record RefMetadata := mkRefMetadata { md_Ref : Z; md_Type : Z; md_Unit : bytes; md_Help : bytes }.
Record RefExemplar := mkRefExemplar { ex_Ref : Z; ex_T : Z; ex_V : Z; ex_Labels : bytes }.
Record RefMmapMarker := mkRefMmapMarker { mm_Ref : Z; mm_MmapRef : Z }.
Record Stone := mkStone { st_Ref : Z; st_Intervals : Intervals }.

(** ** Histograms ([model/histogram]) *)
Record Span := mkSpan { Offset : Z; Length : Z }.

Record Histogram := mkHistogram {
  h_CounterResetHint : Z; h_Schema : Z; h_ZeroThreshold : Z; h_ZeroCount : Z; h_Count : Z; h_Sum : Z;
  h_PositiveSpans : list Span; h_NegativeSpans : list Span;
  h_PositiveBuckets : list Z; h_NegativeBuckets : list Z; h_CustomValues : list Z }.

Record FloatHistogram := mkFloatHistogram {
  fh_CounterResetHint : Z; fh_Schema : Z; fh_ZeroThreshold : Z; fh_ZeroCount : Z; fh_Count : Z; fh_Sum : Z;
  fh_PositiveSpans : list Span; fh_NegativeSpans : list Span;
  fh_PositiveBuckets : list Z; fh_NegativeBuckets : list Z; fh_CustomValues : list Z }.

Definition CustomBucketsSchema : Z := -53.
Definition IsCustomBucketsSchema (s : Z) : bool := s =? CustomBucketsSchema.
Definition UsesCustomBuckets (h : Histogram) : bool := IsCustomBucketsSchema (h_Schema h).
Definition FUsesCustomBuckets (h : FloatHistogram) : bool := IsCustomBucketsSchema (fh_Schema h).

Record RefHistogramSample := mkRefHist { rh_Ref : Z; rh_T : Z; rh_H : Histogram }.
Record RefFloatHistogramSample := mkRefFHist { rfh_Ref : Z; rfh_T : Z; rfh_FH : FloatHistogram }.

(** ** Decoding *)
Inductive rec_error : Type :=
| ErrInvalidType
| ErrDecode (e : enc_error)
| ErrDecodeAfter (n : nat) (e : enc_error)
| ErrBytesLeft (n : Z)
| ErrNoFuel.

Definition dec_lift {A} (o : outcome A) : Dec A := fun d =>
  match o with Ret a => Ret (a, d) | Panic => Panic end.

(** [for i := 0; i < n; i++ { ... }]: a read that fails is repeated to the end,
    since errors stick to the buffer. *)
Fixpoint dec_times {A} (n : nat) (get : Dec A) : Dec (list A) :=
  match n with
  | O => go_ret []
  | S n' => x <-- get ;; xs <-- dec_times n' get ;; go_ret (x :: xs)
  end.

(** [for len(dec.B) > 0 && dec.Err() == nil { acc = append(acc, ...) }].  Every
    iteration consumes input or ends in an error, so a fuel of the length of
    the buffer is never exhausted ([dec_while_no_fuel]). *)
Fixpoint dec_while {A} (fuel : nat) (step : Dec A) (acc : list A) : Dec (option (list A)) := fun d =>
  if (0 <? DLen d) && bool_decide (DErr d = None) then
    match fuel with
    | O => Ret (None, d)
    | S f => (x <-- step ;; dec_while f step (acc ++ [x])) d
    end
  else Ret (Some acc, d).

(** The loop and the two tests after it; [wrap] builds the error from the number
    of entries read so far. *)
Definition dec_entries {A} (wrap : nat -> enc_error -> rec_error) (step : Dec A) (acc : list A)
    : Dec (rec_error + list A) :=
  d <-- go_get ;;
  r <-- dec_while (length (dB d)) step acc ;;
  d <-- go_get ;;
  match r with
  | None => go_ret (inl ErrNoFuel)
  | Some acc =>
      match DErr d with
      | Some e => go_ret (inl (wrap (length acc) e))
      | None => if 0 <? DLen d then go_ret (inl (ErrBytesLeft (DLen d))) else go_ret (inr acc)
      end
  end.

(** The type byte, then the rest. *)
Definition dec_record {A} (ok : Z -> bool) (body : Dec (rec_error + list A)) (rec : bytes)
    : outcome (rec_error + list A) :=
  outcome_bind ((t <-- DByte ;; if ok t then body else go_ret (inl ErrInvalidType)) (mkDecbuf rec None))
    (fun '(r, _) => Ret r).

(** [if dec.Len() == 0 { return acc, nil }] *)
Definition dec_unless_empty {A} (acc : list A) (body : Dec (rec_error + list A)) : Dec (rec_error + list A) :=
  d <-- go_get ;; if DLen d =? 0 then go_ret (inr acc) else body.

Definition plain (_ : nat) (e : enc_error) : rec_error := ErrDecode e.

(** [make([]T, n)] for elements of [size] bytes panics when the slice is larger
    than the address space that the Go runtime manages on 64-bit Linux. *)
Definition maxAlloc : Z := 2 ^ 48.
Definition go_make (size n : Z) : Dec unit := if maxAlloc <? size * n then go_panic else go_ret tt.

Section decoder.
Context {V : VarintLib}.

(** [l := buf.Uvarint(); if l > 0 { xs = make([]T, l) }; for i := range xs {...}];
    nil and the empty slice are not distinguished. *)
Definition dec_slice {A} (size : Z) (get : Dec A) : Dec (list A) :=
  l <-- Uvarint ;;
  if 0 <? l then (go_make size l ;;; dec_times (Z.to_nat l) get) else go_ret [].

(** A decoder owns a [ScratchBuilder].  [DecodeLabels] resets it before use, so
    what one call leaves in it does not reach the next. *)
Definition Decoder : Type := ScratchBuilder.
Definition NewDecoder : Decoder := mkScratch [] [].

Definition get_label : Dec Label :=
  lName <-- UvarintBytes ;; lValue <-- UvarintBytes ;; go_ret (mkLabel lName lValue).
Definition DecodeLabels (d : Decoder) : Dec bytes :=
  nLabels <-- Uvarint ;;
  ls <-- dec_times (Z.to_nat nLabels) get_label ;;
  let builder := fold_left (fun b l => sb_Add (Name l) (Value l) b) ls (sb_Reset d) in
  r <-- dec_lift (sb_Labels builder) ;;
  go_ret (fst r).

Definition get_series (d : Decoder) : Dec RefSeries :=
  ref <-- Be64 ;; lset <-- DecodeLabels d ;; go_ret (mkRefSeries ref lset).
Definition Decoder_Series (d : Decoder) (rec : bytes) (series : list RefSeries) :=
  dec_record (fun t => t =? Series_t) (dec_entries plain (get_series d) series) rec.

(** The fields of a metadata entry; the last one of a known name counts. *)
Definition get_field_pair : Dec (bytes * bytes) :=
  fieldName <-- UvarintStr ;; fieldValue <-- UvarintStr ;; go_ret (fieldName, fieldValue).
Definition meta_field (acc : bytes * bytes) (f : bytes * bytes) : bytes * bytes :=
  if str_eqb (fst f) unitMetaName then (snd f, snd acc)
  else if str_eqb (fst f) helpMetaName then (fst acc, snd f)
  else acc.
Definition get_metadata : Dec RefMetadata :=
  ref <-- Uvarint64 ;; typ <-- DByte ;; numFields <-- Uvarint ;;
  fs <-- dec_times (Z.to_nat numFields) get_field_pair ;;
  let '(unit_, help) := fold_left meta_field fs ([], []) in
  go_ret (mkRefMetadata ref typ unit_ help).
Definition Decoder_Metadata (rec : bytes) (metadata : list RefMetadata) :=
  dec_record (fun t => t =? Metadata_t) (dec_entries plain get_metadata metadata) rec.

(** [Samples] replaces the slice it was given when its capacity [cap] is too
    small for the entries to come. *)
Definition get_sample (baseRef baseTime : Z) : Dec RefSample :=
  dref <-- Varint64 ;; dtime <-- Varint64 ;; val <-- Be64 ;;
  go_ret (mkRefSample (u64 (i64 (i64 baseRef + dref))) (i64 (baseTime + dtime)) val).
Definition Decoder_Samples (rec : bytes) (samples : list RefSample) (cap : Z) :=
  dec_record (fun t => t =? Samples_t)
    (dec_unless_empty samples
       (baseRef <-- Be64 ;; baseTime <-- Be64int64 ;;
        d <-- go_get ;;
        let minSize := Z.quot (DLen d) (1 + 1 + 8) in
        let samples := if cap <? minSize then [] else samples in
        dec_entries ErrDecodeAfter (get_sample baseRef baseTime) samples)) rec.

Definition get_stone : Dec Stone :=
  ref <-- Be64 ;; mint <-- Varint64 ;; maxt <-- Varint64 ;;
  go_ret (mkStone ref [mkInterval mint maxt]).
Definition Decoder_Tombstones (rec : bytes) (tstones : list Stone) :=
  dec_record (fun t => t =? Tombstones_t) (dec_entries plain get_stone tstones) rec.

Definition get_exemplar (d : Decoder) (baseRef baseTime : Z) : Dec RefExemplar :=
  dref <-- Varint64 ;; dtime <-- Varint64 ;; val <-- Be64 ;; lset <-- DecodeLabels d ;;
  go_ret (mkRefExemplar (u64 (baseRef + u64 dref)) (i64 (baseTime + dtime)) val lset).
Definition ExemplarsFromBuffer (d : Decoder) (exemplars : list RefExemplar) : Dec (rec_error + list RefExemplar) :=
  dec_unless_empty exemplars
    (baseRef <-- Be64 ;; baseTime <-- Be64int64 ;;
     dec_entries ErrDecodeAfter (get_exemplar d baseRef baseTime) exemplars).
Definition Decoder_Exemplars (d : Decoder) (rec : bytes) (exemplars : list RefExemplar) :=
  dec_record (fun t => t =? Exemplars_t) (ExemplarsFromBuffer d exemplars) rec.

Definition get_marker : Dec RefMmapMarker :=
  ref <-- Be64 ;; mmapRef <-- Be64 ;; go_ret (mkRefMmapMarker ref mmapRef).
Definition Decoder_MmapMarkers (rec : bytes) (markers : list RefMmapMarker) :=
  dec_record (fun t => t =? MmapMarkers_t)
    (dec_unless_empty markers (dec_entries ErrDecodeAfter get_marker markers)) rec.

(** [DecodeHistogram] on a zero histogram, which is what every caller passes. *)
Definition get_span : Dec Span :=
  off <-- Varint64 ;; len <-- Uvarint32 ;; go_ret (mkSpan (i32 off) len).
Definition get_custom_values (schema : Z) : Dec (list Z) :=
  if IsCustomBucketsSchema schema then dec_slice 8 Be64Float64 else go_ret [].
Definition DecodeHistogram : Dec Histogram :=
  hint <-- DByte ;; schema <-- Varint64 ;; zeroThreshold <-- Be64 ;;
  zeroCount <-- Uvarint64 ;; count <-- Uvarint64 ;; sum <-- Be64 ;;
  positiveSpans <-- dec_slice 8 get_span ;;
  negativeSpans <-- dec_slice 8 get_span ;;
  positiveBuckets <-- dec_slice 8 Varint64 ;;
  negativeBuckets <-- dec_slice 8 Varint64 ;;
  customValues <-- get_custom_values (i32 schema) ;;
  go_ret (mkHistogram hint (i32 schema) zeroThreshold zeroCount count sum
            positiveSpans negativeSpans positiveBuckets negativeBuckets customValues).
Definition DecodeFloatHistogram : Dec FloatHistogram :=
  hint <-- DByte ;; schema <-- Varint64 ;; zeroThreshold <-- Be64Float64 ;;
  zeroCount <-- Be64Float64 ;; count <-- Be64Float64 ;; sum <-- Be64Float64 ;;
  positiveSpans <-- dec_slice 8 get_span ;;
  negativeSpans <-- dec_slice 8 get_span ;;
  positiveBuckets <-- dec_slice 8 Be64Float64 ;;
  negativeBuckets <-- dec_slice 8 Be64Float64 ;;
  customValues <-- get_custom_values (i32 schema) ;;
  go_ret (mkFloatHistogram hint (i32 schema) zeroThreshold zeroCount count sum
            positiveSpans negativeSpans positiveBuckets negativeBuckets customValues).

Definition get_hist (baseRef baseTime : Z) : Dec RefHistogramSample :=
  dref <-- Varint64 ;; dtime <-- Varint64 ;; h <-- DecodeHistogram ;;
  go_ret (mkRefHist (u64 (baseRef + u64 dref)) (i64 (baseTime + dtime)) h).
Definition Decoder_HistogramSamples (rec : bytes) (histograms : list RefHistogramSample) :=
  dec_record (fun t => (t =? HistogramSamples_t) || (t =? CustomBucketsHistogramSamples_t))
    (dec_unless_empty histograms
       (baseRef <-- Be64 ;; baseTime <-- Be64int64 ;;
        dec_entries ErrDecodeAfter (get_hist baseRef baseTime) histograms)) rec.

Definition get_fhist (baseRef baseTime : Z) : Dec RefFloatHistogramSample :=
  dref <-- Varint64 ;; dtime <-- Varint64 ;; h <-- DecodeFloatHistogram ;;
  go_ret (mkRefFHist (u64 (baseRef + u64 dref)) (i64 (baseTime + dtime)) h).
Definition Decoder_FloatHistogramSamples (rec : bytes) (histograms : list RefFloatHistogramSample) :=
  dec_record (fun t => (t =? FloatHistogramSamples_t) || (t =? CustomBucketsFloatHistogramSamples_t))
    (dec_unless_empty histograms
       (baseRef <-- Be64 ;; baseTime <-- Be64int64 ;;
        dec_entries ErrDecodeAfter (get_fhist baseRef baseTime) histograms)) rec.
End decoder.

(** ** Encoding *)

(** A sequence of writes, in the order of the code. *)
Definition put_seq (fs : list (Encbuf -> Encbuf)) (buf : Encbuf) : Encbuf := fold_left (fun e f => f e) fs buf.
Definition put_all {A} (put : A -> Encbuf -> Encbuf) (l : list A) (buf : Encbuf) : Encbuf :=
  fold_left (fun e a => put a e) l buf.
(** The same for writes that may panic. *)
Fixpoint put_all_o {A} (put : A -> Encbuf -> outcome Encbuf) (l : list A) (buf : Encbuf) : outcome Encbuf :=
  match l with
  | [] => Ret buf
  | a :: l' => outcome_bind (put a buf) (put_all_o put l')
  end.

(** [buf.PutUvarint(len(xs)); for _, x := range xs { ... }] *)
Definition put_slice {A} (put : A -> Encbuf -> Encbuf) (l : list A) (buf : Encbuf) : Encbuf :=
  put_all put l (PutUvarint (Z.of_nat (length l)) buf).

Definition put_label (l : Label) (buf : Encbuf) : Encbuf :=
  PutUvarintStr (Value l) (PutUvarintStr (Name l) buf).
Definition EncodeLabels (lbls : bytes) (buf : Encbuf) : outcome Encbuf :=
  outcome_bind (Len lbls) (fun n =>
  outcome_bind (Range lbls) (fun ls => Ret (put_all put_label ls (PutUvarint (Z.of_nat n) buf)))).

Definition put_series (s : RefSeries) (buf : Encbuf) : outcome Encbuf :=
  EncodeLabels (rs_Labels s) (PutBE64 (rs_Ref s) buf).
Definition Encoder_Series (series : list RefSeries) (b : bytes) : outcome bytes :=
  outcome_bind (put_all_o put_series series (PutByte Series_t (mkEncbuf b))) (fun buf => Ret (EGet buf)).

Definition put_metadata (m : RefMetadata) : Encbuf -> Encbuf :=
  put_seq [PutUvarint64 (md_Ref m); PutByte (md_Type m); PutUvarint 2;
           PutUvarintStr unitMetaName; PutUvarintStr (md_Unit m);
           PutUvarintStr helpMetaName; PutUvarintStr (md_Help m)].
Definition Encoder_Metadata (metadata : list RefMetadata) (b : bytes) : bytes :=
  EGet (put_all put_metadata metadata (PutByte Metadata_t (mkEncbuf b))).

(** [buf.PutVarint64(int64(s.Ref) - int64(first.Ref)); buf.PutVarint64(s.T - first.T)] *)
Definition put_deltas (ref0 t0 ref t : Z) (buf : Encbuf) : Encbuf :=
  PutVarint64 (i64 (t - t0)) (PutVarint64 (i64 (i64 ref - i64 ref0)) buf).
Definition put_base (ref0 t0 : Z) (buf : Encbuf) : Encbuf := PutBE64int64 t0 (PutBE64 ref0 buf).

Definition put_sample (first s : RefSample) (buf : Encbuf) : Encbuf :=
  PutBE64 (s_V s) (put_deltas (s_Ref first) (s_T first) (s_Ref s) (s_T s) buf).
Definition Encoder_Samples (samples : list RefSample) (b : bytes) : bytes :=
  let buf := PutByte Samples_t (mkEncbuf b) in
  match samples with
  | [] => EGet buf
  | first :: _ => EGet (put_all (put_sample first) samples (put_base (s_Ref first) (s_T first) buf))
  end.

Definition put_stone (s : Stone) (buf : Encbuf) : Encbuf :=
  put_all (fun iv => put_seq [PutBE64 (st_Ref s); PutVarint64 (Mint iv); PutVarint64 (Maxt iv)])
    (st_Intervals s) buf.
Definition Encoder_Tombstones (tstones : list Stone) (b : bytes) : bytes :=
  EGet (put_all put_stone tstones (PutByte Tombstones_t (mkEncbuf b))).

Definition put_exemplar (first ex : RefExemplar) (buf : Encbuf) : outcome Encbuf :=
  EncodeLabels (ex_Labels ex)
    (PutBE64 (ex_V ex) (put_deltas (ex_Ref first) (ex_T first) (ex_Ref ex) (ex_T ex) buf)).
Definition EncodeExemplarsIntoBuffer (exemplars : list RefExemplar) (buf : Encbuf) : outcome Encbuf :=
  match exemplars with
  | [] => Panic
  | first :: _ => put_all_o (put_exemplar first) exemplars (put_base (ex_Ref first) (ex_T first) buf)
  end.
Definition Encoder_Exemplars (exemplars : list RefExemplar) (b : bytes) : outcome bytes :=
  let buf := PutByte Exemplars_t (mkEncbuf b) in
  if (length exemplars =? 0)%nat then Ret (EGet buf)
  else outcome_bind (EncodeExemplarsIntoBuffer exemplars buf) (fun buf => Ret (EGet buf)).

Definition put_marker (s : RefMmapMarker) : Encbuf -> Encbuf :=
  put_seq [PutBE64 (mm_Ref s); PutBE64 (mm_MmapRef s)].
Definition Encoder_MmapMarkers (markers : list RefMmapMarker) (b : bytes) : bytes :=
  EGet (put_all put_marker markers (PutByte MmapMarkers_t (mkEncbuf b))).

Definition put_span (s : Span) : Encbuf -> Encbuf :=
  put_seq [PutVarint64 (Offset s); PutUvarint32 (Length s)].
Definition put_custom_values (schema : Z) (vs : list Z) (buf : Encbuf) : Encbuf :=
  if IsCustomBucketsSchema schema then put_slice PutBEFloat64 vs buf else buf.
Definition EncodeHistogram (h : Histogram) : Encbuf -> Encbuf :=
  put_seq [PutByte (h_CounterResetHint h); PutVarint64 (h_Schema h); PutBE64 (h_ZeroThreshold h);
           PutUvarint64 (h_ZeroCount h); PutUvarint64 (h_Count h); PutBE64 (h_Sum h);
           put_slice put_span (h_PositiveSpans h); put_slice put_span (h_NegativeSpans h);
           put_slice PutVarint64 (h_PositiveBuckets h); put_slice PutVarint64 (h_NegativeBuckets h);
           put_custom_values (h_Schema h) (h_CustomValues h)].
Definition EncodeFloatHistogram (h : FloatHistogram) : Encbuf -> Encbuf :=
  put_seq [PutByte (fh_CounterResetHint h); PutVarint64 (fh_Schema h); PutBEFloat64 (fh_ZeroThreshold h);
           PutBEFloat64 (fh_ZeroCount h); PutBEFloat64 (fh_Count h); PutBEFloat64 (fh_Sum h);
           put_slice put_span (fh_PositiveSpans h); put_slice put_span (fh_NegativeSpans h);
           put_slice PutBEFloat64 (fh_PositiveBuckets h); put_slice PutBEFloat64 (fh_NegativeBuckets h);
           put_custom_values (fh_Schema h) (fh_CustomValues h)].

Definition put_hist (first h : RefHistogramSample) (buf : Encbuf) : Encbuf :=
  EncodeHistogram (rh_H h) (put_deltas (rh_Ref first) (rh_T first) (rh_Ref h) (rh_T h) buf).
Definition put_fhist (first h : RefFloatHistogramSample) (buf : Encbuf) : Encbuf :=
  EncodeFloatHistogram (rfh_FH h) (put_deltas (rfh_Ref first) (rfh_T first) (rfh_Ref h) (rfh_T h) buf).

(** The loop that writes the histograms with exponential buckets and puts the
    others aside. *)
Fixpoint split_loop {A} (custom : A -> bool) (put : A -> Encbuf -> Encbuf) (l : list A) (buf : Encbuf) (aside : list A)
    : Encbuf * list A :=
  match l with
  | [] => (buf, aside)
  | h :: l' => if custom h then split_loop custom put l' buf (aside ++ [h])
               else split_loop custom put l' (put h buf) aside
  end.

Definition hist_custom (h : RefHistogramSample) : bool := UsesCustomBuckets (rh_H h).
Definition fhist_custom (h : RefFloatHistogramSample) : bool := FUsesCustomBuckets (rfh_FH h).

Definition Encoder_HistogramSamples (histograms : list RefHistogramSample) (b : bytes)
    : bytes * list RefHistogramSample :=
  let buf := PutByte HistogramSamples_t (mkEncbuf b) in
  match histograms with
  | [] => (EGet buf, [])
  | first :: _ =>
      let buf := put_base (rh_Ref first) (rh_T first) buf in
      let '(buf, custom) := split_loop hist_custom (put_hist first) histograms buf [] in
      let buf := if (length histograms =? length custom)%nat then EReset buf else buf in
      (EGet buf, custom)
  end.

Definition Encoder_CustomBucketsHistogramSamples (histograms : list RefHistogramSample) (b : bytes) : bytes :=
  let buf := PutByte CustomBucketsHistogramSamples_t (mkEncbuf b) in
  match histograms with
  | [] => EGet buf
  | first :: _ => EGet (put_all (put_hist first) histograms (put_base (rh_Ref first) (rh_T first) buf))
  end.

Definition Encoder_FloatHistogramSamples (histograms : list RefFloatHistogramSample) (b : bytes)
    : bytes * list RefFloatHistogramSample :=
  let buf := PutByte FloatHistogramSamples_t (mkEncbuf b) in
  match histograms with
  | [] => (EGet buf, [])
  | first :: _ =>
      let buf := put_base (rfh_Ref first) (rfh_T first) buf in
      let '(buf, custom) := split_loop fhist_custom (put_fhist first) histograms buf [] in
      let buf := if (length histograms =? length custom)%nat then EReset buf else buf in
      (EGet buf, custom)
  end.

Definition Encoder_CustomBucketsFloatHistogramSamples (histograms : list RefFloatHistogramSample) (b : bytes) : bytes :=
  let buf := PutByte CustomBucketsFloatHistogramSamples_t (mkEncbuf b) in
  match histograms with
  | [] => EGet buf
  | first :: _ => EGet (put_all (put_fhist first) histograms (put_base (rfh_Ref first) (rfh_T first) buf))
  end.

(** ** The loops end *)

(** A reader that never grows the buffer and never clears an error. *)
Definition keeps {A} (m : Dec A) : Prop :=
  forall d x d', m d = Ret (x, d') ->
  (length (dB d') <= length (dB d))%nat /\ (dE d' = None -> dE d = None).

Lemma shrinks_keeps {A} (m : Dec A) : shrinks m -> keeps m.
Proof. intros Hm d x d'. apply shrinks_weak. exact Hm. Qed.

Lemma keeps_ret {A} (x : A) : keeps (go_ret x).
Proof. intros d y d' [= <- <-]. auto. Qed.

Lemma keeps_bind {A B} (m : Dec A) (k : A -> Dec B) : keeps m -> (forall x, keeps (k x)) -> keeps (go_bind m k).
Proof.
  intros Hm Hk d y d'. unfold go_bind. destruct (m d) as [[x d1]|] eqn:E1; [|discriminate].
  intros E2. destruct (Hm _ _ _ E1), (Hk _ _ _ _ E2). split; [lia|auto].
Qed.

Lemma shrinks_then {A B} (m : Dec A) (k : A -> Dec B) : shrinks m -> (forall x, keeps (k x)) -> shrinks (go_bind m k).
Proof. intros Hm Hk. apply shrinks_bind; [exact Hm|]. intros x d y d' E. exact (Hk x _ _ _ E). Qed.

Lemma keeps_lift {A} (o : outcome A) : keeps (dec_lift o).
Proof. intros d x d'. unfold dec_lift. destruct o; [|discriminate]. intros [= <- <-]. auto. Qed.

Lemma keeps_panic {A} : keeps (@go_panic _ A).
Proof. intros d x d' E. discriminate. Qed.

Lemma keeps_times {A} n (get : Dec A) : keeps get -> keeps (dec_times n get).
Proof.
  intros Hg. induction n as [|n IH]; cbn [dec_times]; [apply keeps_ret|].
  apply keeps_bind; [exact Hg|]. intros x. apply keeps_bind; [exact IH|]. intros xs. apply keeps_ret.
Qed.

Lemma d_split_keeps n : keeps (d_split n).
Proof.
  intros d x d'. unfold d_split. destruct (_ || _); [discriminate|]. intros [= <- <-]. cbn [dB dE].
  rewrite length_drop. split; [lia|auto].
Qed.

Lemma d_fixed_shrinks n : (1 <= n)%nat -> shrinks (d_fixed n).
Proof.
  intros Hn d x d'. unfold d_fixed. destruct (dE d) as [e|] eqn:Ed.
  { intros [= <- <-]. split; [lia|congruence]. }
  destruct (Nat.ltb_spec (length (dB d)) n).
  { intros [= <- <-]. cbn. split; [lia|discriminate]. }
  unfold go_bind, d_split, go_ret. destruct (_ || _); [discriminate|]. intros [= <- <-]. cbn [dB dE].
  rewrite length_drop. split; [lia|]. intros H0. split; [congruence || assumption|lia].
Qed.

Create HintDb keeps.
#[export] Hint Resolve keeps_ret keeps_lift keeps_panic keeps_times shrinks_keeps d_split_keeps : keeps.
#[export] Hint Extern 1 (shrinks (d_fixed _)) => apply d_fixed_shrinks; lia : keeps.
#[export] Hint Extern 1 (shrinks Be64) => apply d_fixed_shrinks; lia : keeps.
#[export] Hint Extern 1 (shrinks Be64Float64) => apply d_fixed_shrinks; lia : keeps.
#[export] Hint Extern 1 (shrinks DByte) => apply d_fixed_shrinks; lia : keeps.

(** Follows the binds of a reader. *)
Ltac keeps_tac :=
  repeat first
    [ solve [auto with keeps]
    | apply shrinks_then; [|intros]
    | apply keeps_bind; [|intros]
    | match goal with |- keeps (if ?c then _ else _) => destruct c end
    | match goal with |- keeps (let '(_, _) := ?p in _) => destruct p end ].

Section terminates.
Context {V : VarintLib}.

#[local] Hint Resolve Uvarint64_shrinks Varint64_shrinks : keeps.

Lemma Uvarint_shrinks : shrinks Uvarint.
Proof. unfold Uvarint. keeps_tac. Qed.
Lemma Uvarint32_shrinks : shrinks Uvarint32.
Proof. unfold Uvarint32. keeps_tac. Qed.
Lemma Be64int64_shrinks : shrinks Be64int64.
Proof. unfold Be64int64. keeps_tac. Qed.
#[local] Hint Resolve Uvarint_shrinks Uvarint32_shrinks Be64int64_shrinks : keeps.

Lemma UvarintBytes_keeps : keeps UvarintBytes.
Proof.
  unfold UvarintBytes. apply keeps_bind; [auto with keeps|]. intros l d x d'.
  unfold go_bind, go_get. destruct (dE d) eqn:Ed; [intros [= <- <-]; rewrite Ed; auto|].
  destruct (_ <? _); [|intros E; apply d_split_keeps in E; rewrite Ed in E; exact E]. intros [= <- <-]. cbn. split; [lia|discriminate].
Qed.
Lemma UvarintStr_keeps : keeps UvarintStr.
Proof. exact UvarintBytes_keeps. Qed.
#[local] Hint Resolve UvarintBytes_keeps UvarintStr_keeps : keeps.

Lemma dec_slice_keeps {A} size (get : Dec A) : keeps get -> keeps (dec_slice size get).
Proof. intros Hg. unfold dec_slice, go_make. keeps_tac. Qed.

Lemma DecodeLabels_keeps d : keeps (DecodeLabels d).
Proof. unfold DecodeLabels, get_label. keeps_tac. apply keeps_times. keeps_tac. Qed.
#[local] Hint Resolve dec_slice_keeps DecodeLabels_keeps : keeps.

Lemma get_span_keeps : keeps get_span.
Proof. unfold get_span. keeps_tac. Qed.
Lemma get_custom_values_keeps s : keeps (get_custom_values s).
Proof. unfold get_custom_values. keeps_tac. Qed.
#[local] Hint Resolve get_span_keeps get_custom_values_keeps : keeps.

Lemma get_series_shrinks d : shrinks (get_series d).
Proof. unfold get_series. keeps_tac. Qed.
Lemma get_metadata_shrinks : shrinks get_metadata.
Proof. unfold get_metadata, get_field_pair. keeps_tac. apply keeps_times. keeps_tac. Qed.
Lemma get_sample_shrinks r t : shrinks (get_sample r t).
Proof. unfold get_sample. keeps_tac. Qed.
Lemma get_stone_shrinks : shrinks get_stone.
Proof. unfold get_stone. keeps_tac. Qed.
Lemma get_exemplar_shrinks d r t : shrinks (get_exemplar d r t).
Proof. unfold get_exemplar. keeps_tac. Qed.
Lemma get_marker_shrinks : shrinks get_marker.
Proof. unfold get_marker. keeps_tac. Qed.
Lemma DecodeHistogram_shrinks : shrinks DecodeHistogram.
Proof. unfold DecodeHistogram. keeps_tac. Qed.
Lemma DecodeFloatHistogram_shrinks : shrinks DecodeFloatHistogram.
Proof. unfold DecodeFloatHistogram. keeps_tac. Qed.
Lemma get_hist_shrinks r t : shrinks (get_hist r t).
Proof. pose proof DecodeHistogram_shrinks. unfold get_hist. keeps_tac. Qed.
Lemma get_fhist_shrinks r t : shrinks (get_fhist r t).
Proof. pose proof DecodeFloatHistogram_shrinks. unfold get_fhist. keeps_tac. Qed.
End terminates.

#[export] Hint Resolve get_series_shrinks get_metadata_shrinks get_sample_shrinks get_stone_shrinks
  get_exemplar_shrinks get_marker_shrinks get_hist_shrinks get_fhist_shrinks : keeps.

Lemma dec_while_no_fuel {A} (step : Dec A) : shrinks step ->
  forall fuel acc d d', (length (dB d) <= fuel)%nat -> dec_while fuel step acc d <> Ret (None, d').
Proof.
  intros Hs. induction fuel as [|f IH]; intros acc d d' Hf; cbn [dec_while]; unfold DLen;
    destruct (Z.ltb_spec 0 (Z.of_nat (length (dB d)))); cbn [andb]; try discriminate; [lia|].
  destruct (bool_decide _); [|discriminate]. unfold go_bind.
  destruct (step d) as [[x d1]|] eqn:E; [|discriminate]. destruct (Hs _ _ _ E) as [H1 H2].
  destruct (dE d1) eqn:Ee.
  - destruct f; cbn [dec_while]; unfold DErr; rewrite Ee, andb_false_r; discriminate.
  - apply IH. destruct (H2 eq_refl). lia.
Qed.

Definition ends {A} (r : outcome (rec_error + A)) : Prop := r <> Ret (inl ErrNoFuel).

Lemma dec_entries_ends {A} wrap (step : Dec A) acc d d' : shrinks step ->
  (forall n e, wrap n e <> ErrNoFuel) -> dec_entries wrap step acc d <> Ret (inl ErrNoFuel, d').
Proof.
  intros Hs Hw. unfold dec_entries, go_bind, go_get.
  destruct (dec_while _ step acc d) as [[[l|] d1]|] eqn:E; [| |discriminate].
  - destruct (DErr d1) as [e|]; [intros [= H _]; apply (Hw _ _ H)|].
    destruct (0 <? DLen d1); discriminate.
  - exfalso. eapply dec_while_no_fuel; [exact Hs| |exact E]. lia.
Qed.

(** What the body of a record decoder returns never reports exhausted fuel. *)
Definition body_ends {A} (m : Dec (rec_error + A)) : Prop := forall d d', m d <> Ret (inl ErrNoFuel, d').

Lemma body_ends_bind {A B} (m : Dec A) (k : A -> Dec (rec_error + B)) :
  (forall x, body_ends (k x)) -> body_ends (go_bind m k).
Proof. intros Hk d d'. unfold go_bind. destruct (m d) as [[x d1]|]; [apply Hk|discriminate]. Qed.

Lemma dec_record_ends {A} ok (body : Dec (rec_error + list A)) rec : body_ends body -> ends (dec_record ok body rec).
Proof.
  intros Hb. unfold ends, dec_record, outcome_bind, go_bind.
  destruct (DByte _) as [[t d]|]; [|discriminate]. destruct (ok t); [|discriminate].
  destruct (body d) as [[r d']|] eqn:E; [|discriminate]. intros [= ->]. exact (Hb _ _ E).
Qed.

(** ** Readers of whole records undo their writers *)

(** [get] reads [fst p] as [snd p]. *)
Definition reads {B} (get : Dec B) (p : bytes * B) : Prop :=
  forall rest, get (mkDecbuf (fst p ++ rest) None) = Ret (snd p, mkDecbuf rest None).

Lemma reads_nonempty {B} (get : Dec B) p : shrinks get -> reads get p -> (1 <= length (fst p))%nat.
Proof.
  intros Hs Hp. destruct p as [[|x bs] b]; [|cbn; lia]. specialize (Hp []). cbn in Hp.
  destruct (Hs _ _ _ Hp) as [_ H]. destruct (H eq_refl) as [_ Hl]. cbn in Hl. lia.
Qed.

Lemma dec_while_reads {B} (get : Dec B) l : shrinks get -> Forall (reads get) l ->
  forall fuel acc, (length (flat_map fst l) <= fuel)%nat ->
  dec_while fuel get acc (mkDecbuf (flat_map fst l) None) = Ret (Some (acc ++ map snd l), mkDecbuf [] None).
Proof.
  intros Hs. induction 1 as [|p l Hp _ IH]; intros fuel acc Hf.
  { destruct fuel; cbn; rewrite app_nil_r; reflexivity. }
  cbn [flat_map map] in Hf |- *. rewrite length_app in Hf.
  pose proof (reads_nonempty get p Hs Hp) as Hpos. destruct fuel as [|f]; [lia|].
  cbn [dec_while]. unfold DLen, DErr. cbn [dB dE]. rewrite bool_decide_eq_true_2 by reflexivity.
  rewrite length_app, andb_true_r.
  destruct (Z.ltb_spec 0 (Z.of_nat (length (fst p) + length (flat_map fst l)))); [|lia].
  go_step (Hp (flat_map fst l)). rewrite IH by lia. rewrite <- app_assoc. reflexivity.
Qed.

Lemma dec_entries_reads {B} (get : Dec B) l wrap acc : shrinks get -> Forall (reads get) l ->
  dec_entries wrap get acc (mkDecbuf (flat_map fst l) None) = Ret (inr (acc ++ map snd l), mkDecbuf [] None).
Proof.
  intros Hs Hl. unfold dec_entries, go_bind, go_get. cbn [dB].
  rewrite dec_while_reads by (assumption || lia). reflexivity.
Qed.

Section loops.
Context {A : Type} {wf : A -> Prop} {put : A -> Encbuf -> Encbuf} {get : Dec A} {C : Codec wf put get}.

Definition encs (l : list A) : bytes := flat_map (enc (Codec := C)) l.

Lemma put_all_enc l e : Forall wf l -> eB (put_all put l e) = eB e ++ encs l.
Proof.
  intros H. revert e. induction H as [|a l Ha _ IH]; intros e; cbn; [symmetry; apply app_nil_r|].
  unfold put_all in IH. rewrite IH, (codec_put (Codec := C)) by assumption. symmetry. apply app_assoc.
Qed.

Lemma dec_times_enc l rest : Forall wf l ->
  dec_times (length l) get (mkDecbuf (encs l ++ rest) None) = Ret (l, mkDecbuf rest None).
Proof.
  induction 1 as [|a l Ha _ IH]; [reflexivity|]. cbn [length dec_times encs flat_map]. rewrite <- app_assoc.
  go_step (codec_get (Codec := C) a (encs l ++ rest) Ha). go_step IH. reflexivity.
Qed.

Lemma dec_entries_enc wrap l acc : shrinks get -> Forall wf l ->
  dec_entries wrap get acc (mkDecbuf (encs l) None) = Ret (inr (acc ++ l), mkDecbuf [] None).
Proof.
  intros Hs Hl. pose proof (dec_entries_reads get (map (fun a => (enc (Codec := C) a, a)) l) wrap acc Hs) as H.
  rewrite map_map, map_id, flat_map_concat_map, map_map, <- flat_map_concat_map in H. apply H. clear H.
  induction Hl as [|a l Ha _ IH]; constructor; [|exact IH]. intros rest. apply codec_get. exact Ha.
Qed.
End loops.

(** A record: its type byte, then a body. *)
Lemma dec_record_ok {A} ok (body : Dec (rec_error + list A)) t bs r d : is_u8 t -> ok t = true ->
  body (mkDecbuf bs None) = Ret (r, d) -> dec_record ok body (t :: bs) = Ret r.
Proof.
  intros Ht Hok Hb. unfold dec_record, outcome_bind. go_step (dbyte_get t bs Ht). rewrite Hok, Hb. reflexivity.
Qed.

Lemma dec_unless_empty_ok {A} (acc : list A) body bs : bs <> [] ->
  dec_unless_empty acc body (mkDecbuf bs None) = body (mkDecbuf bs None).
Proof. intros H. unfold dec_unless_empty, go_bind, go_get, DLen. cbn [dB]. destruct bs; [congruence|reflexivity]. Qed.

(** ** Codecs of the entries *)

(** An encoder that only appends is known by what it writes to an empty buffer. *)
Definition enc_of {A} (put : A -> Encbuf -> Encbuf) (a : A) : bytes := eB (put a (mkEncbuf [])).

(** Rewrites an encoder made of codecs to the bytes it appends. *)
Ltac puts :=
  repeat match goal with
  | |- context [eB (?p ?a ?e)] => rewrite (codec_put (put := p) a e) by assumption
  end; cbn [eB app]; rewrite ?app_nil_l, <- ?app_assoc.

Definition wf_slice {A} (wf : A -> Prop) (size : Z) (l : list A) : Prop :=
  Forall wf l /\ size * Z.of_nat (length l) <= maxAlloc.
Definition wf_span (s : Span) : Prop := is_i32 (Offset s) /\ is_u32 (Length s).

Section entry_codecs.
Context {V : VarintLib} {VOK : VarintLibOK V}.

(** [PutUvarint32] and [PutUvarint64] write the same bytes for different readers. *)
#[export] Typeclasses Opaque PutUvarint32.

#[export] Instance codec_uvarint32 : Codec is_u32 PutUvarint32 Uvarint32.
Proof.
  refine {| enc := put_uvarint |}.
  - reflexivity.
  - intros x rest Hx. unfold Uvarint32. go_step (uvarint64_get x rest ltac:(zlia)).
    rewrite u32_id by assumption. reflexivity.
Defined.

#[export] Instance codec_slice {A} {wf : A -> Prop} {put get} {C : Codec wf put get} :
  Codec (wf_slice wf 8) (put_slice put) (dec_slice 8 get).
Proof.
  refine {| enc := fun l => put_uvarint (Z.of_nat (length l)) ++ encs l |}.
  - intros l e [Hl Hs]. unfold put_slice. rewrite put_all_enc by assumption.
    rewrite (codec_put (put := PutUvarint)) by (unfold is_len, maxAlloc in *; zlia).
    symmetry. apply app_assoc.
  - intros l rest [Hl Hs]. unfold dec_slice. rewrite <- app_assoc.
    assert (Hlen : is_len (Z.of_nat (length l))) by (unfold is_len, maxAlloc in *; zlia).
    go_step (uvarint_get (Z.of_nat (length l)) (encs l ++ rest) Hlen).
    destruct (Z.ltb_spec 0 (Z.of_nat (length l))).
    + unfold go_make. destruct (Z.ltb_spec maxAlloc (8 * Z.of_nat (length l))); [lia|].
      unfold go_bind, go_ret. rewrite Nat2Z.id. apply dec_times_enc. exact Hl.
    + destruct l; [reflexivity|cbn in *; lia].
Defined.

#[export] Instance codec_span : Codec wf_span put_span get_span.
Proof.
  refine {| enc := enc_of put_span |}; unfold enc_of, put_span, put_seq; cbn [fold_left].
  - intros s e [Ho Hl]. assert (is_i64 (Offset s)) by zlia. puts. reflexivity.
  - intros s rest [Ho Hl]. assert (is_i64 (Offset s)) by zlia. puts.
    unfold get_span. do 2 dec_step. rewrite i32_id by assumption. destruct s; reflexivity.
Defined.
End entry_codecs.

(** *** Deltas *)

(** What is added back is what was subtracted, whatever wraps in between. *)
Lemma u64_delta r0 r : is_u64 r -> u64 (r0 + (i64 r - i64 r0)) = r.
Proof.
  intros Hr. rewrite <- (u64_id r Hr) at 2. unfold u64.
  rewrite Zplus_mod, Zminus_mod, !i64_mod, <- Zminus_mod, <- Zplus_mod. f_equal. lia.
Qed.

Lemma sample_ref_delta r0 r : is_u64 r -> u64 (i64 (i64 r0 + i64 (i64 r - i64 r0))) = r.
Proof. intros Hr. rewrite u64_i64, u64_add_wrap. apply u64_delta. exact Hr. Qed.

Lemma ref_delta r0 r : is_u64 r -> u64 (r0 + u64 (i64 (i64 r - i64 r0))) = r.
Proof.
  intros Hr. rewrite u64_i64. unfold u64 at 1 2. rewrite Zplus_mod_idemp_r. apply u64_delta. exact Hr.
Qed.

Lemma time_delta t0 t : is_i64 t -> i64 (t0 + i64 (t - t0)) = t.
Proof. intros Ht. rewrite i64_add_wrap. replace (t0 + (t - t0)) with t by lia. apply i64_id. exact Ht. Qed.

Lemma put_deltas_eq r0 t0 r t e :
  eB (put_deltas r0 t0 r t e) = eB e ++ put_varint (i64 (i64 r - i64 r0)) ++ put_varint (i64 (t - t0)).
Proof. unfold put_deltas, PutVarint64, PutBytes. cbn [eB]. symmetry. apply app_assoc. Qed.

Lemma put_base_eq r0 t0 e : eB (put_base r0 t0 e) = eB e ++ be_bytes 8 r0 ++ be_bytes 8 (u64 t0).
Proof. unfold put_base, PutBE64int64, PutBE64, PutBytes. cbn [eB]. symmetry. apply app_assoc. Qed.

(** *** Label sets *)

(** A label set the package can have built: an encoding of labels. *)
Definition wf_labelset (lbls : bytes) : Prop :=
  exists ls, lbls = enc_labels ls /\ Forall wf_label ls /\ is_len (Z.of_nat (length ls)).

Definition labels_of (lbls : bytes) : list Label := match Range lbls with Ret ls => ls | Panic => [] end.
Definition put_labels (lbls : bytes) (buf : Encbuf) : Encbuf :=
  put_all put_label (labels_of lbls) (PutUvarint (Z.of_nat (length (labels_of lbls))) buf).

Lemma EncodeLabels_ok lbls buf : wf_labelset lbls -> EncodeLabels lbls buf = Ret (put_labels lbls buf).
Proof.
  intros (ls & -> & Hw & Hl). unfold EncodeLabels, put_labels, labels_of.
  rewrite Len_ok, Range_ok by assumption. reflexivity.
Qed.

Lemma sb_adds ls b : fold_left (fun b l => sb_Add (Name l) (Value l) b) ls b = mkScratch (sb_add b ++ ls) (sb_output b).
Proof.
  revert b. induction ls as [|l ls IH]; intros b; cbn; [rewrite app_nil_r; destruct b; reflexivity|].
  rewrite IH. cbn. rewrite <- app_assoc. destruct l; reflexivity.
Qed.

(** Reads one of the two deltas of an entry. *)
Ltac delta_step := erewrite go_bind_ret; [|apply varint64_get; apply i64_range].

Section record_codecs.
Context {V : VarintLib} {VOK : VarintLibOK V}.

Lemma wf_label_bytes l : wf_label l -> wf_bytes (Name l) /\ wf_bytes (Value l).
Proof. unfold wf_label, short, wf_bytes, is_len. zlia. Qed.

#[export] Instance codec_label : Codec wf_label put_label get_label.
Proof.
  refine {| enc := enc_of put_label |}; unfold enc_of, put_label.
  - intros l e [Hn Hv]%wf_label_bytes. puts. reflexivity.
  - intros l rest [Hn Hv]%wf_label_bytes. puts. unfold get_label. do 2 dec_step. destruct l; reflexivity.
Defined.

#[export] Instance codec_labels (d : Decoder) : Codec wf_labelset put_labels (DecodeLabels d).
Proof.
  refine {| enc := fun lbls => put_uvarint (Z.of_nat (length (labels_of lbls))) ++ encs (labels_of lbls) |}.
  - intros lbls e (ls & -> & Hw & Hl). unfold put_labels, labels_of. rewrite Range_ok by assumption.
    rewrite put_all_enc, (codec_put (put := PutUvarint)) by assumption. symmetry. apply app_assoc.
  - intros lbls rest (ls & -> & Hw & Hl). unfold DecodeLabels, labels_of. rewrite Range_ok by assumption.
    rewrite <- app_assoc. go_step (uvarint_get (Z.of_nat (length ls)) (encs ls ++ rest) Hl).
    rewrite Nat2Z.id. go_step (dec_times_enc ls rest Hw). rewrite sb_adds. unfold sb_Reset. cbn [sb_add sb_output app].
    unfold go_bind, dec_lift, sb_Labels. cbn [sb_add sb_output]. rewrite marshal_ok by assumption. reflexivity.
Defined.

(** *** Entries *)

Definition wf_sample (s : RefSample) : Prop := is_u64 (s_Ref s) /\ is_i64 (s_T s) /\ is_u64 (s_V s).

#[export] Instance codec_sample (first : RefSample) :
  Codec wf_sample (put_sample first) (get_sample (s_Ref first) (s_T first)).
Proof.
  refine {| enc := enc_of (put_sample first) |}; unfold enc_of, put_sample.
  - intros s e (Hr & Ht & Hv). puts. rewrite !put_deltas_eq. cbn [eB app]. rewrite <- !app_assoc. reflexivity.
  - intros s rest (Hr & Ht & Hv). puts. rewrite put_deltas_eq. cbn [eB app]. rewrite <- !app_assoc.
    unfold get_sample.
    do 2 delta_step. dec_step. rewrite sample_ref_delta, time_delta by assumption. destruct s; reflexivity.
Defined.

Definition wf_exemplar (ex : RefExemplar) : Prop :=
  is_u64 (ex_Ref ex) /\ is_i64 (ex_T ex) /\ is_u64 (ex_V ex) /\ wf_labelset (ex_Labels ex).
Definition put_exemplar_total (first ex : RefExemplar) (buf : Encbuf) : Encbuf :=
  put_labels (ex_Labels ex)
    (PutBE64 (ex_V ex) (put_deltas (ex_Ref first) (ex_T first) (ex_Ref ex) (ex_T ex) buf)).

#[export] Instance codec_exemplar (d : Decoder) (first : RefExemplar) :
  Codec wf_exemplar (put_exemplar_total first) (get_exemplar d (ex_Ref first) (ex_T first)).
Proof.
  refine {| enc := enc_of (put_exemplar_total first) |}; unfold enc_of, put_exemplar_total.
  - intros s e (Hr & Ht & Hv & Hl). rewrite !(codec_put (Codec := codec_labels d)) by assumption. puts.
    rewrite !put_deltas_eq. cbn [eB app]. rewrite <- !app_assoc. reflexivity.
  - intros s rest (Hr & Ht & Hv & Hl). rewrite !(codec_put (Codec := codec_labels d)) by assumption. puts.
    rewrite put_deltas_eq. cbn [eB app]. rewrite <- !app_assoc. unfold get_exemplar.
    do 2 delta_step. do 2 dec_step. rewrite ref_delta, time_delta by assumption. destruct s; reflexivity.
Defined.

Definition wf_series (s : RefSeries) : Prop := is_u64 (rs_Ref s) /\ wf_labelset (rs_Labels s).
Definition put_series_total (s : RefSeries) (buf : Encbuf) : Encbuf :=
  put_labels (rs_Labels s) (PutBE64 (rs_Ref s) buf).

#[export] Instance codec_series (d : Decoder) : Codec wf_series put_series_total (get_series d).
Proof.
  refine {| enc := enc_of put_series_total |}; unfold enc_of, put_series_total.
  - intros s e (Hr & Hl). rewrite !(codec_put (Codec := codec_labels d)) by assumption. puts. reflexivity.
  - intros s rest (Hr & Hl). rewrite !(codec_put (Codec := codec_labels d)) by assumption. puts.
    unfold get_series. do 2 dec_step. destruct s; reflexivity.
Defined.

Definition wf_marker (s : RefMmapMarker) : Prop := is_u64 (mm_Ref s) /\ is_u64 (mm_MmapRef s).

#[export] Instance codec_marker : Codec wf_marker put_marker get_marker.
Proof.
  refine {| enc := enc_of put_marker |}; unfold enc_of, put_marker, put_seq; cbn [fold_left].
  - intros s e (Hr & Hm). puts. reflexivity.
  - intros s rest (Hr & Hm). puts. unfold get_marker. do 2 dec_step. destruct s; reflexivity.
Defined.

(** One interval of a stone is one entry of the record. *)
Definition split_stone (s : Stone) : list Stone := map (fun iv => mkStone (st_Ref s) [iv]) (st_Intervals s).
Definition wf_stone_record (s : Stone) : Prop :=
  is_u64 (st_Ref s) /\ Forall (fun iv => is_i64 (Mint iv) /\ is_i64 (Maxt iv)) (st_Intervals s).
Definition wf_stone1 (s : Stone) : Prop :=
  is_u64 (st_Ref s) /\ exists iv, st_Intervals s = [iv] /\ is_i64 (Mint iv) /\ is_i64 (Maxt iv).

#[export] Instance codec_stone : Codec wf_stone1 put_stone get_stone.
Proof.
  refine {| enc := enc_of put_stone |}; unfold enc_of, put_stone.
  - intros [r ivs] e (Hr & iv & Hiv & Hm & Hx). cbn [st_Ref st_Intervals] in *. rewrite Hiv.
    unfold put_all, put_seq. cbn [fold_left]. puts. reflexivity.
  - intros [r ivs] rest (Hr & iv & Hiv & Hm & Hx). cbn [st_Ref st_Intervals] in *. rewrite Hiv.
    unfold put_all, put_seq. cbn [fold_left]. puts. unfold get_stone. do 3 dec_step. destruct iv; reflexivity.
Defined.

Lemma put_split_stones l e : put_all put_stone (flat_map split_stone l) e = put_all put_stone l e.
Proof.
  revert e. induction l as [|s l IH]; intros e; [reflexivity|]. unfold put_all in *. cbn [flat_map fold_left].
  rewrite fold_left_app, IH. f_equal. unfold split_stone, put_stone, put_all. cbn [st_Ref st_Intervals].
  generalize (st_Intervals s) as ivs. intros ivs. revert e.
  induction ivs as [|iv ivs IHi]; intros e; [reflexivity|]. cbn. apply IHi.
Qed.

Lemma split_stones_wf l : Forall wf_stone_record l -> Forall wf_stone1 (flat_map split_stone l).
Proof.
  induction 1 as [|s l [Hr Hi] _ IH]; [constructor|]. cbn. apply Forall_app. split; [|exact IH].
  unfold split_stone. induction Hi as [|iv ivs [Hm Hx] _ IHi]; [constructor|]. constructor; [|exact IHi].
  split; [exact Hr|]. exists iv. auto.
Qed.

(** *** Metadata

    An entry as some version of the encoder writes it: any fields in any order. *)
Record MetaEntry := mkMeta { me_Ref : Z; me_Type : Z; me_Fields : list (bytes * bytes) }.
Definition put_field_pair (f : bytes * bytes) : Encbuf -> Encbuf := put_seq [PutUvarintStr (fst f); PutUvarintStr (snd f)].
Definition put_meta_entry (m : MetaEntry) : Encbuf -> Encbuf :=
  put_seq [PutUvarint64 (me_Ref m); PutByte (me_Type m); put_slice put_field_pair (me_Fields m)].
Definition meta_of (m : MetaEntry) : RefMetadata :=
  let '(u, h) := fold_left meta_field (me_Fields m) ([], []) in mkRefMetadata (me_Ref m) (me_Type m) u h.
Definition wf_pair (f : bytes * bytes) : Prop := wf_bytes (fst f) /\ wf_bytes (snd f).
Definition wf_meta (m : MetaEntry) : Prop :=
  is_u64 (me_Ref m) /\ is_u8 (me_Type m) /\ Forall wf_pair (me_Fields m) /\ is_len (Z.of_nat (length (me_Fields m))).

#[export] Instance codec_field_pair : Codec wf_pair put_field_pair get_field_pair.
Proof.
  refine {| enc := enc_of put_field_pair |}; unfold enc_of, put_field_pair, put_seq; cbn [fold_left].
  - intros [n v] e (Hn & Hv). cbn [fst snd] in *. puts. reflexivity.
  - intros [n v] rest (Hn & Hv). cbn [fst snd] in *. puts. unfold get_field_pair. do 2 dec_step. reflexivity.
Defined.

Definition enc_meta (m : MetaEntry) : bytes :=
  put_uvarint (me_Ref m) ++ [me_Type m] ++ put_uvarint (Z.of_nat (length (me_Fields m))) ++ encs (me_Fields m).

Lemma put_meta_entry_eq m e : wf_meta m -> eB (put_meta_entry m e) = eB e ++ enc_meta m.
Proof.
  intros (Hr & Ht & Hf & Hl). unfold put_meta_entry, put_seq, put_slice, enc_meta. cbn [fold_left].
  rewrite put_all_enc by assumption. puts. reflexivity.
Qed.

Lemma get_metadata_reads m : wf_meta m -> reads get_metadata (enc_meta m, meta_of m).
Proof.
  intros (Hr & Ht & Hf & Hl) rest. cbn [fst snd]. unfold enc_meta, get_metadata. rewrite <- !app_assoc.
  go_step (uvarint64_get (me_Ref m) ([me_Type m] ++ put_uvarint (Z.of_nat (length (me_Fields m)))
             ++ encs (me_Fields m) ++ rest) Hr). cbn [app].
  go_step (dbyte_get (me_Type m) (put_uvarint (Z.of_nat (length (me_Fields m))) ++ encs (me_Fields m) ++ rest) Ht).
  go_step (uvarint_get (Z.of_nat (length (me_Fields m))) (encs (me_Fields m) ++ rest) Hl).
  rewrite Nat2Z.id. go_step (dec_times_enc (me_Fields m) rest Hf).
  unfold meta_of. destruct (fold_left _ _ _). reflexivity.
Qed.

(** *** Histograms *)
Definition wf_hist (h : Histogram) : Prop :=
  (is_u8 (h_CounterResetHint h) /\ is_i32 (h_Schema h) /\ is_u64 (h_ZeroThreshold h) /\
   is_u64 (h_ZeroCount h) /\ is_u64 (h_Count h) /\ is_u64 (h_Sum h)) /\
  wf_slice wf_span 8 (h_PositiveSpans h) /\ wf_slice wf_span 8 (h_NegativeSpans h) /\
  wf_slice is_i64 8 (h_PositiveBuckets h) /\ wf_slice is_i64 8 (h_NegativeBuckets h) /\
  (if UsesCustomBuckets h then wf_slice is_u64 8 (h_CustomValues h) else h_CustomValues h = []).

Definition wf_fhist (h : FloatHistogram) : Prop :=
  (is_u8 (fh_CounterResetHint h) /\ is_i32 (fh_Schema h) /\ is_u64 (fh_ZeroThreshold h) /\
   is_u64 (fh_ZeroCount h) /\ is_u64 (fh_Count h) /\ is_u64 (fh_Sum h)) /\
  wf_slice wf_span 8 (fh_PositiveSpans h) /\ wf_slice wf_span 8 (fh_NegativeSpans h) /\
  wf_slice is_u64 8 (fh_PositiveBuckets h) /\ wf_slice is_u64 8 (fh_NegativeBuckets h) /\
  (if FUsesCustomBuckets h then wf_slice is_u64 8 (fh_CustomValues h) else fh_CustomValues h = []).

(** Custom values are there for one schema only. *)
Definition wf_custom (schema : Z) (vs : list Z) : Prop :=
  if IsCustomBucketsSchema schema then wf_slice is_u64 8 vs else vs = [].

#[export] Instance codec_custom (schema : Z) :
  Codec (wf_custom schema) (put_custom_values schema) (get_custom_values schema).
Proof.
  unfold wf_custom, put_custom_values, get_custom_values. destruct (IsCustomBucketsSchema schema).
  - exact (codec_slice (C := codec_be64_float)).
  - refine {| enc := fun _ => [] |}; [intros; symmetry; apply app_nil_r|]. intros a rest ->. reflexivity.
Defined.

#[export] Instance codec_histogram : Codec wf_hist EncodeHistogram DecodeHistogram.
Proof.
  refine {| enc := enc_of EncodeHistogram |}; unfold enc_of, EncodeHistogram, put_seq; cbn [fold_left].
  - intros h e ((Hc & Hs & Hz & Hzc & Hn & Hsum) & Hps & Hns & Hpb & Hnb & Hcv).
    assert (is_i64 (h_Schema h)) by zlia. puts. reflexivity.
  - intros h rest ((Hc & Hs & Hz & Hzc & Hn & Hsum) & Hps & Hns & Hpb & Hnb & Hcv).
    assert (is_i64 (h_Schema h)) by zlia. puts. unfold DecodeHistogram.
    do 6 dec_step. rewrite i32_id by assumption. do 5 dec_step. destruct h; reflexivity.
Defined.

#[export] Instance codec_float_histogram : Codec wf_fhist EncodeFloatHistogram DecodeFloatHistogram.
Proof.
  refine {| enc := enc_of EncodeFloatHistogram |}; unfold enc_of, EncodeFloatHistogram, put_seq; cbn [fold_left].
  - intros h e ((Hc & Hs & Hz & Hzc & Hn & Hsum) & Hps & Hns & Hpb & Hnb & Hcv).
    assert (is_i64 (fh_Schema h)) by zlia. puts. reflexivity.
  - intros h rest ((Hc & Hs & Hz & Hzc & Hn & Hsum) & Hps & Hns & Hpb & Hnb & Hcv).
    assert (is_i64 (fh_Schema h)) by zlia. puts. unfold DecodeFloatHistogram.
    do 6 dec_step. rewrite i32_id by assumption. do 5 dec_step. destruct h; reflexivity.
Defined.
End record_codecs.

(** ** Whole records *)
Section records.
Context {V : VarintLib} {VOK : VarintLibOK V}.

Lemma type_u8 t : In t record_types -> is_u8 t.
Proof. intros H. repeat destruct H as [<-|H]; try (vm_compute; split; congruence). destruct H. Qed.

(** A record whose entries follow the type byte. *)
Lemma plain_record {A} {wf : A -> Prop} {put get} {C : Codec wf put get} wrap t b l given :
  shrinks get -> In t record_types -> Forall wf l ->
  EGet (put_all put l (PutByte t (mkEncbuf b))) = b ++ t :: encs l
  /\ dec_record (fun x => x =? t) (dec_entries wrap get given) (t :: encs l) = Ret (inr (given ++ l)).
Proof.
  intros Hs Ht Hl. split.
  - unfold EGet. rewrite put_all_enc by assumption. unfold PutByte, PutBytes. cbn [eB]. rewrite <- app_assoc. reflexivity.
  - eapply dec_record_ok; [apply type_u8; exact Ht|apply Z.eqb_refl|]. apply dec_entries_enc; assumption.
Qed.

(** A record whose entries follow the type byte and the base of the deltas. *)
Definition base_bytes (r0 t0 : Z) : bytes := be_bytes 8 r0 ++ be_bytes 8 (u64 t0).

Lemma base_put {A} {wf : A -> Prop} {put get} {C : Codec wf put get} t r0 t0 b l : Forall wf l ->
  EGet (put_all put l (put_base r0 t0 (PutByte t (mkEncbuf b)))) = b ++ t :: base_bytes r0 t0 ++ encs l.
Proof.
  intros Hl. unfold EGet. rewrite put_all_enc, put_base_eq by assumption.
  unfold PutByte, PutBytes, base_bytes. cbn [eB]. rewrite <- !app_assoc. reflexivity.
Qed.

Lemma base_read {B} (k : Z -> Z -> Dec B) r0 t0 rest : is_u64 r0 -> is_i64 t0 ->
  (baseRef <-- Be64 ;; baseTime <-- Be64int64 ;; k baseRef baseTime) (mkDecbuf (base_bytes r0 t0 ++ rest) None)
  = k r0 t0 (mkDecbuf rest None).
Proof.
  intros Hr Ht. unfold base_bytes. rewrite <- app_assoc.
  go_step (d_fixed_get 8 r0 (be_bytes 8 (u64 t0) ++ rest) Hr). go_step (be64int64_get t0 rest Ht). reflexivity.
Qed.

Lemma base_record {A} {wf : A -> Prop} {put} {get : Z -> Z -> Dec A} r0 t0 {C : Codec wf put (get r0 t0)} ok t l given :
  shrinks (get r0 t0) -> is_u8 t -> ok t = true -> is_u64 r0 -> is_i64 t0 -> Forall wf l ->
  dec_record ok (dec_unless_empty given
      (baseRef <-- Be64 ;; baseTime <-- Be64int64 ;;
       dec_entries ErrDecodeAfter (get baseRef baseTime) given)) (t :: base_bytes r0 t0 ++ encs l)
  = Ret (inr (given ++ l)).
Proof.
  intros Hs Ht Hok Hr Ht0 Hl. eapply dec_record_ok; [exact Ht|exact Hok|].
  rewrite dec_unless_empty_ok by (unfold base_bytes; cbn; discriminate).
  rewrite (base_read (fun r t => dec_entries ErrDecodeAfter (get r t) given)) by assumption.
  apply dec_entries_enc; assumption.
Qed.

Lemma empty_record {A} ok t (given : list A) body : is_u8 t -> ok t = true ->
  dec_record ok (dec_unless_empty given body) [t] = Ret (inr given).
Proof. intros Ht Hok. eapply dec_record_ok; [exact Ht|exact Hok|reflexivity]. Qed.

Lemma put_all_total {A} (wf : A -> Prop) (put : A -> Encbuf -> outcome Encbuf) (putt : A -> Encbuf -> Encbuf) l buf :
  (forall a e, wf a -> put a e = Ret (putt a e)) -> Forall wf l -> put_all_o put l buf = Ret (put_all putt l buf).
Proof.
  intros Hp Hl. revert buf. induction Hl as [|a l Ha _ IH]; intros buf; [reflexivity|].
  cbn [put_all_o]. rewrite (Hp a buf Ha). cbn [outcome_bind]. rewrite IH. reflexivity.
Qed.

Lemma series_record (d : Decoder) l b given : Forall wf_series l ->
  exists bs, Encoder_Series l b = Ret (b ++ Series_t :: bs)
    /\ Decoder_Series d (Series_t :: bs) given = Ret (inr (given ++ l)).
Proof.
  intros Hl. pose proof (plain_record (C := codec_series d) plain Series_t b l given
    (get_series_shrinks d) ltac:(cbn; tauto) Hl) as [H1 H2].
  exists (encs l). split; [|exact H2]. unfold Encoder_Series.
  rewrite (put_all_total wf_series put_series put_series_total) by
    (assumption || (intros a e [_ Ha]; unfold put_series; rewrite EncodeLabels_ok by exact Ha; reflexivity)).
  cbn [outcome_bind]. rewrite H1. reflexivity.
Qed.

Lemma exemplars_record (d : Decoder) l b given : Forall wf_exemplar l ->
  exists bs, Encoder_Exemplars l b = Ret (b ++ Exemplars_t :: bs)
    /\ Decoder_Exemplars d (Exemplars_t :: bs) given = Ret (inr (given ++ l)).
Proof.
  intros Hl. unfold Encoder_Exemplars, EncodeExemplarsIntoBuffer. destruct l as [|first l].
  { exists []. split; [reflexivity|]. rewrite app_nil_r.
    apply empty_record; [apply type_u8; cbn; tauto|reflexivity]. }
  pose proof (Forall_inv Hl) as (Hr & Ht & _ & _).
  exists (base_bytes (ex_Ref first) (ex_T first) ++ encs (C := codec_exemplar d first) (first :: l)). split.
  - cbn [length Nat.eqb].
    rewrite (put_all_total wf_exemplar (put_exemplar first) (put_exemplar_total first)) by
      (assumption || (intros a e (_ & _ & _ & Ha); unfold put_exemplar; rewrite EncodeLabels_ok by exact Ha; reflexivity)).
    cbn [outcome_bind]. rewrite (base_put (C := codec_exemplar d first)) by assumption. reflexivity.
  - apply (base_record (get := get_exemplar d) (ex_Ref first) (ex_T first) (C := codec_exemplar d first)); try assumption; try reflexivity;
      [apply get_exemplar_shrinks|apply type_u8; cbn; tauto].
Qed.

Lemma metadata_record ms b given : Forall wf_meta ms ->
  exists bs, EGet (put_all put_meta_entry ms (PutByte Metadata_t (mkEncbuf b))) = b ++ Metadata_t :: bs
    /\ Decoder_Metadata (Metadata_t :: bs) given = Ret (inr (given ++ map meta_of ms)).
Proof.
  intros Hms. exists (flat_map enc_meta ms). split.
  - enough (H : forall e, eB (put_all put_meta_entry ms e) = eB e ++ flat_map enc_meta ms).
    { unfold EGet. rewrite H. unfold PutByte, PutBytes. cbn [eB]. rewrite <- app_assoc. reflexivity. }
    induction Hms as [|m ms Hm _ IH]; intros e; [symmetry; apply app_nil_r|].
    change (put_all put_meta_entry (m :: ms) e) with (put_all put_meta_entry ms (put_meta_entry m e)).
    cbn [flat_map]. rewrite IH, put_meta_entry_eq by assumption. symmetry. apply app_assoc.
  - eapply dec_record_ok; [apply type_u8; cbn; tauto|reflexivity|].
    pose proof (dec_entries_reads get_metadata (map (fun m => (enc_meta m, meta_of m)) ms) plain given
                  get_metadata_shrinks) as H.
    rewrite map_map, flat_map_concat_map, map_map, <- flat_map_concat_map in H. apply H. clear H.
    induction Hms as [|m ms Hm _ IH]; constructor; [apply get_metadata_reads; exact Hm|exact IH].
Qed.

(** The encoder of today writes two fields. *)
Definition meta_entry (m : RefMetadata) : MetaEntry :=
  mkMeta (md_Ref m) (md_Type m) [(unitMetaName, md_Unit m); (helpMetaName, md_Help m)].
Definition wf_metadata (m : RefMetadata) : Prop :=
  is_u64 (md_Ref m) /\ is_u8 (md_Type m) /\ wf_bytes (md_Unit m) /\ wf_bytes (md_Help m).

Lemma meta_entry_put m : put_meta_entry (meta_entry m) = put_metadata m.
Proof. destruct m; reflexivity. Qed.

Lemma meta_entry_of m : meta_of (meta_entry m) = m.
Proof. destruct m; reflexivity. Qed.

Lemma meta_entry_wf m : wf_metadata m -> wf_meta (meta_entry m).
Proof.
  intros (Hr & Ht & Hu & Hh).
  assert (Hn : forall n, n = unitMetaName \/ n = helpMetaName -> wf_bytes n).
  { intros n [-> | ->]; unfold wf_bytes, is_len; cbn [length unitMetaName helpMetaName]; zlia. }
  split; [exact Hr|]. split; [exact Ht|]. split; [|unfold is_len; cbn [length me_Fields meta_entry]; zlia].
  constructor; [|constructor; [|constructor]]; (split; [apply Hn; auto|assumption]).
Qed.

Lemma Encoder_Metadata_record l b given : Forall wf_metadata l ->
  exists bs, Encoder_Metadata l b = b ++ Metadata_t :: bs
    /\ Decoder_Metadata (Metadata_t :: bs) given = Ret (inr (given ++ l)).
Proof.
  intros Hl. destruct (metadata_record (map meta_entry l) b given) as (bs & H1 & H2).
  { induction Hl; constructor; auto using meta_entry_wf. }
  exists bs. split.
  - rewrite <- H1. unfold Encoder_Metadata, put_all. f_equal.
    generalize (PutByte Metadata_t (mkEncbuf b)). clear.
    induction l as [|m l IH]; intros e; [reflexivity|]. cbn [map fold_left]. rewrite meta_entry_put. apply IH.
  - rewrite H2, map_map. do 3 f_equal. clear. induction l as [|m l IH]; [reflexivity|].
    cbn [map]. rewrite meta_entry_of, IH. reflexivity.
Qed.

(** The capacity that [Samples] asks for, from the length of the entries. *)
Definition samples_min_size (first : RefSample) (l : list RefSample) : Z :=
  Z.quot (Z.of_nat (length (encs (C := codec_sample first) l))) 10.

Lemma samples_record first l b given cap : Forall wf_sample (first :: l) ->
  exists bs, Encoder_Samples (first :: l) b = b ++ Samples_t :: bs
    /\ Decoder_Samples (Samples_t :: bs) given cap
       = Ret (inr ((if cap <? samples_min_size first (first :: l) then [] else given) ++ first :: l)).
Proof.
  intros Hl. pose proof (Forall_inv Hl) as (Hr & Ht & _).
  exists (base_bytes (s_Ref first) (s_T first) ++ encs (C := codec_sample first) (first :: l)). split.
  - apply (base_put (C := codec_sample first)). exact Hl.
  - eapply dec_record_ok; [apply type_u8; cbn; tauto|reflexivity|].
    rewrite dec_unless_empty_ok by (unfold base_bytes; cbn; discriminate).
    erewrite (base_read (fun r t => d <-- go_get ;;
      let minSize := Z.quot (DLen d) (1 + 1 + 8) in
      let samples := if cap <? minSize then [] else given in
      dec_entries ErrDecodeAfter (get_sample r t) samples)) by assumption.
    unfold go_bind at 1, go_get. cbn zeta. unfold DLen. cbn [dB].
    apply (dec_entries_enc (C := codec_sample first)); [apply get_sample_shrinks|exact Hl].
Qed.

Lemma tombstones_record l b given : Forall wf_stone_record l ->
  exists bs, Encoder_Tombstones l b = b ++ Tombstones_t :: bs
    /\ Decoder_Tombstones (Tombstones_t :: bs) given = Ret (inr (given ++ flat_map split_stone l)).
Proof.
  intros Hl%split_stones_wf.
  pose proof (plain_record (C := codec_stone) plain Tombstones_t b _ given get_stone_shrinks ltac:(cbn; tauto) Hl) as [H1 H2].
  eexists. split; [|exact H2]. unfold Encoder_Tombstones. rewrite <- put_split_stones. exact H1.
Qed.

Lemma markers_record l b given : Forall wf_marker l ->
  exists bs, Encoder_MmapMarkers l b = b ++ MmapMarkers_t :: bs
    /\ Decoder_MmapMarkers (MmapMarkers_t :: bs) given = Ret (inr (given ++ l)).
Proof.
  intros Hl.
  pose proof (plain_record (C := codec_marker) plain MmapMarkers_t b l given get_marker_shrinks ltac:(cbn; tauto) Hl) as [H1 _].
  eexists. split; [exact H1|]. destruct l as [|m l].
  { rewrite app_nil_r. apply empty_record; [apply type_u8; cbn; tauto|reflexivity]. }
  eapply dec_record_ok; [apply type_u8; cbn; tauto|reflexivity|].
  rewrite dec_unless_empty_ok by discriminate.
  apply (dec_entries_enc (C := codec_marker)); [apply get_marker_shrinks|exact Hl].
Qed.
End records.

(** ** Splitting off the histograms with custom buckets *)
Section split_records.
Context {V : VarintLib} {VOK : VarintLibOK V}.
Context {A : Type} (custom : A -> bool) (ref_ time_ : A -> Z) (wf : A -> Prop)
  (put : A -> A -> Encbuf -> Encbuf) (get : Z -> Z -> Dec A)
  (C : forall first, Codec wf (put first) (get (ref_ first) (time_ first)))
  (Hget : forall r t, shrinks (get r t)) (Hwf : forall a, wf a -> is_u64 (ref_ a) /\ is_i64 (time_ a)).

Definition exps (l : list A) : list A := List.filter (fun a => negb (custom a)) l.
Definition customs (l : list A) : list A := List.filter custom l.

Lemma split_loop_eq (putf : A -> Encbuf -> Encbuf) l buf aside :
  split_loop custom putf l buf aside = (put_all putf (exps l) buf, aside ++ customs l).
Proof.
  unfold put_all, exps, customs. revert buf aside. induction l as [|h l IH]; intros buf aside; cbn; [rewrite app_nil_r; reflexivity|].
  destruct (custom h); cbn; rewrite IH; [rewrite <- app_assoc|]; reflexivity.
Qed.

Lemma exps_nil l : (length l =? length (customs l))%nat = bool_decide (exps l = []).
Proof.
  assert (H : (length l = length (customs l) + length (exps l))%nat).
  { unfold exps, customs. induction l as [|h l IH]; [reflexivity|]. cbn. destruct (custom h); cbn; lia. }
  destruct (exps l) as [|e es]; cbn [length] in H.
  - rewrite bool_decide_eq_true_2 by reflexivity. apply Nat.eqb_eq. lia.
  - rewrite bool_decide_eq_false_2 by discriminate. apply Nat.eqb_neq. lia.
Qed.

Lemma Forall_exps l : Forall wf l -> Forall wf (exps l) /\ Forall wf (customs l).
Proof.
  intros H. unfold exps, customs. split; apply List.Forall_forall; intros x [Hx _]%filter_In;
    exact (proj1 (List.Forall_forall _ _) H x Hx).
Qed.

(** The bytes of a record of the entries [es] with the deltas based on [first]. *)
Definition split_bytes (first : A) (es : list A) : bytes :=
  base_bytes (ref_ first) (time_ first) ++ encs (C := C first) es.

Lemma split_bytes_read ok t first es given : is_u8 t -> ok t = true -> wf first -> Forall wf es ->
  dec_record ok (dec_unless_empty given
      (baseRef <-- Be64 ;; baseTime <-- Be64int64 ;;
       dec_entries ErrDecodeAfter (get baseRef baseTime) given)) (t :: split_bytes first es)
  = Ret (inr (given ++ es)).
Proof.
  intros Ht Hok [Hr Ht0]%Hwf Hes.
  apply (base_record (get := get) (ref_ first) (time_ first) (C := C first)); auto.
Qed.

Lemma split_bytes_put t first es b : Forall wf es ->
  EGet (put_all (put first) es (put_base (ref_ first) (time_ first) (PutByte t (mkEncbuf b))))
  = b ++ t :: split_bytes first es.
Proof. intros H. apply (base_put (C := C first)). exact H. Qed.
End split_records.

Section histogram_records.
Context {V : VarintLib} {VOK : VarintLibOK V}.

Definition wf_rhist (h : RefHistogramSample) : Prop := is_u64 (rh_Ref h) /\ is_i64 (rh_T h) /\ wf_hist (rh_H h).
Definition wf_rfhist (h : RefFloatHistogramSample) : Prop := is_u64 (rfh_Ref h) /\ is_i64 (rfh_T h) /\ wf_fhist (rfh_FH h).

#[export] Instance codec_hist (first : RefHistogramSample) :
  Codec wf_rhist (put_hist first) (get_hist (rh_Ref first) (rh_T first)).
Proof.
  refine {| enc := enc_of (put_hist first) |}; unfold enc_of, put_hist.
  - intros s e (Hr & Ht & Hh). puts. rewrite !put_deltas_eq. cbn [eB app]. rewrite <- !app_assoc. reflexivity.
  - intros s rest (Hr & Ht & Hh). puts. rewrite put_deltas_eq. cbn [eB app]. rewrite <- !app_assoc. unfold get_hist.
    do 2 delta_step. dec_step. rewrite ref_delta, time_delta by assumption. destruct s; reflexivity.
Defined.

#[export] Instance codec_fhist (first : RefFloatHistogramSample) :
  Codec wf_rfhist (put_fhist first) (get_fhist (rfh_Ref first) (rfh_T first)).
Proof.
  refine {| enc := enc_of (put_fhist first) |}; unfold enc_of, put_fhist.
  - intros s e (Hr & Ht & Hh). puts. rewrite !put_deltas_eq. cbn [eB app]. rewrite <- !app_assoc. reflexivity.
  - intros s rest (Hr & Ht & Hh). puts. rewrite put_deltas_eq. cbn [eB app]. rewrite <- !app_assoc. unfold get_fhist.
    do 2 delta_step. dec_step. rewrite ref_delta, time_delta by assumption. destruct s; reflexivity.
Defined.

(** What an encoder that sets histograms aside leaves for the two records. *)
Definition split_result {A} (exps_ customs_ : list A) t (b : bytes) (dec : bytes -> list A -> outcome (rec_error + list A))
    (r : bytes * list A) : Prop :=
  snd r = customs_ /\ (exps_ = [] -> fst r = [])
  /\ (exps_ <> [] -> exists bs, fst r = b ++ t :: bs
                     /\ forall given, dec (t :: bs) given = Ret (inr (given ++ exps_))).

Lemma hist_records l b : l <> [] -> Forall wf_rhist l ->
  split_result (exps hist_custom l) (customs hist_custom l) HistogramSamples_t b Decoder_HistogramSamples
    (Encoder_HistogramSamples l b).
Proof.
  intros Hne Hl. destruct l as [|first l]; [congruence|]. unfold Encoder_HistogramSamples.
  rewrite split_loop_eq. cbn [app]. rewrite exps_nil. pose proof (Forall_exps hist_custom _ _ Hl) as [He _].
  split; [reflexivity|]. split; intros E; [rewrite bool_decide_eq_true_2 by exact E; reflexivity|].
  rewrite bool_decide_eq_false_2 by exact E. eexists. split.
  - apply (split_bytes_put rh_Ref rh_T wf_rhist put_hist get_hist codec_hist). exact He.
  - intros given. apply split_bytes_read; [apply get_hist_shrinks|unfold wf_rhist; tauto|apply type_u8; cbn; tauto
      |reflexivity|exact (Forall_inv Hl)|exact He].
Qed.

Lemma fhist_records l b : l <> [] -> Forall wf_rfhist l ->
  split_result (exps fhist_custom l) (customs fhist_custom l) FloatHistogramSamples_t b Decoder_FloatHistogramSamples
    (Encoder_FloatHistogramSamples l b).
Proof.
  intros Hne Hl. destruct l as [|first l]; [congruence|]. unfold Encoder_FloatHistogramSamples.
  rewrite split_loop_eq. cbn [app]. rewrite exps_nil. pose proof (Forall_exps fhist_custom _ _ Hl) as [He _].
  split; [reflexivity|]. split; intros E; [rewrite bool_decide_eq_true_2 by exact E; reflexivity|].
  rewrite bool_decide_eq_false_2 by exact E. eexists. split.
  - apply (split_bytes_put rfh_Ref rfh_T wf_rfhist put_fhist get_fhist codec_fhist). exact He.
  - intros given. apply split_bytes_read; [apply get_fhist_shrinks|unfold wf_rfhist; tauto|apply type_u8; cbn; tauto
      |reflexivity|exact (Forall_inv Hl)|exact He].
Qed.

Lemma custom_hist_record l b : l <> [] -> Forall wf_rhist l ->
  exists bs, Encoder_CustomBucketsHistogramSamples l b = b ++ CustomBucketsHistogramSamples_t :: bs
  /\ forall given, Decoder_HistogramSamples (CustomBucketsHistogramSamples_t :: bs) given = Ret (inr (given ++ l)).
Proof.
  intros Hne Hl. destruct l as [|first l]; [congruence|]. eexists. split.
  - apply (split_bytes_put rh_Ref rh_T wf_rhist put_hist get_hist codec_hist). exact Hl.
  - intros given. apply split_bytes_read; [apply get_hist_shrinks|unfold wf_rhist; tauto|apply type_u8; cbn; tauto
      |reflexivity|exact (Forall_inv Hl)|exact Hl].
Qed.

Lemma custom_fhist_record l b : l <> [] -> Forall wf_rfhist l ->
  exists bs, Encoder_CustomBucketsFloatHistogramSamples l b = b ++ CustomBucketsFloatHistogramSamples_t :: bs
  /\ forall given, Decoder_FloatHistogramSamples (CustomBucketsFloatHistogramSamples_t :: bs) given
                   = Ret (inr (given ++ l)).
Proof.
  intros Hne Hl. destruct l as [|first l]; [congruence|]. eexists. split.
  - apply (split_bytes_put rfh_Ref rfh_T wf_rfhist put_fhist get_fhist codec_fhist). exact Hl.
  - intros given. apply split_bytes_read; [apply get_fhist_shrinks|unfold wf_rfhist; tauto|apply type_u8; cbn; tauto
      |reflexivity|exact (Forall_inv Hl)|exact Hl].
Qed.
End histogram_records.

(** ** Readers that cannot panic *)

(** On bytes, the reader returns and leaves bytes. *)
Definition safe {A} (m : Dec A) : Prop :=
  forall d, Forall is_u8 (dB d) -> exists x d', m d = Ret (x, d') /\ Forall is_u8 (dB d').

Lemma safe_ret {A} (x : A) : safe (go_ret x).
Proof. intros d Hd. exists x, d. auto. Qed.

Lemma safe_bind {A B} (m : Dec A) (k : A -> Dec B) : safe m -> (forall x, safe (k x)) -> safe (go_bind m k).
Proof. intros Hm Hk d Hd. destruct (Hm d Hd) as (x & d1 & E & H1). unfold go_bind. rewrite E. apply Hk. exact H1. Qed.

Lemma safe_split n d : Forall is_u8 (dB d) -> 0 <= n <= Z.of_nat (length (dB d)) ->
  d_split n d = Ret (take (Z.to_nat n) (dB d), mkDecbuf (drop (Z.to_nat n) (dB d)) (dE d)).
Proof.
  intros Hd Hn. unfold d_split. destruct (Z.ltb_spec n 0); [lia|].
  destruct (Z.ltb_spec (Z.of_nat (length (dB d))) n); [lia|]. reflexivity.
Qed.

Lemma safe_fixed n : safe (d_fixed n).
Proof.
  intros d Hd. unfold d_fixed. destruct (dE d); [eauto|]. destruct (Nat.ltb_spec (length (dB d)) n).
  - unfold d_fail. eexists _, _. split; [reflexivity|exact Hd].
  - unfold go_bind. rewrite safe_split by (assumption || lia). eexists _, _. split; [reflexivity|].
    apply Forall_drop. exact Hd.
Qed.

Section safe_readers.
Context {V : VarintLib} {VOK : VarintLibOK V}.

Lemma safe_varint (f : Z -> Z) : safe (fun d => match dE d with
  | Some _ => Ret (0, d)
  | None => let '(x, n) := varint_uvarint (dB d) in
            if n <? 1 then d_fail 0 ErrInvalidSize d else (d_split n ;;; go_ret (f x)) d
  end).
Proof.
  intros d Hd. destruct (dE d); [eauto|]. destruct (varint_uvarint (dB d)) as [x n] eqn:E.
  destruct (varint_in_bounds _ _ _ Hd E) as [_ Hn]. destruct (Z.ltb_spec n 1).
  - unfold d_fail. eexists _, _. split; [reflexivity|exact Hd].
  - unfold go_bind. rewrite safe_split by (assumption || lia). eexists _, _. split; [reflexivity|].
    apply Forall_drop. exact Hd.
Qed.

Lemma safe_Uvarint64 : safe Uvarint64.
Proof. exact (safe_varint (fun x => x)). Qed.
Lemma safe_Varint64 : safe Varint64.
Proof. exact (safe_varint unzigzag). Qed.

Lemma safe_while {A} (step : Dec A) fuel acc : safe step -> safe (dec_while fuel step acc).
Proof.
  intros Hs. revert acc. induction fuel as [|f IH]; intros acc d Hd; cbn [dec_while]; destruct (_ && _); eauto.
  exact (safe_bind step _ Hs (fun x => IH (acc ++ [x])) d Hd).
Qed.

Lemma safe_entries {A} wrap (step : Dec A) acc : safe step -> safe (dec_entries wrap step acc).
Proof.
  intros Hs d Hd. unfold dec_entries, go_bind, go_get.
  destruct (safe_while step (length (dB d)) acc Hs d Hd) as (r & d' & -> & Hd').
  destruct r as [l|]; [|unfold go_ret; eauto]. destruct (DErr d'); [unfold go_ret; eauto|].
  destruct (0 <? DLen d'); unfold go_ret; eauto.
Qed.

Lemma safe_record {A} ok (body : Dec (rec_error + list A)) rec : Forall is_u8 rec -> safe body ->
  dec_record ok body rec <> Panic.
Proof.
  intros Hr Hb. unfold dec_record, outcome_bind, go_bind.
  destruct (safe_fixed 1 (mkDecbuf rec None) Hr) as (t & d & E & Hd). unfold DByte. rewrite E.
  destruct (ok t); [|discriminate]. destruct (Hb d Hd) as (r & d' & -> & _). discriminate.
Qed.

Lemma safe_unless_empty {A} (acc : list A) body : safe body -> safe (dec_unless_empty acc body).
Proof.
  intros Hb d Hd. unfold dec_unless_empty, go_bind, go_get. destruct (_ =? 0); [unfold go_ret; eauto|].
  apply Hb. exact Hd.
Qed.
End safe_readers.

(** ** Properties *)

(** C40: no record decoder runs forever: whatever the bytes, the loop over the
    entries ends within as many iterations as there are bytes, because every
    iteration that leaves no error has consumed input. *)
Theorem record_decoders_terminate (V : VarintLib) (d : Decoder) (rec : bytes) :
  (forall l, ends (Decoder_Series d rec l)) /\ (forall l, ends (Decoder_Metadata rec l))
  /\ (forall l cap, ends (Decoder_Samples rec l cap)) /\ (forall l, ends (Decoder_Tombstones rec l))
  /\ (forall l, ends (Decoder_Exemplars d rec l)) /\ (forall l, ends (Decoder_MmapMarkers rec l))
  /\ (forall l, ends (Decoder_HistogramSamples rec l)) /\ (forall l, ends (Decoder_FloatHistogramSamples rec l)).
Proof.
  assert (He : forall A wrap (step : Dec A) acc, shrinks step -> (forall n e, wrap n e <> ErrNoFuel) ->
    body_ends (dec_entries wrap step acc)) by (intros; intros ? ?; apply dec_entries_ends; assumption).
  assert (Hu : forall A (acc : list A) body, body_ends body -> body_ends (dec_unless_empty acc body)).
  { intros A acc body Hb. apply body_ends_bind. intros x. destruct (_ =? 0); [discriminate|exact Hb]. }
  repeat match goal with |- _ /\ _ => split end; intros; apply dec_record_ends; unfold ExemplarsFromBuffer;
    repeat first [apply He; [auto with keeps|discriminate] | apply Hu | apply body_ends_bind; intros].
Qed.

(** on any bytes the decoders of samples, tombstones and m-map markers
    return, with entries or with an error; they never index out of range.
    (Those that read strings can panic, see [uvarint_bytes_panics_iff].) *)
Theorem fixed_decoders_never_panic (V : VarintLib) (VOK : VarintLibOK V) (rec : bytes) :
  Forall is_u8 rec ->
  (forall l cap, Decoder_Samples rec l cap <> Panic) /\ (forall l, Decoder_Tombstones rec l <> Panic)
  /\ (forall l, Decoder_MmapMarkers rec l <> Panic).
Proof.
  intros Hr.
  assert (H8 : safe Be64) by apply safe_fixed.
  assert (Ht : safe Be64int64) by (apply safe_bind; [exact H8|intros; apply safe_ret]).
  assert (Hv := safe_Varint64 (V := V)).
  assert (Hg : safe (@go_get Decbuf)) by (intros d Hd; exists d, d; auto).
  repeat match goal with |- _ /\ _ => split end; intros; apply (safe_record _ _ _ Hr);
    repeat first [apply safe_entries | apply safe_unless_empty | apply safe_bind; [assumption|intros]];
    apply safe_ret.
Qed.

(** a tombstone record read back holds one stone per interval, in the order
    in which they were written, and a record of m-map markers the same markers;
    both are appended to what the caller passed. *)
Theorem tombstones_markers_roundtrip (V : VarintLib) (VOK : VarintLibOK V) (b : bytes)
    (stones given : list Stone) (marks given' : list RefMmapMarker) :
  Forall wf_stone_record stones -> Forall wf_marker marks ->
  Decoder_Tombstones (drop (length b) (Encoder_Tombstones stones b)) given
    = Ret (inr (given ++ flat_map split_stone stones))
  /\ Decoder_MmapMarkers (drop (length b) (Encoder_MmapMarkers marks b)) given' = Ret (inr (given' ++ marks)).
Proof.
  intros Hs Hm. destruct (tombstones_record stones b given Hs) as (bs & -> & H1).
  destruct (markers_record marks b given' Hm) as (ms & -> & H2). rewrite !drop_app_length. auto.
Qed.

(** metadata records are forward compatible.  A record whose entries carry
    any number of named fields is read without losing the alignment between
    entries: UNIT and HELP are taken (the last one of a name wins), unknown
    fields are skipped.  The entries that [Encoder.Metadata] writes are of this
    form and come back as they were. *)
Theorem metadata_forward_compatible (V : VarintLib) (VOK : VarintLibOK V) (b : bytes)
    (ms : list MetaEntry) (l given : list RefMetadata) :
  Forall wf_meta ms -> Forall wf_metadata l ->
  Decoder_Metadata (drop (length b) (EGet (put_all put_meta_entry ms (PutByte Metadata_t (mkEncbuf b))))) given
    = Ret (inr (given ++ map meta_of ms))
  /\ Decoder_Metadata (drop (length b) (Encoder_Metadata l b)) given = Ret (inr (given ++ l)).
Proof.
  intros Hms Hl. destruct (metadata_record ms b given Hms) as (bs & -> & H1).
  destruct (Encoder_Metadata_record l b given Hl) as (ls & -> & H2). rewrite !drop_app_length. auto.
Qed.

(** [Decoder.Samples] returns the decoded samples appended to the slice it
    is given only when that slice has room for a tenth of the bytes to decode;
    otherwise it allocates anew and what the slice held is lost. *)
Theorem samples_append_needs_capacity (V : VarintLib) (VOK : VarintLibOK V) (b : bytes)
    (first : RefSample) (l given : list RefSample) (cap : Z) :
  Forall wf_sample (first :: l) ->
  Decoder_Samples (drop (length b) (Encoder_Samples (first :: l) b)) given cap
  = Ret (inr ((if cap <? samples_min_size first (first :: l) then [] else given) ++ first :: l)).
Proof.
  intros Hl. destruct (samples_record first l b given cap Hl) as (bs & -> & H). rewrite drop_app_length. exact H.
Qed.
