(* ===== verification/Wlog.v ===== *)
(** * The write-ahead log: [tsdb/wlog/wlog.go] and [tsdb/wlog/reader.go]

    [WL] writes records, cut into fragments, through an in-memory page to
    segment files; [Reader] puts them together again.  A file is its bytes, and
    a write may fail after any number of bytes ([w_io] scripts what the next
    calls to the file system do).  Syncing, closing of files in the background,
    locking and metrics are left out. *)

From stdpp Require Import base list numbers.
From Stdlib Require Import ZArith Lia.
From S2P Require Import Prelude Encoding Labels.

Definition pageSize : nat := Z.to_nat (32 * 1024).
Definition recordHeaderSize : nat := 7.

(** Proofs only need these bounds. *)
Lemma page_bounds : (recordHeaderSize + 1 <= pageSize)%nat /\ Z.of_nat pageSize <= 2 ^ 15.
Proof. unfold pageSize, recordHeaderSize. split; lia. Qed.
#[global] Opaque pageSize.

(** ** Compression ([util/compression])

    Snappy and Zstandard are other modules: a class gives their encoders and
    decoders, and what their documentation promises. *)
Inductive ctype : Type := CEmpty | CNone | CSnappy | CZstd | COther.
#[export] Instance ctype_eq_dec : EqDecision ctype.
Proof. solve_decision. Defined.

Class CompressLib := {
  snappy_fits : nat -> bool;
  snappy_encode : bytes -> bytes; snappy_decode : bytes -> option bytes;
  zstd_encode : bytes -> bytes; zstd_decode : bytes -> option bytes
}.

Class CompressLibOK (C : CompressLib) : Prop := {
  snappy_roundtrip : forall s, snappy_decode (snappy_encode s) = Some s;
  snappy_nonempty : forall s, s <> [] -> snappy_encode s <> [];
  zstd_roundtrip : forall s, zstd_decode (zstd_encode s) = Some s;
  zstd_nonempty : forall s, s <> [] -> zstd_encode s <> []
}.

Inductive comp_err : Type := ErrTooLarge | ErrUnsupported | ErrCorrupt.

Section compression.
Context {C : CompressLib}.

Definition comp_Encode (t : ctype) (src : bytes) : comp_err + bytes :=
  if (length src =? 0)%nat || bool_decide (t = CEmpty) || bool_decide (t = CNone) then inr src
  else if bool_decide (t = CSnappy) then
    if snappy_fits (length src) then inr (snappy_encode src) else inl ErrTooLarge
  else if bool_decide (t = CZstd) then inr (zstd_encode src)
  else inl ErrUnsupported.

Definition comp_Decode (t : ctype) (src : bytes) : comp_err + bytes :=
  if (length src =? 0)%nat || bool_decide (t = CEmpty) || bool_decide (t = CNone) then inr src
  else if bool_decide (t = CSnappy) then match snappy_decode src with Some b => inr b | None => inl ErrCorrupt end
  else if bool_decide (t = CZstd) then match zstd_decode src with Some b => inr b | None => inl ErrCorrupt end
  else inl ErrUnsupported.
End compression.

(** ** The state of the log *)

Record page := mkPage { alloc : nat; flushed : nat; buf : bytes }.

Definition page_reset : page := mkPage 0 0 (replicate pageSize 0).
Definition remaining (p : page) : nat := (pageSize - alloc p)%nat.
Definition full (p : page) : bool := (pageSize - alloc p <? recordHeaderSize)%nat.

(** What the file system does with a call: it succeeds, or fails after having
    written some bytes.  When the script is used up, calls succeed. *)
Inductive io_res : Type := IOk | IFail (n : nat).

Inductive wl_err : Type := ErrClosed | ErrWrite | ErrCreate | ErrCompress (e : comp_err) | ErrLoop.

Record WL := mkWL {
  w_segmentSize : nat;
  w_prev : list bytes;        (* the segments before the active one *)
  w_segment : bytes;          (* the active segment *)
  w_donePages : nat;
  w_page : page;
  w_closed : bool;
  w_compress : ctype;
  w_io : list io_res
}.

Definition set_page (p : page) (w : WL) : WL :=
  mkWL (w_segmentSize w) (w_prev w) (w_segment w) (w_donePages w) p (w_closed w) (w_compress w) (w_io w).
Definition set_done (n : nat) (w : WL) : WL :=
  mkWL (w_segmentSize w) (w_prev w) (w_segment w) n (w_page w) (w_closed w) (w_compress w) (w_io w).
Definition set_closed (w : WL) : WL :=
  mkWL (w_segmentSize w) (w_prev w) (w_segment w) (w_donePages w) (w_page w) true (w_compress w) (w_io w).
Definition next_io (w : WL) : io_res * WL :=
  match w_io w with
  | [] => (IOk, w)
  | r :: io => (r, mkWL (w_segmentSize w) (w_prev w) (w_segment w) (w_donePages w) (w_page w) (w_closed w) (w_compress w) io)
  end.

(** [NewSize] in a directory without segments. *)
Definition NewSize (segmentSize : nat) (compress : ctype) (io : list io_res) : option WL :=
  if (segmentSize mod pageSize =? 0)%nat
  then Some (mkWL segmentSize [] [] 0 page_reset false compress io)
  else None.

Definition append_segment (b : bytes) (w : WL) : WL :=
  mkWL (w_segmentSize w) (w_prev w) (w_segment w ++ b) (w_donePages w) (w_page w) (w_closed w) (w_compress w) (w_io w).

(** [segment.Write(b)]: how many bytes were written, and whether it failed. *)
Definition segment_Write (b : bytes) (w : WL) : nat * bool * WL :=
  match next_io w with
  | (IOk, w) => (length b, false, append_segment b w)
  | (IFail n, w) => (min n (length b), true, append_segment (take n b) w)
  end.

(** ** Writing *)

(** Operations return the error, if any. *)
Definition WM : Type := GoM WL (option wl_err).
Definition ok_then (m k : WM) : WM := e <-- m ;; match e with Some e => go_ret (Some e) | None => k end.
Notation "m >>? k" := (ok_then m k) (at level 62, right associativity).

Definition flushPage (forceClear : bool) : WM := fun w =>
  let p := w_page w in
  let shouldClear := forceClear || full p in
  let p := if shouldClear then mkPage pageSize (flushed p) (buf p) else p in
  if (alloc p <? flushed p)%nat then Panic
  else
    let '(n, err, w) := segment_Write (slice (buf p) (flushed p) (alloc p)) (set_page p w) in
    let p := mkPage (alloc p) (flushed p + n) (buf p) in
    if err : bool then Ret (Some ErrWrite, set_page p w)
    else if shouldClear then Ret (None, set_done (w_donePages w + 1) (set_page page_reset w))
    else Ret (None, set_page p w).

(** [CreateSegment] and [setSegment]. *)
Definition new_segment : WM := fun w =>
  match next_io w with
  | (IFail _, w) => Ret (Some ErrCreate, w)
  | (IOk, w) => Ret (None, mkWL (w_segmentSize w) (w_prev w ++ [w_segment w]) [] 0 (w_page w) (w_closed w) (w_compress w) (w_io w))
  end.

Definition nextSegment : WM := fun w =>
  if w_closed w then Ret (Some ErrClosed, w)
  else ((fun w => if (0 <? alloc (w_page w))%nat then flushPage true w else Ret (None, w)) >>? new_segment) w.

Definition recPageTerm : Z := 0.
Definition recFull : Z := 1.
Definition recFirst : Z := 2.
Definition recMiddle : Z := 3.
Definition recLast : Z := 4.
Definition snappyMask : Z := Z.shiftl 1 3.
Definition zstdMask : Z := Z.shiftl 1 4.
Definition recTypeMask : Z := snappyMask - 1.
Definition recTypeFromHeader (header : Z) : Z := Z.land header recTypeMask.

Definition pagesPerSegment (w : WL) : nat := (w_segmentSize w / pageSize)%nat.

(** A fragment: type, length, checksum, data. *)
Definition fragment (typ : Z) (part : bytes) : bytes :=
  typ :: be_bytes 2 (Z.of_nat (length part)) ++ be_bytes 4 (crc32_checksum part) ++ part.

Definition frag_type (i : nat) (whole : bool) : Z :=
  if (i =? 0)%nat && whole then recFull
  else if whole then recLast
  else if (i =? 0)%nat then recFirst
  else recMiddle.

Definition comp_mask (t : ctype) : option Z :=
  match t with
  | CNone => Some 0
  | CSnappy => Some snappyMask
  | CZstd => Some zstdMask
  | _ => None
  end.

(** The loop of [log].  A fragment that does not end the record fills its page,
    so every iteration but the first writes at least one byte of the record;
    [log_loop_ok] shows that the fuel is enough. *)
Fixpoint log_loop (fuel : nat) (i : nat) (enc : bytes) (fc : ctype) : WM := fun w =>
  if (i =? 0)%nat || (0 <? length enc)%nat then
    match fuel with
    | O => Ret (Some ErrLoop, w)
    | S f =>
        let p := w_page w in
        if full p then Panic
        else
          let l := min (length enc) (pageSize - alloc p - recordHeaderSize) in
          let part := take l enc in
          match comp_mask fc with
          | None => Ret (Some (ErrCompress ErrUnsupported), w)
          | Some mask =>
              let typ := Z.lor (frag_type i (length part =? length enc)%nat) mask in
              let p := mkPage (alloc p + length part + recordHeaderSize) (flushed p)
                              (copy_at (buf p) (alloc p) (fragment typ part)) in
              ((fun w => if full (w_page w) then flushPage true w else Ret (None, w))
               >>? log_loop f (S i) (drop l enc) fc) (set_page p w)
          end
    end
  else Ret (None, w).

Section log.
Context {C : CompressLib}.

Definition wl_log (rec : bytes) (final : bool) : WM := fun w =>
  ((fun w => if full (w_page w) then flushPage true w else Ret (None, w)) >>? fun w =>
   match comp_Encode (w_compress w) rec with
   | inl e => Ret (Some (ErrCompress e), w)
   | inr enc0 =>
       let '(enc, fc) :=
         if bool_decide (w_compress w = CNone) then (enc0, w_compress w)
         else if Z.of_nat (length rec) - Z.of_nat (length enc0) <=? 0 then (rec, CNone)
         else (enc0, w_compress w) in
       let left_ := (Z.of_nat (remaining (w_page w)) - Z.of_nat recordHeaderSize)
                    + (Z.of_nat pageSize - Z.of_nat recordHeaderSize)
                      * (Z.of_nat (pagesPerSegment w) - Z.of_nat (w_donePages w) - 1) in
       ((fun w => if left_ <? Z.of_nat (length enc) then nextSegment w else Ret (None, w))
        >>? log_loop (S (length enc)) 0 enc fc
        >>? (fun w => if final && (0 <? alloc (w_page w))%nat then flushPage false w else Ret (None, w))) w
   end) w.

Fixpoint Log (recs : list bytes) : WM :=
  match recs with
  | [] => go_ret None
  | r :: recs' => wl_log r (match recs' with [] => true | _ => false end) >>? Log recs'
  end.
End log.

(** [Close], up to the closing of the file. *)
Definition wl_Close : WM := fun w =>
  if w_closed w then Ret (Some ErrClosed, w)
  else ((fun w => if (0 <? alloc (w_page w))%nat then flushPage true w else Ret (None, w))
        >>? fun w => Ret (None, set_closed w)) w.

Definition LastSegmentAndOffset (w : WL) : nat * nat :=
  (length (w_prev w), w_donePages w * pageSize + alloc (w_page w))%nat.

(** The bytes that are in the files. *)
Definition files (w : WL) : list bytes := w_prev w ++ [w_segment w].

(** ** Reading *)
Inductive io_err : Type := IoEOF | IoUnexpectedEOF.

(** [io.ReadFull]: the data, what is left of the stream, the error. *)
Definition ReadFull (n : nat) (s : bytes) : bytes * bytes * option io_err :=
  if (n =? 0)%nat then ([], s, None)
  else match s with
       | [] => ([], [], Some IoEOF)
       | _ => if (length s <? n)%nat then (s, [], Some IoUnexpectedEOF) else (take n s, drop n s, None)
       end.

Inductive rd_err : Type :=
| RdIO (e : io_err)
| RdNonZeroPad
| RdSize (n : Z)
| RdChecksum
| RdType (typ : Z) (i : nat)
| RdDecode (e : comp_err)
| RdTorn
| RdLoop.

(** What the reader uses of an [io.Reader]: [io.ReadFull] on it, and a bound on
    the bytes it will still give, as fuel. *)
Class IoReader (R : Type) := { io_ReadFull : nat -> R -> bytes * R * option io_err; io_left : R -> nat }.

(** A reader of bytes that are at hand. *)
#[export] Instance bytes_IoReader : IoReader bytes := {| io_ReadFull := ReadFull; io_left := length |}.

Record Reader (R : Type) := mkReader { r_rdr : R; r_total : nat; r_curRecTyp : Z; r_rec : bytes; r_err : option rd_err }.
Arguments mkReader {R} _ _ _ _ _. Arguments r_rdr {R} _. Arguments r_total {R} _. Arguments r_curRecTyp {R} _.
Arguments r_rec {R} _. Arguments r_err {R} _.

Definition NewReader {R} (r : R) : Reader R := mkReader r 0 0 [] None.

Definition validateRecord (typ : Z) (i : nat) : option rd_err :=
  if (typ =? recFull) || (typ =? recFirst) then if (i =? 0)%nat then None else Some (RdType typ i)
  else if (typ =? recMiddle) || (typ =? recLast) then if (i =? 0)%nat then Some (RdType typ i) else None
  else Some (RdType typ i).

Definition header_comp (h : Z) : ctype :=
  if Z.land h snappyMask =? snappyMask then CSnappy
  else if Z.land h zstdMask =? zstdMask then CZstd
  else CNone.

Definition adv {R} (r : Reader R) (s : R) (n : nat) (typ : Z) : Reader R :=
  mkReader s (r_total r + n) typ (r_rec r) (r_err r).
Definition set_rec {R} (rec : bytes) (r : Reader R) : Reader R :=
  mkReader (r_rdr r) (r_total r) (r_curRecTyp r) rec (r_err r).
Definition set_err {R} (e : option rd_err) (r : Reader R) : Reader R :=
  mkReader (r_rdr r) (r_total r) (r_curRecTyp r) (r_rec r) e.

Section reader.
Context {C : CompressLib} {R : Type} {io : IoReader R}.

(** The loop of [nextNew]; [precomprBuf] collects the fragments.  Every
    iteration consumes a byte of the stream ([next_loop_fuel]). *)
Fixpoint next_loop (fuel : nat) (i : nat) (precomprBuf : bytes) (r : Reader R) : option rd_err * Reader R :=
  match fuel with
  | O => (Some RdLoop, r)
  | S f =>
      match io_ReadFull 1 (r_rdr r) with
      | (_, s, Some e) => (Some (RdIO e), adv r s 0 (r_curRecTyp r))
      | (h, s, None) =>
          let hdr0 := be_val h in
          let typ := recTypeFromHeader hdr0 in
          let compr := header_comp hdr0 in
          let r := adv r s 1 typ in
          if typ =? recPageTerm then
            let k := (pageSize - r_total r mod pageSize)%nat in
            if (k =? pageSize)%nat then next_loop f i precomprBuf r
            else match io_ReadFull k (r_rdr r) with
                 | (_, s, Some e) => (Some (RdIO e), adv r s 0 typ)
                 | (zeros, s, None) =>
                     let r := adv r s k typ in
                     if forallb (Z.eqb 0) zeros then next_loop f i precomprBuf r else (Some RdNonZeroPad, r)
                 end
          else
            match io_ReadFull (recordHeaderSize - 1) (r_rdr r) with
            | (_, s, Some e) => (Some (RdIO e), adv r s 0 typ)
            | (hdr, s, None) =>
                let r := adv r s (recordHeaderSize - 1) typ in
                let len := Z.to_nat (be_val (slice hdr 0 2)) in
                let crc := be_val (slice hdr 2 6) in
                if (pageSize - recordHeaderSize <? len)%nat then (Some (RdSize (Z.of_nat len)), r)
                else
                  match io_ReadFull len (r_rdr r) with
                  | (_, s, Some e) => (Some (RdIO e), adv r s 0 typ)
                  | (data, s, None) =>
                      let r := adv r s len typ in
                      if negb (crc32_checksum data =? crc) then (Some RdChecksum, r)
                      else match validateRecord typ i with
                           | Some e => (Some e, r)
                           | None =>
                               let precomprBuf := precomprBuf ++ data in
                               if (typ =? recLast) || (typ =? recFull) then
                                 match comp_Decode compr precomprBuf with
                                 | inl e => (Some (RdDecode e), r)
                                 | inr rec => (None, set_rec rec r)
                                 end
                               else next_loop f (S i) precomprBuf r
                           end
                  end
            end
      end
  end.

Definition nextNew (r : Reader R) : option rd_err * Reader R := next_loop (S (io_left (r_rdr r))) 0 [] r.

Definition Reader_Next (r : Reader R) : bool * Reader R :=
  match nextNew r with
  | (Some (RdIO IoEOF), r) =>
      if (r_curRecTyp r =? recFirst) || (r_curRecTyp r =? recMiddle)
      then (false, set_err (Some RdTorn) r) else (false, r)
  | (err, r) => (match err with None => true | Some _ => false end, set_err err r)
  end.

(** What a caller of [Reader.Next] sees until it returns false. *)
Inductive read_seq : Reader R -> list bytes -> option rd_err -> Prop :=
| read_end r r' : Reader_Next r = (false, r') -> read_seq r [] (r_err r')
| read_more r r' recs err : Reader_Next r = (true, r') -> read_seq r' recs err -> read_seq r (r_rec r' :: recs) err.
End reader.

(** ** What a stretch of the log means to the reader *)

(** The zeros that fill a page in use. *)
Definition pad (a : nat) : bytes := if (a =? 0)%nat then [] else replicate (pageSize - a) 0.

(** The fragments of a record that starts at offset [a] of a page: all but the
    last one fill their page. *)
Inductive frags (fc : ctype) : nat -> nat -> bytes -> bytes -> nat -> Prop :=
| frags_last a i part mask : comp_mask fc = Some mask -> (a + recordHeaderSize + length part <= pageSize)%nat ->
    frags fc a i (fragment (Z.lor (frag_type i true) mask) part) part (a + recordHeaderSize + length part)
| frags_more a i part mask fs rest a' : comp_mask fc = Some mask ->
    (a + recordHeaderSize + length part = pageSize)%nat -> frags fc 0 (S i) fs rest a' ->
    frags fc a i (fragment (Z.lor (frag_type i false) mask) part ++ fs) (part ++ rest) a'.

Lemma length_fragment typ part : length (fragment typ part) = (recordHeaderSize + length part)%nat.
Proof. unfold fragment. cbn [length]. rewrite !length_app, !length_be_bytes. reflexivity. Qed.

(** A fragment type with its compression flag, and what the reader makes of it. *)
Lemma header_split fc mask i whole : comp_mask fc = Some mask ->
  let h := Z.lor (frag_type i whole) mask in
  recTypeFromHeader h = frag_type i whole /\ header_comp h = fc.
Proof.
  intros H. unfold frag_type. destruct fc; try discriminate; injection H as <-;
    destruct (i =? 0)%nat, whole; cbn; split; reflexivity.
Qed.

Lemma frag_type_cases i whole :
  (frag_type i whole =? recPageTerm) = false
  /\ validateRecord (frag_type i whole) i = None
  /\ ((frag_type i whole =? recLast) || (frag_type i whole =? recFull)) = whole.
Proof.
  unfold frag_type, validateRecord.
  destruct (Nat.eqb_spec i 0) as [->|Hi]; destruct whole; cbn; split; try reflexivity; split; try reflexivity;
    destruct (Nat.eqb_spec i 0); congruence.
Qed.

Lemma ReadFull_app a s : ReadFull (length a) (a ++ s) = (a, s, None).
Proof.
  unfold ReadFull. destruct a as [|x a]; [reflexivity|]. cbn [length Nat.eqb app].
  destruct (Nat.ltb_spec (S (length (a ++ s))) (S (length a))) as [H|_]; [rewrite length_app in H; lia|].
  cbn [take drop]. rewrite take_app_length, drop_app_length. reflexivity.
Qed.

Lemma ReadFull_1 x s : ReadFull 1 (x :: s) = ([x], s, None).
Proof. exact (ReadFull_app [x] s). Qed.

Lemma ReadFull_short n s : (length s < n)%nat -> exists e, snd (ReadFull n s) = Some e.
Proof.
  intros H. unfold ReadFull. destruct (Nat.eqb_spec n 0); [lia|]. destruct s as [|x s]; [eauto|].
  destruct (Nat.ltb_spec (length (x :: s)) n); [|lia]. eauto.
Qed.

Section reading.
Context {C : CompressLib}.

(** One fragment. *)
Lemma next_loop_fragment f i b r fc mask whole part rest :
  comp_mask fc = Some mask -> (recordHeaderSize + length part <= pageSize)%nat ->
  r_rdr r = fragment (Z.lor (frag_type i whole) mask) part ++ rest ->
  next_loop (S f) i b r
  = let r := adv r rest (recordHeaderSize + length part) (frag_type i whole) in
    if whole then match comp_Decode fc (b ++ part) with
                  | inl e => (Some (RdDecode e), r)
                  | inr rec => (None, set_rec rec r)
                  end
    else next_loop f (S i) (b ++ part) r.
Proof.
  intros Hm Hl Hr. destruct (header_split fc mask i whole Hm) as [Ht Hc].
  destruct (frag_type_cases i whole) as (H0 & Hv & Hw).
  unfold fragment in Hr. cbn [next_loop io_ReadFull bytes_IoReader]. rewrite Hr.
  change ((Z.lor (frag_type i whole) mask :: ?l) ++ rest) with ([Z.lor (frag_type i whole) mask] ++ l ++ rest).
  rewrite (ReadFull_app [_]). cbn [be_val fold_left]. rewrite Z.add_0_l, Ht, Hc, H0.
  cbn [adv r_rdr].
  set (b2 := be_bytes 2 (Z.of_nat (length part))). set (b4 := be_bytes 4 (crc32_checksum part)).
  assert (H2 : length b2 = 2%nat) by apply length_be_bytes. assert (H4 : length b4 = 4%nat) by apply length_be_bytes.
  replace ((b2 ++ b4 ++ part) ++ rest) with ((b2 ++ b4) ++ part ++ rest) by (rewrite <- !app_assoc; reflexivity).
  pose proof (ReadFull_app (b2 ++ b4) (part ++ rest)) as H6. rewrite length_app, H2, H4 in H6.
  change (recordHeaderSize - 1)%nat with (2 + 4)%nat. rewrite H6.
  unfold slice. rewrite drop_0, (take_app_length' b2), (drop_app_length' b2), take_ge by lia.
  pose proof page_bounds as [_ HP]. unfold recordHeaderSize in *.
  assert (E2 : Z.to_nat (be_val b2) = length part).
  { unfold b2. rewrite be_val_bytes, Z.mod_small by (change (2 ^ (8 * Z.of_nat 2)) with (2 ^ 16); lia). lia. }
  assert (E4 : be_val b4 = crc32_checksum part).
  { unfold b4. rewrite be_val_bytes. apply Z.mod_small. apply (crc32_u32 part). }
  rewrite E2, E4. destruct (Nat.ltb_spec (pageSize - 7) (length part)); [lia|].
  cbn [adv r_rdr]. rewrite ReadFull_app, Z.eqb_refl. cbn [negb]. rewrite Hv, Hw.
  unfold adv. cbn [r_total r_rec r_err]. rewrite <- !Nat.add_assoc.
  change (1 + (2 + 4 + length part))%nat with (7 + length part)%nat. reflexivity.
Qed.

(** A fragment cut short is an error. *)
Lemma fragment_cut f i b r fc mask whole part m :
  comp_mask fc = Some mask -> (recordHeaderSize + length part <= pageSize)%nat ->
  (m < length (fragment (Z.lor (frag_type i whole) mask) part))%nat ->
  r_rdr r = take m (fragment (Z.lor (frag_type i whole) mask) part) ->
  fst (next_loop f i b r) <> None.
Proof.
  intros Hm Hl Hlt Hr. destruct f as [|f]; [discriminate|]. destruct (header_split fc mask i whole Hm) as [Ht _].
  destruct (frag_type_cases i whole) as (H0 & _). rewrite length_fragment in Hlt. unfold recordHeaderSize in Hlt.
  cbn [next_loop io_ReadFull bytes_IoReader]. rewrite Hr. destruct m as [|m]; [discriminate|]. unfold fragment. cbn [take].
  rewrite ReadFull_1. cbn [be_val fold_left]. rewrite Z.add_0_l, Ht, H0. cbn [adv r_rdr].
  set (b2 := be_bytes 2 (Z.of_nat (length part))). set (b4 := be_bytes 4 (crc32_checksum part)).
  assert (H2 : length b2 = 2%nat) by apply length_be_bytes. assert (H4 : length b4 = 4%nat) by apply length_be_bytes.
  rewrite app_assoc. destruct (Nat.lt_ge_cases m 6) as [Hs|Hs].
  - destruct (ReadFull_short (recordHeaderSize - 1) (take m ((b2 ++ b4) ++ part))) as [e E];
      [rewrite length_take, !length_app; unfold recordHeaderSize; lia|].
    destruct (ReadFull _ _) as [[x y] z]. cbn [snd] in E. subst z. discriminate.
  - rewrite take_app_ge by (rewrite length_app; lia). pose proof (ReadFull_app (b2 ++ b4)) as H6.
    rewrite length_app, H2, H4 in H6. change (recordHeaderSize - 1)%nat with (2 + 4)%nat. rewrite H6.
    destruct (_ <? _)%nat; [discriminate|]. unfold slice. rewrite drop_0, (take_app_length' b2) by lia.
    replace (Z.to_nat (be_val b2)) with (length part).
    + destruct (ReadFull_short (length part) (take (m - length (b2 ++ b4)) part)) as [e E];
        [rewrite length_take, length_app; lia|].
      cbn [adv r_rdr]. destruct (ReadFull _ _) as [[x y] z]. cbn [snd] in E. subst z. discriminate.
    + pose proof page_bounds as [_ HP]. unfold b2, recordHeaderSize in *. rewrite be_val_bytes, Z.mod_small; [lia|].
      change (2 ^ (8 * Z.of_nat 2)) with (2 ^ 16). lia.
Qed.

Lemma frags_length fc a i fs enc a' : frags fc a i fs enc a' ->
  (a <= pageSize)%nat -> ((a + length fs) mod pageSize = a' mod pageSize)%nat /\ (recordHeaderSize <= length fs)%nat
  /\ (a' <= pageSize)%nat.
Proof.
  pose proof page_bounds as [HP _]. induction 1 as [a i part mask Hm Hl | a i part mask fs rest a' Hm Hl Hf IH]; intros Ha.
  - rewrite length_fragment. split; [f_equal; lia|split; lia].
  - rewrite length_app, length_fragment. destruct (IH ltac:(lia)) as (H1 & H2 & H3). split; [|split; lia].
    rewrite <- H1. replace (a + (recordHeaderSize + length part + length fs))%nat with (0 + length fs + 1 * pageSize)%nat by lia.
    rewrite Nat.Div0.mod_add. reflexivity.
Qed.

(** The fragments of a record put together. *)
Lemma next_loop_frags fc a i fs enc a' : frags fc a i fs enc a' ->
  forall f b r rest rec, (length fs <= f)%nat -> r_rdr r = fs ++ rest -> comp_Decode fc (b ++ enc) = inr rec ->
  exists ft, (ft = recFull \/ ft = recLast)
    /\ next_loop f i b r = (None, set_rec rec (adv r rest (length fs) ft)).
Proof.
  pose proof page_bounds as [HP _]. induction 1 as [a i part mask Hm Hl | a i part mask fs rest a' Hm Hl Hf IH];
    intros f b r rs rec Hfl Hr Hd; (destruct f as [|f];
      [rewrite ?length_app, length_fragment in Hfl; unfold recordHeaderSize in Hfl; lia|]).
  - rewrite (next_loop_fragment f i b r fc mask true part rs Hm) by (lia || exact Hr). cbn zeta. rewrite Hd.
    rewrite length_fragment. eexists. split; [|reflexivity]. unfold frag_type. destruct (i =? 0)%nat; cbn; auto.
  - rewrite length_app, length_fragment in *. rewrite <- app_assoc in Hr.
    rewrite (next_loop_fragment f i b r fc mask false part (fs ++ rs) Hm) by (lia || exact Hr). cbn zeta.
    destruct (IH f (b ++ part) (adv r (fs ++ rs) (recordHeaderSize + length part) (frag_type i false)) rs rec) as (ft & Hft & E);
      [unfold recordHeaderSize in *; lia|reflexivity|rewrite <- app_assoc; exact Hd|].
    exists ft. split; [exact Hft|]. rewrite E. unfold adv, set_rec. cbn [r_total r_rec r_err r_rdr r_curRecTyp].
    f_equal. f_equal. lia.
Qed.

Lemma length_pad a : (a <= pageSize)%nat -> ((a + length (pad a)) mod pageSize = 0)%nat.
Proof.
  pose proof page_bounds as [HP _]. intros Ha. unfold pad. destruct (Nat.eqb_spec a 0) as [->|Hn].
  - cbn. apply Nat.Div0.mod_0_l.
  - rewrite length_replicate. replace (a + (pageSize - a))%nat with pageSize by lia. apply Nat.Div0.mod_same.
Qed.

Lemma forallb_zeros k : forallb (Z.eqb 0) (replicate k 0) = true.
Proof. induction k as [|k IH]; [reflexivity|exact IH]. Qed.

(** How far the padding reaches behind its first byte. *)
Lemma pad_rest a total : (0 < a < pageSize)%nat -> (total mod pageSize = a)%nat ->
  (pageSize - (total + 1) mod pageSize = if S a =? pageSize then pageSize else pageSize - S a)%nat.
Proof.
  intros Ha Ht. rewrite <- Nat.Div0.add_mod_idemp_l, Ht. destruct (Nat.eqb_spec (S a) pageSize).
  - replace (a + 1)%nat with pageSize by lia. rewrite Nat.Div0.mod_same. lia.
  - rewrite Nat.mod_small by lia. lia.
Qed.

(** The padding is skipped. *)
Lemma next_loop_pad f i b r a rest : (0 < a < pageSize)%nat -> (r_total r mod pageSize = a)%nat ->
  r_rdr r = pad a ++ rest ->
  next_loop (S f) i b r = next_loop f i b (adv r rest (length (pad a)) recPageTerm).
Proof.
  intros Ha Ht Hr. unfold pad in *. destruct (Nat.eqb_spec a 0); [lia|]. rewrite length_replicate.
  assert (Hk : (pageSize - a)%nat = S (pageSize - S a)) by lia. rewrite Hk in Hr |- *.
  cbn [replicate app] in Hr.
  remember (replicate (pageSize - S a) 0) as zs eqn:Hzs.
  cbn [next_loop io_ReadFull bytes_IoReader]. rewrite Hr, ReadFull_1.
  change (recTypeFromHeader (be_val [0]) =? recPageTerm) with true. cbn [adv r_total r_rdr].
  rewrite (pad_rest a) by (lia || exact Ht). destruct (Nat.eqb_spec (S a) pageSize) as [E|E].
  - rewrite Nat.eqb_refl. replace (pageSize - S a)%nat with 0%nat in Hzs by lia. rewrite Hzs. replace (pageSize - S a)%nat with 0%nat by lia. reflexivity.
  - destruct (Nat.eqb_spec (pageSize - S a) pageSize); [lia|].
    pose proof (ReadFull_app zs rest) as H. rewrite Hzs, length_replicate, <- Hzs in H. rewrite H.
    rewrite Hzs, forallb_zeros. unfold adv. cbn [r_total r_rec r_err].
    replace (r_total r + 1 + (pageSize - S a))%nat with (r_total r + S (pageSize - S a))%nat by lia. reflexivity.
Qed.

(** Every iteration consumes input: any fuel beyond the length of the stream
    gives the same result. *)
Lemma next_loop_fuel f f' i b r : (length (r_rdr r) < f)%nat -> (length (r_rdr r) < f')%nat ->
  next_loop f i b r = next_loop f' i b r.
Proof.
  assert (Hlen : forall n s d s', ReadFull n s = (d, s', None) -> (n + length s' = length s)%nat).
  { intros n s d s'. unfold ReadFull. destruct (Nat.eqb_spec n 0); [intros [= <- <-]; lia|].
    destruct s as [|x s]; [discriminate|]. destruct (Nat.ltb_spec (length (x :: s)) n); [discriminate|].
    intros [= <- <-]. rewrite length_drop. lia. }
  revert f' i b r. induction f as [|f IH]; intros f' i b r Hf Hf'; [lia|]. destruct f' as [|f']; [lia|].
  cbn [next_loop io_ReadFull bytes_IoReader]. destruct (ReadFull 1 (r_rdr r)) as [[h s] [e|]] eqn:E1; [reflexivity|]. apply Hlen in E1.
  destruct (_ =? recPageTerm).
  - cbn [adv r_rdr]. destruct (_ =? pageSize)%nat; [apply IH; cbn [adv r_rdr]; lia|].
    destruct (ReadFull _ s) as [[z s1] [e|]] eqn:E2; [reflexivity|]. apply Hlen in E2.
    destruct (forallb _ _); [apply IH; cbn [adv r_rdr]; lia|reflexivity].
  - cbn [adv r_rdr]. destruct (ReadFull _ s) as [[hd s1] [e|]] eqn:E2; [reflexivity|]. apply Hlen in E2.
    destruct (_ <? _)%nat; [reflexivity|]. cbn [adv r_rdr].
    destruct (ReadFull _ s1) as [[dt s2] [e|]] eqn:E3; [reflexivity|]. apply Hlen in E3.
    destruct (negb _); [reflexivity|]. destruct (validateRecord _ _); [reflexivity|].
    destruct (_ || _); [reflexivity|]. apply IH; cbn [adv r_rdr]; lia.
Qed.

(** Where the reader stands between records: no error, no record begun. *)
Definition calm (r : Reader bytes) : Prop :=
  r_err r = None /\ (r_curRecTyp r =? recFirst) || (r_curRecTyp r =? recMiddle) = false.

Lemma calm_adv r s n typ : calm r -> typ = recPageTerm \/ typ = recFull \/ typ = recLast -> calm (adv r s n typ).
Proof. intros [He _] Ht. split; [exact He|]. cbn [adv r_curRecTyp]. destruct Ht as [-> | [-> | ->]]; reflexivity. Qed.

Lemma Next_frags fc a fs enc a' r rest rec : frags fc a 0 fs enc a' -> comp_Decode fc enc = inr rec ->
  calm r -> r_rdr r = fs ++ rest ->
  exists r', Reader_Next r = (true, r') /\ r_rec r' = rec /\ r_rdr r' = rest /\ r_total r' = (r_total r + length fs)%nat /\ calm r'.
Proof.
  intros Hf Hd Hc Hr. unfold Reader_Next, nextNew. cbn [io_left bytes_IoReader].
  destruct (next_loop_frags fc a 0 fs enc a' Hf (S (length (r_rdr r))) [] r rest rec) as (ft & Hft & E);
    [rewrite Hr, length_app; lia|exact Hr|exact Hd|].
  rewrite E. eexists. split; [reflexivity|]. repeat split; try reflexivity.
  destruct Hft as [-> | ->]; reflexivity.
Qed.

Lemma Next_pad a r rest : (0 < a < pageSize)%nat -> (r_total r mod pageSize = a)%nat -> r_rdr r = pad a ++ rest ->
  Reader_Next r = Reader_Next (adv r rest (length (pad a)) recPageTerm).
Proof.
  intros Ha Ht Hr. unfold Reader_Next, nextNew. cbn [io_left bytes_IoReader]. rewrite (next_loop_pad _ 0 [] r a rest Ha Ht Hr). cbn [adv r_rdr].
  rewrite (next_loop_fuel _ (S (length rest))); [reflexivity| |cbn [adv r_rdr]; lia].
  cbn [adv r_rdr]. rewrite Hr, length_app. unfold pad. destruct (Nat.eqb_spec a 0); [lia|].
  rewrite length_replicate. lia.
Qed.

Lemma read_seq_next r r' recs err : Reader_Next r = Reader_Next r' -> read_seq r' recs err -> read_seq r recs err.
Proof.
  intros E H. destruct H as [r' r1 H|r' r1 recs err H Hs].
  - apply read_end. congruence.
  - eapply read_more; [congruence|exact Hs].
Qed.

Lemma Next_end r : calm r -> r_rdr r = [] -> exists r', Reader_Next r = (false, r') /\ r_err r' = None.
Proof.
  intros [He Hc] Hr. unfold Reader_Next, nextNew. cbn [io_left bytes_IoReader]. rewrite Hr. cbn [length next_loop io_left io_ReadFull bytes_IoReader]. rewrite Hr. cbn [ReadFull Nat.eqb].
  cbn [adv r_curRecTyp]. rewrite Hc. eauto.
Qed.

(** [bs], read from the start of a page, holds the records [recs] and ends at
    offset [a] of a page: whatever follows is read next. *)
Definition at_page (r : Reader bytes) (a : nat) : Prop := (r_total r mod pageSize = a mod pageSize)%nat.
Definition reads_as (bs : bytes) (recs : list bytes) (a : nat) : Prop :=
  forall r rest, r_rdr r = bs ++ rest -> at_page r 0 -> calm r ->
  exists r', r_rdr r' = rest /\ at_page r' a /\ calm r'
    /\ forall recs' err, read_seq r' recs' err -> read_seq r (recs ++ recs') err.

(** A file cut short in [bs] yields the first records only. *)
Definition cut_ok (bs : bytes) (recs : list bytes) : Prop :=
  forall n r, (n < length bs)%nat -> r_rdr r = take n bs -> at_page r 0 -> calm r ->
  exists recs' err, recs' `prefix_of` recs /\ read_seq r recs' err.

(** How segments are laid out: records and padding. *)
Inductive laid : bytes -> list bytes -> nat -> Prop :=
| laid_nil : laid [] [] 0
| laid_rec fc bs recs a fs enc a' rec : laid bs recs a -> frags fc a 0 fs enc a' -> comp_Decode fc enc = inr rec -> laid (bs ++ fs) (recs ++ [rec]) a'
| laid_pad bs recs a : laid bs recs a -> laid (bs ++ pad a) recs 0.

Lemma laid_app b1 r1 b2 r2 a : laid b1 r1 0 -> laid b2 r2 a -> laid (b1 ++ b2) (r1 ++ r2) a.
Proof.
  intros H1. induction 1 as [|fc bs recs a fs enc a' rec _ IH Hf Hd|bs recs a _ IH]; [rewrite !app_nil_r; exact H1| |].
  - rewrite !app_assoc. eapply laid_rec; [exact IH|exact Hf|exact Hd].
  - rewrite app_assoc. apply laid_pad. exact IH.
Qed.

(** The contents of a segment up to offset [a] of a page. *)
Record content (bs : bytes) (recs : list bytes) (a : nat) : Prop := {
  c_reads : reads_as bs recs a;
  c_cut : cut_ok bs recs;
  c_laid : laid bs recs a;
  c_len : (length bs mod pageSize = a mod pageSize)%nat;
  c_page : (a <= pageSize)%nat
}.

Lemma content_nil : content [] [] 0.
Proof.
  split; [|intros n r Hn; cbn in Hn; lia|constructor|reflexivity|lia].
  intros r rest Hr Hp Hc. exists r. auto.
Qed.

(** A record cut short ends the reading. *)
Lemma frags_cut fc a i fs enc a' : frags fc a i fs enc a' ->
  forall f b r m, (m < length fs)%nat -> r_rdr r = take m fs -> fst (next_loop f i b r) <> None.
Proof.
  induction 1 as [a i part mask Hm Hl | a i part mask fs rest a' Hm Hl Hf IH]; intros f b r m Hmf Hr.
  - apply (fragment_cut f i b r fc mask true part m); (lia || assumption).
  - rewrite length_app in Hmf.
    destruct (Nat.lt_ge_cases m (length (fragment (Z.lor (frag_type i false) mask) part))) as [Hlt|Hge].
    + apply (fragment_cut f i b r fc mask false part m); [assumption|lia|lia|].
      rewrite take_app_le in Hr by lia. exact Hr.
    + rewrite take_app_ge in Hr by lia. destruct f as [|f]; [discriminate|].
      rewrite (next_loop_fragment f i b r fc mask false part _ Hm) by (lia || exact Hr). cbn zeta.
      apply (IH f _ _ (m - length (fragment (Z.lor (frag_type i false) mask) part))%nat); [lia|reflexivity].
Qed.

Lemma read_stuck r : fst (nextNew r) <> None -> exists err, read_seq r [] err.
Proof.
  intros H. unfold nextNew in H. destruct (Reader_Next r) as [b r'] eqn:E. exists (r_err r').
  apply read_end. rewrite E. f_equal. unfold Reader_Next, nextNew in E.
  destruct (next_loop _ _ _ _) as [[e|] r1]; [|cbn in H; congruence].
  destruct e as [[]| | | | | | |]; try (injection E as <- _; reflexivity).
  destruct (_ || _); injection E as <- _; reflexivity.
Qed.

(** Stops in what follows [bs]. *)
Lemma cut_after bs recs a m tail : reads_as bs recs a ->
  (forall r, r_rdr r = take m tail -> at_page r a -> calm r -> exists err, read_seq r [] err) ->
  forall r, r_rdr r = bs ++ take m tail -> at_page r 0 -> calm r ->
  exists recs' err, recs' `prefix_of` recs /\ read_seq r recs' err.
Proof.
  intros Hb Ht r Hr Hp Hc. destruct (Hb r _ Hr Hp Hc) as (r' & Hr' & Hp' & Hc' & Hk).
  destruct (Ht r' Hr' Hp' Hc') as [err He]. exists recs, err. split; [reflexivity|].
  rewrite <- (app_nil_r recs). apply Hk. exact He.
Qed.

Lemma cut_app bs recs a tail recs' : reads_as bs recs a -> cut_ok bs recs ->
  (forall m r, (m < length tail)%nat -> r_rdr r = take m tail -> at_page r a -> calm r -> exists err, read_seq r [] err) ->
  cut_ok (bs ++ tail) (recs ++ recs').
Proof.
  intros Hb Hcut Ht n r Hn Hr Hp Hc. rewrite length_app in Hn.
  assert (H : exists recs1 err, recs1 `prefix_of` recs /\ read_seq r recs1 err).
  { destruct (Nat.lt_ge_cases n (length bs)) as [Hl|Hg].
    - rewrite take_app_le in Hr by lia. exact (Hcut n r Hl Hr Hp Hc).
    - rewrite take_app_ge in Hr by lia. eapply cut_after; [exact Hb| |exact Hr|exact Hp|exact Hc].
      intros r0 H0. apply (Ht (n - length bs)%nat); [lia|exact H0]. }
  destruct H as (recs1 & err & Hpre & Hs). exists recs1, err. split; [|exact Hs].
  apply prefix_app_r. exact Hpre.
Qed.

Lemma content_rec fc bs recs a fs enc a' rec : content bs recs a -> frags fc a 0 fs enc a' ->
  comp_Decode fc enc = inr rec -> content (bs ++ fs) (recs ++ [rec]) a'.
Proof.
  intros [Hr Hcut Hlaid Hlen Hpg] Hf Hd. destruct (frags_length _ _ _ _ _ _ Hf Hpg) as (Hm & _ & Ha').
  split; [| |eapply laid_rec; eassumption|rewrite length_app, <- Nat.Div0.add_mod_idemp_l, Hlen, Nat.Div0.add_mod_idemp_l; exact Hm|exact Ha'].
  - intros r rest Hrr Hp Hc. rewrite <- app_assoc in Hrr.
    destruct (Hr r _ Hrr Hp Hc) as (r1 & H1 & Hp1 & Hc1 & Hk).
    destruct (Next_frags fc a fs enc a' r1 rest rec Hf Hd Hc1 H1) as (r2 & Hn & Hrec & H2 & Ht & Hc2).
    exists r2. split; [exact H2|]. split; [|split; [exact Hc2|]].
    + unfold at_page in *. rewrite Ht, <- Hm, <- Nat.Div0.add_mod_idemp_l, Hp1, Nat.Div0.add_mod_idemp_l. reflexivity.
    + intros recs' err Hs. rewrite <- app_assoc. apply Hk. cbn [app]. rewrite <- Hrec.
      eapply read_more; [exact Hn|exact Hs].
  - eapply cut_app; [exact Hr|exact Hcut|]. intros m r Hm' Hrr _ _. apply read_stuck.
    eapply frags_cut; [exact Hf|exact Hm'|exact Hrr].
Qed.

(** Padding cut short. *)
Lemma pad_cut a m r : (0 < a < pageSize)%nat -> (m < length (pad a))%nat -> r_rdr r = take m (pad a) ->
  at_page r a -> fst (nextNew r) <> None.
Proof.
  intros Ha Hm Hr Hp. unfold at_page in Hp. rewrite (Nat.mod_small a) in Hp by lia. unfold nextNew, pad in *.
  destruct (Nat.eqb_spec a 0); [lia|]. rewrite length_replicate in Hm. rewrite take_replicate, Nat.min_l in Hr by lia.
  destruct m as [|m]; [cbn [replicate] in Hr; cbn [next_loop]; rewrite Hr; discriminate|].
  cbn [replicate] in Hr. cbn [next_loop io_ReadFull bytes_IoReader]. rewrite Hr, ReadFull_1.
  change (recTypeFromHeader (be_val [0]) =? recPageTerm) with true. cbn [adv r_total r_rdr].
  rewrite (pad_rest a) by (lia || exact Hp). destruct (Nat.eqb_spec (S a) pageSize); [lia|].
  destruct (Nat.eqb_spec (pageSize - S a) pageSize); [lia|].
  destruct (ReadFull_short (pageSize - S a) (replicate m 0)) as [e E]; [rewrite length_replicate; lia|].
  destruct (ReadFull _ _) as [[x y] z]. cbn [snd] in E. subst z. discriminate.
Qed.

Lemma content_pad bs recs a : content bs recs a -> content (bs ++ pad a) recs 0.
Proof.
  intros [Hr Hcut Hlaid Hlen Hpg]. pose proof page_bounds as [HP _]. apply laid_pad in Hlaid as Hlaid'.
  assert (Hl : (length (bs ++ pad a) mod pageSize = 0 mod pageSize)%nat).
  { rewrite length_app, <- Nat.Div0.add_mod_idemp_l, Hlen, Nat.Div0.add_mod_idemp_l, length_pad by exact Hpg.
    reflexivity || (symmetry; apply Nat.Div0.mod_0_l). }
  destruct (Nat.eq_dec a 0) as [->|Hn0]; [rewrite app_nil_r; split; assumption|].
  destruct (Nat.eq_dec a pageSize) as [->|Hn1].
  { assert (E : pad pageSize = []).
    { unfold pad. destruct (Nat.eqb_spec pageSize 0); [reflexivity|]. rewrite Nat.sub_diag. reflexivity. }
    rewrite E, app_nil_r in *. split; [|exact Hcut|exact Hlaid'|exact Hl|lia]. intros r rest Hrr Hp Hc.
    destruct (Hr r rest Hrr Hp Hc) as (r' & H1 & H2 & H3 & H4). exists r'. split; [exact H1|].
    split; [|split; [exact H3|exact H4]].
    unfold at_page in *. rewrite H2, Nat.Div0.mod_same, Nat.Div0.mod_0_l. reflexivity. }
  assert (Ha : (0 < a < pageSize)%nat) by lia. split; [| |exact Hlaid'|exact Hl|lia].
  - intros r rest Hrr Hp Hc. rewrite <- app_assoc in Hrr.
    destruct (Hr r _ Hrr Hp Hc) as (r1 & H1 & Hp1 & Hc1 & Hk).
    exists (adv r1 rest (length (pad a)) recPageTerm). split; [reflexivity|]. split; [|split].
    + unfold at_page in *. cbn [adv r_total]. rewrite <- Nat.Div0.add_mod_idemp_l, Hp1, Nat.Div0.add_mod_idemp_l,
        length_pad by lia. symmetry. apply Nat.Div0.mod_0_l.
    + apply calm_adv; auto.
    + intros recs' err Hs. apply Hk. eapply read_seq_next; [|exact Hs]. apply Next_pad with (a := a); try assumption.
      unfold at_page in Hp1. rewrite Hp1. apply Nat.mod_small. lia.
  - rewrite <- (app_nil_r recs). eapply cut_app; [exact Hr|exact Hcut|]. intros m r Hm Hrr Hp _. apply read_stuck.
    apply (pad_cut a m); assumption.
Qed.

(** One segment after another. *)
Lemma content_app b1 r1 b2 r2 a : content b1 r1 0 -> content b2 r2 a -> content (b1 ++ b2) (r1 ++ r2) a.
Proof.
  intros [H1 Hc1 Hd1 Hl1 _] [H2 Hc2 Hd2 Hl2 Hp2]. split; [| |apply laid_app; assumption|rewrite length_app, <- Nat.Div0.add_mod_idemp_l, Hl1,
    Nat.Div0.add_mod_idemp_l; exact Hl2|exact Hp2].
  - intros r rest Hr Hp Hc. rewrite <- app_assoc in Hr. destruct (H1 r _ Hr Hp Hc) as (r' & Hr' & Hp' & Hc' & Hk).
    destruct (H2 r' _ Hr' Hp' Hc') as (r'' & Hr'' & Hp'' & Hc'' & Hk').
    exists r''. split; [exact Hr''|]. split; [exact Hp''|]. split; [exact Hc''|].
    intros recs' err Hs. rewrite <- app_assoc. apply Hk, Hk', Hs.
  - intros n r Hn Hr Hp Hc. rewrite length_app in Hn. destruct (Nat.lt_ge_cases n (length b1)) as [Hl|Hg].
    + rewrite take_app_le in Hr by lia. destruct (Hc1 n r Hl Hr Hp Hc) as (recs' & err & Hpre & Hs).
      exists recs', err. split; [apply prefix_app_r; exact Hpre|exact Hs].
    + rewrite take_app_ge in Hr by lia. destruct (H1 r _ Hr Hp Hc) as (r' & Hr' & Hp' & Hc' & Hk).
      destruct (Hc2 (n - length b1)%nat r' ltac:(lia) Hr' Hp' Hc') as (recs' & err & Hpre & Hs).
      exists (r1 ++ recs'), err. split; [apply prefix_app; exact Hpre|apply Hk; exact Hs].
Qed.

Lemma reader_start s : at_page (NewReader s) 0 /\ calm (NewReader s).
Proof. repeat split. Qed.

(** What [content] says about a file. *)
Lemma content_read bs recs a : content bs recs a -> read_seq (NewReader bs) recs None.
Proof.
  intros [Hr _ _ _ _]. destruct (reader_start bs) as [Hp Hc].
  destruct (Hr (NewReader bs) [] ltac:(rewrite app_nil_r; reflexivity) Hp Hc) as (r' & Hr' & _ & Hc' & Hk).
  destruct (Next_end r' Hc' Hr') as (r'' & Hn & He). rewrite <- (app_nil_r recs). apply Hk.
  rewrite <- He. apply read_end. exact Hn.
Qed.

Lemma content_cut bs recs a n : content bs recs a ->
  exists recs' err, recs' `prefix_of` recs /\ read_seq (NewReader (take n bs)) recs' err.
Proof.
  intros Hc. destruct (Nat.lt_ge_cases n (length bs)) as [Hl|Hg].
  - destruct (reader_start (take n bs)) as [Hp Hcl]. apply (c_cut _ _ _ Hc n (NewReader (take n bs)) Hl eq_refl Hp Hcl).
  - rewrite take_ge by lia. exists recs, None. split; [reflexivity|]. eapply content_read. exact Hc.
Qed.
End reading.

(** ** The writer *)

(** The bytes of the page that are not in the file yet, and the segment with them. *)
Definition pending (w : WL) : bytes := slice (buf (w_page w)) (flushed (w_page w)) (alloc (w_page w)).
Definition contents (w : WL) : bytes := w_segment w ++ pending w.

Record page_ok (p : page) : Prop := {
  p_len : length (buf p) = pageSize;
  p_zero : drop (alloc p) (buf p) = replicate (pageSize - alloc p) 0;
  p_flushed : (flushed p <= alloc p)%nat;
  p_alloc : (alloc p <= pageSize)%nat
}.

(** A log whose file system does not fail. *)
Record quiet (w : WL) : Prop := {
  q_io : w_io w = [];
  q_closed : w_closed w = false;
  q_page : page_ok (w_page w)
}.

(** What an operation within the active segment leaves alone. *)
Definition same (w w' : WL) : Prop :=
  w_prev w' = w_prev w /\ w_segmentSize w' = w_segmentSize w /\ w_compress w' = w_compress w.

Lemma same_refl w : same w w.
Proof. repeat split. Qed.
Lemma same_trans w w' w'' : same w w' -> same w' w'' -> same w w''.
Proof. unfold same. intuition congruence. Qed.

Lemma page_reset_ok : page_ok page_reset.
Proof.
  split; cbn [page_reset buf alloc flushed]; [apply length_replicate| |lia|lia].
  rewrite drop_0, Nat.sub_0_r. reflexivity.
Qed.

Lemma quiet_write w b : w_io w = [] -> segment_Write b w = (length b, false, append_segment b w).
Proof. intros H. unfold segment_Write, next_io. rewrite H. reflexivity. Qed.

(** Writing to the end of the page adds the zeros that are there. *)
Lemma slice_to_end p : page_ok p ->
  slice (buf p) (flushed p) pageSize = slice (buf p) (flushed p) (alloc p) ++ replicate (pageSize - alloc p) 0.
Proof.
  intros [Hl Hz Hf Ha]. unfold slice. rewrite (take_ge (drop (flushed p) (buf p))) by (rewrite length_drop; lia).
  rewrite <- (take_drop (alloc p - flushed p) (drop (flushed p) (buf p))) at 1. f_equal.
  rewrite drop_drop. replace (flushed p + (alloc p - flushed p))%nat with (alloc p) by lia. exact Hz.
Qed.

Lemma flush_clear w : quiet w ->
  exists w', flushPage true w = Ret (None, w') /\ quiet w' /\ same w w' /\ alloc (w_page w') = 0%nat
    /\ contents w' = contents w ++ replicate (pageSize - alloc (w_page w)) 0.
Proof.
  intros [Hio Hc Hp]. unfold flushPage. cbn [orb alloc flushed buf].
  destruct (Nat.ltb_spec pageSize (flushed (w_page w))); [destruct Hp; lia|].
  rewrite quiet_write by exact Hio. cbn iota beta. eexists. split; [reflexivity|].
  split; [split; [exact Hio|exact Hc|apply page_reset_ok]|]. split; [repeat split|]. split; [reflexivity|].
  unfold contents, pending. cbn. unfold slice at 2. cbn [Nat.sub take]. rewrite app_nil_r.
  rewrite slice_to_end by exact Hp. apply app_assoc.
Qed.

Lemma flush_partial w : quiet w -> full (w_page w) = false ->
  exists w', flushPage false w = Ret (None, w') /\ quiet w' /\ same w w' /\ alloc (w_page w') = alloc (w_page w)
    /\ contents w' = contents w /\ pending w' = [].
Proof.
  intros [Hio Hc Hp] Hf. unfold flushPage. rewrite Hf. cbn [orb].
  destruct (Nat.ltb_spec (alloc (w_page w)) (flushed (w_page w))); [destruct Hp; lia|].
  rewrite quiet_write by exact Hio. cbn iota beta.
  assert (Hn : (flushed (w_page w) + length (slice (buf (w_page w)) (flushed (w_page w)) (alloc (w_page w))))%nat
               = alloc (w_page w)) by (destruct Hp; rewrite length_slice; lia).
  rewrite Hn. eexists. split; [reflexivity|]. destruct Hp as [Hl Hz Hfl Ha].
  split; [split; [exact Hio|exact Hc|split; cbn; assumption || lia]|]. split; [repeat split|]. split; [reflexivity|].
  unfold contents, pending, set_page, append_segment. cbn [w_page w_segment buf flushed alloc].
  unfold slice at 2 4. rewrite Nat.sub_diag. cbn [take]. rewrite app_nil_r. split; reflexivity.
Qed.

(** A fragment goes to the end of what is in the page. *)
Lemma put_fragment p fr : page_ok p -> (alloc p + length fr <= pageSize)%nat ->
  let p' := mkPage (alloc p + length fr) (flushed p) (copy_at (buf p) (alloc p) fr) in
  page_ok p' /\ slice (buf p') (flushed p') (alloc p') = slice (buf p) (flushed p) (alloc p) ++ fr.
Proof.
  intros [Hl Hz Hf Ha] Hfr p'. subst p'. cbn [alloc flushed buf].
  assert (Hlen : length (copy_at (buf p) (alloc p) fr) = pageSize).
  { unfold copy_at. rewrite !length_app, length_take, length_drop. lia. }
  assert (Htk : take (alloc p + length fr) (copy_at (buf p) (alloc p) fr) = take (alloc p) (buf p) ++ fr).
  { unfold copy_at. rewrite app_assoc. apply take_app_length'. rewrite length_app, length_take. lia. }
  split.
  - split; cbn [alloc flushed buf]; [exact Hlen| |lia|lia]. unfold copy_at. rewrite app_assoc, drop_app_length'.
    + rewrite <- drop_drop, Hz, drop_replicate. f_equal. lia.
    + rewrite length_app, length_take. lia.
  - unfold slice. rewrite <- !skipn_firstn_comm. fold (@firstn Z) (@skipn Z).
    rewrite Htk. apply drop_app_le. rewrite length_take. lia.
Qed.

Lemma pending_empty w : alloc (w_page w) = 0%nat -> pending w = [].
Proof. intros H. unfold pending, slice. rewrite H. reflexivity. Qed.

Lemma pad_pos a : (0 < a)%nat -> pad a = replicate (pageSize - a) 0.
Proof. intros H. unfold pad. destruct (Nat.eqb_spec a 0); [lia|reflexivity]. Qed.

Lemma ok_then_ret (m k : WM) w w' : m w = Ret (None, w') -> (m >>? k) w = k w'.
Proof. intros E. unfold ok_then, go_bind. rewrite E. reflexivity. Qed.

(** [if p.alloc > 0 { flushPage(true) }] leaves an empty page. *)
Lemma flush_used w : quiet w ->
  exists w', (if (0 <? alloc (w_page w))%nat then flushPage true w else Ret (None, w)) = Ret (None, w')
    /\ quiet w' /\ same w w' /\ alloc (w_page w') = 0%nat /\ w_segment w' = contents w ++ pad (alloc (w_page w)).
Proof.
  intros Hq. destruct (Nat.ltb_spec 0 (alloc (w_page w))).
  - destruct (flush_clear w Hq) as (w' & E & Hq' & Hs & Ha & Hc). exists w'. split; [exact E|].
    split; [exact Hq'|]. split; [exact Hs|]. split; [exact Ha|]. unfold contents in Hc at 1.
    rewrite (pending_empty w' Ha), app_nil_r in Hc. rewrite Hc, pad_pos by lia. reflexivity.
  - exists w. split; [reflexivity|]. split; [exact Hq|]. split; [apply same_refl|].
    assert (Ha : alloc (w_page w) = 0%nat) by lia. split; [exact Ha|]. unfold contents, pad.
    rewrite (pending_empty w Ha), Ha, !app_nil_r. reflexivity.
Qed.

Lemma nextSegment_ok w : quiet w ->
  exists w', nextSegment w = Ret (None, w') /\ quiet w' /\ w_segmentSize w' = w_segmentSize w
    /\ w_compress w' = w_compress w /\ alloc (w_page w') = 0%nat /\ contents w' = []
    /\ w_prev w' = w_prev w ++ [contents w ++ pad (alloc (w_page w))].
Proof.
  intros Hq. destruct (flush_used w Hq) as (w1 & E & Hq1 & (Hp & Hs & Hc) & Ha & Hseg).
  unfold nextSegment. rewrite (q_closed w Hq). erewrite ok_then_ret by exact E.
  unfold new_segment, next_io. rewrite (q_io w1 Hq1). eexists. split; [reflexivity|].
  cbn [w_segmentSize w_compress w_page w_prev].
  split; [split; [exact (q_io w1 Hq1)|exact (q_closed w1 Hq1)|exact (q_page w1 Hq1)]|].
  split; [exact Hs|]. split; [exact Hc|]. split; [exact Ha|]. split; [|rewrite Hp, Hseg; reflexivity].
  unfold contents. rewrite pending_empty by exact Ha. reflexivity.
Qed.

Definition closed_at (a : nat) (fs : bytes) : bytes * nat :=
  if (pageSize - a <? recordHeaderSize)%nat then (fs ++ pad a, 0%nat) else (fs, a).

(** After a fragment: the page is flushed when nothing more fits. *)
Lemma flush_if_full w : quiet w -> (0 < alloc (w_page w))%nat ->
  exists w', (if full (w_page w) then flushPage true w else Ret (None, w)) = Ret (None, w')
    /\ quiet w' /\ same w w' /\ full (w_page w') = false
    /\ (contents w', alloc (w_page w')) = closed_at (alloc (w_page w)) (contents w).
Proof.
  intros Hq Ha. pose proof page_bounds as [HP _]. unfold closed_at, full. destruct (Nat.ltb_spec (pageSize - alloc (w_page w)) recordHeaderSize).
  - destruct (flush_clear w Hq) as (w' & E & Hq' & Hs & Ha' & Hc). exists w'. split; [exact E|].
    split; [exact Hq'|]. split; [exact Hs|]. rewrite Ha', Hc, pad_pos by exact Ha. split; [|reflexivity].
    apply Nat.ltb_ge. lia.
  - exists w. split; [reflexivity|]. split; [exact Hq|]. split; [apply same_refl|]. split; [|reflexivity].
    apply Nat.ltb_ge. lia.
Qed.

(** One turn of the loop, up to the test for what is left of the record. *)
Definition frag_part (a : nat) (enc : bytes) : bytes := take (min (length enc) (pageSize - a - recordHeaderSize)) enc.

Lemma log_loop_step fuel i enc fc mask w : quiet w -> full (w_page w) = false -> comp_mask fc = Some mask ->
  (i = 0%nat \/ enc <> []) ->
  let part := frag_part (alloc (w_page w)) enc in
  let fr := fragment (Z.lor (frag_type i (length part =? length enc)%nat) mask) part in
  exists w', log_loop (S fuel) i enc fc w = log_loop fuel (S i) (drop (length part) enc) fc w'
    /\ quiet w' /\ same w w' /\ full (w_page w') = false
    /\ (contents w', alloc (w_page w'))
       = closed_at (alloc (w_page w) + recordHeaderSize + length part) (contents w ++ fr).
Proof.
  intros Hq Hf Hm Hi part fr. pose proof (q_page w Hq) as Hpg.
  assert (Hroom : (alloc (w_page w) + recordHeaderSize <= pageSize)%nat).
  { unfold full in Hf. apply Nat.ltb_ge in Hf. pose proof (p_alloc _ Hpg). unfold recordHeaderSize in *. lia. }
  assert (Hlp : length part = min (length enc) (pageSize - alloc (w_page w) - recordHeaderSize)).
  { unfold part, frag_part. rewrite length_take. lia. }
  assert (Hgo : (i =? 0)%nat || (0 <? length enc)%nat = true).
  { destruct Hi as [-> | He]; [reflexivity|]. apply orb_true_iff. right. apply Nat.ltb_lt. destruct enc; [congruence|cbn; lia]. }
  cbn [log_loop]. rewrite Hgo, Hf, Hm. cbn zeta. fold (frag_part (alloc (w_page w)) enc). fold part.
  destruct (put_fragment (w_page w) fr Hpg) as [Hp' Hsl].
  { unfold fr. rewrite length_fragment. lia. }
  set (w1 := set_page (mkPage (alloc (w_page w) + length fr) (flushed (w_page w)) (copy_at (buf (w_page w)) (alloc (w_page w)) fr)) w).
  assert (Hq1 : quiet w1) by (split; [exact (q_io w Hq)|exact (q_closed w Hq)|exact Hp']).
  assert (Hfr : length fr = (recordHeaderSize + length part)%nat) by apply length_fragment.
  destruct (flush_if_full w1 Hq1) as (w' & E & Hq' & Hs' & Hf' & Hc').
  { unfold w1. cbn [set_page w_page alloc]. rewrite Hfr. unfold recordHeaderSize. lia. }
  exists w'. split.
  - replace (alloc (w_page w) + length part + recordHeaderSize)%nat with (alloc (w_page w) + length fr)%nat by lia.
    fold fr. fold w1. erewrite ok_then_ret by exact E. rewrite <- Hlp. reflexivity.
  - split; [exact Hq'|]. split; [exact Hs'|]. split; [exact Hf'|]. rewrite Hc'. unfold w1, contents, pending.
    cbn [set_page w_page w_segment alloc buf flushed] in Hsl |- *. rewrite Hsl, Hfr, Nat.add_assoc, app_assoc. reflexivity.
Qed.

Lemma log_loop_ok fc mask : comp_mask fc = Some mask -> forall fuel i enc w,
  quiet w -> full (w_page w) = false -> (i = 0%nat \/ (enc <> [] /\ alloc (w_page w) = 0%nat)) ->
  (length enc < fuel + (if (i =? 0)%nat then 0 else 1))%nat ->
  exists w' fs a', log_loop fuel i enc fc w = Ret (None, w')
    /\ frags fc (alloc (w_page w)) i fs enc a' /\ quiet w' /\ same w w' /\ full (w_page w') = false
    /\ (contents w', alloc (w_page w')) = closed_at a' (contents w ++ fs).
Proof.
  intros Hm. pose proof page_bounds as [HP _]. induction fuel as [|fuel IH]; intros i enc w Hq Hf Hi Hfu.
  { destruct Hi as [-> | [He _]]; [cbn in Hfu; lia|]. destruct enc; [congruence|]. destruct (i =? 0)%nat; cbn in Hfu; lia. }
  destruct (log_loop_step fuel i enc fc mask w Hq Hf Hm) as (w1 & E & Hq1 & Hs1 & Hf1 & Hc1); [tauto|].
  rewrite E. clear E. set (part := frag_part (alloc (w_page w)) enc) in *.
  assert (Hroom : (alloc (w_page w) + recordHeaderSize <= pageSize)%nat).
  { unfold full in Hf. apply Nat.ltb_ge in Hf. pose proof (p_alloc _ (q_page w Hq)). unfold recordHeaderSize in *. lia. }
  assert (Hlp : length part = min (length enc) (pageSize - alloc (w_page w) - recordHeaderSize)).
  { unfold part, frag_part. rewrite length_take. lia. }
  assert (Hpd : enc = part ++ drop (length part) enc).
  { rewrite Hlp. unfold part, frag_part. symmetry. apply take_drop. }
  destruct (Nat.eqb_spec (length part) (length enc)) as [Hall|Hmore].
  - rewrite drop_ge by lia. assert (part = enc) as -> by (rewrite Hpd, drop_ge, app_nil_r by lia; reflexivity).
    assert (Hend : log_loop fuel (S i) [] fc w1 = Ret (None, w1)) by (destruct fuel; reflexivity).
    exists w1, (fragment (Z.lor (frag_type i true) mask) enc), (alloc (w_page w) + recordHeaderSize + length enc)%nat.
    split; [exact Hend|]. split; [apply frags_last; [exact Hm|lia]|]. auto.
  - assert (Hfill : (alloc (w_page w) + recordHeaderSize + length part = pageSize)%nat) by lia.
    assert (Hc2 : contents w1 = contents w ++ fragment (Z.lor (frag_type i false) mask) part /\ alloc (w_page w1) = 0%nat).
    { rewrite Hfill in Hc1. unfold closed_at, pad in Hc1. rewrite Nat.sub_diag in Hc1. cbn [Nat.ltb Nat.leb recordHeaderSize] in Hc1.
      destruct (pageSize =? 0)%nat; cbn [replicate] in Hc1; rewrite app_nil_r in Hc1; injection Hc1; auto. }
    destruct Hc2 as [Hc2 Ha1].
    assert (Hrest : drop (length part) enc <> []).
    { intros E0. apply (f_equal length) in E0. rewrite length_drop in E0. cbn in E0. lia. }
    destruct (IH (S i) (drop (length part) enc) w1 Hq1 Hf1 ltac:(auto)) as (w' & fs & a' & E & Hfr & Hq' & Hs' & Hf' & Hc').
    { rewrite length_drop. cbn [Nat.eqb]. destruct Hi as [-> | [He Ha0]]; [cbn [Nat.eqb] in Hfu; lia|].
      destruct (i =? 0)%nat; lia. }
    exists w', (fragment (Z.lor (frag_type i false) mask) part ++ fs), a'. split; [exact E|]. split.
    { rewrite Hpd. apply frags_more; [exact Hm|exact Hfill|]. rewrite <- Ha1. exact Hfr. }
    split; [exact Hq'|]. split; [eapply same_trans; eassumption|]. split; [exact Hf'|].
    rewrite Hc', Hc2, <- app_assoc. reflexivity.
Qed.

(** ** Whole records *)
Section records.
Context {C : CompressLib} {COK : CompressLibOK C}.

(** What [log] writes for a record, and with which flag. *)
Definition chosen (t : ctype) (rec enc0 : bytes) : bytes * ctype :=
  if bool_decide (t = CNone) then (enc0, t)
  else if Z.of_nat (length rec) - Z.of_nat (length enc0) <=? 0 then (rec, CNone)
  else (enc0, t).

Lemma comp_Decode_none s : comp_Decode CNone s = inr s.
Proof. unfold comp_Decode. rewrite (bool_decide_eq_true_2 (CNone = CNone)), orb_true_r by reflexivity. reflexivity. Qed.

Lemma chosen_ok t rec enc0 : comp_Encode t rec = inr enc0 ->
  exists mask, comp_mask (snd (chosen t rec enc0)) = Some mask
    /\ comp_Decode (snd (chosen t rec enc0)) (fst (chosen t rec enc0)) = inr rec.
Proof.
  intros E. unfold chosen. case_bool_decide as Ht.
  { subst t. unfold comp_Encode in E. rewrite (bool_decide_eq_true_2 (CNone = CNone)), orb_true_r in E by reflexivity.
    injection E as ->. exists 0. split; [reflexivity|apply comp_Decode_none]. }
  destruct (Z.leb_spec (Z.of_nat (length rec) - Z.of_nat (length enc0)) 0) as [Hle|Hlt].
  { exists 0. split; [reflexivity|apply comp_Decode_none]. }
  assert (Hne : rec <> []) by (destruct rec; [cbn in Hlt; lia|discriminate]).
  assert (Hl0 : (length rec =? 0)%nat = false) by (destruct rec; [congruence|reflexivity]).
  cbn [fst snd]. unfold comp_Encode in E. rewrite Hl0 in E. cbn [orb] in E.
  destruct t; cbn in E; try congruence; try discriminate; try (injection E as <-; lia).
  - destruct (snappy_fits (length rec)); [|discriminate]. injection E as <-. exists snappyMask. split; [reflexivity|].
    unfold comp_Decode. destruct (snappy_encode rec) as [|x l] eqn:Es; [destruct (snappy_nonempty rec Hne Es)|].
    cbn. rewrite <- Es, snappy_roundtrip. reflexivity.
  - injection E as <-. exists zstdMask. split; [reflexivity|].
    unfold comp_Decode. destruct (zstd_encode rec) as [|x l] eqn:Es; [destruct (zstd_nonempty rec Hne Es)|].
    cbn. rewrite <- Es, zstd_roundtrip. reflexivity.
Qed.

(** The records in the log: those of the closed segments and those of the active one. *)
Record log_inv (w : WL) (done : list (list bytes)) (cur : list bytes) : Prop := {
  li_quiet : quiet w;
  li_room : full (w_page w) = false;
  li_prev : Forall2 (fun seg recs => content seg recs 0) (w_prev w) done;
  li_cur : content (contents w) cur (alloc (w_page w))
}.

Lemma content_closed bs recs a bs' a' : content bs recs a -> (bs', a') = closed_at a bs -> content bs' recs a'.
Proof.
  intros Hc E. unfold closed_at in E. destruct (_ <? _)%nat; injection E as -> ->; [|exact Hc].
  apply content_pad. exact Hc.
Qed.

(** Starting a new segment when the record does not fit. *)
Lemma maybe_next w done cur (b : bool) : log_inv w done cur ->
  exists w' done' cur', (if b then nextSegment w else Ret (None, w)) = Ret (None, w')
    /\ log_inv w' done' cur' /\ concat done' ++ cur' = concat done ++ cur
    /\ w_segmentSize w' = w_segmentSize w /\ w_compress w' = w_compress w.
Proof.
  intros Hi. destruct b; [|exists w, done, cur; auto]. destruct Hi as [Hq Hf Hp Hc].
  destruct (nextSegment_ok w Hq) as (w' & E & Hq' & Hs & Hcm & Ha & Hct & Hpv).
  exists w', (done ++ [cur]), []. split; [exact E|]. split.
  - split; [exact Hq'| | |].
    + unfold full. rewrite Ha. pose proof page_bounds as [HP _]. apply Nat.ltb_ge. lia.
    + rewrite Hpv. apply Forall2_app; [exact Hp|]. constructor; [|constructor]. apply content_pad. exact Hc.
    + rewrite Hct, Ha. apply content_nil.
  - rewrite concat_app. cbn. rewrite !app_nil_r. auto.
Qed.

Lemma wl_log_ok w done cur rec enc0 final : log_inv w done cur -> comp_Encode (w_compress w) rec = inr enc0 ->
  exists w' done' cur', wl_log rec final w = Ret (None, w') /\ log_inv w' done' cur'
    /\ concat done' ++ cur' = (concat done ++ cur) ++ [rec] /\ w_compress w' = w_compress w
    /\ (final = true -> pending w' = []).
Proof.
  intros Hi Henc. unfold wl_log. erewrite ok_then_ret; [|rewrite (li_room _ _ _ Hi); reflexivity].
  rewrite Henc. fold (chosen (w_compress w) rec enc0).
  destruct (chosen_ok _ _ _ Henc) as (mask & Hm & Hdec). destruct (chosen (w_compress w) rec enc0) as [enc fc] eqn:Ech.
  cbn [fst snd] in *. cbn zeta.
  edestruct (maybe_next w done cur) as (w1 & done' & cur' & E1 & Hi1 & Hcat & _ & Hcm1); [exact Hi|].
  erewrite ok_then_ret by exact E1. clear E1.
  destruct (log_loop_ok fc mask Hm (S (length enc)) 0 enc w1 (li_quiet _ _ _ Hi1) (li_room _ _ _ Hi1) ltac:(auto)
    ltac:(cbn; lia)) as (w2 & fs & a' & E2 & Hfr & Hq2 & Hs2 & Hf2 & Hc2).
  erewrite ok_then_ret by exact E2. clear E2. destruct Hs2 as (Hpv2 & _ & Hcm2).
  assert (Hc3 : content (contents w2) (cur' ++ [rec]) (alloc (w_page w2))).
  { eapply content_closed; [|exact Hc2]. eapply content_rec; [exact (li_cur _ _ _ Hi1)|exact Hfr|exact Hdec]. }
  assert (Hpr : Forall2 (fun seg recs => content seg recs 0) (w_prev w2) done') by (rewrite Hpv2; apply (li_prev _ _ _ Hi1)).
  assert (Hcat' : concat done' ++ cur' ++ [rec] = (concat done ++ cur) ++ [rec]) by (rewrite <- Hcat, <- app_assoc; reflexivity).
  destruct (final && (0 <? alloc (w_page w2))%nat) eqn:Ef.
  - destruct (flush_partial w2 Hq2 Hf2) as (w3 & E3 & Hq3 & (Hpv3 & _ & Hcm3) & Ha3 & Hct3 & Hpd3).
    exists w3, done', (cur' ++ [rec]). split; [exact E3|]. split; [|split; [exact Hcat'|split; [congruence|auto]]].
    split; [exact Hq3|unfold full; rewrite Ha3; exact Hf2|rewrite Hpv3; exact Hpr|rewrite Hct3, Ha3; exact Hc3].
  - exists w2, done', (cur' ++ [rec]). split; [reflexivity|]. split; [split; assumption|].
    split; [exact Hcat'|]. split; [congruence|]. intros ->. cbn [andb] in Ef. apply Nat.ltb_ge in Ef.
    apply pending_empty. lia.
Qed.

Lemma Log_ok recs : forall w done cur, log_inv w done cur -> pending w = [] ->
  Forall (fun rec => exists enc, comp_Encode (w_compress w) rec = inr enc) recs ->
  exists w' done' cur', Log recs w = Ret (None, w') /\ log_inv w' done' cur'
    /\ concat done' ++ cur' = (concat done ++ cur) ++ recs /\ w_compress w' = w_compress w /\ pending w' = [].
Proof.
  assert (H : forall recs w done cur, log_inv w done cur -> (recs = [] -> pending w = []) ->
    Forall (fun rec => exists enc, comp_Encode (w_compress w) rec = inr enc) recs ->
    exists w' done' cur', Log recs w = Ret (None, w') /\ log_inv w' done' cur'
      /\ concat done' ++ cur' = (concat done ++ cur) ++ recs /\ w_compress w' = w_compress w /\ pending w' = []).
  { clear recs. induction recs as [|r recs IH]; intros w done cur Hi Hp He.
    - exists w, done, cur. rewrite app_nil_r. auto 10.
    - pose proof (Forall_inv He) as [enc Henc]. cbn [Log].
      edestruct (wl_log_ok w done cur r enc) as (w1 & d1 & c1 & E1 & Hi1 & Hcat1 & Hcm1 & Hfin); [exact Hi|exact Henc|].
      erewrite ok_then_ret by exact E1.
      destruct (IH w1 d1 c1 Hi1) as (w2 & d2 & c2 & E2 & Hi2 & Hcat2 & Hcm2 & Hp2).
      { intros ->. apply Hfin. reflexivity. }
      { rewrite Hcm1. exact (Forall_inv_tail He). }
      exists w2, d2, c2. split; [exact E2|]. split; [exact Hi2|].
      split; [rewrite Hcat2, Hcat1, <- app_assoc; reflexivity|]. split; [congruence|exact Hp2]. }
  intros w done cur Hi Hp He. apply (H recs w done cur Hi ltac:(auto) He).
Qed.

(** A run of [Log] calls, which ends at the first error. *)
Fixpoint Logs (batches : list (list bytes)) : WM :=
  match batches with
  | [] => go_ret None
  | b :: bs => Log b >>? Logs bs
  end.

Lemma Logs_ok batches : forall w done cur, log_inv w done cur -> pending w = [] ->
  Forall (fun rec => exists enc, comp_Encode (w_compress w) rec = inr enc) (concat batches) ->
  exists w' done' cur', Logs batches w = Ret (None, w') /\ log_inv w' done' cur'
    /\ concat done' ++ cur' = (concat done ++ cur) ++ concat batches /\ pending w' = [].
Proof.
  induction batches as [|b bs IH]; intros w done cur Hi Hp He.
  - exists w, done, cur. cbn. rewrite app_nil_r. auto 10.
  - cbn [concat] in He. apply Forall_app in He as [Hb Hbs].
    destruct (Log_ok b w done cur Hi Hp Hb) as (w1 & d1 & c1 & E1 & Hi1 & Hcat1 & Hcm1 & Hp1).
    cbn [Logs]. erewrite ok_then_ret by exact E1. rewrite <- Hcm1 in Hbs.
    destruct (IH w1 d1 c1 Hi1 Hp1 Hbs) as (w2 & d2 & c2 & E2 & Hi2 & Hcat2 & Hp2).
    exists w2, d2, c2. split; [exact E2|]. split; [exact Hi2|]. split; [|exact Hp2].
    rewrite Hcat2, Hcat1, <- app_assoc. reflexivity.
Qed.

Lemma NewSize_inv size t w : NewSize size t [] = Some w -> log_inv w [] [] /\ pending w = [] /\ w_compress w = t.
Proof.
  unfold NewSize. destruct (_ =? 0)%nat; [|discriminate]. intros [= <-].
  assert (Hpd : pending (mkWL size [] [] 0 page_reset false t []) = []) by (apply pending_empty; reflexivity).
  split; [|split; [exact Hpd|reflexivity]]. split; [split; [reflexivity|reflexivity|apply page_reset_ok]| |constructor|].
  - unfold full. cbn [page_reset alloc w_page]. pose proof page_bounds as [HP _]. apply Nat.ltb_ge. lia.
  - unfold contents. rewrite Hpd. apply content_nil.
Qed.

(** The files of a log at rest. *)
Lemma inv_files w done cur : log_inv w done cur -> pending w = [] ->
  content (concat (files w)) (concat done ++ cur) (alloc (w_page w))
  /\ Forall2 (fun seg recs => exists a, content seg recs a) (files w) (done ++ [cur]).
Proof.
  intros [_ _ Hp Hc] Hpd. unfold contents in Hc. rewrite Hpd, app_nil_r in Hc. unfold files. split.
  - rewrite concat_app. cbn. rewrite app_nil_r. apply content_app; [|exact Hc].
    induction Hp as [|seg recs segs done Hs _ IH]; [apply content_nil|]. cbn. apply content_app; assumption.
  - apply Forall2_app; [|constructor; [eauto|constructor]].
    clear -Hp. induction Hp; constructor; eauto.
Qed.
End records.

(** A compression library for examples: a byte, then the data as it is. *)
#[export] Instance stored_lib : CompressLib := {
  snappy_fits := fun _ => true;
  snappy_encode := fun s => 0 :: s; snappy_decode := fun s => match s with [] => None | _ :: s => Some s end;
  zstd_encode := fun s => 0 :: s; zstd_decode := fun s => match s with [] => None | _ :: s => Some s end
}.
#[export] Instance stored_lib_ok : CompressLibOK stored_lib.
Proof. split; try reflexivity; discriminate. Qed.

Definition ex_wl : WL := mkWL (2 * pageSize) [] [] 0 page_reset false CSnappy [].

Lemma NewSize_ex : NewSize (2 * pageSize) CSnappy [] = Some ex_wl.
Proof. unfold NewSize. rewrite Nat.Div0.mod_mul. reflexivity. Qed.

(** A record whose last fragment is cut right behind the first byte of its
    header, or right behind its header, is not reported as torn: [io.ReadFull]
    says EOF there, and [Reader.Next] takes the type of the fragment for that of the
    last one read completely. *)
Lemma torn_full_record_unnoticed (C : CompressLib) part :
  (recordHeaderSize + length part <= pageSize)%nat -> part <> [] ->
  read_seq (NewReader (take 1 (fragment recFull part))) [] None
  /\ read_seq (NewReader (take recordHeaderSize (fragment recFull part))) [] None.
Proof.
  intros Hl Hne.
  assert (Hend : forall s, (exists r, nextNew (NewReader s) = (Some (RdIO IoEOF), r) /\ r_curRecTyp r = recFull /\ r_err r = None) ->
            read_seq (NewReader s) [] None).
  { intros s (r & E & Ht & He). rewrite <- He. apply read_end. unfold Reader_Next. rewrite E, Ht. reflexivity. }
  split.
  - apply Hend. eexists. split; [reflexivity|split; reflexivity].
  - unfold fragment, recordHeaderSize. cbn [take]. rewrite app_assoc.
    set (b2 := be_bytes 2 (Z.of_nat (length part))). set (b4 := be_bytes 4 (crc32_checksum part)).
    assert (H2 : length b2 = 2%nat) by apply length_be_bytes. assert (H4 : length b4 = 4%nat) by apply length_be_bytes.
    rewrite take_app_length' by (rewrite length_app; lia).
    assert (E2 : Z.to_nat (be_val b2) = length part).
    { pose proof page_bounds as [_ HP]. unfold b2, recordHeaderSize in *. rewrite be_val_bytes, Z.mod_small; [lia|].
      change (2 ^ (8 * Z.of_nat 2)) with (2 ^ 16). lia. }
    pose proof (ReadFull_app (b2 ++ b4) []) as H6. rewrite app_nil_r, length_app, H2, H4 in H6.
    apply Hend. unfold nextNew. cbn [NewReader r_rdr length next_loop io_left io_ReadFull bytes_IoReader].
    rewrite ReadFull_1. change (recTypeFromHeader (be_val [recFull]) =? recPageTerm) with false. cbn [adv r_rdr].
    change (recordHeaderSize - 1)%nat with (2 + 4)%nat. rewrite H6. unfold slice. rewrite drop_0, (take_app_length' b2), E2 by lia.
    destruct (Nat.ltb_spec (pageSize - recordHeaderSize) (length part)); [unfold recordHeaderSize in *; lia|].
    cbn [adv r_rdr]. unfold ReadFull. destruct (Nat.eqb_spec (length part) 0); [destruct part; [congruence|discriminate]|].
    eexists. split; [reflexivity|split; reflexivity].
Qed.

(** ** Properties *)

(** C12: whatever batches of records are logged, with whatever compression and
    however they fall on pages and segments, every call succeeds on a file
    system that does not fail, and a reader of the files gets exactly the
    records, in order, and ends without an error.  No record crosses a segment
    boundary: each segment read alone yields its share. *)
Theorem wal_roundtrip (C : CompressLib) (COK : CompressLibOK C) (size : nat) (t : ctype) (w0 : WL)
    (batches : list (list bytes)) :
  NewSize size t [] = Some w0 ->
  Forall (fun rec => exists enc, comp_Encode t rec = inr enc) (concat batches) ->
  exists w, Logs batches w0 = Ret (None, w)
    /\ read_seq (NewReader (concat (files w))) (concat batches) None
    /\ exists shares, concat shares = concat batches
       /\ Forall2 (fun seg recs => read_seq (NewReader seg) recs None) (files w) shares.
Proof.
  intros Hn He. destruct (NewSize_inv _ _ _ Hn) as (Hi & Hp & Hcm). rewrite <- Hcm in He.
  destruct (Logs_ok batches w0 [] [] Hi Hp He) as (w & done & cur & E & Hi' & Hcat & Hp').
  destruct (inv_files w done cur Hi' Hp') as [Hall Hseg]. cbn in Hcat.
  exists w. split; [exact E|]. split; [rewrite <- Hcat; eapply content_read; exact Hall|].
  exists (done ++ [cur]). split; [rewrite concat_app; cbn; rewrite app_nil_r; exact Hcat|].
  clear - Hseg. induction Hseg as [|seg recs segs rss [a Hs] _ IH]; constructor; [eapply content_read; exact Hs|exact IH].
Qed.

Lemma wal_roundtrip_witness :
  exists w, Logs [[[1; 2]; []]; [[3; 4; 5]]] ex_wl = Ret (None, w)
    /\ read_seq (NewReader (concat (files w))) (concat [[[1; 2]; []]; [[3; 4; 5]]]) None
    /\ exists shares, concat shares = concat [[[1; 2]; []]; [[3; 4; 5]]]
       /\ Forall2 (fun seg recs => read_seq (NewReader seg) recs None) (files w) shares.
Proof.
  apply (wal_roundtrip stored_lib stored_lib_ok (2 * pageSize) CSnappy ex_wl); [apply NewSize_ex|].
  repeat constructor; eexists; reflexivity.
Defined.
