(* ===== verification/SegmentReader.v ===== *)
(** * Reading the segments of a log: [segmentBufReader] of [tsdb/wlog/wlog.go]

    A restart reads the log through [segmentBufReader], which buffers the segment
    files and fills the last page of a short segment with zeros.  The first part
    shows that the [Reader] of [Wlog] sees the padded bytes; the second what it makes
    of a log that a crash has cut short: the padding can complete the header of a
    record that was cut. *)
From stdpp Require Import base list numbers.
From Stdlib Require Import ZArith Lia.
From S2P Require Import Prelude Encoding Labels Wlog.

(** ** The buffered reader *)

(** [sb_buf] is what was not read of the current segment, in the buffer and in the
    file.  A [Read] of a [bufio.Reader] may give less than asked, though at
    least one byte: [sb_sizes] scripts how many bytes (less one) the next calls
    give at most, and they give all when it is used up. *)
Record segmentBufReader := mkSegReader { sb_segs : list bytes; sb_cur : nat; sb_off : nat; sb_buf : bytes; sb_sizes : list nat }.

Definition NewSegmentBufReader (segs : list bytes) (sizes : list nat) : segmentBufReader := mkSegReader segs 0 0 (default [] (segs !! 0%nat)) sizes.

(** [Read(b)] for a [b] of [n > 0] bytes: the bytes written to [b], the reader, the error. *)
Definition sb_Read (n : nat) (r : segmentBufReader) : bytes * segmentBufReader * option io_err :=
  if (length (sb_segs r) =? 0)%nat then ([], r, Some IoEOF)
  else if (0 <? length (sb_buf r))%nat then
    let k := match sb_sizes r with [] => n | g :: _ => min n (S g) end in
    let d := take k (sb_buf r) in
    (d, mkSegReader (sb_segs r) (sb_cur r) (sb_off r + length d) (drop k (sb_buf r)) (tail (sb_sizes r)), None)
  else if negb (sb_off r mod pageSize =? 0)%nat then
    let i := min n (pageSize - sb_off r mod pageSize) in
    (replicate i 0, mkSegReader (sb_segs r) (sb_cur r) (sb_off r + i) [] (sb_sizes r), None)
  else if (length (sb_segs r) <=? sb_cur r + 1)%nat then ([], r, Some IoEOF)
  else ([], mkSegReader (sb_segs r) (sb_cur r + 1) 0 (default [] (sb_segs r !! (sb_cur r + 1)%nat)) (sb_sizes r), None).

(** The loop of [io.ReadFull]: every call gives a byte or goes to the next segment. *)
Fixpoint fill (fuel n : nat) (acc : bytes) (r : segmentBufReader) : bytes * segmentBufReader * option io_err :=
  if (n =? 0)%nat then (acc, r, None)
  else match fuel with
       | O => (acc, r, Some IoUnexpectedEOF)
       | S fuel =>
           let '(d, r, err) := sb_Read n r in
           match err with
           | Some _ => (acc, r, Some (if (length acc =? 0)%nat then IoEOF else IoUnexpectedEOF))
           | None => fill fuel (n - length d) (acc ++ d) r
           end
       end.

(** A segment with its last page filled with zeros. *)
Definition padded (s : bytes) : bytes := s ++ pad (length s mod pageSize).

(** The bytes still to come. *)
Definition sb_stream (r : segmentBufReader) : bytes :=
  if (length (sb_segs r) =? 0)%nat then []
  else sb_buf r ++ pad ((sb_off r + length (sb_buf r)) mod pageSize) ++ concat (map padded (drop (S (sb_cur r)) (sb_segs r))).

#[export] Instance sb_IoReader : IoReader segmentBufReader := {|
  io_ReadFull n r := fill (n + length (sb_segs r)) n [] r;
  io_left r := length (sb_stream r) |}.

(** ** What readers promise *)

(** A reader that gives the bytes of [io_stream] in order. *)
Class IoReaderOK (R : Type) {io : IoReader R} := {
  io_stream : R -> bytes;
  io_stream_left : forall r, io_left r = length (io_stream r);
  io_stream_ok : forall n r, match io_ReadFull n r, ReadFull n (io_stream r) with
                 | (d, r', e), (d', s, e') => io_stream r' = s /\ e = e' /\ (e = None -> d = d')
                 end }.

Section stream.
Context {C : CompressLib} {R : Type} {io : IoReader R} {IOK : IoReaderOK R}.

(** A record reader on [R] and one on its bytes. *)
Definition sim (a : Reader R) (b : Reader bytes) : Prop :=
  io_stream (r_rdr a) = r_rdr b /\ r_total a = r_total b /\ r_curRecTyp a = r_curRecTyp b /\ r_rec a = r_rec b /\ r_err a = r_err b.

Lemma sim_adv a b s s' n typ : sim a b -> io_stream s = s' -> sim (adv a s n typ) (adv b s' n typ).
Proof. intros (_ & H2 & _ & H4 & H5) Hs. repeat split; cbn; congruence. Qed.
Lemma sim_rec a b rec : sim a b -> sim (set_rec rec a) (set_rec rec b).
Proof. intros (H1 & H2 & H3 & _ & H5). repeat split; cbn; congruence. Qed.
Lemma sim_err a b e : sim a b -> sim (set_err e a) (set_err e b).
Proof. intros (H1 & H2 & H3 & H4 & _). repeat split; cbn; congruence. Qed.


Lemma next_loop_sim f : forall i b x y, sim x y ->
  (next_loop f i b x).1 = (next_loop f i b y).1 /\ sim (next_loop f i b x).2 (next_loop f i b y).2.
Proof.
  induction f as [|f IH]; intros i b x y H; [split; [reflexivity|exact H]|]. cbn [next_loop]. pose proof H as (Hs & Ht & _).
  change (@io_ReadFull bytes bytes_IoReader) with ReadFull. pose proof (io_stream_ok 1 (r_rdr x)) as H1. rewrite Hs in H1.
  destruct (io_ReadFull 1 (r_rdr x)) as [[h s] e], (ReadFull 1 (r_rdr y)) as [[h' s'] e']. destruct H1 as (Hs1 & <- & Hh).
  destruct e as [e|]; [split; [reflexivity|]; cbn [snd]; replace (r_curRecTyp y) with (r_curRecTyp x) by apply H; apply sim_adv; assumption|].
  rewrite <- (Hh eq_refl). cbv zeta. destruct (_ =? recPageTerm).
  - cbn [adv r_total r_rdr]. rewrite <- Ht. destruct (_ =? pageSize)%nat; [apply IH, sim_adv; assumption|].
    set (k := (pageSize - _)%nat). pose proof (io_stream_ok k s) as H2. rewrite Hs1 in H2.
    destruct (io_ReadFull k s) as [[z s2] e2], (ReadFull k s') as [[z' s2'] e2']. destruct H2 as (Hs2 & <- & Hz).
    destruct e2 as [e2|]; [split; [reflexivity|apply sim_adv; [apply sim_adv|]; assumption]|]. rewrite <- (Hz eq_refl).
    destruct (forallb _ z); [apply IH|split; [reflexivity|]]; (apply sim_adv; [apply sim_adv|]; assumption).
  - cbn [adv r_rdr]. set (k := (recordHeaderSize - 1)%nat). pose proof (io_stream_ok k s) as H2. rewrite Hs1 in H2.
    destruct (io_ReadFull k s) as [[hd s2] e2], (ReadFull k s') as [[hd' s2'] e2']. destruct H2 as (Hs2 & <- & Hz).
    destruct e2 as [e2|]; [split; [reflexivity|apply sim_adv; [apply sim_adv|]; assumption]|]. rewrite <- (Hz eq_refl).
    set (len := Z.to_nat _). destruct (_ <? len)%nat; [split; [reflexivity|apply sim_adv; [apply sim_adv|]; assumption]|]. cbn [adv r_rdr].
    pose proof (io_stream_ok len s2) as H3. rewrite Hs2 in H3.
    destruct (io_ReadFull len s2) as [[d s3] e3], (ReadFull len s2') as [[d' s3'] e3']. destruct H3 as (Hs3 & <- & Hd).
    assert (Hsim : forall n1 t1 n2 t2 n3 t3, sim (adv (adv (adv x s n1 t1) s2 n2 t2) s3 n3 t3) (adv (adv (adv y s' n1 t1) s2' n2 t2) s3' n3 t3)).
    { intros. repeat apply sim_adv; assumption. }
    destruct e3 as [e3|]; [split; [reflexivity|apply Hsim]|]. rewrite <- (Hd eq_refl).
    destruct (negb _); [split; [reflexivity|apply Hsim]|]. destruct (validateRecord _ _); [split; [reflexivity|apply Hsim]|].
    destruct (_ || _); [destruct (comp_Decode _ _); (split; [reflexivity|try apply sim_rec; apply Hsim])|]. apply IH, Hsim.
Qed.

Lemma Reader_Next_sim x y : sim x y -> (Reader_Next x).1 = (Reader_Next y).1 /\ sim (Reader_Next x).2 (Reader_Next y).2.
Proof.
  intros H. unfold Reader_Next, nextNew. pose proof H as (Hs & _). rewrite io_stream_left, Hs. change (io_left (r_rdr y)) with (length (r_rdr y)).
  destruct (next_loop_sim (S (length (r_rdr y))) 0 [] x y H) as [H1 H2].
  destruct (next_loop _ _ _ x) as [e x'], (next_loop _ _ _ y) as [e' y']. cbn [fst snd] in H1, H2. subst e'. pose proof H2 as (_ & _ & Ht & _). rewrite Ht.
  destruct e as [[[]| | | | | | |]|]; try (split; [reflexivity|apply sim_err; exact H2]). destruct (_ || _); (split; [reflexivity|try apply sim_err; exact H2]).
Qed.

Lemma read_seq_sim y recs err : read_seq y recs err -> forall x, sim x y -> read_seq x recs err.
Proof.
  induction 1 as [y y' E|y y' recs err E _ IH]; intros x H; destruct (Reader_Next_sim x y H) as [H1 H2]; rewrite E in H1, H2;
    destruct (Reader_Next x) as [ok x'] eqn:Ex; cbn [fst snd] in H1, H2; subst ok.
  - destruct H2 as (_ & _ & _ & _ & <-). apply read_end. exact Ex.
  - pose proof H2 as (_ & _ & _ & <- & _). eapply read_more; [exact Ex|apply IH; exact H2].
Qed.

(** Reading from [R] is reading its bytes. *)
Lemma read_stream r recs err : read_seq (NewReader (io_stream r)) recs err -> read_seq (NewReader r) recs err.
Proof. intros H. apply (read_seq_sim _ _ _ H). repeat split. Qed.
End stream.

(** ** [segmentBufReader] keeps the promise *)

Lemma pad_split o i : (0 < o < pageSize)%nat -> (i <= pageSize - o)%nat -> pad o = replicate i 0 ++ pad ((o + i) mod pageSize).
Proof.
  pose proof page_bounds as [HP _]. intros Ho Hi. rewrite pad_pos by lia. destruct (Nat.eq_dec i (pageSize - o)) as [->|Hn].
  - replace (o + (pageSize - o))%nat with pageSize by lia. rewrite Nat.Div0.mod_same. rewrite app_nil_r. reflexivity.
  - rewrite Nat.mod_small by lia. unfold pad. destruct (Nat.eqb_spec (o + i) 0) as [E|E].
    + assert (o = 0 /\ i = 0)%nat as [-> ->] by lia. lia.
    + rewrite <- replicate_add. f_equal. lia.
Qed.

(** What a call does to the stream. *)
Definition read_step (n : nat) (r : segmentBufReader) (res : bytes * segmentBufReader * option io_err) : Prop :=
  match res with
  | (d, r', None) => sb_stream r = d ++ sb_stream r' /\ (length d <= n)%nat /\ sb_segs r' = sb_segs r
      /\ (((0 < length d)%nat /\ sb_cur r' = sb_cur r) \/ (d = [] /\ sb_cur r' = S (sb_cur r) /\ S (sb_cur r) < length (sb_segs r))%nat)
  | (_, r', Some _) => sb_stream r = [] /\ r' = r
  end.

Lemma sb_stream_eq r : length (sb_segs r) <> 0%nat ->
  sb_stream r = sb_buf r ++ pad ((sb_off r + length (sb_buf r)) mod pageSize) ++ concat (map padded (drop (S (sb_cur r)) (sb_segs r))).
Proof. intros H. unfold sb_stream. rewrite (proj2 (Nat.eqb_neq _ 0) H). reflexivity. Qed.

Lemma read_data n r k sizes : length (sb_segs r) <> 0%nat -> (0 < k <= n)%nat -> (0 < length (sb_buf r))%nat ->
  read_step n r (take k (sb_buf r), mkSegReader (sb_segs r) (sb_cur r) (sb_off r + length (take k (sb_buf r))) (drop k (sb_buf r)) sizes, None).
Proof.
  intros H0 Hk Hb. unfold read_step. rewrite !sb_stream_eq by exact H0. cbn [sb_segs sb_cur sb_off sb_buf]. rewrite !length_take, length_drop.
  replace (sb_off r + min k (length (sb_buf r)) + (length (sb_buf r) - k))%nat with (sb_off r + length (sb_buf r))%nat by lia.
  rewrite (app_assoc (take k (sb_buf r)) (drop k (sb_buf r))), take_drop. split; [reflexivity|]. split; [lia|]. split; [reflexivity|]. left. split; [lia|reflexivity].
Qed.

Lemma mod_add_page a b : ((a mod pageSize + b) mod pageSize = (a + b) mod pageSize)%nat.
Proof. apply Nat.Div0.add_mod_idemp_l. Qed.

(** When the segment is used up (rewriting keeps [pad] folded: its argument is slow to evaluate). *)
Lemma sb_stream_used r : length (sb_segs r) <> 0%nat -> sb_buf r = [] ->
  sb_stream r = pad (sb_off r mod pageSize) ++ concat (map padded (drop (S (sb_cur r)) (sb_segs r))).
Proof.
  intros H0 Hb. rewrite sb_stream_eq, Hb by exact H0. rewrite (app_nil_l (pad _ ++ _)). change (length (@nil Z)) with 0%nat. rewrite Nat.add_0_r. reflexivity.
Qed.

Lemma read_zeros n r o i : length (sb_segs r) <> 0%nat -> sb_buf r = [] -> o = (sb_off r mod pageSize)%nat -> (0 < o)%nat -> (0 < i <= n)%nat -> (i <= pageSize - o)%nat ->
  read_step n r (replicate i 0, mkSegReader (sb_segs r) (sb_cur r) (sb_off r + i) [] (sb_sizes r), None).
Proof.
  intros H0 Hb Ho Ho0 Hi Hp. unfold read_step. rewrite length_replicate. split; [|split; [lia|split; [reflexivity|left; split; [lia|reflexivity]]]].
  rewrite (sb_stream_used r H0 Hb), (sb_stream_used (mkSegReader _ _ (sb_off r + i) [] _) H0 eq_refl). cbn [sb_off sb_cur sb_segs].
  rewrite <- Ho, (pad_split o i ltac:(lia) Hp), <- (mod_add_page (sb_off r) i), <- Ho, <- app_assoc. reflexivity.
Qed.

Lemma pad_0 : pad 0 = [].
Proof. reflexivity. Qed.

Lemma read_next n r : length (sb_segs r) <> 0%nat -> sb_buf r = [] -> (sb_off r mod pageSize = 0)%nat -> (S (sb_cur r) < length (sb_segs r))%nat ->
  read_step n r ([], mkSegReader (sb_segs r) (S (sb_cur r)) 0 (default [] (sb_segs r !! S (sb_cur r))) (sb_sizes r), None).
Proof.
  intros H0 Hb Ho Hc. unfold read_step. split; [|split; [cbn; lia|split; [reflexivity|right; auto]]]. destruct (lookup_lt_is_Some_2 (sb_segs r) _ Hc) as [s Es].
  rewrite (sb_stream_used r H0 Hb), Ho, pad_0, (drop_S _ _ _ Es), Es. rewrite sb_stream_eq by exact H0. cbn [sb_segs sb_cur sb_off sb_buf default]. rewrite Nat.add_0_l, !app_nil_l.
  cbn [map concat]. unfold padded at 1. rewrite <- app_assoc. reflexivity.
Qed.

Lemma sb_Read_ok n r : (0 < n)%nat -> read_step n r (sb_Read n r).
Proof.
  pose proof page_bounds as [HP _]. intros Hn. unfold sb_Read. destruct (Nat.eqb_spec (length (sb_segs r)) 0) as [E0|E0].
  - split; [|reflexivity]. unfold sb_stream. rewrite E0. reflexivity.
  - destruct (Nat.ltb_spec 0 (length (sb_buf r))) as [Hb|Hb]; [apply read_data; [exact E0|destruct (sb_sizes r); lia|exact Hb]|].
    assert (E : sb_buf r = []) by (destruct (sb_buf r); [reflexivity|cbn in Hb; lia]). destruct (Nat.eqb_spec (sb_off r mod pageSize) 0) as [Ez|Ez]; cbn [negb].
    + destruct (Nat.leb_spec (length (sb_segs r)) (sb_cur r + 1)) as [Hc|Hc].
      * split; [|reflexivity]. rewrite sb_stream_used, Ez, pad_0, drop_ge by (exact E0 || exact E || lia). reflexivity.
      * rewrite Nat.add_1_r in Hc |- *. apply read_next; assumption.
    + pose proof (Nat.mod_upper_bound (sb_off r) pageSize ltac:(lia)) as Hm. eapply read_zeros; [exact E0|exact E|reflexivity|lia|lia|lia].
Qed.

Lemma fill_zeros_ok fuel : forall n acc r, (n + (length (sb_segs r) - sb_cur r) <= fuel)%nat -> (n <> 0 -> fuel <> 0)%nat ->
  match fill fuel n acc r with
  | (d, r', e) => sb_stream r' = drop n (sb_stream r)
      /\ e = (if (n <=? length (sb_stream r))%nat then None else Some (if (length (acc ++ sb_stream r) =? 0)%nat then IoEOF else IoUnexpectedEOF))
      /\ (e = None -> d = acc ++ take n (sb_stream r))
  end.
Proof.
  induction fuel as [|fuel IH]; intros n acc r Hf Hn; cbn [fill]; (destruct (Nat.eqb_spec n 0) as [->|Hn0]; [rewrite drop_0, take_0, app_nil_r; auto|]); [lia|].
  pose proof (sb_Read_ok n r ltac:(lia)) as Hr. unfold read_step in Hr. destruct (sb_Read n r) as [[d r'] [e|]].
  - destruct Hr as [Hs ->]. rewrite Hs. cbn [length]. destruct (Nat.leb_spec n 0); [lia|]. rewrite drop_nil, app_nil_r. split; [reflexivity|]. split; [reflexivity|discriminate].
  - destruct Hr as (Hs & Hd & Hsg & Hc). specialize (IH (n - length d)%nat (acc ++ d) r'). rewrite Hsg in IH.
    destruct (Nat.eq_dec (n - length d) 0) as [E|E].
    { rewrite E. destruct fuel; cbn [fill Nat.eqb]; rewrite Hs; assert (length d = n) by lia; subst n;
        rewrite drop_app_length, take_app_length, length_app; (destruct (Nat.leb_spec (length d) (length d + length (sb_stream r'))); [|lia]); auto. }
    specialize (IH ltac:(destruct Hc as [[H1 H2]|(-> & H1 & H2)]; cbn; lia) ltac:(destruct Hc as [[H1 H2]|(-> & H1 & H2)]; cbn; lia)).
    destruct (fill fuel _ _ r') as [[d' r''] e]. destruct IH as (H1 & H2 & H3). rewrite Hs, length_app, drop_app_ge, take_app_ge by lia. split; [exact H1|]. split.
    + rewrite H2, <- !app_assoc. destruct (Nat.leb_spec (n - length d) (length (sb_stream r'))), (Nat.leb_spec n (length d + length (sb_stream r'))); try lia; reflexivity.
    + intros He. rewrite (H3 He), <- app_assoc. reflexivity.
Qed.

#[export] Instance sb_IoReaderOK : IoReaderOK segmentBufReader.
Proof.
  refine {| io_stream := sb_stream |}; [reflexivity|]. intros n r. cbn [io_ReadFull sb_IoReader]. pose proof (fill_zeros_ok (n + length (sb_segs r)) n [] r ltac:(lia) ltac:(lia)) as H.
  destruct (fill _ n [] r) as [[d r'] e]. destruct H as (H1 & H2 & H3). cbn [app] in *. unfold ReadFull. destruct (Nat.eqb_spec n 0) as [->|Hn]; [rewrite drop_0 in H1; auto|].
  destruct (sb_stream r) as [|x s].
  { rewrite drop_nil in H1. change (length []) with 0%nat in H2. destruct (Nat.leb_spec n 0); [lia|]. rewrite H2. split; [exact H1|]. split; [reflexivity|discriminate]. }
  change (length (x :: s) =? 0)%nat with false in H2.
  destruct (Nat.leb_spec n (length (x :: s))), (Nat.ltb_spec (length (x :: s)) n); try lia; [rewrite H2; auto|]. rewrite drop_ge in H1 by lia. rewrite H2. split; [exact H1|]. split; [reflexivity|discriminate].
Defined.

Lemma segments_stream segs sizes : sb_stream (NewSegmentBufReader segs sizes) = concat (map padded segs).
Proof. unfold sb_stream, NewSegmentBufReader, padded. cbn. destruct segs as [|s segs]; [reflexivity|]. cbn. rewrite drop_0, <- app_assoc. reflexivity. Qed.

(** ** A fragment whose end was cut off and replaced by zeros *)

Definition zeroed (c : nat) (l : bytes) : bytes := take c l ++ replicate (length l - c) 0.

Lemma length_zeroed c l : length (zeroed c l) = length l.
Proof. unfold zeroed. rewrite length_app, length_take, length_replicate. lia. Qed.

Lemma zeroed_all c l : (length l <= c)%nat -> zeroed c l = l.
Proof. intros H. unfold zeroed. rewrite take_ge by lia. replace (length l - c)%nat with 0%nat by lia. apply app_nil_r. Qed.

Lemma zeroed_0 l : zeroed 0 l = replicate (length l) 0.
Proof. unfold zeroed. rewrite Nat.sub_0_r. reflexivity. Qed.

Lemma zeroed_app c l1 l2 : zeroed c (l1 ++ l2) = zeroed c l1 ++ zeroed (c - length l1) l2.
Proof.
  unfold zeroed. rewrite length_app. destruct (Nat.le_gt_cases c (length l1)).
  - rewrite take_app_le by lia. replace (c - length l1)%nat with 0%nat by lia. rewrite take_0, Nat.sub_0_r, <- app_assoc. cbn [app]. rewrite <- replicate_add. do 2 f_equal. lia.
  - rewrite take_app_ge, (take_ge l1) by lia. replace (length l1 - c)%nat with 0%nat by lia. cbn [replicate]. rewrite app_nil_r, <- app_assoc. do 3 f_equal. lia.
Qed.

Lemma be_val_zeros n : be_val (replicate n 0) = 0.
Proof. induction n as [|n IH]; [reflexivity|]. cbn [replicate]. rewrite be_val_cons, IH. lia. Qed.

Lemma be_val_zeroed c l : Forall is_u8 l -> 0 <= be_val (zeroed c l) <= be_val l.
Proof.
  intros H. revert c. induction H as [|x l Hx Hl IH]; intros c; [rewrite (zeroed_all c []) by (cbn; lia); cbn; lia|]. destruct c as [|c].
  - rewrite zeroed_0, be_val_zeros. pose proof (be_val_bound (x :: l) (Forall_cons_2 _ _ _ Hx Hl)). lia.
  - change (zeroed (S c) (x :: l)) with (x :: zeroed c l). rewrite !be_val_cons, length_zeroed. specialize (IH c). unfold is_u8 in Hx. pose proof (Z.pow_pos_nonneg 2 (8 * Z.of_nat (length l)) ltac:(lia) ltac:(lia)). nia.
Qed.

(** What the reader takes for the data of the fragment [fr] of which [c] bytes are left. *)
Definition torn_data (fr : bytes) (c : nat) (q : bytes) : Prop :=
  (0 < c < length fr)%nat /\ let z := zeroed c fr in
  q = slice z recordHeaderSize (recordHeaderSize + Z.to_nat (be_val (slice z 1 3))) /\ crc32_checksum q = be_val (slice z 3 recordHeaderSize).

(** The header and the data of a fragment that was cut. *)
Lemma zeroed_fragment typ part c : (0 < c)%nat -> (recordHeaderSize + length part <= pageSize)%nat ->
  exists x2 x4 y, zeroed c (fragment typ part) = [typ] ++ x2 ++ x4 ++ y /\ length x2 = 2%nat /\ length x4 = 4%nat /\ length y = length part
    /\ (Z.to_nat (be_val x2) <= length part)%nat /\ (Z.to_nat (be_val x2) = length part \/ (c < 3)%nat) /\ ((c <= 7)%nat -> y = replicate (length part) 0)
    /\ ((7 <= c)%nat -> be_val x2 = Z.of_nat (length part) /\ be_val x4 = crc32_checksum part) /\ ((c <= 1)%nat -> be_val x2 = 0).
Proof.
  intros Hc Hl. pose proof page_bounds as [_ HP]. unfold recordHeaderSize in Hl.
  set (b2 := be_bytes 2 (Z.of_nat (length part))). set (b4 := be_bytes 4 (crc32_checksum part)).
  assert (H2 : length b2 = 2%nat) by apply length_be_bytes. assert (H4 : length b4 = 4%nat) by apply length_be_bytes.
  assert (E2 : be_val b2 = Z.of_nat (length part)).
  { unfold b2. rewrite be_val_bytes. apply Z.mod_small. change (2 ^ (8 * Z.of_nat 2)) with (2 ^ 16). lia. }
  assert (E4 : be_val b4 = crc32_checksum part) by (unfold b4; rewrite be_val_bytes; apply Z.mod_small, (crc32_u32 part)).
  exists (zeroed (c - 1) b2), (zeroed (c - 1 - 2) b4), (zeroed (c - 1 - 2 - 4) part). rewrite !length_zeroed.
  pose proof (be_val_zeroed (c - 1) b2 (be_bytes_u8 _ _)) as Hb. rewrite E2 in Hb. split.
  { change (fragment typ part) with ([typ] ++ b2 ++ b4 ++ part). rewrite !zeroed_app, H2, H4, (zeroed_all c [typ]) by (cbn; lia). reflexivity. }
  split; [exact H2|]. split; [exact H4|]. split; [reflexivity|]. split; [lia|]. split.
  { destruct (Nat.lt_ge_cases c 3) as [H|H]; [auto|]. left. rewrite zeroed_all by lia. lia. }
  split; [intros H; replace (c - 1 - 2 - 4)%nat with 0%nat by lia; apply zeroed_0|]. split.
  - intros H. rewrite (zeroed_all (c - 1) b2), (zeroed_all (c - 1 - 2) b4) by lia. auto.
  - intros H. replace (c - 1)%nat with 0%nat by lia. rewrite zeroed_0. apply be_val_zeros.
Qed.

(** A cut in the first byte of the header leaves an empty fragment; behind the
    header, data of the same length and checksum. *)
Lemma torn_data_cases typ part c q : (recordHeaderSize + length part <= pageSize)%nat -> torn_data (fragment typ part) c q ->
  (length q <= length part)%nat /\ (c = 1%nat -> q = []) /\ ((recordHeaderSize <= c)%nat -> length q = length part /\ crc32_checksum q = crc32_checksum part).
Proof.
  intros Hl (Hc & Hq & Hcrc). cbv zeta in *. destruct (zeroed_fragment typ part c ltac:(lia) Hl) as (x2 & x4 & y & E & H2 & H4 & Hy & Hle & _ & _ & H7 & H1).
  rewrite E in Hq, Hcrc. destruct x2 as [|a [|a' [|]]]; try discriminate. destruct x4 as [|d1 [|d2 [|d3 [|d4 [|]]]]]; try discriminate. unfold slice in *. rewrite (Nat.add_comm recordHeaderSize), Nat.add_sub in Hq. unfold recordHeaderSize in *. cbn [app Nat.sub drop take] in Hq, Hcrc.
  rewrite drop_0 in Hq. rewrite take_0 in Hcrc. assert (Hlq : length q = Z.to_nat (be_val [a; a'])) by (rewrite Hq, length_take; lia). split; [lia|]. split.
  - intros Hc1. rewrite H1 in Hlq by lia. destruct q; [reflexivity|discriminate].
  - intros Hc7. destruct (H7 Hc7) as [E2 E4]. rewrite Hlq, E2, Hcrc, E4. split; [lia|reflexivity].
Qed.

Section torn.
Context {C : CompressLib}.
Implicit Types r : Reader bytes.

(** The reader at such a fragment: an error, or it takes it for a whole one. *)
Lemma next_loop_torn f i b r fc mask whole part c rest : let F := fragment (Z.lor (frag_type i whole) mask) part in
  comp_mask fc = Some mask -> (recordHeaderSize + length part <= pageSize)%nat -> (0 < c < length F)%nat -> r_rdr r = zeroed c F ++ rest ->
  (next_loop (S f) i b r).1 <> None \/ exists q, torn_data F c q /\ (length q <= length part)%nat /\
    next_loop (S f) i b r = (let r := adv r (replicate (length part - length q) 0 ++ rest) (recordHeaderSize + length q) (frag_type i whole) in
      if whole then match comp_Decode fc (b ++ q) with inl e => (Some (RdDecode e), r) | inr rec => (None, set_rec rec r) end else next_loop f (S i) (b ++ q) r).
Proof.
  cbv zeta. intros Hm Hl Hc Hr. destruct (header_split fc mask i whole Hm) as [Ht Hcm]. destruct (frag_type_cases i whole) as (H0 & Hv & Hw). set (typ := Z.lor (frag_type i whole) mask) in *.
  destruct (zeroed_fragment typ part c ltac:(lia) Hl) as (x2 & x4 & y & E & H2 & H4 & Hy & Hle & Hor & Hz & _). rewrite E, <- !app_assoc in Hr.
  set (len := Z.to_nat (be_val x2)) in *. set (q := take len y). assert (Hlq : length q = len) by (unfold q; rewrite length_take; lia).
  assert (Hdrop : drop len y = replicate (length part - len) 0).
  { destruct Hor as [-> |Hc3]; [rewrite drop_ge by lia; replace (length part - length part)%nat with 0%nat by lia; reflexivity|]. rewrite Hz by lia. apply drop_replicate. }
  cbn [next_loop io_ReadFull bytes_IoReader]. rewrite Hr, (ReadFull_app [typ]). cbn [be_val fold_left]. rewrite Z.add_0_l, Ht, Hcm, H0. cbn [adv r_rdr].
  rewrite (app_assoc x2 x4). pose proof (ReadFull_app (x2 ++ x4) (y ++ rest)) as H6. rewrite length_app, H2, H4 in H6. change (recordHeaderSize - 1)%nat with (2 + 4)%nat. rewrite H6.
  assert (S2 : slice (x2 ++ x4) 0 2 = x2) by (unfold slice; rewrite drop_0, take_app_length' by lia; reflexivity).
  assert (S4 : slice (x2 ++ x4) 2 6 = x4) by (unfold slice; rewrite (drop_app_length' x2), take_ge by lia; reflexivity).
  rewrite S2, S4. fold len. destruct (Nat.ltb_spec (pageSize - recordHeaderSize) len); [lia|]. cbn [adv r_rdr].
  assert (Hyr : y ++ rest = q ++ replicate (length part - len) 0 ++ rest) by (rewrite <- Hdrop, app_assoc; unfold q; rewrite take_drop; reflexivity).
  rewrite Hyr. pose proof (ReadFull_app q (replicate (length part - len) 0 ++ rest)) as Hq. rewrite Hlq in Hq. rewrite Hq.
  destruct (Z.eqb_spec (crc32_checksum q) (be_val x4)) as [Ecrc|]; cbn [negb]; [|left; discriminate].
  right. exists q. split; [split; [exact Hc|]; cbv zeta; rewrite E|split; [lia|]].
  - unfold slice. rewrite (Nat.add_comm recordHeaderSize), Nat.add_sub. unfold recordHeaderSize. destruct x2 as [|a [|a' [|]]]; try discriminate. destruct x4 as [|d1 [|d2 [|d3 [|d4 [|]]]]]; try discriminate.
    cbn [app Nat.sub drop take]. rewrite drop_0, take_0. split; [reflexivity|exact Ecrc].
  - rewrite Hv, Hw, Hlq. unfold adv. cbn [r_total r_rec r_err]. rewrite <- !Nat.add_assoc. reflexivity.
Qed.

(** Nothing but padding follows. *)
Lemma next_loop_zeros f i b r a : (0 < a <= pageSize)%nat -> (r_total r mod pageSize = a mod pageSize)%nat -> r_rdr r = replicate (pageSize - a) 0 -> (next_loop (S (S f)) i b r).1 <> None.
Proof.
  intros Ha Ht Hr. destruct (Nat.eq_dec a pageSize) as [->|Hn].
  - rewrite Nat.sub_diag in Hr. cbn [replicate] in Hr. cbn [next_loop io_ReadFull bytes_IoReader]. rewrite Hr. discriminate.
  - rewrite (Nat.mod_small a) in Ht by lia. rewrite (next_loop_pad (S f) i b r a []); [|lia|exact Ht|rewrite app_nil_r, pad_pos by lia; exact Hr].
    cbn [next_loop io_ReadFull bytes_IoReader]. cbn [adv r_rdr ReadFull Nat.eqb]. discriminate.
Qed.

(** A record that was cut: the part of [enc] in its last fragment is torn ([b] was read before). *)
Definition torn_record (fc : ctype) (b enc x : bytes) : Prop :=
  exists p part q typ c, enc = p ++ part /\ (recordHeaderSize + length part <= pageSize)%nat /\ torn_data (fragment typ part) c q /\ comp_Decode fc (b ++ p ++ q) = inr x.

Lemma frags_torn fc a i fs enc a' : frags fc a i fs enc a' -> forall f b r m, (a < pageSize)%nat -> (m < length fs)%nat -> (m = 0 -> a = 0)%nat -> (length fs + pageSize < f)%nat ->
  r_rdr r = take m fs ++ pad ((a + m) mod pageSize) -> (r_total r mod pageSize = a)%nat ->
  (next_loop f i b r).1 <> None \/
  exists x r' a2, torn_record fc b enc x /\ next_loop f i b r = (None, r') /\ r_rec r' = x /\ (0 < a2 <= pageSize)%nat
    /\ r_rdr r' = replicate (pageSize - a2) 0 /\ (r_total r' mod pageSize = a2 mod pageSize)%nat /\ r_err r' = r_err r /\ (r_curRecTyp r' = recFull \/ r_curRecTyp r' = recLast).
Proof.
  pose proof page_bounds as [HP _].
  assert (Hone : forall whole part mask a i r m, (a + recordHeaderSize + length part <= pageSize)%nat -> (0 < m < recordHeaderSize + length part)%nat ->
    r_rdr r = take m (fragment (Z.lor (frag_type i whole) mask) part) ++ pad ((a + m) mod pageSize) ->
    r_rdr r = zeroed m (fragment (Z.lor (frag_type i whole) mask) part) ++ replicate (pageSize - (a + recordHeaderSize + length part)) 0).
  { intros whole part mask a0 i0 r m Hl Hmm Hr. rewrite Hr. unfold zeroed. rewrite length_fragment, <- app_assoc, <- replicate_add. f_equal.
    unfold recordHeaderSize in *. rewrite Nat.mod_small, pad_pos by lia. f_equal. lia. }
  induction 1 as [a i part mask Hm Hl | a i part mask fs rest a' Hm Hl Hf IH]; intros f b r m Ha Hmf Hm0 Hfu Hr Ht.
  - destruct m as [|m].
    { left. rewrite (Hm0 eq_refl), take_0 in Hr. cbn [Nat.add app] in Hr. rewrite Nat.Div0.mod_0_l, pad_0 in Hr. destruct f; [discriminate|]. cbn [next_loop io_ReadFull bytes_IoReader]. rewrite Hr. discriminate. }
    rewrite length_fragment in Hmf, Hfu. apply (Hone true part mask a i r (S m) Hl ltac:(lia)) in Hr.
    destruct f as [|f]; [lia|]. destruct (next_loop_torn f i b r fc mask true part (S m) _ Hm ltac:(lia) ltac:(rewrite length_fragment; lia) Hr) as [He|(q & Hq & Hlq & E)]; [left; exact He|].
    cbv zeta in E. destruct (comp_Decode fc (b ++ q)) as [e|x] eqn:Ed; [left; rewrite E; discriminate|]. right. eexists x, _, (a + recordHeaderSize + length q)%nat. split; [|split; [exact E|]].
    { exists [], part, q, (Z.lor (frag_type i true) mask), (S m). split; [reflexivity|]. split; [lia|]. auto. }
    cbn [set_rec adv r_rec r_rdr r_total r_err r_curRecTyp]. split; [reflexivity|]. unfold recordHeaderSize in *. split; [lia|]. split; [rewrite <- replicate_add; f_equal; lia|].
    split; [rewrite <- Nat.Div0.add_mod_idemp_l, Ht; f_equal; lia|]. split; [reflexivity|]. unfold frag_type. destruct (i =? 0)%nat; auto.
  - destruct m as [|m].
    { left. rewrite (Hm0 eq_refl), take_0 in Hr. cbn [Nat.add app] in Hr. rewrite Nat.Div0.mod_0_l, pad_0 in Hr. destruct f; [discriminate|]. cbn [next_loop io_ReadFull bytes_IoReader]. rewrite Hr. discriminate. }
    rewrite length_app, length_fragment in *. set (F := fragment (Z.lor (frag_type i false) mask) part) in *. assert (HF : length F = (recordHeaderSize + length part)%nat) by apply length_fragment.
    destruct (Nat.lt_ge_cases (S m) (recordHeaderSize + length part)) as [Hlt|Hge].
    + rewrite take_app_le in Hr by lia. left. apply (Hone false part mask a i r (S m) ltac:(lia) ltac:(lia)) in Hr. destruct f as [|[|[|f]]]; try lia.
      destruct (next_loop_torn (S (S f)) i b r fc mask false part (S m) _ Hm ltac:(lia) ltac:(fold F; lia) Hr) as [He|(q & Hq & Hlq & E)]; [exact He|]. cbv zeta in E. rewrite E.
      apply (next_loop_zeros f _ _ _ (a + recordHeaderSize + length q)); cbn [adv r_rdr r_total]; unfold recordHeaderSize in *; [lia|rewrite <- Nat.Div0.add_mod_idemp_l, Ht; f_equal; lia|].
      rewrite <- replicate_add. f_equal. lia.
    + rewrite take_app_ge in Hr by lia. rewrite HF, <- app_assoc in Hr. destruct f as [|f]; [lia|]. rewrite (next_loop_fragment f i b r fc mask false part _ Hm) by (lia || exact Hr). cbv zeta.
      set (r1 := adv r _ _ _). destruct (IH f (b ++ part) r1 (S m - (recordHeaderSize + length part))%nat ltac:(lia) ltac:(lia) ltac:(lia) ltac:(unfold recordHeaderSize in *; lia)) as [He|(x & r' & a2 & Hx & E & Hrest)].
      * unfold r1. cbn [adv r_rdr]. do 2 f_equal. rewrite Nat.add_0_l, <- (Nat.Div0.mod_add (_ - _) 1 pageSize). f_equal. lia.
      * unfold r1. cbn [adv r_total]. rewrite <- Nat.Div0.add_mod_idemp_l, Ht. rewrite Nat.add_assoc, Hl. apply Nat.Div0.mod_same.
      * left. exact He.
      * right. exists x, r', a2. split; [|split; [exact E|exact Hrest]]. destruct Hx as (p & pt & q & typ & c & -> & Hpt & Hq & Hd). exists (part ++ p), pt, q, typ, c. rewrite <- !app_assoc in *. auto.
Qed.

(** ** A log cut short *)

(** What is read for the record [rec] when it was cut. *)
Definition torn_of (rec x : bytes) : Prop := exists fc enc, comp_Decode fc enc = inr rec /\ torn_record fc [] enc x.

(** The records kept of [recs], and at most one that stands for the next, which was cut. *)
Definition torn_tail (recs kept extra : list bytes) : Prop :=
  kept `prefix_of` recs /\ (extra = [] \/ exists rec x, extra = [x] /\ (kept ++ [rec]) `prefix_of` recs /\ torn_of rec x).

Lemma torn_tail_app recs kept extra recs' : torn_tail recs kept extra -> torn_tail (recs ++ recs') kept extra.
Proof.
  intros [H1 H2]. split; [apply prefix_app_r; exact H1|]. destruct H2 as [->|(rec & x & -> & H2 & H3)]; [auto|]. right. exists rec, x. split; [reflexivity|]. split; [apply prefix_app_r; exact H2|exact H3].
Qed.

Lemma laid_content bs recs a : laid bs recs a -> content bs recs a.
Proof. induction 1; [apply content_nil|eapply content_rec; eassumption|apply content_pad; assumption]. Qed.

Lemma read_pad_end r a : (a <= pageSize)%nat -> at_page r a -> calm r -> r_rdr r = pad (a mod pageSize) -> read_seq r [] None.
Proof.
  pose proof page_bounds as [HP _]. intros Ha Hp Hc Hr. unfold at_page in Hp. assert (Hend : forall r, calm r -> r_rdr r = [] -> read_seq r [] None).
  { intros r0 Hc0 Hr0. destruct (Next_end r0 Hc0 Hr0) as (r' & E & <-). apply read_end. exact E. }
  destruct (Nat.eq_dec (a mod pageSize) 0) as [E|E]; [rewrite E in Hr; exact (Hend r Hc Hr)|]. pose proof (Nat.mod_upper_bound a pageSize ltac:(lia)) as Hm.
  eapply read_seq_next; [apply (Next_pad (a mod pageSize) r []); [lia|exact Hp|rewrite app_nil_r; exact Hr]|]. apply Hend; [apply calm_adv; auto|reflexivity].
Qed.

Lemma read_zeros_end r a : (0 < a <= pageSize)%nat -> at_page r a -> calm r -> r_rdr r = replicate (pageSize - a) 0 -> read_seq r [] None.
Proof.
  intros Ha Hp Hc Hr. apply (read_pad_end r a); [lia|exact Hp|exact Hc|]. rewrite Hr. destruct (Nat.eq_dec a pageSize) as [->|Hn]; [rewrite Nat.Div0.mod_same, Nat.sub_diag; reflexivity|].
  rewrite Nat.mod_small, pad_pos by lia. reflexivity.
Qed.

(** The record behind the whole ones is cut. *)
Lemma record_torn fc a fs enc a' rec r m : frags fc a 0 fs enc a' -> comp_Decode fc enc = inr rec -> (a < pageSize)%nat -> (0 < m < length fs)%nat ->
  r_rdr r = take m fs ++ pad ((a + m) mod pageSize) -> at_page r a -> calm r ->
  exists extra err, read_seq r extra err /\ (extra = [] \/ exists x, extra = [x] /\ torn_of rec x).
Proof.
  intros Hf Hd Ha Hm Hr Hp Hc. unfold at_page in Hp. rewrite (Nat.mod_small a) in Hp by exact Ha. set (fuel := (S (length (r_rdr r)) + length fs + pageSize)%nat).
  assert (En : nextNew r = next_loop fuel 0 [] r) by (apply next_loop_fuel; cbn [io_left bytes_IoReader]; unfold fuel; lia).
  destruct (frags_torn fc a 0 fs enc a' Hf fuel [] r m Ha ltac:(lia) ltac:(lia) ltac:(unfold fuel; lia) Hr Hp) as [He|(x & r' & a2 & Hx & E & Ex & Ha2 & Hr' & Ht' & He' & Hty)].
  - rewrite <- En in He. destruct (read_stuck r He) as [err Hs]. exists [], err. auto.
  - exists [x], None. split; [|right; exists x; split; [reflexivity|]; exists fc, enc; auto]. destruct Hc as [Hc _]. rewrite <- Ex.
    assert (Hset : set_err None r' = r') by (rewrite Hc in He'; destruct r'; cbn in He'; subst; reflexivity). apply (read_more r r' [] None).
    + unfold Reader_Next. rewrite En, E, Hset. reflexivity.
    + apply (read_zeros_end r' a2 Ha2 Ht'); [|exact Hr']. split; [congruence|]. destruct Hty as [-> | ->]; reflexivity.
Qed.

Lemma laid_torn bs recs a : laid bs recs a -> forall n r, (n <= length bs)%nat -> r_rdr r = take n bs ++ pad (n mod pageSize) -> at_page r 0 -> calm r ->
  exists kept extra err, read_seq r (kept ++ extra) err /\ torn_tail recs kept extra.
Proof.
  pose proof page_bounds as [HP _]. induction 1 as [|fc bs recs a fs enc a' rec Hl IH Hf Hd|bs recs a Hl IH]; intros n r Hn Hr Hp Hc.
  - exists [], [], None. cbn in Hn. replace n with 0%nat in Hr by lia. split; [|split; [reflexivity|auto]]. apply (read_pad_end r 0); [lia|exact Hp|exact Hc|exact Hr].
  - pose proof (laid_content _ _ _ Hl) as Hb. rewrite length_app in Hn. destruct (Nat.le_gt_cases n (length bs)) as [Hle|Hgt].
    { rewrite take_app_le in Hr by lia. destruct (IH n r Hle Hr Hp Hc) as (kept & extra & err & Hs & Ht). exists kept, extra, err. split; [exact Hs|]. apply torn_tail_app. exact Ht. }
    set (m := (n - length bs)%nat). assert (Hmod : (n mod pageSize = (a + m) mod pageSize)%nat).
    { rewrite <- Nat.Div0.add_mod_idemp_l, <- (c_len _ _ _ Hb), Nat.Div0.add_mod_idemp_l. f_equal. lia. }
    rewrite take_app_ge, Hmod, <- app_assoc in Hr by lia. fold m in Hr. destruct (c_reads _ _ _ Hb r _ Hr Hp Hc) as (r1 & Hr1 & Hp1 & Hc1 & Hk).
    assert (Ha : (a < pageSize)%nat) by (inversion Hf; unfold recordHeaderSize in *; lia). destruct (Nat.eq_dec m (length fs)) as [Em|Em].
    + rewrite Em, take_ge in Hr1 by lia. destruct (Next_frags fc a fs enc a' r1 _ rec Hf Hd Hc1 Hr1) as (r2 & Hnx & Hrec & Hr2 & Ht2 & Hc2). exists (recs ++ [rec]), [], None.
      split; [|split; [reflexivity|auto]]. rewrite app_nil_r. apply Hk. rewrite <- Hrec. eapply read_more; [exact Hnx|]. destruct (frags_length _ _ _ _ _ _ Hf ltac:(lia)) as (Hm & _ & Ha').
      apply (read_pad_end r2 a' Ha'); [|exact Hc2|rewrite Hr2, Hm; reflexivity]. unfold at_page in *. rewrite Ht2, <- Hm, <- Nat.Div0.add_mod_idemp_l, Hp1, Nat.Div0.add_mod_idemp_l. reflexivity.
    + destruct (record_torn fc a fs enc a' rec r1 m Hf Hd Ha ltac:(lia) Hr1 Hp1 Hc1) as (extra & err & Hs & Hx). exists recs, extra, err. split; [apply Hk; exact Hs|]. split; [apply prefix_app_r; reflexivity|].
      destruct Hx as [->|(x & -> & Hx)]; [auto|]. right. exists rec, x. auto.
  - pose proof (laid_content _ _ _ Hl) as Hb. rewrite length_app in Hn. destruct (Nat.le_gt_cases n (length bs)) as [Hle|Hgt]; [rewrite take_app_le in Hr by lia; exact (IH n r Hle Hr Hp Hc)|].
    set (m := (n - length bs)%nat). assert (Hpos : (0 < m <= length (pad a))%nat) by lia. assert (Ha : (0 < a < pageSize)%nat).
    { unfold pad in Hpos. destruct (Nat.eqb_spec a 0); [cbn in Hpos; lia|]. rewrite length_replicate in Hpos. lia. }
    rewrite (pad_pos a), length_replicate in Hpos by lia. assert (Hmod : (n mod pageSize = (a + m) mod pageSize)%nat).
    { rewrite <- Nat.Div0.add_mod_idemp_l, <- (c_len _ _ _ Hb), Nat.Div0.add_mod_idemp_l. f_equal. lia. }
    rewrite take_app_ge, Hmod, <- app_assoc in Hr by lia. fold m in Hr. destruct (c_reads _ _ _ Hb r _ Hr Hp Hc) as (r1 & Hr1 & Hp1 & Hc1 & Hk).
    exists recs, [], None. split; [|split; [reflexivity|auto]]. apply Hk. apply (read_zeros_end r1 a); [lia|exact Hp1|exact Hc1|].
    rewrite Hr1, (pad_pos a), take_replicate, Nat.min_l by lia. rewrite <- (pad_pos a), (pad_split a m) by lia. reflexivity.
Qed.
End torn.

(** The segments when a crash leaves the first [n] bytes of them. *)
Fixpoint cut_files (n : nat) (segs : list bytes) : list bytes :=
  match segs with [] => [] | s :: segs => if (n <=? length s)%nat then [take n s] else s :: cut_files (n - length s) segs end.

Lemma padded_aligned s : (length s mod pageSize = 0)%nat -> padded s = s.
Proof. intros H. unfold padded. rewrite H. apply app_nil_r. Qed.

Lemma cut_files_padded prev last : Forall (fun s => length s mod pageSize = 0)%nat prev -> forall n,
  concat (map padded (cut_files n (prev ++ [last]))) = let bs := take n (concat (prev ++ [last])) in bs ++ pad (length bs mod pageSize).
Proof.
  cbv zeta. induction 1 as [|s prev Hs _ IH]; intros n; cbn [app cut_files].
  - cbn [concat]. rewrite app_nil_r. destruct (Nat.leb_spec n (length last)); cbn [map concat]; rewrite app_nil_r; [reflexivity|]. rewrite take_ge by lia. reflexivity.
  - cbn [concat]. destruct (Nat.leb_spec n (length s)); cbn [map concat].
    + rewrite app_nil_r, take_app_le by lia. reflexivity.
    + rewrite IH, padded_aligned, take_app_ge, length_app, app_assoc by (exact Hs || lia). rewrite <- (Nat.Div0.add_mod_idemp_l (length s)), Hs, Nat.add_0_l. reflexivity.
Qed.

Section durability.
Context {C : CompressLib}.

(** Reading whole segments, and segments that were cut. *)
Lemma segments_read prev last done cur a sizes : Forall2 (fun seg recs => content seg recs 0) prev done -> content last cur a ->
  read_seq (NewReader (NewSegmentBufReader (prev ++ [last]) sizes)) (concat done ++ cur) None
  /\ forall n, exists kept extra err, read_seq (NewReader (NewSegmentBufReader (cut_files n (prev ++ [last])) sizes)) (kept ++ extra) err /\ torn_tail (concat done ++ cur) kept extra.
Proof.
  intros Hp Hc. assert (Hal : Forall (fun s => length s mod pageSize = 0)%nat prev).
  { clear -Hp. induction Hp as [|s recs prev done Hs _ IH]; constructor; [|exact IH]. rewrite (c_len _ _ _ Hs). apply Nat.Div0.mod_0_l. }
  assert (Hall : content (concat (prev ++ [last])) (concat done ++ cur) a).
  { clear Hal. rewrite concat_app. cbn [concat]. rewrite app_nil_r. apply content_app; [|exact Hc]. clear Hc. induction Hp as [|s recs prev done Hs _ IH]; [apply content_nil|]. cbn [concat]. apply content_app; assumption. }
  set (bs := concat (prev ++ [last])) in *. assert (Hcut : forall n, sb_stream (NewSegmentBufReader (cut_files n (prev ++ [last])) sizes) = take n bs ++ pad (length (take n bs) mod pageSize)).
  { intros n. rewrite segments_stream. exact (cut_files_padded prev last Hal n). }
  split.
  - apply (read_stream (NewSegmentBufReader _ sizes)). cbn [io_stream sb_IoReaderOK]. assert (E : cut_files (S (length bs)) (prev ++ [last]) = prev ++ [last]).
    { unfold bs. clear. generalize (prev ++ [last]). intros l. induction l as [|s l IH]; [reflexivity|]. cbn [cut_files concat]. rewrite length_app. destruct (Nat.leb_spec (S (length s + length (concat l))) (length s)); [lia|]. f_equal. replace (S (length s + length (concat l)) - length s)%nat with (S (length (concat l))) by lia. exact IH. }
    rewrite <- E, Hcut, take_ge by lia. apply (content_read _ _ 0). pose proof (c_len _ _ _ Hall) as Hlen. pose proof (c_page _ _ _ Hall) as Ha. rewrite Hlen.
    destruct (Nat.eq_dec a pageSize) as [Ea|Ea]; [|rewrite Nat.mod_small by lia; exact (content_pad _ _ _ Hall)].
    rewrite Ea, Nat.Div0.mod_same, pad_0. pose proof (content_pad _ _ _ Hall) as H. rewrite Ea in H. unfold pad in H. rewrite Nat.sub_diag in H. destruct (pageSize =? 0)%nat; exact H.
  - intros n. destruct (reader_start (take n bs ++ pad (length (take n bs) mod pageSize))) as [Hst Hcl].
    destruct (laid_torn bs _ a (c_laid _ _ _ Hall) (length (take n bs)) (NewReader (take n bs ++ pad (length (take n bs) mod pageSize)))) as (kept & extra & err & Hs & Ht); [rewrite length_take; lia| |exact Hst|exact Hcl|].
    { cbn [NewReader r_rdr]. f_equal. rewrite length_take. destruct (Nat.le_gt_cases n (length bs)); [rewrite Nat.min_l by lia; reflexivity|rewrite Nat.min_r, !take_ge by lia; reflexivity]. }
    exists kept, extra, err. split; [|exact Ht]. apply (read_stream (NewSegmentBufReader _ sizes)). cbn [io_stream sb_IoReaderOK]. rewrite Hcut. exact Hs.
Qed.

Context {COK : CompressLibOK C}.

Lemma log_inv_read w done cur sizes : log_inv w done cur -> pending w = [] ->
  read_seq (NewReader (NewSegmentBufReader (files w) sizes)) (concat done ++ cur) None
  /\ forall n, exists kept extra err, read_seq (NewReader (NewSegmentBufReader (cut_files n (files w)) sizes)) (kept ++ extra) err /\ torn_tail (concat done ++ cur) kept extra.
Proof. intros [_ _ Hp Hc] Hpd. unfold contents in Hc. rewrite Hpd, app_nil_r in Hc. exact (segments_read _ _ _ _ _ sizes Hp Hc). Qed.
End durability.

(** ** Properties *)

(** C33: what is read of the segments of a log through [segmentBufReader], whatever
    amounts its buffer gives at a time.  Of the whole log it reads exactly the records, in order.
    Of the first [n] bytes of its segments, for any [n], it reads some of the first
    records unchanged, then at most one more, and stops: that one stands for the next record,
    whose last fragment was cut and completed with zeros so that
    its checksum still holds ([torn_of]; by [torn_data_cases] the cut fragment is
    read as empty if only its first byte is left, and with a checksum that
    collides if its header is left).  A reader of the plain bytes reads only records that were logged. *)
Theorem wal_truncation_keeps_prefix (C : CompressLib) (COK : CompressLibOK C) (size : nat) (t : ctype) (w0 : WL) (batches : list (list bytes)) (sizes : list nat) :
  NewSize size t [] = Some w0 -> Forall (fun rec => exists enc, comp_Encode t rec = inr enc) (concat batches) ->
  exists w, Logs batches w0 = Ret (None, w) /\ read_seq (NewReader (NewSegmentBufReader (files w) sizes)) (concat batches) None
    /\ (forall n, exists kept extra err, read_seq (NewReader (NewSegmentBufReader (cut_files n (files w)) sizes)) (kept ++ extra) err /\ torn_tail (concat batches) kept extra)
    /\ (forall n, exists recs err, read_seq (NewReader (take n (concat (files w)))) recs err /\ recs `prefix_of` concat batches).
Proof.
  intros Hn He. destruct (NewSize_inv _ _ _ Hn) as (Hi & Hp & Hcm). rewrite <- Hcm in He.
  destruct (Logs_ok batches w0 [] [] Hi Hp He) as (w & done & cur & E & Hi' & Hcat & Hp'). cbn in Hcat.
  destruct (log_inv_read w done cur sizes Hi' Hp') as [H1 H2]. rewrite Hcat in H1, H2. exists w. split; [exact E|]. split; [exact H1|]. split; [exact H2|].
  intros n. destruct (inv_files w done cur Hi' Hp') as [Hall _]. rewrite Hcat in Hall. destruct (content_cut _ _ _ n Hall) as (recs & err & Hpre & Hr). exists recs, err. auto.
Qed.

Lemma wal_truncation_keeps_prefix_witness :
  exists w, Logs [[[1; 2]]; [[3; 4; 5]]] ex_wl = Ret (None, w) /\ read_seq (NewReader (NewSegmentBufReader (files w) [3%nat; 0%nat])) (concat [[[1; 2]]; [[3; 4; 5]]]) None
    /\ (forall n, exists kept extra err, read_seq (NewReader (NewSegmentBufReader (cut_files n (files w)) [3%nat; 0%nat])) (kept ++ extra) err /\ torn_tail (concat [[[1; 2]]; [[3; 4; 5]]]) kept extra)
    /\ (forall n, exists recs err, read_seq (NewReader (take n (concat (files w)))) recs err /\ recs `prefix_of` concat [[[1; 2]]; [[3; 4; 5]]]).
Proof.
  apply (wal_truncation_keeps_prefix stored_lib stored_lib_ok (2 * pageSize) CSnappy ex_wl); [apply NewSize_ex|].
  repeat constructor; eexists; reflexivity.
Defined.

(** A record cut behind the first byte of its header is read as an empty record, which was never logged. *)
Lemma empty_record_invented : let r := Reader_Next (NewReader (NewSegmentBufReader [take 1 (fragment recFull [1; 2; 3])] [])) in
  r.1 = true /\ r_rec r.2 = [].
Proof. split; vm_compute; reflexivity. Qed.
