(* ===== verification/HeadWal.v ===== *)
(** * What a commit logs and what a restart reads: [headAppender.log] of
    [tsdb/head_append.go] and the decoding goroutine of [Head.loadWAL] of
    [tsdb/head_wal.go]

    [log] is written against an interface: any operation that appends a record
    to the state of a log or fails.  The write-ahead log of [Wlog.v] is an
    instance, and the decoder gets the records as its [Reader] hands them out, which
    reads the segments through the [segmentBufReader] of [SegmentReader.v]. *)

From stdpp Require Import base list numbers.
From Stdlib Require Import ZArith Lia.
From S2P Require Import Prelude Encoding Labels Tombstones Record Wlog SegmentReader.

(** ** Logging a commit *)

Record Exemplar := mkExemplar { e_Labels : bytes; e_Value : Z; e_Ts : Z; e_HasTs : bool }.
Record exemplarWithSeriesRef := mkExWithRef { ews_ref : Z; ews_exemplar : Exemplar }.

(** The fields of [headAppender] that [log] reads. *)
Record headAppender := mkAppender {
  a_seriesRefs : list RefSeries;
  a_metadata : list RefMetadata;
  a_samples : list RefSample;
  a_histograms : list RefHistogramSample;
  a_floatHistograms : list RefFloatHistogramSample;
  a_exemplars : list exemplarWithSeriesRef }.

Definition exemplarsForEncoding (es : list exemplarWithSeriesRef) : list RefExemplar :=
  map (fun e => mkRefExemplar (ews_ref e) (e_Ts (ews_exemplar e)) (e_Value (ews_exemplar e)) (e_Labels (ews_exemplar e))) es.

(** What an error says was being logged. *)
Inductive log_kind : Type :=
| LSeries | LMetadata | LSamples | LHistograms | LCustomHistograms | LFloatHistograms | LCustomFloatHistograms | LExemplars.

Class WalLog (W E : Type) := wal_Log : bytes -> W -> W * option E.

Section log.
Context {W E : Type} {L : WalLog W E}.

(** A step of [log]: the state of the log, or the error that ends the commit. *)
Definition LogM : Type := W -> outcome (W * option (log_kind * E)).

(** [if err := a.head.wal.Log(rec); err != nil { return ... }] and what follows. *)
Definition Log_rec (what : log_kind) (rec : bytes) (k : LogM) : LogM := fun w =>
  let '(w, err) := wal_Log rec w in
  match err with Some e => Ret (w, Some (what, e)) | None => k w end.

Definition log_exemplars (a : headAppender) : LogM := fun w =>
  if (0 <? length (a_exemplars a))%nat then
    outcome_bind (Encoder_Exemplars (exemplarsForEncoding (a_exemplars a)) []) (fun rec =>
      Log_rec LExemplars rec (fun w => Ret (w, None)) w)
  else Ret (w, None).

Definition log_floatHistograms (a : headAppender) : LogM := fun w =>
  if (0 <? length (a_floatHistograms a))%nat then
    let '(rec, customBucketsFloatHistograms) := Encoder_FloatHistogramSamples (a_floatHistograms a) [] in
    let k : LogM := fun w =>
      if (0 <? length customBucketsFloatHistograms)%nat
      then Log_rec LCustomFloatHistograms
             (Encoder_CustomBucketsFloatHistogramSamples customBucketsFloatHistograms []) (log_exemplars a) w
      else log_exemplars a w in
    if (0 <? length rec)%nat then Log_rec LFloatHistograms rec k w else k w
  else log_exemplars a w.

Definition log_histograms (a : headAppender) : LogM := fun w =>
  if (0 <? length (a_histograms a))%nat then
    let '(rec, customBucketsHistograms) := Encoder_HistogramSamples (a_histograms a) [] in
    let k : LogM := fun w =>
      if (0 <? length customBucketsHistograms)%nat
      then Log_rec LCustomHistograms
             (Encoder_CustomBucketsHistogramSamples customBucketsHistograms []) (log_floatHistograms a) w
      else log_floatHistograms a w in
    if (0 <? length rec)%nat then Log_rec LHistograms rec k w else k w
  else log_floatHistograms a w.

Definition log_samples (a : headAppender) : LogM := fun w =>
  if (0 <? length (a_samples a))%nat
  then Log_rec LSamples (Encoder_Samples (a_samples a) []) (log_histograms a) w
  else log_histograms a w.

Definition log_metadata (a : headAppender) : LogM := fun w =>
  if (0 <? length (a_metadata a))%nat
  then Log_rec LMetadata (Encoder_Metadata (a_metadata a) []) (log_samples a) w
  else log_samples a w.

(** [log], for a head that has a WAL.  The buffer it reuses ([rec[:0]]) is empty
    at every encoding. *)
Definition log (a : headAppender) : LogM := fun w =>
  if (0 <? length (a_seriesRefs a))%nat then
    outcome_bind (Encoder_Series (a_seriesRefs a) []) (fun rec => Log_rec LSeries rec (log_metadata a) w)
  else log_metadata a w.
End log.

(** ** Decoding the log *)
Inductive decoded : Type :=
| DSeries (l : list RefSeries)
| DSamples (l : list RefSample)
| DTombstones (l : list Stone)
| DExemplars (l : list RefExemplar)
| DHistograms (l : list RefHistogramSample)
| DFloatHistograms (l : list RefFloatHistogramSample)
| DMetadata (l : list RefMetadata).

Section load.
Context {V : VarintLib}.

Definition wrap_decoded {A} (c : list A -> decoded) (r : outcome (rec_error + list A))
    : outcome (rec_error + option decoded) :=
  outcome_bind r (fun r => Ret (match r with inl e => inl e | inr l => inr (Some (c l)) end)).

(** The [switch] on the type; [cap] is the capacity of the pooled slice, whose
    length is zero.  Other records are skipped. *)
Definition decode_one (dec : Decoder) (cap : Z) (rec : bytes) : outcome (rec_error + option decoded) :=
  let t := Decoder_Type rec in
  if t =? Series_t then wrap_decoded DSeries (Decoder_Series dec rec [])
  else if t =? Samples_t then wrap_decoded DSamples (Decoder_Samples rec [] cap)
  else if t =? Tombstones_t then wrap_decoded DTombstones (Decoder_Tombstones rec [])
  else if t =? Exemplars_t then wrap_decoded DExemplars (Decoder_Exemplars dec rec [])
  else if (t =? HistogramSamples_t) || (t =? CustomBucketsHistogramSamples_t)
  then wrap_decoded DHistograms (Decoder_HistogramSamples rec [])
  else if (t =? FloatHistogramSamples_t) || (t =? CustomBucketsFloatHistogramSamples_t)
  then wrap_decoded DFloatHistograms (Decoder_FloatHistogramSamples rec [])
  else if t =? Metadata_t then wrap_decoded DMetadata (Decoder_Metadata rec [])
  else Ret (inr None).

(** The loop over the records: what it sends to the replay, and the error that
    stopped it.  [caps] gives the capacity of the slice each record gets. *)
Fixpoint decode_wal (dec : Decoder) (caps : nat -> Z) (recs : list bytes) : outcome (list decoded * option rec_error) :=
  match recs with
  | [] => Ret ([], None)
  | rec :: recs' =>
      outcome_bind (decode_one dec (caps (length recs')) rec) (fun r =>
        match r with
        | inl e => Ret ([], Some e)
        | inr x =>
            outcome_bind (decode_wal dec caps recs') (fun '(ds, err) =>
              Ret (match x with Some y => y :: ds | None => ds end, err))
        end)
  end.
End load.

(** ** Loading the segments *)

(** Why [loadWAL] fails: a record that does not decode, or an error of the reader. *)
Inductive load_err : Type := LoadDecode (e : rec_error) | LoadRead (e : rd_err).
Definition load_error (decodeErr : option rec_error) (readErr : option rd_err) : option load_err :=
  match decodeErr with Some e => Some (LoadDecode e) | None => option_map LoadRead readErr end.

(** The loop of [Head.Init] over the segments, without a chunk snapshot: each has a
    reader of its own, and the first error ends it.  The result: what was sent to the
    replay, and the error. *)
Inductive load_segments {V : VarintLib} {C : CompressLib} (dec : Decoder) (caps : nat -> Z) (sizes : list nat) : list bytes -> outcome (list decoded * option load_err) -> Prop :=
| load_done : load_segments dec caps sizes [] (Ret ([], None))
| load_panic seg segs recs err : read_seq (NewReader (NewSegmentBufReader [seg] sizes)) recs err -> decode_wal dec caps recs = Panic ->
    load_segments dec caps sizes (seg :: segs) Panic
| load_failed seg segs recs err ds derr e : read_seq (NewReader (NewSegmentBufReader [seg] sizes)) recs err -> decode_wal dec caps recs = Ret (ds, derr) ->
    load_error derr err = Some e -> load_segments dec caps sizes (seg :: segs) (Ret (ds, Some e))
| load_more seg segs recs err ds derr res : read_seq (NewReader (NewSegmentBufReader [seg] sizes)) recs err -> decode_wal dec caps recs = Ret (ds, derr) ->
    load_error derr err = None -> load_segments dec caps sizes segs res ->
    load_segments dec caps sizes (seg :: segs) (outcome_bind res (fun '(ds', e) => Ret (ds ++ ds', e))).

(** ** The specification of [log] *)

(** A batch that the log accepts record by record, stopping at the first error. *)
Fixpoint log_all {W E} {L : WalLog W E} (recs : list (log_kind * bytes)) (w : W) : W * option (log_kind * E) :=
  match recs with
  | [] => (w, None)
  | (what, rec) :: recs' =>
      let '(w, err) := wal_Log rec w in
      match err with Some e => (w, Some (what, e)) | None => log_all recs' w end
  end.

(** What the records of a commit mean to the replay, in order. *)
Definition emit {A} (c : list A -> decoded) (l : list A) : list decoded :=
  match l with [] => [] | _ => [c l] end.
Definition replayed (a : headAppender) : list decoded :=
  emit DSeries (a_seriesRefs a) ++ emit DMetadata (a_metadata a) ++ emit DSamples (a_samples a)
  ++ emit DHistograms (exps hist_custom (a_histograms a)) ++ emit DHistograms (customs hist_custom (a_histograms a))
  ++ emit DFloatHistograms (exps fhist_custom (a_floatHistograms a))
  ++ emit DFloatHistograms (customs fhist_custom (a_floatHistograms a))
  ++ emit DExemplars (exemplarsForEncoding (a_exemplars a)).

Record wf_appender (a : headAppender) : Prop := {
  wfa_series : Forall wf_series (a_seriesRefs a);
  wfa_metadata : Forall wf_metadata (a_metadata a);
  wfa_samples : Forall wf_sample (a_samples a);
  wfa_hists : Forall wf_rhist (a_histograms a);
  wfa_fhists : Forall wf_rfhist (a_floatHistograms a);
  wfa_exemplars : Forall wf_exemplar (exemplarsForEncoding (a_exemplars a))
}.

Section spec.
Context {V : VarintLib} {VOK : VarintLibOK V} (dec : Decoder).

Definition decodes_to (r : log_kind * bytes) (d : decoded) : Prop :=
  forall cap, decode_one dec cap (snd r) = Ret (inr (Some d)).

(** [m] logs records that decode to [ds], to whatever log. *)
Definition implements (m : forall W E, WalLog W E -> @LogM W E) (ds : list decoded) : Prop :=
  exists rs, Forall2 decodes_to rs ds /\ forall W E (L : WalLog W E) w, m W E L w = Ret (log_all rs w).

Lemma implements_rec what rec d (k : forall W E, WalLog W E -> @LogM W E) ds :
  (forall cap, decode_one dec cap rec = Ret (inr (Some d))) -> implements k ds ->
  implements (fun W E L => Log_rec what rec (k W E L)) (d :: ds).
Proof.
  intros Hd (rs & Hrs & Hk). exists ((what, rec) :: rs). split; [constructor; assumption|].
  intros W E L w. unfold Log_rec. cbn [log_all]. destruct (wal_Log rec w) as [w' [e|]]; [reflexivity|]. apply Hk.
Qed.

(** A stage that has nothing to log is skipped. *)
Lemma implements_if {A} (l : list A) what rec c (k : forall W E, WalLog W E -> @LogM W E) ds :
  (l <> [] -> forall cap, decode_one dec cap rec = Ret (inr (Some (c l)))) -> implements k ds ->
  implements (fun W E L w => if (0 <? length l)%nat then Log_rec what rec (k W E L) w else k W E L w) (emit c l ++ ds).
Proof.
  intros Hd Hk. destruct l as [|x l]; cbn [length Nat.ltb Nat.leb emit app]; [exact Hk|].
  apply implements_rec; [apply Hd; discriminate|exact Hk].
Qed.

Lemma implements_ext m m' ds : implements m ds -> (forall W E L w, m' W E L w = m W E L w) -> implements m' ds.
Proof. intros (rs & Hrs & Hm) He. exists rs. split; [exact Hrs|]. intros. rewrite He. apply Hm. Qed.

Lemma log_exemplars_ok a : wf_appender a ->
  implements (fun W E L => log_exemplars a) (emit DExemplars (exemplarsForEncoding (a_exemplars a))).
Proof.
  intros Ha. destruct (exemplars_record dec _ [] [] (wfa_exemplars _ Ha)) as (bs & E & H).
  apply (implements_ext (fun W E L w => if (0 <? length (exemplarsForEncoding (a_exemplars a)))%nat
           then Log_rec LExemplars (Exemplars_t :: bs) (fun w => Ret (w, None)) w else Ret (w, None))).
  - rewrite <- (app_nil_r (emit _ _)). apply implements_if.
    + intros _ cap. unfold decode_one. cbn -[Decoder_Exemplars]. rewrite H. reflexivity.
    + exists []. split; [constructor|reflexivity].
  - intros. unfold log_exemplars, exemplarsForEncoding in *. rewrite E, length_map. reflexivity.
Qed.

(** The two records of the histograms of a commit. *)
Lemma implements_split {A} (es cs l : list A) t what what' rec crec c
    (dec_ : bytes -> list A -> outcome (rec_error + list A)) (k : forall W E, WalLog W E -> @LogM W E) ds :
  (forall bs l cap, dec_ (t :: bs) [] = Ret (inr l) -> decode_one dec cap (t :: bs) = Ret (inr (Some (c l)))) ->
  split_result es cs t [] dec_ (rec, cs) ->
  (cs <> [] -> forall cap, decode_one dec cap crec = Ret (inr (Some (c cs)))) -> implements k ds ->
  implements (fun W E L w =>
      let k' : LogM := fun w => if (0 <? length cs)%nat then Log_rec what' crec (k W E L) w else k W E L w in
      if (0 <? length rec)%nat then Log_rec what rec k' w else k' w)
    (emit c es ++ emit c cs ++ ds).
Proof.
  intros Hdec (_ & He & Hne) Hcs Hk. pose proof (implements_if cs what' crec c k ds Hcs Hk) as Hk'.
  cbn [fst] in *. destruct es as [|e es].
  - rewrite He by reflexivity. exact Hk'.
  - destruct (Hne ltac:(discriminate)) as (bs & -> & Hr). specialize (Hr []). cbn [app length Nat.ltb Nat.leb emit] in *.
    apply (implements_rec what (t :: bs) (c (e :: es))); [|exact Hk']. intros cap. apply Hdec. exact Hr.
Qed.

Lemma log_floatHistograms_ok a : wf_appender a ->
  implements (fun W E L => log_floatHistograms a)
    (emit DFloatHistograms (exps fhist_custom (a_floatHistograms a))
     ++ emit DFloatHistograms (customs fhist_custom (a_floatHistograms a))
     ++ emit DExemplars (exemplarsForEncoding (a_exemplars a))).
Proof.
  intros Ha. pose proof (log_exemplars_ok a Ha) as Hk. pose proof (wfa_fhists _ Ha) as Hw.
  unfold log_floatHistograms. destruct (a_floatHistograms a) as [|h hs]; [exact Hk|]. set (l := h :: hs) in *.
  pose proof (fhist_records l [] ltac:(discriminate) Hw) as Hsp.
  destruct (Encoder_FloatHistogramSamples l []) as [rec cs] eqn:E. pose proof Hsp as (Hcs & _). cbn in Hcs. subst cs.
  apply (implements_split (exps fhist_custom l) (customs fhist_custom l) l FloatHistogramSamples_t
           LFloatHistograms LCustomFloatHistograms rec
           (Encoder_CustomBucketsFloatHistogramSamples (customs fhist_custom l) [])
           DFloatHistograms Decoder_FloatHistogramSamples); [|exact Hsp| |exact Hk].
  - intros bs l' cap H. unfold decode_one. cbn -[Decoder_FloatHistogramSamples]. rewrite H. reflexivity.
  - intros Hne cap. destruct (custom_fhist_record _ [] Hne (proj2 (Forall_exps fhist_custom _ _ Hw))) as (bs & -> & H).
    unfold decode_one. cbn -[Decoder_FloatHistogramSamples]. rewrite H. reflexivity.
Qed.

Lemma log_histograms_ok a ds : wf_appender a -> implements (fun W E L => log_floatHistograms a) ds ->
  implements (fun W E L => log_histograms a)
    (emit DHistograms (exps hist_custom (a_histograms a)) ++ emit DHistograms (customs hist_custom (a_histograms a)) ++ ds).
Proof.
  intros Ha Hk. pose proof (wfa_hists _ Ha) as Hw.
  unfold log_histograms. destruct (a_histograms a) as [|h hs]; [exact Hk|]. set (l := h :: hs) in *.
  pose proof (hist_records l [] ltac:(discriminate) Hw) as Hsp.
  destruct (Encoder_HistogramSamples l []) as [rec cs] eqn:E. pose proof Hsp as (Hcs & _). cbn in Hcs. subst cs.
  apply (implements_split (exps hist_custom l) (customs hist_custom l) l HistogramSamples_t
           LHistograms LCustomHistograms rec (Encoder_CustomBucketsHistogramSamples (customs hist_custom l) [])
           DHistograms Decoder_HistogramSamples); [|exact Hsp| |exact Hk].
  - intros bs l' cap H. unfold decode_one. cbn -[Decoder_HistogramSamples]. rewrite H. reflexivity.
  - intros Hne cap. destruct (custom_hist_record _ [] Hne (proj2 (Forall_exps hist_custom _ _ Hw))) as (bs & -> & H).
    unfold decode_one. cbn -[Decoder_HistogramSamples]. rewrite H. reflexivity.
Qed.

Lemma log_samples_ok a ds : wf_appender a -> implements (fun W E L => log_histograms a) ds ->
  implements (fun W E L => log_samples a) (emit DSamples (a_samples a) ++ ds).
Proof.
  intros Ha Hk. apply implements_if; [|exact Hk]. intros Hne cap. pose proof (wfa_samples _ Ha) as Hw.
  destruct (a_samples a) as [|first l]; [congruence|].
  destruct (samples_record first l [] [] cap Hw) as (bs & -> & H).
  unfold decode_one. cbn -[Decoder_Samples]. rewrite H. destruct (_ <? _); reflexivity.
Qed.

Lemma log_metadata_ok a ds : wf_appender a -> implements (fun W E L => log_samples a) ds ->
  implements (fun W E L => log_metadata a) (emit DMetadata (a_metadata a) ++ ds).
Proof.
  intros Ha Hk. apply implements_if; [|exact Hk]. intros _ cap.
  destruct (Encoder_Metadata_record _ [] [] (wfa_metadata _ Ha)) as (bs & -> & H).
  unfold decode_one. cbn -[Decoder_Metadata]. rewrite H. reflexivity.
Qed.

Lemma log_ok a : wf_appender a -> implements (fun W E L => log a) (replayed a).
Proof.
  intros Ha. destruct (series_record dec _ [] [] (wfa_series _ Ha)) as (bs & E & H). unfold replayed.
  pose proof (log_floatHistograms_ok a Ha) as Hk.
  apply (log_histograms_ok _ _ Ha), (log_samples_ok _ _ Ha), (log_metadata_ok _ _ Ha) in Hk.
  apply (implements_ext (fun W E L w => if (0 <? length (a_seriesRefs a))%nat
           then Log_rec LSeries (Series_t :: bs) (log_metadata a) w else log_metadata a w)).
  - apply (implements_if (a_seriesRefs a)); [|exact Hk]. intros _ cap.
    unfold decode_one. cbn -[Decoder_Series]. rewrite H. reflexivity.
  - intros. unfold log. rewrite E. reflexivity.
Qed.

Lemma decode_all caps rs ds : Forall2 decodes_to rs ds -> decode_wal dec caps (map snd rs) = Ret (ds, None).
Proof.
  induction 1 as [|r d rs ds Hd _ IH]; [reflexivity|]. cbn [map decode_wal]. rewrite Hd. cbn [outcome_bind].
  rewrite IH. reflexivity.
Qed.
End spec.

(** ** Commits to the write-ahead log *)

(** A sequence of commits, which stops at the first error. *)
Fixpoint commits {W E} {L : WalLog W E} (l : list headAppender) (w : W) : outcome (W * option (log_kind * E)) :=
  match l with
  | [] => Ret (w, None)
  | a :: l' => outcome_bind (log a w) (fun '(w, err) =>
                 match err with Some e => Ret (w, Some e) | None => commits l' w end)
  end.

(** [WL.Log] with one record; a panic of the log stays one. *)
#[export] Instance wl_WalLog {C : CompressLib} : WalLog (outcome WL) wl_err := fun rec w =>
  match w with
  | Panic => (Panic, None)
  | Ret w => match Log [rec] w with Ret (e, w) => (Ret w, e) | Panic => (Panic, None) end
  end.

Lemma log_all_app {W E} {L : WalLog W E} r1 r2 w :
  log_all (r1 ++ r2) w = let '(w, err) := log_all r1 w in match err with Some e => (w, Some e) | None => log_all r2 w end.
Proof.
  revert w. induction r1 as [|[k r] r1 IH]; intros w; [reflexivity|]. cbn. destruct (wal_Log r w) as [w' [e|]]; [reflexivity|].
  apply IH.
Qed.

Lemma commits_ok {V : VarintLib} {VOK : VarintLibOK V} dec l : Forall wf_appender l ->
  exists rs, Forall2 (decodes_to dec) rs (concat (map replayed l))
    /\ forall W E (L : WalLog W E) (w : W), commits l w = Ret (log_all rs w).
Proof.
  induction 1 as [|a l Ha _ (rs & Hrs & Hl)]; [exists []; split; [constructor|reflexivity]|].
  destruct (log_ok dec a Ha) as (ra & Hra & Hlog). exists (ra ++ rs). split; [apply Forall2_app; assumption|].
  intros W E L w. cbn [commits]. rewrite Hlog, log_all_app. cbn [outcome_bind].
  destruct (log_all ra w) as [w' [e|]]; [reflexivity|]. apply Hl.
Qed.

Lemma log_all_Logs {C : CompressLib} (rs : list (log_kind * bytes)) : forall w w',
  Logs (map (fun r => [snd r]) rs) w = Ret (None, w') -> log_all rs (Ret w) = (Ret w', None).
Proof.
  induction rs as [|[k r] rs IH]; intros w w' E; [injection E as <-; reflexivity|].
  cbn [map Logs snd] in E. unfold ok_then, go_bind in E. cbn [log_all wal_Log]. unfold wal_Log, wl_WalLog.
  destruct (Log [r] w) as [[[e|] w1]|]; [discriminate| |discriminate]. apply IH. exact E.
Qed.

Lemma concat_singles {A} (rs : list A) : concat (map (fun r => [r]) rs) = rs.
Proof. induction rs as [|r rs IH]; [reflexivity|]. cbn. rewrite IH. reflexivity. Qed.

(** The records of a prefix of the log decode to a prefix of the batches. *)
Lemma prefix_decodes {V : VarintLib} dec rs ds recs : Forall2 (decodes_to dec) rs ds -> recs `prefix_of` map snd rs ->
  exists rs' ds', recs = map snd rs' /\ Forall2 (decodes_to dec) rs' ds' /\ ds' `prefix_of` ds.
Proof.
  intros Hrs [tl Hp]. exists (take (length recs) rs), (take (length recs) ds). split; [|split; [apply Forall2_take; exact Hrs|]].
  - rewrite <- firstn_map, Hp. symmetry. apply take_app_length.
  - exists (drop (length recs) ds). symmetry. apply take_drop.
Qed.

(** What follows records that decode is decoded on its own. *)
Lemma decode_app {V : VarintLib} dec caps rs ds extra : Forall2 (decodes_to dec) rs ds ->
  decode_wal dec caps (map snd rs ++ extra) = outcome_bind (decode_wal dec caps extra) (fun '(ds', err) => Ret (ds ++ ds', err)).
Proof.
  induction 1 as [|r d rs ds Hd _ IH]; cbn [map app decode_wal]; [destruct (decode_wal dec caps extra) as [[]|]; reflexivity|].
  rewrite Hd. cbn [outcome_bind]. rewrite IH. destruct (decode_wal dec caps extra) as [[]|]; reflexivity.
Qed.

(** ** A restart *)

Section restart.
Context {V : VarintLib} {C : CompressLib} (dec : Decoder) (caps : nat -> Z) (sizes : list nat).

(** What is loaded of [ds] and then of the records [extra] that follow. *)
Definition loaded_with (ds : list decoded) (extra : list bytes) (err : option rd_err) : outcome (list decoded * option load_err) :=
  outcome_bind (decode_wal dec caps extra) (fun '(ds', derr) => Ret (ds ++ ds', load_error derr err)).

Lemma load_one seg rs ds extra err : Forall2 (decodes_to dec) rs ds -> read_seq (NewReader (NewSegmentBufReader [seg] sizes)) (map snd rs ++ extra) err ->
  load_segments dec caps sizes [seg] (loaded_with ds extra err).
Proof.
  intros Hd Hr. pose proof (decode_app dec caps rs ds extra Hd) as E. unfold loaded_with. destruct (decode_wal dec caps extra) as [[ds' derr]|]; cbn [outcome_bind] in *; [|eapply load_panic; eassumption].
  destruct (load_error derr err) as [e|] eqn:Ee; [eapply load_failed; eassumption|]. rewrite <- (app_nil_r (ds ++ ds')). eapply (load_more dec caps sizes seg [] _ err _ derr (Ret ([], None))); [eassumption..|constructor].
Qed.

Lemma segment_read seg recs a : content seg recs a ->
  read_seq (NewReader (NewSegmentBufReader [seg] sizes)) recs None
  /\ forall n, (n <= length seg)%nat -> exists kept extra err, read_seq (NewReader (NewSegmentBufReader [take n seg] sizes)) (kept ++ extra) err /\ torn_tail recs kept extra.
Proof.
  intros Hc. destruct (segments_read [] seg [] recs a sizes (Forall2_nil_2 _ _ _) Hc) as [H1 H2]. split; [exact H1|]. intros n Hn. specialize (H2 n). cbn [app cut_files concat] in H2.
  destruct (Nat.leb_spec n (length seg)); [exact H2|lia].
Qed.

Lemma torn_tail_prepend r1 r2 kept extra : torn_tail r2 kept extra -> torn_tail (r1 ++ r2) (r1 ++ kept) extra.
Proof.
  intros [H1 H2]. split; [apply prefix_app; exact H1|]. destruct H2 as [->|(rec & x & -> & H2 & H3)]; [auto|]. right. exists rec, x. rewrite <- app_assoc. split; [reflexivity|]. split; [apply prefix_app; exact H2|exact H3].
Qed.

(** All segments, and the first [n] bytes of them. *)
Lemma load_all segs shares : Forall2 (fun seg recs => exists a, content seg recs a) segs shares -> forall rs ds, concat shares = map snd rs -> Forall2 (decodes_to dec) rs ds ->
  load_segments dec caps sizes segs (Ret (ds, None)).
Proof.
  induction 1 as [|seg recs segs shares [a Hc] _ IH]; intros rs ds E Hd; cbn [concat] in E.
  - destruct rs; [|discriminate]. inversion Hd. constructor.
  - symmetry in E. apply map_eq_app in E as (rs1 & rs2 & -> & <- & E). apply Forall2_app_inv_l in Hd as (ds1 & ds2 & Hd1 & Hd2 & ->).
    destruct (segment_read _ _ _ Hc) as [Hr _]. eapply (load_more dec caps sizes seg segs _ None ds1 None (Ret (ds2, None))); [exact Hr|apply decode_all; exact Hd1|reflexivity|]. apply (IH rs2); [auto|exact Hd2].
Qed.

Lemma load_cut segs shares : Forall2 (fun seg recs => exists a, content seg recs a) segs shares -> forall rs ds n, concat shares = map snd rs -> Forall2 (decodes_to dec) rs ds ->
  exists kept extra err ds', torn_tail (map snd rs) kept extra /\ ds' `prefix_of` ds /\ decode_wal dec caps kept = Ret (ds', None)
    /\ load_segments dec caps sizes (cut_files n segs) (loaded_with ds' extra err).
Proof.
  induction 1 as [|seg recs segs shares [a Hc] _ IH]; intros rs ds n E Hd; cbn [concat] in E.
  - destruct rs; [|discriminate]. exists [], [], None, []. split; [split; [reflexivity|auto]|]. split; [apply prefix_nil|]. split; [reflexivity|constructor].
  - symmetry in E. apply map_eq_app in E as (rs1 & rs2 & -> & <- & E). apply Forall2_app_inv_l in Hd as (ds1 & ds2 & Hd1 & Hd2 & ->). destruct (segment_read _ _ _ Hc) as [Hr Hcut].
    rewrite map_app. cbn [cut_files]. destruct (Nat.leb_spec n (length seg)) as [Hn|Hn].
    + destruct (Hcut n Hn) as (kept & extra & err & Hs & Ht). destruct (prefix_decodes dec rs1 ds1 kept Hd1 (proj1 Ht)) as (rs' & ds' & -> & Hd' & Hpre).
      exists (map snd rs'), extra, err, ds'. split; [apply torn_tail_app; exact Ht|]. split; [apply prefix_app_r; exact Hpre|]. split; [apply decode_all; exact Hd'|]. exact (load_one _ rs' ds' extra err Hd' Hs).
    + destruct (IH rs2 ds2 (n - length seg)%nat (eq_sym E) Hd2) as (kept & extra & err & ds' & Ht & Hpre & Hdk & Hl). exists (map snd rs1 ++ kept), extra, err, (ds1 ++ ds').
      split; [apply torn_tail_prepend; exact Ht|]. split; [apply prefix_app; exact Hpre|]. split; [rewrite (decode_app dec caps rs1 ds1 kept Hd1), Hdk; reflexivity|].
      replace (loaded_with (ds1 ++ ds') extra err) with (outcome_bind (loaded_with ds' extra err) (fun '(ds2, e) => Ret (ds1 ++ ds2, e))).
      * eapply load_more; [exact Hr|apply decode_all; exact Hd1|reflexivity|exact Hl].
      * unfold loaded_with. destruct (decode_wal dec caps extra) as [[]|]; [|reflexivity]. cbn. rewrite app_assoc. reflexivity.
Qed.
End restart.

(** ** Properties *)

(** what a commit logs is what a restart replays.  For every batch of
    series, metadata, samples, histograms, float histograms and exemplars,
    [log] appends a fixed sequence of records, in that order, stopping at the
    first record that the log refuses; and decoding these records gives the
    batch back, kind by kind and in order, the histograms with custom buckets
    after the others. *)
Theorem log_then_load_roundtrip (V : VarintLib) (VOK : VarintLibOK V) (dec : Decoder) (a : headAppender) :
  wf_appender a ->
  exists rs : list (log_kind * bytes),
    (forall W E (L : WalLog W E) (w : W), log a w = Ret (log_all rs w))
    /\ forall caps, decode_wal dec caps (map snd rs) = Ret (replayed a, None).
Proof.
  intros Ha. destruct (log_ok dec a Ha) as (rs & Hrs & Hlog). exists rs. split; [exact Hlog|].
  intros caps. apply decode_all. exact Hrs.
Qed.

Definition ex_labels : bytes := enc_labels [mkLabel [97] [98]].
Definition ex_hist (schema : Z) (cv : list Z) : Histogram :=
  mkHistogram 1 schema 0 2 9 7 [mkSpan (-1) 2] [] [3; -1] [] cv.
Definition ex_appender : headAppender :=
  mkAppender [mkRefSeries 1 ex_labels] [mkRefMetadata 1 2 [115] []]
    [mkRefSample 1 10 4; mkRefSample 2 (-10) 5]
    [mkRefHist 1 11 (ex_hist (-53) [6]); mkRefHist 2 12 (ex_hist 3 [])]
    [] [mkExWithRef 1 (mkExemplar ex_labels 6 7 true)].

Lemma ex_appender_wf : wf_appender ex_appender.
Proof.
  assert (Hl : wf_labelset ex_labels).
  { exists [mkLabel [97] [98]]. repeat constructor; vm_compute; congruence. }
  split; repeat constructor; try exact Hl; vm_compute; congruence.
Qed.

(** C1: commits are durable up to a crash.  A sequence of commits to a fresh
    write-ahead log writes its records without an error, and a restart loads all the
    batches from the segments, in order.  If a crash leaves the first [n] bytes of the
    segments, for any [n], the restart loads a prefix of the batches, and then what
    at most one more record decodes to: one that stands for the next record, which was cut
    ([torn_tail]: the zeros that fill its page complete its last fragment).  If that
    one is empty, as it is for a record of one fragment cut behind its first byte, nothing more is loaded. *)
Theorem commits_survive_crash (V : VarintLib) (VOK : VarintLibOK V) (C : CompressLib) (COK : CompressLibOK C)
    (dec : Decoder) (caps : nat -> Z) (size : nat) (t : ctype) (w0 : WL) (l : list headAppender) (sizes : list nat) :
  NewSize size t [] = Some w0 -> (forall rec, exists enc, comp_Encode t rec = inr enc) -> Forall wf_appender l ->
  exists w recs, commits l (Ret w0) = Ret (Ret w, None)
    /\ decode_wal dec caps recs = Ret (concat (map replayed l), None)
    /\ load_segments dec caps sizes (files w) (Ret (concat (map replayed l), None))
    /\ forall n, exists kept extra err ds, torn_tail recs kept extra /\ ds `prefix_of` concat (map replayed l) /\ decode_wal dec caps kept = Ret (ds, None)
        /\ load_segments dec caps sizes (cut_files n (files w)) (loaded_with dec caps ds extra err)
        /\ (extra = [] \/ extra = [[]] -> loaded_with dec caps ds extra err = Ret (ds, load_error None err)).
Proof.
  intros Hn He Hl. destruct (commits_ok dec l Hl) as (rs & Hrs & Hc).
  destruct (NewSize_inv _ _ _ Hn) as (Hi & Hp & Hcm).
  set (bs := map (fun r => [snd r]) rs). assert (Hbs : concat bs = map snd rs).
  { unfold bs. rewrite <- (map_map snd (fun r => [r])). apply concat_singles. }
  destruct (Logs_ok bs w0 [] [] Hi Hp) as (w & done & cur & E & Hi' & Hcat & Hp').
  { apply List.Forall_forall. intros rec _. rewrite Hcm. apply He. }
  destruct (inv_files w done cur Hi' Hp') as [_ Hseg]. cbn in Hcat.
  assert (Hsh : concat (done ++ [cur]) = map snd rs) by (rewrite concat_app; cbn; rewrite app_nil_r, Hcat; exact Hbs).
  exists w, (map snd rs). split; [rewrite Hc, (log_all_Logs rs w0 w E); reflexivity|]. split; [apply decode_all; exact Hrs|].
  split; [exact (load_all dec caps sizes _ _ Hseg rs _ Hsh Hrs)|]. intros n.
  destruct (load_cut dec caps sizes _ _ Hseg rs _ n Hsh Hrs) as (kept & extra & err & ds & Ht & Hpre & Hdk & Hload).
  exists kept, extra, err, ds. split; [exact Ht|]. split; [exact Hpre|]. split; [exact Hdk|]. split; [exact Hload|].
  intros [-> | ->]; unfold loaded_with; cbn; rewrite app_nil_r; reflexivity.
Qed.

Lemma commits_survive_crash_witness :
  exists w recs, commits [ex_appender; ex_appender] (Ret ex_wl) = Ret (Ret w, None)
    /\ decode_wal (V := binary_VarintLib) NewDecoder (fun _ => 0) recs = Ret (concat (map replayed [ex_appender; ex_appender]), None)
    /\ load_segments (V := binary_VarintLib) NewDecoder (fun _ => 0) [100%nat] (files w) (Ret (concat (map replayed [ex_appender; ex_appender]), None))
    /\ forall n, exists kept extra err ds, torn_tail recs kept extra /\ ds `prefix_of` concat (map replayed [ex_appender; ex_appender])
        /\ decode_wal (V := binary_VarintLib) NewDecoder (fun _ => 0) kept = Ret (ds, None)
        /\ load_segments (V := binary_VarintLib) NewDecoder (fun _ => 0) [100%nat] (cut_files n (files w)) (loaded_with (V := binary_VarintLib) NewDecoder (fun _ => 0) ds extra err)
        /\ (extra = [] \/ extra = [[]] -> loaded_with (V := binary_VarintLib) NewDecoder (fun _ => 0) ds extra err = Ret (ds, load_error None err)).
Proof.
  apply (commits_survive_crash binary_VarintLib binary_VarintLibOK stored_lib stored_lib_ok NewDecoder (fun _ => 0)
           (2 * pageSize) CSnappy ex_wl); [apply NewSize_ex| |].
  - intros [|x rec]; eexists; reflexivity.
  - exact (Forall_cons_2 _ _ _ ex_appender_wf (Forall_cons_2 _ _ _ ex_appender_wf (Forall_nil_2 _))).
Defined.
