(* ===== verification/Alerting.v ===== *)
(** * Alerting rules: [rules/alerting.go], [Group.RestoreForState] of [rules/group.go]

    An alerting rule keeps the alerts of its expression in a map from the hash
    of their labels; every evaluation moves each alert along the states
    inactive, pending and firing.  A [time.Time] is its distance from the zero
    time in nanoseconds, so that the zero time is [0]; a [time.Duration] is a
    64-bit number of nanoseconds.  The result of the query, the hash of a label
    set and the expansion of templates are parameters.  The iteration over a Go
    map takes any order; where only the order of the output depends on it, the
    order of [map_to_list] is taken. *)

From stdpp Require Import base list numbers gmap.
From Stdlib Require Import ZArith Lia Sorting.Sorted.
From Stdlib Require Import SpecFloat.
From S2P Require Import Prelude Encoding Labels.

(** ** Time *)

(** [t.Sub(u)] saturates; [t.Add(d)] does not. *)
Definition sat64 (z : Z) : Z := Z.max MinInt64 (Z.min MaxInt64 z).
Definition time_Sub (t u : Z) : Z := sat64 (t - u).
Definition time_Add (t d : Z) : Z := t + d.
Definition IsZero (t : Z) : bool := t =? 0.
Definition After (t u : Z) : bool := u <? t.
Definition Before (t u : Z) : bool := t <? u.

Definition Second : Z := 10 ^ 9.
Definition Minute : Z := 60 * Second.
(** Seconds from the zero time, which begins the year 1, to the Unix epoch. *)
Definition unixEpoch : Z := 62135596800.
Definition time_Unix (t : Z) : Z := Z.div t Second - unixEpoch.
Definition time_of_Unix (s : Z) : Z := i64 (s + unixEpoch) * Second.
(** [timestamp.FromTime]: milliseconds since the epoch. *)
Definition FromTime (t : Z) : Z := i64 (i64 (time_Unix t * 1000) + Z.quot (t mod Second) 1000000).

(** ** Alerts *)
Inductive AlertState : Type := StateInactive | StatePending | StateFiring.
#[export] Instance alert_state_eq_dec : EqDecision AlertState.
Proof. solve_decision. Defined.

(** ["inactive"], ["pending"], ["firing"] *)
Definition AlertState_String (s : AlertState) : bytes :=
  match s with
  | StateInactive => [105; 110; 97; 99; 116; 105; 118; 101]
  | StatePending => [112; 101; 110; 100; 105; 110; 103]
  | StateFiring => [102; 105; 114; 105; 110; 103]
  end.

Record Alert := mkAlert {
  al_State : AlertState;
  al_Labels : bytes; al_Annotations : bytes;
  al_Value : float64;
  al_ActiveAt : Z; al_FiredAt : Z; al_ResolvedAt : Z; al_LastSentAt : Z; al_ValidUntil : Z;
  al_KeepFiringSince : Z }.

Definition set_State s a := mkAlert s (al_Labels a) (al_Annotations a) (al_Value a) (al_ActiveAt a) (al_FiredAt a)
  (al_ResolvedAt a) (al_LastSentAt a) (al_ValidUntil a) (al_KeepFiringSince a).
Definition set_Value v an a := mkAlert (al_State a) (al_Labels a) an v (al_ActiveAt a) (al_FiredAt a)
  (al_ResolvedAt a) (al_LastSentAt a) (al_ValidUntil a) (al_KeepFiringSince a).
Definition set_ActiveAt t a := mkAlert (al_State a) (al_Labels a) (al_Annotations a) (al_Value a) t (al_FiredAt a)
  (al_ResolvedAt a) (al_LastSentAt a) (al_ValidUntil a) (al_KeepFiringSince a).
Definition set_FiredAt t a := mkAlert (al_State a) (al_Labels a) (al_Annotations a) (al_Value a) (al_ActiveAt a) t
  (al_ResolvedAt a) (al_LastSentAt a) (al_ValidUntil a) (al_KeepFiringSince a).
Definition set_ResolvedAt t a := mkAlert (al_State a) (al_Labels a) (al_Annotations a) (al_Value a) (al_ActiveAt a) (al_FiredAt a)
  t (al_LastSentAt a) (al_ValidUntil a) (al_KeepFiringSince a).
Definition set_Sent t u a := mkAlert (al_State a) (al_Labels a) (al_Annotations a) (al_Value a) (al_ActiveAt a) (al_FiredAt a)
  (al_ResolvedAt a) t u (al_KeepFiringSince a).
Definition set_KeepFiringSince t a := mkAlert (al_State a) (al_Labels a) (al_Annotations a) (al_Value a) (al_ActiveAt a) (al_FiredAt a)
  (al_ResolvedAt a) (al_LastSentAt a) (al_ValidUntil a) t.

Definition needsSending (a : Alert) (ts resendDelay : Z) : bool :=
  if decide (al_State a = StatePending) then false
  else if After (al_ResolvedAt a) (al_LastSentAt a) then true
  else Before (time_Add (al_LastSentAt a) resendDelay) ts.

(** The fields of [AlertingRule] that evaluation reads and writes. *)
Record AlertingRule := mkRule {
  r_name : bytes;
  r_holdDuration : Z;
  r_keepFiringFor : Z;
  r_labels : bytes;
  r_annotations : bytes;
  r_restored : bool;
  r_active : gmap Z Alert }.

Definition set_active (m : gmap Z Alert) (r : AlertingRule) : AlertingRule :=
  mkRule (r_name r) (r_holdDuration r) (r_keepFiringFor r) (r_labels r) (r_annotations r) (r_restored r) m.
Definition SetRestored (b : bool) (r : AlertingRule) : AlertingRule :=
  mkRule (r_name r) (r_holdDuration r) (r_keepFiringFor r) (r_labels r) (r_annotations r) b (r_active r).

Definition NewAlertingRule (name : bytes) (hold keepFiringFor : Z) (labels annotations : bytes) (restored : bool) : AlertingRule :=
  mkRule name hold keepFiringFor labels annotations restored ∅.

(** [promql.Sample] *)
Record Sample := mkSample { smp_Metric : bytes; smp_T : Z; smp_F : float64 }.

(** ["__name__"], ["alertname"], ["alertstate"], ["ALERTS"], ["ALERTS_FOR_STATE"] *)
Definition MetricName : bytes := [95; 95; 110; 97; 109; 101; 95; 95].
Definition AlertName : bytes := [97; 108; 101; 114; 116; 110; 97; 109; 101].
Definition alertStateLabel : bytes := [97; 108; 101; 114; 116; 115; 116; 97; 116; 101].
Definition alertMetricName : bytes := [65; 76; 69; 82; 84; 83].
Definition alertForStateMetricName : bytes := [65; 76; 69; 82; 84; 83; 95; 70; 79; 82; 95; 83; 84; 65; 84; 69].

Definition resolvedRetention : Z := 15 * Minute.

(** What evaluation takes from elsewhere: [labels.Labels.Hash] (of the xxhash
    module) and the expansion of a template for a sample. *)
Class AlertEnv := { Hash : bytes -> Z; expand : bytes -> Sample -> Z -> bytes -> bytes }.

Inductive eval_err : Type := ErrQuery | ErrSameLabelset | ErrLimit (limit n : Z).

Fixpoint set_all (lb : Builder) (ls : list Label) (f : bytes -> bytes) : outcome Builder :=
  match ls with
  | [] => Ret lb
  | l :: ls' => outcome_bind (b_Set lb (Name l) (f (Value l))) (fun lb => set_all lb ls' f)
  end.

Section alerting.
Context {AE : AlertEnv}.

(** The labels of the samples of the synthetic series. *)
Definition sample_labels (r : AlertingRule) (a : Alert) (metric : bytes) (state : option AlertState) : outcome bytes :=
  outcome_bind (NewBuilder (r_labels r)) (fun lb =>
  outcome_bind (Range (al_Labels a)) (fun ls =>
  outcome_bind (set_all lb ls (fun v => v)) (fun lb =>
  outcome_bind (b_Set lb MetricName metric) (fun lb =>
  outcome_bind (b_Set lb AlertName (r_name r)) (fun lb =>
  outcome_bind (match state with Some s => b_Set lb alertStateLabel (AlertState_String s) | None => Ret lb end) (fun lb =>
  outcome_bind (b_Labels lb) (fun '(m, _) => Ret m))))))).

Definition rule_sample (r : AlertingRule) (a : Alert) (ts : Z) : outcome Sample :=
  outcome_bind (sample_labels r a alertMetricName (Some (al_State a))) (fun m =>
    Ret (mkSample m (FromTime ts) (f64_of_int 1))).

Definition forStateSample (r : AlertingRule) (a : Alert) (ts : Z) (v : float64) : outcome Sample :=
  outcome_bind (sample_labels r a alertForStateMetricName None) (fun m => Ret (mkSample m (FromTime ts) v)).

(** The alert of a sample, with the hash of its labels. *)
Definition build_alert (r : AlertingRule) (ts : Z) (smpl : Sample) : outcome (Z * Alert) :=
  outcome_bind (b_Reset (smp_Metric smpl)) (fun lb =>
  outcome_bind (b_Del lb [MetricName]) (fun lb =>
  outcome_bind (Range (r_labels r)) (fun rls =>
  outcome_bind (set_all lb rls (expand (r_name r) smpl ts)) (fun lb =>
  outcome_bind (b_Set lb AlertName (r_name r)) (fun lb =>
  outcome_bind (Range (r_annotations r)) (fun ans =>
  let sb := fold_left (fun sb a => sb_Add (Name a) (expand (r_name r) smpl ts (Value a)) sb) ans (mkScratch [] []) in
  outcome_bind (sb_Labels sb) (fun '(annotations, _) =>
  outcome_bind (b_Labels lb) (fun '(lbs, _) =>
    Ret (Hash lbs, mkAlert StatePending lbs annotations (smp_F smpl) ts 0 0 0 0 0))))))))).

Fixpoint build_alerts (r : AlertingRule) (ts : Z) (res : list Sample) (alerts : gmap Z Alert)
    : outcome (eval_err + gmap Z Alert) :=
  match res with
  | [] => Ret (inr alerts)
  | smpl :: res' =>
      outcome_bind (build_alert r ts smpl) (fun '(h, a) =>
        match alerts !! h with
        | Some _ => Ret (inl ErrSameLabelset)
        | None => build_alerts r ts res' (<[h := a]> alerts)
        end)
  end.

(** The entry of a hash in [r.active] after the first loop. *)
Definition merge_alert (old new : option Alert) : option Alert :=
  match new with
  | None => old
  | Some a =>
      match old with
      | Some alert => if decide (al_State alert = StateInactive) then Some a
                      else Some (set_Value (al_Value a) (al_Annotations a) alert)
      | None => Some a
      end
  end.

(** The end of the second loop's body: a pending alert that has been active for
    long enough fires. *)
Definition maybe_fire (r : AlertingRule) (ts : Z) (a : Alert) : Alert :=
  if bool_decide (al_State a = StatePending) && (r_holdDuration r <=? time_Sub ts (al_ActiveAt a))
  then set_FiredAt ts (set_State StateFiring a) else a.

(** The second loop's body: what stays in the map, and the alert if it counts
    as active or pending. *)
Definition eval_one (r : AlertingRule) (ts : Z) (present : bool) (a : Alert) : option Alert * option Alert :=
  if present then
    let a := maybe_fire r ts (set_KeepFiringSince 0 a) in (Some a, Some a)
  else
    let '(a, keepFiring) :=
      if bool_decide (al_State a = StateFiring) && (0 <? r_keepFiringFor r) then
        let a := if IsZero (al_KeepFiringSince a) then set_KeepFiringSince ts a else a in
        (a, time_Sub ts (al_KeepFiringSince a) <? r_keepFiringFor r)
      else (a, false) in
    let deleted := bool_decide (al_State a = StatePending)
                   || (negb (IsZero (al_ResolvedAt a)) && (resolvedRetention <? time_Sub ts (al_ResolvedAt a))) in
    let a := if negb (bool_decide (al_State a = StateInactive)) && negb keepFiring
             then set_ResolvedAt ts (set_State StateInactive a) else a in
    if keepFiring then
      let a := maybe_fire r ts a in (if deleted then None else Some a, Some a)
    else (if deleted then None else Some a, None).

Fixpoint samples_of (r : AlertingRule) (ts : Z) (l : list Alert) : outcome (list Sample) :=
  match l with
  | [] => Ret []
  | a :: l' =>
      outcome_bind (rule_sample r a ts) (fun s1 =>
      outcome_bind (forStateSample r a ts (f64_of_int (time_Unix (al_ActiveAt a)))) (fun s2 =>
      outcome_bind (samples_of r ts l') (fun vec => Ret (s1 :: s2 :: vec))))
  end.

(** [Eval]; [query] is the result of the expression at [ts - queryOffset]. *)
Definition Eval (r : AlertingRule) (queryOffset ts : Z) (query : option (list Sample)) (limit : Z)
    : outcome ((eval_err + list Sample) * AlertingRule) :=
  match query with
  | None => Ret (inl ErrQuery, r)
  | Some res =>
      outcome_bind (build_alerts r ts res ∅) (fun x =>
        match x with
        | inl e => Ret (inl e, r)
        | inr alerts =>
            let active := merge merge_alert (r_active r) alerts in
            let out := map_imap (fun fp a => Some (eval_one r ts (bool_decide (is_Some (alerts !! fp))) a)) active in
            let r' := set_active (omap fst out) r in
            let counted := omap (fun e => snd (snd e)) (map_to_list out) in
            outcome_bind (if r_restored r then samples_of r (time_Add ts (- queryOffset)) counted else Ret []) (fun vec =>
              let numActivePending := Z.of_nat (length counted) in
              if (0 <? limit) && (limit <? numActivePending)
              then Ret (inl (ErrLimit limit numActivePending), set_active ∅ r')
              else Ret (inr vec, r'))
        end)
  end.

Definition state_rank (s : AlertState) : Z :=
  match s with StateInactive => 0 | StatePending => 1 | StateFiring => 2 end.
(** [State]: the maximum over the alerts. *)
Definition Rule_State (r : AlertingRule) : AlertState :=
  map_fold (fun _ a m => if state_rank m <? state_rank (al_State a) then al_State a else m) StateInactive (r_active r).

Definition ActiveAlerts (r : AlertingRule) : list Alert :=
  List.filter (fun a => IsZero (al_ResolvedAt a)) (map snd (map_to_list (r_active r))).

(** One alert in [sendAlerts]: its new state, and the copy to send. *)
Definition send_one (ts resendDelay interval : Z) (a : Alert) : Alert * option Alert :=
  if needsSending a ts resendDelay then
    let delta := if resendDelay <? interval then interval else resendDelay in
    let a := set_Sent ts (time_Add ts (i64 (4 * delta))) a in (a, Some a)
  else (a, None).
Definition sendAlerts (r : AlertingRule) (ts resendDelay interval : Z) : list Alert * AlertingRule :=
  let out := send_one ts resendDelay interval <$> r_active r in
  (omap (fun e => snd (snd e)) (map_to_list out), set_active (fst <$> out) r).
End alerting.

(** ** Restoring the time an alert became active, after a restart *)

(** The last sample of the series [ALERTS_FOR_STATE]: [t] in milliseconds, and
    [v], the stored Unix time, unless it is stale. *)
Definition restore_ActiveAt (hold grace ts t v : Z) : Z :=
  let downAt := time_of_Unix (Z.quot t 1000) in
  let restoredActiveAt := time_of_Unix v in
  let timeSpentPending := time_Sub downAt restoredActiveAt in
  let timeRemainingPending := i64 (hold - timeSpentPending) in
  if timeRemainingPending <=? 0 then restoredActiveAt
  else if timeRemainingPending <? grace then time_Add (time_Add ts grace) (- hold)
  else time_Add restoredActiveAt (time_Sub ts downAt).

(** [RestoreForState] for one rule; [series] finds the last sample by labels. *)
Definition restore_rule (r : AlertingRule) (grace ts : Z) (series : option (bytes -> option (Z * Z))) : AlertingRule :=
  if r_holdDuration r <? grace then SetRestored true r
  else match series with
       | None => SetRestored true r
       | Some find =>
           SetRestored true (set_active
             ((fun a => match find (al_Labels a) with
                        | Some (t, v) => set_ActiveAt (restore_ActiveAt (r_holdDuration r) grace ts t v) a
                        | None => a
                        end) <$> r_active r) r)
       end.

(** ** One evaluation, seen from one alert *)
Section proofs.
Context {AE : AlertEnv}.

(** What an evaluation does to the entry of a hash; [new] is the alert built
    from the result of the query, if there is one. *)
Definition entry_step (r : AlertingRule) (ts : Z) (old new : option Alert) : option Alert :=
  match merge_alert old new with
  | Some a => fst (eval_one r ts (bool_decide (is_Some new)) a)
  | None => None
  end.

Lemma omap_imap_lookup {A B C} (f : Z -> A -> B) (g : B -> option C) (m : gmap Z A) h :
  omap g (map_imap (fun k a => Some (f k a)) m) !! h = (m !! h) ≫= fun a => g (f h a).
Proof. rewrite lookup_omap, map_lookup_imap. destruct (m !! h); reflexivity. Qed.

(** A successful evaluation steps every entry. *)
Lemma Eval_ok r off ts query limit vec r' : Eval r off ts query limit = Ret (inr vec, r') ->
  exists res alerts, query = Some res /\ build_alerts r ts res ∅ = Ret (inr alerts)
    /\ r' = set_active (r_active r') r
    /\ forall h, r_active r' !! h = entry_step r ts (r_active r !! h) (alerts !! h).
Proof.
  unfold Eval. destruct query as [res|]; [|discriminate].
  destruct (build_alerts r ts res ∅) as [[e|alerts]|] eqn:E; [discriminate| |discriminate].
  cbn [outcome_bind]. destruct (if r_restored r then _ else _) as [v|]; [|discriminate]. cbn [outcome_bind].
  destruct (_ && _); [discriminate|]. intros [= <- <-]. exists res, alerts.
  split; [reflexivity|]. split; [exact E|]. split; [reflexivity|]. intros h. cbn [set_active r_active].
  rewrite omap_imap_lookup, lookup_merge. unfold diag_None, entry_step.
  destruct (r_active r !! h) as [old|], (alerts !! h) as [new|]; try reflexivity.
Qed.

(** A failed one leaves the entries alone, or drops them all. *)
Lemma Eval_err r off ts query limit e r' : Eval r off ts query limit = Ret (inl e, r') ->
  r' = r \/ r' = set_active ∅ r.
Proof.
  unfold Eval. destruct query as [res|]; [|intros [= _ <-]; auto].
  destruct (build_alerts r ts res ∅) as [[e1|alerts]|]; [intros [= _ <-]; auto| |discriminate].
  cbn [outcome_bind]. destruct (if r_restored r then _ else _) as [v|]; [|discriminate]. cbn [outcome_bind].
  destruct (_ && _); [|discriminate]. intros [= _ <-]. auto.
Qed.

(** The alerts built from the result are pending since now. *)
Definition fresh (ts : Z) (a : Alert) : Prop :=
  al_State a = StatePending /\ al_ActiveAt a = ts /\ al_FiredAt a = 0 /\ al_ResolvedAt a = 0
  /\ al_KeepFiringSince a = 0 /\ al_LastSentAt a = 0.

Lemma build_alert_fresh r ts smpl h a : build_alert r ts smpl = Ret (h, a) -> fresh ts a.
Proof.
  unfold build_alert, outcome_bind. intros H.
  repeat match type of H with
         | context [match ?o with Ret _ => _ | Panic => Panic end] => destruct o as [?|]; [|discriminate H]
         | context [let '(_, _) := ?p in _] => destruct p
         end.
  injection H as _ <-. repeat split.
Qed.

Lemma build_alerts_fresh r ts res alerts out : map_Forall (fun _ => fresh ts) alerts ->
  build_alerts r ts res alerts = Ret (inr out) -> map_Forall (fun _ => fresh ts) out.
Proof.
  revert alerts. induction res as [|smpl res IH]; intros alerts Ha; cbn [build_alerts].
  - intros [= <-]. exact Ha.
  - destruct (build_alert r ts smpl) as [[h a]|] eqn:E; [|discriminate]. cbn [outcome_bind].
    destruct (alerts !! h) eqn:El; [discriminate|]. apply IH. apply map_Forall_insert_2; [|exact Ha].
    eapply build_alert_fresh. exact E.
Qed.

Lemma Eval_fresh r ts res alerts h a : build_alerts r ts res ∅ = Ret (inr alerts) -> alerts !! h = Some a -> fresh ts a.
Proof. intros E Hl. exact (build_alerts_fresh r ts res ∅ alerts (map_Forall_empty _) E h a Hl). Qed.
End proofs.

(** ** The states of a rule over time *)

(** Evaluation, sending and restoring, at times that do not go back. *)
Inductive rule_step {AE : AlertEnv} : Z * AlertingRule -> Z * AlertingRule -> Prop :=
| step_eval now ts r off query limit x r' : now <= ts -> Eval r off ts query limit = Ret (x, r') ->
    rule_step (now, r) (ts, r')
| step_send now ts r resendDelay interval : now <= ts ->
    rule_step (now, r) (ts, snd (sendAlerts r ts resendDelay interval))
| step_restore now ts r grace series : now <= ts -> rule_step (now, r) (ts, restore_rule r grace ts series).

(** What holds of every alert of a rule: an inactive alert has fired and been
    resolved, a firing one has fired and not been resolved, a pending one
    neither; nothing lies in the future. *)
Definition alert_ok (now : Z) (a : Alert) : Prop :=
  0 <= al_KeepFiringSince a <= now /\ 0 <= al_LastSentAt a <= now /\
  match al_State a with
  | StateInactive => 0 < al_FiredAt a <= al_ResolvedAt a /\ al_ResolvedAt a <= now
  | StatePending => al_FiredAt a = 0 /\ al_ResolvedAt a = 0
  | StateFiring => 0 < al_FiredAt a <= now /\ al_ResolvedAt a = 0
  end.

Definition rule_ok (s : Z * AlertingRule) : Prop := 0 < fst s /\ map_Forall (fun _ => alert_ok (fst s)) (r_active (snd s)).

Section invariant.
Context {AE : AlertEnv}.

Lemma alert_ok_mono now ts a : now <= ts -> alert_ok now a -> alert_ok ts a.
Proof. unfold alert_ok. destruct (al_State a); lia. Qed.

Lemma maybe_fire_ok r ts a : 0 < ts -> alert_ok ts a -> alert_ok ts (maybe_fire r ts a).
Proof.
  intros Ht Ha. unfold maybe_fire. case_bool_decide as Hs; [|exact Ha]. destruct (_ <=? _); [|exact Ha].
  unfold alert_ok in *. rewrite Hs in Ha. cbn. lia.
Qed.

Lemma eval_one_ok r ts present a b : 0 < ts -> alert_ok ts a -> fst (eval_one r ts present a) = Some b -> alert_ok ts b.
Proof.
  intros Ht Ha. unfold eval_one. destruct present.
  - intros [= <-]. apply maybe_fire_ok; [exact Ht|]. unfold alert_ok in *. cbn. destruct (al_State a); lia.
  - case_bool_decide as Hf; cbn [andb].
    + destruct (0 <? r_keepFiringFor r).
      * set (a1 := if IsZero _ then _ else a).
        assert (H1 : alert_ok ts a1 /\ al_State a1 = StateFiring).
        { subst a1. destruct (IsZero _); [|auto]. unfold alert_ok in *. cbn. rewrite Hf in Ha |- *. split; [lia|reflexivity]. }
        clearbody a1. destruct H1 as [H1 Hs]. rewrite (bool_decide_eq_false_2 (al_State a1 = StatePending)),
          (bool_decide_eq_false_2 (al_State a1 = StateInactive)) by congruence.
        destruct (_ <? _); cbn [orb negb andb].
        -- destruct (_ && _); cbn; [discriminate|]. intros [= <-]. apply maybe_fire_ok; assumption.
        -- destruct (_ && _); cbn; [discriminate|]. intros [= <-]. unfold alert_ok in *. rewrite Hs in H1. cbn. lia.
      * rewrite (bool_decide_eq_false_2 (al_State a = StatePending)), (bool_decide_eq_false_2 (al_State a = StateInactive)) by congruence.
        cbn [orb negb andb]. destruct (_ && _); cbn; [discriminate|]. intros [= <-]. unfold alert_ok in *. rewrite Hf in Ha. cbn. lia.
    + case_bool_decide as Hp; cbn [orb]; [discriminate|].
      assert (Hi : al_State a = StateInactive) by (destruct (al_State a); congruence).
      rewrite (bool_decide_eq_true_2 _ Hi). cbn [negb andb]. destruct (_ && _); cbn; [discriminate|]. intros [= <-]. exact Ha.
Qed.

Lemma entry_step_ok r now ts old new b : 0 < now <= ts ->
  (forall a, old = Some a -> alert_ok now a) -> (forall a, new = Some a -> fresh ts a) ->
  entry_step r ts old new = Some b -> alert_ok ts b.
Proof.
  intros Ht Ho Hn. unfold entry_step. destruct (merge_alert old new) as [a|] eqn:E; [|discriminate].
  apply eval_one_ok; [lia|]. unfold merge_alert in E. destruct new as [n|].
  - specialize (Hn n eq_refl) as (Hs & _ & Hf & Hr & Hk & Hl).
    assert (Hnew : alert_ok ts n) by (unfold alert_ok; rewrite Hs; lia).
    destruct old as [o|]; [|injection E as <-; exact Hnew]. destruct (decide _); injection E as <-; [exact Hnew|].
    specialize (Ho o eq_refl). unfold alert_ok in *. cbn. destruct (al_State o); lia.
  - apply (alert_ok_mono now); [lia|]. apply Ho. exact E.
Qed.

Lemma rule_step_ok s s' : rule_step s s' -> rule_ok s -> rule_ok s'.
Proof.
  intros Hst [Hn Hok]. destruct Hst as [now ts r off query limit x r' Hle E|now ts r d i Hle|now ts r grace series Hle];
    cbn [fst snd] in *; (split; [cbn [fst]; lia|]); cbn [fst snd]; intros h b Hb.
  - destruct x as [e|vec].
    + destruct (Eval_err _ _ _ _ _ _ _ E) as [-> | ->]; [|cbn in Hb; rewrite lookup_empty in Hb; discriminate].
      apply (alert_ok_mono now); [exact Hle|]. exact (Hok h b Hb).
    + destruct (Eval_ok _ _ _ _ _ _ _ E) as (res & alerts & _ & Hbuild & _ & Hl). rewrite Hl in Hb.
      apply (entry_step_ok r now ts (r_active r !! h) (alerts !! h) b); [lia| | |exact Hb].
      * intros a Ha. exact (Hok h a Ha).
      * intros a Ha. exact (Eval_fresh _ _ _ _ _ _ Hbuild Ha).
  - cbn [sendAlerts snd set_active r_active] in Hb. rewrite !lookup_fmap in Hb.
    destruct (r_active r !! h) as [a|] eqn:Ea; [|discriminate]. cbn in Hb. injection Hb as <-.
    pose proof (alert_ok_mono now ts a Hle (Hok h a Ea)) as Ha. unfold send_one.
    destruct (needsSending _ _ _); [|exact Ha]. unfold alert_ok in *. cbn. destruct (al_State a); lia.
  - unfold restore_rule in Hb. assert (Hsame : forall a, r_active r !! h = Some a -> alert_ok ts a)
      by (intros a Ha; exact (alert_ok_mono now ts a Hle (Hok h a Ha))).
    destruct (_ <? _); [exact (Hsame b Hb)|]. destruct series as [find|]; [|exact (Hsame b Hb)].
    cbn [SetRestored set_active r_active] in Hb. rewrite lookup_fmap in Hb.
    destruct (r_active r !! h) as [a|] eqn:Ea; [|discriminate]. cbn in Hb. injection Hb as <-.
    specialize (Hsame a eq_refl). destruct (find _) as [[t v]|]; [|exact Hsame].
    unfold alert_ok in *. cbn. destruct (al_State a); lia.
Qed.

Lemma rule_reachable_ok now0 r0 s : 0 < now0 -> r_active r0 = ∅ -> rtc rule_step (now0, r0) s -> rule_ok s.
Proof.
  intros H0 He Hs. refine (rtc_ind_l (fun x => rule_ok x -> rule_ok s) s _ _ _ Hs _); [auto| |].
  - intros x y Hxy _ IH Hx. exact (IH (rule_step_ok x y Hxy Hx)).
  - split; [exact H0|]. cbn [snd]. rewrite He. apply map_Forall_empty.
Qed.
End invariant.

(** ** Runs of evaluations *)

(** A sample of the result builds the alert of hash [h]. *)
Definition Matches {AE : AlertEnv} (r : AlertingRule) (ts : Z) (res : list Sample) (h : Z) : Prop :=
  exists smpl a, In smpl res /\ build_alert r ts smpl = Ret (h, a).

(** Successful evaluations at the times of a list, all of whose results hold
    ([present]) or lack the alert of hash [h], with notifications in between. *)
Inductive evals {AE : AlertEnv} (h : Z) (present : bool) : AlertingRule -> list Z -> AlertingRule -> Prop :=
| evals_nil r : evals h present r [] r
| evals_eval r off ts res limit vec r1 tss r2 : Eval r off ts (Some res) limit = Ret (inr vec, r1) ->
    (if present then Matches r ts res h else ~ Matches r ts res h) ->
    evals h present r1 tss r2 -> evals h present r (ts :: tss) r2
| evals_send r now resendDelay interval tss r2 :
    evals h present (snd (sendAlerts r now resendDelay interval)) tss r2 -> evals h present r tss r2.

Section runs.
Context {AE : AlertEnv}.

Lemma build_alerts_lookup r ts res alerts out h : build_alerts r ts res alerts = Ret (inr out) ->
  is_Some (out !! h) <-> is_Some (alerts !! h) \/ Matches r ts res h.
Proof.
  revert alerts. induction res as [|smpl res IH]; intros alerts; cbn [build_alerts].
  - intros [= ->]. split; [auto|]. intros [H|(? & ? & [] & _)]; exact H.
  - destruct (build_alert r ts smpl) as [[h1 a]|] eqn:E; [|discriminate]. cbn [outcome_bind].
    destruct (alerts !! h1) eqn:El; [discriminate|]. intros H. rewrite (IH _ H). clear IH H. split.
    + intros [H|(s & b & Hs & Hb)]; [|right; exists s, b; split; [right|]; assumption].
      destruct (decide (h1 = h)) as [->|Hne]; [right; exists smpl, a; split; [left; reflexivity|exact E]|].
      rewrite lookup_insert_ne in H by exact Hne. left. exact H.
    + intros [H|(s & b & [<-|Hs] & Hb)].
      * left. destruct (decide (h1 = h)) as [->|Hne]; [rewrite lookup_insert_eq; eauto|].
        rewrite lookup_insert_ne by exact Hne. exact H.
      * rewrite E in Hb. injection Hb as -> ->. left. rewrite lookup_insert_eq. eauto.
      * right. exists s, b. auto.
Qed.

(** A successful evaluation, seen from the entry of [h]. *)
Lemma Eval_entry r off ts res limit vec r1 h : Eval r off ts (Some res) limit = Ret (inr vec, r1) ->
  exists new, r_active r1 !! h = entry_step r ts (r_active r !! h) new /\ r1 = set_active (r_active r1) r
    /\ (is_Some new <-> Matches r ts res h) /\ (forall n, new = Some n -> fresh ts n).
Proof.
  intros E. destruct (Eval_ok _ _ _ _ _ _ _ E) as (res' & alerts & [= <-] & Hb & Hr & Hl).
  exists (alerts !! h). split; [apply Hl|]. split; [exact Hr|]. split.
  - rewrite (build_alerts_lookup _ _ _ _ _ h Hb), lookup_empty. split; [|auto].
    intros [[? [=]]|H]; exact H.
  - intros n Hn. exact (Eval_fresh _ _ _ _ _ _ Hb Hn).
Qed.

(** What sending leaves alone. *)
Definition same_alert (a b : Alert) : Prop :=
  al_State b = al_State a /\ al_Labels b = al_Labels a /\ al_ActiveAt b = al_ActiveAt a /\ al_FiredAt b = al_FiredAt a
  /\ al_ResolvedAt b = al_ResolvedAt a /\ al_KeepFiringSince b = al_KeepFiringSince a.

Lemma sendAlerts_entry r ts d i h : exists f, (forall a, same_alert a (f a))
  /\ r_active (snd (sendAlerts r ts d i)) !! h = f <$> r_active r !! h.
Proof.
  exists (fun a => fst (send_one ts d i a)). split.
  - intros a. unfold send_one. destruct (needsSending a ts d); repeat split.
  - cbn [sendAlerts snd set_active r_active]. rewrite !lookup_fmap. destruct (r_active r !! h); reflexivity.
Qed.

(** An invariant of one entry that sending respects and evaluations with or
    without the alert keep, given the times of the evaluations already done. *)
Lemma evals_entry h present r tss r' (Q : list Z -> option Alert -> Prop) :
  evals h present r tss r' -> List.Forall (Z.lt 0) tss ->
  (forall done e f, (forall a, same_alert a (f a)) -> Q done e -> Q done (f <$> e)) ->
  (forall done r1 ts e new, r_holdDuration r1 = r_holdDuration r -> r_keepFiringFor r1 = r_keepFiringFor r ->
     0 < ts -> (if present then is_Some new else new = None) -> (forall n, new = Some n -> fresh ts n) ->
     Q done e -> Q (done ++ [ts]) (entry_step r1 ts e new)) ->
  forall done, Q done (r_active r !! h) -> Q (done ++ tss) (r_active r' !! h).
Proof.
  intros Hrun Hpos Hsend. induction Hrun as [r|r off ts res limit vec r1 tss r2 E Hp Hrun IH|r now d i tss r2 Hrun IH];
    intros Hstep done H0.
  - rewrite app_nil_r. exact H0.
  - apply Forall_cons in Hpos as [Hts Hpos]. destruct (Eval_entry _ _ _ _ _ _ _ h E) as (new & El & Hr & Hm & Hf).
    replace (done ++ ts :: tss) with ((done ++ [ts]) ++ tss) by (rewrite <- app_assoc; reflexivity).
    apply IH; [exact Hpos| |].
    + intros done' r3 ts' e new' Hh Hk. apply Hstep; rewrite Hr in *; assumption.
    + rewrite El. apply Hstep; try reflexivity; try assumption. destruct present; [tauto|].
      destruct new; [|reflexivity]. exfalso. apply Hp, Hm. eauto.
  - apply IH; [exact Hpos|exact Hstep|]. destruct (sendAlerts_entry r now d i h) as (f & Hf & ->). apply Hsend; assumption.
Qed.

(** An alert active since [t0] fires at the first evaluation [hold] later. *)
Definition held (hold t0 : Z) (done : list Z) (e : option Alert) : Prop :=
  exists a, e = Some a /\ al_ActiveAt a = t0 /\
    match List.find (fun t => hold <=? time_Sub t t0) done with
    | Some t => al_State a = StateFiring /\ al_FiredAt a = t
    | None => al_State a = StatePending
    end.

Lemma find_snoc {A} (f : A -> bool) l x :
  List.find f (l ++ [x]) = match List.find f l with Some y => Some y | None => if f x then Some x else None end.
Proof. induction l as [|y l IH]; cbn; [|destruct (f y)]; auto. Qed.

Lemma find_ext_in {A} (f g : A -> bool) l : (forall x, In x l -> f x = g x) -> List.find f l = List.find g l.
Proof. induction l as [|x l IH]; intros H; cbn; [reflexivity|]. rewrite (H x), IH; cbn in *; auto. Qed.

Lemma held_send hold t0 done e f : (forall a, same_alert a (f a)) -> held hold t0 done e -> held hold t0 done (f <$> e).
Proof.
  intros Hf (a & -> & Ha & Hs). exists (f a). destruct (Hf a) as (H1 & _ & H3 & H4 & _). split; [reflexivity|].
  rewrite H1, H3, H4. split; assumption.
Qed.

Lemma held_fire r ts t0 done a : al_ActiveAt a = t0 ->
  match List.find (fun t => r_holdDuration r <=? time_Sub t t0) done with
  | Some t => al_State a = StateFiring /\ al_FiredAt a = t
  | None => al_State a = StatePending
  end -> held (r_holdDuration r) t0 (done ++ [ts]) (Some (maybe_fire r ts a)).
Proof.
  intros Ha Hs. exists (maybe_fire r ts a). split; [reflexivity|]. rewrite find_snoc. unfold maybe_fire. rewrite Ha.
  destruct (List.find _ done) as [t|].
  - destruct Hs as [Hs Hf]. rewrite bool_decide_eq_false_2 by congruence. auto.
  - rewrite bool_decide_eq_true_2 by exact Hs. cbn [andb]. destruct (_ <=? _); auto.
Qed.

Lemma held_step r ts t0 done e new : is_Some new -> held (r_holdDuration r) t0 done e ->
  held (r_holdDuration r) t0 (done ++ [ts]) (entry_step r ts e new).
Proof.
  intros [n ->] (a & -> & Ha & Hs). unfold entry_step, merge_alert, eval_one. cbn [is_Some]. rewrite decide_False.
  - rewrite bool_decide_eq_true_2 by eauto. cbn [fst]. apply held_fire; assumption.
  - destruct (List.find _ done) as [t|]; [destruct Hs|]; congruence.
Qed.

Lemma held_run h r tss r' t0 done : evals h true r tss r' -> List.Forall (Z.lt 0) tss ->
  held (r_holdDuration r) t0 done (r_active r !! h) -> held (r_holdDuration r) t0 (done ++ tss) (r_active r' !! h).
Proof.
  intros Hr Hp. apply (evals_entry h true r tss r' (held (r_holdDuration r) t0) Hr Hp).
  - intros. apply held_send; assumption.
  - intros d r1 ts e new <- _ _ Hn _. apply held_step. exact Hn.
Qed.

(** Nothing of the alert is active: it is absent, or was resolved. *)
Definition idle (e : option Alert) : Prop := match e with Some a => al_State a = StateInactive | None => True end.

Lemma held_first r ts e new : is_Some new -> (forall n, new = Some n -> fresh ts n) -> idle e ->
  held (r_holdDuration r) ts [ts] (entry_step r ts e new).
Proof.
  intros [n ->] Hf Hi. destruct (Hf n eq_refl) as (Hs & Ha & _). unfold entry_step.
  replace (merge_alert e (Some n)) with (Some n).
  - unfold eval_one. rewrite bool_decide_eq_true_2 by eauto. cbn [fst]. exact (held_fire r ts ts [] (set_KeepFiringSince 0 n) Ha Hs).
  - unfold merge_alert. destruct e as [a|]; [|reflexivity]. cbn in Hi. rewrite decide_True by exact Hi. reflexivity.
Qed.

(** An absent alert keeps firing since the first evaluation [t1] without it. *)
Definition keeping (lb : bytes) (t1 : Z) (e : option Alert) : Prop :=
  exists a, e = Some a /\ al_State a = StateFiring /\ al_Labels a = lb /\ al_ResolvedAt a = 0
    /\ (al_KeepFiringSince a = 0 \/ al_KeepFiringSince a = t1).

(** Then it is inactive, and dropped after the retention. *)
Definition resolved (lb : bytes) (t : Z) (done : list Z) (e : option Alert) : Prop :=
  if existsb (fun u => resolvedRetention <? time_Sub u t) done then e = None
  else exists a, e = Some a /\ al_State a = StateInactive /\ al_Labels a = lb /\ al_ResolvedAt a = t.

Lemma keeping_send lb t1 e f : (forall a, same_alert a (f a)) -> keeping lb t1 e -> keeping lb t1 (f <$> e).
Proof.
  intros Hf (a & -> & H). exists (f a). destruct (Hf a) as (H1 & H2 & _ & _ & H5 & H6). split; [reflexivity|].
  rewrite H1, H2, H5, H6. exact H.
Qed.

Lemma resolved_send lb t done e f : (forall a, same_alert a (f a)) -> resolved lb t done e -> resolved lb t done (f <$> e).
Proof.
  intros Hf. unfold resolved. destruct (existsb _ done); [intros ->; reflexivity|].
  intros (a & -> & H). exists (f a). destruct (Hf a) as (H1 & H2 & _ & _ & H5 & _). split; [reflexivity|].
  rewrite H1, H2, H5. exact H.
Qed.

(** One evaluation without a firing alert: it keeps firing, or is resolved. *)
Definition since (t1 ts : Z) (a : Alert) : Prop := al_KeepFiringSince a = t1 \/ al_KeepFiringSince a = 0 /\ ts = t1.

Ltac firing Hs Hr :=
  unfold maybe_fire, IsZero; cbn [al_State al_ResolvedAt set_KeepFiringSince]; rewrite Hs, Hr;
  rewrite ?(bool_decide_eq_false_2 (StateFiring = StatePending)), ?(bool_decide_eq_false_2 (StateFiring = StateInactive)) by discriminate;
  cbn [negb andb orb Z.eqb fst al_State set_KeepFiringSince];
  rewrite ?Hs, ?(bool_decide_eq_false_2 (StateFiring = StatePending)) by discriminate; reflexivity.

Lemma eval_one_keeps r ts t1 a : al_State a = StateFiring -> al_ResolvedAt a = 0 -> since t1 ts a ->
  0 < t1 -> 0 < r_keepFiringFor r -> time_Sub ts t1 < r_keepFiringFor r ->
  fst (eval_one r ts false a) = Some (set_KeepFiringSince t1 a).
Proof.
  intros Hs Hr Hk Ht Hp Hlt. unfold eval_one. rewrite (bool_decide_eq_true_2 _ Hs), (proj2 (Z.ltb_lt _ _) Hp). cbn [andb].
  replace (if IsZero (al_KeepFiringSince a) then set_KeepFiringSince ts a else a) with (set_KeepFiringSince t1 a).
  - change (al_KeepFiringSince (set_KeepFiringSince t1 a)) with t1. rewrite (proj2 (Z.ltb_lt _ _) Hlt).
    firing Hs Hr.
  - unfold IsZero. destruct Hk as [Hk|[Hk ->]]; rewrite Hk; [|reflexivity].
    destruct (t1 =? 0) eqn:E; [lia|]. rewrite <- Hk. destruct a; reflexivity.
Qed.

Lemma eval_one_resolves r ts t1 a : al_State a = StateFiring -> al_ResolvedAt a = 0 -> since t1 ts a ->
  0 < t1 -> r_keepFiringFor r <= time_Sub ts t1 ->
  exists k, fst (eval_one r ts false a) = Some (set_ResolvedAt ts (set_State StateInactive (set_KeepFiringSince k a))).
Proof.
  intros Hs Hr Hk Ht Hge. unfold eval_one. rewrite (bool_decide_eq_true_2 _ Hs). cbn [andb].
  assert (Hself : a = set_KeepFiringSince (al_KeepFiringSince a) a) by (destruct a; reflexivity).
  destruct (0 <? _); [|exists (al_KeepFiringSince a); rewrite <- Hself; firing Hs Hr].
  exists t1. replace (if IsZero (al_KeepFiringSince a) then set_KeepFiringSince ts a else a) with (set_KeepFiringSince t1 a).
  - change (al_KeepFiringSince (set_KeepFiringSince t1 a)) with t1. rewrite (proj2 (Z.ltb_ge _ _) Hge).
    firing Hs Hr.
  - unfold IsZero. destruct Hk as [Hk|[Hk ->]]; rewrite Hk; [|reflexivity].
    destruct (t1 =? 0) eqn:E; [lia|]. rewrite <- Hk. exact (eq_sym Hself).
Qed.

Lemma resolved_step r ts lb t done e : 0 < t -> resolved lb t done e -> resolved lb t (done ++ [ts]) (entry_step r ts e None).
Proof.
  intros Ht. unfold resolved. rewrite existsb_app. cbn [existsb].
  destruct (existsb _ done); [intros ->; reflexivity|]. intros (a & -> & Hs & Hl & Hr). cbn [orb].
  unfold entry_step, merge_alert, eval_one. rewrite bool_decide_eq_false_2 by (intros [? [=]]).
  rewrite Hs, (bool_decide_eq_false_2 (StateInactive = StateFiring)) by discriminate. cbn [andb].
  rewrite Hs, (bool_decide_eq_false_2 (StateInactive = StatePending)), (bool_decide_eq_true_2 (StateInactive = StateInactive)) by congruence.
  cbn [negb andb orb]. rewrite Hr. unfold IsZero. rewrite (proj2 (Z.eqb_neq t 0)) by lia. cbn [negb andb orb].
  destruct (resolvedRetention <? _); cbn [orb fst]; [reflexivity|]. exists a. auto.
Qed.

Lemma evals_app h present pre post : forall r r', evals h present r (pre ++ post) r' ->
  exists r1, evals h present r pre r1 /\ evals h present r1 post r'.
Proof.
  induction pre as [|t pre IHp]; intros r r' H; [exists r; split; [constructor|exact H]|].
  remember ((t :: pre) ++ post) as l eqn:El. induction H as [r|r off ts res limit vec r1 tss r2 E Hp Hrun _|r now d i tss r2 Hrun IH].
  - discriminate.
  - injection El as -> ->. destruct (IHp _ _ Hrun) as (r3 & H1 & H2). exists r3. split; [|exact H2].
    econstructor; eassumption.
  - destruct (IH El) as (r3 & H1 & H2). exists r3. split; [|exact H2]. eapply evals_send. exact H1.
Qed.

Lemma evals_config h present r tss r' : evals h present r tss r' ->
  r_holdDuration r' = r_holdDuration r /\ r_keepFiringFor r' = r_keepFiringFor r.
Proof.
  induction 1 as [r|r off ts res limit vec r1 tss r2 E _ _ IH|r now d i tss r2 _ IH]; [auto| |exact IH].
  destruct (Eval_entry _ _ _ _ _ _ _ 0 E) as (_ & _ & Hr & _). rewrite Hr in IH. exact IH.
Qed.

Lemma time_Sub_diag t : time_Sub t t = 0.
Proof. unfold time_Sub. rewrite Z.sub_diag. reflexivity. Qed.

Lemma keeping_run h r pre r' a t1 : evals h false r pre r' -> List.Forall (Z.lt 0) pre ->
  r_active r !! h = Some a -> al_State a = StateFiring -> al_ResolvedAt a = 0 -> al_KeepFiringSince a = 0 ->
  (forall t rest, pre = t :: rest -> t = t1) -> 0 < t1 -> List.Forall (fun t => time_Sub t t1 < r_keepFiringFor r) pre ->
  exists b, r_active r' !! h = Some b /\ al_State b = StateFiring /\ al_Labels b = al_Labels a /\ al_ResolvedAt b = 0
    /\ al_KeepFiringSince b = match pre with [] => 0 | _ => t1 end.
Proof.
  intros Hr Hpos Ha Hs Hres Hk Hhd Ht1 Hlt.
  pose (Q := fun (done : list Z) (e : option Alert) => List.Forall (fun t => time_Sub t t1 < r_keepFiringFor r) done ->
    (forall t rest, done = t :: rest -> t = t1) ->
    exists b, e = Some b /\ al_State b = StateFiring /\ al_Labels b = al_Labels a /\ al_ResolvedAt b = 0
      /\ al_KeepFiringSince b = match done with [] => 0 | _ => t1 end).
  assert (HQ : Q ([] ++ pre) (r_active r' !! h)).
  - apply (evals_entry h false r pre r' Q Hr Hpos).
    + intros done e f Hf H1 H2 H3. destruct (H1 H2 H3) as (b & -> & H). destruct (Hf b) as (E1 & E2 & _ & _ & E5 & E6).
      exists (f b). rewrite E1, E2, E5, E6. auto.
    + intros done r1 ts e new _ Hkr Hts -> _ H1 H2 H3. apply Forall_app in H2 as [H2 Hlast].
      apply List.Forall_inv in Hlast. destruct H1 as (b & -> & Hbs & Hbl & Hbr & Hbk); [exact H2| |].
      { intros t rest ->. apply (H3 t (rest ++ [ts])). reflexivity. }
      exists (set_KeepFiringSince t1 b). split; [|repeat split; try assumption; destruct done; reflexivity].
      unfold entry_step, merge_alert. rewrite bool_decide_eq_false_2 by (intros [? [=]]).
      assert (Hsince : since t1 ts b) by (destruct done as [|d done]; [right; split; [exact Hbk|exact (H3 ts [] eq_refl)]|left; exact Hbk]).
      assert (Hpk : 0 < r_keepFiringFor r1).
      { rewrite Hkr, <- (time_Sub_diag t1). destruct done as [|d done]; [rewrite (H3 ts [] eq_refl) in Hlast; exact Hlast|].
        apply List.Forall_inv in H2. rewrite (H3 d _ eq_refl) in H2. exact H2. }
      apply eval_one_keeps; try assumption. rewrite Hkr. exact Hlast.
    + intros _ _. exists a. auto.
  - apply HQ; [exact Hlt|exact Hhd].
Qed.

Lemma resolved_run h r t post r' a t1 : evals h false r (t :: post) r' -> List.Forall (Z.lt 0) (t :: post) ->
  r_active r !! h = Some a -> al_State a = StateFiring -> al_ResolvedAt a = 0 -> since t1 t a -> 0 < t1 ->
  r_keepFiringFor r <= time_Sub t t1 -> resolved (al_Labels a) t post (r_active r' !! h).
Proof.
  intros Hr Hpos Ha Hs Hres Hk Ht1 Hge.
  pose (Q := fun (done : list Z) (e : option Alert) => match done with
    | [] => exists b, e = Some b /\ same_alert a b
    | t' :: done => t' = t -> resolved (al_Labels a) t done e end).
  assert (HQ : Q ([] ++ t :: post) (r_active r' !! h)); [|exact (HQ eq_refl)].
  apply (evals_entry h false r (t :: post) r' Q Hr Hpos).
  - intros [|t' done] e f Hf HQ; cbn in *; [|intros Ht'; exact (resolved_send _ _ _ _ _ Hf (HQ Ht'))].
    destruct HQ as (b & -> & Hb). exists (f b). split; [reflexivity|]. specialize (Hf b). unfold same_alert in *.
    intuition congruence.
  - intros [|t' done] r1 ts e new _ Hkr Hts -> _ HQ; cbn in *.
    + destruct HQ as (b & -> & Hb1 & Hb2 & _ & _ & Hb5 & Hb6). intros ->. unfold entry_step, merge_alert.
      rewrite bool_decide_eq_false_2 by (intros [? [=]]).
      destruct (eval_one_resolves r1 t t1 b) as [k ->]; [congruence|congruence| |exact Ht1|rewrite Hkr; exact Hge|].
      * unfold since in *. rewrite Hb6. exact Hk.
      * eexists. split; [reflexivity|]. cbn. auto.
    + intros ->. apply List.Forall_inv in Hpos. apply resolved_step; [exact Hpos|]. apply HQ. reflexivity.
  - exists a. repeat split; exact Ha.
Qed.

Lemma entry_step_resolves r ts a new b : al_State a = StateFiring -> al_ResolvedAt a = 0 ->
  entry_step r ts (Some a) new = Some b -> al_State b = StateInactive ->
  al_ResolvedAt b = ts /\ al_Labels b = al_Labels a /\ al_LastSentAt b = al_LastSentAt a.
Proof.
  intros Hs Hr. unfold entry_step, merge_alert. destruct new as [n|].
  - rewrite decide_False by congruence. unfold eval_one. rewrite bool_decide_eq_true_2 by eauto. cbn [fst]. intros [= <-].
    unfold maybe_fire. destruct (_ && _); cbn; congruence.
  - rewrite bool_decide_eq_false_2 by (intros [? [=]]). unfold eval_one. rewrite (bool_decide_eq_true_2 _ Hs). cbn [andb].
    destruct (0 <? r_keepFiringFor r) eqn:Ek.
    + set (a1 := if IsZero _ then _ else a).
      assert (H1 : al_State a1 = StateFiring /\ al_ResolvedAt a1 = 0 /\ al_Labels a1 = al_Labels a /\ al_LastSentAt a1 = al_LastSentAt a)
        by (subst a1; destruct (IsZero _); auto).
      clearbody a1. destruct H1 as (Hs1 & Hr1 & <- & <-). rewrite Hs1, Hr1.
      rewrite !(bool_decide_eq_false_2 (StateFiring = _)) by discriminate. cbn [orb negb andb IsZero Z.eqb].
      destruct (time_Sub ts (al_KeepFiringSince a1) <? _); cbn [negb andb fst]; intros [= <-]; [|cbn; auto]. unfold maybe_fire. destruct (_ && _); cbn; congruence.
    + rewrite Hs, Hr, !(bool_decide_eq_false_2 (StateFiring = _)) by discriminate. cbn [orb negb andb IsZero Z.eqb fst].
      intros [= <-]. cbn. auto.
Qed.

Lemma Rule_State_firing r : Rule_State r = StateFiring <-> exists h a, r_active r !! h = Some a /\ al_State a = StateFiring.
Proof.
  unfold Rule_State. apply (map_fold_weak_ind (fun m am => m = StateFiring <-> exists h a, am !! h = Some a /\ al_State a = StateFiring)).
  - split; [discriminate|]. intros (h & a & [=] & _).
  - intros h a am m Hno IH. destruct (state_rank m <? state_rank (al_State a)) eqn:E.
    + split.
      * intros Hs. exists h, a. rewrite lookup_insert_eq. auto.
      * intros (k & b & Hk & Hb). destruct (decide (h = k)) as [<-|Hne].
        -- rewrite lookup_insert_eq in Hk. congruence.
        -- rewrite lookup_insert_ne in Hk by exact Hne. rewrite (proj2 IH) in E by eauto. destruct (al_State a); discriminate.
    + rewrite IH. split; intros (k & b & Hk & Hb).
      * exists k, b. rewrite lookup_insert_ne by congruence. auto.
      * destruct (decide (h = k)) as [<-|Hne].
        -- rewrite lookup_insert_eq in Hk. injection Hk as ->. rewrite Hb in E. apply IH. destruct m; cbn in E; [lia|lia|reflexivity].
        -- rewrite lookup_insert_ne in Hk by exact Hne. eauto.
Qed.

Lemma restore_ActiveAt_held hold grace ts t v u :
  let downAt := time_of_Unix (Z.quot t 1000) in
  let activeAt := time_of_Unix v in
  let remaining := hold - (downAt - activeAt) in
  0 <= grace <= hold -> hold <= 2 ^ 61 -> activeAt <= downAt <= ts -> ts <= activeAt + 2 ^ 61 -> ts <= u <= ts + 2 ^ 61 ->
  (remaining <=? 0) || (ts + Z.max remaining grace <=? u) = (hold <=? time_Sub u (restore_ActiveAt hold grace ts t v)).
Proof.
  intros downAt activeAt remaining Hg Hh Hda Hact Hu. unfold restore_ActiveAt. fold downAt activeAt.
  assert (Hsub : forall p q, Z.abs (p - q) < 2 ^ 63 -> time_Sub p q = p - q)
    by (intros p q Hpq; unfold time_Sub, sat64, MaxInt64, MinInt64 in *; lia).
  rewrite (Hsub downAt activeAt) by lia. rewrite i64_id by (unfold is_i64; lia). fold remaining.
  destruct (Z.leb_spec remaining 0) as [Hle|Hgt]; cbn [orb].
  - rewrite Hsub by lia. symmetry. apply Z.leb_le. lia.
  - unfold time_Add. destruct (Z.ltb_spec remaining grace); rewrite !Hsub by (rewrite ?Hsub; lia); apply Bool.eq_iff_eq_true; rewrite !Z.leb_le; lia.
Qed.

(** C14: An alert that is not active and then returned by every evaluation is
    pending until the first evaluation that is the rule's hold duration after
    the first, at which it fires. *)
Theorem alert_fires_once_held h r t0 tss r' : evals h true r (t0 :: tss) r' -> List.Forall (Z.lt 0) (t0 :: tss) ->
  idle (r_active r !! h) ->
  exists a, r_active r' !! h = Some a /\ al_ActiveAt a = t0 /\
    match List.find (fun t => r_holdDuration r <=? time_Sub t t0) (t0 :: tss) with
    | Some t => al_State a = StateFiring /\ al_FiredAt a = t
    | None => al_State a = StatePending
    end.
Proof.
  intros Hr Hpos Hi.
  pose (Q := fun done e => match done with [] => idle e | t :: _ => held (r_holdDuration r) t done e end).
  apply (evals_entry h true r (t0 :: tss) r' Q Hr Hpos) with (done := []); [| |exact Hi].
  - intros [|t done] e f Hf; cbn; [|apply held_send; exact Hf]. destruct e as [a|]; cbn; [|auto].
    destruct (Hf a) as [-> _]. auto.
  - intros [|t done] r1 ts e new Hh _ _ Hn Hf HQ; cbn in *; rewrite <- Hh in *; [apply held_first|apply (held_step r1 ts t (t :: done))]; assumption.
Qed.

(** C26: A firing alert that no evaluation from [t1] on returns keeps firing as long
    as less than the rule's keep-firing duration has passed since [t1]; the
    first evaluation after that resolves it, and the entry is dropped by the
    first evaluation more than the retention of 15 minutes later. *)
Theorem alert_resolves_and_is_dropped h r tss r' a t1 : evals h false r tss r' -> List.Forall (Z.lt 0) tss ->
  head tss = Some t1 -> r_active r !! h = Some a ->
  al_State a = StateFiring -> al_ResolvedAt a = 0 -> al_KeepFiringSince a = 0 ->
  (List.Forall (fun t => time_Sub t t1 < r_keepFiringFor r) tss ->
     exists b, r_active r' !! h = Some b /\ al_State b = StateFiring /\ al_KeepFiringSince b = t1) /\
  (forall pre t post, tss = pre ++ t :: post ->
     List.Forall (fun u => time_Sub u t1 < r_keepFiringFor r) pre -> r_keepFiringFor r <= time_Sub t t1 ->
     if existsb (fun u => 15 * Minute <? time_Sub u t) post then r_active r' !! h = None
     else exists b, r_active r' !! h = Some b /\ al_State b = StateInactive /\ al_ResolvedAt b = t).
Proof.
  intros Hr Hpos Hhd Ha Hs Hres Hk.
  assert (Ht1 : 0 < t1) by (destruct tss; [discriminate|]; injection Hhd as <-; exact (List.Forall_inv Hpos)). split.
  - intros Hlt. destruct (keeping_run h r tss r' a t1 Hr Hpos Ha Hs Hres Hk) as (b & Hb1 & Hb2 & _ & _ & Hb5); [|exact Ht1|exact Hlt|].
    { intros t rest ->. injection Hhd as ->. reflexivity. }
    exists b. destruct tss; [discriminate|]. auto.
  - intros pre t post -> Hpre Hge. destruct (evals_app _ _ _ _ _ _ Hr) as (r1 & Hr1 & Hr2).
    apply Forall_app in Hpos as [Hpos1 Hpos2].
    destruct (keeping_run h r pre r1 a t1 Hr1 Hpos1 Ha Hs Hres Hk) as (b & Hb1 & Hb2 & Hb3 & Hb4 & Hb5); [|exact Ht1|exact Hpre|].
    { intros u rest ->. injection Hhd as ->. reflexivity. }
    assert (Hd : resolved (al_Labels b) t post (r_active r' !! h)).
    { apply (resolved_run h r1 t post r' b t1); try assumption.
      - destruct pre as [|u pre]; [|left; exact Hb5]. injection Hhd as ->. right. auto.
      - destruct (evals_config _ _ _ _ _ Hr1) as [_ ->]. exact Hge. }
    unfold resolved, resolvedRetention in Hd. destruct (existsb _ post); [exact Hd|].
    destruct Hd as (c & ? & ? & _ & ?). eauto.
Qed.

(** C36: Every state a rule reaches from its creation has only well-formed alerts;
    the alerts it lists as active are those that are not inactive, and its
    state is firing exactly when one of its alerts is. *)
Theorem rule_states_well_formed name hold keepFiringFor ls ans restored now0 now r : 0 < now0 ->
  rtc rule_step (now0, NewAlertingRule name hold keepFiringFor ls ans restored) (now, r) ->
  (forall h a, r_active r !! h = Some a ->
     0 <= al_KeepFiringSince a <= now /\ 0 <= al_LastSentAt a <= now /\
     match al_State a with
     | StateInactive => 0 < al_FiredAt a <= al_ResolvedAt a /\ al_ResolvedAt a <= now
     | StatePending => al_FiredAt a = 0 /\ al_ResolvedAt a = 0
     | StateFiring => 0 < al_FiredAt a <= now /\ al_ResolvedAt a = 0
     end) /\
  (forall a, In a (ActiveAlerts r) <-> al_State a <> StateInactive /\ exists h, r_active r !! h = Some a) /\
  (Rule_State r = StateFiring <-> exists h a, r_active r !! h = Some a /\ al_State a = StateFiring).
Proof.
  intros H0 Hrtc. assert (Hok : rule_ok (now, r)) by (eapply rule_reachable_ok; [exact H0| |exact Hrtc]; reflexivity).
  destruct Hok as [_ Hok]. split; [exact Hok|]. split; [|apply Rule_State_firing].
  intros a. unfold ActiveAlerts. rewrite filter_In, in_map_iff. split.
  - intros [([h b] & <- & Hin) Hz]. apply list_elem_of_In, elem_of_map_to_list in Hin. specialize (Hok h b Hin).
    unfold alert_ok in Hok. cbn in *. split; [|exists h; exact Hin]. unfold IsZero in Hz. intros Hs. rewrite Hs in Hok. lia.
  - intros [Hs [h Hl]]. split; [exists (h, a); split; [reflexivity|]; apply list_elem_of_In, elem_of_map_to_list, Hl|].
    specialize (Hok h a Hl). unfold alert_ok in Hok. cbn in Hok. unfold IsZero. destruct (al_State a); [contradiction| |]; lia.
Qed.

(** When an evaluation resolves an alert that was firing, the notifications that
    follow it contain the resolved alert, whatever the resend delay. *)
Theorem resolved_alert_is_sent now r off ts query limit vec r' h a b resendDelay interval :
  rule_ok (now, r) -> now < ts -> Eval r off ts query limit = Ret (inr vec, r') ->
  r_active r !! h = Some a -> al_State a = StateFiring -> r_active r' !! h = Some b -> al_State b = StateInactive ->
  exists c, In c (fst (sendAlerts r' ts resendDelay interval)) /\ al_Labels c = al_Labels a
    /\ al_State c = StateInactive /\ al_ResolvedAt c = ts /\ al_LastSentAt c = ts.
Proof.
  intros [Hpos Hok] Hlt E Ha Hs Hb Hbs. destruct (Eval_ok _ _ _ _ _ _ _ E) as (res & alerts & _ & _ & _ & Hl).
  rewrite Hl, Ha in Hb. specialize (Hok h a Ha). cbn [fst snd] in *. unfold alert_ok in Hok. rewrite Hs in Hok.
  destruct (entry_step_resolves r ts a (alerts !! h) b Hs (proj2 (proj2 (proj2 Hok))) Hb Hbs) as (Hr & Hlab & Hsent).
  exists (set_Sent ts (time_Add ts (i64 (4 * if resendDelay <? interval then interval else resendDelay))) b).
  split; [|cbn; auto]. unfold sendAlerts. cbn [fst]. apply list_elem_of_In, list_elem_of_omap. eexists (h, _). split.
  - apply elem_of_map_to_list. rewrite lookup_fmap, Hl, Ha, Hb. reflexivity.
  - unfold send_one. replace (needsSending b ts resendDelay) with true; [reflexivity|].
    unfold needsSending, After. rewrite decide_False by congruence. rewrite Hr, Hsent.
    rewrite (proj2 (Z.ltb_lt _ _)) by lia. reflexivity.
Qed.

(** After a restart: an alert that had not been pending for the hold duration
    when the last sample was written fires once the time that remained, and at
    least the grace period, has passed since the restoration; one that had
    fires again at the next evaluation that returns it. *)
Theorem restored_alert_fires h r grace ts find a t v tss r' :
  evals h true (restore_rule r grace ts (Some find)) tss r' ->
  0 < ts -> List.Forall (fun u => ts <= u <= ts + 2 ^ 61) tss ->
  r_active r !! h = Some a -> al_State a = StatePending -> find (al_Labels a) = Some (t, v) ->
  0 <= grace <= r_holdDuration r -> r_holdDuration r <= 2 ^ 61 ->
  let downAt := time_of_Unix (Z.quot t 1000) in
  let activeAt := time_of_Unix v in
  activeAt <= downAt <= ts -> ts <= activeAt + 2 ^ 61 ->
  let remaining := r_holdDuration r - (downAt - activeAt) in
  exists b, r_active r' !! h = Some b /\
    match List.find (fun u => (remaining <=? 0) || (ts + Z.max remaining grace <=? u)) tss with
    | Some u => al_State b = StateFiring /\ al_FiredAt b = u
    | None => al_State b = StatePending
    end.
Proof.
  intros Hr Hts Htss Ha Hs Hf Hg Hh downAt activeAt Hda Hact remaining.
  pose (x := restore_ActiveAt (r_holdDuration r) grace ts t v).
  assert (Hr0 : r_holdDuration (restore_rule r grace ts (Some find)) = r_holdDuration r
    /\ r_active (restore_rule r grace ts (Some find)) !! h = Some (set_ActiveAt x a)).
  { unfold restore_rule. rewrite (proj2 (Z.ltb_ge _ _)) by lia. cbn [SetRestored set_active r_holdDuration r_active].
    rewrite lookup_fmap, Ha. cbn. rewrite Hf. auto. }
  destruct Hr0 as [Hh0 Ha0].
  destruct (held_run h _ tss r' x [] Hr) as (b & Hb & _ & Hfind).
  - eapply List.Forall_impl; [|exact Htss]. cbn. lia.
  - exists (set_ActiveAt x a). rewrite Ha0. auto.
  - exists b. split; [exact Hb|]. cbn [app] in Hfind. rewrite Hh0 in Hfind.
    erewrite find_ext_in; [exact Hfind|]. intros u Hu. apply (proj1 (List.Forall_forall _ _) Htss) in Hu.
    apply (restore_ActiveAt_held _ _ _ _ _ u); assumption.
Qed.
End runs.

(** ** A rule on one series *)

Definition demo_env : AlertEnv := {| Hash := fun b => fold_left (fun h x => (31 * h + x) mod 2 ^ 64) b 7; expand := fun _ _ _ text => text |}.
Definition at_s (n : Z) : Z := (unixEpoch + n) * Second.
(** [{__name__="m"}] and [{alertname="A"}] *)
Definition demo_sample : Sample := mkSample [8; 95; 95; 110; 97; 109; 101; 95; 95; 1; 109] 0 (f64_of_int 1).
Definition demo_labels : bytes := [9; 97; 108; 101; 114; 116; 110; 97; 109; 101; 1; 65].
(** Fires after 15 s, keeps firing for 60 s. *)
Definition demo_rule : AlertingRule := NewAlertingRule [65] (15 * Second) (60 * Second) [] [] true.
Definition demo_hash : Z := @Hash demo_env demo_labels.

Definition demo_eval (r : AlertingRule) (ts : Z) (res : list Sample) : AlertingRule :=
  match @Eval demo_env r 0 ts (Some res) 0 with Ret (_, r') => r' | Panic => r end.

Definition eval_fine (r : AlertingRule) (ts : Z) (res : list Sample) : bool :=
  match @Eval demo_env r 0 ts (Some res) 0 with Ret (inr _, _) => true | _ => false end.

Lemma demo_eval_ok r ts res : eval_fine r ts res = true ->
  exists vec, @Eval demo_env r 0 ts (Some res) 0 = Ret (inr vec, demo_eval r ts res).
Proof. unfold eval_fine, demo_eval. destruct (Eval _ _ _ _ _) as [[[|vec] r']|]; try discriminate. eauto. Qed.

Lemma demo_matches r ts : (match @build_alert demo_env r ts demo_sample with Ret (h, _) => h =? demo_hash | Panic => false end) = true ->
  @Matches demo_env r ts [demo_sample] demo_hash.
Proof.
  intros H. destruct (@build_alert demo_env r ts demo_sample) as [[h a]|] eqn:E; [|discriminate]. apply Z.eqb_eq in H. subst h.
  exists demo_sample, a. split; [left; reflexivity|exact E].
Qed.

Lemma demo_no_match r ts h : ~ @Matches demo_env r ts [] h.
Proof. intros (? & ? & [] & _). Qed.

Fixpoint demo_run (present : bool) (r : AlertingRule) (tss : list Z) : AlertingRule :=
  match tss with
  | [] => r
  | ts :: tss => demo_run present (demo_eval r ts (if present then [demo_sample] else [])) tss
  end.
Fixpoint run_fine (present : bool) (r : AlertingRule) (tss : list Z) : bool :=
  match tss with
  | [] => true
  | ts :: tss =>
      let res := if present then [demo_sample] else [] in
      eval_fine r ts res && (match @build_alert demo_env r ts demo_sample with Ret (h, _) => h =? demo_hash | Panic => false end)
      && run_fine present (demo_eval r ts res) tss
  end.

Lemma demo_evals present r tss : run_fine present r tss = true -> @evals demo_env demo_hash present r tss (demo_run present r tss).
Proof.
  revert r. induction tss as [|ts tss IH]; intros r; cbn [run_fine demo_run]; [constructor|].
  intros [[H1 H2]%andb_prop H3]%andb_prop. destruct (demo_eval_ok _ _ _ H1) as [vec E].
  eapply evals_eval; [exact E| |exact (IH _ H3)]. destruct present; [apply demo_matches; exact H2|apply demo_no_match].
Qed.

Definition demo_firing : AlertingRule := demo_run true demo_rule [at_s 0; at_s 10; at_s 20].

Lemma alert_fires_once_held_witness :
  exists a, r_active demo_firing !! demo_hash = Some a /\ al_ActiveAt a = at_s 0 /\ al_State a = StateFiring /\ al_FiredAt a = at_s 20.
Proof.
  apply (@alert_fires_once_held demo_env demo_hash demo_rule (at_s 0) [at_s 10; at_s 20] demo_firing).
  - apply demo_evals. vm_compute. reflexivity.
  - repeat apply List.Forall_cons; [reflexivity..|apply List.Forall_nil].
  - vm_compute. exact I.
Defined.

Definition demo_alert : Alert := match r_active demo_firing !! demo_hash with Some a => a | None => mkAlert StateInactive [] [] (f64_of_int 0) 0 0 0 0 0 0 end.
Definition demo_gone : AlertingRule := demo_run false demo_firing [at_s 30; at_s 60; at_s 90; at_s 120].

(** The alert is gone from 30 s on, resolved at 90 s, and still listed at 120 s. *)
Lemma alert_resolves_and_is_dropped_witness :
  exists b, r_active demo_gone !! demo_hash = Some b /\ al_State b = StateInactive /\ al_ResolvedAt b = at_s 90.
Proof.
  assert (Hrun : @evals demo_env demo_hash false demo_firing ([at_s 30; at_s 60] ++ at_s 90 :: [at_s 120]) demo_gone)
    by (apply demo_evals; vm_compute; reflexivity).
  destruct (@alert_resolves_and_is_dropped demo_env demo_hash demo_firing _ demo_gone demo_alert (at_s 30) Hrun) as [_ H].
  - repeat apply List.Forall_cons; [reflexivity..|apply List.Forall_nil].
  - reflexivity.
  - vm_compute. reflexivity.
  - vm_compute. reflexivity.
  - vm_compute. reflexivity.
  - vm_compute. reflexivity.
  - specialize (H [at_s 30; at_s 60] (at_s 90) [at_s 120] eq_refl).
    replace (existsb _ _) with false in H by (vm_compute; reflexivity). apply H.
    + repeat apply List.Forall_cons; [vm_compute; reflexivity..|apply List.Forall_nil].
    + vm_compute. discriminate.
Defined.

Lemma demo_steps present r tss now : run_fine present r tss = true -> Sorted Z.le (now :: tss) ->
  rtc (@rule_step demo_env) (now, r) (fold_left (fun _ t => t) tss now, demo_run present r tss).
Proof.
  revert r now. induction tss as [|ts tss IH]; intros r now; cbn [run_fine demo_run]; [constructor|].
  intros [[H1 _]%andb_prop H3]%andb_prop Hs. destruct (demo_eval_ok _ _ _ H1) as [vec E].
  apply Sorted_inv in Hs as [Hs Hh]. inversion Hh as [|? ? Hle]; subst.
  eapply rtc_l; [eapply step_eval; [exact Hle|exact E]|]. exact (IH _ ts H3 Hs).
Qed.

Lemma demo_firing_reached : rtc (@rule_step demo_env) (at_s 0, demo_rule) (at_s 20, demo_firing).
Proof.
  apply (demo_steps true demo_rule [at_s 0; at_s 10; at_s 20]); [vm_compute; reflexivity|].
  repeat constructor; vm_compute; discriminate.
Qed.

Lemma rule_states_well_formed_witness :
  (forall h a, r_active demo_firing !! h = Some a -> al_State a = StateFiring -> al_ResolvedAt a = 0) /\ Rule_State demo_firing = StateFiring.
Proof.
  destruct (@rule_states_well_formed demo_env [65] (15 * Second) (60 * Second) [] [] true (at_s 0) (at_s 20) demo_firing) as (Hok & _ & Hst).
  - reflexivity.
  - exact demo_firing_reached.
  - split.
    + intros h a Ha Hs. specialize (Hok h a Ha). rewrite Hs in Hok. apply Hok.
    + apply Hst. exists demo_hash, demo_alert. split; vm_compute; reflexivity.
Defined.

(** Without the series for longer than 60 s. *)
Definition demo_resolved : AlertingRule := demo_eval (demo_eval demo_firing (at_s 30) []) (at_s 90) [].

(** Restored at 100 s: down since 50 s, active since 45 s, so that 10 s of the
    15 s remain, with a grace period of 12 s. *)
Definition demo_find (_ : bytes) : option (Z * Z) := Some (50000, 45).
Definition demo_pending : AlertingRule := demo_eval demo_rule (at_s 100) [demo_sample].
Definition demo_restored : AlertingRule := restore_rule demo_pending (12 * Second) (at_s 100) (Some demo_find).
Definition demo_refired : AlertingRule := demo_run true demo_restored [at_s 110; at_s 112].
