(* ===== verification/Isolation.v ===== *)
(** * Isolation of reads from appends: [tsdb/isolation.go]

    Every append gets an id; a read remembers the ids that were incomplete when
    it started.  The open appends and the open reads are circular doubly-linked
    lists with a sentinel, modelled as heaps of nodes addressed by pointers;
    the theorems relate them to plain lists.  A lock makes every operation one
    step.  [sync.Pool] may return any node that was put into it, or a new one. *)

From stdpp Require Import base list numbers gmap.
From Stdlib Require Import ZArith Lia Sorting.Sorted.
From S2P Require Import Prelude.

#[local] Notation "x <~ m ;; k" := (outcome_bind m (fun x => k))
  (at level 100, m at next level, k at level 200, right associativity).

(** ** Heaps *)

(** A pointer; loading from one that points to no node panics. *)
Abbreviation ptr := Z.

Definition load {A} (h : gmap ptr A) (p : ptr) : outcome A :=
  match h !! p with Some n => Ret n | None => Panic end.

(** The address of a new node. *)
Definition new_ptr {A} (h : gmap ptr A) : ptr := map_fold (fun p _ m => Z.max (p + 1) m) 0 h.

Lemma new_ptr_bound {A} (h : gmap ptr A) p n : h !! p = Some n -> p < new_ptr h.
Proof.
  unfold new_ptr. revert p n. apply (map_fold_weak_ind (fun m (h : gmap ptr A) => forall p n, h !! p = Some n -> p < m)).
  - intros p n. rewrite lookup_empty. discriminate.
  - intros q y h' m Hq IH p n. destruct (decide (q = p)) as [->|Hne]; [lia|].
    rewrite lookup_insert_ne by exact Hne. intros Hp. specialize (IH _ _ Hp). lia.
Qed.

Lemma new_ptr_fresh {A} (h : gmap ptr A) : h !! new_ptr h = None.
Proof.
  destruct (h !! new_ptr h) eqn:E; [|reflexivity]. apply new_ptr_bound in E. lia.
Qed.

(** ** The state *)

Record isolationState := mkState {
  maxAppendID : Z;
  incompleteAppends : gset Z;
  st_lowWatermark : Z;
  st_mint : Z; st_maxt : Z;
  st_next : ptr; st_prev : ptr }.

Record isolationAppender := mkAppender {
  app_appendID : Z;
  app_minTime : Z;
  app_prev : ptr; app_next : ptr }.

(** [i_states] and [i_appenders] are the heaps of the nodes of the two lists. *)
Record isolation := mkIso {
  i_appendsOpen : gmap Z ptr;
  i_appendsOpenList : ptr;
  i_appendersPool : list ptr;
  i_readsOpen : ptr;
  i_disabled : bool;
  i_appenders : gmap ptr isolationAppender;
  i_states : gmap ptr isolationState }.

Definition set_app_next v n := mkAppender (app_appendID n) (app_minTime n) (app_prev n) v.
Definition set_app_prev v n := mkAppender (app_appendID n) (app_minTime n) v (app_next n).
Definition set_app_id v n := mkAppender v (app_minTime n) (app_prev n) (app_next n).
Definition set_st_next v n := mkState (maxAppendID n) (incompleteAppends n) (st_lowWatermark n) (st_mint n) (st_maxt n) v (st_prev n).
Definition set_st_prev v n := mkState (maxAppendID n) (incompleteAppends n) (st_lowWatermark n) (st_mint n) (st_maxt n) (st_next n) v.

(** [p.field = v], the field being given by its setter. *)
Definition store {A} (set : A -> A) (p : ptr) (h : gmap ptr A) : outcome (gmap ptr A) :=
  n <~ load h p ;; Ret (<[p := set n]> h).

Definition set_appenders h i := mkIso (i_appendsOpen i) (i_appendsOpenList i) (i_appendersPool i) (i_readsOpen i) (i_disabled i) h (i_states i).
Definition set_states h i := mkIso (i_appendsOpen i) (i_appendsOpenList i) (i_appendersPool i) (i_readsOpen i) (i_disabled i) (i_appenders i) h.
Definition set_appendsOpen m i := mkIso m (i_appendsOpenList i) (i_appendersPool i) (i_readsOpen i) (i_disabled i) (i_appenders i) (i_states i).
Definition set_pool l i := mkIso (i_appendsOpen i) (i_appendsOpenList i) l (i_readsOpen i) (i_disabled i) (i_appenders i) (i_states i).

(** ** Operations *)

Definition newIsolation (disabled : bool) : isolation :=
  mkIso ∅ 0 [] 0 disabled {[0 := mkAppender 0 0 0 0]} {[0 := mkState 0 ∅ 0 0 0 0 0]}.

Definition lowWatermarkLocked (i : isolation) : outcome Z :=
  if i_disabled i then Ret 0
  else
    reads <~ load (i_states i) (i_readsOpen i) ;;
    if negb (st_prev reads =? i_readsOpen i)
    then oldest <~ load (i_states i) (st_prev reads) ;; Ret (st_lowWatermark oldest)
    else
      head <~ load (i_appenders i) (i_appendsOpenList i) ;;
      first <~ load (i_appenders i) (app_next head) ;;
      Ret (app_appendID first).

Definition lowWatermark (i : isolation) : outcome Z :=
  if i_disabled i then Ret 0 else lowWatermarkLocked i.

(** The loop of [lowestAppendTime], from the node [a]. *)
Fixpoint lowest_loop (fuel : nat) (i : isolation) (a : ptr) (lowest : Z) : outcome (option Z) :=
  if a =? i_appendsOpenList i then Ret (Some lowest)
  else match fuel with
       | O => Ret None
       | S fuel' =>
           n <~ load (i_appenders i) a ;;
           lowest_loop fuel' i (app_next n) (if app_minTime n <? lowest then app_minTime n else lowest)
       end.

Definition lowestAppendTime (fuel : nat) (i : isolation) : outcome (option Z) :=
  head <~ load (i_appenders i) (i_appendsOpenList i) ;;
  lowest_loop fuel i (app_next head) MaxInt64.

(** [State]; returns the pointer to the new state. *)
Definition State (mint maxt : Z) (i : isolation) : outcome (ptr * isolation) :=
  head <~ load (i_appenders i) (i_appendsOpenList i) ;;
  first <~ load (i_appenders i) (app_next head) ;;
  let isoState := new_ptr (i_states i) in
  reads <~ load (i_states i) (i_readsOpen i) ;;
  let h := <[isoState := mkState (app_appendID head) (dom (i_appendsOpen i)) (app_appendID first) mint maxt
                                 (st_next reads) (i_readsOpen i)]> (i_states i) in
  h <~ store (set_st_prev isoState) (st_next reads) h ;;
  h <~ store (set_st_next isoState) (i_readsOpen i) h ;;
  Ret (isoState, set_states h i).

(** [Close] of the state at [p]. *)
Definition Close (p : ptr) (i : isolation) : outcome isolation :=
  n <~ load (i_states i) p ;;
  h <~ store (set_st_prev (st_prev n)) (st_next n) (i_states i) ;;
  n <~ load h p ;;
  h <~ store (set_st_next (st_next n)) (st_prev n) h ;;
  Ret (set_states h i).

(** [appendersPool.Get]: the [k]-th node of the pool, or a new one. *)
Definition pool_Get (choice : option nat) (i : isolation) : ptr * isolation :=
  match choice ≫= fun k => i_appendersPool i !! k with
  | Some p => (p, set_pool (List.filter (fun q => negb (q =? p)) (i_appendersPool i)) i)
  | None => let p := new_ptr (i_appenders i) in (p, set_appenders (<[p := mkAppender 0 0 0 0]> (i_appenders i)) i)
  end.

Definition newAppendID (choice : option nat) (minTime : Z) (i : isolation) : outcome (Z * Z * isolation) :=
  if i_disabled i then Ret (0, 0, i)
  else
    let hd := i_appendsOpenList i in
    head <~ load (i_appenders i) hd ;;
    let id := u64 (app_appendID head + 1) in
    h <~ store (set_app_id id) hd (i_appenders i) ;;
    let '(app, i) := pool_Get choice (set_appenders h i) in
    head <~ load (i_appenders i) hd ;;
    h <~ store (fun _ => mkAppender (app_appendID head) minTime (app_prev head) hd) app (i_appenders i) ;;
    h <~ store (set_app_next app) (app_prev head) h ;;
    h <~ store (set_app_prev app) hd h ;;
    let i := set_appendsOpen (<[id := app]> (i_appendsOpen i)) (set_appenders h i) in
    low <~ lowWatermarkLocked i ;;
    Ret (id, low, i).

Definition lastAppendID (i : isolation) : outcome Z :=
  if i_disabled i then Ret 0
  else head <~ load (i_appenders i) (i_appendsOpenList i) ;; Ret (app_appendID head).

Definition closeAppend (appendID : Z) (i : isolation) : outcome isolation :=
  if i_disabled i then Ret i
  else match i_appendsOpen i !! appendID with
       | None => Ret i
       | Some app =>
           n <~ load (i_appenders i) app ;;
           h <~ store (set_app_next (app_next n)) (app_prev n) (i_appenders i) ;;
           n <~ load h app ;;
           h <~ store (set_app_prev (app_prev n)) (app_next n) h ;;
           h <~ store (fun _ => mkAppender 0 0 0 0) app h ;;
           Ret (set_pool (app :: i_appendersPool i) (set_appendsOpen (delete appendID (i_appendsOpen i)) (set_appenders h i)))
       end.

(** [TraverseOpenReads]: the states given to [f], in order, until it returns false. *)
Fixpoint traverse_loop (fuel : nat) (f : isolationState -> bool) (i : isolation) (s : ptr) : outcome (option (list ptr)) :=
  if s =? i_readsOpen i then Ret (Some [])
  else match fuel with
       | O => Ret None
       | S fuel' =>
           n <~ load (i_states i) s ;;
           if f n then
             rest <~ traverse_loop fuel' f i (st_next n) ;;
             Ret (match rest with Some l => Some (s :: l) | None => None end)
           else Ret (Some [s])
       end.
Definition TraverseOpenReads (fuel : nat) (f : isolationState -> bool) (i : isolation) : outcome (option (list ptr)) :=
  head <~ load (i_states i) (i_readsOpen i) ;;
  traverse_loop fuel f i (st_next head).

(** ** Circular doubly-linked lists

    [nx] and [pv] are the pointers of the nodes; [chain nx pv x l] follows [l]
    from [x], and [dll nx pv hd ps] is the list of the nodes [ps] around the
    sentinel [hd]. *)
Section dll.
Implicit Types nx pv : ptr -> option ptr.

Fixpoint chain nx pv (x : ptr) (l : list ptr) : Prop :=
  match l with
  | [] => True
  | y :: l' => nx x = Some y /\ pv y = Some x /\ chain nx pv y l'
  end.

Definition dll nx pv (hd : ptr) (ps : list ptr) : Prop := NoDup (hd :: ps) /\ chain nx pv hd (ps ++ [hd]).

Lemma last_cons_default {A} (l : list A) x y : List.last (y :: l) x = List.last l y.
Proof.
  revert x y. induction l as [|z l IH]; intros x y; [reflexivity|].
  change (List.last (y :: z :: l) x) with (List.last (z :: l) x). rewrite !IH. reflexivity.
Qed.

Lemma chain_app nx pv x l1 l2 : chain nx pv x (l1 ++ l2) <-> chain nx pv x l1 /\ chain nx pv (List.last l1 x) l2.
Proof.
  revert x. induction l1 as [|y l1 IH]; intros x; [cbn; tauto|].
  change ((y :: l1) ++ l2) with (y :: (l1 ++ l2)). cbn [chain]. rewrite IH.
  rewrite last_cons_default. tauto.
Qed.

(** A chain only looks at the next pointers of all its nodes but the last, and
    at the previous pointers of all but the first. *)
Lemma chain_ext nx pv nx' pv' x l z : chain nx pv x (l ++ [z]) ->
  (forall p, p ∈ x :: l -> nx' p = nx p) -> (forall p, p ∈ l ++ [z] -> pv' p = pv p) -> chain nx' pv' x (l ++ [z]).
Proof.
  revert x. induction l as [|y l IH]; intros x; cbn; intros (H1 & H2 & H3) Hn Hp.
  - rewrite Hn, Hp by set_solver. auto.
  - rewrite Hn, Hp by set_solver. split; [exact H1|]. split; [exact H2|].
    apply IH; [exact H3| |]; intros p Hin; [apply Hn|apply Hp]; set_solver.
Qed.

(** The nodes around a position of the list. *)
Definition before (hd : ptr) (p1 : list ptr) : ptr := List.last p1 hd.
Definition after (hd : ptr) (p2 : list ptr) : ptr := match p2 with [] => hd | y :: _ => y end.

Lemma before_in hd p1 : before hd p1 ∈ hd :: p1.
Proof.
  unfold before. destruct p1 as [|p p1]; [set_solver|]. right. revert p. induction p1 as [|q p1 IH]; intros p; [set_solver|].
  change (List.last (p :: q :: p1) hd) with (List.last (q :: p1) hd). right. apply IH.
Qed.

Lemma after_in hd p2 : after hd p2 ∈ p2 ++ [hd].
Proof. destruct p2; cbn; set_solver. Qed.

Lemma dll_split nx pv hd p1 p2 : chain nx pv hd ((p1 ++ p2) ++ [hd]) ->
  chain nx pv hd p1 /\ nx (before hd p1) = Some (after hd p2) /\ pv (after hd p2) = Some (before hd p1)
  /\ match p2 with [] => True | y :: p2' => chain nx pv y (p2' ++ [hd]) end.
Proof.
  rewrite <- app_assoc, chain_app. intros [H1 H2]. split; [exact H1|]. destruct p2 as [|y p2]; cbn in H2 |- *; tauto.
Qed.

(** Both halves of a list survive changes to the pointers between them. *)
Lemma halves_ext nx pv nx' pv' hd p1 p2 : NoDup (hd :: p1 ++ p2) ->
  chain nx pv hd p1 -> match p2 with [] => True | y :: p2' => chain nx pv y (p2' ++ [hd]) end ->
  (forall p, p ∈ hd :: p1 ++ p2 -> p <> before hd p1 -> nx' p = nx p) ->
  (forall p, p ∈ hd :: p1 ++ p2 -> p <> after hd p2 -> pv' p = pv p) ->
  chain nx' pv' hd p1 /\ match p2 with [] => True | y :: p2' => chain nx' pv' y (p2' ++ [hd]) end.
Proof.
  intros Hd H1 H2 Hn Hp. apply NoDup_cons in Hd as [Hhd Hd]. apply NoDup_app in Hd as (Hd1 & Hd12 & Hd2). split.
  - destruct p1 as [|z p1 _] using rev_ind; [exact I|].
    assert (Hb : before hd (p1 ++ [z]) = z) by (unfold before; apply last_last). rewrite Hb in Hn.
    apply NoDup_app in Hd1 as (Hd1 & Hdz & _).
    apply (chain_ext nx pv); [exact H1| |]; intros p Hin.
    + apply Hn; [set_solver|]. intros ->. apply elem_of_cons in Hin as [-> |Hin]; [set_solver|].
      apply (Hdz _ Hin). set_solver.
    + apply Hp; [set_solver|]. intros ->. destruct p2 as [|y p2]; cbn in *; [set_solver|]. apply (Hd12 y Hin). set_solver.
  - destruct p2 as [|y p2]; [exact I|]. apply NoDup_cons in Hd2 as [Hy Hd2].
    apply (chain_ext nx pv); [exact H2| |]; intros p Hin.
    + apply Hn; [set_solver|]. intros ->. pose proof (before_in hd p1) as Hb.
      apply elem_of_cons in Hb as [Hb|Hb]; [rewrite Hb in Hin; set_solver|]. apply (Hd12 _ Hb). exact Hin.
    + apply Hp; [set_solver|]. cbn. intros ->. set_solver.
Qed.

Lemma dll_insert nx pv nx' pv' hd p1 p2 a : dll nx pv hd (p1 ++ p2) -> a ∉ hd :: p1 ++ p2 ->
  (forall p, nx' p = if decide (p = a) then Some (after hd p2) else if decide (p = before hd p1) then Some a else nx p) ->
  (forall p, pv' p = if decide (p = a) then Some (before hd p1) else if decide (p = after hd p2) then Some a else pv p) ->
  dll nx' pv' hd (p1 ++ a :: p2).
Proof.
  intros [Hd Hc] Ha Hn Hp. destruct (dll_split _ _ _ _ _ Hc) as (H1 & Hx & Hy & H2).
  assert (Hba : before hd p1 <> a) by (intros E; pose proof (before_in hd p1); rewrite E in *; set_solver).
  assert (Haa : after hd p2 <> a) by (intros E; pose proof (after_in hd p2); rewrite E in *; set_solver).
  split.
  - rewrite <- Permutation_middle, Permutation_swap. apply NoDup_cons. auto.
  - destruct (halves_ext nx pv nx' pv' hd p1 p2 Hd H1 H2) as [H1' H2'].
    + intros p Hin Hne. rewrite Hn, !decide_False by set_solver. reflexivity.
    + intros p Hin Hne. rewrite Hp, !decide_False by set_solver. reflexivity.
    + rewrite <- app_assoc, chain_app. split; [exact H1'|]. fold (before hd p1). cbn [app chain].
      rewrite Hn, decide_False, decide_True by auto. rewrite Hp, decide_True by auto. do 2 (split; [reflexivity|]).
      assert (Hna : nx' a = Some (after hd p2)) by (rewrite Hn, decide_True; reflexivity).
      assert (Hpy : pv' (after hd p2) = Some a) by (rewrite Hp, decide_False, decide_True by auto; reflexivity).
      destruct p2; cbn in *; auto.
Qed.

Lemma dll_remove nx pv nx' pv' hd p1 p2 a : dll nx pv hd (p1 ++ a :: p2) ->
  (forall p, p <> a -> nx' p = if decide (p = before hd p1) then Some (after hd p2) else nx p) ->
  (forall p, p <> a -> pv' p = if decide (p = after hd p2) then Some (before hd p1) else pv p) ->
  dll nx' pv' hd (p1 ++ p2).
Proof.
  intros [Hd Hc] Hn Hp. rewrite <- Permutation_middle, Permutation_swap in Hd. apply NoDup_cons in Hd as [Ha Hd].
  assert (Hba : before hd p1 <> a) by (intros E; pose proof (before_in hd p1); rewrite E in *; set_solver).
  assert (Haa : after hd p2 <> a) by (intros E; pose proof (after_in hd p2); rewrite E in *; set_solver).
  destruct (dll_split _ _ _ p1 (a :: p2) Hc) as (H1 & _ & _ & H2).
  assert (H2' : match p2 with [] => True | y :: p2' => chain nx pv y (p2' ++ [hd]) end) by (destruct p2; cbn in *; tauto).
  split; [exact Hd|]. destruct (halves_ext nx pv nx' pv' hd p1 p2 Hd H1 H2') as [H1'' H2''].
  - intros p Hin Hne. rewrite Hn, decide_False by set_solver. reflexivity.
  - intros p Hin Hne. rewrite Hp, decide_False by set_solver. reflexivity.
  - rewrite <- app_assoc, chain_app. split; [exact H1''|]. fold (before hd p1).
    assert (Hnb : nx' (before hd p1) = Some (after hd p2)) by (rewrite Hn, decide_True by auto; reflexivity).
    assert (Hpa : pv' (after hd p2) = Some (before hd p1)) by (rewrite Hp, decide_True by auto; reflexivity).
    destruct p2; cbn in *; auto.
Qed.

(** The neighbours of a node, and of the sentinel. *)
Lemma dll_node nx pv hd p1 a p2 : dll nx pv hd (p1 ++ a :: p2) ->
  nx a = Some (after hd p2) /\ pv a = Some (before hd p1).
Proof.
  intros [_ Hc]. destruct (dll_split _ _ _ p1 (a :: p2) Hc) as (_ & _ & Hp & H2). split; [|exact Hp].
  destruct p2; cbn in *; tauto.
Qed.

Lemma dll_head nx pv hd ps : dll nx pv hd ps -> nx hd = Some (after hd ps) /\ pv hd = Some (before hd ps).
Proof.
  intros [_ Hc]. split.
  - apply (dll_split _ _ _ [] ps Hc).
  - rewrite <- (app_nil_r ps) in Hc. apply (dll_split _ _ _ ps [] Hc).
Qed.
End dll.

(** ** Nodes of a heap

    A node has two links and a content that the links do not affect. *)
Class Node (A B : Type) := {
  nd_next : A -> ptr; nd_prev : A -> ptr; nd_content : A -> B;
  nd_set_next : ptr -> A -> A; nd_set_prev : ptr -> A -> A;
  nd_next_next : forall v n, nd_next (nd_set_next v n) = v;
  nd_next_prev : forall v n, nd_next (nd_set_prev v n) = nd_next n;
  nd_prev_prev : forall v n, nd_prev (nd_set_prev v n) = v;
  nd_prev_next : forall v n, nd_prev (nd_set_next v n) = nd_prev n;
  nd_content_next : forall v n, nd_content (nd_set_next v n) = nd_content n;
  nd_content_prev : forall v n, nd_content (nd_set_prev v n) = nd_content n;
  nd_comm : forall v w n, nd_set_next v (nd_set_prev w n) = nd_set_prev w (nd_set_next v n) }.

Definition lk {A} (get : A -> ptr) (h : gmap ptr A) (p : ptr) : option ptr := get <$> h !! p.
Definition ring {A B} `{Node A B} (h : gmap ptr A) (hd : ptr) (ps : list ptr) : Prop := dll (lk nd_next h) (lk nd_prev h) hd ps.
(** The nodes of both heaps have the same content. *)
Definition same_at {A B} `{Node A B} (h h' : gmap ptr A) (p : ptr) : Prop := nd_content <$> h' !! p = nd_content <$> h !! p.

Section nodes.
Context {A B : Type} {N : Node A B}.
Implicit Types h : gmap ptr A.

Lemma store_ok (set : A -> A) p h : is_Some (h !! p) ->
  exists h', store set p h = Ret h' /\ forall q, h' !! q = if decide (q = p) then set <$> h !! q else h !! q.
Proof.
  intros [n Hn]. unfold store, load. rewrite Hn. cbn [outcome_bind]. exists (<[p := set n]> h). split; [reflexivity|].
  intros q. case_decide as E; [subst q; rewrite lookup_insert_eq, Hn; reflexivity|apply lookup_insert_ne; congruence].
Qed.

Lemma load_ok h p n : h !! p = Some n -> load h p = Ret n.
Proof. intros E. unfold load. rewrite E. reflexivity. Qed.

(** Every node of a list is in the heap. *)
Lemma ring_alive h hd ps p : ring h hd ps -> p ∈ hd :: ps -> is_Some (h !! p).
Proof.
  intros Hd Hin. assert (Hl : is_Some (lk nd_next h p)).
  - apply elem_of_cons in Hin as [-> |Hin].
    + rewrite (proj1 (dll_head _ _ _ _ Hd)). eauto.
    + apply list_elem_of_split in Hin as (p1 & p2 & ->). rewrite (proj1 (dll_node _ _ _ _ _ _ Hd)). eauto.
  - unfold lk in Hl. destruct (h !! p); [eauto|]. destruct Hl as [? [=]].
Qed.

(** The heap after the two stores that link [a] between [x] and [y]; with [a]
    and [b] the stores that link [x] and [y] to each other. *)
Definition relinked (x y a b q : ptr) (n : A) : A :=
  let n := if decide (q = y) then nd_set_prev b n else n in if decide (q = x) then nd_set_next a n else n.

Lemma two_stores_prev_next x y a b h : is_Some (h !! x) -> is_Some (h !! y) -> exists h1 h2,
  store (nd_set_prev b) y h = Ret h1 /\ store (nd_set_next a) x h1 = Ret h2 /\ forall q, h2 !! q = relinked x y a b q <$> h !! q.
Proof.
  intros Hx Hy. destruct (store_ok (nd_set_prev b) y h Hy) as (h1 & E1 & L1).
  destruct (store_ok (nd_set_next a) x h1) as (h2 & E2 & L2).
  { rewrite L1. case_decide; [apply fmap_is_Some|]; exact Hx. }
  exists h1, h2. split; [exact E1|]. split; [exact E2|]. intros q. rewrite L2, L1. unfold relinked.
  destruct (h !! q); do 2 case_decide; reflexivity.
Qed.

Lemma two_stores_next_prev x y a b h : is_Some (h !! x) -> is_Some (h !! y) -> exists h1 h2,
  store (nd_set_next a) x h = Ret h1 /\ store (nd_set_prev b) y h1 = Ret h2 /\ forall q, h2 !! q = relinked x y a b q <$> h !! q.
Proof.
  intros Hx Hy. destruct (store_ok (nd_set_next a) x h Hx) as (h1 & E1 & L1).
  destruct (store_ok (nd_set_prev b) y h1) as (h2 & E2 & L2).
  { rewrite L1. case_decide; [apply fmap_is_Some|]; exact Hy. }
  exists h1, h2. split; [exact E1|]. split; [exact E2|]. intros q. rewrite L2, L1. unfold relinked.
  destruct (h !! q); do 2 case_decide; cbn; rewrite ?nd_comm; reflexivity.
Qed.

Lemma relinked_next x y a b q n : nd_next (relinked x y a b q n) = if decide (q = x) then a else nd_next n.
Proof. unfold relinked. repeat case_decide; rewrite ?nd_next_next, ?nd_next_prev; reflexivity. Qed.
Lemma relinked_prev x y a b q n : nd_prev (relinked x y a b q n) = if decide (q = y) then b else nd_prev n.
Proof. unfold relinked. repeat case_decide; rewrite ?nd_prev_next, ?nd_prev_prev; reflexivity. Qed.
Lemma relinked_content x y a b q n : nd_content (relinked x y a b q n) = nd_content n.
Proof. unfold relinked. repeat case_decide; rewrite ?nd_content_next, ?nd_content_prev; reflexivity. Qed.

Lemma relinked_same x y a b h h' : (forall q, h' !! q = relinked x y a b q <$> h !! q) -> forall q, same_at h h' q.
Proof. intros L q. unfold same_at. rewrite L. destruct (h !! q); cbn; [rewrite relinked_content|]; reflexivity. Qed.

(** Linking a new node into a list. *)
Lemma ring_insert h h0 h2 hd p1 p2 a nd : ring h hd (p1 ++ p2) -> a ∉ hd :: p1 ++ p2 ->
  h0 !! a = Some nd -> nd_next nd = after hd p2 -> nd_prev nd = before hd p1 -> (forall q, q <> a -> h0 !! q = h !! q) ->
  (forall q, h2 !! q = relinked (before hd p1) (after hd p2) a a q <$> h0 !! q) -> ring h2 hd (p1 ++ a :: p2).
Proof.
  intros Hr Ha H0 Hn Hp Hsame L.
  assert (Hba : before hd p1 <> a) by (intros E; pose proof (before_in hd p1); rewrite E in *; set_solver).
  assert (Haa : after hd p2 <> a) by (intros E; pose proof (after_in hd p2); rewrite E in *; set_solver).
  assert (Hb : is_Some (h !! before hd p1)) by (apply (ring_alive _ _ _ _ Hr); pose proof (before_in hd p1); set_solver).
  assert (Hf : is_Some (h !! after hd p2)) by (apply (ring_alive _ _ _ _ Hr); pose proof (after_in hd p2); set_solver).
  apply (dll_insert (lk nd_next h) (lk nd_prev h) _ _ hd p1 p2 a Hr Ha); intros q; unfold lk; rewrite L.
  - destruct (decide (q = a)) as [->|Hqa]; [rewrite H0; cbn; rewrite relinked_next, decide_False by congruence; congruence|].
    rewrite Hsame by exact Hqa. case_decide as E.
    + subst q. destruct Hb as [n Hb]. rewrite Hb. cbn. rewrite relinked_next, decide_True by reflexivity. reflexivity.
    + destruct (h !! q); cbn; [rewrite relinked_next, decide_False by exact E|]; reflexivity.
  - destruct (decide (q = a)) as [->|Hqa]; [rewrite H0; cbn; rewrite relinked_prev, decide_False by congruence; congruence|].
    rewrite Hsame by exact Hqa. case_decide as E.
    + subst q. destruct Hf as [n Hf]. rewrite Hf. cbn. rewrite relinked_prev, decide_True by reflexivity. reflexivity.
    + destruct (h !! q); cbn; [rewrite relinked_prev, decide_False by exact E|]; reflexivity.
Qed.

(** Unlinking a node; what it becomes does not matter. *)
Lemma ring_remove h h2 hd p1 p2 a : ring h hd (p1 ++ a :: p2) ->
  (forall q, q <> a -> h2 !! q = relinked (before hd p1) (after hd p2) (after hd p2) (before hd p1) q <$> h !! q) ->
  ring h2 hd (p1 ++ p2).
Proof.
  intros Hr L.
  assert (Hb : is_Some (h !! before hd p1)) by (apply (ring_alive _ _ _ _ Hr); pose proof (before_in hd p1); set_solver).
  assert (Hf : is_Some (h !! after hd p2)) by (apply (ring_alive _ _ _ _ Hr); pose proof (after_in hd p2); set_solver).
  apply (dll_remove (lk nd_next h) (lk nd_prev h) _ _ hd p1 p2 a Hr); intros q Hq; unfold lk; rewrite L by exact Hq; case_decide as E.
  - subst q. destruct Hb as [n Hb]. rewrite Hb. cbn. rewrite relinked_next, decide_True by reflexivity. reflexivity.
  - destruct (h !! q); cbn; [rewrite relinked_next, decide_False by exact E|]; reflexivity.
  - subst q. destruct Hf as [n Hf]. rewrite Hf. cbn. rewrite relinked_prev, decide_True by reflexivity. reflexivity.
  - destruct (h !! q); cbn; [rewrite relinked_prev, decide_False by exact E|]; reflexivity.
Qed.

(** The links of a node, and of the sentinel. *)
Lemma ring_node h hd p1 a p2 : ring h hd (p1 ++ a :: p2) ->
  exists n, h !! a = Some n /\ nd_next n = after hd p2 /\ nd_prev n = before hd p1.
Proof.
  intros Hr. destruct (dll_node _ _ _ _ _ _ Hr) as [Hn Hp]. unfold lk in *. destruct (h !! a) as [n|]; [|discriminate].
  injection Hn as Hn. injection Hp as Hp. eauto.
Qed.

Lemma ring_head h hd ps n : ring h hd ps -> h !! hd = Some n -> nd_next n = after hd ps /\ nd_prev n = before hd ps.
Proof.
  intros Hr Hh. destruct (dll_head _ _ _ _ Hr) as [Hn Hp]. unfold lk in *. rewrite Hh in *.
  injection Hn as Hn. injection Hp as Hp. auto.
Qed.

(** Changing the content alone. *)
Lemma ring_ext h h' hd ps : ring h hd ps -> (forall q, q ∈ hd :: ps -> nd_next <$> h' !! q = nd_next <$> h !! q) ->
  (forall q, q ∈ hd :: ps -> nd_prev <$> h' !! q = nd_prev <$> h !! q) -> ring h' hd ps.
Proof.
  intros [Hd Hc] Hn Hp. split; [exact Hd|]. apply (chain_ext (lk nd_next h) (lk nd_prev h)); [exact Hc|exact Hn|].
  intros q Hq. apply Hp. set_solver.
Qed.
End nodes.

(** ** The abstract state

    The open appends in the order of their ids, the open reads from the newest
    to the oldest, each with the pointer that identifies it. *)
Record read := mkRead { rd_max : Z; rd_incomplete : gset Z; rd_low : Z; rd_mint : Z; rd_maxt : Z }.
Record spec := mkSpec { sp_disabled : bool; sp_last : Z; sp_open : list (Z * Z); sp_reads : list (ptr * read) }.

Definition sp_new (disabled : bool) : spec := mkSpec disabled 0 [] [].
Definition sp_ids (s : spec) : list Z := map fst (sp_open s).

(** The lowest open append, or the last id. *)
Definition sp_low_open (s : spec) : Z := match sp_open s with [] => sp_last s | (id, _) :: _ => id end.
Definition sp_low (s : spec) : Z :=
  if sp_disabled s then 0
  else match last (sp_reads s) with Some (_, r) => rd_low r | None => sp_low_open s end.

Inductive op : Type :=
| OpNewAppend (choice : option nat) (minTime : Z)
| OpCloseAppend (id : Z)
| OpState (mint maxt : Z)
| OpClose (p : ptr)
| OpLowWatermark
| OpLowestAppendTime
| OpLastAppendID
| OpTraverse (f : read -> bool).

Inductive res : Type := ResUnit | ResZ (z : Z) | ResPair (id low : Z) | ResPtr (p : ptr) | ResList (l : list ptr).

Definition read_of (n : isolationState) : read :=
  mkRead (maxAppendID n) (incompleteAppends n) (st_lowWatermark n) (st_mint n) (st_maxt n).

(** The loops are given as much fuel as there are nodes. *)
Definition exec (o : op) (i : isolation) : outcome (option res * isolation) :=
  match o with
  | OpNewAppend c mt => x <~ newAppendID c mt i ;; let '(id, low, i') := x in Ret (Some (ResPair id low), i')
  | OpCloseAppend id => i' <~ closeAppend id i ;; Ret (Some ResUnit, i')
  | OpState mint maxt => x <~ State mint maxt i ;; let '(p, i') := x in Ret (Some (ResPtr p), i')
  | OpClose p => i' <~ Close p i ;; Ret (Some ResUnit, i')
  | OpLowWatermark => z <~ lowWatermark i ;; Ret (Some (ResZ z), i)
  | OpLowestAppendTime => z <~ lowestAppendTime (size (i_appenders i)) i ;; Ret (option_map ResZ z, i)
  | OpLastAppendID => z <~ lastAppendID i ;; Ret (Some (ResZ z), i)
  | OpTraverse f => l <~ TraverseOpenReads (size (i_states i)) (fun n => f (read_of n)) i ;; Ret (option_map ResList l, i)
  end.

Definition sp_newAppend (mt : Z) (s : spec) : spec :=
  mkSpec (sp_disabled s) (sp_last s + 1) (sp_open s ++ [(sp_last s + 1, mt)]) (sp_reads s).
Definition sp_closeAppend (id : Z) (s : spec) : spec :=
  mkSpec (sp_disabled s) (sp_last s) (List.filter (fun e => negb (fst e =? id)) (sp_open s)) (sp_reads s).
Definition sp_State (p : ptr) (mint maxt : Z) (s : spec) : spec :=
  mkSpec (sp_disabled s) (sp_last s) (sp_open s)
    ((p, mkRead (sp_last s) (list_to_set (sp_ids s)) (sp_low_open s) mint maxt) :: sp_reads s).
Definition sp_Close (p : ptr) (s : spec) : spec :=
  mkSpec (sp_disabled s) (sp_last s) (sp_open s) (List.filter (fun e => negb (fst e =? p)) (sp_reads s)).

(** The reads until one on which [f] is false. *)
Fixpoint traverse (f : read -> bool) (l : list (ptr * read)) : list ptr :=
  match l with
  | [] => []
  | (p, r) :: l' => p :: if f r then traverse f l' else []
  end.

Inductive spec_step (s : spec) : op -> res -> spec -> Prop :=
| sp_new_append c mt : sp_disabled s = false ->
    spec_step s (OpNewAppend c mt) (ResPair (sp_last s + 1) (sp_low (sp_newAppend mt s))) (sp_newAppend mt s)
| sp_new_append_disabled c mt : sp_disabled s = true -> spec_step s (OpNewAppend c mt) (ResPair 0 0) s
| sp_close_append id : spec_step s (OpCloseAppend id) ResUnit (sp_closeAppend id s)
| sp_open_read p mint maxt : p ∉ map fst (sp_reads s) -> spec_step s (OpState mint maxt) (ResPtr p) (sp_State p mint maxt s)
| sp_close_read p : p ∈ map fst (sp_reads s) -> spec_step s (OpClose p) ResUnit (sp_Close p s)
| sp_low_watermark : spec_step s OpLowWatermark (ResZ (sp_low s)) s
| sp_lowest_time : spec_step s OpLowestAppendTime (ResZ (fold_right Z.min MaxInt64 (map snd (sp_open s)))) s
| sp_last_id : spec_step s OpLastAppendID (ResZ (if sp_disabled s then 0 else sp_last s)) s
| sp_traverse f : spec_step s (OpTraverse f) (ResList (traverse f (sp_reads s))) s.

(** Ids do not run out, and a read is closed once. *)
Definition allowed (s : spec) (o : op) : Prop :=
  match o with
  | OpNewAppend _ _ => sp_last s + 1 < 2 ^ 64
  | OpClose p => p ∈ map fst (sp_reads s)
  | _ => True
  end.

(** ** What the abstract states satisfy *)
Record sp_ok (s : spec) : Prop := mkOk {
  ok_last : 0 <= sp_last s < 2 ^ 64;
  ok_sorted : StronglySorted Z.lt (sp_ids s);
  ok_ids : List.Forall (fun id => 0 < id <= sp_last s) (sp_ids s);
  ok_handles : NoDup (map fst (sp_reads s));
  ok_reads : List.Forall (fun e => rd_low (snd e) <= rd_max (snd e) <= sp_last s /\ rd_low (snd e) <= sp_low_open s
     /\ forall id, id ∈ rd_incomplete (snd e) -> rd_low (snd e) <= id <= rd_max (snd e)) (sp_reads s);
  ok_lows : StronglySorted (fun a b => rd_low (snd b) <= rd_low (snd a)) (sp_reads s);
  ok_disabled : sp_disabled s = true -> sp_open s = [] }.

(** Every operation keeps them. *)
Section spec_ok.

Lemma low_open_mono_new s mt : sp_ok s -> sp_low_open s <= sp_low_open (sp_newAppend mt s).
Proof. intros Hok. unfold sp_low_open, sp_newAppend. cbn. destruct (sp_open s) as [|[id t] l]; cbn; lia. Qed.

Lemma map_fst_filter {B} (f : Z -> bool) (l : list (Z * B)) :
  map fst (List.filter (fun e => f (fst e)) l) = List.filter f (map fst l).
Proof. induction l as [|[a b] l IH]; cbn; [reflexivity|]. destruct (f a); cbn; congruence. Qed.

Lemma low_open_in s : sp_ok s -> sp_low_open s <= sp_last s /\ List.Forall (fun id => sp_low_open s <= id) (sp_ids s).
Proof.
  intros [_ Hs Hids _ _ _ _]. unfold sp_low_open, sp_ids in *. destruct (sp_open s) as [|[id t] l]; cbn in *; [split; [lia|constructor]|].
  apply List.Forall_inv in Hids as Hid. split; [lia|]. apply StronglySorted_inv in Hs as [_ Hs].
  constructor; [lia|]. eapply List.Forall_impl; [|exact Hs]. cbn. lia.
Qed.

Lemma low_open_mono_close s id : sp_ok s -> sp_low_open s <= sp_low_open (sp_closeAppend id s).
Proof.
  intros Hok. destruct (low_open_in s Hok) as [Hle Hall]. unfold sp_closeAppend, sp_low_open at 2. cbn.
  destruct (List.filter _ _) as [|[id' t] l] eqn:E; [exact Hle|].
  apply (proj1 (List.Forall_forall _ _) Hall). assert (Hin : In (id', t) (List.filter (fun e => negb (fst e =? id)) (sp_open s))) by (rewrite E; left; reflexivity).
  apply filter_In in Hin as [Hin _]. exact (in_map fst _ _ Hin).
Qed.

(** The reads stay as they are while the lowest open append does not go back. *)
Lemma reads_ok_mono s s' : sp_ok s -> sp_reads s' = sp_reads s -> sp_low_open s <= sp_low_open s' -> sp_last s <= sp_last s' ->
  List.Forall (fun e => rd_low (snd e) <= rd_max (snd e) <= sp_last s' /\ rd_low (snd e) <= sp_low_open s'
     /\ forall id, id ∈ rd_incomplete (snd e) -> rd_low (snd e) <= id <= rd_max (snd e)) (sp_reads s').
Proof.
  intros [_ _ _ _ Hr _ _] -> Hlow Hlast. eapply List.Forall_impl; [|exact Hr]. cbn. intros [p r] (H1 & H2 & H3). cbn in *.
  split; [lia|]. split; [lia|exact H3].
Qed.

Lemma sorted_snoc l x : StronglySorted Z.lt l -> List.Forall (fun y => y < x) l -> StronglySorted Z.lt (l ++ [x]).
Proof.
  induction 1 as [|y l Hs IH Hf]; cbn; intros Hl; [repeat constructor|]. inversion Hl; subst. constructor; [auto|].
  apply List.Forall_app. split; [exact Hf|repeat constructor; assumption].
Qed.

Lemma sp_newAppend_ok s mt : sp_ok s -> sp_disabled s = false -> sp_last s + 1 < 2 ^ 64 -> sp_ok (sp_newAppend mt s).
Proof.
  intros Hok Hd Hlt. pose proof Hok as [Hl Hs Hids Hh _ Hlows _]. unfold sp_ids in *.
  constructor; unfold sp_ids; try rewrite Hd; cbn [sp_newAppend sp_last sp_open sp_disabled sp_reads]; rewrite ?map_app; cbn [map fst].
  - lia.
  - apply sorted_snoc; [exact Hs|]. eapply List.Forall_impl; [|exact Hids]. cbn. lia.
  - apply List.Forall_app. split; [eapply List.Forall_impl; [|exact Hids]; cbn; lia|repeat constructor; lia].
  - exact Hh.
  - apply (reads_ok_mono s (sp_newAppend mt s)); [exact Hok|reflexivity|apply low_open_mono_new; exact Hok|cbn; lia].
  - exact Hlows.
  - congruence.
Qed.

Lemma sp_closeAppend_ok s id : sp_ok s -> sp_ok (sp_closeAppend id s).
Proof.
  intros Hok. pose proof Hok as [Hl Hs Hids Hh _ Hlows Hdis].
  assert (Hmap : sp_ids (sp_closeAppend id s) = List.filter (fun x => negb (x =? id)) (sp_ids s))
    by (unfold sp_ids; cbn; apply (map_fst_filter (fun x => negb (x =? id)))).
  constructor; rewrite ?Hmap; cbn [sp_closeAppend sp_last sp_open sp_disabled sp_reads].
  - exact Hl.
  - apply filter_sorted. exact Hs.
  - apply List.Forall_forall. intros x Hx. apply filter_In in Hx as [Hx _]. exact (proj1 (List.Forall_forall _ _) Hids x Hx).
  - exact Hh.
  - apply (reads_ok_mono s (sp_closeAppend id s)); [exact Hok|reflexivity|apply low_open_mono_close; exact Hok|cbn; lia].
  - exact Hlows.
  - intros H. rewrite (Hdis H). reflexivity.
Qed.

Lemma sp_State_ok s p mint maxt : sp_ok s -> p ∉ map fst (sp_reads s) -> sp_ok (sp_State p mint maxt s).
Proof.
  intros Hok Hp. pose proof Hok as [Hl Hs Hids Hh Hr Hlows Hdis]. destruct (low_open_in s Hok) as [Hle Hall].
  constructor; try assumption; cbn [sp_State sp_reads map fst snd].
  - apply NoDup_cons. auto.
  - constructor; [|exact Hr]. cbn. split; [lia|]. split; [unfold sp_low_open; cbn; lia|].
    intros id Hid. apply elem_of_list_to_set, list_elem_of_In in Hid.
    pose proof (proj1 (List.Forall_forall _ _) Hids id Hid). pose proof (proj1 (List.Forall_forall _ _) Hall id Hid). cbn in *. lia.
  - constructor; [exact Hlows|]. eapply List.Forall_impl; [|exact Hr]. cbn. lia.
Qed.

Lemma sp_Close_ok s p : sp_ok s -> sp_ok (sp_Close p s).
Proof.
  intros [Hl Hs Hids Hh Hr Hlows Hdis]. constructor; try assumption; cbn [sp_Close sp_reads].
  - rewrite (map_fst_filter (fun x => negb (x =? p))). apply NoDup_ListNoDup, List.NoDup_filter, NoDup_ListNoDup. exact Hh.
  - apply List.Forall_forall. intros x Hx. apply filter_In in Hx as [Hx _]. exact (proj1 (List.Forall_forall _ _) Hr x Hx).
  - apply filter_sorted. exact Hlows.
Qed.

Lemma spec_step_ok s o r s' : sp_ok s -> allowed s o -> spec_step s o r s' -> sp_ok s'.
Proof.
  intros Hok Ha H. destruct H; try exact Hok.
  - apply sp_newAppend_ok; assumption.
  - apply sp_closeAppend_ok. exact Hok.
  - apply sp_State_ok; assumption.
  - apply sp_Close_ok. exact Hok.
Qed.

Lemma sp_new_ok d : sp_ok (sp_new d).
Proof. constructor; cbn; [lia|constructor..|reflexivity]. Qed.
End spec_ok.

(** ** The heaps represent the abstract state *)

#[export, refine] Instance appender_node : Node isolationAppender (Z * Z) := {|
  nd_next := app_next; nd_prev := app_prev; nd_content := fun n => (app_appendID n, app_minTime n);
  nd_set_next := set_app_next; nd_set_prev := set_app_prev |}.
Proof. all: reflexivity. Defined.

#[export, refine] Instance state_node : Node isolationState read := {|
  nd_next := st_next; nd_prev := st_prev; nd_content := read_of;
  nd_set_next := set_st_next; nd_set_prev := set_st_prev |}.
Proof. all: reflexivity. Defined.

Definition app_node (h : gmap ptr isolationAppender) (p : ptr) (e : Z * Z) : Prop := nd_content <$> h !! p = Some e.
Definition read_node (h : gmap ptr isolationState) (e : ptr * read) : Prop := nd_content <$> h !! fst e = Some (snd e).

Record represents (i : isolation) (s : spec) (aps : list ptr) : Prop := mkRep {
  rep_disabled : i_disabled i = sp_disabled s;
  rep_apps : ring (i_appenders i) (i_appendsOpenList i) aps;
  rep_last : exists n, i_appenders i !! i_appendsOpenList i = Some n /\ app_appendID n = sp_last s;
  rep_open : Forall2 (app_node (i_appenders i)) aps (sp_open s);
  rep_map : forall id p, i_appendsOpen i !! id = Some p <-> (exists mt, (p, (id, mt)) ∈ zip aps (sp_open s));
  rep_pool : forall p, p ∈ i_appendersPool i -> (p ∉ i_appendsOpenList i :: aps) /\ is_Some (i_appenders i !! p);
  rep_reads : ring (i_states i) (i_readsOpen i) (map fst (sp_reads s));
  rep_read : List.Forall (read_node (i_states i)) (sp_reads s);
  rep_head : is_Some (i_states i !! i_readsOpen i) }.

Section represents.

Lemma newIsolation_represents d : represents (newIsolation d) (sp_new d) [].
Proof.
  assert (Hdll : forall A B (N : Node A B) (n : A), nd_next n = 0 -> nd_prev n = 0 -> ring {[0 := n]} 0 []).
  { intros A B N n Hn Hp. split; [apply NoDup_singleton|]. cbn. unfold lk. rewrite lookup_singleton_eq. cbn. rewrite Hn, Hp. auto. }
  constructor; cbn.
  - reflexivity.
  - apply Hdll; reflexivity.
  - exists (mkAppender 0 0 0 0). split; reflexivity.
  - constructor.
  - intros id p. rewrite lookup_empty. split; [discriminate|]. intros (mt & Hin). set_solver.
  - intros p Hp. set_solver.
  - apply Hdll; reflexivity.
  - constructor.
  - eexists. reflexivity.
Qed.

Lemma rep_first i s aps : represents i s aps -> exists hn fn, i_appenders i !! i_appendsOpenList i = Some hn
  /\ app_appendID hn = sp_last s /\ i_appenders i !! app_next hn = Some fn /\ app_appendID fn = sp_low_open s.
Proof.
  intros R. destruct (rep_last _ _ _ R) as (hn & Hh & Hid). exists hn.
  destruct (ring_head _ _ _ _ (rep_apps _ _ _ R) Hh) as [Hn _]. cbn in Hn. rewrite Hn.
  unfold sp_low_open. destruct (rep_open _ _ _ R) as [|p [id mt] aps' l Hp _]; cbn.
  - exists hn. auto.
  - unfold app_node in Hp. destruct (i_appenders i !! p) as [n|] eqn:E; [|discriminate]. injection Hp as Hi _.
    exists n. auto.
Qed.

Lemma rep_ids i s aps id : represents i s aps -> is_Some (i_appendsOpen i !! id) <-> In id (sp_ids s).
Proof.
  intros R. unfold sp_ids. rewrite in_map_iff. split.
  - intros [p Hp]. apply (rep_map _ _ _ R) in Hp as (mt & Hin). exists (id, mt). split; [reflexivity|].
    apply list_elem_of_lookup in Hin as [k Hk]. apply lookup_zip_Some in Hk as [_ Hk]. apply list_elem_of_In. eapply list_elem_of_lookup_2. exact Hk.
  - intros ([id' mt] & <- & Hin). apply list_elem_of_In, list_elem_of_lookup in Hin as [k Hk]. cbn [fst].
    destruct (Forall2_lookup_r _ _ _ _ _ (rep_open _ _ _ R) Hk) as (p & Hp & _). exists p. apply (rep_map _ _ _ R).
    exists mt. apply list_elem_of_lookup. exists k. apply lookup_zip_Some. auto.
Qed.

Lemma rep_dom i s aps : represents i s aps -> dom (i_appendsOpen i) = list_to_set (sp_ids s).
Proof.
  intros R. apply set_eq. intros id. rewrite elem_of_dom, elem_of_list_to_set, list_elem_of_In. exact (rep_ids i s aps id R).
Qed.

(** Changes to the reads alone. *)
Lemma represents_reads i s s' aps h : represents i s aps ->
  sp_disabled s' = sp_disabled s -> sp_last s' = sp_last s -> sp_open s' = sp_open s ->
  ring h (i_readsOpen i) (map fst (sp_reads s')) -> List.Forall (read_node h) (sp_reads s') ->
  represents (set_states h i) s' aps.
Proof.
  intros [] E1 E2 E3 Hd Hr. constructor; cbn; rewrite ?E1, ?E2, ?E3; try assumption.
  eapply ring_alive; [exact Hd|left].
Qed.

Lemma State_refines i s aps mint maxt : represents i s aps -> exists p i', State mint maxt i = Ret (p, i')
  /\ (p ∉ map fst (sp_reads s)) /\ represents i' (sp_State p mint maxt s) aps.
Proof.
  intros R. destruct (rep_first _ _ _ R) as (hn & fn & Hh & Hid & Hf & Hlow). unfold State.
  rewrite (load_ok _ _ _ Hh). cbn [outcome_bind]. rewrite (load_ok _ _ _ Hf). cbn [outcome_bind].
  destruct (rep_head _ _ _ R) as [rn Hrn]. rewrite (load_ok _ _ _ Hrn). cbn [outcome_bind].
  rewrite Hid, Hlow, (rep_dom _ _ _ R). set (p := new_ptr (i_states i)). pose proof (new_ptr_fresh (i_states i)) as Hp. fold p in Hp.
  pose proof (rep_reads _ _ _ R) as Hd. destruct (ring_head _ _ _ _ Hd Hrn) as [Hnx _]. cbn in Hnx. rewrite Hnx.
  assert (Hpd : p ∉ i_readsOpen i :: map fst (sp_reads s)) by (intros Hin; destruct (ring_alive _ _ _ _ Hd Hin) as [n Hn]; congruence).
  set (nd := mkState _ _ _ _ _ _ _). set (h0 := <[p := nd]> (i_states i)).
  assert (Hal : forall q, q ∈ i_readsOpen i :: map fst (sp_reads s) -> is_Some (h0 !! q)).
  { intros q Hq. unfold h0. rewrite lookup_insert_ne by set_solver. exact (ring_alive _ _ _ _ Hd Hq). }
  destruct (two_stores_prev_next (i_readsOpen i) (after (i_readsOpen i) (map fst (sp_reads s))) p p h0) as (h1 & h2 & E1 & E2 & L).
  { apply Hal. left. } { apply Hal. pose proof (after_in (i_readsOpen i) (map fst (sp_reads s))). set_solver. }
  cbn [nd_set_prev nd_set_next state_node] in E1, E2. rewrite E1. cbn [outcome_bind]. rewrite E2. cbn [outcome_bind].
  exists p, (set_states h2 i). split; [reflexivity|]. split; [set_solver|].
  apply (represents_reads i s); try reflexivity; [exact R| |].
  - apply (ring_insert (i_states i) h0 h2 _ [] (map fst (sp_reads s)) p nd); try assumption; try reflexivity.
    + apply lookup_insert_eq.
    + intros q Hq. apply lookup_insert_ne. congruence.
  - constructor.
    + unfold read_node. cbn [fst snd]. rewrite (relinked_same _ _ _ _ _ _ L). unfold h0. rewrite lookup_insert_eq. reflexivity.
    + apply List.Forall_forall. intros e He. pose proof (proj1 (List.Forall_forall _ _) (rep_read _ _ _ R) e He) as Hr.
      unfold read_node in *. rewrite (relinked_same _ _ _ _ _ _ L). unfold h0.
      rewrite lookup_insert_ne; [exact Hr|]. intros E. rewrite <- E, Hp in Hr. discriminate.
Qed.

Lemma filter_split {B} (l : list (Z * B)) p : NoDup (map fst l) -> p ∈ map fst l ->
  exists l1 e l2, l = l1 ++ e :: l2 /\ fst e = p /\ List.filter (fun e => negb (fst e =? p)) l = l1 ++ l2.
Proof.
  induction l as [|[q b] l IH]; cbn [map fst]; intros Hd Hin; [set_solver|]. apply NoDup_cons in Hd as [Hq Hd].
  assert (Hrest : forall m : list (Z * B), p ∉ map fst m -> List.filter (fun e => negb (fst e =? p)) m = m).
  { intros m. induction m as [|[r c] m IHm]; cbn; [reflexivity|]. intros Hm.
    rewrite (proj2 (Z.eqb_neq r p)) by set_solver. cbn. rewrite IHm by set_solver. reflexivity. }
  destruct (decide (q = p)) as [->|Hne].
  - exists [], (p, b), l. split; [reflexivity|]. split; [reflexivity|]. cbn. rewrite Z.eqb_refl. cbn. apply Hrest. exact Hq.
  - destruct IH as (l1 & e & l2 & -> & He & Hf); [exact Hd|set_solver|]. exists ((q, b) :: l1), e, l2.
    split; [reflexivity|]. split; [exact He|]. cbn. rewrite (proj2 (Z.eqb_neq q p)) by exact Hne. cbn. rewrite Hf. reflexivity.
Qed.

Lemma Close_refines i s aps p : represents i s aps -> sp_ok s -> p ∈ map fst (sp_reads s) ->
  exists i', Close p i = Ret i' /\ represents i' (sp_Close p s) aps.
Proof.
  intros R Hok Hin. destruct (filter_split _ _ (ok_handles _ Hok) Hin) as (l1 & e & l2 & El & Ee & Ef).
  pose proof (rep_reads _ _ _ R) as Hd. rewrite El, map_app in Hd. cbn [map] in Hd. rewrite Ee in Hd.
  destruct (ring_node _ _ _ _ _ Hd) as (n & Hn & Hnn & Hnp). cbn in Hnn, Hnp. unfold Close. rewrite (load_ok _ _ _ Hn). cbn [outcome_bind].
  set (x := before (i_readsOpen i) (map fst l1)) in *. set (y := after (i_readsOpen i) (map fst l2)) in *.
  assert (Hx : x ∈ i_readsOpen i :: map fst l1) by apply before_in.
  assert (Hy : y ∈ map fst l2 ++ [i_readsOpen i]) by apply after_in.
  assert (Hnd : p ∉ i_readsOpen i :: map fst l1 ++ map fst l2).
  { destruct Hd as [Hd _]. rewrite <- Permutation_middle, Permutation_swap in Hd. apply NoDup_cons in Hd. tauto. }
  destruct (two_stores_prev_next x y y x (i_states i)) as (h1 & h2 & E1 & E2 & L).
  { apply (ring_alive _ _ _ _ Hd). set_solver. } { apply (ring_alive _ _ _ _ Hd). set_solver. }
  cbn [nd_set_prev nd_set_next state_node] in E1, E2. rewrite Hnn, Hnp, E1. cbn [outcome_bind].
  assert (H1p : h1 !! p = Some n).
  { unfold store, load in E1. destruct (i_states i !! y); [|discriminate]. injection E1 as <-.
    rewrite lookup_insert_ne; [exact Hn|]. clear -Hy Hnd. clearbody y. set_solver. }
  rewrite (load_ok _ _ _ H1p). cbn [outcome_bind]. rewrite Hnn, Hnp, E2. cbn [outcome_bind].
  exists (set_states h2 i). split; [reflexivity|]. apply (represents_reads i s); try reflexivity; [exact R| |]; cbn [sp_Close sp_reads]; rewrite Ef.
  - rewrite map_app. apply (ring_remove (i_states i) h2 _ _ _ p Hd). intros q _. apply L.
  - apply List.Forall_forall. intros e' He. unfold read_node. rewrite (relinked_same _ _ _ _ _ _ L).
    apply (proj1 (List.Forall_forall _ _) (rep_read _ _ _ R)). rewrite El. apply in_app_iff. apply in_app_iff in He. cbn. tauto.
Qed.

Lemma before_snoc hd l p : before hd (l ++ [p]) = p.
Proof. unfold before. apply last_last. Qed.

(** The oldest read is before the sentinel. *)
Lemma lowWatermarkLocked_refines i s aps : represents i s aps -> lowWatermarkLocked i = Ret (sp_low s).
Proof.
  intros R. unfold lowWatermarkLocked, sp_low. rewrite (rep_disabled _ _ _ R). destruct (sp_disabled s); [reflexivity|].
  destruct (rep_head _ _ _ R) as [rn Hrn]. rewrite (load_ok _ _ _ Hrn). cbn [outcome_bind].
  pose proof (rep_reads _ _ _ R) as Hd. destruct (ring_head _ _ _ _ Hd Hrn) as [_ Hp]. cbn in Hp. rewrite Hp.
  pose proof (rep_read _ _ _ R) as Hr. destruct (decide (sp_reads s = [])) as [E|Hne].
  - rewrite E. cbn. rewrite Z.eqb_refl. cbn. destruct (rep_first _ _ _ R) as (hn & fn & Hh & _ & Hf & Hlow).
    rewrite (load_ok _ _ _ Hh). cbn [outcome_bind]. rewrite (load_ok _ _ _ Hf). cbn [outcome_bind]. rewrite Hlow. reflexivity.
  - destruct (exists_last Hne) as (l & [p r] & E). rewrite E in Hd, Hr |- *.
    rewrite map_app in Hd |- *. cbn [map fst] in Hd |- *. rewrite before_snoc, last_snoc.
    rewrite (proj2 (Z.eqb_neq _ _)) by (destruct Hd as [Hd _]; apply NoDup_cons in Hd as [Hd _]; set_solver). cbn [negb].
    apply List.Forall_app in Hr as [_ Hr]. apply List.Forall_inv in Hr. unfold read_node in Hr. cbn [fst snd] in Hr.
    destruct (i_states i !! p) as [n|] eqn:En; [|discriminate]. injection Hr as <-. rewrite (load_ok _ _ _ En). reflexivity.
Qed.

Lemma lowWatermark_refines i s aps : represents i s aps -> lowWatermark i = Ret (sp_low s).
Proof.
  intros R. unfold lowWatermark. rewrite (lowWatermarkLocked_refines _ _ _ R). rewrite (rep_disabled _ _ _ R).
  unfold sp_low. destruct (sp_disabled s); reflexivity.
Qed.

Lemma lastAppendID_refines i s aps : represents i s aps -> lastAppendID i = Ret (if sp_disabled s then 0 else sp_last s).
Proof.
  intros R. unfold lastAppendID. rewrite (rep_disabled _ _ _ R). destruct (sp_disabled s); [reflexivity|].
  destruct (rep_last _ _ _ R) as (n & Hn & <-). rewrite (load_ok _ _ _ Hn). reflexivity.
Qed.

(** The nodes of a list are at most as many as those of the heap. *)
Lemma ring_size {A B} {N : Node A B} (h : gmap ptr A) hd ps : ring h hd ps -> (length ps <= size h)%nat.
Proof.
  intros Hr. pose proof (proj1 Hr) as Hd. apply NoDup_cons in Hd as [_ Hd].
  rewrite <- (size_list_to_set (C := gset ptr) ps Hd), <- size_dom. apply subseteq_size. intros p Hp.
  apply elem_of_list_to_set in Hp. apply elem_of_dom. apply (ring_alive _ _ _ _ Hr). right. exact Hp.
Qed.

Lemma lowest_loop_refines i s aps : represents i s aps -> forall ps1 ps2 es2 fuel lowest, aps = ps1 ++ ps2 ->
  Forall2 (app_node (i_appenders i)) ps2 es2 -> (length ps2 <= fuel)%nat ->
  lowest_loop fuel i (after (i_appendsOpenList i) ps2) lowest
  = Ret (Some (fold_left (fun a mt => if mt <? a then mt else a) (map snd es2) lowest)).
Proof.
  intros R ps1 ps2. revert ps1. induction ps2 as [|p ps2 IH]; intros ps1 es2 fuel lowest Ea Hes Hf.
  - inversion Hes; subst. cbn [after map fold_left]. destruct fuel; cbn [lowest_loop]; rewrite Z.eqb_refl; reflexivity.
  - inversion Hes as [|? [id mt] ? es2' Hp Hes' E1 E2]; subst. cbn [after]. pose proof (rep_apps _ _ _ R) as Hr.
    destruct (ring_node _ _ _ _ _ Hr) as (n & Hn & Hnn & _). unfold app_node in Hp. rewrite Hn in Hp. injection Hp as _ Hmt.
    destruct fuel as [|fuel]; [cbn in Hf; lia|]. cbn [lowest_loop].
    rewrite (proj2 (Z.eqb_neq _ _)) by (destruct Hr as [Hd _]; apply NoDup_cons in Hd as [Hd _]; set_solver).
    rewrite (load_ok _ _ _ Hn). cbn [outcome_bind]. cbn in Hnn. rewrite Hnn, Hmt. cbn in Hf.
    rewrite (IH (ps1 ++ [p]) es2') by (try lia; try assumption; rewrite <- app_assoc; reflexivity). reflexivity.
Qed.

Lemma fold_min_eq l z : fold_left (fun a mt => if mt <? a then mt else a) l z = fold_right Z.min z l.
Proof.
  rewrite <- fold_left_rev_right. revert z. induction l as [|x l IH]; intros z; [reflexivity|]. cbn. rewrite <- IH, fold_right_app.
  cbn. generalize (rev l) as m. intros m. induction m as [|y m IHm]; cbn; [destruct (Z.ltb_spec x z); lia|].
  rewrite IHm. destruct (Z.ltb_spec y (Z.min x (fold_right (fun y a => if y <? a then y else a) z m))), (Z.ltb_spec y (fold_right (fun y a => if y <? a then y else a) z m)); lia.
Qed.

Lemma lowestAppendTime_refines i s aps : represents i s aps ->
  lowestAppendTime (size (i_appenders i)) i = Ret (Some (fold_right Z.min MaxInt64 (map snd (sp_open s)))).
Proof.
  intros R. unfold lowestAppendTime. destruct (rep_last _ _ _ R) as (n & Hn & _). rewrite (load_ok _ _ _ Hn). cbn [outcome_bind].
  destruct (ring_head _ _ _ _ (rep_apps _ _ _ R) Hn) as [Hnn _]. cbn in Hnn. rewrite Hnn.
  rewrite (lowest_loop_refines i s aps R [] aps (sp_open s)); [|reflexivity|exact (rep_open _ _ _ R)|exact (ring_size _ _ _ (rep_apps _ _ _ R))].
  rewrite fold_min_eq. reflexivity.
Qed.

Lemma traverse_refines i s aps f : represents i s aps -> forall l1 l2 fuel, sp_reads s = l1 ++ l2 -> (length l2 <= fuel)%nat ->
  traverse_loop fuel (fun n => f (read_of n)) i (after (i_readsOpen i) (map fst l2)) = Ret (Some (traverse f l2)).
Proof.
  intros R l1 l2. revert l1. induction l2 as [|[p r] l2 IH]; intros l1 fuel El Hf.
  - cbn. destruct fuel; cbn; rewrite Z.eqb_refl; reflexivity.
  - pose proof (rep_reads _ _ _ R) as Hr. pose proof (rep_read _ _ _ R) as Hn. rewrite El in Hr, Hn. rewrite map_app in Hr. cbn [map fst after] in *.
    destruct (ring_node _ _ _ _ _ Hr) as (n & Hp & Hnn & _). apply List.Forall_app in Hn as [_ Hn]. apply List.Forall_inv in Hn.
    unfold read_node in Hn. cbn [fst snd] in Hn. rewrite Hp in Hn. injection Hn as Hn. destruct fuel as [|fuel]; [cbn in Hf; lia|].
    cbn [traverse_loop traverse]. rewrite (proj2 (Z.eqb_neq _ _)) by (destruct Hr as [Hd _]; apply NoDup_cons in Hd as [Hd _]; set_solver).
    rewrite (load_ok _ _ _ Hp). cbn [outcome_bind]. cbn in Hn, Hnn. rewrite Hn, Hnn. destruct (f r); [|reflexivity].
    rewrite (IH (l1 ++ [(p, r)])); [reflexivity|rewrite El, <- app_assoc; reflexivity|cbn in Hf; lia].
Qed.

Lemma TraverseOpenReads_refines i s aps f : represents i s aps ->
  TraverseOpenReads (size (i_states i)) (fun n => f (read_of n)) i = Ret (Some (traverse f (sp_reads s))).
Proof.
  intros R. unfold TraverseOpenReads. destruct (rep_head _ _ _ R) as [n Hn]. rewrite (load_ok _ _ _ Hn). cbn [outcome_bind].
  destruct (ring_head _ _ _ _ (rep_reads _ _ _ R) Hn) as [Hnn _]. cbn in Hnn. rewrite Hnn.
  apply (traverse_refines i s aps f R []); [reflexivity|]. pose proof (ring_size _ _ _ (rep_reads _ _ _ R)) as Hs.
  rewrite length_map in Hs. exact Hs.
Qed.

(** The node that the pool yields is not in use. *)
Lemma pool_Get_ok c i hd aps : hd ∈ dom (i_appenders i) -> (forall p, p ∈ aps -> is_Some (i_appenders i !! p)) ->
  (forall p, p ∈ i_appendersPool i -> (p ∉ hd :: aps) /\ is_Some (i_appenders i !! p)) ->
  exists p h l, pool_Get c i = (p, set_pool l (set_appenders h i)) /\ (p ∉ hd :: aps) /\ is_Some (h !! p)
    /\ (forall q, q <> p -> h !! q = i_appenders i !! q) /\ (forall q, q ∈ l -> q <> p /\ q ∈ i_appendersPool i).
Proof.
  intros Hhd Haps Hpool. unfold pool_Get. destruct (c ≫= fun k => i_appendersPool i !! k) as [p|] eqn:E.
  - destruct c as [k|]; [|discriminate]. cbn in E. apply list_elem_of_lookup_2 in E as Hin. destruct (Hpool p Hin) as [Hp Hs].
    exists p, (i_appenders i), (List.filter (fun q => negb (q =? p)) (i_appendersPool i)). split; [destruct i; reflexivity|].
    split; [exact Hp|]. split; [exact Hs|]. split; [reflexivity|]. intros q Hq. apply list_elem_of_In, filter_In in Hq as [Hq Hne].
    split; [|apply list_elem_of_In; exact Hq]. intros ->. rewrite Z.eqb_refl in Hne. discriminate.
  - pose proof (new_ptr_fresh (i_appenders i)) as Hf. set (p := new_ptr _) in *.
    exists p, (<[p := mkAppender 0 0 0 0]> (i_appenders i)), (i_appendersPool i). split; [destruct i; reflexivity|]. split.
    + intros Hin. apply elem_of_cons in Hin as [Hin|Hin].
      * rewrite <- Hin in Hhd. apply elem_of_dom in Hhd as [n Hn]. congruence.
      * destruct (Haps p Hin). congruence.
    + split; [rewrite lookup_insert_eq; eauto|]. split; [intros q Hq; apply lookup_insert_ne; congruence|].
      intros q Hq. split; [|exact Hq]. intros ->. destruct (Hpool _ Hq) as [_ [n Hn]]. congruence.
Qed.

Lemma Forall2_node_ext h h' aps es : Forall2 (app_node h) aps es -> (forall p, p ∈ aps -> same_at h h' p) -> Forall2 (app_node h') aps es.
Proof.
  induction 1 as [|p e aps es Hp _ IH]; intros Hs; constructor.
  - unfold app_node. rewrite (Hs p) by left. exact Hp.
  - apply IH. intros q Hq. apply Hs. right. exact Hq.
Qed.

(** Adding a new id at the end of both lists. *)
Lemma zip_snoc (m : gmap Z ptr) aps es id p (mt : Z) : (forall id' p', m !! id' = Some p' <-> exists mt', (p', (id', mt')) ∈ zip aps es) ->
  length aps = length es -> ~ In id (map fst es) ->
  forall id' p', <[id := p]> m !! id' = Some p' <-> exists mt', (p', (id', mt')) ∈ zip (aps ++ [p]) (es ++ [(id, mt)]).
Proof.
  intros Hm Hlen Hnew id' p'. rewrite zip_with_app by exact Hlen. cbn [zip_with].
  destruct (decide (id = id')) as [<-|Hne].
  - rewrite lookup_insert_eq. split.
    + intros [= <-]. exists mt. apply elem_of_app. right. left.
    + intros (mt' & [Hin|Hin]%elem_of_app); [|apply list_elem_of_singleton in Hin; congruence].
      exfalso. apply Hnew, in_map_iff. exists (id, mt'). split; [reflexivity|]. apply list_elem_of_In.
      apply list_elem_of_lookup in Hin as [k Hk]. apply lookup_zip_Some in Hk as [_ Hk]. eapply list_elem_of_lookup_2. exact Hk.
  - rewrite lookup_insert_ne by exact Hne. rewrite Hm. split; intros (mt' & Hin); exists mt'; rewrite elem_of_app in *; [auto|].
    destruct Hin as [Hin|Hin]; [exact Hin|]. apply list_elem_of_singleton in Hin. congruence.
Qed.

Lemma newAppendID_refines i s aps c mt : represents i s aps -> sp_ok s -> sp_disabled s = false -> sp_last s + 1 < 2 ^ 64 ->
  exists i' aps', newAppendID c mt i = Ret (sp_last s + 1, sp_low (sp_newAppend mt s), i') /\ represents i' (sp_newAppend mt s) aps'.
Proof.
  intros R Hok Hdis Hlt. unfold newAppendID. rewrite (rep_disabled _ _ _ R), Hdis. destruct (rep_last _ _ _ R) as (n & Hn & Hid).
  set (hd := i_appendsOpenList i) in *. rewrite (load_ok _ _ _ Hn). cbn [outcome_bind]. rewrite Hid.
  rewrite u64_id by (destruct (ok_last _ Hok); unfold is_u64; lia). set (id := sp_last s + 1).
  destruct (store_ok (set_app_id id) hd (i_appenders i) ltac:(eauto)) as (h1 & E1 & L1). rewrite E1. cbn [outcome_bind].
  pose proof (rep_apps _ _ _ R) as Hr.
  assert (Hr1 : ring h1 hd aps).
  { apply (ring_ext (i_appenders i)); [exact Hr| |]; intros q _; rewrite L1; case_decide; destruct (i_appenders i !! q); reflexivity. }
  assert (Halive : forall q, is_Some (i_appenders i !! q) -> is_Some (h1 !! q)).
  { intros q Hq. rewrite L1. case_decide; [apply fmap_is_Some|]; exact Hq. }
  destruct (pool_Get_ok c (set_appenders h1 i) hd aps) as (p & h2 & l & -> & Hp & Hps & Hsame & Hl).
  { apply elem_of_dom. apply Halive. eauto. } { intros q Hq. apply (ring_alive _ _ _ _ Hr1). right. exact Hq. }
  { intros q Hq. destruct (rep_pool _ _ _ R q Hq) as [H1 H2]. auto. }
  cbn [i_appenders set_pool set_appenders i_appendersPool] in *.
  assert (Hpa : forall q, q ∈ hd :: aps -> q <> p) by (intros q Hq ->; exact (Hp Hq)).
  assert (Hhd : hd <> p) by (apply Hpa; left).
  assert (Hh2 : h2 !! hd = Some (set_app_id id n)).
  { rewrite Hsame by exact Hhd. rewrite L1, decide_True by reflexivity. rewrite Hn. reflexivity. }
  rewrite (load_ok _ _ _ Hh2). cbn [outcome_bind]. destruct (ring_head _ _ _ _ Hr Hn) as [_ Hprev]. cbn in Hprev. fold hd in Hprev.
  cbn [set_app_id app_prev app_appendID]. rewrite Hprev. set (nd := mkAppender id mt (before hd aps) hd).
  destruct Hps as [np Hnp]. unfold store at 1. rewrite (load_ok _ _ _ Hnp). cbn [outcome_bind]. cbv beta. set (h3 := <[p := nd]> h2).
  assert (Hh3 : forall q, q <> p -> h3 !! q = h1 !! q) by (intros q Hq; unfold h3; rewrite lookup_insert_ne by congruence; apply Hsame; exact Hq).
  assert (Hbp : before hd aps ∈ hd :: aps) by apply before_in.
  destruct (two_stores_next_prev (before hd aps) hd p p h3) as (h4 & h5 & E4 & E5 & L).
  { rewrite Hh3 by (apply Hpa, Hbp). apply (ring_alive _ _ _ _ Hr1). exact Hbp. } { rewrite Hh3 by exact Hhd. apply (ring_alive _ _ _ _ Hr1). left. }
  cbn [nd_set_prev nd_set_next appender_node] in E4, E5. rewrite E4. cbn [outcome_bind]. rewrite E5. cbn [outcome_bind].
  assert (Hsame5 : forall q, q <> p -> nd_content <$> h5 !! q = nd_content <$> h1 !! q).
  { intros q Hq. rewrite (relinked_same _ _ _ _ _ _ L), Hh3 by exact Hq. reflexivity. }
  set (i' := set_appendsOpen _ _). assert (R' : represents i' (sp_newAppend mt s) (aps ++ [p])).
  { constructor; cbn [i' set_appendsOpen set_appenders set_pool i_disabled i_appenders i_appendsOpen i_appendsOpenList i_appendersPool i_states i_readsOpen
      sp_newAppend sp_disabled sp_last sp_open sp_reads]; try (apply R).
    - fold hd. apply (ring_insert h1 h3 h5 hd aps [] p nd); rewrite ?app_nil_r; try assumption; try reflexivity. apply lookup_insert_eq.
    - fold hd. specialize (Hsame5 hd Hhd). rewrite L1, decide_True, Hn in Hsame5 by reflexivity.
      destruct (h5 !! hd) as [m|]; [|discriminate]. exists m. split; [reflexivity|]. cbn in Hsame5. injection Hsame5 as Hm _. exact Hm.
    - apply Forall2_app.
      + apply (Forall2_node_ext (i_appenders i)); [exact (rep_open _ _ _ R)|]. intros q Hq. unfold same_at.
        rewrite Hsame5 by (apply Hpa; right; exact Hq). rewrite L1. case_decide; [|reflexivity].
        pose proof (proj1 Hr) as Hnd. apply NoDup_cons in Hnd as [Hnd _]. subst q. contradiction.
      + constructor; [|constructor]. unfold app_node. rewrite (relinked_same _ _ _ _ _ _ L). unfold h3. rewrite lookup_insert_eq. reflexivity.
    - apply zip_snoc; [apply R|apply (Forall2_length _ _ _ (rep_open _ _ _ R))|].
      intros Hin. pose proof (proj1 (List.Forall_forall _ _) (ok_ids _ Hok) _ Hin) as Hb. cbn in Hb. unfold id in Hb. lia.
    - intros q Hq. destruct (Hl q Hq) as [Hqp Hin]. destruct (rep_pool _ _ _ R q Hin) as [H1 H2]. fold hd in H1. split.
      { rewrite app_comm_cons. intros [H|H]%elem_of_app; [exact (H1 H)|]. apply list_elem_of_singleton in H. exact (Hqp H). }
      rewrite L, Hh3 by exact Hqp. apply fmap_is_Some. apply Halive. exact H2. }
  rewrite (lowWatermarkLocked_refines _ _ _ R'). cbn [outcome_bind]. exists i', (aps ++ [p]). split; [reflexivity|exact R'].
Qed.

(** Removing an id from both lists. *)
Lemma zip_remove (m : gmap Z ptr) a1 a2 o1 o2 id p (mt : Z) :
  (forall id' p', m !! id' = Some p' <-> exists mt', (p', (id', mt')) ∈ zip (a1 ++ p :: a2) (o1 ++ (id, mt) :: o2)) ->
  length a1 = length o1 -> ~ In id (map fst (o1 ++ o2)) ->
  forall id' p', delete id m !! id' = Some p' <-> exists mt', (p', (id', mt')) ∈ zip (a1 ++ a2) (o1 ++ o2).
Proof.
  intros Hm Hlen Hno id' p'. rewrite zip_with_app by exact Hlen. destruct (decide (id = id')) as [<-|Hne].
  - rewrite lookup_delete_eq. split; [discriminate|]. intros (mt' & Hin). exfalso. apply Hno, in_map_iff. exists (id, mt'). split; [reflexivity|].
    apply list_elem_of_In. apply elem_of_app. apply elem_of_app in Hin.
    destruct Hin as [Hin|Hin]; [left|right]; apply list_elem_of_lookup in Hin as [k Hk]; apply lookup_zip_Some in Hk as [_ Hk]; eapply list_elem_of_lookup_2; exact Hk.
  - rewrite lookup_delete_ne by exact Hne. rewrite Hm, zip_with_app by exact Hlen. cbn [zip_with].
    split; intros (mt' & Hin); exists mt'; rewrite elem_of_app, ?elem_of_cons in *; [|tauto].
    destruct Hin as [Hin|[Hin|Hin]]; [tauto|congruence|tauto].
Qed.

Lemma filter_absent {B} (l : list (Z * B)) id : ~ In id (map fst l) -> List.filter (fun e => negb (fst e =? id)) l = l.
Proof.
  induction l as [|[q b] l IH]; cbn; [reflexivity|]. intros Hno. rewrite (proj2 (Z.eqb_neq q id)) by tauto. cbn. rewrite IH by tauto. reflexivity.
Qed.

Lemma ids_nodup s : sp_ok s -> NoDup (map fst (sp_open s)).
Proof.
  intros Hok. pose proof (ok_sorted _ Hok) as Hs. unfold sp_ids in Hs. induction Hs as [|x l _ IH Hf]; [constructor|].
  apply NoDup_cons. split; [|exact IH]. intros Hin. apply list_elem_of_In in Hin.
  pose proof (proj1 (List.Forall_forall _ _) Hf x Hin). lia.
Qed.

(** The open append of an id, and what is left without it. *)
Lemma open_split i s aps id p : represents i s aps -> sp_ok s -> i_appendsOpen i !! id = Some p ->
  exists a1 a2 o1 o2 mt, aps = a1 ++ p :: a2 /\ sp_open s = o1 ++ (id, mt) :: o2 /\ length a1 = length o1
    /\ sp_open (sp_closeAppend id s) = o1 ++ o2 /\ ~ In id (map fst (o1 ++ o2)).
Proof.
  intros R Hok Hp. apply (rep_map _ _ _ R) in Hp as (mt & Hin). apply list_elem_of_lookup in Hin as [k Hk].
  apply lookup_zip_Some in Hk as [Hka Hko]. exists (take k aps), (drop (S k) aps), (take k (sp_open s)), (drop (S k) (sp_open s)), mt.
  pose proof (take_drop_middle _ _ _ Hka) as Ea. pose proof (take_drop_middle _ _ _ Hko) as Eo.
  split; [symmetry; exact Ea|]. split; [symmetry; exact Eo|].
  split; [rewrite !length_take, (Forall2_length _ _ _ (rep_open _ _ _ R)); reflexivity|].
  pose proof (ids_nodup s Hok) as Hnd. rewrite <- Eo in Hnd. rewrite map_app in Hnd. cbn [map fst] in Hnd.
  rewrite <- Permutation_middle, <- map_app in Hnd. apply NoDup_cons in Hnd as [Hno _]. rewrite list_elem_of_In in Hno.
  split; [|exact Hno]. cbn [sp_closeAppend sp_open]. rewrite <- Eo at 1. rewrite List.filter_app. cbn [List.filter fst]. rewrite Z.eqb_refl. cbn [negb].
  rewrite map_app, in_app_iff in Hno. rewrite !filter_absent by tauto. reflexivity.
Qed.

Lemma represents_close i s h hd a1 a2 o1 o2 p id mt : represents i s (a1 ++ p :: a2) ->
  hd = i_appendsOpenList i -> sp_open s = o1 ++ (id, mt) :: o2 -> length a1 = length o1 -> ~ In id (map fst (o1 ++ o2)) ->
  sp_open (sp_closeAppend id s) = o1 ++ o2 -> p ∉ hd :: a1 ++ a2 -> ring h hd (a1 ++ a2) ->
  (forall q, q <> p -> same_at (i_appenders i) h q) -> (forall q, is_Some (i_appenders i !! q) -> is_Some (h !! q)) ->
  represents (set_pool (p :: i_appendersPool i) (set_appendsOpen (delete id (i_appendsOpen i)) (set_appenders h i))) (sp_closeAppend id s) (a1 ++ a2).
Proof.
  intros R Ehd Eo Hlen Hno Ecl Hp Hring Hsame Halive.
  assert (Hpa : forall q, q ∈ hd :: a1 ++ a2 -> q <> p) by (intros q Hq ->; exact (Hp Hq)).
  constructor; cbn [set_appendsOpen set_appenders set_pool i_disabled i_appenders i_appendsOpen i_appendsOpenList i_appendersPool i_states i_readsOpen
      sp_closeAppend sp_disabled sp_last sp_reads]; try (apply R); try (rewrite <- Ehd; assumption).
  - destruct (rep_last _ _ _ R) as (n & Hn & Hid). rewrite <- Ehd in *. specialize (Hsame hd (Hpa hd ltac:(left))). unfold same_at in Hsame.
    rewrite Hn in Hsame. destruct (h !! hd) as [m|]; [|discriminate]. injection Hsame as Hm _. exists m. split; [reflexivity|congruence].
  - rewrite Ecl. pose proof (rep_open _ _ _ R) as Ho. rewrite Eo in Ho. apply Forall2_app_inv in Ho as [H1 H2]; [|exact Hlen].
    inversion H2; subst. apply (Forall2_node_ext (i_appenders i)); [apply Forall2_app; assumption|]. intros q Hq. apply Hsame, Hpa. right. exact Hq.
  - rewrite Ecl. apply (zip_remove _ a1 a2 o1 o2 id p mt); [|exact Hlen|exact Hno]. rewrite <- Eo. exact (rep_map _ _ _ R).
  - intros q Hq. rewrite <- Ehd. apply elem_of_cons in Hq as [-> |Hq].
    + split; [exact Hp|]. apply Halive. apply (ring_alive _ _ _ _ (rep_apps _ _ _ R)). right. apply elem_of_app. right. left.
    + destruct (rep_pool _ _ _ R q Hq) as [H1 H2]. rewrite <- Ehd in H1. split; [|apply Halive; exact H2].
      intros Hin. apply H1. rewrite elem_of_cons, elem_of_app in *. rewrite elem_of_cons. tauto.
Qed.

Lemma closeAppend_refines i s aps id : represents i s aps -> sp_ok s ->
  exists i' aps', closeAppend id i = Ret i' /\ represents i' (sp_closeAppend id s) aps'.
Proof.
  intros R Hok. unfold closeAppend. rewrite (rep_disabled _ _ _ R). destruct (sp_disabled s) eqn:Hdis.
  { exists i, aps. split; [reflexivity|]. replace (sp_closeAppend id s) with s; [exact R|].
    unfold sp_closeAppend. pose proof (ok_disabled _ Hok Hdis) as E. destruct s. cbn in *. subst. reflexivity. }
  destruct (i_appendsOpen i !! id) as [p|] eqn:Eid.
  2: { exists i, aps. split; [reflexivity|]. replace (sp_closeAppend id s) with s; [exact R|]. unfold sp_closeAppend.
       rewrite filter_absent; [destruct s; reflexivity|]. intros Hin. apply (rep_ids i s aps id R) in Hin. rewrite Eid in Hin. destruct Hin as [? [=]]. }
  destruct (open_split _ _ _ _ _ R Hok Eid) as (a1 & a2 & o1 & o2 & mt & -> & Eo & Hlen & Ecl & Hno).
  pose proof (rep_apps _ _ _ R) as Hr. set (hd := i_appendsOpenList i) in *. destruct (ring_node _ _ _ _ _ Hr) as (n & Hn & Hnn & Hnp). cbn in Hnn, Hnp.
  rewrite (load_ok _ _ _ Hn). cbn [outcome_bind]. rewrite Hnn, Hnp. set (x := before hd a1) in *. set (y := after hd a2) in *.
  assert (Hx : x ∈ hd :: a1) by apply before_in. assert (Hy : y ∈ a2 ++ [hd]) by apply after_in.
  assert (Hpn : p ∉ hd :: a1 ++ a2).
  { pose proof (proj1 Hr) as Hd. rewrite <- Permutation_middle, Permutation_swap in Hd. apply NoDup_cons in Hd. tauto. }
  assert (Hxp : x <> p) by (clear -Hx Hpn; clearbody x; set_solver). assert (Hyp : y <> p) by (clear -Hy Hpn; clearbody y; set_solver).
  destruct (two_stores_next_prev x y y x (i_appenders i)) as (h1 & h2 & E1 & E2 & L).
  { apply (ring_alive _ _ _ _ Hr). clear -Hx. clearbody x. set_solver. } { apply (ring_alive _ _ _ _ Hr). clear -Hy. clearbody y. set_solver. }
  cbn [nd_set_prev nd_set_next appender_node] in E1, E2. rewrite E1. cbn [outcome_bind].
  assert (H1p : h1 !! p = Some n).
  { unfold store, load in E1. destruct (i_appenders i !! x); [|discriminate]. injection E1 as <-. rewrite lookup_insert_ne by exact Hxp. exact Hn. }
  rewrite (load_ok _ _ _ H1p). cbn [outcome_bind]. rewrite Hnn, Hnp, E2. cbn [outcome_bind].
  destruct (store_ok (fun _ => mkAppender 0 0 0 0) p h2) as (h3 & E3 & L3); [rewrite L, Hn; eauto|]. rewrite E3. cbn [outcome_bind].
  assert (Hsame : forall q, q <> p -> same_at (i_appenders i) h3 q).
  { intros q Hq. unfold same_at. rewrite L3, decide_False by exact Hq. exact (relinked_same _ _ _ _ _ _ L q). }
  eexists _, (a1 ++ a2). split; [reflexivity|]. apply (represents_close i s h3 hd a1 a2 o1 o2 p id mt); try assumption; try reflexivity.
  - apply (ring_remove (i_appenders i) h3 _ _ _ p Hr). intros q Hq. rewrite L3, decide_False by exact Hq. apply L.
  - intros q Hq. rewrite L3. case_decide; [apply fmap_is_Some; subst q; rewrite L, Hn; eauto|]. rewrite L. apply fmap_is_Some. exact Hq.
Qed.
End represents.

(** ** The refinement *)
Definition refines (i : isolation) (s : spec) : Prop := sp_ok s /\ exists aps, represents i s aps.

Lemma refines_new d : refines (newIsolation d) (sp_new d).
Proof. split; [apply sp_new_ok|]. exists []. apply newIsolation_represents. Qed.

Lemma exec_refines i s aps o : represents i s aps -> sp_ok s -> allowed s o ->
  exists r i' s' aps', exec o i = Ret (Some r, i') /\ spec_step s o r s' /\ represents i' s' aps'.
Proof.
  intros R Hok Ha. destruct o; cbn [exec].
  - destruct (sp_disabled s) eqn:Hd.
    + unfold newAppendID. rewrite (rep_disabled _ _ _ R), Hd. cbn [outcome_bind].
      eexists _, i, s, aps. split; [reflexivity|]. split; [apply sp_new_append_disabled; exact Hd|exact R].
    + destruct (newAppendID_refines i s aps choice minTime R Hok Hd Ha) as (i' & aps' & -> & R'). cbn [outcome_bind].
      eexists _, i', _, aps'. split; [reflexivity|]. split; [apply sp_new_append; exact Hd|exact R'].
  - destruct (closeAppend_refines i s aps id R Hok) as (i' & aps' & -> & R'). cbn [outcome_bind].
    eexists _, i', _, aps'. split; [reflexivity|]. split; [constructor|exact R'].
  - destruct (State_refines i s aps mint maxt R) as (p & i' & -> & Hp & R'). cbn [outcome_bind].
    eexists _, i', _, aps. split; [reflexivity|]. split; [constructor; exact Hp|exact R'].
  - destruct (Close_refines i s aps p R Hok Ha) as (i' & -> & R'). cbn [outcome_bind].
    eexists _, i', _, aps. split; [reflexivity|]. split; [constructor; exact Ha|exact R'].
  - rewrite (lowWatermark_refines i s aps R). cbn [outcome_bind]. eexists _, i, s, aps. split; [reflexivity|]. split; [constructor|exact R].
  - rewrite (lowestAppendTime_refines i s aps R). cbn [outcome_bind]. eexists _, i, s, aps. split; [reflexivity|]. split; [constructor|exact R].
  - rewrite (lastAppendID_refines i s aps R). cbn [outcome_bind]. eexists _, i, s, aps. split; [reflexivity|]. split; [constructor|exact R].
  - rewrite (TraverseOpenReads_refines i s aps f R). cbn [outcome_bind]. eexists _, i, s, aps. split; [reflexivity|]. split; [constructor|exact R].
Qed.

Lemma isolation_step i s o : refines i s -> allowed s o ->
  exists r i' s', exec o i = Ret (Some r, i') /\ spec_step s o r s' /\ refines i' s'.
Proof.
  intros [Hok [aps R]] Ha. destruct (exec_refines i s aps o R Hok Ha) as (r & i' & s' & aps' & He & Hst & R').
  exists r, i', s'. split; [exact He|]. split; [exact Hst|]. split; [exact (spec_step_ok _ _ _ _ Hok Ha Hst)|eauto].
Qed.

(** C23: Every operation on the linked lists, in any state they reach, returns
    without a nil dereference what the operation on the plain lists of open
    appends and open reads returns, and the lists still represent them: an
    append node that comes back from the pool is never one that is in use, and
    the loops end. *)
Theorem isolation_refines i s o : refines i s -> allowed s o ->
  exists r i' s', exec o i = Ret (Some r, i') /\ spec_step s o r s' /\ refines i' s'.
Proof. apply isolation_step. Qed.

(** ** The low watermark *)

(** Whether a read returns what the append [id] wrote. *)
Definition visible (r : read) (id : Z) : bool := (id <=? rd_max r) && negb (bool_decide (id ∈ rd_incomplete r)).

Lemma last_in_reads s p r : last (sp_reads s) = Some (p, r) -> In (p, r) (sp_reads s).
Proof. intros H. apply list_elem_of_In, last_Some_elem_of, H. Qed.

(** The watermark is below what every open read may miss. *)
Lemma low_le_reads s p r : sp_ok s -> sp_disabled s = false -> In (p, r) (sp_reads s) -> sp_low s <= rd_low r.
Proof.
  intros Hok Hd Hin. unfold sp_low. rewrite Hd. pose proof (ok_lows _ Hok) as Hl. revert Hin Hl. generalize (sp_reads s).
  intros l. destruct (last l) as [[q r']|] eqn:E.
  - apply last_Some in E as [l' ->]. intros [Hin|[[= _ <-]|[]]]%in_app_iff Hl; [|lia].
    induction l' as [|e l' IH]; [destruct Hin|]. cbn in Hl. apply StronglySorted_inv in Hl as [Hl Hf].
    destruct Hin as [->|Hin]; [|exact (IH Hin Hl)].
    apply List.Forall_app in Hf as [_ Hf]. exact (List.Forall_inv Hf).
  - apply last_None in E as ->. intros [].
Qed.

Lemma low_le_open s : sp_ok s -> sp_disabled s = false -> sp_low s <= sp_low_open s.
Proof.
  intros Hok Hd. unfold sp_low. rewrite Hd. destruct (last (sp_reads s)) as [[p r]|] eqn:E; [|lia].
  apply last_in_reads in E. exact (proj1 (proj2 (proj1 (List.Forall_forall _ _) (ok_reads _ Hok) _ E))).
Qed.

Lemma low_visible s p r id : sp_ok s -> sp_disabled s = false -> In (p, r) (sp_reads s) -> id < sp_low s -> visible r id = true.
Proof.
  intros Hok Hd Hin Hlt. pose proof (low_le_reads s p r Hok Hd Hin) as Hle.
  destruct (proj1 (List.Forall_forall _ _) (ok_reads _ Hok) _ Hin) as (H1 & _ & H3). cbn in *. unfold visible.
  apply andb_true_intro. split; [apply Z.leb_le; lia|]. rewrite bool_decide_eq_false_2; [reflexivity|].
  intros Hinc. specialize (H3 _ Hinc). lia.
Qed.

(** The watermark does not go back. *)
Lemma low_mono s o r s' : sp_ok s -> sp_disabled s = false -> allowed s o -> spec_step s o r s' -> sp_low s <= sp_low s'.
Proof.
  intros Hok Hd Ha Hst. pose proof (spec_step_ok _ _ _ _ Hok Ha Hst) as Hok'. destruct Hst; try lia.
  - unfold sp_low. cbn [sp_newAppend sp_disabled sp_reads]. rewrite Hd. destruct (last _) as [[q rd]|]; [lia|]. apply low_open_mono_new. exact Hok.
  - unfold sp_low. cbn [sp_closeAppend sp_disabled sp_reads]. rewrite Hd. destruct (last _) as [[q rd]|]; [lia|]. apply low_open_mono_close. exact Hok.
  - unfold sp_low. cbn [sp_State sp_disabled sp_reads]. rewrite Hd. rewrite last_cons. destruct (last (sp_reads s)) as [[q rd]|]; cbn; lia.
  - destruct (last (sp_reads (sp_Close p s))) as [[q rd]|] eqn:E.
    + unfold sp_low at 2. rewrite E. cbn [sp_Close sp_disabled]. rewrite Hd. apply last_in_reads, filter_In in E as [E _].
      exact (low_le_reads s q rd Hok Hd E).
    + unfold sp_low at 2. rewrite E. cbn [sp_Close sp_disabled]. rewrite Hd. exact (low_le_open s Hok Hd).
Qed.

(** ** An example *)
Definition run_ops (ops : list op) (i : isolation) : outcome (list (option res) * isolation) :=
  fold_left (fun acc o => x <~ acc ;; y <~ exec o (snd x) ;; Ret (fst x ++ [fst y], snd y)) ops (Ret ([], i)).

(** Two appends, a read, the end of the first append, which frees its node,
    and an append that gets that node again. *)
Example isolation_example :
  match run_ops [OpNewAppend None 7; OpNewAppend None 3; OpState 0 9; OpCloseAppend 1; OpLowWatermark; OpNewAppend (Some 0%nat) 5;
                 OpLowestAppendTime; OpTraverse (fun _ => true); OpClose 1; OpLowWatermark; OpLastAppendID] (newIsolation false) with
  | Ret (rs, _) => rs
  | Panic => []
  end = [Some (ResPair 1 1); Some (ResPair 2 1); Some (ResPtr 1); Some ResUnit; Some (ResZ 1); Some (ResPair 3 1);
         Some (ResZ 3); Some (ResList [1]); Some ResUnit; Some (ResZ 2); Some (ResZ 3)].
Proof. vm_compute. reflexivity. Qed.

Lemma isolation_refines_witness : exists r i' s', exec (OpNewAppend None 7) (newIsolation false) = Ret (Some r, i')
  /\ spec_step (sp_new false) (OpNewAppend None 7) r s' /\ refines i' s'.
Proof. apply isolation_refines; [apply refines_new|vm_compute; reflexivity]. Defined.
