(* ===== verification/TxRing.v ===== *)
(** * Append ids of a series: the ring of [tsdb/isolation.go], [memSeries.iterator] of [tsdb/head_read.go]

    A series remembers the append ids of its last samples in a circular buffer
    with [uint32] positions; ids below the low watermark are dropped from its
    front.  A read iterates over a chunk up to the first sample of the series
    that its isolation state hides, as long as it only calls [Next]: [Seek] is that of
    the chunk itself and goes past the stop ([seek_passes_stop]).  The last section composes both with the
    isolation of [Isolation]. *)

From stdpp Require Import base list numbers gmap.
From Stdlib Require Import ZArith Lia Sorting.Sorted.
From S2P Require Import Prelude Isolation.

#[local] Notation "x <~ m ;; k" := (outcome_bind m (fun x => k))
  (at level 100, m at next level, k at level 200, right associativity).

(** ** The ring *)
Record txRing := mkRing { txIDs : list Z; txIDFirst : Z; txIDCount : Z }.

Definition newTxRing (capacity : nat) : txRing := mkRing (replicate capacity 0) 0 0.

(** [copy(dst, src)]: the new [dst] and the number of elements copied. *)
Definition go_copy (dst src : list Z) : list Z * nat :=
  let n := Nat.min (length dst) (length src) in (take n src ++ drop n dst, n).

Definition grow (txr : txRing) : outcome txRing :=
  let newLen := u32 (txIDCount txr * 2) in
  let newLen := if newLen =? 0 then 4 else newLen in
  let newRing := replicate (Z.to_nat newLen) 0 in
  let first := Z.to_nat (txIDFirst txr) in
  if (length (txIDs txr) <? first)%nat then Panic
  else
    let '(newRing, idx) := go_copy newRing (drop first (txIDs txr)) in
    let newRing := take idx newRing ++ fst (go_copy (drop idx newRing) (take first (txIDs txr))) in
    Ret (mkRing newRing 0 (txIDCount txr)).

Definition add (appendID : Z) (txr : txRing) : outcome txRing :=
  txr <~ (if txIDCount txr =? Z.of_nat (length (txIDs txr)) then grow txr else Ret txr) ;;
  let len := length (txIDs txr) in
  if (len =? 0)%nat then Panic
  else
    let pos := (Z.to_nat (u32 (txIDFirst txr + txIDCount txr)) mod len)%nat in
    Ret (mkRing (<[pos := appendID]> (txIDs txr)) (txIDFirst txr) (u32 (txIDCount txr + 1))).

(** The loop of [cleanupAppendIDsBelow]; [None] when the fuel runs out. *)
Fixpoint cleanup_loop (fuel : nat) (bound : Z) (txr : txRing) (pos : nat) : outcome (option txRing) :=
  if 0 <? txIDCount txr then
    match txIDs txr !! pos with
    | None => Panic
    | Some id =>
        if bound <=? id then Ret (Some txr)
        else match fuel with
             | O => Ret None
             | S fuel' =>
                 cleanup_loop fuel' bound (mkRing (txIDs txr) (u32 (txIDFirst txr + 1)) (u32 (txIDCount txr - 1)))
                   (if (S pos =? length (txIDs txr))%nat then 0%nat else S pos)
             end
    end
  else Ret (Some txr).

Definition cleanupAppendIDsBelow (bound : Z) (txr : txRing) : outcome (option txRing) :=
  if (length (txIDs txr) =? 0)%nat then Ret (Some txr)
  else
    r <~ cleanup_loop (Z.to_nat (txIDCount txr)) bound txr (Z.to_nat (txIDFirst txr)) ;;
    match r with
    | None => Ret None
    | Some txr => Ret (Some (mkRing (txIDs txr) (u32 (txIDFirst txr) mod u32 (Z.of_nat (length (txIDs txr)))) (txIDCount txr)))
    end.

Record txRingIterator := mkIter { it_ids : list Z; it_pos : Z }.
Definition iterator (txr : txRing) : txRingIterator := mkIter (txIDs txr) (txIDFirst txr).
Definition At (it : txRingIterator) : outcome Z :=
  match it_ids it !! Z.to_nat (it_pos it) with Some id => Ret id | None => Panic end.
Definition Next (it : txRingIterator) : txRingIterator :=
  let pos := u32 (it_pos it + 1) in
  mkIter (it_ids it) (if pos =? Z.of_nat (length (it_ids it)) then 0 else pos).

(** ** The samples of a chunk that a read may return *)

(** The loop over the append ids, from [index] on; [n] iterations are left. *)
Fixpoint stop_loop (n : nat) (st : isolationState) (it : txRingIterator) (consider index numSamples : Z) : outcome Z :=
  match n with
  | O => Ret numSamples
  | S n' =>
      appendID <~ At it ;;
      if (appendID <=? maxAppendID st) && negb (bool_decide (appendID ∈ incompleteAppends st))
      then stop_loop n' st (Next it) consider (index + 1) numSamples
      else Ret (let stopAfter := numSamples - (consider - index) in if stopAfter <? 0 then 0 else stopAfter)
  end.

(** Adding the samples of the chunks from number [j] on, those before [ix] also
    to the second sum. *)
Fixpoint count_samples (chunks : list Z) (j ix total previous : Z) : Z * Z :=
  match chunks with
  | [] => (total, previous)
  | d :: chunks' => count_samples chunks' (j + 1) ix (total + d) (if j <? ix then previous + d else previous)
  end.

(** [stopAfter] of [memSeries.iterator]: [mmapped] are the numbers of samples of
    the memory-mapped chunks, [heads] those of the list of head chunks, whose
    first element is the newest; [isoState] is [None] for nil. *)
Definition stopAfter (ix : Z) (mmapped heads : list Z) (numSamples : Z) (isoState : option (isolationState * bool)) (txs : txRing) : outcome Z :=
  match isoState with
  | Some (st, false) =>
      let '(totalSamples, previousSamples) := count_samples mmapped 0 ix 0 0 in
      let ix := ix - Z.of_nat (length mmapped) in
      let '(totalSamples, previousSamples) := count_samples (rev heads) 0 ix totalSamples previousSamples in
      let consider := txIDCount txs - (totalSamples - (previousSamples + numSamples)) in
      stop_loop (Z.to_nat consider) st (iterator txs) consider 0 numSamples
  | _ => Ret numSamples
  end.

(** The iterators of a chunk, of which a sample's time is all that matters. *)
Section stop.
Context {A : Type}.

(** The iterator of the chunk itself: the sample at which it stands, and those to come. *)
Record chunkIterator := mkChunkIt { ci_cur : option A; ci_rest : list A }.
Definition ci_new (samples : list A) : chunkIterator := mkChunkIt None samples.
Definition ci_Next (it : chunkIterator) : option (A * chunkIterator) :=
  match ci_rest it with [] => None | x :: l => Some (x, mkChunkIt (Some x) l) end.

(** [Seek(t)]: stays if its sample is not before [t], otherwise goes on to the first that is not. *)
Fixpoint seek_rest (time : A -> Z) (t : Z) (l : list A) : option (A * chunkIterator) :=
  match l with [] => None | x :: l => if time x <? t then seek_rest time t l else Some (x, mkChunkIt (Some x) l) end.
Definition ci_Seek (time : A -> Z) (t : Z) (it : chunkIterator) : option (A * chunkIterator) :=
  match ci_cur it with
  | Some x => if time x <? t then seek_rest time t (ci_rest it) else Some (x, it)
  | None => seek_rest time t (ci_rest it)
  end.

(** [stopIterator] embeds the iterator of the chunk: [Next] is its own, [Seek] the embedded one. *)
Record stopIterator := mkStop { si_Iterator : chunkIterator; si_i : Z; si_stopAfter : Z }.
Definition stop_Next (it : stopIterator) : option (A * stopIterator) :=
  if si_stopAfter it <=? si_i it + 1 then None
  else match ci_Next (si_Iterator it) with
       | None => None
       | Some (x, inner) => Some (x, mkStop inner (si_i it + 1) (si_stopAfter it))
       end.
Definition stop_Seek (time : A -> Z) (t : Z) (it : stopIterator) : option (A * stopIterator) :=
  match ci_Seek time t (si_Iterator it) with
  | None => None
  | Some (x, inner) => Some (x, mkStop inner (si_i it) (si_stopAfter it))
  end.

(** What repeated calls of [Next] return. *)
Fixpoint ci_drain (n : nat) (it : chunkIterator) : list A :=
  match n with
  | O => []
  | S n' => match ci_Next it with Some (x, it') => x :: ci_drain n' it' | None => [] end
  end.
Fixpoint stop_drain (n : nat) (it : stopIterator) : list A :=
  match n with
  | O => []
  | S n' => match stop_Next it with Some (x, it') => x :: stop_drain n' it' | None => [] end
  end.

(** The samples that the iterator which [memSeries.iterator] makes of a chunk
    returns to repeated calls of [Next]. *)
Definition chunk_samples (samples : list A) (stop : Z) : list A :=
  if stop =? 0 then []
  else if stop =? Z.of_nat (length samples) then ci_drain (S (length samples)) (ci_new samples)
  else stop_drain (S (length samples)) (mkStop (ci_new samples) (-1) stop).

Lemma ci_drain_all n c l : (length l < n)%nat -> ci_drain n (mkChunkIt c l) = l.
Proof. revert c l. induction n as [|n IH]; intros c [|x l] Hn; cbn in *; try lia; try reflexivity. rewrite IH by lia. reflexivity. Qed.

Lemma stop_drain_take n c l i stop : (length l < n)%nat -> stop_drain n (mkStop (mkChunkIt c l) i stop) = take (Z.to_nat (stop - (i + 1))) l.
Proof.
  revert c l i. induction n as [|n IH]; intros c l i Hn; [lia|]. cbn [stop_drain]. unfold stop_Next, ci_Next. cbn [si_stopAfter si_i si_Iterator ci_rest].
  destruct (Z.leb_spec stop (i + 1)).
  - replace (Z.to_nat (stop - (i + 1))) with 0%nat by lia. destruct l; reflexivity.
  - destruct l as [|x l]; [rewrite take_nil; reflexivity|]. rewrite IH by (cbn in Hn; lia).
    replace (Z.to_nat (stop - (i + 1))) with (S (Z.to_nat (stop - (i + 1 + 1)))) by lia. reflexivity.
Qed.

Lemma chunk_samples_take l stop : 0 <= stop <= Z.of_nat (length l) -> chunk_samples l stop = take (Z.to_nat stop) l.
Proof.
  intros Hs. unfold chunk_samples. destruct (Z.eqb_spec stop 0) as [->|]; [reflexivity|].
  destruct (Z.eqb_spec stop (Z.of_nat (length l))) as [->|].
  - rewrite Nat2Z.id, firstn_all. apply ci_drain_all. lia.
  - unfold ci_new. rewrite stop_drain_take by lia. f_equal. lia.
Qed.
End stop.

(** ** The ring is a queue *)

(** The elements of a buffer from position [f] on, around its end. *)
Definition rot (ids : list Z) (f : nat) : list Z := drop f ids ++ take f ids.
(** The ids in the ring, from the first. *)
Definition elems (txr : txRing) : list Z := take (Z.to_nat (txIDCount txr)) (rot (txIDs txr) (Z.to_nat (txIDFirst txr))).

Record ring_ok (txr : txRing) : Prop := mkRingOk {
  ring_len : Z.of_nat (length (txIDs txr)) < 2 ^ 31;
  ring_count : 0 <= txIDCount txr <= Z.of_nat (length (txIDs txr));
  ring_first : 0 <= txIDFirst txr /\ (txIDFirst txr < Z.of_nat (length (txIDs txr)) \/ txIDFirst txr = 0) }.

Section ring.

Lemma length_rot ids f : length (rot ids f) = length ids.
Proof. unfold rot. rewrite length_app, length_drop, length_take. lia. Qed.

Lemma mod_wrap n f k : (f < n)%nat -> (k < n)%nat -> ((f + k) mod n = if f + k <? n then f + k else f + k - n)%nat.
Proof.
  intros Hf Hk. destruct (Nat.ltb_spec (f + k) n); [apply Nat.mod_small; assumption|]. symmetry. apply (Nat.mod_unique _ _ 1); lia.
Qed.

Lemma rot_lookup ids f k : (f < length ids)%nat -> (k < length ids)%nat -> rot ids f !! k = ids !! ((f + k) mod length ids)%nat.
Proof.
  intros Hf Hk. rewrite mod_wrap by assumption. unfold rot. destruct (Nat.ltb_spec (f + k) (length ids)) as [Hlt|Hge].
  - rewrite lookup_app_l by (rewrite length_drop; lia). apply lookup_drop.
  - rewrite lookup_app_r by (rewrite length_drop; lia). rewrite length_drop, lookup_take_lt by lia. f_equal. lia.
Qed.

Lemma rot_insert ids f k x : (f < length ids)%nat -> (k < length ids)%nat ->
  rot (<[((f + k) mod length ids)%nat := x]> ids) f = <[k := x]> (rot ids f).
Proof.
  intros Hf Hk. apply list_eq. intros j. destruct (Nat.lt_ge_cases j (length ids)) as [Hj|Hj].
  - rewrite rot_lookup by (rewrite length_insert; assumption). rewrite length_insert. destruct (decide (j = k)) as [->|Hne].
    + rewrite !list_lookup_insert_eq; [reflexivity|rewrite length_rot; lia|apply Nat.mod_upper_bound; lia].
    + rewrite !list_lookup_insert_ne; [|congruence|].
      2: { rewrite !mod_wrap by assumption. destruct (Nat.ltb_spec (f + k) (length ids)), (Nat.ltb_spec (f + j) (length ids)); lia. }
      rewrite rot_lookup by assumption. reflexivity.
  - rewrite !lookup_ge_None_2; [reflexivity|rewrite length_insert, length_rot; lia|rewrite length_rot, length_insert; lia].
Qed.

(** Moving the start by one moves the first element to the end. *)
Lemma rot_step ids f x l : (f < length ids)%nat -> rot ids f = x :: l ->
  rot ids (if (S f =? length ids)%nat then 0%nat else S f) = l ++ [x] /\ ids !! f = Some x.
Proof.
  intros Hf E. unfold rot in *. destruct (lookup_lt_is_Some_2 ids f Hf) as [y Hy]. rewrite (drop_S _ _ _ Hy) in E.
  injection E as -> <-. split; [|exact Hy]. destruct (Nat.eqb_spec (S f) (length ids)) as [Hs|Hs].
  - rewrite Hs, drop_all, drop_0, app_nil_l, take_0, app_nil_r. rewrite <- (take_S_r _ _ _ Hy). rewrite Hs, firstn_all. reflexivity.
  - rewrite (take_S_r _ _ _ Hy), app_assoc. reflexivity.
Qed.

Lemma go_copy_fits (dst src : list Z) : (length src <= length dst)%nat -> go_copy dst src = (src ++ drop (length src) dst, length src).
Proof. intros H. unfold go_copy. rewrite Nat.min_r by exact H. rewrite firstn_all. reflexivity. Qed.

Lemma grow_ok txr : ring_ok txr -> txIDCount txr = Z.of_nat (length (txIDs txr)) -> txIDCount txr < 2 ^ 30 ->
  exists txr', grow txr = Ret txr' /\ ring_ok txr' /\ elems txr' = elems txr /\ txIDCount txr' = txIDCount txr
    /\ txIDCount txr' < Z.of_nat (length (txIDs txr')).
Proof.
  intros [Hl Hc [Hf0 Hf]] Hfull Hlt. unfold grow. rewrite u32_id by (unfold is_u32; lia).
  set (n := if _ =? 0 then 4 else _). assert (Hn : txIDCount txr < n < 2 ^ 31).
  { subst n. destruct (Z.eqb_spec (txIDCount txr * 2) 0); lia. }
  rewrite (proj2 (Nat.ltb_ge _ _)) by lia. set (f := Z.to_nat (txIDFirst txr)). set (ids := txIDs txr) in *.
  rewrite go_copy_fits by (rewrite length_drop, length_replicate; lia).
  set (new := replicate (Z.to_nat n) 0). assert (Hnew : length new = Z.to_nat n) by apply length_replicate.
  rewrite take_app_length. rewrite drop_app_length. rewrite go_copy_fits by (rewrite !length_drop, length_take; lia). cbn [fst].
  assert (Hlen : length (rot ids f) = length ids) by apply length_rot.
  eexists. split; [reflexivity|]. unfold elems. cbn [txIDs txIDFirst txIDCount]. rewrite app_assoc. fold (rot ids f).
  set (rest := drop _ _). assert (Hrest : (length rest = Z.to_nat n - length ids)%nat).
  { unfold rest. rewrite !length_drop, length_take. lia. }
  split; [|split; [|split; [reflexivity|rewrite length_app, Hlen, Hrest; lia]]].
  - constructor; cbn [txIDs txIDFirst txIDCount]; rewrite length_app, Hlen, Hrest; lia.
  - change (Z.to_nat 0) with 0%nat. unfold rot at 1. rewrite drop_0, take_0, app_nil_r. fold f.
    rewrite take_app_le by lia. reflexivity.
Qed.

Lemma add_ok x txr : ring_ok txr -> txIDCount txr < 2 ^ 30 ->
  exists txr', add x txr = Ret txr' /\ ring_ok txr' /\ elems txr' = elems txr ++ [x].
Proof.
  intros Hok Hlt. unfold add.
  assert (H : exists t, (if txIDCount txr =? Z.of_nat (length (txIDs txr)) then grow txr else Ret txr) = Ret t /\ ring_ok t
    /\ elems t = elems txr /\ txIDCount t = txIDCount txr /\ txIDCount t < Z.of_nat (length (txIDs t))).
  { destruct (Z.eqb_spec (txIDCount txr) (Z.of_nat (length (txIDs txr)))) as [E|E].
    - exact (grow_ok txr Hok E Hlt).
    - exists txr. destruct (ring_count _ Hok). repeat split; try reflexivity; try apply Hok; lia. }
  destruct H as (t & -> & [Hl Hc [Hf0 Hf]] & He & Ec & Hroom). cbn [outcome_bind].
  rewrite (proj2 (Nat.eqb_neq _ _)) by lia. eexists. split; [reflexivity|].
  assert (Hfl : (Z.to_nat (txIDFirst t) < length (txIDs t))%nat) by lia.
  rewrite (u32_id (txIDCount t + 1)) by (unfold is_u32; lia). rewrite (u32_id (txIDFirst t + txIDCount t)) by (unfold is_u32; lia).
  rewrite Z2Nat.inj_add by lia. split.
  - constructor; cbn [txIDs txIDFirst txIDCount]; rewrite length_insert; lia.
  - rewrite <- He. unfold elems. cbn [txIDs txIDFirst txIDCount]. rewrite rot_insert by lia.
    rewrite Z2Nat.inj_add by lia. rewrite Nat.add_1_r.
    rewrite (take_S_r _ _ x) by (apply list_lookup_insert_eq; rewrite length_rot; lia).
    rewrite take_insert_ge by lia. reflexivity.
Qed.

(** Dropping the ids below a bound from the front, and only from there. *)
Fixpoint drop_below (bound : Z) (l : list Z) : list Z :=
  match l with
  | id :: l' => if bound <=? id then l else drop_below bound l'
  | [] => []
  end.

Lemma cleanup_loop_ok fuel bound ids first count : (Z.to_nat count <= fuel)%nat -> (0 < length ids)%nat ->
  0 <= count <= Z.of_nat (length ids) -> 0 <= first -> first + count < 2 ^ 32 ->
  exists first' count', cleanup_loop fuel bound (mkRing ids first count) (Z.to_nat (first mod Z.of_nat (length ids))) = Ret (Some (mkRing ids first' count'))
    /\ 0 <= first' /\ first' + count' < 2 ^ 32 /\ 0 <= count' <= count
    /\ take (Z.to_nat count') (rot ids (Z.to_nat (first' mod Z.of_nat (length ids))))
       = drop_below bound (take (Z.to_nat count) (rot ids (Z.to_nat (first mod Z.of_nat (length ids))))).
Proof.
  revert first count. induction fuel as [|fuel IH]; intros first count Hfuel Hlen Hc Hf Hsum.
  - assert (count = 0) as -> by lia. exists first, 0. repeat split; try lia; reflexivity.
  - cbn [cleanup_loop txIDCount]. destruct (Z.ltb_spec 0 count) as [Hpos|]; [|assert (count = 0) as -> by lia; exists first, 0; repeat split; try lia; reflexivity].
    pose proof (Z.mod_pos_bound first (Z.of_nat (length ids)) ltac:(lia)) as Hm. set (pos := Z.to_nat (first mod _)).
    assert (Hpl : (pos < length ids)%nat) by (unfold pos; lia).
    destruct (rot ids pos) as [|id l] eqn:E; [apply (f_equal length) in E; rewrite length_rot in E; cbn in E; lia|].
    destruct (rot_step ids pos id l Hpl E) as [Hrot Hid]. cbn [txIDs txIDFirst]. rewrite Hid.
    replace (Z.to_nat count) with (S (Z.to_nat (count - 1))) by lia. cbn [take drop_below]. destruct (Z.leb_spec bound id).
    + exists first, count. split; [reflexivity|]. repeat split; try lia. fold pos. rewrite E. 
      replace (Z.to_nat count) with (S (Z.to_nat (count - 1))) by lia. reflexivity.
    + rewrite (u32_id (first + 1)), (u32_id (count - 1)) by (unfold is_u32; lia).
      assert (Hnext : (if (S pos =? length ids)%nat then 0%nat else S pos) = Z.to_nat ((first + 1) mod Z.of_nat (length ids))).
      { rewrite <- Z.add_mod_idemp_l by lia. subst pos. set (m := first mod _) in *.
        destruct (Nat.eqb_spec (S (Z.to_nat m)) (length ids)) as [Hs|Hs].
        - replace (m + 1) with (Z.of_nat (length ids)) by lia. rewrite Z.mod_same by lia. reflexivity.
        - rewrite Z.mod_small by lia. lia. }
      rewrite Hnext in *. destruct (IH (first + 1) (count - 1)) as (f' & c' & -> & H1 & H2 & H3 & H4); try lia.
      exists f', c'. split; [reflexivity|]. repeat split; try lia. rewrite H4, Hrot. f_equal.
      rewrite take_app_le; [reflexivity|]. apply (f_equal length) in E. rewrite length_rot in E. cbn in E. lia.
Qed.

Lemma cleanup_ok bound txr : ring_ok txr -> exists txr', cleanupAppendIDsBelow bound txr = Ret (Some txr') /\ ring_ok txr'
  /\ elems txr' = drop_below bound (elems txr).
Proof.
  intros Hok. pose proof Hok as [Hl Hc [Hf0 Hf]]. unfold cleanupAppendIDsBelow. destruct (Nat.eqb_spec (length (txIDs txr)) 0) as [E0|E0].
  - exists txr. split; [reflexivity|]. split; [exact Hok|]. unfold elems. replace (txIDCount txr) with 0 by lia. reflexivity.
  - set (n := Z.of_nat (length (txIDs txr))) in *. assert (Hsmall : txIDFirst txr mod n = txIDFirst txr) by (apply Z.mod_small; lia).
    destruct (cleanup_loop_ok (Z.to_nat (txIDCount txr)) bound (txIDs txr) (txIDFirst txr) (txIDCount txr)) as (f' & c' & E & H1 & H2 & H3 & H4); try lia.
    fold n in E, H4. rewrite Hsmall in E, H4. assert (Eta : mkRing (txIDs txr) (txIDFirst txr) (txIDCount txr) = txr) by (destruct txr; reflexivity).
    rewrite Eta in E. rewrite E. cbn [outcome_bind txIDs txIDFirst txIDCount]. rewrite !u32_id by (unfold is_u32; lia). fold n.
    eexists. split; [reflexivity|]. pose proof (Z.mod_pos_bound f' n ltac:(lia)) as Hm. split.
    + constructor; cbn [txIDs txIDFirst txIDCount]; fold n; lia.
    + unfold elems at 1. cbn [txIDs txIDFirst txIDCount]. rewrite H4. reflexivity.
Qed.

(** The iterator yields the elements in order. *)
Definition it_at (it : txRingIterator) (txr : txRing) (k : nat) : Prop :=
  it_ids it = txIDs txr /\ it_pos it = (txIDFirst txr + Z.of_nat k) mod Z.of_nat (length (txIDs txr)).

Lemma iterator_at txr : ring_ok txr -> (0 < length (txIDs txr))%nat -> it_at (iterator txr) txr 0.
Proof.
  intros [Hl Hc [Hf0 Hf]] Hlen. split; [reflexivity|]. cbn. rewrite Z.add_0_r. symmetry. apply Z.mod_small. lia.
Qed.

Lemma At_elems it txr k id : ring_ok txr -> it_at it txr k -> elems txr !! k = Some id -> At it = Ret id /\ it_at (Next it) txr (S k).
Proof.
  intros [Hl Hc [Hf0 Hf]] [Hi Hp] Hk.
  assert (Hkc : (k < Z.to_nat (txIDCount txr))%nat) by (apply lookup_lt_Some in Hk; unfold elems in Hk; rewrite length_take in Hk; lia).
  unfold elems in Hk. rewrite lookup_take_lt in Hk by exact Hkc. rewrite rot_lookup in Hk by lia.
  pose proof (Z.mod_pos_bound (txIDFirst txr + Z.of_nat k) (Z.of_nat (length (txIDs txr))) ltac:(lia)) as Hm. split.
  - unfold At. rewrite Hi, Hp. replace (Z.to_nat (_ mod _)) with ((Z.to_nat (txIDFirst txr) + k) mod length (txIDs txr))%nat; [rewrite Hk; reflexivity|].
    rewrite Z2Nat.inj_mod by lia. rewrite Z2Nat.inj_add, !Nat2Z.id by lia. reflexivity.
  - unfold Next, it_at. cbn [it_ids it_pos]. split; [exact Hi|]. rewrite Hi, Hp, u32_id by (unfold is_u32; lia).
    replace (Z.of_nat (S k)) with (Z.of_nat k + 1) by lia. rewrite Z.add_assoc, <- (Z.add_mod_idemp_l (txIDFirst txr + Z.of_nat k)) by lia.
    set (m := (txIDFirst txr + Z.of_nat k) mod _) in *. destruct (Z.eqb_spec (m + 1) (Z.of_nat (length (txIDs txr)))) as [->|Hne].
    + rewrite Z.mod_same by lia. reflexivity.
    + rewrite Z.mod_small by lia. reflexivity.
Qed.
End ring.

(** ** What a read returns of a series *)

(** The number of ids before the first that does not satisfy [P]. *)
Fixpoint prefix_len (P : Z -> bool) (l : list Z) : nat :=
  match l with
  | x :: l' => if P x then S (prefix_len P l') else 0
  | [] => 0
  end.

Definition sumZ (l : list Z) : Z := fold_right Z.add 0 l.

Section stop_proofs.

Lemma prefix_len_le P l : (prefix_len P l <= length l)%nat.
Proof. induction l as [|x l IH]; cbn; [lia|]. destruct (P x); lia. Qed.

Lemma prefix_len_take P l n : prefix_len P (take n l) = Nat.min n (prefix_len P l).
Proof. revert n. induction l as [|x l IH]; intros [|n]; cbn; try reflexivity. rewrite IH. destruct (P x); lia. Qed.

Lemma prefix_len_app P l1 l2 : List.Forall (fun x => P x = true) l1 -> prefix_len P (l1 ++ l2) = (length l1 + prefix_len P l2)%nat.
Proof. induction 1 as [|x l1 Hx _ IH]; cbn; [reflexivity|]. rewrite Hx, IH. reflexivity. Qed.

Lemma stop_loop_ok txr st consider numSamples : ring_ok txr -> 0 <= numSamples -> forall n it k,
  it_at it txr k -> (k + n <= length (elems txr))%nat -> consider = Z.of_nat (k + n) ->
  stop_loop n st it consider (Z.of_nat k) numSamples
  = Ret (Z.max 0 (numSamples - Z.of_nat (n - prefix_len (visible (read_of st)) (take n (drop k (elems txr)))))).
Proof.
  intros Hok Hnum. induction n as [|n IH]; intros it k Hit Hlen Hcons; cbn [stop_loop].
  - cbn. f_equal. lia.
  - destruct (lookup_lt_is_Some_2 (elems txr) k) as [id Hid]; [lia|].
    destruct (At_elems it txr k id Hok Hit Hid) as [-> Hnext]. cbn [outcome_bind]. rewrite (drop_S _ _ _ Hid). cbn [take prefix_len].
    change ((id <=? maxAppendID st) && negb (bool_decide (id ∈ incompleteAppends st))) with (visible (read_of st) id).
    destruct (visible (read_of st) id).
    + replace (Z.of_nat k + 1) with (Z.of_nat (S k)) by lia. rewrite (IH _ _ Hnext) by lia. reflexivity.
    + f_equal. replace (numSamples - (consider - Z.of_nat k)) with (numSamples - Z.of_nat (S n - 0)) by lia.
      destruct (Z.ltb_spec (numSamples - Z.of_nat (S n - 0)) 0); lia.
Qed.

Lemma count_samples_sum chunks j ix total previous : 0 <= j ->
  count_samples chunks j ix total previous = (total + sumZ chunks, previous + sumZ (take (Z.to_nat (ix - j)) chunks)).
Proof.
  revert j total previous. induction chunks as [|d chunks IH]; intros j total previous Hj; cbn [count_samples].
  - rewrite take_nil. unfold sumZ. cbn. f_equal; lia.
  - rewrite IH by lia. destruct (Z.ltb_spec j ix).
    + replace (Z.to_nat (ix - j)) with (S (Z.to_nat (ix - (j + 1)))) by lia. unfold sumZ. cbn. f_equal; lia.
    + replace (Z.to_nat (ix - (j + 1))) with 0%nat by lia. replace (Z.to_nat (ix - j)) with 0%nat by lia. unfold sumZ. cbn. f_equal; lia.
Qed.

Lemma sumZ_app l1 l2 : sumZ (l1 ++ l2) = sumZ l1 + sumZ l2.
Proof. unfold sumZ. induction l1 as [|x l1 IH]; cbn; lia. Qed.

Lemma length_elems txr : ring_ok txr -> Z.of_nat (length (elems txr)) = txIDCount txr.
Proof. intros [_ Hc _]. unfold elems. rewrite length_take, length_rot. lia. Qed.

(** The stop position of one chunk.  [ids] are the append ids of all samples the
    series ever had, of which the first [gone] are no longer in its chunks, and
    the ring holds all but the first [d]. *)
Lemma stopAfter_ok ids gone d ix mmapped heads num txs st :
  let sizes := mmapped ++ rev heads in
  ring_ok txs -> elems txs = drop d ids -> (d <= length ids)%nat ->
  List.Forall (fun id => visible (read_of st) id = true) (take d ids) ->
  0 <= num -> 0 <= ix -> List.Forall (Z.le 0) sizes -> Z.of_nat gone + sumZ sizes = Z.of_nat (length ids) ->
  sumZ (take (Z.to_nat ix) sizes) + num <= sumZ sizes ->
  stopAfter ix mmapped heads num (Some (st, false)) txs
  = Ret (Z.max 0 (Z.min num (Z.of_nat (prefix_len (visible (read_of st)) ids) - Z.of_nat gone - sumZ (take (Z.to_nat ix) sizes)))).
Proof.
  intros sizes Hok He Hd Hvis Hnum Hix Hpos Htotal Hfit. unfold stopAfter. rewrite !count_samples_sum, !Z.add_0_l, !Z.sub_0_r by lia.
  assert (Hprev : sumZ (take (Z.to_nat ix) mmapped) + sumZ (take (Z.to_nat (ix - Z.of_nat (length mmapped))) (rev heads)) = sumZ (take (Z.to_nat ix) sizes)).
  { unfold sizes. rewrite take_app, sumZ_app. do 3 f_equal. lia. }
  assert (Htot : sumZ mmapped + sumZ (rev heads) = sumZ sizes) by (unfold sizes; rewrite sumZ_app; reflexivity).
  rewrite Hprev, Htot. set (prev := sumZ (take _ sizes)) in *. pose proof (length_elems txs Hok) as Hlen. rewrite He, length_drop in Hlen.
  set (V := visible (read_of st)) in *.
  assert (HV : prefix_len V ids = (d + prefix_len V (drop d ids))%nat).
  { rewrite <- (take_drop d ids) at 1. rewrite prefix_len_app by exact Hvis. rewrite length_take. lia. }
  assert (Hprev0 : 0 <= prev).
  { unfold prev. assert (Hall : List.Forall (Z.le 0) (take (Z.to_nat ix) sizes)).
    { rewrite <- (take_drop (Z.to_nat ix) sizes) in Hpos. apply List.Forall_app in Hpos. tauto. }
    clear -Hall. induction Hall; unfold sumZ in *; cbn; lia. }
  set (consider := txIDCount txs - (sumZ sizes - (prev + num))). destruct (Z.le_gt_cases consider 0) as [Hneg|Hgt].
  - replace (Z.to_nat consider) with 0%nat by lia. cbn [stop_loop]. f_equal. unfold consider in Hneg. lia.
  - assert (Hl0 : (0 < length (txIDs txs))%nat) by (destruct (ring_count _ Hok); unfold consider in Hgt; lia).
    pose proof (stop_loop_ok txs st consider num Hok Hnum (Z.to_nat consider) (iterator txs) 0 (iterator_at txs Hok Hl0)) as E.
    rewrite He, length_drop, drop_0, prefix_len_take in E. fold V in E. change (Z.of_nat 0) with 0 in E.
    rewrite E by (unfold consider; lia). f_equal. unfold consider. lia.
Qed.

(** Cutting every chunk at a common position cuts their concatenation there. *)
Lemma concat_cut {A} (chunks : list (list A)) (stops : list Z) (v : Z) :
  Forall2 (fun k stop => forall c, chunks !! k = Some c ->
      stop = Z.max 0 (Z.min (Z.of_nat (length c)) (v - sumZ (map (fun c => Z.of_nat (length c)) (take k chunks)))))
    (seq 0 (length chunks)) stops ->
  concat (zip_with chunk_samples chunks stops) = take (Z.to_nat v) (concat chunks).
Proof.
  revert stops v. induction chunks as [|c chunks IH]; intros stops v H; [symmetry; apply take_nil|].
  cbn [length seq] in H. apply Forall2_cons_inv_l in H as (stop & stops' & Hs & H & ->). cbn [zip_with concat].
  specialize (Hs c eq_refl). cbn in Hs. rewrite chunk_samples_take by (unfold sumZ in Hs; cbn in Hs; lia).
  rewrite take_app. f_equal; [rewrite Hs; unfold sumZ; cbn; destruct (Z.le_gt_cases v (Z.of_nat (length c)));
    [f_equal; lia|rewrite !take_ge by lia; reflexivity]|].
  rewrite (IH stops' (v - Z.of_nat (length c))).
  - f_equal. lia.
  - rewrite <- seq_shift in H. apply Forall2_fmap_l in H. eapply Forall2_impl; [exact H|]. cbn beta. intros k stop0 Hk c' Hc'.
    specialize (Hk c' Hc'). cbn [take map] in Hk. unfold sumZ in *. cbn [fold_right] in Hk. lia.
Qed.
End stop_proofs.

(** The ring is a queue: adding an id appends it, also when the buffer is
    full and has to grow; the clean-up drops the ids below the bound from the
    front and ends; the iterator yields the ids in order. *)
Theorem tx_ring_is_queue txr : ring_ok txr ->
  (forall id, txIDCount txr < 2 ^ 30 -> exists txr', add id txr = Ret txr' /\ ring_ok txr' /\ elems txr' = elems txr ++ [id]) /\
  (forall bound, exists txr', cleanupAppendIDsBelow bound txr = Ret (Some txr') /\ ring_ok txr' /\ elems txr' = drop_below bound (elems txr)) /\
  (forall k id, elems txr !! k = Some id -> At (Nat.iter k Next (iterator txr)) = Ret id).
Proof.
  intros Hok. split; [intros id Hlt; exact (add_ok id txr Hok Hlt)|]. split; [intros bound; exact (cleanup_ok bound txr Hok)|].
  intros k id Hk. assert (Hit : forall j, (j <= k)%nat -> it_at (Nat.iter j Next (iterator txr)) txr j).
  { induction j as [|j IH]; intros Hj.
    - apply iterator_at; [exact Hok|]. apply lookup_lt_Some in Hk. unfold elems in Hk. rewrite length_take, length_rot in Hk. lia.
    - destruct (lookup_lt_is_Some_2 (elems txr) j) as [x Hx]; [apply lookup_lt_Some in Hk; lia|].
      exact (proj2 (At_elems _ _ _ _ Hok (IH ltac:(lia)) Hx)). }
  exact (proj1 (At_elems _ _ _ _ Hok (Hit k (Nat.le_refl k)) Hk)).
Qed.

(** ** A series, its appenders and its readers

    [sys_apps] are the open appenders with their clean-up bounds, [sys_ids] the
    append ids of all samples of the series, in the order of the samples, and
    [sys_reads] the open reads.  The steps are those of [headAppender] on one
    series and of queries; they interleave freely. *)
Record system := mkSys { sys_iso : isolation; sys_apps : gmap Z Z; sys_ring : txRing; sys_ids : list Z; sys_reads : gset ptr }.

Definition sys_init : system := mkSys (newIsolation false) ∅ (newTxRing 0) [] ∅.

Inductive sys_step : system -> system -> Prop :=
| step_begin i apps ring ids reads c mt id low i' last : lastAppendID i = Ret last -> last + 1 < 2 ^ 64 ->
    newAppendID c mt i = Ret (id, low, i') ->
    sys_step (mkSys i apps ring ids reads) (mkSys i' (<[id := low]> apps) ring ids reads)
| step_append i apps ring ids reads id low ring' : apps !! id = Some low -> Z.of_nat (length ids) < 2 ^ 30 ->
    add id ring = Ret ring' ->
    sys_step (mkSys i apps ring ids reads) (mkSys i apps ring' (ids ++ [id]) reads)
| step_cleanup i apps ring ids reads id low ring' : apps !! id = Some low ->
    cleanupAppendIDsBelow low ring = Ret (Some ring') ->
    sys_step (mkSys i apps ring ids reads) (mkSys i apps ring' ids reads)
| step_end i apps ring ids reads id low i' : apps !! id = Some low -> closeAppend id i = Ret i' ->
    sys_step (mkSys i apps ring ids reads) (mkSys i' (delete id apps) ring ids reads)
| step_read i apps ring ids reads mint maxt p i' : State mint maxt i = Ret (p, i') ->
    sys_step (mkSys i apps ring ids reads) (mkSys i' apps ring ids ({[p]} ∪ reads))
| step_close i apps ring ids reads p i' : p ∈ reads -> Close p i = Ret i' ->
    sys_step (mkSys i apps ring ids reads) (mkSys i' apps ring ids (reads ∖ {[p]})).

Record sys_ok (y : system) (s : spec) : Prop := mkSysOk {
  sys_refines : refines (sys_iso y) s;
  sys_enabled : sp_disabled s = false;
  sys_ring_ok : ring_ok (sys_ring y);
  sys_elems : exists d, (d <= length (sys_ids y))%nat /\ elems (sys_ring y) = drop d (sys_ids y)
                        /\ List.Forall (fun id => id < sp_low s) (take d (sys_ids y));
  sys_bounds : forall id low, sys_apps y !! id = Some low -> low <= sp_low s;
  sys_open : forall id, is_Some (sys_apps y !! id) <-> In id (sp_ids s);
  sys_handles : forall p, p ∈ sys_reads y <-> p ∈ map fst (sp_reads s) }.

Section system.

(** One operation of the isolation, as the specification sees it. *)
Lemma sys_op i s o r i' : refines i s -> sp_disabled s = false -> allowed s o -> exec o i = Ret (Some r, i') ->
  exists s', spec_step s o r s' /\ refines i' s' /\ sp_disabled s' = false /\ sp_low s <= sp_low s'.
Proof.
  intros R Hd Ha E. destruct (isolation_step i s o R Ha) as (r0 & i0 & s' & E0 & Hst & R'). rewrite E in E0. injection E0 as <- <-.
  exists s'. split; [exact Hst|]. split; [exact R'|]. split.
  - destruct Hst; exact Hd.
  - exact (low_mono s o r s' (proj1 R) Hd Ha Hst).
Qed.

(** The ring is not concerned by a step of the isolation. *)
Lemma sys_ok_iso i s i' s' apps apps' ring ids reads reads' : sys_ok (mkSys i apps ring ids reads) s ->
  refines i' s' -> sp_disabled s' = false -> sp_low s <= sp_low s' ->
  (forall id low, apps' !! id = Some low -> apps !! id = Some low \/ low <= sp_low s') ->
  (forall id, is_Some (apps' !! id) <-> In id (sp_ids s')) ->
  (forall p, p ∈ reads' <-> p ∈ map fst (sp_reads s')) -> sys_ok (mkSys i' apps' ring ids reads') s'.
Proof.
  intros [R Hd Hr (d & Hdl & He & Hlow) Hb Ho Hh] R' Hd' Hmono Happs Hopen Hreads. cbn in *. constructor; cbn; try assumption.
  - exists d. split; [exact Hdl|]. split; [exact He|]. eapply List.Forall_impl; [|exact Hlow]. cbn. lia.
  - intros id low Hid. destruct (Happs id low Hid) as [Hold|Hnew]; [|exact Hnew]. specialize (Hb id low Hold). lia.
Qed.

Lemma drop_below_prefix bound l : exists n, (n <= length l)%nat /\ drop_below bound l = drop n l /\ List.Forall (fun id => id < bound) (take n l).
Proof.
  induction l as [|id l (n & Hn & E & Hf)]; [exists 0%nat; repeat split; constructor|]. cbn. destruct (Z.leb_spec bound id).
  - exists 0%nat. split; [lia|]. split; [reflexivity|constructor].
  - exists (S n). split; [lia|]. split; [exact E|]. constructor; assumption.
Qed.

Lemma sys_read_ok i apps ring ids reads s mint maxt p i' : sys_ok (mkSys i apps ring ids reads) s -> State mint maxt i = Ret (p, i') ->
  sys_ok (mkSys i' apps ring ids ({[p]} ∪ reads)) (sp_State p mint maxt s).
Proof.
  intros Hok E. pose proof Hok as [R Hd _ _ _ Ho Hh]. cbn in *.
  destruct (sys_op i s (OpState mint maxt) (ResPtr p) i' R Hd I) as (s' & Hstep & R' & Hd' & Hm).
  { cbn [exec]. rewrite E. reflexivity. }
  inversion Hstep; subst. apply (sys_ok_iso i s _ _ apps _ ring ids reads); try assumption; [auto|].
  intros q. cbn. rewrite elem_of_union, elem_of_singleton, elem_of_cons, Hh. reflexivity.
Qed.

(** A step keeps the invariant, and the reads that stay open. *)
Lemma sys_step_ok y y' s : sys_ok y s -> sys_step y y' ->
  exists s', sys_ok y' s' /\ forall e, In e (sp_reads s) -> fst e ∈ sys_reads y' -> In e (sp_reads s').
Proof.
  intros Hok Hst. pose proof Hok as [R Hd Hr (d & Hdl & He & Hlow) Hb Ho Hh].
  destruct Hst as [i apps ring ids reads c mt id low i' last Hlast Hlt E|i apps ring ids reads id low ring' Hid Hlt E
    |i apps ring ids reads id low ring' Hid E|i apps ring ids reads id low i' Hid E|i apps ring ids reads mint maxt p i' E|i apps ring ids reads p i' Hp E];
    cbn [sys_iso sys_apps sys_ring sys_ids sys_reads] in *.
  - assert (Ha : allowed s (OpNewAppend c mt)).
    { destruct R as [_ [aps R]]. rewrite (lastAppendID_refines _ _ _ R), Hd in Hlast. injection Hlast as <-. exact Hlt. }
    destruct (sys_op i s (OpNewAppend c mt) (ResPair id low) i' R Hd Ha) as (s' & Hstep & R' & Hd' & Hm).
    { cbn [exec]. rewrite E. reflexivity. }
    exists s'. inversion Hstep; subst; [|congruence]. split; [|auto]. apply (sys_ok_iso i s _ _ apps _ ring ids reads); try assumption.
    + intros id' low' Hid'. apply lookup_insert_Some in Hid' as [[_ <-]|[_ Hid']]; [right; lia|left; exact Hid'].
    + intros id'. unfold sp_ids. cbn [sp_newAppend sp_open]. rewrite map_app, in_app_iff, <- (Ho id'). cbn.
      rewrite lookup_insert_is_Some'. intuition.
  - exists s. destruct (add_ok id ring Hr) as (r2 & E2 & Hr2 & He2).
    { rewrite <- (length_elems _ Hr), He, length_drop. lia. }
    rewrite E in E2. injection E2 as <-. split; [|auto]. constructor; cbn; try assumption. exists d. rewrite length_app, drop_app_le, take_app_le by lia.
    split; [lia|]. split; [rewrite He2, He; reflexivity|exact Hlow].
  - exists s. destruct (cleanup_ok low ring Hr) as (r2 & E2 & Hr2 & He2). rewrite E in E2. injection E2 as <-.
    split; [|auto]. constructor; cbn; try assumption. destruct (drop_below_prefix low (elems ring)) as (n & Hn & Ed & Hf). rewrite He in Hn, Ed, Hf.
    rewrite length_drop in Hn. exists (d + n)%nat. split; [lia|]. split; [rewrite He2, He, Ed, drop_drop; reflexivity|].
    rewrite <- take_take_drop. apply List.Forall_app. split; [exact Hlow|]. eapply List.Forall_impl; [|exact Hf]. cbn. specialize (Hb id low Hid). lia.
  - destruct (sys_op i s (OpCloseAppend id) ResUnit i' R Hd I) as (s' & Hstep & R' & Hd' & Hm).
    { cbn [exec]. rewrite E. reflexivity. }
    exists s'. inversion Hstep; subst. split; [|auto]. apply (sys_ok_iso i s _ _ apps _ ring ids reads); try assumption.
    + intros id' low' Hid'. apply lookup_delete_Some in Hid' as [_ Hid']. left. exact Hid'.
    + intros id'. unfold sp_ids. cbn [sp_closeAppend sp_open]. rewrite (map_fst_filter (fun x => negb (x =? id))), filter_In, negb_true_iff, Z.eqb_neq.
      fold (sp_ids s). rewrite <- (Ho id'), lookup_delete_is_Some. intuition.
  - exists (sp_State p mint maxt s). split; [exact (sys_read_ok _ _ _ _ _ _ _ _ _ _ Hok E)|]. intros e He0 _. right. exact He0.
  - destruct (sys_op i s (OpClose p) ResUnit i' R Hd (proj1 (Hh p) Hp)) as (s' & Hstep & R' & Hd' & Hm).
    { cbn [exec]. rewrite E. reflexivity. }
    exists s'. inversion Hstep; subst. split.
    + apply (sys_ok_iso i s _ _ apps _ ring ids reads); try assumption; [auto|].
      intros q. cbn [sp_Close sp_reads]. rewrite (map_fst_filter (fun x => negb (x =? p))), list_elem_of_In, filter_In, <- list_elem_of_In, <- Hh.
      rewrite elem_of_difference, elem_of_singleton, negb_true_iff, Z.eqb_neq. reflexivity.
    + intros e He0 Hin. cbn [sp_Close sp_reads]. apply filter_In. split; [exact He0|]. apply negb_true_iff, Z.eqb_neq. set_solver.
Qed.

Lemma sys_reach_ok y : rtc sys_step sys_init y -> exists s, sys_ok y s.
Proof.
  intros Hr. refine (rtc_ind_r (fun y => exists s, sys_ok y s) sys_init _ _ y Hr).
  - exists (sp_new false). constructor; cbn; try reflexivity.
    + apply refines_new.
    + constructor; cbn; lia.
    + exists 0%nat. split; [reflexivity|]. split; [reflexivity|constructor].
    + intros id low. rewrite lookup_empty. discriminate.
    + intros id. rewrite lookup_empty. split; [intros [? [=]]|intros []].
    + set_solver.
  - intros x z _ Hst [s Hok]. destruct (sys_step_ok x z s Hok Hst) as (s' & Hok' & _). eauto.
Qed.

(** While a read is open its state does not change. *)
Definition step_keeping (p : ptr) (y y' : system) : Prop := sys_step y y' /\ p ∈ sys_reads y'.

Lemma sys_keeping_ok p r y y' s : sys_ok y s -> In (p, r) (sp_reads s) -> rtc (step_keeping p) y y' ->
  exists s', sys_ok y' s' /\ In (p, r) (sp_reads s').
Proof.
  intros Hok Hin Hr. revert s Hok Hin. induction Hr as [y|y z y' [Hst Hp] _ IH]; intros s Hok Hin; [eauto|].
  destruct (sys_step_ok y z s Hok Hst) as (s' & Hok' & Hkeep). exact (IH s' Hok' (Hkeep _ Hin Hp)).
Qed.

(** The stops of all chunks of the series. *)
Definition sizes {A} (chunks : list (list A)) : list Z := map (fun c => Z.of_nat (length c)) chunks.

Lemma sumZ_sizes {A} (chunks : list (list A)) : sumZ (sizes chunks) = Z.of_nat (length (concat chunks)).
Proof. induction chunks as [|c l IH]; [reflexivity|]. unfold sumZ, sizes in *. cbn. rewrite length_app. lia. Qed.

Lemma sys_stops {A} y s p st (mm heads : list (list A)) gone : sys_ok y s -> In (p, read_of st) (sp_reads s) ->
  (gone + length (concat (mm ++ rev heads)) = length (sys_ids y))%nat ->
  exists stops, Forall2 (fun ix stop => forall c, (mm ++ rev heads) !! ix = Some c ->
      stopAfter (Z.of_nat ix) (sizes mm) (sizes heads) (Z.of_nat (length c)) (Some (st, false)) (sys_ring y) = Ret stop)
      (seq 0 (length (mm ++ rev heads))) stops
    /\ concat (zip_with chunk_samples (mm ++ rev heads) stops)
       = take (prefix_len (visible (read_of st)) (sys_ids y) - gone) (concat (mm ++ rev heads)).
Proof.
  intros [R Hd Hr (d & Hdl & He & Hlow) Hb Ho Hh] Hin Hlen. set (chunks := mm ++ rev heads) in *.
  assert (Hsz : sizes mm ++ rev (sizes heads) = sizes chunks) by (unfold sizes, chunks; rewrite map_app, map_rev; reflexivity).
  set (v := Z.of_nat (prefix_len (visible (read_of st)) (sys_ids y)) - Z.of_nat gone).
  exists (map (fun k => Z.max 0 (Z.min (Z.of_nat (length (nth k chunks []))) (v - sumZ (sizes (take k chunks))))) (seq 0 (length chunks))).
  split.
  - apply Forall2_fmap_r. apply Forall_Forall2_diag. apply Forall_forall. intros k _ c Hc.
    rewrite (stopAfter_ok (sys_ids y) gone d); rewrite ?Hsz, ?Nat2Z.id; try assumption; try lia.
    + f_equal. rewrite (nth_lookup_Some _ _ [] c Hc). unfold v, sizes. rewrite <- firstn_map. reflexivity.
    + eapply List.Forall_impl; [|exact Hlow]. intros id Hid. exact (low_visible s p _ id (proj1 R) Hd Hin Hid).
    + unfold sizes. apply List.Forall_forall. intros z Hz. apply in_map_iff in Hz as (c' & <- & _). lia.
    + rewrite sumZ_sizes. lia.
    + unfold sizes. rewrite firstn_map. fold (sizes (take k chunks)). fold (sizes chunks). rewrite !sumZ_sizes.
      rewrite <- (take_drop_middle chunks k c Hc) at 2. rewrite concat_app. cbn [concat]. rewrite !length_app. lia.
  - rewrite (concat_cut chunks _ v); [f_equal; unfold v; lia|]. apply Forall2_fmap_r. apply Forall_Forall2_diag. apply Forall_forall.
    intros k _ c Hc. rewrite (nth_lookup_Some _ _ [] c Hc). reflexivity.
Qed.

Lemma prefix_len_ext P Q l : (forall x, P x = Q x) -> prefix_len P l = prefix_len Q l.
Proof. intros H. induction l as [|x l IH]; cbn; [reflexivity|]. rewrite H, IH. reflexivity. Qed.

(** C8: However appends, clean-ups of the ring and other reads interleave with a
    read, what it returns of the chunks of a series to calls of [Next] is the prefix of its samples
    before the first one of an append that had not ended when the read began,
    [last] being the last id given out by then; cleaning up the ids below the
    low watermark never changes it.  [gone] samples of dropped chunks precede
    those of the chunks that are left. *)
Theorem read_sees_ended_appends {A} y0 last mint maxt p i1 y st (mmapped heads : list (list A)) gone :
  rtc sys_step sys_init y0 -> lastAppendID (sys_iso y0) = Ret last -> State mint maxt (sys_iso y0) = Ret (p, i1) ->
  rtc (step_keeping p) (mkSys i1 (sys_apps y0) (sys_ring y0) (sys_ids y0) ({[p]} ∪ sys_reads y0)) y ->
  load (i_states (sys_iso y)) p = Ret st ->
  let chunks := mmapped ++ rev heads in
  (gone + length (concat chunks) = length (sys_ids y))%nat ->
  let ended id := (id <=? last) && negb (bool_decide (is_Some (sys_apps y0 !! id))) in
  exists stops, Forall2 (fun ix stop => forall c, chunks !! ix = Some c ->
      stopAfter (Z.of_nat ix) (sizes mmapped) (sizes heads) (Z.of_nat (length c)) (Some (st, false)) (sys_ring y) = Ret stop)
      (seq 0 (length chunks)) stops
    /\ concat (zip_with chunk_samples chunks stops) = take (prefix_len ended (sys_ids y) - gone) (concat chunks).
Proof.
  intros Hr Hlast E Hkeep Hst chunks Hlen ended. destruct (sys_reach_ok y0 Hr) as [s0 Hok0]. destruct y0 as [i0 apps ring ids reads]. cbn in *.
  pose proof (sys_read_ok _ _ _ _ _ _ _ _ _ _ Hok0 E) as Hok1. set (r := mkRead (sp_last s0) (list_to_set (sp_ids s0)) (sp_low_open s0) mint maxt).
  destruct (sys_keeping_ok p r _ y _ Hok1 (or_introl eq_refl) Hkeep) as (s & Hok & Hin).
  assert (Hread : read_of st = r).
  { destruct Hok as [[_ [aps R]] _ _ _ _ _ _]. pose proof (proj1 (List.Forall_forall _ _) (rep_read _ _ _ R) _ Hin) as Hn.
    unfold read_node in Hn. cbn [fst snd] in Hn. unfold load in Hst. destruct (i_states (sys_iso y) !! p); [|discriminate].
    injection Hst as ->. cbn in Hn. congruence. }
  rewrite (prefix_len_ext ended (visible (read_of st))).
  - apply (sys_stops y s p st); [exact Hok|rewrite Hread; exact Hin|exact Hlen].
  - intros id. unfold ended, visible. rewrite Hread. subst r. cbn [rd_max rd_incomplete].
    destruct Hok0 as [[_ [aps R]] Hd _ _ _ Ho _]. cbn in *. rewrite (lastAppendID_refines _ _ _ R), Hd in Hlast. injection Hlast as <-.
    f_equal. f_equal. apply bool_decide_ext. rewrite Ho, elem_of_list_to_set, list_elem_of_In. reflexivity.
Qed.
End system.

(** ** An example *)
Inductive act : Type := ABegin | AAppend (id : Z) | ACleanup (id : Z) | AEnd (id : Z) | ARead.

Definition sys_do (a : act) (y : system) : option system :=
  let '(mkSys i apps ring ids reads) := y in
  match a with
  | ABegin =>
      match lastAppendID i, newAppendID None 0 i with
      | Ret last, Ret (id, low, i') => if last + 1 <? 2 ^ 64 then Some (mkSys i' (<[id := low]> apps) ring ids reads) else None
      | _, _ => None
      end
  | AAppend id =>
      match apps !! id, add id ring with
      | Some _, Ret ring' => if Z.of_nat (length ids) <? 2 ^ 30 then Some (mkSys i apps ring' (ids ++ [id]) reads) else None
      | _, _ => None
      end
  | ACleanup id =>
      match apps !! id with
      | Some low => match cleanupAppendIDsBelow low ring with Ret (Some ring') => Some (mkSys i apps ring' ids reads) | _ => None end
      | None => None
      end
  | AEnd id =>
      match apps !! id, closeAppend id i with
      | Some _, Ret i' => Some (mkSys i' (delete id apps) ring ids reads)
      | _, _ => None
      end
  | ARead =>
      match State 0 0 i with Ret (p, i') => Some (mkSys i' apps ring ids ({[p]} ∪ reads)) | Panic => None end
  end.

Fixpoint sys_run (l : list act) (y : system) : option system :=
  match l with
  | [] => Some y
  | a :: l' => match sys_do a y with Some y' => sys_run l' y' | None => None end
  end.

Lemma sys_do_step a y y' : sys_do a y = Some y' -> sys_step y y' /\ (forall p, p ∈ sys_reads y -> p ∈ sys_reads y').
Proof.
  destruct y as [i apps ring ids reads]. destruct a; cbn [sys_do]; intros E.
  - destruct (lastAppendID i) eqn:E1; [|discriminate]. destruct (newAppendID None 0 i) as [[[id low] i']|] eqn:E2; [|discriminate].
    destruct (Z.ltb_spec (a + 1) (2 ^ 64)); [|discriminate]. injection E as <-. split; [econstructor; eassumption|auto].
  - destruct (apps !! id) eqn:E1; [|discriminate]. destruct (add id ring) eqn:E2; [|discriminate].
    destruct (Z.ltb_spec (Z.of_nat (length ids)) (2 ^ 30)); [|discriminate]. injection E as <-. split; [econstructor; eassumption|auto].
  - destruct (apps !! id) eqn:E1; [|discriminate]. destruct (cleanupAppendIDsBelow z ring) as [[r|]|] eqn:E2; try discriminate.
    injection E as <-. split; [econstructor; eassumption|auto].
  - destruct (apps !! id) eqn:E1; [|discriminate]. destruct (closeAppend id i) eqn:E2; [|discriminate].
    injection E as <-. split; [econstructor; eassumption|auto].
  - destruct (State 0 0 i) as [[p i']|] eqn:E1; [|discriminate]. injection E as <-. split; [econstructor; eassumption|set_solver].
Qed.

Lemma sys_run_steps l y y' : sys_run l y = Some y' -> rtc sys_step y y' /\ (forall p, p ∈ sys_reads y -> rtc (step_keeping p) y y').
Proof.
  revert y. induction l as [|a l IH]; intros y; cbn [sys_run]; [intros [= <-]; split; [|intros]; constructor|].
  destruct (sys_do a y) as [z|] eqn:E; [|discriminate]. intros Hl. destruct (sys_do_step a y z E) as [Hst Hp]. destruct (IH z Hl) as [H1 H2].
  split; [eapply rtc_l; eassumption|]. intros p Hin. eapply rtc_l; [split; [exact Hst|exact (Hp p Hin)]|exact (H2 p (Hp p Hin))].
Qed.

(** The first append ends before the read, the second after it; the third
    cleans up the ring. *)
Definition demo_before : list act := [ABegin; AAppend 1; AEnd 1; ABegin; AAppend 2].
Definition demo_after : list act := [AAppend 2; AEnd 2; ABegin; AAppend 3; ACleanup 3; AEnd 3].
Definition demo_y0 : system := match sys_run demo_before sys_init with Some y => y | None => sys_init end.
Definition demo_y1 : system := match sys_do ARead demo_y0 with Some y => y | None => sys_init end.
Definition demo_y : system := match sys_run demo_after demo_y1 with Some y => y | None => sys_init end.

(** Of the four samples, in a memory-mapped chunk and the head chunk, the read
    returns the first. *)
Lemma read_sees_ended_appends_witness : exists stops, concat (zip_with chunk_samples ([[10; 20]] ++ rev [[30; 40]]) stops) = [10]
  /\ length (sys_ids demo_y) = 4%nat.
Proof.
  destruct (sys_run_steps demo_before sys_init demo_y0) as [H0 _]; [vm_compute; reflexivity|].
  destruct (sys_run_steps demo_after demo_y1 demo_y) as [_ H1]; [vm_compute; reflexivity|].
  destruct (State 0 0 (sys_iso demo_y0)) as [[p i1]|] eqn:E; [|vm_compute in E; discriminate].
  assert (Hy1 : demo_y1 = mkSys i1 (sys_apps demo_y0) (sys_ring demo_y0) (sys_ids demo_y0) ({[p]} ∪ sys_reads demo_y0)).
  { unfold demo_y1. destruct demo_y0. cbn [sys_do sys_iso sys_apps sys_ring sys_ids sys_reads] in *. rewrite E. reflexivity. }
  specialize (H1 p). rewrite Hy1 in H1. specialize (H1 ltac:(cbn; set_solver)).
  destruct (load (i_states (sys_iso demo_y)) p) as [st|] eqn:Est.
  2: { assert (Hp : p = 1) by (vm_compute in E; congruence). subst p. vm_compute in Est. discriminate. }
  destruct (@read_sees_ended_appends Z demo_y0 2 0 0 p i1 demo_y st [[10; 20]] [[30; 40]] 0 H0) as (stops & _ & Hc).
  - vm_compute. reflexivity.
  - exact E.
  - exact H1.
  - exact Est.
  - vm_compute. reflexivity.
  - exists stops. split; [|vm_compute; reflexivity]. rewrite Hc. vm_compute. reflexivity.
Defined.

(** [Seek] does not stop: the same chunk, of whose samples the read is to see only the
    first, gives the sample of the open append to a reader that seeks. *)
Lemma seek_passes_stop : chunk_samples [10; 20] 1 = [10]
  /\ option_map fst (stop_Seek (fun x => x) 20 (mkStop (ci_new [10; 20]) (-1) 1)) = Some 20.
Proof. split; reflexivity. Qed.
