(* ===== verification/Compact.v ===== *)
(** * Compaction of blocks: [tsdb/compact.go], block retention of [tsdb/db.go]

    The storage is a set of blocks, each with the meta data that its [meta.json]
    holds.  The compactor plans which blocks to merge, [db.go] merges them, drops
    the blocks that have been replaced or are beyond retention, and repeats.  The
    contents of blocks, their statistics after a merge and the names of their
    directories are parameters. *)

From stdpp Require Import base list numbers gmap sorting.
From Stdlib Require Import ZArith Lia Sorting.Sorted.
From Stdlib Require Import SpecFloat.
From S2P Require Import Prelude Encoding.

#[local] Notation "x <~ m ;; k" := (outcome_bind m (fun x => k))
  (at level 100, m at next level, k at level 200, right associativity).

(** [slices.SortFunc] by an integer key, in either direction: a permutation of
    its input, in the order of the keys; it need not be stable. *)
Class GoSort := { sort_by : forall {A : Type}, (A -> Z) -> list A -> list A }.
Class GoSortOK (S : GoSort) : Prop := {
  sort_perm : forall {A : Type} (key : A -> Z) l, sort_by key l ≡ₚ l;
  sort_sorted : forall {A : Type} (key : A -> Z) l, StronglySorted (fun a b => key a <= key b) (sort_by key l) }.

(** Integer division. *)
Definition go_quot (a b : Z) : outcome Z := if b =? 0 then Panic else Ret (i64 (Z.quot a b)).

(** ** Blocks *)
Record BlockStats := mkStats { NumSamples : Z; NumSeries : Z; NumChunks : Z; NumTombstones : Z }.
Record BlockDesc := mkDesc { d_ULID : Z; d_MinTime : Z; d_MaxTime : Z }.
Record BlockMetaCompaction := mkCompaction { Level : Z; Sources : list Z; Deletable : bool; Parents : list BlockDesc; Failed : bool }.
Record BlockMeta := mkMeta { ULID : Z; MinTime : Z; MaxTime : Z; Stats : BlockStats; Compaction : BlockMetaCompaction }.

Record dirMeta := mkDir { dir : bytes; meta : BlockMeta }.

Record LeveledCompactor := mkCompactor { ranges : list Z; enableOverlappingCompaction : bool }.

(** [None] is the error for no ranges. *)
Definition NewLeveledCompactorWithOptions (rs : list Z) (overlapping : bool) : option LeveledCompactor :=
  match rs with [] => None | _ => Some (mkCompactor rs overlapping) end.

Fixpoint block_ranges (curRange stepSize : Z) (steps : nat) : list Z :=
  match steps with
  | O => []
  | S n => curRange :: block_ranges (i64 (curRange * stepSize)) stepSize n
  end.
Definition ExponentialBlockRanges (minSize : Z) (steps stepSize : Z) : list Z := block_ranges minSize stepSize (Z.to_nat steps).

(** ** Planning *)

(** The start of the aligned range that a block begins in. *)
Definition range_start (tr : Z) (m : BlockMeta) : outcome Z :=
  if 0 <=? MinTime m then q <~ go_quot (MinTime m) tr ;; Ret (i64 (tr * q))
  else q <~ go_quot (i64 (i64 (MinTime m - tr) + 1)) tr ;; Ret (i64 (tr * q)).

(** The blocks from the front that end by [hi]. *)
Fixpoint fitting (hi : Z) (ds : list dirMeta) : list dirMeta :=
  match ds with
  | d :: ds' => if hi <? MaxTime (meta d) then [] else d :: fitting hi ds'
  | [] => []
  end.

(** [splitByRange]; [skip] is the number of blocks that are already in the last
    group, which the inner loop has passed over. *)
Fixpoint split_loop (tr : Z) (skip : nat) (ds : list dirMeta) : outcome (list (list dirMeta)) :=
  match ds, skip with
  | [], _ => Ret []
  | _ :: ds', S skip' => split_loop tr skip' ds'
  | d :: ds', O =>
      t0 <~ range_start tr (meta d) ;;
      let hi := i64 (t0 + tr) in
      if hi <? MaxTime (meta d) then split_loop tr 0 ds'
      else
        let group := fitting hi ds in
        rest <~ split_loop tr (length group - 1) ds' ;;
        Ret (group :: rest)
  end.
Definition splitByRange (ds : list dirMeta) (tr : Z) : outcome (list (list dirMeta)) := split_loop tr 0 ds.

(** The first part that is to be compacted. *)
Fixpoint select_part (iv highTime : Z) (parts : list (list dirMeta)) : list dirMeta :=
  match parts with
  | [] => []
  | p :: parts' =>
      if existsb (fun dm => Failed (Compaction (meta dm))) p then select_part iv highTime parts'
      else match p, last p with
           | d0 :: _, Some dl =>
               let mint := MinTime (meta d0) in
               let maxt := MaxTime (meta dl) in
               if ((i64 (maxt - mint) =? iv) || (maxt <=? highTime)) && (1 <? length p)%nat then p
               else select_part iv highTime parts'
           | _, _ => select_part iv highTime parts'
           end
  end.

Fixpoint select_ranges (ivs : list Z) (highTime : Z) (ds : list dirMeta) : outcome (list dirMeta) :=
  match ivs with
  | [] => Ret []
  | iv :: ivs' =>
      parts <~ splitByRange ds iv ;;
      match select_part iv highTime parts with
      | [] => select_ranges ivs' highTime ds
      | p => Ret p
      end
  end.

Definition selectDirs (c : LeveledCompactor) (ds : list dirMeta) : outcome (list dirMeta) :=
  if (length (ranges c) <? 2)%nat then Ret []
  else match last ds with
       | None => Ret []
       | Some dl => select_ranges (tail (ranges c)) (MinTime (meta dl)) ds
       end.

(** The loop of [selectOverlappingDirs]: [prev] is the block before [ds]. *)
Fixpoint overlap_loop (prev : dirMeta) (ds : list dirMeta) (globalMaxt : Z) (overlapping : list bytes) : list bytes :=
  match ds with
  | [] => overlapping
  | d :: ds' =>
      let next overlapping := overlap_loop d ds' (if globalMaxt <? MaxTime (meta d) then MaxTime (meta d) else globalMaxt) overlapping in
      if MinTime (meta d) <? globalMaxt then
        next ((match overlapping with [] => [dir prev] | _ => overlapping end) ++ [dir d])
      else match overlapping with [] => next [] | _ => overlapping end
  end.
Definition selectOverlappingDirs (c : LeveledCompactor) (ds : list dirMeta) : list bytes :=
  if negb (enableOverlappingCompaction c) then []
  else match ds with
       | d :: (_ :: _) => overlap_loop d (tail ds) (MaxTime (meta d)) []
       | _ => []
       end.

(** [0.05] as a float64. *)
Definition five_percent : float64 := S754_finite false 3602879701896397 (-56).
Definition many_tombstones (s : BlockStats) : bool :=
  SFltb five_percent (SFdiv 53 1024 (f64_of_int (NumTombstones s)) (f64_of_int (u64 (NumSeries s + 1)))).

(** The loop over the blocks from the newest, [ds] being in that order. *)
Fixpoint tombstone_loop (minRange : Z) (ds : list dirMeta) : list bytes :=
  match ds with
  | [] => []
  | d :: ds' =>
      let m := meta d in
      if i64 (MaxTime m - MinTime m) <? minRange then
        if (0 <? NumTombstones (Stats m)) && (NumSeries (Stats m) <=? NumTombstones (Stats m)) then [dir d] else []
      else if many_tombstones (Stats m) then [dir d]
      else tombstone_loop minRange ds'
  end.

Definition plan `{GoSort} (c : LeveledCompactor) (dms : list dirMeta) : outcome (list bytes) :=
  let dms := sort_by (fun d => MinTime (meta d)) dms in
  match selectOverlappingDirs c dms with
  | (_ :: _) as res => Ret res
  | [] =>
      if (length dms =? 0)%nat then Panic
      else
        let dms := take (length dms - 1) dms in
        sel <~ selectDirs c dms ;;
        match sel with
        | _ :: _ => Ret (map dir sel)
        | [] =>
            match dms with
            | [] => Ret []
            | _ =>
                match ranges c !! (length (ranges c) / 2)%nat with
                | None => Panic
                | Some minRange => Ret (tombstone_loop minRange (rev dms))
                end
            end
        end
  end.

(** [Plan], from the directories and their meta data. *)
Definition Plan `{GoSort} (c : LeveledCompactor) (dirs : list dirMeta) : outcome (list bytes) :=
  match dirs with [] => Ret [] | _ => plan c dirs end.

(** ** Merging *)
Definition desc_of (b : BlockMeta) : BlockDesc := mkDesc (ULID b) (MinTime b) (MaxTime b).

(** The keys of a Go map that is used as a set, once each. *)
Definition CompactBlockMetas `{GoSort} (uid : Z) (blocks : list BlockMeta) : outcome BlockMeta :=
  match blocks with
  | [] => Panic
  | b0 :: _ =>
      let mint := fold_left (fun m b => if MinTime b <? m then MinTime b else m) blocks (MinTime b0) in
      let maxt := fold_left (fun m b => if m <? MaxTime b then MaxTime b else m) blocks (MaxTime b0) in
      let level := fold_left (fun l b => if l <? Level (Compaction b) then Level (Compaction b) else l) blocks 0 in
      let sources := sort_by (fun s => s) (elements (list_to_set (concat (map (fun b => Sources (Compaction b)) blocks)) : gset Z)) in
      Ret (mkMeta uid mint maxt (mkStats 0 0 0 0) (mkCompaction (i64 (level + 1)) sources false (map desc_of blocks) false))
  end.

(** ** Retention, and the blocks of a database *)
Record Options := mkOptions { RetentionDuration : Z; MaxBytes : Z }.

(** A loaded block: its meta data and its size in bytes. *)
Record Block := mkBlock { b_meta : BlockMeta; b_size : Z }.

(** The loop of [BeyondTimeRetention] after the first block, whose maximal time is [newest]. *)
Fixpoint time_loop (retention newest : Z) (blocks : list Block) : list Z :=
  match blocks with
  | [] => []
  | b :: blocks' =>
      if retention <=? i64 (newest - MaxTime (b_meta b)) then map (fun b => ULID (b_meta b)) blocks
      else time_loop retention newest blocks'
  end.
Definition BeyondTimeRetention (o : Options) (blocks : list Block) : list Z :=
  match blocks with
  | [] => []
  | b0 :: rest => if RetentionDuration o =? 0 then [] else time_loop (RetentionDuration o) (MaxTime (b_meta b0)) rest
  end.

Fixpoint size_loop (maxBytes blocksSize : Z) (blocks : list Block) : list Z :=
  match blocks with
  | [] => []
  | b :: blocks' =>
      let blocksSize := i64 (blocksSize + b_size b) in
      if maxBytes <? blocksSize then map (fun b => ULID (b_meta b)) blocks
      else size_loop maxBytes blocksSize blocks'
  end.
(** [headSize] is [db.Head().Size()]. *)
Definition BeyondSizeRetention (o : Options) (headSize : Z) (blocks : list Block) : list Z :=
  if MaxBytes o <=? 0 then [] else size_loop (MaxBytes o) headSize blocks.

Definition deletableBlocks `{GoSort} (o : Options) (headSize : Z) (blocks : list Block) : gset Z :=
  let blocks := sort_by (fun b => - MaxTime (b_meta b)) blocks in
  list_to_set (map (fun b => ULID (b_meta b)) (List.filter (fun b => Deletable (Compaction (b_meta b))) blocks))
  ∪ list_to_set (BeyondTimeRetention o blocks) ∪ list_to_set (BeyondSizeRetention o headSize blocks).

(** [reloadBlocks]: [loadable] are the blocks that could be opened, [corrupted]
    the ids of those that could not.  [None] is the error that corrupted blocks
    are left; otherwise the new list of blocks, and the ids to delete from disk. *)
Definition reloadBlocks `{GoSort} (o : Options) (headSize : Z) (loadable : list Block) (corrupted : gset Z)
    : option (list Block * gset Z) :=
  let deletableULIDs := deletableBlocks o headSize loadable in
  let parents := list_to_set (concat (map (fun b => map d_ULID (Parents (Compaction (b_meta b)))) loadable)) in
  if bool_decide (corrupted ∖ parents = ∅) then
    let loaded := list_to_set (map (fun b => ULID (b_meta b)) loadable) in
    let deletable := (deletableULIDs ∩ loaded) ∪ parents in
    let toLoad := List.filter (fun b => negb (bool_decide (ULID (b_meta b) ∈ deletable))) loadable in
    Some (sort_by (fun b => MinTime (b_meta b)) toLoad, deletable)
  else None.

(** The outcome of writing a merged block: its statistics and its size, or an
    error, which may be that the compactor has been cancelled. *)
Inductive written := Written (stats : BlockStats) (size : Z) | WriteFailed (canceled : bool).
Class BlockWriter := { write : BlockMeta -> list Block -> written; dir_of : Z -> bytes }.

(** Directories are named by ids; a write counts no tombstones, which it has
    applied. *)
Class BlockWriterOK (BW : BlockWriter) : Prop := {
  dir_of_inj : forall a b, dir_of a = dir_of b -> a = b;
  write_no_tombstones : forall m bs stats size, write m bs = Written stats size -> NumTombstones stats = 0 }.

Definition set_stats (s : BlockStats) (m : BlockMeta) : BlockMeta := mkMeta (ULID m) (MinTime m) (MaxTime m) s (Compaction m).
Definition set_compaction (c : BlockMetaCompaction) (b : Block) : Block :=
  let m := b_meta b in mkBlock (mkMeta (ULID m) (MinTime m) (MaxTime m) (Stats m) c) (b_size b).
Definition set_deletable (b : Block) : Block :=
  let c := Compaction (b_meta b) in set_compaction (mkCompaction (Level c) (Sources c) true (Parents c) (Failed c)) b.
(** [setCompactionFailed], whose write to disk succeeds. *)
Definition setCompactionFailed (b : Block) : Block :=
  let c := Compaction (b_meta b) in set_compaction (mkCompaction (Level c) (Sources c) (Deletable c) (Parents c) true) b.

(** How [compactBlocks] ends: with an error, or with nothing left to plan. *)
Inductive ended := OutOfFuel | Stopped (blocks : list Block) | Settled (blocks : list Block).

Section db.
Context {GS : GoSort} {BW : BlockWriter}.

Definition dir_meta (b : Block) : dirMeta := mkDir (dir_of (ULID (b_meta b))) (b_meta b).

(** The blocks of the planned directories, changed by [f]. *)
Definition mark (f : Block -> Block) (plan : list bytes) (b : Block) : Block :=
  if bool_decide (dir_of (ULID (b_meta b)) ∈ plan) then f b else b.

(** [Compact] of the planned directories; [blocks] are all blocks on disk, and
    the result the blocks on disk afterwards, with [false] for an error. *)
Definition Compact (uid : Z) (plan : list bytes) (blocks : list Block) : outcome (bool * list Block) :=
  let find d := List.find (fun b => bool_decide (dir_of (ULID (b_meta b)) = d)) blocks in
  let bs := omap find plan in
  m <~ CompactBlockMetas uid (map b_meta bs) ;;
  match write m bs with
  | Written stats size =>
      if NumSamples stats =? 0 then Ret (true, map (mark set_deletable plan) blocks)
      else Ret (true, mkBlock (set_stats stats m) size :: blocks)
  | WriteFailed canceled => Ret (false, if canceled then blocks else map (mark setCompactionFailed plan) blocks)
  end.

(** The loop of [compactBlocks], the head not being compactable and the database
    not being closed; [uid] is the id of the next block. *)
Fixpoint compactBlocks (fuel : nat) (c : LeveledCompactor) (o : Options) (headSize : Z) (uid : Z) (blocks : list Block)
    : outcome ended :=
  match fuel with
  | O => Ret OutOfFuel
  | S fuel' =>
      p <~ Plan c (map dir_meta blocks) ;;
      match p with
      | [] => Ret (Settled blocks)
      | _ =>
          r <~ Compact uid p blocks ;;
          let '(ok, blocks) := r in
          if ok : bool then
            match reloadBlocks o headSize blocks ∅ with
            | None => Ret (Stopped blocks)
            | Some (blocks, _) => compactBlocks fuel' c o headSize (uid + 1) blocks
            end
          else Ret (Stopped blocks)
      end
  end.
End db.

(** ** What is planned *)
Section planning.
Context {GS : GoSort} {GSOK : GoSortOK GS}.

(** [g] is a contiguous part of [l]. *)
Definition part_of {A} (g l : list A) : Prop := exists pre post, l = pre ++ g ++ post.

Lemma part_of_cons {A} (x : A) g l : part_of g l -> part_of g (x :: l).
Proof. intros (pre & post & ->). exists (x :: pre), post. reflexivity. Qed.

Lemma fitting_prefix hi ds : exists post, ds = fitting hi ds ++ post.
Proof.
  induction ds as [|d ds [post IH]]; [exists []; reflexivity|]. cbn. destruct (_ <? _); [exists (d :: ds); reflexivity|].
  exists post. cbn. f_equal. exact IH.
Qed.

Lemma range_start_total tr m : tr <> 0 -> exists t0, range_start tr m = Ret t0.
Proof.
  intros Htr. unfold range_start, go_quot. rewrite (proj2 (Z.eqb_neq tr 0) Htr). destruct (_ <=? _); eexists; reflexivity.
Qed.

Lemma split_loop_parts tr skip ds : tr <> 0 ->
  exists parts, split_loop tr skip ds = Ret parts /\ List.Forall (fun g => part_of g ds /\ g <> []) parts.
Proof.
  intros Htr. revert skip. induction ds as [|d ds IH]; intros skip; [exists []; split; [destruct skip; reflexivity|constructor]|].
  assert (Hlift : forall parts, List.Forall (fun g => part_of g ds /\ g <> []) parts -> List.Forall (fun g => part_of g (d :: ds) /\ g <> []) parts).
  { intros parts H. eapply List.Forall_impl; [|exact H]. intros g [Hg Hn]. split; [apply part_of_cons|]; assumption. }
  destruct skip as [|skip]; cbn [split_loop].
  - destruct (range_start_total tr (meta d) Htr) as [t0 ->]. cbn [outcome_bind]. destruct (_ <? _) eqn:E.
    + destruct (IH 0%nat) as (parts & -> & H). exists parts. split; [reflexivity|apply Hlift; exact H].
    + destruct (IH (length (fitting (i64 (t0 + tr)) (d :: ds)) - 1)%nat) as (parts & -> & H). cbn [outcome_bind].
      eexists. split; [reflexivity|]. constructor; [|apply Hlift; exact H]. split.
      * destruct (fitting_prefix (i64 (t0 + tr)) (d :: ds)) as [post Hp]. exists [], post. exact Hp.
      * cbn. rewrite E. discriminate.
  - destruct (IH skip) as (parts & -> & H). exists parts. split; [reflexivity|apply Hlift; exact H].
Qed.

Lemma select_part_spec iv high parts : select_part iv high parts = [] \/
  (In (select_part iv high parts) parts /\ (2 <= length (select_part iv high parts))%nat).
Proof.
  induction parts as [|p parts IH]; [left; reflexivity|]. cbn [select_part].
  assert (Hrest : select_part iv high parts = [] \/ In (select_part iv high parts) (p :: parts) /\ (2 <= length (select_part iv high parts))%nat)
    by (destruct IH as [IH|[H1 H2]]; [left|right; split; [right|]]; assumption).
  destruct (existsb _ p); [exact Hrest|]. destruct p as [|d0 p]; [exact Hrest|]. destruct (last (d0 :: p)); [|exact Hrest].
  destruct (_ && _) eqn:E; [|exact Hrest]. apply andb_true_iff in E as [_ E]. apply Nat.ltb_lt in E. right. split; [left; reflexivity|exact E].
Qed.

Lemma selectDirs_spec c ds : List.Forall (fun r => r <> 0) (ranges c) ->
  exists sel, selectDirs c ds = Ret sel /\ (sel = [] \/ part_of sel ds /\ (2 <= length sel)%nat).
Proof.
  intros Hr. unfold selectDirs. destruct (_ <? _)%nat; [exists []; auto|]. destruct (last ds) as [dl|]; [|exists []; auto].
  assert (Ht : List.Forall (fun r => r <> 0) (tail (ranges c))) by (destruct Hr; [constructor|assumption]).
  induction Ht as [|iv ivs Hiv _ IH]; cbn [select_ranges]; [exists []; auto|].
  destruct (split_loop_parts iv 0 ds Hiv) as (parts & E & Hparts). unfold splitByRange. rewrite E. cbn [outcome_bind].
  destruct (select_part_spec iv (MinTime (meta dl)) parts) as [->|[Hin Hlen]]; [exact IH|].
  destruct (select_part iv (MinTime (meta dl)) parts) as [|d sel] eqn:Es; [cbn in Hlen; lia|]. exists (d :: sel). split; [reflexivity|]. right.
  split; [|exact Hlen]. apply (proj1 (List.Forall_forall _ _) Hparts _ Hin).
Qed.

(** The first cluster of overlapping blocks is a contiguous part of the list. *)

Lemma overlap_loop_nonempty ds : forall prev globalMaxt acc, acc <> [] ->
  exists g post, ds = g ++ post /\ overlap_loop prev ds globalMaxt acc = acc ++ map dir g.
Proof.
  induction ds as [|d ds IH]; intros prev g acc Hacc; cbn [overlap_loop]; [exists [], []; cbn; rewrite app_nil_r; auto|].
  destruct acc as [|a acc]; [contradiction|]. destruct (_ <? g).
  - destruct (IH d (if g <? MaxTime (meta d) then MaxTime (meta d) else g) ((a :: acc) ++ [dir d])) as (grp & post & -> & ->); [discriminate|].
    exists (d :: grp), post. split; [reflexivity|]. rewrite <- app_assoc. reflexivity.
  - exists [], (d :: ds). rewrite app_nil_r. auto.
Qed.

Lemma overlap_loop_part ds : forall prev globalMaxt,
  overlap_loop prev ds globalMaxt [] = [] \/
  exists g, part_of g (prev :: ds) /\ (2 <= length g)%nat /\ overlap_loop prev ds globalMaxt [] = map dir g.
Proof.
  induction ds as [|d ds IH]; intros prev g; cbn [overlap_loop]; [left; reflexivity|]. destruct (_ <? g).
  - right. destruct (overlap_loop_nonempty ds d (if g <? MaxTime (meta d) then MaxTime (meta d) else g) ([dir prev] ++ [dir d])) as (grp & post & -> & ->); [discriminate|].
    exists (prev :: d :: grp). split; [exists [], post; reflexivity|]. split; [cbn; lia|reflexivity].
  - destruct (IH d (if g <? MaxTime (meta d) then MaxTime (meta d) else g)) as [E|(grp & Hg & Hl & E)]; [left; exact E|].
    right. exists grp. split; [apply part_of_cons; exact Hg|]. split; [exact Hl|exact E].
Qed.

(** Without a cluster, every block begins at or after the end of those before it. *)
Lemma overlap_loop_none ds : forall prev globalMaxt, overlap_loop prev ds globalMaxt [] = [] ->
  List.Forall (fun d => globalMaxt <= MinTime (meta d)) ds /\ StronglySorted (fun a b => MaxTime (meta a) <= MinTime (meta b)) ds.
Proof.
  induction ds as [|d ds IH]; intros prev g; cbn [overlap_loop]; [split; constructor|]. destruct (Z.ltb_spec (MinTime (meta d)) g) as [Hlt|Hge].
  - intros E. destruct (overlap_loop_nonempty ds d (if g <? MaxTime (meta d) then MaxTime (meta d) else g) ([dir prev] ++ [dir d])) as (grp & post & _ & E'); [discriminate|].
    rewrite E' in E. discriminate.
  - intros E. destruct (IH _ _ E) as [Hall Hs]. split; constructor; try assumption.
    + eapply List.Forall_impl; [|exact Hall]. cbn. intros a. destruct (Z.ltb_spec g (MaxTime (meta d))); lia.
    + eapply List.Forall_impl; [|exact Hall]. cbn. intros a. destruct (Z.ltb_spec g (MaxTime (meta d))); lia.
Qed.

Lemma many_tombstones_some s : many_tombstones s = true -> NumTombstones s <> 0.
Proof.
  unfold many_tombstones. intros H E. rewrite E in H. change (f64_of_int 0) with (S754_zero false) in H.
  destruct (f64_of_int _) as [[]|[]| |[] ? ?]; vm_compute in H; discriminate.
Qed.

Lemma tombstone_loop_spec minRange ds : tombstone_loop minRange ds = [] \/
  exists d, In d ds /\ tombstone_loop minRange ds = [dir d] /\ NumTombstones (Stats (meta d)) <> 0.
Proof.
  induction ds as [|d ds IH]; [left; reflexivity|]. cbn [tombstone_loop]. destruct (_ <? minRange).
  - destruct (_ && _) eqn:E; [|left; reflexivity]. right. exists d. apply andb_true_iff in E as [E _]. apply Z.ltb_lt in E.
    split; [left; reflexivity|]. split; [reflexivity|lia].
  - destruct (many_tombstones _) eqn:E.
    + right. exists d. split; [left; reflexivity|]. split; [reflexivity|apply many_tombstones_some; exact E].
    + destruct IH as [IH|(d' & Hin & IH)]; [left; exact IH|right; exists d'; split; [right; exact Hin|exact IH]].
Qed.

Lemma part_of_in {A} (x : A) l : In x l -> part_of [x] l.
Proof. intros H. apply in_split in H as (pre & post & ->). exists pre, post. reflexivity. Qed.

Lemma part_of_take {A} n (g l : list A) : part_of g (take n l) -> part_of g l.
Proof. intros (pre & post & E). exists pre, (post ++ drop n l). rewrite <- (take_drop n l) at 1. rewrite E, <- !app_assoc. reflexivity. Qed.

(** A plan is a contiguous part of the blocks in the order of their minimal
    times: at least two of them, or one that has tombstones. *)
Definition planned (g l : list dirMeta) : Prop :=
  part_of g l /\ ((2 <= length g)%nat \/ exists d, g = [d] /\ NumTombstones (Stats (meta d)) <> 0).

Definition in_order (l : list dirMeta) : Prop := StronglySorted (fun a b => MaxTime (meta a) <= MinTime (meta b)) l.

Lemma selectOverlappingDirs_spec c l :
  (selectOverlappingDirs c l = [] /\ (enableOverlappingCompaction c = true -> in_order l)) \/
  exists g, planned g l /\ selectOverlappingDirs c l = map dir g.
Proof.
  unfold selectOverlappingDirs. destruct (enableOverlappingCompaction c); cbn [negb]; [|left; split; [reflexivity|discriminate]].
  destruct l as [|d [|d2 l]]; [left; split; [reflexivity|constructor]|left; split; [reflexivity|repeat constructor]|]. cbn [tail].
  destruct (overlap_loop_part (d2 :: l) d (MaxTime (meta d))) as [E|(g & Hg & Hl & E)].
  - left. split; [exact E|]. intros _. destruct (overlap_loop_none _ _ _ E) as [H1 H2]. constructor; assumption.
  - right. exists g. split; [split; [exact Hg|left; exact Hl]|exact E].
Qed.

Lemma plan_spec c dms : dms <> [] -> ranges c <> [] -> List.Forall (fun r => r <> 0) (ranges c) ->
  exists res, plan c dms = Ret res /\
    ((res = [] /\ (enableOverlappingCompaction c = true -> in_order (sort_by (fun d => MinTime (meta d)) dms))) \/
     exists g, planned g (sort_by (fun d => MinTime (meta d)) dms) /\ res = map dir g).
Proof.
  intros Hne Hr0 Hr. unfold plan. set (l := sort_by _ dms).
  assert (Hl : l <> []) by (intros E; apply Hne; apply Permutation_nil; rewrite <- E; unfold l; apply sort_perm).
  destruct (selectOverlappingDirs_spec c l) as [[-> Hord]|(g & Hg & E)].
  - rewrite (proj2 (Nat.eqb_neq _ _)) by (destruct l; [congruence|cbn; lia]).
    destruct (selectDirs_spec c (take (length l - 1) l) Hr) as (sel & -> & Hsel). cbn [outcome_bind].
    destruct sel as [|d sel].
    + destruct (take (length l - 1) l) as [|d ds] eqn:Et; [exists []; auto|].
      destruct (lookup_lt_is_Some_2 (ranges c) (length (ranges c) / 2)) as [minRange Hm].
      { destruct (ranges c); [congruence|]. apply Nat.div_lt; cbn; lia. }
      rewrite Hm. exists (tombstone_loop minRange (rev (d :: ds))). split; [reflexivity|].
      destruct (tombstone_loop_spec minRange (rev (d :: ds))) as [->|(x & Hin & E & Ht)]; [auto|]. right. exists [x].
      rewrite E. split; [|reflexivity]. split; [|right; exists x; auto]. apply in_rev in Hin. rewrite <- Et in Hin.
      apply (part_of_take (length l - 1)), part_of_in. exact Hin.
    + eexists. split; [reflexivity|]. right. exists (d :: sel). split; [|reflexivity].
      destruct Hsel as [Hsel|[Hp Hlen]]; [discriminate|]. split; [exact (part_of_take _ _ _ Hp)|left; exact Hlen].
  - rewrite E. exists (map dir g). destruct g as [|d g]; [destruct Hg as [_ [Hg|(d & [=] & _)]]; cbn in Hg; lia|].
    split; [reflexivity|]. right. exists (d :: g). auto.
Qed.
End planning.

(** ** One round of planning, merging and reloading *)
Definition b_ids (bs : list Block) : list Z := map (fun b => ULID (b_meta b)) bs.
Definition not_in (D : gset Z) (b : Block) : bool := negb (bool_decide (ULID (b_meta b) ∈ D)).

(** Blocks have distinct ids, all given out before [uid]. *)
Definition ids_ok (uid : Z) (bs : list Block) : Prop := NoDup (b_ids bs) /\ List.Forall (fun id => id < uid) (b_ids bs).

(** [m] is the merge of the blocks [g]: it covers exactly their time range and
    has their sources. *)
Definition merges (m : BlockMeta) (g : list Block) : Prop :=
  (exists b, In b g /\ MinTime m = MinTime (b_meta b)) /\ (exists b, In b g /\ MaxTime m = MaxTime (b_meta b)) /\
  (forall b, In b g -> MinTime m <= MinTime (b_meta b) /\ MaxTime (b_meta b) <= MaxTime m) /\
  (forall s, In s (Sources (Compaction m)) <-> exists b, In b g /\ In s (Sources (Compaction (b_meta b)))) /\
  map d_ULID (Parents (Compaction m)) = b_ids g /\ Deletable (Compaction m) = false.

Section cycle.
Context {GS : GoSort} {GSOK : GoSortOK GS} {BW : BlockWriter}.

Lemma fold_min {A} (f : A -> Z) (l : list A) z :
  let r := fold_left (fun m b => if f b <? m then f b else m) l z in
  (r = z \/ exists b, In b l /\ r = f b) /\ r <= z /\ forall b, In b l -> r <= f b.
Proof.
  revert z. induction l as [|x l IH]; intros z; cbn; [repeat split; [auto|lia|intros b []]|].
  destruct (IH (if f x <? z then f x else z)) as (H1 & H2 & H3). destruct (Z.ltb_spec (f x) z); repeat split.
  - destruct H1 as [->|(b & Hb & ->)]; [right; exists x; auto|right; exists b; auto].
  - lia.
  - intros b [<-|Hb]; [exact H2|exact (H3 b Hb)].
  - destruct H1 as [->|(b & Hb & ->)]; [left; reflexivity|right; exists b; auto].
  - lia.
  - intros b [<-|Hb]; [lia|exact (H3 b Hb)].
Qed.

Lemma fold_max {A} (f : A -> Z) (l : list A) z :
  let r := fold_left (fun m b => if m <? f b then f b else m) l z in
  (r = z \/ exists b, In b l /\ r = f b) /\ z <= r /\ forall b, In b l -> f b <= r.
Proof.
  revert z. induction l as [|x l IH]; intros z; cbn; [repeat split; [auto|lia|intros b []]|].
  destruct (IH (if z <? f x then f x else z)) as (H1 & H2 & H3). destruct (Z.ltb_spec z (f x)); repeat split.
  - destruct H1 as [->|(b & Hb & ->)]; [right; exists x; auto|right; exists b; auto].
  - lia.
  - intros b [<-|Hb]; [exact H2|exact (H3 b Hb)].
  - destruct H1 as [->|(b & Hb & ->)]; [left; reflexivity|right; exists b; auto].
  - lia.
  - intros b [<-|Hb]; [lia|exact (H3 b Hb)].
Qed.

Lemma CompactBlockMetas_merges uid g : g <> [] ->
  exists m, CompactBlockMetas uid (map b_meta g) = Ret m /\ ULID m = uid /\ merges m g.
Proof.
  intros Hne. destruct g as [|b0 g]; [congruence|]. cbn [map CompactBlockMetas]. eexists. split; [reflexivity|]. split; [reflexivity|].
  set (bs := b_meta b0 :: map b_meta g). assert (Hin : forall m, In m bs <-> exists b, In b (b0 :: g) /\ m = b_meta b).
  { intros m. change bs with (map b_meta (b0 :: g)). rewrite in_map_iff. split; intros (b & H1 & H2); exists b; auto. }
  destruct (fold_min MinTime bs (MinTime (b_meta b0))) as (Hmin1 & Hmin2 & Hmin3).
  destruct (fold_max MaxTime bs (MaxTime (b_meta b0))) as (Hmax1 & Hmax2 & Hmax3).
  unfold merges. cbn [MinTime MaxTime Compaction Sources Parents Deletable]. repeat split.
  - destruct Hmin1 as [->|(m & Hm & ->)]; [exists b0; split; [left|]; reflexivity|]. apply Hin in Hm as (b & Hb & ->). eauto.
  - destruct Hmax1 as [->|(m & Hm & ->)]; [exists b0; split; [left|]; reflexivity|]. apply Hin in Hm as (b & Hb & ->). eauto.
  - apply Hmin3, Hin. eauto.
  - apply Hmax3, Hin. eauto.
  - intros Hs. apply list_elem_of_In in Hs. rewrite (sort_perm (fun s => s)) in Hs.
    apply elem_of_elements, elem_of_list_to_set, list_elem_of_In, in_concat in Hs as (l & Hl & Hs).
    change (In l (map (fun b => Sources (Compaction b)) bs)) in Hl.
    apply in_map_iff in Hl as (m & <- & Hm). apply Hin in Hm as (b & Hb & ->). eauto.
  - intros (b & Hb & Hs). apply list_elem_of_In. rewrite (sort_perm (fun s => s)).
    apply elem_of_elements, elem_of_list_to_set, list_elem_of_In, in_concat. exists (Sources (Compaction (b_meta b))). split; [|exact Hs].
    change (In (Sources (Compaction (b_meta b))) (map (fun b => Sources (Compaction b)) bs)).
    apply in_map_iff. exists (b_meta b). split; [reflexivity|]. apply Hin. eauto.
  - change (map d_ULID (map desc_of bs) = b_ids (b0 :: g)). unfold bs, b_ids. rewrite <- map_cons, !map_map. reflexivity.
Qed.

(** The blocks in the planner's order, split around those of the plan. *)
Lemma plan_blocks blocks g : planned g (sort_by (fun d => MinTime (meta d)) (map dir_meta blocks)) ->
  exists P G Q, P ++ G ++ Q ≡ₚ blocks /\ g = map dir_meta G /\ G <> [] /\
    StronglySorted (fun a b => MinTime (b_meta a) <= MinTime (b_meta b)) (P ++ G ++ Q) /\
    ((2 <= length G)%nat \/ exists b, G = [b] /\ NumTombstones (Stats (b_meta b)) <> 0).
Proof.
  intros [(pre & post & El) Hg]. destruct (Permutation_map_inv dir_meta blocks (sort_perm (fun d => MinTime (meta d)) _)) as (L & EL & HL).
  rewrite El in EL. symmetry in EL. apply map_eq_app in EL as (P & L2 & -> & <- & EL). apply map_eq_app in EL as (G & Q & -> & <- & <-).
  exists P, G, Q. split; [symmetry; exact HL|]. split; [reflexivity|]. split; [|split].
  - intros ->. destruct Hg as [Hg|(d & [=] & _)]. cbn in Hg. lia.
  - pose proof (sort_sorted (fun d => MinTime (meta d)) (map dir_meta blocks)) as Hs. rewrite El, <- !map_app in Hs.
    clear -Hs. induction (P ++ G ++ Q) as [|b l IH]; [constructor|]. cbn [map] in Hs. apply StronglySorted_inv in Hs as [Hs Hf].
    constructor; [exact (IH Hs)|].
    apply List.Forall_forall. intros x Hx. exact (proj1 (List.Forall_forall _ _) Hf (dir_meta x) (in_map dir_meta l x Hx)).
  - rewrite length_map in Hg. destruct Hg as [Hg|(d & Hd & Ht)]; [left; exact Hg|right].
    destruct G as [|b [|? ?]]; try discriminate. injection Hd as <-. exists b. auto.
Qed.

Context {BWOK : BlockWriterOK BW}.

(** A merge of [G] has no samples. *)
Definition writes_empty (G : list Block) : Prop := exists m stats size, write m G = Written stats size /\ NumSamples stats = 0.
(** A merge of [G] fails. *)
Definition write_fails (G : list Block) : Prop := exists m canceled, write m G = WriteFailed canceled.

Lemma ids_inj bs a b : NoDup (b_ids bs) -> In a bs -> In b bs -> ULID (b_meta a) = ULID (b_meta b) -> a = b.
Proof.
  induction bs as [|x bs IH]; cbn; intros Hd Ha Hb E; [destruct Ha|]. apply NoDup_cons in Hd as [Hx Hd].
  assert (Hno : forall y, In y bs -> ULID (b_meta x) <> ULID (b_meta y)).
  { intros y Hy E'. apply Hx. rewrite E'. apply list_elem_of_In. exact (in_map (fun b => ULID (b_meta b)) _ _ Hy). }
  destruct Ha as [<-|Ha], Hb as [<-|Hb]; [reflexivity|destruct (Hno b Hb E)|destruct (Hno a Ha (eq_sym E))|exact (IH Hd Ha Hb E)].
Qed.

Lemma find_block bs b : NoDup (b_ids bs) -> In b bs ->
  List.find (fun x => bool_decide (dir_of (ULID (b_meta x)) = dir_of (ULID (b_meta b)))) bs = Some b.
Proof.
  intros Hd Hb. destruct (List.find _ bs) as [x|] eqn:E.
  - apply List.find_some in E as [Hx E]. apply bool_decide_eq_true in E. apply dir_of_inj in E. f_equal. exact (ids_inj bs x b Hd Hx Hb E).
  - pose proof (List.find_none _ _ E b Hb) as H. cbn beta in H. rewrite bool_decide_eq_true_2 in H by reflexivity. discriminate.
Qed.

Lemma find_blocks bs G : NoDup (b_ids bs) -> incl G bs ->
  omap (fun d => List.find (fun b => bool_decide (dir_of (ULID (b_meta b)) = d)) bs) (map dir (map dir_meta G)) = G.
Proof.
  intros Hd. induction G as [|b G IH]; intros Hincl; [reflexivity|]. cbn [map]. cbn [omap list_omap].
  change (dir (dir_meta b)) with (dir_of (ULID (b_meta b))). rewrite (find_block bs b Hd) by (apply Hincl; left; reflexivity).
  f_equal. apply IH. intros x Hx. apply Hincl. right. exact Hx.
Qed.

(** Marking the planned blocks changes nothing else. *)
Lemma map_mark f blocks P G Q : NoDup (b_ids blocks) -> P ++ G ++ Q ≡ₚ blocks ->
  map (mark f (map dir (map dir_meta G))) blocks ≡ₚ P ++ map f G ++ Q.
Proof.
  intros Hd Hp. rewrite <- Hp, !map_app. set (mk := mark f _).
  assert (Hdp : NoDup (b_ids (P ++ G ++ Q))) by (unfold b_ids in *; rewrite Hp; exact Hd).
  assert (Hout : forall l, incl l (P ++ G ++ Q) -> (forall b, In b l -> ~ In b G) -> map mk l = l).
  { intros l Hl Hno. rewrite <- (map_id l) at 2. apply map_ext_in. intros b Hb. unfold mk, mark. rewrite bool_decide_eq_false_2; [reflexivity|].
    rewrite list_elem_of_In, map_map, in_map_iff. intros (x & Ex & Hx). apply dir_of_inj in Ex.
    assert (x = b) as -> by (apply (ids_inj _ x b Hdp); [apply in_app_iff; right; apply in_app_iff; left; exact Hx|exact (Hl b Hb)|exact Ex]).
    exact (Hno b Hb Hx). }
  assert (Hnd : NoDup (P ++ G ++ Q)) by (exact (NoDup_fmap_1 (fun b => ULID (b_meta b)) _ Hdp)).
  apply NoDup_app in Hnd as (_ & HPG & Hnd). apply NoDup_app in Hnd as (_ & HGQ & _). rewrite (Hout P), (Hout Q).
  - f_equiv. f_equiv. erewrite (map_ext_in mk f); [reflexivity|]. intros b Hb. unfold mk, mark.
    rewrite bool_decide_eq_true_2; [reflexivity|]. rewrite list_elem_of_In, map_map. exact (in_map (fun x => dir (dir_meta x)) _ _ Hb).
  - intros b Hb. apply in_app_iff. right. apply in_app_iff. right. exact Hb.
  - intros b Hb Hb'. apply list_elem_of_In in Hb, Hb'. exact (HGQ b Hb' Hb).
  - intros b Hb. apply in_app_iff. left. exact Hb.
  - intros b Hb Hb'. apply list_elem_of_In in Hb, Hb'. apply (HPG b Hb). apply elem_of_app. left. exact Hb'.
Qed.

(** Merging the planned blocks [G]: an error leaves the blocks as they were, but
    for a flag on those of the plan. *)
Lemma Compact_spec uid blocks P G Q : NoDup (b_ids blocks) -> P ++ G ++ Q ≡ₚ blocks -> G <> [] ->
  exists ok blocks1, Compact uid (map dir (map dir_meta G)) blocks = Ret (ok, blocks1) /\
    (ok = true /\ (exists new, blocks1 ≡ₚ new :: P ++ G ++ Q /\ ULID (b_meta new) = uid /\ merges (b_meta new) G /\ NumTombstones (Stats (b_meta new)) = 0)
     \/ ok = true /\ blocks1 ≡ₚ P ++ map set_deletable G ++ Q /\ writes_empty G
     \/ ok = false /\ write_fails G /\ (blocks1 = blocks \/ blocks1 ≡ₚ P ++ map setCompactionFailed G ++ Q)).
Proof.
  intros Hd Hp HG. assert (Hincl : incl G blocks).
  { intros b Hb. eapply Permutation_in; [exact Hp|]. apply in_app_iff. right. apply in_app_iff. left. exact Hb. }
  unfold Compact. rewrite (find_blocks blocks G Hd Hincl). destruct (CompactBlockMetas_merges uid G HG) as (m & -> & Hid & Hm). cbn [outcome_bind].
  destruct (write m G) as [stats size|canceled] eqn:E.
  - destruct (Z.eqb_spec (NumSamples stats) 0) as [Hz|Hz]; eexists true, _; (split; [reflexivity|]).
    + right. left. split; [reflexivity|]. split; [exact (map_mark _ _ _ _ _ Hd Hp)|]. exists m, stats, size. auto.
    + left. split; [reflexivity|]. exists (mkBlock (set_stats stats m) size). split; [rewrite Hp; reflexivity|].
      split; [exact Hid|]. split; [exact Hm|exact (write_no_tombstones _ _ _ _ E)].
  - eexists false, _. split; [reflexivity|]. right. right. split; [reflexivity|]. split; [exists m, canceled; exact E|].
    destruct canceled; [left; reflexivity|right; exact (map_mark _ _ _ _ _ Hd Hp)].
Qed.

(** Reloading drops the deletable blocks, the parents of others, and what is
    beyond retention. *)
Lemma reload_spec o headSize bs : exists out D, reloadBlocks o headSize bs ∅ = Some (out, D) /\ out ≡ₚ List.filter (not_in D) bs /\
  (forall b, In b bs -> Deletable (Compaction (b_meta b)) = true -> ULID (b_meta b) ∈ D) /\
  (forall b id, In b bs -> In id (map d_ULID (Parents (Compaction (b_meta b)))) -> id ∈ D) /\
  (RetentionDuration o = 0 -> MaxBytes o <= 0 -> forall id, id ∈ D ->
     (exists b, In b bs /\ ULID (b_meta b) = id /\ Deletable (Compaction (b_meta b)) = true)
     \/ exists b, In b bs /\ In id (map d_ULID (Parents (Compaction (b_meta b))))).
Proof.
  unfold reloadBlocks. rewrite bool_decide_eq_true_2 by set_solver. set (D := _ ∪ _). eexists _, D. split; [reflexivity|].
  split; [apply sort_perm|]. subst D. set (ps := list_to_set (concat _)). unfold deletableBlocks. set (bs' := sort_by _ bs).
  assert (Hbs : forall b, In b bs' <-> In b bs) by (intros b; unfold bs'; rewrite <- !list_elem_of_In, (sort_perm (fun b => - MaxTime (b_meta b)) bs); reflexivity).
  assert (Hps : forall id, id ∈ ps <-> exists b, In b bs /\ In id (map d_ULID (Parents (Compaction (b_meta b))))).
  { intros id. unfold ps. rewrite elem_of_list_to_set, list_elem_of_In, in_concat. split.
    - intros (l & Hl & Hid). apply in_map_iff in Hl as (b & <- & Hb). eauto.
    - intros (b & Hb & Hid). eexists. split; [apply in_map_iff; exists b; split; [reflexivity|exact Hb]|exact Hid]. }
  assert (Hdel : forall id, id ∈ (list_to_set (map (fun b => ULID (b_meta b)) (List.filter (fun b => Deletable (Compaction (b_meta b))) bs')) : gset Z)
    <-> exists b, In b bs /\ ULID (b_meta b) = id /\ Deletable (Compaction (b_meta b)) = true).
  { intros id. rewrite elem_of_list_to_set, list_elem_of_In, in_map_iff. split.
    - intros (b & E & Hb). apply filter_In in Hb as [Hb Hd]. exists b. rewrite <- Hbs. auto.
    - intros (b & Hb & E & Hd). exists b. split; [exact E|]. apply filter_In. rewrite Hbs. auto. }
  repeat split.
  - intros b Hb Hd. apply elem_of_union. left. apply elem_of_intersection. split.
    + apply elem_of_union. left. apply elem_of_union. left. apply Hdel. eauto.
    + apply elem_of_list_to_set, list_elem_of_In. exact (in_map (fun b => ULID (b_meta b)) _ _ Hb).
  - intros b id Hb Hid. apply elem_of_union. right. apply Hps. eauto.
  - intros Ht Hm id Hid. apply elem_of_union in Hid as [Hid|Hid]; [left|right; apply Hps; exact Hid].
    apply elem_of_intersection in Hid as [Hid _]. apply elem_of_union in Hid as [Hid|Hid]; [apply elem_of_union in Hid as [Hid|Hid]|].
    + apply Hdel. exact Hid.
    + unfold BeyondTimeRetention in Hid. rewrite Ht in Hid. cbn in Hid. destruct bs'; set_solver.
    + unfold BeyondSizeRetention in Hid. rewrite (proj2 (Z.leb_le _ _) Hm) in Hid. set_solver.
Qed.

(** What a round does: the planned blocks [G], contiguous in the order of the
    minimal times, are replaced by their merge, or by nothing if the merge is
    empty; reloading then drops the blocks of [D]. *)
Record round (o : Options) (uid : Z) (blocks out : list Block) (P G Q K : list Block) (D : gset Z) : Prop := mkRound {
  rd_blocks : P ++ G ++ Q ≡ₚ blocks;
  rd_sorted : StronglySorted (fun a b => MinTime (b_meta a) <= MinTime (b_meta b)) (P ++ G ++ Q);
  rd_nonempty : G <> [];
  rd_planned : (2 <= length G)%nat \/ exists b, G = [b] /\ NumTombstones (Stats (b_meta b)) <> 0;
  rd_merge : (K = [] /\ writes_empty G) \/
             exists new, K = [new] /\ ULID (b_meta new) = uid /\ merges (b_meta new) G /\ NumTombstones (Stats (b_meta new)) = 0;
  rd_out : out ≡ₚ List.filter (not_in D) (K ++ P ++ Q);
  rd_dropped : forall b, In b (K ++ P ++ Q) -> (Deletable (Compaction (b_meta b)) = true -> ULID (b_meta b) ∈ D)
                 /\ forall id, In id (map d_ULID (Parents (Compaction (b_meta b)))) -> id ∈ D;
  rd_retained : RetentionDuration o = 0 -> MaxBytes o <= 0 -> forall id, id ∈ D -> In id (b_ids G) \/
     (exists b, In b (K ++ P ++ Q) /\ ULID (b_meta b) = id /\ Deletable (Compaction (b_meta b)) = true) \/
     exists b, In b (K ++ P ++ G ++ Q) /\ In id (map d_ULID (Parents (Compaction (b_meta b)))) }.

Lemma filter_perm {A} (f : A -> bool) l l' : l ≡ₚ l' -> List.filter f l ≡ₚ List.filter f l'.
Proof.
  induction 1 as [|x l l' _ IH|x y l|l l' l'' _ IH1 _ IH2]; cbn; [reflexivity| | |exact (Permutation_trans IH1 IH2)].
  - destruct (f x); [constructor|]; exact IH.
  - destruct (f x), (f y); reflexivity || constructor.
Qed.

Lemma filter_gone D G l : (forall b, In b G -> ULID (b_meta b) ∈ D) -> List.filter (not_in D) (G ++ l) = List.filter (not_in D) l.
Proof.
  intros H. induction G as [|b G IH]; [reflexivity|]. cbn. unfold not_in at 1. rewrite bool_decide_eq_true_2 by (apply H; left; reflexivity).
  cbn. apply IH. intros x Hx. apply H. right. exact Hx.
Qed.

(** A reload after the merge; [G'] are the planned blocks as they are by then. *)
Lemma round_from o headSize uid blocks blocks1 P G G' Q K : blocks1 ≡ₚ K ++ P ++ G' ++ Q ->
  (forall b, In b G' -> exists x, In x G /\ ULID (b_meta x) = ULID (b_meta b) /\ Parents (Compaction (b_meta x)) = Parents (Compaction (b_meta b))) ->
  (forall b, In b G' -> Deletable (Compaction (b_meta b)) = true \/ exists new, In new K /\ In (ULID (b_meta b)) (map d_ULID (Parents (Compaction (b_meta new))))) ->
  P ++ G ++ Q ≡ₚ blocks -> StronglySorted (fun a b => MinTime (b_meta a) <= MinTime (b_meta b)) (P ++ G ++ Q) -> G <> [] ->
  (2 <= length G)%nat \/ (exists b, G = [b] /\ NumTombstones (Stats (b_meta b)) <> 0) ->
  (K = [] /\ writes_empty G) \/
    (exists new, K = [new] /\ ULID (b_meta new) = uid /\ merges (b_meta new) G /\ NumTombstones (Stats (b_meta new)) = 0) ->
  exists out D, reloadBlocks o headSize blocks1 ∅ = Some (out, D) /\ round o uid blocks out P G Q K D.
Proof.
  intros Hb1 Hsame Hgone Hp Hs HG Hlen Hm. destruct (reload_spec o headSize blocks1) as (out & D & Er & Hout & Hdel & Hpar & Hret).
  assert (Hin : forall b, In b (K ++ P ++ G' ++ Q) <-> In b blocks1) by (intros b; rewrite Hb1; reflexivity).
  assert (HGD : forall b, In b G' -> ULID (b_meta b) ∈ D).
  { intros b Hb. destruct (Hgone b Hb) as [Hd|(new & Hn & Hid)]; [apply Hdel|apply (Hpar new)]; try assumption; apply Hin; rewrite !in_app_iff; auto. }
  exists out, D. split; [exact Er|]. constructor; try assumption.
  - rewrite Hout, (filter_perm _ _ _ Hb1), !List.filter_app. do 2 f_equiv. rewrite <- (List.filter_app _ G' Q), (filter_gone D G' Q HGD). reflexivity.
  - intros b Hb. assert (Hb' : In b blocks1) by (apply Hin; rewrite !in_app_iff in *; tauto). split; [exact (Hdel b Hb')|intros id; exact (Hpar b id Hb')].
  - assert (Hcases : forall b, In b blocks1 -> In b (K ++ P ++ Q) \/ In b G') by (intros b Hb; apply Hin in Hb; rewrite !in_app_iff in *; tauto).
    intros Ht Hmb id Hid. destruct (Hret Ht Hmb id Hid) as [(b & Hb & E1 & E2)|(b & Hb & E1)]; destruct (Hcases b Hb) as [Hc|Hc].
    + right. left. eauto.
    + left. destruct (Hsame b Hc) as (x & Hx & Ex & _). rewrite <- E1, <- Ex. exact (in_map (fun b => ULID (b_meta b)) _ _ Hx).
    + right. right. exists b. split; [rewrite !in_app_iff in *; tauto|exact E1].
    + right. right. destruct (Hsame b Hc) as (x & Hx & _ & Ex). exists x. split; [rewrite !in_app_iff; auto|rewrite Ex; exact E1].
Qed.

(** Blocks after a failed merge: as before, but for the flag of failure. *)
Definition after_failure (blocks out : list Block) : Prop :=
  exists f, (forall b, f b = b \/ f b = setCompactionFailed b) /\ out ≡ₚ map f blocks.

Lemma after_failure_some blocks P G Q out : P ++ G ++ Q ≡ₚ blocks -> NoDup (b_ids blocks) -> 
  out = blocks \/ out ≡ₚ P ++ map setCompactionFailed G ++ Q -> after_failure blocks out.
Proof.
  intros Hp Hd [->|H]; [exists (fun b => b); rewrite map_id; auto|].
  exists (mark setCompactionFailed (map dir (map dir_meta G))). split; [intros b; unfold mark; destruct (bool_decide _); auto|].
  rewrite (map_mark _ _ _ _ _ Hd Hp). exact H.
Qed.

Lemma round_ok o headSize uid blocks g : ids_ok uid blocks ->
  planned g (sort_by (fun d => MinTime (meta d)) (map dir_meta blocks)) ->
  (exists blocks1 out D P G Q K, Compact uid (map dir g) blocks = Ret (true, blocks1) /\ reloadBlocks o headSize blocks1 ∅ = Some (out, D)
    /\ round o uid blocks out P G Q K D) \/
  exists blocks1 G, Compact uid (map dir g) blocks = Ret (false, blocks1) /\ write_fails G /\ after_failure blocks blocks1.
Proof.
  intros [Hd _] Hg. destruct (plan_blocks blocks g Hg) as (P & G & Q & Hp & -> & HG & Hs & Hlen).
  destruct (Compact_spec uid blocks P G Q Hd Hp HG)
    as (ok & blocks1 & E & [(-> & new & Hb1 & Hid & Hm & Hnt)|[(-> & Hb1 & Hempty)|(-> & Hf & Hb1)]]).
  - left. destruct (round_from o headSize uid blocks blocks1 P G G Q [new]) as (out & D & Er & Hr); try assumption; [intros b Hb; eauto| |right; eauto|].
    + intros b Hb. right. exists new. split; [left; reflexivity|]. destruct Hm as (_ & _ & _ & _ & -> & _). exact (in_map (fun b => ULID (b_meta b)) _ _ Hb).
    + exists blocks1, out, D, P, G, Q, [new]. auto.
  - left. destruct (round_from o headSize uid blocks blocks1 P G (map set_deletable G) Q []) as (out & D & Er & Hr); try assumption; [| |left; auto|].
    + intros b Hb. apply in_map_iff in Hb as (x & <- & Hx). exists x. auto.
    + intros b Hb. apply in_map_iff in Hb as (x & <- & Hx). left. reflexivity.
    + exists blocks1, out, D, P, G, Q, []. auto.
  - right. exists blocks1, G. split; [exact E|]. split; [exact Hf|exact (after_failure_some _ _ _ _ _ Hp Hd Hb1)].
Qed.

(** ** The loop *)
Definition tombs (bs : list Block) : nat := length (List.filter (fun b => negb (NumTombstones (Stats (b_meta b)) =? 0)) bs).
(** The number of rounds that are left at most. *)
Definition rounds_left (bs : list Block) : nat := (length bs + tombs bs)%nat.

Lemma tombs_app l1 l2 : tombs (l1 ++ l2) = (tombs l1 + tombs l2)%nat.
Proof. unfold tombs. rewrite List.filter_app, length_app. reflexivity. Qed.

Lemma tombs_perm l l' : l ≡ₚ l' -> tombs l = tombs l'.
Proof. intros H. unfold tombs. apply Permutation_length, filter_perm, H. Qed.

Lemma tombs_filter f l : (tombs (List.filter f l) <= tombs l)%nat.
Proof. unfold tombs. induction l as [|b l IH]; [reflexivity|]. cbn. destruct (f b); cbn; destruct (negb _); cbn; lia. Qed.

Lemma length_filter_le {A} (f : A -> bool) l : (length (List.filter f l) <= length l)%nat.
Proof. induction l as [|b l IH]; [reflexivity|]. cbn. destruct (f b); cbn; lia. Qed.

Lemma round_progress o uid blocks out P G Q K D : round o uid blocks out P G Q K D -> (rounds_left out < rounds_left blocks)%nat.
Proof.
  intros [Hp _ HG Hlen Hm Hout _ _]. unfold rounds_left. rewrite <- Hp at 1. rewrite <- (tombs_perm _ _ Hp), (tombs_perm _ _ Hout), Hout.
  pose proof (tombs_filter (not_in D) (K ++ P ++ Q)) as H1. pose proof (length_filter_le (not_in D) (K ++ P ++ Q)) as H2.
  rewrite !tombs_app, !length_app in *. destruct Hm as [[-> _]|(new & -> & _ & _ & Hnt)].
  - destruct G; [congruence|]. cbn in *. lia.
  - assert (Hnew : tombs [new] = 0%nat) by (unfold tombs; cbn; rewrite Hnt; reflexivity). rewrite Hnew in H1. cbn [length] in *.
    destruct Hlen as [Hlen|(b & -> & Hb)]; [lia|].
    assert (Hone : tombs [b] = 1%nat) by (unfold tombs; cbn; rewrite (proj2 (Z.eqb_neq _ _) Hb); reflexivity). cbn in *. lia.
Qed.

Lemma nodup_map_filter {A B} (f : A -> B) (p : A -> bool) l : NoDup (map f l) -> NoDup (map f (List.filter p l)).
Proof.
  induction l as [|x l IH]; cbn; [auto|]. intros Hd. apply NoDup_cons in Hd as [Hx Hd]. destruct (p x); [|exact (IH Hd)].
  cbn. apply NoDup_cons. split; [|exact (IH Hd)]. intros Hin. apply Hx. apply list_elem_of_In in Hin. apply list_elem_of_In.
  apply in_map_iff in Hin as (y & E & Hy). apply filter_In in Hy as [Hy _]. rewrite <- E. exact (in_map f _ _ Hy).
Qed.

Lemma round_ids o uid blocks out P G Q K D : round o uid blocks out P G Q K D -> ids_ok uid blocks -> ids_ok (uid + 1) out.
Proof.
  intros [Hp _ _ _ Hm Hout _ _] [Hd Hlt].
  assert (Hids : ids_ok (uid + 1) (K ++ P ++ Q)).
  { assert (HPQ : NoDup (b_ids (P ++ Q)) /\ List.Forall (fun id => id < uid) (b_ids (P ++ Q))).
    { assert (Hd' : NoDup (b_ids (P ++ G ++ Q))) by (unfold b_ids in *; rewrite Hp; exact Hd).
      assert (Hl' : List.Forall (fun id => id < uid) (b_ids (P ++ G ++ Q))) by (unfold b_ids in *; rewrite Hp; exact Hlt).
      unfold b_ids in *. rewrite !map_app in *. rewrite (Permutation_app_swap_app (map _ P)) in Hd', Hl'.
      apply NoDup_app in Hd' as (_ & _ & Hd'). apply List.Forall_app in Hl' as [_ Hl']. auto. }
    destruct HPQ as [Hn Hl]. destruct Hm as [[-> _]|(new & -> & Hid & _)].
    - split; [exact Hn|]. eapply List.Forall_impl; [|exact Hl]. cbn. lia.
    - split; cbn; [apply NoDup_cons; split; [|exact Hn]|constructor; [lia|eapply List.Forall_impl; [|exact Hl]; cbn; lia]].
      rewrite Hid. intros Hin. apply list_elem_of_In in Hin. pose proof (proj1 (List.Forall_forall _ _) Hl _ Hin) as Hb. cbn in Hb. lia. }
  destruct Hids as [Hn Hl]. split.
  - unfold b_ids. rewrite Hout. apply nodup_map_filter. exact Hn.
  - unfold b_ids. rewrite Hout. apply List.Forall_forall. intros id Hin. apply in_map_iff in Hin as (b & <- & Hb). apply filter_In in Hb as [Hb _].
    apply (proj1 (List.Forall_forall _ _) Hl). exact (in_map (fun b => ULID (b_meta b)) _ _ Hb).
Qed.

(** The loop ends: with nothing left to plan, or by a failed write. *)
Definition loop_end (c : LeveledCompactor) (blocks : list Block) (e : ended) : Prop :=
  match e with
  | OutOfFuel => False
  | Settled out => out = blocks /\ Plan c (map dir_meta out) = Ret []
      /\ (enableOverlappingCompaction c = true -> in_order (sort_by (fun d => MinTime (meta d)) (map dir_meta out)))
  | Stopped out => (exists G, write_fails G) /\ after_failure blocks out
  end.

(** The loop ends, and what its rounds keep holds at the end. *)
Lemma compactBlocks_rounds c o headSize (Inv : Z -> list Block -> Prop) : ranges c <> [] -> List.Forall (fun r => r <> 0) (ranges c) ->
  (forall uid blocks out P G Q K D, ids_ok uid blocks -> Inv uid blocks -> round o uid blocks out P G Q K D -> Inv (uid + 1) out) ->
  forall fuel uid blocks, ids_ok uid blocks -> Inv uid blocks -> (rounds_left blocks < fuel)%nat ->
  exists e last uid', compactBlocks fuel c o headSize uid blocks = Ret e /\ Inv uid' last /\ loop_end c last e.
Proof.
  intros Hr0 Hr Hround. induction fuel as [|fuel IH]; intros uid blocks Hids Hinv Hfuel; [lia|]. cbn [compactBlocks].
  destruct blocks as [|b0 blocks].
  { exists (Settled []), [], uid. cbn. split; [reflexivity|]. split; [exact Hinv|]. split; [reflexivity|]. split; [reflexivity|]. intros _.
    rewrite (Permutation_nil (Permutation_sym (sort_perm (fun d => MinTime (meta d)) []))). constructor. }
  set (bs := b0 :: blocks) in *. destruct (plan_spec c (map dir_meta bs)) as (res & E & Hres); [discriminate|exact Hr0|exact Hr|].
  assert (EP : Plan c (map dir_meta bs) = Ret res) by exact E. rewrite EP. cbn [outcome_bind].
  destruct Hres as [[-> Hord]|(g & Hg & ->)]; [exists (Settled bs), bs, uid; split; [reflexivity|]; split; [exact Hinv|]; repeat split; auto|].
  destruct (map dir g) as [|p0 ps] eqn:Ep.
  { destruct Hg as [_ [Hg|(d & -> & _)]]; [|discriminate]. apply (f_equal length) in Ep. rewrite length_map in Ep. cbn in Ep. lia. }
  rewrite <- Ep. destruct (round_ok o headSize uid bs g Hids Hg) as [(blocks1 & out & D & P & G & Q & K & Ec & Er & Hrd)|(blocks1 & G & Ec & Hf & Hout)].
  - rewrite Ec. cbn [outcome_bind]. rewrite Er. apply IH.
    + exact (round_ids _ _ _ _ _ _ _ _ _ Hrd Hids).
    + exact (Hround _ _ _ _ _ _ _ _ Hids Hinv Hrd).
    + pose proof (round_progress _ _ _ _ _ _ _ _ _ Hrd). lia.
  - rewrite Ec. cbn [outcome_bind]. exists (Stopped blocks1), bs, uid. split; [reflexivity|]. split; [exact Hinv|].
    split; [exists G; exact Hf|exact Hout].
Qed.
End cycle.

(** ** Disjointness and sources *)
Definition wf_block (b : Block) : Prop := MinTime (b_meta b) < MaxTime (b_meta b).
Definition apart (a b : Block) : Prop := MaxTime (b_meta a) <= MinTime (b_meta b) \/ MaxTime (b_meta b) <= MinTime (b_meta a).
(** No two blocks overlap; ranges are half-open. *)
Definition disjoint_blocks (bs : list Block) : Prop := StronglySorted apart bs.

Section results.
Context {GS : GoSort} {GSOK : GoSortOK GS} {BW : BlockWriter} {BWOK : BlockWriterOK BW}.

Lemma apart_sym a b : apart a b -> apart b a.
Proof. unfold apart. tauto. Qed.

Lemma merge_wf new G : merges (b_meta new) G -> List.Forall wf_block G -> wf_block new.
Proof.
  intros ((b & Hb & E) & _ & Hall & _) Hw. destruct (Hall b Hb) as [_ H]. pose proof (proj1 (List.Forall_forall _ _) Hw b Hb).
  unfold wf_block in *. lia.
Qed.

(** A merge of contiguous blocks is apart from the blocks around them. *)
Lemma merge_apart new P G Q : merges (b_meta new) G -> List.Forall wf_block (P ++ G ++ Q) ->
  StronglySorted (fun a b => MinTime (b_meta a) <= MinTime (b_meta b)) (P ++ G ++ Q) -> disjoint_blocks (P ++ G ++ Q) ->
  List.Forall (apart new) (P ++ Q).
Proof.
  intros ((bn & Hbn & Emin) & (bx & Hbx & Emax) & _) Hw Hs Hd. destruct (strongly_sorted_app _ _ _ Hs) as (_ & Hs2 & HsP).
  destruct (strongly_sorted_app _ _ _ Hs2) as (_ & _ & HsQ). destruct (strongly_sorted_app _ _ _ Hd) as (_ & Hd2 & HdP).
  destruct (strongly_sorted_app _ _ _ Hd2) as (_ & _ & HdQ). pose proof (proj1 (List.Forall_forall _ _) Hw) as Hwf. unfold wf_block in Hwf.
  apply List.Forall_forall. intros x Hx. apply in_app_iff in Hx as [Hx|Hx].
  - right. rewrite Emin. assert (Hb : In bn (G ++ Q)) by (apply in_app_iff; auto). destruct (HdP x bn Hx Hb) as [H|H]; [exact H|].
    specialize (HsP x bn Hx Hb). pose proof (Hwf bn ltac:(rewrite !in_app_iff; auto)). lia.
  - left. rewrite Emax. destruct (HdQ bx x Hbx Hx) as [H|H]; [exact H|]. specialize (HsQ bx x Hbx Hx).
    pose proof (Hwf x ltac:(rewrite !in_app_iff; auto)). lia.
Qed.

Lemma forall_filter {A} (R : A -> Prop) (f : A -> bool) l : List.Forall R l -> List.Forall R (List.filter f l).
Proof. intros H. apply List.Forall_forall. intros x Hx. apply filter_In in Hx as [Hx _]. exact (proj1 (List.Forall_forall _ _) H x Hx). Qed.

Lemma round_wf o uid blocks out P G Q K D : round o uid blocks out P G Q K D -> List.Forall wf_block blocks ->
  List.Forall wf_block (P ++ G ++ Q) /\ List.Forall wf_block out.
Proof.
  intros [Hp _ _ _ Hm Hout _ _] Hw. rewrite <- Hp in Hw. split; [exact Hw|]. rewrite Hout. apply forall_filter.
  apply List.Forall_app in Hw as [HwP Hw]. apply List.Forall_app in Hw as [HwG HwQ]. apply List.Forall_app. split; [|apply List.Forall_app; auto].
  destruct Hm as [[-> _]|(new & -> & _ & Hm & _)]; [constructor|]. constructor; [exact (merge_wf new G Hm HwG)|constructor].
Qed.

Lemma round_disjoint o uid blocks out P G Q K D : round o uid blocks out P G Q K D -> List.Forall wf_block blocks ->
  disjoint_blocks blocks -> disjoint_blocks out.
Proof.
  intros Hr Hw Hd. destruct (round_wf _ _ _ _ _ _ _ _ _ Hr Hw) as [Hw' _]. destruct Hr as [Hp Hs _ _ Hm Hout _ _].
  apply (sorted_perm _ _ _ apart_sym (Permutation_sym Hp)) in Hd. apply (sorted_perm _ _ _ apart_sym (Permutation_sym Hout)), filter_sorted.
  assert (HPQ : disjoint_blocks (P ++ Q)).
  { apply (sorted_perm _ _ (G ++ P ++ Q) apart_sym) in Hd; [|apply Permutation_app_swap_app]. apply (strongly_sorted_app _ _ _ Hd). }
  destruct Hm as [[-> _]|(new & -> & _ & Hm & _)]; [exact HPQ|]. constructor; [exact HPQ|]. exact (merge_apart new P G Q Hm Hw' Hs Hd).
Qed.

Lemma in_order_disjoint bs : in_order (sort_by (fun d => MinTime (meta d)) (map dir_meta bs)) -> disjoint_blocks bs.
Proof.
  intros H. destruct (Permutation_map_inv dir_meta bs (sort_perm (fun d => MinTime (meta d)) _)) as (L & EL & HL). rewrite EL in H.
  apply (sorted_perm _ _ _ apart_sym (Permutation_sym HL)). clear -H. induction L as [|b L IH]; [constructor|]. cbn [map] in H.
  apply StronglySorted_inv in H as [H Hf]. constructor; [exact (IH H)|]. apply List.Forall_forall. intros x Hx. left.
  exact (proj1 (List.Forall_forall _ _) Hf (dir_meta x) (in_map dir_meta L x Hx)).
Qed.

(** No block is flagged for deletion or is the parent of another. *)
Definition clean (uid : Z) (bs : list Block) : Prop := forall b, In b bs -> Deletable (Compaction (b_meta b)) = false /\
  forall id, In id (map d_ULID (Parents (Compaction (b_meta b)))) -> id < uid /\ ~ In id (b_ids bs).

Definition has_source (bs : list Block) (src : Z) : Prop := exists b, In b bs /\ In src (Sources (Compaction (b_meta b))).

(** Without retention, nothing but the planned blocks is dropped. *)
Lemma round_keeps o uid blocks out P G Q new D : round o uid blocks out P G Q [new] D -> ids_ok uid blocks -> clean uid blocks ->
  RetentionDuration o = 0 -> MaxBytes o <= 0 -> merges (b_meta new) G -> ULID (b_meta new) = uid -> out ≡ₚ new :: P ++ Q.
Proof.
  intros [Hp _ _ _ _ Hout _ Hret] [Hd Hlt] Hcl Ht Hm (_ & _ & _ & _ & Hpar & Hdel) Hid. rewrite Hout. rewrite filter_all; [reflexivity|].
  assert (Hin : forall b, In b (P ++ G ++ Q) <-> In b blocks) by (intros b; rewrite Hp; reflexivity).
  assert (Hdp : NoDup (b_ids (P ++ G ++ Q))) by (unfold b_ids in *; rewrite Hp; exact Hd).
  apply Forall_forall. intros b Hb. apply negb_true_iff, bool_decide_eq_false. intros HD. apply list_elem_of_In in Hb. change (In b (new :: P ++ Q)) in Hb.
  assert (HG : ~ In (ULID (b_meta b)) (b_ids G)).
  { intros HG. apply in_map_iff in HG as (x & Ex & Hx). assert (Hxin : In x (P ++ G ++ Q)) by (rewrite !in_app_iff; auto).
    destruct Hb as [<-|Hb].
    - pose proof (proj1 (List.Forall_forall _ _) Hlt (ULID (b_meta x)) (in_map (fun b => ULID (b_meta b)) _ _ (proj1 (Hin x) Hxin))). cbn in *. lia.
    - assert (Hbin : In b (P ++ G ++ Q)) by (rewrite in_app_iff in Hb; rewrite !in_app_iff; tauto).
      pose proof (ids_inj _ x b Hdp Hxin Hbin Ex) as ->. pose proof (NoDup_fmap_1 (fun b => ULID (b_meta b)) _ Hdp) as Hnd.
      apply NoDup_app in Hnd as (_ & HPG & Hnd). apply NoDup_app in Hnd as (_ & HGQ & _).
      apply in_app_iff in Hb as [Hb|Hb]; apply list_elem_of_In in Hb, Hx; [apply (HPG b Hb), elem_of_app; auto|exact (HGQ b Hx Hb)]. }
  destruct (Hret Ht Hm _ HD) as [H|[(x & Hx & Ex & Hxd)|(x & Hx & Hxp)]]; [exact (HG H)| |].
  - cbn in Hx. destruct Hx as [<-|Hx]; [congruence|]. assert (Hx' : In x blocks) by (apply Hin; rewrite in_app_iff in Hx; rewrite !in_app_iff; tauto).
    destruct (Hcl x Hx') as [Hno _]. congruence.
  - cbn in Hx. destruct Hx as [<-|Hx]; [rewrite Hpar in Hxp; exact (HG Hxp)|]. destruct (Hcl x (proj1 (Hin x) Hx)) as [_ Hno].
    destruct (Hno _ Hxp) as [Hl Hni]. destruct Hb as [<-|Hb]; [lia|]. apply Hni. unfold b_ids. apply in_map_iff. exists b. split; [reflexivity|].
    apply Hin. rewrite in_app_iff in Hb. rewrite !in_app_iff. tauto.
Qed.

Lemma round_clean o uid blocks out P G Q K D : round o uid blocks out P G Q K D -> ids_ok uid blocks -> clean uid blocks -> clean (uid + 1) out.
Proof.
  intros [Hp _ _ _ Hm Hout Hdrop _] [_ Hlt] Hcl.
  assert (Hkept : forall b, In b out -> In b (K ++ P ++ Q) /\ ULID (b_meta b) ∉ D).
  { intros b Hb. rewrite Hout in Hb. apply filter_In in Hb as [Hb HD]. split; [exact Hb|].
    apply negb_true_iff, bool_decide_eq_false in HD. exact HD. }
  intros b Hb. destruct (Hkept b Hb) as [HbK HbD]. destruct (Hdrop b HbK) as [Hdel Hpar]. split.
  - destruct (Deletable _); [destruct (HbD (Hdel eq_refl))|reflexivity].
  - intros id Hid. split.
    + assert (Hcase : In b K \/ In b blocks) by (rewrite <- Hp; rewrite !in_app_iff in *; tauto). destruct Hcase as [HK|Hin].
      * destruct Hm as [[-> _]|(new & -> & _ & (_ & _ & _ & _ & Hps & _) & _)]; [destruct HK|]. destruct HK as [<-|[]]. rewrite Hps in Hid.
        apply in_map_iff in Hid as (x & <- & Hx).
        assert (Hx' : In x blocks) by (rewrite <- Hp, !in_app_iff; auto).
        pose proof (proj1 (List.Forall_forall _ _) Hlt _ (in_map (fun b => ULID (b_meta b)) _ _ Hx')). cbn in *. lia.
      * destruct (Hcl b Hin) as [_ H]. specialize (H id Hid). lia.
    + intros Hin. apply in_map_iff in Hin as (x & <- & Hx). exact (proj2 (Hkept x Hx) (Hpar _ Hid)).
Qed.

Lemma merge_sources new P G Q src : merges (b_meta new) G -> has_source (new :: P ++ Q) src <-> has_source (P ++ G ++ Q) src.
Proof.
  intros (_ & _ & _ & Hs & _). unfold has_source. split.
  - intros (b & [<-|Hb] & Hsrc).
    + apply Hs in Hsrc as (x & Hx & Hsrc). exists x. rewrite !in_app_iff. auto.
    + exists b. rewrite !in_app_iff in *. tauto.
  - intros (b & Hb & Hsrc). rewrite !in_app_iff in Hb. destruct Hb as [Hb|[Hb|Hb]].
    + exists b. split; [right; rewrite in_app_iff; auto|exact Hsrc].
    + exists new. split; [left; reflexivity|]. apply Hs. eauto.
    + exists b. split; [right; rewrite in_app_iff; auto|exact Hsrc].
Qed.

Lemma has_source_perm l l' src : l ≡ₚ l' -> has_source l src <-> has_source l' src.
Proof. intros H. unfold has_source. split; intros (b & Hb & Hs); exists b; (split; [|exact Hs]); [rewrite <- H|rewrite H]; exact Hb. Qed.

Lemma failure_flag f b : f b = b \/ f b = setCompactionFailed b -> MinTime (b_meta (f b)) = MinTime (b_meta b) /\
  MaxTime (b_meta (f b)) = MaxTime (b_meta b) /\ Sources (Compaction (b_meta (f b))) = Sources (Compaction (b_meta b)).
Proof. intros [-> | ->]; auto. Qed.

Lemma after_failure_same blocks out : after_failure blocks out ->
  (disjoint_blocks blocks -> disjoint_blocks out) /\ forall src, has_source out src <-> has_source blocks src.
Proof.
  intros (f & Hf & Hp). split.
  - intros Hd. apply (sorted_perm _ _ _ apart_sym (Permutation_sym Hp)). clear Hp. induction Hd as [|b bs _ IH Hb]; [constructor|].
    constructor; [exact IH|]. apply List.Forall_map. eapply List.Forall_impl; [|exact Hb]. unfold apart. intros x Hx.
    destruct (failure_flag f b (Hf b)) as (-> & -> & _), (failure_flag f x (Hf x)) as (-> & -> & _). exact Hx.
  - intros src. rewrite (has_source_perm _ _ src Hp). unfold has_source. split.
    + intros (b & Hb & Hs). apply in_map_iff in Hb as (x & <- & Hx). exists x. destruct (failure_flag f x (Hf x)) as (_ & _ & E). rewrite E in Hs. auto.
    + intros (b & Hb & Hs). exists (f b). destruct (failure_flag f b (Hf b)) as (_ & _ & ->). split; [apply in_map; exact Hb|exact Hs].
Qed.

(** C24: Whatever the blocks, the loop of plan, merge and reload ends within as
    many rounds as there are blocks and blocks with tombstones, without a
    panic: with nothing left to plan, or by the error of a write. *)
Theorem compact_blocks_ends c o headSize uid blocks fuel : ranges c <> [] -> List.Forall (fun r => r <> 0) (ranges c) ->
  ids_ok uid blocks -> (length blocks + tombs blocks < fuel)%nat ->
  exists out, (compactBlocks fuel c o headSize uid blocks = Ret (Settled out) /\ Plan c (map dir_meta out) = Ret []) \/
              (compactBlocks fuel c o headSize uid blocks = Ret (Stopped out) /\ exists G, write_fails G).
Proof.
  intros Hr0 Hr Hids Hfuel. destruct (compactBlocks_rounds c o headSize (fun _ _ => True) Hr0 Hr) with (fuel := fuel) (uid := uid) (blocks := blocks)
    as ([|out|out] & lst & uid' & -> & _ & H); auto; cbn in H; [destruct H|exists out; right; tauto|exists out; left; tauto].
Qed.

(** The blocks a loop leaves behind. *)
Definition left_by (e : ended) : list Block := match e with OutOfFuel => [] | Stopped out | Settled out => out end.

(** C13: However the compaction loop ends, it keeps blocks that do not overlap from
    overlapping; with overlapping compaction enabled it leaves no overlap behind
    unless a write fails; and if retention is off and no merge is empty, the
    sources of the blocks it leaves are those there were. *)
Theorem compact_blocks_keeps_data c o headSize uid blocks fuel e : ranges c <> [] -> List.Forall (fun r => r <> 0) (ranges c) ->
  ids_ok uid blocks -> List.Forall wf_block blocks -> (length blocks + tombs blocks < fuel)%nat ->
  compactBlocks fuel c o headSize uid blocks = Ret e ->
  (disjoint_blocks blocks -> disjoint_blocks (left_by e)) /\
  (enableOverlappingCompaction c = true -> (forall G, ~ write_fails G) -> disjoint_blocks (left_by e)) /\
  (RetentionDuration o = 0 -> MaxBytes o <= 0 -> clean uid blocks -> (forall G, ~ writes_empty G) ->
     forall src, has_source (left_by e) src <-> has_source blocks src).
Proof.
  intros Hr0 Hr Hids Hw Hfuel E.
  pose (Inv := fun uid' bs => List.Forall wf_block bs /\ (disjoint_blocks blocks -> disjoint_blocks bs) /\
    (RetentionDuration o = 0 -> MaxBytes o <= 0 -> clean uid blocks -> (forall G, ~ writes_empty G) ->
       clean uid' bs /\ forall src, has_source bs src <-> has_source blocks src)).
  destruct (compactBlocks_rounds c o headSize Inv Hr0 Hr) with (fuel := fuel) (uid := uid) (blocks := blocks)
    as (e' & lst & uid' & E' & (_ & Hdis & Hsrc) & Hend); [|exact Hids| |exact Hfuel|].
  - intros u bs o' P G Q K D Hi (Hw1 & Hd1 & Hs1) Hrd. split; [exact (proj2 (round_wf _ _ _ _ _ _ _ _ _ Hrd Hw1))|]. split.
    + intros Hd. exact (round_disjoint _ _ _ _ _ _ _ _ _ Hrd Hw1 (Hd1 Hd)).
    + intros Ht Hm Hcl Hwr. destruct (Hs1 Ht Hm Hcl Hwr) as [Hcl1 Hs2]. split; [exact (round_clean _ _ _ _ _ _ _ _ _ Hrd Hi Hcl1)|].
      intros src. rewrite <- Hs2. destruct (rd_merge _ _ _ _ _ _ _ _ _ Hrd) as [[_ Hz]|(new & -> & Hid & Hmer & _)]; [destruct (Hwr G Hz)|].
      rewrite (has_source_perm _ _ src (round_keeps _ _ _ _ _ _ _ _ _ Hrd Hi Hcl1 Ht Hm Hmer Hid)).
      rewrite <- (has_source_perm _ _ src (rd_blocks _ _ _ _ _ _ _ _ _ Hrd)). exact (merge_sources new P G Q src Hmer).
  - split; [exact Hw|]. split; [auto|]. intros _ _ Hcl _. split; [exact Hcl|reflexivity].
  - rewrite E in E'. injection E' as <-. destruct e as [|out|out]; cbn in Hend |- *; [destruct Hend| |].
    + destruct Hend as [[G HG] Hf]. destruct (after_failure_same _ _ Hf) as [H1 H2]. split; [auto|]. split; [intros _ Hno; destruct (Hno G HG)|].
      intros Ht Hm Hcl Hwr src. rewrite H2. exact (proj2 (Hsrc Ht Hm Hcl Hwr) src).
    + destruct Hend as (-> & _ & Hord). split; [exact Hdis|]. split; [intros He _; exact (in_order_disjoint _ (Hord He))|].
      intros Ht Hm Hcl Hwr. exact (proj2 (Hsrc Ht Hm Hcl Hwr)).
Qed.
End results.

(** ** Aligned ranges *)
Section ranges_proofs.

Definition small (z : Z) : Prop := - 2 ^ 61 <= z <= 2 ^ 61.
Definition small_dir (d : dirMeta) : Prop := small (MinTime (meta d)) /\ small (MaxTime (meta d)).

(** The aligned range of width [tr] that a block begins in. *)
Definition aligned (tr : Z) (d : dirMeta) : Z := tr * (MinTime (meta d) / tr).

Lemma go_quot_small a b : small a -> 0 < b -> go_quot a b = Ret (Z.quot a b).
Proof.
  intros Ha Hb. unfold go_quot. rewrite (proj2 (Z.eqb_neq b 0)) by lia. f_equal. apply i64_id. unfold small, is_i64 in *.
  pose proof (Z.quot_abs a b ltac:(lia)) as Hq. rewrite (Z.abs_eq b), Z.quot_div_nonneg in Hq by lia.
  pose proof (Z.div_le_upper_bound (Z.abs a) b (Z.abs a) Hb ltac:(nia)). lia.
Qed.

(** Truncated division with the shift for negative times rounds down. *)
Lemma quot_floor a b : 0 < b -> a < 0 -> Z.quot (a - b + 1) b = a / b.
Proof.
  intros Hb Ha. replace (a - b + 1) with (- (b - 1 - a)) by lia. rewrite Z.quot_opp_l by lia. rewrite Z.quot_div_nonneg by lia.
  pose proof (Z.div_mod a b ltac:(lia)) as H1. pose proof (Z.mod_pos_bound a b Hb) as H2.
  replace (b - 1 - a) with ((- (a / b)) * b + (b - 1 - a mod b)) by lia. rewrite Z.div_add_l by lia. rewrite (Z.div_small (b - 1 - a mod b)) by lia. lia.
Qed.

Lemma range_start_aligned tr d : 0 < tr <= 2 ^ 61 -> small (MinTime (meta d)) -> range_start tr (meta d) = Ret (aligned tr d).
Proof.
  intros Htr Hm. unfold range_start, aligned. set (t := MinTime (meta d)) in *.
  assert (Hfl : tr * (t / tr) = t - t mod tr) by (pose proof (Z.div_mod t tr ltac:(lia)); lia).
  pose proof (Z.mod_pos_bound t tr ltac:(lia)) as Hmod. unfold small in Hm. destruct (Z.leb_spec 0 t).
  - rewrite go_quot_small by (unfold small; lia). cbn [outcome_bind]. rewrite Z.quot_div_nonneg by lia. f_equal. apply i64_id. unfold is_i64. lia.
  - rewrite (i64_id (t - tr)), (i64_id (t - tr + 1)) by (unfold is_i64; lia).
    unfold go_quot. rewrite (proj2 (Z.eqb_neq tr 0)) by lia. cbn [outcome_bind]. rewrite quot_floor by lia.
    assert (Hq : is_i64 (t / tr)) by (unfold is_i64; nia). rewrite (i64_id _ Hq). f_equal. apply i64_id. unfold is_i64. lia.
Qed.

Lemma fitting_in hi ds d : In d (fitting hi ds) -> In d ds /\ MaxTime (meta d) <= hi.
Proof.
  induction ds as [|x ds IH]; cbn; [intros []|]. destruct (Z.ltb_spec hi (MaxTime (meta x))); [intros []|].
  intros [<-|Hd]; [split; [left; reflexivity|lia]|]. destruct (IH Hd). auto.
Qed.

Lemma split_loop_aligned tr ds : 0 < tr <= 2 ^ 61 -> List.Forall small_dir ds ->
  StronglySorted (fun a b => MinTime (meta a) <= MinTime (meta b)) ds -> forall skip parts, split_loop tr skip ds = Ret parts ->
  List.Forall (fun g => part_of g ds /\ exists d0, In d0 g /\ forall d, In d g ->
     aligned tr d0 <= MinTime (meta d) /\ MaxTime (meta d) <= aligned tr d0 + tr) parts /\
  forall d, In d (drop skip ds) -> MaxTime (meta d) <= aligned tr d + tr -> exists g, In g parts /\ In d g.
Proof.
  intros Htr Hsm Hs. induction ds as [|d ds IH]; intros skip parts.
  { destruct skip; cbn; intros [= <-]; (split; [constructor|intros d []]). }
  apply StronglySorted_inv in Hs as [Hs Hle]. pose proof (List.Forall_inv Hsm) as [Hmin Hmax]. specialize (IH (List.Forall_inv_tail Hsm) Hs).
  assert (Hlift : forall parts, List.Forall (fun g => part_of g ds /\ exists d0, In d0 g /\ forall d, In d g ->
     aligned tr d0 <= MinTime (meta d) /\ MaxTime (meta d) <= aligned tr d0 + tr) parts ->
     List.Forall (fun g => part_of g (d :: ds) /\ exists d0, In d0 g /\ forall d, In d g ->
     aligned tr d0 <= MinTime (meta d) /\ MaxTime (meta d) <= aligned tr d0 + tr) parts).
  { intros ps H. eapply List.Forall_impl; [|exact H]. intros g [Hg Hd]. split; [apply part_of_cons|]; assumption. }
  destruct skip as [|skip]; cbn [split_loop].
  2: { intros E. destruct (IH skip parts E) as [H1 H2]. split; [apply Hlift; exact H1|exact H2]. }
  rewrite (range_start_aligned tr d Htr Hmin). cbn [outcome_bind].
  assert (Ha : aligned tr d <= MinTime (meta d)) by (unfold aligned; apply Z.mul_div_le; lia).
  assert (Ha2 : MinTime (meta d) - tr < aligned tr d) by (unfold aligned; pose proof (Z.mul_succ_div_gt (MinTime (meta d)) tr ltac:(lia)); lia).
  rewrite i64_id by (unfold is_i64, small in *; lia). set (hi := aligned tr d + tr) in *. destruct (Z.ltb_spec hi (MaxTime (meta d))) as [Hgt|Hfit].
  - intros E. destruct (IH 0%nat parts E) as [H1 H2]. split; [apply Hlift; exact H1|]. intros x [<-|Hx] Hf; [unfold hi in Hgt; lia|].
    apply H2; [exact Hx|exact Hf].
  - set (group := fitting hi (d :: ds)). assert (Egr : group = d :: fitting hi ds).
    { unfold group. cbn. rewrite (proj2 (Z.ltb_ge _ _) Hfit). reflexivity. }
    destruct (split_loop tr (length group - 1) ds) as [rest|] eqn:E; [|discriminate]. cbn [outcome_bind]. intros [= <-].
    destruct (IH _ _ E) as [H1 H2]. split.
    + constructor; [|apply Hlift; exact H1]. split.
      * destruct (fitting_prefix hi (d :: ds)) as [post Hp]. exists [], post. exact Hp.
      * exists d. split; [rewrite Egr; left; reflexivity|]. intros x Hx. destruct (fitting_in hi (d :: ds) x Hx) as [Hin Hmx]. split; [|exact Hmx].
        destruct Hin as [<-|Hin]; [exact Ha|]. pose proof (proj1 (List.Forall_forall _ _) Hle x Hin). cbn in *. lia.
    + intros x [<-|Hx] Hf; [exists group; split; [left; reflexivity|rewrite Egr; left; reflexivity]|].
      destruct (fitting_prefix hi ds) as [post Hp]. rewrite Hp in Hx. apply in_app_iff in Hx as [Hx|Hx].
      * exists group. split; [left; reflexivity|]. rewrite Egr. right. exact Hx.
      * destruct (H2 x) as (g & Hg & Hxg); [|exact Hf|exists g; split; [right; exact Hg|exact Hxg]].
        rewrite Egr. cbn [length]. rewrite Nat.sub_1_r. cbn [Nat.pred]. rewrite Hp at 2. rewrite drop_app_length. exact Hx.
Qed.

(** C31: The parts that the planner considers for merging are contiguous, lie
    each within one range [[k tr, (k+1) tr)] aligned to the width [tr], also for
    times before 1970, and contain every block that fits in its range; a
    width of at most [2^61] and such times do not overflow. *)
Theorem split_by_range_aligned tr ds : 0 < tr <= 2 ^ 61 -> List.Forall small_dir ds ->
  StronglySorted (fun a b => MinTime (meta a) <= MinTime (meta b)) ds ->
  exists parts, splitByRange ds tr = Ret parts /\
    List.Forall (fun g => part_of g ds /\ g <> [] /\ exists k, forall d, In d g -> k * tr <= MinTime (meta d) /\ MaxTime (meta d) <= (k + 1) * tr) parts /\
    forall d, In d ds -> MaxTime (meta d) <= (MinTime (meta d) / tr + 1) * tr -> exists g, In g parts /\ In d g.
Proof.
  intros Htr Hsm Hs. destruct (split_loop_parts tr 0 ds ltac:(lia)) as (parts & E & Hne).
  destruct (split_loop_aligned tr ds Htr Hsm Hs 0%nat parts E) as [H1 H2]. exists parts. split; [exact E|]. split.
  - apply List.Forall_forall. intros g Hg. destruct (proj1 (List.Forall_forall _ _) Hne g Hg) as [_ Hn].
    destruct (proj1 (List.Forall_forall _ _) H1 g Hg) as [Hp (d0 & _ & Hd)]. split; [exact Hp|]. split; [exact Hn|].
    exists (MinTime (meta d0) / tr). intros d Hin. specialize (Hd d Hin). unfold aligned in Hd. lia.
  - intros d Hin Hf. apply H2; [exact Hin|]. unfold aligned. lia.
Qed.
End ranges_proofs.

(** ** Retention *)
Section retention_proofs.
Context {GS : GoSort} {GSOK : GoSortOK GS}.

(** The blocks from the newest. *)
Definition newest_first (blocks : list Block) : list Block := sort_by (fun b => - MaxTime (b_meta b)) blocks.

Definition total_size (blocks : list Block) : Z := foldr (fun b n => b_size b + n) 0 blocks.

(** The block at index [i] of [l] is older than the newest by the retention duration. *)
Definition too_old (o : Options) (l : list Block) (i : nat) : Prop :=
  RetentionDuration o <> 0 /\ (0 < i)%nat /\
  exists b0 b, l !! 0%nat = Some b0 /\ l !! i = Some b /\ RetentionDuration o <= MaxTime (b_meta b0) - MaxTime (b_meta b).
(** The blocks up to index [i] and the head are larger than the limit. *)
Definition too_big (o : Options) (headSize : Z) (l : list Block) (i : nat) : Prop :=
  0 < MaxBytes o /\ (i < length l)%nat /\ MaxBytes o < headSize + total_size (take (S i) l).

(** No computation of the retention overflows. *)
Definition retention_small (headSize : Z) (blocks : list Block) : Prop :=
  List.Forall (fun b => small (MaxTime (b_meta b)) /\ 0 <= b_size b) blocks /\ 0 <= headSize /\ headSize + total_size blocks < 2 ^ 63.

(** What is deleted by a limit is a list from the first block that is beyond it. *)
Definition cut_at (P : nat -> Prop) (l : list Block) (ids : list Z) (n : nat) : Prop :=
  ids = b_ids (drop n l) /\ (forall i, (i < n)%nat -> ~ P i) /\ ((n < length l)%nat -> P n).

Lemma time_loop_cut r newest l : (forall b, In b l -> is_i64 (newest - MaxTime (b_meta b))) ->
  cut_at (fun i => exists b, l !! i = Some b /\ r <= newest - MaxTime (b_meta b)) l (time_loop r newest l)
    (length l - length (time_loop r newest l)).
Proof.
  intros Hs. induction l as [|b l IH]; [split; [reflexivity|]; split; cbn; lia|]. cbn [time_loop].
  rewrite i64_id by (apply Hs; left; reflexivity). destruct (Z.leb_spec r (newest - MaxTime (b_meta b))) as [Hle|Hgt].
  - rewrite length_map. replace (length (b :: l) - length (b :: l))%nat with 0%nat by lia. split; [reflexivity|]. split; [lia|].
    intros _. exists b. auto.
  - destruct IH as (E & H1 & H2); [intros x Hx; apply Hs; right; exact Hx|]. set (t := time_loop r newest l) in *.
    assert (Hlt : (length t <= length l)%nat) by (rewrite E at 1; unfold b_ids; rewrite length_map, length_drop; lia).
    replace (length (b :: l) - length t)%nat with (S (length l - length t)) by (cbn; lia). split; [exact E|]. split.
    + intros [|i] Hi (x & Hx & Hr); [injection Hx as <-; lia|]. apply (H1 i ltac:(lia)). exists x. auto.
    + intros Hn. cbn in Hn. apply H2. lia.
Qed.

Lemma total_size_nonneg l : List.Forall (fun b => 0 <= b_size b) l -> 0 <= total_size l.
Proof. induction 1 as [|b l Hb _ IH]; cbn; [lia|]. cbn in Hb. unfold total_size in IH. lia. Qed.

Lemma size_loop_cut mx l : forall sz, List.Forall (fun b => 0 <= b_size b) l -> 0 <= sz -> sz + total_size l < 2 ^ 63 ->
  cut_at (fun i => (i < length l)%nat /\ mx < sz + total_size (take (S i) l)) l (size_loop mx sz l) (length l - length (size_loop mx sz l)).
Proof.
  induction l as [|b l IH]; intros sz Hs Hsz Hlim; [split; [reflexivity|]; split; cbn; lia|]. pose proof (List.Forall_inv Hs) as Hb.
  apply List.Forall_inv_tail in Hs. pose proof (total_size_nonneg l Hs). cbn [size_loop]. cbn [total_size foldr] in Hlim. fold (total_size l) in Hlim.
  cbn beta in Hb. rewrite i64_id by (unfold is_i64; lia). destruct (Z.ltb_spec mx (sz + b_size b)) as [Hlt|Hge].
  - rewrite length_map. replace (length (b :: l) - length (b :: l))%nat with 0%nat by lia. split; [reflexivity|]. split; [lia|].
    intros _. cbn. rewrite Z.add_0_r. split; [lia|exact Hlt].
  - destruct (IH (sz + b_size b) Hs) as (E & H1 & H2); [lia|lia|]. set (t := size_loop mx (sz + b_size b) l) in *.
    assert (Hlt : (length t <= length l)%nat) by (rewrite E at 1; unfold b_ids; rewrite length_map, length_drop; lia).
    replace (length (b :: l) - length t)%nat with (S (length l - length t)) by (cbn; lia). split; [exact E|]. split.
    + intros [|i] Hi [_ Hr]; [change (mx < sz + (b_size b + 0)) in Hr; lia|]. apply (H1 i ltac:(lia)). change (mx < sz + (b_size b + total_size (take (S i) l))) in Hr.
      split; lia.
    + intros Hn. cbn in Hn. destruct (H2 ltac:(lia)) as [H3 H4]. cbn [length take total_size foldr]. fold (total_size (take (S (length l - length t)) l)).
      split; lia.
Qed.

Lemma time_cut o l : List.Forall (fun b => small (MaxTime (b_meta b))) l -> exists n, cut_at (too_old o l) l (BeyondTimeRetention o l) n.
Proof.
  intros Hs. unfold BeyondTimeRetention. destruct l as [|b0 l]; [exists 0%nat; split; [reflexivity|]; split; cbn; lia|].
  destruct (Z.eqb_spec (RetentionDuration o) 0) as [Hz|Hnz].
  - exists (length (b0 :: l)). split; [unfold b_ids; rewrite drop_all; reflexivity|]. split; [intros i _ [Hn _]; contradiction|lia].
  - pose proof (List.Forall_inv Hs) as H0. apply List.Forall_inv_tail in Hs. cbn beta in H0.
    destruct (time_loop_cut (RetentionDuration o) (MaxTime (b_meta b0)) l) as (E & H1 & H2).
    { intros b Hb. pose proof (proj1 (List.Forall_forall _ _) Hs b Hb) as Hm. unfold small, is_i64 in *. lia. }
    eexists (S _). split; [exact E|]. split.
    + intros [|i] Hi (_ & Hpos & b & x & Hb & Hx & Hr); [lia|]. injection Hb as <-. apply (H1 i ltac:(lia)). exists x. auto.
    + intros Hn. destruct H2 as (x & Hx & Hr); [cbn in Hn; lia|]. split; [exact Hnz|]. split; [lia|]. exists b0, x. auto.
Qed.

Lemma size_cut o headSize l : List.Forall (fun b => 0 <= b_size b) l -> 0 <= headSize -> headSize + total_size l < 2 ^ 63 ->
  exists n, cut_at (too_big o headSize l) l (BeyondSizeRetention o headSize l) n.
Proof.
  intros Hs Hh Hlim. unfold BeyondSizeRetention. destruct (Z.leb_spec (MaxBytes o) 0) as [Hoff|Hon].
  - exists (length l). split; [unfold b_ids; rewrite drop_all; reflexivity|]. split; [intros i _ [Hn _]; lia|lia].
  - destruct (size_loop_cut (MaxBytes o) l headSize Hs Hh Hlim) as (E & H1 & H2). eexists. split; [exact E|]. split.
    + intros i Hi [_ H]. exact (H1 i Hi H).
    + intros Hn. split; [exact Hon|]. exact (H2 Hn).
Qed.

Lemma drop_either {A} (x : A) n m l : In x (drop n l) \/ In x (drop m l) <-> In x (drop (n `min` m) l).
Proof.
  assert (Hmono : forall a b, (a <= b)%nat -> In x (drop b l) -> In x (drop a l)).
  { intros a b Hab. replace b with (a + (b - a))%nat by lia. rewrite <- drop_drop. intros H. rewrite <- (take_drop (b - a) (drop a l)).
    apply in_app_iff. right. exact H. }
  split; [intros [H|H]; (eapply Hmono; [|exact H]); lia|]. destruct (Nat.min_spec n m) as [[_ ->]|[_ ->]]; auto.
Qed.

Lemma total_size_perm l l' : l ≡ₚ l' -> total_size l = total_size l'.
Proof. unfold total_size. induction 1; cbn; lia. Qed.

(** C32: Besides the blocks flagged as deletable, retention deletes, of the blocks
    from the newest, exactly those from the first one on that is too old for
    the retention duration or with which the size exceeds the limit. *)
Theorem retention_cuts_oldest o headSize blocks : retention_small headSize blocks ->
  let l := newest_first blocks in
  exists n, (forall id, id ∈ deletableBlocks o headSize blocks <->
      (exists b, In b blocks /\ Deletable (Compaction (b_meta b)) = true /\ ULID (b_meta b) = id) \/ In id (b_ids (drop n l))) /\
    (forall i, (i < n)%nat -> ~ too_old o l i /\ ~ too_big o headSize l i) /\
    ((n < length l)%nat -> too_old o l n \/ too_big o headSize l n).
Proof.
  intros (Hall & Hh & Hlim) l. assert (Hp : l ≡ₚ blocks) by apply sort_perm. assert (Hall' := Hall). rewrite <- Hp in Hall'.
  destruct (time_cut o l) as (n1 & E1 & Hb1 & Ha1); [eapply List.Forall_impl; [|exact Hall']; cbn; tauto|].
  destruct (size_cut o headSize l) as (n2 & E2 & Hb2 & Ha2); [eapply List.Forall_impl; [|exact Hall']; cbn; tauto|exact Hh|rewrite (total_size_perm _ _ Hp); exact Hlim|].
  exists (n1 `min` n2)%nat. split; [|split].
  - intros id. unfold deletableBlocks. fold (newest_first blocks). fold l. rewrite E1, E2, !elem_of_union, !elem_of_list_to_set, !list_elem_of_In.
    unfold b_ids. rewrite <- !skipn_map. rewrite <- (drop_either id n1 n2). set (B := In id (drop n1 _)). set (C := In id (drop n2 _)).
    enough (Hf : In id (map (fun b => ULID (b_meta b)) (List.filter (fun b => Deletable (Compaction (b_meta b))) l)) <->
      exists b, In b blocks /\ Deletable (Compaction (b_meta b)) = true /\ ULID (b_meta b) = id) by tauto.
    rewrite in_map_iff. split.
    + intros (b & E & Hb). apply filter_In in Hb as [Hb Hd]. exists b. rewrite <- Hp. auto.
    + intros (b & Hb & Hd & E). exists b. split; [exact E|]. apply filter_In. rewrite Hp. auto.
  - intros i Hi. split; [apply Hb1|apply Hb2]; lia.
  - intros Hn. destruct (Nat.min_spec n1 n2) as [[_ E]|[_ E]]; rewrite E in *; auto.
Qed.
End retention_proofs.

(** ** A concrete run *)
Section demo.

#[local] Instance key_le_dec {A} (key : A -> Z) : RelDecision (fun a b => key a <= key b).
Proof. intros a b. apply Z_le_dec. Defined.

#[local] Instance merge_sort_by : GoSort := {| sort_by A key := merge_sort (fun a b => key a <= key b) |}.

#[local, refine] Instance merge_sort_by_ok : GoSortOK merge_sort_by := {| sort_perm A key l := _ |}.
Proof.
  - apply merge_sort_Permutation.
  - intros A key l. apply StronglySorted_merge_sort; [intros a b c; lia|intros a b; lia].
Qed.

(** Merges have one sample, but for those with the block 9, which cannot be read. *)
#[local] Instance demo_writer : BlockWriter := {|
  write m bs := if existsb (fun b => ULID (b_meta b) =? 9) bs then WriteFailed false else Written (mkStats 1 1 1 0) 1;
  dir_of id := [id] |}.

#[local, refine] Instance demo_writer_ok : BlockWriterOK demo_writer := {| dir_of_inj := _ |}.
Proof.
  - intros a b [= ->]. reflexivity.
  - intros m bs stats size. cbn. destruct (existsb _ bs); [discriminate|]. intros [= <- _]. reflexivity.
Qed.

Definition demo_block (id mint maxt tombstones : Z) : Block :=
  mkBlock (mkMeta id mint maxt (mkStats 100 10 10 tombstones) (mkCompaction 1 [id] false [] false)) 1000.

(** Two blocks overlap, three of ten fill a range of thirty, one has tombstones. *)
Definition demo_blocks : list Block :=
  [demo_block 1 0 10 0; demo_block 2 10 20 0; demo_block 3 20 30 0; demo_block 4 35 60 0; demo_block 5 30 60 0; demo_block 6 60 90 5; demo_block 7 90 100 0].
Definition demo_compactor : LeveledCompactor := mkCompactor [10; 30] true.
Definition demo_options : Options := mkOptions 0 0.

Example demo_run : match compactBlocks 20 demo_compactor demo_options 0 8 demo_blocks with
  | Ret (Settled out) => map (fun b => (ULID (b_meta b), MinTime (b_meta b), MaxTime (b_meta b), Sources (Compaction (b_meta b)))) out
  | _ => []
  end = [(9, 0, 30, [1; 2; 3]); (8, 30, 60, [4; 5]); (10, 60, 90, [6]); (7, 90, 100, [7])].
Proof. vm_compute. reflexivity. Qed.

(** A failed merge ends the loop and flags its blocks. *)
Example demo_failure : match compactBlocks 20 demo_compactor demo_options 0 20 [demo_block 9 0 10 0; demo_block 8 10 30 0; demo_block 7 90 100 0] with
  | Ret (Stopped out) => map (fun b => (ULID (b_meta b), Failed (Compaction (b_meta b)))) out
  | _ => []
  end = [(9, true); (8, true); (7, false)].
Proof. vm_compute. reflexivity. Qed.

Example compact_blocks_ends_witness : exists out,
  (compactBlocks 20 demo_compactor demo_options 0 8 demo_blocks = Ret (Settled out) /\ Plan demo_compactor (map dir_meta out) = Ret []) \/
  (compactBlocks 20 demo_compactor demo_options 0 8 demo_blocks = Ret (Stopped out) /\ exists G, write_fails G).
Proof.
  apply compact_blocks_ends; [discriminate|repeat constructor; discriminate| |vm_compute; repeat constructor].
  split; [apply (bool_decide_unpack _); vm_compute; exact I|repeat constructor; vm_compute; reflexivity].
Defined.

Example compact_blocks_keeps_data_witness :
  exists e, compactBlocks 20 demo_compactor demo_options 0 8 demo_blocks = Ret e /\
    forall src, has_source (left_by e) src <-> has_source demo_blocks src.
Proof.
  destruct (compactBlocks 20 demo_compactor demo_options 0 8 demo_blocks) as [e|] eqn:E; [|vm_compute in E; discriminate E].
  exists e. split; [reflexivity|].
  refine (proj2 (proj2 (compact_blocks_keeps_data demo_compactor demo_options 0 8 demo_blocks 20 e _ _ _ _ _ E)) _ _ _ _).
  - discriminate.
  - repeat constructor; discriminate.
  - split; [apply (bool_decide_unpack _); vm_compute; exact I|repeat constructor; vm_compute; reflexivity].
  - repeat constructor; vm_compute; reflexivity.
  - vm_compute. repeat constructor.
  - reflexivity.
  - vm_compute. discriminate.
  - intros b Hb. cbn in Hb. repeat (destruct Hb as [<-|Hb]; [split; [reflexivity|intros id []]|]). destruct Hb.
  - intros G (m & stats & size & Ew & Hz). cbn in Ew. destruct (existsb _ G); [discriminate|]. injection Ew as <- _. discriminate Hz.
Defined.

(** Also before 1970: a block from [-25] to [-15] begins in the range from [-30]. *)
Definition demo_dirs : list dirMeta := map dir_meta [demo_block 1 (-25) (-15) 0; demo_block 2 (-10) 0 0; demo_block 3 0 10 0; demo_block 4 20 30 0; demo_block 5 25 35 0].
Example split_by_range_aligned_witness : exists parts, splitByRange demo_dirs 30 = Ret parts /\
  forall d, In d demo_dirs -> MaxTime (meta d) <= (MinTime (meta d) / 30 + 1) * 30 -> exists g, In g parts /\ In d g.
Proof.
  destruct (split_by_range_aligned 30 demo_dirs) as (parts & E & _ & H).
  - lia.
  - repeat constructor; vm_compute; discriminate.
  - repeat constructor; vm_compute; discriminate.
  - exists parts. split; [exact E|exact H].
Defined.

(** The limit of 2500 bytes holds the two newest blocks. *)
Example retention_cuts_oldest_witness : exists n,
  (forall i, (i < n)%nat -> ~ too_big (mkOptions 1000 2500) 0 (newest_first demo_blocks) i).
Proof.
  destruct (retention_cuts_oldest (mkOptions 1000 2500) 0 demo_blocks) as (n & _ & H & _).
  - split; [|split; vm_compute; congruence]. repeat constructor; vm_compute; discriminate.
  - exists n. intros i Hi. exact (proj2 (H i Hi)).
Defined.
End demo.
