(* ===== verification/Promql.v ===== *)
(** * The expression language: [promql/parser]

    The syntax tree of [ast.go], the types of expressions, the table of functions
    of [functions.go] and the checker [checkAST] of [parse.go], which the parser
    runs once on the tree it has built when there was no syntax error.  Positions
    in the input, which only errors report, are left out, and so are duration
    expressions: the durations of a tree are the values they have.  The generated
    parser is not modelled; [parsed] says what the checker relies on of it. *)

From stdpp Require Import base list numbers gmap strings.
From Stdlib Require Import ZArith Lia.
From S2P Require Import Prelude.

#[local] Open Scope Z_scope.

(** ** Values and functions *)
Inductive ValueType := ValueTypeNone | ValueTypeVector | ValueTypeScalar | ValueTypeMatrix | ValueTypeString.

#[export] Instance ValueType_eq_dec : EqDecision ValueType.
Proof. solve_decision. Defined.

Record PromFunction := mkFunction { f_Name : string; ArgTypes : list ValueType; Variadic : Z; ReturnType : ValueType; Experimental : bool }.

Definition function_table : list (string * PromFunction) := [
  ("abs", mkFunction "abs" [ValueTypeVector] 0 ValueTypeVector false);
  ("absent", mkFunction "absent" [ValueTypeVector] 0 ValueTypeVector false);
  ("absent_over_time", mkFunction "absent_over_time" [ValueTypeMatrix] 0 ValueTypeVector false);
  ("acos", mkFunction "acos" [ValueTypeVector] 0 ValueTypeVector false);
  ("acosh", mkFunction "acosh" [ValueTypeVector] 0 ValueTypeVector false);
  ("asin", mkFunction "asin" [ValueTypeVector] 0 ValueTypeVector false);
  ("asinh", mkFunction "asinh" [ValueTypeVector] 0 ValueTypeVector false);
  ("atan", mkFunction "atan" [ValueTypeVector] 0 ValueTypeVector false);
  ("atanh", mkFunction "atanh" [ValueTypeVector] 0 ValueTypeVector false);
  ("avg_over_time", mkFunction "avg_over_time" [ValueTypeMatrix] 0 ValueTypeVector false);
  ("ceil", mkFunction "ceil" [ValueTypeVector] 0 ValueTypeVector false);
  ("changes", mkFunction "changes" [ValueTypeMatrix] 0 ValueTypeVector false);
  ("clamp", mkFunction "clamp" [ValueTypeVector; ValueTypeScalar; ValueTypeScalar] 0 ValueTypeVector false);
  ("clamp_max", mkFunction "clamp_max" [ValueTypeVector; ValueTypeScalar] 0 ValueTypeVector false);
  ("clamp_min", mkFunction "clamp_min" [ValueTypeVector; ValueTypeScalar] 0 ValueTypeVector false);
  ("cos", mkFunction "cos" [ValueTypeVector] 0 ValueTypeVector false);
  ("cosh", mkFunction "cosh" [ValueTypeVector] 0 ValueTypeVector false);
  ("count_over_time", mkFunction "count_over_time" [ValueTypeMatrix] 0 ValueTypeVector false);
  ("days_in_month", mkFunction "days_in_month" [ValueTypeVector] 1 ValueTypeVector false);
  ("day_of_month", mkFunction "day_of_month" [ValueTypeVector] 1 ValueTypeVector false);
  ("day_of_week", mkFunction "day_of_week" [ValueTypeVector] 1 ValueTypeVector false);
  ("day_of_year", mkFunction "day_of_year" [ValueTypeVector] 1 ValueTypeVector false);
  ("deg", mkFunction "deg" [ValueTypeVector] 0 ValueTypeVector false);
  ("delta", mkFunction "delta" [ValueTypeMatrix] 0 ValueTypeVector false);
  ("deriv", mkFunction "deriv" [ValueTypeMatrix] 0 ValueTypeVector false);
  ("exp", mkFunction "exp" [ValueTypeVector] 0 ValueTypeVector false);
  ("floor", mkFunction "floor" [ValueTypeVector] 0 ValueTypeVector false);
  ("histogram_avg", mkFunction "histogram_avg" [ValueTypeVector] 0 ValueTypeVector false);
  ("histogram_count", mkFunction "histogram_count" [ValueTypeVector] 0 ValueTypeVector false);
  ("histogram_sum", mkFunction "histogram_sum" [ValueTypeVector] 0 ValueTypeVector false);
  ("histogram_stddev", mkFunction "histogram_stddev" [ValueTypeVector] 0 ValueTypeVector false);
  ("histogram_stdvar", mkFunction "histogram_stdvar" [ValueTypeVector] 0 ValueTypeVector false);
  ("histogram_fraction", mkFunction "histogram_fraction" [ValueTypeScalar; ValueTypeScalar; ValueTypeVector] 0 ValueTypeVector false);
  ("histogram_quantile", mkFunction "histogram_quantile" [ValueTypeScalar; ValueTypeVector] 0 ValueTypeVector false);
  ("double_exponential_smoothing", mkFunction "double_exponential_smoothing" [ValueTypeMatrix; ValueTypeScalar; ValueTypeScalar] 0 ValueTypeVector true);
  ("hour", mkFunction "hour" [ValueTypeVector] 1 ValueTypeVector false);
  ("idelta", mkFunction "idelta" [ValueTypeMatrix] 0 ValueTypeVector false);
  ("increase", mkFunction "increase" [ValueTypeMatrix] 0 ValueTypeVector false);
  ("info", mkFunction "info" [ValueTypeVector; ValueTypeVector] 1 ValueTypeVector true);
  ("irate", mkFunction "irate" [ValueTypeMatrix] 0 ValueTypeVector false);
  ("label_replace", mkFunction "label_replace" [ValueTypeVector; ValueTypeString; ValueTypeString; ValueTypeString; ValueTypeString] 0 ValueTypeVector false);
  ("label_join", mkFunction "label_join" [ValueTypeVector; ValueTypeString; ValueTypeString; ValueTypeString] (-1) ValueTypeVector false);
  ("last_over_time", mkFunction "last_over_time" [ValueTypeMatrix] 0 ValueTypeVector false);
  ("ln", mkFunction "ln" [ValueTypeVector] 0 ValueTypeVector false);
  ("log10", mkFunction "log10" [ValueTypeVector] 0 ValueTypeVector false);
  ("log2", mkFunction "log2" [ValueTypeVector] 0 ValueTypeVector false);
  ("mad_over_time", mkFunction "mad_over_time" [ValueTypeMatrix] 0 ValueTypeVector true);
  ("max_over_time", mkFunction "max_over_time" [ValueTypeMatrix] 0 ValueTypeVector false);
  ("min_over_time", mkFunction "min_over_time" [ValueTypeMatrix] 0 ValueTypeVector false);
  ("minute", mkFunction "minute" [ValueTypeVector] 1 ValueTypeVector false);
  ("month", mkFunction "month" [ValueTypeVector] 1 ValueTypeVector false);
  ("pi", mkFunction "pi" [] 0 ValueTypeScalar false);
  ("predict_linear", mkFunction "predict_linear" [ValueTypeMatrix; ValueTypeScalar] 0 ValueTypeVector false);
  ("present_over_time", mkFunction "present_over_time" [ValueTypeMatrix] 0 ValueTypeVector false);
  ("quantile_over_time", mkFunction "quantile_over_time" [ValueTypeScalar; ValueTypeMatrix] 0 ValueTypeVector false);
  ("rad", mkFunction "rad" [ValueTypeVector] 0 ValueTypeVector false);
  ("rate", mkFunction "rate" [ValueTypeMatrix] 0 ValueTypeVector false);
  ("resets", mkFunction "resets" [ValueTypeMatrix] 0 ValueTypeVector false);
  ("round", mkFunction "round" [ValueTypeVector; ValueTypeScalar] 1 ValueTypeVector false);
  ("scalar", mkFunction "scalar" [ValueTypeVector] 0 ValueTypeScalar false);
  ("sgn", mkFunction "sgn" [ValueTypeVector] 0 ValueTypeVector false);
  ("sin", mkFunction "sin" [ValueTypeVector] 0 ValueTypeVector false);
  ("sinh", mkFunction "sinh" [ValueTypeVector] 0 ValueTypeVector false);
  ("sort", mkFunction "sort" [ValueTypeVector] 0 ValueTypeVector false);
  ("sort_desc", mkFunction "sort_desc" [ValueTypeVector] 0 ValueTypeVector false);
  ("sort_by_label", mkFunction "sort_by_label" [ValueTypeVector; ValueTypeString] (-1) ValueTypeVector true);
  ("sort_by_label_desc", mkFunction "sort_by_label_desc" [ValueTypeVector; ValueTypeString] (-1) ValueTypeVector true);
  ("sqrt", mkFunction "sqrt" [ValueTypeVector] 0 ValueTypeVector false);
  ("stddev_over_time", mkFunction "stddev_over_time" [ValueTypeMatrix] 0 ValueTypeVector false);
  ("stdvar_over_time", mkFunction "stdvar_over_time" [ValueTypeMatrix] 0 ValueTypeVector false);
  ("sum_over_time", mkFunction "sum_over_time" [ValueTypeMatrix] 0 ValueTypeVector false);
  ("tan", mkFunction "tan" [ValueTypeVector] 0 ValueTypeVector false);
  ("tanh", mkFunction "tanh" [ValueTypeVector] 0 ValueTypeVector false);
  ("time", mkFunction "time" [] 0 ValueTypeScalar false);
  ("timestamp", mkFunction "timestamp" [ValueTypeVector] 0 ValueTypeVector false);
  ("vector", mkFunction "vector" [ValueTypeScalar] 0 ValueTypeVector false);
  ("year", mkFunction "year" [ValueTypeVector] 1 ValueTypeVector false)]%string.
Definition Functions : gmap string PromFunction := list_to_map function_table.
Definition getFunction (name : string) : option PromFunction := Functions !! name.

(** ** Items: operators and aggregators *)
Definition operatorsStart := 57382.
Definition operatorsEnd := 57402.
Definition MOD := 57394.
Definition MUL := 57395.
Definition POW := 57398.
Definition ATAN2 := 57401.
Definition ADD := 57383.
Definition DIV := 57384.
Definition EQLC := 57385.
Definition GTE := 57387.
Definition GTR := 57388.
Definition LAND := 57389.
Definition LOR := 57390.
Definition LSS := 57391.
Definition LTE := 57392.
Definition LUNLESS := 57393.
Definition NEQ := 57396.
Definition SUB := 57399.
Definition aggregatorsStart := 57403.
Definition aggregatorsEnd := 57418.
Definition BOTTOMK := 57405.
Definition COUNT_VALUES := 57407.
Definition QUANTILE := 57411.
Definition SUM := 57414.
Definition TOPK := 57415.
Definition LIMITK := 57416.
Definition LIMIT_RATIO := 57417.
Definition START := 57430.
Definition END := 57431.

Definition IsOperator (i : Z) : bool := (operatorsStart <? i) && (i <? operatorsEnd).
Definition IsAggregator (i : Z) : bool := (aggregatorsStart <? i) && (i <? aggregatorsEnd).
Definition IsAggregatorWithParam (i : Z) : bool :=
  (i =? TOPK) || (i =? BOTTOMK) || (i =? COUNT_VALUES) || (i =? QUANTILE) || (i =? LIMITK) || (i =? LIMIT_RATIO).
Definition IsComparisonOperator (i : Z) : bool :=
  (i =? EQLC) || (i =? NEQ) || (i =? LTE) || (i =? LSS) || (i =? GTE) || (i =? GTR).
Definition IsSetOperator (i : Z) : bool := (i =? LAND) || (i =? LOR) || (i =? LUNLESS).

(** ** Label matchers *)
Inductive MatchType := MatchEqual | MatchNotEqual | MatchRegexp | MatchNotRegexp.
Record Matcher := mkMatcher { m_Type : MatchType; m_Name : string; m_Value : string }.
Definition MetricName : string := "__name__".

(** Whether a regular expression matches all of a string. *)
Class RegexLib := { MatchString : string -> string -> bool }.

Definition Matches `{RegexLib} (m : Matcher) (s : string) : bool :=
  match m_Type m with
  | MatchEqual => bool_decide (s = m_Value m)
  | MatchNotEqual => negb (bool_decide (s = m_Value m))
  | MatchRegexp => MatchString (m_Value m) s
  | MatchNotRegexp => negb (MatchString (m_Value m) s)
  end.

(** ** Syntax trees *)
Inductive VectorMatchCardinality := CardOneToOne | CardManyToOne | CardOneToMany | CardManyToMany.
#[export] Instance Card_eq_dec : EqDecision VectorMatchCardinality.
Proof. solve_decision. Defined.

Record VectorMatching := mkMatching { Card : VectorMatchCardinality; MatchingLabels : list string; On : bool; Include : list string }.

Record VectorSelector := mkVS {
  vs_Name : string; vs_OriginalOffset : Z; vs_Offset : Z; vs_Timestamp : option Z; SkipHistogramBuckets : bool;
  vs_StartOrEnd : Z; LabelMatchers : list Matcher; BypassEmptyMatcherCheck : bool }.
Record SubqueryMods := mkSubquery {
  sq_Range : Z; sq_OriginalOffset : Z; sq_Offset : Z; sq_Timestamp : option Z; sq_StartOrEnd : Z; sq_Step : Z }.

(** An absent [Param] is a nil pointer, an absent matching one too. *)
Inductive expr :=
| AggregateExpr (op : Z) (e : expr) (param : option expr) (grouping : list string) (without : bool)
| BinaryExpr (op : Z) (lhs rhs : expr) (vm : option VectorMatching) (returnBool : bool)
| Call (func : PromFunction) (args : list expr)
| MatrixSelector (vs : expr) (range : Z)
| SubqueryExpr (e : expr) (mods : SubqueryMods)
| NumberLiteral (val : float64)
| ParenExpr (e : expr)
| StringLiteral (val : string)
| UnaryExpr (op : Z) (e : expr)
| StepInvariantExpr (e : expr)
| VectorSel (vs : VectorSelector).

Section expr_induction.
Variable P : expr -> Prop.
Hypothesis H_agg : forall op e param grouping without, P e -> (forall p, param = Some p -> P p) -> P (AggregateExpr op e param grouping without).
Hypothesis H_bin : forall op lhs rhs vm rb, P lhs -> P rhs -> P (BinaryExpr op lhs rhs vm rb).
Hypothesis H_call : forall func args, List.Forall P args -> P (Call func args).
Hypothesis H_mat : forall vs range, P vs -> P (MatrixSelector vs range).
Hypothesis H_sub : forall e mods, P e -> P (SubqueryExpr e mods).
Hypothesis H_num : forall v, P (NumberLiteral v).
Hypothesis H_paren : forall e, P e -> P (ParenExpr e).
Hypothesis H_str : forall s, P (StringLiteral s).
Hypothesis H_unary : forall op e, P e -> P (UnaryExpr op e).
Hypothesis H_step : forall e, P e -> P (StepInvariantExpr e).
Hypothesis H_vec : forall vs, P (VectorSel vs).

Fixpoint expr_nested_ind (e : expr) : P e.
Proof.
  destruct e as [op e param g w|op l r vm rb|f args|vs range|e mods|v|e|s|op e|e|vs].
  - apply H_agg; [apply expr_nested_ind|]. destruct param as [p|]; [intros ? [= <-]; apply expr_nested_ind|discriminate].
  - apply H_bin; apply expr_nested_ind.
  - apply H_call. induction args as [|a args IH]; constructor; [apply expr_nested_ind|exact IH].
  - apply H_mat, expr_nested_ind.
  - apply H_sub, expr_nested_ind.
  - apply H_num.
  - apply H_paren, expr_nested_ind.
  - apply H_str.
  - apply H_unary, expr_nested_ind.
  - apply H_step, expr_nested_ind.
  - apply H_vec.
Defined.
End expr_induction.

(** The method [Type] of expressions. *)
Fixpoint Type_ (e : expr) : ValueType :=
  match e with
  | AggregateExpr _ _ _ _ _ => ValueTypeVector
  | Call f _ => ReturnType f
  | MatrixSelector _ _ => ValueTypeMatrix
  | SubqueryExpr _ _ => ValueTypeMatrix
  | NumberLiteral _ => ValueTypeScalar
  | ParenExpr e => Type_ e
  | StringLiteral _ => ValueTypeString
  | UnaryExpr _ e => Type_ e
  | VectorSel _ => ValueTypeVector
  | BinaryExpr _ l r _ _ =>
      if bool_decide (Type_ l = ValueTypeScalar) && bool_decide (Type_ r = ValueTypeScalar) then ValueTypeScalar else ValueTypeVector
  | StepInvariantExpr e => Type_ e
  end.

(** ** Checking *)
Inductive check_error :=
| AggregatorExpected (op : Z)
| ExpectedType (want got : ValueType)
| BoolNotComparison
| BoolNeeded
| LabelTwice (l : string)
| NoOperator (op : Z)
| OperandType
| MatchingNeedsVectors
| NoGrouping (op : Z)
| SetManyToMany
| SetOnScalar (op : Z)
| ArgumentCount (want got : Z)
| AtLeast (want got : Z)
| AtMost (want got : Z)
| SelectorsOnly
| UnaryOperator (op : Z)
| UnaryType (t : ValueType)
| SubqueryType (t : ValueType)
| NameTwice (n : string)
| NoNonEmptyMatcher
| UnknownNode.

(** A check may panic, and appends errors to those of the parser. *)
Definition check (A : Type) : Type := outcome (A * list check_error).
Definition check_ret {A} (a : A) : check A := Ret (a, []).
Definition check_bind {A B} (m : check A) (k : A -> check B) : check B :=
  match m with
  | Ret (a, errs) => match k a with Ret (b, errs') => Ret (b, errs ++ errs') | Panic => Panic end
  | Panic => Panic
  end.
(** Adds an error under a condition. *)
Definition report (b : bool) (err : check_error) : check unit := Ret (tt, if b then [err] else []).
Definition reports (errs : list check_error) : check unit := Ret (tt, errs).
Definition check_panic {A} : check A := Panic.

#[local] Notation "x <~ m ;; k" := (check_bind m (fun x => k))
  (at level 100, m at next level, k at level 200, right associativity).
#[local] Notation "m ;~ k" := (check_bind m (fun _ => k)) (at level 100, k at level 200, right associativity).

Section checker.
Context {RL : RegexLib}.
(** The recursive call, which returns the type and the tree with its changes; the
    flag says that the field [BypassEmptyMatcherCheck] of the node has been set. *)
Variable checkAST : bool -> expr -> check (ValueType * expr).

Definition expectType (bypass : bool) (node : expr) (want : ValueType) : check expr :=
  r <~ checkAST bypass node ;;
  report (negb (bool_decide (fst r = want))) (ExpectedType want (fst r)) ;~
  check_ret (snd r).

(** [expectType] of the field [Param]: a nil node has no position to report. *)
Definition expectParam (param : option expr) (want : ValueType) : check (option expr) :=
  match param with
  | Some p => p <~ expectType false p want ;; check_ret (Some p)
  | None => check_panic
  end.

(** The loop over the arguments of a call, from index [i]; in a call of [info]
    the second one bypasses the check for an empty matcher. *)
Fixpoint check_args (info : bool) (f : PromFunction) (i : nat) (args : list expr) : check (list expr) :=
  match args with
  | [] => check_ret []
  | arg :: args' =>
      if (length (ArgTypes f) <=? i)%nat && (Variadic f =? 0) then check_ret args
      else
        let i' := if (length (ArgTypes f) <=? i)%nat then (length (ArgTypes f) - 1)%nat else i in
        match ArgTypes f !! i' with
        | None => check_panic
        | Some want =>
            arg <~ expectType (info && (i =? 1)%nat) arg want ;;
            rest <~ check_args info f (S i) args' ;;
            check_ret (arg :: rest)
        end
  end.

Definition check_count (f : PromFunction) (args : list expr) : check unit :=
  let nargs := Z.of_nat (length (ArgTypes f)) in
  let n := Z.of_nat (length args) in
  if Variadic f =? 0 then report (negb (nargs =? n)) (ArgumentCount nargs n)
  else
    let na := nargs - 1 in
    if n <? na then reports [AtLeast na n]
    else report ((0 <? Variadic f) && (na + Variadic f <? n)) (AtMost (na + Variadic f) n).

Definition is_info (f : PromFunction) (args : list expr) : bool :=
  bool_decide (f_Name f = "info"%string) && (1 <? length args)%nat.

(** The second argument of [info] is asserted to be a selector. *)
Definition check_info (args : list expr) : check unit :=
  match args with
  | _ :: a1 :: _ =>
      report (negb (bool_decide (Type_ a1 = ValueTypeVector))) (ExpectedType ValueTypeVector (Type_ a1)) ;~
      match a1 with
      | VectorSel vs => report (negb (bool_decide (vs_Name vs = ""%string))) SelectorsOnly
      | _ => check_panic
      end
  | _ => check_ret tt
  end.

Definition set_bypass (vs : VectorSelector) : VectorSelector :=
  mkVS (vs_Name vs) (vs_OriginalOffset vs) (vs_Offset vs) (vs_Timestamp vs) (SkipHistogramBuckets vs) (vs_StartOrEnd vs) (LabelMatchers vs) true.

Definition label_clashes (vm : VectorMatching) : list check_error :=
  flat_map (fun l1 => flat_map (fun l2 => if bool_decide (l1 = l2) && On vm then [LabelTwice l1] else []) (Include vm)) (MatchingLabels vm).

Definition set_card (c : VectorMatchCardinality) (vm : VectorMatching) : VectorMatching :=
  mkMatching c (MatchingLabels vm) (On vm) (Include vm).

(** What is checked of a binary operation of operands of types [lt] and [rt]. *)
Definition check_matching (op : Z) (lt rt : ValueType) (vm : option VectorMatching) : check (option VectorMatching) :=
  match vm with
  | None => check_panic
  | Some vm =>
      let vm := if IsSetOperator op && bool_decide (Card vm = CardOneToOne) then set_card CardManyToMany vm else vm in
      reports (label_clashes vm) ;~
      report (negb (IsOperator op)) (NoOperator op) ;~
      report (negb (bool_decide (lt = ValueTypeScalar)) && negb (bool_decide (lt = ValueTypeVector))) OperandType ;~
      report (negb (bool_decide (rt = ValueTypeScalar)) && negb (bool_decide (rt = ValueTypeVector))) OperandType ;~
      vm <~ (if negb (bool_decide (lt = ValueTypeVector)) || negb (bool_decide (rt = ValueTypeVector)) then
               report (negb (length (MatchingLabels vm) =? 0)%nat) MatchingNeedsVectors ;~ check_ret None
             else if IsSetOperator op then
               report (bool_decide (Card vm = CardOneToMany) || bool_decide (Card vm = CardManyToOne)) (NoGrouping op) ;~
               report (negb (bool_decide (Card vm = CardManyToMany))) SetManyToMany ;~ check_ret (Some vm)
             else check_ret (Some vm)) ;;
      report ((bool_decide (lt = ValueTypeScalar) || bool_decide (rt = ValueTypeScalar)) && IsSetOperator op) (SetOnScalar op) ;~
      check_ret vm
  end.

Definition check_selector (vs : VectorSelector) : check unit :=
  if negb (bool_decide (vs_Name vs = ""%string)) then
    match LabelMatchers vs with
    | [] => check_panic
    | ms => reports (flat_map (fun m => if bool_decide (m_Name m = MetricName) then [NameTwice (m_Value m)] else []) (take (length ms - 1) ms))
    end
  else report (negb (BypassEmptyMatcherCheck vs) && negb (existsb (fun m => negb (Matches m "")) (LabelMatchers vs))) NoNonEmptyMatcher.
End checker.

Section check_ast.
Context {RL : RegexLib}.

Fixpoint checkAST (bypass : bool) (node : expr) : check (ValueType * expr) :=
  let typ := Type_ node in
  match node with
  | AggregateExpr op e param grouping without =>
      report (negb (IsAggregator op)) (AggregatorExpected op) ;~
      e <~ expectType checkAST false e ValueTypeVector ;;
      param <~ (if (op =? TOPK) || (op =? BOTTOMK) || (op =? QUANTILE) || (op =? LIMITK) || (op =? LIMIT_RATIO)
                then expectParam checkAST param ValueTypeScalar
                else if op =? COUNT_VALUES then expectParam checkAST param ValueTypeString else check_ret param) ;;
      check_ret (typ, AggregateExpr op e param grouping without)
  | BinaryExpr op lhs rhs vm returnBool =>
      l <~ checkAST false lhs ;;
      r <~ checkAST false rhs ;;
      report (returnBool && negb (IsComparisonOperator op)) BoolNotComparison ;~
      report (IsComparisonOperator op && negb returnBool && bool_decide (Type_ rhs = ValueTypeScalar)
              && bool_decide (Type_ lhs = ValueTypeScalar)) BoolNeeded ;~
      vm <~ check_matching op (fst l) (fst r) vm ;;
      check_ret (typ, BinaryExpr op (snd l) (snd r) vm returnBool)
  | Call f args =>
      check_count f args ;~
      (if is_info f args then check_info args else check_ret tt) ;~
      args <~ check_args checkAST (is_info f args) f 0 args ;;
      check_ret (typ, Call f args)
  | ParenExpr e => r <~ checkAST false e ;; check_ret (typ, ParenExpr (snd r))
  | UnaryExpr op e =>
      report (negb (op =? ADD) && negb (op =? SUB)) (UnaryOperator op) ;~
      r <~ checkAST false e ;;
      report (negb (bool_decide (fst r = ValueTypeScalar)) && negb (bool_decide (fst r = ValueTypeVector))) (UnaryType (fst r)) ;~
      check_ret (typ, UnaryExpr op (snd r))
  | SubqueryExpr e mods =>
      r <~ checkAST false e ;;
      report (negb (bool_decide (fst r = ValueTypeVector))) (SubqueryType (fst r)) ;~
      check_ret (typ, SubqueryExpr (snd r) mods)
  | MatrixSelector vs range => r <~ checkAST false vs ;; check_ret (typ, MatrixSelector (snd r) range)
  | VectorSel vs =>
      let vs := if bypass then set_bypass vs else vs in
      check_selector vs ;~ check_ret (typ, VectorSel vs)
  | NumberLiteral _ | StringLiteral _ => check_ret (typ, node)
  | StepInvariantExpr _ => reports [UnknownNode] ;~ check_ret (typ, node)
  end.
End check_ast.

(** ** Typing *)

(** The type that argument [i] of a call is to have; the last one repeats. *)
Definition arg_type (f : PromFunction) (i : nat) : option ValueType :=
  ArgTypes f !! (if (length (ArgTypes f) <=? i)%nat then (length (ArgTypes f) - 1)%nat else i).

(** A function of [Variadic] zero takes as many arguments as it has types, a
    positive one up to so many more than those but the last, a negative one any. *)
Definition arity_ok (f : PromFunction) (n : nat) : Prop :=
  let nargs := Z.of_nat (length (ArgTypes f)) in let n := Z.of_nat n in
  if Variadic f =? 0 then n = nargs else nargs - 1 <= n /\ (0 < Variadic f -> n <= nargs - 1 + Variadic f).

Definition operand (t : ValueType) : Prop := t = ValueTypeScalar \/ t = ValueTypeVector.
Definition param_type (op : Z) : ValueType := if op =? COUNT_VALUES then ValueTypeString else ValueTypeScalar.
Definition result_type (lt rt : ValueType) : ValueType :=
  if bool_decide (lt = ValueTypeScalar) && bool_decide (rt = ValueTypeScalar) then ValueTypeScalar else ValueTypeVector.

(** How the operands of an operation may be matched. *)
Definition matching_ok (op : Z) (lt rt : ValueType) (vm : VectorMatching) : Prop :=
  (On vm = true -> forall l, In l (MatchingLabels vm) -> ~ In l (Include vm)) /\
  (lt = ValueTypeVector /\ rt = ValueTypeVector \/ MatchingLabels vm = []) /\
  (lt = ValueTypeVector -> rt = ValueTypeVector -> IsSetOperator op = true -> Card vm = CardOneToOne \/ Card vm = CardManyToMany).

Section typing.
Context {RL : RegexLib}.

(** A selector without a name must have a matcher that the empty string does
    not match, unless it [bypass]es that; a name excludes matchers for the name. *)
Definition selector_ok (bypass : bool) (vs : VectorSelector) : Prop :=
  if bool_decide (vs_Name vs = ""%string)
  then bypass = true \/ BypassEmptyMatcherCheck vs = true \/ exists m, In m (LabelMatchers vs) /\ Matches m "" = false
  else forall m, In m (take (length (LabelMatchers vs) - 1) (LabelMatchers vs)) -> m_Name m <> MetricName.

(** The typing rules of the language. *)
Inductive has_type : bool -> expr -> ValueType -> Prop :=
| T_number b v : has_type b (NumberLiteral v) ValueTypeScalar
| T_string b s : has_type b (StringLiteral s) ValueTypeString
| T_selector b vs : selector_ok b vs -> has_type b (VectorSel vs) ValueTypeVector
| T_matrix b e range t : has_type false e t -> has_type b (MatrixSelector e range) ValueTypeMatrix
| T_subquery b e mods : has_type false e ValueTypeVector -> has_type b (SubqueryExpr e mods) ValueTypeMatrix
| T_paren b e t : has_type false e t -> has_type b (ParenExpr e) t
| T_unary b op e t : op = ADD \/ op = SUB -> has_type false e t -> operand t -> has_type b (UnaryExpr op e) t
| T_aggregate b op e param grouping without : IsAggregator op = true -> has_type false e ValueTypeVector ->
    (forall p, param = Some p -> IsAggregatorWithParam op = true -> has_type false p (param_type op)) ->
    has_type b (AggregateExpr op e param grouping without) ValueTypeVector
| T_binary b op l r vm rb lt rt : IsOperator op = true -> has_type false l lt -> has_type false r rt -> operand lt -> operand rt ->
    (rb = true -> IsComparisonOperator op = true) ->
    (IsComparisonOperator op = true -> lt = ValueTypeScalar -> rt = ValueTypeScalar -> rb = true) ->
    (IsSetOperator op = true -> lt = ValueTypeVector /\ rt = ValueTypeVector) -> matching_ok op lt rt vm ->
    has_type b (BinaryExpr op l r (Some vm) rb) (result_type lt rt)
| T_call b f args : arity_ok f (length args) ->
    (is_info f args = true -> exists vs, args !! 1%nat = Some (VectorSel vs) /\ vs_Name vs = ""%string) ->
    (forall i arg t, args !! i = Some arg -> arg_type f i = Some t -> has_type (is_info f args && (i =? 1)%nat) arg t) ->
    has_type b (Call f args) (ReturnType f).

Lemma has_type_Type b e t : has_type b e t -> t = Type_ e.
Proof. induction 1; cbn; subst; reflexivity || assumption. Qed.
End typing.

(** The operators that the grammar has for binary expressions. *)
Definition binary_operators : list Z :=
  [ADD; SUB; MUL; DIV; MOD; POW; ATAN2; EQLC; NEQ; GTR; LSS; GTE; LTE; LAND; LOR; LUNLESS].

(** What the parser builds when there is no syntax error. *)
Fixpoint parsed (e : expr) : bool :=
  match e with
  | AggregateExpr op e param _ _ => parsed e && match param with Some p => parsed p && IsAggregatorWithParam op | None => negb (IsAggregatorWithParam op) end
  | BinaryExpr op l r vm _ =>
      parsed l && parsed r && bool_decide (op ∈ binary_operators) && match vm with Some vm => negb (bool_decide (Card vm = CardManyToMany)) | None => false end
  | Call f args => negb (negb (Variadic f =? 0) && (length (ArgTypes f) =? 0)%nat) && forallb parsed args
  | MatrixSelector vs _ => match vs with VectorSel _ => parsed vs | _ => false end
  | SubqueryExpr e _ | ParenExpr e | UnaryExpr _ e => parsed e
  | VectorSel vs => bool_decide (vs_Name vs = ""%string) || negb (length (LabelMatchers vs) =? 0)%nat
  | NumberLiteral _ | StringLiteral _ => true
  | StepInvariantExpr _ => false
  end.

(** The arguments of a call that are checked. *)
Definition visited (f : PromFunction) (args : list expr) : list expr :=
  if Variadic f =? 0 then take (length (ArgTypes f)) args else args.

(** A call of [info] whose second argument is not a selector. *)
Definition bad_info (f : PromFunction) (args : list expr) : bool :=
  is_info f args && match args with _ :: VectorSel _ :: _ => false | _ => true end.

(** Whether the checker reaches such a call. *)
Fixpoint reaches_bad_info (e : expr) : bool :=
  match e with
  | AggregateExpr op e param _ _ =>
      reaches_bad_info e || (IsAggregatorWithParam op && match param with Some p => reaches_bad_info p | None => false end)
  | BinaryExpr _ l r _ _ => reaches_bad_info l || reaches_bad_info r
  | Call f args => bad_info f args || existsb (fun b => b) (if Variadic f =? 0 then take (length (ArgTypes f)) (map reaches_bad_info args) else map reaches_bad_info args)
  | MatrixSelector e _ | SubqueryExpr e _ | ParenExpr e | UnaryExpr _ e => reaches_bad_info e
  | VectorSel _ | NumberLiteral _ | StringLiteral _ | StepInvariantExpr _ => false
  end.

(** ** The checked tree *)
(** The matching after the check. *)
Definition resolved (op : Z) (lt rt : ValueType) (vm : VectorMatching) : option VectorMatching :=
  if bool_decide (lt = ValueTypeVector) && bool_decide (rt = ValueTypeVector)
  then Some (if IsSetOperator op && bool_decide (Card vm = CardOneToOne) then set_card CardManyToMany vm else vm) else None.

(** Arguments beyond those of a function with a fixed number are not checked. *)
Definition skipped (f : PromFunction) (i : nat) : bool := (length (ArgTypes f) <=? i)%nat && (Variadic f =? 0).

Section resolve_args.
Variable resolve : bool -> expr -> expr.
Fixpoint resolve_args (info : bool) (f : PromFunction) (i : nat) (args : list expr) : list expr :=
  match args with
  | [] => []
  | arg :: args' => if skipped f i then args else resolve (info && (i =? 1)%nat) arg :: resolve_args info f (S i) args'
  end.
End resolve_args.

(** What the checker makes of a tree: it settles the matching of binary operations. *)
Fixpoint resolve (bypass : bool) (e : expr) : expr :=
  match e with
  | AggregateExpr op e param g w =>
      AggregateExpr op (resolve false e) (if IsAggregatorWithParam op then match param with Some p => Some (resolve false p) | None => None end else param) g w
  | BinaryExpr op l r vm rb =>
      BinaryExpr op (resolve false l) (resolve false r) (match vm with Some vm => resolved op (Type_ l) (Type_ r) vm | None => None end) rb
  | Call f args => Call f (resolve_args resolve (is_info f args) f 0 args)
  | ParenExpr e => ParenExpr (resolve false e)
  | UnaryExpr op e => UnaryExpr op (resolve false e)
  | SubqueryExpr e mods => SubqueryExpr (resolve false e) mods
  | MatrixSelector vs range => MatrixSelector (resolve false vs) range
  | VectorSel vs => VectorSel (if bypass then set_bypass vs else vs)
  | NumberLiteral _ | StringLiteral _ | StepInvariantExpr _ => e
  end.

(** ** The checker decides typing *)

(** [m] returns [a], without an error just if [P]. *)
Definition checks {A} (m : check A) (a : A) (P : Prop) : Prop := exists errs, m = Ret (a, errs) /\ (errs = [] <-> P).

Lemma checks_ret {A} (a : A) : checks (check_ret a) a True.
Proof. exists []. split; [reflexivity|tauto]. Qed.

Lemma checks_bind {A B} (m : check A) (k : A -> check B) a b P Q :
  checks m a P -> checks (k a) b Q -> checks (check_bind m k) b (P /\ Q).
Proof.
  intros (e1 & -> & H1) (e2 & E & H2). unfold check_bind. rewrite E. exists (e1 ++ e2). split; [reflexivity|].
  rewrite <- H1, <- H2. split; [apply app_nil|intros [-> ->]; reflexivity].
Qed.

Lemma checks_report b err : checks (report b err) tt (b = false).
Proof. eexists. split; [reflexivity|]. destruct b; split; congruence. Qed.

Lemma checks_reports errs : checks (reports errs) tt (errs = []).
Proof. exists errs. split; [reflexivity|tauto]. Qed.

Lemma checks_iff {A} (m : check A) a P Q : checks m a P -> (P <-> Q) -> checks m a Q.
Proof. intros (errs & E & H) HPQ. exists errs. split; [exact E|]. rewrite H. exact HPQ. Qed.

Lemma bind_panic {A B} (m : check A) (k : A -> check B) a P : checks m a P -> k a = Panic -> check_bind m k = Panic.
Proof. intros (errs & -> & _) E. unfold check_bind. rewrite E. reflexivity. Qed.

Lemma flat_map_nil {A B} (f : A -> list B) l : flat_map f l = [] <-> forall x, In x l -> f x = [].
Proof.
  induction l as [|x l IH]; cbn; [split; [intros _ y []|reflexivity]|]. split.
  - intros E. apply app_nil in E as [E1 E2]. intros y [<-|Hy]; [exact E1|exact (proj1 IH E2 y Hy)].
  - intros H. rewrite (H x) by auto. apply IH. auto.
Qed.

Lemma label_clashes_nil vm : label_clashes vm = [] <-> (On vm = true -> forall l, In l (MatchingLabels vm) -> ~ In l (Include vm)).
Proof.
  unfold label_clashes. rewrite flat_map_nil. split.
  - intros H Hon l Hl Hi. specialize (H l Hl). rewrite flat_map_nil in H. specialize (H l Hi).
    rewrite bool_decide_eq_true_2, Hon in H by reflexivity. discriminate.
  - intros H l Hl. apply flat_map_nil. intros l2 Hl2. destruct (bool_decide (l = l2)) eqn:E; [|reflexivity].
    destruct (On vm) eqn:Eo; [|reflexivity]. apply bool_decide_eq_true in E. subst. destruct (H eq_refl l2 Hl Hl2).
Qed.

(** Decides equations of constructors. *)
Ltac decide_types := repeat match goal with
  | |- context [bool_decide (?a = ?b)] => first [rewrite (bool_decide_eq_true_2 (a = b)) by reflexivity | rewrite (bool_decide_eq_false_2 (a = b)) by discriminate]
  end; cbn [negb andb orb].

(** Runs a check whose parts are known to [checks]. *)
Ltac run_checks := first [eapply checks_bind; [run_checks|run_checks] | apply checks_ret | apply checks_report | apply checks_reports].

Lemma check_count_spec f args : checks (check_count f args) tt (arity_ok f (length args)).
Proof.
  unfold check_count, arity_ok. destruct (Variadic f =? 0).
  - eapply checks_iff; [apply checks_report|]. rewrite negb_false_iff, Z.eqb_eq. split; congruence.
  - destruct (Z.ltb_spec (Z.of_nat (length args)) (Z.of_nat (length (ArgTypes f)) - 1)) as [Hlt|Hge].
    + eapply checks_iff; [apply checks_reports|]. split; [discriminate|lia].
    + eapply checks_iff; [apply checks_report|]. rewrite andb_false_iff, Z.ltb_ge, Z.ltb_ge. lia.
Qed.

Section decides.
Context {RL : RegexLib}.

Lemma existsb_false {A} (f : A -> bool) l : existsb (fun x => negb (f x)) l = true <-> exists x, In x l /\ f x = false.
Proof. rewrite existsb_exists. setoid_rewrite negb_true_iff. reflexivity. Qed.

Lemma check_selector_spec (b : bool) vs : parsed (VectorSel vs) = true -> checks (check_selector (if b then set_bypass vs else vs)) tt (selector_ok b vs).
Proof.
  intros Hp. cbn in Hp. unfold check_selector, selector_ok.
  assert (E : vs_Name (if b then set_bypass vs else vs) = vs_Name vs /\ LabelMatchers (if b then set_bypass vs else vs) = LabelMatchers vs)
    by (destruct b; split; reflexivity). destruct E as [-> ->].
  destruct (bool_decide (vs_Name vs = ""%string)); cbn [negb].
  - eapply checks_iff; [apply checks_report|]. rewrite andb_false_iff, !negb_false_iff, existsb_false. destruct b; cbn.
    + tauto.
    + split; [intros [H|H]; auto|intros [H|[H|H]]; [discriminate|auto|auto]].
  - destruct (LabelMatchers vs) as [|m ms]; [discriminate|]. eapply checks_iff; [apply checks_reports|]. rewrite flat_map_nil. split.
    + intros H x Hx E. specialize (H x Hx). rewrite bool_decide_eq_true_2 in H by exact E. discriminate.
    + intros H x Hx. rewrite bool_decide_eq_false_2 by (apply H; exact Hx). reflexivity.
Qed.

Lemma operand_spec t : negb (bool_decide (t = ValueTypeScalar)) && negb (bool_decide (t = ValueTypeVector)) = false <-> operand t.
Proof. unfold operand. rewrite andb_false_iff, !negb_false_iff, !bool_decide_eq_true. reflexivity. Qed.

Lemma set_card_same op vm vm' : vm' = (if IsSetOperator op && bool_decide (Card vm = CardOneToOne) then set_card CardManyToMany vm else vm) ->
  label_clashes vm' = label_clashes vm /\ MatchingLabels vm' = MatchingLabels vm /\
  (IsSetOperator op = true -> (Card vm' = CardManyToMany <-> Card vm = CardOneToOne \/ Card vm = CardManyToMany)).
Proof.
  intros ->. destruct (IsSetOperator op); cbn [andb]; [|split; [reflexivity|split; [reflexivity|discriminate]]].
  destruct (bool_decide _) eqn:E; (split; [reflexivity|split; [reflexivity|]]); intros _.
  - apply bool_decide_eq_true in E. cbn. split; auto.
  - apply bool_decide_eq_false in E. tauto.
Qed.

Lemma check_matching_spec op lt rt vm : checks (check_matching op lt rt (Some vm)) (resolved op lt rt vm)
  (IsOperator op = true /\ operand lt /\ operand rt /\ (IsSetOperator op = true -> lt = ValueTypeVector /\ rt = ValueTypeVector) /\ matching_ok op lt rt vm).
Proof.
  unfold check_matching, resolved. set (vm' := if IsSetOperator op && bool_decide (Card vm = CardOneToOne) then set_card CardManyToMany vm else vm).
  destruct (set_card_same op vm vm' eq_refl) as (El & Em & Hset). 
  pose proof (label_clashes_nil vm) as Hcl. rewrite <- El, <- Em in Hcl. unfold matching_ok. rewrite <- Em. clearbody vm'.
  assert (Hm : IsSetOperator op = true -> bool_decide (Card vm' = CardOneToMany) || bool_decide (Card vm' = CardManyToOne) = false /\
    bool_decide (Card vm' = CardManyToMany) = true <-> Card vm = CardOneToOne \/ Card vm = CardManyToMany).
  { intros Hs. rewrite <- (Hset Hs). destruct (Card vm'); vm_compute; intuition congruence. }
  assert (Hl : (length (MatchingLabels vm') =? 0)%nat = true <-> MatchingLabels vm' = []).
  { rewrite Nat.eqb_eq. apply length_zero_iff_nil. }
  clear Hset El Em. unfold operand.
  destruct (IsSetOperator op), lt, rt; decide_types; (eapply checks_iff; [run_checks|]); cbn; rewrite ?negb_false_iff; intuition congruence.
Qed.
End decides.

Section checker_spec.
Context {RL : RegexLib}.

(** What is to be shown of the check of a node. *)
Definition decided (b : bool) (e : expr) : Prop :=
  if reaches_bad_info e then checkAST b e = Panic
  else checks (checkAST b e) (Type_ e, resolve b e) (has_type b e (Type_ e)).

Lemma expectType_spec b e want : decided b e ->
  if reaches_bad_info e then expectType checkAST b e want = Panic
  else checks (expectType checkAST b e want) (resolve b e) (has_type b e want).
Proof.
  unfold decided, expectType. destruct (reaches_bad_info e); [intros ->; reflexivity|]. intros H.
  eapply checks_iff; [eapply checks_bind; [exact H|run_checks]|]. cbn [fst]. rewrite negb_false_iff, bool_decide_eq_true. split.
  - intros (Ht & <- & _). exact Ht.
  - intros Ht. pose proof (has_type_Type _ _ _ Ht) as ->. auto.
Qed.

(** The arguments from index [i] on, typed as far as they are looked at. *)
Definition reached (f : PromFunction) (i : nat) (args : list expr) : list expr :=
  if Variadic f =? 0 then take (length (ArgTypes f) - i) args else args.
Definition args_typed (info : bool) (f : PromFunction) (i : nat) (args : list expr) : Prop :=
  forall j arg t, args !! j = Some arg -> skipped f (i + j) = false -> arg_type f (i + j) = Some t -> has_type (info && (i + j =? 1)%nat) arg t.

Lemma reached_cons f i arg args : reached f i (arg :: args) = if skipped f i then [] else arg :: reached f (S i) args.
Proof.
  unfold reached, skipped. destruct (Variadic f =? 0); cbn [andb]; [|rewrite andb_false_r; reflexivity].
  rewrite andb_true_r. destruct (Nat.leb_spec (length (ArgTypes f)) i).
  - replace (length (ArgTypes f) - i)%nat with 0%nat by lia. reflexivity.
  - replace (length (ArgTypes f) - i)%nat with (S (length (ArgTypes f) - S i)) by lia. reflexivity.
Qed.

Lemma args_typed_cons info f i arg args t : skipped f i = false -> arg_type f i = Some t ->
  args_typed info f i (arg :: args) <-> has_type (info && (i =? 1)%nat) arg t /\ args_typed info f (S i) args.
Proof.
  intros Hs Ht. unfold args_typed. split.
  - intros H. split.
    + specialize (H 0%nat arg t). rewrite Nat.add_0_r in H. apply H; [reflexivity|exact Hs|exact Ht].
    + intros j a t' Hj. specialize (H (S j) a t' Hj). rewrite Nat.add_succ_r in H. exact H.
  - intros [H1 H2] [|j] a t' Hj; cbn in Hj.
    + injection Hj as <-. rewrite Nat.add_0_r. intros _ E. rewrite Ht in E. injection E as <-. exact H1.
    + rewrite Nat.add_succ_r. exact (H2 j a t' Hj).
Qed.

Lemma check_args_spec info f args : negb (Variadic f =? 0) && (length (ArgTypes f) =? 0)%nat = false ->
  List.Forall (fun a => forall b, decided b a) args -> forall i,
  if existsb reaches_bad_info (reached f i args) then check_args checkAST info f i args = Panic
  else checks (check_args checkAST info f i args) (resolve_args resolve info f i args) (args_typed info f i args).
Proof.
  intros Hf Hargs. induction Hargs as [|arg args Ha _ IH]; intros i.
  { unfold reached. rewrite take_nil. destruct (Variadic f =? 0); cbn; (eapply checks_iff; [apply checks_ret|]); (split; [|tauto]);
      intros _ j a t Hj; discriminate. }
  rewrite reached_cons. cbn [check_args resolve_args]. fold (skipped f i). destruct (skipped f i) eqn:Es.
  { cbn. eapply checks_iff; [apply checks_ret|]. split; [|tauto]. intros _ j a t _ Hs. exfalso.
    unfold skipped in *. apply andb_true_iff in Es as [E1 E2]. rewrite E2, andb_true_r in Hs. apply Nat.leb_le in E1. apply Nat.leb_gt in Hs. lia. }
  assert (Ht : exists t, arg_type f i = Some t).
  { apply lookup_lt_is_Some_2. unfold skipped in Es. destruct (Nat.leb_spec (length (ArgTypes f)) i); [|lia]. cbn in Es. rewrite Es in Hf. cbn in Hf.
    apply Nat.eqb_neq in Hf. lia. }
  destruct Ht as [t Ht]. change (ArgTypes f !! _) with (arg_type f i). rewrite Ht. cbn [existsb].
  pose proof (expectType_spec (info && (i =? 1)%nat) arg t (Ha _)) as Hx. destruct (reaches_bad_info arg); cbn [orb]; [rewrite Hx; reflexivity|].
  specialize (IH (S i)). destruct (existsb _ _).
  - eapply bind_panic; [exact Hx|]. rewrite IH. reflexivity.
  - eapply checks_iff; [eapply checks_bind; [exact Hx|eapply checks_bind; [exact IH|apply checks_ret]]|].
    rewrite (args_typed_cons info f i arg args t Es Ht). tauto.
Qed.

Lemma check_info_spec f args : is_info f args = true ->
  if bad_info f args then check_info args = Panic
  else checks (check_info args) tt (exists vs, args !! 1%nat = Some (VectorSel vs) /\ vs_Name vs = ""%string).
Proof.
  intros Hi. unfold bad_info. rewrite Hi. unfold is_info in Hi. apply andb_true_iff in Hi as [_ Hl]. apply Nat.ltb_lt in Hl.
  destruct args as [|a0 [|a1 rest]]; cbn in Hl; [lia|lia|]. unfold check_info. destruct a1; cbn [andb negb];
    try (eapply bind_panic; [apply checks_report|reflexivity]).
  eapply checks_iff; [run_checks|]. cbn. rewrite !negb_false_iff, !bool_decide_eq_true. split.
  - intros [_ H]. eauto.
  - intros (vs' & [= <-] & H). auto.
Qed.

Lemma typed_call b f args : has_type b (Call f args) (ReturnType f) <-> arity_ok f (length args) /\
  (is_info f args = true -> exists vs, args !! 1%nat = Some (VectorSel vs) /\ vs_Name vs = ""%string) /\ args_typed (is_info f args) f 0 args.
Proof.
  split.
  - inversion 1; subst. split; [assumption|]. split; [assumption|]. intros j a t Hj _ Ht. eauto.
  - intros (H1 & H2 & H3). constructor; [exact H1|exact H2|]. intros i a t Hi Ht. apply (H3 i a t Hi); [|exact Ht].
    unfold skipped. destruct (Variadic f =? 0) eqn:Ev; [|rewrite andb_false_r; reflexivity]. rewrite andb_true_r. apply Nat.leb_gt.
    unfold arity_ok in H1. rewrite Ev in H1. apply lookup_lt_Some in Hi. cbn. lia.
Qed.

Lemma call_decided b f args : parsed (Call f args) = true -> List.Forall (fun a => forall b, decided b a) args -> decided b (Call f args).
Proof.
  intros Hp Hargs. cbn [parsed] in Hp. apply andb_true_iff in Hp as [Hf _]. apply negb_true_iff in Hf.
  unfold decided. cbn [reaches_bad_info checkAST resolve]. pose proof (check_args_spec (is_info f args) f args Hf Hargs 0) as Ha.
  assert (Er : existsb (fun b => b) (if Variadic f =? 0 then take (length (ArgTypes f)) (map reaches_bad_info args) else map reaches_bad_info args)
    = existsb reaches_bad_info (reached f 0 args)).
  { unfold reached. rewrite Nat.sub_0_r, firstn_map. generalize (take (length (ArgTypes f)) args). intros l.
    assert (E : forall l, existsb (fun b : bool => b) (map reaches_bad_info l) = existsb reaches_bad_info l)
      by (intros l'; induction l' as [|x l' IH]; cbn; [|rewrite IH]; reflexivity).
    destruct (Variadic f =? 0); apply E. }
  rewrite Er. destruct (is_info f args) eqn:Ei.
  - pose proof (check_info_spec f args Ei) as Hi. destruct (bad_info f args); cbn [orb].
    { eapply bind_panic; [apply check_count_spec|]. rewrite Hi. reflexivity. }
    destruct (existsb _ _).
    { eapply bind_panic; [apply check_count_spec|]. eapply bind_panic; [exact Hi|]. rewrite Ha. reflexivity. }
    eapply checks_iff.
    { eapply checks_bind; [apply check_count_spec|]. eapply checks_bind; [exact Hi|]. eapply checks_bind; [exact Ha|apply checks_ret]. }
    cbn [Type_]. rewrite typed_call, Ei. tauto.
  - assert (Eb : bad_info f args = false) by (unfold bad_info; rewrite Ei; reflexivity). rewrite Eb. cbn [orb]. destruct (existsb _ _).
    { eapply bind_panic; [apply check_count_spec|]. eapply bind_panic; [apply checks_ret|]. rewrite Ha. reflexivity. }
    eapply checks_iff.
    { eapply checks_bind; [apply check_count_spec|]. eapply checks_bind; [apply checks_ret|]. eapply checks_bind; [exact Ha|apply checks_ret]. }
    cbn [Type_]. rewrite typed_call, Ei. intuition discriminate.
Qed.
End checker_spec.

(** Inverts a typing of a node; the types of its children are those of [Type_]. *)
Ltac invert_typing := inversion 1; subst;
  repeat match goal with H : has_type _ _ ?t |- _ => is_var t; pose proof (has_type_Type _ _ _ H); subst t end.

Section checker_theorem.
Context {RL : RegexLib}.

(** The check of the parameter of an aggregation. *)
Definition check_param (op : Z) (param : option expr) : check (option expr) :=
  if (op =? TOPK) || (op =? BOTTOMK) || (op =? QUANTILE) || (op =? LIMITK) || (op =? LIMIT_RATIO)
  then expectParam checkAST param ValueTypeScalar
  else if op =? COUNT_VALUES then expectParam checkAST param ValueTypeString else check_ret param.

Lemma check_param_with op p : IsAggregatorWithParam op = true ->
  check_param op (Some p) = check_bind (expectType checkAST false p (param_type op)) (fun p => check_ret (Some p)).
Proof.
  unfold IsAggregatorWithParam, check_param, param_type. destruct (Z.eqb_spec op COUNT_VALUES) as [->|Hc]; [reflexivity|].
  intros H. destruct (op =? TOPK), (op =? BOTTOMK), (op =? QUANTILE), (op =? LIMITK), (op =? LIMIT_RATIO); cbn in *; reflexivity || discriminate.
Qed.

Lemma check_param_without op param : IsAggregatorWithParam op = false -> check_param op param = check_ret param.
Proof.
  unfold IsAggregatorWithParam, check_param. intros H. destruct (op =? COUNT_VALUES), (op =? TOPK), (op =? BOTTOMK), (op =? QUANTILE), (op =? LIMITK),
    (op =? LIMIT_RATIO); cbn in *; reflexivity || discriminate.
Qed.

Definition param_typed (op : Z) (param : option expr) : Prop :=
  forall p, param = Some p -> IsAggregatorWithParam op = true -> has_type false p (param_type op).

Lemma check_param_spec op param : (forall p, param = Some p -> decided false p) -> (param = None -> IsAggregatorWithParam op = false) ->
  if IsAggregatorWithParam op && match param with Some p => reaches_bad_info p | None => false end
  then check_param op param = Panic
  else checks (check_param op param) (if IsAggregatorWithParam op then match param with Some p => Some (resolve false p) | None => None end else param)
         (param_typed op param).
Proof.
  intros Hp Hn. destruct (IsAggregatorWithParam op) eqn:Eop; cbn [andb].
  - destruct param as [p|]; [|discriminate (Hn eq_refl)]. rewrite (check_param_with op p Eop).
    pose proof (expectType_spec false p (param_type op) (Hp p eq_refl)) as H. destruct (reaches_bad_info p); [rewrite H; reflexivity|].
    eapply checks_iff; [eapply checks_bind; [exact H|apply checks_ret]|]. unfold param_typed. split.
    + intros [Ht _] q [= <-] _. exact Ht.
    + intros Ht. split; [apply Ht; [reflexivity|exact Eop]|exact I].
  - rewrite check_param_without by exact Eop. eapply checks_iff; [apply checks_ret|]. unfold param_typed. split; [congruence|auto].
Qed.

Lemma agg_decided b op e param g w : parsed (AggregateExpr op e param g w) = true -> decided false e -> (forall p, param = Some p -> decided false p) ->
  decided b (AggregateExpr op e param g w).
Proof.
  intros Hp He Hparam. cbn [parsed] in Hp. apply andb_true_iff in Hp as [_ Hp]. unfold decided. cbn [reaches_bad_info checkAST resolve]. fold (check_param op param).
  pose proof (check_param_spec op param Hparam) as Hq. pose proof (expectType_spec false e ValueTypeVector He) as Hx.
  destruct (reaches_bad_info e); cbn [orb]; [eapply bind_panic; [apply checks_report|]; rewrite Hx; reflexivity|].
  specialize (Hq ltac:(intros ->; apply negb_true_iff; exact Hp)).
  destruct (_ && _); [eapply bind_panic; [apply checks_report|]; eapply bind_panic; [exact Hx|]; rewrite Hq; reflexivity|].
  eapply checks_iff.
  - eapply checks_bind; [apply checks_report|]. eapply checks_bind; [exact Hx|]. eapply checks_bind; [exact Hq|apply checks_ret].
  - cbn [Type_]. rewrite negb_false_iff. split.
    + intros (H1 & H2 & H3 & _). constructor; assumption.
    + inversion 1; subst. repeat split; assumption.
Qed.

Lemma binary_decided b op l r vm rb : decided false l -> decided false r -> decided b (BinaryExpr op l r (Some vm) rb).
Proof.
  intros Hl Hr. unfold decided in *. cbn [reaches_bad_info checkAST resolve]. destruct (reaches_bad_info l); cbn [orb]; [rewrite Hl; reflexivity|].
  destruct (reaches_bad_info r); [eapply bind_panic; [exact Hl|]; rewrite Hr; reflexivity|].
  eapply checks_iff.
  - eapply checks_bind; [exact Hl|]. eapply checks_bind; [exact Hr|]. eapply checks_bind; [apply checks_report|].
    eapply checks_bind; [apply checks_report|]. eapply checks_bind; [apply check_matching_spec|apply checks_ret].
  - cbn [fst Type_]. fold (result_type (Type_ l) (Type_ r)). rewrite !andb_false_iff, !negb_false_iff, !bool_decide_eq_false. split.
    + intros (H1 & H2 & H3 & H4 & (H5 & H6 & H7 & H8 & H9) & _). constructor; try assumption.
      * intros ->. destruct H3 as [H3|H3]; [discriminate|exact H3].
      * intros Hc E1 E2. destruct rb; [reflexivity|]. destruct H4 as [[[H4|H4]|H4]|H4]; congruence.
    + invert_typing. split; [assumption|]. split; [assumption|]. split; [destruct rb; auto|]. split; [|tauto].
      destruct (IsComparisonOperator op), rb; auto. destruct (decide (Type_ r = ValueTypeScalar)), (decide (Type_ l = ValueTypeScalar)); auto.
Qed.

(** Checking decides typing. *)
Lemma parsed_decided e : parsed e = true -> forall b, decided b e.
Proof.
  induction e as [op e param g w IHe IHp|op l r vm rb IHl IHr|f args IH|vs range IH|e mods IH|v|e IH|s|op e IH|e IH|vs] using expr_nested_ind; intros Hp b.
  - apply agg_decided; [exact Hp| |]; cbn in Hp; apply andb_true_iff in Hp as [H1 H2]; [exact (IHe H1 false)|].
    intros p ->. apply andb_true_iff in H2 as [H2 _]. exact (IHp p eq_refl H2 false).
  - cbn in Hp. rewrite !andb_true_iff in Hp. destruct Hp as [[[H1 H2] _] H3]. destruct vm as [vm'|]; [|discriminate].
    exact (binary_decided b op l r vm' rb (IHl H1 false) (IHr H2 false)).
  - apply call_decided; [exact Hp|]. cbn in Hp. apply andb_true_iff in Hp as [_ H]. rewrite forallb_forall in H.
    apply List.Forall_forall. intros a Ha. exact (proj1 (List.Forall_forall _ _) IH a Ha (H a Ha)).
  - destruct vs; try discriminate. specialize (IH Hp false). unfold decided in *. cbn [reaches_bad_info] in *.
    cbn [checkAST]. eapply checks_iff; [eapply checks_bind; [exact IH|apply checks_ret]|]. split.
    + intros [H _]. exact (T_matrix _ _ _ _ H).
    + invert_typing. auto.
  - specialize (IH Hp false). unfold decided in *. cbn [reaches_bad_info checkAST]. destruct (reaches_bad_info e); [rewrite IH; reflexivity|].
    eapply checks_iff; [eapply checks_bind; [exact IH|run_checks]|]. cbn [fst Type_].
    rewrite negb_false_iff, bool_decide_eq_true. split.
    + intros (H & E & _). rewrite E in H. constructor. exact H.
    + invert_typing. match goal with Ht : has_type _ e _ |- _ => rewrite <- (has_type_Type _ _ _ Ht) end. auto.
  - unfold decided. eapply checks_iff; [apply checks_ret|]. split; [constructor|auto].
  - specialize (IH Hp false). unfold decided in *. cbn [reaches_bad_info checkAST]. destruct (reaches_bad_info e); [rewrite IH; reflexivity|].
    eapply checks_iff; [eapply checks_bind; [exact IH|apply checks_ret]|]. cbn [Type_]. split.
    + intros [H _]. constructor. exact H.
    + inversion 1; subst. auto.
  - unfold decided. eapply checks_iff; [apply checks_ret|]. split; [constructor|auto].
  - specialize (IH Hp false). unfold decided in *. cbn [reaches_bad_info checkAST].
    destruct (reaches_bad_info e); [eapply bind_panic; [apply checks_report|]; rewrite IH; reflexivity|].
    eapply checks_iff; [eapply checks_bind; [apply checks_report|eapply checks_bind; [exact IH|run_checks]]|].
    cbn [fst Type_]. rewrite operand_spec, andb_false_iff, !negb_false_iff, !Z.eqb_eq. split.
    + intros (H1 & H2 & H3 & _). constructor; assumption.
    + inversion 1; subst. auto.
  - discriminate.
  - unfold decided. cbn [reaches_bad_info checkAST Type_].
    eapply checks_iff; [eapply checks_bind; [apply check_selector_spec; exact Hp|apply checks_ret]|]. split.
    + intros [H _]. constructor. exact H.
    + inversion 1; subst. auto.
Qed.

(** C16: Checking decides typing: on a tree the parser has built it reports the
    node's type, and reports no error exactly if the tree has that type by the
    typing rules; it panics exactly if it reaches a call of [info] whose second
    argument is not a plain selector, be it only in parentheses. *)
Theorem check_ast_decides_typing e : parsed e = true ->
  (checkAST false e = Panic <-> reaches_bad_info e = true) /\
  (reaches_bad_info e = false -> exists errs, checkAST false e = Ret ((Type_ e, resolve false e), errs) /\ (errs = [] <-> exists t, has_type false e t)).
Proof.
  intros Hp. pose proof (parsed_decided e Hp false) as H. unfold decided in H. destruct (reaches_bad_info e).
  - split; [tauto|discriminate].
  - destruct H as (errs & E & H). split; [rewrite E; split; discriminate|]. intros _. exists errs. split; [exact E|]. rewrite H. split; [eauto|].
    intros [t Ht]. pose proof (has_type_Type _ _ _ Ht) as ->. exact Ht.
Qed.
End checker_theorem.

(** ** Concrete queries *)
Section demo.

Definition demo_regex : RegexLib := {| MatchString := fun _ _ => true |}.
#[local] Existing Instance demo_regex.

Definition demo_fun (name : string) : PromFunction := default (mkFunction "" [] 0 ValueTypeNone false) (getFunction name).
Definition demo_named (name : string) (ts : option Z) : expr := VectorSel (mkVS name 0 0 ts false 0 [mkMatcher MatchEqual MetricName name] false).
Definition demo_labels (ts : option Z) : expr := VectorSel (mkVS "" 0 0 ts false 0 [mkMatcher MatchEqual "k" "v"] false).
Definition demo_match : option VectorMatching := Some (mkMatching CardOneToOne [] false []).

(** [sum(rate(x[5m] @ 10)) / y + timestamp((x @ start()))]. *)
Definition demo_query : expr :=
  BinaryExpr ADD
    (BinaryExpr DIV (AggregateExpr SUM (Call (demo_fun "rate") [MatrixSelector (demo_named "x" (Some 10)) 300]) None [] false) (demo_named "y" None) demo_match false)
    (Call (demo_fun "timestamp") [ParenExpr (VectorSel (mkVS "x" 0 0 None false START [mkMatcher MatchEqual MetricName "x"] false))]) demo_match false.

Example check_ast_decides_typing_witness :
  checkAST false demo_query <> Panic /\ exists errs, checkAST false demo_query = Ret ((ValueTypeVector, resolve false demo_query), errs) /\
    (errs = [] <-> exists t, has_type false demo_query t).
Proof.
  destruct (check_ast_decides_typing demo_query) as [H1 H2]; [vm_compute; reflexivity|]. split.
  - intros E. apply H1 in E. vm_compute in E. discriminate E.
  - exact (H2 eq_refl).
Defined.
End demo.
