(* ===== verification/PromqlEval.v ===== *)
(** * Preparing a query for evaluation: [promql/engine.go]

    [PreprocessExpr] wraps what does not depend on the evaluation time of a query
    into [StepInvariantExpr], so that it is evaluated once, and settles the
    modifiers [@ start()] and [@ end()].  [evaluable] collects what the evaluator
    asserts of the tree; values are not modelled. *)

From stdpp Require Import base list numbers gmap strings.
From Stdlib Require Import ZArith Lia SpecFloat.
From S2P Require Import Prelude Promql.

#[local] Open Scope Z_scope.

#[local] Notation "x <~ m ;; k" := (outcome_bind m (fun x => k))
  (at level 100, m at next level, k at level 200, right associativity).

(** ** Step invariance *)
Definition AtModifierUnsafeFunctions : list string :=
  ["days_in_month"; "day_of_month"; "day_of_week"; "day_of_year"; "hour"; "minute"; "month"; "year"; "predict_linear"; "time"; "timestamp"]%string.
Definition unsafe (f : PromFunction) : bool := bool_decide (f_Name f ∈ AtModifierUnsafeFunctions).

(** The time an [@] modifier refers to. *)
Definition at_time (start end_ : Z) (startOrEnd : Z) (ts : option Z) : option Z :=
  if startOrEnd =? START then Some start else if startOrEnd =? END then Some end_ else ts.
Definition set_timestamp (ts : option Z) (vs : VectorSelector) : VectorSelector :=
  mkVS (vs_Name vs) (vs_OriginalOffset vs) (vs_Offset vs) ts (SkipHistogramBuckets vs) (vs_StartOrEnd vs) (LabelMatchers vs) (BypassEmptyMatcherCheck vs).
Definition sq_set_timestamp (ts : option Z) (m : SubqueryMods) : SubqueryMods :=
  mkSubquery (sq_Range m) (sq_OriginalOffset m) (sq_Offset m) ts (sq_StartOrEnd m) (sq_Step m).

Definition newStepInvariantExpr (e : expr) : expr := StepInvariantExpr e.
(** An expression that is wrapped if the flag says it is step invariant. *)
Definition wrap (r : bool * expr) : expr := if fst r then newStepInvariantExpr (snd r) else snd r.

Definition is_some {A} (o : option A) : bool := match o with Some _ => true | None => false end.

Section preprocess_args.
Variable preprocess : expr -> outcome (bool * expr).
Fixpoint preprocess_args (args : list expr) : outcome (list (bool * expr)) :=
  match args with
  | [] => Ret []
  | a :: args' => r <~ preprocess a ;; rs <~ preprocess_args args' ;; Ret (r :: rs)
  end.
End preprocess_args.

(** The flag, and the tree with the changes made to it. *)
Fixpoint preprocessExprHelper (start end_ : Z) (e : expr) : outcome (bool * expr) :=
  match e with
  | VectorSel vs =>
      let ts := at_time start end_ (vs_StartOrEnd vs) (vs_Timestamp vs) in
      Ret (is_some ts, VectorSel (set_timestamp ts vs))
  | AggregateExpr op e param g w =>
      r <~ preprocessExprHelper start end_ e ;; Ret (fst r, AggregateExpr op (snd r) param g w)
  | BinaryExpr op lhs rhs vm rb =>
      l <~ preprocessExprHelper start end_ lhs ;;
      r <~ preprocessExprHelper start end_ rhs ;;
      if fst l && fst r then Ret (true, BinaryExpr op (snd l) (snd r) vm rb)
      else Ret (false, BinaryExpr op (wrap l) (wrap r) vm rb)
  | Call f args =>
      rs <~ preprocess_args (preprocessExprHelper start end_) args ;;
      if negb (unsafe f) && forallb fst rs then Ret (true, Call f (map snd rs)) else Ret (false, Call f (map wrap rs))
  | MatrixSelector vs range => r <~ preprocessExprHelper start end_ vs ;; Ret (fst r, MatrixSelector (snd r) range)
  | SubqueryExpr e m =>
      r <~ preprocessExprHelper start end_ e ;;
      let ts := at_time start end_ (sq_StartOrEnd m) (sq_Timestamp m) in
      Ret (is_some ts, SubqueryExpr (wrap r) (sq_set_timestamp ts m))
  | ParenExpr e => r <~ preprocessExprHelper start end_ e ;; Ret (fst r, ParenExpr (snd r))
  | UnaryExpr op e => r <~ preprocessExprHelper start end_ e ;; Ret (fst r, UnaryExpr op (snd r))
  | StringLiteral _ | NumberLiteral _ => Ret (true, e)
  | StepInvariantExpr _ => Panic
  end.

(** [PreprocessExpr] of a tree whose durations are settled, without the flag
    for decoding histograms, which is an optimisation. *)
Definition PreprocessExpr (e : expr) (start end_ : Z) : outcome expr :=
  r <~ preprocessExprHelper start end_ e ;; Ret (wrap r).

(** ** What the evaluator asserts *)
Fixpoint unwrapParenExpr (e : expr) : expr := match e with ParenExpr e => unwrapParenExpr e | _ => e end.
Definition unwrapStepInvariantExpr (e : expr) : expr := match e with StepInvariantExpr e => e | _ => e end.
(** How the evaluator looks at an argument. *)
Definition unwrap (e : expr) : expr := unwrapParenExpr (unwrapStepInvariantExpr (unwrapParenExpr e)).

Definition stringFromArg (e : expr) : option string :=
  match unwrapParenExpr (unwrapStepInvariantExpr e) with StringLiteral s => Some s | _ => None end.

(** The operators that [scalarBinop] and [vectorElemBinop] know. *)
Definition scalar_operators : list Z := [ADD; SUB; MUL; DIV; POW; MOD; EQLC; NEQ; GTR; LSS; GTE; LTE; ATAN2].

Definition is_selector (e : expr) : bool := match e with VectorSel _ => true | _ => false end.

(** The range argument at which [eval] finds a selector or a subquery. *)
Definition is_range (e : expr) : bool := match unwrap e with MatrixSelector vs _ => is_selector vs | SubqueryExpr _ _ => true | _ => false end.

(** The dispatch of a binary operation, up to the panics of its operators. *)
Definition binary_evaluable (op : Z) (lt rt : ValueType) (vm : option VectorMatching) : bool :=
  match lt, rt with
  | ValueTypeScalar, ValueTypeScalar | ValueTypeVector, ValueTypeScalar | ValueTypeScalar, ValueTypeVector => bool_decide (op ∈ scalar_operators)
  | ValueTypeVector, ValueTypeVector =>
      match vm with
      | None => false
      | Some vm => if IsSetOperator op then bool_decide (Card vm = CardManyToMany)
                   else negb (bool_decide (Card vm = CardManyToMany)) && bool_decide (op ∈ scalar_operators)
      end
  | _, _ => false
  end.

Section evaluable_args.
Variable evaluable : bool -> expr -> bool.
(** Arguments by the types that a function has for them: strings and ranges are
    taken from the tree, others are evaluated to a matrix. *)
Fixpoint evaluable_args (f : PromFunction) (i : nat) (args : list expr) : bool :=
  match args with
  | [] => true
  | a :: args' =>
      match arg_type f i with
      | None => false
      | Some ValueTypeString => is_some (stringFromArg a)
      | Some ValueTypeMatrix => is_range a && evaluable true a
      | Some t => bool_decide (Type_ a = t) && negb (bool_decide (t = ValueTypeNone)) && evaluable false a
      end && evaluable_args f (S i) args'
  end.
End evaluable_args.

(** No assertion on the tree fails when the evaluator evaluates it to a matrix;
    [range] says that the node is looked at as a range argument. *)
Fixpoint evaluable (range : bool) (e : expr) : bool :=
  match e with
  | AggregateExpr op e param _ _ =>
      IsAggregator op && evaluable false e &&
      (if op =? COUNT_VALUES then match param with Some p => match unwrap p with StringLiteral _ => true | _ => false end | None => false end
       else match param with Some p => bool_decide (Type_ p = ValueTypeScalar) && evaluable false p | None => true end)
  | BinaryExpr op l r vm _ => evaluable false l && evaluable false r && binary_evaluable op (Type_ l) (Type_ r) vm
  | Call f args =>
      (if bool_decide (f_Name f = "info"%string) then match args with _ :: a :: _ => is_selector a | _ => true end else true)
      && evaluable_args evaluable f 0 args
  | ParenExpr e => evaluable range e
  | UnaryExpr _ e => evaluable false e
  | NumberLiteral _ | VectorSel _ => true
  | StringLiteral _ => false
  | MatrixSelector _ _ => range
  | SubqueryExpr e _ => range && evaluable false e
  | StepInvariantExpr e => evaluable range e
  end.

(** ** Well-typed queries are evaluable *)
#[export] Instance PromFunction_eq_dec : EqDecision PromFunction.
Proof. solve_decision. Defined.

Definition is_fixed (vs : VectorSelector) : bool := is_some (vs_Timestamp vs) || (vs_StartOrEnd vs =? START) || (vs_StartOrEnd vs =? END).

(** All functions are those of the table, and no selector that is the second
    argument of [info] has an [@] modifier. *)
Fixpoint plain (e : expr) : bool :=
  match e with
  | AggregateExpr _ e param _ _ => plain e && match param with Some p => plain p | None => true end
  | BinaryExpr _ l r _ _ => plain l && plain r
  | Call f args =>
      bool_decide (getFunction (f_Name f) = Some f) &&
      (if bool_decide (f_Name f = "info"%string) then match args with _ :: VectorSel vs :: _ => negb (is_fixed vs) | _ => true end else true) &&
      forallb plain args
  | MatrixSelector e _ | SubqueryExpr e _ | ParenExpr e | UnaryExpr _ e | StepInvariantExpr e => plain e
  | NumberLiteral _ | StringLiteral _ | VectorSel _ => true
  end.

(** What the table of functions satisfies. *)
Definition function_ok (f : PromFunction) : bool :=
  (bool_decide (ReturnType f = ValueTypeVector) || bool_decide (ReturnType f = ValueTypeScalar)) &&
  negb (bool_decide (ValueTypeNone ∈ ArgTypes f)) && negb (negb (Variadic f =? 0) && (length (ArgTypes f) =? 0)%nat).

Lemma table_ok f : getFunction (f_Name f) = Some f -> function_ok f = true.
Proof.
  intros H. unfold getFunction, Functions in H. apply elem_of_list_to_map_2 in H. assert (Hall : forallb (fun p => function_ok (snd p)) function_table = true) by (vm_compute; reflexivity).
  rewrite forallb_forall in Hall. apply list_elem_of_In in H. exact (Hall _ H).
Qed.

Definition range_core (e : expr) : bool := match unwrapParenExpr e with MatrixSelector vs _ => is_selector vs | SubqueryExpr _ _ => true | _ => false end.
Definition string_core (e : expr) : bool := match unwrapParenExpr e with StringLiteral _ => true | _ => false end.

(** An expression of type [t] that can be used as one, before it is wrapped. *)
Definition core_good (t : ValueType) (e : expr) : Prop :=
  Type_ e = t /\
  match t with
  | ValueTypeScalar | ValueTypeVector => evaluable false e = true
  | ValueTypeMatrix => range_core e = true /\ evaluable true e = true
  | ValueTypeString => string_core e = true
  | ValueTypeNone => False
  end.
Definition good (t : ValueType) (e : expr) : Prop := core_good t e \/ exists e0, e = StepInvariantExpr e0 /\ core_good t e0.

Lemma good_core t e : core_good t e -> good t e.
Proof. left. assumption. Qed.

Lemma good_wrap t r : core_good t (snd r) -> good t (wrap r).
Proof. intros H. unfold wrap. destruct (fst r); [right; exists (snd r); auto|left; exact H]. Qed.

Lemma good_type t e : good t e -> Type_ e = t.
Proof. intros [[H _]|(e0 & -> & H & _)]; exact H. Qed.

Lemma good_value t e : operand t -> good t e -> evaluable false e = true.
Proof. intros Ht [[_ H]|(e0 & -> & _ & H)]; destruct Ht as [-> | ->]; exact H. Qed.

Lemma range_core_range e : range_core e = true -> is_range e = true /\ is_range (StepInvariantExpr e) = true.
Proof.
  intros H. split; [|exact H]. unfold is_range, unwrap. unfold range_core in H. destruct (unwrapParenExpr e); try discriminate; exact H.
Qed.

Lemma good_range e : good ValueTypeMatrix e -> is_range e = true /\ evaluable true e = true.
Proof. intros [(_ & H & E)|(e0 & -> & _ & H & E)]; apply range_core_range in H; tauto. Qed.

Lemma good_string e : good ValueTypeString e -> is_some (stringFromArg e) = true.
Proof.
  intros [(_ & H)|(e0 & -> & _ & H)]; unfold string_core in H; unfold stringFromArg.
  - destruct e; try discriminate H; exact H || (cbn in *; destruct (unwrapParenExpr e); discriminate H || reflexivity).
  - cbn. destruct (unwrapParenExpr e0); discriminate H || reflexivity.
Qed.

(** Each kind of node is good if its children are. *)
Lemma paren_good t e : core_good t e -> core_good t (ParenExpr e).
Proof. intros [H1 H2]. split; [exact H1|]. destruct t; exact H2. Qed.

Lemma unary_good t op e : operand t -> core_good t e -> core_good t (UnaryExpr op e).
Proof. intros [-> | ->] [H1 H2]; (split; [exact H1|exact H2]). Qed.

Lemma binary_good lt rt op l r vm rb : good lt l -> good rt r -> operand lt -> operand rt -> binary_evaluable op lt rt vm = true ->
  core_good (result_type lt rt) (BinaryExpr op l r vm rb).
Proof.
  intros Hl Hr Hlt Hrt Hb. pose proof (good_type _ _ Hl) as El. pose proof (good_type _ _ Hr) as Er.
  assert (E : evaluable false (BinaryExpr op l r vm rb) = true).
  { cbn. rewrite El, Er, (good_value lt l Hlt Hl), (good_value rt r Hrt Hr). exact Hb. }
  split; [cbn; rewrite El, Er; reflexivity|]. unfold result_type. destruct (_ && _); exact E.
Qed.

Lemma agg_good op e param g w : IsAggregator op = true -> core_good ValueTypeVector e ->
  (forall p, param = Some p -> core_good (param_type op) p) -> (op = COUNT_VALUES -> param <> None) ->
  core_good ValueTypeVector (AggregateExpr op e param g w).
Proof.
  intros Ha [_ He] Hp Hn. split; [reflexivity|]. cbn. rewrite Ha, He. unfold param_type in Hp. cbn [andb]. destruct (Z.eqb_spec op COUNT_VALUES).
  - destruct param as [p|]; [|destruct (Hn e0 eq_refl)]. destruct (Hp p eq_refl) as [_ H]. unfold string_core in H. unfold unwrap.
    destruct (unwrapParenExpr p); discriminate H || reflexivity.
  - destruct param as [p|]; [|reflexivity]. destruct (Hp p eq_refl) as [H1 H2]. rewrite bool_decide_eq_true_2 by exact H1. exact H2.
Qed.

Lemma args_good f i args : (forall j a, args !! j = Some a -> exists t, arg_type f (i + j) = Some t /\ good t a) ->
  evaluable_args evaluable f i args = true.
Proof.
  revert i. induction args as [|a args IH]; intros i H; [reflexivity|]. cbn [evaluable_args]. destruct (H 0%nat a eq_refl) as (t & Ht & Hg).
  rewrite Nat.add_0_r in Ht. rewrite Ht. apply andb_true_iff. split.
  - destruct t; cbn.
    + destruct Hg as [[_ []]|(? & _ & _ & [])].
    + rewrite bool_decide_eq_true_2 by exact (good_type _ _ Hg). rewrite (good_value _ _ (or_intror eq_refl) Hg). reflexivity.
    + rewrite bool_decide_eq_true_2 by exact (good_type _ _ Hg). rewrite (good_value _ _ (or_introl eq_refl) Hg). reflexivity.
    + destruct (good_range _ Hg) as [-> ->]. reflexivity.
    + exact (good_string _ Hg).
  - apply IH. intros j b Hj. destruct (H (S j) b Hj) as (t' & Ht' & Hg'). exists t'. rewrite Nat.add_succ_r in Ht'. auto.
Qed.

Lemma call_good f args : function_ok f = true -> (f_Name f = "info"%string -> (2 <= length args)%nat -> exists vs, args !! 1%nat = Some (VectorSel vs)) ->
  (forall j a, args !! j = Some a -> exists t, arg_type f j = Some t /\ good t a) -> core_good (ReturnType f) (Call f args).
Proof.
  intros Hf Hi Ha. unfold function_ok in Hf. rewrite !andb_true_iff, orb_true_iff, !bool_decide_eq_true in Hf. destruct Hf as [[Hr _] _].
  assert (E : evaluable false (Call f args) = true).
  { cbn. rewrite (args_good f 0 args Ha). rewrite andb_true_r. destruct (bool_decide _) eqn:En; [|reflexivity]. apply bool_decide_eq_true in En.
    destruct args as [|a0 [|a1 rest]]; try reflexivity. destruct (Hi En ltac:(cbn; lia)) as (vs & [= ->]). reflexivity. }
  split; [reflexivity|]. destruct Hr as [-> | ->]; exact E.
Qed.

(** The checked arguments of a call of the right arity. *)
Lemma resolve_args_lookup info f args : forall i, (forall j, (j < length args)%nat -> skipped f (i + j) = false) ->
  forall j, resolve_args resolve info f i args !! j = (fun a => resolve (info && (i + j =? 1)%nat) a) <$> args !! j.
Proof.
  induction args as [|a args IH]; intros i Hs j; [destruct j; reflexivity|]. cbn [resolve_args].
  pose proof (Hs 0%nat ltac:(cbn; lia)) as H0. rewrite Nat.add_0_r in H0. rewrite H0. destruct j as [|j]; cbn.
  - rewrite Nat.add_0_r. reflexivity.
  - rewrite IH; [rewrite Nat.add_succ_r; reflexivity|]. intros k Hk. rewrite Nat.add_succ_comm. apply (Hs (S k)). cbn. lia.
Qed.

Lemma preprocess_args_lookup start end_ args (Q : nat -> expr -> Prop) :
  (forall j a, args !! j = Some a -> exists inv a', preprocessExprHelper start end_ a = Ret (inv, a') /\ Q j a') ->
  exists rs, preprocess_args (preprocessExprHelper start end_) args = Ret rs /\ length rs = length args /\
    forall j r, rs !! j = Some r -> Q j (snd r) /\ exists a, args !! j = Some a /\ preprocessExprHelper start end_ a = Ret r.
Proof.
  revert Q. induction args as [|a args IH]; intros Q H; [exists []; split; [reflexivity|]; split; [reflexivity|discriminate]|].
  destruct (H 0%nat a eq_refl) as (inv & a' & E & Hq). destruct (IH (fun j => Q (S j))) as (rs & Er & Hl & Hr); [intros j b Hj; exact (H (S j) b Hj)|].
  exists ((inv, a') :: rs). cbn [preprocess_args]. rewrite E. cbn [outcome_bind]. rewrite Er. split; [reflexivity|]. split; [cbn; lia|].
  intros [|j] r Hj; [injection Hj as <-; eauto|exact (Hr j r Hj)].
Qed.

Lemma arity_type f n j : arity_ok f n -> function_ok f = true -> (j < n)%nat -> skipped f j = false /\ exists t, arg_type f j = Some t /\ t <> ValueTypeNone.
Proof.
  unfold arity_ok, function_ok, skipped, arg_type. rewrite !andb_true_iff, !negb_true_iff, bool_decide_eq_false. intros Ha [[_ Hn] Hv] Hj.
  assert (Hs : (length (ArgTypes f) <=? j)%nat && (Variadic f =? 0) = false).
  { destruct (Variadic f =? 0); [|apply andb_false_r]. rewrite andb_true_r. apply Nat.leb_gt. lia. }
  split; [exact Hs|]. destruct (lookup_lt_is_Some_2 (ArgTypes f) (if (length (ArgTypes f) <=? j)%nat then length (ArgTypes f) - 1 else j)) as [t Ht].
  { destruct (Nat.leb_spec (length (ArgTypes f)) j); [|lia]. cbn in Hs. rewrite Hs in Hv. cbn in Hv. apply Nat.eqb_neq in Hv. lia. }
  exists t. split; [exact Ht|]. intros ->. apply Hn. exact (list_elem_of_lookup_2 _ _ _ Ht).
Qed.

Lemma helper_selector start end_ vs : is_fixed vs = false -> preprocessExprHelper start end_ (VectorSel vs) = Ret (false, VectorSel vs).
Proof.
  unfold is_fixed. rewrite !orb_false_iff. intros [[H1 H2] H3]. cbn. unfold at_time. rewrite H2, H3. destruct vs as [n oo o ts sk se lm by_]. cbn in *.
  destruct ts; [discriminate|reflexivity].
Qed.

Section soundness.
Context {RL : RegexLib}.
Variables start end_ : Z.

(** What is shown of a node: it can be used as checked, and as preprocessed. *)
Definition sound (b : bool) (e : expr) (t : ValueType) : Prop :=
  core_good t (resolve b e) /\
  exists inv e', preprocessExprHelper start end_ (resolve b e) = Ret (inv, e') /\ core_good t e'.

Lemma set_operators op : IsSetOperator op = false -> op ∈ binary_operators -> op ∈ scalar_operators.
Proof.
  intros H Hop. unfold binary_operators in Hop. unfold scalar_operators.
  repeat (apply elem_of_cons in Hop as [-> | Hop]; [first [discriminate H | set_solver]|]). inversion Hop.
Qed.

Lemma resolved_evaluable op lt rt vm : operand lt -> operand rt -> (IsSetOperator op = true -> lt = ValueTypeVector /\ rt = ValueTypeVector) ->
  matching_ok op lt rt vm -> op ∈ binary_operators -> Card vm <> CardManyToMany -> binary_evaluable op lt rt (resolved op lt rt vm) = true.
Proof.
  intros Hl Hr Hset (_ & _ & Hc) Hop Hcard. unfold resolved, binary_evaluable.
  assert (Hsc : IsSetOperator op = false -> bool_decide (op ∈ scalar_operators) = true)
    by (intros H; apply bool_decide_eq_true_2, set_operators; assumption).
  destruct (IsSetOperator op).
  - destruct (Hset eq_refl) as [-> ->]. destruct (Hc eq_refl eq_refl eq_refl) as [E|E]; [|contradiction]. rewrite E. reflexivity.
  - rewrite (Hsc eq_refl). destruct Hl as [-> | ->], Hr as [-> | ->]; decide_types; try reflexivity. rewrite (bool_decide_eq_false_2 (Card vm = CardManyToMany)) by exact Hcard. reflexivity.
Qed.

Lemma call_sound b f args : parsed (Call f args) = true -> plain (Call f args) = true -> has_type b (Call f args) (ReturnType f) ->
  (forall j a t, args !! j = Some a -> arg_type f j = Some t -> sound (is_info f args && (j =? 1)%nat) a t) -> sound b (Call f args) (ReturnType f).
Proof.
  intros Hp Hpl Ht Ha. apply typed_call in Ht as (Har & Hinfo & _). cbn [plain] in Hpl. rewrite !andb_true_iff in Hpl. destruct Hpl as [[Htab Hfix] _].
  apply bool_decide_eq_true in Htab. pose proof (table_ok f Htab) as Hf.
  assert (Hlk : forall j, resolve_args resolve (is_info f args) f 0 args !! j = (fun a => resolve (is_info f args && (j =? 1)%nat) a) <$> args !! j).
  { apply (resolve_args_lookup (is_info f args) f args 0). intros j Hj. exact (proj1 (arity_type f _ j Har Hf Hj)). }
  set (rargs := resolve_args resolve (is_info f args) f 0 args) in *.
  assert (Hlen : forall j x, rargs !! j = Some x -> exists a t, args !! j = Some a /\ x = resolve (is_info f args && (j =? 1)%nat) a /\ arg_type f j = Some t).
  { intros j x Hj. rewrite Hlk in Hj. destruct (args !! j) as [a|] eqn:E; [|discriminate]. injection Hj as <-.
    destruct (arity_type f _ j Har Hf (lookup_lt_Some _ _ _ E)) as (_ & t & Et & _). eauto. }
  assert (Hsel : f_Name f = "info"%string -> (2 <= length args)%nat -> exists vs, rargs !! 1%nat = Some (VectorSel vs) /\ is_fixed vs = false).
  { intros En Hl. assert (Hi : is_info f args = true) by (unfold is_info; rewrite bool_decide_eq_true_2 by exact En; apply Nat.ltb_lt; lia).
    destruct (Hinfo Hi) as (vs & Evs & _). rewrite Hlk, Evs. cbn. rewrite Hi. cbn. eexists. split; [reflexivity|].
    rewrite bool_decide_eq_true_2 in Hfix by exact En. destruct args as [|a0 [|a1 rest]]; try discriminate. injection Evs as ->.
    apply negb_true_iff in Hfix. exact Hfix. }
  split.
  - cbn [resolve]. apply call_good; [exact Hf| |].
    + intros En Hl. destruct (Hsel En) as (vs & E & _); [|eauto]. fold rargs in Hl. apply (Nat.le_trans _ _ _ Hl).
      apply Nat.nlt_ge. intros Hlt. destruct (lookup_lt_is_Some_2 rargs (length args)) as [x Hx]; [lia|]. destruct (Hlen _ _ Hx) as (a & _ & E & _).
      apply lookup_lt_Some in E. lia.
    + intros j x Hj. destruct (Hlen j x Hj) as (a & t & Ea & -> & Et). exists t. split; [exact Et|]. apply good_core. exact (proj1 (Ha j a t Ea Et)).
  - cbn [resolve preprocessExprHelper]. fold rargs.
    destruct (preprocess_args_lookup start end_ rargs (fun j e' => exists t, arg_type f j = Some t /\ core_good t e')) as (rs & -> & Hrl & Hrs).
    { intros j x Hj. destruct (Hlen j x Hj) as (a & t & Ea & -> & Et). destruct (proj2 (Ha j a t Ea Et)) as (inv & e' & E & Hg). eauto 6. }
    assert (Hgood : forall w, (forall r, w r = wrap r \/ w r = snd r) -> core_good (ReturnType f) (Call f (map w rs))).
    { intros w Hw. apply call_good; [exact Hf| |].
      - intros En Hl. rewrite length_map, Hrl in Hl. destruct (Hsel En) as (vs & E & Hv).
        { apply (Nat.le_trans _ _ _ Hl). apply Nat.nlt_ge. intros Hlt. destruct (lookup_lt_is_Some_2 rargs (length args)) as [x Hx]; [lia|].
          destruct (Hlen _ _ Hx) as (a & _ & E & _). apply lookup_lt_Some in E. lia. }
        destruct (lookup_lt_is_Some_2 rs 1%nat) as [r Hr]; [rewrite Hrl; exact Hl|]. destruct (Hrs _ _ Hr) as (_ & a & Ea & Er).
        rewrite E in Ea. injection Ea as <-. rewrite (helper_selector start end_ vs Hv) in Er. injection Er as <-. exists vs.
        change (map w rs) with (w <$> rs). rewrite list_lookup_fmap, Hr. cbn. destruct (Hw (false, VectorSel vs)) as [-> | ->]; reflexivity.
      - intros j x Hj. change (map w rs) with (w <$> rs) in Hj. rewrite list_lookup_fmap in Hj. destruct (rs !! j) as [r|] eqn:Er; [|discriminate].
        injection Hj as <-. destruct (Hrs _ _ Er) as ((t & Et & Hg) & _). exists t. split; [exact Et|].
        destruct (Hw r) as [-> | ->]; [apply good_wrap|apply good_core]; exact Hg. }
    cbn [outcome_bind]. destruct (_ && _); eexists _, _; (split; [reflexivity|]); apply Hgood; auto.
Qed.

Lemma agg_sound b op e param g w : parsed (AggregateExpr op e param g w) = true -> has_type b (AggregateExpr op e param g w) ValueTypeVector ->
  sound false e ValueTypeVector -> (forall p, param = Some p -> sound false p (param_type op)) -> sound b (AggregateExpr op e param g w) ValueTypeVector.
Proof.
  intros Hp Ht He Hparam. cbn in Hp. apply andb_true_iff in Hp as [_ Hp].
  assert (Ha : IsAggregator op = true) by (inversion Ht; assumption).
  set (param' := if IsAggregatorWithParam op then match param with Some p => Some (resolve false p) | None => None end else param).
  assert (Hp1 : forall p, param' = Some p -> core_good (param_type op) p).
  { unfold param'. destruct param as [p|]; [|destruct (IsAggregatorWithParam op); discriminate]. apply andb_true_iff in Hp as [_ ->].
    intros q [= <-]. exact (proj1 (Hparam p eq_refl)). }
  assert (Hp2 : op = COUNT_VALUES -> param' <> None) by (unfold param'; intros ->; destruct param; [discriminate|discriminate Hp]).
  destruct He as [H1 (inv & e' & E & H2)]. split; [apply agg_good; assumption|]. cbn [resolve preprocessExprHelper]. rewrite E. cbn [outcome_bind fst snd].
  eexists _, _. split; [reflexivity|]. apply agg_good; assumption.
Qed.

Lemma binary_sound b op l r vm rb lt rt : parsed (BinaryExpr op l r (Some vm) rb) = true ->
  operand lt -> operand rt -> (IsSetOperator op = true -> lt = ValueTypeVector /\ rt = ValueTypeVector) -> matching_ok op lt rt vm ->
  lt = Type_ l -> rt = Type_ r -> sound false l lt -> sound false r rt -> sound b (BinaryExpr op l r (Some vm) rb) (result_type lt rt).
Proof.
  intros Hp Hlt Hrt Hset Hm El Er [Hl1 (il & l' & Epl & Hl2)] [Hr1 (ir & r' & Epr & Hr2)]. cbn in Hp. rewrite !andb_true_iff in Hp. destruct Hp as [[_ Hop] Hc].
  apply bool_decide_eq_true in Hop. apply negb_true_iff, bool_decide_eq_false in Hc.
  pose proof (resolved_evaluable op lt rt vm Hlt Hrt Hset Hm Hop Hc) as Hb. rewrite El, Er in Hb at 2.
  split; cbn [resolve preprocessExprHelper].
  - apply binary_good; try assumption; [apply good_core; exact Hl1|apply good_core; exact Hr1].
  - rewrite Epl. cbn [outcome_bind]. rewrite Epr. cbn [outcome_bind fst snd]. destruct (il && ir); eexists _, _; (split; [reflexivity|]);
      apply binary_good; try assumption; first [apply (good_wrap lt (il, l')) | apply (good_wrap rt (ir, r')) | apply good_core]; assumption.
Qed.

Lemma typed_sound e : forall b t, parsed e = true -> plain e = true -> has_type b e t -> sound b e t.
Proof.
  induction e as [op e param g w IHe IHp|op l r vm rb IHl IHr|f args IH|vs range IH|e mods IH|v|e IH|s|op e IH|e IH|vs] using expr_nested_ind; intros b t Hp Hpl Ht.
  - assert (t = ValueTypeVector) as -> by (inversion Ht; reflexivity). pose proof Hp as Hp0. pose proof Hpl as Hpl0. cbn in Hp, Hpl. apply andb_true_iff in Hp as [H1 H2], Hpl as [H3 H4].
    apply agg_sound; [exact Hp0|exact Ht| |].
    + apply IHe; [exact H1|exact H3|]. inversion Ht; assumption.
    + intros p ->. apply andb_true_iff in H2 as [H2 H5]. apply (IHp p eq_refl); [exact H2|exact H4|]. inversion Ht; auto.
  - inversion Ht; subst. cbn in Hpl. apply andb_true_iff in Hpl as [Hpc Hpd]. pose proof Hp as Hp0. cbn in Hp. rewrite !andb_true_iff in Hp. destruct Hp as [[[Hpa Hpb] _] _].
    apply binary_sound; try assumption; [eapply has_type_Type; eassumption|eapply has_type_Type; eassumption|apply IHl; assumption|apply IHr; assumption].
  - assert (t = ReturnType f) as -> by (inversion Ht; reflexivity). apply call_sound; [exact Hp|exact Hpl|exact Ht|]. intros j a t Ha Hat.
    cbn in Hp, Hpl. apply andb_true_iff in Hp as [_ H1], Hpl as [_ H2]. rewrite forallb_forall in H1, H2.
    assert (Hin : In a args) by (apply list_elem_of_In; exact (list_elem_of_lookup_2 _ _ _ Ha)).
    apply (proj1 (List.Forall_forall _ _) IH a Hin); [exact (H1 a Hin)|exact (H2 a Hin)|]. inversion Ht; subst. eauto.
  - destruct vs; try discriminate. inversion Ht; subst. split; [split; [reflexivity|split; reflexivity]|]. cbn. eexists _, _. split; [reflexivity|].
    split; [reflexivity|split; reflexivity].
  - inversion Ht; subst. destruct (IH false ValueTypeVector Hp Hpl) as [Hg (inv & e' & E & Hg')]; [assumption|]. split.
    + split; [reflexivity|]. split; [reflexivity|]. exact (proj2 Hg).
    + cbn [resolve preprocessExprHelper]. rewrite E. cbn [outcome_bind fst snd]. eexists _, _. split; [reflexivity|]. split; [reflexivity|].
      split; [reflexivity|]. cbn. exact (good_value ValueTypeVector _ (or_intror eq_refl) (good_wrap ValueTypeVector (inv, e') Hg')).
  - inversion Ht; subst. split; [split; reflexivity|]. cbn. eexists _, _. split; [reflexivity|split; reflexivity].
  - inversion Ht; subst. destruct (IH false t Hp Hpl) as [Hg (inv & e' & E & Hg')]; [assumption|]. split; [apply paren_good; exact Hg|].
    cbn [resolve preprocessExprHelper]. rewrite E. cbn [outcome_bind fst snd]. eexists _, _. split; [reflexivity|apply paren_good; exact Hg'].
  - inversion Ht; subst. split; [split; reflexivity|]. cbn. eexists _, _. split; [reflexivity|split; reflexivity].
  - inversion Ht; subst. destruct (IH false t Hp Hpl) as [Hg (inv & e' & E & Hg')]; [assumption|]. split; [apply unary_good; assumption|].
    cbn [resolve preprocessExprHelper]. rewrite E. cbn [outcome_bind fst snd]. eexists _, _. split; [reflexivity|apply unary_good; assumption].
  - discriminate.
  - inversion Ht; subst. split; [split; reflexivity|]. cbn. eexists _, _. split; [reflexivity|split; reflexivity].
Qed.

(** C20: Well-typed queries for instant vectors and scalars are evaluable: if the checker
    reports no error for a query of one of these two types, with the functions of the
    table, then preprocessing succeeds, keeps the type, and no assertion of the evaluator
    on the resulting tree can fail, provided that no second argument of [info] has an
    [@] modifier.  Queries for strings and ranges are not covered: the evaluator panics
    on some that the checker accepts (see [string_in_parens_wrapped]). *)
Theorem checked_query_evaluable e t : parsed e = true -> plain e = true -> t = ValueTypeVector \/ t = ValueTypeScalar ->
  checkAST false e = Ret ((t, resolve false e), []) ->
  exists e', PreprocessExpr (resolve false e) start end_ = Ret e' /\ Type_ e' = t /\ evaluable false e' = true.
Proof.
  intros Hp Hpl Ht E. pose proof (parsed_decided e Hp false) as Hd. unfold decided in Hd. destruct (reaches_bad_info e); [rewrite E in Hd; discriminate|].
  destruct Hd as (errs & E' & Hd). rewrite E in E'. injection E' as -> <-. destruct (typed_sound e false (Type_ e) Hp Hpl (proj1 Hd eq_refl)) as [_ (inv & e' & Ep & Hg)].
  unfold PreprocessExpr. rewrite Ep. cbn [outcome_bind]. eexists. split; [reflexivity|]. pose proof (good_wrap _ (inv, e') Hg) as Hw.
  split; [exact (good_type _ _ Hw)|]. apply (good_value (Type_ e)); [unfold operand; tauto|exact Hw].
Qed.
End soundness.

(** ** Preprocessing keeps the meaning *)

(** The functions whose implementations read the evaluation time [enh.Ts]: [funcTime],
    [funcPredictLinear], [dateWrapper] when there is no argument, [timestamp] (the
    samples of a vector have the evaluation time), and [evalInfo], which reads the info
    series at the evaluation time.  [extrapolatedRate] uses [enh.Ts] too, but less the
    offset of its selector, which is the time the selector is read at. *)
Definition date_functions : list string := ["days_in_month"; "day_of_month"; "day_of_week"; "day_of_year"; "hour"; "minute"; "month"; "year"]%string.
Definition sees_time (f : PromFunction) (nargs : nat) : bool :=
  bool_decide (f_Name f ∈ ["time"; "predict_linear"; "timestamp"; "info"]%string) || (bool_decide (f_Name f ∈ date_functions) && (nargs =? 0)%nat).

(** A meaning of the operators of the language on values of a type [V].  A
    selector is read at a time, a subquery at a time from its inner expression,
    and the functions of [sees_time] see the evaluation time. *)
Class Meaning (V : Type) := {
  m_number : float64 -> V;
  m_string : string -> V;
  m_selector : VectorSelector -> Z -> V;
  m_matrix : VectorSelector -> Z -> Z -> V;
  m_subquery : SubqueryMods -> Z -> Z -> (Z -> Z -> V) -> V;
  m_unary : Z -> V -> V;
  m_binary : Z -> option VectorMatching -> bool -> V -> V -> V;
  m_aggregate : Z -> list string -> bool -> option V -> V -> V;
  m_call : PromFunction -> list V -> option Z -> V;
  m_other : V }.
Class MeaningOK {V : Type} (M : Meaning V) : Prop := {
  m_subquery_ext : forall m s t f g, (forall s' t', f s' t' = g s' t') -> m_subquery m s t f = m_subquery m s t g }.

(** All [@ start()] and [@ end()] modifiers settled, as the documentation has it. *)
Fixpoint settle (start end_ : Z) (e : expr) : expr :=
  match e with
  | VectorSel vs => VectorSel (set_timestamp (at_time start end_ (vs_StartOrEnd vs) (vs_Timestamp vs)) vs)
  | AggregateExpr op e param g w => AggregateExpr op (settle start end_ e) (match param with Some p => Some (settle start end_ p) | None => None end) g w
  | BinaryExpr op l r vm rb => BinaryExpr op (settle start end_ l) (settle start end_ r) vm rb
  | Call f args => Call f (map (settle start end_) args)
  | MatrixSelector e range => MatrixSelector (settle start end_ e) range
  | SubqueryExpr e m => SubqueryExpr (settle start end_ e) (sq_set_timestamp (at_time start end_ (sq_StartOrEnd m) (sq_Timestamp m)) m)
  | ParenExpr e => ParenExpr (settle start end_ e)
  | UnaryExpr op e => UnaryExpr op (settle start end_ e)
  | StepInvariantExpr e => StepInvariantExpr (settle start end_ e)
  | NumberLiteral _ | StringLiteral _ => e
  end.

(** The parameters of aggregations are literals. *)
Definition is_constant (e : expr) : bool := match unwrapParenExpr e with NumberLiteral _ | StringLiteral _ => true | _ => false end.
Fixpoint constant_params (e : expr) : bool :=
  match e with
  | AggregateExpr _ e param _ _ => constant_params e && match param with Some p => is_constant p | None => true end
  | BinaryExpr _ l r _ _ => constant_params l && constant_params r
  | Call _ args => forallb constant_params args
  | MatrixSelector e _ | SubqueryExpr e _ | ParenExpr e | UnaryExpr _ e | StepInvariantExpr e => constant_params e
  | NumberLiteral _ | StringLiteral _ | VectorSel _ => true
  end.

(** Expressions with the same value at every time: their selectors and subqueries have
    [@] modifiers, and no function sees the time. *)
Fixpoint steady (e : expr) : bool :=
  match e with
  | VectorSel vs => is_fixed vs
  | SubqueryExpr _ m => is_some (sq_Timestamp m) || (sq_StartOrEnd m =? START) || (sq_StartOrEnd m =? END)
  | BinaryExpr _ l r _ _ => steady l && steady r
  | Call f args => negb (sees_time f (length args)) && forallb steady args
  | AggregateExpr _ e _ _ _ | MatrixSelector e _ | ParenExpr e | UnaryExpr _ e => steady e
  | NumberLiteral _ | StringLiteral _ => true
  | StepInvariantExpr _ => false
  end.

(** No call of [info] has only arguments that are steady. *)
Fixpoint moving_info (e : expr) : bool :=
  match e with
  | AggregateExpr _ e _ _ _ | MatrixSelector e _ | SubqueryExpr e _ | ParenExpr e | UnaryExpr _ e | StepInvariantExpr e => moving_info e
  | BinaryExpr _ l r _ _ => moving_info l && moving_info r
  | Call f args => negb (bool_decide (f_Name f = "info"%string) && forallb steady args) && forallb moving_info args
  | NumberLiteral _ | StringLiteral _ | VectorSel _ => true
  end.

Lemma sees_time_unsafe f n : sees_time f n = true -> f_Name f <> "info"%string -> unsafe f = true.
Proof.
  intros H Hi. assert (G : forallb (fun n => bool_decide (n ∈ AtModifierUnsafeFunctions)) (["time"; "predict_linear"; "timestamp"]%string ++ date_functions) = true) by (vm_compute; reflexivity).
  rewrite forallb_forall in G. unfold sees_time in H. apply orb_true_iff in H. rewrite andb_true_iff, !bool_decide_eq_true in H. apply G, list_elem_of_In, elem_of_app.
  destruct H as [H|[H _]]; [left|right; exact H]. change (f_Name f ∈ ["time"; "predict_linear"; "timestamp"]%string ++ ["info"%string]) in H.
  apply elem_of_app in H as [H|H]; [exact H|]. apply list_elem_of_singleton in H. congruence.
Qed.

Lemma at_time_some start end_ se ts : is_some (at_time start end_ se ts) = is_some ts || (se =? START) || (se =? END).
Proof. unfold at_time. destruct (se =? START), (se =? END), ts; reflexivity. Qed.

Section meaning.
Context {V : Type} {M : Meaning V} {MOK : MeaningOK M}.

Definition read_time (t : Z) (ts : option Z) : Z := match ts with Some ts => ts | None => t end.

(** The value at [t] of a range evaluation that starts at [s]; what is wrapped as
    step invariant is evaluated at the start. *)
Fixpoint den (e : expr) (s t : Z) : V :=
  match e with
  | NumberLiteral v => m_number v
  | StringLiteral v => m_string v
  | VectorSel vs => m_selector (set_timestamp None vs) (read_time t (vs_Timestamp vs))
  | MatrixSelector e range => match e with VectorSel vs => m_matrix (set_timestamp None vs) range (read_time t (vs_Timestamp vs)) | _ => m_other end
  | SubqueryExpr e m => m_subquery (sq_set_timestamp None m) s (read_time t (sq_Timestamp m)) (den e)
  | ParenExpr e => den e s t
  | UnaryExpr op e => m_unary op (den e s t)
  | BinaryExpr op l r vm rb => m_binary op vm rb (den l s t) (den r s t)
  | AggregateExpr op e param g w => m_aggregate op g w (match param with Some p => Some (den p s t) | None => None end) (den e s t)
  | Call f args => m_call f (map (fun a => den a s t) args) (if sees_time f (length args) then Some t else None)
  | StepInvariantExpr e => den e s s
  end.

Lemma constant_den p : is_constant p = true -> forall start end_, settle start end_ p = p /\ forall s t s' t', den p s t = den p s' t'.
Proof.
  unfold is_constant. induction p using expr_nested_ind; intros Hc start end_; try discriminate Hc; try (split; reflexivity).
  destruct (IHp Hc start end_) as [E Hd]. cbn. rewrite E. auto.
Qed.

(** The result of preprocessing a node keeps its meaning, and does not depend on
    the time if it is flagged. *)
Definition keeps (start end_ : Z) (e : expr) (r : bool * expr) : Prop :=
  (forall s t, den (snd r) s t = den (settle start end_ e) s t)
  /\ (fst r = true -> steady e = true /\ forall s t t', den (snd r) s t = den (snd r) s t').

Lemma wrap_keeps start end_ e r : keeps start end_ e r -> forall s t, den (wrap r) s t = den (settle start end_ e) s t.
Proof.
  intros [H1 H2] s t. unfold wrap. destruct (fst r); [|apply H1]. cbn. rewrite (proj2 (H2 eq_refl) s s t). apply H1.
Qed.

Lemma args_keep start end_ args : List.Forall (fun a => forall r, constant_params a = true -> moving_info a = true -> preprocessExprHelper start end_ a = Ret r -> keeps start end_ a r) args ->
  forallb constant_params args = true -> forallb moving_info args = true -> forall rs, preprocess_args (preprocessExprHelper start end_) args = Ret rs -> List.Forall2 (keeps start end_) args rs.
Proof.
  induction 1 as [|a args Ha _ IH]; intros Hc Hm rs E; cbn in E; [injection E as <-; constructor|]. cbn in Hc, Hm. apply andb_true_iff in Hc as [H1 H2], Hm as [H3 H4].
  destruct (preprocessExprHelper start end_ a) as [r|] eqn:Er; [|discriminate]. cbn in E. destruct (preprocess_args _ args) as [rs'|] eqn:Ers; [|discriminate].
  injection E as <-. constructor; [exact (Ha r H1 H3 eq_refl)|exact (IH H2 H4 rs' eq_refl)].
Qed.

Lemma args_den start end_ args rs w s t : List.Forall2 (keeps start end_) args rs -> (forall r, w r = wrap r \/ w r = snd r) ->
  map (fun a => den a s t) (map w rs) = map (fun a => den a s t) (map (settle start end_) args).
Proof.
  intros H Hw. induction H as [|a r args rs Hk _ IH]; [reflexivity|]. cbn. f_equal; [|exact IH].
  destruct (Hw r) as [-> | ->]; [apply wrap_keeps; exact Hk|apply Hk].
Qed.

Lemma args_steady start end_ args rs : List.Forall2 (keeps start end_) args rs -> forallb fst rs = true ->
  forallb steady args = true /\ length args = length rs /\ forall s t t', map (fun r => den (snd r) s t) rs = map (fun r => den (snd r) s t') rs.
Proof.
  induction 1 as [|a r args rs [_ Hk] _ IH]; intros Hf; [auto|]. cbn in Hf. apply andb_true_iff in Hf as [H1 H2]. destruct (Hk H1) as [Hs Hd], (IH H2) as (Hs' & Hl & Hd').
  cbn. rewrite Hs, Hl. split; [exact Hs'|]. split; [reflexivity|]. intros s t t'. f_equal; [apply Hd|apply Hd'].
Qed.

Lemma call_keeps start end_ f args rs r : List.Forall2 (keeps start end_) args rs -> bool_decide (f_Name f = "info"%string) && forallb steady args = false ->
  (if negb (unsafe f) && forallb fst rs then Ret (true, Call f (map snd rs)) else Ret (false, Call f (map wrap rs))) = Ret r ->
  keeps start end_ (Call f args) r.
Proof.
  intros Ha Hi. assert (Hlen : length args = length rs) by (exact (List.Forall2_length Ha)).
  destruct (negb (unsafe f) && forallb fst rs) eqn:Ei; intros [= <-]; (split; [|try discriminate]); cbn.
  - intros s t. rewrite (args_den start end_ args rs snd s t Ha), !length_map, Hlen by auto. reflexivity.
  - intros _. apply andb_true_iff in Ei as [Eu Ei]. apply negb_true_iff in Eu. destruct (args_steady start end_ args rs Ha Ei) as (Hs & _ & Hd).
    assert (Hsees : sees_time f (length args) = false).
    { destruct (sees_time f (length args)) eqn:E; [|reflexivity]. rewrite Hs, andb_true_r in Hi. apply bool_decide_eq_false in Hi. rewrite (sees_time_unsafe f _ E Hi) in Eu. discriminate. }
    rewrite Hsees, Hs. split; [reflexivity|]. intros s t t'. rewrite !map_map, length_map, <- Hlen, Hsees. f_equal. apply Hd.
  - intros s t. rewrite (args_den start end_ args rs wrap s t Ha), !length_map, Hlen by auto. reflexivity.
Qed.

(** Splits the bind in [E] whose first part is the preprocessing of a child. *)
Ltac split_helper E r := match type of E with context [outcome_bind (preprocessExprHelper ?s ?t ?e) _] =>
  destruct (preprocessExprHelper s t e) as [r|]; [cbn [outcome_bind] in E|discriminate E] end.

Lemma helper_selector_same start end_ e r : preprocessExprHelper start end_ e = Ret r -> is_selector (snd r) = is_selector e.
Proof.
  destruct e; cbn [preprocessExprHelper]; intros E; try (split_helper E r1); try discriminate E; try (injection E as <-; reflexivity).
  - split_helper E r2. destruct (_ && _); injection E as <-; reflexivity.
  - destruct (preprocess_args _ _) as [rs|]; [|discriminate E]. cbn in E. destruct (_ && _); injection E as <-; reflexivity.
Qed.

Lemma matrix_keeps start end_ e range re : preprocessExprHelper start end_ e = Ret re -> keeps start end_ e re -> keeps start end_ (MatrixSelector e range) (fst re, MatrixSelector (snd re) range).
Proof.
  intros E [_ Hk]. pose proof (helper_selector_same start end_ e re E) as Hs. destruct (is_selector e) eqn:Ei.
  - destruct e as [| | | | | | | | | |vs]; try discriminate. cbn in E. injection E as <-. cbn. split; cbn; [reflexivity|].
    intros Hi. rewrite at_time_some in Hi. split; [exact Hi|]. rewrite <- (at_time_some start end_) in Hi. intros s t t'. destruct (at_time _ _ _ _); [reflexivity|discriminate].
  - assert (Hd : forall e, is_selector e = false -> forall s t, den (MatrixSelector e range) s t = m_other) by (intros []; cbn; discriminate || reflexivity).
    assert (Es : is_selector (settle start end_ e) = false) by (destruct e; exact Ei || reflexivity).
    split; cbn [fst snd]; [intros s t; cbn [settle]; rewrite !Hd by assumption; reflexivity|intros Hi; split; [apply (Hk Hi)|intros s t t'; rewrite !Hd by assumption; reflexivity]].
Qed.

Lemma helper_keeps start end_ e : forall r, constant_params e = true -> moving_info e = true -> preprocessExprHelper start end_ e = Ret r -> keeps start end_ e r.
Proof.
  induction e as [op e param g w IHe _|op l r0 vm rb IHl IHr|f args IH|vs range IH|e mods IH|v|e IH|v|op e IH|e IH|vs] using expr_nested_ind;
    intros r Hc Hm E; cbn [constant_params moving_info] in Hc, Hm; cbn [preprocessExprHelper] in E.
  - apply andb_true_iff in Hc as [Hc Hp]. split_helper E re. injection E as <-. destruct (IHe re Hc Hm eq_refl) as [H1 H2]. destruct param as [p|].
    + destruct (constant_den p Hp start end_) as [Es Hd]. split; cbn; [intros s t; rewrite H1, Es; reflexivity|].
      intros Hi. destruct (H2 Hi) as [Hs Ht]. split; [exact Hs|]. intros s t t'. rewrite (Ht s t t'), (Hd s t s t'). reflexivity.
    + split; cbn; [intros s t; rewrite H1; reflexivity|]. intros Hi. destruct (H2 Hi) as [Hs Ht]. split; [exact Hs|]. intros s t t'. rewrite (Ht s t t'). reflexivity.
  - apply andb_true_iff in Hc as [Hc1 Hc2], Hm as [Hm1 Hm2]. split_helper E rl. split_helper E rr. specialize (IHl rl Hc1 Hm1 eq_refl). specialize (IHr rr Hc2 Hm2 eq_refl).
    destruct (fst rl && fst rr) eqn:Ei; injection E as <-; (split; [|try discriminate]); cbn.
    + intros s t. rewrite (proj1 IHl), (proj1 IHr). reflexivity.
    + intros _. apply andb_true_iff in Ei as [E1 E2]. destruct (proj2 IHl E1) as [Hl0 Hl], (proj2 IHr E2) as [Hr0 Hr]. split; [rewrite Hl0; exact Hr0|]. intros s t t'. rewrite (Hl s t t'), (Hr s t t'). reflexivity.
    + intros s t. rewrite (wrap_keeps _ _ _ _ IHl), (wrap_keeps _ _ _ _ IHr). reflexivity.
  - destruct (preprocess_args _ args) as [rs|] eqn:Ers; [|discriminate]. apply andb_true_iff in Hm as [Hi Hm]. apply negb_true_iff in Hi. exact (call_keeps start end_ f args rs r (args_keep start end_ args IH Hc Hm rs Ers) Hi E).
  - destruct (preprocessExprHelper start end_ vs) as [rv|] eqn:Ev; [|discriminate]. injection E as <-. exact (matrix_keeps start end_ vs range rv Ev (IH rv Hc Hm eq_refl)).
  - split_helper E re. injection E as <-. specialize (IH re Hc Hm eq_refl). split; cbn.
    + intros s t. apply m_subquery_ext. apply (wrap_keeps _ _ _ _ IH).
    + intros Hi. rewrite at_time_some in Hi. split; [exact Hi|]. rewrite <- (at_time_some start end_) in Hi. intros s t t'. destruct (at_time _ _ _ _); [reflexivity|discriminate].
  - injection E as <-. split; cbn; auto.
  - split_helper E re. injection E as <-. exact (IH re Hc Hm eq_refl).
  - injection E as <-. split; cbn; auto.
  - split_helper E re. injection E as <-. destruct (IH re Hc Hm eq_refl) as [H1 H2]. split; cbn; [intros s t; rewrite H1; reflexivity|].
    intros Hi. destruct (H2 Hi) as [Hs Ht]. split; [exact Hs|]. intros s t t'. rewrite (Ht s t t'). reflexivity.
  - discriminate.
  - injection E as <-. split; cbn; [reflexivity|]. intros Hi. rewrite at_time_some in Hi. split; [exact Hi|]. rewrite <- (at_time_some start end_) in Hi. intros s t t'. destruct (at_time _ _ _ _); [reflexivity|discriminate].
Qed.

(** C15: Preprocessing a query keeps its meaning: at every time of every range
    the preprocessed query, in which what is wrapped is evaluated at the start
    only, has the value of the query with its [@] modifiers settled, whatever
    the operators mean, if the parameters of aggregations are literals and no call of
    [info] has only arguments that are the same at every time.  The meaning gives the
    evaluation time to the functions whose implementations read it ([sees_time]), not to
    those that the code lists as unsafe. *)
Theorem preprocess_keeps_meaning e start end_ e' : constant_params e = true -> moving_info e = true -> PreprocessExpr e start end_ = Ret e' ->
  forall s t, den e' s t = den (settle start end_ e) s t.
Proof.
  intros Hc Hm E. unfold PreprocessExpr in E. destruct (preprocessExprHelper start end_ e) as [r|] eqn:Er; [|discriminate]. injection E as <-.
  exact (wrap_keeps _ _ _ _ (helper_keeps start end_ e r Hc Hm Er)).
Qed.
End meaning.

(** ** Concrete queries *)
Section demo.

#[local] Existing Instance demo_regex.

(** The sum of the times that are read. *)
#[local] Instance demo_meaning : Meaning Z := {
  m_number _ := 1; m_string _ := 0; m_selector _ t := t; m_matrix _ range t := t; m_subquery _ s t f := f s t; m_unary _ v := v;
  m_binary _ _ _ a b := a + b; m_aggregate _ _ _ p v := match p with Some p => p + v | None => v end;
  m_call _ vs t := foldr Z.add (match t with Some t => t | None => 0 end) vs; m_other := 0 }.

#[local] Instance demo_meaning_ok : MeaningOK demo_meaning.
Proof. constructor. intros m s t f g H. apply H. Qed.

Example demo_preprocessed : exists e', PreprocessExpr (resolve false demo_query) 0 100 = Ret e' /\
  match e' with BinaryExpr _ (BinaryExpr _ (StepInvariantExpr _) _ _ _) (Call _ [StepInvariantExpr (ParenExpr (VectorSel vs))]) _ _ => vs_Timestamp vs = Some 0 | _ => False end.
Proof. eexists. split; vm_compute; reflexivity. Qed.

Example checked_query_evaluable_witness : exists e', PreprocessExpr (resolve false demo_query) 0 100 = Ret e' /\ Type_ e' = ValueTypeVector /\ evaluable false e' = true.
Proof.
  apply (checked_query_evaluable 0 100 demo_query ValueTypeVector); [vm_compute; reflexivity|vm_compute; reflexivity|left; reflexivity|vm_compute; reflexivity].
Defined.

Example preprocess_keeps_meaning_witness : exists e', PreprocessExpr demo_query 0 100 = Ret e' /\ den e' 5 50 = 10 + 50 + (0 + 50).
Proof.
  destruct (PreprocessExpr demo_query 0 100) as [e'|] eqn:E; [|vm_compute in E; discriminate E]. exists e'. split; [reflexivity|].
  rewrite (preprocess_keeps_meaning demo_query 0 100 e'); [vm_compute; reflexivity|vm_compute; reflexivity|vm_compute; reflexivity|exact E].
Defined.

(** The parameter of an aggregation is ignored by preprocessing: a checked
    query like [topk(scalar(x), y @ 10)] is evaluated only once, at the start of
    the range, although its parameter changes with time. *)
Theorem preprocess_ignores_params : exists e e' s t,
  checkAST false e = Ret ((ValueTypeVector, resolve false e), []) /\ PreprocessExpr (resolve false e) 0 100 = Ret (StepInvariantExpr e') /\
  den (StepInvariantExpr e') s t <> den (settle 0 100 e) s t.
Proof.
  exists (AggregateExpr TOPK (demo_named "y" (Some 10)) (Some (Call (demo_fun "scalar") [demo_named "x" None])) [] false).
  eexists _, 0, 100. split; [vm_compute; reflexivity|]. split; [vm_compute; reflexivity|]. vm_compute. discriminate.
Qed.

(** [info] of a vector with an [@] modifier is evaluated only once, at the start of the
    range, although the info series are read at the evaluation time. *)
Lemma info_read_once : exists e e' s t,
  checkAST false e = Ret ((ValueTypeVector, resolve false e), []) /\ PreprocessExpr (resolve false e) 0 100 = Ret (StepInvariantExpr e') /\
  den (StepInvariantExpr e') s t <> den (settle 0 100 e) s t.
Proof.
  exists (Call (demo_fun "info") [demo_named "x" (Some 10)]).
  eexists _, 0, 100. split; [vm_compute; reflexivity|]. split; [vm_compute; reflexivity|]. vm_compute. discriminate.
Qed.

(** A checked call of [info] whose label selector has an [@] modifier fails an
    assertion of [evalInfo]: the selector has been wrapped. *)
Lemma info_at_modifier_fails : exists e e', checkAST false e = Ret ((ValueTypeVector, resolve false e), []) /\
  PreprocessExpr (resolve false e) 0 100 = Ret e' /\ evaluable false e' = false.
Proof.
  exists (Call (demo_fun "info") [demo_named "x" None; demo_labels (Some 10)]).
  eexists. split; [vm_compute; reflexivity|]. split; [vm_compute; reflexivity|]. vm_compute. reflexivity.
Qed.

(** The checker accepts a string in parentheses, and a range selector in parentheses
    with an [@] modifier, and preprocessing wraps them; the evaluator takes a
    [StepInvariantExpr] directly over a literal or a range as it is, but of any other
    one it asserts a matrix with one sample for each series. *)
Lemma string_in_parens_wrapped :
  checkAST false (ParenExpr (StringLiteral "foo")) = Ret ((ValueTypeString, ParenExpr (StringLiteral "foo")), []) /\
  PreprocessExpr (ParenExpr (StringLiteral "foo")) 0 100 = Ret (StepInvariantExpr (ParenExpr (StringLiteral "foo"))) /\
  let range := ParenExpr (MatrixSelector (demo_named "x" (Some 10)) (300 * 1000000)) in
  checkAST false range = Ret ((ValueTypeMatrix, resolve false range), []) /\
  exists e', PreprocessExpr (resolve false range) 0 100 = Ret (StepInvariantExpr (ParenExpr (MatrixSelector e' (300 * 1000000)))).
Proof. split; [vm_compute; reflexivity|]. split; [vm_compute; reflexivity|]. split; [vm_compute; reflexivity|]. eexists. vm_compute. reflexivity. Qed.

(** A checked call of [info] with a selector in parentheses makes the checker panic. *)
Lemma info_paren_panics : checkAST false (Call (demo_fun "info") [demo_named "x" None; ParenExpr (demo_labels None)]) = Panic.
Proof. vm_compute. reflexivity. Qed.
End demo.
