(* ===== verification/PromqlTimes.v ===== *)
(** * Time ranges of queries: [promql/engine.go], [promql/parser/ast.go]

    The walk over the tree of a query, the times that subqueries, offsets and
    [@] modifiers shift its selectors to, and the range of time the storage is
    asked for, which covers every sample the evaluation can read. *)

From stdpp Require Import base list numbers gmap strings.
From Stdlib Require Import ZArith Lia SpecFloat.
From S2P Require Import Prelude Promql PromqlEval.

#[local] Open Scope Z_scope.

(** ** Walking a tree *)
Definition Children (node : expr) : list expr :=
  match node with
  | AggregateExpr _ e param _ _ => match param with Some p => [e; p] | None => [e] end
  | BinaryExpr _ l r _ _ => [l; r]
  | Call _ args => args
  | SubqueryExpr e _ | ParenExpr e | UnaryExpr _ e | MatrixSelector e _ | StepInvariantExpr e => [e]
  | NumberLiteral _ | StringLiteral _ | VectorSel _ => []
  end.

Section walk.
Context {St : Type}.
(** A visitor changes a state, and says whether to go on. *)
Variable visit : expr -> list expr -> St -> St * bool.

Definition and_then (r : St * bool) (k : St -> St * bool) : St * bool := let '(s, ok) := r in if ok : bool then k s else (s, false).

Section list.
Variable walk : expr -> list expr -> St -> St * bool.
Fixpoint walk_list (nodes : list expr) (path : list expr) (s : St) : St * bool :=
  match nodes with
  | [] => (s, true)
  | n :: nodes' => and_then (walk n path s) (walk_list nodes' path)
  end.
End list.

(** [Walk]: the node, then its children in order, with the path to them. *)
Fixpoint Walk (node : expr) (path : list expr) (s : St) {struct node} : St * bool :=
  and_then (visit node path s) (fun s =>
    let path := path ++ [node] in
    match node with
    | AggregateExpr _ e param _ _ => and_then (Walk e path s) (fun s => match param with Some p => Walk p path s | None => (s, true) end)
    | BinaryExpr _ l r _ _ => and_then (Walk l path s) (Walk r path)
    | Call _ args => walk_list Walk args path s
    | SubqueryExpr e _ | ParenExpr e | UnaryExpr _ e | MatrixSelector e _ | StepInvariantExpr e => Walk e path s
    | NumberLiteral _ | StringLiteral _ | VectorSel _ => (s, true)
    end).
Definition Inspect (node : expr) (s : St) : St := fst (Walk node [] s).

Lemma and_then_ret r : and_then r (fun s => (s, true)) = r.
Proof. destruct r as [s []]; reflexivity. Qed.

Lemma Walk_children node path s : Walk node path s = and_then (visit node path s) (walk_list Walk (Children node) (path ++ [node])).
Proof.
  destruct node as [op e [p|] g w|op l r vm rb|f args|e range|e m|v|e|v|op e|e|vs]; cbn [Walk Children]; destruct (visit _ _ _) as [s' []]; try reflexivity.
  all: cbn [and_then walk_list]; try (rewrite and_then_ret; reflexivity).
  all: match goal with |- and_then ?r _ = and_then ?r _ => destruct r as [s1 []] end; cbn [and_then walk_list]; rewrite ?and_then_ret; reflexivity.
Qed.
End walk.

(** The matchers of all selectors of a query. *)
Definition ExtractSelectors (e : expr) : list (list Matcher) :=
  Inspect (fun node _ acc => (match node with VectorSel vs => acc ++ [LabelMatchers vs] | _ => acc end, true)) e [].

(** ** Time ranges *)
Definition maxInt64 : Z := 2 ^ 63 - 1.
Definition minInt64 : Z := - 2 ^ 63.
Definition Millisecond : Z := 1000000.
Definition durationMilliseconds (d : Z) : Z := Z.quot d Millisecond.

(** The offsets and ranges, and the last time of an [@] modifier; the largest
    integer stands for none. *)
Definition subquery_step (acc : Z * Z * Z) (node : expr) : Z * Z * Z :=
  let '(subqOffset, subqRange, ts) := acc in
  match node with
  | SubqueryExpr _ m =>
      match sq_Timestamp m with
      | Some t => (sq_OriginalOffset m, sq_Range m, t)
      | None => (i64 (subqOffset + sq_OriginalOffset m), i64 (subqRange + sq_Range m), ts)
      end
  | _ => acc
  end.
Definition subqueryTimes (path : list expr) : Z * Z * option Z :=
  let '(subqOffset, subqRange, ts) := fold_left subquery_step path (0, 0, maxInt64) in
  (subqOffset, subqRange, if ts =? maxInt64 then None else Some ts).

(** An evaluation statement, its times in milliseconds. *)
Record EvalStmt := mkStmt { s_Start : Z; s_End : Z; s_LookbackDelta : Z }.

Definition getTimeRangesForSelector (s : EvalStmt) (n : VectorSelector) (path : list expr) (evalRange : Z) : Z * Z :=
  let '(subqOffset, subqRange, subqTs) := subqueryTimes path in
  let '(start, end_) := match subqTs with Some ts => (ts, ts) | None => (s_Start s, s_End s) end in
  let '(start, end_) :=
    match vs_Timestamp n with
    | Some ts => (ts, ts)
    | None =>
        let offsetMilliseconds := durationMilliseconds subqOffset in
        (i64 (i64 (start - offsetMilliseconds) - durationMilliseconds subqRange), i64 (end_ - offsetMilliseconds))
    end in
  let start :=
    if evalRange =? 0 then i64 (start - i64 (durationMilliseconds (s_LookbackDelta s) - 1))
    else i64 (start - i64 (durationMilliseconds evalRange - 1)) in
  let offsetMilliseconds := durationMilliseconds (vs_OriginalOffset n) in
  (i64 (start - offsetMilliseconds), i64 (end_ - offsetMilliseconds)).

(** The visitor of [FindMinMaxTime]; its state is the range so far, and the range
    of the matrix selector whose selector comes next. *)
Definition find_visit (s : EvalStmt) (node : expr) (path : list expr) (st : Z * Z * Z) : Z * Z * Z * bool :=
  let '(minTimestamp, maxTimestamp, evalRange) := st in
  (match node with
   | VectorSel n =>
       let '(start, end_) := getTimeRangesForSelector s n path evalRange in
       (if start <? minTimestamp then start else minTimestamp, if maxTimestamp <? end_ then end_ else maxTimestamp, 0)
   | MatrixSelector _ range => (minTimestamp, maxTimestamp, range)
   | _ => st
   end, true).

Definition FindMinMaxTime (s : EvalStmt) (e : expr) : Z * Z :=
  let '(minTimestamp, maxTimestamp, _) := Inspect (find_visit s) e (maxInt64, minInt64, 0) in
  if maxTimestamp =? minInt64 then (0, 0) else (minTimestamp, maxTimestamp).

(** ** What an evaluation reads *)

(** [reads_of info lookback e s t x]: evaluating [e] at the time [t] of a range that starts
    at [s] may look at a sample of the time [x].  A selector looks back from the
    time it is shifted to, a subquery is evaluated at times of its range.  [info] also
    reads the info series, at the time of the evaluation whatever its argument is
    ([evalSeries] with offset 0 in [fetchInfoSeries]); with [info = false] these reads
    are left out. *)
Inductive reads_of (info : bool) (lookback : Z) : expr -> Z -> Z -> Z -> Prop :=
| R_selector vs s t x T : T = read_time t (vs_Timestamp vs) - durationMilliseconds (vs_OriginalOffset vs) ->
    T - durationMilliseconds lookback < x <= T -> reads_of info lookback (VectorSel vs) s t x
| R_matrix vs range s t x T : T = read_time t (vs_Timestamp vs) - durationMilliseconds (vs_OriginalOffset vs) ->
    T - durationMilliseconds range < x <= T -> reads_of info lookback (MatrixSelector (VectorSel vs) range) s t x
| R_subquery e m s t x s' t' S T : S = read_time s (sq_Timestamp m) - durationMilliseconds (sq_OriginalOffset m) ->
    T = read_time t (sq_Timestamp m) - durationMilliseconds (sq_OriginalOffset m) ->
    S - durationMilliseconds (sq_Range m) < s' <= t' -> T - durationMilliseconds (sq_Range m) < t' <= T ->
    reads_of info lookback e s' t' x -> reads_of info lookback (SubqueryExpr e m) s t x
| R_invariant e s t x : reads_of info lookback e s s x -> reads_of info lookback (StepInvariantExpr e) s t x
| R_paren e s t x : reads_of info lookback e s t x -> reads_of info lookback (ParenExpr e) s t x
| R_unary op e s t x : reads_of info lookback e s t x -> reads_of info lookback (UnaryExpr op e) s t x
| R_left op l r vm rb s t x : reads_of info lookback l s t x -> reads_of info lookback (BinaryExpr op l r vm rb) s t x
| R_right op l r vm rb s t x : reads_of info lookback r s t x -> reads_of info lookback (BinaryExpr op l r vm rb) s t x
| R_aggregate op e param g w s t x : reads_of info lookback e s t x -> reads_of info lookback (AggregateExpr op e param g w) s t x
| R_param op e p g w s t x : reads_of info lookback p s t x -> reads_of info lookback (AggregateExpr op e (Some p) g w) s t x
| R_call f args a s t x : In a args -> reads_of info lookback a s t x -> reads_of info lookback (Call f args) s t x
| R_info f args s t x : info = true -> f_Name f = "info"%string -> t - durationMilliseconds lookback < x <= t -> reads_of info lookback (Call f args) s t x.
Definition reads : Z -> expr -> Z -> Z -> Z -> Prop := reads_of true.

(** An expression with a selector that is read at the time of the evaluation. *)
Fixpoint now_selector (e : expr) : bool :=
  match e with
  | VectorSel vs => negb (is_some (vs_Timestamp vs)) && (vs_OriginalOffset vs =? 0)
  | ParenExpr e | UnaryExpr _ e | AggregateExpr _ e _ _ _ => now_selector e
  | BinaryExpr _ l r _ _ => now_selector l || now_selector r
  | Call _ args => existsb now_selector args
  | MatrixSelector _ _ | SubqueryExpr _ _ | StepInvariantExpr _ | NumberLiteral _ | StringLiteral _ => false
  end.

(** Every call of [info] has such a selector among its arguments; the second argument
    of [info], if there is one, is one. *)
Fixpoint info_near (e : expr) : bool :=
  match e with
  | AggregateExpr _ e param _ _ => info_near e && match param with Some p => info_near p | None => true end
  | MatrixSelector e _ | SubqueryExpr e _ | ParenExpr e | UnaryExpr _ e | StepInvariantExpr e => info_near e
  | BinaryExpr _ l r _ _ => info_near l && info_near r
  | Call f args => (negb (bool_decide (f_Name f = "info"%string)) || existsb now_selector args) && forallb info_near args
  | NumberLiteral _ | StringLiteral _ | VectorSel _ => true
  end.

Lemma now_selector_reads info lookback e s t x : now_selector e = true -> t - durationMilliseconds lookback < x <= t -> reads_of info lookback e s t x.
Proof.
  intros He Hx. revert He. induction e as [op e param g w IHe IHp|op l r vm rb IHl IHr|f args IH|vs range IH|e mods IH|v|e IH|v|op e IH|e IH|vs] using expr_nested_ind;
    cbn [now_selector]; intros He; try discriminate.
  - apply R_aggregate, IHe, He.
  - apply orb_true_iff in He as [He|He]; [apply R_left, IHl, He|apply R_right, IHr, He].
  - apply existsb_exists in He as (a & Ha & He). apply (R_call _ _ f args a); [exact Ha|]. exact (proj1 (List.Forall_forall _ _) IH a Ha He).
  - apply R_paren, IH, He.
  - apply R_unary, IH, He.
  - apply andb_true_iff in He as [Hts Hoff]. apply Z.eqb_eq in Hoff. eapply R_selector; [reflexivity|]. rewrite Hoff. change (durationMilliseconds 0) with 0.
    destruct (vs_Timestamp vs); [discriminate|]. cbn. lia.
Qed.

(** What [info] reads then is also read by an argument. *)
Lemma reads_near lookback e s t x : info_near e = true -> reads lookback e s t x -> reads_of false lookback e s t x.
Proof.
  intros He H. revert He. induction H; cbn [info_near]; intros He; rewrite ?andb_true_iff in He; try (econstructor; solve [eauto | tauto]).
  - destruct He as [_ He]. rewrite forallb_forall in He. eapply R_call; eauto.
  - destruct He as [He _]. rewrite bool_decide_eq_true_2 in He by assumption. cbn in He. apply existsb_exists in He as (a & Ha & He).
    eapply R_call; [exact Ha|]. apply now_selector_reads; assumption.
Qed.

(** Times and durations for which nothing overflows; durations are whole
    milliseconds, as those of the language are. *)
Definition small_time (t : Z) : bool := (- 2 ^ 60 <=? t) && (t <=? 2 ^ 60).
Definition small_duration (d : Z) : bool := (Z.abs d <=? 2 ^ 60) && (Z.rem d Millisecond =? 0).
Definition small_timestamp (ts : option Z) : bool := match ts with Some t => small_time t | None => true end.
Fixpoint small_expr (acc : Z) (e : expr) : bool :=
  match e with
  | VectorSel vs => small_timestamp (vs_Timestamp vs) && small_duration (vs_OriginalOffset vs)
  | MatrixSelector e range => is_selector e && (0 <? range) && small_duration range && small_expr acc e
  | SubqueryExpr e m =>
      let acc := acc + Z.abs (sq_OriginalOffset m) + Z.abs (sq_Range m) in
      small_timestamp (sq_Timestamp m) && small_duration (sq_OriginalOffset m) && small_duration (sq_Range m) && (acc <=? 2 ^ 60) && small_expr acc e
  | AggregateExpr _ e param _ _ => small_expr acc e && match param with Some p => small_expr acc p | None => true end
  | BinaryExpr _ l r _ _ => small_expr acc l && small_expr acc r
  | Call _ args => forallb (small_expr acc) args
  | ParenExpr e | UnaryExpr _ e | StepInvariantExpr e => small_expr acc e
  | NumberLiteral _ | StringLiteral _ => true
  end.
Definition small_stmt (s : EvalStmt) : bool := small_time (s_Start s) && small_time (s_End s) && small_duration (s_LookbackDelta s) && (0 <=? s_LookbackDelta s).

(** ** The range covers what is read *)
Lemma duration_ms d : Z.rem d Millisecond = 0 -> d = Millisecond * durationMilliseconds d.
Proof. intros H. unfold durationMilliseconds. pose proof (Z.quot_rem' d Millisecond). lia. Qed.

Lemma ms_duration k : durationMilliseconds (Millisecond * k) = k.
Proof. unfold durationMilliseconds. rewrite Z.mul_comm. apply Z.quot_mul. discriminate. Qed.

(** A duration as a number of milliseconds. *)
Definition whole (d k : Z) : Prop := d = Millisecond * k /\ durationMilliseconds d = k.
Lemma whole_ms d : Z.rem d Millisecond = 0 -> whole d (durationMilliseconds d).
Proof. intros H. split; [exact (duration_ms d H)|reflexivity]. Qed.
Lemma whole_add d1 d2 k1 k2 : whole d1 k1 -> whole d2 k2 -> whole (d1 + d2) (k1 + k2).
Proof. intros [-> _] [-> _]. replace (Millisecond * k1 + Millisecond * k2) with (Millisecond * (k1 + k2)) by lia. split; [reflexivity|apply ms_duration]. Qed.
Lemma small_whole d : small_duration d = true -> Z.abs d <= 2 ^ 60 /\ whole d (durationMilliseconds d).
Proof. unfold small_duration. rewrite andb_true_iff, Z.leb_le, Z.eqb_eq. intros [H1 H2]. split; [exact H1|exact (whole_ms d H2)]. Qed.

(** The sums over a path, for which nothing has overflowed. *)
Definition path_small (acc : Z) (p : Z * Z * Z) : Prop :=
  let '(off, rng, ts) := p in
  0 <= acc <= 2 ^ 60 /\ Z.abs off <= acc /\ Z.abs rng <= acc /\ whole off (durationMilliseconds off) /\ whole rng (durationMilliseconds rng) /\
  (ts = maxInt64 \/ small_time ts = true).

(** The times at which the node at the end of a path may be evaluated. *)
Definition in_window (st : EvalStmt) (p : Z * Z * Z) (t : Z) : Prop :=
  let '(off, rng, ts) := p in
  (if ts =? maxInt64 then s_Start st else ts) - durationMilliseconds off - durationMilliseconds rng <= t
  /\ t <= (if ts =? maxInt64 then s_End st else ts) - durationMilliseconds off.

Lemma small_not_max t : small_time t = true -> (t =? maxInt64) = false /\ - 2 ^ 60 <= t <= 2 ^ 60.
Proof. unfold small_time, maxInt64. rewrite andb_true_iff, !Z.leb_le. intros H. split; [apply Z.eqb_neq; lia|lia]. Qed.

Lemma subquery_window st acc p e m : path_small acc p -> small_timestamp (sq_Timestamp m) = true -> small_duration (sq_OriginalOffset m) = true ->
  small_duration (sq_Range m) = true -> acc + Z.abs (sq_OriginalOffset m) + Z.abs (sq_Range m) <= 2 ^ 60 ->
  path_small (acc + Z.abs (sq_OriginalOffset m) + Z.abs (sq_Range m)) (subquery_step p (SubqueryExpr e m)) /\
  forall t T t', in_window st p t -> T = read_time t (sq_Timestamp m) - durationMilliseconds (sq_OriginalOffset m) ->
    T - durationMilliseconds (sq_Range m) < t' <= T -> in_window st (subquery_step p (SubqueryExpr e m)) t'.
Proof.
  destruct p as [[off rng] ts]. intros (Hacc & Ho & Hr & Wo & Wr & Hts) Hmt Hmo Hmr Hsum. apply small_whole in Hmo as [_ Wmo], Hmr as [_ Wmr].
  cbn [subquery_step]. destruct (sq_Timestamp m) as [tm|]; cbn [read_time small_timestamp] in *.
  - destruct (small_not_max tm Hmt) as [Hne _]. split.
    + split; [lia|]. split; [lia|]. split; [lia|]. auto.
    + intros t T t' _ -> Ht'. unfold in_window. rewrite Hne. lia.
  - rewrite !i64_id by (unfold is_i64; lia). pose proof (whole_add _ _ _ _ Wo Wmo) as W1. pose proof (whole_add _ _ _ _ Wr Wmr) as W2. split.
    + split; [lia|]. split; [lia|]. split; [lia|]. split; [rewrite (proj2 W1); exact W1|]. split; [rewrite (proj2 W2); exact W2|]. exact Hts.
    + intros t T t' Hw -> Ht'. unfold in_window in *. rewrite (proj2 W1), (proj2 W2). lia.
Qed.

(** Removes the wrap-around of sums that do not overflow, the inner ones first. *)
Ltac no_overflow := repeat match goal with |- context [i64 ?z] =>
  lazymatch z with context [i64 _] => fail | _ => rewrite (i64_id z) by (unfold is_i64; lia) end end.

(** What a selector may read is within its time range. *)
Lemma selector_range st acc path vs r : small_stmt st = true -> path_small acc (fold_left subquery_step path (0, 0, maxInt64)) ->
  small_timestamp (vs_Timestamp vs) = true -> small_duration (vs_OriginalOffset vs) = true -> small_duration r = true ->
  let '(a, b) := getTimeRangesForSelector st vs path r in - 2 ^ 62 <= a /\
  forall t T x, in_window st (fold_left subquery_step path (0, 0, maxInt64)) t ->
    T = read_time t (vs_Timestamp vs) - durationMilliseconds (vs_OriginalOffset vs) ->
    T - durationMilliseconds (if r =? 0 then s_LookbackDelta st else r) < x <= T -> a <= x <= b.
Proof.
  intros Hst Hp Hts Ho Hr. unfold small_stmt in Hst. rewrite !andb_true_iff in Hst. destruct Hst as [[[H1 H2] H3] H4].
  set (look := if r =? 0 then s_LookbackDelta st else r).
  apply small_not_max in H1 as [_ H1], H2 as [_ H2].
  apply small_whole in H3 as [H3 W3], Ho as [Ho Wo], Hr as [Hr Wr].
  assert (Hlook : (if r =? 0 then durationMilliseconds (s_LookbackDelta st) else durationMilliseconds r) = durationMilliseconds look) by (unfold look; destruct (r =? 0); reflexivity).
  assert (Hk : Z.abs (durationMilliseconds look) <= 2 ^ 50 /\ look = Millisecond * durationMilliseconds look).
  { unfold look. destruct (r =? 0); [destruct W3 as [W3 _]|destruct Wr as [Wr _]]; unfold Millisecond in *; lia. }
  assert (Hko : Z.abs (durationMilliseconds (vs_OriginalOffset vs)) <= 2 ^ 50) by (destruct Wo as [Wo _]; unfold Millisecond in *; lia).
  unfold getTimeRangesForSelector, subqueryTimes. destruct (fold_left subquery_step path (0, 0, maxInt64)) as [[off rng] ts].
  destruct Hp as (Hacc & Hof & Hrn & Wof & Wrn & Htsm). unfold in_window.
  assert (Hkf : Z.abs (durationMilliseconds off) <= 2 ^ 50 /\ Z.abs (durationMilliseconds rng) <= 2 ^ 50).
  { destruct Wof as [Wof _], Wrn as [Wrn _]. unfold Millisecond in *. lia. }
  assert (Hb : - 2 ^ 60 <= (if ts =? maxInt64 then s_Start st else ts) <= 2 ^ 60 /\ - 2 ^ 60 <= (if ts =? maxInt64 then s_End st else ts) <= 2 ^ 60).
  { destruct Htsm as [-> | Htsm]; [rewrite Z.eqb_refl; lia|]. destruct (small_not_max ts Htsm) as [-> Hsm]. lia. }
  replace (match (if ts =? maxInt64 then None else Some ts) with Some ts => (ts, ts) | None => (s_Start st, s_End st) end)
    with ((if ts =? maxInt64 then s_Start st else ts), (if ts =? maxInt64 then s_End st else ts)) by (destruct (ts =? maxInt64); reflexivity).
  set (lo := if ts =? maxInt64 then s_Start st else ts) in *. set (hi := if ts =? maxInt64 then s_End st else ts) in *. clearbody lo hi.
  rewrite <- Hlook in *. destruct (vs_Timestamp vs) as [tv|]; cbn [read_time small_timestamp] in *;
    [apply small_not_max in Hts as [_ Hts]|]; destruct (r =? 0); no_overflow;
    (split; [lia|intros t T x Hw -> Hx; lia]).
Qed.

Section covers.
Variable st : EvalStmt.
Hypothesis Hst : small_stmt st = true.

(** The range has grown from [s] to [s'], which has no pending range. *)
Definition grown (s s' : Z * Z * Z) : Prop :=
  s'.1.1 <= s.1.1 /\ s.1.2 <= s'.1.2 /\ s'.2 = 0 /\ (- 2 ^ 62 <= s.1.1 -> - 2 ^ 62 <= s'.1.1).
(** It covers what may be read by [e] at the end of a path. *)
Definition covered (e : expr) (p : Z * Z * Z) (s' : Z * Z * Z) : Prop :=
  forall t0 t x, in_window st p t0 -> in_window st p t -> reads_of false (s_LookbackDelta st) e t0 t x -> s'.1.1 <= x <= s'.1.2.

Lemma grown_refl s : s.2 = 0 -> grown s s.
Proof. intros H. repeat split; auto with zarith. Qed.
Lemma grown_trans s1 s2 s3 : grown s1 s2 -> grown s2 s3 -> grown s1 s3.
Proof. intros (A1 & A2 & A3 & A4) (B1 & B2 & B3 & B4). repeat split; auto with zarith; lia. Qed.
Lemma covered_grown e p s s' : covered e p s -> grown s s' -> covered e p s'.
Proof. intros H (A1 & A2 & _) t0 t x H0 Ht Hr. specialize (H t0 t x H0 Ht Hr). lia. Qed.

Definition path_sums (path : list expr) : Z * Z * Z := fold_left subquery_step path (0, 0, maxInt64).
Lemma path_sums_app path node : path_sums (path ++ [node]) = subquery_step (path_sums path) node.
Proof. unfold path_sums. rewrite fold_left_app. reflexivity. Qed.

(** What is shown of the walk over a node. *)
Definition walk_ok (e : expr) : Prop := forall acc path s, small_expr acc e = true -> path_small acc (path_sums path) -> s.2 = 0 ->
  exists s', Walk (find_visit st) e path s = (s', true) /\ grown s s' /\ covered e (path_sums path) s'.

Lemma selector_walk vs path mn mx r acc : path_small acc (path_sums path) -> small_expr acc (VectorSel vs) = true -> small_duration r = true ->
  exists s', find_visit st (VectorSel vs) path (mn, mx, r) = (s', true) /\ grown (mn, mx, 0) s' /\
    forall t T x, in_window st (path_sums path) t -> T = read_time t (vs_Timestamp vs) - durationMilliseconds (vs_OriginalOffset vs) ->
      T - durationMilliseconds (if r =? 0 then s_LookbackDelta st else r) < x <= T -> s'.1.1 <= x <= s'.1.2.
Proof.
  intros Hp Hs Hr. cbn [small_expr] in Hs. apply andb_true_iff in Hs as [Hts Ho]. pose proof (selector_range st acc path vs r Hst Hp Hts Ho Hr) as H.
  cbn [find_visit]. destruct (getTimeRangesForSelector st vs path r) as [a b]. destruct H as [Ha Hx]. eexists. split; [reflexivity|]. unfold grown. cbn.
  destruct (Z.ltb_spec a mn), (Z.ltb_spec mx b); (split; [repeat split; lia|]); intros t T x Hw HT HX; specialize (Hx t T x Hw HT HX); lia.
Qed.

(** The visitor does nothing at other nodes. *)
Lemma visit_other e path s : match e with VectorSel _ | MatrixSelector _ _ => False | _ => True end -> find_visit st e path s = (s, true).
Proof. destruct s as [[mn mx] er], e; cbn; tauto || reflexivity. Qed.

(** Walking over a list of nodes covers all of them. *)
Lemma walk_list_ok nodes : List.Forall walk_ok nodes -> forall acc path s, forallb (small_expr acc) nodes = true -> path_small acc (path_sums path) -> s.2 = 0 ->
  exists s', walk_list (Walk (find_visit st)) nodes path s = (s', true) /\ grown s s' /\ forall e, In e nodes -> covered e (path_sums path) s'.
Proof.
  induction 1 as [|e nodes He _ IH]; intros acc path s Hs Hp Hz; [exists s; split; [reflexivity|]; split; [apply grown_refl; exact Hz|intros e []]|].
  cbn in Hs. apply andb_true_iff in Hs as [Hs1 Hs2]. destruct (He acc path s Hs1 Hp Hz) as (s1 & E1 & G1 & C1).
  destruct (IH acc path s1 Hs2 Hp) as (s2 & E2 & G2 & C2); [apply G1|]. exists s2. cbn. rewrite E1. cbn. split; [exact E2|].
  split; [exact (grown_trans _ _ _ G1 G2)|]. intros x [<-|Hx]; [exact (covered_grown _ _ _ _ C1 G2)|exact (C2 x Hx)].
Qed.

(** A node without times of its own, whose children have the same path sums. *)
Lemma walk_plain e : (forall p, subquery_step p e = p) -> match e with VectorSel _ | MatrixSelector _ _ => False | _ => True end ->
  (forall acc, small_expr acc e = true -> forallb (small_expr acc) (Children e) = true) ->
  (forall t0 t x, reads_of false (s_LookbackDelta st) e t0 t x -> exists a, In a (Children e) /\ (reads_of false (s_LookbackDelta st) a t0 t x \/ reads_of false (s_LookbackDelta st) a t0 t0 x)) ->
  List.Forall walk_ok (Children e) -> walk_ok e.
Proof.
  intros Hstep Hother Hsmall Hreads IH acc path s Hs Hp Hz. rewrite Walk_children, (visit_other e path s Hother). cbn [and_then].
  assert (Ep : path_sums (path ++ [e]) = path_sums path) by (rewrite path_sums_app; apply Hstep).
  destruct (walk_list_ok (Children e) IH acc (path ++ [e]) s (Hsmall acc Hs)) as (s' & E & G & C); [rewrite Ep; exact Hp|exact Hz|].
  exists s'. split; [exact E|]. split; [exact G|]. rewrite Ep in C. intros t0 t x H0 Ht Hr. destruct (Hreads t0 t x Hr) as (a & Ha & [Hra|Hra]).
  - exact (C a Ha t0 t x H0 Ht Hra).
  - exact (C a Ha t0 t0 x H0 H0 Hra).
Qed.

Lemma in_window_convex p a b t : in_window st p a -> in_window st p b -> a <= t <= b -> in_window st p t.
Proof. destruct p as [[off rng] ts]. unfold in_window. lia. Qed.

Lemma walk_subquery e m : walk_ok e -> walk_ok (SubqueryExpr e m).
Proof.
  intros IH acc path s Hs Hp Hz. cbn [small_expr] in Hs. rewrite !andb_true_iff in Hs. destruct Hs as [[[[Hts Ho] Hr] Hsum] Hs]. apply Z.leb_le in Hsum.
  rewrite Walk_children, (visit_other (SubqueryExpr e m) path s I). cbn [and_then Children walk_list].
  destruct (subquery_window st acc (path_sums path) e m Hp Hts Ho Hr Hsum) as [Hp' Hw]. rewrite <- path_sums_app in Hp', Hw.
  destruct (IH _ (path ++ [SubqueryExpr e m]) s Hs Hp' Hz) as (s' & E & G & C). exists s'. rewrite E. split; [reflexivity|]. split; [exact G|].
  intros t0 t x H0 Ht Hrd. inversion Hrd as [| |e' m' s0 t1 x' s1 t2 S T ES ET Hs1 Ht2 Hin| | | | | | | | |]; subst.
  assert (Ht2' : in_window st (path_sums (path ++ [SubqueryExpr e m])) t2) by (eapply (Hw t); [exact Ht|reflexivity|lia]).
  apply (C s1 t2); [|exact Ht2'|exact Hin]. set (S0 := read_time t0 (sq_Timestamp m) - durationMilliseconds (sq_OriginalOffset m)) in *.
  destruct (Z.le_gt_cases s1 S0) as [Hle|Hgt]; [eapply (Hw t0 S0); [exact H0|reflexivity|lia]|].
  apply (in_window_convex _ S0 t2); [eapply (Hw t0 S0); [exact H0|reflexivity|lia]|exact Ht2'|lia].
Qed.

Lemma walk_matrix e range : walk_ok (MatrixSelector e range).
Proof.
  intros acc path s Hs Hp Hz. cbn [small_expr] in Hs. rewrite !andb_true_iff, Z.ltb_lt in Hs. destruct Hs as [[[Hsel Hpos] Hr] Hs].
  destruct e as [| | | | | | | | | |vs]; try discriminate. destruct s as [[mn mx] er]. cbn in Hz. subst er. rewrite Walk_children. cbn [find_visit and_then Children walk_list].
  assert (Ep : path_sums (path ++ [MatrixSelector (VectorSel vs) range]) = path_sums path)
    by (rewrite path_sums_app; destruct (path_sums path) as [[? ?] ?]; reflexivity).
  destruct (selector_walk vs (path ++ [MatrixSelector (VectorSel vs) range]) mn mx range acc) as (s' & E & G & C); [rewrite Ep; exact Hp|exact Hs|exact Hr|].
  exists s'. rewrite Walk_children, E. cbn. split; [reflexivity|]. split; [exact G|]. intros t0 t x _ Ht Hrd. inversion Hrd; subst.
  rewrite Ep in C. eapply C; [exact Ht|reflexivity|]. rewrite (proj2 (Z.eqb_neq range 0)) by lia. assumption.
Qed.

Lemma walk_selector vs : walk_ok (VectorSel vs).
Proof.
  intros acc path s Hs Hp Hz. destruct s as [[mn mx] er]. cbn in Hz. subst er. rewrite Walk_children.
  destruct (selector_walk vs path mn mx 0 acc Hp Hs eq_refl) as (s' & -> & G & C). exists s'. split; [reflexivity|]. split; [exact G|].
  intros t0 t x _ Ht Hrd. inversion Hrd; subst. eapply C; [exact Ht|reflexivity|assumption].
Qed.

Lemma walk_covers e : walk_ok e.
Proof.
  induction e as [op e param g w IHe IHp|op l r vm rb IHl IHr|f args IH|vs range IH|e mods IH|v|e IH|v|op e IH|e IH|vs] using expr_nested_ind.
  4: apply walk_matrix. 4: apply walk_subquery, IH. 9: apply walk_selector.
  all: apply walk_plain; [intros [[? ?] ?]; reflexivity|exact I| | |].
  all: try (intros t0 t x Hrd; inversion Hrd; subst; try discriminate; eexists; cbn; solve [eauto | destruct param; cbn; eauto]).
  all: cbn; rewrite ?List.Forall_cons_iff; auto.
  all: try (intros acc Hs; rewrite ?andb_true_iff in *; tauto).
  - intros acc Hs. apply andb_true_iff in Hs as [H1 H2]. destruct param; cbn; rewrite H1, ?H2; reflexivity.
  - destruct param as [p|]; rewrite ?List.Forall_cons_iff; auto.
Qed.

Lemma top_window t : s_Start st <= t <= s_End st -> in_window st (0, 0, maxInt64) t.
Proof. intros H. unfold in_window. rewrite Z.eqb_refl. change (durationMilliseconds 0) with 0. lia. Qed.

End covers.

(** [max_over_time((x offset 1ms)[10ms:] @ 5)] in a range from 0 to 100. *)
Definition demo_ranged : expr :=
  Call (demo_fun "max_over_time")
    [SubqueryExpr (VectorSel (mkVS "x" Millisecond 0 None false 0 [mkMatcher MatchEqual MetricName "x"] false)) (mkSubquery (10 * Millisecond) 0 0 (Some 5000) 0 0)].
Definition demo_stmt : EvalStmt := mkStmt 0 100 (300 * Millisecond).

Example demo_range : FindMinMaxTime demo_stmt demo_ranged = (4990 - 1 - 299, 5000 - 1).
Proof. vm_compute. reflexivity. Qed.


(** The range for [info(x offset 1m)] ends before the times at which the info series are
    read. *)
Lemma info_reads_outside :
  let e := Call (demo_fun "info") [VectorSel (mkVS "x" (60000 * Millisecond) 0 None false 0 [mkMatcher MatchEqual MetricName "x"] false)] in
  reads (s_LookbackDelta demo_stmt) e 0 50 50 /\ FindMinMaxTime demo_stmt e = (-60299, -59900).
Proof. split; [apply R_info; [reflexivity|reflexivity|vm_compute; intuition discriminate]|vm_compute; reflexivity]. Qed.
