(* ===== verification/Exemplar.v ===== *)
(** * The exemplar storage: [tsdb/exemplar.go] and [model/exemplar/exemplar.go]

    A circular buffer of the last exemplars over all series.  Every series with
    an exemplar has an index entry, an object shared between the index and the
    slots of the buffer, which knows the slots of the oldest and the newest
    exemplar of the series; a slot knows the next slot of its series.  The
    index entries live on a heap and pointers to them are positions of it.
    The specification is a queue of series and exemplars with a capacity;
    [repr] relates the two. *)

From stdpp Require Import base list numbers gmap.
From Stdlib Require Import ZArith Lia Sorting.Sorted.
From Stdlib Require Strings.String.
From Stdlib Require Import SpecFloat.
From S2P Require Import Prelude Utf8 Encoding Promql Labels.

#[local] Notation "x <~ m ;; k" := (outcome_bind m (fun x => k))
  (at level 100, m at next level, k at level 200, right associativity).

(** ** Exemplars *)

(** The labels are the bytes of a [labels.Labels]. *)
Record Exemplar := mkExemplar { ex_Labels : bytes; ex_Value : float64; ex_Ts : Z; ex_HasTs : bool }.

Definition ExemplarMaxLabelSetLength : Z := 128.

Definition Equals (e e2 : Exemplar) : bool :=
  if negb (bool_decide (ex_Labels e = ex_Labels e2)) then false
  else if (ex_HasTs e || ex_HasTs e2) && negb (ex_Ts e =? ex_Ts e2) then false
  else SFeqb (ex_Value e) (ex_Value e2).

(** ** The parts of the standard library that are used *)

(** Access to a slice with a Go [int]. *)
Definition slot_get {A} (l : list A) (i : Z) : outcome A :=
  if i <? 0 then Panic else match l !! Z.to_nat i with Some x => Ret x | None => Panic end.
Definition slot_set {A} (i : Z) (x : A) (l : list A) : outcome (list A) :=
  if (i <? 0) || (Z.of_nat (length l) <=? i) then Panic else Ret (<[Z.to_nat i := x]> l).

(** ** Labels, as the storage uses them *)

(** [Labels.Hash], by a hash function that is not part of the repository. *)
Class LabelsHash := labels_Hash : bytes -> Z.

(** ** The storage *)

Inductive storageError := ErrExemplarsDisabled | ErrExemplarLabelLength | ErrDuplicateExemplar | ErrOutOfOrderExemplar.
#[export] Instance storageError_eq_dec : EqDecision storageError.
Proof. solve_decision. Defined.

Definition noExemplar : Z := -1.

Record indexEntry := mkIndexEntry { ie_oldest : Z; ie_newest : Z; ie_seriesLabels : bytes }.
Record circularBufferEntry := mkEntry { cb_exemplar : Exemplar; cb_next : Z; cb_ref : option nat }.
(** [ce_heap] holds the index entries that were ever allocated. *)
Record CircularExemplarStorage := mkCES {
  ce_exemplars : list circularBufferEntry; ce_nextIndex : Z; ce_index : gmap bytes nat; ce_heap : list indexEntry }.

Definition zero_entry : circularBufferEntry := mkEntry (mkExemplar [] (S754_zero false) 0 false) 0 None.

Definition NewCircularExemplarStorage (length : Z) : CircularExemplarStorage :=
  let length := if length <? 0 then 0 else length in
  mkCES (replicate (Z.to_nat length) zero_entry) 0 ∅ [].

Definition CesM := GoM CircularExemplarStorage.

Definition lift {A} (o : outcome A) : CesM A := fun ce => match o with Ret a => Ret (a, ce) | Panic => Panic end.

(** Dereferences and writes through pointers. *)
Definition deref (p : nat) : CesM indexEntry := fun ce =>
  match ce_heap ce !! p with Some i => Ret (i, ce) | None => Panic end.
Definition assign (p : nat) (i : indexEntry) : CesM unit := fun ce =>
  match ce_heap ce !! p with
  | Some _ => Ret (tt, mkCES (ce_exemplars ce) (ce_nextIndex ce) (ce_index ce) (<[p := i]> (ce_heap ce)))
  | None => Panic
  end.
Definition new_entry (i : indexEntry) : CesM nat := fun ce =>
  Ret (length (ce_heap ce), mkCES (ce_exemplars ce) (ce_nextIndex ce) (ce_index ce) (ce_heap ce ++ [i])).
Definition get_entry (i : Z) : CesM circularBufferEntry := fun ce =>
  x <~ slot_get (ce_exemplars ce) i ;; Ret (x, ce).
Definition set_entry (i : Z) (x : circularBufferEntry) : CesM unit := fun ce =>
  l <~ slot_set i x (ce_exemplars ce) ;; Ret (tt, mkCES l (ce_nextIndex ce) (ce_index ce) (ce_heap ce)).
Definition set_index (m : gmap bytes nat) : CesM unit := fun ce =>
  Ret (tt, mkCES (ce_exemplars ce) (ce_nextIndex ce) m (ce_heap ce)).
Definition set_nextIndex (n : Z) : CesM unit := fun ce =>
  Ret (tt, mkCES (ce_exemplars ce) n (ce_index ce) (ce_heap ce)).

Definition with_next (n : Z) (x : circularBufferEntry) : circularBufferEntry := mkEntry (cb_exemplar x) n (cb_ref x).
Definition with_ref (p : nat) (x : circularBufferEntry) : circularBufferEntry := mkEntry (cb_exemplar x) (cb_next x) (Some p).
Definition with_oldest (o : Z) (i : indexEntry) : indexEntry := mkIndexEntry o (ie_newest i) (ie_seriesLabels i).
Definition with_newest (n : Z) (i : indexEntry) : indexEntry := mkIndexEntry (ie_oldest i) n (ie_seriesLabels i).

Section operations.
Context {LH : LabelsHash}.

(** *** Validation *)

(** The function given to [Labels.Validate]: adds to [labelSetLen]. *)
Definition count_label (l : Label) (labelSetLen : Z) : option storageError * Z :=
  let labelSetLen := labelSetLen + RuneCountInString (Name l) in
  let labelSetLen := labelSetLen + RuneCountInString (Value l) in
  (if ExemplarMaxLabelSetLength <? labelSetLen then Some ErrExemplarLabelLength else None, labelSetLen).

Definition out_of_order (e newestExemplar : Exemplar) : bool :=
  (ex_Ts e <? ex_Ts newestExemplar)
  || ((ex_Ts e =? ex_Ts newestExemplar) && SFltb (ex_Value e) (ex_Value newestExemplar))
  || ((ex_Ts e =? ex_Ts newestExemplar) && SFeqb (ex_Value e) (ex_Value newestExemplar)
      && (labels_Hash (ex_Labels e) <? labels_Hash (ex_Labels newestExemplar))).

Definition validateExemplar (idx : option nat) (e : Exemplar) : CesM (option storageError) :=
  ce <-- go_get ;;
  if (length (ce_exemplars ce) =? 0)%nat then go_ret (Some ErrExemplarsDisabled)
  else
    v <-- lift (Validate count_label (ex_Labels e) 0) ;;
    match fst v with
    | Some err => go_ret (Some err)
    | None =>
        match idx with
        | None => go_ret None
        | Some p =>
            idx <-- deref p ;;
            x <-- get_entry (ie_newest idx) ;;
            let newestExemplar := cb_exemplar x in
            if Equals newestExemplar e then go_ret (Some ErrDuplicateExemplar)
            else if out_of_order e newestExemplar then go_ret (Some ErrOutOfOrderExemplar)
            else go_ret None
        end
    end.

Definition ValidateExemplar (l : bytes) (e : Exemplar) : CesM (option storageError) :=
  ce <-- go_get ;; validateExemplar (ce_index ce !! l) e.

(** [ce.exemplars[idx.newest].next = ce.nextIndex] *)
Definition point_newest (idx : nat) : CesM unit :=
  ce <-- go_get ;;
  i <-- deref idx ;;
  x <-- get_entry (ie_newest i) ;;
  set_entry (ie_newest i) (with_next (ce_nextIndex ce) x).

(** *** Adding *)

(** Finds or makes the index entry; the newest exemplar of the series points to
    the slot that is written next. *)
Definition link_newest (l : bytes) : CesM nat :=
  ce <-- go_get ;;
  match ce_index ce !! l with
  | None =>
      p <-- new_entry (mkIndexEntry (ce_nextIndex ce) 0 l) ;;
      set_index (<[l := p]> (ce_index ce)) ;;; go_ret p
  | Some p => point_newest p ;;; go_ret p
  end.

(** Drops the exemplar of the slot that is written next, if it has one. *)
Definition drop_previous : CesM unit :=
  ce <-- go_get ;;
  prev <-- get_entry (ce_nextIndex ce) ;;
  match cb_ref prev with
  | None => go_ret tt
  | Some r =>
      i <-- deref r ;;
      if cb_next prev =? noExemplar then set_index (delete (ie_seriesLabels i) (ce_index ce))
      else assign r (with_oldest (cb_next prev) i)
  end.

Definition store (x : circularBufferEntry) (idx : nat) : CesM unit :=
  ce <-- go_get ;;
  set_entry (ce_nextIndex ce) x ;;;
  i <-- deref idx ;;
  assign idx (with_newest (ce_nextIndex ce) i) ;;;
  set_nextIndex (Z.rem (ce_nextIndex ce + 1) (Z.of_nat (length (ce_exemplars ce)))).

Definition AddExemplar (l : bytes) (e : Exemplar) : CesM (option storageError) :=
  ce <-- go_get ;;
  if (length (ce_exemplars ce) =? 0)%nat then go_ret (Some ErrExemplarsDisabled)
  else
    err <-- validateExemplar (ce_index ce !! l) e ;;
    match err with
    | Some ErrDuplicateExemplar => go_ret None
    | Some err => go_ret (Some err)
    | None =>
        idx <-- link_newest l ;;
        drop_previous ;;;
        store (mkEntry e noExemplar (Some idx)) idx ;;;
        go_ret None
    end.

(** *** Resizing *)

(** The end of [migrate], when the index entry of the series is known. *)
Definition migrate_store (entry : circularBufferEntry) (p : nat) : CesM unit :=
  ce <-- go_get ;;
  idx <-- deref p ;;
  assign p (with_newest (ce_nextIndex ce) idx) ;;;
  set_entry (ce_nextIndex ce) (with_next noExemplar (with_ref p entry)) ;;;
  set_nextIndex (Z.rem (ce_nextIndex ce + 1) (Z.of_nat (length (ce_exemplars ce)))).

(** [migrate] also sets the fields of the entry of the old buffer, which is not
    read again. *)
Definition migrate (entry : circularBufferEntry) : CesM unit :=
  match cb_ref entry with
  | None => go_panic
  | Some r =>
      i <-- deref r ;;
      let seriesLabels := ie_seriesLabels i in
      ce <-- go_get ;;
      p <-- match ce_index ce !! seriesLabels with
            | None =>
                assign r (with_oldest (ce_nextIndex ce) i) ;;;
                set_index (<[seriesLabels := r]> (ce_index ce)) ;;; go_ret r
            | Some p => point_newest p ;;; go_ret p
            end ;;
      migrate_store entry p
  end.

(** The loop over [count - i] old entries from the [i]-th on. *)
Fixpoint migrate_loop (n : nat) (oldBuffer : list circularBufferEntry) (startIndex i migrated : Z) : CesM Z :=
  match n with
  | O => go_ret migrated
  | S n' =>
      x <-- lift (slot_get oldBuffer (Z.rem (startIndex + i) (Z.of_nat (length oldBuffer)))) ;;
      match cb_ref x with
      | Some _ => migrate x ;;; migrate_loop n' oldBuffer startIndex (i + 1) (migrated + 1)
      | None => migrate_loop n' oldBuffer startIndex (i + 1) migrated
      end
  end.

Definition Resize (l : Z) : CesM Z :=
  let l := if l <=? 0 then 0 else l in
  ce <-- go_get ;;
  if l =? Z.of_nat (length (ce_exemplars ce)) then go_ret 0
  else
    let oldBuffer := ce_exemplars ce in
    let oldNextIndex := ce_nextIndex ce in
    go_put (mkCES (replicate (Z.to_nat l) zero_entry) 0 ∅ (ce_heap ce)) ;;;
    let count := Z.of_nat (length oldBuffer) in
    let count := if l <? count then l else count in
    if (0 <? l) && (0 <? length oldBuffer)%nat then
      let startIndex := Z.rem (oldNextIndex - count + Z.of_nat (length oldBuffer)) (Z.of_nat (length oldBuffer)) in
      migrate_loop (Z.to_nat count) oldBuffer startIndex 0 0
    else go_ret 0.

(** *** Reading *)

(** The loop of [IterateExemplars]; the callback has a state and can fail. *)
Fixpoint iterate_loop {St E} (n : nat) (f : bytes -> Exemplar -> St -> option E * St) (ce : CircularExemplarStorage)
    (idx : Z) (st : St) : outcome (option E * St) :=
  match n with
  | O => Ret (None, st)
  | S n' =>
      let idx' := Z.rem (idx + 1) (Z.of_nat (length (ce_exemplars ce))) in
      x <~ slot_get (ce_exemplars ce) idx ;;
      match cb_ref x with
      | None => iterate_loop n' f ce idx' st
      | Some r =>
          match ce_heap ce !! r with
          | None => Panic
          | Some i =>
              match f (ie_seriesLabels i) (cb_exemplar x) st with
              | (Some err, st) => Ret (Some err, st)
              | (None, st) => iterate_loop n' f ce idx' st
              end
          end
      end
  end.
Definition IterateExemplars {St E} (f : bytes -> Exemplar -> St -> option E * St) (ce : CircularExemplarStorage)
    (st : St) : outcome (option E * St) :=
  iterate_loop (length (ce_exemplars ce)) f ce (ce_nextIndex ce) st.

Context {RX : RegexLib}.

Fixpoint matches_all (lbls : bytes) (ms : list Matcher) : outcome bool :=
  match ms with
  | [] => Ret true
  | m :: ms =>
      v <~ Get lbls (of_string (m_Name m)) ;;
      if Matches m (to_string v) then matches_all lbls ms else Ret false
  end.
Fixpoint matchesSomeMatcherSet (lbls : bytes) (matchers : list (list Matcher)) : outcome bool :=
  match matchers with
  | [] => Ret false
  | ms :: matchers =>
      b <~ matches_all lbls ms ;; if b then Ret true else matchesSomeMatcherSet lbls matchers
  end.

Record QueryResult := mkQueryResult { qr_SeriesLabels : bytes; qr_Exemplars : list Exemplar }.

(** The loop over the exemplars of a series, from the entry [e] on; the exemplars
    that were found. *)
Fixpoint select_loop (fuel : nat) (ce : CircularExemplarStorage) (start end_ : Z) (e : circularBufferEntry)
    : outcome (list Exemplar) :=
  if ex_Ts (cb_exemplar e) <=? end_ then
    let found := if start <=? ex_Ts (cb_exemplar e) then [cb_exemplar e] else [] in
    if cb_next e =? noExemplar then Ret found
    else
      match fuel with
      | O => Panic
      | S f =>
          e' <~ slot_get (ce_exemplars ce) (cb_next e) ;;
          rest <~ select_loop f ce start end_ e' ;; Ret (found ++ rest)
      end
  else Ret [].

Definition select_series (ce : CircularExemplarStorage) (start end_ : Z) (matchers : list (list Matcher)) (p : nat)
    : outcome (list QueryResult) :=
  match ce_heap ce !! p with
  | None => Panic
  | Some idx =>
      e <~ slot_get (ce_exemplars ce) (ie_oldest idx) ;;
      newest <~ (if end_ <? ex_Ts (cb_exemplar e) then Ret e else slot_get (ce_exemplars ce) (ie_newest idx)) ;;
      if (end_ <? ex_Ts (cb_exemplar e)) || (ex_Ts (cb_exemplar newest) <? start) then Ret []
      else
        m <~ matchesSomeMatcherSet (ie_seriesLabels idx) matchers ;;
        if m then
          es <~ select_loop (length (ce_exemplars ce)) ce start end_ e ;;
          Ret (match es with [] => [] | _ => [mkQueryResult (ie_seriesLabels idx) es] end)
        else Ret []
  end.

Fixpoint select_all (ce : CircularExemplarStorage) (start end_ : Z) (matchers : list (list Matcher)) (idxs : list nat)
    : outcome (list QueryResult) :=
  match idxs with
  | [] => Ret []
  | p :: idxs =>
      r <~ select_series ce start end_ matchers p ;;
      rs <~ select_all ce start end_ matchers idxs ;; Ret (r ++ rs)
  end.

(** [slices.SortFunc], by insertion: no two results compare as equal, so every
    sort gives the same list. *)
Fixpoint insert_result (x : QueryResult) (l : list QueryResult) : outcome (list QueryResult) :=
  match l with
  | [] => Ret [x]
  | y :: l' =>
      c <~ Compare (qr_SeriesLabels x) (qr_SeriesLabels y) ;;
      if c <=? 0 then Ret (x :: l) else l'' <~ insert_result x l' ;; Ret (y :: l'')
  end.
Fixpoint sort_results (l : list QueryResult) : outcome (list QueryResult) :=
  match l with
  | [] => Ret []
  | x :: l' => l'' <~ sort_results l' ;; insert_result x l''
  end.

(** [idxs] are the values of the index, in the order in which [range] visits
    them. *)
Definition Select (ce : CircularExemplarStorage) (start end_ : Z) (matchers : list (list Matcher)) (idxs : list nat)
    : outcome (list QueryResult) :=
  if (length (ce_exemplars ce) =? 0)%nat then Ret []
  else ret <~ select_all ce start end_ matchers idxs ;; sort_results ret.

End operations.

(** ** The specification: a queue with a capacity *)

Abbreviation queue := (list (bytes * Exemplar)).

Definition series (l : bytes) (q : queue) : list Exemplar :=
  map snd (List.filter (fun x => bool_decide (fst x = l)) q).

(** Characters of the names and values of some labels. *)
Definition label_chars (lbls : bytes) : Z :=
  match Range lbls with
  | Ret ls => fold_right (fun l n => RuneCountInString (Name l) + RuneCountInString (Value l) + n) 0 ls
  | Panic => 0
  end.

Definition keep_last (n : nat) (q : queue) : queue := drop (length q - n) q.

Section specification.
Context {LH : LabelsHash}.

Definition spec_validate (cap : nat) (q : queue) (l : bytes) (e : Exemplar) : option storageError :=
  if (cap =? 0)%nat then Some ErrExemplarsDisabled
  else if ExemplarMaxLabelSetLength <? label_chars (ex_Labels e) then Some ErrExemplarLabelLength
  else
    match last (series l q) with
    | None => None
    | Some newest =>
        if Equals newest e then Some ErrDuplicateExemplar
        else if out_of_order e newest then Some ErrOutOfOrderExemplar
        else None
    end.

(** A duplicate is dropped without an error. *)
Definition spec_add (cap : nat) (q : queue) (l : bytes) (e : Exemplar) : option storageError * queue :=
  match spec_validate cap q l e with
  | Some ErrDuplicateExemplar => (None, q)
  | Some err => (Some err, q)
  | None => (None, keep_last cap (q ++ [(l, e)]))
  end.

End specification.

(** ** The queue in the buffer

    Exemplars are numbered in the order of their arrival; the [a]-th is in the
    slot [a] modulo the size of the buffer, as long as it is held. *)

Definition slot (N : nat) (a : Z) : Z := a mod Z.of_nat N.

(** The number of the first and of the last exemplar of a series. *)
Fixpoint first_at (a : Z) (q : queue) (l : bytes) : option Z :=
  match q with
  | [] => None
  | x :: q' => if decide (fst x = l) then Some a else first_at (a + 1) q' l
  end.
Fixpoint last_at (a : Z) (q : queue) (l : bytes) : option Z :=
  match q with
  | [] => None
  | x :: q' =>
      match last_at (a + 1) q' l with
      | Some r => Some r
      | None => if decide (fst x = l) then Some a else None
      end
  end.

Definition next_link (N : nat) (o : option Z) : Z := match o with Some a => slot N a | None => noExemplar end.

(** The slots of [q], whose first element has the number [b]; [look] are
    exemplars that will be stored next and are linked to already. *)
Definition linked (N : nat) (exs : list circularBufferEntry) (idx : gmap bytes nat) (b : Z) (q look : queue) : Prop :=
  forall j l e, q !! j = Some (l, e) -> exists p, idx !! l = Some p /\
    exs !! Z.to_nat (slot N (b + Z.of_nat j))
    = Some (mkEntry e (next_link N (first_at (b + Z.of_nat j + 1) (drop (S j) q ++ look) l)) (Some p)).

Definition absent (l : bytes) (q : queue) : Prop := Forall (fun x => fst x <> l) q.

Definition entry_ok (N : nat) (heap : list indexEntry) (b : Z) (q look : queue) (l : bytes) (p : nat) : Prop :=
  exists i f, heap !! p = Some i /\ ie_seriesLabels i = l
    /\ first_at b (q ++ look) l = Some f /\ ie_oldest i = slot N f
    /\ (absent l look -> exists n, last_at b q l = Some n /\ ie_newest i = slot N n).

Definition index_ok (N : nat) (idx : gmap bytes nat) (heap : list indexEntry) (b : Z) (q look : queue) : Prop :=
  forall l, match idx !! l with
            | Some p => entry_ok N heap b q look l p
            | None => first_at b (q ++ look) l = None
            end.

(** The slots behind the queue are empty, up to the first [skip] ones. *)
Definition free (N : nat) (exs : list circularBufferEntry) (b : Z) (q : queue) (skip : Z) : Prop :=
  forall a, b + Z.of_nat (length q) + skip <= a < b + Z.of_nat N ->
    exists x, exs !! Z.to_nat (slot N a) = Some x /\ cb_ref x = None.

Record ring (N : nat) (b : Z) (q look : queue) (skip : Z) (ce : CircularExemplarStorage) : Prop := {
  rg_len : length (ce_exemplars ce) = N;
  rg_size : (length q <= N)%nat;
  rg_next : ce_nextIndex ce = slot N (b + Z.of_nat (length q));
  rg_linked : linked N (ce_exemplars ce) (ce_index ce) b q look;
  rg_index : index_ok N (ce_index ce) (ce_heap ce) b q look;
  rg_free : free N (ce_exemplars ce) b q skip }.

Definition repr (cap : nat) (q : queue) (ce : CircularExemplarStorage) : Prop := exists b, ring cap b q [] 0 ce.

(** *** Slots *)
Lemma slot_range N a : (0 < N)%nat -> 0 <= slot N a < Z.of_nat N.
Proof. intros H. apply Z.mod_pos_bound. lia. Qed.

Lemma slot_inj N a a' : (0 < N)%nat -> Z.abs (a - a') < Z.of_nat N -> slot N a = slot N a' -> a = a'.
Proof.
  unfold slot. intros H Ha E. pose proof (Z.div_mod a (Z.of_nat N) ltac:(lia)).
  pose proof (Z.div_mod a' (Z.of_nat N) ltac:(lia)). rewrite E in *.
  assert (a / Z.of_nat N = a' / Z.of_nat N) by nia. nia.
Qed.

Lemma slot_ne N a a' : (0 < N)%nat -> a <> a' -> Z.abs (a - a') < Z.of_nat N -> Z.to_nat (slot N a) <> Z.to_nat (slot N a').
Proof.
  intros H Hne Ha E. pose proof (slot_range N a H). pose proof (slot_range N a' H).
  apply Hne, (slot_inj N); [exact H|exact Ha|lia].
Qed.

Lemma slot_succ N a : (0 < N)%nat -> Z.rem (slot N a + 1) (Z.of_nat N) = slot N (a + 1).
Proof.
  intros H. pose proof (slot_range N a H). rewrite Z.rem_mod_nonneg by lia. unfold slot.
  rewrite Zplus_mod_idemp_l. reflexivity.
Qed.

Lemma slot_wrap N a : (0 < N)%nat -> slot N (a + Z.of_nat N) = slot N a.
Proof. intros H. unfold slot. replace (a + Z.of_nat N) with (a + 1 * Z.of_nat N) by lia. apply Z.mod_add. lia. Qed.

Lemma slot_get_ok {A} (l : list A) N a x : (0 < N)%nat -> l !! Z.to_nat (slot N a) = Some x -> slot_get l (slot N a) = Ret x.
Proof.
  intros H E. pose proof (slot_range N a H). unfold slot_get.
  destruct (Z.ltb_spec (slot N a) 0); [lia|]. rewrite E. reflexivity.
Qed.

Lemma slot_set_ok {A} (l : list A) N a x : (0 < N)%nat -> length l = N ->
  slot_set (slot N a) x l = Ret (<[Z.to_nat (slot N a) := x]> l).
Proof.
  intros H E. pose proof (slot_range N a H). unfold slot_set.
  destruct (Z.ltb_spec (slot N a) 0); [lia|]. destruct (Z.leb_spec (Z.of_nat (length l)) (slot N a)); [lia|]. reflexivity.
Qed.

(** *** First and last exemplars *)
Lemma first_at_app a q1 q2 l : first_at a (q1 ++ q2) l =
  match first_at a q1 l with Some r => Some r | None => first_at (a + Z.of_nat (length q1)) q2 l end.
Proof.
  revert a. induction q1 as [|x q1 IH]; intros a; cbn [first_at app length]; [rewrite Z.add_0_r; reflexivity|].
  destruct (decide _); [reflexivity|]. rewrite IH. destruct (first_at _ q1 l); [reflexivity|]. f_equal. lia.
Qed.

Lemma first_at_Some a q l r : first_at a q l = Some r -> exists j e, r = a + Z.of_nat j /\ q !! j = Some (l, e)
  /\ series l q = series l (drop j q).
Proof.
  revert a. induction q as [|[l' e] q IH]; intros a H; cbn [first_at] in H; [discriminate|]. cbn [fst] in H.
  destruct (decide (l' = l)) as [->|Hne].
  - injection H as <-. exists 0%nat, e. repeat split. lia.
  - destruct (IH _ H) as (j & e' & -> & Hj & Hs). exists (S j), e'. split; [lia|]. split; [exact Hj|].
    unfold series in *. cbn [List.filter fst drop]. rewrite bool_decide_false by exact Hne. exact Hs.
Qed.

Lemma first_at_None a q l : first_at a q l = None <-> absent l q.
Proof.
  revert a. induction q as [|x q IH]; intros a; cbn [first_at]; unfold absent in *; [split; auto|].
  destruct (decide (fst x = l)) as [E|E].
  - split; [discriminate|]. intros H. apply Forall_cons_1 in H. destruct H. contradiction.
  - rewrite IH, Forall_cons. tauto.
Qed.

Lemma absent_series l q : absent l q -> series l q = [].
Proof.
  induction 1 as [|x q Hx _ IH]; [reflexivity|]. unfold series in *. cbn [List.filter].
  rewrite bool_decide_false by exact Hx. exact IH.
Qed.

Lemma absent_lookup l q j e : absent l q -> q !! j = Some (l, e) -> False.
Proof. intros H E. unfold absent in H. rewrite Forall_lookup in H. apply (H j (l, e) E). reflexivity. Qed.

Lemma last_at_Some a q l r : last_at a q l = Some r ->
  exists j e, r = a + Z.of_nat j /\ q !! j = Some (l, e) /\ absent l (drop (S j) q) /\ last (series l q) = Some e.
Proof.
  revert a. induction q as [|[l' e] q IH]; intros a H; cbn [last_at] in H; [discriminate|]. cbn [fst] in H.
  destruct (last_at (a + 1) q l) as [r'|] eqn:E.
  - injection H as <-. destruct (IH _ E) as (j & e' & -> & Hj & Ha & Hl). exists (S j), e'. split; [lia|].
    split; [exact Hj|]. split; [exact Ha|]. unfold series in *. cbn [List.filter fst].
    destruct (bool_decide (l' = l)); [|exact Hl]. cbn [map]. rewrite last_cons, Hl. reflexivity.
  - destruct (decide (l' = l)) as [->|]; [|discriminate]. injection H as <-. exists 0%nat, e.
    assert (absent l q).
    { clear -E. revert a E. induction q as [|x q IH]; intros a E; [constructor|]. cbn [last_at] in E.
      destruct (last_at (a + 1 + 1) q l) eqn:E'; [discriminate|]. destruct (decide (fst x = l)); [discriminate|].
      constructor; [assumption|]. eapply IH, E'. }
    repeat split; [lia|assumption|]. unfold series. cbn [List.filter fst]. rewrite bool_decide_true by reflexivity.
    cbn [map snd]. fold (series l q). rewrite absent_series by assumption. reflexivity.
Qed.

Lemma last_at_app a q1 q2 l : last_at a (q1 ++ q2) l =
  match last_at (a + Z.of_nat (length q1)) q2 l with Some r => Some r | None => last_at a q1 l end.
Proof.
  revert a. induction q1 as [|x q1 IH]; intros a; cbn [last_at app length].
  - rewrite Z.add_0_r. destruct (last_at a q2 l); reflexivity.
  - rewrite IH. replace (a + Z.of_nat (S (length q1))) with (a + 1 + Z.of_nat (length q1)) by lia.
    destruct (last_at _ q2 l); reflexivity.
Qed.

Lemma absent_app l q1 q2 : absent l (q1 ++ q2) <-> absent l q1 /\ absent l q2.
Proof. apply Forall_app. Qed.

Lemma first_at_absent a q l : absent l q -> first_at a q l = None.
Proof. apply first_at_None. Qed.

Lemma last_at_absent a q l : absent l q -> last_at a q l = None.
Proof.
  destruct (last_at a q l) eqn:E; [|reflexivity]. intros H. destruct (last_at_Some _ _ _ _ E) as (j & e & _ & Hj & _).
  destruct (absent_lookup _ _ _ _ H Hj).
Qed.

Lemma last_at_present a q j l e : q !! j = Some (l, e) -> exists r, last_at a q l = Some r.
Proof.
  revert a j. induction q as [|x q IH]; intros a j Hj; [discriminate|]. cbn [last_at]. destruct j as [|j].
  - injection Hj as ->. cbn [fst]. rewrite decide_True by reflexivity. destruct (last_at (a + 1) q l); eauto.
  - destruct (IH (a + 1) j Hj) as [r ->]. eauto.
Qed.

Lemma first_at_present a q j l e : q !! j = Some (l, e) -> exists r, first_at a q l = Some r.
Proof.
  intros Hj. destruct (first_at a q l) eqn:E; [eauto|]. apply first_at_None in E. destruct (absent_lookup _ _ _ _ E Hj).
Qed.

(** *** Linking the newest exemplar of a series *)
Lemma link_linked N exs idx b q l e n : (0 < N)%nat -> (length q <= N)%nat ->
  linked N exs idx b q [] -> last_at b q l = Some n ->
  exists x, exs !! Z.to_nat (slot N n) = Some x
    /\ linked N (<[Z.to_nat (slot N n) := with_next (slot N (b + Z.of_nat (length q))) x]> exs) idx b q [(l, e)].
Proof.
  intros HN Hq Hl Hn. destruct (last_at_Some _ _ _ _ Hn) as (j & e0 & -> & Hj & Ha & _).
  destruct (Hl j l e0 Hj) as (p & Hp & Hx). eexists. split; [exact Hx|].
  intros j' l' e' Hj'. destruct (Hl j' l' e' Hj') as (p' & Hp' & Hx'). exists p'. split; [exact Hp'|].
  pose proof (lookup_lt_Some _ _ _ Hj) as H1. pose proof (lookup_lt_Some _ _ _ Hj') as H2.
  rewrite app_nil_r in Hx, Hx' |- *. rewrite first_at_app. destruct (decide (j = j')) as [<-|Hne].
  - rewrite Hj in Hj'. injection Hj' as <- <-. rewrite Hx in Hx'. injection Hx' as <-.
    rewrite list_lookup_insert_eq by (apply lookup_lt_Some in Hx; exact Hx). unfold with_next. cbn [cb_exemplar cb_ref].
    rewrite (first_at_absent _ _ _ Ha), length_drop. cbn [first_at fst]. rewrite decide_True by reflexivity.
    cbn [next_link]. do 3 f_equal. lia.
  - rewrite list_lookup_insert_ne by (apply slot_ne; lia). rewrite Hx'. do 3 f_equal.
    destruct (first_at _ (drop (S j') q) l') as [r|] eqn:E; [reflexivity|]. cbn [first_at fst].
    rewrite decide_False; [reflexivity|]. intros <-. apply first_at_None in E.
    destruct (decide (j' < j)%nat) as [Hlt|Hge].
    + apply (absent_lookup _ _ (j - S j') e0 E). rewrite lookup_drop. rewrite <- Hj. f_equal. lia.
    + apply (absent_lookup _ _ (j' - S j) e' Ha). rewrite lookup_drop. rewrite <- Hj'. f_equal. lia.
Qed.

(** The entry of a series that has one, when an exemplar of it is linked. *)
Lemma link_index N idx heap b q l e p : index_ok N idx heap b q [] -> idx !! l = Some p -> index_ok N idx heap b q [(l, e)].
Proof.
  intros Hi Hp l'. specialize (Hi l'). destruct (idx !! l') as [p'|] eqn:E.
  - destruct Hi as (i & f & H1 & H2 & H3 & H4 & H5). exists i, f. rewrite app_nil_r in H3.
    split; [exact H1|]. split; [exact H2|]. split; [rewrite first_at_app, H3; reflexivity|]. split; [exact H4|].
    intros _. apply H5. constructor.
  - rewrite app_nil_r in Hi. rewrite first_at_app, Hi. cbn [first_at fst]. apply decide_False. congruence.
Qed.

(** A new entry, at a position of the heap that no other series uses. *)
Lemma new_index N idx heap heap' b q l e p i : index_ok N idx heap b q [] -> idx !! l = None ->
  heap' !! p = Some i -> ie_seriesLabels i = l -> ie_oldest i = slot N (b + Z.of_nat (length q)) ->
  (forall p' i', heap !! p' = Some i' -> ie_seriesLabels i' <> l -> heap' !! p' = Some i') ->
  index_ok N (<[l := p]> idx) heap' b q [(l, e)].
Proof.
  intros Hi Hl Hp Hli Ho Hframe l'. pose proof (Hi l') as Hi'. destruct (decide (l' = l)) as [->|Hne].
  - rewrite lookup_insert_eq. rewrite Hl, app_nil_r in Hi'. exists i, (b + Z.of_nat (length q)).
    split; [exact Hp|]. split; [exact Hli|]. rewrite first_at_app, Hi'. cbn [first_at fst].
    rewrite decide_True by reflexivity. split; [reflexivity|]. split; [exact Ho|]. intros Ha.
    apply Forall_cons_1 in Ha. destruct Ha as [Ha _]. cbn [fst] in Ha. contradiction.
  - rewrite lookup_insert_ne by congruence. destruct (idx !! l') as [p'|].
    + destruct Hi' as (i' & f & H1 & H2 & H3 & H4 & H5). exists i', f. split; [apply Hframe; congruence|].
      split; [exact H2|]. rewrite app_nil_r in H3. split; [rewrite first_at_app, H3; reflexivity|]. split; [exact H4|].
      intros _. apply H5. constructor.
    + rewrite app_nil_r in Hi'. rewrite first_at_app, Hi'. cbn [first_at fst]. apply decide_False. congruence.
Qed.

Lemma new_linked N exs idx heap b q l e p : index_ok N idx heap b q [] -> idx !! l = None ->
  linked N exs idx b q [] -> linked N exs (<[l := p]> idx) b q [(l, e)].
Proof.
  intros Hi Hl Hk j l' e' Hj. destruct (Hk j l' e' Hj) as (p' & Hp' & Hx). exists p'.
  assert (Hne : l' <> l) by congruence.
  rewrite lookup_insert_ne by congruence. split; [exact Hp'|]. rewrite Hx, app_nil_r, first_at_app.
  do 3 f_equal. cbn [first_at fst]. rewrite decide_False by congruence.
  destruct (first_at (b + Z.of_nat j + 1) (drop (S j) q) l'); reflexivity.
Qed.

Lemma free_insert N exs b q skip i x : free N exs b q skip ->
  (forall a, b + Z.of_nat (length q) + skip <= a < b + Z.of_nat N -> Z.to_nat (slot N a) <> i) ->
  free N (<[i := x]> exs) b q skip.
Proof.
  intros Hf Hi a Ha. rewrite list_lookup_insert_ne by (apply not_eq_sym, Hi, Ha). apply Hf. lia.
Qed.

Definition labels_kept (heap heap' : list indexEntry) : Prop :=
  forall p i, heap !! p = Some i -> exists i', heap' !! p = Some i' /\ ie_seriesLabels i' = ie_seriesLabels i.

#[export] Instance labels_kept_preorder : PreOrder labels_kept.
Proof.
  split; [intros h p i H; eauto|]. intros h1 h2 h3 H1 H2 p i Hp. destruct (H1 p i Hp) as (i' & Hp' & E).
  destruct (H2 p i' Hp') as (i'' & Hp'' & E'). exists i''. split; [exact Hp''|congruence].
Qed.

Lemma labels_kept_insert heap p i i' : heap !! p = Some i -> ie_seriesLabels i' = ie_seriesLabels i ->
  labels_kept heap (<[p := i']> heap).
Proof.
  intros Hp E p' j Hj. destruct (decide (p = p')) as [<-|Hne].
  - exists i'. rewrite list_lookup_insert_eq by (apply lookup_lt_Some in Hp; exact Hp). split; [reflexivity|congruence].
  - exists j. rewrite list_lookup_insert_ne by exact Hne. auto.
Qed.

(** *** The steps of an addition *)
Section steps.
Variable N : nat.
Hypothesis HN : (0 < N)%nat.

Lemma ring_newest b q l ce p : ring N b q [] 0 ce -> ce_index ce !! l = Some p ->
  exists i n e, ce_heap ce !! p = Some i /\ ie_seriesLabels i = l /\ last_at b q l = Some n /\ ie_newest i = slot N n
    /\ last (series l q) = Some e
    /\ exists x, ce_exemplars ce !! Z.to_nat (slot N n) = Some x /\ cb_exemplar x = e.
Proof.
  intros [_ _ _ Hl Hi _] Hp. specialize (Hi l). rewrite Hp in Hi.
  destruct Hi as (i & f & H1 & H2 & _ & _ & H5). destruct (H5 (Forall_nil_2 _)) as (n & Hn & En).
  destruct (last_at_Some _ _ _ _ Hn) as (j & e & -> & Hj & _ & Hlast). destruct (Hl j l e Hj) as (p' & _ & Hx).
  exists i, (b + Z.of_nat j), e. repeat split; try assumption. eexists. split; [exact Hx|reflexivity].
Qed.

Lemma point_newest_ok b q l e ce p : ring N b q [] 0 ce -> ce_index ce !! l = Some p ->
  exists ce', point_newest p ce = Ret (tt, ce') /\ ring N b q [(l, e)] 0 ce'
    /\ ce_index ce' = ce_index ce /\ ce_heap ce' = ce_heap ce.
Proof.
  intros Hr Hp. destruct (ring_newest b q l ce p Hr Hp) as (i & n & e0 & Hh & _ & Hn & En & _).
  destruct Hr as [Hlen Hsize Hnext Hk Hi Hf].
  destruct (link_linked N _ _ b q l e n HN Hsize Hk Hn) as (x & Hx & Hk').
  unfold point_newest, deref, get_entry, set_entry, go_bind, go_get. rewrite Hh, En.
  rewrite (slot_get_ok _ _ _ _ HN Hx). cbn [outcome_bind]. rewrite slot_set_ok by assumption. cbn [outcome_bind].
  eexists. split; [reflexivity|]. split; [|split; reflexivity].
  destruct (last_at_Some _ _ _ _ Hn) as (j & ej & -> & Hj & _). apply lookup_lt_Some in Hj.
  split; cbn [ce_exemplars ce_nextIndex ce_index ce_heap]; try assumption.
  - rewrite length_insert. exact Hlen.
  - rewrite Hnext. exact Hk'.
  - eapply link_index; eassumption.
  - apply free_insert; [exact Hf|]. intros a Ha. apply slot_ne; lia.
Qed.

Lemma link_newest_ok b q l e ce : ring N b q [] 0 ce ->
  exists p ce', link_newest l ce = Ret (p, ce') /\ ring N b q [(l, e)] 0 ce' /\ ce_index ce' !! l = Some p.
Proof.
  intros Hr. unfold link_newest, go_bind, go_get. destruct (ce_index ce !! l) as [p|] eqn:Hp.
  - destruct (point_newest_ok b q l e ce p Hr Hp) as (ce' & -> & Hr' & Hidx & _).
    exists p, ce'. rewrite Hidx. auto.
  - destruct Hr as [Hlen Hsize Hnext Hk Hi Hf]. do 2 eexists. split; [reflexivity|].
    cbn [ce_index]. rewrite lookup_insert_eq. split; [|reflexivity].
    split; cbn [ce_exemplars ce_nextIndex ce_index ce_heap]; try assumption.
    + eapply new_linked; eassumption.
    + eapply new_index; [exact Hi|exact Hp|apply list_lookup_middle; reflexivity|reflexivity|exact Hnext|].
      intros p' i' Hp' _. apply lookup_app_l_Some, Hp'.
Qed.

(** The oldest exemplar of the queue is dropped: the last one of its series... *)
Lemma drop_last_linked exs idx b l0 e0 q look : linked N exs idx b ((l0, e0) :: q) look -> absent l0 q ->
  linked N exs (delete l0 idx) (b + 1) q look.
Proof.
  intros Hk Ha j l e Hj. destruct (Hk (S j) l e Hj) as (p & Hp & Hx). exists p.
  rewrite lookup_delete_ne by (intros <-; apply (absent_lookup _ _ _ _ Ha Hj)). split; [exact Hp|].
  replace (b + 1 + Z.of_nat j) with (b + Z.of_nat (S j)) by lia. exact Hx.
Qed.

Lemma drop_last_index idx heap b l0 e0 q look : index_ok N idx heap b ((l0, e0) :: q) look ->
  absent l0 (q ++ look) -> index_ok N (delete l0 idx) heap (b + 1) q look.
Proof.
  intros Hi Ha l. specialize (Hi l). destruct (decide (l0 = l)) as [<-|Hne].
  - rewrite lookup_delete_eq. apply first_at_absent, Ha.
  - rewrite lookup_delete_ne by exact Hne. unfold entry_ok in *. cbn [first_at last_at app fst] in Hi.
    rewrite decide_False in Hi by exact Hne. destruct (idx !! l) as [p|]; [|exact Hi].
    destruct Hi as (i & f & H1 & H2 & H3 & H4 & H5). exists i, f. repeat split; try assumption. intros Hl.
    destruct (H5 Hl) as (n & Hn & En). exists n. rewrite decide_False in Hn by exact Hne.
    destruct (last_at (b + 1) q l); [|discriminate]. split; [exact Hn|exact En].
Qed.

(** ... or not the last one. *)
Lemma drop_first_linked exs idx b x q look : linked N exs idx b (x :: q) look -> linked N exs idx (b + 1) q look.
Proof.
  intros Hk j l e Hj. destruct (Hk (S j) l e Hj) as (p & Hp & Hx). exists p. split; [exact Hp|].
  replace (b + 1 + Z.of_nat j) with (b + Z.of_nat (S j)) by lia. exact Hx.
Qed.

Lemma drop_first_index idx heap b l0 e0 q look f0 i0 p0 : index_ok N idx heap b ((l0, e0) :: q) look ->
  idx !! l0 = Some p0 -> heap !! p0 = Some i0 -> first_at (b + 1) (q ++ look) l0 = Some f0 ->
  index_ok N idx (<[p0 := with_oldest (slot N f0) i0]> heap) (b + 1) q look.
Proof.
  intros Hi Hp0 Hh0 Hf0 l. pose proof (Hi l0) as Hi0. rewrite Hp0 in Hi0.
  destruct Hi0 as (i0' & f0' & E & Hs0 & _ & _ & Hn0). rewrite Hh0 in E. injection E as <-.
  specialize (Hi l). destruct (idx !! l) as [p|] eqn:Hp.
  - destruct Hi as (i & f & H1 & H2 & H3 & H4 & H5). cbn [first_at last_at app fst] in *.
    destruct (decide (l0 = l)) as [<-|Hne].
    + rewrite Hp0 in Hp. injection Hp as <-. exists (with_oldest (slot N f0) i0), f0.
      rewrite list_lookup_insert_eq by (apply lookup_lt_Some in Hh0; exact Hh0). repeat split; try assumption.
      intros Hl. destruct (Hn0 Hl) as (n & Hn & En). exists n. split; [|exact En].
      destruct (last_at (b + 1) q l0) eqn:El; [exact Hn|]. exfalso. rewrite first_at_app in Hf0.
      rewrite (first_at_absent _ look l0 Hl) in Hf0. destruct (first_at (b + 1) q l0) as [r|] eqn:Ef; [|discriminate].
      destruct (first_at_Some _ _ _ _ Ef) as (j & e & _ & Hj & _).
      destruct (last_at_present (b + 1) q j l0 e Hj) as [r' Hr']. congruence.
    + exists i, f. rewrite list_lookup_insert_ne by congruence. repeat split; try assumption. intros Hl.
      destruct (H5 Hl) as (n & Hn & En). exists n. destruct (last_at (b + 1) q l); [|congruence].
      split; [exact Hn|exact En].
  - cbn [first_at app fst] in Hi. destruct (decide (l0 = l)); [discriminate|exact Hi].
Qed.

(** Dropping at all, when the buffer is full. *)
Lemma drop_oldest b l0 e0 q l e ce : ring N b ((l0, e0) :: q) [(l, e)] 0 ce -> length ((l0, e0) :: q) = N ->
  exists ce', drop_previous ce = Ret (tt, ce') /\ ring N (b + 1) q [(l, e)] 1 ce' /\ ce_index ce' !! l = ce_index ce !! l.
Proof.
  intros [Hlen Hsize Hnext Hk Hi Hf] Hfull. cbn [length] in *.
  destruct (Hk 0%nat l0 e0 eq_refl) as (p0 & Hp0 & Hx). cbn [drop] in Hx. rewrite drop_0, Z.add_0_r in Hx.
  assert (En : ce_nextIndex ce = slot N b) by (rewrite Hnext, Hfull; apply slot_wrap, HN).
  assert (En' : ce_nextIndex ce = slot N (b + 1 + Z.of_nat (length q))) by (rewrite Hnext; f_equal; lia).
  assert (Hf' : free N (ce_exemplars ce) (b + 1) q 1) by (intros a Ha; lia).
  pose proof (Hi l0) as Hi0. rewrite Hp0 in Hi0. destruct Hi0 as (i0 & f0 & Hh0 & Hs0 & _).
  unfold drop_previous, get_entry, deref, assign, set_index, go_bind, go_get.
  cbv beta iota. rewrite En, (slot_get_ok _ _ _ _ HN Hx). cbn [outcome_bind cb_ref cb_next]. rewrite Hh0, Hs0.
  destruct (first_at (b + 1) (q ++ [(l, e)]) l0) as [f|] eqn:Ef; cbn [next_link].
  - pose proof (slot_range N f HN) as Hrange. destruct (Z.eqb_spec (slot N f) noExemplar) as [E|_]; [unfold noExemplar in E; lia|].
    cbv beta. rewrite Hh0. eexists. split; [reflexivity|]. split; [|reflexivity].
    split; cbn [ce_exemplars ce_nextIndex ce_index ce_heap]; try assumption; try lia.
    + eapply drop_first_linked, Hk.
    + eapply drop_first_index; eassumption.
  - rewrite Z.eqb_refl. eexists. split; [reflexivity|]. apply first_at_None in Ef. pose proof Ef as Ha.
    apply absent_app in Ha. destruct Ha as [Ha Hl]. split.
    + split; cbn [ce_exemplars ce_nextIndex ce_index ce_heap]; try assumption; try lia.
      * eapply drop_last_linked; eassumption.
      * eapply drop_last_index; eassumption.
    + cbn [ce_index]. apply lookup_delete_ne. apply Forall_cons_1 in Hl. destruct Hl as [Hl _]. cbn in Hl. congruence.
Qed.

Lemma drop_previous_ok b q l e ce : ring N b q [(l, e)] 0 ce ->
  exists b' ce', drop_previous ce = Ret (tt, ce') /\ ring N b' (keep_last (N - 1) q) [(l, e)] 1 ce'
    /\ ce_index ce' !! l = ce_index ce !! l.
Proof.
  intros Hr. unfold keep_last. destruct (decide (length q = N)) as [Hfull|Hne].
  - destruct q as [|[l0 e0] q]; [cbn in Hfull; lia|].
    destruct (drop_oldest b l0 e0 q l e ce Hr Hfull) as (ce' & E & Hr' & Hidx). exists (b + 1), ce'.
    rewrite Hfull. replace (N - (N - 1))%nat with 1%nat by lia. auto.
  - destruct Hr as [Hlen Hsize Hnext Hk Hi Hf]. replace (length q - (N - 1))%nat with 0%nat by lia. exists b, ce.
    destruct (Hf (b + Z.of_nat (length q)) ltac:(lia)) as (x & Hx & Hrx).
    unfold drop_previous, get_entry, go_bind, go_get. cbv beta iota. rewrite Hnext, (slot_get_ok _ _ _ _ HN Hx). cbn [outcome_bind].
    rewrite Hrx. split; [reflexivity|]. split; [|reflexivity]. split; try assumption. intros a Ha.
    apply Hf. rewrite drop_0 in Ha. lia.
Qed.

(** Writing the slot. *)
Lemma store_linked exs idx b q l e p : length exs = N -> (length q < N)%nat -> idx !! l = Some p ->
  linked N exs idx b q [(l, e)] ->
  linked N (<[Z.to_nat (slot N (b + Z.of_nat (length q))) := mkEntry e noExemplar (Some p)]> exs) idx b (q ++ [(l, e)]) [].
Proof.
  intros Hlen Hq Hp Hk j l' e' Hj. rewrite app_nil_r. destruct (decide (j = length q)) as [->|Hne].
  - rewrite list_lookup_middle in Hj by reflexivity. injection Hj as <- <-. exists p. split; [exact Hp|].
    rewrite list_lookup_insert_eq by (rewrite Hlen; pose proof (slot_range N (b + Z.of_nat (length q)) HN); lia).
    rewrite drop_ge by (rewrite length_app; cbn; lia). reflexivity.
  - pose proof (lookup_lt_Some _ _ _ Hj) as Hlt. rewrite length_app in Hlt. cbn [length] in Hlt.
    rewrite lookup_app_l in Hj by lia. destruct (Hk j l' e' Hj) as (p' & Hp' & Hx). exists p'. split; [exact Hp'|].
    rewrite list_lookup_insert_ne by (apply slot_ne; lia). rewrite Hx, drop_app_le by lia. reflexivity.
Qed.

Lemma store_index idx heap b q l e p i : index_ok N idx heap b q [(l, e)] -> idx !! l = Some p -> heap !! p = Some i ->
  index_ok N idx (<[p := with_newest (slot N (b + Z.of_nat (length q))) i]> heap) b (q ++ [(l, e)]) [].
Proof.
  intros Hi Hp Hh l'. pose proof (Hi l) as Hil. rewrite Hp in Hil. specialize (Hi l'). unfold entry_ok in *.
  rewrite app_nil_r. destruct (idx !! l') as [p'|] eqn:Hp'; [|exact Hi].
  destruct Hil as (i1 & _ & E & Hs1 & _). rewrite Hh in E. injection E as <-.
  destruct Hi as (i' & f & H1 & H2 & H3 & H4 & H5). rewrite last_at_app. cbn [last_at fst].
  destruct (decide (l = l')) as [<-|Hne].
  - assert (p' = p) as -> by congruence. assert (i' = i) as -> by congruence. eexists _, f.
    rewrite list_lookup_insert_eq by (apply lookup_lt_Some in Hh; exact Hh). repeat split; try eassumption.
    intros _. eexists. split; [reflexivity|reflexivity].
  - exists i', f. rewrite list_lookup_insert_ne by congruence. repeat split; try assumption. intros _. apply H5.
    constructor; [exact Hne|constructor].
Qed.

Lemma store_free exs b q x y : free N exs b q 1 -> (length q < N)%nat ->
  free N (<[Z.to_nat (slot N (b + Z.of_nat (length q))) := y]> exs) b (q ++ [x]) 0.
Proof.
  intros Hf Hq a Ha. rewrite length_app in Ha. cbn [length] in Ha. rewrite list_lookup_insert_ne by (apply slot_ne; lia).
  apply Hf. lia.
Qed.

(** The state after the write, which [AddExemplar] and [migrate] reach in
    different orders. *)
Lemma stored_ring b q l e ce p i : ring N b q [(l, e)] 1 ce -> (length q < N)%nat ->
  ce_index ce !! l = Some p -> ce_heap ce !! p = Some i ->
  ring N b (q ++ [(l, e)]) [] 0
    (mkCES (<[Z.to_nat (ce_nextIndex ce) := mkEntry e noExemplar (Some p)]> (ce_exemplars ce))
           (Z.rem (ce_nextIndex ce + 1) (Z.of_nat N)) (ce_index ce)
           (<[p := with_newest (ce_nextIndex ce) i]> (ce_heap ce))).
Proof.
  intros [Hlen Hsize Hnext Hk Hi Hf] Hq Hp Hh. rewrite Hnext.
  split; cbn [ce_exemplars ce_nextIndex ce_index ce_heap].
  - rewrite length_insert. exact Hlen.
  - rewrite length_app. cbn [length]. lia.
  - rewrite slot_succ by exact HN. rewrite length_app. cbn [length]. f_equal. lia.
  - apply store_linked; assumption.
  - eapply store_index; eassumption.
  - apply store_free; assumption.
Qed.

Lemma ring_entry b q look skip ce l p : ring N b q look skip ce -> ce_index ce !! l = Some p ->
  exists i, ce_heap ce !! p = Some i /\ ie_seriesLabels i = l.
Proof.
  intros [_ _ _ _ Hi _] Hp. specialize (Hi l). rewrite Hp in Hi. destruct Hi as (i & _ & H1 & H2 & _). eauto.
Qed.

Lemma store_entry_ok b q l e ce p : ring N b q [(l, e)] 1 ce -> (length q < N)%nat -> ce_index ce !! l = Some p ->
  exists ce', store (mkEntry e noExemplar (Some p)) p ce = Ret (tt, ce') /\ ring N b (q ++ [(l, e)]) [] 0 ce'.
Proof.
  intros Hr Hq Hp. destruct (ring_entry _ _ _ _ _ _ _ Hr Hp) as (i & Hh & _).
  pose proof (stored_ring b q l e ce p i Hr Hq Hp Hh) as Hr'. destruct Hr as [Hlen _ Hnext _ _ _].
  unfold store, set_entry, deref, assign, set_nextIndex, go_bind, go_get. rewrite Hnext.
  rewrite slot_set_ok by assumption. cbn [outcome_bind ce_exemplars ce_heap ce_nextIndex ce_index].
  rewrite Hh, Hlen. cbn [outcome_bind ce_exemplars ce_heap ce_nextIndex ce_index]. rewrite Hh. eexists. split; [reflexivity|]. rewrite Hnext in Hr'. exact Hr'.
Qed.

Lemma ring_skip b q look ce : ring N b q look 0 ce -> ring N b q look 1 ce.
Proof. intros [Hlen Hsize Hnext Hk Hi Hf]. split; try assumption. intros a Ha. apply Hf. lia. Qed.

Lemma migrate_store_ok b q l e ce entry p : ring N b q [(l, e)] 0 ce -> (length q < N)%nat ->
  ce_index ce !! l = Some p -> cb_exemplar entry = e ->
  exists ce', migrate_store entry p ce = Ret (tt, ce') /\ ring N b (q ++ [(l, e)]) [] 0 ce'
    /\ labels_kept (ce_heap ce) (ce_heap ce').
Proof.
  intros Hr Hq Hp He. apply ring_skip in Hr. destruct (ring_entry _ _ _ _ _ _ _ Hr Hp) as (i & Hh & _).
  pose proof (stored_ring b q l e ce p i Hr Hq Hp Hh) as Hr'. destruct Hr as [Hlen _ Hnext _ _ _].
  unfold migrate_store, set_entry, deref, assign, set_nextIndex, go_bind, go_get. rewrite Hh. cbv beta iota. rewrite Hh.
  cbn [ce_exemplars ce_heap ce_nextIndex ce_index]. rewrite Hnext, slot_set_ok by assumption.
  cbn [outcome_bind ce_exemplars ce_heap ce_nextIndex ce_index]. eexists. split; [reflexivity|]. split.
  - rewrite Hnext in Hr'. unfold with_next, with_ref. cbn [cb_exemplar cb_ref]. rewrite He, Hlen. exact Hr'.
  - cbn [ce_heap]. apply (labels_kept_insert _ _ i); [exact Hh|reflexivity].
Qed.

Lemma migrate_ok b q ce entry r i : ring N b q [] 0 ce -> (length q < N)%nat ->
  cb_ref entry = Some r -> ce_heap ce !! r = Some i ->
  exists ce', migrate entry ce = Ret (tt, ce')
    /\ ring N b (q ++ [(ie_seriesLabels i, cb_exemplar entry)]) [] 0 ce' /\ labels_kept (ce_heap ce) (ce_heap ce').
Proof.
  intros Hr Hq Hentry Hh. set (l := ie_seriesLabels i). set (e := cb_exemplar entry).
  assert (exists p ce1, ring N b q [(l, e)] 0 ce1 /\ ce_index ce1 !! l = Some p /\ labels_kept (ce_heap ce) (ce_heap ce1)
    /\ migrate entry ce = migrate_store entry p ce1) as (p & ce1 & Hr1 & Hp & Hkept & ->).
  { unfold migrate. rewrite Hentry. unfold go_bind at 1, deref at 1. rewrite Hh. cbv beta iota. unfold go_bind at 1, go_get.
    fold l. destruct (ce_index ce !! l) as [p|] eqn:Hp.
    - destruct (point_newest_ok b q l e ce p Hr Hp) as (ce1 & E & Hr1 & Hidx & Hheap). exists p, ce1.
      rewrite Hidx, Hheap. split; [exact Hr1|]. split; [exact Hp|]. split; [reflexivity|].
      unfold go_bind. rewrite E. reflexivity.
    - destruct Hr as [Hlen Hsize Hnext Hk Hi Hf]. eexists r, _. split; [|split; [|split]].
      4: { unfold go_bind, assign, set_index. rewrite Hh. reflexivity. }
      + split; cbn [ce_exemplars ce_nextIndex ce_index ce_heap]; try assumption.
        * eapply new_linked; eassumption.
        * eapply new_index; [exact Hi|exact Hp| | | |].
          -- apply list_lookup_insert_eq. apply lookup_lt_Some in Hh. exact Hh.
          -- reflexivity.
          -- exact Hnext.
          -- intros p' i' Hp' Hne. rewrite list_lookup_insert_ne; [exact Hp'|]. intros <-. apply Hne. unfold l. congruence.
      + apply lookup_insert_eq.
      + cbn [ce_heap]. apply (labels_kept_insert _ _ i); [exact Hh|reflexivity]. }
  destruct (migrate_store_ok b q l e ce1 entry p Hr1 Hq Hp eq_refl) as (ce' & E & Hr' & Hkept').
  exists ce'. split; [exact E|]. split; [exact Hr'|]. etransitivity; eassumption.
Qed.
End steps.

(** ** The operations refine those of the queue *)

Definition wf_labels (data : bytes) : Prop := exists ls, data = enc_labels ls /\ Forall wf_get ls /\ sorted ls.

Lemma count_labels_ok ls n : n <= ExemplarMaxLabelSetLength ->
  fst (fold_validate count_label ls n)
  = if ExemplarMaxLabelSetLength
       <? n + fold_right (fun l n => RuneCountInString (Name l) + RuneCountInString (Value l) + n) 0 ls
    then Some ErrExemplarLabelLength else None.
Proof.
  revert n. induction ls as [|l ls IH]; intros n Hn; cbn [fold_validate fold_right].
  - rewrite Z.add_0_r. destruct (Z.ltb_spec ExemplarMaxLabelSetLength n); [lia|reflexivity].
  - unfold count_label at 1. set (total := fold_right _ 0 ls).
    assert (0 <= total).
    { subst total. clear. induction ls as [|l ls IH]; cbn [fold_right]; [lia|].
      pose proof (rune_loop_nonneg (length (Name l)) (Name l)). pose proof (rune_loop_nonneg (length (Value l)) (Value l)).
      unfold RuneCountInString in *. lia. }
    set (c1 := RuneCountInString (Name l)). set (c2 := RuneCountInString (Value l)).
    destruct (Z.ltb_spec ExemplarMaxLabelSetLength (n + c1 + c2)) as [Hlt|Hle].
    + cbn [fst]. destruct (Z.ltb_spec ExemplarMaxLabelSetLength (n + (c1 + c2 + total))); [reflexivity|lia].
    + rewrite IH by lia. fold total. replace (n + c1 + c2 + total) with (n + (c1 + c2 + total)) by lia. reflexivity.
Qed.

Lemma Validate_count data : wf_labels data -> exists v, Validate count_label data 0 = Ret v
  /\ fst v = if ExemplarMaxLabelSetLength <? label_chars data then Some ErrExemplarLabelLength else None.
Proof.
  intros (ls & -> & Hw & _). apply wf_get_wf in Hw. eexists. split.
  - apply validate_labels_ok; [exact Hw|reflexivity|lia].
  - rewrite count_labels_ok by (unfold ExemplarMaxLabelSetLength; lia). unfold label_chars. rewrite Range_ok by exact Hw. reflexivity.
Qed.

Section refinement.
Context {LH : LabelsHash}.

Lemma repr_pos cap b q look skip ce : ring cap b q look skip ce -> (length (ce_exemplars ce) =? 0)%nat = false -> (0 < cap)%nat.
Proof. intros [Hlen _ _ _ _ _] E. apply Nat.eqb_neq in E. lia. Qed.

Lemma validateExemplar_ok cap q ce l e : repr cap q ce -> wf_labels (ex_Labels e) ->
  validateExemplar (ce_index ce !! l) e ce = Ret (spec_validate cap q l e, ce).
Proof.
  intros [b Hr] Hw. destruct (Validate_count _ Hw) as (v & Ev & Hv). pose proof (rg_len _ _ _ _ _ _ Hr) as Hlen.
  unfold validateExemplar, spec_validate, go_bind, go_get, lift. cbv beta iota. rewrite Hlen.
  destruct (Nat.eqb_spec cap 0) as [E0|E0]; [reflexivity|]. rewrite Ev. cbv beta iota. rewrite Hv.
  destruct (ExemplarMaxLabelSetLength <? label_chars (ex_Labels e)); [reflexivity|].
  destruct (ce_index ce !! l) as [p|] eqn:Hp.
  - destruct (ring_newest cap b q l ce p Hr Hp) as (i & n & newest & Hh & _ & _ & En & -> & x & Hx & <-).
    unfold deref, get_entry. rewrite Hh, En, (slot_get_ok _ cap n x ltac:(lia) Hx). cbn [outcome_bind].
    destruct (Equals (cb_exemplar x) e); [reflexivity|]. destruct (out_of_order e (cb_exemplar x)); reflexivity.
  - pose proof (rg_index _ _ _ _ _ _ Hr l) as Hi. rewrite Hp, app_nil_r in Hi. apply first_at_None in Hi.
    rewrite absent_series by exact Hi. reflexivity.
Qed.

Lemma keep_last_snoc n q x : (0 < n)%nat -> keep_last (n - 1) q ++ [x] = keep_last n (q ++ [x]).
Proof.
  intros Hn. unfold keep_last. rewrite length_app. cbn [length]. rewrite drop_app_le by lia. do 2 f_equal. lia.
Qed.

Lemma AddExemplar_ok cap q ce l e : repr cap q ce -> wf_labels (ex_Labels e) ->
  exists ce', AddExemplar l e ce = Ret (fst (spec_add cap q l e), ce') /\ repr cap (snd (spec_add cap q l e)) ce'.
Proof.
  intros Hr Hw. pose proof (validateExemplar_ok cap q ce l e Hr Hw) as Ev. pose proof Hr as [b Hb].
  pose proof (rg_len _ _ _ _ _ _ Hb) as Hlen. unfold AddExemplar. unfold go_bind at 1, go_get. rewrite Hlen.
  unfold spec_add. destruct (Nat.eqb_spec cap 0) as [E0|E0].
  { unfold spec_validate. rewrite E0 in Hr |- *. exists ce. split; [reflexivity|exact Hr]. }
  rewrite (go_bind_ret _ _ _ _ _ Ev). destruct (spec_validate cap q l e) as [err|].
  { destruct err; exists ce; (split; [reflexivity|exact Hr]). }
  assert (HN : (0 < cap)%nat) by lia.
  destruct (link_newest_ok cap HN b q l e ce Hb) as (p & ce1 & E1 & Hr1 & Hp1).
  destruct (drop_previous_ok cap HN b q l e ce1 Hr1) as (b2 & ce2 & E2 & Hr2 & Hp2).
  assert (Hlt : (length (keep_last (cap - 1) q) < cap)%nat) by (unfold keep_last; rewrite length_drop; lia).
  destruct (store_entry_ok cap HN b2 _ l e ce2 p Hr2 Hlt ltac:(congruence)) as (ce3 & E3 & Hr3).
  exists ce3. rewrite (go_bind_ret _ _ _ _ _ E1), (go_bind_ret _ _ _ _ _ E2), (go_bind_ret _ _ _ _ _ E3).
  split; [reflexivity|]. exists b2. cbn [snd]. rewrite <- keep_last_snoc by exact HN. exact Hr3.
Qed.

(** *** Resizing *)

Definition spec_resize (cap : nat) (q : queue) (l : Z) : Z * (nat * queue) :=
  let n := Z.to_nat l in
  if (n =? cap)%nat then (0, (cap, q)) else (Z.of_nat (length (keep_last n q)), (n, keep_last n q)).

(** What the migration needs of the old buffer: the exemplar with the number [a]. *)
Definition old_entries (N : nat) (b : Z) (q : queue) (old : list circularBufferEntry) (heap : list indexEntry) : Prop :=
  forall j l e, q !! j = Some (l, e) -> exists x p i,
    old !! Z.to_nat (slot N (b + Z.of_nat j)) = Some x /\ cb_exemplar x = e /\ cb_ref x = Some p
    /\ heap !! p = Some i /\ ie_seriesLabels i = l.

Lemma old_entries_kept N b q old heap heap' : old_entries N b q old heap -> labels_kept heap heap' -> old_entries N b q old heap'.
Proof.
  intros H Hk j l e Hj. destruct (H j l e Hj) as (x & p & i & H1 & H2 & H3 & H4 & H5).
  destruct (Hk p i H4) as (i' & H4' & H5'). exists x, p, i'. rewrite H5'. auto.
Qed.

Lemma ring_old_entries N b q ce : ring N b q [] 0 ce -> old_entries N b q (ce_exemplars ce) (ce_heap ce).
Proof.
  intros Hr j l e Hj. destruct (rg_linked _ _ _ _ _ _ Hr j l e Hj) as (p & Hp & Hx).
  destruct (ring_entry _ _ _ _ _ _ _ _ Hr Hp) as (i & Hh & Hs). do 3 eexists. split; [exact Hx|].
  split; [reflexivity|]. split; [reflexivity|]. split; eassumption.
Qed.

Lemma keep_last_S n q l e : (S n <= length q)%nat -> q !! (length q - S n)%nat = Some (l, e) ->
  keep_last (S n) q = (l, e) :: keep_last n q.
Proof.
  intros Hn Hq. unfold keep_last. rewrite (drop_S q (l, e) _ Hq). do 2 f_equal. lia.
Qed.

Lemma keep_last_all n q : (length q <= n)%nat -> keep_last n q = q.
Proof. intros H. unfold keep_last. replace (length q - n)%nat with 0%nat by lia. apply drop_0. Qed.

(** [n] positions of the old buffer are left to visit. *)
Lemma migrate_loop_ok N M b q old n startIndex i migrated qd ce : (0 < N)%nat -> (0 < M)%nat -> (n <= N)%nat ->
  length old = N -> 0 <= startIndex -> 0 <= i ->
  slot N (startIndex + i) = slot N (b + Z.of_nat (length q) - Z.of_nat n) ->
  free N old b q 0 -> old_entries N b q old (ce_heap ce) ->
  ring M 0 qd [] 0 ce -> (length qd + length (keep_last n q) <= M)%nat -> (length q <= N)%nat ->
  exists ce', migrate_loop n old startIndex i migrated ce
              = Ret (migrated + Z.of_nat (length (keep_last n q)), ce')
    /\ ring M 0 (qd ++ keep_last n q) [] 0 ce'.
Proof.
  intros HN HM. revert i migrated qd ce. induction n as [|n IH]; intros i migrated qd ce Hn Hlen Hs Hi Hslot Hf Ho Hr Hroom Hq.
  { exists ce. unfold keep_last. rewrite Nat.sub_0_r, drop_all, app_nil_r, Z.add_0_r. split; [reflexivity|exact Hr]. }
  set (a := b + Z.of_nat (length q) - Z.of_nat (S n)) in *.
  assert (Hnext : slot N (startIndex + (i + 1)) = slot N (b + Z.of_nat (length q) - Z.of_nat n)).
  { replace (startIndex + (i + 1)) with (startIndex + i + 1) by lia. rewrite <- slot_succ, Hslot, slot_succ by exact HN. f_equal. lia. }
  cbn [migrate_loop]. rewrite Hlen, Z.rem_mod_nonneg by lia. fold (slot N (startIndex + i)). rewrite Hslot.
  destruct (le_lt_dec (S n) (length q)) as [Hle|Hlt].
  - assert (Hj : (length q - S n < length q)%nat) by lia. destruct (lookup_lt_is_Some_2 q _ Hj) as [[l e] Hqj].
    destruct (Ho _ l e Hqj) as (x & r & ie & Hx & He & Href & Hh & Hl).
    replace (b + Z.of_nat (length q - S n)) with a in Hx by lia.
    rewrite (keep_last_S n q l e Hle Hqj) in Hroom |- *. cbn [length] in Hroom |- *.
    unfold lift, go_bind at 1. rewrite (slot_get_ok _ _ _ _ HN Hx). cbv beta iota. rewrite Href.
    destruct (migrate_ok M HM 0 qd ce x r ie Hr ltac:(lia) Href Hh) as (ce1 & E1 & Hr1 & Hk1).
    rewrite (go_bind_ret _ _ _ _ _ E1). rewrite Hl, He in Hr1.
    destruct (IH (i + 1) (migrated + 1) (qd ++ [(l, e)]) ce1) as (ce2 & E2 & Hr2); try assumption; try lia.
    { eapply old_entries_kept; eassumption. }
    { rewrite length_app. cbn [length]. lia. }
    exists ce2. rewrite E2. split; [do 2 f_equal; lia|]. rewrite <- app_assoc in Hr2. exact Hr2.
  - assert (Hx : exists x, old !! Z.to_nat (slot N a) = Some x /\ cb_ref x = None).
    { rewrite <- slot_wrap by exact HN. apply Hf. lia. }
    destruct Hx as (x & Hx & Href). unfold lift, go_bind at 1. rewrite (slot_get_ok _ _ _ _ HN Hx). cbv beta iota. rewrite Href.
    replace (keep_last (S n) q) with (keep_last n q) in Hroom |- * by (rewrite !keep_last_all by lia; reflexivity).
    apply IH; try assumption; lia.
Qed.

Lemma empty_ring M heap : ring M 0 [] [] 0 (mkCES (replicate M zero_entry) 0 ∅ heap).
Proof.
  split; cbn [ce_exemplars ce_nextIndex ce_index ce_heap].
  - apply length_replicate.
  - cbn. lia.
  - unfold slot. rewrite Zmod_0_l. reflexivity.
  - intros j l e Hj. discriminate.
  - intros l. rewrite lookup_empty. reflexivity.
  - intros a Ha. cbn [length] in Ha. exists zero_entry. split; [|reflexivity]. apply lookup_replicate_2.
    pose proof (slot_range M a ltac:(lia)). lia.
Qed.

Lemma Resize_ok cap q ce l : repr cap q ce ->
  exists ce', Resize l ce = Ret (fst (spec_resize cap q l), ce')
    /\ repr (fst (snd (spec_resize cap q l))) (snd (snd (spec_resize cap q l))) ce'.
Proof.
  intros [b Hr]. pose proof (rg_len _ _ _ _ _ _ Hr) as Hlen. pose proof (rg_size _ _ _ _ _ _ Hr) as Hsize. unfold Resize, spec_resize.
  replace (if l <=? 0 then 0 else l) with (Z.of_nat (Z.to_nat l)) by (destruct (Z.leb_spec l 0); lia).
  set (n := Z.to_nat l). clearbody n. unfold go_bind at 1, go_get. rewrite Hlen, Nat2Z.id.
  destruct (Nat.eqb_spec n cap) as [->|Hne].
  { rewrite Z.eqb_refl. exists ce. split; [reflexivity|]. exists b. exact Hr. }
  destruct (Z.eqb_spec (Z.of_nat n) (Z.of_nat cap)); [lia|]. unfold go_bind at 1, go_put. cbn [fst snd].
  destruct (Z.ltb_spec 0 (Z.of_nat n)) as [Hpos|Hzero]; cbn [andb].
  2: { assert (n = 0%nat) as -> by lia. unfold keep_last. rewrite Nat.sub_0_r, drop_all.
       eexists. split; [reflexivity|]. exists 0. apply (empty_ring 0). }
  destruct (Nat.ltb_spec 0 cap) as [Hcap|Hcap].
  2: { destruct q as [|x q]; [|cbn in Hsize; lia]. eexists. split; [reflexivity|]. exists 0. apply empty_ring. }
  set (count := if Z.of_nat n <? Z.of_nat cap then Z.of_nat n else Z.of_nat cap).
  assert (Hcount : count = Z.of_nat (Nat.min n cap)) by (unfold count; destruct (Z.ltb_spec (Z.of_nat n) (Z.of_nat cap)); lia).
  rewrite Hcount, Nat2Z.id, (rg_next _ _ _ _ _ _ Hr). pose proof (slot_range cap (b + Z.of_nat (length q)) Hcap) as Hs.
  rewrite Z.rem_mod_nonneg by lia. fold (slot cap (slot cap (b + Z.of_nat (length q)) - Z.of_nat (Nat.min n cap) + Z.of_nat cap)).
  rewrite slot_wrap by exact Hcap.
  pose proof (slot_range cap (slot cap (b + Z.of_nat (length q)) - Z.of_nat (Nat.min n cap)) Hcap) as Hs2.
  destruct (migrate_loop_ok cap n b q (ce_exemplars ce) (Nat.min n cap)
    (slot cap (slot cap (b + Z.of_nat (length q)) - Z.of_nat (Nat.min n cap))) 0 0 []
    (mkCES (replicate n zero_entry) 0 ∅ (ce_heap ce))) as (ce' & E & Hr'); try assumption; try lia.
  - rewrite Z.add_0_r. unfold slot. rewrite Zmod_mod, Zminus_mod_idemp_l. reflexivity.
  - apply (rg_free _ _ _ _ _ _ Hr).
  - exact (ring_old_entries _ _ _ _ Hr).
  - apply empty_ring.
  - cbn [length]. unfold keep_last. rewrite length_drop. lia.
  - exists ce'. assert (Hk : keep_last (Nat.min n cap) q = keep_last n q).
    { unfold keep_last. f_equal. lia. }
    rewrite Hk in *. split; [exact E|]. exists 0. exact Hr'.
Qed.

(** *** Iterating *)

(** Calls the function on the queue from the oldest exemplar on. *)
Fixpoint spec_iterate {St E} (f : bytes -> Exemplar -> St -> option E * St) (q : queue) (st : St) : option E * St :=
  match q with
  | [] => (None, st)
  | (l, e) :: q => match f l e st with (Some err, st) => (Some err, st) | (None, st) => spec_iterate f q st end
  end.

Lemma iterate_loop_ok {St E} (f : bytes -> Exemplar -> St -> option E * St) N b q ce n idx st :
  (0 < N)%nat -> ring N b q [] 0 ce -> (n <= N)%nat -> idx = slot N (b + Z.of_nat (length q) - Z.of_nat n) ->
  iterate_loop n f ce idx st = Ret (spec_iterate f (keep_last n q) st).
Proof.
  intros HN Hr. pose proof (rg_len _ _ _ _ _ _ Hr) as Hlen. pose proof (rg_size _ _ _ _ _ _ Hr) as Hsize.
  revert idx st. induction n as [|n IH]; intros idx st Hn ->.
  { unfold keep_last. rewrite Nat.sub_0_r, drop_all. reflexivity. }
  set (a := b + Z.of_nat (length q) - Z.of_nat (S n)). cbn [iterate_loop]. rewrite Hlen, slot_succ by exact HN.
  replace (a + 1) with (b + Z.of_nat (length q) - Z.of_nat n) by lia.
  destruct (le_lt_dec (S n) (length q)) as [Hle|Hlt].
  - assert (Hj : (length q - S n < length q)%nat) by lia. destruct (lookup_lt_is_Some_2 q _ Hj) as [[l e] Hqj].
    destruct (ring_old_entries _ _ _ _ Hr _ l e Hqj) as (x & r & ie & Hx & He & Href & Hh & Hl).
    replace (b + Z.of_nat (length q - S n)) with a in Hx by lia.
    rewrite (slot_get_ok _ _ _ _ HN Hx). cbn [outcome_bind]. rewrite Href, Hh, Hl, He, (keep_last_S n q l e Hle Hqj).
    cbn [spec_iterate]. destruct (f l e st) as [[err|] st']; [reflexivity|]. apply IH; [lia|reflexivity].
  - destruct (rg_free _ _ _ _ _ _ Hr (a + Z.of_nat N)) as (x & Hx & Href); [lia|].
    rewrite slot_wrap in Hx by exact HN. rewrite (slot_get_ok _ _ _ _ HN Hx). cbn [outcome_bind]. rewrite Href.
    rewrite IH by (lia || reflexivity). rewrite !keep_last_all by lia. reflexivity.
Qed.

Lemma IterateExemplars_ok {St E} (f : bytes -> Exemplar -> St -> option E * St) cap q ce st : repr cap q ce ->
  IterateExemplars f ce st = Ret (spec_iterate f q st).
Proof.
  intros [b Hr]. unfold IterateExemplars. pose proof (rg_len _ _ _ _ _ _ Hr) as Hlen.
  pose proof (rg_size _ _ _ _ _ _ Hr) as Hsize. rewrite Hlen. destruct cap as [|cap].
  { destruct q; [reflexivity|cbn in Hsize; lia]. }
  rewrite (iterate_loop_ok f (S cap) b q ce (S cap) _ st ltac:(lia) Hr ltac:(lia)).
  - rewrite keep_last_all by exact Hsize. reflexivity.
  - rewrite (rg_next _ _ _ _ _ _ Hr), <- (slot_wrap _ (_ - _)) by lia. f_equal. lia.
Qed.

(** *** Selecting *)
Context {RX : RegexLib}.

Definition ts_le (e e' : Exemplar) : Prop := ex_Ts e <= ex_Ts e'.
Definition ts_sorted (q : queue) : Prop := forall l, StronglySorted ts_le (series l q).

Definition in_range (start end_ : Z) (e : Exemplar) : bool := (start <=? ex_Ts e) && (ex_Ts e <=? end_).

Definition label_value (lbls name : bytes) : bytes :=
  match Range lbls with Ret ls => lookup_value name ls | Panic => [] end.
Definition spec_matches (lbls : bytes) (matchers : list (list Matcher)) : bool :=
  existsb (forallb (fun m => Matches m (to_string (label_value lbls (of_string (m_Name m)))))) matchers.

Lemma Get_value data n : wf_labels data -> Get data n = Ret (label_value data n).
Proof.
  intros (ls & -> & Hw & Hs). unfold label_value. rewrite Range_ok by apply wf_get_wf, Hw. destruct n as [|c n].
  - unfold lookup_value. rewrite (proj2 (find_label_None [] ls)); [reflexivity|]. intros m Hm.
    apply (proj1 (List.Forall_forall _ _) Hw m Hm).
  - apply (Get_ok ls (c :: n) Hw Hs). discriminate.
Qed.

Lemma matches_all_ok lbls ms : wf_labels lbls ->
  matches_all lbls ms = Ret (forallb (fun m => Matches m (to_string (label_value lbls (of_string (m_Name m))))) ms).
Proof.
  intros Hw. induction ms as [|m ms IH]; [reflexivity|]. cbn [matches_all forallb]. rewrite Get_value by exact Hw.
  cbn [outcome_bind]. destruct (Matches m _); [exact IH|reflexivity].
Qed.

Lemma matchesSomeMatcherSet_ok lbls matchers : wf_labels lbls -> matchesSomeMatcherSet lbls matchers = Ret (spec_matches lbls matchers).
Proof.
  intros Hw. unfold spec_matches. induction matchers as [|ms matchers IH]; [reflexivity|]. cbn [matchesSomeMatcherSet existsb].
  rewrite matches_all_ok by exact Hw. cbn [outcome_bind]. destruct (forallb _ ms); [reflexivity|exact IH].
Qed.

Lemma series_drop l q j e : q !! j = Some (l, e) -> series l (drop j q) = e :: series l (drop (S j) q).
Proof.
  intros Hj. rewrite (drop_S q (l, e) j Hj). unfold series. cbn [List.filter fst]. rewrite bool_decide_true by reflexivity. reflexivity.
Qed.

Lemma later_exemplars start end_ e es : end_ < ex_Ts e -> StronglySorted ts_le (e :: es) ->
  List.filter (in_range start end_) (e :: es) = [].
Proof.
  intros He Hs. apply filter_none. apply StronglySorted_inv in Hs. destruct Hs as [_ Hs]. unfold in_range, ts_le in *.
  constructor.
  - destruct (Z.leb_spec (ex_Ts e) end_); [lia|apply andb_false_r].
  - eapply List.Forall_impl; [|exact Hs]. intros x Hx. cbn in Hx. destruct (Z.leb_spec (ex_Ts x) end_); [lia|apply andb_false_r].
Qed.

Lemma select_loop_ok N b q ce start end_ l fuel j e x : (0 < N)%nat -> ring N b q [] 0 ce -> q !! j = Some (l, e) ->
  ce_exemplars ce !! Z.to_nat (slot N (b + Z.of_nat j)) = Some x -> StronglySorted ts_le (series l (drop j q)) ->
  (length q - j <= fuel)%nat ->
  select_loop fuel ce start end_ x = Ret (List.filter (in_range start end_) (series l (drop j q))).
Proof.
  intros HN Hr. revert j e x. induction fuel as [|fuel IH]; intros j e x Hj Hx Hs Hf.
  { apply lookup_lt_Some in Hj. lia. }
  destruct (rg_linked _ _ _ _ _ _ Hr j l e Hj) as (p & _ & Hx'). rewrite Hx in Hx'. injection Hx' as ->.
  rewrite (series_drop l q j e Hj) in Hs |- *. cbn [select_loop cb_exemplar cb_next]. rewrite app_nil_r.
  destruct (Z.leb_spec (ex_Ts e) end_) as [Hle|Hgt].
  2: { rewrite later_exemplars by assumption. reflexivity. }
  apply StronglySorted_inv in Hs. destruct Hs as [Hs _].
  assert (Efilter : List.filter (in_range start end_) (e :: series l (drop (S j) q))
    = (if start <=? ex_Ts e then [e] else []) ++ List.filter (in_range start end_) (series l (drop (S j) q))).
  { cbn [List.filter]. unfold in_range at 1. rewrite (proj2 (Z.leb_le _ _) Hle), andb_true_r. destruct (start <=? ex_Ts e); reflexivity. }
  rewrite Efilter. destruct (first_at _ (drop (S j) q) l) as [r|] eqn:Ef; cbn [next_link].
  - pose proof (slot_range N r HN) as Hrange. destruct (Z.eqb_spec (slot N r) noExemplar) as [E|_]; [unfold noExemplar in E; lia|].
    destruct (first_at_Some _ _ _ _ Ef) as (k & e' & -> & Hk & Hsk). rewrite lookup_drop in Hk. rewrite drop_drop in Hsk.
    destruct (rg_linked _ _ _ _ _ _ Hr _ l e' Hk) as (p' & _ & Hx').
    replace (b + Z.of_nat j + 1 + Z.of_nat k) with (b + Z.of_nat (S j + k)) by lia.
    rewrite (slot_get_ok _ _ _ _ HN Hx'). cbn [outcome_bind]. rewrite Hsk in Hs |- *.
    rewrite (IH _ e' _ Hk Hx' Hs) by lia. reflexivity.
  - rewrite Z.eqb_refl. apply first_at_None in Ef. rewrite (absent_series _ _ Ef), app_nil_r. reflexivity.
Qed.

Lemma sorted_last es e x : StronglySorted ts_le es -> last es = Some e -> In x es -> ex_Ts x <= ex_Ts e.
Proof.
  intros Hs. induction Hs as [|y es Hs IH Hy]; intros Hl Hx; [destruct Hx|]. rewrite last_cons in Hl.
  destruct (last es) as [z|] eqn:E.
  - injection Hl as ->. destruct Hx as [<-|Hx]; [|apply IH; auto]. apply last_Some_elem_of, list_elem_of_In in E.
    apply (proj1 (List.Forall_forall _ _) Hy e E).
  - injection Hl as ->. apply last_None in E. subst es. destruct Hx as [<-|[]]. lia.
Qed.

(** What a series contributes. *)
Definition spec_series (q : queue) (start end_ : Z) (matchers : list (list Matcher)) (l : bytes) : list QueryResult :=
  let es := List.filter (in_range start end_) (series l q) in
  if spec_matches l matchers then match es with [] => [] | _ => [mkQueryResult l es] end else [].

Lemma spec_series_empty q start end_ matchers l : List.filter (in_range start end_) (series l q) = [] ->
  spec_series q start end_ matchers l = [].
Proof. intros E. unfold spec_series. rewrite E. destruct (spec_matches l matchers); reflexivity. Qed.

Lemma select_series_ok N b q ce start end_ matchers l p : (0 < N)%nat -> ring N b q [] 0 ce -> ts_sorted q ->
  wf_labels l -> ce_index ce !! l = Some p ->
  select_series ce start end_ matchers p = Ret (spec_series q start end_ matchers l).
Proof.
  intros HN Hr Hts Hw Hp. destruct (ring_newest N b q l ce p Hr Hp) as (i & n & newest & Hh & Hl & _ & En & Hlast & xn & Hxn & Exn).
  pose proof (rg_index _ _ _ _ _ _ Hr l) as Hi. rewrite Hp in Hi.
  unfold entry_ok in Hi. rewrite app_nil_r in Hi. destruct Hi as (i' & f & Hh' & _ & Hf & Eo & _).
  rewrite Hh in Hh'. injection Hh' as <-. destruct (first_at_Some _ _ _ _ Hf) as (j & e & -> & Hj & Ej).
  destruct (rg_linked _ _ _ _ _ _ Hr j l e Hj) as (p' & _ & Hx). specialize (Hts l).
  unfold select_series. rewrite Hh, Eo, (slot_get_ok _ _ _ _ HN Hx), En. cbn [outcome_bind cb_exemplar].
  assert (Es : series l q = e :: series l (drop (S j) q)) by (rewrite Ej; apply series_drop, Hj).
  destruct (Z.ltb_spec end_ (ex_Ts e)) as [Hlt|Hge].
  { cbn [outcome_bind orb]. rewrite spec_series_empty; [reflexivity|]. rewrite Es. apply later_exemplars; [exact Hlt|congruence]. }
  rewrite (slot_get_ok _ _ _ _ HN Hxn). cbn [outcome_bind orb]. rewrite Exn.
  destruct (Z.ltb_spec (ex_Ts newest) start) as [Hlt|Hge'].
  { rewrite spec_series_empty; [reflexivity|]. apply filter_none, List.Forall_forall. intros x Hx'.
    pose proof (sorted_last _ _ _ Hts Hlast Hx'). unfold in_range. destruct (Z.leb_spec start (ex_Ts x)); [lia|reflexivity]. }
  rewrite Hl, matchesSomeMatcherSet_ok by exact Hw. cbn [outcome_bind]. unfold spec_series.
  destruct (spec_matches l matchers); [|reflexivity].
  rewrite (select_loop_ok N b q ce start end_ l _ j e _ HN Hr Hj Hx);
    [rewrite <- Ej; reflexivity|rewrite <- Ej; exact Hts|].
  rewrite (rg_len _ _ _ _ _ _ Hr). pose proof (rg_size _ _ _ _ _ _ Hr). lia.
Qed.

Lemma select_all_ok N b q ce start end_ matchers (kvs : list (bytes * nat)) : (0 < N)%nat -> ring N b q [] 0 ce -> ts_sorted q ->
  Forall (fun x => wf_labels (fst x)) q -> Forall (fun kv => ce_index ce !! fst kv = Some (snd kv)) kvs ->
  select_all ce start end_ matchers (map snd kvs) = Ret (flat_map (spec_series q start end_ matchers) (map fst kvs)).
Proof.
  intros HN Hr Hts Hw Hkvs. induction Hkvs as [|[l p] kvs Hp _ IH]; [reflexivity|]. cbn [map fst snd select_all flat_map] in *.
  assert (Hwl : wf_labels l).
  { pose proof (rg_index _ _ _ _ _ _ Hr l) as Hi. rewrite Hp in Hi. destruct Hi as (i & f & _ & _ & Hf & _).
    rewrite app_nil_r in Hf. destruct (first_at_Some _ _ _ _ Hf) as (j & e & _ & Hj & _).
    rewrite Forall_lookup in Hw. apply (Hw _ _ Hj). }
  rewrite (select_series_ok N b q ce start end_ matchers l p HN Hr Hts Hwl Hp). cbn [outcome_bind]. rewrite IH. reflexivity.
Qed.

(** **** The order of results *)
Lemma fields_compare_trans a b c : fields_compare a b = Lt -> fields_compare b c = Lt -> fields_compare a c = Lt.
Proof.
  revert b c. induction a as [|x a IH]; intros [|y b] [|z c]; cbn [fields_compare]; try discriminate; auto.
  destruct (str_compare x y) eqn:Exy; try discriminate.
  - apply str_compare_eq in Exy. subst y. destruct (str_compare x z); auto. apply IH.
  - intros _. destruct (str_compare y z) eqn:Eyz; try discriminate.
    + apply str_compare_eq in Eyz. subst z. rewrite Exy. auto.
    + intros _. rewrite (str_lt_trans x y z Exy Eyz). reflexivity.
Qed.

Definition labels_before (a b : bytes) : Prop :=
  exists x y, a = enc_labels x /\ b = enc_labels y /\ Forall wf_label x /\ Forall wf_label y /\ labels_compare x y = Lt.
Definition result_before (r r' : QueryResult) : Prop := labels_before (qr_SeriesLabels r) (qr_SeriesLabels r').

Lemma enc_labels_unique x y : Forall wf_label x -> Forall wf_label y -> enc_labels x = enc_labels y -> x = y.
Proof. intros Hx Hy E. pose proof (Range_ok x Hx) as Rx. rewrite E, (Range_ok y Hy) in Rx. congruence. Qed.

Lemma labels_before_trans a b c : labels_before a b -> labels_before b c -> labels_before a c.
Proof.
  intros (x & y & -> & -> & Hx & Hy & H1) (y' & z & E & -> & Hy' & Hz & H2).
  apply enc_labels_unique in E; try assumption. subst y'. exists x, z. repeat split; try assumption.
  rewrite labels_fields_compare in *. eapply fields_compare_trans; eassumption.
Qed.

Lemma labels_compare_Eq x y : labels_compare x y = Eq -> x = y.
Proof.
  revert y. induction x as [|m x IH]; intros [|m' y]; cbn [labels_compare]; try discriminate; auto.
  destruct (str_compare (Name m) (Name m')) eqn:En; try discriminate.
  destruct (str_compare (Value m) (Value m')) eqn:Ev; try discriminate. intros E. apply IH in E. subst y.
  apply str_compare_eq in En, Ev. f_equal. destruct m, m'. cbn in *. congruence.
Qed.

Definition wf_result (r : QueryResult) : Prop := wf_labels (qr_SeriesLabels r).

Lemma Compare_results a b : wf_labels a -> wf_labels b -> a <> b ->
  exists c, Compare a b = Ret c /\ if c <=? 0 then labels_before a b else labels_before b a.
Proof.
  intros (x & -> & Hx & _) (y & -> & Hy & _) Hne. apply wf_get_wf in Hx, Hy.
  destruct (Compare_ok x y Hx Hy) as (c & E & Hc). exists c. split; [exact E|].
  destruct (labels_compare x y) eqn:Exy.
  - apply labels_compare_Eq in Exy. subst y. contradiction.
  - rewrite Z.compare_lt_iff in Hc. rewrite (proj2 (Z.leb_le _ _)) by lia. exists x, y. auto.
  - rewrite Z.compare_gt_iff in Hc. rewrite (proj2 (Z.leb_gt _ _)) by lia. exists y, x. repeat split; try assumption.
    rewrite labels_fields_compare, fields_compare_opp, <- labels_fields_compare, Exy. reflexivity.
Qed.

Lemma insert_result_ok r l : wf_result r -> Forall wf_result l -> ~ In (qr_SeriesLabels r) (map qr_SeriesLabels l) ->
  StronglySorted result_before l ->
  exists l', insert_result r l = Ret l' /\ Permutation l' (r :: l) /\ StronglySorted result_before l'.
Proof.
  intros Hr Hl Hn Hs. induction Hs as [|y l Hs IH Hy].
  { exists [r]. split; [reflexivity|]. split; [reflexivity|]. repeat constructor. }
  apply Forall_cons_1 in Hl. destruct Hl as [Hwy Hl]. cbn [map In] in Hn.
  destruct (Compare_results (qr_SeriesLabels r) (qr_SeriesLabels y) Hr Hwy) as (c & Ec & Hc); [intros E; apply Hn; auto|].
  cbn [insert_result]. rewrite Ec. cbn [outcome_bind]. destruct (c <=? 0).
  - eexists. split; [reflexivity|]. split; [reflexivity|]. constructor; [constructor; assumption|].
    constructor; [exact Hc|]. eapply List.Forall_impl; [|exact Hy]. intros z Hz. eapply labels_before_trans; eassumption.
  - destruct IH as (l' & -> & Hperm & Hs'); [exact Hl|tauto|]. eexists. split; [reflexivity|]. split.
    + rewrite Hperm. apply perm_swap.
    + constructor; [exact Hs'|]. rewrite Hperm. constructor; assumption.
Qed.

Lemma sort_results_ok l : Forall wf_result l -> NoDup (map qr_SeriesLabels l) ->
  exists l', sort_results l = Ret l' /\ Permutation l' l /\ StronglySorted result_before l'.
Proof.
  induction l as [|r l IH]; intros Hw Hnd; [exists []; repeat split; constructor|]. cbn [map] in Hnd.
  apply Forall_cons_1 in Hw. destruct Hw as [Hr Hw]. apply NoDup_cons in Hnd. destruct Hnd as [Hn Hnd].
  destruct (IH Hw Hnd) as (l1 & E & Hp & Hs). cbn [sort_results]. rewrite E. cbn [outcome_bind].
  destruct (insert_result_ok r l1) as (l2 & E2 & Hp2 & Hs2); try assumption.
  - rewrite Hp. exact Hw.
  - rewrite Hp. intros Hin. apply Hn, list_elem_of_In, Hin.
  - exists l2. split; [exact E2|]. split; [rewrite Hp2, Hp; reflexivity|exact Hs2].
Qed.

(** What [Select] should find. *)
Definition selected (q : queue) (start end_ : Z) (matchers : list (list Matcher)) (rs : list QueryResult) : Prop :=
  StronglySorted result_before rs
  /\ forall l es, In (mkQueryResult l es) rs <->
       es = List.filter (in_range start end_) (series l q) /\ es <> [] /\ spec_matches l matchers = true.

Lemma in_spec_series q start end_ matchers r l : In r (spec_series q start end_ matchers l) <->
  r = mkQueryResult l (List.filter (in_range start end_) (series l q))
  /\ List.filter (in_range start end_) (series l q) <> [] /\ spec_matches l matchers = true.
Proof.
  unfold spec_series. destruct (spec_matches l matchers); [|cbn; intuition discriminate].
  destruct (List.filter (in_range start end_) (series l q)); cbn; [intuition congruence|]. intuition congruence.
Qed.

Lemma in_contributions q start end_ matchers ks r : In r (flat_map (spec_series q start end_ matchers) ks) <->
  In (qr_SeriesLabels r) ks /\ In r (spec_series q start end_ matchers (qr_SeriesLabels r)).
Proof.
  rewrite in_flat_map. split.
  - intros (l & Hl & Hr). pose proof Hr as Hr'. apply in_spec_series in Hr'. destruct Hr' as (E & _). subst r. auto.
  - intros [Hl Hr]. eauto.
Qed.

Lemma contributions_distinct q start end_ matchers ks : NoDup ks ->
  NoDup (map qr_SeriesLabels (flat_map (spec_series q start end_ matchers) ks)).
Proof.
  induction 1 as [|l ks Hl _ IH]; [constructor|]. cbn [flat_map]. rewrite map_app. apply NoDup_app. split; [|split; [|exact IH]].
  - unfold spec_series. destruct (spec_matches l matchers); [|constructor].
    destruct (List.filter _ _); cbn [map]; [constructor|apply NoDup_singleton].
  - intros l' Hl' Hin. apply list_elem_of_In, in_map_iff in Hl'. destruct Hl' as (r & <- & Hr). apply in_spec_series in Hr.
    destruct Hr as (-> & _). cbn [qr_SeriesLabels] in Hin. apply list_elem_of_In, in_map_iff in Hin.
    destruct Hin as (r & E & Hr). apply in_contributions in Hr. apply Hl, list_elem_of_In. rewrite <- E. apply Hr.
Qed.

Lemma index_keys N b q ce l : ring N b q [] 0 ce -> (exists p, ce_index ce !! l = Some p) <-> series l q <> [].
Proof.
  intros Hr. pose proof (rg_index _ _ _ _ _ _ Hr l) as Hi. split.
  - intros [p Hp]. destruct (ring_newest N b q l ce p Hr Hp) as (_ & _ & e & _ & _ & _ & _ & Hl & _).
    intros E. rewrite E in Hl. discriminate.
  - destruct (ce_index ce !! l) as [p|]; [eauto|]. rewrite app_nil_r in Hi. apply first_at_None in Hi. intros H.
    destruct H. apply absent_series, Hi.
Qed.

Lemma series_labels_wf l q : Forall (fun x : bytes * Exemplar => wf_labels (fst x)) q -> series l q <> [] -> wf_labels l.
Proof.
  intros Hw Hs. destruct (first_at 0 q l) as [r|] eqn:E.
  - destruct (first_at_Some _ _ _ _ E) as (j & e & _ & Hj & _). rewrite Forall_lookup in Hw. apply (Hw _ _ Hj).
  - apply first_at_None in E. destruct Hs. apply absent_series, E.
Qed.

Lemma Select_ok cap q ce start end_ matchers idxs : repr cap q ce -> ts_sorted q ->
  Forall (fun x => wf_labels (fst x)) q -> Permutation idxs (map snd (map_to_list (ce_index ce))) ->
  exists rs, Select ce start end_ matchers idxs = Ret rs /\ selected q start end_ matchers rs.
Proof.
  intros [b Hr] Hts Hw Hperm. unfold Select. rewrite (rg_len _ _ _ _ _ _ Hr). destruct (Nat.eqb_spec cap 0) as [->|Hcap].
  { exists []. split; [reflexivity|]. pose proof (rg_size _ _ _ _ _ _ Hr) as Hs. destruct q as [|x q]; [|cbn in Hs; lia].
    split; [constructor|]. intros l es. cbn. split; [intros []|]. intros (-> & H & _). apply H. reflexivity. }
  destruct (Permutation_map_inv _ _ Hperm) as (kvs & -> & Hkvs). symmetry in Hkvs.
  assert (Hkv : Forall (fun kv => ce_index ce !! fst kv = Some (snd kv)) kvs).
  { rewrite Hkvs. apply Forall_forall. intros [l p] Hin. apply elem_of_map_to_list, Hin. }
  rewrite (select_all_ok cap b q ce start end_ matchers kvs ltac:(lia) Hr Hts Hw Hkv). cbn [outcome_bind].
  assert (Hnd : NoDup (map fst kvs)) by (rewrite Hkvs; apply NoDup_fst_map_to_list).
  set (all := flat_map _ _). destruct (sort_results_ok all) as (rs & E & Hp & Hs).
  - apply List.Forall_forall. intros r Hin. apply in_contributions in Hin. destruct Hin as [_ Hin]. apply in_spec_series in Hin.
    destruct Hin as (_ & Hne & _). apply (series_labels_wf _ q Hw). intros E. rewrite E in Hne. apply Hne. reflexivity.
  - apply contributions_distinct, Hnd.
  - exists rs. split; [exact E|]. split; [exact Hs|]. intros l es. rewrite Hp. unfold all. rewrite in_contributions, in_spec_series.
    cbn [qr_SeriesLabels]. split; [intros [_ (E' & H1 & H2)]; injection E' as ->; auto|]. intros (-> & H1 & H2).
    split; [|auto]. assert (Hne : series l q <> []) by (intros E'; rewrite E' in H1; apply H1; reflexivity).
    apply (index_keys _ _ _ _ _ Hr) in Hne. destruct Hne as [p Hp']. apply in_map_iff. exists (l, p). split; [reflexivity|].
    rewrite Hkvs. apply list_elem_of_In, elem_of_map_to_list, Hp'.
Qed.

(** *** The order of exemplars within a series *)
Lemma series_app l q1 q2 : series l (q1 ++ q2) = series l q1 ++ series l q2.
Proof. unfold series. rewrite List.filter_app, map_app. reflexivity. Qed.

Lemma keep_last_sorted n q : ts_sorted q -> ts_sorted (keep_last n q).
Proof.
  intros H l. specialize (H l). unfold keep_last. rewrite <- (take_drop (length q - n) q), series_app in H.
  apply strongly_sorted_app in H. apply H.
Qed.

Lemma exemplars_snoc_sorted es e : StronglySorted ts_le es -> (forall x, In x es -> ts_le x e) -> StronglySorted ts_le (es ++ [e]).
Proof.
  induction 1 as [|x es Hs IH Hx]; intros H; cbn [app]; [repeat constructor|]. constructor.
  - apply IH. intros y Hy. apply H. right. exact Hy.
  - apply List.Forall_app. split; [exact Hx|]. constructor; [apply H; left; reflexivity|constructor].
Qed.

Lemma add_sorted q l e : ts_sorted q ->
  (forall newest, last (series l q) = Some newest -> ex_Ts newest <= ex_Ts e) -> ts_sorted (q ++ [(l, e)]).
Proof.
  intros H Hn l'. rewrite series_app. specialize (H l'). unfold series at 2. cbn [List.filter fst].
  destruct (bool_decide_reflect (l = l')) as [<-|]; cbn [map]; [|rewrite app_nil_r; exact H].
  apply exemplars_snoc_sorted; [exact H|]. intros x Hx.
  destruct (last (series l q)) as [newest|] eqn:El.
  - pose proof (sorted_last _ _ _ H El Hx). specialize (Hn newest eq_refl). unfold ts_le. cbn [snd]. lia.
  - apply last_None in El. rewrite El in Hx. destruct Hx.
Qed.

Lemma spec_add_sorted cap q l e : ts_sorted q -> ts_sorted (snd (spec_add cap q l e)).
Proof.
  intros H. unfold spec_add. destruct (spec_validate cap q l e) as [err|] eqn:E; [destruct err; exact H|].
  apply keep_last_sorted, add_sorted; [exact H|]. intros newest Hn. unfold spec_validate in E. rewrite Hn in E.
  destruct (cap =? 0)%nat; [discriminate|]. destruct (_ <? label_chars _); [discriminate|].
  destruct (Equals newest e); [discriminate|]. destruct (out_of_order e newest) eqn:Eo; [discriminate|].
  unfold out_of_order in Eo. apply orb_false_iff in Eo. destruct Eo as [Eo _]. apply orb_false_iff in Eo.
  destruct Eo as [Eo _]. apply Z.ltb_ge in Eo. exact Eo.
Qed.

(** *** Runs *)
Inductive operation := OpValidate (l : bytes) (e : Exemplar) | OpAdd (l : bytes) (e : Exemplar) | OpResize (l : Z).
Inductive answer := Err (err : option storageError) | Migrated (n : Z).

Definition perform (o : operation) : CesM answer :=
  match o with
  | OpValidate l e => err <-- ValidateExemplar l e ;; go_ret (Err err)
  | OpAdd l e => err <-- AddExemplar l e ;; go_ret (Err err)
  | OpResize l => n <-- Resize l ;; go_ret (Migrated n)
  end.
Fixpoint perform_all (ops : list operation) : CesM (list answer) :=
  match ops with
  | [] => go_ret []
  | o :: ops => a <-- perform o ;; rest <-- perform_all ops ;; go_ret (a :: rest)
  end.

(** The same on the queue and its capacity. *)
Definition spec_perform (o : operation) (s : nat * queue) : answer * (nat * queue) :=
  let '(cap, q) := s in
  match o with
  | OpValidate l e => (Err (spec_validate cap q l e), s)
  | OpAdd l e => (Err (fst (spec_add cap q l e)), (cap, snd (spec_add cap q l e)))
  | OpResize l => (Migrated (fst (spec_resize cap q l)), snd (spec_resize cap q l))
  end.
Fixpoint spec_perform_all (ops : list operation) (s : nat * queue) : list answer * (nat * queue) :=
  match ops with
  | [] => ([], s)
  | o :: ops =>
      let '(a, s) := spec_perform o s in
      let '(rest, s) := spec_perform_all ops s in (a :: rest, s)
  end.

(** Label sets are those that [labels.New] makes. *)
Definition op_wf (o : operation) : Prop :=
  match o with
  | OpValidate l e | OpAdd l e => wf_labels l /\ wf_labels (ex_Labels e)
  | OpResize _ => True
  end.

Definition holds (s : nat * queue) (ce : CircularExemplarStorage) : Prop :=
  repr (fst s) (snd s) ce /\ ts_sorted (snd s) /\ Forall (fun x => wf_labels (fst x)) (snd s).

Lemma spec_add_wf cap q l e : wf_labels l -> Forall (fun x => wf_labels (fst x)) q ->
  Forall (fun x => wf_labels (fst x)) (snd (spec_add cap q l e)).
Proof.
  intros Hl Hq. unfold spec_add. destruct (spec_validate cap q l e) as [[]|]; cbn [snd]; try exact Hq.
  apply Forall_drop, Forall_app. split; [exact Hq|]. constructor; [exact Hl|constructor].
Qed.

Lemma perform_ok o s ce : op_wf o -> holds s ce ->
  exists ce', perform o ce = Ret (fst (spec_perform o s), ce') /\ holds (snd (spec_perform o s)) ce'.
Proof.
  destruct s as [cap q]. intros Ho (Hr & Hts & Hw). cbn [fst snd] in *. destruct o as [l e|l e|l]; cbn [perform spec_perform op_wf] in *.
  - destruct Ho as [_ He]. exists ce. unfold ValidateExemplar, go_bind, go_get. cbv beta iota.
    rewrite (validateExemplar_ok cap q ce l e Hr He). split; [reflexivity|]. split; [exact Hr|]. auto.
  - destruct Ho as [Hl He]. destruct (AddExemplar_ok cap q ce l e Hr He) as (ce' & E & Hr'). exists ce'.
    rewrite (go_bind_ret _ _ _ _ _ E). split; [reflexivity|]. split; [exact Hr'|]. cbn [fst snd].
    split; [apply spec_add_sorted, Hts|apply spec_add_wf; assumption].
  - destruct (Resize_ok cap q ce l Hr) as (ce' & E & Hr'). exists ce'. rewrite (go_bind_ret _ _ _ _ _ E).
    split; [reflexivity|]. split; [exact Hr'|]. cbn [snd]. unfold spec_resize. destruct (_ =? cap)%nat; cbn [snd]; [auto|].
    split; [apply keep_last_sorted, Hts|apply Forall_drop, Hw].
Qed.

Lemma perform_all_ok ops s ce : List.Forall op_wf ops -> holds s ce ->
  exists ce', perform_all ops ce = Ret (fst (spec_perform_all ops s), ce') /\ holds (snd (spec_perform_all ops s)) ce'.
Proof.
  intros Hops. revert s ce. induction Hops as [|o ops Ho _ IH]; intros s ce Hh; [exists ce; auto|].
  destruct (perform_ok o s ce Ho Hh) as (ce1 & E1 & Hh1). cbn [perform_all spec_perform_all].
  rewrite (go_bind_ret _ _ _ _ _ E1). destruct (spec_perform o s) as [a s1]. cbn [fst snd] in *.
  destruct (IH s1 ce1 Hh1) as (ce2 & E2 & Hh2). rewrite (go_bind_ret _ _ _ _ _ E2).
  destruct (spec_perform_all ops s1) as [rest s2]. exists ce2. auto.
Qed.

Lemma new_storage_holds n : holds (Z.to_nat n, []) (NewCircularExemplarStorage n).
Proof.
  unfold holds. cbn [fst snd]. split; [|split; [intros l; constructor|constructor]]. exists 0.
  unfold NewCircularExemplarStorage. replace (Z.to_nat (if n <? 0 then 0 else n)) with (Z.to_nat n); [apply empty_ring|].
  destruct (Z.ltb_spec n 0); lia.
Qed.

(** C22: whatever exemplars are validated and added and however the storage is
    resized, it never panics, answers as a queue with the capacity would that
    drops its oldest exemplars, and afterwards iterates over the exemplars of
    that queue from the oldest on and selects, sorted by series, exactly the
    matching series with all their exemplars in the time range, in any order of
    iteration over the index. *)
Theorem exemplar_storage_refines n ops : List.Forall op_wf ops ->
  let '(answers, (cap, q)) := spec_perform_all ops (Z.to_nat n, []) in
  exists ce, perform_all ops (NewCircularExemplarStorage n) = Ret (answers, ce)
    /\ (length q <= cap)%nat
    /\ (forall St E (f : bytes -> Exemplar -> St -> option E * St) st, IterateExemplars f ce st = Ret (spec_iterate f q st))
    /\ (forall start end_ matchers idxs, Permutation idxs (map snd (map_to_list (ce_index ce))) ->
         exists rs, Select ce start end_ matchers idxs = Ret rs /\ selected q start end_ matchers rs).
Proof.
  intros Hops. destruct (perform_all_ok ops _ _ Hops (new_storage_holds n)) as (ce & E & Hr & Hts & Hw).
  destruct (spec_perform_all ops (Z.to_nat n, [])) as [answers [cap q]]. cbn [fst snd] in *. exists ce.
  split; [exact E|]. split; [destruct Hr as [b Hr]; apply (rg_size _ _ _ _ _ _ Hr)|]. split.
  - intros St E' f st. apply (IterateExemplars_ok f cap q ce st Hr).
  - intros start end_ matchers idxs Hp. apply (Select_ok cap); assumption.
Qed.

End refinement.

(** ** A run

    Three exemplars of two series and a duplicate in a storage for two, which is
    then made smaller. *)
Definition demo_series (c : Z) : bytes := [1; 97; 1; c].
Definition demo_exemplar (c ts : Z) : Exemplar := mkExemplar [1; 116; 1; c] (f64_of_int ts) ts true.
Definition demo_ops : list operation :=
  [OpAdd (demo_series 49) (demo_exemplar 120 1); OpAdd (demo_series 50) (demo_exemplar 121 2);
   OpAdd (demo_series 49) (demo_exemplar 122 3); OpAdd (demo_series 49) (demo_exemplar 122 3);
   OpAdd (demo_series 49) (demo_exemplar 120 2); OpResize 1].
Definition demo_hash : LabelsHash := fun l => be_val l.
Definition demo_regex : RegexLib := {| MatchString _ _ := false |}.

Lemma demo_labels_wf x y : is_u8 x -> is_u8 y -> wf_labels [1; x; 1; y].
Proof.
  intros Hx Hy. exists [mkLabel [x] [y]]. split; [reflexivity|]. split.
  - repeat constructor; unfold short; cbn; try lia. discriminate.
  - repeat constructor.
Qed.

Lemma exemplar_storage_refines_witness :
  fst (@spec_perform_all demo_hash demo_ops (2%nat, [])) = [Err None; Err None; Err None; Err None; Err (Some ErrOutOfOrderExemplar); Migrated 1]
  /\ let '(answers, (cap, q)) := @spec_perform_all demo_hash demo_ops (Z.to_nat 2, []) in
     exists ce, @perform_all demo_hash demo_ops (NewCircularExemplarStorage 2) = Ret (answers, ce)
       /\ (length q <= cap)%nat
       /\ (forall St E (f : bytes -> Exemplar -> St -> option E * St) st, IterateExemplars f ce st = Ret (spec_iterate f q st))
       /\ (forall start end_ matchers idxs, Permutation idxs (map snd (map_to_list (ce_index ce))) ->
            exists rs, @Select demo_regex ce start end_ matchers idxs = Ret rs /\ @selected demo_regex q start end_ matchers rs).
Proof.
  split; [vm_compute; reflexivity|]. apply (@exemplar_storage_refines demo_hash demo_regex 2 demo_ops).
  repeat constructor; apply demo_labels_wf; unfold is_u8; lia.
Defined.
