(* ===== verification/Index.v ===== *)
(** * The index file: reading [tsdb/index/index.go]

    An index file holds, one after the other, a header, the symbol table, the
    series with their chunks, label indices, postings lists, the tables of the
    two and a table of contents.  This file models the readers of the sections
    and proves that they read what is written; [IndexWriter] models the writer
    and [IndexReader] the reader of whole files.

    A slice of the file is read with a [Decbuf] of [Encoding].  Offsets are Go
    [int]s; an offset that is out of range panics. *)

From stdpp Require Import base list numbers gmap sorting.
From Stdlib Require Import ZArith Lia Sorting.Sorted.
From S2P Require Import Prelude Encoding Labels Postings.

(** ** Errors *)
Inductive index_error :=
| EDec (e : enc_error)
| EMagic (m : Z) | EVersion (v : Z)
| EUnknownSymbolOffset (o : Z) | EUnknownSymbol (s : bytes)
| EKeyCount (n : Z) | EPostingsLength (n len : Z) | ENotFound
(* of the writer *)
| EStage (s at_ : nat) | EMaxSize
| ESymbolOrder (sym : bytes) | ESymbolTableSize (n : Z) | ENoSymbol (s : bytes)
| ESeriesOrder | ESeriesRef (ref : Z) | EChunkRef (ref prev : Z) | EChunkMinT (mint maxt : Z) | EChunkMaxT (maxt mint : Z)
| EAlign (pos : Z) | ELength (l : Z) | ECorrupt (name : bytes).

(** Fallible code that does not keep a buffer. *)
Definition res (A : Type) : Type := outcome (index_error + A).
Definition rret {A} (a : A) : res A := Ret (inr a).
Definition rerr {A} (e : index_error) : res A := Ret (inl e).
Definition rbind {A B} (m : res A) (k : A -> res B) : res B :=
  match m with Panic => Panic | Ret (inl e) => Ret (inl e) | Ret (inr a) => k a end.

Declare Scope res_scope.
Delimit Scope res_scope with res.
Notation "x <~ m ;; k" := (rbind m (fun x => k))
  (at level 100, m at next level, k at level 200, right associativity) : res_scope.
#[global] Open Scope res_scope.

(** [if d.Err() != nil { return d.Err() }] at the end of some reads. *)
Definition finish {A} (r : outcome (A * Decbuf)) : res A :=
  match r with
  | Panic => Panic
  | Ret (a, d) => match dE d with Some e => Ret (inl (EDec e)) | None => Ret (inr a) end
  end.

(** Fallible code with a state: a buffer that is read, or the writer. *)
Definition EM (St A : Type) : Type := St -> res (A * St).
Definition em_ret {St A} (a : A) : EM St A := fun s => rret (a, s).
Definition em_err {St A} (e : index_error) : EM St A := fun _ => rerr e.
Definition em_bind {St A B} (m : EM St A) (k : A -> EM St B) : EM St B :=
  fun s => rbind (m s) (fun '(a, s') => k a s').
Definition em_get {St} : EM St St := fun s => rret (s, s).
Definition em_put {St} (s : St) : EM St unit := fun _ => rret (tt, s).
Definition em_res {St A} (r : res A) : EM St A := fun s => rbind r (fun a => rret (a, s)).
Notation "x <== m ;; k" := (em_bind m (fun x => k))
  (at level 100, m at next level, k at level 200, right associativity) : res_scope.
Notation "m ;== k" := (em_bind m (fun _ => k)) (at level 100, k at level 200, right associativity) : res_scope.

(** A read of a buffer, whose errors stay in the buffer. *)
Definition em_dec {A} (m : Dec A) : EM Decbuf A := fun d =>
  match m d with Panic => Panic | Ret (a, d') => rret (a, d') end.
(** [if d.Err() != nil { return d.Err() }] *)
Definition check_err : EM Decbuf unit := fun d =>
  match dE d with Some e => rerr (EDec e) | None => rret (tt, d) end.
(** Runs a reader on a buffer and drops the buffer. *)
Definition run_on {A} (d : Decbuf) (m : EM Decbuf A) : res A := x <~ m d ;; rret (fst x).

(** ** Frames at an offset *)

(** A negative offset, or one whose end overflows, passes the length test and
    panics in [Range]. *)
Definition bad_offset (off : Z) : bool := (off <? 0) || (MaxInt64 - 5 <? off).
Definition decbuf_at (bs : bytes) (off : Z) (check : bool) : res Decbuf :=
  if bad_offset off then Panic else rret (NewDecbufAt bs (Z.to_nat off) check).
Definition decbuf_uvarint_at {V : VarintLib} (bs : bytes) (off : Z) : res Decbuf :=
  if bad_offset off then Panic else rret (NewDecbufUvarintAt bs (Z.to_nat off)).

(** ** Constants and the table of contents *)
Definition MagicIndex : Z := 0xBAAAD700.
Definition HeaderLen : nat := 5.
Definition FormatV1 : Z := 1.
Definition FormatV2 : Z := 2.
Definition FormatV3 : Z := 3.
Definition seriesByteAlign : Z := 16.
Definition symbolFactor : Z := 32.
Definition indexTOCLen : nat := 52.

Record TOC := mkTOC { t_Symbols : Z; t_Series : Z; t_LabelIndices : Z; t_LabelIndicesTable : Z; t_Postings : Z; t_PostingsTable : Z }.

Definition NewTOCFromByteSlice (bs : bytes) : res TOC :=
  if (length bs <? indexTOCLen)%nat then rerr (EDec ErrInvalidSize)
  else
    let b := slice bs (length bs - indexTOCLen) (length bs) in
    let expCRC := be_val (drop (length b - 4) b) in
    let d := mkDecbuf (take (length b - 4) b) None in
    if negb (DCrc32 d =? expCRC) then rerr (EDec ErrInvalidChecksum)
    else
      run_on d (
        a <== em_dec Be64 ;; b <== em_dec Be64 ;; c <== em_dec Be64 ;;
        d <== em_dec Be64 ;; e <== em_dec Be64 ;; f <== em_dec Be64 ;;
        check_err ;== em_ret (mkTOC a b c d e f)).

Section reading.
Context {V : VarintLib}.

(** ** The symbol table *)

(** Every 32nd symbol has its offset in [s_offsets]. *)
Record Symbols := mkSymbols { s_bs : bytes; s_version : Z; s_off : Z; s_offsets : list Z; s_seen : Z }.

Fixpoint symbols_loop (fuel : nat) (cnt end_ : Z) (offsets : list Z) (seen : Z) : Dec (list Z * Z) :=
  d <-- go_get ;;
  match dE d with
  | Some _ => go_ret (offsets, seen)
  | None =>
      if seen <? cnt then
        match fuel with
        | O => go_ret (offsets, seen)
        | S f =>
            let offsets := if seen mod symbolFactor =? 0 then offsets ++ [end_ - DLen d] else offsets in
            UvarintBytes ;;; symbols_loop f cnt end_ offsets (seen + 1)
        end
      else go_ret (offsets, seen)
  end.

Definition NewSymbols (bs : bytes) (version off : Z) : res Symbols :=
  d <~ decbuf_at bs off true ;;
  let origLen := DLen d in
  run_on d (
    cnt <== em_dec Be32int ;;
    let basePos := off + 4 in
    r <== em_dec (symbols_loop (S (length bs)) cnt (basePos + origLen) [] 0) ;;
    check_err ;== em_ret (mkSymbols bs version off (fst r) (snd r))).

Fixpoint skip_symbols (n : nat) : Dec unit :=
  match n with O => go_ret tt | S n' => UvarintBytes ;;; skip_symbols n' end.

Definition Lookup (s : Symbols) (o : Z) : res bytes :=
  let d := mkDecbuf (s_bs s) None in
  let read := sym <== em_dec UvarintStr ;; check_err ;== em_ret sym in
  if s_version s =? FormatV1 then run_on d (em_dec (Skip o) ;== read)
  else if s_seen s <=? o then rerr (EUnknownSymbolOffset o)
  else
    match s_offsets s !! Z.to_nat (o / symbolFactor) with
    | None => Panic
    | Some off =>
        run_on d (em_dec (Skip off) ;== em_dec (skip_symbols (Z.to_nat (o - o / symbolFactor * symbolFactor))) ;== read)
    end.

(** The symbol at an offset; its errors are dropped.  All symbols were read
    when the table was opened, so that no read panics here. *)
Definition symbol_at (s : Symbols) (off : Z) : bytes :=
  match (Skip off ;;; UvarintBytes) (mkDecbuf (s_bs s) None) with Ret (sym, _) => sym | Panic => [] end.

(** The loop of [ReverseLookup], [n] symbols at most: the number of the last
    symbol read, its text and the length of the buffer before it. *)
Fixpoint reverse_loop (n : nat) (sym : bytes) (res_ : Z) (lastSymbol : bytes) (lastLen : Z) : Dec (Z * bytes * Z) :=
  d <-- go_get ;;
  match dE d, n with
  | None, S n' =>
      let lastLen := DLen d in
      lastSymbol <-- UvarintBytes ;;
      if negb (str_ltb lastSymbol sym) then go_ret (res_, lastSymbol, lastLen)
      else reverse_loop n' sym (res_ + 1) lastSymbol lastLen
  | _, _ => go_ret (res_, lastSymbol, lastLen)
  end.

Definition ReverseLookup (s : Symbols) (sym : bytes) : res Z :=
  if (length (s_offsets s) =? 0)%nat then rerr (EUnknownSymbol sym)
  else
    let i := sort_search (length (s_offsets s)) (fun i => str_ltb sym (symbol_at s (nth i (s_offsets s) 0))) in
    let i := if (0 <? i)%nat then (i - 1)%nat else i in
    match s_offsets s !! i with
    | None => Panic
    | Some off =>
        let start := Z.of_nat i * symbolFactor in
        r <~ run_on (mkDecbuf (s_bs s) None) (
          em_dec (Skip off) ;==
          r <== em_dec (reverse_loop (Z.to_nat (s_seen s + 1 - start)) sym start [] 0) ;;
          check_err ;== em_ret r) ;;
        let '(res_, lastSymbol, lastLen) := r in
        if negb (str_eqb lastSymbol sym) then rerr (EUnknownSymbol sym)
        else if s_version s =? FormatV1 then rret (u32 (Z.of_nat (length (s_bs s)) - lastLen))
        else rret (u32 res_)
    end.

(** [Iter], with its [Next] called until it returns false: the strings and the
    error. *)
Fixpoint iter_loop (n : nat) (d : Decbuf) : outcome (list bytes * option enc_error) :=
  match n with
  | O => Ret ([], None)
  | S n' =>
      match UvarintBytes d with
      | Panic => Panic
      | Ret (s, d') =>
          match dE d' with
          | Some e => Ret ([], Some e)
          | None => outcome_bind (iter_loop n' d') (fun '(l, e) => Ret (s :: l, e))
          end
      end
  end.
Definition Iter (s : Symbols) : res (list bytes * option enc_error) :=
  d <~ decbuf_at (s_bs s) (s_off s) true ;;
  match Be32int d with
  | Panic => Panic
  | Ret (cnt, d) => outcome_bind (iter_loop (Z.to_nat cnt) d) (fun r => Ret (inr r))
  end.

(** ** Series *)

(** [chunks.Meta], without the data of the chunk. *)
Record Meta := mkMeta { Ref : Z; MinTime : Z; MaxTime : Z }.

Section decoder.
(** [Decoder.LookupSymbol] *)
Variable LookupSymbol : Z -> res bytes.

Fixpoint names_loop (fuel : nat) (k : Z) (offsets : list Z) : EM Decbuf (list Z) :=
  if 0 <? k then
    match fuel with
    | O => fun _ => Panic
    | S f =>
        o <== em_dec Uvarint ;;
        em_dec Uvarint ;==
        check_err ;== names_loop f (k - 1) (offsets ++ [u32 o])
    end
  else em_ret offsets.

(** [make([]uint32, k)] panics for a negative [k]. *)
Definition LabelNamesOffsetsFor (b : bytes) : res (list Z) :=
  run_on (mkDecbuf b None) (
    k <== em_dec Uvarint ;;
    (if k <? 0 then fun _ => Panic else em_ret tt) ;==
    offsets <== names_loop (S (length b)) k [] ;;
    check_err ;== em_ret offsets).

Fixpoint value_loop (fuel : nat) (k : Z) (label : bytes) : EM Decbuf bytes :=
  if 0 <? k then
    match fuel with
    | O => fun _ => Panic
    | S f =>
        lno <== em_dec Uvarint ;;
        lvo <== em_dec Uvarint ;;
        check_err ;==
        ln <== em_res (LookupSymbol (u32 lno)) ;;
        if str_eqb ln label then em_res (LookupSymbol (u32 lvo)) else value_loop f (k - 1) label
    end
  else check_err ;== em_ret [].

Definition LabelValueFor (b : bytes) (label : bytes) : res bytes :=
  run_on (mkDecbuf b None) (k <== em_dec Uvarint ;; value_loop (S (length b)) k label).

Fixpoint labels_loop (fuel : nat) (k : Z) (builder : ScratchBuilder) : EM Decbuf ScratchBuilder :=
  if 0 <? k then
    match fuel with
    | O => fun _ => Panic
    | S f =>
        lno <== em_dec Uvarint ;;
        lvo <== em_dec Uvarint ;;
        check_err ;==
        ln <== em_res (LookupSymbol (u32 lno)) ;;
        lv <== em_res (LookupSymbol (u32 lvo)) ;;
        labels_loop f (k - 1) (sb_Add ln lv builder)
    end
  else em_ret builder.

Fixpoint chunks_loop (fuel : nat) (k t0 ref0 : Z) (chks : list Meta) : EM Decbuf (list Meta) :=
  if 0 <? k then
    match fuel with
    | O => fun _ => Panic
    | S f =>
        dmint <== em_dec Uvarint64 ;;
        let mint := i64 (i64 dmint + t0) in
        dmaxt <== em_dec Uvarint64 ;;
        let maxt := i64 (i64 dmaxt + mint) in
        dref <== em_dec Varint64 ;;
        let ref0 := i64 (ref0 + dref) in
        check_err ;==
        chunks_loop f (k - 1) maxt ref0 (chks ++ [mkMeta (u64 ref0) mint maxt])
    end
  else check_err ;== em_ret chks.

Definition read_chunks (fuel : nat) : EM Decbuf (list Meta) :=
  k <== em_dec Uvarint ;;
  if k =? 0 then check_err ;== em_ret []
  else
    t0 <== em_dec Varint64 ;;
    dmaxt <== em_dec Uvarint64 ;;
    let maxt := i64 (i64 dmaxt + t0) in
    uref <== em_dec Uvarint64 ;;
    let ref0 := i64 uref in
    chunks_loop fuel (k - 1) maxt ref0 [mkMeta (u64 ref0) t0 maxt].

(** [Decoder.Series]; without [want_chunks] the chunks are a nil pointer. *)
Definition Decoder_Series (b : bytes) (builder : ScratchBuilder) (want_chunks : bool) : res (ScratchBuilder * list Meta) :=
  let builder := sb_Reset builder in
  run_on (mkDecbuf b None) (
    k <== em_dec Uvarint ;;
    builder <== labels_loop (S (length b)) k builder ;;
    if want_chunks then chks <== read_chunks (S (length b)) ;; em_ret (builder, chks)
    else check_err ;== em_ret (builder, [])).
End decoder.

(** ** Postings *)

Definition DecodePostingsRaw : EM Decbuf (Z * bigEndianPostings) :=
  n <== em_dec Be32int ;;
  d <== em_get ;;
  let l := dB d in
  check_err ;==
  if negb (Z.of_nat (length l) =? 4 * n) then em_err (EPostingsLength n (Z.of_nat (length l)))
  else em_ret (n, newBigEndianPostings l).

(** The loop of [ReadPostingsOffsetTable]; the callback threads a state. *)
Fixpoint offset_table_loop {St} (fuel : nat) (f : bytes -> bytes -> Z -> Z -> EM St unit) (startLen cnt : Z) (st : St)
    : EM Decbuf St :=
  d <== em_get ;;
  match dE d with
  | Some _ => em_ret st
  | None =>
      if (0 <? DLen d) && (0 <? cnt) then
        match fuel with
        | O => fun _ => Panic
        | S fuel' =>
            let offsetPos := startLen - DLen d in
            keyCount <== em_dec Uvarint ;;
            if negb (keyCount =? 2) then em_err (EKeyCount keyCount)
            else
              name <== em_dec UvarintBytes ;;
              value <== em_dec UvarintBytes ;;
              o <== em_dec Uvarint64 ;;
              d <== em_get ;;
              match dE d with
              | Some _ => em_ret st
              | None =>
                  r <== em_res (f name value o offsetPos st) ;;
                  offset_table_loop fuel' f startLen (cnt - 1) (snd r)
              end
        end
      else em_ret st
  end.

Definition ReadPostingsOffsetTable {St} (bs : bytes) (off : Z) (f : bytes -> bytes -> Z -> Z -> EM St unit) (st : St) : res St :=
  d <~ decbuf_at bs (i64 off) true ;;
  let startLen := DLen d in
  run_on d (
    cnt <== em_dec Be32 ;;
    st <== offset_table_loop (S (length bs)) f startLen cnt st ;;
    check_err ;== em_ret st).

End reading.

(** ** Reading what was written *)

Lemma em_bind_ret {St A B} (m : EM St A) (k : A -> EM St B) s a s' : m s = Ret (inr (a, s')) -> em_bind m k s = k a s'.
Proof. intros E. unfold em_bind. rewrite E. reflexivity. Qed.

(** Runs the first step of a reader whose result is known. *)
Tactic Notation "em_go" uconstr(H) := erewrite em_bind_ret; [|apply H].

Lemma em_dec_ok {A} (m : Dec A) d a d' : m d = Ret (a, d') -> em_dec m d = Ret (inr (a, d')).
Proof. intros E. unfold em_dec. rewrite E. reflexivity. Qed.

Lemma em_ret_ok {St A} (a : A) (s : St) : em_ret a s = Ret (inr (a, s)).
Proof. reflexivity. Qed.

Lemma check_err_ok d : dE d = None -> check_err d = Ret (inr (tt, d)).
Proof. intros E. unfold check_err. rewrite E. reflexivity. Qed.

Lemma Skip_app a rest : Skip (Z.of_nat (length a)) (mkDecbuf (a ++ rest) None) = Ret (tt, mkDecbuf rest None).
Proof.
  unfold Skip. cbn [dB]. rewrite length_app. destruct (Z.ltb_spec (Z.of_nat (length a + length rest)) (Z.of_nat (length a))); [lia|].
  rewrite (go_bind_ret _ _ _ _ _ (d_split_app a rest None)). reflexivity.
Qed.

Section tables.
Context {V : VarintLib} {VOK : VarintLibOK V}.

(** *** Symbols *)
Definition enc_sym (s : bytes) : bytes := put_uvarint (Z.of_nat (length s)) ++ s.
Definition enc_syms (ss : list bytes) : bytes := flat_map enc_sym ss.

Lemma enc_syms_app a b : enc_syms (a ++ b) = enc_syms a ++ enc_syms b.
Proof. apply flat_map_app. Qed.

Lemma enc_sym_length s : (1 + length s <= length (enc_sym s))%nat.
Proof. unfold enc_sym. rewrite length_app. pose proof (put_uvarint_length (Z.of_nat (length s))). lia. Qed.

Lemma enc_syms_length ss : (length ss <= length (enc_syms ss))%nat.
Proof.
  induction ss as [|s ss IH]; [cbn; lia|]. cbn [enc_syms flat_map length]. rewrite length_app.
  pose proof (enc_sym_length s). fold (enc_syms ss). lia.
Qed.

Lemma sym_get s rest : wf_bytes s -> UvarintBytes (mkDecbuf (enc_sym s ++ rest) None) = Ret (s, mkDecbuf rest None).
Proof. apply uvarint_bytes_get. Qed.

(** The offset of the [k]-th symbol, in a table whose first symbol is at [base]. *)
Definition sym_off (base : Z) (ss : list bytes) (k : nat) : Z := base + Z.of_nat (length (enc_syms (take k ss))).

Definition sampled (base : Z) (ss : list bytes) (k : nat) : list Z :=
  map (fun i => sym_off base ss (32 * i)) (seq 0 ((k + 31) / 32)).

Lemma sampled_S base ss k : sampled base ss (S k)
  = if Z.of_nat k mod symbolFactor =? 0 then sampled base ss k ++ [sym_off base ss k] else sampled base ss k.
Proof.
  unfold sampled, symbolFactor. change 32 with (Z.of_nat 32). rewrite <- Nat2Z.inj_mod.
  pose proof (Nat.div_mod k 32 ltac:(lia)) as Hk. pose proof (Nat.mod_upper_bound k 32 ltac:(lia)) as Hr.
  set (q := (k / 32)%nat) in *. set (r := (k mod 32)%nat) in *. clearbody q r.
  assert (HS : ((S k + 31) / 32 = S q)%nat) by (symmetry; apply (Nat.div_unique _ 32 _ r); lia). rewrite HS.
  destruct (Z.eqb_spec (Z.of_nat r) 0) as [E|E].
  - replace ((k + 31) / 32)%nat with q by (apply (Nat.div_unique _ 32 _ 31); lia).
    rewrite seq_S, map_app. cbn [map Nat.add]. do 3 f_equal. lia.
  - replace ((k + 31) / 32)%nat with (S q) by (apply (Nat.div_unique _ 32 _ (r - 1)); lia). reflexivity.
Qed.

Lemma symbols_loop_ok base ss k fuel : Forall wf_bytes ss -> (length ss - k < fuel)%nat -> (k <= length ss)%nat ->
  symbols_loop fuel (Z.of_nat (length ss)) (base + Z.of_nat (length (enc_syms ss))) (sampled base ss k) (Z.of_nat k)
    (mkDecbuf (enc_syms (drop k ss)) None)
  = Ret ((sampled base ss (length ss), Z.of_nat (length ss)), mkDecbuf [] None).
Proof.
  intros Hw. revert k. induction fuel as [|fuel IH]; intros k Hf Hk; [lia|]. cbn [symbols_loop].
  unfold go_bind at 1, go_get. cbn [dE]. destruct (Z.ltb_spec (Z.of_nat k) (Z.of_nat (length ss))) as [Hlt|Hge].
  - destruct (lookup_lt_is_Some_2 ss k ltac:(lia)) as [s Hs]. rewrite (drop_S ss s k Hs). cbn [enc_syms flat_map].
    fold (enc_syms (drop (S k) ss)). pose proof (proj1 (Forall_lookup _ _) Hw k s Hs) as Hws.
    rewrite (go_bind_ret _ _ _ _ _ (sym_get s _ Hws)).
    replace (if _ =? 0 then _ else _) with (sampled base ss (S k)).
    + replace (Z.of_nat k + 1) with (Z.of_nat (S k)) by lia. apply IH; lia.
    + rewrite sampled_S. destruct (_ =? 0); [|reflexivity]. do 2 f_equal. unfold sym_off, DLen. cbn [dB].
      rewrite <- (take_drop k ss) at 2. rewrite enc_syms_app, (drop_S ss s k Hs). cbn [enc_syms flat_map].
      fold (enc_syms (drop (S k) ss)). rewrite !length_app. lia.
  - assert (k = length ss) as -> by lia. rewrite drop_all. reflexivity.
Qed.

Definition symbol_table (ss : list bytes) : bytes := be_bytes 4 (Z.of_nat (length ss)) ++ enc_syms ss.

Lemma run_on_ok {A} d (m : EM Decbuf A) a d' : m d = Ret (inr (a, d')) -> run_on d m = Ret (inr a).
Proof. intros E. unfold run_on. rewrite E. reflexivity. Qed.

Lemma decbuf_at_frame bs off c rest : Z.of_nat (length c) < 2 ^ 32 -> Z.of_nat (length bs) < 2 ^ 62 ->
  drop off bs = frame c ++ rest -> decbuf_at bs (Z.of_nat off) true = Ret (inr (mkDecbuf c None)).
Proof.
  intros Hc Hbs E. unfold decbuf_at, bad_offset.
  assert (Hoff : (off <= length bs)%nat).
  { apply (f_equal length) in E. unfold frame in E. rewrite length_drop, !length_app, !length_be_bytes in E. lia. }
  destruct (Z.ltb_spec (Z.of_nat off) 0); [lia|]. destruct (Z.ltb_spec (MaxInt64 - 5) (Z.of_nat off)); [zlia|]. cbn [orb].
  rewrite Nat2Z.id, (NewDecbufAt_complete bs off c rest Hc E). reflexivity.
Qed.

(** A table of the symbols [ss] at [off], in the file [bs]. *)
Definition symbols_in (bs : bytes) (off : nat) (ss : list bytes) : Prop :=
  exists rest, drop off bs = frame (symbol_table ss) ++ rest.

(** What the length of a table bounds. *)
Definition wf_symbols (bs : bytes) (ss : list bytes) : Prop :=
  Z.of_nat (length bs) < 2 ^ 62 /\ Z.of_nat (length (symbol_table ss)) < 2 ^ 32 /\ Forall wf_bytes ss.

Definition opened (bs : bytes) (version : Z) (off : nat) (ss : list bytes) : Symbols :=
  mkSymbols bs version (Z.of_nat off) (sampled (Z.of_nat off + 8) ss (length ss)) (Z.of_nat (length ss)).

Lemma NewSymbols_ok bs version off ss : wf_symbols bs ss -> symbols_in bs off ss ->
  NewSymbols bs version (Z.of_nat off) = Ret (inr (opened bs version off ss)).
Proof.
  intros (Hbs & Htab & Hw) [rest E]. unfold NewSymbols. rewrite (decbuf_at_frame _ _ _ _ Htab Hbs E). cbn [rbind].
  pose proof (enc_syms_length ss) as Hn. unfold symbol_table in Htab. rewrite length_app, length_be_bytes in Htab.
  pose proof (f_equal length E) as El. unfold frame, symbol_table in El. rewrite length_drop, !length_app, !length_be_bytes in El.
  assert (Hcnt : Be32int (mkDecbuf (symbol_table ss) None) = Ret (Z.of_nat (length ss), mkDecbuf (enc_syms ss) None)).
  { unfold symbol_table. apply (d_fixed_get 4). lia. }
  pose proof (symbols_loop_ok (Z.of_nat off + 8) ss 0 (S (length bs)) Hw ltac:(lia) ltac:(lia)) as Hloop. rewrite drop_0 in Hloop.
  change (sampled (Z.of_nat off + 8) ss 0) with (@nil Z) in Hloop.
  eapply run_on_ok. em_go (em_dec_ok _ _ _ _ Hcnt). unfold DLen, symbol_table. cbn [dB]. rewrite length_app, length_be_bytes.
  replace (Z.of_nat off + 4 + Z.of_nat (4 + length (enc_syms ss))) with (Z.of_nat off + 8 + Z.of_nat (length (enc_syms ss))) by lia.
  em_go (em_dec_ok _ _ _ _ Hloop). em_go (check_err_ok (mkDecbuf [] None) eq_refl). reflexivity.
Qed.

Lemma symbols_bytes bs off ss k : symbols_in bs off ss -> (k <= length ss)%nat ->
  exists rest, drop (Z.to_nat (sym_off (Z.of_nat off + 8) ss k)) bs = enc_syms (drop k ss) ++ rest
    /\ (Z.to_nat (sym_off (Z.of_nat off + 8) ss k) <= length bs)%nat.
Proof.
  intros [rest E] Hk. unfold frame in E. set (crc := be_bytes 4 (crc32_checksum _)) in E. clearbody crc.
  set (len := be_bytes 4 (Z.of_nat (length (symbol_table ss)))) in E. assert (Hlen : length len = 4%nat) by apply length_be_bytes.
  clearbody len. unfold symbol_table in E.
  assert (Es : enc_syms ss = enc_syms (take k ss) ++ enc_syms (drop k ss)) by (rewrite <- enc_syms_app, take_drop; reflexivity).
  rewrite Es, <- !app_assoc in E. pose proof (f_equal length E) as El. rewrite length_drop, !length_app, !length_be_bytes in El.
  apply drop_app_shift in E. rewrite Hlen in E. apply drop_app_shift in E. rewrite length_be_bytes in E.
  apply drop_app_shift in E. unfold sym_off.
  replace (Z.to_nat (Z.of_nat off + 8 + Z.of_nat (length (enc_syms (take k ss)))))
    with (off + 4 + 4 + length (enc_syms (take k ss)))%nat by lia. eexists. split; [exact E|]. lia.
Qed.

Lemma Skip_drop (bs : bytes) n : 0 <= n -> (Z.to_nat n <= length bs)%nat ->
  Skip n (mkDecbuf bs None) = Ret (tt, mkDecbuf (drop (Z.to_nat n) bs) None).
Proof.
  intros H0 H. pose proof (Skip_app (take (Z.to_nat n) bs) (drop (Z.to_nat n) bs)) as E.
  rewrite take_drop, length_take in E. replace (Z.of_nat (Z.to_nat n `min` length bs)) with n in E by lia. exact E.
Qed.

Lemma sampled_lookup base ss k i : (32 * i < k)%nat -> sampled base ss k !! i = Some (sym_off base ss (32 * i)).
Proof.
  intros H. unfold sampled. rewrite list_lookup_fmap, lookup_seq_lt; [reflexivity|].
  apply Nat.div_le_lower_bound; lia.
Qed.

Lemma sym_off_nonneg off ss k : 0 <= sym_off (Z.of_nat off + 8) ss k.
Proof. unfold sym_off. lia. Qed.

Lemma skip_symbols_ok ss n rest : Forall wf_bytes ss -> (n <= length ss)%nat ->
  skip_symbols n (mkDecbuf (enc_syms ss ++ rest) None) = Ret (tt, mkDecbuf (enc_syms (drop n ss) ++ rest) None).
Proof.
  intros Hw. revert n. induction Hw as [|s ss Hs Hw IH]; intros n Hn; destruct n as [|n]; cbn [skip_symbols length] in *; try reflexivity; try lia.
  cbn [enc_syms flat_map drop]. fold (enc_syms ss). rewrite <- app_assoc. rewrite (go_bind_ret _ _ _ _ _ (sym_get s _ Hs)).
  apply IH. lia.
Qed.

Lemma Lookup_ok bs version off ss o s : version <> FormatV1 -> wf_symbols bs ss -> symbols_in bs off ss -> ss !! o = Some s ->
  Lookup (opened bs version off ss) (Z.of_nat o) = Ret (inr s).
Proof.
  intros Hv (Hbs & Htab & Hw) Hin Hs. pose proof (lookup_lt_Some _ _ _ Hs) as Ho. unfold Lookup, opened.
  cbn [s_bs s_version s_seen s_offsets]. destruct (Z.eqb_spec version FormatV1); [contradiction|].
  destruct (Z.leb_spec (Z.of_nat (length ss)) (Z.of_nat o)); [lia|].
  assert (Hi : Z.to_nat (Z.of_nat o / symbolFactor) = (o / 32)%nat).
  { unfold symbolFactor. change 32 with (Z.of_nat 32). rewrite <- Nat2Z.inj_div, Nat2Z.id. reflexivity. }
  pose proof (Nat.div_mod o 32 ltac:(lia)) as Hdm. rewrite Hi, sampled_lookup by lia.
  destruct (symbols_bytes bs off ss (32 * (o / 32)) Hin ltac:(lia)) as (rest & E & Hlen).
  assert (Hr : Z.to_nat (Z.of_nat o - Z.of_nat o / symbolFactor * symbolFactor) = (o mod 32)%nat).
  { unfold symbolFactor. change 32 with (Z.of_nat 32). rewrite <- Nat2Z.inj_div. lia. }
  eapply run_on_ok. em_go (em_dec_ok _ _ _ _ (Skip_drop bs _ (sym_off_nonneg off ss _) Hlen)). rewrite E, Hr.
  em_go (em_dec_ok _ _ _ _ (skip_symbols_ok (drop (32 * (o / 32)) ss) (o mod 32) rest
    ltac:(apply Forall_drop, Hw) ltac:(rewrite length_drop; lia))).
  rewrite drop_drop, <- Hdm, (drop_S ss s o Hs). cbn [enc_syms flat_map]. rewrite <- app_assoc.
  em_go (em_dec_ok _ _ _ _ (sym_get s _ (proj1 (Forall_lookup _ _) Hw o s Hs))).
  em_go (check_err_ok (mkDecbuf (flat_map enc_sym (drop (S o) ss) ++ rest) None) eq_refl). reflexivity.
Qed.

(** *** From symbols to their numbers *)
Definition str_sorted (ss : list bytes) : Prop := StronglySorted str_lt ss.

Lemma sorted_lookup ss i j s t : str_sorted ss -> ss !! i = Some s -> ss !! j = Some t -> (i < j)%nat -> str_lt s t.
Proof.
  intros Hs. revert i j. induction Hs as [|x ss Hs IH Hx]; intros i j Hi Hj Hij; [discriminate|].
  destruct j as [|j]; [lia|]. destruct i as [|i]; [|apply (IH i j); [assumption..|lia]]. injection Hi as <-.
  apply (proj1 (List.Forall_forall _ _) Hx). apply list_elem_of_In, (list_elem_of_lookup_2 _ j), Hj.
Qed.

Lemma sorted_lookup_le ss i j s t : str_sorted ss -> ss !! i = Some s -> ss !! j = Some t -> str_ltb s t = true -> (i < j)%nat.
Proof.
  intros Hs Hi Hj Hlt. apply str_ltb_spec in Hlt. destruct (Nat.lt_trichotomy i j) as [|[->|Hgt]]; [assumption| |].
  - rewrite Hi in Hj. injection Hj as ->. destruct (str_lt_irrefl _ Hlt).
  - destruct (str_lt_irrefl s). eapply str_lt_trans; [exact Hlt|]. eapply sorted_lookup; eassumption.
Qed.

Lemma symbol_at_ok bs version off ss k s : Forall wf_bytes ss -> symbols_in bs off ss -> ss !! k = Some s ->
  symbol_at (opened bs version off ss) (sym_off (Z.of_nat off + 8) ss k) = s.
Proof.
  intros Hw Hin Hs. pose proof (lookup_lt_Some _ _ _ Hs) as Hk. unfold symbol_at, opened. cbn [s_bs].
  destruct (symbols_bytes bs off ss k Hin ltac:(lia)) as (rest & E & Hlen).
  rewrite (go_bind_ret _ _ _ _ _ (Skip_drop bs _ (sym_off_nonneg off ss _) Hlen)), E, (drop_S ss s k Hs).
  cbn [enc_syms flat_map]. rewrite <- app_assoc, (sym_get s _ (proj1 (Forall_lookup _ _) Hw k s Hs)). reflexivity.
Qed.

(** The first symbol that is not below [sym] has the number [j]. *)
Definition first_from (ss : list bytes) (sym : bytes) (j : nat) (t : bytes) : Prop :=
  ss !! j = Some t /\ str_le sym t /\ forall k s, (k < j)%nat -> ss !! k = Some s -> str_lt s sym.

Lemma first_from_here ss j sym : str_sorted ss -> ss !! j = Some sym -> first_from ss sym j sym.
Proof.
  intros Hs Hj. split; [exact Hj|]. split; [apply str_le_lt_eq; auto|]. intros k s Hk Hks. exact (sorted_lookup ss k j s sym Hs Hks Hj Hk).
Qed.

(** The walk from the [k]-th symbol reaches the [j]-th one. *)
Lemma reverse_loop_ok ss j sym t rest n k last len : Forall wf_bytes ss -> first_from ss sym j t -> (k <= j < k + n)%nat ->
  exists len' d', reverse_loop n sym (Z.of_nat k) last len (mkDecbuf (enc_syms (drop k ss) ++ rest) None)
  = Ret ((Z.of_nat j, t, len'), d') /\ dE d' = None.
Proof.
  intros Hw (Hj & Hle & Hbelow). revert k last len. induction n as [|n IH]; intros k last len Hk; [lia|]. cbn [reverse_loop].
  unfold go_bind at 1, go_get. cbn [dE]. pose proof (lookup_lt_Some _ _ _ Hj) as Hjl.
  destruct (lookup_lt_is_Some_2 ss k ltac:(lia)) as [u Hu]. rewrite (drop_S ss u k Hu). cbn [enc_syms flat_map].
  rewrite <- app_assoc, (go_bind_ret _ _ _ _ _ (sym_get u _ (proj1 (Forall_lookup _ _) Hw k u Hu))).
  destruct (decide (k = j)) as [->|Hne].
  - rewrite Hj in Hu. injection Hu as <-. rewrite (proj2 (str_ltb_false _ _) Hle). do 2 eexists. split; reflexivity.
  - rewrite (proj2 (str_ltb_spec u sym)) by (apply (Hbelow k u); [lia|exact Hu]). cbn [negb].
    replace (Z.of_nat k + 1) with (Z.of_nat (S k)) by lia. apply IH. lia.
Qed.

Lemma search_symbol bs version off ss j sym t : Forall wf_bytes ss -> str_sorted ss -> symbols_in bs off ss -> first_from ss sym j t ->
  let offsets := sampled (Z.of_nat off + 8) ss (length ss) in
  let r := sort_search (length offsets) (fun i => str_ltb sym (symbol_at (opened bs version off ss) (nth i offsets 0))) in
  (32 * (r - 1) <= j)%nat /\ (r - 1 < length offsets)%nat.
Proof.
  intros Hw Hs Hin (Hj & Hle & _) offsets r. pose proof (lookup_lt_Some _ _ _ Hj) as Hjl.
  assert (Hlen : length offsets = ((length ss + 31) / 32)%nat) by (unfold offsets, sampled; rewrite length_map, length_seq; reflexivity).
  assert (Hpos : (0 < length offsets)%nat) by (rewrite Hlen; apply Nat.div_str_pos; lia).
  assert (Hat : forall i, (i < length offsets)%nat -> exists t, ss !! (32 * i)%nat = Some t
    /\ symbol_at (opened bs version off ss) (nth i offsets 0) = t).
  { intros i Hi. assert (Hi32 : (32 * i < length ss)%nat).
    { rewrite Hlen in Hi. pose proof (Nat.div_mod (length ss + 31) 32 ltac:(lia)).
      pose proof (Nat.mod_upper_bound (length ss + 31) 32 ltac:(lia)). nia. }
    destruct (lookup_lt_is_Some_2 ss (32 * i) Hi32) as [u Hu]. exists u. split; [exact Hu|].
    pose proof (sampled_lookup (Z.of_nat off + 8) ss (length ss) i Hi32) as E. fold offsets in E.
    apply (nth_lookup_Some _ _ 0) in E. rewrite E. apply symbol_at_ok; assumption. }
  destruct (sort_search_spec (length offsets) (fun i => str_ltb sym (symbol_at (opened bs version off ss) (nth i offsets 0)))) as (H1 & H2 & _).
  { intros a b Hab Ha. destruct (Hat a ltac:(lia)) as (ta & Hta & Ea), (Hat b ltac:(lia)) as (tb & Htb & Eb).
    rewrite Ea in Ha. rewrite Eb. destruct (decide (a = b)) as [->|]; [congruence|]. apply str_ltb_spec. apply str_ltb_spec in Ha.
    eapply str_lt_trans; [exact Ha|]. eapply sorted_lookup; [exact Hs|exact Hta|exact Htb|lia]. }
  fold r in H1, H2. split; [|lia]. destruct r as [|r']; [lia|]. replace (S r' - 1)%nat with r' by lia.
  specialize (H2 r' ltac:(lia)). destruct (Hat r' ltac:(lia)) as (u & Hu & Eu). cbv beta in H2. rewrite Eu in H2.
  destruct (le_lt_dec (32 * r') j) as [|Hgt]; [assumption|]. exfalso.
  pose proof (sorted_lookup ss j (32 * r') t u Hs Hj Hu Hgt) as Hlt. apply str_ltb_false in H2. apply str_le_lt_eq in Hle.
  assert (Hsu : str_lt sym u) by (destruct Hle as [Hle| ->]; [exact (str_lt_trans _ _ _ Hle Hlt)|exact Hlt]).
  apply str_le_lt_eq in H2. destruct H2 as [H2| ->]; [exact (str_lt_irrefl _ (str_lt_trans _ _ _ H2 Hsu))|exact (str_lt_irrefl _ Hsu)].
Qed.

(** A string up to the last symbol is found or reported. *)
Lemma ReverseLookup_at bs version off ss j sym t : version <> FormatV1 -> wf_symbols bs ss -> symbols_in bs off ss ->
  str_sorted ss -> first_from ss sym j t ->
  ReverseLookup (opened bs version off ss) sym = if str_eqb t sym then Ret (inr (Z.of_nat j)) else Ret (inl (EUnknownSymbol sym)).
Proof.
  intros Hv (Hbs & Htab & Hw) Hin Hs Hf. pose proof (lookup_lt_Some _ _ _ (proj1 Hf)) as Hjl.
  unfold ReverseLookup. cbn [s_offsets opened s_seen s_bs s_version].
  destruct (search_symbol bs version off ss j sym t Hw Hs Hin Hf) as [Hle Hlt]. cbv zeta in Hle, Hlt.
  set (r := sort_search _ _) in *. set (offsets := sampled _ ss _) in *. clearbody r.
  destruct (Nat.eqb_spec (length offsets) 0); [lia|].
  replace (if (0 <? r)%nat then (r - 1)%nat else r) with (r - 1)%nat by (destruct (Nat.ltb_spec 0 r); lia).
  unfold offsets. rewrite sampled_lookup by lia.
  destruct (symbols_bytes bs off ss (32 * (r - 1)) Hin ltac:(lia)) as (rest & E & Hlen).
  destruct (reverse_loop_ok ss j sym t rest (Z.to_nat (Z.of_nat (length ss) + 1 - Z.of_nat (r - 1) * symbolFactor)) (32 * (r - 1)) [] 0
    Hw Hf) as (len' & d' & El & Ed).
  { unfold symbolFactor. lia. }
  replace (Z.of_nat (32 * (r - 1))) with (Z.of_nat (r - 1) * symbolFactor) in El by (unfold symbolFactor; lia).
  erewrite run_on_ok.
  2: { em_go (em_dec_ok _ _ _ _ (Skip_drop bs _ (sym_off_nonneg off ss _) Hlen)). rewrite E. em_go (em_dec_ok _ _ _ _ El).
       em_go (check_err_ok d' Ed). reflexivity. }
  cbn [rbind]. destruct (str_eqb t sym); [|reflexivity]. cbn [negb].
  destruct (Z.eqb_spec version FormatV1); [contradiction|]. unfold rret. do 2 f_equal. apply u32_id.
  unfold symbol_table in Htab. rewrite length_app in Htab. pose proof (enc_syms_length ss). unfold is_u32. lia.
Qed.

Lemma ReverseLookup_ok bs version off ss j sym : version <> FormatV1 -> wf_symbols bs ss -> symbols_in bs off ss ->
  str_sorted ss -> ss !! j = Some sym ->
  ReverseLookup (opened bs version off ss) sym = Ret (inr (Z.of_nat j)).
Proof.
  intros Hv Hwf Hin Hs Hj. rewrite (ReverseLookup_at bs version off ss j sym sym Hv Hwf Hin Hs (first_from_here ss j sym Hs Hj)).
  rewrite (proj2 (str_eqb_spec sym sym) eq_refl). reflexivity.
Qed.

(** *** All symbols *)
Lemma iter_loop_ok ss : Forall wf_bytes ss -> iter_loop (length ss) (mkDecbuf (enc_syms ss) None) = Ret (ss, None).
Proof.
  induction 1 as [|s ss Hs _ IH]; [reflexivity|]. cbn [iter_loop length enc_syms flat_map]. rewrite (sym_get s _ Hs). cbn [dE].
  fold (enc_syms ss). rewrite IH. reflexivity.
Qed.

Lemma Iter_ok bs version off ss : wf_symbols bs ss -> symbols_in bs off ss ->
  Iter (opened bs version off ss) = Ret (inr (ss, None)).
Proof.
  intros (Hbs & Htab & Hw) [rest E]. unfold Iter, opened. cbn [s_bs s_off]. rewrite (decbuf_at_frame _ _ _ _ Htab Hbs E). cbn [rbind].
  unfold symbol_table in *. rewrite length_app, length_be_bytes in Htab. pose proof (enc_syms_length ss).
  unfold Be32int, Be32. rewrite (d_fixed_get 4) by lia. rewrite Nat2Z.id, iter_loop_ok by exact Hw. reflexivity.
Qed.

(** *** Series entries *)
Definition wf_meta (c : Meta) : Prop := is_u64 (Ref c) /\ is_i64 (MinTime c) /\ is_i64 (MaxTime c).

Fixpoint enc_later_chunks (t0 ref0 : Z) (cs : list Meta) : bytes :=
  match cs with
  | [] => []
  | c :: cs =>
      put_uvarint (u64 (i64 (MinTime c - t0))) ++ put_uvarint (u64 (i64 (MaxTime c - MinTime c)))
      ++ put_varint (i64 (i64 (Ref c) - ref0)) ++ enc_later_chunks (MaxTime c) (i64 (Ref c)) cs
  end.
Definition enc_chunks (cs : list Meta) : bytes :=
  put_uvarint (Z.of_nat (length cs))
  ++ match cs with
     | [] => []
     | c :: cs =>
         put_varint (MinTime c) ++ put_uvarint (u64 (i64 (MaxTime c - MinTime c))) ++ put_uvarint (Ref c)
         ++ enc_later_chunks (MaxTime c) (i64 (Ref c)) cs
     end.
(** [num] numbers the symbols. *)
Definition enc_ref_label (num : bytes -> Z) (l : Label) : bytes := put_uvarint (num (Name l)) ++ put_uvarint (num (Value l)).
Definition enc_ref_labels (num : bytes -> Z) (ls : list Label) : bytes := flat_map (enc_ref_label num) ls.
Definition enc_series (num : bytes -> Z) (ls : list Label) (cs : list Meta) : bytes :=
  put_uvarint (Z.of_nat (length ls)) ++ enc_ref_labels num ls ++ enc_chunks cs.

Lemma undelta x y : is_i64 x -> is_i64 y -> i64 (i64 (u64 (i64 (x - y))) + y) = x.
Proof. intros Hx Hy. rewrite i64_u64. transitivity (i64 x); [|apply i64_id, Hx]. apply i64_cong.
  rewrite (add_wrap_l i64), (add_wrap_l i64) by apply i64_mod. f_equal. lia. Qed.

Lemma enc_later_chunks_length t0 ref0 cs : (length cs <= length (enc_later_chunks t0 ref0 cs))%nat.
Proof.
  revert t0 ref0. induction cs as [|c cs IH]; intros t0 ref0; [cbn; lia|]. cbn [enc_later_chunks length]. rewrite !length_app.
  pose proof (put_uvarint_length (u64 (i64 (MinTime c - t0)))). specialize (IH (MaxTime c) (i64 (Ref c))). lia.
Qed.

Lemma chunks_loop_ok cs fuel t0 ref0 acc rest : Forall wf_meta cs -> is_i64 t0 -> is_i64 ref0 -> (length cs < fuel)%nat ->
  chunks_loop fuel (Z.of_nat (length cs)) t0 ref0 acc (mkDecbuf (enc_later_chunks t0 ref0 cs ++ rest) None)
  = Ret (inr (acc ++ cs, mkDecbuf rest None)).
Proof.
  intros Hw. revert fuel t0 ref0 acc. induction Hw as [|c cs (Hr & Hmin & Hmax) _ IH]; intros fuel t0 ref0 acc Ht0 Hr0 Hf;
    destruct fuel as [|fuel]; cbn [length] in *; try lia; cbn [chunks_loop].
  { cbn. rewrite app_nil_r. reflexivity. }
  destruct (Z.ltb_spec 0 (Z.of_nat (S (length cs)))); [|lia]. cbn [enc_later_chunks]. rewrite <- !app_assoc.
  em_go (em_dec_ok _ _ _ _ (uvarint64_get _ _ (u64_range _))). em_go (em_dec_ok _ _ _ _ (uvarint64_get _ _ (u64_range _))).
  em_go (em_dec_ok _ _ _ _ (varint64_get _ _ (i64_range _))).
  rewrite (undelta (MinTime c) t0), (undelta (MaxTime c) (MinTime c)) by assumption.
  assert (Eref : i64 (ref0 + i64 (i64 (Ref c) - ref0)) = i64 (Ref c)).
  { rewrite i64_add_wrap. replace (ref0 + (i64 (Ref c) - ref0)) with (i64 (Ref c)) by lia. apply i64_id, i64_range. }
  rewrite Eref, u64_i64, u64_id by exact Hr. em_go (check_err_ok (mkDecbuf _ None) eq_refl).
  replace (Z.of_nat (S (length cs)) - 1) with (Z.of_nat (length cs)) by lia.
  rewrite IH by (try assumption; try apply i64_range; lia). rewrite <- app_assoc. destruct c; reflexivity.
Qed.

Lemma read_chunks_ok cs fuel rest : Forall wf_meta cs -> is_len (Z.of_nat (length cs)) -> (length cs < fuel)%nat ->
  read_chunks fuel (mkDecbuf (enc_chunks cs ++ rest) None) = Ret (inr (cs, mkDecbuf rest None)).
Proof.
  intros Hw Hlen Hf. unfold read_chunks, enc_chunks. rewrite <- app_assoc. em_go (em_dec_ok _ _ _ _ (uvarint_get _ _ Hlen)).
  destruct Hw as [|c cs (Hr & Hmin & Hmax) Hw]; [reflexivity|]. cbn [length] in *.
  destruct (Z.eqb_spec (Z.of_nat (S (length cs))) 0); [lia|]. rewrite <- !app_assoc.
  em_go (em_dec_ok _ _ _ _ (varint64_get _ _ Hmin)). em_go (em_dec_ok _ _ _ _ (uvarint64_get _ _ (u64_range _))).
  em_go (em_dec_ok _ _ _ _ (uvarint64_get _ _ Hr)). rewrite (undelta (MaxTime c) (MinTime c)) by assumption.
  rewrite u64_i64, u64_id by exact Hr. replace (Z.of_nat (S (length cs)) - 1) with (Z.of_nat (length cs)) by lia.
  rewrite chunks_loop_ok by (try assumption; try apply i64_range; lia). destruct c; reflexivity.
Qed.

(** A lookup that knows the numbers of some strings. *)
Definition knows (lookup : Z -> res bytes) (num : bytes -> Z) (s : bytes) : Prop := is_u32 (num s) /\ lookup (num s) = Ret (inr s).
Definition knows_label lookup num (l : Label) : Prop := knows lookup num (Name l) /\ knows lookup num (Value l).

Lemma u32_len x : is_u32 x -> is_len x.
Proof. unfold is_len. zlia. Qed.

Lemma labels_loop_ok lookup num ls fuel b rest : Forall (knows_label lookup num) ls -> (length ls < fuel)%nat ->
  labels_loop lookup fuel (Z.of_nat (length ls)) b (mkDecbuf (enc_ref_labels num ls ++ rest) None)
  = Ret (inr (mkScratch (sb_add b ++ ls) (sb_output b), mkDecbuf rest None)).
Proof.
  intros Hw. revert fuel b. induction Hw as [|l ls [[Hn Ln] [Hv Lv]] _ IH]; intros fuel b Hf;
    destruct fuel as [|fuel]; cbn [length] in *; try lia; cbn [labels_loop].
  { cbn. rewrite app_nil_r. destruct b; reflexivity. }
  destruct (Z.ltb_spec 0 (Z.of_nat (S (length ls)))); [|lia]. cbn [enc_ref_labels flat_map]. unfold enc_ref_label at 1. rewrite <- !app_assoc.
  em_go (em_dec_ok _ _ _ _ (uvarint_get _ _ (u32_len _ Hn))). em_go (em_dec_ok _ _ _ _ (uvarint_get _ _ (u32_len _ Hv))).
  em_go (check_err_ok (mkDecbuf _ None) eq_refl). rewrite !u32_id by assumption.
  unfold em_bind at 1, em_res at 1. rewrite Ln. cbn [rbind rret]. unfold em_bind at 1, em_res at 1. rewrite Lv. cbn [rbind rret].
  replace (Z.of_nat (S (length ls)) - 1) with (Z.of_nat (length ls)) by lia. fold (enc_ref_labels num ls).
  rewrite IH by lia. cbn [sb_Add sb_add sb_output]. rewrite <- app_assoc. destruct l; reflexivity.
Qed.

Lemma enc_ref_labels_length num ls : (length ls <= length (enc_ref_labels num ls))%nat.
Proof.
  induction ls as [|l ls IH]; [cbn; lia|]. cbn [enc_ref_labels flat_map length]. rewrite length_app. unfold enc_ref_label at 1.
  rewrite length_app. pose proof (put_uvarint_length (num (Name l))). fold (enc_ref_labels num ls). lia.
Qed.

Lemma enc_chunks_length cs : (length cs <= length (enc_chunks cs))%nat.
Proof.
  unfold enc_chunks. rewrite length_app. pose proof (put_uvarint_length (Z.of_nat (length cs))). destruct cs as [|c cs]; [cbn; lia|].
  rewrite !length_app. pose proof (enc_later_chunks_length (MaxTime c) (i64 (Ref c)) cs). pose proof (put_uvarint_length (zigzag (MinTime c))).
  unfold put_varint. cbn [length]. lia.
Qed.

Lemma Decoder_Series_ok lookup num ls cs builder want : Forall (knows_label lookup num) ls -> Forall wf_meta cs ->
  Z.of_nat (length (enc_series num ls cs)) <= MaxInt64 ->
  Decoder_Series lookup (enc_series num ls cs) builder want
  = Ret (inr (mkScratch ls [], if want then cs else [])).
Proof.
  intros Hls Hcs Hlen. unfold Decoder_Series. set (fuel := S (length (enc_series num ls cs))).
  pose proof (enc_ref_labels_length num ls). pose proof (enc_chunks_length cs).
  assert (Hfuel : (length ls < fuel /\ length cs < fuel)%nat /\ is_len (Z.of_nat (length ls)) /\ is_len (Z.of_nat (length cs))).
  { unfold fuel, is_len. unfold enc_series in Hlen |- *. rewrite !length_app in Hlen |- *. zlia. }
  clearbody fuel. destruct Hfuel as ((Hf1 & Hf2) & Hl1 & Hl2). unfold enc_series.
  destruct want; eapply run_on_ok; em_go (em_dec_ok _ _ _ _ (uvarint_get _ _ Hl1));
    em_go (labels_loop_ok lookup num ls fuel _ _ Hls Hf1); cbn [sb_Reset sb_add sb_output app].
  - rewrite <- (app_nil_r (enc_chunks cs)). em_go (read_chunks_ok cs fuel [] Hcs Hl2 Hf2). reflexivity.
  - em_go (check_err_ok (mkDecbuf _ None) eq_refl). reflexivity.
Qed.

Lemma LabelValueFor_ok lookup num ls cs label : Forall (knows_label lookup num) ls ->
  Z.of_nat (length (enc_series num ls cs)) <= MaxInt64 ->
  LabelValueFor lookup (enc_series num ls cs) label = Ret (inr (default [] (find_label label ls))).
Proof.
  intros Hls Hlen. unfold LabelValueFor. set (fuel := S (length (enc_series num ls cs))).
  pose proof (enc_ref_labels_length num ls).
  assert (Hfuel : (length ls < fuel)%nat /\ is_len (Z.of_nat (length ls))).
  { unfold fuel, is_len. unfold enc_series in Hlen |- *. rewrite !length_app in Hlen |- *. zlia. }
  clearbody fuel. destruct Hfuel as (Hf & Hl). unfold enc_series. unfold run_on.
  erewrite em_bind_ret; [|apply em_dec_ok, uvarint_get, Hl]. clear Hl Hlen H. generalize (enc_chunks cs) as rest. intros rest.
  revert fuel Hf. induction Hls as [|l ls [[Hn Ln] [Hv Lv]] _ IH]; intros fuel Hf; destruct fuel as [|fuel]; cbn [length] in *; try lia;
    cbn [value_loop]; [reflexivity|].
  destruct (Z.ltb_spec 0 (Z.of_nat (S (length ls)))); [|lia]. cbn [enc_ref_labels flat_map]. unfold enc_ref_label at 1. rewrite <- !app_assoc.
  em_go (em_dec_ok _ _ _ _ (uvarint_get _ _ (u32_len _ Hn))). em_go (em_dec_ok _ _ _ _ (uvarint_get _ _ (u32_len _ Hv))).
  em_go (check_err_ok (mkDecbuf _ None) eq_refl). rewrite !u32_id by assumption.
  unfold em_bind at 1, em_res at 1. rewrite Ln. cbn [rbind rret find_label]. destruct (str_eqb (Name l) label).
  - unfold em_res. rewrite Lv. reflexivity.
  - replace (Z.of_nat (S (length ls)) - 1) with (Z.of_nat (length ls)) by lia. apply IH. lia.
Qed.

Lemma LabelNamesOffsetsFor_ok num ls cs : Forall (fun l => is_u32 (num (Name l)) /\ is_u32 (num (Value l))) ls ->
  Z.of_nat (length (enc_series num ls cs)) <= MaxInt64 ->
  LabelNamesOffsetsFor (enc_series num ls cs) = Ret (inr (map (fun l => num (Name l)) ls)).
Proof.
  intros Hls Hlen. unfold LabelNamesOffsetsFor. set (fuel := S (length (enc_series num ls cs))).
  pose proof (enc_ref_labels_length num ls).
  assert (Hfuel : (length ls < fuel)%nat /\ is_len (Z.of_nat (length ls))).
  { unfold fuel, is_len. unfold enc_series in Hlen |- *. rewrite !length_app in Hlen |- *. zlia. }
  clearbody fuel. destruct Hfuel as (Hf & Hl). unfold enc_series.
  assert (Hloop : forall acc rest, names_loop fuel (Z.of_nat (length ls)) acc (mkDecbuf (enc_ref_labels num ls ++ rest) None)
    = Ret (inr (acc ++ map (fun l => num (Name l)) ls, mkDecbuf rest None))).
  { clear Hl Hlen H. revert fuel Hf. induction Hls as [|l ls [Hn Hv] _ IH]; intros fuel Hf acc rest; destruct fuel as [|fuel];
      cbn [length] in *; try lia; cbn [names_loop]; [cbn; rewrite app_nil_r; reflexivity|].
    destruct (Z.ltb_spec 0 (Z.of_nat (S (length ls)))); [|lia]. cbn [enc_ref_labels flat_map]. unfold enc_ref_label at 1. rewrite <- !app_assoc.
    em_go (em_dec_ok _ _ _ _ (uvarint_get _ _ (u32_len _ Hn))). em_go (em_dec_ok _ _ _ _ (uvarint_get _ _ (u32_len _ Hv))).
    em_go (check_err_ok (mkDecbuf _ None) eq_refl). rewrite u32_id by assumption.
    replace (Z.of_nat (S (length ls)) - 1) with (Z.of_nat (length ls)) by lia. fold (enc_ref_labels num ls).
    rewrite IH by lia. cbn [map]. rewrite <- app_assoc. reflexivity. }
  eapply run_on_ok. em_go (em_dec_ok _ _ _ _ (uvarint_get _ _ Hl)).
  destruct (Z.ltb_spec (Z.of_nat (length ls)) 0); [lia|]. em_go (em_ret_ok tt _).
  em_go (Hloop [] _). em_go (check_err_ok (mkDecbuf _ None) eq_refl). reflexivity.
Qed.

(** *** The table of contents *)
Definition toc_fields (t : TOC) : list Z :=
  [t_Symbols t; t_Series t; t_LabelIndices t; t_LabelIndicesTable t; t_Postings t; t_PostingsTable t].
Definition enc_be64s (l : list Z) : bytes := flat_map (be_bytes 8) l.
Definition enc_toc (t : TOC) : bytes := enc_be64s (toc_fields t) ++ be_bytes 4 (crc32_checksum (enc_be64s (toc_fields t))).

Lemma be64_get x rest : is_u64 x -> Be64 (mkDecbuf (be_bytes 8 x ++ rest) None) = Ret (x, mkDecbuf rest None).
Proof. apply (d_fixed_get 8). Qed.

Lemma NewTOC_ok pre t : Forall is_u64 (toc_fields t) -> NewTOCFromByteSlice (pre ++ enc_toc t) = Ret (inr t).
Proof.
  intros Hw. destruct t as [a b c d e f]. unfold toc_fields in Hw. cbn [t_Symbols t_Series t_LabelIndices t_LabelIndicesTable t_Postings t_PostingsTable] in Hw.
  repeat match goal with H : Forall is_u64 (_ :: _) |- _ => apply Forall_cons_1 in H; destruct H as [? H] end.
  set (t := mkTOC a b c d e f). set (body := enc_be64s (toc_fields t)). set (crc := be_bytes 4 (crc32_checksum body)).
  assert (Hb : length body = 48%nat) by reflexivity. assert (Hc : length crc = 4%nat) by apply length_be_bytes.
  assert (Hl : length (enc_toc t) = 52%nat) by (unfold enc_toc; fold body crc; rewrite length_app; lia).
  unfold NewTOCFromByteSlice. rewrite length_app, Hl. unfold indexTOCLen. destruct (Nat.ltb_spec (length pre + 52) 52); [lia|].
  replace (length pre + 52 - 52)%nat with (length pre) by lia. rewrite <- Hl.
  rewrite (slice_of_drop (pre ++ enc_toc t) (length pre) (enc_toc t) []) by (rewrite drop_app_length, app_nil_r; reflexivity).
  rewrite Hl. change (enc_toc t) with (body ++ crc). replace (52 - 4)%nat with (length body) by lia.
  rewrite take_app_length, drop_app_length. unfold DCrc32. cbn [dB]. unfold crc. rewrite be_val_bytes, Z.mod_small by apply crc32_u32.
  rewrite Z.eqb_refl. cbn [negb].
  change body with (be_bytes 8 a ++ be_bytes 8 b ++ be_bytes 8 c ++ be_bytes 8 d ++ be_bytes 8 e ++ be_bytes 8 f ++ []).
  eapply run_on_ok. do 6 (erewrite em_bind_ret; [|apply em_dec_ok, be64_get; assumption]).
  em_go (check_err_ok (mkDecbuf _ None) eq_refl). reflexivity.
Qed.

(** *** Postings lists *)
Definition enc_postings (offs : list Z) : bytes := be_bytes 4 (Z.of_nat (length offs)) ++ be_encode offs.

Lemma DecodePostingsRaw_ok offs : Z.of_nat (length (enc_postings offs)) < 2 ^ 32 ->
  exists d, DecodePostingsRaw (mkDecbuf (enc_postings offs) None)
            = Ret (inr (Z.of_nat (length offs), newBigEndianPostings (be_encode offs), d)).
Proof.
  intros Hlen. unfold DecodePostingsRaw, enc_postings in *. rewrite length_app, length_be_bytes in Hlen.
  pose proof (length_be_encode offs) as El. rewrite El in Hlen.
  eexists. erewrite em_bind_ret; [|apply em_dec_ok, (d_fixed_get 4); lia]. unfold em_bind at 1, em_get. cbn [rbind rret dB].
  em_go (check_err_ok (mkDecbuf _ None) eq_refl). rewrite El.
  destruct (Z.eqb_spec (Z.of_nat (4 * length offs)) (4 * Z.of_nat (length offs))); [|lia]. reflexivity.
Qed.

(** *** The table of postings offsets *)
Definition entry : Type := bytes * bytes * Z.
Definition wf_entry (x : bytes * bytes * Z) : Prop := wf_bytes (fst (fst x)) /\ wf_bytes (snd (fst x)) /\ is_u64 (snd x).
Definition enc_key (name : bytes) : bytes := put_uvarint 2 ++ enc_sym name.
Definition enc_entry (x : bytes * bytes * Z) : bytes := enc_key (fst (fst x)) ++ enc_sym (snd (fst x)) ++ put_uvarint (snd x).
Definition enc_entries (es : list (bytes * bytes * Z)) : bytes := flat_map enc_entry es.
Definition offset_table (es : list (bytes * bytes * Z)) : bytes := be_bytes 4 (Z.of_nat (length es)) ++ enc_entries es.

(** The callback on the entries, with their positions in the table. *)
Fixpoint fold_entries {St} (f : bytes -> bytes -> Z -> Z -> EM St unit) (pos : Z) (es : list (bytes * bytes * Z)) (st : St) : res St :=
  match es with
  | [] => rret st
  | x :: es =>
      r <~ f (fst (fst x)) (snd (fst x)) (snd x) pos st ;;
      fold_entries f (pos + Z.of_nat (length (enc_entry x))) es (snd r)
  end.

Lemma enc_entries_length es : (length es <= length (enc_entries es))%nat.
Proof.
  induction es as [|x es IH]; [cbn; lia|]. cbn [enc_entries flat_map length]. rewrite length_app. fold (enc_entries es).
  unfold enc_entry at 1. rewrite !length_app. pose proof (put_uvarint_length (snd x)). lia.
Qed.

Lemma offset_table_loop_ok {St} (f : bytes -> bytes -> Z -> Z -> EM St unit) fuel startLen es st : Forall wf_entry es ->
  (length es < fuel)%nat ->
  offset_table_loop fuel f startLen (Z.of_nat (length es)) st (mkDecbuf (enc_entries es) None)
  = rbind (fold_entries f (startLen - Z.of_nat (length (enc_entries es))) es st) (fun st => rret (st, mkDecbuf [] None)).
Proof.
  intros Hw. revert fuel st. induction Hw as [|[[n v] o] es (Hn & Hv & Ho) _ IH]; intros fuel st Hf; destruct fuel as [|fuel];
    cbn [length] in *; try lia; cbn [offset_table_loop]; [reflexivity|].
  unfold em_bind at 1, em_get. cbn [rbind rret dE]. unfold DLen. cbn [dB fst snd] in *.
  cbn [enc_entries flat_map]. fold (enc_entries es). rewrite length_app. set (e1 := enc_entry (n, v, o)).
  assert (He : (0 < length e1)%nat).
  { unfold e1, enc_entry. rewrite !length_app. pose proof (put_uvarint_length o). cbn [fst snd]. lia. }
  destruct (Z.ltb_spec 0 (Z.of_nat (length e1 + length (enc_entries es)))); [|lia].
  destruct (Z.ltb_spec 0 (Z.of_nat (S (length es)))); [|lia]. cbn [andb].
  replace (mkDecbuf (e1 ++ enc_entries es) None)
    with (mkDecbuf (put_uvarint 2 ++ enc_sym n ++ enc_sym v ++ put_uvarint o ++ enc_entries es) None)
    by (unfold e1, enc_entry, enc_key; cbn [fst snd]; rewrite <- !app_assoc; reflexivity).
  em_go (em_dec_ok _ _ _ _ (uvarint_get 2 _ ltac:(unfold is_len; zlia))). cbn [Z.eqb Pos.eqb negb].
  em_go (em_dec_ok _ _ _ _ (sym_get n _ Hn)). em_go (em_dec_ok _ _ _ _ (sym_get v _ Hv)).
  em_go (em_dec_ok _ _ _ _ (uvarint64_get o _ Ho)). unfold em_bind at 1, em_get. cbn [rbind rret dE fold_entries fst snd].
  fold e1. unfold em_bind, em_res.
  destruct (f n v o (startLen - Z.of_nat (length e1 + length (enc_entries es))) st) as [[err|[u st']]|]; cbn [rbind rret snd]; try reflexivity.
  replace (Z.of_nat (S (length es)) - 1) with (Z.of_nat (length es)) by lia. rewrite IH by lia. do 2 f_equal. lia.
Qed.

Lemma ReadPostingsOffsetTable_ok {St} bs off es (f : bytes -> bytes -> Z -> Z -> EM St unit) st rest :
  Z.of_nat (length bs) < 2 ^ 62 -> Z.of_nat (length (offset_table es)) < 2 ^ 32 -> Forall wf_entry es ->
  drop off bs = frame (offset_table es) ++ rest ->
  ReadPostingsOffsetTable bs (Z.of_nat off) f st = fold_entries f 4 es st.
Proof.
  intros Hbs Hlen Hw E. unfold ReadPostingsOffsetTable.
  pose proof (f_equal length E) as El. unfold frame in El. rewrite length_drop, !length_app, !length_be_bytes in El.
  rewrite i64_id by (unfold is_i64; lia).
  rewrite (decbuf_at_frame bs off _ rest Hlen Hbs E). cbn [rbind]. pose proof (enc_entries_length es).
  unfold DLen. cbn [dB]. unfold offset_table in *. rewrite length_app, length_be_bytes in Hlen, El |- *. unfold run_on.
  erewrite em_bind_ret; [|apply em_dec_ok, (d_fixed_get 4); lia]. unfold em_bind at 1.
  rewrite offset_table_loop_ok by (assumption || lia).
  replace (Z.of_nat (4 + length (enc_entries es)) - Z.of_nat (length (enc_entries es))) with 4 by lia.
  destruct (fold_entries f 4 es st) as [[err|st']|]; reflexivity.
Qed.
End tables.

(** ** The symbol table, as a whole *)

(** The least symbol that is not below a string. *)
Lemma first_from_exists ss sym last : str_sorted ss -> list.last ss = Some last -> str_le sym last -> exists j t, first_from ss sym j t.
Proof.
  intros Hs. induction Hs as [|x ss Hs IH Hx]; intros Hl Hle; [discriminate|].
  destruct (str_ltb x sym) eqn:E.
  - destruct ss as [|y ss]; [injection Hl as ->; apply str_ltb_spec in E; apply str_le_lt_eq in Hle; exfalso;
      destruct Hle as [Hle| ->]; [exact (str_lt_irrefl _ (str_lt_trans _ _ _ E Hle))|exact (str_lt_irrefl _ E)]|].
    destruct (IH Hl Hle) as (j & t & Hj & Ht & Hb). exists (S j), t. split; [exact Hj|]. split; [exact Ht|].
    intros [|k] s Hk Hks; [injection Hks as <-; apply str_ltb_spec, E|apply (Hb k s); [lia|exact Hks]].
  - exists 0%nat, x. split; [reflexivity|]. split; [apply str_ltb_false, E|]. lia.
Qed.

(** C28: a symbol table numbers its symbols: opened from the bytes of the table,
    it finds the symbol of every number and the number of every symbol, in both
    directions through the offsets of every 32nd symbol; a number that is too
    large is an error, and a string below the last symbol that is not in the
    table is reported as unknown. *)
Theorem symbol_table_inverse (V : VarintLib) (VOK : VarintLibOK V) (bs : bytes) (off : nat) (ss : list bytes)
    (Hwf : wf_symbols bs ss) (Hs : str_sorted ss) (Hin : symbols_in bs off ss) :
  exists s, NewSymbols bs FormatV2 (Z.of_nat off) = Ret (inr s)
    /\ (forall i sym, ss !! i = Some sym -> Lookup s (Z.of_nat i) = Ret (inr sym) /\ ReverseLookup s sym = Ret (inr (Z.of_nat i)))
    /\ (forall o, Z.of_nat (length ss) <= o -> Lookup s o = Ret (inl (EUnknownSymbolOffset o)))
    /\ forall sym lst, last ss = Some lst -> str_lt sym lst -> (sym ∉ ss) -> ReverseLookup s sym = Ret (inl (EUnknownSymbol sym)).
Proof.
  exists (opened bs FormatV2 off ss). split; [apply NewSymbols_ok; assumption|]. split; [|split].
  - intros i sym Hi. split; [apply Lookup_ok|apply ReverseLookup_ok]; (assumption || discriminate).
  - intros o Ho. unfold Lookup, opened. cbn [s_version s_seen Z.eqb Pos.eqb FormatV1 FormatV2].
    destruct (Z.leb_spec (Z.of_nat (length ss)) o); [reflexivity|lia].
  - intros sym lst Hl Hlt Hno. destruct (first_from_exists ss sym lst Hs Hl) as (j & t & Hf); [apply str_le_lt_eq; auto|].
    rewrite (ReverseLookup_at bs FormatV2 off ss j sym t) by (assumption || discriminate).
    destruct (str_eqb t sym) eqn:E; [|reflexivity]. apply str_eqb_spec in E. subst t. destruct Hno. eapply list_elem_of_lookup_2, Hf.
Qed.

(** The table with the single symbol ["$i"]. *)
Definition ex_table : bytes := frame (symbol_table [[36; 105]]).

Lemma ex_table_ok : wf_symbols ex_table [[36; 105]] /\ str_sorted [[36; 105]] /\ symbols_in ex_table 0 [[36; 105]].
Proof.
  split; [|split; [repeat constructor|exists []; vm_compute; reflexivity]]. split; [vm_compute; reflexivity|]. split; [vm_compute; reflexivity|].
  repeat constructor. all: unfold is_len; cbn; zlia.
Qed.

Lemma symbol_table_inverse_witness :
  (wf_symbols ex_table [[36; 105]] /\ str_sorted [[36; 105]] /\ symbols_in ex_table 0 [[36; 105]])
  /\ exists s, NewSymbols ex_table FormatV2 (Z.of_nat 0) = Ret (inr s)
    /\ (forall i sym, [[36; 105]] !! i = Some sym -> Lookup s (Z.of_nat i) = Ret (inr sym) /\ ReverseLookup s sym = Ret (inr (Z.of_nat i)))
    /\ (forall o, Z.of_nat (length [[36; 105]]) <= o -> Lookup s o = Ret (inl (EUnknownSymbolOffset o)))
    /\ forall sym lst, last [[36; 105]] = Some lst -> str_lt sym lst -> (sym ∉ [[36; 105]]) -> ReverseLookup s sym = Ret (inl (EUnknownSymbol sym)).
Proof.
  split; [exact ex_table_ok|].
  apply (symbol_table_inverse binary_VarintLib binary_VarintLibOK ex_table 0 [[36; 105]]); apply ex_table_ok.
Defined.

(** [ReverseLookup] reads one entry past the last symbol: in the table of
    the symbol ["$i"] the checksum that follows happens to look like the entry
    of ["a"], so that ["a"] is found, with the number 1, which [Lookup] rejects. *)
Lemma reverse_lookup_past_end : exists s, NewSymbols ex_table FormatV2 0 = Ret (inr s)
  /\ symbols_in ex_table 0 [[36; 105]] /\ ([97] ∉ [[36; 105]])
  /\ ReverseLookup s [97] = Ret (inr 1) /\ Lookup s 1 = Ret (inl (EUnknownSymbolOffset 1)).
Proof.
  eexists. split; [vm_compute; reflexivity|]. split; [apply ex_table_ok|]. split.
  - intros H. apply list_elem_of_singleton in H. discriminate.
  - split; vm_compute; reflexivity.
Qed.
