(* ===== verification/IndexWriter.v ===== *)
(** * The index file: writing [tsdb/index/index.go]

    The [Writer] takes the symbols in order, then the series in order with their
    chunks, and on [Close] derives the label indices, the postings lists and the
    tables from what it has written.  A file is its contents: buffering is left
    out, as are cancellation and errors of the operating system; an error ends
    the writing.  [IndexClose] says which bytes a sequence of calls leaves. *)

From stdpp Require Import base list numbers gmap sorting.
From Stdlib Require Import ZArith Lia Sorting.Sorted.
From S2P Require Import Prelude Encoding Labels Postings Index.

Definition idxStageNone : nat := 0.
Definition idxStageSymbols : nat := 1.
Definition idxStageSeries : nat := 2.
Definition idxStageDone : nat := 3.

(** [w_f] is the index file, [w_fP] and [w_fPO] the temporary files of postings
    and of their offsets; the positions are the lengths. *)
Record Writer := mkWriter {
  w_f : bytes; w_fP : bytes; w_fPO : bytes; w_cntPO : Z;
  w_toc : TOC; w_stage : nat; w_postingsStart : Z;
  w_numSymbols : Z; w_symbols : option Symbols; w_lastSymbol : bytes; w_symbolCache : gmap bytes Z;
  w_labelIndexes : list (bytes * Z); w_labelNames : gmap bytes Z;
  w_lastSeries : bytes; w_lastSeriesRef : Z; w_lastChunkRef : Z }.

(** Updates of single fields. *)
Definition set_f x w := mkWriter x (w_fP w) (w_fPO w) (w_cntPO w) (w_toc w) (w_stage w) (w_postingsStart w) (w_numSymbols w)
  (w_symbols w) (w_lastSymbol w) (w_symbolCache w) (w_labelIndexes w) (w_labelNames w) (w_lastSeries w) (w_lastSeriesRef w) (w_lastChunkRef w).
Definition set_tmp fP fPO cnt w := mkWriter (w_f w) fP fPO cnt (w_toc w) (w_stage w) (w_postingsStart w) (w_numSymbols w)
  (w_symbols w) (w_lastSymbol w) (w_symbolCache w) (w_labelIndexes w) (w_labelNames w) (w_lastSeries w) (w_lastSeriesRef w) (w_lastChunkRef w).
Definition set_toc x w := mkWriter (w_f w) (w_fP w) (w_fPO w) (w_cntPO w) x (w_stage w) (w_postingsStart w) (w_numSymbols w)
  (w_symbols w) (w_lastSymbol w) (w_symbolCache w) (w_labelIndexes w) (w_labelNames w) (w_lastSeries w) (w_lastSeriesRef w) (w_lastChunkRef w).
Definition set_stage x w := mkWriter (w_f w) (w_fP w) (w_fPO w) (w_cntPO w) (w_toc w) x (w_postingsStart w) (w_numSymbols w)
  (w_symbols w) (w_lastSymbol w) (w_symbolCache w) (w_labelIndexes w) (w_labelNames w) (w_lastSeries w) (w_lastSeriesRef w) (w_lastChunkRef w).
Definition set_postingsStart x w := mkWriter (w_f w) (w_fP w) (w_fPO w) (w_cntPO w) (w_toc w) (w_stage w) x (w_numSymbols w)
  (w_symbols w) (w_lastSymbol w) (w_symbolCache w) (w_labelIndexes w) (w_labelNames w) (w_lastSeries w) (w_lastSeriesRef w) (w_lastChunkRef w).
Definition set_symbols x w := mkWriter (w_f w) (w_fP w) (w_fPO w) (w_cntPO w) (w_toc w) (w_stage w) (w_postingsStart w) (w_numSymbols w)
  x (w_lastSymbol w) (w_symbolCache w) (w_labelIndexes w) (w_labelNames w) (w_lastSeries w) (w_lastSeriesRef w) (w_lastChunkRef w).
Definition set_cache last cache num w := mkWriter (w_f w) (w_fP w) (w_fPO w) (w_cntPO w) (w_toc w) (w_stage w) (w_postingsStart w) num
  (w_symbols w) last cache (w_labelIndexes w) (w_labelNames w) (w_lastSeries w) (w_lastSeriesRef w) (w_lastChunkRef w).
Definition set_labelIndexes x w := mkWriter (w_f w) (w_fP w) (w_fPO w) (w_cntPO w) (w_toc w) (w_stage w) (w_postingsStart w) (w_numSymbols w)
  (w_symbols w) (w_lastSymbol w) (w_symbolCache w) x (w_labelNames w) (w_lastSeries w) (w_lastSeriesRef w) (w_lastChunkRef w).
Definition set_labelNames x w := mkWriter (w_f w) (w_fP w) (w_fPO w) (w_cntPO w) (w_toc w) (w_stage w) (w_postingsStart w) (w_numSymbols w)
  (w_symbols w) (w_lastSymbol w) (w_symbolCache w) (w_labelIndexes w) x (w_lastSeries w) (w_lastSeriesRef w) (w_lastChunkRef w).
Definition set_last lset ref chunkRef w := mkWriter (w_f w) (w_fP w) (w_fPO w) (w_cntPO w) (w_toc w) (w_stage w) (w_postingsStart w) (w_numSymbols w)
  (w_symbols w) (w_lastSymbol w) (w_symbolCache w) (w_labelIndexes w) (w_labelNames w) lset ref chunkRef.

Definition WM := EM Writer.
Definition modify (f : Writer -> Writer) : WM unit := fun w => rret (tt, f w).
Definition gets {A} (f : Writer -> A) : WM A := fun w => rret (f w, w).

(** ** [FileWriter] *)
Definition MaxUint32 : Z := 2 ^ 32 - 1.
Definition fpos (f : bytes) : Z := Z.of_nat (length f).

(** [Write] of one buffer. *)
Definition fw_Write (b f : bytes) : res bytes :=
  let f := f ++ b in if 16 * MaxUint32 <? fpos f then rerr EMaxSize else rret f.
Definition fw_WriteAt (buf : bytes) (pos : Z) (f : bytes) : bytes :=
  take (Z.to_nat pos) f ++ buf ++ drop (Z.to_nat pos + length buf) f.
Definition fw_AddPadding (size : Z) (f : bytes) : res bytes :=
  let p := fpos f mod size in if p =? 0 then rret f else fw_Write (replicate (Z.to_nat (size - p)) 0) f.

Definition write (b : bytes) : WM unit := f <== gets w_f ;; f <== em_res (fw_Write b f) ;; modify (set_f f).
Definition writeAt (b : bytes) (pos : Z) : WM unit := f <== gets w_f ;; modify (set_f (fw_WriteAt b pos f)).
Definition addPadding (size : Z) : WM unit := f <== gets w_f ;; f <== em_res (fw_AddPadding size f) ;; modify (set_f f).
Definition pos : WM Z := gets (fun w => fpos (w_f w)).

Definition alen : bytes := [97; 108; 101; 110].
Definition blen : bytes := [98; 108; 101; 110].
Definition hash4 : bytes := [104; 97; 115; 104].

Definition empty_buf : Encbuf := mkEncbuf [].
(** The bytes some writes to an empty buffer leave. *)
Definition buf (f : Encbuf -> Encbuf) : bytes := eB (f empty_buf).

(** From label name and label value, by their symbols, to positions. *)
Abbreviation positions := (gmap Z (gmap Z (list Z))).

Section writing.
Context {V : VarintLib}.

Definition writeMeta : WM unit := write (buf (fun e => PutByte FormatV2 (PutBE32 MagicIndex e))).

Definition no_toc : TOC := mkTOC 0 0 0 0 0 0.
Definition NewWriter : res Writer :=
  r <~ writeMeta (mkWriter [] [] [] 0 no_toc idxStageNone 0 0 None [] ∅ [] ∅ [] 0 0) ;; rret (snd r).

(** ** The symbol table *)

Definition startSymbols : WM unit := write (alen ++ blen).

Definition finishSymbols : WM unit :=
  p <== pos ;;
  toc <== gets w_toc ;;
  let symbolTableSize := p - t_Symbols toc - 4 in
  if MaxUint32 <? symbolTableSize then em_err (ESymbolTableSize symbolTableSize)
  else
    num <== gets w_numSymbols ;;
    writeAt (buf (fun e => PutBE32int num (PutBE32int symbolTableSize e))) (t_Symbols toc) ;==
    hashPos <== pos ;;
    write hash4 ;==
    f <== gets w_f ;;
    let hash := crc32_checksum (slice f (Z.to_nat (t_Symbols toc + 4)) (Z.to_nat hashPos)) in
    writeAt (buf (PutBE32 hash)) hashPos ;==
    f <== gets w_f ;;
    s <== em_res (NewSymbols f FormatV2 (t_Symbols toc)) ;;
    modify (set_symbols (Some s)).

(** ** Postings, in the temporary files *)

Definition EncodePostingsRaw (offs : list Z) (e : Encbuf) : Encbuf :=
  fold_left (fun e off => PutBE32 off e) offs (PutBE32int (Z.of_nat (length offs)) e).

Definition writePosting (name value : bytes) (offs : list Z) : WM unit :=
  w <== em_get ;;
  fP <== em_res (fw_AddPadding 4 (w_fP w)) ;;
  fPO <== em_res (fw_Write (buf (fun e => PutUvarint64 (fpos fP) (PutUvarintStr value (PutUvarintStr name (PutUvarint 2 e))))) (w_fPO w)) ;;
  let buf1 := EncodePostingsRaw offs empty_buf in
  let l := ELen buf1 in
  if MaxUint32 <? l then em_err (ELength l)
  else
    fP <== em_res (fw_Write (buf (PutBE32int l)) fP) ;;
    fP <== em_res (fw_Write (eB (PutHash buf1)) fP) ;;
    modify (set_tmp fP fPO (w_cntPO w + 1)).

(** The offsets of all series, in units of 16 bytes: the first pass over the
    series that were written. *)
Fixpoint all_offsets (fuel : nat) (labelIndices : Z) (offsets : list Z) : EM Decbuf (list Z) :=
  d <== em_get ;;
  if 0 <? DLen d then
    match fuel with
    | O => fun _ => Panic
    | S f =>
        em_dec ConsumePadding ;==
        d <== em_get ;;
        let startPos := u64 (labelIndices - DLen d) in
        if negb (startPos mod seriesByteAlign =? 0) then em_err (EAlign startPos)
        else
          x <== em_dec Uvarint ;;
          em_dec (Skip (x + 4)) ;==
          check_err ;==
          all_offsets f labelIndices (offsets ++ [u32 (startPos / seriesByteAlign)])
    end
  else em_ret offsets.

(** The next label names whose uses together are at most [maxPostings]. *)
Fixpoint take_batch (uses : gmap bytes Z) (maxPostings : Z) (names : list bytes) (c : Z) (batch : list bytes)
    : res (list bytes * list bytes) :=
  match names with
  | [] => rret (batch, [])
  | n :: names' =>
      let u := default 0 (uses !! n) in
      if maxPostings <? u + c then if 0 <? c then rret (batch, names) else rerr (ECorrupt n)
      else take_batch uses maxPostings names' (c + u) (batch ++ [n])
  end.

Definition symbol_number (w : Writer) (s : bytes) : res Z :=
  match w_symbolCache w !! s with Some n => rret n | None => rerr (ENoSymbol s) end.

Fixpoint name_symbols (w : Writer) (names : list bytes) (m : gmap Z bytes) : res (gmap Z bytes) :=
  match names with
  | [] => rret m
  | n :: names => sid <~ symbol_number w n ;; name_symbols w names (<[sid := n]> m)
  end.

Definition add_position (lno lvo p : Z) (m : positions) : positions :=
  let vs := default ∅ (m !! lno) in <[lno := <[lvo := default [] (vs !! lvo) ++ [p]]> vs]> m.

Fixpoint scan_labels (n : nat) (nameSymbols : gmap Z bytes) (p : Z) (m : positions) : EM Decbuf positions :=
  match n with
  | O => em_ret m
  | S n' =>
      lno <== em_dec Uvarint ;;
      lvo <== em_dec Uvarint ;;
      let m := match nameSymbols !! u32 lno with Some _ => add_position (u32 lno) (u32 lvo) p m | None => m end in
      scan_labels n' nameSymbols p m
  end.

(** A further pass over the series, for some label names. *)
Fixpoint scan_series (fuel : nat) (labelIndices : Z) (nameSymbols : gmap Z bytes) (m : positions) : EM Decbuf positions :=
  d <== em_get ;;
  if 0 <? DLen d then
    match fuel with
    | O => fun _ => Panic
    | S f =>
        em_dec ConsumePadding ;==
        d <== em_get ;;
        let startPos := u64 (labelIndices - DLen d) in
        l <== em_dec Uvarint ;;
        d <== em_get ;;
        let startLen := DLen d in
        numLabels <== em_dec Uvarint ;;
        m <== scan_labels (Z.to_nat numLabels) nameSymbols (u32 (startPos / seriesByteAlign)) m ;;
        d <== em_get ;;
        em_dec (Skip (l - (startLen - DLen d) + 4)) ;==
        check_err ;==
        scan_series f labelIndices nameSymbols m
    end
  else em_ret m.

Fixpoint write_values (s : Symbols) (name : bytes) (m : gmap Z (list Z)) (values : list Z) : WM unit :=
  match values with
  | [] => em_ret tt
  | v :: values =>
      value <== em_res (Lookup s v) ;;
      writePosting name value (default [] (m !! v)) ;==
      write_values s name m values
  end.

Fixpoint write_names (s : Symbols) (m : positions) (names : list bytes) : WM unit :=
  match names with
  | [] => em_ret tt
  | name :: names =>
      w <== em_get ;;
      sid <== em_res (symbol_number w name) ;;
      let vs := default ∅ (m !! sid) in
      write_values s name vs (merge_sort Z.le (map fst (map_to_list vs))) ;==
      write_names s m names
  end.

(** The series section, as the passes read it. *)
Definition series_buf (w : Writer) : Decbuf := NewDecbufRaw (w_f w) (Z.to_nat (t_LabelIndices (w_toc w))).
Definition on_series {A} (m : EM Decbuf A) : WM A :=
  w <== em_get ;; em_res (run_on (series_buf w) (em_dec (Skip (t_Series (w_toc w))) ;== m)).

Fixpoint write_batches (fuel : nat) (s : Symbols) (maxPostings : Z) (names : list bytes) : WM unit :=
  match names, fuel with
  | [], _ => em_ret tt
  | _, O => fun _ => Panic
  | _, S f =>
      w <== em_get ;;
      r <== em_res (take_batch (w_labelNames w) maxPostings names 0 []) ;;
      nameSymbols <== em_res (name_symbols w (fst r) ∅) ;;
      m <== on_series (scan_series (S (length (w_f w))) (t_LabelIndices (w_toc w)) nameSymbols ∅) ;;
      write_names s m (fst r) ;==
      write_batches f s maxPostings (snd r)
  end.

Definition writePostingsToTmpFiles : WM unit :=
  w <== em_get ;;
  let names := merge_sort str_le (map fst (map_to_list (w_labelNames w))) in
  offsets <== on_series (all_offsets (S (length (w_f w))) (t_LabelIndices (w_toc w)) []) ;;
  writePosting [] [] offsets ;==
  match w_symbols w with
  | None => fun _ => Panic
  | Some s => write_batches (length names) s (Z.of_nat (length offsets)) names
  end.

(** ** Label indices *)

(** The length in front of a section and the checksum [h] of its contents behind it. *)
Definition writeLengthAndHash (startPos : Z) (h : bytes) : WM unit :=
  p <== pos ;;
  let l := p - startPos - 4 in
  if MaxUint32 <? l then em_err (ELength l)
  else
    writeAt (buf (PutBE32int l)) startPos ;==
    write (be_bytes 4 (crc32_checksum h)).

Fixpoint write_all (bs : list bytes) : WM unit :=
  match bs with [] => em_ret tt | b :: bs => write b ;== write_all bs end.

Definition writeLabelIndex (name : bytes) (values : list Z) : WM unit :=
  addPadding 4 ;==
  startPos <== pos ;;
  w <== em_get ;;
  modify (set_labelIndexes (w_labelIndexes w ++ [(name, startPos)])) ;==
  write alen ;==
  let head := buf (fun e => PutBE32int (Z.of_nat (length values)) (PutBE32int 1 e)) in
  write head ;==
  let body := map (fun v => buf (PutBE32 v)) values in
  write_all body ;==
  writeLengthAndHash startPos (head ++ concat body).

(** The values of each label name, read from the temporary file of offsets. *)
Fixpoint label_values_loop (cnt : nat) (current : bytes) (values : list Z) (d : Decbuf) : WM unit :=
  match dE d, cnt with
  | None, S cnt' =>
      x <== em_res (run_on d (
        em_dec Uvarint ;==
        name <== em_dec UvarintBytes ;;
        value <== em_dec UvarintBytes ;;
        em_dec Uvarint64 ;==
        d <== em_get ;; em_ret (name, value, d))) ;;
      let '(name, value, d) := x in
      if (length name =? 0)%nat then label_values_loop cnt' current values d
      else
        let next := negb (str_eqb name current) && (0 <? length values)%nat in
        (if next then writeLabelIndex current values else em_ret tt) ;==
        w <== em_get ;;
        sid <== em_res (symbol_number w value) ;;
        label_values_loop cnt' name ((if next then [] else values) ++ [sid]) d
  | Some e, _ => em_err (EDec e)
  | None, O => if (0 <? length values)%nat then writeLabelIndex current values else em_ret tt
  end.

Definition writeLabelIndices : WM unit :=
  w <== em_get ;;
  label_values_loop (Z.to_nat (w_cntPO w)) [] [] (NewDecbufRaw (w_fPO w) (length (w_fPO w))).

Definition writeLabelIndexesOffsetTable : WM unit :=
  startPos <== pos ;;
  write alen ;==
  w <== em_get ;;
  let head := buf (PutBE32int (Z.of_nat (length (w_labelIndexes w)))) in
  write head ;==
  let body := map (fun x : bytes * Z => buf (fun e => PutUvarint64 (snd x) (PutUvarintStr (fst x) (PutUvarint 1 e)))) (w_labelIndexes w) in
  write_all body ;==
  writeLengthAndHash startPos (head ++ concat body).

(** ** Postings and their offsets, in the file *)

Definition writePostings : WM unit :=
  addPadding 4 ;==
  p <== pos ;;
  modify (set_postingsStart p) ;==
  w <== em_get ;;
  modify (set_f (w_f w ++ w_fP w)).

(** Copies the entries; the bytes written. *)
Fixpoint copy_offsets (cnt : nat) (adjustment : Z) (h : bytes) (d : Decbuf) : WM bytes :=
  match dE d, cnt with
  | None, S cnt' =>
      x <== em_res (run_on d (
        k <== em_dec Uvarint ;;
        name <== em_dec UvarintBytes ;;
        value <== em_dec UvarintBytes ;;
        o <== em_dec Uvarint64 ;;
        d <== em_get ;; em_ret (k, name, value, o, d))) ;;
      let '(k, name, value, o, d) := x in
      let b := buf (fun e => PutUvarint64 (u64 (o + adjustment)) (PutUvarintStr value (PutUvarintStr name (PutUvarint k e)))) in
      write b ;==
      copy_offsets cnt' adjustment (h ++ b) d
  | Some e, _ => em_err (EDec e)
  | None, O => em_ret h
  end.

Definition writePostingsOffsetTable : WM unit :=
  startPos <== pos ;;
  write alen ;==
  w <== em_get ;;
  let head := buf (PutBE32int (w_cntPO w)) in
  write head ;==
  h <== copy_offsets (Z.to_nat (w_cntPO w)) (w_postingsStart w) head (NewDecbufRaw (w_fPO w) (length (w_fPO w))) ;;
  writeLengthAndHash startPos h.

Definition writeTOC : WM unit :=
  toc <== gets w_toc ;;
  write (buf (fun e => PutHash (PutBE64 (t_PostingsTable toc) (PutBE64 (t_Postings toc) (PutBE64 (t_LabelIndicesTable toc)
    (PutBE64 (t_LabelIndices toc) (PutBE64 (t_Series toc) (PutBE64 (t_Symbols toc) e)))))))).

(** ** Stages *)

Definition at_pos (f : Z -> TOC -> TOC) : WM unit :=
  p <== pos ;; toc <== gets w_toc ;; modify (set_toc (f p toc)).

(** What entering the stage [s] writes. *)
Definition enter_stage (s : nat) : WM unit :=
  match s with
  | 1%nat =>
      at_pos (fun p t => mkTOC p (t_Series t) (t_LabelIndices t) (t_LabelIndicesTable t) (t_Postings t) (t_PostingsTable t)) ;==
      startSymbols
  | 2%nat =>
      finishSymbols ;==
      at_pos (fun p t => mkTOC (t_Symbols t) p (t_LabelIndices t) (t_LabelIndicesTable t) (t_Postings t) (t_PostingsTable t))
  | 3%nat =>
      at_pos (fun p t => mkTOC (t_Symbols t) (t_Series t) p (t_LabelIndicesTable t) (t_Postings t) (t_PostingsTable t)) ;==
      writePostingsToTmpFiles ;==
      writeLabelIndices ;==
      at_pos (fun p t => mkTOC (t_Symbols t) (t_Series t) (t_LabelIndices t) (t_LabelIndicesTable t) p (t_PostingsTable t)) ;==
      writePostings ;==
      at_pos (fun p t => mkTOC (t_Symbols t) (t_Series t) (t_LabelIndices t) p (t_Postings t) (t_PostingsTable t)) ;==
      writeLabelIndexesOffsetTable ;==
      at_pos (fun p t => mkTOC (t_Symbols t) (t_Series t) (t_LabelIndices t) (t_LabelIndicesTable t) (t_Postings t) p) ;==
      writePostingsOffsetTable ;==
      writeTOC
  | _ => em_ret tt
  end.

Fixpoint ensureStage (s : nat) : WM unit :=
  stage <== gets w_stage ;;
  if (stage =? s)%nat then em_ret tt
  else
    (match s with
     | S s' => if (stage <? s')%nat then ensureStage s' else em_ret tt
     | O => em_ret tt
     end) ;==
    stage <== gets w_stage ;;
    if (s <? stage)%nat then em_err (EStage s stage)
    else enter_stage s ;== modify (set_stage s).

(** ** The calls *)

Definition AddSymbol (sym : bytes) : WM unit :=
  ensureStage idxStageSymbols ;==
  w <== em_get ;;
  if negb (w_numSymbols w =? 0) && negb (str_ltb (w_lastSymbol w) sym) then em_err (ESymbolOrder sym)
  else
    modify (set_cache sym (<[sym := u32 (w_numSymbols w)]> (w_symbolCache w)) (w_numSymbols w + 1)) ;==
    write (buf (PutUvarintStr sym)).

(** The checks of the chunks; the last reference. *)
Fixpoint check_chunks (first : bool) (lastChunkRef lastMaxT : Z) (cs : list Meta) : res Z :=
  match cs with
  | [] => rret lastChunkRef
  | c :: cs =>
      if Ref c <? lastChunkRef then rerr (EChunkRef (Ref c) lastChunkRef)
      else if negb first && (MinTime c <=? lastMaxT) then rerr (EChunkMinT (MinTime c) lastMaxT)
      else if MaxTime c <? MinTime c then rerr (EChunkMaxT (MaxTime c) (MinTime c))
      else check_chunks false (Ref c) (MaxTime c) cs
  end.

(** The function given to [Validate]: symbols to the buffer, uses of names. *)
Definition put_label (cache : gmap bytes Z) (l : Label) (st : Encbuf * gmap bytes Z) : option index_error * (Encbuf * gmap bytes Z) :=
  let '(buf2, names) := st in
  match cache !! Name l with
  | None => (Some (ENoSymbol (Name l)), st)
  | Some nameIndex =>
      let names := <[Name l := u64 (default 0 (names !! Name l) + 1)]> names in
      let buf2 := PutUvarint32 nameIndex buf2 in
      match cache !! Value l with
      | None => (Some (ENoSymbol (Value l)), (buf2, names))
      | Some valueIndex => (None, (PutUvarint32 valueIndex buf2, names))
      end
  end.

Fixpoint put_later_chunks (t0 ref0 : Z) (cs : list Meta) (e : Encbuf) : Encbuf :=
  match cs with
  | [] => e
  | c :: cs =>
      let e := PutUvarint64 (u64 (i64 (MinTime c - t0))) e in
      let e := PutUvarint64 (u64 (i64 (MaxTime c - MinTime c))) e in
      let e := PutVarint64 (i64 (i64 (Ref c) - ref0)) e in
      put_later_chunks (MaxTime c) (i64 (Ref c)) cs e
  end.
Definition put_chunks (cs : list Meta) (e : Encbuf) : Encbuf :=
  let e := PutUvarint (Z.of_nat (length cs)) e in
  match cs with
  | [] => e
  | c :: cs =>
      let e := PutVarint64 (MinTime c) e in
      let e := PutUvarint64 (u64 (i64 (MaxTime c - MinTime c))) e in
      let e := PutUvarint64 (Ref c) e in
      put_later_chunks (MaxTime c) (i64 (Ref c)) cs e
  end.

Definition lift_outcome {A} (o : outcome A) : res A := match o with Ret a => rret a | Panic => Panic end.

Definition AddSeries (ref : Z) (lset : bytes) (chunks : list Meta) : WM unit :=
  ensureStage idxStageSeries ;==
  w <== em_get ;;
  c <== em_res (lift_outcome (Compare lset (w_lastSeries w))) ;;
  if c <=? 0 then em_err ESeriesOrder
  else if (ref <? w_lastSeriesRef w) && negb (length (w_lastSeries w) =? 0)%nat then em_err (ESeriesRef ref)
  else
    lastChunkRef <== em_res (check_chunks true (w_lastChunkRef w) 0 chunks) ;;
    addPadding seriesByteAlign ;==
    p <== pos ;;
    if negb (p mod seriesByteAlign =? 0) then em_err (EAlign p)
    else
      n <== em_res (lift_outcome (Len lset)) ;;
      let buf2 := PutUvarint (Z.of_nat n) empty_buf in
      v <== em_res (lift_outcome (Validate (put_label (w_symbolCache w)) lset (buf2, w_labelNames w))) ;;
      match v with
      | (Some err, _) => em_err err
      | (None, (buf2, names)) =>
          modify (set_labelNames names) ;==
          let buf2 := put_chunks chunks buf2 in
          write (buf (PutUvarint (ELen buf2))) ;==
          write (eB (PutHash buf2)) ;==
          modify (set_last lset ref lastChunkRef)
      end.

Definition Close : WM unit := ensureStage idxStageDone.

End writing.

(** ** What a call leaves

    [wp m w Q]: started on [w], [m] does not panic, and ends with [Q] or with an
    error that says that a size limit of the format is exceeded. *)
Definition size_error (e : index_error) : bool :=
  match e with EMaxSize | ESymbolTableSize _ | ELength _ => true | _ => false end.

Definition wp {A} (m : WM A) (w : Writer) (Q : A -> Writer -> Prop) : Prop :=
  match m w with
  | Panic => False
  | Ret (inl e) => size_error e = true
  | Ret (inr (a, w')) => Q a w'
  end.

Lemma wp_ret {A} (a : A) w (Q : A -> Writer -> Prop) : Q a w -> wp (em_ret a) w Q.
Proof. intros H. exact H. Qed.

Lemma wp_bind {A B} (m : WM A) (k : A -> WM B) w Q : wp m w (fun a w' => wp (k a) w' Q) -> wp (em_bind m k) w Q.
Proof. unfold wp, em_bind. destruct (m w) as [[e|[a w']]|]; auto. Qed.

Lemma wp_mono {A} (m : WM A) w (P Q : A -> Writer -> Prop) : wp m w P -> (forall a w', P a w' -> Q a w') -> wp m w Q.
Proof. unfold wp. destruct (m w) as [[e|[a w']]|]; auto. Qed.

Lemma wp_get w (Q : Writer -> Writer -> Prop) : Q w w -> wp em_get w Q.
Proof. intros H. exact H. Qed.

Lemma wp_gets {A} (f : Writer -> A) w (Q : A -> Writer -> Prop) : Q (f w) w -> wp (gets f) w Q.
Proof. intros H. exact H. Qed.

Lemma wp_pos w (Q : Z -> Writer -> Prop) : Q (fpos (w_f w)) w -> wp pos w Q.
Proof. intros H. exact H. Qed.

Lemma wp_modify f w (Q : unit -> Writer -> Prop) : Q tt (f w) -> wp (modify f) w Q.
Proof. intros H. exact H. Qed.

Lemma wp_res {A} (r : res A) a w (Q : A -> Writer -> Prop) : r = Ret (inr a) -> Q a w -> wp (em_res r) w Q.
Proof. intros -> H. exact H. Qed.

Lemma wp_run {A} (m : WM A) a w w' (Q : A -> Writer -> Prop) : m w = Ret (inr (a, w')) -> Q a w' -> wp m w Q.
Proof. unfold wp. intros -> H. exact H. Qed.

Definition in_limit (f : bytes) : Prop := fpos f <= 16 * MaxUint32.

Lemma wp_fw_Write b f w (Q : bytes -> Writer -> Prop) : (in_limit (f ++ b) -> Q (f ++ b) w) -> wp (em_res (fw_Write b f)) w Q.
Proof.
  intros H. unfold wp, em_res, fw_Write. destruct (Z.ltb_spec (16 * MaxUint32) (fpos (f ++ b))); [reflexivity|]. apply H. exact H0.
Qed.

Lemma wp_write b w (Q : unit -> Writer -> Prop) : (in_limit (w_f w ++ b) -> Q tt (set_f (w_f w ++ b) w)) -> wp (write b) w Q.
Proof. intros H. unfold write. apply wp_bind, wp_gets, wp_bind, wp_fw_Write. intros Hl. apply wp_modify, H, Hl. Qed.

Lemma wp_writeAt b p w (Q : unit -> Writer -> Prop) : Q tt (set_f (fw_WriteAt b p (w_f w)) w) -> wp (writeAt b p) w Q.
Proof. intros H. exact H. Qed.

(** The zeros in front of the next multiple of [size]. *)
Definition padding (size : nat) (f : bytes) : bytes := replicate ((size - length f mod size) mod size) 0.

Lemma wp_fw_AddPadding size f w (Q : bytes -> Writer -> Prop) : (0 < size)%nat ->
  Q (f ++ padding size f) w -> wp (em_res (fw_AddPadding (Z.of_nat size) f)) w Q.
Proof.
  intros Hs H. unfold fw_AddPadding, fpos. rewrite <- Nat2Z.inj_mod. pose proof (Nat.mod_upper_bound (length f) size ltac:(lia)) as Hm.
  destruct (Z.eqb_spec (Z.of_nat (length f mod size)) 0) as [E|E].
  - unfold padding in H. replace (length f mod size)%nat with 0%nat in H by lia. rewrite Nat.sub_0_r, Nat.Div0.mod_same, app_nil_r in H. exact H.
  - apply wp_fw_Write. intros _. unfold padding in H. rewrite Nat.mod_small in H by lia.
    replace (Z.to_nat (Z.of_nat size - Z.of_nat (length f mod size))) with (size - length f mod size)%nat by lia. exact H.
Qed.

Lemma wp_addPadding size w (Q : unit -> Writer -> Prop) : (0 < size)%nat ->
  Q tt (set_f (w_f w ++ padding size (w_f w)) w) -> wp (addPadding (Z.of_nat size)) w Q.
Proof. intros Hs H. unfold addPadding. apply wp_bind, wp_gets, wp_bind, wp_fw_AddPadding; [exact Hs|]. apply wp_modify, H. Qed.

Lemma padding_aligns size f : (0 < size)%nat -> (length (f ++ padding size f) mod size = 0)%nat.
Proof.
  intros Hs. unfold padding. rewrite length_app, length_replicate. pose proof (Nat.mod_upper_bound (length f) size ltac:(lia)).
  pose proof (Nat.div_mod (length f) size ltac:(lia)) as Hd. destruct (decide (length f mod size = 0)%nat) as [E|E].
  - rewrite E, Nat.sub_0_r, Nat.Div0.mod_same, Nat.add_0_r. exact E.
  - rewrite (Nat.mod_small (size - _)) by lia. replace (length f + (size - length f mod size))%nat with ((length f / size + 1) * size)%nat by nia.
    apply Nat.Div0.mod_mul.
Qed.

Lemma WriteAt_middle pre old new post : length new = length old ->
  fw_WriteAt new (fpos pre) (pre ++ old ++ post) = pre ++ new ++ post.
Proof.
  intros E. unfold fw_WriteAt, fpos. rewrite Nat2Z.id, take_app_length. do 2 f_equal.
  rewrite <- drop_drop, drop_app_length, E, drop_app_length. reflexivity.
Qed.

(** A section between its length and its checksum becomes a frame. *)
Lemma wp_length_and_hash pre body w (Q : unit -> Writer -> Prop) : w_f w = pre ++ alen ++ body ->
  (Z.of_nat (length body) < 2 ^ 32 -> in_limit (pre ++ frame body) -> Q tt (set_f (pre ++ frame body) w)) ->
  wp (writeLengthAndHash (fpos pre) body) w Q.
Proof.
  intros Hf H. unfold writeLengthAndHash. apply wp_bind, wp_pos. cbv zeta. rewrite Hf.
  replace (fpos (pre ++ alen ++ body) - fpos pre - 4) with (Z.of_nat (length body))
    by (unfold fpos; rewrite !length_app; change (length alen) with 4%nat; lia).
  destruct (Z.ltb_spec MaxUint32 (Z.of_nat (length body))) as [|Hl]; [reflexivity|]. unfold MaxUint32 in Hl.
  apply wp_bind, wp_writeAt. rewrite Hf. change (buf (PutBE32int (Z.of_nat (length body)))) with (be_bytes 4 (u32 (Z.of_nat (length body)))).
  rewrite u32_id, WriteAt_middle by (rewrite ?length_be_bytes; (reflexivity || zlia)).
  apply wp_write. cbn [w_f set_f]. unfold frame in H. rewrite <- !app_assoc. intros Hlim. apply H; [lia|exact Hlim].
Qed.

Lemma wp_at_pos f w (Q : unit -> Writer -> Prop) : Q tt (set_toc (f (fpos (w_f w)) (w_toc w)) w) -> wp (at_pos f) w Q.
Proof. intros H. exact H. Qed.

Lemma wp_size_err {A} e w (Q : A -> Writer -> Prop) : size_error e = true -> wp (em_err e) w Q.
Proof. intros H. exact H. Qed.

#[local] Opaque wp.

Section layout.
Context {V : VarintLib} {VOK : VarintLibOK V}.

(** *** The symbols *)
Definition header : bytes := be_bytes 4 MagicIndex ++ [FormatV2].

Definition written_header : Writer :=
  mkWriter header [] [] 0 no_toc idxStageNone 0 0 None [] ∅ [] ∅ [] 0 0.

Lemma NewWriter_ok : NewWriter = Ret (inr written_header).
Proof. reflexivity. Qed.

Definition numbered (ss : list bytes) (cache : gmap bytes Z) : Prop :=
  forall s n, cache !! s = Some n <-> exists i, ss !! i = Some s /\ n = u32 (Z.of_nat i).

Definition symbols_toc : TOC := mkTOC 5 0 0 0 0 0.

(** The writer after the symbols [ss]. *)
Definition sym_state (ss : list bytes) (w : Writer) : Prop := exists cache, numbered ss cache /\
  w = mkWriter (header ++ (alen ++ blen) ++ enc_syms ss) [] [] 0 symbols_toc idxStageSymbols 0 (Z.of_nat (length ss)) None
        (default [] (last ss)) cache [] ∅ [] 0 0.

(** The first stage may not have been entered when there are no symbols yet. *)
Definition before (ss : list bytes) (w : Writer) : Prop := (w = written_header /\ ss = []) \/ sym_state ss w.

Lemma ensure_symbols ss w : before ss w -> wp (ensureStage 1) w (fun _ w' => sym_state ss w').
Proof.
  intros [[-> ->]|(cache & Hc & ->)]; cbn [ensureStage]; apply wp_bind, wp_gets; cbn [w_stage written_header]; cbn [Nat.eqb idxStageNone idxStageSymbols].
  - apply wp_bind. cbn [Nat.ltb Nat.leb]. apply wp_ret, wp_bind, wp_gets. cbn [w_stage Nat.ltb Nat.leb].
    apply wp_bind. cbn [enter_stage]. apply wp_bind, wp_at_pos.
    unfold startSymbols. apply wp_write. intros _. apply wp_modify. exists ∅. split; [|reflexivity].
    intros s n. rewrite lookup_empty. split; [discriminate|]. intros (i & H & _). discriminate.
  - apply wp_ret. exists cache. auto.
Qed.

Lemma AddSymbol_ok ss s w : before ss w -> str_sorted (ss ++ [s]) -> wf_bytes s ->
  wp (AddSymbol s) w (fun _ w' => sym_state (ss ++ [s]) w').
Proof.
  intros Hb Hs Hw. unfold AddSymbol. apply wp_bind. eapply wp_mono; [apply ensure_symbols, Hb|]. intros _ w' (cache & Hc & ->).
  apply wp_bind, wp_get. cbn [w_numSymbols w_lastSymbol w_symbolCache].
  assert (Hlast : negb (Z.of_nat (length ss) =? 0) && negb (str_ltb (default [] (last ss)) s) = false).
  { destruct (last ss) as [t|] eqn:El.
    - apply last_Some in El. destruct El as [ss' ->]. change (default [] (Some t)) with t. rewrite (proj2 (str_ltb_spec t s)); [apply andb_false_r|].
      rewrite <- app_assoc in Hs. apply strongly_sorted_app in Hs. destruct Hs as (_ & Hs & _). apply StronglySorted_inv in Hs.
      destruct Hs as [_ Hs]. apply Forall_cons_1 in Hs. apply Hs.
    - apply last_None in El. subst ss. reflexivity. }
  rewrite Hlast. apply wp_bind, wp_modify, wp_write. intros _. eexists. split; [|].
  2: { unfold set_f, set_cache.
       cbn [w_f w_fP w_fPO w_cntPO w_toc w_stage w_postingsStart w_numSymbols w_symbols w_lastSymbol w_symbolCache w_labelIndexes w_labelNames w_lastSeries w_lastSeriesRef w_lastChunkRef].
       unfold buf. rewrite (codec_put (Codec := codec_uvarint_str)) by exact Hw. cbn [eB empty_buf app enc codec_uvarint_str].
       rewrite last_snoc, length_app, enc_syms_app, Nat2Z.inj_add, <- !app_assoc. cbn [enc_syms flat_map default length app].
       rewrite app_nil_r. reflexivity. }
  intros t n. destruct (decide (t = s)) as [->|Hne].
  - rewrite lookup_insert_eq. split.
    + intros [= <-]. exists (length ss). split; [apply list_lookup_middle; reflexivity|reflexivity].
    + intros (i & Hi & ->). do 2 f_equal.
      assert (Hi' : (i < length (ss ++ [s]))%nat) by (eapply lookup_lt_Some, Hi). rewrite length_app in Hi'. cbn [length] in Hi'.
      destruct (decide (i = length ss)) as [->|Hn]; [reflexivity|]. exfalso.
      apply (str_lt_irrefl s). apply (sorted_lookup (ss ++ [s]) i (length ss)); [exact Hs|exact Hi|apply list_lookup_middle; reflexivity|lia].
  - rewrite lookup_insert_ne by congruence. rewrite (Hc t n). split; intros (i & Hi & ->); exists i; (split; [|reflexivity]).
    + apply lookup_app_l_Some, Hi.
    + apply lookup_app_Some in Hi. destruct Hi as [Hi|[_ Hi]]; [exact Hi|]. destruct (i - length ss)%nat; cbn in Hi; [congruence|discriminate].
Qed.

Fixpoint AddSymbols (ss : list bytes) : WM unit :=
  match ss with [] => em_ret tt | s :: ss => AddSymbol s ;== AddSymbols ss end.

Lemma AddSymbols_ok pre ss w : before pre w -> str_sorted (pre ++ ss) -> Forall wf_bytes ss ->
  wp (AddSymbols ss) w (fun _ w' => before (pre ++ ss) w').
Proof.
  revert pre w. induction ss as [|s ss IH]; intros pre w Hb Hs Hw; cbn [AddSymbols].
  - apply wp_ret. rewrite app_nil_r. exact Hb.
  - apply Forall_cons_1 in Hw. destruct Hw as [Hw1 Hw]. apply wp_bind. eapply wp_mono.
    + apply (AddSymbol_ok pre s w Hb); [|exact Hw1]. change (s :: ss) with ([s] ++ ss) in Hs. rewrite app_assoc in Hs.
      apply strongly_sorted_app in Hs. apply Hs.
    + intros u w' Hw'. change (s :: ss) with ([s] ++ ss). rewrite app_assoc. apply IH.
      * right. exact Hw'.
      * rewrite <- app_assoc. exact Hs.
      * exact Hw.
Qed.

(** *** The series *)
Definition sym_num (ss : list bytes) (s : bytes) : Z :=
  match list_find (fun t => t = s) ss with Some (i, _) => Z.of_nat i | None => 0 end.

Lemma sym_num_lookup ss i s : str_sorted ss -> ss !! i = Some s -> sym_num ss s = Z.of_nat i.
Proof.
  intros Hs Hi. unfold sym_num. destruct (list_find (fun t => t = s) ss) as [[j t]|] eqn:E.
  - apply list_find_Some in E. destruct E as (Hj & -> & _). f_equal. destruct (Nat.lt_trichotomy i j) as [H|[->|H]]; [|reflexivity|];
      destruct (str_lt_irrefl s); [exact (sorted_lookup ss i j s s Hs Hi Hj H)|exact (sorted_lookup ss j i s s Hs Hj Hi H)].
  - apply list_find_None in E. rewrite Forall_lookup in E. destruct (E i s Hi eq_refl).
Qed.

(** The cache of the writer, once the table is known to be small. *)
Definition cached (ss : list bytes) (cache : gmap bytes Z) : Prop :=
  forall s, cache !! s = if decide (s ∈ ss) then Some (sym_num ss s) else None.

Lemma numbered_cached ss cache : str_sorted ss -> Z.of_nat (length ss) < 2 ^ 32 -> numbered ss cache -> cached ss cache.
Proof.
  intros Hs Hl Hn s. destruct (decide (s ∈ ss)) as [Hin|Hin].
  - apply list_elem_of_lookup_1 in Hin. destruct Hin as [i Hi]. pose proof (lookup_lt_Some _ _ _ Hi). apply Hn. exists i.
    split; [exact Hi|]. rewrite (sym_num_lookup ss i s Hs Hi), u32_id by zlia. reflexivity.
  - destruct (cache !! s) as [n|] eqn:E; [|reflexivity]. apply Hn in E. destruct E as (i & Hi & _). destruct Hin.
    eapply list_elem_of_lookup_2, Hi.
Qed.

Lemma symbol_number_ok ss w s : cached ss (w_symbolCache w) -> s ∈ ss -> symbol_number w s = Ret (inr (sym_num ss s)).
Proof. intros Hc Hs. unfold symbol_number. rewrite Hc, decide_True by exact Hs. reflexivity. Qed.

(** A series that is added: its reference, labels and chunks. *)
Record item := mkItem { it_ref : Z; it_labels : list Label; it_chunks : list Meta }.

Definition entry_of (ss : list bytes) (it : item) : bytes := enc_series (sym_num ss) (it_labels it) (it_chunks it).
Definition entry_bytes (e : bytes) : bytes := put_uvarint (Z.of_nat (length e)) ++ e ++ be_bytes 4 (crc32_checksum e).
Definition pad16 (p : nat) : bytes := replicate ((16 - p mod 16) mod 16) 0.

(** The section of the series from the position [p] on, and where they start. *)
Fixpoint series_area (p : nat) (es : list bytes) : bytes :=
  match es with
  | [] => []
  | e :: es => (pad16 p ++ entry_bytes e) ++ series_area (p + length (pad16 p) + length (entry_bytes e)) es
  end.
Fixpoint series_starts (p : nat) (es : list bytes) : list nat :=
  match es with
  | [] => []
  | e :: es => (p + length (pad16 p))%nat :: series_starts (p + length (pad16 p) + length (entry_bytes e)) es
  end.

Lemma series_area_snoc p es e : series_area p (es ++ [e])
  = series_area p es ++ pad16 (p + length (series_area p es)) ++ entry_bytes e.
Proof.
  revert p. induction es as [|e' es IH]; intros p; cbn [series_area app length].
  - rewrite Nat.add_0_r, app_nil_r. reflexivity.
  - rewrite IH, <- !app_assoc. do 4 f_equal. rewrite !length_app. f_equal. lia.
Qed.

Lemma series_starts_length p es : length (series_starts p es) = length es.
Proof. revert p. induction es as [|e es IH]; intros p; cbn [series_starts length]; [reflexivity|]. f_equal. apply IH. Qed.

Definition series_base (ss : list bytes) : nat := length (header ++ frame (symbol_table ss)).

(** How often a label name occurs. *)
Definition uses (n : bytes) (items : list item) : nat :=
  length (List.filter (fun l => bool_decide (Name l = n)) (flat_map it_labels items)).

Lemma uses_app n a b : uses n (a ++ b) = (uses n a + uses n b)%nat.
Proof. unfold uses. rewrite flat_map_app, List.filter_app, length_app. reflexivity. Qed.

Lemma uses_one n it : uses n [it] = length (List.filter (fun l => bool_decide (Name l = n)) (it_labels it)).
Proof. unfold uses. cbn [flat_map]. rewrite app_nil_r. reflexivity. Qed.

Definition last_chunk (cref : Z) (cs : list Meta) : Z := match last cs with Some c => Ref c | None => cref end.
Definition chunk_ref (items : list item) : Z := fold_left (fun r it => last_chunk r (it_chunks it)) items 0.

(** What the caller owes. *)
Fixpoint chunks_follow (prev : option Meta) (cref : Z) (cs : list Meta) : Prop :=
  match cs with
  | [] => True
  | c :: cs =>
      cref <= Ref c /\ MinTime c <= MaxTime c /\ match prev with Some p => MaxTime p < MinTime c | None => True end
      /\ chunks_follow (Some c) (Ref c) cs
  end.
Definition item_ok (ss : list bytes) (it : item) : Prop :=
  Forall wf_get (it_labels it) /\ sorted (it_labels it) /\ Forall (fun l => Name l ∈ ss /\ Value l ∈ ss) (it_labels it)
  /\ Forall wf_meta (it_chunks it) /\ Z.of_nat (length (entry_of ss it)) < 2 ^ 32.
Definition follows (prev : option item) (cref : Z) (it : item) : Prop :=
  match prev with
  | None => it_labels it <> []
  | Some p => labels_compare (it_labels p) (it_labels it) = Lt /\ it_ref p <= it_ref it
  end /\ chunks_follow None cref (it_chunks it).
Fixpoint items_follow (ss : list bytes) (prev : option item) (cref : Z) (items : list item) : Prop :=
  match items with
  | [] => True
  | it :: items => item_ok ss it /\ follows prev cref it /\ items_follow ss (Some it) (last_chunk cref (it_chunks it)) items
  end.

(** The writer after the series [items]. *)
Record ser_state (ss : list bytes) (items : list item) (w : Writer) : Prop := {
  st_f : w_f w = (header ++ frame (symbol_table ss)) ++ series_area (series_base ss) (map (entry_of ss) items);
  st_limit : in_limit (w_f w);
  st_toc : w_toc w = mkTOC 5 (Z.of_nat (series_base ss)) 0 0 0 0;
  st_stage : w_stage w = idxStageSeries;
  st_tmp : w_fP w = [] /\ w_fPO w = [] /\ w_cntPO w = 0 /\ w_labelIndexes w = [];
  st_symbols : exists f, w_symbols w = Some (opened f FormatV2 5 ss) /\ wf_symbols f ss /\ symbols_in f 5 ss;
  st_cache : cached ss (w_symbolCache w);
  st_names : forall n, w_labelNames w !! n = if decide (uses n items = 0%nat) then None else Some (Z.of_nat (uses n items));
  st_last : w_lastSeries w = match last items with Some it => enc_labels (it_labels it) | None => [] end;
  st_ref : w_lastSeriesRef w = match last items with Some it => it_ref it | None => 0 end;
  st_chunk : w_lastChunkRef w = chunk_ref items }.

(** **** Entering the stage *)
Lemma crc_slice f pre c post : f = pre ++ c ++ post -> slice f (length pre) (length pre + length c) = c.
Proof. intros ->. apply (slice_of_drop _ _ _ post). apply drop_app_length. Qed.

Lemma header_length : length header = 5%nat.
Proof. reflexivity. Qed.

Lemma finishSymbols_ok ss w : sym_state ss w -> Forall wf_bytes ss ->
  wp finishSymbols w (fun _ w' => w' = set_symbols (Some (opened (w_f w') FormatV2 5 ss)) (set_f (header ++ frame (symbol_table ss)) w)
    /\ wf_symbols (w_f w') ss /\ symbols_in (w_f w') 5 ss /\ in_limit (w_f w')).
Proof.
  intros (cache & Hc & ->) Hw. unfold finishSymbols. apply wp_bind, wp_pos. cbn [w_f]. apply wp_bind, wp_gets. cbn [w_toc].
  assert (El : fpos (header ++ (alen ++ blen) ++ enc_syms ss) - t_Symbols symbols_toc - 4 = Z.of_nat (length (symbol_table ss))).
  { unfold fpos, symbol_table. rewrite !length_app, length_be_bytes, header_length. cbn [length alen blen symbols_toc t_Symbols]. lia. }
  cbv zeta. rewrite El. destruct (Z.ltb_spec MaxUint32 (Z.of_nat (length (symbol_table ss)))) as [|Hlen]; [apply wp_size_err; reflexivity|].
  unfold MaxUint32 in Hlen. apply wp_bind, wp_gets. cbn [w_numSymbols]. apply wp_bind, wp_writeAt. cbn [w_f].
  assert (Hn : is_u32 (Z.of_nat (length ss))).
  { unfold symbol_table in Hlen. rewrite length_app in Hlen. pose proof (enc_syms_length ss). unfold is_u32. lia. }
  change (t_Symbols symbols_toc) with (fpos header). rewrite WriteAt_middle by reflexivity.
  replace (buf _ ++ enc_syms ss) with (be_bytes 4 (Z.of_nat (length (symbol_table ss))) ++ symbol_table ss).
  2: { unfold buf, PutBE32int, PutBE32, PutBytes. cbn [eB empty_buf app]. rewrite !u32_id by (assumption || zlia).
       rewrite <- app_assoc. reflexivity. }
  set (t := symbol_table ss) in *. apply wp_bind, wp_pos. cbn [w_f set_f]. apply wp_bind, wp_write. intros Hlim. cbn [w_f set_f] in *.
  apply wp_bind, wp_gets. cbn [w_f set_f]. set (l4 := be_bytes 4 (Z.of_nat (length t))).
  assert (Hl4 : length l4 = 4%nat) by apply length_be_bytes.
  replace (slice _ _ _) with t.
  2: { symmetry. replace (Z.to_nat (fpos header + 4)) with (length (header ++ l4)) by (unfold fpos; rewrite length_app; lia).
       replace (Z.to_nat (fpos (header ++ l4 ++ t))) with (length (header ++ l4) + length t)%nat
         by (unfold fpos; rewrite !length_app; lia).
       apply (crc_slice _ _ _ hash4). rewrite <- !app_assoc. reflexivity. }
  apply wp_bind, wp_writeAt. cbn [w_f set_f].
  replace (fw_WriteAt _ _ _) with (header ++ frame t).
  2: { change (buf (PutBE32 (crc32_checksum t))) with (be_bytes 4 (crc32_checksum t)). rewrite <- (app_nil_r hash4).
       rewrite WriteAt_middle by reflexivity. unfold frame. rewrite app_nil_r, <- !app_assoc. reflexivity. }
  assert (Hlim' : in_limit (header ++ frame t)).
  { unfold in_limit, fpos, frame in *. rewrite !length_app, ?length_be_bytes in *. cbn [length hash4] in Hlim. lia. }
  apply wp_bind, wp_gets. cbn [w_f set_f]. apply wp_bind. eapply wp_res; [apply (NewSymbols_ok _ _ 5 ss)|].
  - unfold in_limit, MaxUint32, fpos in Hlim'. split; [lia|]. split; [fold t; lia|exact Hw].
  - exists []. rewrite app_nil_r. reflexivity.
  - apply wp_modify. cbn [w_f set_symbols set_f]. split; [reflexivity|]. split; [|split; [|exact Hlim']].
    + unfold in_limit, MaxUint32, fpos in Hlim'. split; [lia|]. split; [fold t; lia|exact Hw].
    + exists []. rewrite app_nil_r. reflexivity.
Qed.

Lemma ensure_series ss w : before ss w -> str_sorted ss -> Forall wf_bytes ss ->
  wp (ensureStage 2) w (fun _ w' => ser_state ss [] w').
Proof.
  intros Hb Hs Hw. cbn [ensureStage]. apply wp_bind, wp_gets.
  assert (Hstage : (w_stage w <= 1)%nat) by (destruct Hb as [[-> ->]|(cache & _ & ->)]; cbn; unfold idxStageNone, idxStageSymbols; lia).
  destruct (Nat.eqb_spec (w_stage w) 2); [lia|]. apply wp_bind.
  apply (wp_mono _ _ (fun _ w' => sym_state ss w')).
  { destruct Hb as [[-> ->]|Hb].
    - cbn [w_stage written_header idxStageNone Nat.ltb Nat.leb]. apply ensure_symbols. left. auto.
    - destruct Hb as (cache & Hc & ->). cbn [w_stage idxStageSymbols Nat.ltb Nat.leb]. apply wp_ret. exists cache. auto. }
  intros _ w1 Hw1. apply wp_bind, wp_gets. destruct (Nat.ltb_spec 2 (w_stage w1)) as [Hlt|_].
  { destruct Hw1 as (cache & _ & ->). cbn in Hlt. unfold idxStageSymbols in Hlt. lia. }
  apply wp_bind. cbn [enter_stage]. apply wp_bind. eapply wp_mono; [apply (finishSymbols_ok ss w1 Hw1 Hw)|].
  intros _ w2 (E & Hwf & Hin & Hlim). apply wp_at_pos, wp_modify. destruct Hw1 as (cache & Hc & ->).
  assert (Ef : w_f w2 = header ++ frame (symbol_table ss)) by (rewrite E; reflexivity).
  set (f2 := w_f w2) in *. rewrite E. clear E.
  split; cbn [w_f w_toc w_stage w_fP w_fPO w_cntPO w_labelIndexes w_symbols w_symbolCache w_labelNames w_lastSeries w_lastSeriesRef w_lastChunkRef
    set_stage set_toc set_symbols set_f].
  - cbn [series_area map]. rewrite app_nil_r. reflexivity.
  - rewrite <- Ef. exact Hlim.
  - rewrite Ef. reflexivity.
  - reflexivity.
  - auto.
  - exists f2. auto.
  - apply numbered_cached; [exact Hs| |exact Hc]. destruct Hwf as (_ & Hl & _). unfold symbol_table in Hl. rewrite length_app in Hl.
    pose proof (enc_syms_length ss). lia.
  - intros name. rewrite lookup_empty. reflexivity.
  - reflexivity.
  - reflexivity.
  - reflexivity.
Qed.

(** **** Adding a series *)
Lemma put_later_chunks_ok t0 ref0 cs e : eB (put_later_chunks t0 ref0 cs e) = eB e ++ enc_later_chunks t0 ref0 cs.
Proof.
  revert t0 ref0 e. induction cs as [|c cs IH]; intros t0 ref0 e; cbn [put_later_chunks enc_later_chunks]; [rewrite app_nil_r; reflexivity|].
  rewrite IH. unfold PutVarint64, PutUvarint64, PutBytes. cbn [eB]. rewrite <- !app_assoc. reflexivity.
Qed.

Lemma put_chunks_ok cs e : is_len (Z.of_nat (length cs)) -> eB (put_chunks cs e) = eB e ++ enc_chunks cs.
Proof.
  intros [Hl _]%is_len_words. unfold put_chunks, enc_chunks. unfold PutUvarint at 1 2. rewrite u64_id by exact Hl. destruct cs as [|c cs].
  - unfold PutUvarint64, PutBytes. cbn [eB]. rewrite app_nil_r. reflexivity.
  - rewrite put_later_chunks_ok. unfold PutVarint64, PutUvarint64, PutBytes. cbn [eB]. rewrite <- !app_assoc. reflexivity.
Qed.

Lemma check_chunks_ok first cref maxt prev cs : chunks_follow prev cref cs ->
  (first = false -> match prev with Some p => maxt = MaxTime p | None => False end) ->
  check_chunks first cref maxt cs = Ret (inr (last_chunk cref cs)).
Proof.
  revert first cref maxt prev. induction cs as [|c cs IH]; intros first cref maxt prev Hc Hf; [reflexivity|].
  destruct Hc as (H1 & H2 & H3 & Hc). cbn [check_chunks]. destruct (Z.ltb_spec (Ref c) cref); [lia|].
  replace (negb first && (MinTime c <=? maxt)) with false.
  2: { destruct first; [reflexivity|]. specialize (Hf eq_refl). destruct prev as [p|]; [|contradiction]. subst maxt.
       destruct (Z.leb_spec (MinTime c) (MaxTime p)); [lia|reflexivity]. }
  destruct (Z.ltb_spec (MaxTime c) (MinTime c)); [lia|]. rewrite (IH false (Ref c) (MaxTime c) (Some c) Hc) by auto.
  unfold last_chunk. rewrite last_cons. destruct (last cs); reflexivity.
Qed.

Lemma enc_ref_labels_cons num l ls :
  enc_ref_labels num (l :: ls) = put_uvarint (num (Name l)) ++ put_uvarint (num (Value l)) ++ enc_ref_labels num ls.
Proof. cbn [enc_ref_labels flat_map]. unfold enc_ref_label at 1. rewrite <- app_assoc. reflexivity. Qed.

Lemma put_labels_ok ss cache ls e names : cached ss cache -> Forall (fun l => Name l ∈ ss /\ Value l ∈ ss) ls ->
  (forall n, exists k, names !! n = (if decide (k = 0%nat) then None else Some (Z.of_nat k)) /\ Z.of_nat (k + length ls) < 2 ^ 64) ->
  exists names', fold_validate (put_label cache) ls (e, names) = (None, (mkEncbuf (eB e ++ enc_ref_labels (sym_num ss) ls), names'))
    /\ forall n k, names !! n = (if decide (k = 0%nat) then None else Some (Z.of_nat k)) ->
         let k' := (k + length (List.filter (fun l => bool_decide (Name l = n)) ls))%nat in
         names' !! n = if decide (k' = 0%nat) then None else Some (Z.of_nat k').
Proof.
  intros Hc Hl. revert e names. induction Hl as [|l ls [Hn Hv] _ IH]; intros e names Hk.
  { exists names. split; [cbn; rewrite app_nil_r; destruct e; reflexivity|]. intros n k E k'. unfold k'. rewrite Nat.add_0_r. exact E. }
  cbn [fold_validate put_label]. rewrite !Hc, !decide_True by assumption.
  destruct (Hk (Name l)) as (k0 & E0 & Hk0). cbn [length] in Hk0.
  assert (Eu : u64 (default 0 (names !! Name l) + 1) = Z.of_nat (k0 + 1)).
  { rewrite E0. destruct (decide (k0 = 0%nat)) as [->|]; cbn; [reflexivity|]. rewrite u64_id by zlia. lia. }
  rewrite Eu. destruct (IH (PutUvarint32 (sym_num ss (Value l)) (PutUvarint32 (sym_num ss (Name l)) e)) (<[Name l := Z.of_nat (k0 + 1)]> names))
    as (names' & E & Hnames).
  { intros n. destruct (decide (n = Name l)) as [->|Hne].
    - exists (k0 + 1)%nat. rewrite lookup_insert_eq, decide_False by lia. split; [reflexivity|lia].
    - rewrite lookup_insert_ne by congruence. destruct (Hk n) as (k & Ek & Hkl). exists k. cbn [length] in Hkl. split; [exact Ek|lia]. }
  exists names'. split.
  - rewrite E, enc_ref_labels_cons. unfold PutUvarint32, PutUvarint64, PutBytes. cbn [eB]. rewrite <- !app_assoc. reflexivity.
  - intros n k Ek. cbn [List.filter]. destruct (bool_decide_reflect (Name l = n)) as [<-|Hne].
    + assert (k = k0) as -> by (rewrite E0 in Ek; destruct (decide (k = 0%nat)), (decide (k0 = 0%nat)); try congruence; injection Ek; lia).
      cbv zeta. cbn [length]. replace (k0 + S (length (List.filter (fun l0 => bool_decide (Name l0 = Name l)) ls)))%nat
        with (k0 + 1 + length (List.filter (fun l0 => bool_decide (Name l0 = Name l)) ls))%nat by lia.
      apply Hnames. rewrite lookup_insert_eq, decide_False by lia. reflexivity.
    + apply Hnames. rewrite lookup_insert_ne by congruence. exact Ek.
Qed.

Lemma entry_length ss it : (length (it_labels it) <= length (entry_of ss it) /\ length (it_chunks it) <= length (entry_of ss it))%nat.
Proof.
  unfold entry_of, enc_series. rewrite !length_app. pose proof (enc_ref_labels_length (sym_num ss) (it_labels it)).
  pose proof (enc_chunks_length (it_chunks it)). lia.
Qed.

Lemma labels_in_area ss p items : (length (flat_map it_labels items) <= length (series_area p (map (entry_of ss) items)))%nat.
Proof.
  revert p. induction items as [|it items IH]; intros p; [cbn; lia|]. cbn [flat_map map series_area]. rewrite !length_app.
  unfold entry_bytes at 1. rewrite !length_app. pose proof (entry_length ss it).
  specialize (IH (p + length (pad16 p) + length (entry_bytes (entry_of ss it)))%nat). lia.
Qed.

Lemma uses_bound ss p n items : (uses n items <= length (series_area p (map (entry_of ss) items)))%nat.
Proof. etransitivity; [|apply labels_in_area]. apply List.filter_length_le. Qed.

(** The first series opens the stage. *)
Definition adding (ss : list bytes) (items : list item) (w : Writer) : Prop := (before ss w /\ items = []) \/ ser_state ss items w.

Lemma ensure_adding ss items w : adding ss items w -> str_sorted ss -> Forall wf_bytes ss ->
  wp (ensureStage 2) w (fun _ w' => ser_state ss items w').
Proof.
  intros [[Hb ->]|Hst] Hs Hw; [apply ensure_series; assumption|]. cbn [ensureStage]. apply wp_bind, wp_gets.
  rewrite (st_stage _ _ _ Hst). apply wp_ret. exact Hst.
Qed.

Lemma series_in_order ss items it w : ser_state ss items w -> Forall wf_label (it_labels it) ->
  (forall p, last items = Some p -> Forall wf_label (it_labels p)) -> follows (last items) (chunk_ref items) it ->
  exists c, Compare (enc_labels (it_labels it)) (w_lastSeries w) = Ret c /\ 0 < c
    /\ (it_ref it <? w_lastSeriesRef w) && negb (length (w_lastSeries w) =? 0)%nat = false.
Proof.
  intros Hst Hw Hp [Hf _]. rewrite (st_last _ _ _ Hst), (st_ref _ _ _ Hst). destruct (last items) as [p|].
  - destruct Hf as [Hc Hr]. destruct (Compare_ok (it_labels it) (it_labels p) Hw (Hp p eq_refl)) as (c & E & Ec). exists c.
    split; [exact E|]. split.
    + rewrite labels_fields_compare, fields_compare_opp, <- labels_fields_compare, Hc in Ec. cbn in Ec. apply Z.compare_gt_iff in Ec. lia.
    + destruct (Z.ltb_spec (it_ref it) (it_ref p)); [lia|reflexivity].
  - destruct (Compare_ok (it_labels it) [] Hw (Forall_nil_2 _)) as (c & E & Ec). exists c. split; [exact E|]. split; [|apply andb_false_r].
    destruct (it_labels it); [contradiction|]. cbn in Ec. apply Z.compare_gt_iff in Ec. lia.
Qed.

Lemma chunk_ref_snoc items it : chunk_ref (items ++ [it]) = last_chunk (chunk_ref items) (it_chunks it).
Proof. unfold chunk_ref. rewrite fold_left_app. reflexivity. Qed.

Lemma padding_pad16 f : padding 16 f = pad16 (length f).
Proof. reflexivity. Qed.

(** The writer after the bytes of one more series. *)
Lemma ser_state_snoc ss items it w names' : ser_state ss items w -> item_ok ss it ->
  (forall n k, w_labelNames w !! n = (if decide (k = 0%nat) then None else Some (Z.of_nat k)) ->
     let k' := (k + length (List.filter (fun l => bool_decide (Name l = n)) (it_labels it)))%nat in
     names' !! n = if decide (k' = 0%nat) then None else Some (Z.of_nat k')) ->
  let f := (w_f w ++ pad16 (length (w_f w))) ++ entry_bytes (entry_of ss it) in in_limit f ->
  ser_state ss (items ++ [it]) (set_last (enc_labels (it_labels it)) (it_ref it) (last_chunk (chunk_ref items) (it_chunks it))
    (set_f f (set_labelNames names' w))).
Proof.
  intros Hst Hit Hn f Hlim. destruct Hst. split; cbn [w_f w_toc w_stage w_fP w_fPO w_cntPO w_labelIndexes w_symbols w_symbolCache w_labelNames
    w_lastSeries w_lastSeriesRef w_lastChunkRef set_last set_f set_labelNames]; auto.
  - unfold f. rewrite map_app. cbn [map]. rewrite series_area_snoc.
    replace (_ + length (series_area _ _))%nat with (length (w_f w)) by (rewrite st_f0, length_app; reflexivity).
    rewrite st_f0 at 1. rewrite <- !app_assoc. reflexivity.
  - intros n. rewrite uses_app, (uses_one n it). apply Hn, st_names0.
  - rewrite last_snoc. reflexivity.
  - rewrite last_snoc. reflexivity.
  - symmetry. apply chunk_ref_snoc.
Qed.

(** What [AddSeries] puts into its buffer. *)
Definition put_entry (ss : list bytes) (it : item) : Encbuf :=
  put_chunks (it_chunks it) (mkEncbuf (eB (PutUvarint (Z.of_nat (length (it_labels it))) empty_buf) ++ enc_ref_labels (sym_num ss) (it_labels it))).

Lemma entry_buf ss it : Z.of_nat (length (entry_of ss it)) < 2 ^ 32 ->
  buf (PutUvarint (ELen (put_entry ss it))) = put_uvarint (Z.of_nat (length (entry_of ss it)))
  /\ eB (PutHash (put_entry ss it)) = entry_of ss it ++ be_bytes 4 (crc32_checksum (entry_of ss it)).
Proof.
  intros Hlen. pose proof (entry_length ss it) as [Hn1 Hn2].
  assert (Ebuf : eB (put_entry ss it) = entry_of ss it).
  { unfold put_entry. rewrite put_chunks_ok by (unfold is_len; zlia). unfold PutUvarint. rewrite u64_id by (unfold is_u64; zlia).
    unfold PutUvarint64, PutBytes, entry_of, enc_series. cbn [eB empty_buf app]. rewrite <- app_assoc. reflexivity. }
  unfold ELen, PutHash, buf, PutUvarint. rewrite Ebuf, u64_id by (unfold is_u64; zlia). split; [reflexivity|].
  unfold PutBytes. cbn [eB]. rewrite Ebuf. reflexivity.
Qed.

Lemma AddSeries_ok ss items it w : adding ss items w -> str_sorted ss -> Forall wf_bytes ss -> Forall (item_ok ss) items -> item_ok ss it ->
  follows (last items) (chunk_ref items) it ->
  wp (AddSeries (it_ref it) (enc_labels (it_labels it)) (it_chunks it)) w (fun _ w' => ser_state ss (items ++ [it]) w').
Proof.
  intros Hadd Hs Hw Hitems Hit Hfol. pose proof Hit as (Hl1 & Hl2 & Hl3 & Hc & Hlen). unfold AddSeries. apply wp_bind.
  eapply wp_mono; [apply (ensure_adding ss items); assumption|]. clear w Hadd. intros u w Hst. apply wp_bind, wp_get.
  pose proof (wf_get_wf _ Hl1) as Hwl. destruct (series_in_order ss items it w Hst Hwl) as (c & Ec & Hpos & Hord); [|exact Hfol|].
  { intros p Hp. apply last_Some_elem_of in Hp. rewrite Forall_forall in Hitems. apply wf_get_wf, (Hitems p Hp). }
  apply wp_bind. eapply wp_res; [unfold lift_outcome; rewrite Ec; reflexivity|]. destruct (Z.leb_spec c 0); [lia|]. rewrite Hord.
  destruct Hfol as [_ Hch]. apply wp_bind. eapply wp_res.
  { rewrite (st_chunk _ _ _ Hst). apply (check_chunks_ok true _ 0 None _ Hch). discriminate. }
  apply wp_bind. change seriesByteAlign with (Z.of_nat 16). apply wp_addPadding; [lia|]. apply wp_bind, wp_pos. cbn [w_f set_f].
  pose proof (padding_aligns 16 (w_f w) ltac:(lia)) as Halign.
  replace (fpos _ mod Z.of_nat 16 =? 0) with true by (unfold fpos; rewrite <- Nat2Z.inj_mod, Halign; reflexivity). cbn [negb].
  apply wp_bind. eapply wp_res; [unfold lift_outcome; rewrite (Len_ok _ Hwl); reflexivity|].
  pose proof (entry_length ss it) as [Hn1 Hn2]. pose proof (uses_bound ss (series_base ss)) as Hub.
  destruct (put_labels_ok ss (w_symbolCache w) (it_labels it) (PutUvarint (Z.of_nat (length (it_labels it))) empty_buf) (w_labelNames w)
    (st_cache _ _ _ Hst) Hl3) as (names' & Ev & Hnames).
  { intros n. exists (uses n items). split; [apply (st_names _ _ _ Hst)|]. specialize (Hub n items).
    pose proof (st_limit _ _ _ Hst) as Hlim. rewrite (st_f _ _ _ Hst) in Hlim. unfold in_limit, fpos in Hlim. rewrite length_app in Hlim.
    unfold MaxUint32 in Hlim. lia. }
  apply wp_bind. eapply wp_res.
  { unfold lift_outcome, Validate. rewrite (validate_labels_ok _ (it_labels it)); [|exact Hwl|reflexivity|lia]. rewrite Ev. reflexivity. }
  apply wp_bind, wp_modify. cbv zeta.
  destruct (entry_buf ss it Hlen) as [Elen Eent]. apply wp_bind, wp_write. intros _. apply wp_bind, wp_write. cbn [w_f set_f set_labelNames].
  rewrite padding_pad16. fold (put_entry ss it). rewrite Elen, Eent, <- !app_assoc. intros Hlim. apply wp_modify.
  pose proof (ser_state_snoc ss items it w names' Hst Hit Hnames) as Hfin. cbv zeta in Hfin.
  rewrite <- !app_assoc in Hfin. apply Hfin, Hlim.
Qed.

Fixpoint AddAllSeries (items : list item) : WM unit :=
  match items with
  | [] => em_ret tt
  | it :: items => AddSeries (it_ref it) (enc_labels (it_labels it)) (it_chunks it) ;== AddAllSeries items
  end.

Lemma AddAllSeries_ok ss pre items w : adding ss pre w -> str_sorted ss -> Forall wf_bytes ss -> Forall (item_ok ss) pre ->
  items_follow ss (last pre) (chunk_ref pre) items ->
  wp (AddAllSeries items) w (fun _ w' => adding ss (pre ++ items) w').
Proof.
  revert pre w. induction items as [|it items IH]; intros pre w Hb Hs Hw Hpre Hf; cbn [AddAllSeries].
  - apply wp_ret. rewrite app_nil_r. exact Hb.
  - destruct Hf as (Hit & Hfol & Hf). apply wp_bind. eapply wp_mono; [apply (AddSeries_ok ss pre it); assumption|].
    intros u w' Hw'. change (it :: items) with ([it] ++ items). rewrite app_assoc. apply IH; try assumption.
    + right. exact Hw'.
    + apply Forall_app. auto.
    + rewrite last_snoc, chunk_ref_snoc. exact Hf.
Qed.

Lemma items_follow_ok ss prev cref items : items_follow ss prev cref items -> Forall (item_ok ss) items.
Proof. revert prev cref. induction items as [|it items IH]; intros prev cref H; constructor; [apply H|]. eapply IH, H. Qed.
End layout.
