(* ===== verification/IndexClose.v ===== *)
(** * The index file: what [Close] of the writer leaves [tsdb/index/index.go]

    [Close] reads the series back from the file, once for the list of all series
    and then for batches of label names, and writes the postings lists through
    temporary files.  [write_index_ok] says which bytes are in the file at the
    end ([written]), for any symbols and series that the writer takes. *)

From stdpp Require Import base list numbers gmap sorting.
From Stdlib Require Import ZArith Lia Sorting.Sorted.
From S2P Require Import Prelude Encoding Labels Postings Index IndexWriter.

#[local] Opaque wp.

(** ** Sorted strings *)
Lemma str_sorted_nodup l : str_sorted l -> NoDup l.
Proof.
  induction 1 as [|x l Hl IH Hx]; constructor; [|exact IH]. intros Hin. rewrite List.Forall_forall in Hx.
  exact (str_lt_irrefl _ (Hx x (proj1 (list_elem_of_In _ _) Hin))).
Qed.

Lemma decidable_filter_sorted {A} (R : relation A) (P : A -> Prop) `{!forall x, Decision (P x)} l : StronglySorted R l -> StronglySorted R (filter P l).
Proof.
  induction 1 as [|x l Hl IH Hx]; [constructor|]. rewrite filter_cons. destruct (decide (P x)); [|exact IH]. constructor; [exact IH|].
  rewrite List.Forall_forall in Hx |- *. intros y Hy. apply Hx. apply list_elem_of_In, list_elem_of_filter in Hy. apply list_elem_of_In, Hy.
Qed.

(** Sorting is the same as filtering a sorted table. *)
Lemma sort_filter (P : bytes -> Prop) `{!forall x, Decision (P x)} (ss l : list bytes) : str_sorted ss -> NoDup l ->
  (forall x, x ∈ l <-> x ∈ filter P ss) -> merge_sort str_le l = filter P ss.
Proof.
  intros Hs Hl Hin. apply (StronglySorted_unique_strong str_le).
  - intros x y _ _ Hxy Hyx. apply str_le_lt_eq in Hxy, Hyx. destruct Hxy as [Hxy|]; [|assumption]. destruct Hyx as [Hyx|]; [|congruence].
    destruct (str_lt_irrefl x). exact (str_lt_trans _ _ _ Hxy Hyx).
  - apply StronglySorted_merge_sort; apply _.
  - apply decidable_filter_sorted. clear -Hs. induction Hs as [|x l Hl IH Hx]; constructor; [exact IH|].
    eapply List.Forall_impl; [|exact Hx]. intros y Hy. apply str_le_lt_eq. auto.
  - rewrite merge_sort_Permutation. apply NoDup_Permutation; [exact Hl|apply NoDup_filter, str_sorted_nodup, Hs|exact Hin].
Qed.

(** ** Reading the series back *)

Lemma put_uvarint_head x : 0 < x -> exists b r, put_uvarint x = b :: r /\ b <> 0.
Proof.
  intros Hx. unfold put_uvarint. cbn [put_uvarint_fuel MaxVarintLen64]. destruct (Z.ltb_spec x 128).
  - exists x, []. split; [reflexivity|lia].
  - do 2 eexists. split; [reflexivity|]. intros H0. apply Z.lor_eq_0_iff in H0. lia.
Qed.

Lemma drop_zeros_pad n b r : b <> 0 -> drop_zeros (replicate n 0 ++ b :: r) = b :: r.
Proof.
  intros Hb. induction n as [|n IH]; cbn [replicate app].
  - destruct b; [contradiction|reflexivity|reflexivity].
  - destruct n; cbn [replicate app] in *; exact IH.
Qed.

Lemma ConsumePadding_ok p e rest : (0 < length e)%nat ->
  ConsumePadding (mkDecbuf ((pad16 p ++ entry_bytes e) ++ rest) None) = Ret (tt, mkDecbuf (entry_bytes e ++ rest) None).
Proof.
  intros He. destruct (put_uvarint_head (Z.of_nat (length e)) ltac:(lia)) as (b & r & E & Hb).
  unfold ConsumePadding. cbn [dE dB]. unfold entry_bytes, pad16. rewrite E, <- !app_assoc. cbn [app].
  rewrite drop_zeros_pad by exact Hb. reflexivity.
Qed.

Lemma pad16_aligns p : ((p + length (pad16 p)) mod 16 = 0)%nat.
Proof.
  unfold pad16. rewrite length_replicate. pose proof (Nat.div_mod p 16 ltac:(lia)) as E. pose proof (Nat.mod_upper_bound p 16 ltac:(lia)) as Hb.
  destruct (decide (p mod 16 = 0)%nat) as [E0|E0].
  - rewrite E0. cbn. rewrite Nat.add_0_r. exact E0.
  - rewrite (Nat.mod_small (16 - _)) by lia. replace (p + (16 - p mod 16))%nat with ((p / 16 + 1) * 16)%nat by lia.
    apply Nat.Div0.mod_mul.
Qed.

(** A postings list: a label name, a value and the series; [([], [])] is for all series. *)
Abbreviation posting := (bytes * bytes * list Z)%type.

Section closing.
Context {V : VarintLib} {VOK : VarintLibOK V}.

(** The number of a series: its position in units of 16 bytes. *)
Definition series_id (start : nat) : Z := Z.of_nat (start / 16).

(** A file whose size the format allows. *)
Definition small (n : nat) : Prop := Z.of_nat n <= 16 * MaxUint32.

Lemma series_id_ok start : small start -> u32 (Z.of_nat start / seriesByteAlign) = series_id start.
Proof.
  intros H. unfold seriesByteAlign, series_id, small, MaxUint32 in *. change 16 with (Z.of_nat 16). rewrite <- Nat2Z.inj_div.
  apply u32_id. rewrite Nat2Z.inj_div. unfold is_u32. change (Z.of_nat 16) with 16.
  pose proof (Z.div_pos (Z.of_nat start) 16). pose proof (Z.div_le_upper_bound (Z.of_nat start) 16 (2 ^ 32 - 1)). lia.
Qed.

Definition entry_ok (e : bytes) : Prop := (0 < length e)%nat /\ Z.of_nat (length e) < 2 ^ 32.

Lemma entry_bytes_length e : (length (entry_bytes e) = length (put_uvarint (Z.of_nat (length e))) + length e + 4)%nat.
Proof. unfold entry_bytes. rewrite !length_app, length_be_bytes. lia. Qed.

Lemma skip_entry e rest : Skip (Z.of_nat (length e) + 4) (mkDecbuf (e ++ be_bytes 4 (crc32_checksum e) ++ rest) None)
  = Ret (tt, mkDecbuf rest None).
Proof.
  rewrite app_assoc. replace (Z.of_nat (length e) + 4) with (Z.of_nat (length (e ++ be_bytes 4 (crc32_checksum e)))).
  - apply Skip_app.
  - rewrite length_app, length_be_bytes. lia.
Qed.

(** The position that a pass computes at the start of an entry. *)
Lemma start_pos p e es : small (p + length (series_area p (e :: es))) ->
  let rest := series_area (p + length (pad16 p) + length (entry_bytes e)) es in
  u64 (Z.of_nat (p + length (series_area p (e :: es))) - DLen (mkDecbuf (entry_bytes e ++ rest) None)) = Z.of_nat (p + length (pad16 p))
  /\ small (p + length (pad16 p)).
Proof.
  intros Hs rest. unfold DLen, small in *. cbn [dB]. cbn [series_area] in *. fold rest in Hs |- *. rewrite !length_app in *.
  unfold MaxUint32 in Hs. split; [|unfold MaxUint32; lia].
  rewrite u64_id by (unfold is_u64; lia). lia.
Qed.

Lemma all_offsets_ok fuel p es acc : Forall entry_ok es -> small (p + length (series_area p es)) -> (length es < fuel)%nat ->
  all_offsets fuel (Z.of_nat (p + length (series_area p es))) acc (mkDecbuf (series_area p es) None)
  = Ret (inr (acc ++ map series_id (series_starts p es), mkDecbuf [] None)).
Proof.
  intros He. revert fuel p acc. induction He as [|e es [He Hl] _ IH]; intros fuel p acc Hs Hf; destruct fuel as [|fuel]; cbn [length] in *; try lia.
  { cbn. rewrite app_nil_r. reflexivity. }
  cbn [all_offsets]. unfold em_bind at 1, em_get. cbn [rbind rret].
  assert (Hpos : 0 < DLen (mkDecbuf (series_area p (e :: es)) None)).
  { unfold DLen. cbn [dB series_area]. rewrite !length_app, entry_bytes_length. lia. }
  destruct (Z.ltb_spec 0 (DLen (mkDecbuf (series_area p (e :: es)) None))); [|lia].
  pose proof (start_pos p e es Hs) as [Hst Hsm]. cbv zeta in Hst. set (total := (p + length (series_area p (e :: es)))%nat) in *.
  assert (Htotal : total = (p + length (pad16 p) + length (entry_bytes e)
    + length (series_area (p + length (pad16 p) + length (entry_bytes e)) es))%nat) by (unfold total; cbn [series_area]; rewrite !length_app; lia).
  clearbody total. cbn [series_area series_starts map]. set (rest := series_area _ es) in *.
  em_go (em_dec_ok _ _ _ _ (ConsumePadding_ok p e rest He)). unfold em_bind at 1. cbn [rbind rret]. rewrite Hst.
  replace (Z.of_nat (p + length (pad16 p)) mod seriesByteAlign =? 0) with true.
  2: { symmetry. apply Z.eqb_eq. unfold seriesByteAlign. change 16 with (Z.of_nat 16). rewrite <- Nat2Z.inj_mod, pad16_aligns. reflexivity. }
  cbn [negb]. unfold entry_bytes at 1. rewrite <- !app_assoc.
  em_go (em_dec_ok _ _ _ _ (uvarint_get (Z.of_nat (length e)) _ ltac:(unfold is_len; zlia))).
  em_go (em_dec_ok _ _ _ _ (skip_entry e rest)). em_go (check_err_ok (mkDecbuf rest None) eq_refl).
  rewrite series_id_ok by exact Hsm. rewrite Htotal in Hs |- *. unfold rest. rewrite IH by (assumption || lia).
  rewrite <- app_assoc. reflexivity.
Qed.

(** ** The positions of the labels

    A series is its number and its labels, as pairs of symbol numbers. *)
Definition nlabels (ss : list bytes) (ls : list Label) : list (Z * Z) := map (fun l => (sym_num ss (Name l), sym_num ss (Value l))) ls.

(** The series that have a label. *)
Definition nrefs (xs : list (Z * list (Z * Z))) (a b : Z) : list Z := map fst (filter (fun x : Z * list (Z * Z) => (a, b) ∈ snd x) xs).

Definition nonempty {A} (l : list A) : option (list A) := match l with [] => None | _ => Some l end.

(** The map of positions of the series [xs] for the names in [ns]. *)
Definition positions_of (ns : gmap Z bytes) (xs : list (Z * list (Z * Z))) (m : positions) : Prop :=
  forall a, is_Some (ns !! a) -> forall b, default ∅ (m !! a) !! b = nonempty (nrefs xs a b).

Lemma nrefs_app xs ys a b : nrefs (xs ++ ys) a b = nrefs xs a b ++ nrefs ys a b.
Proof. unfold nrefs. rewrite filter_app, map_app. reflexivity. Qed.

Lemma nrefs_one i nls a b : nrefs [(i, nls)] a b = if decide ((a, b) ∈ nls) then [i] else [].
Proof. unfold nrefs. rewrite filter_cons. cbn [snd]. destruct (decide ((a, b) ∈ nls)); reflexivity. Qed.

Definition visit (ns : gmap Z bytes) (p : Z) (m : positions) (x : Z * Z) : positions :=
  match ns !! fst x with Some _ => add_position (fst x) (snd x) p m | None => m end.

Lemma visit_ok ns xs p pre a b m : positions_of ns (xs ++ [(p, pre)]) m -> (a, b) ∉ pre ->
  positions_of ns (xs ++ [(p, pre ++ [(a, b)])]) (visit ns p m (a, b)).
Proof.
  intros Hm Hnew a' Ha' b'. specialize (Hm a' Ha'). rewrite nrefs_app, nrefs_one.
  assert (Hother : (a', b') <> (a, b) -> nrefs (xs ++ [(p, pre)]) a' b' = nrefs xs a' b' ++ (if decide ((a', b') ∈ pre ++ [(a, b)]) then [p] else [])).
  { intros Hne. rewrite nrefs_app, nrefs_one. f_equal. destruct (decide ((a', b') ∈ pre)) as [H|H], (decide ((a', b') ∈ pre ++ [(a, b)])) as [H'|H']; try reflexivity.
    - destruct H'. apply elem_of_app. auto.
    - apply elem_of_app in H'. destruct H' as [H'|H']; [contradiction|]. apply list_elem_of_singleton in H'. contradiction. }
  unfold visit. cbn [fst snd]. destruct (decide ((a', b') = (a, b))) as [E|Hne].
  - injection E as -> ->. destruct Ha' as [n En]. rewrite En. unfold add_position. cbv zeta. rewrite lookup_insert_eq. cbn.
    rewrite lookup_insert_eq, decide_True by (apply elem_of_app; right; apply list_elem_of_singleton; reflexivity).
    rewrite (Hm b), nrefs_app, nrefs_one, decide_False, app_nil_r by exact Hnew.
    destruct (nrefs xs a b); reflexivity.
  - rewrite <- (Hother Hne), <- Hm. destruct (ns !! a); [|reflexivity]. unfold add_position. cbv zeta.
    destruct (decide (a' = a)) as [->|Ha].
    + rewrite lookup_insert_eq. cbn. rewrite lookup_insert_ne by congruence. reflexivity.
    + rewrite lookup_insert_ne by congruence. reflexivity.
Qed.

Lemma visits_ok ns xs p pre nls m : NoDup (pre ++ nls) -> positions_of ns (xs ++ [(p, pre)]) m ->
  positions_of ns (xs ++ [(p, pre ++ nls)]) (fold_left (visit ns p) nls m).
Proof.
  revert pre m. induction nls as [|[a b] nls IH]; intros pre m Hnd Hm; cbn [fold_left].
  - rewrite app_nil_r. exact Hm.
  - change ((a, b) :: nls) with ([(a, b)] ++ nls) in *. rewrite app_assoc in *. apply IH; [exact Hnd|]. apply visit_ok; [exact Hm|].
    apply NoDup_app in Hnd. destruct Hnd as [Hnd _]. apply NoDup_app in Hnd. destruct Hnd as (_ & Hnd & _). intros H.
    apply (Hnd _ H), list_elem_of_singleton. reflexivity.
Qed.

Lemma scan_labels_ok ss ns p ls m rest : Forall (fun l => is_u32 (sym_num ss (Name l)) /\ is_u32 (sym_num ss (Value l))) ls ->
  scan_labels (length ls) ns p m (mkDecbuf (enc_ref_labels (sym_num ss) ls ++ rest) None)
  = Ret (inr (fold_left (visit ns p) (nlabels ss ls) m, mkDecbuf rest None)).
Proof.
  intros Hw. revert m. induction Hw as [|l ls [Hn Hv] _ IH]; intros m; [reflexivity|]. cbn [length scan_labels].
  rewrite enc_ref_labels_cons, <- !app_assoc. em_go (em_dec_ok _ _ _ _ (uvarint_get _ _ (u32_len _ Hn))).
  em_go (em_dec_ok _ _ _ _ (uvarint_get _ _ (u32_len _ Hv))). rewrite !u32_id by assumption. rewrite IH. reflexivity.
Qed.

(** One pass over the series. *)
Definition visit_series (ss : list bytes) (ns : gmap Z bytes) (m : positions) (x : nat * item) : positions :=
  fold_left (visit ns (series_id (fst x))) (nlabels ss (it_labels (snd x))) m.

Definition nums_ok (ss : list bytes) (it : item) : Prop :=
  Forall (fun l => is_u32 (sym_num ss (Name l)) /\ is_u32 (sym_num ss (Value l))) (it_labels it) /\ entry_ok (entry_of ss it).

Lemma scan_series_ok ss ns fuel p items m : Forall (nums_ok ss) items ->
  small (p + length (series_area p (map (entry_of ss) items))) -> (length items < fuel)%nat ->
  scan_series fuel (Z.of_nat (p + length (series_area p (map (entry_of ss) items)))) ns m
    (mkDecbuf (series_area p (map (entry_of ss) items)) None)
  = Ret (inr (fold_left (visit_series ss ns) (combine (series_starts p (map (entry_of ss) items)) items) m, mkDecbuf [] None)).
Proof.
  intros He. revert fuel p m. induction He as [|it items [Hnum [He Hl]] _ IH]; intros fuel p m Hs Hf; destruct fuel as [|fuel]; cbn [length] in *; try lia.
  { reflexivity. }
  cbn [map] in *. set (e := entry_of ss it) in *. set (es := map (entry_of ss) items) in *.
  cbn [scan_series]. unfold em_bind at 1, em_get. cbn [rbind rret].
  assert (Hpos : 0 < DLen (mkDecbuf (series_area p (e :: es)) None)).
  { unfold DLen. cbn [dB series_area]. rewrite !length_app, entry_bytes_length. lia. }
  destruct (Z.ltb_spec 0 (DLen (mkDecbuf (series_area p (e :: es)) None))); [|lia].
  pose proof (start_pos p e es Hs) as [Hst Hsm]. cbv zeta in Hst. set (total := (p + length (series_area p (e :: es)))%nat) in *.
  assert (Htotal : total = (p + length (pad16 p) + length (entry_bytes e)
    + length (series_area (p + length (pad16 p) + length (entry_bytes e)) es))%nat) by (unfold total; cbn [series_area]; rewrite !length_app; lia).
  clearbody total. cbn [series_area series_starts combine fold_left]. set (rest := series_area _ es) in *.
  em_go (em_dec_ok _ _ _ _ (ConsumePadding_ok p e rest He)). unfold em_bind at 1. cbn [rbind rret]. rewrite Hst, series_id_ok by exact Hsm.
  unfold entry_bytes at 1. rewrite <- !app_assoc.
  em_go (em_dec_ok _ _ _ _ (uvarint_get (Z.of_nat (length e)) _ ltac:(unfold is_len; zlia))).
  unfold em_bind at 1. cbn [rbind rret]. rewrite Htotal in Hs |- *.
  set (cs := enc_chunks (it_chunks it)) in *. set (crc := be_bytes 4 (crc32_checksum e)) in *. set (sum := Z.of_nat (p + _ + _ + _)%nat) in *.
  assert (Ee : e = put_uvarint (Z.of_nat (length (it_labels it))) ++ enc_ref_labels (sym_num ss) (it_labels it) ++ cs) by reflexivity.
  pose proof (entry_length ss it) as [Hn1 _]. fold e in Hn1.
  replace (e ++ crc ++ rest) with (put_uvarint (Z.of_nat (length (it_labels it))) ++ enc_ref_labels (sym_num ss) (it_labels it) ++ cs ++ crc ++ rest)
    by (rewrite Ee, <- !app_assoc; reflexivity).
  em_go (em_dec_ok _ _ _ _ (uvarint_get (Z.of_nat (length (it_labels it))) _ ltac:(unfold is_len; zlia))).
  rewrite Nat2Z.id. erewrite em_bind_ret; [|apply scan_labels_ok, Hnum]. unfold em_bind at 1. cbn [rbind rret].
  replace (Z.of_nat (length e) - _ + 4) with (Z.of_nat (length (cs ++ crc))).
  2: { unfold DLen. cbn [dB]. rewrite Ee, !length_app. unfold crc at 1. rewrite length_be_bytes. lia. }
  rewrite app_assoc. em_go (em_dec_ok _ _ _ _ (Skip_app (cs ++ crc) rest)). em_go (check_err_ok (mkDecbuf rest None) eq_refl).
  unfold sum, rest, es. rewrite IH by (assumption || lia). reflexivity.
Qed.

Lemma scan_all ss ns fuel p items : Forall (nums_ok ss) items -> Forall (fun it => NoDup (nlabels ss (it_labels it))) items ->
  small (p + length (series_area p (map (entry_of ss) items))) -> (length items < fuel)%nat ->
  exists m, scan_series fuel (Z.of_nat (p + length (series_area p (map (entry_of ss) items)))) ns ∅
    (mkDecbuf (series_area p (map (entry_of ss) items)) None) = Ret (inr (m, mkDecbuf [] None))
  /\ positions_of ns (combine (map series_id (series_starts p (map (entry_of ss) items))) (map (fun it => nlabels ss (it_labels it)) items)) m.
Proof.
  intros Hn Hd Hs Hf. eexists. split; [apply scan_series_ok; assumption|]. clear Hn Hs Hf.
  generalize (series_starts p (map (entry_of ss) items)) as starts. intros starts.
  assert (H : forall xs m, positions_of ns xs m ->
    positions_of ns (xs ++ combine (map series_id starts) (map (fun it => nlabels ss (it_labels it)) items))
      (fold_left (visit_series ss ns) (combine starts items) m)).
  { revert starts. induction Hd as [|it items Hnd _ IH]; intros starts xs m Hm.
    - destruct starts; cbn; rewrite app_nil_r; exact Hm.
    - destruct starts as [|st starts]; cbn [map combine fold_left]; [rewrite app_nil_r; exact Hm|].
      change (?x :: ?l) with ([x] ++ l). rewrite app_assoc. apply IH. unfold visit_series. cbn [fst snd].
      apply (visits_ok ns xs (series_id st) []); [exact Hnd|]. intros a Ha b. rewrite (Hm a Ha b), nrefs_app, nrefs_one.
      rewrite decide_False by (apply not_elem_of_nil). rewrite app_nil_r. reflexivity. }
  apply (H [] ∅). intros a _ b. rewrite lookup_empty. cbn. rewrite lookup_empty. reflexivity.
Qed.

(** ** The temporary files *)

Definition pad4 (p : nat) : bytes := replicate ((4 - p mod 4) mod 4) 0.

(** Postings lists from the position [p] on, and the entries of their table. *)
Definition list_bytes (p : nat) (x : posting) : bytes := pad4 p ++ frame (enc_postings (snd x)).
Fixpoint postings_area (p : nat) (ps : list posting) : bytes :=
  match ps with [] => [] | x :: ps => list_bytes p x ++ postings_area (p + length (list_bytes p x)) ps end.
Fixpoint postings_entries (p : nat) (ps : list posting) : list (bytes * bytes * Z) :=
  match ps with
  | [] => []
  | x :: ps => (fst x, Z.of_nat (p + length (pad4 p))) :: postings_entries (p + length (list_bytes p x)) ps
  end.

Lemma postings_snoc p ps x : postings_area p (ps ++ [x]) = postings_area p ps ++ list_bytes (p + length (postings_area p ps)) x
  /\ postings_entries p (ps ++ [x]) = postings_entries p ps
       ++ [(fst x, Z.of_nat (p + length (postings_area p ps) + length (pad4 (p + length (postings_area p ps)))))].
Proof.
  revert p. induction ps as [|y ps IH]; intros p; cbn [postings_area postings_entries app length].
  - rewrite Nat.add_0_r, app_nil_r. auto.
  - destruct (IH (p + length (list_bytes p y))%nat) as [-> ->]. rewrite length_app, !Nat.add_assoc, <- app_assoc. auto.
Qed.

Lemma postings_entries_length p ps : length (postings_entries p ps) = length ps.
Proof. revert p. induction ps as [|x ps IH]; intros p; cbn; [reflexivity|]. f_equal. apply IH. Qed.

Definition posting_ok (x : posting) : Prop := wf_bytes (fst (fst x)) /\ wf_bytes (snd (fst x)).
Definition list_ok (x : posting) : Prop := posting_ok x /\ Z.of_nat (length (enc_postings (snd x))) < 2 ^ 32.

(** The writer [w0] with the lists [ps] in its temporary files. *)
Definition tmp_state (w0 : Writer) (ps : list posting) (w : Writer) : Prop :=
  w = set_tmp (postings_area 0 ps) (enc_entries (postings_entries 0 ps)) (Z.of_nat (length ps)) w0
  /\ in_limit (postings_area 0 ps) /\ Forall list_ok ps.

Lemma EncodePostingsRaw_ok offs : Z.of_nat (length offs) < 2 ^ 32 -> eB (EncodePostingsRaw offs empty_buf) = enc_postings offs.
Proof.
  intros Hl. unfold EncodePostingsRaw, enc_postings.
  assert (H : forall e, eB (fold_left (fun e off => PutBE32 off e) offs e) = eB e ++ be_encode offs).
  { clear Hl. induction offs as [|o offs IH]; intros e; cbn [fold_left]; [cbn; rewrite app_nil_r; reflexivity|].
    rewrite IH. cbn [be_encode flat_map]. unfold PutBE32, PutBytes. cbn [eB]. rewrite <- app_assoc. reflexivity. }
  rewrite H. unfold PutBE32int, PutBE32, PutBytes. cbn [eB empty_buf app]. rewrite u32_id by (unfold is_u32; lia). reflexivity.
Qed.

Lemma EncodePostingsRaw_length offs : (4 * length offs <= length (eB (EncodePostingsRaw offs empty_buf)))%nat.
Proof.
  unfold EncodePostingsRaw. generalize (PutBE32int (Z.of_nat (length offs)) empty_buf) as e.
  assert (H : forall e, length (eB (fold_left (fun e off => PutBE32 off e) offs e)) = (length (eB e) + 4 * length offs)%nat).
  { induction offs as [|o offs IH]; intros e; cbn [fold_left length]; [lia|]. rewrite IH. unfold PutBE32, PutBytes. cbn [eB].
    rewrite length_app, length_be_bytes. lia. }
  intros e. rewrite H. lia.
Qed.

Lemma padding_pad4 f : padding 4 f = pad4 (length f).
Proof. reflexivity. Qed.

Lemma enc_entries_snoc es x : enc_entries (es ++ [x]) = enc_entries es ++ enc_entry x.
Proof. unfold enc_entries. rewrite flat_map_app. cbn [flat_map]. rewrite app_nil_r. reflexivity. Qed.

Lemma put_entry_bytes n v o : wf_bytes n -> wf_bytes v ->
  buf (fun e => PutUvarint64 o (PutUvarintStr v (PutUvarintStr n (PutUvarint 2 e)))) = enc_entry (n, v, o).
Proof.
  intros Hn Hv. unfold buf, PutUvarint64, PutBytes. cbn [eB]. rewrite (codec_put (Codec := codec_uvarint_str)) by exact Hv.
  rewrite (codec_put (Codec := codec_uvarint_str)) by exact Hn. unfold enc_entry, enc_key. cbn [fst snd].
  rewrite <- !app_assoc. reflexivity.
Qed.

Lemma writePosting_ok w0 ps n v offs w : tmp_state w0 ps w -> wf_bytes n -> wf_bytes v ->
  wp (writePosting n v offs) w (fun _ w' => tmp_state w0 (ps ++ [(n, v, offs)]) w').
Proof.
  intros (-> & Hlim & Hok) Hn Hv. unfold writePosting. apply wp_bind, wp_get. cbn [w_fP w_fPO w_cntPO set_tmp].
  apply wp_bind. change 4 with (Z.of_nat 4). apply wp_fw_AddPadding; [lia|]. rewrite padding_pad4.
  apply wp_bind, wp_fw_Write. intros _. rewrite put_entry_bytes by assumption. cbv zeta.
  unfold ELen. pose proof (EncodePostingsRaw_length offs) as Hl4.
  destruct (Z.ltb_spec MaxUint32 (Z.of_nat (length (eB (EncodePostingsRaw offs empty_buf))))) as [|Hl]; [apply wp_size_err; reflexivity|].
  unfold MaxUint32 in Hl. assert (Hlo : Z.of_nat (length offs) < 2 ^ 32) by lia. rewrite EncodePostingsRaw_ok in Hl |- * by exact Hlo.
  apply wp_bind, wp_fw_Write. intros _. apply wp_bind, wp_fw_Write. intros Hlim'. apply wp_modify.
  destruct (postings_snoc 0 ps (n, v, offs)) as [Ea Ee]. cbn [Nat.add] in Ea, Ee.
  assert (Ef : ((postings_area 0 ps ++ pad4 (length (postings_area 0 ps))) ++ buf (PutBE32int (Z.of_nat (length (enc_postings offs)))))
    ++ eB (PutHash (EncodePostingsRaw offs empty_buf)) = postings_area 0 (ps ++ [(n, v, offs)])).
  { rewrite Ea. unfold list_bytes, frame, PutHash, buf, PutBE32int, PutBE32, PutBytes. cbn [eB empty_buf app snd].
    rewrite EncodePostingsRaw_ok, u32_id by (assumption || (unfold is_u32; lia)). rewrite <- !app_assoc. reflexivity. }
  rewrite Ef in Hlim' |- *. split; [|split; [exact Hlim'|]].
  - rewrite Ee, enc_entries_snoc. cbn [fst]. unfold set_tmp.
    cbn [w_f w_toc w_stage w_postingsStart w_numSymbols w_symbols w_lastSymbol w_symbolCache w_labelIndexes w_labelNames w_lastSeries w_lastSeriesRef w_lastChunkRef w_cntPO w_fP w_fPO].
    unfold fpos. rewrite !length_app. cbn [length].
    replace (Z.of_nat (length ps) + 1) with (Z.of_nat (length ps + 1)) by lia. reflexivity.
  - apply Forall_app. split; [exact Hok|]. constructor; [|constructor]. split; [split; assumption|]. cbn [snd]. lia.
Qed.

(** ** The passes of [writePostingsToTmpFiles] *)

Lemma sym_num_inj ss a b : str_sorted ss -> a ∈ ss -> b ∈ ss -> sym_num ss a = sym_num ss b -> a = b.
Proof.
  intros Hs Ha Hb E. apply list_elem_of_lookup_1 in Ha, Hb. destruct Ha as [i Ha], Hb as [j Hb].
  rewrite (sym_num_lookup ss i a Hs Ha), (sym_num_lookup ss j b Hs Hb) in E. apply Nat2Z.inj in E. congruence.
Qed.

Lemma sym_num_u32 ss s : str_sorted ss -> Z.of_nat (length ss) < 2 ^ 32 -> s ∈ ss -> is_u32 (sym_num ss s).
Proof.
  intros Hs Hl Hin. apply list_elem_of_lookup_1 in Hin. destruct Hin as [i Hi]. rewrite (sym_num_lookup ss i s Hs Hi).
  pose proof (lookup_lt_Some _ _ _ Hi). unfold is_u32. lia.
Qed.

(** What is the same in the writer while the temporary files are written. *)
Record closing (ss : list bytes) (items : list item) (w : Writer) : Prop := {
  cl_f : w_f w = (header ++ frame (symbol_table ss)) ++ series_area (series_base ss) (map (entry_of ss) items);
  cl_limit : in_limit (w_f w);
  cl_series : t_Series (w_toc w) = Z.of_nat (series_base ss);
  cl_indices : t_LabelIndices (w_toc w) = fpos (w_f w);
  cl_symbols : exists f, w_symbols w = Some (opened f FormatV2 5 ss) /\ wf_symbols f ss /\ symbols_in f 5 ss;
  cl_cache : cached ss (w_symbolCache w);
  cl_names : forall n, w_labelNames w !! n = if decide (uses n items = 0%nat) then None else Some (Z.of_nat (uses n items));
  cl_sorted : str_sorted ss;
  cl_bytes : Forall wf_bytes ss;
  cl_items : Forall (item_ok ss) items }.

Section passes.
Variables (ss : list bytes) (items : list item) (w0 : Writer).
Hypothesis Hw0 : closing ss items w0.

Definition starts : list nat := series_starts (series_base ss) (map (entry_of ss) items).
Definition numbered_series : list (Z * list (Z * Z)) := combine (map series_id starts) (map (fun it => nlabels ss (it_labels it)) items).
Definition refs_of (n v : bytes) : list Z := nrefs numbered_series (sym_num ss n) (sym_num ss v).
Definition values_of (n : bytes) : list bytes := filter (fun v => refs_of n v <> []) ss.
Definition name_lists (n : bytes) : list posting := map (fun v => (n, v, refs_of n v)) (values_of n).
Definition used_names : list bytes := filter (fun n => uses n items <> 0%nat) ss.
Definition all_lists : list posting := ([], [], map series_id starts) :: flat_map name_lists used_names.

Lemma symbols_few : Z.of_nat (length ss) < 2 ^ 32.
Proof.
  destruct (cl_symbols _ _ _ Hw0) as (f & _ & (_ & Hl & _) & _). unfold symbol_table in Hl. rewrite length_app in Hl.
  pose proof (enc_syms_length ss). lia.
Qed.

Lemma items_nums_ok : Forall (nums_ok ss) items.
Proof.
  eapply Forall_impl; [exact (cl_items _ _ _ Hw0)|]. intros it (Hl1 & Hl2 & Hl3 & Hc & Hlen). pose proof symbols_few as Hfew.
  split; [|split; [|exact Hlen]].
  - eapply Forall_impl; [exact Hl3|]. intros l [Hn Hv]. pose proof (cl_sorted _ _ _ Hw0). split; apply sym_num_u32; assumption.
  - unfold entry_of, enc_series. rewrite length_app. pose proof (put_uvarint_length (Z.of_nat (length (it_labels it)))). lia.
Qed.

Lemma sorted_names_nodup ls : sorted ls -> NoDup (map Name ls).
Proof. intros Hs. apply str_sorted_nodup, (StronglySorted_fmap Name label_lt str_lt); [|exact Hs]. intros x y H. exact H. Qed.

Lemma items_nodup : Forall (fun it => NoDup (nlabels ss (it_labels it))) items.
Proof.
  eapply Forall_impl; [exact (cl_items _ _ _ Hw0)|]. intros it (Hl1 & Hl2 & Hl3 & Hc & Hlen).
  unfold nlabels. apply NoDup_fmap_2_strong; [|eapply NoDup_fmap_1, sorted_names_nodup, Hl2].
  intros l1 l2 H1 H2 E. injection E as En Ev. rewrite Forall_forall in Hl3.
  apply sym_num_inj in En, Ev; try apply (Hl3 _ H1); try apply (Hl3 _ H2); try exact (cl_sorted _ _ _ Hw0).
  destruct l1, l2. cbn in *. congruence.
Qed.

Lemma area_small : small (series_base ss + length (series_area (series_base ss) (map (entry_of ss) items))).
Proof.
  pose proof (cl_limit _ _ _ Hw0) as Hl. rewrite (cl_f _ _ _ Hw0) in Hl. unfold in_limit, fpos in Hl. rewrite length_app in Hl. exact Hl.
Qed.

Lemma indices_pos : t_LabelIndices (w_toc w0)
  = Z.of_nat (series_base ss + length (series_area (series_base ss) (map (entry_of ss) items))).
Proof. rewrite (cl_indices _ _ _ Hw0), (cl_f _ _ _ Hw0). unfold fpos. rewrite length_app. reflexivity. Qed.

Lemma area_length p es : Forall entry_ok es -> (length es <= length (series_area p es))%nat.
Proof.
  intros He. revert p. induction He as [|e es [He _] _ IH]; intros p; cbn [series_area length]; [lia|]. rewrite !length_app, entry_bytes_length.
  specialize (IH (p + length (pad16 p) + length (entry_bytes e))%nat). rewrite entry_bytes_length in IH. lia.
Qed.

(** A reader of the series section. *)
Lemma on_series_ok {A} (m : EM Decbuf A) w a : w_f w = w_f w0 -> w_toc w = w_toc w0 ->
  m (mkDecbuf (series_area (series_base ss) (map (entry_of ss) items)) None) = Ret (inr (a, mkDecbuf [] None)) ->
  on_series m w = Ret (inr (a, w)).
Proof.
  intros Ef Et Em. unfold on_series, em_bind at 1, em_get. cbn [rbind rret]. unfold em_res, series_buf.
  rewrite Ef, Et, (cl_indices _ _ _ Hw0). unfold fpos, NewDecbufRaw. rewrite Nat2Z.id, Nat.ltb_irrefl.
  unfold slice. rewrite Nat.sub_0_r, drop_0, firstn_all. erewrite run_on_ok; [reflexivity|].
  rewrite (cl_series _ _ _ Hw0), (cl_f _ _ _ Hw0). erewrite em_bind_ret; [|apply em_dec_ok, Skip_app]. exact Em.
Qed.

(** *** Batches of names *)
Lemma take_batch_ok uses_ maxPostings names c batch : (forall n, n ∈ names -> default 0 (uses_ !! n) <= maxPostings) ->
  (0 < c -> batch <> []) -> (batch = [] -> names <> []) ->
  exists b rest, take_batch uses_ maxPostings names c batch = Ret (inr (b, rest)) /\ b ++ rest = batch ++ names /\ b <> [].
Proof.
  revert c batch. induction names as [|n names IH]; intros c batch Hu Hc Hne; cbn [take_batch].
  - do 2 eexists. split; [reflexivity|]. split; [reflexivity|]. intros ->. apply Hne; reflexivity.
  - pose proof (Hu n ltac:(left)) as Hn. destruct (Z.ltb_spec maxPostings (default 0 (uses_ !! n) + c)) as [Hlt|Hge].
    + destruct (Z.ltb_spec 0 c); [|lia]. do 2 eexists. split; [reflexivity|]. split; [reflexivity|]. auto.
    + destruct (IH (c + default 0 (uses_ !! n)) (batch ++ [n])) as (b & rest & E & Eb & Hb).
      * intros m Hm. apply Hu. right. exact Hm.
      * intros _. destruct batch; discriminate.
      * destruct batch; discriminate.
      * exists b, rest. rewrite E, Eb, <- app_assoc. auto.
Qed.

Lemma name_symbols_ok w names m : cached ss (w_symbolCache w) -> Forall (fun n => n ∈ ss) names ->
  exists m', name_symbols w names m = Ret (inr m') /\ (forall n, n ∈ names -> is_Some (m' !! sym_num ss n))
    /\ (forall a, is_Some (m !! a) -> is_Some (m' !! a)).
Proof.
  intros Hc Hn. revert m. induction Hn as [|n names Hn _ IH]; intros m; cbn [name_symbols].
  - exists m. split; [reflexivity|]. split; [|auto]. intros n Hn. apply not_elem_of_nil in Hn. destruct Hn.
  - rewrite (symbol_number_ok ss w n Hc Hn). cbn [rbind]. destruct (IH (<[sym_num ss n := n]> m)) as (m' & E & H1 & H2).
    exists m'. split; [exact E|]. split.
    + intros n' Hn'. apply elem_of_cons in Hn'. destruct Hn' as [->|Hn']; [|apply H1, Hn']. apply H2. rewrite lookup_insert_eq. eauto.
    + intros a Ha. apply H2. destruct (decide (a = sym_num ss n)) as [->|]; [rewrite lookup_insert_eq; eauto|].
      rewrite lookup_insert_ne by congruence. exact Ha.
Qed.

(** *** The values of a name *)
Lemma nrefs_symbol a b : nrefs numbered_series a b <> [] -> exists n v, n ∈ ss /\ v ∈ ss /\ a = sym_num ss n /\ b = sym_num ss v.
Proof.
  intros H. unfold nrefs in H. destruct (filter _ _) as [|x xs] eqn:E; [contradiction|].
  assert (Hx : x ∈ filter (fun x : Z * list (Z * Z) => (a, b) ∈ snd x) numbered_series) by (rewrite E; left).
  apply list_elem_of_filter in Hx. destruct Hx as [Hab Hx]. destruct x as [i nls]. apply elem_of_zip_r in Hx. cbn [snd] in Hab.
  apply list_elem_of_fmap in Hx. destruct Hx as (it & -> & Hit). apply list_elem_of_fmap in Hab. destruct Hab as (l & El & Hl).
  injection El as -> ->. pose proof (cl_items _ _ _ Hw0) as Hok. rewrite Forall_forall in Hok. destruct (Hok it Hit) as (_ & _ & Hin & _).
  rewrite Forall_forall in Hin. destruct (Hin l Hl). exists (Name l), (Value l). auto.
Qed.

Lemma sym_num_lt a b : a ∈ ss -> b ∈ ss -> str_lt a b -> sym_num ss a < sym_num ss b.
Proof.
  intros Ha Hb Hab. pose proof (cl_sorted _ _ _ Hw0) as Hs. apply list_elem_of_lookup_1 in Ha, Hb. destruct Ha as [i Ha], Hb as [j Hb].
  rewrite (sym_num_lookup ss i a Hs Ha), (sym_num_lookup ss j b Hs Hb).
  pose proof (sorted_lookup_le ss i j a b Hs Ha Hb (proj2 (str_ltb_spec a b) Hab)). lia.
Qed.

Lemma nums_sorted l : StronglySorted str_lt l -> (forall s, s ∈ l -> s ∈ ss) -> StronglySorted Z.le (map (sym_num ss) l).
Proof.
  induction 1 as [|x l Hl IH Hx]; intros Hin; cbn [map]; constructor.
  - apply IH. intros s Hs. apply Hin. right. exact Hs.
  - rewrite List.Forall_forall in Hx |- *. intros y Hy. apply List.in_map_iff in Hy. destruct Hy as (z & <- & Hz).
    specialize (Hx z Hz). apply Z.lt_le_incl, sym_num_lt; [apply Hin; left| |exact Hx]. apply Hin. right. apply list_elem_of_In, Hz.
Qed.

(** The sorted values of a name are the numbers of its values in the symbol table. *)
Lemma values_sorted n (vs : gmap Z (list Z)) : (forall b, vs !! b = nonempty (nrefs numbered_series (sym_num ss n) b)) ->
  merge_sort Z.le (map fst (map_to_list vs)) = map (sym_num ss) (values_of n).
Proof.
  intros Hvs. apply (StronglySorted_unique Z.le).
  - apply StronglySorted_merge_sort; apply _.
  - apply nums_sorted; [apply decidable_filter_sorted, (cl_sorted _ _ _ Hw0)|]. intros s Hs. apply list_elem_of_filter in Hs. apply Hs.
  - rewrite merge_sort_Permutation. apply NoDup_Permutation.
    + apply NoDup_fst_map_to_list.
    + apply NoDup_fmap_2_strong.
      * intros x y Hx Hy E. apply list_elem_of_filter in Hx, Hy. apply (sym_num_inj ss); [apply (cl_sorted _ _ _ Hw0)|apply Hx|apply Hy|exact E].
      * apply NoDup_filter, str_sorted_nodup, (cl_sorted _ _ _ Hw0).
    + intros b. rewrite !list_elem_of_fmap. split.
      * intros ([b' l] & -> & Hb). apply elem_of_map_to_list in Hb. rewrite Hvs in Hb. cbn [fst].
        assert (Hne : nrefs numbered_series (sym_num ss n) b' <> []) by (intros E0; rewrite E0 in Hb; discriminate).
        destruct (nrefs_symbol _ _ Hne) as (n' & v & _ & Hv & _ & ->). exists v. split; [reflexivity|]. apply list_elem_of_filter. auto.
      * intros (v & -> & Hv). apply list_elem_of_filter in Hv. destruct Hv as [Hne Hv]. unfold refs_of in Hne.
        destruct (nrefs numbered_series (sym_num ss n) (sym_num ss v)) as [|r rs] eqn:E; [contradiction|].
        exists (sym_num ss v, r :: rs). split; [reflexivity|]. apply elem_of_map_to_list. rewrite Hvs, E. reflexivity.
Qed.

Lemma Lookup_num s : s ∈ ss -> forall sy, w_symbols w0 = Some sy -> Lookup sy (sym_num ss s) = Ret (inr s).
Proof.
  intros Hin sy E. destruct (cl_symbols _ _ _ Hw0) as (f & E' & Hwf & Hsy). rewrite E' in E. injection E as <-.
  apply list_elem_of_lookup_1 in Hin. destruct Hin as [i Hi]. rewrite (sym_num_lookup ss i s (cl_sorted _ _ _ Hw0) Hi).
  apply Lookup_ok; [discriminate|exact Hwf|exact Hsy|exact Hi].
Qed.

Lemma ss_bytes s : s ∈ ss -> wf_bytes s.
Proof. intros H. pose proof (cl_bytes _ _ _ Hw0) as Hb. rewrite Forall_forall in Hb. apply Hb, H. Qed.

Lemma write_values_ok sy n m vals ps w : w_symbols w0 = Some sy -> n ∈ ss -> Forall (fun v => v ∈ ss) vals ->
  (forall v, v ∈ vals -> default [] (m !! sym_num ss v) = refs_of n v) -> tmp_state w0 ps w ->
  wp (write_values sy n m (map (sym_num ss) vals)) w (fun _ w' => tmp_state w0 (ps ++ map (fun v => (n, v, refs_of n v)) vals) w').
Proof.
  intros Hsy Hn Hv. revert ps w. induction Hv as [|v vals Hv _ IH]; intros ps w Hm Hst; cbn [map write_values].
  - apply wp_ret. rewrite app_nil_r. exact Hst.
  - apply wp_bind. eapply wp_res; [apply Lookup_num; assumption|]. apply wp_bind. rewrite Hm by left.
    eapply wp_mono; [apply (writePosting_ok w0 ps); [exact Hst|apply ss_bytes, Hn|apply ss_bytes, Hv]|].
    intros u w' Hw'. change (?x :: map ?f ?l) with ([x] ++ map f l). rewrite app_assoc. apply IH; [|exact Hw'].
    intros v' Hv'. apply Hm. right. exact Hv'.
Qed.

Lemma tmp_keeps ps w : tmp_state w0 ps w ->
  w_f w = w_f w0 /\ w_toc w = w_toc w0 /\ w_symbolCache w = w_symbolCache w0 /\ w_labelNames w = w_labelNames w0.
Proof. intros (-> & _). auto. Qed.

Lemma write_names_ok sy ns m names ps w : w_symbols w0 = Some sy -> Forall (fun n => n ∈ ss) names ->
  (forall n, n ∈ names -> is_Some (ns !! sym_num ss n)) -> positions_of ns numbered_series m -> tmp_state w0 ps w ->
  wp (write_names sy m names) w (fun _ w' => tmp_state w0 (ps ++ flat_map name_lists names) w').
Proof.
  intros Hsy Hn Hns Hm. revert ps w. induction Hn as [|n names Hn _ IH]; intros ps w Hst; cbn [write_names flat_map].
  - apply wp_ret. rewrite app_nil_r. exact Hst.
  - destruct (tmp_keeps ps w Hst) as (_ & _ & Ec & _). apply wp_bind, wp_get, wp_bind.
    eapply wp_res; [apply (symbol_number_ok ss); [rewrite Ec; apply (cl_cache _ _ _ Hw0)|exact Hn]|]. cbv zeta. apply wp_bind.
    pose proof (Hm _ (Hns n ltac:(left))) as Hvs. rewrite (values_sorted n _ Hvs).
    eapply wp_mono; [apply (write_values_ok sy n _ (values_of n) ps); [exact Hsy|exact Hn| | |exact Hst]|].
    + apply Forall_forall. intros v Hv. apply list_elem_of_filter in Hv. apply Hv.
    + intros v Hv. rewrite Hvs. fold (refs_of n v). apply list_elem_of_filter in Hv. destruct (refs_of n v); reflexivity.
    + intros u w' Hw'. rewrite app_assoc. apply IH; [|exact Hw']. intros n' Hn'. apply Hns. right. exact Hn'.
Qed.

(** The name is in at most as many labels as there are series. *)
Lemma uses_few n : (uses n items <= length items)%nat.
Proof.
  pose proof (cl_items _ _ _ Hw0) as Hok. clear Hw0. unfold uses. induction Hok as [|it its (_ & Hs & _) _ IH]; [cbn; lia|].
  cbn [flat_map length]. rewrite List.filter_app, length_app.
  assert (H1 : (length (List.filter (fun l => bool_decide (Name l = n)) (it_labels it)) <= 1)%nat).
  { apply sorted_names_nodup in Hs. induction (it_labels it) as [|l ls IHl]; [cbn; lia|]. cbn [map] in Hs. apply NoDup_cons in Hs.
    destruct Hs as [Hl Hs]. cbn [List.filter]. destruct (bool_decide_reflect (Name l = n)) as [<-|]; [|apply IHl, Hs].
    cbn [length]. rewrite Prelude.filter_none; [cbn; lia|]. apply List.Forall_forall. intros l' Hl'. apply bool_decide_eq_false.
    intros E. apply Hl. apply list_elem_of_fmap. exists l'. split; [symmetry; exact E|]. apply list_elem_of_In, Hl'. }
  lia.
Qed.

Lemma uses_bounded n : default 0 (w_labelNames w0 !! n) <= Z.of_nat (length items).
Proof.
  rewrite (cl_names _ _ _ Hw0). pose proof (uses_few n). destruct (decide (uses n items = 0%nat)); cbn; lia.
Qed.

Lemma write_batches_ok sy fuel names ps w : w_symbols w0 = Some sy -> Forall (fun n => n ∈ ss) names -> (length names <= fuel)%nat ->
  tmp_state w0 ps w ->
  wp (write_batches fuel sy (Z.of_nat (length items)) names) w (fun _ w' => tmp_state w0 (ps ++ flat_map name_lists names) w').
Proof.
  intros Hsy. revert names ps w. induction fuel as [|fuel IH]; intros names ps w Hn Hf Hst.
  { destruct names; [|cbn in Hf; lia]. apply wp_ret. cbn. rewrite app_nil_r. exact Hst. }
  destruct names as [|n names]; cbn [write_batches]; [apply wp_ret; cbn; rewrite app_nil_r; exact Hst|].
  destruct (tmp_keeps ps w Hst) as (Ef & Et & Ec & El). apply wp_bind, wp_get, wp_bind. rewrite El.
  destruct (take_batch_ok (w_labelNames w0) (Z.of_nat (length items)) (n :: names) 0 []) as (b & rest & E & Eb & Hb).
  { intros n' _. apply uses_bounded. } { lia. } { discriminate. }
  eapply wp_res; [exact E|]. cbn [fst snd app] in *. rewrite <- Eb in Hn. apply Forall_app in Hn. destruct Hn as [Hnb Hnr].
  destruct (name_symbols_ok w b ∅) as (ns & Ens & Hns & _); [rewrite Ec; apply (cl_cache _ _ _ Hw0)|exact Hnb|].
  apply wp_bind. eapply wp_res; [exact Ens|]. apply wp_bind. rewrite Et, Ef, indices_pos.
  destruct (scan_all ss ns (S (length (w_f w0))) (series_base ss) items items_nums_ok items_nodup area_small) as (m & Em & Hm).
  { rewrite (cl_f _ _ _ Hw0), length_app. pose proof (area_length (series_base ss) (map (entry_of ss) items)) as Hal. rewrite length_map in Hal.
    enough (Forall entry_ok (map (entry_of ss) items)) by (specialize (Hal H); lia).
    apply Forall_fmap. eapply Forall_impl; [apply items_nums_ok|]. intros it H. apply H. }
  pose proof (on_series_ok _ w m Ef Et Em) as Eon. rewrite <- indices_pos in *.
  eapply wp_run; [exact Eon|]. apply wp_bind. eapply wp_mono; [apply (write_names_ok sy ns m b ps); assumption|].
  intros u w' Hw'. rewrite <- Eb, flat_map_app, app_assoc. apply IH; [exact Hnr| |exact Hw'].
  apply (f_equal length) in Eb. rewrite length_app in Eb. destruct b; [contradiction|]. cbn [length] in *. lia.
Qed.

Lemma names_sorted : merge_sort str_le (map fst (map_to_list (w_labelNames w0))) = used_names.
Proof.
  apply sort_filter; [exact (cl_sorted _ _ _ Hw0)|apply NoDup_fst_map_to_list|].
  intros n. rewrite list_elem_of_filter, list_elem_of_fmap. split.
  * intros ([n' k] & -> & Hk). apply elem_of_map_to_list in Hk. rewrite (cl_names _ _ _ Hw0) in Hk. cbn [fst].
    destruct (decide (uses n' items = 0%nat)) as [|Hne]; [discriminate|]. split; [exact Hne|].
    unfold uses in Hne. destruct (List.filter _ _) as [|l ls] eqn:E; [cbn in Hne; lia|].
    assert (Hl : In l (List.filter (fun l => bool_decide (Name l = n')) (flat_map it_labels items))) by (rewrite E; left; reflexivity).
    apply filter_In in Hl. destruct Hl as [Hl En]. apply bool_decide_eq_true in En. subst n'. apply in_flat_map in Hl.
    destruct Hl as (it & Hit & Hl). pose proof (cl_items _ _ _ Hw0) as Hok. rewrite Forall_forall in Hok.
    destruct (Hok it ltac:(apply list_elem_of_In, Hit)) as (_ & _ & Hin & _). rewrite Forall_forall in Hin.
    apply Hin, list_elem_of_In, Hl.
  * intros [Hne _]. exists (n, Z.of_nat (uses n items)). split; [reflexivity|]. apply elem_of_map_to_list.
    rewrite (cl_names _ _ _ Hw0), decide_False by exact Hne. reflexivity.
Qed.

Lemma writePostingsToTmpFiles_ok : w_fP w0 = [] -> w_fPO w0 = [] -> w_cntPO w0 = 0 ->
  wp writePostingsToTmpFiles w0 (fun _ w' => tmp_state w0 all_lists w').
Proof.
  intros E1 E2 E3. unfold writePostingsToTmpFiles. apply wp_bind, wp_get. rewrite names_sorted. apply wp_bind.
  assert (Hent : Forall entry_ok (map (entry_of ss) items)).
  { apply Forall_fmap. eapply Forall_impl; [apply items_nums_ok|]. intros it H. apply H. }
  pose proof (all_offsets_ok (S (length (w_f w0))) (series_base ss) (map (entry_of ss) items) [] Hent area_small) as Eo.
  rewrite <- indices_pos in Eo. specialize (Eo ltac:(rewrite (cl_f _ _ _ Hw0), length_app; pose proof (area_length (series_base ss) _ Hent); lia)).
  eapply wp_run; [apply (on_series_ok _ w0 _ eq_refl eq_refl Eo)|]. cbn [app]. fold starts. apply wp_bind.
  assert (H0 : tmp_state w0 [] w0).
  { split; [|split; [unfold in_limit, fpos, MaxUint32; cbn; lia|constructor]]. destruct w0. cbn in *. subst. reflexivity. }
  eapply wp_mono; [apply (writePosting_ok w0 [] [] [] _ w0 H0); unfold wf_bytes, is_len; cbn; zlia|].
  intros u w' Hw'. destruct (cl_symbols _ _ _ Hw0) as (f & Es & _). rewrite Es.
  unfold starts. rewrite length_map, series_starts_length, length_map.
  apply (write_batches_ok _ (length used_names) used_names [([], [], map series_id starts)] w' Es); [|lia|exact Hw'].
  apply Forall_forall. intros n Hn. apply list_elem_of_filter in Hn. apply Hn.
Qed.

(** ** The sections behind the series *)

(** Label indices, which no reader uses any more, only make the file longer. *)
Definition extends (w w' : Writer) : Prop := exists extra li, w' = set_labelIndexes li (set_f (w_f w ++ extra) w).

Lemma extends_refl w : extends w w.
Proof. exists [], (w_labelIndexes w). rewrite app_nil_r. destruct w. reflexivity. Qed.

Lemma extends_trans w1 w2 w3 : extends w1 w2 -> extends w2 w3 -> extends w1 w3.
Proof. intros (e1 & l1 & ->) (e2 & l2 & ->). exists (e1 ++ e2), l2. rewrite app_assoc. reflexivity. Qed.

Lemma write_all_ok bs w (Q : unit -> Writer -> Prop) : Q tt (set_f (w_f w ++ concat bs) w) -> wp (write_all bs) w Q.
Proof.
  revert w. induction bs as [|b bs IH]; intros w H; cbn [write_all concat] in *.
  - apply wp_ret. rewrite app_nil_r in H. destruct w. exact H.
  - apply wp_bind, wp_write. intros _. apply IH. cbn [w_f set_f]. rewrite <- app_assoc. exact H.
Qed.

Lemma writeLabelIndex_ok name values w : wp (writeLabelIndex name values) w (fun _ w' => extends w w').
Proof.
  unfold writeLabelIndex. apply wp_bind. change 4 with (Z.of_nat 4). apply wp_addPadding; [lia|].
  apply wp_bind, wp_pos, wp_bind, wp_get, wp_bind, wp_modify. cbn [w_f set_f set_labelIndexes]. set (pre := w_f w ++ _).
  apply wp_bind, wp_write. intros _. cbv zeta. apply wp_bind, wp_write. intros _. apply wp_bind, write_all_ok.
  cbn [w_f set_f set_labelIndexes]. rewrite <- !app_assoc. set (body := buf _ ++ concat _).
  apply (wp_length_and_hash pre body); [reflexivity|]. intros _ _. unfold pre. rewrite <- app_assoc.
  do 2 eexists. reflexivity.
Qed.

Lemma read_entry_ok x rest : wf_entry x ->
  run_on (mkDecbuf (enc_entry x ++ rest) None) (
    em_dec Uvarint ;== name <== em_dec UvarintBytes ;; value <== em_dec UvarintBytes ;; em_dec Uvarint64 ;==
    d <== em_get ;; em_ret (name, value, d))
  = Ret (inr (fst (fst x), snd (fst x), mkDecbuf rest None)).
Proof.
  intros (Hn & Hv & Ho). unfold enc_entry, enc_key. rewrite <- !app_assoc. eapply run_on_ok.
  em_go (em_dec_ok _ _ _ _ (uvarint_get 2 _ ltac:(unfold is_len; zlia))). em_go (em_dec_ok _ _ _ _ (sym_get _ _ Hn)).
  em_go (em_dec_ok _ _ _ _ (sym_get _ _ Hv)). em_go (em_dec_ok _ _ _ _ (uvarint64_get _ _ Ho)). reflexivity.
Qed.

Lemma label_values_loop_ok es cur vals w : Forall wf_entry es -> cached ss (w_symbolCache w) ->
  Forall (fun x : bytes * bytes * Z => fst (fst x) <> [] -> snd (fst x) ∈ ss) es ->
  wp (label_values_loop (length es) cur vals (mkDecbuf (enc_entries es) None)) w (fun _ w' => extends w w').
Proof.
  intros Hes Hc. revert cur vals w Hc. induction Hes as [|x es Hx _ IH]; intros cur vals w Hc Hin; cbn [length label_values_loop dE].
  - destruct (0 <? length vals)%nat; [apply writeLabelIndex_ok|apply wp_ret, extends_refl].
  - apply Forall_cons_1 in Hin. destruct Hin as [Hx1 Hin]. cbn [enc_entries flat_map]. fold (enc_entries es).
    apply wp_bind. eapply wp_res; [apply (read_entry_ok x _ Hx)|]. cbv beta iota. destruct x as [[n v] o]. cbn [fst snd] in *.
    destruct (Nat.eqb_spec (length n) 0) as [|Hne]; [apply IH; assumption|].
    set (next := negb _ && _). cbv zeta. apply wp_bind. apply (wp_mono _ _ (fun _ w' => extends w w')).
    { destruct next; [apply writeLabelIndex_ok|apply wp_ret, extends_refl]. }
    intros u w1 Hw1. apply wp_bind, wp_get, wp_bind.
    assert (Hc1 : cached ss (w_symbolCache w1)) by (destruct Hw1 as (? & ? & ->); exact Hc).
    eapply wp_res; [apply (symbol_number_ok ss _ _ Hc1), Hx1; intros ->; exact (Hne eq_refl)|].
    eapply wp_mono; [apply IH; assumption|]. intros u' w2. apply extends_trans, Hw1.
Qed.

Lemma writeLabelIndexesOffsetTable_ok w : wp writeLabelIndexesOffsetTable w (fun _ w' => extends w w' /\ in_limit (w_f w')).
Proof.
  unfold writeLabelIndexesOffsetTable. apply wp_bind, wp_pos, wp_bind, wp_write. intros _. apply wp_bind, wp_get. cbv zeta.
  apply wp_bind, wp_write. intros _. apply wp_bind, write_all_ok. cbn [w_f set_f]. rewrite <- !app_assoc. set (body := buf _ ++ concat _).
  apply (wp_length_and_hash (w_f w) body); [reflexivity|]. intros _ Hl. split; [|exact Hl].
  exists (frame body), (w_labelIndexes w). destruct w. reflexivity.
Qed.

(** The offsets in the file. *)
Definition shift_entry (k : nat) (x : bytes * bytes * Z) : bytes * bytes * Z := (fst x, snd x + Z.of_nat k).

Lemma copy_entry_ok x rest : wf_entry x ->
  run_on (mkDecbuf (enc_entry x ++ rest) None) (
    k <== em_dec Uvarint ;; name <== em_dec UvarintBytes ;; value <== em_dec UvarintBytes ;; o <== em_dec Uvarint64 ;;
    d <== em_get ;; em_ret (k, name, value, o, d))
  = Ret (inr (2, fst (fst x), snd (fst x), snd x, mkDecbuf rest None)).
Proof.
  intros (Hn & Hv & Ho). unfold enc_entry, enc_key. rewrite <- !app_assoc. eapply run_on_ok.
  em_go (em_dec_ok _ _ _ _ (uvarint_get 2 _ ltac:(unfold is_len; zlia))). em_go (em_dec_ok _ _ _ _ (sym_get _ _ Hn)).
  em_go (em_dec_ok _ _ _ _ (sym_get _ _ Hv)). em_go (em_dec_ok _ _ _ _ (uvarint64_get _ _ Ho)). reflexivity.
Qed.

Lemma copy_offsets_ok k es h w (Q : bytes -> Writer -> Prop) : Forall wf_entry es -> Forall wf_entry (map (shift_entry k) es) ->
  Q (h ++ enc_entries (map (shift_entry k) es)) (set_f (w_f w ++ enc_entries (map (shift_entry k) es)) w) ->
  wp (copy_offsets (length es) (Z.of_nat k) h (mkDecbuf (enc_entries es) None)) w Q.
Proof.
  intros Hes. revert h w. induction Hes as [|x es Hx _ IH]; intros h w Hs HQ; cbn [length copy_offsets dE map enc_entries flat_map] in *.
  - rewrite !app_nil_r in HQ. apply wp_ret. destruct w. exact HQ.
  - apply Forall_cons_1 in Hs. destruct Hs as [Hs1 Hs]. fold (enc_entries es). fold (enc_entries (map (shift_entry k) es)) in HQ.
    apply wp_bind. eapply wp_res; [apply (copy_entry_ok x _ Hx)|]. cbv beta iota zeta. pose proof Hx as (Hn & Hv & _).
    pose proof Hs1 as (_ & _ & Ho). cbn [shift_entry snd] in Ho. rewrite u64_id by exact Ho.
    rewrite (put_entry_bytes _ _ _ Hn Hv). apply wp_bind, wp_write. intros _. apply IH; [exact Hs|]. cbn [w_f set_f].
    replace (enc_entry (fst (fst x), snd (fst x), snd x + Z.of_nat k)) with (enc_entry (shift_entry k x)) by (destruct x as [[? ?] ?]; reflexivity).
    rewrite <- !app_assoc. exact HQ.
Qed.
End passes.

(** ** The whole file *)
Definition front (ss : list bytes) (items : list item) : bytes :=
  (header ++ frame (symbol_table ss)) ++ series_area (series_base ss) (map (entry_of ss) items).

(** The table of the postings, when the lists start at [k]. *)
Definition table_of (ss : list bytes) (items : list item) (k : nat) : bytes :=
  offset_table (map (shift_entry k) (postings_entries 0 (all_lists ss items))).

Definition file_of (ss : list bytes) (items : list item) (gap1 gap2 : bytes) (toc : TOC) : bytes :=
  let pre := front ss items ++ gap1 in
  pre ++ postings_area 0 (all_lists ss items) ++ gap2 ++ frame (table_of ss items (length pre)) ++ enc_toc toc.

(** The file [f] holds the symbols [ss] and the series [items]; the gaps are the
    label indices and their table. *)
Definition written (ss : list bytes) (items : list item) (f : bytes) : Prop := exists gap1 gap2 toc,
  f = file_of ss items gap1 gap2 toc
  /\ (t_Symbols toc = 5 /\ t_Series toc = Z.of_nat (series_base ss) /\ t_LabelIndices toc = Z.of_nat (length (front ss items))
      /\ t_PostingsTable toc = Z.of_nat (length ((front ss items ++ gap1) ++ postings_area 0 (all_lists ss items) ++ gap2))
      /\ Forall is_u64 (toc_fields toc))
  /\ in_limit f /\ Z.of_nat (length (symbol_table ss)) < 2 ^ 32
  /\ Z.of_nat (length (table_of ss items (length (front ss items ++ gap1)))) < 2 ^ 32
  /\ Forall list_ok (all_lists ss items).

Lemma raw_all b : NewDecbufRaw b (length b) = mkDecbuf b None.
Proof. unfold NewDecbufRaw, slice. rewrite Nat.ltb_irrefl, Nat.sub_0_r, drop_0, firstn_all. reflexivity. Qed.

Lemma entries_range p ps : Forall (fun x => snd x <= Z.of_nat (p + length (postings_area p ps)) /\ 0 <= snd x) (postings_entries p ps).
Proof.
  revert p. induction ps as [|x ps IH]; intros p; cbn [postings_entries postings_area]; constructor.
  - unfold list_bytes. cbn [snd]. rewrite !length_app. lia.
  - eapply Forall_impl; [apply IH|]. cbv beta. intros y. rewrite length_app. lia.
Qed.

Lemma entries_labels p ps (P : bytes * bytes -> Prop) : Forall (fun x : posting => P (fst x)) ps -> Forall (fun x => P (fst x)) (postings_entries p ps).
Proof. intros H. revert p. induction H; intros p; cbn [postings_entries]; constructor; auto. Qed.

Lemma entries_wf k ps : Forall list_ok ps -> in_limit (postings_area 0 ps) -> small k ->
  Forall wf_entry (map (shift_entry k) (postings_entries 0 ps)).
Proof.
  intros Hok Hl Hk. apply Forall_fmap.
  assert (Hp : Forall (fun x : bytes * bytes * Z => wf_bytes (fst (fst x)) /\ wf_bytes (snd (fst x))) (postings_entries 0 ps)).
  { apply (entries_labels 0 ps (fun nv => wf_bytes (fst nv) /\ wf_bytes (snd nv))). eapply Forall_impl; [exact Hok|]. intros x [H _]. exact H. }
  pose proof (entries_range 0 ps) as Hr. rewrite Forall_forall in Hp, Hr |- *. intros x Hx. destruct (Hp x Hx), (Hr x Hx).
  split; [assumption|]. split; [assumption|]. cbn [shift_entry snd]. unfold in_limit, fpos, small, MaxUint32 in *. cbn [Nat.add] in *. unfold is_u64. lia.
Qed.

Lemma entries_wf_0 ps : Forall list_ok ps -> in_limit (postings_area 0 ps) -> Forall wf_entry (postings_entries 0 ps).
Proof.
  intros Hok Hl. pose proof (entries_wf 0 ps Hok Hl ltac:(unfold small, MaxUint32; lia)) as H.
  rewrite (map_ext _ id), map_id in H; [exact H|]. intros [nv o]. unfold shift_entry. cbn [fst snd]. rewrite Z.add_0_r. reflexivity.
Qed.

(** The values in the lists are symbols. *)
Lemma lists_values ss items p : Forall (fun x : bytes * bytes * Z => fst (fst x) <> [] -> snd (fst x) ∈ ss) (postings_entries p (all_lists ss items)).
Proof.
  apply (entries_labels p _ (fun nv => fst nv <> [] -> snd nv ∈ ss)). constructor; [intros H; destruct (H eq_refl)|].
  apply Forall_forall. intros x Hx _. apply list_elem_of_In, in_flat_map in Hx. destruct Hx as (n & _ & Hx).
  apply in_map_iff in Hx. destruct Hx as (v & <- & Hv). apply list_elem_of_In, list_elem_of_filter in Hv. apply Hv.
Qed.

Lemma writeTOC_ok w (Q : unit -> Writer -> Prop) :
  (in_limit (w_f w ++ enc_toc (w_toc w)) -> Q tt (set_f (w_f w ++ enc_toc (w_toc w)) w)) -> wp writeTOC w Q.
Proof.
  intros H. unfold writeTOC. apply wp_bind, wp_gets, wp_write.
  replace (buf _) with (enc_toc (w_toc w)); [exact H|]. unfold enc_toc, enc_be64s, toc_fields, buf, PutHash, PutBE64, PutBytes.
  cbn [eB empty_buf app flat_map]. rewrite <- !app_assoc, app_nil_r. reflexivity.
Qed.

Lemma writePostingsOffsetTable_ok k es w (Q : unit -> Writer -> Prop) : w_fPO w = enc_entries es -> w_cntPO w = Z.of_nat (length es) ->
  w_postingsStart w = Z.of_nat k -> Forall wf_entry es -> Forall wf_entry (map (shift_entry k) es) ->
  let table := offset_table (map (shift_entry k) es) in
  (Z.of_nat (length table) < 2 ^ 32 -> in_limit (w_f w ++ frame table) -> Q tt (set_f (w_f w ++ frame table) w)) ->
  wp writePostingsOffsetTable w Q.
Proof.
  intros E1 E2 E3 He Hs table HQ. unfold writePostingsOffsetTable. apply wp_bind, wp_pos, wp_bind, wp_write. intros _.
  apply wp_bind, wp_get. cbn [w_cntPO w_fPO w_postingsStart set_f]. cbv zeta. rewrite E1, E2, E3, Nat2Z.id, raw_all.
  apply wp_bind, wp_write. intros _. apply wp_bind, copy_offsets_ok; [exact He|exact Hs|]. cbn [w_f set_f]. rewrite <- !app_assoc.
  set (head := buf _). set (rest := enc_entries (map _ _)) in *.
  apply (wp_length_and_hash (w_f w) (head ++ rest)); [reflexivity|]. intros Hl Hlim.
  assert (Et : head ++ rest = table).
  { unfold table, offset_table. rewrite length_map. fold rest. unfold head, buf, PutBE32int, PutBE32, PutBytes. cbn [eB empty_buf app].
    rewrite u32_id; [reflexivity|]. pose proof (enc_entries_length (map (shift_entry k) es)) as Hn. fold rest in Hn. rewrite length_map in Hn.
    rewrite length_app in Hl. unfold is_u32. lia. }
  rewrite Et in Hl, Hlim |- *. apply HQ; assumption.
Qed.

(** The writer when the passes start. *)
Lemma ser_state_closing ss items w : ser_state ss items w -> str_sorted ss -> Forall wf_bytes ss -> Forall (item_ok ss) items ->
  closing ss items (set_toc (mkTOC 5 (Z.of_nat (series_base ss)) (fpos (w_f w)) 0 0 0) w).
Proof.
  intros [] Hs Hb Hi. split; cbn [w_f w_toc w_symbols w_symbolCache w_labelNames set_toc t_Series t_LabelIndices]; auto.
Qed.

Ltac wcbn := cbn [w_f w_fP w_fPO w_cntPO w_toc w_stage w_postingsStart w_symbolCache w_labelIndexes set_f set_tmp set_toc set_postingsStart set_labelIndexes
  t_Symbols t_Series t_LabelIndices t_LabelIndicesTable t_Postings t_PostingsTable].

Lemma written_intro ss items gap gap' gap2 : let gap1 := gap ++ gap' in
  let pre := front ss items ++ gap1 in let area := postings_area 0 (all_lists ss items) in
  let toc := mkTOC 5 (Z.of_nat (series_base ss)) (fpos (front ss items)) (fpos (pre ++ area)) (fpos (front ss items ++ gap)) (fpos ((pre ++ area) ++ gap2)) in
  let f := (((pre ++ area) ++ gap2) ++ frame (table_of ss items (length pre))) ++ enc_toc toc in
  in_limit f -> Z.of_nat (length (symbol_table ss)) < 2 ^ 32 -> Z.of_nat (length (table_of ss items (length pre))) < 2 ^ 32 ->
  Forall list_ok (all_lists ss items) -> written ss items f.
Proof.
  intros gap1 pre area toc f Hl Hs Ht Hok. exists gap1, gap2, toc. split.
  { unfold f, file_of. cbv zeta. fold pre area. rewrite <- !app_assoc. reflexivity. }
  split; [|auto]. split; [reflexivity|]. split; [reflexivity|]. split; [reflexivity|]. fold pre area. split.
  { unfold toc, fpos. cbn [t_PostingsTable]. rewrite <- app_assoc. reflexivity. }
  assert (Ef : (series_base ss <= length (front ss items))%nat) by (unfold front; rewrite length_app; fold (series_base ss); lia).
  assert (Ep : (length pre = length (front ss items) + length gap + length gap')%nat) by (unfold pre, gap1; rewrite !length_app; lia).
  unfold in_limit, fpos, f, MaxUint32 in Hl. rewrite !length_app in Hl.
  unfold toc, toc_fields, fpos. cbn [t_Symbols t_Series t_LabelIndices t_LabelIndicesTable t_Postings t_PostingsTable].
  repeat constructor; rewrite ?length_app; lia.
Qed.

Lemma enter_done_ok ss items w : ser_state ss items w -> str_sorted ss -> Forall wf_bytes ss -> Forall (item_ok ss) items ->
  wp (enter_stage 3) w (fun _ w' => written ss items (w_f w')).
Proof.
  intros Hst Hs Hb Hi. cbn [enter_stage]. apply wp_bind, wp_at_pos. rewrite (st_toc _ _ _ Hst).
  cbn [t_Symbols t_Series t_LabelIndicesTable t_Postings t_PostingsTable].
  pose proof (ser_state_closing ss items w Hst Hs Hb Hi) as Hcl. set (w0 := set_toc _ w) in *.
  pose proof (st_tmp _ _ _ Hst) as (T1 & T2 & T3 & _). assert (Ef : w_f w0 = front ss items) by apply (st_f _ _ _ Hst).
  assert (Et0 : w_toc w0 = mkTOC 5 (Z.of_nat (series_base ss)) (fpos (w_f w0)) 0 0 0) by reflexivity.
  apply wp_bind. eapply wp_mono; [apply (writePostingsToTmpFiles_ok ss items w0 Hcl T1 T2 T3)|]. clearbody w0.
  intros u w1 (-> & Hlim & Hok). apply wp_bind. unfold writeLabelIndices. apply wp_bind, wp_get. wcbn. rewrite Nat2Z.id, raw_all.
  rewrite <- (postings_entries_length 0 (all_lists ss items)). pose proof (entries_wf_0 _ Hok Hlim) as Hes.
  eapply wp_mono; [apply (label_values_loop_ok ss); [exact Hes|exact (cl_cache _ _ _ Hcl)|apply lists_values]|].
  intros u2 w2 (gap & li & ->). rewrite Ef in Et0. wcbn. rewrite Ef. apply wp_bind, wp_at_pos, wp_bind. wcbn. rewrite Et0. wcbn. unfold writePostings.
  apply wp_bind. change 4 with (Z.of_nat 4). apply wp_addPadding; [lia|]. wcbn. rewrite <- app_assoc. set (gap1 := gap ++ _).
  apply wp_bind, wp_pos, wp_bind, wp_modify, wp_bind, wp_get, wp_modify. wcbn. apply wp_bind, wp_at_pos, wp_bind.
  eapply wp_mono; [apply writeLabelIndexesOffsetTable_ok|]. intros u3 w3 [(gap2 & li2 & ->) Hlim3]. wcbn.
  set (pre := front ss items ++ gap1) in *. set (area := postings_area 0 (all_lists ss items)) in *.
  apply wp_bind, wp_at_pos, wp_bind. wcbn. cbn [w_f set_f set_labelIndexes set_toc set_postingsStart] in Hlim3.
  assert (Hpre : small (length pre)).
  { unfold in_limit, fpos in Hlim3. rewrite !length_app in Hlim3. unfold small. lia. }
  apply (writePostingsOffsetTable_ok (length pre) (postings_entries 0 (all_lists ss items)));
    [reflexivity|reflexivity|reflexivity|exact Hes|apply entries_wf; assumption|].
  fold (table_of ss items (length pre)). intros Htab _. wcbn. apply writeTOC_ok. wcbn. intros Hfin.
  destruct (cl_symbols _ _ _ Hcl) as (f & _ & (_ & Hsym & _) & _). apply (written_intro ss items gap _ gap2); assumption.
Qed.

(** *** All the calls *)
Definition write_index (ss : list bytes) (items : list item) : WM unit := AddSymbols ss ;== AddAllSeries items ;== Close.

Lemma Close_ok ss items w : adding ss items w -> str_sorted ss -> Forall wf_bytes ss -> Forall (item_ok ss) items ->
  wp Close w (fun _ w' => written ss items (w_f w')).
Proof.
  intros Hadd Hs Hb Hi. unfold Close, idxStageDone. cbn [ensureStage]. apply wp_bind, wp_gets.
  assert (Hstage : (w_stage w < 3)%nat).
  { destruct Hadd as [[[[-> _]|(c & _ & ->)] _]|Hst]; [cbn; unfold idxStageNone; lia|cbn; unfold idxStageSymbols; lia|rewrite (st_stage _ _ _ Hst); unfold idxStageSeries; lia]. }
  destruct (Nat.eqb_spec (w_stage w) 3); [lia|]. apply wp_bind. apply (wp_mono _ _ (fun _ w' => ser_state ss items w')).
  { pose proof (ensure_adding ss items w Hadd Hs Hb) as He. destruct (Nat.ltb_spec (w_stage w) 2); [exact He|].
    destruct Hadd as [[[[-> _]|(c & _ & ->)] _]|Hst]; [cbn in *; unfold idxStageNone in *; lia|cbn in *; unfold idxStageSymbols in *; lia|apply wp_ret, Hst]. }
  intros u w1 Hst. apply wp_bind, wp_gets. rewrite (st_stage _ _ _ Hst). cbn [Nat.ltb Nat.leb idxStageSeries]. apply wp_bind.
  eapply wp_mono; [apply (enter_done_ok ss items); assumption|]. intros u2 w2 Hw. apply wp_modify. exact Hw.
Qed.

(** Symbols and series in the order that the writer demands. *)
Definition index_input (ss : list bytes) (items : list item) : Prop :=
  str_sorted ss /\ Forall wf_bytes ss /\ items_follow ss None 0 items.

Lemma write_index_ok ss items : index_input ss items ->
  wp (write_index ss items) written_header (fun _ w' => written ss items (w_f w')).
Proof.
  intros (Hs & Hb & Hf). unfold write_index. apply wp_bind. eapply wp_mono; [apply (AddSymbols_ok []); [left; auto|exact Hs|exact Hb]|].
  intros u w Hw. cbn [app] in Hw. apply wp_bind. eapply wp_mono.
  - apply (AddAllSeries_ok ss []); [left; auto|exact Hs|exact Hb|constructor|exact Hf].
  - intros u2 w2 Hw2. cbn [app] in Hw2. apply (Close_ok ss items); try assumption. eapply items_follow_ok, Hf.
Qed.
End closing.
