(* ===== verification/IndexReader.v ===== *)
(** * The index file: the reader of whole files [tsdb/index/index.go]

    [newReader] keeps the label names with every 32nd value and the last one
    ([r_postings]); the values between them are found by walking the table of
    postings offsets in the file ([traversePostingOffsets]).

    A query answers with the iterators that the code hands to [Merge].  Contexts
    are never cancelled, and no matchers are given. *)

From stdpp Require Import base list numbers gmap sorting.
From Stdlib Require Import ZArith Lia Sorting.Sorted.
From S2P Require Import Prelude Encoding Labels Postings Index.

Record postingOffset := mkPostingOffset { po_value : bytes; po_off : Z }.

Record Reader := mkReader {
  r_b : bytes; r_toc : TOC;
  r_postings : gmap bytes (list postingOffset);
  r_postingsV1 : gmap bytes (gmap bytes Z);
  r_symbols : Symbols; r_nameSymbols : gmap Z bytes; r_version : Z }.

Section reader.
Context {V : VarintLib}.

(** ** Opening a file *)

(** What the callback of [newReader] keeps; [sm_last] is [nil] when the last
    value is in the list already. *)
Record sampler := mkSampler {
  sm_postings : gmap bytes (list postingOffset); sm_last : option (bytes * bytes); sm_lastOff : Z; sm_count : Z }.

Definition append_po (k : bytes) (x : postingOffset) (m : gmap bytes (list postingOffset)) : gmap bytes (list postingOffset) :=
  <[k := default [] (m !! k) ++ [x]]> m.
Definition append_last (s : sampler) : gmap bytes (list postingOffset) :=
  match sm_last s with
  | Some (n, v) => append_po n (mkPostingOffset v (sm_lastOff s)) (sm_postings s)
  | None => sm_postings s
  end.

Definition sample_entry (name value : bytes) (_ off : Z) : EM sampler unit := fun s =>
  let s := match sm_postings s !! name with
           | Some _ => s
           | None =>
               let s := mkSampler (<[name := []]> (sm_postings s)) (sm_last s) (sm_lastOff s) (sm_count s) in
               mkSampler (append_last s) (sm_last s) (sm_lastOff s) 0
           end in
  let s := if sm_count s mod symbolFactor =? 0
           then mkSampler (append_po name (mkPostingOffset value off) (sm_postings s)) None (sm_lastOff s) (sm_count s)
           else mkSampler (sm_postings s) (Some (name, value)) off (sm_count s) in
  rret (tt, mkSampler (sm_postings s) (sm_last s) (sm_lastOff s) (sm_count s + 1)).

Definition entry_V1 (name value : bytes) (off _ : Z) : EM (gmap bytes (gmap bytes Z) * gmap bytes (list postingOffset)) unit := fun s =>
  let '(m, ps) := s in
  let ps := match m !! name with Some _ => ps | None => <[name := []]> ps end in
  rret (tt, (<[name := <[value := off]> (default ∅ (m !! name))]> m, ps)).

(** The order in which the names are visited decides at most which error is
    returned. *)
Fixpoint name_symbols_of (s : Symbols) (names : list bytes) (m : gmap Z bytes) : res (gmap Z bytes) :=
  match names with
  | [] => rret m
  | k :: names =>
      if (length k =? 0)%nat then name_symbols_of s names m
      else off <~ ReverseLookup s k ;; name_symbols_of s names (<[off := k]> m)
  end.

Definition newReader (b : bytes) : res Reader :=
  if (length b <? HeaderLen)%nat then rerr (EDec ErrInvalidSize)
  else
    let m := be_val (slice b 0 4) in
    if negb (m =? MagicIndex) then rerr (EMagic m)
    else
      let version := nth 4 b 0 in
      if negb ((version =? FormatV1) || (version =? FormatV2) || (version =? FormatV3)) then rerr (EVersion version)
      else
        toc <~ NewTOCFromByteSlice b ;;
        symbols <~ NewSymbols b version (i64 (t_Symbols toc)) ;;
        tables <~ (if version =? FormatV1 then ReadPostingsOffsetTable b (t_PostingsTable toc) entry_V1 (∅, ∅)
                   else
                     s <~ ReadPostingsOffsetTable b (t_PostingsTable toc) sample_entry (mkSampler ∅ None 0 0) ;;
                     rret (∅, append_last s)) ;;
        let '(postingsV1, postings) := tables in
        names <~ name_symbols_of symbols (map fst (map_to_list postings)) ∅ ;;
        rret (mkReader b toc postings postingsV1 symbols names version).

Definition lookupSymbol (r : Reader) (o : Z) : res bytes :=
  match r_nameSymbols r !! o with Some s => rret s | None => Lookup (r_symbols r) o end.

(** ** Series *)
Definition series_offset (r : Reader) (id : Z) : Z := i64 (if r_version r =? FormatV1 then id else u64 (id * seriesByteAlign)).

Definition Reader_Series (r : Reader) (id : Z) (builder : ScratchBuilder) (want_chunks : bool) : res (ScratchBuilder * list Meta) :=
  d <~ decbuf_uvarint_at (r_b r) (series_offset r id) ;;
  match dE d with
  | Some e => rerr (EDec e)
  | None => Decoder_Series (lookupSymbol r) (dB d) (sb_Reset builder) want_chunks
  end.

Definition Reader_LabelValueFor (r : Reader) (id : Z) (label : bytes) : res bytes :=
  d <~ decbuf_uvarint_at (r_b r) (series_offset r id) ;;
  match dE d with
  | Some e => rerr (EDec e)
  | None =>
      match LabelValueFor (lookupSymbol r) (dB d) label with
      | Panic => Panic
      | Ret (inl _) => rerr ENotFound
      | Ret (inr value) => if (length value =? 0)%nat then rerr ENotFound else rret value
      end
  end.

(** The offsets of the names of the series that an iterator yields. *)
Fixpoint names_offsets (r : Reader) (ids : list Z) (m : gset Z) : res (gset Z) :=
  match ids with
  | [] => rret m
  | id :: ids =>
      d <~ decbuf_uvarint_at (r_b r) (series_offset r id) ;;
      match dE d with
      | Some e => rerr (EDec e)
      | None => offsets <~ LabelNamesOffsetsFor (dB d) ;; names_offsets r ids (m ∪ list_to_set offsets)
      end
  end.

Fixpoint lookup_all (r : Reader) (offs : list Z) (names : list bytes) : res (list bytes) :=
  match offs with
  | [] => rret names
  | off :: offs => name <~ lookupSymbol r off ;; lookup_all r offs (names ++ [name])
  end.

Definition LabelNamesFor (r : Reader) (ids : list Z) : res (list bytes) :=
  m <~ names_offsets r ids ∅ ;;
  names <~ lookup_all r (elements m) [] ;;
  rret (merge_sort str_le names).

(** ** The table of postings offsets *)

(** The loop of [traversePostingOffsets]: the first entry is parsed for the
    number of bytes to skip in the others.  The callback says whether to go on. *)
Fixpoint traverse_loop {St} (fuel : nat) (cb : bytes -> Z -> St -> res (bool * St)) (skip : Z) (st : St) : EM Decbuf St :=
  d <== em_get ;;
  match dE d with
  | Some _ => em_ret st
  | None =>
      match fuel with
      | O => fun _ => Panic
      | S f =>
          skip <== (if skip =? 0 then
                      em_dec Uvarint ;== em_dec UvarintBytes ;== d' <== em_get ;; em_ret (DLen d - DLen d')
                    else em_dec (Skip skip) ;== em_ret skip) ;;
          v <== em_dec UvarintBytes ;;
          postingsOff <== em_dec Uvarint64 ;;
          r <== em_res (cb v postingsOff st) ;;
          if (fst r : bool) then traverse_loop f cb skip (snd r) else em_ret (snd r)
      end
  end.

Definition traversePostingOffsets {St} (r : Reader) (off : Z) (cb : bytes -> Z -> St -> res (bool * St)) (st : St) : res St :=
  d <~ decbuf_at (r_b r) (i64 (t_PostingsTable (r_toc r))) false ;;
  run_on d (
    em_dec (Skip off) ;==
    st <== traverse_loop (S (length (r_b r))) cb 0 st ;;
    check_err ;== em_ret st).

(** ** Names and values *)

Definition hit_limit {A} (limit : Z) (values : list A) : bool := (0 <? limit) && (limit <=? Z.of_nat (length values)).

(** The callback of [LabelValues]. *)
Definition collect_value (limit : Z) (lastVal : bytes) (val : bytes) (_ : Z) (values : list bytes) : res (bool * list bytes) :=
  if hit_limit limit values then rret (false, values) else rret (negb (str_eqb val lastVal), values ++ [val]).

(** [range_map] is the order in which a map is visited; [limit] is zero without hints. *)
Definition LabelValues (range_map : gmap bytes Z -> list bytes) (r : Reader) (name : bytes) (limit : Z) : res (list bytes) :=
  if r_version r =? FormatV1 then
    match r_postingsV1 r !! name with
    | None => rret []
    | Some e => rret (if 0 <? limit then take (Z.to_nat limit) (range_map e) else range_map e)
    end
  else
    match r_postings r !! name with
    | None => rret []
    | Some e =>
        match e, last e with
        | e0 :: _, Some l => traversePostingOffsets r (po_off e0) (collect_value limit (po_value l)) []
        | _, _ => rret []
        end
    end.

Definition SortedLabelValues (range_map : gmap bytes Z -> list bytes) (r : Reader) (name : bytes) (limit : Z) : res (list bytes) :=
  values <~ LabelValues range_map r name limit ;;
  rret (if r_version r =? FormatV1 then merge_sort str_le values else values).

Definition LabelNames (r : Reader) : list bytes :=
  merge_sort str_le (filter (fun name => name <> []) (map fst (map_to_list (r_postings r)))).

(** ** Postings *)

(** The postings list at an offset, which [DecodePostings] wants to read. *)
Definition postings_at (r : Reader) (off : Z) : res bigEndianPostings :=
  d <~ decbuf_at (r_b r) (i64 off) true ;;
  p <~ run_on d DecodePostingsRaw ;;
  rret (snd p).

(** The iterators of the values of a name in the first format. *)
Fixpoint postings_V1 (r : Reader) (e : gmap bytes Z) (values : list bytes) (its : list bigEndianPostings) : res (list bigEndianPostings) :=
  match values with
  | [] => rret its
  | v :: values =>
      match e !! v with
      | None => postings_V1 r e values its
      | Some off => p <~ postings_at r off ;; postings_V1 r e values (its ++ [p])
      end
  end.

(** The index of the value that is looked for, the value and the iterators so far. *)
Record search := mkSearch { se_index : nat; se_value : bytes; se_res : list bigEndianPostings }.

(** [for val >= value] in the callback of [Postings]. *)
Fixpoint match_values (n : nat) (r : Reader) (values : list bytes) (val : bytes) (postingsOff : Z) (s : search) : res search :=
  if str_ltb val (se_value s) then rret s
  else
    match n with
    | O => Panic
    | S n' =>
        its <~ (if str_eqb val (se_value s) then p <~ postings_at r postingsOff ;; rret (se_res s ++ [p]) else rret (se_res s)) ;;
        match values !! S (se_index s) with
        | None => rret (mkSearch (S (se_index s)) (se_value s) its)
        | Some value => match_values n' r values val postingsOff (mkSearch (S (se_index s)) value its)
        end
    end.

Definition find_postings (r : Reader) (values : list bytes) (e : list postingOffset) (i : nat) (val : bytes) (postingsOff : Z) (s : search)
    : res (bool * search) :=
  s <~ match_values (S (length values)) r values val postingsOff s ;;
  let stop := match e !! S i with
              | None => true
              | Some next => negb (str_ltb (se_value s) (po_value next)) || (se_index s =? length values)%nat
              end in
  rret (negb stop, s).

(** Values in front of the first one of the file. *)
Fixpoint discard_values (first : bytes) (i : nat) (values : list bytes) : nat :=
  match values with
  | [] => i
  | v :: values => if str_ltb v first then discard_values first (S i) values else i
  end.

(** The outer loop; one more round than values would not end. *)
Fixpoint postings_loop (fuel : nat) (r : Reader) (values : list bytes) (e : list postingOffset) (index : nat) (its : list bigEndianPostings)
    : res (list bigEndianPostings) :=
  match values !! index with
  | None => rret its
  | Some value =>
      match fuel with
      | O => Panic
      | S f =>
          let po i := nth i e (mkPostingOffset [] 0) in
          let i := sort_search (length e) (fun i => negb (str_ltb (po_value (po i)) value)) in
          if (i =? length e)%nat then rret its
          else
            let i := if (0 <? i)%nat && negb (str_eqb (po_value (po i)) value) then (i - 1)%nat else i in
            s <~ traversePostingOffsets r (po_off (po i)) (find_postings r values e i) (mkSearch index value its) ;;
            postings_loop f r values e (se_index s) (se_res s)
      end
  end.

(** What [Postings] gives to [Merge]; no iterators stand for [EmptyPostings]. *)
Definition Reader_Postings (r : Reader) (name : bytes) (values : list bytes) : res (list bigEndianPostings) :=
  if r_version r =? FormatV1 then
    match r_postingsV1 r !! name with
    | None => rret []
    | Some e => postings_V1 r e values []
    end
  else
    match r_postings r !! name with
    | None => rret []
    | Some e =>
        if (length values =? 0)%nat then rret []
        else
          let values := merge_sort str_le values in
          match e with
          | [] => Panic
          | e0 :: _ => postings_loop (length values) r values e (discard_values (po_value e0) 0 values) []
          end
    end.

(** The callback of [postingsForLabelMatching]. *)
Definition collect_postings (r : Reader) (match_ : option (bytes -> bool)) (lastVal : bytes) (val : bytes) (postingsOff : Z)
    (its : list bigEndianPostings) : res (bool * list bigEndianPostings) :=
  its <~ (if match match_ with None => true | Some f => f val end then p <~ postings_at r postingsOff ;; rret (its ++ [p]) else rret its) ;;
  rret (negb (str_eqb val lastVal), its).

Definition wanted (match_ : option (bytes -> bool)) (val : bytes) : bool := match match_ with None => true | Some f => f val end.

(** The values in the order [vals] in which the map is visited. *)
Fixpoint matching_V1 (r : Reader) (match_ : option (bytes -> bool)) (e : gmap bytes Z) (vals : list bytes) (its : list bigEndianPostings)
    : res (list bigEndianPostings) :=
  match vals with
  | [] => rret its
  | val :: vals =>
      if negb (wanted match_ val) then matching_V1 r match_ e vals its
      else p <~ postings_at r (default 0 (e !! val)) ;; matching_V1 r match_ e vals (its ++ [p])
  end.
Definition postingsForLabelMatchingV1 (range_map : gmap bytes Z -> list bytes) (r : Reader) (name : bytes) (match_ : option (bytes -> bool))
    : res (list bigEndianPostings) :=
  let e := default ∅ (r_postingsV1 r !! name) in
  if bool_decide (e = ∅) then rret [] else matching_V1 r match_ e (range_map e) [].

(** An error stands for [ErrPostings]. *)
Definition postingsForLabelMatching (range_map : gmap bytes Z -> list bytes) (r : Reader) (name : bytes) (match_ : option (bytes -> bool))
    : res (list bigEndianPostings) :=
  if r_version r =? FormatV1 then postingsForLabelMatchingV1 range_map r name match_
  else
    match r_postings r !! name with
    | None => rret []
    | Some e =>
        match e, last e with
        | e0 :: _, Some l => traversePostingOffsets r (po_off e0) (collect_postings r match_ (po_value l)) []
        | _, _ => rret []
        end
    end.
Definition PostingsForLabelMatching range_map (r : Reader) (name : bytes) (match_ : bytes -> bool) :=
  postingsForLabelMatching range_map r name (Some match_).
Definition PostingsForAllLabelValues range_map (r : Reader) (name : bytes) := postingsForLabelMatching range_map r name None.

(** The byte ranges of all postings lists. *)
Definition range_entry (b : bytes) (name value : bytes) (off _ : Z) : EM (gmap (bytes * bytes) (Z * Z)) unit := fun m =>
  d <~ decbuf_at b (i64 off) true ;;
  match dE d with
  | Some e => rerr (EDec e)
  | None => rret (tt, <[(name, value) := (i64 (i64 off + 4), i64 (i64 off + 4 + DLen d))]> m)
  end.
Definition PostingsRanges (r : Reader) : res (gmap (bytes * bytes) (Z * Z)) :=
  ReadPostingsOffsetTable (r_b r) (t_PostingsTable (r_toc r)) (range_entry (r_b r)) ∅.
End reader.
