(* ===== verification/IndexFile.v ===== *)
(** * The index file: what was written is what is read [tsdb/index/index.go]

    The reader of [IndexReader] on the files of [IndexClose]: every series, every
    label value and every postings list of the writer's input comes back. *)

From stdpp Require Import base list numbers gmap sorting.
From Stdlib Require Import ZArith Lia Sorting.Sorted.
From S2P Require Import Prelude Encoding Labels Postings Index IndexWriter IndexClose IndexReader.

(** ** The values that the reader keeps *)
Section sampling.
Context {V : VarintLib}.

(** A label name with its values and their offsets, as entries of the table. *)
Definition group (g : bytes * list (bytes * Z)) : list (bytes * bytes * Z) := map (fun x => (fst g, fst x, snd x)) (snd g).

(** The entries of a group that are kept: every 32nd and the last. *)
Fixpoint samples (c pos : Z) (n : bytes) (vs : list (bytes * Z)) : list postingOffset :=
  match vs with
  | [] => []
  | x :: vs' =>
      let rest := samples (c + 1) (pos + Z.of_nat (length (enc_entry (n, fst x, snd x)))) n vs' in
      if (c mod symbolFactor =? 0) || (length vs' =? 0)%nat then mkPostingOffset (fst x) pos :: rest else rest
  end.

Lemma fold_entries_app {St} (f : bytes -> bytes -> Z -> Z -> EM St unit) pos a b st :
  fold_entries f pos (a ++ b) st
  = rbind (fold_entries f pos a st) (fold_entries f (pos + Z.of_nat (length (enc_entries a))) b).
Proof.
  revert pos st. induction a as [|x a IH]; intros pos st; cbn [app fold_entries].
  - cbn. rewrite Z.add_0_r. destruct (fold_entries f pos b st) as [[e|s]|]; reflexivity.
  - destruct (f _ _ _ pos st) as [[e|[u s]]|]; cbn [rbind snd]; try reflexivity. rewrite IH.
    unfold enc_entries. cbn [flat_map]. rewrite length_app. destruct (fold_entries f _ a s) as [[e|s']|]; cbn [rbind]; try reflexivity.
    f_equal. lia.
Qed.

(** The name of the value that waits, if any, has a list. *)
Definition waiting (s : sampler) : Prop := match sm_last s with Some (n, _) => is_Some (sm_postings s !! n) | None => True end.

Lemma append_po_here n x e m : m !! n = Some e -> append_po n x m = <[n := e ++ [x]]> m.
Proof. intros E. unfold append_po. rewrite E. reflexivity. Qed.

Lemma sample_step n v o pos e s : sm_postings s !! n = Some e ->
  sample_entry n v o pos s = Ret (inr (tt,
    if sm_count s mod symbolFactor =? 0
    then mkSampler (<[n := e ++ [mkPostingOffset v pos]]> (sm_postings s)) None (sm_lastOff s) (sm_count s + 1)
    else mkSampler (sm_postings s) (Some (n, v)) pos (sm_count s + 1))).
Proof.
  intros E. unfold sample_entry. rewrite E. destruct (_ =? 0); [|reflexivity]. rewrite (append_po_here _ _ _ _ E). reflexivity.
Qed.

(** The rest of a group. *)
Lemma sample_rest n vs c pos e s : vs <> [] -> sm_postings s !! n = Some e -> sm_count s = c ->
  exists s', fold_entries sample_entry pos (group (n, vs)) s = Ret (inr s')
    /\ append_last s' = <[n := e ++ samples c pos n vs]> (sm_postings s) /\ waiting s'
    /\ (forall k, is_Some (sm_postings s' !! k) <-> is_Some (sm_postings s !! k)).
Proof.
  revert c pos e s. induction vs as [|[v o] vs IH]; intros c pos e s Hne He Hc; [contradiction|]. clear Hne.
  cbn [group fst snd map fold_entries samples]. rewrite (sample_step n v o pos e s He). cbn [rbind snd]. fold (group (n, vs)). rewrite Hc.
  set (pos' := pos + _). destruct (Z.eqb_spec (c mod symbolFactor) 0) as [E0|E0]; cbn [orb].
  - set (s1 := mkSampler _ _ _ _). assert (Hd : forall k, is_Some (sm_postings s1 !! k) <-> is_Some (sm_postings s !! k)).
    { intros k. cbn [sm_postings s1]. destruct (decide (k = n)) as [->|]; [rewrite lookup_insert_eq, He; split; eauto|].
      rewrite lookup_insert_ne by congruence. reflexivity. }
    destruct vs as [|x vs].
    + exists s1. split; [reflexivity|]. split; [reflexivity|]. split; [exact I|exact Hd].
    + destruct (IH (c + 1) pos' (e ++ [mkPostingOffset v pos]) s1) as (s' & E & Ea & Hw & Hd'); [discriminate|apply lookup_insert_eq|reflexivity|].
      exists s'. split; [exact E|]. split; [|split; [exact Hw|]].
      * rewrite Ea. cbn [sm_postings s1]. rewrite insert_insert_eq, <- app_assoc. reflexivity.
      * intros k. rewrite Hd'. apply Hd.
  - set (s1 := mkSampler _ _ _ _). destruct vs as [|x vs].
    + exists s1. split; [reflexivity|]. split; [|split; [exists e; exact He|reflexivity]].
      unfold append_last. cbn [sm_last s1 sm_postings sm_lastOff length Nat.eqb samples]. apply append_po_here, He.
    + destruct (IH (c + 1) pos' e s1) as (s' & E & Ea & Hw & Hd'); [discriminate|exact He|reflexivity|].
      exists s'. split; [exact E|]. split; [exact Ea|]. split; [exact Hw|exact Hd'].
Qed.

(** A whole group. *)
Lemma sample_group n vs pos s : vs <> [] -> sm_postings s !! n = None -> waiting s ->
  exists s', fold_entries sample_entry pos (group (n, vs)) s = Ret (inr s')
    /\ append_last s' = <[n := samples 0 pos n vs]> (append_last s) /\ waiting s'
    /\ (forall k, is_Some (sm_postings s' !! k) <-> k = n \/ is_Some (sm_postings s !! k)).
Proof.
  intros Hne Hn Hw.
  (* entering the group stores the value that waits *)
  set (s1 := mkSampler (<[n := []]> (append_last s)) (sm_last s) (sm_lastOff s) 0).
  assert (Hlast : append_last (mkSampler (<[n := []]> (sm_postings s)) (sm_last s) (sm_lastOff s) (sm_count s)) = <[n := []]> (append_last s)).
  { unfold append_last, waiting in *. cbn [sm_last sm_postings sm_lastOff]. destruct (sm_last s) as [[k v]|]; [|reflexivity].
    destruct (decide (k = n)) as [->|Hk]; [rewrite Hn in Hw; destruct Hw; discriminate|]. unfold append_po.
    rewrite lookup_insert_ne by congruence. apply insert_insert_ne. congruence. }
  assert (Hdom : forall k, is_Some (append_last s !! k) <-> is_Some (sm_postings s !! k)).
  { intros k. unfold append_last, waiting in *. destruct (sm_last s) as [[m v]|]; [|reflexivity]. destruct Hw as [e He].
    rewrite (append_po_here _ _ _ _ He). destruct (decide (k = m)) as [->|]; [rewrite lookup_insert_eq, He; split; eauto|].
    rewrite lookup_insert_ne by congruence. reflexivity. }
  assert (Hfold : fold_entries sample_entry pos (group (n, vs)) s = fold_entries sample_entry pos (group (n, vs)) s1).
  { destruct vs as [|[v o] vs]; [contradiction|]. cbn [group fst snd map fold_entries].
    unfold sample_entry at 1 3. rewrite Hn, Hlast. cbn [sm_postings s1]. rewrite lookup_insert_eq. reflexivity. }
  destruct (sample_rest n vs 0 pos [] s1 Hne) as (s' & E & Ea & Hw' & Hd); [apply lookup_insert_eq|reflexivity|].
  exists s'. rewrite Hfold. split; [exact E|]. split; [|split; [exact Hw'|]].
  - rewrite Ea. cbn [sm_postings s1 app]. apply insert_insert_eq.
  - intros k. rewrite Hd. cbn [sm_postings s1]. destruct (decide (k = n)) as [->|Hk].
    + rewrite lookup_insert_eq. split; eauto.
    + rewrite lookup_insert_ne by congruence. rewrite Hdom. split; [auto|intros [?|?]; [congruence|assumption]].
Qed.

(** All groups: what is kept in the end. *)
Fixpoint kept (pos : Z) (gs : list (bytes * list (bytes * Z))) (m : gmap bytes (list postingOffset)) : gmap bytes (list postingOffset) :=
  match gs with
  | [] => m
  | g :: gs => kept (pos + Z.of_nat (length (enc_entries (group g)))) gs (<[fst g := samples 0 pos (fst g) (snd g)]> m)
  end.

Lemma sample_groups gs pos s : Forall (fun g => snd g <> []) gs -> NoDup (map fst gs) ->
  Forall (fun g => sm_postings s !! fst g = None) gs -> waiting s ->
  exists s', fold_entries sample_entry pos (flat_map group gs) s = Ret (inr s') /\ append_last s' = kept pos gs (append_last s).
Proof.
  intros Hne. revert pos s. induction Hne as [|[n vs] gs Hvs _ IH]; intros pos s Hnd Hnew Hw; cbn [flat_map kept].
  - exists s. split; reflexivity.
  - cbn [map fst snd] in *. apply NoDup_cons in Hnd. destruct Hnd as [Hn Hnd]. apply Forall_cons_1 in Hnew. destruct Hnew as [Hnew1 Hnew].
    destruct (sample_group n vs pos s Hvs Hnew1 Hw) as (s1 & E1 & Ea1 & Hw1 & Hd1). rewrite fold_entries_app, E1. cbn [rbind].
    destruct (IH (pos + Z.of_nat (length (enc_entries (group (n, vs))))) s1 Hnd) as (s' & E & Ea).
    + rewrite Forall_forall in Hnew |- *. intros g Hg. destruct (sm_postings s1 !! fst g) as [e|] eqn:Ee; [|reflexivity]. exfalso.
      destruct (proj1 (Hd1 (fst g)) (mk_is_Some _ _ Ee)) as [En|[x Ex]].
      * apply Hn. rewrite <- En. apply list_elem_of_fmap. eauto.
      * rewrite (Hnew g Hg) in Ex. discriminate.
    + exact Hw1.
    + exists s'. split; [exact E|]. rewrite Ea, Ea1. reflexivity.
Qed.

Lemma kept_other pos gs m n : n ∉ map fst gs -> kept pos gs m !! n = m !! n.
Proof.
  revert pos m. induction gs as [|g gs IH]; intros pos m Hn; [reflexivity|]. cbn [kept map] in *. apply not_elem_of_cons in Hn.
  destruct Hn as [H1 H2]. rewrite IH by exact H2. apply lookup_insert_ne. congruence.
Qed.

Lemma kept_group pos gs1 n vs gs2 m : NoDup (map fst (gs1 ++ (n, vs) :: gs2)) ->
  kept pos (gs1 ++ (n, vs) :: gs2) m !! n = Some (samples 0 (pos + Z.of_nat (length (enc_entries (flat_map group gs1)))) n vs).
Proof.
  revert pos m. induction gs1 as [|g gs1 IH]; intros pos m Hnd; cbn [app map kept flat_map fst snd] in *; apply NoDup_cons in Hnd; destruct Hnd as [Hn Hnd].
  - rewrite kept_other by exact Hn. rewrite lookup_insert_eq. cbn [enc_entries flat_map length]. rewrite Z.add_0_r. reflexivity.
  - rewrite IH by exact Hnd. unfold enc_entries. rewrite flat_map_app, length_app. do 2 f_equal. lia.
Qed.

(** The kept entry for the [j]-th value of a group. *)
Definition po_at (pos : Z) (n : bytes) (vs : list (bytes * Z)) (j : nat) : postingOffset :=
  mkPostingOffset (fst (nth j vs ([], 0))) (pos + Z.of_nat (length (enc_entries (group (n, take j vs))))).

Lemma samples_spec c pos n vs : vs <> [] -> exists js, samples c pos n vs = map (po_at pos n vs) js
  /\ StronglySorted lt js /\ (c mod symbolFactor = 0 -> exists js', js = 0%nat :: js')
  /\ (exists js', js = js' ++ [(length vs - 1)%nat]).
Proof.
  revert c pos. induction vs as [|x vs IH]; intros c pos Hne; [contradiction|]. clear Hne. cbn [samples].
  set (pos' := pos + _). destruct vs as [|y vs].
  { exists [0%nat]. cbn [length samples Nat.eqb]. rewrite orb_true_r. split; [|split; [repeat constructor|split; [eauto|exists []; reflexivity]]].
    unfold po_at. cbn. rewrite Z.add_0_r. reflexivity. }
  destruct (IH (c + 1) pos') as (js & E & Hs & _ & (js' & El)); [discriminate|]. set (vs1 := y :: vs) in *.
  assert (Emap : map (po_at pos' n vs1) js = map (po_at pos n (x :: vs1)) (map S js)).
  { rewrite map_map. apply map_ext. intros j. unfold po_at. cbn [nth take group fst snd map enc_entries flat_map]. f_equal.
    unfold pos', group, enc_entries. cbn [fst snd]. rewrite length_app. lia. }
  assert (HsS : StronglySorted lt (map S js)) by (apply (StronglySorted_fmap S lt lt); [lia|exact Hs]).
  assert (Hlast : map S js = map S js' ++ [(length (x :: vs1) - 1)%nat]).
  { rewrite El, map_app. cbn [map length]. unfold vs1. cbn [length]. repeat f_equal. lia. }
  replace (length vs1 =? 0)%nat with false by reflexivity. rewrite orb_false_r.
  destruct (Z.eqb_spec (c mod symbolFactor) 0) as [E0|E0].
  - exists (0%nat :: map S js). split; [|split; [|split]].
    + cbn [map]. rewrite E, Emap. f_equal. unfold po_at. cbn. rewrite Z.add_0_r. reflexivity.
    + constructor; [exact HsS|]. apply List.Forall_forall. intros j Hj. apply in_map_iff in Hj. destruct Hj as (j' & <- & _). lia.
    + eauto.
    + rewrite Hlast. exists (0%nat :: map S js'). reflexivity.
  - exists (map S js). split; [rewrite E; exact Emap|]. split; [exact HsS|]. split; [contradiction|]. rewrite Hlast. eauto.
Qed.
End sampling.

(** ** Walking the table *)
Section walking.
Context {V : VarintLib} {VOK : VarintLibOK V}.

(** The callback on the values of a group, until it says to stop. *)
Fixpoint walk {St} (cb : bytes -> Z -> St -> res (bool * St)) (vs : list (bytes * Z)) (st : St) : res (bool * St) :=
  match vs with
  | [] => rret (true, st)
  | x :: vs => r <~ cb (fst x) (snd x) st ;; if (fst r : bool) then walk cb vs (snd r) else rret r
  end.

Definition wf_value (x : bytes * Z) : Prop := wf_bytes (fst x) /\ is_u64 (snd x).

Lemma traverse_loop_ok {St} (cb : bytes -> Z -> St -> res (bool * St)) fuel n vs skip st st' rest : wf_bytes n -> Forall wf_value vs ->
  (skip = 0 \/ skip = Z.of_nat (length (enc_key n))) -> (length vs < fuel)%nat -> walk cb vs st = Ret (inr (false, st')) ->
  exists d, traverse_loop fuel cb skip st (mkDecbuf (enc_entries (group (n, vs)) ++ rest) None) = Ret (inr (st', d)) /\ dE d = None.
Proof.
  intros Hn Hvs. revert fuel skip st. induction Hvs as [|[v o] vs [Hv Ho] _ IH]; intros fuel skip st Hskip Hf Hw; [discriminate|].
  destruct fuel as [|fuel]; [cbn in Hf; lia|]. cbn [length walk fst snd] in *. cbn [traverse_loop].
  set (tail := enc_entries (group (n, vs)) ++ rest) in *.
  replace (enc_entries (group (n, (v, o) :: vs)) ++ rest) with (enc_key n ++ enc_sym v ++ put_uvarint o ++ tail)
    by (unfold tail; cbn [group map fst snd enc_entries flat_map]; unfold enc_entry at 2; cbn [fst snd]; rewrite <- !app_assoc; reflexivity).
  erewrite em_bind_ret; [|reflexivity]. cbn [dE].
  assert (Hkey : (if skip =? 0
    then em_dec Uvarint ;== em_dec UvarintBytes ;== d' <== em_get ;; em_ret (DLen (mkDecbuf (enc_key n ++ enc_sym v ++ put_uvarint o ++ tail) None) - DLen d')
    else em_dec (Skip skip) ;== em_ret skip) (mkDecbuf (enc_key n ++ enc_sym v ++ put_uvarint o ++ tail) None)
    = Ret (inr (Z.of_nat (length (enc_key n)), mkDecbuf (enc_sym v ++ put_uvarint o ++ tail) None))).
  { destruct Hskip as [->| ->].
    - cbn [Z.eqb]. unfold enc_key at 2. rewrite <- app_assoc. em_go (em_dec_ok _ _ _ _ (uvarint_get 2 _ ltac:(unfold is_len; zlia))).
      em_go (em_dec_ok _ _ _ _ (sym_get n _ Hn)). unfold em_bind at 1. cbn [rbind rret]. unfold em_ret, rret, DLen. cbn [dB].
      unfold em_get. cbn [rbind rret dB]. rewrite (length_app (enc_key n)). unfold rret. do 3 f_equal. lia.
    - destruct (Z.eqb_spec (Z.of_nat (length (enc_key n))) 0) as [E0|_]; [unfold enc_key in E0; rewrite length_app in E0; pose proof (put_uvarint_length 2); lia|].
      em_go (em_dec_ok _ _ _ _ (Skip_app (enc_key n) _)). reflexivity. }
  erewrite em_bind_ret; [|exact Hkey]. em_go (em_dec_ok _ _ _ _ (sym_get v _ Hv)). em_go (em_dec_ok _ _ _ _ (uvarint64_get o _ Ho)).
  destruct (cb v o st) as [[e|[b st1]]|] eqn:Ecb; try discriminate. cbn [rbind fst snd rret] in Hw.
  unfold em_bind at 1, em_res at 1. cbn [rbind rret fst snd]. destruct b.
  - apply IH; [right; reflexivity|lia|exact Hw].
  - injection Hw as ->. eexists. split; [reflexivity|]. reflexivity.
Qed.

Lemma NewDecbufAt_unchecked bs off c : NewDecbufAt bs off true = mkDecbuf c None -> NewDecbufAt bs off false = mkDecbuf c None.
Proof.
  unfold NewDecbufAt. destruct (_ <? _)%nat; [discriminate|]. cbv zeta. destruct (_ <? _)%nat; [discriminate|].
  cbn [andb]. destruct (negb _); [discriminate|auto].
Qed.

Lemma decbuf_at_unchecked bs off c rest : Z.of_nat (length c) < 2 ^ 32 -> Z.of_nat (length bs) < 2 ^ 62 ->
  drop off bs = frame c ++ rest -> decbuf_at bs (Z.of_nat off) false = Ret (inr (mkDecbuf c None)).
Proof.
  intros Hc Hbs E. pose proof (decbuf_at_frame bs off c rest Hc Hbs E) as H. unfold decbuf_at in *.
  destruct (bad_offset (Z.of_nat off)); [discriminate|]. injection H as H. rewrite (NewDecbufAt_unchecked _ _ _ H). reflexivity.
Qed.

(** A table that holds the entries [E1], a group and [E2]. *)
Lemma traverse_group {St} (cb : bytes -> Z -> St -> res (bool * St)) r off E1 n vs E2 j st st' rest :
  t_PostingsTable (r_toc r) = Z.of_nat off -> Z.of_nat (length (r_b r)) < 2 ^ 62 ->
  drop off (r_b r) = frame (offset_table (E1 ++ group (n, vs) ++ E2)) ++ rest ->
  Z.of_nat (length (offset_table (E1 ++ group (n, vs) ++ E2))) < 2 ^ 32 -> wf_bytes n -> Forall wf_value vs ->
  walk cb (drop j vs) st = Ret (inr (false, st')) ->
  traversePostingOffsets r (po_off (po_at (4 + Z.of_nat (length (enc_entries E1))) n vs j)) cb st = Ret (inr st').
Proof.
  intros Et Hb Ed Hl Hn Hvs Hw. unfold traversePostingOffsets. rewrite Et.
  pose proof (f_equal length Ed) as El. rewrite length_drop, length_app in El. unfold frame in El. rewrite !length_app, !length_be_bytes in El.
  rewrite i64_id by (unfold is_i64; lia). rewrite (decbuf_at_unchecked _ _ _ _ Hl Hb Ed). cbn [rbind].
  assert (Hjl : (length (drop j vs) < S (length (r_b r)))%nat).
  { rewrite length_drop. pose proof (enc_entries_length (E1 ++ group (n, vs) ++ E2)) as He. unfold offset_table in El.
    rewrite !length_app in He, El. unfold group in He at 1. rewrite length_map in He. cbn [snd] in He. lia. }
  destruct (traverse_loop_ok cb (S (length (r_b r))) n (drop j vs) 0 st st' (enc_entries E2) Hn ltac:(apply Forall_drop, Hvs) (or_introl eq_refl) Hjl Hw)
    as (d & Eloop & Hd).
  set (head := be_bytes 4 (Z.of_nat (length (E1 ++ group (n, vs) ++ E2))) ++ enc_entries E1 ++ enc_entries (group (n, take j vs))).
  assert (Eb : offset_table (E1 ++ group (n, vs) ++ E2) = head ++ enc_entries (group (n, drop j vs)) ++ enc_entries E2).
  { unfold offset_table, head, enc_entries. rewrite !flat_map_app, <- !app_assoc. do 2 f_equal. rewrite app_assoc. f_equal.
    rewrite <- flat_map_app. unfold group. cbn [snd]. rewrite <- map_app, take_drop. reflexivity. }
  rewrite Eb. replace (po_off _) with (Z.of_nat (length head)).
  2: { unfold po_at, head. cbn [po_off]. rewrite !length_app, length_be_bytes. lia. }
  eapply run_on_ok. em_go (em_dec_ok _ _ _ _ (Skip_app head _)). erewrite em_bind_ret; [|exact Eloop]. em_go (check_err_ok d Hd). reflexivity.
Qed.
End walking.

(** ** The sections of a written file *)
Section sections.
Context {V : VarintLib} {VOK : VarintLibOK V}.

Lemma put_uvarint_short x : 0 <= x < 2 ^ 32 -> (length (put_uvarint x) <= 5)%nat.
Proof.
  intros Hx. unfold put_uvarint, MaxVarintLen64.
  assert (H : forall k f y, 0 <= y < 2 ^ (7 * Z.of_nat (S k)) -> (length (put_uvarint_fuel f y) <= S k)%nat).
  { induction k as [|k IH]; intros [|f] y Hy; cbn [put_uvarint_fuel length]; try lia; destruct (Z.ltb_spec y 128); cbn [length]; try lia.
    apply le_n_S, IH. rewrite Z.shiftr_div_pow2 by lia. split; [apply Z.div_pos; lia|]. apply Z.div_lt_upper_bound; [lia|].
    replace (7 * Z.of_nat (S (S k))) with (7 + 7 * Z.of_nat (S k)) in Hy by lia. rewrite Z.pow_add_r in Hy by lia. lia. }
  apply (H 4%nat). change (2 ^ (7 * Z.of_nat 5)) with (2 ^ 35). lia.
Qed.

Lemma NewDecbufUvarintAt_ok bs off c rest : Z.of_nat (length c) < 2 ^ 32 -> drop off bs = entry_bytes c ++ rest -> (5 <= length rest)%nat ->
  NewDecbufUvarintAt bs off = mkDecbuf c None.
Proof.
  intros Hc E Hrest. pose proof (put_uvarint_short (Z.of_nat (length c)) ltac:(lia)) as Hshort.
  unfold entry_bytes in E. rewrite <- !app_assoc in E. set (u := put_uvarint (Z.of_nat (length c))) in *.
  set (crc := be_bytes 4 (crc32_checksum c)) in *. assert (Hcrc : length crc = 4%nat) by apply length_be_bytes.
  pose proof (f_equal length E) as El. rewrite length_drop, !length_app in El.
  unfold NewDecbufUvarintAt, MaxVarintLen32. destruct (Nat.ltb_spec (length bs) (off + 5)); [lia|].
  assert (Es : slice bs off (off + 5) = u ++ take (5 - length u) (c ++ crc ++ rest)).
  { unfold slice. rewrite E. replace (off + 5 - off)%nat with 5%nat by lia. rewrite firstn_app, firstn_all2 by lia. reflexivity. }
  rewrite Es. unfold u at 1. rewrite varint_decodes by (unfold is_u64; lia). fold u.
  pose proof (put_uvarint_length (Z.of_nat (length c))) as Hu. fold u in Hu.
  destruct (Z.leb_spec (Z.of_nat (length u)) 0); [lia|]. destruct (Z.ltb_spec (Z.of_nat 5) (Z.of_nat (length u))); [lia|]. cbn [orb].
  cbv zeta. rewrite !Nat2Z.id. destruct (Nat.ltb_spec (length bs) (off + length u + length c + 4)); [lia|].
  pose proof (drop_app_shift _ _ _ _ E) as E2. rewrite app_assoc in E2.
  pose proof (slice_of_drop _ _ _ _ E2) as Hb. rewrite length_app, Hcrc, Nat.add_assoc in Hb. rewrite Hb, length_app, Hcrc.
  replace (length c + 4 - 4)%nat with (length c) by lia. rewrite take_app_length, drop_app_length. unfold DCrc32. cbn [dB].
  unfold crc. rewrite be_val_bytes, Z.mod_small by apply crc32_u32. rewrite Z.eqb_refl. reflexivity.
Qed.

Lemma series_area_drop p es i e : es !! i = Some e ->
  exists start rest, series_starts p es !! i = Some (p + start)%nat /\ drop start (series_area p es) = entry_bytes e ++ rest.
Proof.
  revert p i. induction es as [|e' es IH]; intros p i Hi; [discriminate|]. destruct i as [|i]; cbn [series_starts series_area] in *.
  - injection Hi as ->. exists (length (pad16 p)), (series_area (p + length (pad16 p) + length (entry_bytes e)) es). split; [reflexivity|].
    rewrite <- app_assoc, drop_app_length. reflexivity.
  - destruct (IH (p + length (pad16 p) + length (entry_bytes e'))%nat i Hi) as (start & rest & E1 & E2).
    exists (length (pad16 p ++ entry_bytes e') + start)%nat, rest. split.
    + etransitivity; [exact E1|]. rewrite length_app. f_equal. lia.
    + rewrite <- drop_drop, drop_app_length. exact E2.
Qed.

Lemma series_starts_align p es : Forall (fun s => s mod 16 = 0)%nat (series_starts p es).
Proof. revert p. induction es as [|e es IH]; intros p; cbn [series_starts]; constructor; [apply pad16_aligns|apply IH]. Qed.

(** The postings list at an offset of the file. *)
Definition list_at (f : bytes) (o : Z) (refs : list Z) : Prop :=
  exists o' rest, o = Z.of_nat o' /\ drop o' f = frame (enc_postings refs) ++ rest /\ Z.of_nat (length (enc_postings refs)) < 2 ^ 32.

Definition entry_at (f : bytes) (e : bytes * bytes * Z) (x : posting) : Prop := fst e = fst x /\ list_at f (snd e) (snd x).

Lemma postings_area_at f k p ps rest : Forall list_ok ps -> drop (k + p) f = postings_area p ps ++ rest ->
  Forall2 (entry_at f) (map (shift_entry k) (postings_entries p ps)) ps.
Proof.
  intros Hok. revert p. induction Hok as [|x ps [_ Hl] _ IH]; intros p E; cbn [postings_entries postings_area map] in *; constructor.
  - split; [reflexivity|]. unfold list_bytes in E. rewrite <- !app_assoc in E. exists (k + p + length (pad4 p))%nat. eexists.
    split; [cbn [shift_entry snd]; lia|]. split; [|exact Hl]. apply drop_app_shift in E. exact E.
  - apply IH. rewrite <- app_assoc in E. apply drop_app_shift in E. rewrite <- E. f_equal. lia.
Qed.

(** The groups of the table. *)
Definition value_at (f : bytes) (vo : bytes * Z) (x : posting) : Prop := fst vo = snd (fst x) /\ list_at f (snd vo) (snd x).
Definition group_at (f : bytes) (g : bytes * list (bytes * Z)) (l : bytes * list posting) : Prop :=
  fst g = fst l /\ Forall2 (value_at f) (snd g) (snd l).

Lemma groups_of f (L : list (bytes * list posting)) E : Forall2 (entry_at f) E (flat_map snd L) ->
  Forall (fun l => Forall (fun x : posting => fst (fst x) = fst l) (snd l)) L ->
  exists gs, E = flat_map group gs /\ Forall2 (group_at f) gs L.
Proof.
  intros HE HL. revert E HE. induction HL as [|[n ps] L Hn _ IH]; intros E HE; cbn [flat_map fst snd] in *.
  - apply Forall2_nil_inv_r in HE. subst E. exists []. split; [reflexivity|constructor].
  - apply Forall2_app_inv_r in HE. destruct HE as (E1 & E2 & H1 & H2 & ->). destruct (IH E2 H2) as (gs & -> & Hgs).
    exists ((n, map (fun e : bytes * bytes * Z => (snd (fst e), snd e)) E1) :: gs). split.
    + cbn [flat_map]. f_equal. unfold group. cbn [fst snd]. rewrite map_map. clear -H1 Hn.
      induction H1 as [|[[en ev] eo] x E1 ps [Ex _] _ IH]; cbn [map]; [reflexivity|]. apply Forall_cons_1 in Hn. destruct Hn as [Hx Hn].
      cbn [fst snd] in *. f_equal; [|apply IH, Hn]. rewrite <- Hx, <- Ex. reflexivity.
    + constructor; [|exact Hgs]. split; [reflexivity|]. cbn [fst snd]. clear -H1.
      induction H1 as [|e x E1 ps [Ex Hat] _ IH]; cbn [map]; constructor; [|exact IH]. split; [cbn [fst]; rewrite Ex; reflexivity|exact Hat].
Qed.
End sections.

(** ** The reader of a written file *)
Section opening.
Context {V : VarintLib} {VOK : VarintLibOK V}.

(** The reader finds the lists [l] for the values of the name [n]. *)
Definition has_values (r : Reader) (n : bytes) (l : list posting) : Prop := exists off rest E1 E2 vs,
  t_PostingsTable (r_toc r) = Z.of_nat off
  /\ drop off (r_b r) = frame (offset_table (E1 ++ group (n, vs) ++ E2)) ++ rest
  /\ Z.of_nat (length (offset_table (E1 ++ group (n, vs) ++ E2))) < 2 ^ 32
  /\ wf_bytes n /\ Forall wf_value vs /\ Forall2 (value_at (r_b r)) vs l
  /\ r_postings r !! n = Some (samples 0 (4 + Z.of_nat (length (enc_entries E1))) n vs) /\ vs <> [].

Definition value_lists (ss : list bytes) (items : list item) (n : bytes) : list posting := name_lists ss items n.

(** The reader [r] shows the symbols [ss] and the series [items]. *)
Record shows (ss : list bytes) (items : list item) (r : Reader) : Prop := {
  sh_version : r_version r = FormatV2;
  sh_len : in_limit (r_b r);
  sh_symbols : r_symbols r = opened (r_b r) FormatV2 5 ss /\ wf_symbols (r_b r) ss /\ symbols_in (r_b r) 5 ss;
  sh_lookup : forall s, s ∈ ss -> lookupSymbol r (sym_num ss s) = Ret (inr s);
  sh_names : forall n, is_Some (r_postings r !! n) <-> n = [] \/ n ∈ used_names ss items;
  sh_all : has_values r [] [([], [], map series_id (starts ss items))];
  sh_values : forall n, n ∈ used_names ss items -> has_values r n (name_lists ss items n);
  sh_series : forall i it, items !! i = Some it -> exists start rest, starts ss items !! i = Some start
    /\ drop start (r_b r) = entry_bytes (entry_of ss it) ++ rest /\ (5 <= length rest)%nat }.

Section input.
Variables (ss : list bytes) (items : list item).
Hypothesis Hin : index_input ss items.

(** The lists by label name. *)
Definition named_lists : list (bytes * list posting) :=
  ([], [([], [], map series_id (starts ss items))]) :: map (fun n => (n, name_lists ss items n)) (used_names ss items).

Lemma named_lists_all : flat_map snd named_lists = all_lists ss items.
Proof. unfold named_lists, all_lists. cbn [flat_map snd app]. f_equal. rewrite List.flat_map_concat_map, map_map, <- List.flat_map_concat_map. reflexivity. Qed.

Lemma named_lists_names : Forall (fun l => Forall (fun x : posting => fst (fst x) = fst l) (snd l)) named_lists.
Proof.
  constructor; [repeat constructor|]. apply Forall_fmap, Forall_forall. intros n _. apply Forall_fmap, Forall_forall. reflexivity.
Qed.

(** Series of the input with their numbers. *)
Definition ids : list Z := map series_id (starts ss items).

Lemma items_ok : Forall (item_ok ss) items.
Proof. destruct Hin as (_ & _ & Hf). eapply items_follow_ok, Hf. Qed.

Lemma label_of_item it l : it ∈ items -> l ∈ it_labels it -> Name l ∈ ss /\ Value l ∈ ss /\ Name l <> [].
Proof.
  intros Hit Hl. pose proof items_ok as H. rewrite Forall_forall in H. destruct (H it Hit) as (H1 & _ & H2 & _).
  rewrite Forall_forall in H1, H2. destruct (H2 l Hl), (H1 l Hl). auto.
Qed.

Lemma used_name n : n ∈ used_names ss items <-> exists it l, it ∈ items /\ l ∈ it_labels it /\ Name l = n.
Proof.
  unfold used_names. rewrite list_elem_of_filter. split.
  - intros [Hu _]. unfold uses in Hu. destruct (List.filter _ _) as [|l ls] eqn:E; [cbn in Hu; lia|].
    assert (Hl : In l (List.filter (fun l => bool_decide (Name l = n)) (flat_map it_labels items))) by (rewrite E; left; reflexivity).
    apply filter_In in Hl. destruct Hl as [Hl En]. apply bool_decide_eq_true in En. apply in_flat_map in Hl. destruct Hl as (it & Hit & Hl).
    exists it, l. split; [apply list_elem_of_In, Hit|]. split; [apply list_elem_of_In, Hl|exact En].
  - intros (it & l & Hit & Hl & <-). split; [|apply (label_of_item it l Hit Hl)]. unfold uses.
    assert (H : In l (List.filter (fun l' => bool_decide (Name l' = Name l)) (flat_map it_labels items))).
    { apply filter_In. split; [|apply bool_decide_eq_true; reflexivity]. apply in_flat_map. exists it. split; apply list_elem_of_In; assumption. }
    destruct (List.filter _ _); [destruct H|discriminate].
Qed.

Lemma used_name_facts n : n ∈ used_names ss items -> n ∈ ss /\ n <> [] /\ name_lists ss items n <> [].
Proof.
  intros Hn. split; [apply list_elem_of_filter in Hn; apply Hn|]. apply used_name in Hn. destruct Hn as (it & l & Hit & Hl & <-).
  destruct (label_of_item it l Hit Hl) as (_ & Hv & Hne). split; [exact Hne|].
  assert (Hr : refs_of ss items (Name l) (Value l) <> []).
  { unfold refs_of, nrefs, numbered_series. apply list_elem_of_lookup_1 in Hit. destruct Hit as [i Hi].
    assert (Hlen : (i < length (map series_id (starts ss items)))%nat).
    { unfold starts. rewrite length_map, series_starts_length, length_map. eapply lookup_lt_Some, Hi. }
    destruct (lookup_lt_is_Some_2 _ _ Hlen) as [x Hx].
    assert (Hz : (x, nlabels ss (it_labels it)) ∈ combine (map series_id (starts ss items)) (map (fun it => nlabels ss (it_labels it)) items)).
    { apply (list_elem_of_lookup_2 _ i). apply lookup_zip_Some. split; [exact Hx|]. rewrite list_lookup_fmap, Hi. reflexivity. }
    assert (Hf : (x, nlabels ss (it_labels it)) ∈ filter (fun x : Z * list (Z * Z) => (sym_num ss (Name l), sym_num ss (Value l)) ∈ snd x)
      (combine (map series_id (starts ss items)) (map (fun it => nlabels ss (it_labels it)) items))).
    { apply list_elem_of_filter. split; [|exact Hz]. cbn [snd]. apply list_elem_of_fmap. exists l. auto. }
    destruct (filter _ _); [apply not_elem_of_nil in Hf; destruct Hf|discriminate]. }
  unfold name_lists, values_of. assert (Hval : Value l ∈ filter (fun v => refs_of ss items (Name l) v <> []) ss)
    by (apply list_elem_of_filter; auto).
  destruct (filter _ _); [apply not_elem_of_nil in Hval; destruct Hval|discriminate].
Qed.

Lemma named_lists_nodup : NoDup (map fst named_lists) /\ Forall (fun l => snd l <> []) named_lists.
Proof.
  unfold named_lists. cbn [map fst]. rewrite map_map. cbn [fst]. rewrite map_id. split.
  - constructor; [|apply NoDup_filter, str_sorted_nodup, Hin]. intros H. apply used_name_facts in H. tauto.
  - constructor; [discriminate|]. apply Forall_fmap, Forall_forall. intros n Hn. apply used_name_facts, Hn.
Qed.
End input.

Section written_file.
Variables (ss : list bytes) (items : list item) (gap1 gap2 : bytes) (toc : TOC).
Hypothesis Hin : index_input ss items.
Abbreviation f := (file_of ss items gap1 gap2 toc).
Abbreviation pre := (front ss items ++ gap1).
Abbreviation table := (table_of ss items (length pre)).
Hypothesis Htoc : t_Symbols toc = 5 /\ t_Series toc = Z.of_nat (series_base ss) /\ t_LabelIndices toc = Z.of_nat (length (front ss items))
  /\ t_PostingsTable toc = Z.of_nat (length (pre ++ postings_area 0 (all_lists ss items) ++ gap2)) /\ Forall is_u64 (toc_fields toc).
Hypothesis Hlim : in_limit f.
Hypothesis Hsym : Z.of_nat (length (symbol_table ss)) < 2 ^ 32.
Hypothesis Htab : Z.of_nat (length table) < 2 ^ 32.
Hypothesis Hok : Forall list_ok (all_lists ss items).

Lemma file_small : Z.of_nat (length f) < 2 ^ 62.
Proof. unfold in_limit, fpos, MaxUint32 in Hlim. lia. Qed.

Lemma file_symbols : wf_symbols f ss /\ symbols_in f 5 ss.
Proof.
  destruct Hin as (_ & Hw & _). split; [split; [exact file_small|split; [exact Hsym|exact Hw]]|].
  exists (drop 5 (header ++ (series_area (series_base ss) (map (entry_of ss) items) ++ gap1)
    ++ postings_area 0 (all_lists ss items) ++ gap2 ++ frame table ++ enc_toc toc)).
  unfold file_of, front. cbv zeta. rewrite <- !app_assoc. change 5%nat with (length header). rewrite !drop_app_length. reflexivity.
Qed.

Lemma file_table : drop (length (pre ++ postings_area 0 (all_lists ss items) ++ gap2)) f = frame table ++ enc_toc toc.
Proof.
  unfold file_of. cbv zeta.
  replace (pre ++ postings_area 0 (all_lists ss items) ++ gap2 ++ frame table ++ enc_toc toc)
    with ((pre ++ postings_area 0 (all_lists ss items) ++ gap2) ++ frame table ++ enc_toc toc) by (rewrite <- !app_assoc; reflexivity).
  apply drop_app_length.
Qed.

Lemma toc_length : length (enc_toc toc) = 52%nat.
Proof. unfold enc_toc. rewrite length_app, length_be_bytes. reflexivity. Qed.

Lemma file_series i it : items !! i = Some it -> exists start rest, starts ss items !! i = Some start
    /\ drop start f = entry_bytes (entry_of ss it) ++ rest /\ (5 <= length rest)%nat.
Proof.
  intros Hi. destruct (series_area_drop (series_base ss) (map (entry_of ss) items) i (entry_of ss it)) as (start & rest & Es & Ed).
  { rewrite list_lookup_fmap, Hi. reflexivity. }
  set (tail := gap1 ++ postings_area 0 (all_lists ss items) ++ gap2 ++ frame table ++ enc_toc toc).
  exists (series_base ss + start)%nat, (rest ++ tail). split; [exact Es|]. split.
  - unfold file_of. cbv zeta. unfold tail. generalize (frame table) as tb. intros tb. clear tail. unfold front. rewrite <- !app_assoc, (app_assoc header). rewrite <- drop_drop.
    unfold series_base at 1. rewrite drop_app_length, skipn_app, Ed, <- app_assoc. do 2 f_equal.
    assert (Hle : (start <= length (series_area (series_base ss) (map (entry_of ss) items)))%nat).
    { apply Nat.lt_le_incl. apply (f_equal length) in Ed. rewrite length_drop, length_app, entry_bytes_length in Ed. lia. }
    replace (start - _)%nat with 0%nat by lia. reflexivity.
  - unfold tail. rewrite !length_app, toc_length. lia.
Qed.

Lemma file_lists : Forall2 (entry_at f) (map (shift_entry (length pre)) (postings_entries 0 (all_lists ss items))) (all_lists ss items).
Proof.
  apply (postings_area_at _ _ _ _ (gap2 ++ frame table ++ enc_toc toc)); [exact Hok|]. rewrite Nat.add_0_r.
  unfold file_of. cbv zeta. apply drop_app_length.
Qed.

(** *** Opening it *)
Lemma ReverseLookup_num s : s ∈ ss -> ReverseLookup (opened f FormatV2 5 ss) s = Ret (inr (sym_num ss s)).
Proof.
  intros Hs. destruct file_symbols as [Hwf Hsy]. apply list_elem_of_lookup_1 in Hs. destruct Hs as [i Hi].
  rewrite (sym_num_lookup ss i s (proj1 Hin) Hi). apply ReverseLookup_ok; [discriminate|exact Hwf|exact Hsy|apply Hin|exact Hi].
Qed.

Lemma name_symbols_of_ok names m : Forall (fun n => n = [] \/ n ∈ ss) names ->
  exists m', name_symbols_of (opened f FormatV2 5 ss) names m = Ret (inr m')
    /\ forall o s, m' !! o = Some s -> m !! o = Some s \/ (s ∈ ss /\ o = sym_num ss s).
Proof.
  intros Hn. revert m. induction Hn as [|n names Hn _ IH]; intros m; cbn [name_symbols_of].
  - exists m. split; [reflexivity|auto].
  - destruct (Nat.eqb_spec (length n) 0) as [E0|E0]; [apply IH|]. destruct Hn as [->|Hn]; [destruct (E0 eq_refl)|].
    rewrite (ReverseLookup_num n Hn). cbn [rbind]. destruct (IH (<[sym_num ss n := n]> m)) as (m' & E & Hm'). exists m'. split; [exact E|].
    intros o s Hs. destruct (Hm' o s Hs) as [H|H]; [|auto]. destruct (decide (o = sym_num ss n)) as [->|Hne].
    + rewrite lookup_insert_eq in H. injection H as <-. auto.
    + rewrite lookup_insert_ne in H by congruence. auto.
Qed.

Lemma header_magic rest : be_val (slice (header ++ rest) 0 4) = MagicIndex /\ nth 4 (header ++ rest) 0 = FormatV2
  /\ (length (header ++ rest) <? HeaderLen)%nat = false.
Proof. split; [reflexivity|]. split; reflexivity. Qed.

Lemma file_toc : NewTOCFromByteSlice f = Ret (inr toc).
Proof.
  replace f with ((pre ++ postings_area 0 (all_lists ss items) ++ gap2 ++ frame table) ++ enc_toc toc).
  - apply NewTOC_ok, Htoc.
  - unfold file_of. cbv zeta. generalize (frame table) as tb. intros tb. rewrite <- !app_assoc. reflexivity.
Qed.

Lemma file_header : exists rest, f = header ++ rest.
Proof. unfold file_of, front. cbv zeta. rewrite <- !app_assoc. eauto. Qed.

Lemma file_groups : exists gs, map (shift_entry (length pre)) (postings_entries 0 (all_lists ss items)) = flat_map group gs
  /\ Forall2 (group_at f) gs (named_lists ss items).
Proof. apply groups_of; [rewrite (named_lists_all ss items); exact file_lists|apply named_lists_names]. Qed.

Lemma area_limit : in_limit (postings_area 0 (all_lists ss items)) /\ small (length pre).
Proof. unfold in_limit, small, fpos, file_of in *. cbv zeta in Hlim. rewrite !length_app in Hlim. rewrite !length_app. lia. Qed.

Lemma groups_keys gs : Forall2 (group_at f) gs (named_lists ss items) ->
  map fst gs = map fst (named_lists ss items) /\ Forall (fun g : bytes * list (bytes * Z) => snd g <> []) gs.
Proof.
  intros H. pose proof (proj2 (named_lists_nodup ss items Hin)) as Hne. induction H as [|g l gs L [E1 E2] _ IH]; [split; constructor|].
  apply Forall_cons_1 in Hne. destruct Hne as [Hne1 Hne]. destruct (IH Hne) as [IH1 IH2]. split.
  - cbn [map]. f_equal; assumption.
  - constructor; [|exact IH2]. intros E. rewrite E in E2. apply Forall2_nil_inv_l in E2. contradiction.
Qed.

(** A group of the table is what the reader sees of a name. *)
Lemma group_values gs names r n l : Forall2 (group_at f) gs (named_lists ss items) -> flat_map group gs = map (shift_entry (length pre)) (postings_entries 0 (all_lists ss items)) ->
  r = mkReader f toc (kept 4 gs ∅) ∅ (opened f FormatV2 5 ss) names FormatV2 -> (n, l) ∈ (named_lists ss items) -> has_values r n l.
Proof.
  intros Hgs Eg -> Hl. apply list_elem_of_split in Hl. destruct Hl as (L1 & L2 & EL). pose proof Hgs as Hsplit. rewrite EL in Hsplit.
  apply Forall2_app_inv_r in Hsplit. destruct Hsplit as (gs1 & gs' & H1 & H' & ->). apply Forall2_cons_inv_r in H'.
  destruct H' as ([n' vs] & gs2 & [En Hvs] & H2 & ->). cbn [fst snd] in En, Hvs. subst n'.
  destruct (groups_keys _ Hgs) as [Hkeys Hne]. pose proof (proj1 (named_lists_nodup ss items Hin)) as Hnd. rewrite <- Hkeys in Hnd.
  destruct area_limit as [Ha Hs]. pose proof (entries_wf (length pre) _ Hok Ha Hs) as Hwf. rewrite <- Eg, flat_map_app in Hwf.
  cbn [flat_map] in Hwf. apply Forall_app in Hwf. destruct Hwf as [_ Hwf]. apply Forall_app in Hwf. destruct Hwf as [Hwf _].
  apply Forall_app in Hne. destruct Hne as [_ Hne]. apply Forall_cons_1 in Hne. destruct Hne as [Hne _]. cbn [snd] in Hne.
  destruct Htoc as (_ & _ & _ & Hpt & _).
  exists (length (pre ++ postings_area 0 (all_lists ss items) ++ gap2)), (enc_toc toc), (flat_map group gs1), (flat_map group gs2), vs.
  cbn [r_toc r_b r_postings]. rewrite flat_map_app in Eg. cbn [flat_map] in Eg.
  split; [exact Hpt|]. split; [rewrite Eg; exact file_table|]. split; [rewrite Eg; exact Htab|].
  apply (Forall_fmap (fun x : bytes * Z => (n, fst x, snd x))) in Hwf. assert (Hw2 : Forall (fun x : bytes * Z => wf_bytes n /\ wf_value x) vs).
  { eapply Forall_impl; [exact Hwf|]. intros [v o] (Hn' & Hv & Ho). cbn in *. split; [exact Hn'|split; assumption]. }
  split; [destruct Hw2 as [|? ? [? _] _]; [contradiction|assumption]|]. split; [eapply Forall_impl; [exact Hw2|]; intros x Hx; apply Hx|].
  split; [exact Hvs|]. split; [|exact Hne]. apply kept_group, Hnd.
Qed.

Theorem newReader_ok : exists r, newReader f = Ret (inr r) /\ shows ss items r /\ r_b r = f.
Proof.
  destruct file_groups as (gs & Eg & Hgs). destruct (groups_keys gs Hgs) as [Hkeys Hne]. destruct file_symbols as [Hwf Hsy].
  destruct (sample_groups gs 4 (mkSampler ∅ None 0 0) Hne) as (s & Es & Ea); [rewrite Hkeys; apply (named_lists_nodup ss items Hin)| |exact I|].
  { apply Forall_forall. intros g _. apply lookup_empty. }
  cbn [append_last sm_last sm_postings] in Ea. destruct area_limit as [Ha Hs].
  assert (Hdom : forall n, is_Some (kept 4 gs ∅ !! n) <-> n = [] \/ n ∈ used_names ss items).
  { intros n. assert (Hk : n ∈ map fst gs <-> n = [] \/ n ∈ used_names ss items).
    { rewrite Hkeys. unfold named_lists. cbn [map fst]. rewrite map_map. cbn [fst]. rewrite map_id. apply elem_of_cons. }
    rewrite <- Hk. destruct (decide (n ∈ map fst gs)) as [Hn|Hn]; [|rewrite kept_other by exact Hn; rewrite lookup_empty; split; [intros [? H]; discriminate|contradiction]].
    split; [auto|]. intros _. pose proof Hn as Hn'. apply list_elem_of_fmap in Hn'. destruct Hn' as ([m vs] & -> & Hg). apply list_elem_of_split in Hg.
    destruct Hg as (gs1 & gs2 & ->). rewrite kept_group; [eauto|]. rewrite Hkeys. apply (named_lists_nodup ss items Hin). }
  destruct (name_symbols_of_ok (map fst (map_to_list (kept 4 gs ∅))) ∅) as (names & En & Hnames).
  { apply Forall_forall. intros n Hn. apply list_elem_of_fmap in Hn. destruct Hn as ([k e] & -> & Hk). apply elem_of_map_to_list in Hk.
    destruct (proj1 (Hdom k) (mk_is_Some _ _ Hk)) as [->|Hu]; [left; reflexivity|right]. apply (used_name_facts ss items Hin), Hu. }
  set (r := mkReader f toc (kept 4 gs ∅) ∅ (opened f FormatV2 5 ss) names FormatV2). exists r. split; [|split; [|reflexivity]].
  - unfold newReader. destruct file_header as [rest Eh]. destruct (header_magic rest) as (M1 & M2 & M3). rewrite <- Eh in M1, M2, M3.
    rewrite M1, M2, M3. cbn [negb orb Z.eqb Pos.eqb MagicIndex FormatV1 FormatV2 FormatV3].
    rewrite file_toc. cbn [rbind]. destruct Htoc as (Et & _ & _ & Hpt & _). rewrite Et. change (i64 5) with (Z.of_nat 5).
    rewrite (NewSymbols_ok f FormatV2 5 ss Hwf Hsy). cbn [rbind].
    rewrite Hpt, (ReadPostingsOffsetTable_ok f _ _ sample_entry _ (enc_toc toc) file_small Htab (entries_wf _ _ Hok Ha Hs) file_table).
    rewrite Eg, Es. cbn [rbind rret]. rewrite Ea, En. cbn [rbind]. reflexivity.
  - split.
    + reflexivity.
    + exact Hlim.
    + split; [reflexivity|]. split; [exact Hwf|exact Hsy].
    + intros x Hx. unfold lookupSymbol. cbn [r_nameSymbols r r_symbols]. destruct (names !! sym_num ss x) as [y|] eqn:Ey.
      * destruct (Hnames _ _ Ey) as [H|[Hy E]]; [rewrite lookup_empty in H; discriminate|].
        apply (sym_num_inj ss) in E; [subst y; reflexivity|apply Hin|exact Hx|exact Hy].
      * apply list_elem_of_lookup_1 in Hx. destruct Hx as [i Hi]. rewrite (sym_num_lookup ss i x (proj1 Hin) Hi).
        apply Lookup_ok; [discriminate|exact Hwf|exact Hsy|exact Hi].
    + exact Hdom.
    + eapply group_values; [exact Hgs|symmetry; exact Eg|reflexivity|left].
    + intros n Hn. eapply group_values; [exact Hgs|symmetry; exact Eg|reflexivity|]. right. apply list_elem_of_fmap. eauto.
    + exact file_series.
Qed.
End written_file.
End opening.
