(* ===== verification/IndexQuery.v ===== *)
(** * The index file: queries [tsdb/index/index.go]

    What the methods of a [Reader] answer on a file of the [Writer]: the series
    by their numbers, the names and values of labels, and for a name and values
    exactly the series that have one of these labels. *)

From stdpp Require Import base list numbers gmap sorting.
From Stdlib Require Import ZArith Lia Sorting.Sorted.
From S2P Require Import Prelude Encoding Labels Postings Index IndexWriter IndexClose IndexReader IndexFile.

Section queries.
Context {V : VarintLib} {VOK : VarintLibOK V}.
Variables (ss : list bytes) (items : list item) (r : Reader).
Hypothesis Hin : index_input ss items.
Hypothesis Hr : shows ss items r.

(** ** Series *)
Lemma series_offset_ok start : (start mod 16 = 0)%nat -> small start -> series_offset r (series_id start) = Z.of_nat start.
Proof.
  intros Ha Hs. unfold series_offset, series_id, seriesByteAlign. rewrite (sh_version _ _ _ Hr). cbn [Z.eqb Pos.eqb FormatV1 FormatV2].
  unfold small, MaxUint32 in Hs. replace (Z.of_nat (start / 16) * 16) with (Z.of_nat start).
  - rewrite u64_id by (unfold is_u64; lia). apply i64_id. unfold is_i64. lia.
  - change 16 with (Z.of_nat 16). rewrite <- Nat2Z.inj_mul. f_equal. pose proof (Nat.div_mod start 16 ltac:(lia)). lia.
Qed.

Lemma series_at i it : items !! i = Some it -> exists start, starts ss items !! i = Some start
  /\ decbuf_uvarint_at (r_b r) (series_offset r (series_id start)) = Ret (inr (mkDecbuf (entry_of ss it) None)).
Proof.
  intros Hi. destruct (sh_series _ _ _ Hr i it Hi) as (start & rest & Es & Ed & Hrest). exists start. split; [exact Es|].
  pose proof (series_starts_align (series_base ss) (map (entry_of ss) items)) as Hal. rewrite Forall_lookup in Hal. specialize (Hal i start Es).
  pose proof (f_equal length Ed) as El. rewrite length_drop, length_app, entry_bytes_length in El.
  pose proof (sh_len _ _ _ Hr) as Hl. unfold in_limit, fpos, MaxUint32 in Hl.
  rewrite series_offset_ok by (try exact Hal; unfold small, MaxUint32; lia). unfold decbuf_uvarint_at, bad_offset.
  destruct (Z.ltb_spec (Z.of_nat start) 0); [lia|]. destruct (Z.ltb_spec (MaxInt64 - 5) (Z.of_nat start)); [zlia|]. cbn [orb].
  rewrite Nat2Z.id. unfold rret. do 2 f_equal. apply (NewDecbufUvarintAt_ok _ _ _ rest); [|exact Ed|exact Hrest].
  pose proof (items_ok ss items Hin) as Hok. rewrite Forall_lookup in Hok. apply (Hok i it Hi).
Qed.

Lemma labels_known it : it ∈ items -> Forall (knows_label (lookupSymbol r) (sym_num ss)) (it_labels it).
Proof.
  intros Hit. pose proof (items_ok ss items Hin) as Hok. rewrite Forall_forall in Hok. destruct (Hok it Hit) as (_ & _ & Hs & _).
  eapply Forall_impl; [exact Hs|]. destruct (sh_symbols _ _ _ Hr) as (_ & (_ & Hl & _) & _).
  assert (Hfew : Z.of_nat (length ss) < 2 ^ 32).
  { unfold symbol_table in Hl. rewrite length_app in Hl. pose proof (enc_syms_length ss). lia. }
  intros l [Hn Hv]. split; (split; [apply sym_num_u32; [apply Hin|exact Hfew|assumption]|apply (sh_lookup _ _ _ Hr); assumption]).
Qed.

Lemma entry_small it : it ∈ items -> Z.of_nat (length (entry_of ss it)) <= MaxInt64 /\ Forall wf_meta (it_chunks it).
Proof.
  intros Hit. pose proof (items_ok ss items Hin) as Hok. rewrite Forall_forall in Hok. destruct (Hok it Hit) as (_ & _ & _ & Hc & Hl).
  split; [zlia|exact Hc].
Qed.

Lemma Reader_Series_ok i it builder want : items !! i = Some it -> exists id, ids ss items !! i = Some id
  /\ Reader_Series r id builder want = Ret (inr (mkScratch (it_labels it) [], if want then it_chunks it else [])).
Proof.
  intros Hi. destruct (series_at i it Hi) as (start & Es & Ed). exists (series_id start). unfold ids. rewrite list_lookup_fmap, Es.
  split; [reflexivity|]. unfold Reader_Series. rewrite Ed. cbn [rbind dE dB].
  pose proof (list_elem_of_lookup_2 _ _ _ Hi) as Hit. destruct (entry_small it Hit) as [Hl Hc].
  apply Decoder_Series_ok; [apply labels_known, Hit|exact Hc|exact Hl].
Qed.

Lemma Reader_LabelValueFor_ok i it label : items !! i = Some it -> exists id, ids ss items !! i = Some id
  /\ Reader_LabelValueFor r id label
     = match find_label label (it_labels it) with Some (x :: v) => Ret (inr (x :: v)) | _ => Ret (inl ENotFound) end.
Proof.
  intros Hi. destruct (series_at i it Hi) as (start & Es & Ed). exists (series_id start). unfold ids. rewrite list_lookup_fmap, Es.
  split; [reflexivity|]. unfold Reader_LabelValueFor. rewrite Ed. cbn [rbind dE dB].
  pose proof (list_elem_of_lookup_2 _ _ _ Hi) as Hit. destruct (entry_small it Hit) as [Hl Hc]. unfold entry_of at 1.
  rewrite LabelValueFor_ok by (try apply labels_known, Hit; exact Hl). destruct (find_label label (it_labels it)) as [[|x v]|]; reflexivity.
Qed.

(** ** Names and values *)

Lemma LabelNames_ok : LabelNames r = used_names ss items.
Proof.
  unfold LabelNames. apply sort_filter; [apply Hin|apply NoDup_filter, NoDup_fst_map_to_list|].
  intros n. fold (used_names ss items). rewrite list_elem_of_filter, list_elem_of_fmap. split.
  * intros [Hn ([k e] & -> & Hk)]. apply elem_of_map_to_list in Hk. destruct (proj1 (sh_names _ _ _ Hr k) (mk_is_Some _ _ Hk)); [contradiction|assumption].
  * intros Hn. split; [apply (used_name_facts ss items Hin n Hn)|]. destruct (proj2 (sh_names _ _ _ Hr n) (or_intror Hn)) as [e He].
    exists (n, e). split; [reflexivity|]. apply elem_of_map_to_list, He.
Qed.

(** *** The series with a label *)
Definition with_label (n v : bytes) : list Z :=
  map fst (filter (fun x : Z * item => mkLabel n v ∈ it_labels (snd x)) (combine (ids ss items) items)).
Definition label_values (n : bytes) : list bytes := filter (fun v => with_label n v <> []) ss.

Lemma refs_with_label n v : n ∈ ss -> v ∈ ss -> refs_of ss items n v = with_label n v.
Proof.
  intros Hn Hv. unfold refs_of, nrefs, numbered_series, with_label, ids. generalize (map series_id (starts ss items)) as l.
  pose proof (items_ok ss items Hin) as Hok. pose proof (proj1 Hin) as Hsorted. clear Hr Hin.
  induction Hok as [|it its (_ & _ & Hs & _) _ IH]; intros l; destruct l as [|x l]; try reflexivity.
  cbn [map combine]. rewrite !filter_cons. cbn [snd].
  destruct (decide ((sym_num ss n, sym_num ss v) ∈ nlabels ss (it_labels it))) as [H|H], (decide (mkLabel n v ∈ it_labels it)) as [H'|H'];
    cbn [map]; [f_equal; apply IH| | |apply IH]; exfalso.
  - apply H'. apply list_elem_of_fmap in H. destruct H as (m & E & Hm). injection E as En Ev. rewrite Forall_forall in Hs. destruct (Hs m Hm).
    apply sym_num_inj in En, Ev; try assumption. destruct m. cbn in *. subst. exact Hm.
  - apply H. apply list_elem_of_fmap. exists (mkLabel n v). auto.
Qed.

Lemma with_label_used n v : with_label n v <> [] -> n ∈ used_names ss items /\ v ∈ ss.
Proof.
  intros H. unfold with_label in H. destruct (filter _ _) as [|x xs] eqn:E; [contradiction|].
  assert (Hx : x ∈ filter (fun x : Z * item => mkLabel n v ∈ it_labels (snd x)) (combine (ids ss items) items)) by (rewrite E; left).
  apply list_elem_of_filter in Hx. destruct Hx as [Hl Hx]. destruct x as [i it]. apply elem_of_zip_r in Hx. cbn [snd] in Hl.
  destruct (label_of_item ss items Hin it _ Hx Hl) as (_ & Hv & _). split; [|exact Hv]. apply (used_name ss items Hin). exists it, (mkLabel n v). auto.
Qed.

Lemma list_filter_iff_elem {A} (P Q : A -> Prop) `{!forall x, Decision (P x), !forall x, Decision (Q x)} (l : list A) :
  (forall x, x ∈ l -> P x <-> Q x) -> filter P l = filter Q l.
Proof.
  induction l as [|x l IH]; intros HPQ; [reflexivity|]. rewrite !filter_cons, IH by (intros y Hy; apply HPQ; right; exact Hy).
  pose proof (HPQ x ltac:(left)). destruct (decide (P x)), (decide (Q x)); tauto.
Qed.

Lemma values_of_label n : n ∈ ss -> values_of ss items n = label_values n.
Proof.
  intros Hn. unfold values_of, label_values. apply list_filter_iff_elem. intros v Hv. rewrite (refs_with_label n v Hn Hv). reflexivity.
Qed.

Lemma label_values_unused n : n ∉ used_names ss items -> label_values n = [].
Proof.
  intros Hn. unfold label_values. destruct (filter _ _) as [|v vs] eqn:E; [reflexivity|]. exfalso. apply Hn.
  assert (Hv : v ∈ filter (fun v => with_label n v <> []) ss) by (rewrite E; left). apply list_elem_of_filter in Hv. apply (with_label_used n v), Hv.
Qed.

Lemma lists_with_label n : n ∈ ss -> name_lists ss items n = map (fun v => (n, v, with_label n v)) (label_values n).
Proof.
  intros Hn. unfold name_lists. rewrite (values_of_label n Hn). apply map_ext_in. intros v Hv. apply list_elem_of_In, list_elem_of_filter in Hv.
  rewrite (refs_with_label n v Hn); [reflexivity|apply Hv].
Qed.

(** What a query needs to know of a name. *)
Record known_name (n : bytes) (l : list posting) (vs : list (bytes * Z)) (e : list postingOffset) (pos : Z) : Prop := {
  kn_postings : r_postings r !! n = Some e;
  kn_samples : exists js, e = map (po_at pos n vs) js /\ StronglySorted lt js
    /\ (exists js', js = 0%nat :: js') /\ (exists js', js = js' ++ [(length vs - 1)%nat]);
  kn_values : Forall2 (value_at (r_b r)) vs l;
  kn_some : vs <> [];
  kn_traverse : forall St (cb : bytes -> Z -> St -> res (bool * St)) j st st', walk cb (drop j vs) st = Ret (inr (false, st')) ->
    traversePostingOffsets r (po_off (po_at pos n vs j)) cb st = Ret (inr st') }.

Lemma has_values_known n l : has_values r n l -> exists vs e pos, known_name n l vs e pos.
Proof.
  intros (off & rest & E1 & E2 & vs & Et & Ed & Hl & Hn & Hw & Hvs & Ee & Hne). pose proof (sh_len _ _ _ Hr) as Hlen. unfold in_limit, fpos, MaxUint32 in Hlen.
  exists vs, (samples 0 (4 + Z.of_nat (length (enc_entries E1))) n vs), (4 + Z.of_nat (length (enc_entries E1))). split; try assumption.
  - destruct (samples_spec 0 (4 + Z.of_nat (length (enc_entries E1))) n vs Hne) as (js & E & Hs & H0 & Hlast). exists js. auto.
  - intros St cb j st st' Hwalk. apply (traverse_group cb r off E1 n vs E2 j st st' rest); try assumption. lia.
Qed.

Lemma value_names (vs : list (bytes * Z)) (l : list posting) : Forall2 (value_at (r_b r)) vs l -> map fst vs = map (fun x : posting => snd (fst x)) l.
Proof. induction 1 as [|vo x vs l [E _] _ IH]; cbn [map]; [reflexivity|]. f_equal; assumption. Qed.

Lemma nth_fst (vs : list (bytes * Z)) j : fst (nth j vs ([], 0)) = nth j (map fst vs) [].
Proof. symmetry. apply (map_nth fst vs ([], 0) j). Qed.

(** The first and the last kept value. *)
Lemma known_ends n l vs e pos : known_name n l vs e pos -> exists e0 es lst, e = e0 :: es /\ po_off e0 = po_off (po_at pos n vs 0)
  /\ po_value e0 = nth 0 (map fst vs) [] /\ last e = Some lst /\ po_value lst = nth (length vs - 1) (map fst vs) [].
Proof.
  intros Hk. destruct (kn_samples _ _ _ _ _ Hk) as (js & -> & _ & [js1 E1] & [js2 E2]).
  exists (po_at pos n vs 0), (map (po_at pos n vs) js1), (po_at pos n vs (length vs - 1)). split; [rewrite E1; reflexivity|].
  split; [reflexivity|]. split; [apply nth_fst|]. split; [rewrite E2, map_app; apply last_snoc|apply nth_fst].
Qed.

Lemma last_not_head (v : bytes) (x : bytes * Z) vs : NoDup (v :: map fst (x :: vs)) ->
  str_eqb v (nth (length (x :: vs)) (v :: map fst (x :: vs)) []) = false.
Proof.
  intros Hnd. apply NoDup_cons in Hnd. destruct Hnd as [Hv _]. apply not_true_is_false. intros E. apply str_eqb_spec in E. apply Hv.
  rewrite E. cbn [length nth]. apply list_elem_of_In, nth_In. rewrite length_map. cbn [length]. lia.
Qed.

Definition limited {A} (limit : Z) (l : list A) : list A := if 0 <? limit then take (Z.to_nat limit) l else l.

Lemma walk_values limit vs acc : vs <> [] -> NoDup (map fst vs) -> (0 < limit -> Z.of_nat (length acc) <= limit) ->
  walk (collect_value limit (nth (length vs - 1) (map fst vs) [])) vs acc = Ret (inr (false, limited limit (acc ++ map fst vs))).
Proof.
  intros Hne. revert acc. induction vs as [|[v o] vs IH]; intros acc Hnd Hlim; [contradiction|]. clear Hne.
  cbn [length]. rewrite Nat.sub_succ, Nat.sub_0_r. cbn [walk fst snd map]. unfold collect_value at 1.
  destruct (hit_limit limit acc) eqn:Ehit; unfold hit_limit in Ehit; cbn [rbind rret fst snd].
  { apply andb_true_iff in Ehit. destruct Ehit as [E1 E2]. unfold limited. rewrite E1. apply Z.ltb_lt in E1. apply Z.leb_le in E2.
    unfold rret. do 3 f_equal. rewrite take_app_le by lia. symmetry. apply firstn_all2. specialize (Hlim E1). lia. }
  assert (Hlt : 0 < limit -> Z.of_nat (length (acc ++ [v])) <= limit).
  { intros H0. rewrite (proj2 (Z.ltb_lt 0 limit) H0) in Ehit. apply Z.leb_gt in Ehit. rewrite length_app. cbn [length]. lia. }
  destruct vs as [|y vs].
  - cbn [length nth map]. rewrite (proj2 (str_eqb_spec v v) eq_refl). cbn [negb rbind rret fst snd]. unfold rret. do 3 f_equal.
    unfold limited. destruct (Z.ltb_spec 0 limit) as [H0|]; [|reflexivity]. symmetry. apply firstn_all2. specialize (Hlt H0). lia.
  - rewrite (last_not_head v y vs Hnd). cbn [negb rbind rret fst snd]. apply NoDup_cons in Hnd. destruct Hnd as [_ Hnd].
    replace (nth (length (y :: vs)) _ _) with (nth (length (y :: vs) - 1) (map fst (y :: vs)) []) by (cbn [length nth]; rewrite Nat.sub_succ, Nat.sub_0_r; reflexivity).
    rewrite (IH ltac:(discriminate) (acc ++ [v]) Hnd Hlt), <- app_assoc. reflexivity.
Qed.

Lemma values_nodup n : NoDup (label_values n).
Proof. apply NoDup_filter, str_sorted_nodup, Hin. Qed.

Lemma used_in_symbols n : n ∈ used_names ss items -> n ∈ ss.
Proof. intros H. apply list_elem_of_filter in H. apply H. Qed.

Lemma name_values n : n ∈ used_names ss items -> map (fun x : posting => snd (fst x)) (name_lists ss items n) = label_values n.
Proof. intros Hu. rewrite (lists_with_label n (used_in_symbols n Hu)), map_map. apply map_id. Qed.

(** The values of a name, at most as many as the hints allow. *)
Lemma LabelValues_ok range_map n limit : n <> [] -> LabelValues range_map r n limit = Ret (inr (limited limit (label_values n))).
Proof.
  intros Hn. unfold LabelValues. rewrite (sh_version _ _ _ Hr). cbn [Z.eqb Pos.eqb FormatV1 FormatV2].
  destruct (decide (n ∈ used_names ss items)) as [Hu|Hu].
  - destruct (has_values_known n _ (sh_values _ _ _ Hr n Hu)) as (vs & e & pos & Hk). rewrite (kn_postings _ _ _ _ _ Hk).
    destruct (known_ends n _ vs e pos Hk) as (e0 & es & lst & -> & E0 & _ & -> & Elst). rewrite E0, Elst.
    pose proof (value_names _ _ (kn_values _ _ _ _ _ Hk)) as Evs. rewrite (name_values n Hu) in Evs.
    rewrite (kn_traverse _ _ _ _ _ Hk _ _ 0 [] (limited limit (label_values n))); [reflexivity|]. rewrite drop_0, walk_values; [rewrite Evs; reflexivity|apply (kn_some _ _ _ _ _ Hk)|rewrite Evs; apply values_nodup|cbn; lia].
  - destruct (r_postings r !! n) as [e|] eqn:Ee.
    { destruct (proj1 (sh_names _ _ _ Hr n) (mk_is_Some _ _ Ee)); contradiction. }
    replace (label_values n) with (@nil bytes); [unfold limited; destruct (0 <? limit); [rewrite take_nil|]; reflexivity|].
    symmetry. apply label_values_unused, Hu.
Qed.

(** ** Postings *)

(** The iterator over a postings list of the file. *)
Definition iterator (refs : list Z) : bigEndianPostings := newBigEndianPostings (be_encode refs).

Lemma postings_at_ok o refs : list_at (r_b r) o refs -> postings_at r o = Ret (inr (iterator refs)).
Proof.
  intros (o' & rest & -> & Ed & Hl). unfold postings_at. pose proof (sh_len _ _ _ Hr) as Hlen. unfold in_limit, fpos, MaxUint32 in Hlen.
  pose proof (f_equal length Ed) as El. rewrite length_drop, length_app in El. unfold frame in El. rewrite !length_app, !length_be_bytes in El.
  rewrite i64_id by (unfold is_i64; lia). rewrite (decbuf_at_frame (r_b r) _ _ _ Hl ltac:(lia) Ed). cbn [rbind].
  destruct (DecodePostingsRaw_ok refs Hl) as [d E]. rewrite (run_on_ok _ _ _ _ E). reflexivity.
Qed.

Lemma walk_postings m vs l acc : Forall2 (value_at (r_b r)) vs l -> vs <> [] -> NoDup (map fst vs) ->
  walk (collect_postings r m (nth (length vs - 1) (map fst vs) [])) vs acc
  = Ret (inr (false, acc ++ map (fun x : posting => iterator (snd x)) (List.filter (fun x : posting => wanted m (snd (fst x))) l))).
Proof.
  intros Hv. revert acc. induction Hv as [|[v o] x vs l [Ev Hat] Hv IH]; intros acc Hne Hnd; [contradiction|]. clear Hne. cbn [fst snd] in Ev, Hat.
  cbn [length]. rewrite Nat.sub_succ, Nat.sub_0_r. cbn [walk fst snd map List.filter]. unfold collect_postings at 1. fold (wanted m v).
  set (its := if wanted m v then acc ++ [iterator (snd x)] else acc).
  replace (if wanted m v then p <~ postings_at r o ;; rret (acc ++ [p]) else rret acc) with (@Ret (index_error + list bigEndianPostings) (inr its)).
  2: { unfold its. destruct (wanted m v); [rewrite (postings_at_ok _ _ Hat)|]; reflexivity. }
  cbn [rbind fst snd rret]. rewrite <- Ev.
  replace (acc ++ map _ (if wanted m v then x :: _ else _)) with (its ++ map (fun x : posting => iterator (snd x))
    (List.filter (fun x : posting => wanted m (snd (fst x))) l)) by (unfold its; destruct (wanted m v); [rewrite <- app_assoc|]; reflexivity).
  destruct vs as [|y vs].
  - apply Forall2_nil_inv_l in Hv. subst l. cbn [length nth map]. rewrite (proj2 (str_eqb_spec v v) eq_refl). cbn. rewrite app_nil_r. reflexivity.
  - rewrite (last_not_head v y vs Hnd). cbn [negb fst snd]. apply NoDup_cons in Hnd. destruct Hnd as [_ Hnd].
    replace (nth (length (y :: vs)) _ _) with (nth (length (y :: vs) - 1) (map fst (y :: vs)) []) by (cbn [length nth]; rewrite Nat.sub_succ, Nat.sub_0_r; reflexivity).
    apply IH; [discriminate|exact Hnd].
Qed.

Lemma known_matching range_map n l vs e pos m : known_name n l vs e pos -> NoDup (map fst vs) ->
  postingsForLabelMatching range_map r n m
  = Ret (inr (map (fun x : posting => iterator (snd x)) (List.filter (fun x : posting => wanted m (snd (fst x))) l))).
Proof.
  intros Hk Hnd. unfold postingsForLabelMatching. rewrite (sh_version _ _ _ Hr). cbn [Z.eqb Pos.eqb FormatV1 FormatV2]. rewrite (kn_postings _ _ _ _ _ Hk).
  destruct (known_ends n _ vs e pos Hk) as (e0 & es & lst & -> & E0 & _ & -> & Elst). rewrite E0, Elst.
  apply (kn_traverse _ _ _ _ _ Hk). rewrite drop_0, (walk_postings m vs l); [reflexivity|apply (kn_values _ _ _ _ _ Hk)|apply (kn_some _ _ _ _ _ Hk)|exact Hnd].
Qed.

(** All series. *)
Lemma all_postings range_map : PostingsForAllLabelValues range_map r [] = Ret (inr [iterator (ids ss items)]).
Proof.
  destruct (has_values_known [] _ (sh_all _ _ _ Hr)) as (vs & e & pos & Hk). unfold PostingsForAllLabelValues.
  rewrite (known_matching range_map [] _ vs e pos None Hk); [reflexivity|]. rewrite (value_names _ _ (kn_values _ _ _ _ _ Hk)). repeat constructor. apply not_elem_of_nil.
Qed.

Lemma matching_postings range_map n m : n <> [] ->
  postingsForLabelMatching range_map r n m = Ret (inr (map (fun v => iterator (with_label n v)) (List.filter (wanted m) (label_values n)))).
Proof.
  intros Hn. destruct (decide (n ∈ used_names ss items)) as [Hu|Hu].
  - destruct (has_values_known n _ (sh_values _ _ _ Hr n Hu)) as (vs & e & pos & Hk).
    rewrite (known_matching range_map n _ vs e pos m Hk).
    2: { rewrite (value_names _ _ (kn_values _ _ _ _ _ Hk)), (name_values n Hu). apply values_nodup. }
    rewrite (lists_with_label n (used_in_symbols n Hu)). do 2 f_equal. induction (label_values n) as [|v vals IH]; [reflexivity|].
    cbn [map List.filter fst snd]. destruct (wanted m v); cbn [map]; [f_equal|]; exact IH.
  - rewrite (label_values_unused n Hu). unfold postingsForLabelMatching. rewrite (sh_version _ _ _ Hr). cbn [Z.eqb Pos.eqb FormatV1 FormatV2]. destruct (r_postings r !! n) as [e|] eqn:Ee; [|reflexivity].
    destruct (proj1 (sh_names _ _ _ Hr n) (mk_is_Some _ _ Ee)); contradiction.
Qed.

(** *** The values of a query, in order *)
Lemma sorted_at {A} (R : relation A) (l : list A) i j a b : StronglySorted R l -> l !! i = Some a -> l !! j = Some b -> (i < j)%nat -> R a b.
Proof.
  intros Hs. revert i j. induction Hs as [|x l Hs IH Hx]; intros i j Hi Hj Hij; [discriminate|].
  destruct j as [|j]; [lia|]. destruct i as [|i]; [|apply (IH i j); [assumption..|lia]]. injection Hi as <-.
  apply (proj1 (List.Forall_forall _ _) Hx). apply list_elem_of_In, (list_elem_of_lookup_2 _ j), Hj.
Qed.

Lemma str_lt_le a b c : str_lt a b -> str_le b c -> str_lt a c.
Proof. intros H1 H2. apply str_le_lt_eq in H2. destruct H2 as [H2| <-]; [exact (str_lt_trans _ _ _ H1 H2)|exact H1]. Qed.

Lemma str_le_lt a b c : str_le a b -> str_lt b c -> str_lt a c.
Proof. intros H1 H2. apply str_le_lt_eq in H1. destruct H1 as [H1| ->]; [exact (str_lt_trans _ _ _ H1 H2)|exact H2]. Qed.

(** The list of a value. *)
Definition list_for (l : list posting) (v : bytes) : option (list Z) :=
  match list_find (fun x : posting => snd (fst x) = v) l with Some (_, x) => Some (snd x) | None => None end.
Definition found (l : list posting) (values : list bytes) : list bigEndianPostings :=
  flat_map (fun v => match list_for l v with Some refs => [iterator refs] | None => [] end) values.

Lemma found_app l a b : found l (a ++ b) = found l a ++ found l b.
Proof. apply flat_map_app. Qed.

Section search_name.
Variables (n : bytes) (l : list posting) (vs : list (bytes * Z)) (e : list postingOffset) (pos : Z).
Hypothesis Hk : known_name n l vs e pos.
Hypothesis Hsorted : StronglySorted str_lt (map fst vs).
Variable values : list bytes.
Hypothesis Hvalues : StronglySorted str_le values.

Lemma value_entry m v : map fst vs !! m = Some v -> exists o x, vs !! m = Some (v, o) /\ l !! m = Some x /\ snd (fst x) = v /\ list_at (r_b r) o (snd x).
Proof.
  intros Hm. rewrite list_lookup_fmap in Hm. destruct (vs !! m) as [[v' o]|] eqn:E; [|discriminate]. injection Hm as ->.
  destruct (Forall2_lookup_l _ _ _ _ _ (kn_values _ _ _ _ _ Hk) E) as (x & Ex & Ev & Hat). exists o, x. cbn [fst snd] in *. auto.
Qed.

Lemma list_of_here m x : l !! m = Some x -> list_for l (snd (fst x)) = Some (snd x).
Proof.
  intros Hm. unfold list_for. destruct (list_find _ l) as [[j y]|] eqn:E.
  - apply list_find_Some in E. destruct E as (Hj & Ey & _). f_equal. assert (j = m); [|congruence].
    pose proof (value_names _ _ (kn_values _ _ _ _ _ Hk)) as En.
    assert (Hjv : map fst vs !! j = Some (snd (fst x))) by (rewrite En, list_lookup_fmap, Hj; cbn; f_equal; exact Ey).
    assert (Hmv : map fst vs !! m = Some (snd (fst x))) by (rewrite En, list_lookup_fmap, Hm; reflexivity).
    destruct (Nat.lt_trichotomy j m) as [H|[H|H]]; [|exact H|]; destruct (str_lt_irrefl (snd (fst x)));
      [exact (sorted_at _ _ _ _ _ _ Hsorted Hjv Hmv H)|exact (sorted_at _ _ _ _ _ _ Hsorted Hmv Hjv H)].
  - apply list_find_None in E. rewrite Forall_lookup in E. destruct (E m x Hm eq_refl).
Qed.

Lemma list_of_none v : v ∉ map fst vs -> list_for l v = None.
Proof.
  intros Hv. unfold list_for. destruct (list_find _ l) as [[j y]|] eqn:E; [|reflexivity]. exfalso. apply Hv.
  apply list_find_Some in E. destruct E as (Hj & <- & _). rewrite (value_names _ _ (kn_values _ _ _ _ _ Hk)).
  apply list_elem_of_fmap. exists y. split; [reflexivity|]. eapply list_elem_of_lookup_2, Hj.
Qed.

(** A value between two neighbours is not there. *)
Lemma not_between m val q : map fst vs !! m = Some val -> str_lt q val ->
  (forall m' v, (m' < m)%nat -> map fst vs !! m' = Some v -> str_lt v q) -> list_for l q = None.
Proof.
  intros Hm Hq Hbelow. apply list_of_none. intros H. apply list_elem_of_lookup_1 in H. destruct H as [j Hj].
  destruct (Nat.lt_trichotomy j m) as [H|[->|H]].
  - exact (str_lt_irrefl _ (Hbelow j q H Hj)).
  - rewrite Hj in Hm. injection Hm as ->. exact (str_lt_irrefl _ Hq).
  - pose proof (sorted_at _ _ _ _ _ _ Hsorted Hm Hj H) as H'. exact (str_lt_irrefl _ (str_lt_trans _ _ _ Hq H')).
Qed.

Lemma values_le i j a b : values !! i = Some a -> values !! j = Some b -> (i <= j)%nat -> str_le a b.
Proof.
  intros Hi Hj Hij. destruct (decide (i = j)) as [->|Hne]; [rewrite Hi in Hj; injection Hj as ->; apply str_le_lt_eq; auto|].
  apply (sorted_at _ _ _ _ _ _ Hvalues Hi Hj). lia.
Qed.

(** The state in front of an entry: everything below it is done. *)
Definition searching (idx0 : nat) (its0 : list bigEndianPostings) (s : search) : Prop :=
  (idx0 <= se_index s <= length values)%nat /\ se_res s = its0 ++ found l (take (se_index s - idx0) (drop idx0 values))
  /\ ((se_index s < length values)%nat -> values !! se_index s = Some (se_value s)).

Lemma searching_next idx0 its0 s q its' : searching idx0 its0 s -> values !! se_index s = Some q ->
  its' = se_res s ++ found l [q] -> forall value, ((S (se_index s) < length values)%nat -> values !! S (se_index s) = Some value) ->
  searching idx0 its0 (mkSearch (S (se_index s)) value its').
Proof.
  intros (Hi & Hres & _) Hq -> value Hv. unfold searching. cbn [se_index se_value se_res]. pose proof (lookup_lt_Some _ _ _ Hq) as Hlt.
  split; [lia|]. split; [|exact Hv]. rewrite Hres. replace (S (se_index s) - idx0)%nat with (S (se_index s - idx0)) by lia.
  rewrite (take_S_r _ _ q) by (rewrite lookup_drop; rewrite <- Hq; f_equal; lia). rewrite found_app, app_assoc. reflexivity.
Qed.

Lemma match_values_ok m val o x fuel idx0 its0 s : map fst vs !! m = Some val -> l !! m = Some x -> snd (fst x) = val -> list_at (r_b r) o (snd x) ->
  searching idx0 its0 s -> (se_index s < length values)%nat -> (length values - se_index s < fuel)%nat -> str_le (se_value s) val ->
  (forall m' v, (m' < m)%nat -> map fst vs !! m' = Some v -> str_lt v (se_value s)) ->
  exists s', match_values fuel r values val o s = Ret (inr s') /\ searching idx0 its0 s' /\ (se_index s < se_index s')%nat
    /\ ((se_index s' < length values)%nat -> str_lt val (se_value s')).
Proof.
  intros Hm Hx Hval Hat. revert s. induction fuel as [|fuel IH]; intros s Hs Hlt Hfuel Hle Hbelow; [lia|].
  cbn [match_values]. rewrite (proj2 (str_ltb_false val (se_value s)) Hle).
  pose proof Hs as (Hi & Hres & Hval0). specialize (Hval0 Hlt). set (q := se_value s) in *.
  assert (Hits : (if str_eqb val q then p <~ postings_at r o ;; rret (se_res s ++ [p]) else rret (se_res s))
    = @Ret (index_error + list bigEndianPostings) (inr (se_res s ++ found l [q]))).
  { unfold found. cbn [flat_map]. rewrite app_nil_r. destruct (str_eqb val q) eqn:Eq.
    - apply str_eqb_spec in Eq. rewrite (postings_at_ok _ _ Hat). cbn [rbind]. rewrite <- Eq, <- Hval, (list_of_here m x Hx). reflexivity.
    - rewrite (not_between m val q Hm); [rewrite app_nil_r; reflexivity| |exact Hbelow].
      apply str_le_lt_eq in Hle. destruct Hle as [|E]; [assumption|]. apply not_true_iff_false in Eq. destruct Eq. apply str_eqb_spec. congruence. }
  rewrite Hits. cbn [rbind]. destruct (values !! S (se_index s)) as [q'|] eqn:Eq'.
  - pose proof (lookup_lt_Some _ _ _ Eq') as Hlt'.
    pose proof (searching_next idx0 its0 s q _ Hs Hval0 eq_refl q' (fun _ => Eq')) as Hs'.
    assert (Hqq : str_le q q') by (apply (values_le (se_index s) (S (se_index s))); [exact Hval0|exact Eq'|lia]).
    set (s1 := mkSearch (S (se_index s)) q' (se_res s ++ found l [q])) in *.
    destruct (str_ltb val q') eqn:Eb.
    + exists s1. destruct fuel as [|fuel]; [lia|]. cbn [match_values]. cbn [se_value s1]. rewrite Eb. split; [reflexivity|]. split; [exact Hs'|].
      split; [cbn; lia|]. intros _. apply str_ltb_spec, Eb.
    + apply str_ltb_false in Eb. destruct (IH s1 Hs') as (s' & E & Hs2 & Hgt & Hend); cbn [se_index se_value s1]; try assumption; try lia.
      { intros m' v Hm' Hv. apply (str_lt_le _ q); [apply (Hbelow m' v Hm' Hv)|exact Hqq]. }
      exists s'. split; [exact E|]. split; [exact Hs2|]. split; [cbn [se_index s1] in Hgt; lia|exact Hend].
  - apply lookup_ge_None in Eq'. exists (mkSearch (S (se_index s)) q (se_res s ++ found l [q])). split; [reflexivity|].
    split; [apply (searching_next idx0 its0 s q); [exact Hs|exact Hval0|reflexivity|lia]|]. cbn [se_index se_value]. split; [lia|]. lia.
Qed.

(** From the kept value [i] on, the walk ends no later than at the next one. *)
Lemma find_walk i m idx0 its0 s : searching idx0 its0 s -> (se_index s < length values)%nat -> (m < length vs)%nat ->
  (forall m' v, (m' < m)%nat -> map fst vs !! m' = Some v -> str_lt v (se_value s)) ->
  match e !! S i with
  | Some next => str_lt (se_value s) (po_value next) /\ exists k, (m <= k < length vs)%nat /\ map fst vs !! k = Some (po_value next)
  | None => exists v, map fst vs !! m = Some v /\ str_le (se_value s) v
  end ->
  exists s', walk (find_postings r values e i) (drop m vs) s = Ret (inr (false, s')) /\ searching idx0 its0 s' /\ (se_index s < se_index s')%nat.
Proof.
  intros Hs Hlt Hm Hbelow Hnext. remember (length vs - m)%nat as d eqn:Ed. revert m s Ed Hs Hlt Hm Hbelow Hnext.
  induction d as [|d IH]; intros m s Ed Hs Hlt Hm Hbelow Hnext; [lia|].
  destruct (lookup_lt_is_Some_2 (map fst vs) m ltac:(rewrite length_map; exact Hm)) as [val Hval].
  destruct (value_entry m val Hval) as (o & x & Evs & Hx & Exv & Hat). rewrite (drop_S _ _ _ Evs). cbn [walk fst snd].
  unfold find_postings at 1. destruct (str_ltb val (se_value s)) eqn:Eb.
  - (* the value is not reached *)
    pose proof Eb as Hb. apply str_ltb_spec in Hb.
    replace (match_values _ r values val o s) with (@Ret (index_error + search) (inr s)) by (cbn [match_values]; rewrite Eb; reflexivity).
    cbn [rbind]. destruct (e !! S i) as [next|] eqn:En.
    2: { destruct Hnext as (v & Hv & Hle). rewrite Hval in Hv. injection Hv as <-. destruct (str_lt_irrefl _ (str_lt_le _ _ _ Hb Hle)). }
    destruct Hnext as (Hvn & k & Hkm & Hkv). rewrite (proj2 (str_ltb_spec _ _) Hvn). destruct (Nat.eqb_spec (se_index s) (length values)); [lia|].
    cbn [negb orb rbind rret fst snd]. assert (Hne : k <> m).
    { intros ->. rewrite Hval in Hkv. injection Hkv as E. rewrite <- E in Hvn. exact (str_lt_irrefl _ (str_lt_trans _ _ _ Hb Hvn)). }
    apply IH; try assumption; try lia.
    + intros m' v Hm' Hv. destruct (decide (m' = m)) as [->|]; [rewrite Hval in Hv; injection Hv as <-; exact Hb|apply (Hbelow m' v); [lia|exact Hv]].
    + split; [exact Hvn|]. exists k. split; [lia|exact Hkv].
  - apply str_ltb_false in Eb.
    destruct (match_values_ok m val o x (S (length values)) idx0 its0 s Hval Hx Exv Hat Hs Hlt ltac:(lia) Eb Hbelow) as (s1 & E1 & Hs1 & Hgt & Hend).
    rewrite E1. cbn [rbind]. destruct (e !! S i) as [next|] eqn:En; [|exists s1; split; [reflexivity|split; assumption]].
    destruct (negb (str_ltb (se_value s1) (po_value next)) || (se_index s1 =? length values)%nat) eqn:Estop;
      cbn [negb rbind rret fst snd]; [exists s1; split; [reflexivity|split; assumption]|].
    apply orb_false_iff in Estop. destruct Estop as [Ev1 Ei1]. apply negb_false_iff, str_ltb_spec in Ev1. apply Nat.eqb_neq in Ei1.
    pose proof Hs1 as ((_ & Hi1) & _ & _). specialize (Hend ltac:(lia)). destruct Hnext as (_ & k & Hkm & Hkv).
    assert (Hne : k <> m).
    { intros ->. rewrite Hval in Hkv. injection Hkv as E. rewrite <- E in Ev1. exact (str_lt_irrefl _ (str_lt_trans _ _ _ Hend Ev1)). }
    destruct (IH (S m) s1) as (s2 & E2 & Hs2 & Hgt2); try assumption; try lia.
    + intros m' v Hm' Hv. destruct (decide (m' = m)) as [->|]; [rewrite Hval in Hv; injection Hv as <-; exact Hend|].
      apply (str_lt_trans _ val); [|exact Hend]. apply (sorted_at _ _ _ _ _ _ Hsorted Hv Hval). lia.
    + split; [exact Ev1|]. exists k. split; [lia|exact Hkv].
    + exists s2. split; [exact E2|]. split; [exact Hs2|lia].
Qed.

(** The kept values, by their index. *)
Lemma kept_value i po : e !! i = Some po -> exists j v, po = po_at pos n vs j /\ map fst vs !! j = Some v /\ po_value po = v /\ (i = 0%nat -> j = 0%nat)
  /\ forall i' po', e !! i' = Some po' -> (i < i')%nat -> exists j', po' = po_at pos n vs j' /\ (j < j')%nat /\ map fst vs !! j' = Some (po_value po').
Proof.
  intros Hi. destruct (kn_samples _ _ _ _ _ Hk) as (js & E & Hjs & [js0 E0] & [js1 E1]). rewrite E in *. rewrite list_lookup_fmap in Hi.
  assert (Hlt : forall i j, js !! i = Some j -> (j < length vs)%nat).
  { intros i' j Hj. assert (Hvs : length vs <> 0%nat) by (pose proof (kn_some _ _ _ _ _ Hk) as H; destruct vs; [contradiction|discriminate]).
    rewrite E1 in Hj, Hjs. apply lookup_app_Some in Hj. destruct Hj as [Hj|[_ Hj]].
    - assert (j < length vs - 1)%nat; [|lia]. apply (sorted_at lt _ i' (length js1) _ _ Hjs); [apply lookup_app_l_Some, Hj|apply list_lookup_middle; reflexivity|].
      eapply lookup_lt_Some, Hj.
    - destruct (i' - length js1)%nat; [injection Hj as <-; lia|discriminate]. }
  assert (Hv : forall j, (j < length vs)%nat -> map fst vs !! j = Some (po_value (po_at pos n vs j))).
  { intros j Hj. unfold po_at. cbn [po_value]. rewrite nth_fst. destruct (nth_lookup_or_length (map fst vs) j []) as [H|H]; [exact H|rewrite length_map in H; lia]. }
  destruct (js !! i) as [j|] eqn:Ej; [|discriminate]. injection Hi as <-. exists j, (po_value (po_at pos n vs j)).
  split; [reflexivity|]. split; [apply Hv, (Hlt i j Ej)|]. split; [reflexivity|]. split; [intros ->; rewrite E0 in Ej; injection Ej as <-; reflexivity|].
  intros i' po' Hi' Hii'. rewrite list_lookup_fmap in Hi'. destruct (js !! i') as [j'|] eqn:Ej'; [|discriminate]. injection Hi' as <-.
  exists j'. split; [reflexivity|]. split; [exact (sorted_at lt _ _ _ _ _ Hjs Ej Ej' Hii')|]. apply Hv, (Hlt i' j' Ej').
Qed.

Lemma found_nothing q0 : (forall v, v ∈ map fst vs -> str_lt v q0) -> forall qs, Forall (str_le q0) qs -> found l qs = [].
Proof.
  intros Hall qs Hqs. induction Hqs as [|q qs Hq _ IH]; [reflexivity|]. unfold found in *. cbn [flat_map]. rewrite IH, list_of_none; [reflexivity|].
  intros H. exact (str_lt_irrefl _ (str_lt_le _ _ _ (Hall q H) Hq)).
Qed.

(** Where a search for a value starts. *)
Lemma search_start idx q : values !! idx = Some q -> (forall v, map fst vs !! 0%nat = Some v -> str_le v q) ->
  let po i := nth i e (mkPostingOffset [] 0) in
  let i := sort_search (length e) (fun i => negb (str_ltb (po_value (po i)) q)) in
  (i = length e /\ found l (drop idx values) = [])
  \/ (i <> length e /\ let i' := if (0 <? i)%nat && negb (str_eqb (po_value (po i)) q) then (i - 1)%nat else i in
      exists m, po i' = po_at pos n vs m /\ (m < length vs)%nat
      /\ (forall m' v, (m' < m)%nat -> map fst vs !! m' = Some v -> str_lt v q)
      /\ match e !! S i' with
         | Some next => str_lt q (po_value next) /\ exists k, (m <= k < length vs)%nat /\ map fst vs !! k = Some (po_value next)
         | None => exists v, map fst vs !! m = Some v /\ str_le q v
         end).
Proof.
  intros Hq H0 po i.
  assert (Hpo : forall j, (j < length e)%nat -> e !! j = Some (po j)).
  { intros j Hj. unfold po. destruct (nth_lookup_or_length e j (mkPostingOffset [] 0)) as [H|H]; [exact H|lia]. }
  assert (Hmono : monotone_upto (length e) (fun i => negb (str_ltb (po_value (po i)) q))).
  { intros a b Hab Ha. destruct (decide (a = b)) as [->|Hne]; [exact Ha|]. apply negb_true_iff, str_ltb_false in Ha. apply negb_true_iff, str_ltb_false.
    destruct (kept_value a (po a) (Hpo a ltac:(lia))) as (ja & va & _ & Hja & <- & _ & Hlater).
    destruct (Hlater b (po b) (Hpo b ltac:(lia)) ltac:(lia)) as (jb & _ & Hjab & Hjb).
    apply str_le_lt_eq. left. apply (str_le_lt _ _ _ Ha). exact (sorted_at _ _ _ _ _ _ Hsorted Hja Hjb Hjab). }
  destruct (sort_search_spec (length e) _ Hmono) as (Hle & Hlo & Hhi). fold i in Hle, Hlo, Hhi. clearbody i.
  destruct (decide (i = length e)) as [Ei|Ei]; [left; split; [exact Ei|]|right; split; [exact Ei|]].
  - destruct (known_ends n l vs e pos Hk) as (e0 & es & lst & Ee & _ & _ & Elast & Evl). rewrite last_lookup in Elast.
    assert (Hlen : (length e <> 0)%nat) by (rewrite Ee; discriminate).
    pose proof (Hlo (length e - 1)%nat ltac:(lia)) as Hl. apply negb_false_iff, str_ltb_spec in Hl. 
    rewrite <- Nat.sub_1_r in Elast. rewrite (Hpo (length e - 1)%nat ltac:(lia)) in Elast. injection Elast as El. rewrite El, Evl in Hl.
    apply (found_nothing q).
    + intros v Hv. apply list_elem_of_lookup_1 in Hv. destruct Hv as [j Hj]. pose proof (lookup_lt_Some _ _ _ Hj) as Hjl. rewrite length_map in Hjl.
      destruct (nth_lookup_or_length (map fst vs) (length vs - 1) []) as [H|H]; [|rewrite length_map in H; lia].
      destruct (decide (j = length vs - 1)%nat) as [->|Hne]; [rewrite H in Hj; injection Hj as <-; exact Hl|].
      apply (str_lt_trans _ _ _ (sorted_at _ _ _ _ _ _ Hsorted Hj H ltac:(lia)) Hl).
    + apply Forall_forall. intros q' Hq'. apply list_elem_of_lookup_1 in Hq'. destruct Hq' as [j Hj]. rewrite lookup_drop in Hj.
      apply (values_le idx (idx + j)); [exact Hq|exact Hj|lia].
  - destruct (kept_value i (po i) (Hpo i ltac:(lia))) as (j & v & Epo & Hj & <- & Hj0 & Hlater).
    pose proof (Hhi i ltac:(lia)) as Hge. apply negb_true_iff, str_ltb_false in Hge.
    assert (Hbound : forall j v, map fst vs !! j = Some v -> (j < length vs)%nat) by (intros j' v' H; apply lookup_lt_Some in H; rewrite length_map in H; exact H).
    destruct ((0 <? i)%nat && negb (str_eqb (po_value (po i)) q)) eqn:Eback; cbv zeta.
    + apply andb_true_iff in Eback. destruct Eback as [Hi Hne]. apply Nat.ltb_lt in Hi. apply negb_true_iff, not_true_iff_false in Hne.
      destruct (kept_value (i - 1) (po (i - 1)%nat) (Hpo (i - 1)%nat ltac:(lia))) as (m & w & Em & Hm & <- & _ & Hl).
      exists m. split; [exact Em|]. split; [exact (Hbound _ _ Hm)|].
      pose proof (Hlo (i - 1)%nat ltac:(lia)) as Hlt. apply negb_false_iff, str_ltb_spec in Hlt. split.
      * intros m' v Hm' Hv. exact (str_lt_trans _ _ _ (sorted_at _ _ _ _ _ _ Hsorted Hv Hm Hm') Hlt).
      * replace (S (i - 1)) with i by lia. rewrite (Hpo i) by lia. split.
        { apply str_le_lt_eq in Hge. destruct Hge as [Hge|E]; [exact Hge|]. destruct Hne. apply str_eqb_spec. congruence. }
        destruct (Hl i (po i) (Hpo i ltac:(lia)) ltac:(lia)) as (k & _ & Hmk & Hkv). exists k. split; [split; [lia|exact (Hbound _ _ Hkv)]|exact Hkv].
    + assert (Eq : po_value (po i) = q).
      { apply andb_false_iff in Eback. destruct Eback as [Hi|Hi].
        - apply Nat.ltb_ge in Hi. assert (i = 0%nat) as -> by lia. rewrite (Hj0 eq_refl) in Hj. pose proof (H0 _ Hj) as Hle0.
          apply str_le_lt_eq in Hle0. destruct Hle0 as [Hlt|]; [|assumption]. destruct (str_lt_irrefl _ (str_lt_le _ _ _ Hlt Hge)).
        - apply negb_false_iff, str_eqb_spec in Hi. exact Hi. }
      rewrite Eq in Hj. exists j. split; [exact Epo|]. split; [exact (Hbound _ _ Hj)|]. split.
      * intros m' v Hm' Hv. exact (sorted_at _ _ _ _ _ _ Hsorted Hv Hj Hm').
      * destruct (e !! S i) as [next|] eqn:En; [|exists q; split; [exact Hj|apply str_le_lt_eq; auto]].
        destruct (Hlater (S i) next En ltac:(lia)) as (k & _ & Hjk & Hkv). split; [exact (sorted_at _ _ _ _ _ _ Hsorted Hj Hkv Hjk)|].
        exists k. split; [split; [lia|exact (Hbound _ _ Hkv)]|exact Hkv].
Qed.

Lemma postings_loop_ok fuel idx its : (length values - idx <= fuel)%nat ->
  (forall q v, values !! idx = Some q -> map fst vs !! 0%nat = Some v -> str_le v q) ->
  postings_loop fuel r values e idx its = Ret (inr (its ++ found l (drop idx values))).
Proof.
  revert idx its. induction fuel as [|fuel IH]; intros idx its Hf H0.
  - cbn [postings_loop]. rewrite (lookup_ge_None_2 values idx) by lia. rewrite drop_ge by lia. cbn. rewrite app_nil_r. reflexivity.
  - cbn [postings_loop]. destruct (values !! idx) as [q|] eqn:Eq.
    2: { apply lookup_ge_None in Eq. rewrite drop_ge by lia. cbn. rewrite app_nil_r. reflexivity. }
    pose proof (lookup_lt_Some _ _ _ Eq) as Hidx. cbv zeta.
    destruct (search_start idx q Eq (fun v => H0 q v eq_refl)) as [[Ei Efound]|[Ei (m & Epo & Hm & Hbelow & Hnext)]]; cbv zeta in *.
    + rewrite Ei, Nat.eqb_refl, Efound, app_nil_r. reflexivity.
    + set (i := sort_search _ _) in *. destruct (Nat.eqb_spec i (length e)); [contradiction|]. set (i' := if _ && _ then _ else i) in *.
      rewrite Epo.
      assert (Hs : searching idx its (mkSearch idx q its)).
      { unfold searching. cbn [se_index se_res se_value]. rewrite Nat.sub_diag. cbn. rewrite app_nil_r. split; [lia|]. split; [reflexivity|auto]. }
      destruct (find_walk i' m idx its (mkSearch idx q its) Hs Hidx Hm Hbelow Hnext) as (s' & Ew & Hs' & Hgt). cbn [se_index] in Hgt.
      rewrite (kn_traverse _ _ _ _ _ Hk _ _ m _ s' Ew). cbn [rbind]. destruct Hs' as ((_ & Hi') & Hres & _).
      rewrite IH; [|lia|].
      * rewrite Hres, <- app_assoc, <- found_app. do 4 f_equal. replace (se_index s') with (idx + (se_index s' - idx))%nat at 2 by lia.
        rewrite <- drop_drop. apply take_drop.
      * intros q' v Hq' Hv. apply str_le_trans with q; [apply (H0 q v eq_refl Hv)|]. apply (values_le idx (se_index s') q q' Eq Hq'). lia.
Qed.
End search_name.

Lemma discard_ok first i qs : exists a b, qs = a ++ b /\ discard_values first i qs = (i + length a)%nat
  /\ Forall (fun q => str_lt q first) a /\ forall q, b !! 0%nat = Some q -> str_le first q.
Proof.
  revert i. induction qs as [|q qs IH]; intros i; cbn [discard_values].
  - exists [], []. split; [reflexivity|]. split; [cbn; lia|]. split; [constructor|]. discriminate.
  - destruct (str_ltb q first) eqn:E.
    + destruct (IH (S i)) as (a & b & -> & Ed & Ha & Hb). exists (q :: a), b. split; [reflexivity|]. split; [rewrite Ed; cbn [length]; lia|].
      split; [constructor; [apply str_ltb_spec, E|exact Ha]|exact Hb].
    + exists [], (q :: qs). split; [reflexivity|]. split; [cbn; lia|]. split; [constructor|]. intros q' [= <-]. apply str_ltb_false, E.
Qed.

Lemma known_query n l vs e pos values : known_name n l vs e pos -> StronglySorted str_lt (map fst vs) ->
  Reader_Postings r n values = Ret (inr (found l (merge_sort str_le values))).
Proof.
  intros Hk Hsorted. unfold Reader_Postings. rewrite (sh_version _ _ _ Hr). cbn [Z.eqb Pos.eqb FormatV1 FormatV2].
  rewrite (kn_postings _ _ _ _ _ Hk). destruct (Nat.eqb_spec (length values) 0) as [E0|E0].
  { destruct values; [reflexivity|discriminate]. }
  cbv zeta. assert (Hsv : StronglySorted str_le (merge_sort str_le values)) by (apply StronglySorted_merge_sort; apply _).
  set (qs := merge_sort str_le values) in *. clearbody qs.
  destruct (known_ends n l vs e pos Hk) as (e0 & es & lst & -> & _ & Ev0 & _ & _).
  destruct (discard_ok (po_value e0) 0 qs) as (a & b & Eqs & Ed & Ha & Hb). rewrite Ed. cbn [Nat.add].
  assert (Hv0 : map fst vs !! 0%nat = Some (po_value e0)).
  { rewrite Ev0. pose proof (kn_some _ _ _ _ _ Hk) as Hne. destruct vs; [contradiction|reflexivity]. }
  rewrite (postings_loop_ok n l vs (e0 :: es) pos Hk Hsorted qs Hsv); [|lia|].
  - cbn [app]. do 2 f_equal. rewrite Eqs, drop_app_length, found_app. replace (found l a) with (@nil bigEndianPostings); [reflexivity|].
    symmetry. clear -Ha Hk Hsorted Hv0. induction Ha as [|q a Hq _ IH]; [reflexivity|]. unfold found in *. cbn [flat_map]. rewrite IH.
    rewrite (not_between n l vs (e0 :: es) pos Hk Hsorted 0 (po_value e0) q Hv0 Hq); [reflexivity|]. lia.
  - intros q v Hq Hv. rewrite Hv0 in Hv. injection Hv as <-. apply Hb. rewrite Eqs in Hq.
    rewrite lookup_app_r in Hq by lia. rewrite Nat.sub_diag in Hq. exact Hq.
Qed.

Lemma list_of_name n v : n ∈ ss -> list_for (name_lists ss items n) v = nonempty (with_label n v).
Proof.
  intros Hn. rewrite (lists_with_label n Hn). unfold list_for. destruct (list_find _ _) as [[j x]|] eqn:E.
  - apply list_find_Some in E. destruct E as (Hj & <- & _). apply list_elem_of_lookup_2, list_elem_of_fmap in Hj. destruct Hj as (w & -> & Hw).
    cbn [fst snd]. apply list_elem_of_filter in Hw. destruct (with_label n w); [destruct (proj1 Hw eq_refl)|reflexivity].
  - destruct (with_label n v) as [|x xs] eqn:Ew; [reflexivity|]. exfalso. apply list_find_None in E. rewrite Forall_forall in E.
    assert (Hne : with_label n v <> []) by (rewrite Ew; discriminate).
    apply (E (n, v, with_label n v)); [|reflexivity]. apply list_elem_of_fmap. exists v. split; [reflexivity|].
    apply list_elem_of_filter. split; [exact Hne|]. apply (with_label_used n v Hne).
Qed.

Lemma label_values_sorted n : StronglySorted str_lt (label_values n).
Proof. apply decidable_filter_sorted, Hin. Qed.

(** A query for a name and values: the lists of the values, in order. *)
Lemma query_postings n values : n <> [] ->
  Reader_Postings r n values
  = Ret (inr (map (fun v => iterator (with_label n v)) (filter (fun v => with_label n v <> []) (merge_sort str_le values)))).
Proof.
  intros Hn. destruct (decide (n ∈ used_names ss items)) as [Hu|Hu].
  - destruct (has_values_known n _ (sh_values _ _ _ Hr n Hu)) as (vs & e & pos & Hk).
    rewrite (known_query n _ vs e pos values Hk).
    2: { rewrite (value_names _ _ (kn_values _ _ _ _ _ Hk)), (name_values n Hu). apply label_values_sorted. }
    do 2 f_equal. unfold found. induction (merge_sort str_le values) as [|v qs IH]; [reflexivity|]. cbn [flat_map]. rewrite IH, filter_cons.
    rewrite (list_of_name n v (used_in_symbols n Hu)). destruct (with_label n v) eqn:Ew; cbn [nonempty].
    + rewrite decide_False by tauto. reflexivity.
    + rewrite decide_True by discriminate. cbn [map]. rewrite Ew. reflexivity.
  - unfold Reader_Postings. rewrite (sh_version _ _ _ Hr). cbn [Z.eqb Pos.eqb FormatV1 FormatV2].
    destruct (r_postings r !! n) as [e|] eqn:Ee; [destruct (proj1 (sh_names _ _ _ Hr n) (mk_is_Some _ _ Ee)); contradiction|].
    replace (filter _ _) with (@nil bytes); [reflexivity|]. symmetry. induction (merge_sort str_le values) as [|v qs IH]; [reflexivity|].
    rewrite filter_cons, IH. destruct (decide (with_label n v <> [])) as [H|]; [|reflexivity]. destruct Hu. apply (with_label_used n v H).
Qed.

(** ** The label names of some series *)
Definition names_of (its : list item) : list bytes := flat_map (fun it => map Name (it_labels it)) its.

Lemma names_offsets_ok l m : Forall (fun x : Z * item => exists i, ids ss items !! i = Some (fst x) /\ items !! i = Some (snd x)) l ->
  exists m', names_offsets r (map fst l) m = Ret (inr m')
    /\ forall o, o ∈ m' <-> o ∈ m \/ exists n, n ∈ names_of (map snd l) /\ o = sym_num ss n.
Proof.
  intros Hl. revert m. induction Hl as [|[x it] l (i & Hx & Hit) _ IH]; intros m; cbn [map fst snd names_offsets] in *.
  - exists m. split; [reflexivity|]. intros o. split; [auto|]. intros [H|(n & Hn & _)]; [exact H|]. apply not_elem_of_nil in Hn. destruct Hn.
  - destruct (series_at i it Hit) as (start & Es & Ed). unfold ids in Hx. rewrite list_lookup_fmap, Es in Hx. injection Hx as <-.
    rewrite Ed. cbn [rbind dE dB]. pose proof (list_elem_of_lookup_2 _ _ _ Hit) as Hin'. destruct (entry_small it Hin') as [Hlen _].
    unfold entry_of at 1. rewrite LabelNamesOffsetsFor_ok.
    2: { eapply Forall_impl; [apply (labels_known it Hin')|]. intros lb [[H1 _] [H2 _]]. auto. }
    2: exact Hlen.
    cbn [rbind]. destruct (IH (m ∪ list_to_set (map (fun lb => sym_num ss (Name lb)) (it_labels it)))) as (m' & E & Hm'). exists m'. split; [exact E|].
    intros o. rewrite Hm', elem_of_union, elem_of_list_to_set. unfold names_of. cbn [flat_map]. setoid_rewrite elem_of_app. split.
    + intros [[H|H]|(n & Hn & ->)]; [left; exact H| |right; exists n; auto]. right. apply list_elem_of_fmap in H. destruct H as (lb & -> & Hlb).
      exists (Name lb). split; [left; apply list_elem_of_fmap; eauto|reflexivity].
    + intros [H|(n & [Hn|Hn] & ->)]; [auto| |right; eauto]. left. right. apply list_elem_of_fmap in Hn. destruct Hn as (lb & -> & Hlb).
      apply list_elem_of_fmap. eauto.
Qed.

Lemma lookup_all_ok xs names : Forall (fun x => x ∈ ss) xs -> lookup_all r (map (sym_num ss) xs) names = Ret (inr (names ++ xs)).
Proof.
  intros Hx. revert names. induction Hx as [|x xs Hx _ IH]; intros names; cbn [map lookup_all]; [rewrite app_nil_r; reflexivity|].
  rewrite (sh_lookup _ _ _ Hr x Hx). cbn [rbind]. rewrite IH, <- app_assoc. reflexivity.
Qed.

Lemma LabelNamesFor_ok l : Forall (fun x : Z * item => exists i, ids ss items !! i = Some (fst x) /\ items !! i = Some (snd x)) l ->
  LabelNamesFor r (map fst l) = Ret (inr (filter (fun n => n ∈ names_of (map snd l)) ss)).
Proof.
  intros Hl. unfold LabelNamesFor. destruct (names_offsets_ok l ∅ Hl) as (m & E & Hm). rewrite E. cbn [rbind].
  assert (Hnames : forall n, n ∈ names_of (map snd l) -> n ∈ ss).
  { intros n Hn. apply list_elem_of_In, in_flat_map in Hn. destruct Hn as (it & Hit & Hn). apply list_elem_of_In, list_elem_of_fmap in Hit.
    destruct Hit as ([x it'] & -> & Hx). rewrite Forall_forall in Hl. destruct (Hl _ Hx) as (i & _ & Hi). apply list_elem_of_In, list_elem_of_fmap in Hn.
    destruct Hn as (lb & -> & Hlb). apply (label_of_item ss items Hin it' lb); [eapply list_elem_of_lookup_2, Hi|exact Hlb]. }
  assert (Hxs : exists xs, elements m = map (sym_num ss) xs /\ Forall (fun x => x ∈ names_of (map snd l)) xs).
  { assert (Hall : Forall (fun o => exists n, n ∈ names_of (map snd l) /\ o = sym_num ss n) (elements m)).
    { apply Forall_forall. intros o Ho. apply elem_of_elements, Hm in Ho. destruct Ho as [Ho|Ho]; [apply elem_of_empty in Ho; destruct Ho|exact Ho]. }
    induction Hall as [|o os (n & Hn & ->) _ (xs & -> & Hxs)]; [exists []; split; [reflexivity|constructor]|]. exists (n :: xs). auto. }
  destruct Hxs as (xs & Exs & Hxs). rewrite Exs, lookup_all_ok; [|eapply Forall_impl; [exact Hxs|exact Hnames]]. cbn [rbind app rret].
  unfold rret. do 2 f_equal. apply sort_filter; [apply Hin| |].
  - apply (NoDup_fmap_1 (sym_num ss)). change (sym_num ss <$> xs) with (map (sym_num ss) xs). rewrite <- Exs. apply NoDup_elements.
  - intros n. rewrite list_elem_of_filter. rewrite Forall_forall in Hxs. split; [intros H; auto|]. intros [Hn _].
    assert (Ho : sym_num ss n ∈ elements m) by (apply elem_of_elements, Hm; right; eauto). rewrite Exs in Ho. apply list_elem_of_fmap in Ho.
    destruct Ho as (n' & En & Hn'). apply sym_num_inj in En; [subst; exact Hn'|apply Hin|apply Hnames, Hn|apply Hnames, Hxs, Hn'].
Qed.

(** ** The lists are in the order the iterators need *)
Lemma starts_increasing p es : Forall entry_ok es ->
  StronglySorted lt (map (fun s => s / 16)%nat (series_starts p es)) /\ Forall (fun s => (p <= s)%nat) (series_starts p es).
Proof.
  intros He. revert p. induction He as [|e es [He _] _ IH]; intros p; cbn [series_starts map]; [split; constructor|].
  set (s0 := (p + length (pad16 p))%nat). assert (Ha : (s0 mod 16 = 0)%nat) by apply pad16_aligns.
  destruct (IH (s0 + length (entry_bytes e))%nat) as [H1 H2]. split.
  - constructor; [exact H1|]. pose proof (series_starts_align (s0 + length (entry_bytes e)) es) as Hal. clear -H2 Ha Hal He.
    induction H2 as [|s l Hs _ IH]; cbn [map]; constructor; [|apply Forall_cons_1 in Hal; apply IH, Hal].
    apply Forall_cons_1 in Hal. destruct Hal as [Hal _]. rewrite entry_bytes_length in Hs.
    pose proof (Nat.div_mod s 16 ltac:(lia)). pose proof (Nat.div_mod s0 16 ltac:(lia)). lia.
  - constructor; [unfold s0; lia|]. eapply Forall_impl; [exact H2|]. cbv beta. unfold s0. lia.
Qed.

Lemma entries_ok : Forall entry_ok (map (entry_of ss) items).
Proof.
  apply Forall_fmap. pose proof (items_ok ss items Hin) as Hok. eapply Forall_impl; [exact Hok|]. intros it (_ & _ & _ & _ & Hl). split; [|exact Hl].
  unfold entry_of, enc_series. rewrite length_app. pose proof (put_uvarint_length (Z.of_nat (length (it_labels it)))). lia.
Qed.

Lemma ids_increasing : StronglySorted Z.lt (ids ss items) /\ Forall (fun x => 0 < x <= MaxUint32) (ids ss items).
Proof.
  destruct (starts_increasing (series_base ss) (map (entry_of ss) items) entries_ok) as [H1 H2]. fold (starts ss items) in H1, H2. unfold ids. split.
  - unfold series_id. rewrite <- (map_map (fun s => s / 16)%nat Z.of_nat). apply (StronglySorted_fmap Z.of_nat lt Z.lt); [lia|exact H1].
  - apply Forall_fmap, Forall_lookup. intros i s Hs. rewrite Forall_lookup in H2. specialize (H2 i s Hs).
    assert (Hi : is_Some (items !! i)).
    { apply lookup_lt_is_Some_2. apply lookup_lt_Some in Hs. unfold starts in Hs. rewrite series_starts_length, length_map in Hs. exact Hs. }
    destruct Hi as [it Hi]. destruct (sh_series _ _ _ Hr i it Hi) as (s' & rest & Es & Ed & Hrest). rewrite Hs in Es. injection Es as <-.
    pose proof (f_equal length Ed) as El. rewrite length_drop, length_app in El. pose proof (sh_len _ _ _ Hr) as Hl. unfold in_limit, fpos in Hl.
    unfold compose, series_id. unfold series_base, frame in H2. rewrite !length_app, !length_be_bytes, header_length in H2.
    unfold symbol_table in H2. rewrite length_app, length_be_bytes in H2.
    pose proof (Nat.div_mod s 16 ltac:(lia)). pose proof (Nat.mod_upper_bound s 16 ltac:(lia)). lia.
Qed.

Lemma with_label_increasing n v : incr (with_label n v) /\ Forall (fun x => 0 < x <= MaxUint32) (with_label n v).
Proof.
  destruct ids_increasing as [H1 H2]. unfold with_label.
  assert (H : forall l (its : list item), StronglySorted Z.lt l -> Forall (fun x => 0 < x <= MaxUint32) l ->
    StronglySorted Z.lt (map fst (filter (fun x : Z * item => mkLabel n v ∈ it_labels (snd x)) (combine l its)))
    /\ Forall (fun y => y ∈ l) (map fst (filter (fun x : Z * item => mkLabel n v ∈ it_labels (snd x)) (combine l its)))).
  { clear. induction l as [|x l IH]; intros its Hs Hf; [split; constructor|]. destruct its as [|it its]; [split; constructor|]. cbn [combine].
    apply StronglySorted_inv in Hs. destruct Hs as [Hs Hx]. apply Forall_cons_1 in Hf. destruct (IH its Hs (proj2 Hf)) as [I1 I2].
    assert (I3 : Forall (fun y => y ∈ x :: l) (map fst (filter (fun x : Z * item => mkLabel n v ∈ it_labels (snd x)) (combine l its))))
      by (eapply Forall_impl; [exact I2|]; intros y Hy; right; exact Hy).
    rewrite filter_cons. destruct (decide _); [|split; assumption]. cbn [map fst]. split; [|constructor; [left|exact I3]]. constructor; [exact I1|].
    rewrite Forall_forall in I2. apply List.Forall_forall. intros y Hy. rewrite List.Forall_forall in Hx. apply Hx. apply list_elem_of_In, I2, list_elem_of_In, Hy. }
  destruct (H (ids ss items) items H1 H2) as [I1 I2]. split; [apply I1|]. eapply Forall_impl; [exact I2|]. intros y Hy. rewrite Forall_forall in H2. apply H2, Hy.
Qed.

(** A fresh iterator over a list keeps the contract of [Postings]. *)
Lemma iterator_rep l : incr l -> Forall (fun x => 0 < x <= MaxUint32) l -> Rep (maxref := MaxUint32) (iterator l) 0 0 l.
Proof.
  intros Hi Hl. split; [|split; [reflexivity|split; [reflexivity|unfold MaxUint32; lia]]]. split; [lia|]. split; [auto|]. split.
  - constructor; [exact Hi|]. eapply List.Forall_impl; [|apply List.Forall_forall; rewrite Forall_forall in Hl; intros x Hx; apply Hl, list_elem_of_In, Hx].
    cbv beta. lia.
  - constructor; [unfold MaxUint32; lia|]. eapply Forall_impl; [exact Hl|]. cbv beta. lia.
Qed.

Lemma iterator_expands l : incr l -> Forall (fun x => 0 < x <= MaxUint32) l ->
  yields (fun f => ExpandPostings f (iterator l)) (l, None).
Proof. intros Hi Hl. apply (expand_ok (maxref := MaxUint32) _ 0), iterator_rep; assumption. Qed.

(** The iterators that a query hands on, and what they yield. *)
Definition yield_lists (its : list bigEndianPostings) (ls : list (list Z)) : Prop :=
  Forall2 (fun it l => Rep (maxref := MaxUint32) it 0 0 l /\ yields (fun f => ExpandPostings f it) (l, None)) its ls.

Lemma label_iterators n vs : yield_lists (map (fun v => iterator (with_label n v)) vs) (map (with_label n) vs).
Proof.
  induction vs as [|v vs IH]; cbn [map]; constructor; [|exact IH]. destruct (with_label_increasing n v).
  split; [apply iterator_rep|apply iterator_expands]; assumption.
Qed.
End queries.

(** ** The file between writer and reader *)

(** What the calls of the writer leave. *)
Definition index_file {V : VarintLib} (ss : list bytes) (items : list item) : res bytes :=
  w <~ NewWriter ;; x <~ write_index ss items w ;; rret (w_f (snd x)).

Section files.
Context {V : VarintLib} {VOK : VarintLibOK V}.

Lemma written_opens ss items f : index_input ss items -> written ss items f ->
  exists r, newReader f = Ret (inr r) /\ shows ss items r /\ r_b r = f.
Proof. intros Hin (gap1 & gap2 & toc & -> & Htoc & Hlim & Hsym & Htab & Hok). apply newReader_ok; assumption. Qed.

(** The writer never panics on such input and only fails for the size of the
    file; a file that it leaves can be opened. *)
Lemma index_file_ok ss items (Q : Reader -> Prop) : index_input ss items -> (forall r, shows ss items r -> Q r) ->
  match index_file ss items with
  | Panic => False
  | Ret (inl e) => size_error e = true
  | Ret (inr f) => exists r, newReader f = Ret (inr r) /\ Q r
  end.
Proof.
  intros Hin HQ. unfold index_file. rewrite NewWriter_ok. cbn [rbind]. pose proof (write_index_ok ss items Hin) as H. unfold wp in H.
  destruct (write_index ss items written_header) as [[e|[[] w]]|]; cbn [rbind rret snd]; [exact H| |exact H].
  destruct (written_opens ss items (w_f w) Hin H) as (r & E & Hs & _). exists r. auto.
Qed.
End files.

(** *** An example: two series of [up] and one of [ok] *)
Definition ex_symbols : list bytes := [[]; [49]; [50]; [95]; [106]; [111; 107]; [117; 112]].
Definition ex_items : list item :=
  [mkItem 1 [mkLabel [95] [111; 107]; mkLabel [106] [49]] [mkMeta 8 10 20; mkMeta 16 30 40];
   mkItem 2 [mkLabel [95] [117; 112]; mkLabel [106] [49]] [];
   mkItem 3 [mkLabel [95] [117; 112]; mkLabel [106] [50]] [mkMeta 20 (-5) 5]].

Lemma ex_input : index_input ex_symbols ex_items.
Proof.
  split; [repeat constructor|]. split; [repeat constructor; unfold is_len; cbn; zlia|].
  assert (Hitem : Forall (item_ok ex_symbols) ex_items).
  { repeat constructor; cbn; try (intros ?; discriminate); try zlia; try (unfold short; cbn; lia);
      try (apply list_elem_of_In; cbn; tauto); vm_compute; reflexivity. }
  unfold ex_items in *. rewrite !Forall_cons in Hitem. destruct Hitem as (H1 & H2 & H3 & _).
  split; [exact H1|]. split; [repeat split; cbn; (discriminate || lia)|]. split; [exact H2|]. split; [repeat split; cbn; lia|].
  split; [exact H3|]. split; [|exact I]. repeat split; cbn; lia.
Qed.

Lemma ex_file : exists f, index_file ex_symbols ex_items = Ret (inr f).
Proof. eexists. vm_compute. reflexivity. Qed.

(** C7: the index file round-trips: the calls of the writer, with symbols in
    order and series in order, never panic and fail only when a size limit of
    the format is exceeded; the file they leave opens, its symbol table lists
    the symbols, and every series is read back under its number with its
    labels, its chunks and the value of each label. *)
Theorem index_series_roundtrip (V : VarintLib) (VOK : VarintLibOK V) (ss : list bytes) (items : list item)
    (Hin : index_input ss items) :
  match index_file ss items with
  | Panic => False
  | Ret (inl e) => size_error e = true
  | Ret (inr f) => exists r, newReader f = Ret (inr r)
      /\ Iter (r_symbols r) = Ret (inr (ss, None))
      /\ forall i it, items !! i = Some it -> exists id, ids ss items !! i = Some id
           /\ (forall builder want, Reader_Series r id builder want
                 = Ret (inr (mkScratch (it_labels it) [], if want then it_chunks it else [])))
           /\ forall label, Reader_LabelValueFor r id label
                 = match find_label label (it_labels it) with Some (x :: v) => Ret (inr (x :: v)) | _ => Ret (inl ENotFound) end
  end.
Proof.
  apply index_file_ok; [exact Hin|]. intros r Hr. split.
  - destruct (sh_symbols _ _ _ Hr) as (-> & Hwf & Hsy). apply Iter_ok; assumption.
  - intros i it Hi. destruct (Reader_Series_ok ss items r Hin Hr i it (mkScratch [] []) true Hi) as (id & Eid & _). exists id. split; [exact Eid|]. split.
    + intros builder want. destruct (Reader_Series_ok ss items r Hin Hr i it builder want Hi) as (id' & Eid' & E). congruence.
    + intros label. destruct (Reader_LabelValueFor_ok ss items r Hin Hr i it label Hi) as (id' & Eid' & E). congruence.
Qed.

Lemma index_series_roundtrip_witness : index_input ex_symbols ex_items /\ exists f, index_file (V := binary_VarintLib) ex_symbols ex_items = Ret (inr f)
  /\ exists r, newReader (V := binary_VarintLib) f = Ret (inr r)

      /\ Iter (r_symbols r) = Ret (inr (ex_symbols, None))
      /\ forall i it, ex_items !! i = Some it -> exists id, ids ex_symbols ex_items !! i = Some id
           /\ (forall builder want, Reader_Series r id builder want
                 = Ret (inr (mkScratch (it_labels it) [], if want then it_chunks it else [])))
           /\ forall label, Reader_LabelValueFor r id label
                 = match find_label label (it_labels it) with Some (x :: v) => Ret (inr (x :: v)) | _ => Ret (inl ENotFound) end.
Proof.
  split; [exact ex_input|]. pose proof (index_series_roundtrip binary_VarintLib binary_VarintLibOK ex_symbols ex_items ex_input) as H.
  destruct ex_file as [f E]. rewrite E in H. exists f. split; [exact E|exact H].
Defined.

(** C6: a query of the index answers like a search through all series: the
    iterators that [Postings] hands to [Merge] yield, for the values in order,
    exactly the numbers of the series that have the label, in increasing order;
    [PostingsForLabelMatching] does so for the values that match, in the order
    of the table; and the list of all series is complete. *)
Theorem index_postings_refine (V : VarintLib) (VOK : VarintLibOK V) (ss : list bytes) (items : list item)
    (Hin : index_input ss items) :
  match index_file ss items with
  | Panic => False
  | Ret (inl e) => size_error e = true
  | Ret (inr f) => exists r, newReader f = Ret (inr r)
      /\ (forall n values, n <> [] -> exists its, Reader_Postings r n values = Ret (inr its)
            /\ yield_lists its (map (with_label ss items n) (filter (fun v => with_label ss items n v <> []) (merge_sort str_le values))))
      /\ (forall range_map n match_, n <> [] -> exists its, PostingsForLabelMatching range_map r n match_ = Ret (inr its)
            /\ yield_lists its (map (with_label ss items n) (List.filter match_ (label_values ss items n))))
      /\ (forall range_map, exists its, PostingsForAllLabelValues range_map r [] = Ret (inr its) /\ yield_lists its [ids ss items])
  end.
Proof.
  apply index_file_ok; [exact Hin|]. intros r Hr. split; [|split].
  - intros n values Hn. eexists. split; [apply (query_postings ss items r Hin Hr n values Hn)|apply (label_iterators ss items r Hin Hr)].
  - intros range_map n m Hn. eexists. split; [apply (matching_postings ss items r Hin Hr range_map n (Some m) Hn)|apply (label_iterators ss items r Hin Hr)].
  - intros range_map. eexists. split; [apply (all_postings ss items r Hr range_map)|]. constructor; [|constructor]. destruct (ids_increasing ss items r Hin Hr).
    split; [apply iterator_rep|apply iterator_expands]; assumption.
Qed.

Lemma index_postings_refine_witness : index_input ex_symbols ex_items /\ exists f, index_file (V := binary_VarintLib) ex_symbols ex_items = Ret (inr f)
  /\ exists r, newReader (V := binary_VarintLib) f = Ret (inr r)

      /\ (forall n values, n <> [] -> exists its, Reader_Postings r n values = Ret (inr its)
            /\ yield_lists its (map (with_label ex_symbols ex_items n) (filter (fun v => with_label ex_symbols ex_items n v <> []) (merge_sort str_le values))))
      /\ (forall range_map n match_, n <> [] -> exists its, PostingsForLabelMatching range_map r n match_ = Ret (inr its)
            /\ yield_lists its (map (with_label ex_symbols ex_items n) (List.filter match_ (label_values ex_symbols ex_items n))))
      /\ (forall range_map, exists its, PostingsForAllLabelValues range_map r [] = Ret (inr its) /\ yield_lists its [ids ex_symbols ex_items]).
Proof.
  split; [exact ex_input|]. pose proof (index_postings_refine binary_VarintLib binary_VarintLibOK ex_symbols ex_items ex_input) as H.
  destruct ex_file as [f E]. rewrite E in H. exists f. split; [exact E|exact H].
Defined.

(** C27: the names and values of an index file: [LabelNames] lists the names that
    some series has, [LabelValues] the values that a name has in some series, no
    more than the limit of the hints, and [LabelNamesFor] the names of the given
    series; all in the order of the symbol table. *)
Theorem index_names_and_values (V : VarintLib) (VOK : VarintLibOK V) (ss : list bytes) (items : list item)
    (Hin : index_input ss items) :
  match index_file ss items with
  | Panic => False
  | Ret (inl e) => size_error e = true
  | Ret (inr f) => exists r, newReader f = Ret (inr r)
      /\ LabelNames r = filter (fun n => Exists (fun it => n ∈ map Name (it_labels it)) items) ss
      /\ (forall range_map n limit, n <> [] -> LabelValues range_map r n limit = Ret (inr (limited limit (label_values ss items n))))
      /\ forall l, Forall (fun x : Z * item => exists i, ids ss items !! i = Some (fst x) /\ items !! i = Some (snd x)) l ->
           LabelNamesFor r (map fst l) = Ret (inr (filter (fun n => n ∈ names_of (map snd l)) ss))
  end.
Proof.
  apply index_file_ok; [exact Hin|]. intros r Hr. split; [|split].
  - rewrite (LabelNames_ok ss items r Hin Hr). apply list_filter_iff_elem. intros n Hn. rewrite Exists_exists.
    pose proof (used_name ss items Hin n) as H. unfold used_names in H. rewrite list_elem_of_filter in H. split.
    + intros Hu. destruct (proj1 H (conj Hu Hn)) as (it & l & Hit & Hl & <-). exists it. split; [exact Hit|]. apply list_elem_of_fmap. eauto.
    + intros (it & Hit & Hl). apply list_elem_of_fmap in Hl. destruct Hl as (l & -> & Hl). apply H. eauto.
  - intros range_map n limit Hn. apply (LabelValues_ok ss items r Hin Hr range_map n limit Hn).
  - intros l Hl. apply (LabelNamesFor_ok ss items r Hin Hr l Hl).
Qed.

Lemma index_names_and_values_witness : index_input ex_symbols ex_items /\ exists f, index_file (V := binary_VarintLib) ex_symbols ex_items = Ret (inr f)
  /\ exists r, newReader (V := binary_VarintLib) f = Ret (inr r)

      /\ LabelNames r = filter (fun n => Exists (fun it => n ∈ map Name (it_labels it)) ex_items) ex_symbols
      /\ (forall range_map n limit, n <> [] -> LabelValues range_map r n limit = Ret (inr (limited limit (label_values ex_symbols ex_items n))))
      /\ forall l, Forall (fun x : Z * item => exists i, ids ex_symbols ex_items !! i = Some (fst x) /\ ex_items !! i = Some (snd x)) l ->
           LabelNamesFor r (map fst l) = Ret (inr (filter (fun n => n ∈ names_of (map snd l)) ex_symbols)).
Proof.
  split; [exact ex_input|]. pose proof (index_names_and_values binary_VarintLib binary_VarintLibOK ex_symbols ex_items ex_input) as H.
  destruct ex_file as [f E]. rewrite E in H. exists f. split; [exact E|exact H].
Defined.
