(* ===== verification/Merge.v ===== *)
(** * The union of postings ([Merge], [mergedPostings] in [tsdb/index/postings.go])

    [mergedPostings] walks over several sorted iterators at once.  The iterator
    with the least reference comes from a loser tree, a module of its own
    ([github.com/bboreham/go-loser]): class [LoserLib] holds its operations,
    [LoserLibOK] what is documented of them, in terms of the sequences of the
    tree, each of which was not started, stands at a value, or has ended. *)
From stdpp Require Import base list numbers strings.
From Stdlib Require Import ZArith Lia Sorted.
From S2P Require Import Prelude Postings.

(** ** The loser tree *)

Class LoserLib := {
  Tree : Type -> Type;
  loser_New : forall {T}, list T -> Z -> Tree T;
  loser_Next : forall {T} {ops : PostingsOps T}, nat -> Tree T -> option (bool * Tree T);
  loser_IsEmpty : forall {T} {ops : PostingsOps T}, nat -> Tree T -> option (bool * Tree T);
  loser_At : forall {T} {ops : PostingsOps T}, Tree T -> Z;
  loser_Winner : forall {T} {ops : PostingsOps T}, Tree T -> option T;
  loser_put : forall {T} {ops : PostingsOps T}, T -> Tree T -> Tree T; (** the sequence [Winner] points to has moved *)
  loser_Fix : forall {T} {ops : PostingsOps T}, bool -> Tree T -> Tree T;
  loser_seqs : forall {T}, Tree T -> list T    (** the sequences, which the caller keeps pointers to *)
}.

Inductive slot (T : Type) := Fresh (s : T) | Live (s : T) | Done (s : T).
Arguments Fresh {T}.
Arguments Live {T}.
Arguments Done {T}.

Definition slot_seq {T} (x : slot T) : T := match x with Fresh s | Live s | Done s => s end.
Definition is_live {T} (x : slot T) : bool := match x with Live _ => true | _ => false end.
Definition is_fresh {T} (x : slot T) : bool := match x with Fresh _ => true | _ => false end.
Definition moved {T} (o : bool * T) : slot T := if fst o then Live (snd o) else Done (snd o).

Class LoserLibOK {LL : LoserLib} := {
  holds : forall {T} {ops : PostingsOps T}, Z -> Tree T -> list (slot T) -> Prop;
  holds_new : forall {T} {ops : PostingsOps T} mx (l : list T), holds mx (loser_New l mx) (map Fresh l);
  holds_seqs : forall {T} {ops : PostingsOps T} mx (t : Tree T) sl, holds mx t sl -> loser_seqs t = map slot_seq sl;
  (** the first call of [Next] or [IsEmpty] starts every sequence *)
  holds_start : forall {T} {ops : PostingsOps T} mx (t : Tree T) l outs, holds mx t (map Fresh l) -> l <> [] ->
    Forall2 (fun s o => yields (fun f => pNext f s) o) l outs ->
    exists t', holds mx t' (map moved outs)
    /\ yields (fun f => loser_Next f t) (existsb is_live (map moved outs), t')
    /\ yields (fun f => loser_IsEmpty f t) (negb (existsb is_live (map moved outs)), t');
  holds_ended : forall {T} {ops : PostingsOps T} mx (t : Tree T) sl, holds mx t sl -> existsb is_fresh sl = false -> existsb is_live sl = false ->
    yields (fun f => loser_Next f t) (false, t) /\ yields (fun f => loser_IsEmpty f t) (true, t);
  (** the winner is a live sequence with the least value; [Next] moves it,
      [Fix] follows a move that the caller made *)
  holds_winner : forall {T} {ops : PostingsOps T} mx (t : Tree T) sl, holds mx t sl -> existsb is_fresh sl = false -> existsb is_live sl = true ->
    (forall s, Live s ∈ sl -> pAt s < mx) ->
    exists i s, sl !! i = Some (Live s) /\ (forall s', Live s' ∈ sl -> pAt s <= pAt s')
    /\ loser_Winner t = Some s /\ loser_At t = pAt s /\ yields (fun f => loser_IsEmpty f t) (false, t)
    /\ (forall o, yields (fun f => pNext f s) o -> exists t', holds mx t' (<[i := moved o]> sl)
          /\ yields (fun f => loser_Next f t) (existsb is_live (<[i := moved o]> sl), t'))
    /\ (forall b s', holds mx (loser_Fix b (loser_put s' t)) (<[i := moved (negb b, s')]> sl))
}.

(** ** [mergedPostings] *)

Definition MaxUint64 : Z := 2 ^ 64 - 1.

Section merged.
Context {LL : LoserLib} {T : Type} {ops : PostingsOps T}.

Record mergedPostings := mkMerged { mp_h : Tree T; mp_cur : Z }.

Definition newMergedPostings (p : list T) : mergedPostings * bool := (mkMerged (loser_New p MaxUint64) 0, true).

Fixpoint merged_Next (fuel : nat) (it : mergedPostings) : option (bool * mergedPostings) :=
  match fuel with
  | O => None
  | S f =>
      '(ok, h) ← loser_Next f (mp_h it);
      if negb ok then Some (false, mkMerged h (mp_cur it))
      else let newItem := loser_At h in
           if negb (newItem =? mp_cur it) then Some (true, mkMerged h newItem) else merged_Next f (mkMerged h (mp_cur it))
  end.

Fixpoint merged_Seek (fuel : nat) (id : Z) (it : mergedPostings) : option (bool * mergedPostings) :=
  match fuel with
  | O => None
  | S f =>
      '(empty, h) ← loser_IsEmpty f (mp_h it);
      if (empty : bool) then Some (false, mkMerged h (mp_cur it))
      else if loser_At h <? id then
        w ← loser_Winner h;
        '(ok, w) ← pSeek f id w;
        merged_Seek f id (mkMerged (loser_Fix (negb ok) (loser_put w h)) (mp_cur it))
      else Some (true, mkMerged h (loser_At h))
  end.

Fixpoint first_Err (p : list T) : option string :=
  match p with [] => None | s :: p => match pErr s with Some e => Some e | None => first_Err p end end.

#[export] Instance mergedPostings_ops : PostingsOps mergedPostings := {|
  pNext := merged_Next; pSeek := merged_Seek; pAt := mp_cur; pErr := fun it => first_Err (loser_seqs (mp_h it)) |}.

Definition Merge (its : list T) : errPostings + (T + mergedPostings) :=
  match its with
  | [] => inl EmptyPostings
  | [it] => inr (inl it)
  | _ => let '(p, ok) := newMergedPostings its in if ok : bool then inr (inr p) else inl EmptyPostings
  end.
End merged.
Arguments mergedPostings {LL} T.

(** ** What it yields *)

Section merged_ok.
Context {LL : LoserLib} {LOK : LoserLibOK} {maxref : Z} {T : Type} {ops : PostingsOps T} {TOK : PostingsOK maxref T}.
Hypothesis maxref_below : 0 <= maxref < MaxUint64.

(** A sequence and what it stands for: its value and what follows. *)
Definition slot_rep (x : slot T) (a : option (Z * list Z)) : Prop :=
  match x, a with
  | Live s, Some (h, r) => Rep s h h r /\ pAt s = h
  | Done s, None => pErr s = None
  | _, _ => False
  end.
Definition member (ab : list (option (Z * list Z))) (z : Z) : Prop := exists h r, Some (h, r) ∈ ab /\ z ∈ h :: r.

Definition started (it : mergedPostings T) (c : Z) (ab : list (option (Z * list Z))) : Prop :=
  mp_cur it = c /\ exists sl, holds MaxUint64 (mp_h it) sl /\ Forall2 slot_rep sl ab /\ (forall z, member ab z -> c <= z).

Definition RepM (it : mergedPostings T) (c m : Z) (l : list Z) : Prop :=
  wf_abs maxref c m l /\
  ((c = 0 /\ m = 0 /\ mp_cur it = 0 /\ exists ss ls, ss <> [] /\ holds MaxUint64 (mp_h it) (map Fresh ss)
      /\ Forall2 (fun s l => Rep s 0 0 l) ss ls /\ forall z, z ∈ l <-> Exists (fun l => z ∈ l) ls)
   \/ (0 < c /\ m = c /\ exists ab, started it c ab /\ member ab c /\ forall z, z ∈ l <-> c < z /\ member ab z)
   \/ (c = 0 /\ l = [] /\ exists sl, holds MaxUint64 (mp_h it) sl /\ Forall2 slot_rep sl (map (fun _ => None) sl))).

Lemma slots_states sl ab : Forall2 slot_rep sl ab ->
  existsb is_fresh sl = false /\ (existsb is_live sl = true <-> exists z, member ab z)
  /\ (forall s, Live s ∈ sl -> exists r, Some (pAt s, r) ∈ ab /\ Rep s (pAt s) (pAt s) r).
Proof.
  induction 1 as [|x a sl ab Hx _ (IH1 & IH2 & IH3)]; cbn [existsb].
  - split; [reflexivity|]. split; [split; [discriminate|]|].
    + intros (z & h & r & H & _). apply not_elem_of_nil in H as [].
    + intros s H. apply not_elem_of_nil in H as [].
  - destruct x as [s|s|s], a as [[h r]|]; try contradiction; cbn [is_fresh is_live orb].
    + destruct Hx as [Hr <-]. split; [exact IH1|]. split; [split; [intros _; exists (pAt s), (pAt s), r; split; left|reflexivity]|].
      intros s' Hs. apply elem_of_cons in Hs as [[= ->]|Hs]; [exists r; split; [left|exact Hr]|]. destruct (IH3 s' Hs) as (r' & H1 & H2). exists r'. split; [right; exact H1|exact H2].
    + split; [exact IH1|]. split.
      * rewrite IH2. split; intros (z & h & r & H & Hz); exists z, h, r; (split; [|exact Hz]); [right; exact H|apply elem_of_cons in H as [H|H]; [discriminate|exact H]].
      * intros s' Hs. apply elem_of_cons in Hs as [[=]|Hs]. destruct (IH3 s' Hs) as (r' & H1 & H2). exists r'. split; [right; exact H1|exact H2].
Qed.

(** Replacing what stands at one place. *)
Lemma member_insert ab i h r a' : ab !! i = Some (Some (h, r)) ->
  forall z, member (<[i := a']> ab) z <-> (exists j h' r', j <> i /\ ab !! j = Some (Some (h', r')) /\ z ∈ h' :: r') \/ (match a' with Some (h', r') => z ∈ h' :: r' | None => False end).
Proof.
  intros Hi z. pose proof (lookup_lt_Some _ _ _ Hi) as Hlt. unfold member. split.
  - intros (h' & r' & Hin & Hz). apply list_elem_of_lookup_1 in Hin as [j Hj]. destruct (decide (j = i)) as [->|Hn].
    + rewrite list_lookup_insert_eq in Hj by exact Hlt. injection Hj as ->. auto.
    + rewrite list_lookup_insert_ne in Hj by congruence. left. eauto 6.
  - intros [(j & h' & r' & Hn & Hj & Hz)|Ha].
    + exists h', r'. split; [|exact Hz]. apply (list_elem_of_lookup_2 _ j). rewrite list_lookup_insert_ne by congruence. exact Hj.
    + destruct a' as [[h' r']|]; [|contradiction]. exists h', r'. split; [|exact Ha]. apply (list_elem_of_lookup_2 _ i). apply list_lookup_insert_eq. exact Hlt.
Qed.

Lemma member_at ab i h r z : ab !! i = Some (Some (h, r)) -> z ∈ h :: r -> member ab z.
Proof. intros Hi Hz. exists h, r. split; [eapply list_elem_of_lookup_2; exact Hi|exact Hz]. Qed.

(** How much is left of the sequences. *)
Definition left_of (a : option (Z * list Z)) : nat := match a with Some (_, r) => S (length r) | None => 0%nat end.
Fixpoint total (ab : list (option (Z * list Z))) : nat := match ab with [] => 0%nat | a :: ab => (left_of a + total ab)%nat end.

Lemma total_insert ab i a a' : ab !! i = Some a -> (left_of a' < left_of a)%nat -> (total (<[i := a']> ab) < total ab)%nat.
Proof.
  revert i. induction ab as [|b ab IH]; intros [|i] Hi Hl; try discriminate; cbn in Hi.
  - injection Hi as ->. cbn. lia.
  - specialize (IH i Hi Hl). change (<[Datatypes.S i := a']> (b :: ab)) with (b :: <[i := a']> ab). cbn [total]. lia.
Qed.

Definition of_list (l : list Z) : option (Z * list Z) := match l with x :: r => Some (x, r) | [] => None end.

(** The winner, what it stands for, and what its moves lead to. *)
Lemma winner_ok t sl ab z0 : holds MaxUint64 t sl -> Forall2 slot_rep sl ab -> member ab z0 ->
  exists i s h r, ab !! i = Some (Some (h, r)) /\ (forall z, member ab z -> h <= z) /\ incr (h :: r) /\ 0 <= h
  /\ Rep s h h r /\ loser_Winner t = Some s /\ loser_At t = h /\ yields (fun f => loser_IsEmpty f t) (false, t)
  /\ (exists t' sl', holds MaxUint64 t' sl' /\ Forall2 slot_rep sl' (<[i := of_list r]> ab) /\ yields (fun f => loser_Next f t) (existsb is_live sl', t'))
  /\ (forall b s' l, slot_rep (moved (negb b, s')) (of_list l) -> exists sl', holds MaxUint64 (loser_Fix b (loser_put s' t)) sl' /\ Forall2 slot_rep sl' (<[i := of_list l]> ab)).
Proof.
  intros Ht Hs Hz. destruct (slots_states sl ab Hs) as (Hf & Hl & Hlive).
  destruct (holds_winner MaxUint64 t sl Ht Hf (proj2 Hl (ex_intro _ z0 Hz))) as (i & s & Hi & Hmin & Hw & Hat & He & Hnext & Hfix).
  { intros s Hin. destruct (Hlive s Hin) as (r & _ & Hr). apply rep_wf in Hr as (_ & _ & _ & Hm). apply Forall_cons_1 in Hm as [Hm _]. cbn in Hm. lia. }
  destruct (Forall2_lookup_l _ _ _ _ _ Hs Hi) as (a & Ha & Hrep). destruct a as [[h r]|]; [|contradiction]. destruct Hrep as [Hr Hpa].
  pose proof (rep_wf _ _ _ _ Hr) as (Hh & _ & Hinc & _). exists i, s, h, r. split; [exact Ha|]. split.
  { intros z (h' & r' & Hin & Hzin). apply list_elem_of_lookup_1 in Hin as [j Hj]. destruct (Forall2_lookup_r _ _ _ _ _ Hs Hj) as (x & Hx & Hxr).
    destruct x as [s'|s'|s']; try contradiction. destruct Hxr as [Hr' Hpa']. pose proof (Hmin s' (list_elem_of_lookup_2 _ _ _ Hx)).
    apply rep_wf in Hr' as (_ & _ & Hi' & _). apply elem_of_cons in Hzin as [->|Hzin]; [lia|]. pose proof (proj2 (incr_cons_inv _ _ Hi') z Hzin). lia. }
  split; [exact Hinc|]. split; [lia|]. split; [exact Hr|]. split; [exact Hw|]. split; [congruence|]. split; [exact He|]. split.
  - assert (Ho : exists o, yields (fun f => pNext f s) o /\ slot_rep (moved o) (of_list r)).
    { destruct r as [|x r].
      - destruct (next_nil _ _ _ Hr) as (s' & c' & m' & Hy & Hr' & _). exists (false, s'). split; [exact Hy|]. cbn. eapply rep_err. exact Hr'.
      - destruct (next_cons _ _ _ _ _ Hr) as (s' & Hy & Hr' & Hp). exists (true, s'). split; [exact Hy|]. cbn. auto. }
    destruct Ho as (o & Hy & Hor). destruct (Hnext o Hy) as (t' & Ht' & Hy'). exists t', (<[i := moved o]> sl). split; [exact Ht'|].
    split; [apply Forall2_insert; assumption|exact Hy'].
  - intros b s' l Hrep'. exists (<[i := moved (negb b, s')]> sl). split; [apply Hfix|]. apply Forall2_insert; assumption.
Qed.

(** After the winner has moved, what is above its value is as before. *)
Lemma member_step ab i h r z l : ab !! i = Some (Some (h, r)) -> (forall x, x ∈ l -> x ∈ h :: r) ->
  member (<[i := of_list l]> ab) z -> member ab z.
Proof.
  intros Hi Hl Hz. apply (member_insert ab i h r _ Hi) in Hz as [(j & h' & r' & _ & Hj & Hz)|Hz].
  - eapply member_at; eassumption.
  - eapply member_at; [exact Hi|]. apply Hl. destruct l as [|x l]; [contradiction|exact Hz].
Qed.

Lemma member_step_above ab i h r z l : ab !! i = Some (Some (h, r)) -> (z ∈ h :: r -> z ∈ l) -> member ab z -> member (<[i := of_list l]> ab) z.
Proof.
  intros Hi Hl (h' & r' & Hin & Hz). apply (member_insert ab i h r _ Hi). apply list_elem_of_lookup_1 in Hin as [j Hj].
  destruct (decide (j = i)) as [->|Hn]; [|left; eauto 6]. right. rewrite Hi in Hj. injection Hj as -> ->.
  specialize (Hl Hz). destruct l as [|x l]; [apply not_elem_of_nil in Hl as []|exact Hl].
Qed.

(** What [Next] and [Seek] leave when nothing is left. *)
Definition over (it : mergedPostings T) : Prop := exists sl, holds MaxUint64 (mp_h it) sl /\ Forall2 slot_rep sl (map (fun _ => None) sl).

Lemma none_live sl ab : Forall2 slot_rep sl ab -> existsb is_live sl = false -> Forall2 slot_rep sl (map (fun _ => None) sl) /\ forall z, ~ member ab z.
Proof.
  intros Hs Hl. split.
  - clear -Hs Hl. induction Hs as [|x a sl ab Hx _ IH]; cbn in *; constructor; [destruct x, a as [[]|]; try contradiction; [discriminate|exact Hx]|].
    apply IH. destruct x; [exact Hl|discriminate|exact Hl].
  - intros z Hz. destruct (slots_states sl ab Hs) as (_ & Hlive & _). rewrite (proj2 Hlive (ex_intro _ z Hz)) in Hl. discriminate.
Qed.

Lemma next_loop c N : forall t sl ab, (total ab <= N)%nat -> holds MaxUint64 t sl -> Forall2 slot_rep sl ab ->
  (forall z, member ab z -> c <= z) -> member ab c ->
  exists b it', yields (fun f => merged_Next f (mkMerged t c)) (b, it')
  /\ if b : bool then exists x ab', c < x /\ started it' x ab' /\ member ab' x /\ forall z, c < z -> member ab z <-> member ab' z
     else over it' /\ forall z, member ab z -> z <= c.
Proof.
  induction N as [|N IH]; intros t sl ab HN Ht Hs Hge Hc.
  { exfalso. destruct Hc as (h & r & Hin & _). clear -Hin HN. induction ab as [|a ab IHab]; [apply not_elem_of_nil in Hin as []|].
    cbn in HN. apply elem_of_cons in Hin as [<-|Hin]; [cbn in HN; lia|apply IHab; [lia|exact Hin]]. }
  destruct (winner_ok t sl ab c Ht Hs Hc) as (i & s & h & r & Hi & Hmin & Hinc & _ & _ & _ & _ & _ & (t' & sl' & Ht' & Hs' & Hy) & _).
  assert (h = c) as -> by (pose proof (Hmin c Hc); pose proof (Hge h (member_at _ _ _ _ _ Hi ltac:(left))); lia).
  set (ab' := <[i := of_list r]> ab) in *.
  assert (Hsub : forall z, member ab' z -> member ab z) by (intros z; apply (member_step ab i c r); [exact Hi|intros x Hx; right; exact Hx]).
  assert (Habove : forall z, c < z -> member ab z <-> member ab' z).
  { intros z Hz. split; [|apply Hsub]. apply (member_step_above ab i c r); [exact Hi|]. intros Hin. apply elem_of_cons in Hin as [->|Hin]; [lia|exact Hin]. }
  destruct (existsb is_live sl') eqn:El.
  - destruct (slots_states sl' ab' Hs') as (_ & Hlive & _). destruct (proj1 Hlive El) as [z0 Hz0].
    destruct (winner_ok t' sl' ab' z0 Ht' Hs' Hz0) as (i' & s' & h' & r' & Hi' & Hmin' & _ & _ & _ & _ & Hat & _).
    assert (Hh' : member ab' h') by (eapply member_at; [exact Hi'|left]).
    assert (Hstep : forall r, yields (fun f => if negb (h' =? c) then Some (true, mkMerged t' h') else merged_Next f (mkMerged t' c)) r ->
       yields (fun f => merged_Next f (mkMerged t c)) r).
    { intros res Hres. eapply yields_ext; [|apply (yields_step (fun f => '(ok, h0) ← loser_Next f t; if negb ok then Some (false, mkMerged h0 c)
          else let newItem := loser_At h0 in if negb (newItem =? c) then Some (true, mkMerged h0 newItem) else merged_Next f (mkMerged h0 c)))]; [intros [|f]; reflexivity|].
      y_step Hy. cbn [negb]. rewrite Hat. exact Hres. }
    destruct (Z.eqb_spec h' c) as [->|Hne]; cbn [negb] in Hstep.
    + destruct (IH t' sl' ab') as (b & it' & Hy' & Hb); [|exact Ht'|exact Hs'|intros z Hz; apply Hge, Hsub, Hz|exact Hh'|].
      { assert (total ab' < total ab)%nat; [|lia]. apply (total_insert ab i (Some (c, r)) (of_list r) Hi). destruct r; cbn; lia. }
      exists b, it'. split; [apply Hstep; exact Hy'|]. destruct b.
      * destruct Hb as (x & ab2 & H1 & H2 & H3 & H4). exists x, ab2. split; [exact H1|]. split; [exact H2|]. split; [exact H3|].
        intros z Hz. rewrite (Habove z Hz). apply H4. exact Hz.
      * destruct Hb as [H1 H2]. split; [exact H1|]. intros z Hz. destruct (Z.le_gt_cases z c); [assumption|]. apply H2, Habove; [lia|exact Hz].
    + exists true, (mkMerged t' h'). split; [apply Hstep, yields_ret|]. pose proof (Hge h' (Hsub h' Hh')).
      exists h', ab'. split; [lia|]. split; [split; [reflexivity|]; exists sl'; auto|]. split; [exact Hh'|exact Habove].
  - exists false, (mkMerged t' c). split.
    + eapply yields_ext; [|apply (yields_step (fun f => '(ok, h0) ← loser_Next f t; if negb ok then Some (false, mkMerged h0 c)
          else let newItem := loser_At h0 in if negb (newItem =? c) then Some (true, mkMerged h0 newItem) else merged_Next f (mkMerged h0 c)))]; [intros [|f]; reflexivity|].
      y_step Hy. apply yields_ret.
    + destruct (none_live sl' ab' Hs' El) as [Hd Hno]. split; [exists sl'; auto|]. intros z Hz. destruct (Z.le_gt_cases z c); [assumption|]. exfalso. apply (Hno z), Habove; [lia|exact Hz].
Qed.

(** One turn of the loop of [Seek]. *)
Definition seek_body (id : Z) (cur : Z) (f : nat) (o : bool * Tree T) : option (bool * mergedPostings T) :=
  let '(empty, h) := o in
  if (empty : bool) then Some (false, mkMerged h cur)
  else if loser_At h <? id then
    w ← loser_Winner h;
    '(ok, w) ← pSeek f id w;
    merged_Seek f id (mkMerged (loser_Fix (negb ok) (loser_put w h)) cur)
  else Some (true, mkMerged h (loser_At h)).

Lemma seek_turn id t cur o r : yields (fun f => loser_IsEmpty f t) o -> yields (fun f => seek_body id cur f o) r ->
  yields (fun f => merged_Seek f id (mkMerged t cur)) r.
Proof.
  intros Ho Hr. eapply yields_ext; [|apply (yields_step (fun f => o ← loser_IsEmpty f t; seek_body id cur f o))]; [intros [|f]; reflexivity|].
  eapply yields_bind; [exact Ho|exact Hr].
Qed.

Lemma drop_lt_length x l : (length (drop_lt x l) <= length l)%nat.
Proof. destruct (drop_lt_suffix x l) as (pre & E & _). apply (f_equal length) in E. rewrite length_app in E. lia. Qed.

Definition seek_result (id : Z) (ab : list (option (Z * list Z))) (o : bool * mergedPostings T) : Prop :=
  if fst o then exists x ab', started (snd o) x ab' /\ member ab' x /\ id <= x /\ forall z, id <= z -> member ab z <-> member ab' z
  else over (snd o) /\ forall z, member ab z -> z < id.

Lemma seek_loop id cur N : 1 <= id <= maxref -> forall t sl ab, (total ab <= N)%nat -> holds MaxUint64 t sl -> Forall2 slot_rep sl ab ->
  exists o, yields (fun f => loser_IsEmpty f t) (negb (existsb is_live sl), t)
  /\ yields (fun f => seek_body id cur f (negb (existsb is_live sl), t)) o /\ seek_result id ab o.
Proof.
  intros Hid. induction N as [|N IH]; intros t sl ab HN Ht Hs; destruct (existsb is_live sl) eqn:El; cbn [negb].
  2, 4: destruct (slots_states sl ab Hs) as (Hf & _); destruct (holds_ended _ _ _ Ht Hf El) as [_ He]; destruct (none_live sl ab Hs El) as [Hd Hno];
    exists (false, mkMerged t cur); split; [exact He|]; split; [apply yields_ret|]; split; [exists sl; auto|intros z Hz; destruct (Hno z Hz)].
  all: destruct (slots_states sl ab Hs) as (_ & Hlive & _); destruct (proj1 Hlive El) as [z0 Hz0];
    destruct (winner_ok t sl ab z0 Ht Hs Hz0) as (i & s & h & r & Hi & Hmin & Hinc & Hh & Hr & Hw & Hat & He & _ & Hfix).
  { exfalso. clear -Hi HN. revert i Hi. induction ab as [|a ab IHab]; intros [|i] Hi; try discriminate; cbn in Hi, HN; [injection Hi as ->; cbn in HN; lia|apply (IHab ltac:(lia) i Hi)]. }
  unfold seek_body. rewrite Hat. destruct (Z.ltb_spec h id) as [Hlt|Hge].
  - assert (Hseek : exists ok s', yields (fun f => pSeek f id s) (ok, s') /\ slot_rep (moved (negb (negb ok), s')) (of_list (drop_lt id (h :: r)))).
    { pose proof (live_seek s h r id Hr Hid) as Hk. destruct (drop_lt id (h :: r)) as [|y r'].
      - destruct Hk as (s' & c' & Hy & Hr' & _). exists false, s'. split; [exact Hy|]. cbn. eapply rep_err. exact Hr'.
      - destruct Hk as (s' & Hy & Hr' & Hp). exists true, s'. split; [exact Hy|]. cbn. auto. }
    destruct Hseek as (ok & s' & Hy & Hrep). destruct (Hfix _ _ _ Hrep) as (sl' & Ht' & Hs'). set (ab' := <[i := of_list (drop_lt id (h :: r))]> ab) in *.
    assert (Htot : (total ab' <= N)%nat).
    { assert (total ab' < total ab)%nat; [|lia]. apply (total_insert ab i (Some (h, r)) _ Hi). rewrite drop_lt_head_gt by lia. pose proof (drop_lt_length id r).
      destruct (drop_lt id r); cbn in *; lia. }
    destruct (IH _ sl' ab' Htot Ht' Hs') as (o & He' & Hb & Hres). exists o. split; [exact He|]. split.
    + rewrite Hw. cbn [mbind option_bind]. y_step Hy. apply (seek_turn id _ cur _ o He' Hb).
    + assert (Hsub : forall z, member ab' z -> member ab z).
      { intros z. apply (member_step ab i h r); [exact Hi|]. intros x Hx. apply (drop_lt_elem id (h :: r) x Hinc) in Hx. apply Hx. }
      assert (Habove : forall z, id <= z -> member ab z -> member ab' z).
      { intros z Hz. apply (member_step_above ab i h r); [exact Hi|]. intros Hin. apply (drop_lt_elem id (h :: r) z Hinc). auto. }
      unfold seek_result in *. destruct (fst o).
      * destruct Hres as (x & ab2 & H1 & H2 & H3 & H4). exists x, ab2. split; [exact H1|]. split; [exact H2|]. split; [exact H3|].
        intros z Hz. rewrite <- (H4 z Hz). split; [apply Habove; exact Hz|apply Hsub].
      * destruct Hres as [H1 H2]. split; [exact H1|]. intros z Hz. destruct (Z.lt_ge_cases z id) as [|Hzi]; [assumption|]. apply H2, (Habove z Hzi Hz).
  - exists (true, mkMerged t h). split; [exact He|]. split; [apply yields_ret|]. unfold seek_result. cbn [fst snd].
    exists h, ab. split; [split; [reflexivity|exists sl; auto]|]. split; [eapply member_at; [exact Hi|left]|]. split; [exact Hge|reflexivity].
Qed.

(** The lists of the sequences before they are started, and after. *)
Lemma start_ok t ss ls : holds MaxUint64 t (map Fresh ss) -> ss <> [] -> Forall2 (fun s l => Rep s 0 0 l) ss ls ->
  exists t' sl, holds MaxUint64 t' sl /\ Forall2 slot_rep sl (map of_list ls)
  /\ yields (fun f => loser_Next f t) (existsb is_live sl, t') /\ yields (fun f => loser_IsEmpty f t) (negb (existsb is_live sl), t').
Proof.
  intros Ht Hne Hss.
  assert (Houts : exists outs, Forall2 (fun s o => yields (fun f => pNext f s) o) ss outs /\ Forall2 slot_rep (map moved outs) (map of_list ls)).
  { clear -Hss. induction Hss as [|s l ss ls Hs _ (outs & H1 & H2)]; [exists []; split; constructor|].
    assert (Ho : exists o, yields (fun f => pNext f s) o /\ slot_rep (moved o) (of_list l)).
    { destruct l as [|x r].
      - destruct (next_nil _ _ _ Hs) as (s' & c' & m' & Hy & Hr' & _). exists (false, s'). split; [exact Hy|]. cbn. eapply rep_err. exact Hr'.
      - destruct (next_cons _ _ _ _ _ Hs) as (s' & Hy & Hr' & Hp). exists (true, s'). split; [exact Hy|]. cbn. auto. }
    destruct Ho as (o & Hy & Hr). exists (o :: outs). split; constructor; assumption. }
  destruct Houts as (outs & H1 & H2). destruct (holds_start MaxUint64 t ss outs Ht Hne H1) as (t' & Ht' & Hn & He). exists t', (map moved outs). auto.
Qed.

Lemma member_lists ls z : member (map of_list ls) z <-> Exists (fun l => z ∈ l) ls.
Proof.
  unfold member. rewrite Exists_exists. split.
  - intros (h & r & Hin & Hz). apply list_elem_of_fmap in Hin as (l & E & Hl). destruct l as [|x l]; [discriminate|]. injection E as -> ->. eauto.
  - intros (l & Hl & Hz). destruct l as [|x l]; [apply not_elem_of_nil in Hz as []|]. exists x, l. split; [apply list_elem_of_fmap; exists (x :: l); auto|exact Hz].
Qed.

Lemma lists_positive (ss : list T) ls : Forall2 (fun s l => Rep s 0 0 l) ss ls -> forall z, Exists (fun l => z ∈ l) ls -> 0 < z.
Proof.
  induction 1 as [|s l ss ls Hs _ IH]; intros z Hz; [inversion Hz|]. apply Exists_cons in Hz as [Hz|Hz]; [|apply IH; exact Hz].
  apply rep_wf in Hs as (_ & _ & Hi & _). exact (proj2 (incr_cons_inv _ _ Hi) z Hz).
Qed.

Lemma over_yields it : over it -> yields (fun f => merged_Next f it) (false, it) /\ forall id, yields (fun f => merged_Seek f id it) (false, it).
Proof.
  destruct it as [t cur]. intros (sl & Ht & Hs). cbn [mp_h] in Ht. destruct (slots_states _ _ Hs) as (Hf & Hl & _).
  assert (El : existsb is_live sl = false).
  { destruct (existsb is_live sl); [|reflexivity]. exfalso. destruct (proj1 Hl eq_refl) as (z & h & r & Hin & _). apply list_elem_of_fmap in Hin as (? & [=] & _). }
  destruct (holds_ended _ _ _ Ht Hf El) as [Hn He]. split.
  - eapply yields_ext; [|apply (yields_step (fun f => '(ok, h0) ← loser_Next f t; if negb ok then Some (false, mkMerged h0 cur)
          else let newItem := loser_At h0 in if negb (newItem =? cur) then Some (true, mkMerged h0 newItem) else merged_Next f (mkMerged h0 cur)))]; [intros [|f]; reflexivity|].
    y_step Hn. apply yields_ret.
  - intros id. apply (seek_turn id t cur _ _ He). apply yields_ret.
Qed.

Lemma merged_next it c m l : RepM it c m l -> exists b it', yields (fun f => merged_Next f it) (b, it')
  /\ if b : bool then exists x ab', c < x /\ started it' x ab' /\ member ab' x /\ forall z, c < z -> z ∈ l <-> member ab' z else over it' /\ l = [].
Proof.
  intros [Hw [H|[H|H]]].
  - destruct H as (-> & -> & Hcur & ss & ls & Hne & Ht & Hss & Hl). destruct it as [t cur]. cbn [mp_h mp_cur] in *. subst cur.
    destruct (start_ok t ss ls Ht Hne Hss) as (t' & sl & Ht' & Hs' & Hy & _). pose proof (lists_positive ss ls Hss) as Hpos.
    assert (Hstep : forall r, yields (fun f => if negb (existsb is_live sl) then Some (false, mkMerged t' 0) else
         if negb (loser_At t' =? 0) then Some (true, mkMerged t' (loser_At t')) else merged_Next f (mkMerged t' 0)) r -> yields (fun f => merged_Next f (mkMerged t 0)) r).
    { intros r Hr. eapply yields_ext; [|apply (yields_step (fun f => '(ok, h0) ← loser_Next f t; if negb ok then Some (false, mkMerged h0 0)
          else let newItem := loser_At h0 in if negb (newItem =? 0) then Some (true, mkMerged h0 newItem) else merged_Next f (mkMerged h0 0)))]; [intros [|f]; reflexivity|].
      y_step Hy. exact Hr. }
    destruct (existsb is_live sl) eqn:El; cbn [negb] in Hstep.
    + destruct (slots_states _ _ Hs') as (_ & Hlive & _). destruct (proj1 Hlive El) as [z0 Hz0].
      destruct (winner_ok t' sl _ z0 Ht' Hs' Hz0) as (i & s & h & r & Hi & Hmin & _ & _ & _ & _ & Hat & _).
      assert (Hh : member (map of_list ls) h) by (eapply member_at; [exact Hi|left]). assert (Hpos' : 0 < h) by (apply Hpos, member_lists; exact Hh).
      rewrite Hat, (proj2 (Z.eqb_neq h 0)) in Hstep by lia. exists true, (mkMerged t' h). split; [apply Hstep, yields_ret|].
      exists h, (map of_list ls). split; [exact Hpos'|]. split; [split; [reflexivity|exists sl; auto]|]. split; [exact Hh|].
      intros z _. rewrite Hl, member_lists. reflexivity.
    + exists false, (mkMerged t' 0). split; [apply Hstep, yields_ret|]. destruct (none_live sl _ Hs' El) as [Hd Hno]. split; [exists sl; auto|].
      destruct l as [|x l]; [reflexivity|]. exfalso. apply (Hno x), member_lists, Hl. left.
  - destruct H as (Hc & -> & ab & (Hcur & sl & Ht & Hs & Hge) & Hmc & Hl). destruct it as [t cur]. cbn [mp_h mp_cur] in *. subst cur.
    destruct (next_loop c (total ab) t sl ab ltac:(lia) Ht Hs Hge Hmc) as (b & it' & Hy & Hb). exists b, it'. split; [exact Hy|]. destruct b.
    + destruct Hb as (x & ab' & H1 & H2 & H3 & H4). exists x, ab'. split; [exact H1|]. split; [exact H2|]. split; [exact H3|].
      intros z Hz. rewrite Hl, <- (H4 z Hz). tauto.
    + destruct Hb as [H1 H2]. split; [exact H1|]. destruct l as [|x l]; [reflexivity|]. exfalso. destruct (proj1 (Hl x) ltac:(left)) as [H3 H4]. specialize (H2 x H4). lia.
  - destruct H as (-> & -> & Hd). exists false, it. split; [apply over_yields; exact Hd|]. split; [exact Hd|reflexivity].
Qed.

Lemma merged_seek it c m l x : RepM it c m l -> 1 <= x <= maxref -> exists o, yields (fun f => merged_Seek f x it) o
  /\ if fst o : bool then exists y ab', started (snd o) y ab' /\ member ab' y /\ x <= y
       /\ (c < x -> forall z, x <= z -> z ∈ l <-> member ab' z) /\ (x <= c -> y = c /\ forall z, z ∈ l <-> c < z /\ member ab' z)
     else over (snd o) /\ (forall z, z ∈ l -> z < x) /\ c < x.
Proof.
  intros [Hw H] Hx. pose proof Hw as (Hcm & _ & Hinc & _).
  assert (G : forall t cur ab, (exists o, yields (fun f => merged_Seek f x (mkMerged t cur)) o /\ seek_result x ab o) -> it = mkMerged t cur ->
     (forall z, z ∈ l <-> c < z /\ member ab z) -> (x <= c -> member ab c /\ forall z, member ab z -> c <= z) -> exists o, yields (fun f => merged_Seek f x it) o
      /\ if fst o : bool then exists y ab', started (snd o) y ab' /\ member ab' y /\ x <= y
           /\ (c < x -> forall z, x <= z -> z ∈ l <-> member ab' z) /\ (x <= c -> y = c /\ forall z, z ∈ l <-> c < z /\ member ab' z)
         else over (snd o) /\ (forall z, z ∈ l -> z < x) /\ c < x).
  { intros t cur ab (o & Hy & Ho) -> Hl Hat. exists o. split; [exact Hy|]. unfold seek_result in Ho. destruct (fst o).
    - destruct Ho as (y & ab' & H1 & H2 & H3 & H4). exists y, ab'. split; [exact H1|]. split; [exact H2|]. split; [exact H3|]. split.
      + intros Hc z Hz. rewrite Hl, <- (H4 z Hz). split; [tauto|]. intros Hm. split; [lia|exact Hm].
      + intros Hc. destruct (Hat Hc) as [Hm Hge]. destruct H1 as (_ & sl & _ & _ & Hge'). split.
        * apply Z.le_antisymm; [apply Hge', H4; assumption|apply Hge, H4; assumption].
        * intros z. rewrite Hl. split; intros [Hz Hmz]; (split; [exact Hz|]); apply H4; try assumption; lia.
    - destruct Ho as [H1 H2]. split; [exact H1|]. split; [intros z Hz; apply Hl in Hz as [_ Hz]; apply H2; exact Hz|].
      destruct (Z.lt_ge_cases c x); [assumption|]. destruct (Hat ltac:(lia)) as [Hm _]. specialize (H2 c Hm). lia. }
  destruct H as [H|[H|H]].
  - destruct H as (-> & -> & Hcur & ss & ls & Hne & Ht & Hss & Hl). destruct it as [t cur]. cbn [mp_h mp_cur] in *. subst cur.
    destruct (start_ok t ss ls Ht Hne Hss) as (t' & sl & Ht' & Hs' & _ & He). pose proof (lists_positive ss ls Hss) as Hpos.
    destruct (seek_loop x 0 (total (map of_list ls)) Hx t' sl (map of_list ls) ltac:(lia) Ht' Hs') as (o & _ & Hb & Ho).
    apply (G t 0 (map of_list ls)); [exists o; split; [apply (seek_turn x t 0 _ _ He Hb)|exact Ho]|reflexivity| |lia].
    intros z. rewrite Hl, member_lists. split; [intros Hz; split; [apply Hpos; exact Hz|exact Hz]|tauto].
  - destruct H as (Hc & -> & ab & (Hcur & sl & Ht & Hs & Hge) & Hmc & Hl). destruct it as [t cur]. cbn [mp_h mp_cur] in *. subst cur.
    destruct (seek_loop x c (total ab) Hx t sl ab ltac:(lia) Ht Hs) as (o & He & Hb & Ho).
    apply (G t c ab); [exists o; split; [apply (seek_turn x t c _ _ He Hb)|exact Ho]|reflexivity|exact Hl|auto].
  - destruct H as (-> & -> & Hd). exists (false, it). split; [apply over_yields; exact Hd|]. cbn [fst snd]. split; [exact Hd|]. split; [intros z Hz; apply not_elem_of_nil in Hz as []|lia].
Qed.

Lemma started_rep it x ab l : 0 < x -> started it x ab -> member ab x -> wf_abs maxref x x l -> (forall z, z ∈ l <-> x < z /\ member ab z) -> RepM it x x l.
Proof. intros Hx Hs Hm Hw Hl. split; [exact Hw|]. right. left. split; [exact Hx|]. split; [reflexivity|]. exists ab. auto. Qed.

Lemma over_rep it m : over it -> 0 <= m -> RepM it 0 m [].
Proof. intros H Hm. split; [apply wf_abs_nil; lia|]. right. right. auto. Qed.

Program Definition merged_ok : PostingsOK maxref (mergedPostings T) := {| Rep := RepM |}.
Next Obligation. intros s c m l H. apply H. Qed.
Next Obligation.
  intros [t cur] c m l [_ H]. cbn.
  assert (G : forall sl, holds MaxUint64 t sl -> Forall (fun x => pErr (slot_seq x) = None) sl -> first_Err (loser_seqs t) = None).
  { intros sl Ht Hf. rewrite (holds_seqs _ _ _ Ht). clear -Hf. induction Hf as [|x sl Hx _ IH]; [reflexivity|]. cbn. rewrite Hx. exact IH. }
  assert (G2 : forall sl ab, Forall2 slot_rep sl ab -> Forall (fun x => pErr (slot_seq x) = None) sl).
  { induction 1 as [|x a sl ab Hx _ IH]; constructor; [|exact IH]. destruct x, a as [[]|]; try contradiction; [apply (rep_err _ _ _ _ (proj1 Hx))|exact Hx]. }
  destruct H as [(_ & _ & _ & ss & ls & _ & Ht & Hss & _)|[(_ & _ & ab & (_ & sl & Ht & Hs & _) & _)|(_ & _ & sl & Ht & Hs)]]; cbn [mp_h] in Ht; eapply G; try exact Ht; try (eapply G2; exact Hs).
  clear -Hss. induction Hss as [|s l ss ls Hs _ IH]; constructor; [exact (rep_err _ _ _ _ Hs)|exact IH].
Qed.
Next Obligation.
  intros it c m x l H. destruct (merged_next it c m (x :: l) H) as (b & it' & Hy & Hb). destruct H as [Hw _]. destruct b; [|destruct Hb as [_ [=]]].
  destruct Hb as (y & ab & Hcy & Hs & Hm & Hl). pose proof Hw as (_ & _ & Hi & _). destruct (incr_cons_inv _ _ Hi) as [Hi2 Hlt]. destruct (incr_cons_inv _ _ Hi2) as [_ Hlt2].
  assert (y = x) as ->.
  { pose proof (proj2 (Hl y Hcy) Hm) as Hy'. pose proof (Hlt x ltac:(left)) as Hcx. pose proof (proj1 (Hl x Hcx) ltac:(left)) as Hmx.
    destruct Hs as (_ & sl & _ & _ & Hge). specialize (Hge x Hmx). apply elem_of_cons in Hy' as [->|Hy']; [reflexivity|]. specialize (Hlt2 y Hy'). lia. }
  exists it'. split; [exact Hy|]. split; [|apply Hs]. destruct Hw as (H0 & Hw). apply (started_rep it' x ab); [lia|exact Hs|exact Hm|apply (wf_abs_next maxref c m); split; assumption|].
  intros z. split.
  - intros Hz. pose proof (Hlt2 z Hz). split; [assumption|]. apply Hl; [lia|right; exact Hz].
  - intros [Hz Hmz]. apply Hl in Hmz; [|lia]. apply elem_of_cons in Hmz as [->|Hmz]; [lia|exact Hmz].
Qed.
Next Obligation.
  intros it c m H. destruct (merged_next it c m [] H) as (b & it' & Hy & Hb). destruct H as [(H0 & _) _]. destruct b.
  - destruct Hb as (y & ab & Hcy & _ & Hm & Hl). apply Hl in Hm; [apply not_elem_of_nil in Hm as []|exact Hcy].
  - exists it', 0, 0. split; [exact Hy|]. split; [apply over_rep; [apply Hb|lia]|]. split; [auto|]. split; [lia|auto].
Qed.
Next Obligation.
  intros it c m l x H Hx. pose proof H as [Hw _]. pose proof Hw as (H0 & Hmc & Hi & Hmax). apply Forall_cons_1 in Hmax as [Hmax _]. cbn in Hmax.
  destruct (merged_seek it c m l x H ltac:(lia)) as ([b it'] & Hy & Hb). cbn [fst snd] in Hb. destruct b; [|lia].
  destruct Hb as (y & ab & Hs & Hm & _ & _ & Hc). destruct (Hc ltac:(lia)) as [-> Hl]. exists it'. split; [exact Hy|]. split; [|apply Hs].
  assert (m = c) as -> by (destruct H as [_ [H|[H|H]]]; [lia|apply H|lia]).
  apply (started_rep it' c ab); [lia|exact Hs|exact Hm|exact Hw|exact Hl].
Qed.
Next Obligation.
  intros it c m l x H Hc Hmx Hx. pose proof H as [Hw _]. pose proof Hw as (H0 & Hmc & Hi & Hmax). destruct (incr_cons_inv _ _ Hi) as [Hil _].
  destruct (merged_seek it c m l x H ltac:(lia)) as ([b it'] & Hy & Hb). cbn [fst snd] in Hb. pose proof (drop_lt_elem x l) as Hd.
  destruct b.
  - destruct Hb as (y & ab & Hs & Hm & Hxy & Hl & _). specialize (Hl Hc). pose proof (proj2 (Hl y Hxy) Hm) as Hyl. pose proof (proj2 (Hd y Hil) (conj Hyl Hxy)) as Hyd.
    destruct (drop_lt x l) as [|y' r] eqn:E; [apply not_elem_of_nil in Hyd as []|]. pose proof (wf_abs_seek _ _ _ _ _ _ _ Hw E) as Hw'.
    assert (y' = y) as ->.
    { destruct (proj1 (Hd y' Hil) ltac:(left)) as [Hy'l Hxy']. destruct Hs as (_ & sl & _ & _ & Hge). pose proof (Hge y' (proj1 (Hl y' Hxy') Hy'l)).
      destruct Hw' as (_ & _ & Hi' & _). apply elem_of_cons in Hyd as [->|Hyd]; [reflexivity|]. pose proof (proj2 (incr_cons_inv _ _ Hi') y Hyd). lia. }
    exists it'. split; [exact Hy|]. split; [|apply Hs]. pose proof Hw' as (_ & _ & Hi' & _). destruct (incr_cons_inv _ _ Hi') as [_ Hlt].
    apply (started_rep it' y ab); [lia|exact Hs|exact Hm|exact Hw'|]. intros z. split.
    + intros Hz. pose proof (Hlt z Hz). split; [assumption|]. apply Hl; [lia|]. apply (Hd z Hil). right. exact Hz.
    + intros [Hz Hmz]. apply Hl in Hmz; [|lia]. assert (Hxz : x <= z) by lia. pose proof (proj2 (Hd z Hil) (conj Hmz Hxz)) as Hzd. apply elem_of_cons in Hzd as [->|Hzd]; [lia|exact Hzd].
  - destruct Hb as (Ho & Hl & _). destruct (drop_lt x l) as [|y' r] eqn:E.
    + exists it', 0. split; [exact Hy|]. split; [apply over_rep; [exact Ho|lia]|auto].
    + destruct (proj1 (Hd y' Hil) ltac:(left)) as [H1 H2]. specialize (Hl y' H1). lia.
Qed.
End merged_ok.

(** References below the value that marks an ended sequence of the tree. *)
Class BelowMax (maxref : Z) : Prop := below_max : 0 <= maxref < MaxUint64.

#[export] Instance mergedPostings_ok {LL : LoserLib} {LOK : LoserLibOK} {maxref : Z} {B : BelowMax maxref} {T : Type} {ops : PostingsOps T}
  {TOK : PostingsOK maxref T} : PostingsOK maxref (mergedPostings T) := merged_ok below_max.

Section union.
Context {LL : LoserLib} {LOK : LoserLibOK} {maxref : Z} {B : BelowMax maxref} {T : Type} {ops : PostingsOps T} {TOK : PostingsOK maxref T}.

#[export] Instance mergedPostings_robust : PostingsRobust maxref (mergedPostings T).
Proof.
  intros it c m [Hw H]. destruct Hw as (H0 & _ & _ & Hmax). apply Forall_cons_1 in Hmax as [Hmax _]. cbn in Hmax.
  split; [apply wf_abs_nil; lia|]. destruct H as [(-> & -> & H)|[(Hc & -> & H)|(-> & _ & H)]]; [left; auto|right; left; auto|right; right; auto].
Qed.

(** The union of iterators that were not started. *)
Lemma Merge_rep its ls l : Forall2 (fun s l => Rep s 0 0 l) its ls -> wf_abs maxref 0 0 l -> (forall z, z ∈ l <-> Exists (fun l => z ∈ l) ls) ->
  Rep (Merge its) 0 0 l.
Proof.
  intros Hss Hw Hl. pose proof below_max as Hb. destruct Hss as [|s l1 its ls Hs Hss]; [|destruct Hss as [|s2 l2 its ls Hs2 Hss]].
  - assert (l = []) as ->; [|cbn; repeat split; lia]. destruct l as [|x l]; [reflexivity|]. 
    pose proof (proj1 (Hl x) ltac:(left)) as Hx. inversion Hx.
  - assert (l = l1) as ->; [|exact Hs]. apply rep_wf in Hs as (_ & _ & Hi & _). destruct Hw as (_ & _ & Hi' & _).
    apply incr_ext; [apply (incr_cons_inv _ _ Hi')|apply (incr_cons_inv _ _ Hi)|]. intros z. rewrite Hl, Exists_cons, Exists_nil. tauto.
  - split; [exact Hw|]. left. cbn [mp_cur]. split; [reflexivity|]. split; [reflexivity|]. split; [reflexivity|]. exists (s :: s2 :: its), (l1 :: l2 :: ls).
    split; [discriminate|]. split; [apply holds_new|]. split; [repeat constructor; assumption|exact Hl].
Qed.
End union.

(** ** A tree by linear search *)

Section linear.
Context {T : Type} {ops : PostingsOps T}.

(** The place of a live sequence with the least value. *)
Fixpoint least (sl : list (slot T)) : option (nat * T) :=
  match sl with
  | [] => None
  | Live s :: sl =>
      match least sl with
      | Some (i, s') => if pAt s' <? pAt s then Some (S i, s') else Some (0%nat, s)
      | None => Some (0%nat, s)
      end
  | _ :: sl => option_map (fun '(i, s) => (S i, s)) (least sl)
  end.

Fixpoint start_all (f : nat) (sl : list (slot T)) : option (list (slot T)) :=
  match sl with
  | [] => Some []
  | Fresh s :: sl => o ← pNext f s; sl ← start_all f sl; Some (moved o :: sl)
  | x :: sl => sl ← start_all f sl; Some (x :: sl)
  end.

Definition linear_Next (f : nat) (sl : list (slot T)) : option (bool * list (slot T)) :=
  if existsb is_fresh sl then sl ← start_all f sl; Some (existsb is_live sl, sl)
  else match least sl with
       | Some (i, s) => o ← pNext f s; Some (existsb is_live (<[i := moved o]> sl), <[i := moved o]> sl)
       | None => Some (false, sl)
       end.
Definition linear_IsEmpty (f : nat) (sl : list (slot T)) : option (bool * list (slot T)) :=
  sl ← start_all f sl; Some (negb (existsb is_live sl), sl).
Definition linear_put (s : T) (sl : list (slot T)) : list (slot T) :=
  match least sl with Some (i, _) => <[i := Fresh s]> sl | None => sl end.
(** The sequence that was put is the fresh one. *)
Definition linear_Fix (finished : bool) (sl : list (slot T)) : list (slot T) :=
  map (fun x => match x with Fresh s => moved (negb finished, s) | _ => x end) sl.
End linear.

Definition linear_LoserLib : LoserLib := {|
  Tree := fun T => list (slot T); loser_New := fun T l _ => map Fresh l; loser_Next := @linear_Next; loser_IsEmpty := @linear_IsEmpty;
  loser_At := fun T ops sl => match least sl with Some (_, s) => pAt s | None => 0 end;
  loser_Winner := fun T ops sl => option_map snd (least sl); loser_put := @linear_put; loser_Fix := fun T _ => @linear_Fix T;
  loser_seqs := fun T sl => map slot_seq sl |}.

Section linear_ok.
Context {T : Type} {ops : PostingsOps T}.

Lemma least_spec (sl : list (slot T)) : match least sl with
  | Some (i, s) => sl !! i = Some (Live s) /\ forall s', Live s' ∈ sl -> pAt s <= pAt s'
  | None => existsb is_live sl = false end.
Proof.
  induction sl as [|x sl IH]; cbn; [reflexivity|]. destruct x as [s|s|s]; cbn.
  1, 3: destruct (least sl) as [[i s']|]; cbn; [|exact IH]; destruct IH as [H1 H2]; (split; [exact H1|]); intros s'' Hs; apply elem_of_cons in Hs as [[=]|Hs]; apply H2; exact Hs.
  destruct (least sl) as [[i s']|].
  - destruct IH as [H1 H2]. destruct (Z.ltb_spec (pAt s') (pAt s)); (split; [assumption || reflexivity|]); intros s'' Hs; apply elem_of_cons in Hs as [[= ->]|Hs];
      try lia; specialize (H2 s'' Hs); lia.
  - split; [reflexivity|]. intros s'' Hs. apply elem_of_cons in Hs as [[= ->]|Hs]; [lia|]. exfalso. clear -IH Hs. induction sl as [|x sl IHs]; [apply not_elem_of_nil in Hs as []|].
    cbn in IH. apply orb_false_iff in IH as [H1 H2]. apply elem_of_cons in Hs as [<-|Hs]; [discriminate|exact (IHs H2 Hs)].
Qed.

Lemma start_none f (sl : list (slot T)) : existsb is_fresh sl = false -> start_all f sl = Some sl.
Proof.
  induction sl as [|x sl IH]; cbn; [reflexivity|]. intros H. apply orb_false_iff in H as [H1 H2]. rewrite (IH H2). destruct x; [discriminate|reflexivity|reflexivity].
Qed.

Lemma start_fresh (l : list T) outs : Forall2 (fun s o => yields (fun f => pNext f s) o) l outs -> yields (fun f => start_all f (map Fresh l)) (map moved outs).
Proof.
  induction 1 as [|s o l outs Hy _ IH]; cbn [map start_all]; [apply yields_ret|]. y_step Hy. y_step IH. apply yields_ret.
Qed.
End linear_ok.

#[export] Program Instance linear_LoserLibOK : LoserLibOK (LL := linear_LoserLib) := {| holds := fun T ops mx t sl => t = sl |}.
Next Obligation. reflexivity. Qed.
Next Obligation. cbn. intros. subst. reflexivity. Qed.
Next Obligation.
  cbn. intros T ops mx t l outs -> Hne H. pose proof (start_fresh l outs H) as Hy. exists (map moved outs). split; [reflexivity|]. split.
  - unfold linear_Next. destruct l as [|s l]; [congruence|]. cbn [map existsb is_fresh orb]. y_step Hy. apply yields_ret.
  - unfold linear_IsEmpty. y_step Hy. apply yields_ret.
Qed.
Next Obligation.
  cbn. intros T ops mx t sl -> Hf Hl. pose proof (least_spec sl) as Hs. split.
  - exists 0%nat. intros n _. unfold linear_Next. rewrite Hf. destruct (least sl) as [[i s]|]; [|reflexivity]. exfalso. destruct Hs as [Hi _].
    assert (existsb is_live sl = true); [|congruence]. apply existsb_exists. exists (Live s). split; [|reflexivity]. apply list_elem_of_In. eapply list_elem_of_lookup_2. exact Hi.
  - exists 0%nat. intros n _. unfold linear_IsEmpty. rewrite start_none by exact Hf. cbn. rewrite Hl. reflexivity.
Qed.
Next Obligation.
  cbn. intros T ops mx t sl -> Hf Hl _. pose proof (least_spec sl) as Hs. destruct (least sl) as [[i s]|] eqn:E; [|congruence]. destruct Hs as [Hi Hmin].
  exists i, s. split; [exact Hi|]. split; [exact Hmin|]. split; [reflexivity|]. split; [reflexivity|]. split.
  { exists 0%nat. intros n _. unfold linear_IsEmpty. rewrite start_none by exact Hf. cbn. rewrite Hl. reflexivity. }
  split.
  - intros o Ho. eexists. split; [reflexivity|]. unfold linear_Next. rewrite Hf, E. y_step Ho. apply yields_ret.
  - intros b s'. unfold linear_Fix, linear_put. rewrite E.
    change (map ?g (<[i := Fresh s']> sl)) with (g <$> <[i := Fresh s']> sl). rewrite list_fmap_insert. f_equal. clear -Hf.
    induction sl as [|y sl IH]; cbn in *; [reflexivity|]. apply orb_false_iff in Hf as [Hy Hf]. rewrite (IH Hf). destruct y; [discriminate|reflexivity|reflexivity].
Qed.
