(* ===== verification/Regexp.v ===== *)
(** * Matching of label values by regular expressions ([model/labels/regexp.go])

    A matcher of a selector compares label values with a regular expression
    that is anchored at both ends.  [NewFastRegexMatcher] avoids the engine of
    regular expressions where it can: it looks for a finite set of values
    ([findSetMatches]), for literals that every value begins with, ends with or
    contains ([optimizeConcatRegex]), and for a [StringMatcher] that replaces
    the expression altogether ([stringMatcherFromRegexp]).  [RegexpSound]
    proves that the result matches what the expression means.

    The parser and the engine ([github.com/grafana/regexp], a fork of the
    standard library's [regexp]) are the class [RegexpLib]; [Regexp] is the
    syntax tree they hand over, [denotes] the meaning that the library
    documents for its operators.  The code clears parts of the tree in place: a
    function that does returns the tree it leaves.  The tables of [unicode] and
    the normalisation of [golang.org/x/text] are the class [Unicode]. *)
From stdpp Require Import base list numbers gmap strings.
From Stdlib Require Import ZArith Lia.
From S2P Require Import Prelude Utf8.

Notation "'let*' x := m 'in' k" := (outcome_bind m (fun x => k))
  (at level 10, x pattern, m at level 100, k at level 200) : go_scope.

(** ** The parts of the standard library that are used *)

Class Unicode := {
  SimpleFold : Z -> Z;    (** [unicode.SimpleFold]: the next character equal up to case *)
  ToLower : Z -> Z;       (** [unicode.ToLower] *)
  NFKD : bytes -> bytes   (** [norm.NFKD.String] *)
}.

Definition HasPrefix (s prefix : bytes) : bool := bool_decide (take (length prefix) s = prefix).
Definition HasSuffix (s suffix : bytes) : bool :=
  (length suffix <=? length s)%nat && bool_decide (drop (length s - length suffix) s = suffix).
Fixpoint Index (s sub : bytes) : option nat :=
  if HasPrefix s sub then Some 0%nat else match s with [] => None | _ :: t => option_map S (Index t sub) end.
Definition has_newline (s : bytes) : bool := existsb (Z.eqb 10) s.

Section strings.
Context {U : Unicode}.

(** [strings.EqualFold] on two characters; the characters that are equal up to
    case form cycles of at most four. *)
Fixpoint fold_loop (fuel : nat) (r sr tr : Z) : Z :=
  match fuel with
  | O => r
  | S f => if negb (r =? sr) && (r <? tr) then fold_loop f (SimpleFold r) sr tr else r
  end.
Definition fold_rune (x y : Z) : bool :=
  let sr := Z.min x y in
  let tr := Z.max x y in
  if sr =? tr then true
  else if tr <? 128 then (65 <=? sr) && (sr <=? 90) && (tr =? sr + 32)
  else fold_loop 8 (SimpleFold sr) sr tr =? tr.
Fixpoint fold_runes (s t : runes) : bool :=
  match s, t with
  | [], [] => true
  | x :: s, y :: t => fold_rune x y && fold_runes s t
  | _, _ => false
  end.
Definition EqualFold (s t : bytes) : bool := fold_runes (to_runes s) (to_runes t).
Definition map_lower (s : bytes) : bytes := of_runes (map ToLower (to_runes s)).

Definition hasPrefixCaseInsensitive (s prefix : bytes) : bool :=
  (length prefix <=? length s)%nat && EqualFold (take (length prefix) s) prefix.
Definition hasSuffixCaseInsensitive (s suffix : bytes) : bool :=
  (length suffix <=? length s)%nat && EqualFold (drop (length s - length suffix) s) suffix.

(** The slow path starts over from the byte that the fast one stopped at; the
    bytes before it are not capitals. *)
Fixpoint toNormalisedLowerSlow (s rest : bytes) (buf : bytes) : bytes :=
  match rest with
  | [] => buf
  | c :: rest => if 128 <=? c then map_lower (NFKD s)
                 else toNormalisedLowerSlow s rest (buf ++ [if (65 <=? c) && (c <=? 90) then c + 32 else c])
  end.
Fixpoint lower_from (s rest seen : bytes) : bytes :=
  match rest with
  | [] => s
  | c :: rest' => if 128 <=? c then map_lower (NFKD s)
                  else if (65 <=? c) && (c <=? 90) then toNormalisedLowerSlow s rest seen
                  else lower_from s rest' (seen ++ [c])
  end.
Definition toNormalisedLower (s : bytes) : bytes := lower_from s s [].
End strings.

Fixpoint containsInOrderMulti (s : bytes) (offset : nat) (contains : list bytes) : bool :=
  match contains with
  | [] => true
  | substr :: contains =>
      match Index (drop offset s) substr with
      | None => false
      | Some at_ => containsInOrderMulti s (offset + (at_ + length substr)) contains
      end
  end.
Definition containsInOrder (s : bytes) (contains : list bytes) : bool :=
  match contains with
  | [substr] => match Index s substr with Some _ => true | None => false end
  | _ => containsInOrderMulti s 0 contains
  end.

(** ** Syntax trees of regular expressions *)

Inductive op :=
| OpNoMatch | OpEmptyMatch | OpLiteral | OpCharClass | OpAnyCharNotNL | OpAnyChar | OpBeginLine | OpEndLine
| OpBeginText | OpEndText | OpWordBoundary | OpNoWordBoundary | OpCapture | OpStar | OpPlus | OpQuest | OpRepeat
| OpConcat | OpAlternate.

#[export] Instance op_eq_dec : EqDecision op.
Proof. solve_decision. Defined.

Inductive Regexp := mkRegexp (o : op) (flags : Z) (sub : list Regexp) (rune : runes).

Definition Op (re : Regexp) : op := let 'mkRegexp o _ _ _ := re in o.
Definition Flags (re : Regexp) : Z := let 'mkRegexp _ f _ _ := re in f.
Definition Sub (re : Regexp) : list Regexp := let 'mkRegexp _ _ s _ := re in s.
Definition Rune (re : Regexp) : runes := let 'mkRegexp _ _ _ r := re in r.
Definition with_sub (re : Regexp) (subs : list Regexp) : Regexp := mkRegexp (Op re) (Flags re) subs (Rune re).
Definition is_op (re : Regexp) (o : op) : bool := bool_decide (Op re = o).

Definition FoldCase : Z := 1.
Definition isCaseInsensitive (reg : Regexp) : bool := negb (Z.land (Flags reg) FoldCase =? 0).
Definition isCaseSensitive (reg : Regexp) : bool := negb (isCaseInsensitive reg).

Fixpoint re_size (re : Regexp) : nat :=
  let 'mkRegexp _ _ subs _ := re in
  S ((fix sizes (l : list Regexp) : nat := match l with [] => 0%nat | r :: l => (re_size r + sizes l)%nat end) subs).

Fixpoint clearCapture (r : Regexp) : outcome Regexp :=
  match r with
  | mkRegexp OpCapture _ (s :: _) _ => clearCapture s
  | mkRegexp OpCapture _ [] _ => Panic
  | _ => Ret r
  end.
Fixpoint clear_captures (regs : list Regexp) : outcome (list Regexp) :=
  match regs with
  | [] => Ret []
  | r :: regs => let* r := clearCapture r in let* regs := clear_captures regs in Ret (r :: regs)
  end.

Definition drop_begin (subs : list Regexp) : list Regexp :=
  match subs with s :: rest => if is_op s OpBeginText then rest else subs | [] => subs end.
Definition drop_end (subs : list Regexp) : list Regexp :=
  match last subs with Some e => if is_op e OpEndText then removelast subs else subs | None => subs end.
Definition clearBeginEndText (re : Regexp) : Regexp :=
  if is_op re OpAlternate then re
  else match Sub re with
       | [] => re
       | [s] => if is_op s OpBeginText || is_op s OpEndText then mkRegexp OpEmptyMatch (Flags re) [] (Rune re) else re
       | subs => with_sub re (drop_end (drop_begin subs))
       end.

(** ** Expressions that match finitely many values *)

Definition maxSetMatches : nat := 256.
Definition tooManyMatches (matches added : list bytes) : bool := (maxSetMatches <? length matches + length added)%nat.

(** The values found and whether they are to be compared exactly; the slices of
    the code are nil exactly when they are empty. *)
Abbreviation match_set := (list bytes * bool)%type.

Fixpoint class_pairs (rs : runes) : list (Z * Z) :=
  match rs with lo :: hi :: rs => (lo, hi) :: class_pairs rs | _ => [] end.
Definition class_total (rs : runes) : Z := foldr (fun '(lo, hi) n => hi - lo + 1 + n) 0 (class_pairs rs).
Definition class_matches (base : bytes) (rs : runes) : list bytes :=
  flat_map (fun '(lo, hi) => map (fun c => base ++ of_rune c) (seqZ lo (hi - lo + 1))) (class_pairs rs).

Section find.
(** [findSetMatchesInternal] on smaller trees. *)
Variable rec : Regexp -> bytes -> outcome (match_set * Regexp).

(** One element of a concatenation behind each of the values [bs] found so far;
    [first] tells that no case sensitivity was stored yet. *)
Fixpoint extend_bases (first : bool) (sub : Regexp) (bs newMatches : list bytes) (cs : bool)
    : outcome (option match_set * Regexp) :=
  match bs with
  | [] => Ret (Some (newMatches, cs), sub)
  | b :: bs =>
      let* ((m, caseSensitive), sub) := rec sub b in
      if bool_decide (m = []) then Ret (None, sub)
      else if tooManyMatches newMatches m then Ret (None, sub)
      else let cs := if first then caseSensitive else cs in
           if negb (eqb cs caseSensitive) then Ret (None, sub)
           else extend_bases false sub bs (newMatches ++ m) cs
  end.
Fixpoint concat_loop (first : bool) (subs : list Regexp) (matches : list bytes) (cs : bool) : outcome (match_set * list Regexp) :=
  match subs with
  | [] => Ret ((matches, cs), [])
  | sub :: subs =>
      let* (r, sub) := extend_bases first sub matches [] cs in
      match r with
      | None => Ret (([], false), sub :: subs)
      | Some (matches, cs) => let* (r, subs) := concat_loop false subs matches cs in Ret (r, sub :: subs)
      end
  end.
Definition findSetMatchesFromConcat (re : Regexp) (base : bytes) : outcome (match_set * Regexp) :=
  if bool_decide (length (Sub re) = 0%nat) then Ret (([], false), re)
  else let* subs := clear_captures (Sub re) in
       let* (r, subs) := concat_loop true subs [base] false in
       Ret (r, with_sub re subs).

Fixpoint alternate_loop (first : bool) (subs : list Regexp) (base : bytes) (matches : list bytes) (cs : bool)
    : outcome (match_set * list Regexp) :=
  match subs with
  | [] => Ret ((matches, cs), [])
  | sub :: subs =>
      let* ((found, caseSensitive), sub) := rec sub base in
      if bool_decide (found = []) then Ret (([], false), sub :: subs)
      else if tooManyMatches matches found then Ret (([], false), sub :: subs)
      else let cs := if first then caseSensitive else cs in
           if negb (eqb cs caseSensitive) then Ret (([], false), sub :: subs)
           else let* (r, subs) := alternate_loop false subs base (matches ++ found) cs in Ret (r, sub :: subs)
  end.
Definition findSetMatchesFromAlternate (re : Regexp) (base : bytes) : outcome (match_set * Regexp) :=
  let* (r, subs) := alternate_loop true (Sub re) base [] false in Ret (r, with_sub re subs).
End find.

Fixpoint findSetMatchesInternal (fuel : nat) (re : Regexp) (base : bytes) : outcome (match_set * Regexp) :=
  match fuel with
  | O => Panic
  | S f =>
      match Op re with
      | OpBeginText | OpEndText => Ret (([], false), re)
      | OpLiteral => Ret (([base ++ of_runes (Rune re)], isCaseSensitive re), re)
      | OpEmptyMatch => if bool_decide (base = []) then Ret (([], false), re) else Ret (([base], isCaseSensitive re), re)
      | OpAlternate => findSetMatchesFromAlternate (findSetMatchesInternal f) re base
      | OpCapture => let* re := clearCapture re in findSetMatchesInternal f re base
      | OpConcat => findSetMatchesFromConcat (findSetMatchesInternal f) re base
      | OpCharClass =>
          if negb (Z.of_nat (length (Rune re)) mod 2 =? 0) then Ret (([], false), re)
          else if Z.of_nat maxSetMatches <? class_total (Rune re) then Ret (([], false), re)
          else Ret ((class_matches base (Rune re), isCaseSensitive re), re)
      | _ => Ret (([], false), re)
      end
  end.

(** A tree of size [n] is searched with [n] levels of recursion. *)
Definition findSetMatches (re : Regexp) : outcome (match_set * Regexp) :=
  let re := clearBeginEndText re in findSetMatchesInternal (re_size re) re [].

(** ** String matchers *)

(** [equalMultiStringSliceMatcher] and [equalMultiStringMapMatcher], over the
    type of the matchers they hold; the map of prefixes is a list of its entries. *)
Inductive multiStringMatcherBuilder (M : Type) :=
| equalMultiStringSliceMatcher (values : list bytes) (caseSensitive : bool)
| equalMultiStringMapMatcher (values : gset bytes) (prefixes : list (bytes * list M)) (minPrefixLen : nat) (caseSensitive : bool).
Arguments equalMultiStringSliceMatcher {M}.
Arguments equalMultiStringMapMatcher {M}.

(** A matcher that may be nil is an [option]. *)
Inductive StringMatcher :=
| containsStringMatcher (left : option StringMatcher) (substrings : list bytes) (right : option StringMatcher)
| literalPrefixSensitiveStringMatcher (prefix : bytes) (right : StringMatcher)
| literalPrefixInsensitiveStringMatcher (prefix : bytes) (right : StringMatcher)
| literalSuffixStringMatcher (left : StringMatcher) (suffix : bytes) (suffixCaseSensitive : bool)
| emptyStringMatcher
| orStringMatcher (ms : list StringMatcher)
| equalStringMatcher (s : bytes) (caseSensitive : bool)
| multiStringMatcher (b : multiStringMatcherBuilder StringMatcher)
| anyStringWithoutNewlineMatcher
| anyNonEmptyStringMatcher (matchNL : bool)
| zeroOrOneCharacterStringMatcher (matchNL : bool)
| trueMatcher.

Definition zero_or_one (matchNL : bool) (s : bytes) : bool :=
  let '(r, size) := DecodeRuneInString s in
  if r =? RuneError then bool_decide (size = length s)
  else if (size <? length s)%nat then false
  else if matchNL || bool_decide (length s = 0%nat) then true
  else negb (nth 0 s 0 =? 10).

(** The search of [containsStringMatcher] for an occurrence of [substr] whose
    two sides match; slicing beyond the end panics. *)
Fixpoint contains_loop (fuel : nat) (left right : bytes -> outcome bool) (s substr : bytes) (searchStartPos : nat) : outcome bool :=
  match fuel with
  | O => Panic
  | S f =>
      if (length s <? searchStartPos)%nat then Panic
      else match Index (drop searchStartPos s) substr with
           | None => Ret false
           | Some pos =>
               let pos := (pos + searchStartPos)%nat in
               let* l := left (take pos s) in
               let* r := if l : bool then right (drop (pos + length substr) s) else Ret false in
               if r : bool then Ret true else contains_loop f left right s substr (pos + 1)
           end
  end.

Section matches.
Context {U : Unicode}.

Definition or_else (a : outcome bool) (b : unit -> outcome bool) : outcome bool :=
  let* r := a in if r : bool then Ret true else b tt.

Fixpoint Matches (m : StringMatcher) (s : bytes) {struct m} : outcome bool :=
  match m with
  | containsStringMatcher before substrings after =>
      (fix each (substrings : list bytes) : outcome bool :=
         match substrings with
         | [] => Ret false
         | substr :: substrings =>
             or_else (match before, after with
                      | Some l, Some r => contains_loop (length s + 2) (Matches l) (Matches r) s substr 0
                      | Some l, None => if HasSuffix s substr then Matches l (take (length s - length substr) s) else Ret false
                      | None, Some r => if HasPrefix s substr then Matches r (drop (length substr) s) else Ret false
                      | None, None => Ret false
                      end) (fun _ => each substrings)
         end) substrings
  | literalPrefixSensitiveStringMatcher prefix m =>
      if HasPrefix s prefix then Matches m (drop (length prefix) s) else Ret false
  | literalPrefixInsensitiveStringMatcher prefix m =>
      if hasPrefixCaseInsensitive s prefix then Matches m (drop (length prefix) s) else Ret false
  | literalSuffixStringMatcher m suffix suffixCaseSensitive =>
      if suffixCaseSensitive && negb (HasSuffix s suffix) then Ret false
      else if negb suffixCaseSensitive && negb (hasSuffixCaseInsensitive s suffix) then Ret false
      else Matches m (take (length s - length suffix) s)
  | emptyStringMatcher => Ret (bool_decide (length s = 0%nat))
  | orStringMatcher ms =>
      (fix any (ms : list StringMatcher) : outcome bool :=
         match ms with [] => Ret false | m :: ms => or_else (Matches m s) (fun _ => any ms) end) ms
  | equalStringMatcher v caseSensitive => Ret (if caseSensitive then bool_decide (v = s) else EqualFold v s)
  | multiStringMatcher (equalMultiStringSliceMatcher values caseSensitive) =>
      Ret (if caseSensitive then bool_decide (s ∈ values) else existsb (EqualFold s) values)
  | multiStringMatcher (equalMultiStringMapMatcher values prefixes minPrefixLen caseSensitive) =>
      let norm := fun s => if caseSensitive then s else toNormalisedLower s in
      or_else (Ret (bool_decide (norm s ∈ values)))
        (fun _ => if (0 <? minPrefixLen)%nat && (minPrefixLen <=? length s)%nat then
             let prefix := norm (take minPrefixLen s) in
             (fix get (prefixes : list (bytes * list StringMatcher)) : outcome bool :=
                match prefixes with
                | [] => Ret false
                | (k, ms) :: prefixes =>
                    if bool_decide (k = prefix) then
                      (fix any (ms : list StringMatcher) : outcome bool :=
                         match ms with [] => Ret false | m :: ms => or_else (Matches m s) (fun _ => any ms) end) ms
                    else get prefixes
                end) prefixes
           else Ret false)
  | anyStringWithoutNewlineMatcher => Ret (negb (has_newline s))
  | anyNonEmptyStringMatcher matchNL =>
      Ret (if matchNL then (0 <? length s)%nat else (0 <? length s)%nat && negb (has_newline s))
  | zeroOrOneCharacterStringMatcher matchNL => Ret (zero_or_one matchNL s)
  | trueMatcher => Ret true
  end.
End matches.

(** ** Sets of values and prefixes *)

Definition minEqualMultiStringMatcherMapThreshold : Z := 16.

Abbreviation builder := (multiStringMatcherBuilder StringMatcher).

Definition newEqualMultiStringMatcher (caseSensitive : bool) (estimatedSize estimatedPrefixes : Z) (minPrefixLength : nat) : builder :=
  if (estimatedSize <? minEqualMultiStringMatcherMapThreshold) && (estimatedPrefixes =? 0)
  then equalMultiStringSliceMatcher [] caseSensitive
  else equalMultiStringMapMatcher ∅ [] minPrefixLength caseSensitive.

Fixpoint add_to (k : bytes) (m : StringMatcher) (prefixes : list (bytes * list StringMatcher)) : list (bytes * list StringMatcher) :=
  match prefixes with
  | [] => [(k, [m])]
  | (k', ms) :: prefixes => if bool_decide (k' = k) then (k', ms ++ [m]) :: prefixes else (k', ms) :: add_to k m prefixes
  end.

Section matchers.
Context {U : Unicode}.

Definition add (b : builder) (s : bytes) : builder :=
  match b with
  | equalMultiStringSliceMatcher values cs => equalMultiStringSliceMatcher (values ++ [s]) cs
  | equalMultiStringMapMatcher values prefixes n cs =>
      equalMultiStringMapMatcher ({[ if cs then s else toNormalisedLower s ]} ∪ values) prefixes n cs
  end.
Definition addPrefix (b : builder) (prefix : bytes) (prefixCaseSensitive : bool) (matcher : StringMatcher) : outcome builder :=
  match b with
  | equalMultiStringSliceMatcher _ _ => Panic
  | equalMultiStringMapMatcher values prefixes n cs =>
      if bool_decide (n = 0%nat) then Panic
      else if (length prefix <? n)%nat then Panic
      else if negb (eqb cs prefixCaseSensitive) then Panic
      else let s := take n prefix in
           let s := if cs then s else map_lower s in
           Ret (equalMultiStringMapMatcher values (add_to s matcher prefixes) n cs)
  end.

(** Go leaves the order of a map's keys open: [range_set] lists them. *)
Definition setMatches (range_set : gset bytes -> list bytes) (b : builder) : list bytes :=
  match b with
  | equalMultiStringSliceMatcher values _ => values
  | equalMultiStringMapMatcher values prefixes _ _ =>
      if (maxSetMatches <=? size values)%nat || (0 <? length prefixes)%nat then [] else range_set values
  end.

(** ** [optimizeEqualOrPrefixStringMatchers] *)

(** The walk over an alternation, with the callbacks' state [St]. *)
Fixpoint findEqualOrPrefixStringMatchers {St} (equalMatcherCallback : bytes -> bool -> GoM St bool)
    (prefixMatcherCallback : bytes -> bool -> StringMatcher -> GoM St bool) (input : StringMatcher) : GoM St bool :=
  match input with
  | orStringMatcher ms =>
      (fix each (ms : list StringMatcher) : GoM St bool :=
         match ms with
         | [] => go_ret true
         | m :: ms =>
             ok <-- match m with
                    | orStringMatcher _ => findEqualOrPrefixStringMatchers equalMatcherCallback prefixMatcherCallback m
                    | equalStringMatcher s cs => equalMatcherCallback s cs
                    | literalPrefixSensitiveStringMatcher prefix _ => prefixMatcherCallback prefix true m
                    | literalPrefixInsensitiveStringMatcher prefix _ => prefixMatcherCallback prefix false m
                    | _ => go_ret false
                    end ;;
             if ok : bool then each ms else go_ret false
         end) ms
  | _ => go_ret false
  end.

(** What the analysis of the alternation counts. *)
Record analysis := mkAnalysis {
  an_caseSensitive : bool; an_set : bool; an_numValues : Z; an_numPrefixes : Z; an_minPrefixLength : nat }.

Definition analyse_equal (_ : bytes) (cs : bool) : GoM analysis bool := fun a =>
  if an_set a && negb (eqb (an_caseSensitive a) cs) then Ret (false, a)
  else let c := if an_set a then an_caseSensitive a else cs in
       Ret (true, mkAnalysis c true (an_numValues a + 1) (an_numPrefixes a) (an_minPrefixLength a)).
Definition analyse_prefix (prefix : bytes) (cs : bool) (_ : StringMatcher) : GoM analysis bool := fun a =>
  if an_set a && negb (eqb (an_caseSensitive a) cs) then Ret (false, a)
  else let c := if an_set a then an_caseSensitive a else cs in
       let n := if (an_numPrefixes a =? 0) || (length prefix <? an_minPrefixLength a)%nat then length prefix else an_minPrefixLength a in
       Ret (true, mkAnalysis c true (an_numValues a) (an_numPrefixes a + 1) n).

Definition add_value (s : bytes) (_ : bool) : GoM builder bool := fun b => Ret (true, add b s).
Definition add_prefix (caseSensitive : bool) (prefix : bytes) (_ : bool) (m : StringMatcher) : GoM builder bool := fun b =>
  let* b := addPrefix b prefix caseSensitive m in Ret (true, b).

Definition optimizeEqualOrPrefixStringMatchers (input : StringMatcher) (threshold : Z) : outcome StringMatcher :=
  let* (ok, a) := findEqualOrPrefixStringMatchers analyse_equal analyse_prefix input (mkAnalysis false false 0 0 0) in
  if negb ok then Ret input
  else if an_numValues a + an_numPrefixes a <? threshold then Ret input
  else let* (_, b) := findEqualOrPrefixStringMatchers add_value (add_prefix (an_caseSensitive a)) input
                        (newEqualMultiStringMatcher (an_caseSensitive a) (an_numValues a) (an_numPrefixes a) (an_minPrefixLength a)) in
       Ret (multiStringMatcher b).

(** ** [stringMatcherFromRegexp] *)

Definition any_char (re : Regexp) : bool := is_op re OpAnyChar || is_op re OpAnyCharNotNL.
Definition repeats (re : Regexp) : bool := is_op re OpPlus || is_op re OpStar || is_op re OpQuest.
(** [re.Sub[0]] *)
Definition sub0 (re : Regexp) : outcome Regexp := match Sub re with s :: _ => Ret s | [] => Panic end.

Definition newLiteralPrefixStringMatcher (prefix : bytes) (prefixCaseSensitive : bool) (right_ : StringMatcher) : StringMatcher :=
  if prefixCaseSensitive then literalPrefixSensitiveStringMatcher prefix right_
  else literalPrefixInsensitiveStringMatcher prefix right_.

Section from_regexp.
(** [stringMatcherFromRegexpInternal] on smaller trees. *)
Variable rec : Regexp -> outcome (option StringMatcher).

Fixpoint alternatives (subs : list Regexp) : outcome (option (list StringMatcher)) :=
  match subs with
  | [] => Ret (Some [])
  | sub :: subs =>
      let* m := rec sub in
      match m with
      | None => Ret None
      | Some m => let* ms := alternatives subs in Ret (option_map (cons m) ms)
      end
  end.

(** The matchers before and after the elements [subs] of a concatenation; [None]
    if an element at an end repeats something the matchers do not support. *)
Definition take_left (subs : list Regexp) : outcome (option (option StringMatcher * list Regexp)) :=
  match subs with
  | first :: rest =>
      if repeats first then let* m := rec first in Ret (match m with None => None | Some _ => Some (m, rest) end)
      else Ret (Some (None, subs))
  | [] => Panic
  end.
Definition take_right (subs : list Regexp) : outcome (option (option StringMatcher * list Regexp)) :=
  match last subs with
  | Some e =>
      if repeats e then let* m := rec e in Ret (match m with None => None | Some _ => Some (m, removelast subs) end)
      else Ret (Some (None, subs))
  | None => Panic
  end.

(** A literal next to a part that has a matcher. *)
Definition literal_and_matcher (before after : option StringMatcher) (subs : list Regexp) (r : match_set)
    : outcome (option StringMatcher * option StringMatcher * match_set) :=
  match subs with
  | [s0; s1] =>
      if negb (bool_decide (fst r = [])) then Ret (before, after, r)
      else if bool_decide (after = None) && is_op s0 OpLiteral then
        let* after := rec s1 in
        Ret (before, after, if after is Some _ then ([of_runes (Rune s0)], negb (isCaseInsensitive s0)) else r)
      else if bool_decide (before = None) && is_op s1 OpLiteral then
        let* before := rec s0 in
        Ret (before, after, if before is Some _ then ([of_runes (Rune s1)], negb (isCaseInsensitive s1)) else r)
      else Ret (before, after, r)
  | _ => Ret (before, after, r)
  end.

Definition concat_matcher (before after : option StringMatcher) (r : match_set) : option StringMatcher :=
  let '(matches, cs) := r in
  match matches with
  | [] => None
  | m :: more =>
      match before, after with
      | None, None => Some (orStringMatcher (map (fun m => equalStringMatcher m cs) matches))
      | None, Some a =>
          if bool_decide (length matches = 1%nat) then Some (newLiteralPrefixStringMatcher m cs a)
          else if cs then Some (containsStringMatcher before matches after) else None
      | Some b, None =>
          if bool_decide (length matches = 1%nat) then Some (literalSuffixStringMatcher b m cs)
          else if cs then Some (containsStringMatcher before matches after) else None
      | Some _, Some _ => if cs then Some (containsStringMatcher before matches after) else None
      end
  end.

Definition from_concat (re : Regexp) : outcome (option StringMatcher) :=
  let* subs := clear_captures (Sub re) in
  match subs with
  | [] => Ret (Some emptyStringMatcher)
  | [s] => rec s
  | _ =>
      let* l := take_left subs in
      match l with
      | None => Ret None
      | Some (before, subs) =>
          let* r := take_right subs in
          match r with
          | None => Ret None
          | Some (after, subs) =>
              let re := with_sub re subs in
              let* (found, re) := findSetMatchesInternal (re_size re) re [] in
              let* (before, after, found) := literal_and_matcher before after (Sub re) found in
              Ret (concat_matcher before after found)
          end
      end
  end.
End from_regexp.

Fixpoint stringMatcherFromRegexpInternal (fuel : nat) (re : Regexp) : outcome (option StringMatcher) :=
  match fuel with
  | O => Panic
  | S f =>
      let* re := clearCapture re in
      match Op re with
      | OpBeginText | OpEndText => Ret None
      | OpPlus => let* s := sub0 re in Ret (if any_char s then Some (anyNonEmptyStringMatcher (is_op s OpAnyChar)) else None)
      | OpStar =>
          let* s := sub0 re in
          Ret (if any_char s then Some (if is_op s OpAnyChar then trueMatcher else anyStringWithoutNewlineMatcher) else None)
      | OpQuest =>
          if negb (bool_decide (length (Sub re) = 1%nat)) then Ret None
          else let* s := sub0 re in Ret (if any_char s then Some (zeroOrOneCharacterStringMatcher (is_op s OpAnyChar)) else None)
      | OpEmptyMatch => Ret (Some emptyStringMatcher)
      | OpLiteral => Ret (Some (equalStringMatcher (of_runes (Rune re)) (negb (isCaseInsensitive re))))
      | OpAlternate => let* ms := alternatives (stringMatcherFromRegexpInternal f) (Sub re) in Ret (option_map orStringMatcher ms)
      | OpConcat => from_concat (stringMatcherFromRegexpInternal f) re
      | _ => Ret None
      end
  end.

Definition stringMatcherFromRegexp (re : Regexp) : outcome (option StringMatcher) :=
  let re := clearBeginEndText re in
  let* m := stringMatcherFromRegexpInternal (re_size re) re in
  match m with
  | None => Ret None
  | Some m => let* m := optimizeEqualOrPrefixStringMatchers m minEqualMultiStringMatcherMapThreshold in Ret (Some m)
  end.
End matchers.

(** Literals that every matching value begins with, ends with, and contains;
    the tree's captures are cleared. *)
Definition case_sensitive_literal (re : Regexp) : bool := is_op re OpLiteral && (Z.land (Flags re) FoldCase =? 0).
Definition optimizeConcatRegex (r : Regexp) : outcome (bytes * bytes * list bytes * Regexp) :=
  let* subs := clear_captures (Sub r) in
  let r := with_sub r subs in
  let sub := drop_end (drop_begin subs) in
  match sub with
  | [] => Ret ([], [], [], r)
  | first :: rest =>
      let prefix := if case_sensitive_literal first then of_runes (Rune first) else [] in
      let suffix := match last sub with Some e => if case_sensitive_literal e then of_runes (Rune e) else [] | None => [] end in
      let contains := map (fun re => of_runes (Rune re)) (List.filter case_sensitive_literal (removelast rest)) in
      Ret (prefix, suffix, contains, r)
  end.

(** ** [FastRegexMatcher] *)

Class RegexpLib := {
  compiled : Type;
  Parse : bytes -> string + Regexp;       (** [syntax.Parse] with the flags [Perl | DotNL] *)
  Simplify : Regexp -> Regexp;
  re_String : Regexp -> bytes;
  Compile : bytes -> string + compiled;
  re_MatchString : compiled -> bytes -> bool;
  QuoteMeta : bytes -> bytes
}.

Section fast.
Context {U : Unicode} {L : RegexpLib}.
Variable range_set : gset bytes -> list bytes.

(** The literals between bars; the number of bars bounds the recursion. *)
Fixpoint index_bar (s : bytes) : option nat :=
  match s with [] => None | c :: s => if c =? 124 then Some 0%nat else option_map S (index_bar s) end.
Definition count_bars (s : bytes) : nat := length (List.filter (Z.eqb 124) s).
Definition is_literal (s : bytes) : bool := bool_decide (QuoteMeta s = s).
Fixpoint add_alternates (fuel : nat) (s : bytes) (b : builder) : option (bytes * builder) :=
  match index_bar s with
  | None => Some (s, b)
  | Some end_ =>
      match fuel with
      | O => None
      | S f => let subMatch := take end_ s in
               if negb (is_literal subMatch) then None else add_alternates f (drop (S end_) s) (add b subMatch)
      end
  end.

Definition optimizeAlternatingLiterals (s : bytes) : option StringMatcher * list bytes :=
  if bool_decide (length s = 0%nat) then (Some emptyStringMatcher, [])
  else let estimatedAlternates := Z.of_nat (count_bars s) + 1 in
    if estimatedAlternates =? 1 then
      if is_literal s then (Some (equalStringMatcher s true), [s]) else (None, [])
    else match add_alternates (count_bars s) s (newEqualMultiStringMatcher true estimatedAlternates 0 0) with
         | None => (None, [])
         | Some (s, b) =>
             if negb (is_literal s) then (None, [])
             else let b := add b s in (Some (multiStringMatcher b), setMatches range_set b)
         end.

Record FastRegexMatcher := mkFastRegexMatcher {
  reString : bytes; fm_re : option compiled; fm_setMatches : list bytes; fm_stringMatcher : option StringMatcher;
  fm_prefix : bytes; fm_suffix : bytes; fm_contains : list bytes;
  fm_matchString : bytes -> outcome bool }.

(** [compileMatchStringFunction], from the fields it reads. *)
Definition compileMatchStringFunction (re : compiled) (setMatches : list bytes) (stringMatcher : option StringMatcher)
    (prefix suffix : bytes) (contains : list bytes) : bytes -> outcome bool :=
  let slow := fun s =>
    if negb (bool_decide (setMatches = [])) then Ret (bool_decide (s ∈ setMatches))
    else if negb (bool_decide (prefix = [])) && negb (HasPrefix s prefix) then Ret false
    else if negb (bool_decide (suffix = [])) && negb (HasSuffix s suffix) then Ret false
    else if negb (bool_decide (contains = [])) && negb (containsInOrder s contains) then Ret false
    else match stringMatcher with Some m => Matches m s | None => Ret (re_MatchString re s) end in
  match stringMatcher with
  | Some m => if bool_decide (setMatches = []) && bool_decide (prefix = []) && bool_decide (suffix = []) && bool_decide (contains = [])
              then Matches m else slow
  | None => slow
  end.

(** "^(?s:" and ")$" *)
Definition anchored (e : bytes) : bytes := [94; 40; 63; 115; 58] ++ e ++ [41; 36].

Definition NewFastRegexMatcher (v : bytes) : outcome (string + FastRegexMatcher) :=
  match optimizeAlternatingLiterals v with
  | (Some m, set) => Ret (inr (mkFastRegexMatcher v None set (Some m) [] [] [] (Matches m)))
  | (None, set) =>
      match Parse v with
      | inl e => Ret (inl e)
      | inr parsed =>
          let parsed := Simplify parsed in
          match Compile (anchored (re_String parsed)) with
          | inl e => Ret (inl e)
          | inr re =>
              let* (prefix, suffix, contains, parsed) :=
                if is_op parsed OpConcat then optimizeConcatRegex parsed else Ret ([], [], [], parsed) in
              let* ((matches, caseSensitive), parsed) := findSetMatches parsed in
              let set := if caseSensitive then matches else set in
              let* m := stringMatcherFromRegexp parsed in
              Ret (inr (mkFastRegexMatcher v (Some re) set m prefix suffix contains
                          (compileMatchStringFunction re set m prefix suffix contains)))
          end
      end
  end.

Definition MatchString (m : FastRegexMatcher) (s : bytes) : outcome bool := fm_matchString m s.
Definition SetMatches (m : FastRegexMatcher) : list bytes := fm_setMatches m.
Definition GetRegexString (m : FastRegexMatcher) : bytes := reString m.
Definition IsOptimized (m : FastRegexMatcher) : bool :=
  negb (bool_decide (fm_setMatches m = [])) || (if fm_stringMatcher m is Some _ then true else false)
  || negb (bool_decide (fm_prefix m = [])) || negb (bool_decide (fm_suffix m = [])) || negb (bool_decide (fm_contains m = [])).
End fast.
