(* ===== verification/RegexpSound.v ===== *)
(** * The matchers of [Regexp] match what the expression means

    [denotes] is the meaning of a syntax tree, as the library of regular
    expressions documents its operators: which part of a text an expression
    matches, between the text before and the text after it.  The proofs follow
    the code: clearing captures and anchors keeps the meaning, the values that
    [findSetMatches] lists are the ones the tree matches, and a string matcher
    that [stringMatcherFromRegexp] builds matches like its tree. *)
From stdpp Require Import base list numbers gmap strings.
From Stdlib Require Import ZArith Lia.
From S2P Require Import Prelude Utf8 Regexp.

(** ** The meaning of a syntax tree *)

Section meaning.
Context {U : Unicode}.

(** A character of a literal under the flags of the literal. *)
Definition rune_matches (flags r c : Z) : Prop :=
  if Z.land flags FoldCase =? 0 then r = c else exists n, Nat.iter n SimpleFold r = c.
Definition in_class (rs : runes) (c : Z) : Prop := exists lo hi, (lo, hi) ∈ class_pairs rs /\ lo <= c <= hi.
Definition word_char (c : Z) : bool :=
  ((48 <=? c) && (c <=? 57)) || ((65 <=? c) && (c <=? 90)) || (c =? 95) || ((97 <=? c) && (c <=? 122)).
Definition word_boundary (pre post : runes) : bool :=
  let w o := match o with Some c => word_char c | None => false end in
  negb (eqb (w (last pre)) (w (head post))).

(** [denotes re pre mid post]: in the text [pre ++ mid ++ post] the expression
    matches [mid]. *)
Inductive denotes : Regexp -> runes -> runes -> runes -> Prop :=
| D_empty fl subs rs pre post : denotes (mkRegexp OpEmptyMatch fl subs rs) pre [] post
| D_literal fl subs rs pre mid post : Forall2 (rune_matches fl) rs mid -> denotes (mkRegexp OpLiteral fl subs rs) pre mid post
| D_class fl subs rs pre c post : in_class rs c -> denotes (mkRegexp OpCharClass fl subs rs) pre [c] post
| D_any fl subs rs pre c post : denotes (mkRegexp OpAnyChar fl subs rs) pre [c] post
| D_any_not_nl fl subs rs pre c post : c <> 10 -> denotes (mkRegexp OpAnyCharNotNL fl subs rs) pre [c] post
| D_begin_line fl subs rs pre post : pre = [] \/ last pre = Some 10 -> denotes (mkRegexp OpBeginLine fl subs rs) pre [] post
| D_end_line fl subs rs pre post : post = [] \/ head post = Some 10 -> denotes (mkRegexp OpEndLine fl subs rs) pre [] post
| D_begin_text fl subs rs post : denotes (mkRegexp OpBeginText fl subs rs) [] [] post
| D_end_text fl subs rs pre : denotes (mkRegexp OpEndText fl subs rs) pre [] []
| D_word fl subs rs pre post : word_boundary pre post = true -> denotes (mkRegexp OpWordBoundary fl subs rs) pre [] post
| D_no_word fl subs rs pre post : word_boundary pre post = false -> denotes (mkRegexp OpNoWordBoundary fl subs rs) pre [] post
| D_capture fl r rs pre mid post : denotes r pre mid post -> denotes (mkRegexp OpCapture fl [r] rs) pre mid post
| D_star_none fl r rs pre post : denotes (mkRegexp OpStar fl [r] rs) pre [] post
| D_star_more fl r rs pre m1 m2 post : denotes r pre m1 (m2 ++ post) -> denotes (mkRegexp OpStar fl [r] rs) (pre ++ m1) m2 post ->
    denotes (mkRegexp OpStar fl [r] rs) pre (m1 ++ m2) post
| D_plus_one fl r rs pre mid post : denotes r pre mid post -> denotes (mkRegexp OpPlus fl [r] rs) pre mid post
| D_plus_more fl r rs pre m1 m2 post : denotes r pre m1 (m2 ++ post) -> denotes (mkRegexp OpPlus fl [r] rs) (pre ++ m1) m2 post ->
    denotes (mkRegexp OpPlus fl [r] rs) pre (m1 ++ m2) post
| D_quest_none fl r rs pre post : denotes (mkRegexp OpQuest fl [r] rs) pre [] post
| D_quest_one fl r rs pre mid post : denotes r pre mid post -> denotes (mkRegexp OpQuest fl [r] rs) pre mid post
| D_concat_nil fl rs pre post : denotes (mkRegexp OpConcat fl [] rs) pre [] post
| D_concat_cons fl r subs rs pre m1 m2 post : denotes r pre m1 (m2 ++ post) -> denotes (mkRegexp OpConcat fl subs rs) (pre ++ m1) m2 post ->
    denotes (mkRegexp OpConcat fl (r :: subs) rs) pre (m1 ++ m2) post
| D_alternate fl r subs rs pre mid post : r ∈ subs -> denotes r pre mid post -> denotes (mkRegexp OpAlternate fl subs rs) pre mid post.

(** The values that an expression, anchored at both ends, matches. *)
Definition language (re : Regexp) (rs : runes) : Prop := denotes re [] rs [].

(** Trees as the parser builds and [Simplify] leaves them: operators with the
    arguments they take, no counted repetition, literals that are not empty,
    and ranges that are not empty. *)
Inductive every (P : Regexp -> Prop) : Regexp -> Prop :=
| every_node o fl subs rs : P (mkRegexp o fl subs rs) -> Forall (every P) subs -> every P (mkRegexp o fl subs rs).

Definition node_ok (re : Regexp) : Prop :=
  match Op re with
  | OpCapture | OpStar | OpPlus | OpQuest => length (Sub re) = 1%nat
  | OpRepeat => False
  | OpConcat | OpAlternate => True
  | OpLiteral => Sub re = [] /\ Rune re <> []
  | OpCharClass => Sub re = [] /\ (exists n, length (Rune re) = 2 * n)%nat
                   /\ Forall (fun p => fst p <= snd p) (class_pairs (Rune re))
  | _ => Sub re = []
  end.
Definition well_formed : Regexp -> Prop := every node_ok.

(** A part of an expression that does not ignore case and, if it is a literal or a
    class, names no surrogate: the literals are strings of characters, and no range of a
    class begins or ends with half of a surrogate pair. *)
Definition node_plain (re : Regexp) : Prop :=
  isCaseInsensitive re = false
  /\ match Op re with
     | OpLiteral => Forall valid_rune (Rune re)
     | OpCharClass => Forall (fun p => valid_rune (fst p) /\ valid_rune (snd p)) (class_pairs (Rune re))
     | _ => True
     end.
Definition plain_tree : Regexp -> Prop := every node_plain.

(** The two together, as the proofs use them. *)
Definition node_valid (re : Regexp) : Prop :=
  match Op re with
  | OpCapture | OpStar | OpPlus | OpQuest => length (Sub re) = 1%nat
  | OpRepeat => False
  | OpConcat | OpAlternate => True
  | OpLiteral => Sub re = [] /\ Rune re <> [] /\ Forall valid_rune (Rune re)
  | OpCharClass => Sub re = [] /\ (exists n, length (Rune re) = 2 * n)%nat
                   /\ Forall (fun p => fst p <= snd p /\ valid_rune (fst p) /\ valid_rune (snd p)) (class_pairs (Rune re))
  | _ => Sub re = []
  end.
Definition node_good (re : Regexp) : Prop := node_valid re /\ isCaseInsensitive re = false.
Definition good : Regexp -> Prop := every node_good.

Lemma node_good_iff re : node_good re <-> node_ok re /\ node_plain re.
Proof.
  unfold node_good, node_valid, node_ok, node_plain. destruct (Op re); try tauto. split.
  - intros ((H1 & H2 & H3) & H4). apply Forall_and in H3 as [H3 H5]. auto.
  - intros ((H1 & H2 & H3) & H4 & H5). split; [|exact H4]. split; [exact H1|]. split; [exact H2|]. apply Forall_and. auto.
Qed.

Lemma every_inv P re : every P re -> P re /\ Forall (every P) (Sub re).
Proof. destruct 1. auto. Qed.

Lemma good_intro re : well_formed re -> plain_tree re -> good re.
Proof.
  revert re. fix IH 1. intros [o fl subs rs] H1 H2. apply every_inv in H1 as [P1 S1], H2 as [P2 S2].
  constructor; [apply node_good_iff; split; [exact P1|exact P2]|]. clear P1 P2. cbn in S1, S2. revert S1 S2.
  induction subs as [|r l IHl]; intros S1 S2; constructor.
  - apply IH; [exact (Forall_inv S1)|exact (Forall_inv S2)].
  - apply IHl; [exact (Forall_inv_tail S1)|exact (Forall_inv_tail S2)].
Qed.

Lemma good_well_formed re : good re -> well_formed re.
Proof.
  revert re. fix IH 1. intros [o fl subs rs] H. apply every_inv in H as [P S]. constructor; [apply node_good_iff; exact P|]. clear P. cbn in S. revert S.
  induction subs as [|r l IHl]; intros S; constructor; [apply IH; exact (Forall_inv S)|apply IHl; exact (Forall_inv_tail S)].
Qed.

Lemma good_inv re : good re -> node_good re /\ Forall good (Sub re).
Proof. apply every_inv. Qed.

Lemma good_mk o fl subs rs : node_good (mkRegexp o fl subs rs) -> Forall good subs -> good (mkRegexp o fl subs rs).
Proof. apply every_node. Qed.

Fixpoint sizes (l : list Regexp) : nat := match l with [] => 0%nat | r :: l => (re_size r + sizes l)%nat end.

Lemma re_size_eq o fl subs rs : re_size (mkRegexp o fl subs rs) = S (sizes subs).
Proof. reflexivity. Qed.

Lemma size_in r l : r ∈ l -> (re_size r <= sizes l)%nat.
Proof.
  induction l as [|x l IH]; intros H; [apply not_elem_of_nil in H as []|].
  apply elem_of_cons in H as [->|H]; cbn [sizes]; [|specialize (IH H)]; lia.
Qed.

(** ** Operators with a list of arguments *)

Fixpoint in_sequence (subs : list Regexp) (pre mid post : runes) : Prop :=
  match subs with
  | [] => mid = []
  | r :: subs => exists m1 m2, mid = m1 ++ m2 /\ denotes r pre m1 (m2 ++ post) /\ in_sequence subs (pre ++ m1) m2 post
  end.

Lemma denotes_concat fl subs rs pre mid post : denotes (mkRegexp OpConcat fl subs rs) pre mid post <-> in_sequence subs pre mid post.
Proof.
  revert pre mid. induction subs as [|r subs IH]; intros pre mid; cbn [in_sequence].
  - split; [intros H; inversion H; reflexivity|intros ->; constructor].
  - split.
    + intros H. inversion H; subst. eexists _, _. split; [reflexivity|]. split; [eassumption|]. apply IH. assumption.
    + intros (m1 & m2 & -> & H1 & H2). apply D_concat_cons; [exact H1|]. apply IH. exact H2.
Qed.

Lemma denotes_alternate fl subs rs pre mid post :
  denotes (mkRegexp OpAlternate fl subs rs) pre mid post <-> exists r, r ∈ subs /\ denotes r pre mid post.
Proof. split; [intros H; inversion H; subst; eauto|intros (r & Hr & H); eapply D_alternate; eassumption]. Qed.

(** What clearing leaves of a tree. *)
Definition same (re re' : Regexp) : Prop :=
  good re' /\ (re_size re' <= re_size re)%nat /\ forall pre mid post, denotes re pre mid post <-> denotes re' pre mid post.

Lemma same_tree_refl re : good re -> same re re.
Proof. split; [assumption|]. split; [lia|reflexivity]. Qed.

Lemma same_tree_trans a b c : same a b -> same b c -> same a c.
Proof. intros (? & ? & Hab) (? & ? & Hbc). split; [assumption|]. split; [lia|]. intros. rewrite Hab. apply Hbc. Qed.

Lemma same_refl_all l : Forall good l -> Forall2 same l l.
Proof. induction 1; constructor; [apply same_tree_refl|]; assumption. Qed.

Lemma same_sizes l l' : Forall2 same l l' -> (sizes l' <= sizes l)%nat /\ Forall good l'.
Proof. induction 1 as [|r r' l l' (Hg & Hs & _) _ (IH & IHg)]; cbn; [auto|]. split; [lia|constructor; assumption]. Qed.

Lemma same_sequence l l' : Forall2 same l l' -> forall pre mid post, in_sequence l pre mid post <-> in_sequence l' pre mid post.
Proof.
  induction 1 as [|r r' l l' (_ & _ & Hr) _ IH]; intros pre mid post; cbn; [reflexivity|].
  split; intros (m1 & m2 & E & H1 & H2); exists m1, m2; (split; [exact E|]); (split; [apply Hr; exact H1|apply IH; exact H2]).
Qed.

Lemma Forall2_in {A B} (P : A -> B -> Prop) l l' : Forall2 P l l' ->
  (forall x, x ∈ l -> exists y, y ∈ l' /\ P x y) /\ (forall y, y ∈ l' -> exists x, x ∈ l /\ P x y).
Proof.
  induction 1 as [|x y l l' Hxy _ [IH1 IH2]]; split; intros z Hz; try (apply not_elem_of_nil in Hz as []).
  - apply elem_of_cons in Hz as [->|Hz]; [exists y; split; [left|exact Hxy]|]. destruct (IH1 z Hz) as (w & Hw & H). exists w. split; [right|]; assumption.
  - apply elem_of_cons in Hz as [->|Hz]; [exists x; split; [left|exact Hxy]|]. destruct (IH2 z Hz) as (w & Hw & H). exists w. split; [right|]; assumption.
Qed.

Lemma same_list o fl subs rs l : o = OpConcat \/ o = OpAlternate -> good (mkRegexp o fl subs rs) -> Forall2 same subs l ->
  same (mkRegexp o fl subs rs) (mkRegexp o fl l rs).
Proof.
  intros Ho Hg Hl. destruct (same_sizes _ _ Hl) as [Hs Hgl]. destruct (good_inv _ Hg) as [[Hok Hc] _].
  split; [|split; [rewrite !re_size_eq; lia|]].
  - apply good_mk; [|exact Hgl]. split; [destruct Ho as [-> | ->]; exact I|exact Hc].
  - intros pre mid post. destruct Ho as [-> | ->].
    + rewrite !denotes_concat. apply same_sequence. exact Hl.
    + rewrite !denotes_alternate. destruct (Forall2_in _ _ _ Hl) as [H1 H2].
      split; intros (r & Hr & H); [destruct (H1 r Hr) as (r' & Hr' & E)|destruct (H2 r Hr) as (r' & Hr' & E)];
        exists r'; (split; [exact Hr'|]); apply E; exact H.
Qed.

(** ** Captures *)

Lemma denotes_capture fl r rs pre mid post : denotes (mkRegexp OpCapture fl [r] rs) pre mid post <-> denotes r pre mid post.
Proof. split; [intros H; inversion H; subst; assumption|constructor; assumption]. Qed.

Lemma clearCapture_other re : Op re <> OpCapture -> clearCapture re = Ret re.
Proof. destruct re as [[] fl subs rs]; cbn; intros H; congruence. Qed.

Lemma clearCapture_ok re : good re -> exists re', clearCapture re = Ret re' /\ same re re' /\ Op re' <> OpCapture.
Proof.
  remember (re_size re) as n. assert (Hn : (re_size re <= n)%nat) by lia. clear Heqn. revert re Hn.
  induction n as [|n IH]; intros [o fl subs rs] Hn Hg; [rewrite re_size_eq in Hn; lia|].
  destruct (decide (o = OpCapture)) as [->|Ho].
  - destruct (good_inv _ Hg) as [[Hok _] Hs]. unfold node_valid in Hok. cbn in Hok, Hs. destruct subs as [|s [|]]; try discriminate Hok.
    rewrite re_size_eq in Hn. cbn in Hn. destruct (IH s ltac:(lia) (Forall_inv Hs)) as (re' & E & Hsame & Hop).
    exists re'. split; [exact E|]. split; [|exact Hop]. destruct Hsame as (H1 & H2 & H3). split; [exact H1|].
    split; [rewrite re_size_eq; cbn; lia|]. intros. rewrite denotes_capture. apply H3.
  - exists (mkRegexp o fl subs rs). split; [apply clearCapture_other; exact Ho|]. split; [apply same_tree_refl; exact Hg|exact Ho].
Qed.

Lemma clear_captures_ok l : Forall good l ->
  exists l', clear_captures l = Ret l' /\ Forall2 same l l' /\ Forall (fun r => Op r <> OpCapture) l'.
Proof.
  induction 1 as [|r l Hr _ (l' & E & Hs & Ho)]; [exists []; auto|]. destruct (clearCapture_ok r Hr) as (r' & E' & Hs' & Ho').
  exists (r' :: l'). cbn. rewrite E'. cbn. rewrite E. auto.
Qed.

(** ** Finite sets of values *)

(** What the expression matches does not depend on the text around it. *)
Definition free (re : Regexp) : Prop := forall pre mid post, denotes re pre mid post <-> language re mid.
Definition valid_language (re : Regexp) : Prop := forall mid, language re mid -> Forall valid_rune mid.

(** [ms] lists the values of [re], each behind [base]. *)
Definition lists (re : Regexp) (base : bytes) (ms : list bytes) : Prop :=
  free re /\ valid_language re /\ forall s, s ∈ ms <-> exists mid, language re mid /\ s = base ++ of_runes mid.

Definition finds (re : Regexp) (base : bytes) (out : outcome (match_set * Regexp)) : Prop :=
  exists ms cs re', out = Ret ((ms, cs), re') /\ same re re'
  /\ (ms <> [] -> cs = true /\ Forall (fun m => m <> []) ms /\ lists re base ms).

Lemma finds_nothing re base : good re -> finds re base (Ret (([], false), re)).
Proof. intros H. exists [], false, re. split; [reflexivity|]. split; [apply same_tree_refl; exact H|]. congruence. Qed.

Lemma free_same re re' : same re re' -> (free re <-> free re') /\ (forall mid, language re mid <-> language re' mid).
Proof.
  intros (_ & _ & H). split; [|intros mid; apply H].
  unfold free, language. split; intros F pre mid post; [rewrite <- !H|rewrite !H]; apply F.
Qed.

Lemma valid_language_same re re' : same re re' -> valid_language re <-> valid_language re'.
Proof. intros H. destruct (free_same _ _ H) as [_ E]. unfold valid_language. split; intros V mid Hm; apply V, E, Hm. Qed.

Lemma lists_same re re' base ms : same re re' -> lists re' base ms -> lists re base ms.
Proof.
  intros H (F & V & E). destruct (free_same _ _ H) as [HF HL]. split; [apply HF; exact F|].
  split; [apply (valid_language_same _ _ H); exact V|]. intros s. rewrite E. split; intros (mid & Hm & ->); exists mid; (split; [apply HL; exact Hm|reflexivity]).
Qed.

Lemma finds_same re re' base out : same re re' -> finds re' base out -> finds re base out.
Proof.
  intros H (ms & cs & re'' & -> & H' & Hms). exists ms, cs, re''. split; [reflexivity|]. split; [eapply same_tree_trans; eassumption|].
  intros Hn. destruct (Hms Hn) as (Hc & Hne & Hl). split; [exact Hc|]. split; [exact Hne|]. eapply lists_same; eassumption.
Qed.

Lemma free_sequence l : Forall free l -> forall pre mid post, in_sequence l pre mid post <-> in_sequence l [] mid [].
Proof.
  intros H. enough (G : forall pre mid post pre' post', in_sequence l pre mid post -> in_sequence l pre' mid post')
    by (intros; split; apply G).
  induction H as [|r l Hr _ IH]; intros pre mid post pre' post'; cbn; [auto|].
  intros (m1 & m2 & -> & H1 & H2). exists m1, m2. split; [reflexivity|]. split; [apply Hr; apply Hr in H1; exact H1|].
  eapply IH. exact H2.
Qed.

Lemma not_bool_eqb a b : negb (eqb a b) = false -> a = b.
Proof. destruct a, b; cbn; congruence. Qed.

Section search.
Variable n : nat.
Variable rec : Regexp -> bytes -> outcome (match_set * Regexp).
Hypothesis rec_ok : forall re base, good re -> (re_size re <= n)%nat -> finds re base (rec re base).

Lemma extend_bases_ok bs : forall first sub new cs, good sub -> (re_size sub <= n)%nat -> (first = false -> cs = true) ->
  exists r sub', extend_bases rec first sub bs new cs = Ret (r, sub') /\ same sub sub'
  /\ forall ms cs', r = Some (ms, cs') ->
     (Forall (fun m => m <> []) new -> Forall (fun m => m <> []) ms)
     /\ (bs <> [] -> cs' = true /\ ms <> [] /\ free sub /\ valid_language sub) /\ (bs = [] -> cs' = cs)
     /\ (forall s, s ∈ ms <-> s ∈ new \/ exists b mid, b ∈ bs /\ language sub mid /\ s = b ++ of_runes mid).
Proof.
  induction bs as [|b bs IH]; intros first sub new cs Hg Hn Hf; cbn [extend_bases].
  - exists (Some (new, cs)), sub. split; [reflexivity|]. split; [apply same_tree_refl; exact Hg|]. intros ms cs' [= <- <-].
    split; [auto|]. split; [congruence|]. split; [auto|]. intros s. split; [auto|]. intros [H|(b & _ & H & _)]; [exact H|apply not_elem_of_nil in H as []].
  - destruct (rec_ok sub b Hg Hn) as (m & c & sub1 & -> & Hs1 & Hm). cbn [outcome_bind].
    assert (Hnone : exists r sub', Ret (None (A := match_set), sub1) = Ret (r, sub') /\ same sub sub' /\ forall ms cs', r = Some (ms, cs') -> False).
    { exists None, sub1. split; [reflexivity|]. split; [exact Hs1|]. discriminate. }
    assert (Hdone : forall P : _ -> _ -> Prop, exists r sub', Ret (None (A := match_set), sub1) = Ret (r, sub') /\ same sub sub' /\ forall ms cs', r = Some (ms, cs') -> P ms cs').
    { intros P. destruct Hnone as (r & sub' & E & Hs & Hno). exists r, sub'. split; [exact E|]. split; [exact Hs|]. intros ms cs' E'. destruct (Hno ms cs' E'). }
    case_bool_decide as Em; [apply Hdone|]. destruct (tooManyMatches new m); [apply Hdone|]. destruct (Hm Em) as (-> & Hne & F & V & L).
    destruct (negb (eqb (if first then true else cs) true)) eqn:Ec; [apply Hdone|]. apply not_bool_eqb in Ec. rewrite Ec. clear Hnone Hdone.
    destruct Hs1 as (Hg1 & Hsz & Hden). assert (Hs1 : same sub sub1) by (split; auto).
    destruct (IH false sub1 (new ++ m) true Hg1 ltac:(lia) ltac:(auto)) as (r & sub' & E & Hs' & Hr).
    exists r, sub'. split; [exact E|]. split; [eapply same_tree_trans; eassumption|]. intros ms cs' Er. destruct (Hr ms cs' Er) as (R1 & R2 & R3 & R4).
    split; [intros Hnew; apply R1; apply List.Forall_app; auto|]. split.
    { intros _. split; [destruct bs; [apply R3; reflexivity|apply R2; discriminate]|]. split; [|split; assumption].
      intros ->. destruct m as [|x m]; [congruence|]. pose proof (proj2 (R4 x)) as H.
      apply (not_elem_of_nil x), H. left. apply elem_of_app. right. left. }
    split; [discriminate|]. intros s. rewrite R4, elem_of_app, L. destruct (free_same _ _ Hs1) as [_ HL]. split.
    + intros [[H|(mid & Hmid & ->)]|(b' & mid & Hb & Hmid & ->)]; [left; exact H|right; exists b, mid|right; exists b', mid].
      * split; [left|auto].
      * split; [right; exact Hb|]. split; [apply HL; exact Hmid|reflexivity].
    + intros [H|(b' & mid & Hb & Hmid & ->)]; [auto|]. apply elem_of_cons in Hb as [->|Hb]; [left; right; eauto|right].
      exists b', mid. split; [exact Hb|]. split; [apply HL; exact Hmid|reflexivity].
Qed.

Lemma concat_loop_ok subs : forall first ms cs, Forall good subs -> (sizes subs <= n)%nat -> (first = false -> cs = true) -> ms <> [] ->
  exists r cs' subs', concat_loop rec first subs ms cs = Ret ((r, cs'), subs') /\ Forall2 same subs subs'
  /\ (r <> [] -> (subs = [] -> r = ms /\ cs' = cs) /\ (subs <> [] -> cs' = true /\ Forall (fun m => m <> []) r)
      /\ Forall free subs /\ Forall valid_language subs
      /\ forall s, s ∈ r <-> exists b mid, b ∈ ms /\ in_sequence subs [] mid [] /\ s = b ++ of_runes mid).
Proof.
  induction subs as [|sub subs IH]; intros first ms cs Hg Hn Hf Hms; cbn [concat_loop].
  - exists ms, cs, []. split; [reflexivity|]. split; [constructor|]. intros _. split; [auto|]. split; [congruence|]. split; [constructor|]. split; [constructor|].
    intros s. cbn. split; [intros H; exists s, []; rewrite app_nil_r; auto|]. intros (b & mid & Hb & -> & ->). cbn. rewrite app_nil_r. exact Hb.
  - cbn [sizes] in Hn. pose proof (Forall_inv Hg) as Hg1. pose proof (Forall_inv_tail Hg) as Hg2.
    destruct (extend_bases_ok ms first sub [] cs Hg1 ltac:(lia) Hf) as (r & sub' & -> & Hs & Hr). cbn [outcome_bind].
    destruct r as [[ms1 cs1]|].
    2: { exists [], false, (sub' :: subs). split; [reflexivity|]. split; [constructor; [exact Hs|apply same_refl_all; exact Hg2]|]. congruence. }
    destruct (Hr _ _ eq_refl) as (R1 & R2 & _ & R4). destruct (R2 Hms) as (-> & Hms1 & F1 & V1).
    destruct (IH false ms1 true Hg2 ltac:(lia) ltac:(auto) Hms1) as (r & cs' & subs' & -> & Hs' & Hr'). cbn [outcome_bind].
    exists r, cs', (sub' :: subs'). split; [reflexivity|]. split; [constructor; assumption|]. intros Hne. destruct (Hr' Hne) as (Q1 & Q2 & Q3 & Q4 & Q5).
    split; [discriminate|]. split.
    { intros _. destruct subs as [|s' subs0]; [|apply Q2; discriminate]. destruct (Q1 eq_refl) as [-> ->]. split; [reflexivity|apply R1; constructor]. }
    split; [constructor; assumption|]. split; [constructor; assumption|]. intros s. rewrite Q5. split.
    + intros (b & mid & Hb & Hmid & ->). apply R4 in Hb as [Hb|(b' & mid' & Hb & Hmid' & ->)]; [apply not_elem_of_nil in Hb as []|].
      exists b', (mid' ++ mid). split; [exact Hb|]. rewrite of_runes_app, <- app_assoc. split; [|reflexivity].
      exists mid', mid. split; [reflexivity|]. split; [apply F1; exact Hmid'|]. apply (free_sequence _ Q3). exact Hmid.
    + intros (b & mid & Hb & (m1 & m2 & -> & H1 & H2) & ->). exists (b ++ of_runes m1), m2. rewrite of_runes_app, <- app_assoc.
      split; [|split; [apply (free_sequence _ Q3 ([] ++ m1) m2 []); exact H2|reflexivity]].
      apply R4. right. exists b, m1. split; [exact Hb|]. split; [apply F1 in H1; exact H1|reflexivity].
Qed.

Lemma valid_sequence subs : Forall free subs -> Forall valid_language subs -> forall mid, in_sequence subs [] mid [] -> Forall valid_rune mid.
Proof.
  intros F. induction F as [|r l Hr HF IH]; intros V mid; cbn; [intros ->; constructor|].
  intros (m1 & m2 & -> & H1 & H2). apply List.Forall_app. split.
  - apply (Forall_inv V). apply Hr in H1. exact H1.
  - apply IH; [exact (Forall_inv_tail V)|]. apply (free_sequence _ HF) in H2. exact H2.
Qed.

Lemma findSetMatchesFromConcat_ok fl subs rs base : good (mkRegexp OpConcat fl subs rs) -> (sizes subs <= n)%nat ->
  finds (mkRegexp OpConcat fl subs rs) base (findSetMatchesFromConcat rec (mkRegexp OpConcat fl subs rs) base).
Proof.
  intros Hg Hn. unfold findSetMatchesFromConcat. cbn [Sub]. case_bool_decide as E0; [apply finds_nothing; exact Hg|].
  destruct (good_inv _ Hg) as [_ Hgs]. cbn [Sub] in Hgs. destruct (clear_captures_ok subs Hgs) as (subs1 & -> & Hs1 & _). cbn [outcome_bind].
  destruct (same_sizes _ _ Hs1) as [Hz Hg1].
  destruct (concat_loop_ok subs1 true [base] false Hg1 ltac:(lia) ltac:(discriminate) ltac:(discriminate)) as (r & cs & subs2 & -> & Hs2 & Hr). cbn [outcome_bind].
  assert (Hsame1 : same (mkRegexp OpConcat fl subs rs) (mkRegexp OpConcat fl subs1 rs)) by (apply same_list; auto).
  apply (finds_same _ _ _ _ Hsame1). exists r, cs, (mkRegexp OpConcat fl subs2 rs). split; [reflexivity|].
  split; [apply same_list; [auto|apply Hsame1|exact Hs2]|]. intros Hne. destruct (Hr Hne) as (_ & Q2 & Q3 & Q4 & Q5).
  assert (Hsubs1 : subs1 <> []). { intros ->. inversion Hs1; subst. cbn in E0. congruence. }
  destruct (Q2 Hsubs1) as [-> Hne']. split; [reflexivity|]. split; [exact Hne'|].
  unfold lists, free, valid_language, language. setoid_rewrite denotes_concat. split; [apply free_sequence; exact Q3|]. split; [apply valid_sequence; assumption|].
  intros s. rewrite Q5. split.
  - intros (b & mid & Hb & Hmid & ->). apply list_elem_of_singleton in Hb as ->. eauto.
  - intros (mid & Hmid & ->). exists base, mid. split; [left|auto].
Qed.

Lemma alternate_loop_ok base subs : forall first ms cs, Forall good subs -> (sizes subs <= n)%nat -> (first = false -> cs = true) ->
  Forall (fun m => m <> []) ms ->
  exists r cs' subs', alternate_loop rec first subs base ms cs = Ret ((r, cs'), subs') /\ Forall2 same subs subs'
  /\ (r <> [] -> (subs = [] -> r = ms /\ cs' = cs) /\ (subs <> [] -> cs' = true) /\ Forall (fun m => m <> []) r
      /\ Forall free subs /\ Forall valid_language subs
      /\ forall s, s ∈ r <-> s ∈ ms \/ exists sub mid, sub ∈ subs /\ language sub mid /\ s = base ++ of_runes mid).
Proof.
  induction subs as [|sub subs IH]; intros first ms cs Hg Hn Hf Hne; cbn [alternate_loop].
  - exists ms, cs, []. split; [reflexivity|]. split; [constructor|]. intros _. split; [auto|]. split; [congruence|]. split; [exact Hne|].
    split; [constructor|]. split; [constructor|]. intros s. split; [auto|]. intros [H|(sub & _ & H & _)]; [exact H|apply not_elem_of_nil in H as []].
  - cbn [sizes] in Hn. pose proof (Forall_inv Hg) as Hg1. pose proof (Forall_inv_tail Hg) as Hg2.
    destruct (rec_ok sub base Hg1 ltac:(lia)) as (m & c & sub' & -> & Hs & Hm). cbn [outcome_bind].
    assert (Hnone : forall P : list bytes -> bool -> Prop, exists r cs' subs', Ret ((([] : list bytes), false), sub' :: subs) = Ret ((r, cs'), subs')
        /\ Forall2 same (sub :: subs) subs' /\ (r <> [] -> P r cs')).
    { intros P. exists [], false, (sub' :: subs). split; [reflexivity|]. split; [constructor; [exact Hs|apply same_refl_all; exact Hg2]|congruence]. }
    case_bool_decide as Em; [apply Hnone|]. destruct (tooManyMatches ms m); [apply Hnone|]. destruct (Hm Em) as (-> & Hne1 & F & V & L).
    destruct (negb (eqb (if first then true else cs) true)) eqn:Ec; [apply Hnone|]. apply not_bool_eqb in Ec. rewrite Ec. clear Hnone.
    destruct (IH false (ms ++ m) true Hg2 ltac:(lia) ltac:(auto) ltac:(apply List.Forall_app; auto)) as (r & cs' & subs' & -> & Hs' & Hr). cbn [outcome_bind].
    exists r, cs', (sub' :: subs'). split; [reflexivity|]. split; [constructor; assumption|]. intros Hr0. destruct (Hr Hr0) as (Q1 & Q2 & Q3 & Q4 & Q5 & Q6).
    split; [discriminate|]. split; [intros _; destruct subs as [|s0 subs0]; [apply Q1; reflexivity|apply Q2; discriminate]|]. split; [exact Q3|].
    split; [constructor; assumption|]. split; [constructor; assumption|]. intros s. rewrite Q6, elem_of_app, L. split.
    + intros [[H|(mid & Hm1 & ->)]|(sub1 & mid & H1 & H2 & ->)]; [auto|right; exists sub, mid; split; [left|auto]|right; exists sub1, mid; split; [right; exact H1|auto]].
    + intros [H|(sub1 & mid & H1 & H2 & ->)]; [auto|]. apply elem_of_cons in H1 as [->|H1]; [left; right; eauto|right; eauto].
Qed.

Lemma findSetMatchesFromAlternate_ok fl subs rs base : good (mkRegexp OpAlternate fl subs rs) -> (sizes subs <= n)%nat ->
  finds (mkRegexp OpAlternate fl subs rs) base (findSetMatchesFromAlternate rec (mkRegexp OpAlternate fl subs rs) base).
Proof.
  intros Hg Hn. unfold findSetMatchesFromAlternate. cbn [Sub]. destruct (good_inv _ Hg) as [_ Hgs]. cbn [Sub] in Hgs.
  destruct (alternate_loop_ok base subs true [] false Hgs Hn ltac:(discriminate) ltac:(constructor)) as (r & cs & subs' & -> & Hs & Hr). cbn [outcome_bind].
  exists r, cs, (mkRegexp OpAlternate fl subs' rs). split; [reflexivity|]. split; [apply same_list; auto|]. intros Hne.
  destruct (Hr Hne) as (Q1 & Q2 & Q3 & Q4 & Q5 & Q6).
  assert (subs <> []) by (intros E; destruct (Q1 E); congruence). split; [auto|]. split; [exact Q3|].
  unfold lists, free, valid_language, language. setoid_rewrite denotes_alternate.
  assert (F : forall r0, r0 ∈ subs -> free r0) by (intros r0 H0; exact (proj1 (Forall_forall _ _) Q4 r0 H0)).
  assert (V : forall r0, r0 ∈ subs -> valid_language r0) by (intros r0 H0; exact (proj1 (Forall_forall _ _) Q5 r0 H0)). split; [|split].
  - intros pre mid post. split; intros (r0 & Hr0 & H0); exists r0; (split; [exact Hr0|]); apply (F r0 Hr0); apply (F r0 Hr0) in H0; exact H0.
  - intros mid (r0 & Hr0 & H0). exact (V r0 Hr0 mid H0).
  - intros s. rewrite Q6. split.
    + intros [H0|(r0 & mid & Hr0 & H0 & ->)]; [apply not_elem_of_nil in H0 as []|eauto].
    + intros (mid & (r0 & Hr0 & H0) & ->). right. eauto.
Qed.
End search.

(** A literal that does not ignore case. *)
Lemma literal_language fl subs rs pre mid post : isCaseInsensitive (mkRegexp OpLiteral fl subs rs) = false ->
  denotes (mkRegexp OpLiteral fl subs rs) pre mid post <-> mid = rs.
Proof.
  unfold isCaseInsensitive. cbn [Flags]. intros Hc. apply negb_false_iff in Hc. split.
  - intros H. inversion H as [|? ? ? ? ? ? H1| | | | | | | | | | | | | | | | | | |]; subst. clear H. revert H1. unfold rune_matches. rewrite Hc.
    induction 1 as [|x y l l' -> _ IH]; [reflexivity|]. rewrite IH. reflexivity.
  - intros ->. constructor. unfold rune_matches. rewrite Hc. induction rs; constructor; auto.
Qed.

Lemma literal_lists fl subs rs base : good (mkRegexp OpLiteral fl subs rs) -> lists (mkRegexp OpLiteral fl subs rs) base [base ++ of_runes rs].
Proof.
  intros Hg. destruct (good_inv _ Hg) as [[Hok Hc] _]. destruct Hok as (_ & _ & Hv). cbn in Hv.
  unfold lists, free, valid_language, language. setoid_rewrite (literal_language fl subs rs); [|exact Hc..].
  split; [reflexivity|]. split; [intros mid ->; exact Hv|]. intros s. rewrite list_elem_of_singleton. split; [intros ->; eauto|intros (mid & -> & ->); reflexivity].
Qed.

Lemma empty_language fl subs rs pre mid post : denotes (mkRegexp OpEmptyMatch fl subs rs) pre mid post <-> mid = [].
Proof. split; [intros H; inversion H; reflexivity|intros ->; constructor]. Qed.

Lemma class_language fl subs rs pre mid post : denotes (mkRegexp OpCharClass fl subs rs) pre mid post <-> exists c, mid = [c] /\ in_class rs c.
Proof. split; [intros H; inversion H; eauto|intros (c & -> & H); constructor; exact H]. Qed.

(** A class of few characters holds no surrogate, if its ranges end outside of them. *)
Lemma class_valid rs c : Forall (fun p => fst p <= snd p /\ valid_rune (fst p) /\ valid_rune (snd p)) (class_pairs rs) ->
  class_total rs <= Z.of_nat maxSetMatches -> in_class rs c -> valid_rune c.
Proof.
  intros Hp Ht (lo & hi & Hin & Hc). unfold class_total in Ht.
  assert (Hle : hi - lo + 1 <= Z.of_nat maxSetMatches).
  { revert Hin Hp Ht. clear Hc. generalize (class_pairs rs) as l. intros l Hin Hp.
    assert (Hpos : forall l, Forall (fun p : Z * Z => fst p <= snd p /\ valid_rune (fst p) /\ valid_rune (snd p)) l ->
       0 <= foldr (fun '(lo, hi) n => hi - lo + 1 + n) 0 l).
    { clear. induction 1 as [|[a b] l (H & _) _ IH]; cbn in *; lia. }
    induction Hp as [|[a b] l (H & _) Hp IH]; [apply not_elem_of_nil in Hin as []|]. cbn [foldr fst snd] in *. intros Ht.
    specialize (Hpos l Hp). apply elem_of_cons in Hin as [[= -> ->]|Hin]; [lia|apply IH; [exact Hin|lia]]. }
  destruct (proj1 (Forall_forall _ _) Hp _ Hin) as (_ & Hlo & Hhi). cbn in Hlo, Hhi.
  unfold valid_rune, is_surrogate, maxSetMatches in *. rewrite andb_false_iff in *. rewrite !Z.leb_gt in *. lia.
Qed.

Lemma class_matches_elem base rs s : s ∈ class_matches base rs <-> exists c, in_class rs c /\ s = base ++ of_rune c.
Proof.
  unfold class_matches, in_class. rewrite list_elem_of_In, in_flat_map. split.
  - intros ([lo hi] & H1 & H2). apply in_map_iff in H2 as (c & <- & Hc). apply list_elem_of_In, elem_of_seqZ in Hc.
    exists c. split; [|reflexivity]. exists lo, hi. split; [apply list_elem_of_In; exact H1|lia].
  - intros (c & (lo & hi & H & Hc) & ->). exists (lo, hi). split; [apply list_elem_of_In; exact H|]. apply in_map_iff. exists c.
    split; [reflexivity|]. apply list_elem_of_In, elem_of_seqZ. lia.
Qed.

Lemma class_finds fl subs rs base : good (mkRegexp OpCharClass fl subs rs) -> class_total rs <= Z.of_nat maxSetMatches ->
  finds (mkRegexp OpCharClass fl subs rs) base (Ret ((class_matches base rs, true), mkRegexp OpCharClass fl subs rs)).
Proof.
  intros Hg Ht. destruct (good_inv _ Hg) as [[(_ & _ & Hp) _] _]. cbn [Rune] in Hp.
  exists (class_matches base rs), true, (mkRegexp OpCharClass fl subs rs). split; [reflexivity|]. split; [apply same_tree_refl; exact Hg|].
  intros _. split; [reflexivity|]. split.
  - apply Forall_forall. intros s Hs. apply class_matches_elem in Hs as (c & _ & ->). intros E. apply app_nil in E as [_ E].
    pose proof (of_rune_nonempty c) as Hn. rewrite E in Hn. cbn in Hn. lia.
  - unfold lists, free, valid_language, language. setoid_rewrite class_language. split; [reflexivity|]. split.
    + intros mid (c & -> & Hc). repeat constructor; eapply class_valid; eassumption.
    + intros s. rewrite class_matches_elem. split.
      * intros (c & Hc & ->). exists [c]. split; [eauto|]. cbn. rewrite app_nil_r. reflexivity.
      * intros (mid & (c & -> & Hc) & ->). exists c. split; [exact Hc|]. cbn. rewrite app_nil_r. reflexivity.
Qed.

Lemma findSetMatchesInternal_ok fuel : forall re base, good re -> (re_size re <= fuel)%nat -> finds re base (findSetMatchesInternal fuel re base).
Proof.
  induction fuel as [|fuel IH]; intros [o fl subs rs] base Hg Hf; rewrite re_size_eq in Hf; [lia|].
  pose proof (good_inv _ Hg) as [[Hok Hc] Hgs]. cbn [Sub] in Hgs.
  assert (Hcs : isCaseSensitive (mkRegexp o fl subs rs) = true) by (unfold isCaseSensitive; rewrite Hc; reflexivity).
  cbn [findSetMatchesInternal Op]. destruct o; try (apply finds_nothing; exact Hg).
  - case_bool_decide as Eb; [apply finds_nothing; exact Hg|]. rewrite Hcs. exists [base], true, (mkRegexp OpEmptyMatch fl subs rs).
    split; [reflexivity|]. split; [apply same_tree_refl; exact Hg|]. intros _. split; [reflexivity|]. split; [repeat constructor; exact Eb|].
    unfold lists, free, valid_language, language. setoid_rewrite empty_language. split; [reflexivity|]. split; [intros mid ->; constructor|].
    intros s. rewrite list_elem_of_singleton. split; [intros ->; exists []; rewrite app_nil_r; auto|intros (mid & -> & ->); apply app_nil_r].
  - rewrite Hcs. exists [base ++ of_runes rs], true, (mkRegexp OpLiteral fl subs rs). split; [reflexivity|]. split; [apply same_tree_refl; exact Hg|].
    intros _. split; [reflexivity|]. split; [|apply literal_lists; exact Hg]. repeat constructor. intros E. apply app_nil in E as [_ E].
    apply of_runes_nil in E. destruct Hok as (_ & Hne & _). exact (Hne E).
  - destruct (negb _); [apply finds_nothing; exact Hg|]. destruct (Z.ltb_spec (Z.of_nat maxSetMatches) (class_total (Rune (mkRegexp OpCharClass fl subs rs)))) as [H|H];
      [apply finds_nothing; exact Hg|]. rewrite Hcs. apply class_finds; assumption.
  - destruct (clearCapture_ok _ Hg) as (re' & E & Hs & Hop). rewrite E. cbn [outcome_bind]. apply (finds_same _ _ _ _ Hs).
    apply IH; [apply Hs|]. destruct subs as [|s0 [|]]; try discriminate Hok. cbn [clearCapture] in E.
    destruct (clearCapture_ok s0 (Forall_inv Hgs)) as (re2 & E2 & (_ & Hz & _) & _). rewrite E in E2. injection E2 as <-. cbn [sizes] in Hf. lia.
  - apply (findSetMatchesFromConcat_ok fuel); [exact IH|exact Hg|lia].
  - apply (findSetMatchesFromAlternate_ok fuel); [exact IH|exact Hg|lia].
Qed.
End meaning.
