(* ===== verification/RegexpMatchers.v ===== *)
(** * String matchers match like the trees they replace ([model/labels/regexp.go])

    [decides] relates a [StringMatcher] to a tree: on every encoded string the
    matcher returns, and returns true exactly for the values of the tree.  It
    holds of what [stringMatcherFromRegexpInternal] builds, and the
    optimisation of long alternations keeps it. *)
From stdpp Require Import base list numbers gmap strings.
From Stdlib Require Import ZArith Lia.
From S2P Require Import Prelude Utf8 Regexp RegexpSound.

(** ** Searching in strings *)

Lemma HasPrefix_spec s p : HasPrefix s p = true <-> exists t, s = p ++ t.
Proof.
  unfold HasPrefix. rewrite bool_decide_eq_true. split.
  - intros E. exists (drop (length p) s). rewrite <- (take_drop (length p) s) at 1. rewrite E. reflexivity.
  - intros [t ->]. apply take_app_length.
Qed.

Lemma HasSuffix_spec s p : HasSuffix s p = true <-> exists t, s = t ++ p.
Proof.
  unfold HasSuffix. rewrite andb_true_iff, Nat.leb_le, bool_decide_eq_true. split.
  - intros [_ E]. exists (take (length s - length p) s). rewrite <- (take_drop (length s - length p) s) at 1. rewrite E. reflexivity.
  - intros [t ->]. rewrite length_app. split; [lia|]. replace (length t + length p - length p)%nat with (length t) by lia. apply drop_app_length.
Qed.

Lemma drop_suffix (t p : bytes) : take (length (t ++ p) - length p) (t ++ p) = t.
Proof. rewrite length_app. replace (length t + length p - length p)%nat with (length t) by lia. apply take_app_length. Qed.

(** [Index] finds the first occurrence. *)
Lemma Index_spec s sub : match Index s sub with
  | Some p => (exists a t, s = a ++ sub ++ t /\ length a = p) /\ forall a t, s = a ++ sub ++ t -> (p <= length a)%nat
  | None => forall a t, s <> a ++ sub ++ t
  end.
Proof.
  induction s as [|c s IH]; cbn [Index].
  - destruct (HasPrefix [] sub) eqn:E.
    + apply HasPrefix_spec in E as [t ->]. split; [exists [], t; auto|intros; lia].
    + intros a t Ea. symmetry in Ea. apply app_nil in Ea as [-> Ea]. assert (HasPrefix [] sub = true) by (apply HasPrefix_spec; exists t; auto). congruence.
  - destruct (HasPrefix (c :: s) sub) eqn:E.
    + apply HasPrefix_spec in E as [t ->]. split; [exists [], t; auto|intros; lia].
    + assert (Hno : forall t, c :: s <> sub ++ t) by (intros t Et; rewrite (proj2 (HasPrefix_spec (c :: s) sub) (ex_intro _ t Et)) in E; discriminate).
      destruct (Index s sub) as [p|]; cbn [option_map].
      * destruct IH as [(a & t & -> & <-) Hmin]. split; [exists (c :: a), t; auto|].
        intros [|c' a'] t' Et; [exfalso; exact (Hno t' Et)|]. injection Et as -> Et. specialize (Hmin a' t' Et). cbn. lia.
      * intros [|c' a'] t' Et; [exact (Hno t' Et)|]. injection Et as -> Et. exact (IH a' t' Et).
Qed.

(** [containsInOrder] is greedy: it succeeds when there is any placement. *)
Fixpoint placed (s : bytes) (off : nat) (subs : list bytes) : Prop :=
  match subs with
  | [] => True
  | sub :: subs => exists a t, s = a ++ sub ++ t /\ (off <= length a)%nat /\ placed s (length a + length sub) subs
  end.

Lemma placed_earlier s off off' subs : (off' <= off)%nat -> placed s off subs -> placed s off' subs.
Proof. destruct subs as [|sub subs]; cbn; [auto|]. intros H (a & t & E & Ha & Hp). exists a, t. split; [exact E|]. split; [lia|exact Hp]. Qed.

Lemma contains_multi s off subs : placed s off subs -> containsInOrderMulti s off subs = true.
Proof.
  revert off. induction subs as [|sub subs IH]; intros off; cbn; [auto|]. intros (a & t & E & Ha & Hp).
  assert (Hd : drop off s = drop off a ++ sub ++ t) by (rewrite E, drop_app_le by lia; reflexivity).
  pose proof (Index_spec (drop off s) sub) as HI. destruct (Index (drop off s) sub) as [p|].
  - destruct HI as [_ Hmin]. specialize (Hmin _ _ Hd). rewrite length_drop in Hmin. apply IH.
    eapply placed_earlier; [|exact Hp]. lia.
  - exfalso. exact (HI _ _ Hd).
Qed.

Lemma contains_in_order s subs : placed s 0 subs -> containsInOrder s subs = true.
Proof.
  unfold containsInOrder. destruct subs as [|sub [|sub' subs]]; [reflexivity| |apply contains_multi].
  intros (a & t & E & _). pose proof (Index_spec s sub) as HI. destruct (Index s sub); [reflexivity|]. exfalso. exact (HI _ _ E).
Qed.

(** ** Encoded strings *)

Lemma length_of_runes rs : length (of_runes rs) = 0%nat <-> rs = [].
Proof. split; [|intros ->; reflexivity]. intros H. apply of_runes_nil. destruct (of_runes rs); [reflexivity|discriminate]. Qed.

Lemma newline_of_rune r : valid_rune r -> existsb (Z.eqb 10) (of_rune r) = (r =? 10).
Proof.
  intros H. destruct (of_rune_cases r H) as [[Hr ->]|[(a&b&?&?&?&->)|[(a&b&c&?&?&?&?&?&?&->)|(a&b&c&d&?&?&?&?&?&?&?&->)]]]; cbn [existsb];
    [rewrite orb_false_r; apply Z.eqb_sym|settle_tests; reflexivity..].
Qed.

Lemma has_newline_of_runes rs : Forall valid_rune rs -> has_newline (of_runes rs) = false <-> Forall (fun c => c <> 10) rs.
Proof.
  unfold has_newline. induction 1 as [|r rs Hr _ IH]; cbn; [split; [constructor|reflexivity]|].
  rewrite existsb_app, orb_false_iff, newline_of_rune, IH, Z.eqb_neq by exact Hr. rewrite Forall_cons. reflexivity.
Qed.

Lemma zero_or_one_of_runes nl rs : Forall valid_rune rs ->
  zero_or_one nl (of_runes rs) = true <-> rs = [] \/ exists c, rs = [c] /\ (nl = true \/ c <> 10).
Proof.
  intros H. destruct H as [|r rs Hr Hrs]; [split; [auto|reflexivity]|]. unfold zero_or_one. cbn [of_runes].
  destruct (decode_of_rune r (of_runes rs) Hr) as [-> _]. rewrite length_app. pose proof (of_rune_nonempty r) as Hn.
  assert (Hlen : rs = [] <-> length (of_runes rs) = 0%nat) by (symmetry; apply length_of_runes).
  destruct (Z.eqb_spec r RuneError) as [->|He].
  - rewrite bool_decide_eq_true. split.
    + intros E. right. exists RuneError. assert (rs = []) as -> by (apply Hlen; lia). split; [reflexivity|]. right. unfold RuneError. lia.
    + intros [E|(c & E & _)]; [discriminate|]. injection E as _ ->. cbn. lia.
  - destruct (Nat.ltb_spec (length (of_rune r)) (length (of_rune r) + length (of_runes rs))).
    + split; [discriminate|]. intros [E|(c & E & _)]; [discriminate|]. injection E as _ E. apply Hlen in E. lia.
    + assert (rs = []) as -> by (apply Hlen; lia). rewrite bool_decide_eq_false_2, orb_false_r by lia. cbn [of_runes]. rewrite app_nil_r.
      assert (Hnth : (nth 0 (of_rune r) 0 =? 10) = (r =? 10)).
      { destruct (of_rune_cases r Hr) as [[_ ->]|[(a&b&?&?&?&->)|[(a&b&c&?&?&?&?&?&?&->)|(a&b&c&d&?&?&?&?&?&?&?&->)]]]; cbn [nth];
          [reflexivity|settle_tests; reflexivity..]. }
      rewrite Hnth. destruct nl; [split; [right; exists r; auto|reflexivity]|]. rewrite negb_true_iff, Z.eqb_neq. split.
      * intros Hr10. right. exists r. auto.
      * intros [E|(c & [= <-] & [E|E])]; [discriminate|discriminate|exact E].
Qed.

(** ** Repetitions of any character *)

Section matchers.
Context {U : Unicode}.

Lemma any_language s pre mid post : any_char s = true ->
  denotes s pre mid post <-> exists c, mid = [c] /\ (is_op s OpAnyChar = true \/ c <> 10).
Proof.
  unfold any_char, is_op. destruct s as [o f subs rs]. cbn [Op]. intros Ha. apply orb_true_iff in Ha as [Ha|Ha]; apply bool_decide_eq_true in Ha as ->.
  - split; [intros H; inversion H; eauto|intros (c & -> & _); constructor].
  - split; [intros H; inversion H; eauto|intros (c & -> & [Hc|Hc]); [discriminate|constructor; exact Hc]].
Qed.

Lemma star_language fl s rs pre mid post : any_char s = true ->
  denotes (mkRegexp OpStar fl [s] rs) pre mid post <-> is_op s OpAnyChar = true \/ Forall (fun c => c <> 10) mid.
Proof.
  intros Ha. split.
  - remember (mkRegexp OpStar fl [s] rs) as re eqn:E. intros H.
    induction H; try discriminate E; [right; constructor|]. injection E as -> -> ->.
    apply any_language in H as (c & -> & Hc); [|exact Ha]. specialize (IHdenotes2 eq_refl).
    destruct Hc as [Hc|Hc]; [auto|]. destruct IHdenotes2 as [IH|IH]; [auto|]. right. constructor; assumption.
  - revert pre. induction mid as [|c mid IH]; intros pre H; [constructor|]. apply (D_star_more fl s rs pre [c] mid).
    + apply any_language; [exact Ha|]. exists c. split; [reflexivity|]. destruct H as [H|H]; [auto|]. right. exact (Forall_inv H).
    + apply IH. destruct H as [H|H]; [auto|]. right. exact (Forall_inv_tail H).
Qed.

Lemma plus_language fl s rs pre mid post : any_char s = true ->
  denotes (mkRegexp OpPlus fl [s] rs) pre mid post <-> mid <> [] /\ (is_op s OpAnyChar = true \/ Forall (fun c => c <> 10) mid).
Proof.
  intros Ha. split.
  - remember (mkRegexp OpPlus fl [s] rs) as re eqn:E. intros H. induction H; try discriminate E; injection E as -> -> ->.
    + apply any_language in H as (c & -> & Hc); [|exact Ha]. split; [discriminate|]. destruct Hc; [auto|right; repeat constructor; assumption].
    + apply any_language in H as (c & -> & Hc); [|exact Ha]. specialize (IHdenotes2 eq_refl). split; [discriminate|].
      destruct Hc as [Hc|Hc]; [auto|]. destruct IHdenotes2 as [_ [IH|IH]]; [auto|]. right. constructor; assumption.
  - intros [Hn H]. revert pre Hn H. induction mid as [|c mid IH]; intros pre Hn H; [congruence|].
    assert (Hc : is_op s OpAnyChar = true \/ c <> 10) by (destruct H as [H|H]; [auto|right; exact (Forall_inv H)]).
    destruct mid as [|c' mid]; [apply D_plus_one; apply any_language; eauto|].
    apply (D_plus_more fl s rs pre [c] (c' :: mid)); [apply any_language; eauto|]. apply IH; [discriminate|].
    destruct H as [H|H]; [auto|]. right. exact (Forall_inv_tail H).
Qed.

Lemma quest_language fl s rs pre mid post : any_char s = true ->
  denotes (mkRegexp OpQuest fl [s] rs) pre mid post <-> mid = [] \/ exists c, mid = [c] /\ (is_op s OpAnyChar = true \/ c <> 10).
Proof.
  intros Ha. split.
  - intros H. inversion H; subst; [auto|]. right. eapply any_language; eassumption.
  - intros [->|H]; [constructor|]. apply D_quest_one. apply any_language; assumption.
Qed.

(** ** Deciding a set of values *)

(** On every encoded string the matcher returns, and it returns true exactly
    for the values of [P]. *)
Definition computes (f : bytes -> outcome bool) (P : runes -> Prop) : Prop :=
  forall rs, Forall valid_rune rs -> exists b, f (of_runes rs) = Ret b /\ (b = true <-> P rs).
Definition decides (m : StringMatcher) (re : Regexp) : Prop := free re /\ computes (Matches m) (language re).

Lemma computes_iff f P Q : (forall rs, P rs <-> Q rs) -> computes f P -> computes f Q.
Proof. intros H C rs Hrs. destruct (C rs Hrs) as (b & E & Hb). exists b. rewrite E, Hb, H. auto. Qed.

Lemma computes_ret (g : bytes -> bool) (P : runes -> Prop) : (forall rs, Forall valid_rune rs -> g (of_runes rs) = true <-> P rs) ->
  computes (fun s => Ret (g s)) P.
Proof. intros H rs Hrs. exists (g (of_runes rs)). rewrite H by exact Hrs. auto. Qed.

Lemma or_else_computes (f g : bytes -> outcome bool) P Q : computes f P -> computes g Q ->
  computes (fun s => or_else (f s) (fun _ => g s)) (fun rs => P rs \/ Q rs).
Proof.
  intros Hf Hg rs Hrs. destruct (Hf rs Hrs) as (b & -> & Hb), (Hg rs Hrs) as (c & E & Hc). unfold or_else. cbn [outcome_bind].
  destruct b; [exists true; split; [reflexivity|]; split; [intros _; left; apply Hb|]; reflexivity|].
  exists c. split; [exact E|]. rewrite Hc. split; [auto|]. intros [H|H]; [apply Hb in H; discriminate|exact H].
Qed.

(** The loops of [Matches] over matchers and over substrings. *)
Fixpoint any_matches (ms : list StringMatcher) (s : bytes) : outcome bool :=
  match ms with [] => Ret false | m :: ms => or_else (Matches m s) (fun _ => any_matches ms s) end.

Lemma Matches_or ms s : Matches (orStringMatcher ms) s = any_matches ms s.
Proof. cbn [Matches]. induction ms as [|m ms IH]; [reflexivity|]. cbn [any_matches]. rewrite <- IH. reflexivity. Qed.

Lemma any_matches_computes ms Ps : Forall2 (fun m P => computes (Matches m) P) ms Ps ->
  computes (any_matches ms) (fun rs => Exists (fun P => P rs) Ps).
Proof.
  induction 1 as [|m P ms Ps H _ IH]; cbn [any_matches].
  - intros rs _. exists false. split; [reflexivity|]. split; [discriminate|]. intros H. inversion H.
  - eapply computes_iff; [|exact (or_else_computes _ _ _ _ H IH)]. intros rs. rewrite Exists_cons. reflexivity.
Qed.

Lemma of_runes_app_split a rs t : Forall valid_rune a -> Forall valid_rune rs -> of_runes rs = of_runes a ++ t ->
  exists c, rs = a ++ c /\ t = of_runes c /\ Forall valid_rune c.
Proof.
  intros Ha Hrs E. destruct (of_runes_prefix a rs t Ha Hrs E) as (c & -> & ->). apply List.Forall_app in Hrs as [_ Hc]. eauto.
Qed.

(** Matching a literal, and then the rest. *)
Lemma prefix_computes f P x : Forall valid_rune x -> computes f P ->
  computes (fun s => if HasPrefix s (of_runes x) then f (drop (length (of_runes x)) s) else Ret false) (fun rs => exists c, rs = x ++ c /\ P c).
Proof.
  intros Hx Hf rs Hrs. destruct (HasPrefix (of_runes rs) (of_runes x)) eqn:E.
  - apply HasPrefix_spec in E as [t E]. destruct (of_runes_app_split x rs t Hx Hrs E) as (c & -> & -> & Hc).
    rewrite of_runes_app, drop_app_length. destruct (Hf c Hc) as (b & -> & Hb). exists b. split; [reflexivity|]. rewrite Hb. split; [eauto|].
    intros (c' & Ec & HP). apply app_inv_head in Ec as ->. exact HP.
  - exists false. split; [reflexivity|]. split; [discriminate|]. intros (c & -> & _). rewrite of_runes_app in E.
    rewrite (proj2 (HasPrefix_spec _ _)) in E by eauto. discriminate.
Qed.

Lemma suffix_computes f P x : Forall valid_rune x -> x <> [] -> computes f P ->
  computes (fun s => if HasSuffix s (of_runes x) then f (take (length s - length (of_runes x)) s) else Ret false) (fun rs => exists a, rs = a ++ x /\ P a).
Proof.
  intros Hx Hne Hf rs Hrs. destruct (HasSuffix (of_runes rs) (of_runes x)) eqn:E.
  - apply HasSuffix_spec in E as [t E]. rewrite <- (app_nil_r (of_runes x)) in E. destruct (of_runes_infix x rs t [] Hx Hne Hrs E) as (a & c & -> & -> & Ec).
    symmetry in Ec. apply of_runes_nil in Ec as ->. rewrite app_nil_r, of_runes_app, drop_suffix in *. apply List.Forall_app in Hrs as [Ha _].
    destruct (Hf a Ha) as (b & -> & Hb). exists b. split; [reflexivity|]. rewrite Hb. split; [eauto|]. intros (a' & Ea & HP). apply app_inv_tail in Ea as ->. exact HP.
  - exists false. split; [reflexivity|]. split; [discriminate|]. intros (a & -> & _). rewrite of_runes_app in E.
    rewrite (proj2 (HasSuffix_spec _ _)) in E by eauto. discriminate.
Qed.

(** The search for an occurrence of [x] from byte [start] on. *)
Lemma contains_loop_ok f g P Q x rs : computes f P -> computes g Q -> Forall valid_rune x -> x <> [] -> Forall valid_rune rs ->
  forall fuel start, (start <= length (of_runes rs))%nat -> (length (of_runes rs) - start < fuel)%nat ->
  exists b, contains_loop fuel f g (of_runes rs) (of_runes x) start = Ret b
  /\ (b = true <-> exists a c, rs = a ++ x ++ c /\ P a /\ Q c /\ (start <= length (of_runes a))%nat).
Proof.
  intros Hf Hg Hx Hne Hrs. induction fuel as [|fuel IH]; intros start Hs Hfuel; [lia|]. cbn [contains_loop].
  rewrite (proj2 (Nat.ltb_ge _ _) Hs). pose proof (Index_spec (drop start (of_runes rs)) (of_runes x)) as HI.
  assert (Hocc : forall a c, rs = a ++ x ++ c -> (start <= length (of_runes a))%nat ->
     drop start (of_runes rs) = drop start (of_runes a) ++ of_runes x ++ of_runes c).
  { intros a c -> Ha. rewrite !of_runes_app, drop_app_le by exact Ha. reflexivity. }
  destruct (Index (drop start (of_runes rs)) (of_runes x)) as [p|].
  - destruct HI as [(d & t & Ed & Hd) Hmin].
    assert (E : of_runes rs = (take start (of_runes rs) ++ d) ++ of_runes x ++ t) by (rewrite <- app_assoc, <- Ed; symmetry; apply take_drop).
    destruct (of_runes_infix x rs _ t Hx Hne Hrs E) as (a & c & -> & Ea & ->).
    assert (Hla : length (of_runes a) = (p + start)%nat) by (rewrite <- Ea, length_app, length_take, Hd; lia).
    assert (Hxl : (1 <= length (of_runes x))%nat) by (destruct (of_runes x) eqn:Ex; [apply of_runes_nil in Ex; congruence|cbn; lia]).
    clear E Ed Ea. rewrite !of_runes_app in *. rewrite <- Hla, take_app_length, <- length_app, app_assoc, drop_app_length.
    apply List.Forall_app in Hrs as [Ha Hrs]. apply List.Forall_app in Hrs as [_ Hc].
    destruct (Hf a Ha) as (b1 & -> & Hb1), (Hg c Hc) as (b2 & Eb2 & Hb2). cbn [outcome_bind].
    assert (Hrest : (b1 && b2) = false -> exists b, contains_loop fuel f g ((of_runes a ++ of_runes x) ++ of_runes c) (of_runes x) (length (of_runes a) + 1) = Ret b
      /\ (b = true <-> exists a0 c0, a ++ x ++ c = a0 ++ x ++ c0 /\ P a0 /\ Q c0 /\ (start <= length (of_runes a0))%nat)).
    { intros Hb. rewrite !length_app in *. rewrite <- app_assoc.
      destruct (IH (length (of_runes a) + 1)%nat ltac:(lia) ltac:(lia)) as (b & -> & H). exists b. split; [reflexivity|]. rewrite H.
      split; intros (a0 & c0 & E0 & HP & HQ & Hl); exists a0, c0; repeat split; auto; try lia.
      specialize (Hmin _ _ (Hocc _ _ E0 Hl)). rewrite length_drop in Hmin.
      destruct (decide (length (of_runes a0) = length (of_runes a))) as [Heq|]; [exfalso|lia].
      assert (E1 : of_runes a ++ of_runes (x ++ c) = of_runes a0 ++ of_runes (x ++ c0)) by (rewrite <- !of_runes_app, E0; reflexivity).
      apply app_inj_1 in E1 as [E1 E2]; [|symmetry; exact Heq]. assert (Va0 : Forall valid_rune a0) by (assert (V : Forall valid_rune (a ++ x ++ c)) by (rewrite !List.Forall_app; auto); rewrite E0 in V; apply List.Forall_app in V; apply V).
      apply of_runes_inj in E1 as ->; [|assumption..]. apply app_inv_head, app_inv_head in E0 as <-. apply Hb1 in HP. apply Hb2 in HQ. subst. discriminate. }
    destruct b1; cbn [outcome_bind].
    + rewrite Eb2. cbn [outcome_bind]. destruct b2; [|apply Hrest; reflexivity]. exists true. split; [reflexivity|]. split; [|reflexivity]. intros _.
      exists a, c. split; [reflexivity|]. split; [apply Hb1; reflexivity|]. split; [apply Hb2; reflexivity|]. lia.
    + apply Hrest. reflexivity.
  - exists false. split; [reflexivity|]. split; [discriminate|]. intros (a & c & E & _ & _ & Hl). exfalso. exact (HI _ _ (Hocc a c E Hl)).
Qed.

Lemma contains_computes f g P Q x : computes f P -> computes g Q -> Forall valid_rune x -> x <> [] ->
  computes (fun s => contains_loop (length s + 2) f g s (of_runes x) 0) (fun rs => exists a c, rs = a ++ x ++ c /\ P a /\ Q c).
Proof.
  intros Hf Hg Hx Hne rs Hrs. destruct (contains_loop_ok f g P Q x rs Hf Hg Hx Hne Hrs (length (of_runes rs) + 2)%nat 0%nat ltac:(lia) ltac:(lia)) as (b & -> & Hb).
  exists b. split; [reflexivity|]. rewrite Hb. split; [intros (a & c & E & HP & HQ & _); eauto|intros (a & c & E & HP & HQ); exists a, c; repeat split; auto; lia].
Qed.

(** One substring of a [containsStringMatcher]. *)
Definition around (before after : option StringMatcher) (substr s : bytes) : outcome bool :=
  match before, after with
  | Some l, Some r => contains_loop (length s + 2) (Matches l) (Matches r) s substr 0
  | Some l, None => if HasSuffix s substr then Matches l (take (length s - length substr) s) else Ret false
  | None, Some r => if HasPrefix s substr then Matches r (drop (length substr) s) else Ret false
  | None, None => Ret false
  end.
Fixpoint around_each (before after : option StringMatcher) (substrings : list bytes) (s : bytes) : outcome bool :=
  match substrings with
  | [] => Ret false
  | substr :: substrings => or_else (around before after substr s) (fun _ => around_each before after substrings s)
  end.

Lemma Matches_contains before after substrings s :
  Matches (containsStringMatcher before substrings after) s = around_each before after substrings s.
Proof. cbn [Matches]. induction substrings as [|x l IH]; [reflexivity|]. cbn [around_each]. rewrite <- IH. reflexivity. Qed.

Lemma around_each_computes before after (P : runes -> runes -> Prop) xs : (forall x, x ∈ xs -> computes (around before after (of_runes x)) (P x)) ->
  computes (around_each before after (map of_runes xs)) (fun rs => exists x, x ∈ xs /\ P x rs).
Proof.
  induction xs as [|x xs IH]; intros H; cbn [map around_each].
  - intros rs _. exists false. split; [reflexivity|]. split; [discriminate|]. intros (x & Hx & _). apply not_elem_of_nil in Hx as [].
  - eapply computes_iff; [|exact (or_else_computes _ _ _ _ (H x ltac:(left)) (IH (fun y Hy => H y ltac:(right; exact Hy))))].
    intros rs. split.
    + intros [Hx|(y & Hy & HP)]; [exists x; split; [left|exact Hx]|exists y; split; [right; exact Hy|exact HP]].
    + intros (y & Hy & HP). apply elem_of_cons in Hy as [->|Hy]; [auto|right; eauto].
Qed.

(** ** Concatenations *)

Definition seq (l : list Regexp) (rs : runes) : Prop := in_sequence l [] rs [].

Lemma in_sequence_app a b pre mid post : in_sequence (a ++ b) pre mid post <->
  exists m1 m2, mid = m1 ++ m2 /\ in_sequence a pre m1 (m2 ++ post) /\ in_sequence b (pre ++ m1) m2 post.
Proof.
  revert pre mid. induction a as [|r a IH]; intros pre mid; cbn.
  - rewrite <- (app_nil_r pre) at 1. split; [intros H; exists [], mid; auto|intros (m1 & m2 & -> & -> & H); exact H].
  - setoid_rewrite IH. split.
    + intros (m1 & m2 & -> & H1 & n1 & n2 & -> & H2 & H3). exists (m1 ++ n1), n2. split; [apply app_assoc|].
      rewrite <- app_assoc in H1. rewrite app_assoc. split; [|exact H3]. exists m1, n1. auto.
    + intros (m1 & m2 & -> & (n1 & n2 & -> & H1 & H2) & H3). exists n1, (n2 ++ m2). split; [symmetry; apply app_assoc|].
      rewrite <- app_assoc. split; [exact H1|]. exists n2, m2. rewrite app_assoc in H3. auto.
Qed.

Definition free_list (l : list Regexp) : Prop := forall pre mid post, in_sequence l pre mid post <-> seq l mid.

Lemma free_list_app a b : free_list a -> free_list b ->
  free_list (a ++ b) /\ forall rs, seq (a ++ b) rs <-> exists r1 r2, rs = r1 ++ r2 /\ seq a r1 /\ seq b r2.
Proof.
  intros Ha Hb. assert (H : forall pre mid post, in_sequence (a ++ b) pre mid post <-> exists r1 r2, mid = r1 ++ r2 /\ seq a r1 /\ seq b r2).
  { intros pre mid post. rewrite in_sequence_app. split; intros (m1 & m2 & E & H1 & H2); exists m1, m2; (split; [exact E|]);
      (split; [apply Ha in H1; apply Ha; exact H1|apply Hb in H2; apply Hb; exact H2]). }
  split; [|intros rs; apply H]. intros pre mid post. unfold seq. rewrite !H. reflexivity.
Qed.

Lemma seq_one re rs : seq [re] rs <-> language re rs.
Proof.
  unfold seq, language. cbn. split; [intros (m1 & m2 & -> & H & ->); rewrite app_nil_r in *; exact H|].
  intros H. exists rs, []. rewrite app_nil_r. auto.
Qed.

(** What is before or after the literals of a concatenation. *)
Definition part (o : option StringMatcher) (l : list Regexp) : Prop :=
  match o with None => l = [] | Some m => exists re, l = [re] /\ decides m re end.

(** The literals in the middle. *)
Definition middle (l : list Regexp) (xs : list runes) : Prop :=
  free_list l /\ Forall (Forall valid_rune) xs /\ Forall (fun x => x <> []) xs /\ forall x, x ∈ xs <-> seq l x.

Lemma free_list_of l : Forall free l -> free_list l.
Proof. intros H pre mid post. exact (free_sequence l H pre mid post). Qed.

Lemma free_list_one re : free re -> free_list [re].
Proof. intros H. apply free_list_of. constructor; [exact H|constructor]. Qed.

Lemma part_free o l : part o l -> free_list l.
Proof. destruct o as [m|]; cbn; [intros (re & -> & H & _); apply free_list_one; exact H|intros ->; apply free_list_of; constructor]. Qed.

Definition around_values (L R : list Regexp) (x : runes) (rs : runes) : Prop := exists a c, rs = a ++ x ++ c /\ seq L a /\ seq R c.

Lemma seq_around L M R xs : free_list L -> free_list R -> middle M xs ->
  free_list (L ++ M ++ R) /\ forall rs, seq (L ++ M ++ R) rs <-> exists x, x ∈ xs /\ around_values L R x rs.
Proof.
  intros HL HR (HM & _ & _ & Hx). destruct (free_list_app M R HM HR) as [HMR E2]. destruct (free_list_app L (M ++ R) HL HMR) as [HF E1].
  split; [exact HF|]. intros rs. rewrite E1. setoid_rewrite E2. split.
  - intros (r1 & r2 & -> & H1 & r3 & r4 & -> & H3 & H4). exists r3. split; [apply Hx; exact H3|]. exists r1, r4. auto.
  - intros (x & Hin & a & c & -> & Ha & Hc). exists a, (x ++ c). split; [reflexivity|]. split; [exact Ha|]. exists x, c. split; [reflexivity|].
    split; [apply Hx; exact Hin|exact Hc].
Qed.

Lemma around_one before after L R x : part before L -> part after R -> before <> None \/ after <> None -> Forall valid_rune x -> x <> [] ->
  computes (around before after (of_runes x)) (around_values L R x).
Proof.
  intros HL HR Hsome Hx Hne. unfold around, around_values. destruct before as [mb|], after as [ma|]; cbn in HL, HR; try (destruct HL as (lre & -> & _ & HL)); try (destruct HR as (rre & -> & _ & HR)); subst; try (destruct Hsome; congruence).
  - eapply computes_iff; [|apply contains_computes; [exact HL|exact HR|exact Hx|exact Hne]]. intros rs. setoid_rewrite seq_one. reflexivity.
  - eapply computes_iff; [|apply suffix_computes; [exact Hx|exact Hne|exact HL]]. intros rs. setoid_rewrite seq_one. unfold seq. cbn. split.
    + intros (a & -> & Ha). exists a, []. rewrite app_nil_r. auto.
    + intros (a & c & -> & Ha & ->). exists a. rewrite app_nil_r. auto.
  - eapply computes_iff; [|apply prefix_computes; [exact Hx|exact HR]]. intros rs. setoid_rewrite seq_one. unfold seq. cbn. split.
    + intros (c & -> & Hc). exists [], c. auto.
    + intros (a & c & -> & -> & Hc). exists c. auto.
Qed.

(** The leaves of an alternation, as the optimisation walks over them. *)
Fixpoint leaves (m : StringMatcher) : list StringMatcher :=
  match m with orStringMatcher ms => flat_map leaves ms | _ => [m] end.

(** Literals are compared exactly, and the prefixes are not empty. *)
Definition leaf_ok (m : StringMatcher) : Prop :=
  match m with
  | equalStringMatcher _ cs => cs = true
  | literalPrefixSensitiveStringMatcher p _ => p <> []
  | literalPrefixInsensitiveStringMatcher _ _ => False
  | _ => True
  end.
Definition leaves_ok (m : StringMatcher) : Prop := Forall leaf_ok (leaves m).

Lemma concat_matcher_ok before after L M R xs m : part before L -> part after R -> middle M xs ->
  concat_matcher before after (map of_runes xs, true) = Some m ->
  free_list (L ++ M ++ R) /\ computes (Matches m) (seq (L ++ M ++ R)) /\ leaves_ok m.
Proof.
  intros HL HR HM E. destruct (seq_around L M R xs (part_free _ _ HL) (part_free _ _ HR) HM) as [HF Hseq]. split; [exact HF|]. clear HF. revert E.
  destruct HM as (_ & Hv & Hne & _). unfold concat_matcher. destruct xs as [|x xs]; [discriminate|]. cbn [map].
  change (of_runes x :: map of_runes xs) with (map of_runes (x :: xs)).
  assert (Hor : before <> None \/ after <> None -> computes (around_each before after (map of_runes (x :: xs))) (seq (L ++ M ++ R))).
  { intros Hsome. eapply computes_iff; [intros rs; symmetry; apply Hseq|]. apply around_each_computes. intros y Hy.
    apply around_one; [assumption..|exact (proj1 (Forall_forall _ _) Hv y Hy)|exact (proj1 (Forall_forall _ _) Hne y Hy)]. }
  assert (Hsingle : before <> None \/ after <> None -> length (map of_runes (x :: xs)) = 1%nat -> computes (around before after (of_runes x)) (seq (L ++ M ++ R))).
  { intros Hsome E. destruct xs; [|discriminate]. intros rs Hrs. destruct (Hor Hsome rs Hrs) as (b & E' & Hb). cbn [map around_each] in E'. exists b. split; [|exact Hb].
    unfold or_else in E'. destruct (around before after (of_runes x) (of_runes rs)) as [[]|]; cbn in E'; congruence. }
  destruct before as [b|], after as [a|].
  - intros [= <-]. split; [|repeat constructor]. eapply computes_iff; [reflexivity|]. intros rs Hrs. rewrite Matches_contains. apply Hor; [left; congruence|exact Hrs].
  - case_bool_decide as E; intros [= <-]; (split; [|repeat constructor]).
    + intros rs Hrs. cbn [Matches andb negb]. destruct (Hsingle ltac:(left; congruence) E rs Hrs) as (c & E' & Hc). exists c. split; [|exact Hc].
      rewrite <- E'. cbn [around]. destruct (HasSuffix (of_runes rs) (of_runes x)); reflexivity.
    + intros rs Hrs. rewrite Matches_contains. apply Hor; [left; congruence|exact Hrs].
  - case_bool_decide as E; intros [= <-].
    + split; [|repeat constructor; intros E0; apply of_runes_nil in E0; exact (Forall_inv Hne E0)]. intros rs Hrs. cbn [Matches].
      destruct (Hsingle ltac:(right; congruence) E rs Hrs) as (c & E' & Hc). exists c. split; [exact E'|exact Hc].
    + split; [|repeat constructor]. intros rs Hrs. rewrite Matches_contains. apply Hor; [right; congruence|exact Hrs].
  - intros [= <-]. cbn in HL, HR. subst L R. split.
    2: { unfold leaves_ok. change (Forall leaf_ok (flat_map leaves (map (fun m => equalStringMatcher m true) (map of_runes (x :: xs))))).
         clear. induction (x :: xs); cbn; [constructor|]. constructor; [reflexivity|exact IHl]. }
    intros rs Hrs. rewrite Matches_or.
    assert (HF : Forall2 (fun m P => computes (Matches m) P) (map (fun m => equalStringMatcher m true) (map of_runes (x :: xs))) (map (fun y rs => rs = y) (x :: xs))).
    { clear - Hv. induction Hv as [|y l Hy _ IH]; cbn; constructor; [|exact IH]. apply computes_ret. intros rs Hrs. rewrite bool_decide_eq_true.
      split; [intros E; symmetry; apply of_runes_inj; assumption|intros ->; reflexivity]. }
    destruct (any_matches_computes _ _ HF rs Hrs) as (c & E & Hc). exists c. split; [exact E|]. rewrite Hc, Hseq. unfold around_values, seq. cbn [in_sequence].
    rewrite Exists_exists. split.
    + intros (P & HP & H). apply list_elem_of_fmap in HP as (y & -> & Hy). cbn in H. subst rs. exists y. split; [exact Hy|]. exists [], []. rewrite app_nil_r. auto.
    + intros (y & Hy & a & d & -> & -> & ->). exists (fun rs => rs = y). split; [apply list_elem_of_fmap; eauto|]. cbn. apply app_nil_r.
Qed.

(** ** [stringMatcherFromRegexpInternal] *)

Definition replaces (om : outcome (option StringMatcher)) (re : Regexp) : Prop :=
  exists o, om = Ret o /\ forall m, o = Some m -> decides m re /\ leaves_ok m.

Lemma replaces_none re : replaces (Ret None) re.
Proof. exists None. split; [reflexivity|discriminate]. Qed.

Lemma decides_same re re' m : same re re' -> decides m re' -> decides m re.
Proof.
  intros H [F C]. destruct (free_same _ _ H) as [HF HL]. split; [apply HF; exact F|]. eapply computes_iff; [|exact C]. intros rs. symmetry. apply HL.
Qed.

Lemma replaces_same re re' om : same re re' -> replaces om re' -> replaces om re.
Proof. intros H (o & E & Hm). exists o. split; [exact E|]. intros m Eo. destruct (Hm m Eo). split; [eapply decides_same; eassumption|assumption]. Qed.

Lemma decides_concat fl rs l m : free_list l -> computes (Matches m) (seq l) -> decides m (mkRegexp OpConcat fl l rs).
Proof.
  intros F C. split; [|eapply computes_iff; [|exact C]; intros rs'; symmetry; apply denotes_concat].
  intros pre mid post. unfold language. rewrite !denotes_concat. apply F.
Qed.

(** The values that [findSetMatches] lists, as a middle. *)
Lemma lists_middle fl l rs ms : lists (mkRegexp OpConcat fl l rs) [] ms -> Forall (fun m => m <> []) ms ->
  exists xs, ms = map of_runes xs /\ middle l xs.
Proof.
  intros (F & V & E) Hne. unfold valid_language, language in *.
  assert (Hxs : exists xs, ms = map of_runes xs /\ Forall (fun x => denotes (mkRegexp OpConcat fl l rs) [] x []) xs).
  { assert (Hin : forall s, s ∈ ms -> exists x, denotes (mkRegexp OpConcat fl l rs) [] x [] /\ s = of_runes x) by (intros s Hs; apply E in Hs; exact Hs).
    clear - Hin. induction ms as [|s ms IH]; [exists []; split; [reflexivity|constructor]|].
    destruct (Hin s ltac:(left)) as (x & Hx & ->). destruct IH as (xs & -> & Hxs); [intros s Hs; apply Hin; right; exact Hs|].
    exists (x :: xs). split; [reflexivity|constructor; assumption]. }
  destruct Hxs as (xs & -> & Hxs). exists xs. split; [reflexivity|]. split.
  { intros pre mid post. unfold seq. rewrite <- !(denotes_concat fl l rs). apply F. }
  assert (Hvx : forall x, x ∈ xs -> Forall valid_rune x) by (intros x Hx; exact (V x (proj1 (Forall_forall _ _) Hxs x Hx))).
  split; [apply Forall_forall; exact Hvx|]. split.
  - apply Forall_forall. intros x Hx ->. assert (Hn : of_runes [] <> []); [|apply Hn; reflexivity].
    refine (proj1 (Forall_forall _ _) Hne _ _). apply list_elem_of_fmap. eauto.
  - intros x. unfold seq. rewrite <- (denotes_concat fl l rs). split; [intros Hx; exact (proj1 (Forall_forall _ _) Hxs x Hx)|].
    intros Hx. pose proof (proj2 (E (of_runes x)) (ex_intro _ x (conj Hx eq_refl))) as Hin.
    apply list_elem_of_fmap in Hin as (y & Ey & Hy). apply of_runes_inj in Ey as ->; [exact Hy|exact (V x Hx)|exact (Hvx y Hy)].
Qed.

Lemma literal_middle s : good s -> is_op s OpLiteral = true -> isCaseInsensitive s = false /\ middle [s] [Rune s] /\ free s.
Proof.
  intros Hg Ho. destruct s as [o fl subs rs]. apply bool_decide_eq_true in Ho. cbn in Ho. subst o. destruct (good_inv _ Hg) as [[(_ & Hne & Hv) Hc] _].
  cbn [Rune] in *. split; [exact Hc|]. assert (F : free (mkRegexp OpLiteral fl subs rs)) by (intros pre mid post; unfold language; rewrite !literal_language by exact Hc; reflexivity).
  split; [|exact F]. split; [apply free_list_one; exact F|]. split; [repeat constructor; exact Hv|]. split; [repeat constructor; exact Hne|].
  intros x. rewrite list_elem_of_singleton, seq_one. symmetry. apply literal_language. exact Hc.
Qed.

Section concat.
Variable n : nat.
Variable rec : Regexp -> outcome (option StringMatcher).
Hypothesis rec_ok : forall re, good re -> (re_size re <= n)%nat -> replaces (rec re) re.

Lemma take_left_ok subs : Forall good subs -> (sizes subs <= n)%nat -> subs <> [] ->
  exists o, take_left rec subs = Ret o /\ forall b subs', o = Some (b, subs') -> exists L, subs = L ++ subs' /\ part b L.
Proof.
  intros Hg Hn Hne. destruct subs as [|s rest]; [congruence|]. cbn [take_left sizes] in *. destruct (repeats s).
  - destruct (rec_ok s (Forall_inv Hg) ltac:(lia)) as (o & -> & Ho). cbn [outcome_bind]. exists (match o with None => None | Some _ => Some (o, rest) end).
    split; [reflexivity|]. intros b subs' E. destruct o as [m|]; [|discriminate]. injection E as <- <-. exists [s]. split; [reflexivity|].
    exists s. split; [reflexivity|apply (Ho m eq_refl)].
  - exists (Some (None, s :: rest)). split; [reflexivity|]. intros b subs' [= <- <-]. exists []. split; reflexivity.
Qed.

Lemma take_right_ok subs : Forall good subs -> (sizes subs <= n)%nat -> subs <> [] ->
  exists o, take_right rec subs = Ret o /\ forall a subs', o = Some (a, subs') -> exists R, subs = subs' ++ R /\ part a R.
Proof.
  intros Hg Hn Hne. destruct (exists_last Hne) as (init & e & ->). unfold take_right. rewrite last_snoc, removelast_last. destruct (repeats e).
  - assert (He : e ∈ init ++ [e]) by (apply elem_of_app; right; left). pose proof (size_in _ _ He) as Hz.
    destruct (rec_ok e (proj1 (Forall_forall _ _) Hg e He) ltac:(lia)) as (o & -> & Ho). cbn [outcome_bind].
    exists (match o with None => None | Some _ => Some (o, init) end). split; [reflexivity|]. intros a subs' E. destruct o as [m|]; [|discriminate].
    injection E as <- <-. exists [e]. split; [reflexivity|]. exists e. split; [reflexivity|apply (Ho m eq_refl)].
  - exists (Some (None, init ++ [e])). split; [reflexivity|]. intros a subs' [= <- <-]. exists []. rewrite app_nil_r. split; reflexivity.
Qed.

(** Whether the literals come from [findSetMatches] or from a literal next to a
    part with a matcher, the three parts cover the concatenation. *)
Lemma literal_and_matcher_ok before after L M R fl rs ms cs : part before L -> part after R -> Forall good M -> (sizes M <= n)%nat ->
  (ms <> [] -> cs = true /\ Forall (fun m => m <> []) ms /\ lists (mkRegexp OpConcat fl M rs) [] ms) ->
  exists before' after' r, literal_and_matcher rec before after M (ms, cs) = Ret (before', after', r)
  /\ (fst r <> [] -> exists L' M' R' xs, r = (map of_runes xs, true) /\ part before' L' /\ part after' R' /\ middle M' xs /\ L' ++ M' ++ R' = L ++ M ++ R).
Proof.
  intros HL HR Hg Hn Hms.
  assert (Hset : fst (ms, cs) <> [] -> exists L' M' R' xs, (ms, cs) = (map of_runes xs, true) /\ part before L' /\ part after R' /\ middle M' xs /\ L' ++ M' ++ R' = L ++ M ++ R).
  { cbn [fst]. intros Hne. destruct (Hms Hne) as (-> & Hne' & Hl). destruct (lists_middle _ _ _ _ Hl Hne') as (xs & -> & HM). exists L, M, R, xs. auto. }
  unfold literal_and_matcher. destruct M as [|s0 [|s1 [|]]]; try (do 3 eexists; split; [reflexivity|exact Hset]).
  cbn [fst] in *. cbn [sizes] in Hn. case_bool_decide as E0; cbn [negb]; [|do 3 eexists; split; [reflexivity|exact Hset]].
  pose proof (Forall_inv Hg) as Hg0. pose proof (Forall_inv (Forall_inv_tail Hg)) as Hg1.
  destruct (bool_decide (after = None) && is_op s0 OpLiteral) eqn:E1; [|destruct (bool_decide (before = None) && is_op s1 OpLiteral) eqn:E2].
  - apply andb_true_iff in E1 as [Ea El]. apply bool_decide_eq_true in Ea as ->. cbn in HR. subst R.
    destruct (rec_ok s1 Hg1 ltac:(lia)) as (o & -> & Ho). cbn [outcome_bind]. destruct (literal_middle s0 Hg0 El) as (Hc & HM & _).
    do 3 eexists. split; [reflexivity|]. destruct o as [m|]; [|subst ms; cbn; congruence]. intros _. rewrite Hc. exists L, [s0], [s1], [Rune s0].
    split; [reflexivity|]. split; [exact HL|]. split; [exists s1; split; [reflexivity|apply (Ho m eq_refl)]|]. split; [exact HM|]. reflexivity.
  - apply andb_true_iff in E2 as [Eb El]. apply bool_decide_eq_true in Eb as ->. cbn in HL. subst L.
    destruct (rec_ok s0 Hg0 ltac:(lia)) as (o & -> & Ho). cbn [outcome_bind]. destruct (literal_middle s1 Hg1 El) as (Hc & HM & _).
    do 3 eexists. split; [reflexivity|]. destruct o as [m|]; [|subst ms; cbn; congruence]. intros _. rewrite Hc. exists [s0], [s1], R, [Rune s1].
    split; [reflexivity|]. split; [exists s0; split; [reflexivity|apply (Ho m eq_refl)]|]. split; [exact HR|]. split; [exact HM|]. reflexivity.
  - do 3 eexists. split; [reflexivity|exact Hset].
Qed.

Lemma sizes_app a b : sizes (a ++ b) = (sizes a + sizes b)%nat.
Proof. induction a as [|x a IH]; cbn; [reflexivity|]. rewrite IH. lia. Qed.

Lemma in_sequence_middle L M M' R : (forall pre mid post, in_sequence M pre mid post <-> in_sequence M' pre mid post) ->
  forall pre mid post, in_sequence (L ++ M ++ R) pre mid post <-> in_sequence (L ++ M' ++ R) pre mid post.
Proof.
  intros H pre mid post. rewrite !in_sequence_app. setoid_rewrite in_sequence_app. setoid_rewrite H. reflexivity.
Qed.

Lemma find_concat_op fuel fl l rs base r re' :
  findSetMatchesInternal fuel (mkRegexp OpConcat fl l rs) base = Ret (r, re') -> exists l', re' = mkRegexp OpConcat fl l' rs.
Proof.
  destruct fuel as [|fuel]; [discriminate|]. cbn [findSetMatchesInternal Op]. unfold findSetMatchesFromConcat. cbn [Sub].
  case_bool_decide; [intros [= <- <-]; eauto|]. destruct (clear_captures l) as [l1|]; [|discriminate]. cbn [outcome_bind].
  destruct (concat_loop _ _ _ _ _) as [[r' l2]|]; [|discriminate]. cbn [outcome_bind]. unfold with_sub. cbn. intros [= <- <-]. eauto.
Qed.

Lemma concat_parts before after L M R fl rs : part before L -> part after R -> Forall good M -> (sizes M <= n)%nat -> good (mkRegexp OpConcat fl M rs) ->
  replaces (let* (found, re) := findSetMatchesInternal (re_size (mkRegexp OpConcat fl M rs)) (mkRegexp OpConcat fl M rs) [] in
            let* (before, after, found) := literal_and_matcher rec before after (Sub re) found in
            Ret (concat_matcher before after found)) (mkRegexp OpConcat fl (L ++ M ++ R) rs).
Proof.
  intros HL HR Hg Hn Hgood.
  destruct (findSetMatchesInternal_ok (re_size (mkRegexp OpConcat fl M rs)) _ [] Hgood ltac:(lia)) as (ms & cs & re' & E & Hs & Hms).
  rewrite E. destruct (find_concat_op _ _ _ _ _ _ _ E) as [M' ->]. cbn [outcome_bind Sub]. destruct Hs as (Hg' & Hz & Hden).
  rewrite !re_size_eq in Hz.
  assert (Hseq : forall pre mid post, in_sequence M pre mid post <-> in_sequence M' pre mid post) by (intros; rewrite <- !(denotes_concat fl _ rs); apply Hden).
  assert (Hms' : ms <> [] -> cs = true /\ Forall (fun m => m <> []) ms /\ lists (mkRegexp OpConcat fl M' rs) [] ms).
  { intros Hne. destruct (Hms Hne) as (Hc & Hne' & F & V & Hl). split; [exact Hc|]. split; [exact Hne'|].
    assert (Hs : same (mkRegexp OpConcat fl M rs) (mkRegexp OpConcat fl M' rs)) by (split; [exact Hg'|]; split; [rewrite !re_size_eq; exact Hz|exact Hden]).
    destruct (free_same _ _ Hs) as [HF HLg]. split; [apply HF; exact F|]. split; [apply (valid_language_same _ _ Hs); exact V|].
    intros s. rewrite Hl. setoid_rewrite HLg. reflexivity. }
  destruct (literal_and_matcher_ok before after L M' R fl rs ms cs HL HR (proj2 (good_inv _ Hg')) ltac:(lia) Hms') as (b' & a' & r & -> & Hr).
  cbn [outcome_bind]. exists (concat_matcher b' a' r). split; [reflexivity|]. intros m Em.
  assert (Hne : fst r <> []) by (destruct r as [[|] ?]; cbn in *; congruence).
  destruct (Hr Hne) as (L' & M2 & R' & xs & -> & HL' & HR' & HM' & Eq). destruct (concat_matcher_ok _ _ _ _ _ _ _ HL' HR' HM' Em) as (F & C & Hleaf).
  split; [|exact Hleaf]. rewrite Eq in F, C. pose proof (in_sequence_middle L M M' R Hseq) as Hfull. apply decides_concat.
  - intros pre mid post. unfold seq. rewrite !Hfull. apply F.
  - eapply computes_iff; [|exact C]. intros rs'. unfold seq. rewrite Hfull. reflexivity.
Qed.

Lemma from_concat_ok fl subs rs : good (mkRegexp OpConcat fl subs rs) -> (sizes subs <= n)%nat ->
  replaces (from_concat rec (mkRegexp OpConcat fl subs rs)) (mkRegexp OpConcat fl subs rs).
Proof.
  intros Hg Hn. destruct (good_inv _ Hg) as [[_ Hc] Hgs]. cbn [Sub] in Hgs. unfold from_concat. cbn [Sub].
  destruct (clear_captures_ok subs Hgs) as (subs1 & -> & Hs1 & _). cbn [outcome_bind]. destruct (same_sizes _ _ Hs1) as [Hz Hg1].
  apply (replaces_same _ (mkRegexp OpConcat fl subs1 rs)); [apply same_list; auto|]. clear Hs1.
  assert (Hgood : forall l, Forall good l -> good (mkRegexp OpConcat fl l rs)) by (intros l Hl; apply good_mk; [split; [exact I|exact Hc]|exact Hl]).
  destruct subs1 as [|s1 [|s2 rest]].
  - exists (Some emptyStringMatcher). split; [reflexivity|]. intros m [= <-]. split; [|repeat constructor]. apply decides_concat; [apply free_list_of; constructor|].
    unfold seq. cbn [in_sequence Matches]. apply computes_ret. intros rs' _. rewrite bool_decide_eq_true. apply length_of_runes.
  - cbn [sizes] in Hz. destruct (rec_ok s1 (Forall_inv Hg1) ltac:(lia)) as (o & E & Ho). exists o. split; [exact E|]. intros m Em. destruct (Ho m Em) as [[F C] Hleaf].
    split; [|exact Hleaf]. apply decides_concat; [apply free_list_one; exact F|]. eapply computes_iff; [|exact C]. intros rs'. symmetry. apply seq_one.
  - assert (HS1 : s1 :: s2 :: rest <> []) by discriminate. assert (HS2 : (2 <= length (s1 :: s2 :: rest))%nat) by (cbn; lia).
    remember (s1 :: s2 :: rest) as S1 eqn:E1. clear E1 s1 s2 rest. destruct (take_left_ok S1 Hg1 ltac:(lia) HS1) as (o & -> & Ho). cbn [outcome_bind].
    destruct o as [[before M]|]; [|apply replaces_none]. destruct (Ho _ _ eq_refl) as (L & EL & HL).
    assert (HM : M <> []).
    { intros ->. rewrite app_nil_r in EL. destruct before; cbn in HL; [destruct HL as (? & -> & _)|rewrite HL in EL]; rewrite EL in HS2; cbn in HS2; lia. }
    rewrite EL in Hg1, Hz. apply List.Forall_app in Hg1 as [_ HgM]. rewrite sizes_app in Hz. assert (HzM : (sizes M <= n)%nat) by lia.
    destruct (take_right_ok M HgM HzM HM) as (o & -> & Ho'). cbn [outcome_bind]. destruct o as [[after M']|]; [|apply replaces_none].
    destruct (Ho' _ _ eq_refl) as (R & ER & HR). rewrite EL, ER. rewrite ER in HgM, HzM. apply List.Forall_app in HgM as [HgM _].
    apply concat_parts; [exact HL|exact HR|exact HgM| |apply Hgood; exact HgM]. rewrite sizes_app in HzM. lia.
Qed.
End concat.

Lemma alternatives_ok n rec subs : (forall re, good re -> (re_size re <= n)%nat -> replaces (rec re) re) -> Forall good subs -> (sizes subs <= n)%nat ->
  exists o, alternatives rec subs = Ret o /\ forall ms, o = Some ms -> Forall2 decides ms subs /\ Forall leaves_ok ms.
Proof.
  intros Hrec. induction subs as [|s subs IH]; intros Hg Hn; cbn [alternatives sizes] in *.
  - exists (Some []). split; [reflexivity|]. intros ms [= <-]. split; constructor.
  - destruct (Hrec s (Forall_inv Hg) ltac:(lia)) as (o & -> & Ho). cbn [outcome_bind]. destruct o as [m|]; [|exists None; split; [reflexivity|discriminate]].
    destruct (IH (Forall_inv_tail Hg) ltac:(lia)) as (o & -> & Hos). cbn [outcome_bind]. exists (option_map (cons m) o). split; [reflexivity|].
    intros ms E. destruct o as [ms'|]; [|discriminate]. injection E as <-. destruct (Hos _ eq_refl), (Ho m eq_refl). split; constructor; assumption.
Qed.

Lemma decides_alternate fl subs rs ms : Forall2 decides ms subs -> decides (orStringMatcher ms) (mkRegexp OpAlternate fl subs rs).
Proof.
  intros H. assert (Hfree : Forall free subs) by (clear -H; induction H as [|m r ms subs [F _] _ IH]; constructor; assumption). split.
  - intros pre mid post. unfold language. rewrite !denotes_alternate. split; intros (r & Hr & Hd); exists r; (split; [exact Hr|]);
      pose proof (proj1 (Forall_forall _ _) Hfree r Hr) as F; apply F; apply F in Hd; exact Hd.
  - intros rs' Hrs. rewrite Matches_or.
    assert (HF : Forall2 (fun m P => computes (Matches m) P) ms (map language subs)) by (clear -H; induction H as [|m r ms subs [_ C] _ IH]; constructor; assumption).
    destruct (any_matches_computes _ _ HF rs' Hrs) as (b & E & Hb). exists b. split; [exact E|]. rewrite Hb. unfold language at 2. rewrite denotes_alternate, Exists_exists. split.
    + intros (P & HP & Hp). apply list_elem_of_fmap in HP as (r & -> & Hr). eauto.
    + intros (r & Hr & Hd). exists (language r). split; [apply list_elem_of_fmap; eauto|exact Hd].
Qed.

(** A tree with one argument. *)
Lemma one_sub o fl subs rs : node_valid (mkRegexp o fl subs rs) -> o = OpStar \/ o = OpPlus \/ o = OpQuest -> exists s, subs = [s].
Proof.
  intros H Ho. assert (E : length subs = 1%nat) by (destruct Ho as [-> | [-> | ->]]; exact H). destruct subs as [|s [|]]; try discriminate. eauto.
Qed.

Lemma decides_free m re (P : runes -> Prop) : (forall pre mid post, denotes re pre mid post <-> P mid) -> computes (Matches m) P -> decides m re.
Proof.
  intros H C. split; [intros pre mid post; unfold language; rewrite !H; reflexivity|]. eapply computes_iff; [|exact C]. intros rs. symmetry. apply H.
Qed.

Lemma nonempty_of_runes rs : (0 <? length (of_runes rs))%nat = true <-> rs <> [].
Proof. rewrite Nat.ltb_lt. pose proof (length_of_runes rs) as H. destruct rs; [cbn; split; [lia|congruence]|]. split; [discriminate|]. intros _. destruct (length (of_runes _)); [|lia]. discriminate (proj1 H eq_refl). Qed.

Lemma newline_bool rs : Forall valid_rune rs -> negb (has_newline (of_runes rs)) = true <-> Forall (fun c => c <> 10) rs.
Proof. intros H. rewrite negb_true_iff. apply has_newline_of_runes. exact H. Qed.

Lemma repetition_ok o fl s rs m : any_char s = true ->
  (o = OpStar /\ m = (if is_op s OpAnyChar then trueMatcher else anyStringWithoutNewlineMatcher))
  \/ (o = OpPlus /\ m = anyNonEmptyStringMatcher (is_op s OpAnyChar)) \/ (o = OpQuest /\ m = zeroOrOneCharacterStringMatcher (is_op s OpAnyChar)) ->
  decides m (mkRegexp o fl [s] rs) /\ leaves_ok m.
Proof.
  intros Ha [[-> ->]|[[-> ->]|[-> ->]]].
  - split; [|destruct (is_op s OpAnyChar); repeat constructor]. eapply decides_free; [intros; apply star_language; exact Ha|].
    destruct (is_op s OpAnyChar); cbn [Matches]; apply computes_ret; intros r Hr; [split; auto|]. rewrite newline_bool by exact Hr. split; [auto|intros [E|E]; [discriminate|exact E]].
  - split; [|repeat constructor]. eapply decides_free; [intros; apply plus_language; exact Ha|]. cbn [Matches]. apply computes_ret. intros r Hr.
    destruct (is_op s OpAnyChar); rewrite ?andb_true_iff, nonempty_of_runes, ?newline_bool by exact Hr; [split; [auto|intros [E _]; exact E]|].
    split; [intros [E F]; auto|intros [E [F|F]]; [discriminate|auto]].
  - split; [|repeat constructor]. eapply decides_free; [intros; apply quest_language; exact Ha|]. cbn [Matches]. apply computes_ret. intros r Hr. apply zero_or_one_of_runes. exact Hr.
Qed.

Lemma stringMatcherFromRegexpInternal_ok fuel : forall re, good re -> (re_size re <= fuel)%nat -> replaces (stringMatcherFromRegexpInternal fuel re) re.
Proof.
  induction fuel as [|fuel IH]; intros re0 Hg0 Hf0; [destruct re0; rewrite re_size_eq in Hf0; lia|]. cbn [stringMatcherFromRegexpInternal].
  destruct (clearCapture_ok re0 Hg0) as (re & -> & Hs & Hop). cbn [outcome_bind]. apply (replaces_same _ _ _ Hs). destruct Hs as (Hg & Hz & _).
  assert (Hf : (re_size re <= S fuel)%nat) by lia. clear re0 Hg0 Hf0 Hz Hop. destruct re as [o fl subs rs]. rewrite re_size_eq in Hf.
  pose proof (good_inv _ Hg) as [[Hok Hc] Hgs]. cbn [Sub] in Hgs. cbn [Op Sub Rune].
  destruct o; try apply replaces_none.
  - exists (Some emptyStringMatcher). split; [reflexivity|]. intros m [= <-]. split; [|repeat constructor]. eapply decides_free; [apply empty_language|].
    cbn [Matches]. apply computes_ret. intros r _. rewrite bool_decide_eq_true. apply length_of_runes.
  - eexists. split; [reflexivity|]. intros m [= <-]. rewrite Hc. split; [|repeat constructor].
    eapply decides_free; [intros; apply literal_language; exact Hc|]. cbn [Matches negb]. apply computes_ret. intros r Hr. rewrite bool_decide_eq_true.
    destruct Hok as (_ & _ & Hv). split; [intros E; symmetry; apply of_runes_inj; [exact Hv|exact Hr|exact E]|intros ->; reflexivity].
  - destruct (one_sub _ _ _ _ Hok) as [s ->]; [auto|]. cbn [sub0 Sub outcome_bind]. eexists. split; [reflexivity|]. destruct (any_char s) eqn:Ha; [|discriminate].
    intros m [= <-]. apply repetition_ok; [exact Ha|auto].
  - destruct (one_sub _ _ _ _ Hok) as [s ->]; [auto|]. cbn [sub0 Sub outcome_bind]. eexists. split; [reflexivity|]. destruct (any_char s) eqn:Ha; [|discriminate].
    intros m [= <-]. apply repetition_ok; [exact Ha|auto].
  - destruct (one_sub _ _ _ _ Hok) as [s ->]; [auto|]. cbn [sub0 Sub outcome_bind length]. rewrite bool_decide_eq_true_2 by reflexivity. cbn [negb]. eexists. split; [reflexivity|].
    destruct (any_char s) eqn:Ha; [|discriminate]. intros m [= <-]. apply repetition_ok; [exact Ha|auto].
  - apply (from_concat_ok fuel); [exact IH|exact Hg|lia].
  - destruct (alternatives_ok fuel _ subs IH Hgs ltac:(lia)) as (o & -> & Ho). cbn [outcome_bind]. exists (option_map orStringMatcher o). split; [reflexivity|].
    intros m E. destruct o as [ms|]; [|discriminate]. injection E as <-. destruct (Ho _ eq_refl) as [HD HL]. split; [apply decides_alternate; exact HD|].
    unfold leaves_ok. cbn [leaves]. clear -HL. induction HL as [|m ms Hm _ IH]; cbn; [constructor|]. apply List.Forall_app. split; assumption.
Qed.
End matchers.
