(* ===== verification/RegexpFast.v ===== *)
(** * [FastRegexMatcher] matches like the engine ([model/labels/regexp.go])

    The anchors that [clearBeginEndText] removes, the map that long
    alternations are turned into, and the prefix, suffix and contents that are
    checked first keep what is matched; so the matcher that
    [NewFastRegexMatcher] returns agrees with the meaning of the expression on
    every string of valid UTF-8, if no part of the expression ignores case. *)
From stdpp Require Import base list numbers gmap strings.
From Stdlib Require Import ZArith Lia.
From S2P Require Import Prelude Utf8 Regexp RegexpSound RegexpMatchers.

Section fast.
Context {U : Unicode}.

(** ** Anchors at the ends *)

Lemma begin_language s pre mid post : is_op s OpBeginText = true -> denotes s pre mid post <-> pre = [] /\ mid = [].
Proof.
  intros H. apply bool_decide_eq_true in H. destruct s as [o fl subs rs]. cbn in H. subst o.
  split; [intros D; inversion D; auto|intros [-> ->]; constructor].
Qed.

Lemma end_language s pre mid post : is_op s OpEndText = true -> denotes s pre mid post <-> post = [] /\ mid = [].
Proof.
  intros H. apply bool_decide_eq_true in H. destruct s as [o fl subs rs]. cbn in H. subst o.
  split; [intros D; inversion D; auto|intros [-> ->]; constructor].
Qed.

Lemma anchor_language s : is_op s OpBeginText || is_op s OpEndText = true ->
  denotes s [] [] [] /\ forall pre mid post, denotes s pre mid post -> mid = [].
Proof.
  intros H. apply orb_true_iff in H as [H|H].
  - split; [apply begin_language; auto|]. intros pre mid post D. apply begin_language in D; tauto.
  - split; [apply end_language; auto|]. intros pre mid post D. apply end_language in D; tauto.
Qed.

Lemma drop_begin_seq l rs : seq (drop_begin l) rs <-> seq l rs.
Proof.
  unfold seq. destruct l as [|s l]; [reflexivity|]. cbn [drop_begin]. destruct (is_op s OpBeginText) eqn:E; [|reflexivity]. cbn [in_sequence]. split.
  - intros H. exists [], rs. split; [reflexivity|]. split; [apply begin_language; auto|exact H].
  - intros (m1 & m2 & -> & H1 & H2). apply begin_language in H1 as [_ ->]; [exact H2|exact E].
Qed.

Lemma drop_end_seq l rs : seq (drop_end l) rs <-> seq l rs.
Proof.
  destruct l as [|s l' _] using rev_ind; [reflexivity|]. unfold drop_end. rewrite last_snoc. destruct (is_op s OpEndText) eqn:E; [|reflexivity].
  rewrite removelast_last. unfold seq. rewrite in_sequence_app. cbn [in_sequence]. split.
  - intros H. exists rs, []. rewrite app_nil_r. split; [reflexivity|]. split; [exact H|]. exists [], []. split; [reflexivity|]. split; [apply end_language; auto|reflexivity].
  - intros (m1 & m2 & -> & H1 & n1 & n2 & -> & H2 & ->). apply end_language in H2 as [_ ->]; [|exact E]. rewrite app_nil_r. exact H1.
Qed.

Lemma drop_ends_good l : Forall good l -> Forall good (drop_end (drop_begin l)) /\ (sizes (drop_end (drop_begin l)) <= sizes l)%nat.
Proof.
  intros H. assert (H1 : Forall good (drop_begin l) /\ (sizes (drop_begin l) <= sizes l)%nat).
  { destruct l as [|s l]; [auto|]. cbn [drop_begin]. destruct (is_op s OpBeginText); [|auto]. split; [exact (Forall_inv_tail H)|cbn; lia]. }
  destruct H1 as [H1 Hz]. revert H1 Hz. generalize (drop_begin l) as l'. intros l' H1 Hz. destruct l' as [|s l' _] using rev_ind; [auto|].
  unfold drop_end. rewrite last_snoc. destruct (is_op s OpEndText); [|auto]. rewrite removelast_last. apply List.Forall_app in H1 as [H1 _].
  split; [exact H1|]. rewrite sizes_app in Hz. lia.
Qed.

(** Trees that match the same values when anchored. *)
Definition same_language (re re' : Regexp) : Prop :=
  good re' /\ (re_size re' <= re_size re)%nat /\ forall rs, language re rs <-> language re' rs.

Lemma repeated_anchor o fl s rs pre mid post : o = OpStar \/ o = OpPlus -> (forall pre mid post, denotes s pre mid post -> mid = []) ->
  denotes (mkRegexp o fl [s] rs) pre mid post -> mid = [].
Proof.
  intros Ho Hn D. remember (mkRegexp o fl [s] rs) as re eqn:E. revert Ho E.
  induction D; intros Ho E; try reflexivity; try discriminate E; try (injection E; intros; subst; destruct Ho; discriminate); injection E as <- -> -> ->.
  - rewrite (Hn _ _ _ D1), IHD2 by auto. reflexivity.
  - eapply Hn; eassumption.
  - rewrite (Hn _ _ _ D1), IHD2 by auto. reflexivity.
Qed.

Lemma only_anchors o fl s rs : o = OpCapture \/ o = OpStar \/ o = OpPlus \/ o = OpQuest \/ o = OpConcat ->
  is_op s OpBeginText || is_op s OpEndText = true -> forall mid, language (mkRegexp o fl [s] rs) mid <-> mid = [].
Proof.
  intros Ho Hs. destruct (anchor_language s Hs) as [Hd Hn]. intros mid. unfold language.
  destruct Ho as [-> |[-> |[-> |[-> | ->]]]]; (split; [|intros ->]).
  - rewrite denotes_capture. apply Hn.
  - constructor. exact Hd.
  - apply repeated_anchor; auto.
  - constructor.
  - apply repeated_anchor; auto.
  - constructor. exact Hd.
  - intros D. inversion D; subst; [reflexivity|eapply Hn; eassumption].
  - constructor.
  - rewrite denotes_concat. intros (m1 & m2 & -> & D & ->). rewrite (Hn _ _ _ D). reflexivity.
  - apply denotes_concat. exists [], []. split; [reflexivity|]. split; [exact Hd|reflexivity].
Qed.

Lemma clearBeginEndText_ok re : good re -> same_language re (clearBeginEndText re).
Proof.
  intros Hg. assert (Hrefl : same_language re re) by (split; [exact Hg|]; split; [lia|reflexivity]).
  destruct re as [o fl subs rs]. destruct (good_inv _ Hg) as [[Hok Hc] Hgs]. cbn [Sub] in Hgs. unfold clearBeginEndText. cbn [Sub Flags Rune].
  destruct (is_op (mkRegexp o fl subs rs) OpAlternate) eqn:Ea; [exact Hrefl|]. apply bool_decide_eq_false in Ea. cbn [Op] in Ea.
  destruct subs as [|s [|s' subs]]; [exact Hrefl| |].
  - destruct (is_op s OpBeginText || is_op s OpEndText) eqn:Es; [|exact Hrefl]. split; [apply good_mk; [split; [reflexivity|exact Hc]|constructor]|].
    split; [rewrite !re_size_eq; cbn; lia|]. intros mid. unfold language at 2. rewrite empty_language. apply only_anchors; [|exact Es].
    destruct o; cbn in Hok; try discriminate Hok; try contradiction; try (destruct Hok as [Hok _]; discriminate Hok); try congruence; auto 6.
  - assert (o = OpConcat) as ->. { destruct o; cbn in Hok; try discriminate Hok; try contradiction; try (destruct Hok as [Hok _]; discriminate Hok); congruence. }
    destruct (drop_ends_good _ Hgs) as [Hg' Hz]. split; [apply good_mk; [split; [exact I|exact Hc]|exact Hg']|].
    split; [unfold with_sub; cbn [Op Flags Rune]; rewrite !re_size_eq; lia|]. intros mid. unfold language, with_sub. cbn [Op Flags Rune]. rewrite !denotes_concat.
    change (seq (s :: s' :: subs) mid <-> seq (drop_end (drop_begin (s :: s' :: subs))) mid). rewrite drop_end_seq, drop_begin_seq. reflexivity.
Qed.

(** ** Long alternations *)

Section walk.
Context {St : Type}.
Variable e : bytes -> bool -> GoM St bool.
Variable p : bytes -> bool -> StringMatcher -> GoM St bool.

Definition visit (m : StringMatcher) : GoM St bool :=
  match m with
  | equalStringMatcher s cs => e s cs
  | literalPrefixSensitiveStringMatcher prefix _ => p prefix true m
  | literalPrefixInsensitiveStringMatcher prefix _ => p prefix false m
  | _ => go_ret false
  end.
Fixpoint walk (l : list StringMatcher) : GoM St bool :=
  match l with [] => go_ret true | m :: l => ok <-- visit m ;; if ok : bool then walk l else go_ret false end.

Lemma walk_app a b st : walk (a ++ b) st = (ok <-- walk a ;; if ok : bool then walk b else go_ret false) st.
Proof.
  revert st. induction a as [|m a IH]; intros st; cbn [app walk]; [reflexivity|]. unfold go_bind.
  destruct (visit m st) as [[[] st']|]; [|reflexivity..]. rewrite IH. reflexivity.
Qed.

Lemma walk_one m st : walk [m] st = visit m st.
Proof. cbn [walk]. unfold go_bind. destruct (visit m st) as [[[] st']|]; reflexivity. Qed.

(** The walk over nested alternations is a walk over the leaves. *)
Lemma find_set_walk ms st : findEqualOrPrefixStringMatchers e p (orStringMatcher ms) st = walk (leaves (orStringMatcher ms)) st.
Proof.
  assert (G : forall m ms, m = orStringMatcher ms -> forall st, findEqualOrPrefixStringMatchers e p m st = walk (leaves m) st); [|exact (G _ ms eq_refl st)].
  clear ms st. fix IH 1. intros [| | | | |l| | | | | |] ms' E; try discriminate E. clear ms' E.
  induction l as [|m l IHl]; intros st; [reflexivity|]. change (leaves (orStringMatcher (m :: l))) with (leaves m ++ leaves (orStringMatcher l)).
  rewrite walk_app. cbn [findEqualOrPrefixStringMatchers] in *. unfold go_bind.
  assert (Hm : (match m with
      | orStringMatcher _ => findEqualOrPrefixStringMatchers e p m
      | equalStringMatcher s cs => e s cs
      | literalPrefixSensitiveStringMatcher prefix _ => p prefix true m
      | literalPrefixInsensitiveStringMatcher prefix _ => p prefix false m
      | _ => go_ret false
      end) st = walk (leaves m) st).
  { pose proof (IH m) as IHm. destruct m as [| | | | |k| | | | | |]; try (cbn [leaves]; rewrite walk_one; reflexivity). exact (IHm k eq_refl st). }
  cbn [findEqualOrPrefixStringMatchers] in Hm. rewrite Hm. destruct (walk (leaves m) st) as [[[] st']|]; [apply IHl|reflexivity..].
Qed.
End walk.

Definition equal_of (m : StringMatcher) : option bytes := match m with equalStringMatcher s _ => Some s | _ => None end.
Definition prefix_of (m : StringMatcher) : option bytes := match m with literalPrefixSensitiveStringMatcher p _ => Some p | _ => None end.

(** A leaf that the optimisation accepts. *)
Definition simple (m : StringMatcher) : Prop :=
  match m with equalStringMatcher _ cs => cs = true | literalPrefixSensitiveStringMatcher p _ => p <> [] | _ => False end.

(** What the analysis knows of the leaves [seen]. *)
Record summary (a : analysis) (seen : list StringMatcher) : Prop := {
  su_exact : an_set a = true -> an_caseSensitive a = true;
  su_set : an_set a = false -> seen = [];
  su_count : an_numValues a + an_numPrefixes a = Z.of_nat (length seen);
  su_pos : 0 <= an_numPrefixes a;
  su_none : an_numPrefixes a = 0 -> Forall (fun m => prefix_of m = None) seen;
  su_minpos : 0 < an_numPrefixes a -> (0 < an_minPrefixLength a)%nat;
  su_min : forall m p, m ∈ seen -> prefix_of m = Some p -> (an_minPrefixLength a <= length p)%nat }.

Lemma summary_equal a seen s : summary a seen ->
  exists a', analyse_equal s true a = Ret (true, a') /\ summary a' (seen ++ [equalStringMatcher s true]).
Proof.
  intros [H1 H2 H3 H4 H5 H7 H6]. unfold analyse_equal.
  assert (E : an_set a && negb (eqb (an_caseSensitive a) true) = false) by (destruct (an_set a); [rewrite H1 by reflexivity|]; reflexivity). rewrite E.
  eexists. split; [reflexivity|]. constructor; cbn [an_set an_caseSensitive an_numValues an_numPrefixes an_minPrefixLength].
  - intros _. destruct (an_set a); [apply H1|]; reflexivity.
  - discriminate.
  - rewrite length_app. cbn. lia.
  - exact H4.
  - intros Hz. apply List.Forall_app. split; [apply H5; exact Hz|repeat constructor].
  - exact H7.
  - intros m p Hm Hp. apply elem_of_app in Hm as [Hm|Hm]; [eapply H6; eassumption|]. apply list_elem_of_singleton in Hm as ->. discriminate.
Qed.

Lemma summary_prefix a seen p r : p <> [] -> summary a seen ->
  exists a', analyse_prefix p true (literalPrefixSensitiveStringMatcher p r) a = Ret (true, a')
  /\ summary a' (seen ++ [literalPrefixSensitiveStringMatcher p r]).
Proof.
  intros Hp [H1 H2 H3 H4 H5 H7 H6]. unfold analyse_prefix. assert (Hl : (0 < length p)%nat) by (destruct p; [congruence|cbn; lia]).
  assert (E : an_set a && negb (eqb (an_caseSensitive a) true) = false) by (destruct (an_set a); [rewrite H1 by reflexivity|]; reflexivity). rewrite E.
  eexists. split; [reflexivity|]. constructor; cbn [an_set an_caseSensitive an_numValues an_numPrefixes an_minPrefixLength].
  - intros _. destruct (an_set a); [apply H1|]; reflexivity.
  - discriminate.
  - rewrite length_app. cbn. lia.
  - lia.
  - lia.
  - intros _. destruct (Z.eqb_spec (an_numPrefixes a) 0) as [Hz|Hz]; cbn [orb]; [lia|]. specialize (H7 ltac:(lia)).
    destruct (Nat.ltb_spec (length p) (an_minPrefixLength a)); lia.
  - intros m q Hm Hq. apply elem_of_app in Hm as [Hm|Hm].
    + specialize (H6 m q Hm Hq). destruct (Z.eqb_spec (an_numPrefixes a) 0) as [Hz|Hz]; cbn [orb].
      * pose proof (proj1 (Forall_forall _ _) (H5 Hz) m Hm). cbn in *. congruence.
      * destruct (Nat.ltb_spec (length p) (an_minPrefixLength a)); lia.
    + apply list_elem_of_singleton in Hm as ->. injection Hq as <-. destruct (Z.eqb_spec (an_numPrefixes a) 0) as [Hz|Hz]; cbn [orb]; [lia|].
      destruct (Nat.ltb_spec (length p) (an_minPrefixLength a)); lia.
Qed.

Lemma analyse_ok l : forall seen a, summary a seen -> Forall leaf_ok l ->
  exists ok a', walk analyse_equal analyse_prefix l a = Ret (ok, a') /\ (ok = true -> Forall simple l /\ summary a' (seen ++ l)).
Proof.
  induction l as [|m l IH]; intros seen a Hs Hl; cbn [walk].
  - exists true, a. rewrite app_nil_r. split; [reflexivity|]. intros _. split; [constructor|exact Hs].
  - unfold go_bind. pose proof (Forall_inv Hl) as Hm. apply Forall_inv_tail in Hl.
    assert (Hcase : (visit analyse_equal analyse_prefix m a = Ret (false, a)) \/ (simple m /\ exists a', visit analyse_equal analyse_prefix m a = Ret (true, a') /\ summary a' (seen ++ [m]))).
    { destruct m; try (left; reflexivity); try contradiction; right; cbn in Hm.
      - split; [exact Hm|]. apply summary_prefix; assumption.
      - subst. split; [reflexivity|]. apply summary_equal; assumption. }
    destruct Hcase as [->|(Hsm & a' & -> & Hs')]; [exists false, a; split; [reflexivity|discriminate]|].
    destruct (IH _ _ Hs' Hl) as (ok & a2 & -> & Ho). exists ok, a2. split; [reflexivity|]. intros E. destruct (Ho E) as [Hf Hs2].
    rewrite <- app_assoc in Hs2. split; [constructor; assumption|exact Hs2].
Qed.

(** ** What a builder holds *)

Fixpoint get_prefix (k : bytes) (prefixes : list (bytes * list StringMatcher)) : list StringMatcher :=
  match prefixes with [] => [] | (k', ms) :: prefixes => if bool_decide (k' = k) then ms else get_prefix k prefixes end.
Definition keyed (n : nat) (k : bytes) (m : StringMatcher) : bool :=
  match prefix_of m with Some p => bool_decide (take n p = k) | None => false end.
Definition holds (n : nat) (b : builder) (seen : list StringMatcher) : Prop :=
  match b with
  | equalMultiStringSliceMatcher values cs => cs = true /\ values = omap equal_of seen /\ Forall (fun m => prefix_of m = None) seen
  | equalMultiStringMapMatcher values prefixes n' cs =>
      cs = true /\ n' = n /\ (forall v, v ∈ values <-> v ∈ omap equal_of seen) /\ forall k, get_prefix k prefixes = List.filter (keyed n k) seen
  end.

Lemma get_add k k' m prefixes : get_prefix k' (add_to k m prefixes) = if bool_decide (k = k') then get_prefix k' prefixes ++ [m] else get_prefix k' prefixes.
Proof.
  induction prefixes as [|[k0 ms] l IH]; cbn [add_to get_prefix]; [case_bool_decide; reflexivity|].
  destruct (bool_decide (k0 = k)) eqn:E0; cbn [get_prefix].
  - apply bool_decide_eq_true in E0 as ->. case_bool_decide; reflexivity.
  - apply bool_decide_eq_false in E0. rewrite IH. repeat case_bool_decide; try reflexivity; congruence.
Qed.

Lemma omap_snoc {A B} (f : A -> option B) l x : omap f (l ++ [x]) = omap f l ++ (match f x with Some y => [y] | None => [] end).
Proof. rewrite omap_app. cbn. destruct (f x); reflexivity. Qed.

Lemma add_holds n b seen s : holds n b seen -> holds n (add b s) (seen ++ [equalStringMatcher s true]).
Proof.
  destruct b as [values cs|values prefixes n' cs]; cbn [holds add].
  - intros (-> & -> & H). rewrite omap_snoc. split; [reflexivity|]. split; [reflexivity|]. apply List.Forall_app. split; [exact H|repeat constructor].
  - intros (-> & -> & H & G). split; [reflexivity|]. split; [reflexivity|]. split.
    + intros v. rewrite omap_snoc. cbn. rewrite elem_of_union, elem_of_singleton, H, elem_of_app, list_elem_of_singleton. tauto.
    + intros k. rewrite List.filter_app, G. cbn. rewrite app_nil_r. reflexivity.
Qed.

Lemma addPrefix_holds n b seen p r : holds n b seen -> (0 < n <= length p)%nat -> match b with equalMultiStringSliceMatcher _ _ => False | _ => True end ->
  exists b', addPrefix b p true (literalPrefixSensitiveStringMatcher p r) = Ret b' /\ holds n b' (seen ++ [literalPrefixSensitiveStringMatcher p r])
  /\ match b' with equalMultiStringSliceMatcher _ _ => False | _ => True end.
Proof.
  destruct b as [values cs|values prefixes n' cs]; cbn [holds]; [tauto|]. intros (-> & -> & H & G) Hn _. unfold addPrefix.
  rewrite bool_decide_eq_false_2 by lia. rewrite (proj2 (Nat.ltb_ge _ _)) by lia. cbn [eqb negb]. eexists. split; [reflexivity|]. split; [|exact I].
  split; [reflexivity|]. split; [reflexivity|]. split.
  - intros v. rewrite omap_snoc. cbn. rewrite app_nil_r. apply H.
  - intros k. rewrite get_add, List.filter_app, G. cbn. unfold keyed at 3. cbn [prefix_of]. case_bool_decide; [reflexivity|]. rewrite app_nil_r. reflexivity.
Qed.

Lemma build_ok n l : forall seen b, holds n b seen -> Forall simple l ->
  (forall m p, m ∈ l -> prefix_of m = Some p -> (0 < n <= length p)%nat /\ match b with equalMultiStringSliceMatcher _ _ => False | _ => True end) ->
  exists b', walk add_value (add_prefix true) l b = Ret (true, b') /\ holds n b' (seen ++ l).
Proof.
  induction l as [|m l IH]; intros seen b Hb Hl Hp; cbn [walk]; [exists b; rewrite app_nil_r; auto|].
  unfold go_bind. pose proof (Forall_inv Hl) as Hm. apply Forall_inv_tail in Hl.
  assert (Hstep : exists b1, visit add_value (add_prefix true) m b = Ret (true, b1) /\ holds n b1 (seen ++ [m])
    /\ (match b with equalMultiStringSliceMatcher _ _ => False | _ => True end -> match b1 with equalMultiStringSliceMatcher _ _ => False | _ => True end)).
  { destruct m as [|pre r| | | | | | | | | |]; try contradiction; cbn [visit].
    - destruct (Hp _ _ ltac:(left) eq_refl) as [Hn Hs]. destruct (addPrefix_holds n b seen pre r Hb Hn Hs) as (b1 & E & H1 & H2).
      exists b1. unfold add_prefix. rewrite E. split; [reflexivity|]. split; [exact H1|]. intros _. exact H2.
    - cbn in Hm. subst. exists (add b s). split; [reflexivity|]. split; [apply add_holds; exact Hb|]. destruct b; cbn; auto. }
  destruct Hstep as (b1 & -> & H1 & H2). destruct (IH (seen ++ [m]) b1 H1 Hl) as (b' & E & Hb').
  - intros m' p Hm' Hp'. destruct (Hp m' p ltac:(right; exact Hm') Hp') as [Hx Hy]. split; [exact Hx|apply H2; exact Hy].
  - exists b'. rewrite <- app_assoc in Hb'. auto.
Qed.

(** Where an alternation returns, leaves that do not match can be left out. *)
Lemma any_filter (f : StringMatcher -> bool) l s c : any_matches l s = Ret c -> (forall m, m ∈ l -> f m = false -> Matches m s = Ret false) ->
  any_matches (List.filter f l) s = Ret c.
Proof.
  intros E H. revert E. induction l as [|m l IH]; cbn [any_matches List.filter]; [auto|].
  assert (IH' : any_matches l s = Ret c -> any_matches (List.filter f l) s = Ret c) by (apply IH; intros m' Hm'; apply H; right; exact Hm').
  destruct (f m) eqn:Ef; cbn [any_matches].
  - unfold or_else. destruct (Matches m s) as [[]|]; cbn [outcome_bind]; auto.
  - rewrite (H m ltac:(left) Ef). cbn [or_else outcome_bind]. exact IH'.
Qed.

Lemma any_true l s c m : any_matches l s = Ret c -> m ∈ l -> Matches m s = Ret true -> c = true.
Proof.
  intros E Hm Ht. revert E. induction l as [|m' l IH]; [apply not_elem_of_nil in Hm as []|]. cbn [any_matches]. unfold or_else.
  apply elem_of_cons in Hm as [<-|Hm]; [rewrite Ht; cbn; congruence|]. destruct (Matches m' s) as [[]|]; cbn [outcome_bind]; [congruence|apply IH; exact Hm|discriminate].
Qed.

Lemma any_false l s : (forall m, m ∈ l -> Matches m s = Ret false) -> any_matches l s = Ret false.
Proof.
  induction l as [|m l IH]; intros H; cbn [any_matches]; [reflexivity|]. rewrite H by left. cbn [or_else outcome_bind]. apply IH. intros m' Hm'. apply H. right. exact Hm'.
Qed.

Lemma Matches_builder_map values prefixes n s :
  Matches (multiStringMatcher (equalMultiStringMapMatcher values prefixes n true)) s
  = or_else (Ret (bool_decide (s ∈ values)))
      (fun _ => if (0 <? n)%nat && (n <=? length s)%nat then any_matches (get_prefix (take n s) prefixes) s else Ret false).
Proof.
  cbn [Matches]. unfold or_else at 1 3. cbn [outcome_bind]. destruct (bool_decide (s ∈ values)); [reflexivity|]. destruct ((0 <? n)%nat && (n <=? length s)%nat); [|reflexivity].
  induction prefixes as [|[k ms] l IH]; [reflexivity|]. cbn [get_prefix]. destruct (bool_decide (k = take n s)); [|exact IH].
  clear IH. induction ms as [|m ms IH]; [reflexivity|]. cbn [any_matches]. rewrite <- IH. reflexivity.
Qed.

Lemma equal_in_omap seen v : Forall simple seen -> v ∈ omap equal_of seen <-> equalStringMatcher v true ∈ seen.
Proof.
  intros H. rewrite list_elem_of_omap. split.
  - intros (m & Hm & E). pose proof (proj1 (Forall_forall _ _) H m Hm) as Hs. destruct m; try discriminate. cbn in Hs, E. congruence.
  - intros Hm. eauto.
Qed.

(** A builder matches like the alternation of what it holds. *)
Lemma builder_matches n b seen s c : holds n b seen -> Forall simple seen ->
  (forall m p, m ∈ seen -> prefix_of m = Some p -> (0 < n <= length p)%nat) ->
  any_matches seen s = Ret c -> Matches (multiStringMatcher b) s = Ret c.
Proof.
  intros Hb Hs Hp E. destruct b as [values cs|values prefixes n' cs].
  - destruct Hb as (-> & -> & Hnone). cbn [Matches]. case_bool_decide as Hin.
    + rewrite equal_in_omap in Hin by exact Hs. f_equal. symmetry. eapply any_true; [exact E|exact Hin|]. cbn. rewrite bool_decide_eq_true_2; reflexivity.
    + rewrite <- E. symmetry. apply any_false. intros m Hm. pose proof (proj1 (Forall_forall _ _) Hs m Hm) as Hsm. pose proof (proj1 (Forall_forall _ _) Hnone m Hm) as Hn.
      destruct m; try contradiction; [discriminate|]. cbn in Hsm. subst. cbn. rewrite bool_decide_eq_false_2; [reflexivity|]. intros ->. apply Hin. apply equal_in_omap; assumption.
  - destruct Hb as (-> & -> & Hv & Hg). rewrite Matches_builder_map. case_bool_decide as Hin; cbn [or_else outcome_bind].
    + rewrite Hv, equal_in_omap in Hin by exact Hs. f_equal. symmetry. eapply any_true; [exact E|exact Hin|]. cbn. rewrite bool_decide_eq_true_2; reflexivity.
    + assert (Hequal : forall v, equalStringMatcher v true ∈ seen -> v <> s) by (intros v Hm ->; apply Hin; rewrite Hv; apply equal_in_omap; assumption).
      assert (Hno : forall m, m ∈ seen -> (forall p, prefix_of m = Some p -> HasPrefix s p = false) -> Matches m s = Ret false).
      { intros m Hm Hpre. pose proof (proj1 (Forall_forall _ _) Hs m Hm) as Hsm. destruct m as [|p r| | | | |v cs| | | | |]; try contradiction; cbn [Matches].
        - rewrite (Hpre p eq_refl). reflexivity.
        - cbn in Hsm. subst. rewrite bool_decide_eq_false_2; [reflexivity|]. apply Hequal. exact Hm. }
      destruct ((0 <? n)%nat && (n <=? length s)%nat) eqn:En.
      * rewrite Hg. apply any_filter; [exact E|]. intros m Hm Hk. apply Hno; [exact Hm|]. intros p Hpm. unfold keyed in Hk. rewrite Hpm in Hk. apply bool_decide_eq_false in Hk.
        destruct (HasPrefix s p) eqn:Eh; [|reflexivity]. exfalso. apply HasPrefix_spec in Eh as [t ->]. apply Hk. destruct (Hp m p Hm Hpm). symmetry. apply take_app_le. lia.
      * rewrite <- E. symmetry. apply any_false. intros m Hm. apply Hno; [exact Hm|]. intros p Hpm. destruct (Hp m p Hm Hpm).
        destruct (HasPrefix s p) eqn:Eh; [|reflexivity]. exfalso. apply HasPrefix_spec in Eh as [t ->]. rewrite length_app in En.
        apply andb_false_iff in En as [En|En]; [apply Nat.ltb_ge in En|apply Nat.leb_gt in En]; lia.
Qed.

Lemma any_app a b s : any_matches (a ++ b) s = or_else (any_matches a s) (fun _ => any_matches b s).
Proof.
  induction a as [|m a IH]; cbn [app any_matches]; [unfold or_else; reflexivity|]. rewrite IH. unfold or_else. destruct (Matches m s) as [[]|]; reflexivity.
Qed.

Lemma Matches_leaves ms s : Matches (orStringMatcher ms) s = any_matches (leaves (orStringMatcher ms)) s.
Proof.
  assert (G : forall m ms, m = orStringMatcher ms -> Matches m s = any_matches (leaves m) s); [|exact (G _ ms eq_refl)].
  clear ms. fix IH 1. intros [| | | | |l| | | | | |] ms' E; try discriminate E. clear ms' E. rewrite Matches_or.
  induction l as [|m l IHl]; [reflexivity|]. change (leaves (orStringMatcher (m :: l))) with (leaves m ++ leaves (orStringMatcher l)).
  rewrite any_app. cbn [any_matches].
  assert (Hm : Matches m s = any_matches (leaves m) s).
  { pose proof (IH m) as IHm. destruct m as [| | | | |k| | | | | |];
      try (cbn [leaves any_matches]; unfold or_else; match goal with |- ?x = _ => destruct x as [[]|] end; reflexivity). exact (IHm k eq_refl). }
  rewrite Hm. unfold or_else. destruct (any_matches (leaves m) s) as [[]|]; [reflexivity|exact IHl|reflexivity].
Qed.

Lemma new_builder_holds v q n : holds n (newEqualMultiStringMatcher true v q n) [] .
Proof.
  unfold newEqualMultiStringMatcher. destruct (_ && _); cbn; [auto|]. split; [reflexivity|]. split; [reflexivity|]. split; [set_solver|reflexivity].
Qed.

Lemma optimize_ok m threshold : 0 < threshold -> leaves_ok m ->
  exists m', optimizeEqualOrPrefixStringMatchers m threshold = Ret m' /\ forall s c, Matches m s = Ret c -> Matches m' s = Ret c.
Proof.
  intros Ht Hl. unfold optimizeEqualOrPrefixStringMatchers. assert (Hsame : exists m', Ret m = Ret m' /\ forall s c, Matches m s = Ret c -> Matches m' s = Ret c) by eauto.
  destruct m as [| | | | |ms| | | | | |]; try exact Hsame. rewrite find_set_walk. unfold leaves_ok in Hl. set (l := leaves (orStringMatcher ms)) in *.
  destruct (analyse_ok l [] (mkAnalysis false false 0 0 0)) as (ok & a & -> & Ha); [|exact Hl|].
  { constructor; cbn; try discriminate; try lia; auto. }
  cbn [outcome_bind]. destruct ok; [|exact Hsame]. cbn [negb]. destruct (Z.ltb_spec (an_numValues a + an_numPrefixes a) threshold) as [|Hth]; [exact Hsame|].
  destruct (Ha eq_refl) as [Hsim [H1 H2 H3 H4 H5 H6 H7]]. cbn [app] in *.
  assert (Hset : an_set a = true) by (destruct (an_set a); [reflexivity|]; rewrite (H2 eq_refl) in H3; cbn in H3; lia). rewrite (H1 Hset), find_set_walk.
  assert (Hpre : forall m p, m ∈ l -> prefix_of m = Some p -> (0 < an_minPrefixLength a <= length p)%nat /\ 0 < an_numPrefixes a).
  { intros m p Hm Hp. assert (Hpos : 0 < an_numPrefixes a).
    { destruct (decide (an_numPrefixes a = 0)) as [Hz|]; [|lia]. pose proof (proj1 (Forall_forall _ _) (H5 Hz) m Hm). cbn in *. congruence. }
    split; [split; [apply H6; exact Hpos|eapply H7; eassumption]|exact Hpos]. }
  destruct (build_ok (an_minPrefixLength a) l [] _ (new_builder_holds (an_numValues a) (an_numPrefixes a) (an_minPrefixLength a)) Hsim) as (b & Eb & Hb).
  { intros m p Hm Hp. destruct (Hpre m p Hm Hp) as [Hx Hy]. split; [exact Hx|]. unfold newEqualMultiStringMatcher.
    rewrite (proj2 (Z.eqb_neq (an_numPrefixes a) 0)) by lia. rewrite andb_false_r. exact I. }
  fold l. rewrite Eb. cbn [outcome_bind]. exists (multiStringMatcher b). split; [reflexivity|]. intros s c E. rewrite Matches_leaves in E.
  eapply builder_matches; [exact Hb|exact Hsim| |exact E]. intros m p Hm Hp. exact (proj1 (Hpre m p Hm Hp)).
Qed.

(** ** Literals that values begin with, end with and contain *)

Lemma literal_denotes r pre mid post : case_sensitive_literal r = true -> denotes r pre mid post -> mid = Rune r.
Proof.
  unfold case_sensitive_literal. intros H D. apply andb_true_iff in H as [Ho Hc]. apply bool_decide_eq_true in Ho. destruct r as [o fl subs rs]. cbn in *. subst o.
  apply literal_language in D; [exact D|]. unfold isCaseInsensitive. cbn. rewrite Hc. reflexivity.
Qed.

(** The literals among the elements between the first and the last one. *)
Lemma literals_placed l : forall pre mid post a, in_sequence l pre mid post ->
  placed (of_runes (a ++ mid ++ post)) (length (of_runes a)) (map (fun re => of_runes (Rune re)) (List.filter case_sensitive_literal l)).
Proof.
  induction l as [|r l IH]; intros pre mid post a; cbn [in_sequence List.filter map]; [intros _; exact I|].
  intros (m1 & m2 & -> & D & Hs). specialize (IH _ _ _ (a ++ m1) Hs). rewrite <- !app_assoc in *.
  destruct (case_sensitive_literal r) eqn:E.
  - apply literal_denotes in D as ->; [|exact E]. cbn [map placed]. exists (of_runes a), (of_runes (m2 ++ post)). rewrite !of_runes_app in *.
    split; [rewrite !app_assoc; reflexivity|]. split; [lia|]. rewrite <- length_app. exact IH.
  - eapply placed_earlier; [|exact IH]. rewrite of_runes_app, length_app. lia.
Qed.

Lemma optimizeConcatRegex_ok fl subs rs : good (mkRegexp OpConcat fl subs rs) ->
  exists prefix suffix contains re', optimizeConcatRegex (mkRegexp OpConcat fl subs rs) = Ret (prefix, suffix, contains, re')
  /\ same (mkRegexp OpConcat fl subs rs) re'
  /\ forall mid, language (mkRegexp OpConcat fl subs rs) mid ->
     HasPrefix (of_runes mid) prefix = true /\ HasSuffix (of_runes mid) suffix = true /\ containsInOrder (of_runes mid) contains = true.
Proof.
  intros Hg. destruct (good_inv _ Hg) as [_ Hgs]. cbn [Sub] in Hgs. unfold optimizeConcatRegex. cbn [Sub].
  destruct (clear_captures_ok subs Hgs) as (subs1 & -> & Hs1 & _). cbn [outcome_bind].
  assert (Hsame : same (mkRegexp OpConcat fl subs rs) (with_sub (mkRegexp OpConcat fl subs rs) subs1)) by (apply same_list; auto).
  assert (Hnil : forall s, HasPrefix s [] = true /\ HasSuffix s [] = true /\ containsInOrder s [] = true).
  { intros s. split; [apply HasPrefix_spec; exists s; reflexivity|]. split; [apply HasSuffix_spec; exists s; symmetry; apply app_nil_r|reflexivity]. }
  destruct (drop_end (drop_begin subs1)) as [|first rest] eqn:Ed; (do 4 eexists; split; [reflexivity|]; split; [exact Hsame|]); intros mid Hm; [apply Hnil|].
  assert (Hseq : seq (first :: rest) mid). { rewrite <- Ed, drop_end_seq, drop_begin_seq. apply (same_sequence _ _ Hs1), (denotes_concat fl subs rs). exact Hm. }
  clear Hm Ed Hsame. split; [|split].
  - destruct (case_sensitive_literal first) eqn:E; [|apply Hnil]. destruct Hseq as (m1 & m2 & -> & D & _). apply literal_denotes in D as ->; [|exact E].
    apply HasPrefix_spec. rewrite of_runes_app. eauto.
  - destruct (last (first :: rest)) as [e|] eqn:El; [|apply Hnil]. destruct (case_sensitive_literal e) eqn:E; [|apply Hnil].
    apply last_Some in El as [init El]. rewrite El in Hseq. unfold seq in Hseq. apply in_sequence_app in Hseq as (m1 & m2 & -> & _ & n1 & n2 & -> & D & ->).
    apply literal_denotes in D as ->; [|exact E]. apply HasSuffix_spec. rewrite app_nil_r, of_runes_app. eauto.
  - apply contains_in_order. destruct Hseq as (m1 & m2 & -> & _ & Hs). rewrite <- (app_nil_r m2) in *. destruct rest as [|x rest _] using rev_ind; [exact I|].
    rewrite removelast_last. apply in_sequence_app in Hs as (n1 & n2 & E & Hs & _). rewrite app_nil_r in E. subst m2.
    pose proof (literals_placed _ _ _ _ m1 Hs) as P. rewrite !app_nil_r in *. eapply placed_earlier; [|exact P]. lia.
Qed.
End fast.

(** ** The library of regular expressions *)

Fixpoint join_bars (ls : list bytes) : bytes :=
  match ls with [] => [] | [l] => l | l :: ls => l ++ 124 :: join_bars ls end.

(** The values that the expression [v] matches, by its simplified tree. *)
Definition matches_regexp {U : Unicode} {L : RegexpLib} (v : bytes) (rs : runes) : Prop :=
  exists re, Parse v = inr re /\ language (Simplify re) rs.

(** What the code relies on: [Simplify] leaves well-formed trees without counted
    repetitions; the engine, given the printed tree between anchors, decides its
    language; a string that [QuoteMeta] does not change stands for itself, and
    bars between such strings for a choice (the parser may refuse them, when the
    strings share so many beginnings that their factored tree is nested too deeply);
    the empty expression can be parsed. *)
Class RegexpLibOK (U : Unicode) (L : RegexpLib) : Prop := {
  simplified v re : Parse v = inr re -> well_formed (Simplify re);
  engine_decides v re c : Parse v = inr re -> Compile (anchored (re_String (Simplify re))) = inr c ->
    forall rs, Forall valid_rune rs -> re_MatchString c (of_runes rs) = true <-> language (Simplify re) rs;
  quote_empty : QuoteMeta [] = [];
  parse_empty : exists re, Parse [] = inr re;
  literal_choice ls vs re : ls <> [] -> Forall (fun l => QuoteMeta l = l) ls -> join_bars ls = of_runes vs -> Forall valid_rune vs ->
    Parse (join_bars ls) = inr re -> forall rs, Forall valid_rune rs -> language (Simplify re) rs <-> of_runes rs ∈ ls
}.

Section matcher.
Context {U : Unicode} {L : RegexpLib}.
Variable range_set : gset bytes -> list bytes.
Hypothesis range_set_ok : forall X v, v ∈ range_set X <-> v ∈ X.

Lemma any_equal ls s : any_matches (map (fun l => equalStringMatcher l true) ls) s = Ret (bool_decide (s ∈ ls)).
Proof.
  induction ls as [|l ls IH]; cbn [map any_matches]; [rewrite bool_decide_eq_false_2; [reflexivity|apply not_elem_of_nil]|]. cbn [Matches]. rewrite IH.
  unfold or_else. cbn [outcome_bind]. destruct (decide (l = s)) as [->|Hn].
  - rewrite !bool_decide_eq_true_2; [reflexivity|left|reflexivity].
  - rewrite (bool_decide_eq_false_2 (l = s)) by exact Hn. f_equal. apply bool_decide_ext. rewrite elem_of_cons. split; [auto|intros [E|E]; [congruence|exact E]].
Qed.

Lemma index_bar_spec s e : index_bar s = Some e -> s = take e s ++ 124 :: drop (S e) s /\ (count_bars (drop (S e) s) < count_bars s)%nat.
Proof.
  revert e. induction s as [|c s IH]; intros e; cbn [index_bar]; [discriminate|]. unfold count_bars in *. cbn [List.filter]. rewrite (Z.eqb_sym 124 c).
  destruct (Z.eqb_spec c 124) as [->|Hc].
  - intros [= <-]. cbn. rewrite drop_0. split; [reflexivity|lia].
  - destruct (index_bar s) as [e'|] eqn:E; [|discriminate]. intros [= <-]. destruct (IH e' eq_refl) as [H1 H2]. cbn [take drop app]. rewrite <- H1. auto.
Qed.

(** The number of bars is enough fuel. *)
Lemma add_alternates_fuel fuel : forall s b, (count_bars s <= fuel)%nat -> add_alternates fuel s b = add_alternates (count_bars s) s b.
Proof.
  assert (G : forall n f1 f2 s b, (n >= f1)%nat -> (n >= f2)%nat -> (count_bars s <= f1)%nat -> (count_bars s <= f2)%nat -> add_alternates f1 s b = add_alternates f2 s b).
  2: { intros s b H. apply (G (fuel + count_bars s)%nat); lia. }
  induction n as [|n IH]; intros [|f1] [|f2] s b Hn1 Hn2 H1 H2; try lia; try reflexivity; cbn [add_alternates]; destruct (index_bar s) as [e|] eqn:E; try reflexivity;
    destruct (index_bar_spec s e E) as [_ Hlt]; try lia. destruct (negb _); [reflexivity|]. apply IH; lia.
Qed.

Lemma join_cons l ls r : join_bars (l :: ls ++ [r]) = l ++ 124 :: join_bars (ls ++ [r]).
Proof. destruct ls; reflexivity. Qed.

Lemma add_alternates_ok n fuel : forall s b seen rest b', holds n b seen -> add_alternates fuel s b = Some (rest, b') ->
  exists ls, s = join_bars (ls ++ [rest]) /\ Forall (fun l => QuoteMeta l = l) ls /\ holds n b' (seen ++ map (fun l => equalStringMatcher l true) ls).
Proof.
  induction fuel as [|fuel IH]; intros s b seen rest b' Hb; cbn [add_alternates]; destruct (index_bar s) as [e|] eqn:E;
    try discriminate; try (intros [= <- <-]; exists []; rewrite app_nil_r; split; [reflexivity|]; split; [constructor|exact Hb]).
  destruct (negb (is_literal (take e s))) eqn:El; [discriminate|]. intros Ha. apply negb_false_iff, bool_decide_eq_true in El.
  destruct (IH _ _ _ _ _ (add_holds n b seen (take e s) Hb) Ha) as (ls & Es & Hl & Hb'). destruct (index_bar_spec s e E) as [Hs _].
  exists (take e s :: ls). rewrite <- app_assoc in Hb'. split; [cbn [app]; rewrite join_cons, <- Es; exact Hs|]. split; [constructor; assumption|exact Hb'].
Qed.

Lemma setMatches_holds n b ls : holds n b (map (fun l => equalStringMatcher l true) ls) -> setMatches range_set b <> [] ->
  forall s, s ∈ setMatches range_set b <-> s ∈ ls.
Proof.
  assert (Ho : omap equal_of (map (fun l => equalStringMatcher l true) ls) = ls) by (induction ls as [|l ls' IH]; cbn; [reflexivity|rewrite IH; reflexivity]).
  destruct b as [values cs|values prefixes n' cs]; cbn [holds setMatches]; rewrite Ho.
  - intros (_ & -> & _) _ s. reflexivity.
  - intros (_ & _ & Hv & _). destruct (_ || _); [congruence|]. intros _ s. rewrite range_set_ok. apply Hv.
Qed.

Lemma alternating_ok `{!RegexpLibOK U L} v m set : optimizeAlternatingLiterals range_set v = (Some m, set) ->
  exists ls, ls <> [] /\ join_bars ls = v /\ Forall (fun l => QuoteMeta l = l) ls /\ (forall s, Matches m s = Ret (bool_decide (s ∈ ls)))
  /\ (set <> [] -> forall s, s ∈ set <-> s ∈ ls).
Proof.
  unfold optimizeAlternatingLiterals. case_bool_decide as E0.
  { intros [= <- <-]. exists [[]]. destruct v; [|discriminate]. split; [discriminate|]. split; [reflexivity|]. split; [repeat constructor; apply quote_empty|].
    split; [|congruence]. intros s. cbn [Matches]. f_equal. apply bool_decide_ext. rewrite list_elem_of_singleton. destruct s; cbn; split; congruence. }
  destruct (Z.eqb_spec (Z.of_nat (count_bars v) + 1) 1).
  { destruct (is_literal v) eqn:El; [|discriminate]. intros [= <- <-]. apply bool_decide_eq_true in El. exists [v]. split; [discriminate|]. split; [reflexivity|].
    split; [repeat constructor; exact El|]. split; [|reflexivity]. intros s. cbn [Matches]. f_equal. apply bool_decide_ext. rewrite list_elem_of_singleton. split; congruence. }
  destruct (add_alternates _ _ _) as [[rest b]|] eqn:Ea; [|discriminate]. destruct (negb (is_literal rest)) eqn:El; [discriminate|]. intros [= <- <-].
  apply negb_false_iff, bool_decide_eq_true in El. destruct (add_alternates_ok 0 _ _ _ _ _ _ (new_builder_holds _ _ 0) Ea) as (ls & -> & Hl & Hb).
  apply (add_holds 0 b _ rest) in Hb. cbn [app] in Hb. change [equalStringMatcher rest true] with (map (fun l => equalStringMatcher l true) [rest]) in Hb. rewrite <- map_app in Hb.
  exists (ls ++ [rest]). split; [destruct ls; discriminate|]. split; [reflexivity|]. split; [apply List.Forall_app; repeat constructor; assumption|].
  split; [|apply (setMatches_holds 0); exact Hb]. intros s. eapply builder_matches; [exact Hb| | |apply any_equal].
  - apply Forall_forall. intros m Hm. apply list_elem_of_fmap in Hm as (l & -> & _). reflexivity.
  - intros m p Hm Hp. apply list_elem_of_fmap in Hm as (l & -> & _). discriminate.
Qed.

Lemma alternating_none v m set : optimizeAlternatingLiterals range_set v = (m, set) -> m = None -> set = [].
Proof.
  unfold optimizeAlternatingLiterals. intros E ->. revert E. repeat case_match; congruence.
Qed.

(** The function that [MatchString] runs, when every check before the engine is
    necessary and what replaces the engine decides. *)
Lemma compile_ok (P : runes -> Prop) c set m prefix suffix contains :
  (forall rs, Forall valid_rune rs -> re_MatchString c (of_runes rs) = true <-> P rs) ->
  (set <> [] -> forall rs, Forall valid_rune rs -> of_runes rs ∈ set <-> P rs) ->
  (forall m', m = Some m' -> computes (Matches m') P) ->
  (forall rs, P rs -> HasPrefix (of_runes rs) prefix = true /\ HasSuffix (of_runes rs) suffix = true /\ containsInOrder (of_runes rs) contains = true) ->
  computes (compileMatchStringFunction c set m prefix suffix contains) P.
Proof.
  intros Hc Hset Hm Hp.
  assert (Hslow : computes (fun s =>
    if negb (bool_decide (set = [])) then Ret (bool_decide (s ∈ set))
    else if negb (bool_decide (prefix = [])) && negb (HasPrefix s prefix) then Ret false
    else if negb (bool_decide (suffix = [])) && negb (HasSuffix s suffix) then Ret false
    else if negb (bool_decide (contains = [])) && negb (containsInOrder s contains) then Ret false
    else match m with Some m => Matches m s | None => Ret (re_MatchString c s) end) P).
  { intros rs Hrs. destruct (bool_decide (set = [])) eqn:Es; cbn [negb].
    2: { apply bool_decide_eq_false in Es. eexists. split; [reflexivity|]. rewrite bool_decide_eq_true. apply Hset; assumption. }
    assert (Hfalse : forall b x : bool, (P rs -> b = true) -> negb x && negb b = true -> exists r, Ret false = Ret r /\ (r = true <-> P rs)).
    { intros b x Hb E. exists false. split; [reflexivity|]. split; [discriminate|]. intros HP. rewrite (Hb HP), andb_false_r in E. discriminate. }
    destruct (_ && negb (HasPrefix _ _)) eqn:E1; [eapply Hfalse; [|exact E1]; intros HP; apply Hp; exact HP|].
    destruct (_ && negb (HasSuffix _ _)) eqn:E2; [eapply Hfalse; [|exact E2]; intros HP; apply Hp; exact HP|].
    destruct (_ && negb (containsInOrder _ _)) eqn:E3; [eapply Hfalse; [|exact E3]; intros HP; apply Hp; exact HP|].
    destruct m as [m'|]; [apply Hm; auto|]. eexists. split; [reflexivity|]. apply Hc. exact Hrs. }
  unfold compileMatchStringFunction. destruct m as [m'|]; [|exact Hslow]. destruct (_ && _ && _ && _); [apply Hm; reflexivity|exact Hslow].
Qed.

Lemma same_computes f re re' : same re re' -> computes f (language re') -> computes f (language re).
Proof. intros H. apply computes_iff. intros rs. symmetry. apply (free_same _ _ H). Qed.

(** [findSetMatches] and [stringMatcherFromRegexp], one after the other. *)
Lemma optimizations_ok re : good re ->
  exists ms cs re' m, findSetMatches re = Ret ((ms, cs), re') /\ stringMatcherFromRegexp re' = Ret m
  /\ (ms <> [] -> cs = true /\ forall rs, Forall valid_rune rs -> of_runes rs ∈ ms <-> language re rs)
  /\ (forall m', m = Some m' -> computes (Matches m') (language re)).
Proof.
  intros Hg. unfold findSetMatches. destruct (clearBeginEndText_ok re Hg) as (Hg1 & _ & HL1). set (re1 := clearBeginEndText re) in *.
  destruct (findSetMatchesInternal_ok (re_size re1) re1 [] Hg1 ltac:(lia)) as (ms & cs & re2 & -> & Hs & Hms).
  pose proof Hs as (Hg2 & _ & _). destruct (free_same _ _ Hs) as [_ HL2]. destruct (clearBeginEndText_ok re2 Hg2) as (Hg3 & _ & HL3).
  unfold stringMatcherFromRegexp. set (re3 := clearBeginEndText re2) in *.
  destruct (stringMatcherFromRegexpInternal_ok (re_size re3) re3 Hg3 ltac:(lia)) as (o & Eo & Ho).
  assert (Hset : ms <> [] -> cs = true /\ forall rs, Forall valid_rune rs -> of_runes rs ∈ ms <-> language re rs).
  { intros Hn. destruct (Hms Hn) as (Hc & _ & _ & V & Hl). split; [exact Hc|]. intros rs Hrs. rewrite Hl, HL1. split.
    - intros (mid & Hm & E). cbn in E. apply of_runes_inj in E as ->; [exact Hm|exact Hrs|exact (V mid Hm)].
    - intros Hm. exists rs. auto. }
  destruct o as [m|].
  - destruct (Ho m eq_refl) as [[_ C] Hleaf]. destruct (optimize_ok m minEqualMultiStringMatcherMapThreshold ltac:(reflexivity) Hleaf) as (m' & Em & Hm').
    exists ms, cs, re2, (Some m'). split; [reflexivity|]. cbv zeta. fold re3. rewrite Eo. cbn [outcome_bind]. rewrite Em. split; [reflexivity|]. split; [exact Hset|].
    intros m2 [= <-] rs Hrs. destruct (C rs Hrs) as (b & E & Hb). exists b. split; [apply Hm'; exact E|]. rewrite Hb, <- HL3, <- HL2, <- HL1. reflexivity.
  - exists ms, cs, re2, None. split; [reflexivity|]. cbv zeta. fold re3. rewrite Eo. split; [reflexivity|]. split; [exact Hset|discriminate].
Qed.

(** What is promised of a matcher for the values [P]. *)
Record matcher_for (m : FastRegexMatcher) (P : runes -> Prop) : Prop := {
  mf_matches : computes (MatchString m) P;
  mf_set : SetMatches m <> [] -> forall rs, Forall valid_rune rs -> of_runes rs ∈ SetMatches m <-> P rs;
  mf_prefix : forall rs, P rs -> HasPrefix (of_runes rs) (fm_prefix m) = true }.

Lemma NewFastRegexMatcher_ok `{!RegexpLibOK U L} vs : Forall valid_rune vs ->
  (forall re, Parse (of_runes vs) = inr re -> plain_tree (Simplify re)) ->
  exists r, NewFastRegexMatcher range_set (of_runes vs) = Ret r
  /\ match r with
     | inl e => Parse (of_runes vs) = inl e \/ exists re, Parse (of_runes vs) = inr re /\ Compile (anchored (re_String (Simplify re))) = inl e
     | inr m => (forall rs, Forall valid_rune rs -> exists b, MatchString m (of_runes rs) = Ret b)
         /\ forall re, Parse (of_runes vs) = inr re -> matcher_for m (language (Simplify re))
     end.
Proof.
  intros Hvs Hcase. unfold NewFastRegexMatcher. destruct (optimizeAlternatingLiterals range_set (of_runes vs)) as [[m|] set] eqn:Ea.
  - destruct (alternating_ok _ _ _ Ea) as (ls & Hne & Ej & Hl & Hm & Hset). eexists. split; [reflexivity|]. cbn. split; [intros rs _; eexists; apply Hm|].
    intros re Ep. pose proof (literal_choice ls vs re Hne Hl Ej Hvs) as HP. rewrite Ej in HP. specialize (HP Ep). constructor; cbn.
    + intros rs Hrs. exists (bool_decide (of_runes rs ∈ ls)). split; [apply Hm|]. rewrite bool_decide_eq_true. symmetry. apply HP. exact Hrs.
    + intros Hn rs Hrs. rewrite (Hset Hn). symmetry. apply HP. exact Hrs.
    + intros rs _. apply HasPrefix_spec. eauto.
  - pose proof (alternating_none _ _ _ Ea eq_refl) as ->. destruct (Parse (of_runes vs)) as [e|re] eqn:Ep; [exists (inl e); auto|].
    set (t := Simplify re) in *. pose proof (good_intro t (simplified _ _ Ep) (Hcase re eq_refl)) as Hg.
    destruct (Compile (anchored (re_String t))) as [e|c] eqn:Ec; [exists (inl e); split; [reflexivity|]; right; exists re; auto|].
    assert (Hconcat : exists prefix suffix contains t1, (if is_op t OpConcat then optimizeConcatRegex t else Ret ([], [], [], t)) = Ret (prefix, suffix, contains, t1)
      /\ same t t1 /\ forall rs, language t rs -> HasPrefix (of_runes rs) prefix = true /\ HasSuffix (of_runes rs) suffix = true /\ containsInOrder (of_runes rs) contains = true).
    { destruct (is_op t OpConcat) eqn:Eo.
      - apply bool_decide_eq_true in Eo. destruct t as [o fl subs rs]. cbn in Eo. subst o. apply optimizeConcatRegex_ok. exact Hg.
      - do 4 eexists. split; [reflexivity|]. split; [apply same_tree_refl; exact Hg|]. intros rs _. split; [apply HasPrefix_spec; eauto|].
        split; [apply HasSuffix_spec; exists (of_runes rs); symmetry; apply app_nil_r|reflexivity]. }
    destruct Hconcat as (prefix & suffix & contains & t1 & -> & Hs1 & Hp). cbn [outcome_bind]. destruct (free_same _ _ Hs1) as [_ HL1].
    destruct (optimizations_ok t1 (proj1 Hs1)) as (ms & cs & t2 & m & -> & E2 & Hset & Hm). cbn [outcome_bind]. rewrite E2. cbn [outcome_bind].
    lazymatch goal with |- exists r, Ret (inr ?mm) = Ret r /\ @?Q r => set (fm := mm) end. exists (inr fm). split; [reflexivity|].
    assert (Hset' : (if cs then ms else []) <> [] -> forall rs, Forall valid_rune rs -> of_runes rs ∈ (if cs then ms else []) <-> language t rs).
    { intros Hn rs Hrs. rewrite HL1. destruct cs; [|congruence]. apply (Hset Hn). exact Hrs. }
    assert (Hfor : matcher_for fm (language t)).
    { subst fm. constructor; cbn; [|exact Hset'|intros rs Hr; apply Hp, Hr]. apply compile_ok; [|exact Hset'| |intros rs Hr; apply Hp, Hr].
      - intros rs Hrs. apply (engine_decides _ _ _ Ep Ec). exact Hrs.
      - intros m' E. eapply computes_iff; [|exact (Hm m' E)]. intros rs. rewrite HL1. reflexivity. }
    split; [|intros re' [= <-]; exact Hfor]. intros rs Hrs. destruct (mf_matches _ _ Hfor rs Hrs) as (b & Eb & _). eauto.
Qed.
End matcher.

(** ** A small library of regular expressions

    It knows the expressions ".*", ".+", "ab.*", "[ab]c" and choices between empty
    strings; its [QuoteMeta] escapes every character. *)
Definition plain_Unicode : Unicode := {| SimpleFold := fun c => c; ToLower := fun c => c; NFKD := fun s => s |}.
Definition node (o : op) (subs : list Regexp) (rs : runes) : Regexp := mkRegexp o 0 subs rs.
Definition ex_parse (v : bytes) : string + Regexp :=
  if forallb (Z.eqb 124) v then inr (node OpEmptyMatch [] [])
  else if bool_decide (v = [46; 42]) then inr (node OpStar [node OpAnyChar [] []] [])
  else if bool_decide (v = [46; 43]) then inr (node OpPlus [node OpAnyChar [] []] [])
  else if bool_decide (v = [97; 98; 46; 42]) then inr (node OpConcat [node OpLiteral [] [97; 98]; node OpStar [node OpAnyChar [] []] []] [])
  else if bool_decide (v = [91; 97; 98; 93; 99]) then inr (node OpConcat [node OpCharClass [] [97; 98]; node OpLiteral [] [99]] [])
  else inl "missing argument to repetition operator"%string.
Definition ex_string (re : Regexp) : bytes :=
  match Op re, Sub re with
  | OpStar, _ => [46; 42]
  | OpPlus, _ => [46; 43]
  | OpConcat, mkRegexp OpLiteral _ _ _ :: _ => [97; 98; 46; 42]
  | OpConcat, _ => [91; 97; 98; 93; 99]
  | _, _ => []
  end.
Definition ex_compile (v : bytes) : string + (bytes -> bool) :=
  if bool_decide (v = anchored [46; 42]) then inr (fun _ => true)
  else if bool_decide (v = anchored [46; 43]) then inr (fun s => negb (bool_decide (s = [])))
  else if bool_decide (v = anchored [97; 98; 46; 42]) then inr (fun s => HasPrefix s [97; 98])
  else if bool_decide (v = anchored [91; 97; 98; 93; 99]) then inr (fun s => bool_decide (s ∈ [[97; 99]; [98; 99]]))
  else inr (fun s => bool_decide (s = [])).
Definition ex_RegexpLib : RegexpLib := {|
  compiled := bytes -> bool; Parse := ex_parse; Simplify := fun re => re; re_String := ex_string; Compile := ex_compile;
  re_MatchString := fun c s => c s; QuoteMeta := flat_map (fun c => [92; c]) |}.

Section example.
#[local] Existing Instance plain_Unicode.

Lemma ex_good v re : ex_parse v = inr re -> good re.
Proof.
  unfold ex_parse. destruct (forallb _ _); [intros [= <-]; repeat constructor|].
  repeat case_bool_decide; intros E; try discriminate; injection E as <-; repeat constructor; cbn; unfold valid_rune, MaxRune; try congruence; try lia; try (exists 1%nat; reflexivity).
Qed.

Lemma star_any_all fl fl' rs rs' mid : language (mkRegexp OpStar fl [mkRegexp OpAnyChar fl' [] rs'] rs) mid.
Proof. apply star_language; [reflexivity|]. left. reflexivity. Qed.

Lemma ex_prefix_language rs : language (node OpConcat [node OpLiteral [] [97; 98]; node OpStar [node OpAnyChar [] []] []] []) rs <-> exists t, rs = [97; 98] ++ t.
Proof.
  unfold language, node. rewrite denotes_concat. cbn [in_sequence]. split.
  - intros (m1 & m2 & -> & D & _). apply literal_language in D as ->; [|reflexivity]. eauto.
  - intros [t ->]. exists [97; 98], t. split; [reflexivity|]. split; [apply literal_language; reflexivity|]. exists t, [].
    rewrite !app_nil_r. split; [reflexivity|]. split; [|reflexivity]. apply star_language; [reflexivity|]. left. reflexivity.
Qed.

Lemma ex_class_language rs : language (node OpConcat [node OpCharClass [] [97; 98]; node OpLiteral [] [99]] []) rs <-> rs = [97; 99] \/ rs = [98; 99].
Proof.
  unfold language, node. rewrite denotes_concat. cbn [in_sequence]. split.
  - intros (m1 & m2 & -> & D1 & m3 & m4 & -> & D2 & ->). apply class_language in D1 as (c & -> & lo & hi & Hin & Hc). cbn in Hin. apply list_elem_of_singleton in Hin as [= -> ->].
    apply literal_language in D2 as ->; [|reflexivity]. assert (c = 97 \/ c = 98) as [-> | ->] by lia; auto.
  - assert (G : forall c, c = 97 \/ c = 98 -> exists m1 m2, [c; 99] = m1 ++ m2 /\ denotes (mkRegexp OpCharClass 0 [] [97; 98]) [] m1 (m2 ++ [])
      /\ exists m3 m4, m2 = m3 ++ m4 /\ denotes (mkRegexp OpLiteral 0 [] [99]) ([] ++ m1) m3 (m4 ++ []) /\ m4 = []); [|intros [-> | ->]; apply G; auto].
    intros c Hc. exists [c], [99]. split; [reflexivity|]. split; [apply class_language; exists c; split; [reflexivity|]; exists 97, 98; split; [left|lia]|].
    exists [99], []. split; [reflexivity|]. split; [apply literal_language; reflexivity|reflexivity].
Qed.

Lemma ascii_of_runes rs s : Forall valid_rune rs -> Forall (fun c => 0 <= c < 128) s -> of_runes rs = s <-> rs = s.
Proof.
  intros Hrs Hs. assert (E : of_runes s = s).
  { induction Hs as [|c s Hc _ IH]; [reflexivity|]. cbn. rewrite IH. unfold of_rune, is_surrogate, MaxRune. settle_tests. reflexivity. }
  rewrite <- E at 1. split; [|intros ->; reflexivity]. apply of_runes_inj; [exact Hrs|].
  eapply Forall_impl; [exact Hs|]. cbn. intros c Hc. unfold valid_rune, MaxRune, is_surrogate. split; [lia|]. apply andb_false_iff. rewrite !Z.leb_gt. lia.
Qed.

Lemma ex_RegexpLibOK : RegexpLibOK plain_Unicode ex_RegexpLib.
Proof.
  constructor; cbn -[ex_parse ex_compile].
  - intros v re E. apply good_well_formed. exact (ex_good v re E).
  - intros v re c Ep Ec rs Hrs. unfold ex_parse in Ep. destruct (forallb _ _).
    { injection Ep as <-. cbn in Ec. injection Ec as <-. cbn. rewrite bool_decide_eq_true. unfold language, node. rewrite empty_language. split; [apply of_runes_nil|intros ->; reflexivity]. }
    repeat case_bool_decide; try discriminate; injection Ep as <-; cbn in Ec; injection Ec as <-; cbn -[of_runes].
    + split; [intros _; apply star_any_all|reflexivity].
    + unfold language, node. rewrite plus_language by reflexivity. rewrite negb_true_iff, bool_decide_eq_false. split; [intros Hn; split; [intros ->; exact (Hn eq_refl)|auto]|].
      intros [Hn _] E. apply Hn, of_runes_nil. exact E.
    + rewrite ex_prefix_language, HasPrefix_spec. change [97; 98] with (of_runes [97; 98]) at 1. split.
      * intros [t E]. apply of_runes_prefix in E as (c & -> & _); [eauto| |exact Hrs]. repeat constructor; unfold MaxRune; lia.
      * intros [t ->]. rewrite of_runes_app. eauto.
    + rewrite ex_class_language, bool_decide_eq_true, elem_of_cons, list_elem_of_singleton. rewrite !ascii_of_runes; [reflexivity|exact Hrs|repeat constructor; lia|exact Hrs|repeat constructor; lia].
  - reflexivity.
  - eexists. reflexivity.
  - intros ls vs re Hne Hl _ _ Ep. assert (Hnil : Forall (fun l => l = []) ls).
    { eapply Forall_impl; [exact Hl|]. intros [|c l] E; [reflexivity|]. exfalso. apply (f_equal length) in E. cbn in E. injection E as E.
      assert (G : Nat.le (length l) (length (flat_map (fun c : Z => [92; c]) l))) by (clear; induction l; cbn; lia). lia. }
    assert (Hbars : forallb (Z.eqb 124) (join_bars ls) = true).
    { clear -Hnil. induction Hnil as [|l ls -> H IH]; [reflexivity|]. destruct ls; [reflexivity|exact IH]. }
    unfold ex_parse in Ep. rewrite Hbars in Ep. injection Ep as <-. intros rs Hrs. unfold language, node. rewrite empty_language. split.
    + intros ->. destruct Hnil as [|l ls -> _]; [congruence|]. left.
    + intros Hin. apply of_runes_nil. exact (proj1 (Forall_forall _ _) Hnil _ Hin).
Qed.
End example.

(** ** Properties *)

(** C10: for an expression of valid UTF-8, no part of which ignores case or names a
    surrogate (with those the matcher can differ, see [prefix_fold_misses] and
    [surrogate_set_misses]): creating the matcher never panics, and fails only when
    the expression cannot be parsed or compiled; on every string of valid UTF-8
    the matcher returns without a panic and answers as the parsed expression means,
    whatever combination of literal sets, prefix, suffix and contained literals,
    string matchers and engine the optimisations chose; the values of
    [SetMatches], if there are any, are exactly the values matched, and every
    value matched begins with the prefix. *)
Theorem fast_regexp_matcher (U : Unicode) (L : RegexpLib) (LOK : RegexpLibOK U L) (range_set : gset bytes -> list bytes) (vs : runes) :
  (forall X v, v ∈ range_set X <-> v ∈ X) -> Forall valid_rune vs ->
  (forall re, Parse (of_runes vs) = inr re -> plain_tree (Simplify re)) ->
  exists r, NewFastRegexMatcher range_set (of_runes vs) = Ret r
  /\ match r with
     | inl e => Parse (of_runes vs) = inl e \/ exists re, Parse (of_runes vs) = inr re /\ Compile (anchored (re_String (Simplify re))) = inl e
     | inr m => forall rs, Forall valid_rune rs -> exists b, MatchString m (of_runes rs) = Ret b
         /\ forall re, Parse (of_runes vs) = inr re ->
            (b = true <-> language (Simplify re) rs)
            /\ (SetMatches m <> [] -> of_runes rs ∈ SetMatches m <-> language (Simplify re) rs)
            /\ (language (Simplify re) rs -> HasPrefix (of_runes rs) (fm_prefix m) = true)
     end.
Proof.
  intros Hr Hvs Hc. destruct (NewFastRegexMatcher_ok range_set Hr vs Hvs Hc) as (r & E & H). exists r. split; [exact E|].
  destruct r as [e|m]; [exact H|]. destruct H as [Hm Hfor]. intros rs Hrs. destruct (Hm rs Hrs) as (b & Eb). exists b. split; [exact Eb|].
  intros re Ep. destruct (Hfor re Ep) as [H1 H2 H3]. destruct (H1 rs Hrs) as (b' & Eb' & Hb). rewrite Eb in Eb'. injection Eb' as <-.
  split; [exact Hb|]. split; [intros Hn; apply (H2 Hn); exact Hrs|apply H3].
Qed.

Lemma fast_regexp_matcher_witness :
  exists m, NewFastRegexMatcher (U := plain_Unicode) (L := ex_RegexpLib) elements [97; 98; 46; 42] = Ret (inr m)
  /\ MatchString m [97; 98; 10] = Ret true /\ MatchString m [97; 99] = Ret false /\ fm_prefix m = [97; 98]
  /\ matches_regexp (U := plain_Unicode) (L := ex_RegexpLib) [97; 98; 46; 42] [97; 98; 10].
Proof.
  destruct (fast_regexp_matcher plain_Unicode ex_RegexpLib ex_RegexpLibOK elements [97; 98; 46; 42]) as (r & E & H).
  - intros X v. apply elem_of_elements.
  - repeat constructor; unfold MaxRune; lia.
  - intros re Ep. injection Ep as <-. repeat constructor; cbn; unfold MaxRune; lia.
  - vm_compute in E. injection E as <-. eexists. split; [vm_compute; reflexivity|]. split; [vm_compute; reflexivity|]. split; [vm_compute; reflexivity|].
    split; [reflexivity|]. destruct (H [97; 98; 10]) as (b & Eb & Hb); [repeat constructor; unfold MaxRune; lia|]. eexists. split; [reflexivity|]. apply (proj1 (Hb _ eq_refl)).
    vm_compute in Eb. congruence.
Defined.

(** A class of surrogates matches no valid value, but its set matches are the
    replacement character, which the matcher then takes for a match. *)
Definition surrogates : Regexp := node OpCharClass [] [55296; 55297].
Lemma surrogate_set_misses :
  option_map fst (match findSetMatches surrogates with Ret r => Some r | Panic => None end) = Some ([of_rune 65533; of_rune 65533], true)
  /\ ~ language (U := plain_Unicode) surrogates [65533].
Proof.
  split; [vm_compute; reflexivity|]. intros H. apply class_language in H as (c & [= <-] & lo & hi & Hin & Hc).
  cbn in Hin. apply list_elem_of_singleton in Hin as [= -> ->]. lia.
Qed.

(** The prefix of a value is compared by its number of bytes: the sign of the
    unit kelvin is equal to "k" up to case, but has three bytes. *)
Definition kelvin_Unicode : Unicode := {|
  SimpleFold := fun c => if c =? 75 then 107 else if c =? 107 then 8490 else if c =? 8490 then 75 else c;
  ToLower := fun c => if c =? 75 then 107 else if c =? 8490 then 107 else c; NFKD := fun s => s |}.

Lemma prefix_fold_misses :
  Matches (U := kelvin_Unicode) (literalPrefixInsensitiveStringMatcher [107] trueMatcher) (of_runes [8490; 49]) = Ret false
  /\ denotes (U := kelvin_Unicode) (mkRegexp OpConcat 1 [mkRegexp OpLiteral 1 [] [107]; node OpStar [node OpAnyChar [] []] []] []) [] [8490; 49] [].
Proof.
  split; [vm_compute; reflexivity|]. apply denotes_concat. exists [8490], [49]. split; [reflexivity|]. split.
  - constructor. constructor; [|constructor]. unfold rune_matches. cbn. exists 1%nat. reflexivity.
  - exists [49], []. split; [reflexivity|]. split; [|reflexivity]. apply star_language; [reflexivity|]. left. reflexivity.
Qed.
