(* ===== verification/Matcher.v ===== *)
(** * Label matchers ([model/labels/matcher.go])

    A matcher compares the value of one label with a string or with a regular
    expression, or the opposite.  [matcher_ok] is what holds of the matchers that
    [NewMatcher] returns: [value_matches] is what they test. *)
From stdpp Require Import base list numbers gmap strings.
From Stdlib Require Import ZArith Lia.
From S2P Require Import Prelude Utf8 Regexp RegexpSound RegexpMatchers RegexpFast.

Inductive MatchType := MatchEqual | MatchNotEqual | MatchRegexp | MatchNotRegexp.

#[export] Instance MatchType_eq_dec : EqDecision MatchType.
Proof. solve_decision. Defined.

Definition matchTypeToStr (t : MatchType) : bytes :=
  match t with MatchEqual => [61] | MatchNotEqual => [33; 61] | MatchRegexp => [61; 126] | MatchNotRegexp => [33; 126] end.

Section matchers.
Context {U : Unicode} {L : RegexpLib}.
Variable range_set : gset bytes -> list bytes.

Record Matcher := mkMatcher { m_Type : MatchType; m_Name : bytes; m_Value : bytes; m_re : option FastRegexMatcher }.

Definition NewMatcher (t : MatchType) (n v : bytes) : outcome (string + Matcher) :=
  match t with
  | MatchRegexp | MatchNotRegexp =>
      let* re := NewFastRegexMatcher range_set v in
      Ret (match re with inl e => inl e | inr re => inr (mkMatcher t n v (Some re)) end)
  | _ => Ret (inr (mkMatcher t n v None))
  end.

(** The method [MatchString] of a pointer that can be nil. *)
Definition re_matches (m : Matcher) (s : bytes) : outcome bool :=
  match m_re m with Some re => MatchString re s | None => Panic end.
Definition m_Matches (m : Matcher) (s : bytes) : outcome bool :=
  match m_Type m with
  | MatchEqual => Ret (bool_decide (s = m_Value m))
  | MatchNotEqual => Ret (negb (bool_decide (s = m_Value m)))
  | MatchRegexp => re_matches m s
  | MatchNotRegexp => let* b := re_matches m s in Ret (negb b)
  end.

Definition inverse_type (t : MatchType) : MatchType :=
  match t with MatchEqual => MatchNotEqual | MatchNotEqual => MatchEqual | MatchRegexp => MatchNotRegexp | MatchNotRegexp => MatchRegexp end.
Definition Inverse (m : Matcher) : outcome (string + Matcher) := NewMatcher (inverse_type (m_Type m)) (m_Name m) (m_Value m).

Definition m_GetRegexString (m : Matcher) : bytes := match m_re m with Some re => GetRegexString re | None => [] end.
Definition m_SetMatches (m : Matcher) : list bytes := match m_re m with Some re => SetMatches re | None => [] end.
Definition m_Prefix (m : Matcher) : bytes := match m_re m with Some re => fm_prefix re | None => [] end.
Definition IsRegexOptimized (m : Matcher) : bool := match m_re m with Some re => IsOptimized re | None => false end.

(** ** What matchers test *)

Definition is_regexp (t : MatchType) : bool := match t with MatchRegexp | MatchNotRegexp => true | _ => false end.
Definition is_not (t : MatchType) : bool := match t with MatchNotEqual | MatchNotRegexp => true | _ => false end.

(** Whether the value [s] passes a matcher of type [t] for [v]. *)
Definition value_matches (t : MatchType) (v : bytes) (s : bytes) : Prop :=
  match t with
  | MatchEqual => s = v
  | MatchNotEqual => s <> v
  | MatchRegexp => exists rs, s = of_runes rs /\ Forall valid_rune rs /\ matches_regexp v rs
  | MatchNotRegexp => ~ exists rs, s = of_runes rs /\ Forall valid_rune rs /\ matches_regexp v rs
  end.

(** Strings of valid UTF-8. *)
Definition valid_utf8 (s : bytes) : Prop := exists rs, s = of_runes rs /\ Forall valid_rune rs.

(** The matcher returns what its type and value say, and the values of
    [SetMatches], if there are any, are all that its expression matches. *)
Record tests (m : Matcher) : Prop := {
  t_matches : forall s, valid_utf8 s -> exists b, m_Matches m s = Ret b /\ (b = true <-> value_matches (m_Type m) (m_Value m) s);
  t_regexp : m_SetMatches m <> [] -> is_regexp (m_Type m) = true;
  t_set : m_SetMatches m <> [] -> forall s, valid_utf8 s -> s ∈ m_SetMatches m <-> value_matches MatchRegexp (m_Value m) s }.

(** The same, of the matcher and of its inverse. *)
Definition matcher_ok (m : Matcher) : Prop :=
  tests m /\ exists m', Inverse m = Ret (inr m') /\ m_Type m' = inverse_type (m_Type m) /\ m_Name m' = m_Name m /\ m_Value m' = m_Value m /\ tests m'.

Lemma value_matches_runes v rs : Forall valid_rune rs -> value_matches MatchRegexp v (of_runes rs) <-> matches_regexp v rs.
Proof.
  intros Hrs. cbn. split; [|eauto]. intros (rs' & E & Hrs' & H). apply of_runes_inj in E as ->; assumption.
Qed.

(** A condition on the pattern of a matcher: literal strings are any, expressions
    are valid UTF-8 that the parser accepts, and do not ignore case or name surrogates. *)
Definition pattern_ok (t : MatchType) (v : bytes) : Prop :=
  is_regexp t = true -> exists vs re, v = of_runes vs /\ Forall valid_rune vs /\ Parse v = inr re /\ plain_tree (Simplify re).

Hypothesis range_set_ok : forall X v, v ∈ range_set X <-> v ∈ X.
Context {LOK : RegexpLibOK U L}.

Lemma NewMatcher_shape t n v m : NewMatcher t n v = Ret (inr m) ->
  m_Type m = t /\ m_Name m = n /\ m_Value m = v
  /\ if is_regexp t then exists re, m_re m = Some re /\ NewFastRegexMatcher range_set v = Ret (inr re) else m_re m = None.
Proof.
  unfold NewMatcher. destruct t; cbn; try (intros [= <-]; auto);
    (destruct (NewFastRegexMatcher range_set v) as [[e|re]|]; cbn [outcome_bind]; intros E; try discriminate; injection E as <-; cbn; eauto 6).
Qed.

Lemma matcher_tests t n v m : pattern_ok t v -> NewMatcher t n v = Ret (inr m) -> tests m.
Proof.
  intros Hp E. destruct (NewMatcher_shape t n v m E) as (Ht & _ & Hv & Hre).
  destruct (is_regexp t) eqn:Er.
  - destruct Hre as (re & Hm & Enew). destruct (Hp Er) as (vs & tree & -> & Hvs & Ep & Hplain).
    destruct (NewFastRegexMatcher_ok range_set range_set_ok vs Hvs) as (r & Er' & Hr); [intros re' E'; congruence|]. rewrite Enew in Er'. injection Er' as <-. destruct Hr as [_ Hr]. destruct (Hr tree Ep) as [H1 H2 _].
    assert (HP : forall rs, matches_regexp (of_runes vs) rs <-> language (Simplify tree) rs).
    { intros rs. unfold matches_regexp. split; [intros (re' & E' & H); rewrite Ep in E'; injection E' as <-; exact H|eauto]. }
    constructor; unfold m_Matches, m_SetMatches, re_matches; rewrite ?Ht, ?Hv, Hm; [|auto|].
    + intros s (rs & -> & Hrs). destruct (H1 rs Hrs) as (b & Eb & Hb). rewrite Eb. destruct t; try discriminate.
      * exists b. split; [reflexivity|]. rewrite value_matches_runes, HP by exact Hrs. exact Hb.
      * exists (negb b). split; [reflexivity|]. change (value_matches MatchNotRegexp (of_runes vs) (of_runes rs)) with (~ value_matches MatchRegexp (of_runes vs) (of_runes rs)).
        rewrite value_matches_runes, HP by exact Hrs. rewrite <- Hb. destruct b; cbn; intuition congruence.
    + intros Hn s (rs & -> & Hrs). rewrite value_matches_runes, HP by exact Hrs. apply (H2 Hn). exact Hrs.
  - constructor; unfold m_Matches, m_SetMatches; rewrite ?Ht, ?Hv, ?Hre; try congruence. intros s _. destruct t; try discriminate; eexists; (split; [reflexivity|]); cbn;
      rewrite ?negb_true_iff, ?bool_decide_eq_true, ?bool_decide_eq_false; reflexivity.
Qed.

(** Every matcher that can be made is as it should be. *)
Lemma NewMatcher_ok t n v m : pattern_ok t v -> NewMatcher t n v = Ret (inr m) -> matcher_ok m.
Proof.
  intros Hp E. pose proof (matcher_tests t n v m Hp E) as H. destruct (NewMatcher_shape t n v m E) as (Ht & Hn & Hv & Hre). split; [exact H|].
  assert (Hinv : exists m', Inverse m = Ret (inr m')).
  { unfold Inverse. rewrite Ht, Hn, Hv. destruct t; cbn; try (eexists; reflexivity); destruct Hre as (re & _ & ->); eexists; reflexivity. }
  destruct Hinv as [m' Em]. exists m'. split; [exact Em|]. unfold Inverse in Em.
  assert (Hp' : pattern_ok (inverse_type (m_Type m)) (m_Value m)) by (rewrite Ht, Hv; unfold pattern_ok in *; destruct t; cbn in *; auto).
  destruct (NewMatcher_shape _ _ _ _ Em) as (Ht' & Hn' & Hv' & _). pose proof (matcher_tests _ _ _ _ Hp' Em). auto.
Qed.
End matchers.
