(* ===== verification/Querier.v ===== *)
(** * Selection of series by label matchers ([tsdb/querier.go])

    [PostingsForMatchers] turns the matchers of a selector into one iterator over
    the references of the series that pass all of them.  It asks an index (the
    class [IndexReader], the part of the interface of [tsdb/block.go] that it
    uses) for the postings of labels, intersects those that must hold and
    removes those that must not.  A matcher that the empty string passes is
    also passed by the series without the label, which no postings list holds;
    the code therefore distinguishes labels that some matcher requires to be set.

    The iterators that it builds are nested differences over an intersection:
    [Sel n] is the type of those with [n] differences, over the iterators [P] of
    the index. *)
From stdpp Require Import base list numbers gmap strings.
From Stdlib Require Import ZArith Lia.
From S2P Require Import Prelude Utf8 Regexp RegexpSound RegexpMatchers RegexpFast Matcher Postings.

(** ** What the code needs of an index *)

(** [IsEmptyPostingsType] on the iterators of the index. *)
Class EmptyTest (P : Type) := is_empty_postings : P -> bool.

Class IndexReader (Ix P : Type) := {
  ix_Postings : Ix -> bytes -> list bytes -> outcome (string + P);
  ix_PostingsForLabelMatching : Ix -> bytes -> (bytes -> outcome bool) -> outcome P;
  ix_PostingsForAllLabelValues : Ix -> bytes -> outcome P
}.

(** [slices.SortStableFunc].  The comparison that is passed here is no ordering:
    all that is used is that the result has the same elements. *)
Class StableSort := sort_stable_func : forall {A : Type}, (A -> A -> Z) -> list A -> list A.
Class StableSortOK (S : StableSort) : Prop := sort_stable_perm : forall {A : Type} (cmp : A -> A -> Z) l, sort_stable_func cmp l ≡ₚ l.

(** ** The iterators *)

Section selections.
Variable P : Type.

Fixpoint Sel (n : nat) : Type :=
  match n with
  | O => errPostings + (P + intersectPostings P)
  | S n => errPostings + (Sel n + removedPostings (Sel n) P)
  end%type.

Context {pops : PostingsOps P}.

Fixpoint sel_ops (n : nat) : PostingsOps (Sel n) :=
  match n return PostingsOps (Sel n) with
  | O => @sum_ops _ _ errPostings_ops (@sum_ops _ _ pops (@intersectPostings_ops _ pops))
  | S n => @sum_ops _ _ errPostings_ops (@sum_ops _ _ (sel_ops n) (@removedPostings_ops _ _ (sel_ops n) pops))
  end.
#[export] Existing Instance sel_ops.

Context {E : EmptyTest P}.

Definition is_sentinel (e : errPostings) : bool := match e_err e with None => true | Some _ => false end.
Fixpoint sel_empty (n : nat) : Sel n -> bool :=
  match n with
  | O => fun s => match s with inl e => is_sentinel e | inr (inl p) => is_empty_postings p | inr (inr _) => false end
  | S n => fun s => match s with inl e => is_sentinel e | inr (inl s) => sel_empty n s | inr (inr _) => false end
  end.

Definition selection : Type := sigT Sel.
Definition EmptySelection : selection := existT 0%nat (inl EmptyPostings).
Definition from_index (p : P) : selection := existT 0%nat (inr (inl p)).
Definition intersect (its : list P) : selection := existT 0%nat (Intersect is_empty_postings its).
Definition without (s : selection) (n : P) : selection :=
  let 'existT k s := s in existT (S k) (Without (sel_empty k) is_empty_postings s n).
End selections.
Arguments Sel P n : simpl never.
Arguments EmptySelection {P}.
Arguments from_index {P}.
Arguments intersect {P E}.
Arguments without {P E}.

(** ** [PostingsForMatchers] *)

Section querier.
Context {U : Unicode} {L : RegexpLib} {range_set : gset bytes -> list bytes} {Sort : StableSort}.
Context {Ix P : Type} {pops : PostingsOps P} {E : EmptyTest P} {IR : IndexReader Ix P}.

(** [return it, it.Err()] *)
Definition with_err (it : P) : string + P := match pErr it with Some e => inl e | None => inr it end.

Definition postingsForMatcher (ix : Ix) (m : Matcher) : outcome (string + P) :=
  match m_Type m with
  | MatchEqual => ix_Postings ix (m_Name m) [m_Value m]
  | MatchRegexp =>
      if (0 <? length (m_SetMatches m))%nat then ix_Postings ix (m_Name m) (m_SetMatches m)
      else let* it := ix_PostingsForLabelMatching ix (m_Name m) (m_Matches m) in Ret (with_err it)
  | _ => let* it := ix_PostingsForLabelMatching ix (m_Name m) (m_Matches m) in Ret (with_err it)
  end.

Definition not_matching (m : Matcher) (s : bytes) : outcome bool := let* b := m_Matches m s in Ret (negb b).

Definition inversePostingsForMatcher (ix : Ix) (m : Matcher) : outcome (string + P) :=
  if bool_decide (m_Type m = MatchNotRegexp) && (0 <? length (m_SetMatches m))%nat then ix_Postings ix (m_Name m) (m_SetMatches m)
  else if bool_decide (m_Type m = MatchNotEqual) then ix_Postings ix (m_Name m) [m_Value m]
  else if bool_decide (m_Value m = []) && (bool_decide (m_Type m = MatchRegexp) || bool_decide (m_Type m = MatchEqual)) then
    let* it := ix_PostingsForAllLabelValues ix (m_Name m) in Ret (with_err it)
  else let* it := ix_PostingsForLabelMatching ix (m_Name m) (not_matching m) in Ret (with_err it).

(** The names of labels that some matcher requires to be set. *)
Fixpoint labelMustBeSet (ms : list Matcher) : outcome (gset bytes) :=
  match ms with
  | [] => Ret ∅
  | m :: ms => let* b := m_Matches m [] in let* s := labelMustBeSet ms in Ret (if b : bool then s else {[ m_Name m ]} ∪ s)
  end.

Definition isSubtractingMatcher (must : gset bytes) (m : Matcher) : outcome bool :=
  if negb (bool_decide (m_Name m ∈ must)) then Ret true
  else if is_not (m_Type m) then m_Matches m [] else Ret false.

(** Each matcher with whether it is a subtracting one. *)
Fixpoint classify (must : gset bytes) (ms : list Matcher) : outcome (list (Matcher * bool)) :=
  match ms with
  | [] => Ret []
  | m :: ms => let* b := isSubtractingMatcher must m in let* l := classify must ms in Ret ((m, b) :: l)
  end.
Definition intersecting_first (i j : Matcher * bool) : Z := if negb (snd i) && snd j then -1 else 1.

(** What one matcher does: nothing, add postings to those that must hold or to
    those that must not, or end the search. *)
Inductive action := Skip | Add (p : P) | Subtract (p : P) | ReturnEmpty.

(** Postings that are empty end the search. *)
Definition add_unless_empty (p : P) : action := if is_empty_postings p then ReturnEmpty else Add p.
Definition on_ok {A B} (r : outcome (string + A)) (f : A -> B) : outcome (string + B) :=
  let* r := r in Ret (match r with inl e => inl e | inr a => inr (f a) end).

Definition dot_star : bytes := [46; 42].
Definition dot_plus : bytes := [46; 43].

Definition matcher_action (ix : Ix) (must : gset bytes) (m : Matcher) : outcome (string + action) :=
  if bool_decide (m_Name m = []) && bool_decide (m_Value m = []) then Ret (inl "unexpected all postings"%string)
  else if bool_decide (m_Type m = MatchRegexp) && bool_decide (m_Value m = dot_star) then Ret (inr Skip)
  else if bool_decide (m_Type m = MatchNotRegexp) && bool_decide (m_Value m = dot_star) then Ret (inr ReturnEmpty)
  else if bool_decide (m_Type m = MatchRegexp) && bool_decide (m_Value m = dot_plus) then
    let* it := ix_PostingsForAllLabelValues ix (m_Name m) in Ret (inr (add_unless_empty it))
  else if bool_decide (m_Type m = MatchNotRegexp) && bool_decide (m_Value m = dot_plus) then
    let* it := ix_PostingsForAllLabelValues ix (m_Name m) in Ret (inr (Subtract it))
  else if bool_decide (m_Name m ∈ must) then
    let* matchesEmpty := m_Matches m [] in
    if is_not (m_Type m) && matchesEmpty then
      let* inverse := Inverse range_set m in
      match inverse with inl e => Ret (inl e) | inr inverse => on_ok (postingsForMatcher ix inverse) Subtract end
    else if is_not (m_Type m) then
      let* inverse := Inverse range_set m in
      match inverse with inl e => Ret (inl e) | inr inverse => on_ok (inversePostingsForMatcher ix inverse) add_unless_empty end
    else on_ok (postingsForMatcher ix m) add_unless_empty
  else on_ok (inversePostingsForMatcher ix m) Subtract.

(** The loop over the matchers; [ctx] is what polling the context returns in each
    turn, [None] ends the search without a result. *)
Fixpoint collect (ctx : nat -> option string) (i : nat) (ix : Ix) (must : gset bytes) (ms : list Matcher) (its notIts : list P)
    : outcome (string + option (list P * list P)) :=
  match ms with
  | [] => Ret (inr (Some (its, notIts)))
  | m :: ms =>
      match ctx i with
      | Some e => Ret (inl e)
      | None =>
          let* a := matcher_action ix must m in
          match a with
          | inl e => Ret (inl e)
          | inr Skip => collect ctx (S i) ix must ms its notIts
          | inr (Add p) => collect ctx (S i) ix must ms (its ++ [p]) notIts
          | inr (Subtract p) => collect ctx (S i) ix must ms its (notIts ++ [p])
          | inr ReturnEmpty => Ret (inr None)
          end
      end
  end.

Definition is_all_postings (m : Matcher) : bool := bool_decide (m_Name m = []) && bool_decide (m_Value m = []).

Definition PostingsForMatchers (ctx : nat -> option string) (ix : Ix) (ms : list Matcher) : outcome (string + selection P) :=
  if (length ms =? 1)%nat && forallb is_all_postings ms then on_ok (ix_Postings ix [] [[]]) from_index
  else
    let* must := labelMustBeSet ms in
    let* tagged := classify must ms in
    let* base := if existsb snd tagged && negb (existsb (fun t => negb (snd t)) tagged)
                 then on_ok (ix_Postings ix [] [[]]) (fun p => [p]) else Ret (inr []) in
    match base with
    | inl e => Ret (inl e)
    | inr its =>
        let* r := collect ctx 0 ix must (map fst (sort_stable_func intersecting_first tagged)) its [] in
        Ret (match r with
             | inl e => inl e
             | inr None => inr EmptySelection
             | inr (Some (its, notIts)) => inr (fold_left without notIts (intersect its))
             end)
    end.
End querier.
