(* ===== verification/QuerierSpec.v ===== *)
(** * What [PostingsForMatchers] selects

    The index is known by the laws of [IndexReaderOK]: its series [all], the value
    that each has of a label (empty if it has none), and the iterators it returns.
    [PostingsForMatchers] then returns an iterator over the series whose values
    pass every matcher, in increasing order. *)
From stdpp Require Import base list numbers gmap strings.
From Stdlib Require Import ZArith Lia.
From S2P Require Import Prelude Utf8 Regexp RegexpSound RegexpMatchers RegexpFast Matcher Postings Querier.

(** ** The contract of an index *)

Class EmptyTestOK (maxref : Z) (P : Type) {pops : PostingsOps P} {POK : PostingsOK maxref P} {E : EmptyTest P} : Prop :=
  empty_nil : forall (p : P) l, is_empty_postings p = true -> Rep p 0 0 l -> l = [].

Class IndexReaderOK (maxref : Z) {Ix P : Type} {pops : PostingsOps P} {POK : PostingsOK maxref P} {IR : IndexReader Ix P}
    (ix : Ix) (all : list Z) (label_of : Z -> bytes -> bytes) : Prop := {
  ix_all_postings : exists p, ix_Postings ix [] [[]] = Ret (inr p) /\ Rep p 0 0 all;
  ix_postings n vs : n <> [] -> exists p l, ix_Postings ix n vs = Ret (inr p) /\ Rep p 0 0 l
    /\ forall z, z ∈ l <-> z ∈ all /\ label_of z n <> [] /\ label_of z n ∈ vs;
  ix_matching n f (g : bytes -> bool) : n <> [] -> (forall z, z ∈ all -> label_of z n <> [] -> f (label_of z n) = Ret (g (label_of z n))) ->
    exists p l, ix_PostingsForLabelMatching ix n f = Ret p /\ Rep p 0 0 l
    /\ forall z, z ∈ l <-> z ∈ all /\ label_of z n <> [] /\ g (label_of z n) = true;
  ix_all_values n : n <> [] -> exists p l, ix_PostingsForAllLabelValues ix n = Ret p /\ Rep p 0 0 l
    /\ forall z, z ∈ l <-> z ∈ all /\ label_of z n <> [];
  ix_values_utf8 z n : z ∈ all -> valid_utf8 (label_of z n) }.

(** The two expressions that are treated apart. *)
Class DotLaws (U : Unicode) (L : RegexpLib) : Prop := {
  parse_dot_star : exists re, Parse dot_star = inr re /\ forall rs, language (Simplify re) rs;
  parse_dot_plus : exists re, Parse dot_plus = inr re /\ forall rs, language (Simplify re) rs <-> rs <> [] }.

(** ** The iterators built *)

Section iterators.
Context {maxref : Z} {P : Type} {pops : PostingsOps P} {POK : PostingsOK maxref P} {PR : PostingsRobust maxref P}
  {E : EmptyTest P} {EOK : EmptyTestOK maxref P}.

Fixpoint sel_ok (n : nat) : PostingsOK maxref (Sel P n) :=
  match n return PostingsOK maxref (Sel P n) with
  | O => sum_ok (A := errPostings) (B := P + intersectPostings P)
  | S n => @sum_ok maxref errPostings _ _ _ _ (@sum_ok maxref (Sel P n) _ _ (sel_ok n) _ (@removedPostings_ok maxref _ _ _ (sel_ok n) _ POK PR))
  end.

(** The selection has not started and is over [l]. *)
Definition selects (s : selection P) (l : list Z) : Prop :=
  let 'existT n x := s in Rep (PostingsOK := sel_ok n) x 0 0 l.

(** Expanding a selection. *)
Definition ExpandSelection (fuel : nat) (s : selection P) : option (list Z * option string) :=
  let 'existT n x := s in ExpandPostings fuel x.

Lemma selects_expand s l : selects s l -> yields (fun f => ExpandSelection f s) (l, None).
Proof. destruct s as [n x]. intros H. exact (expand_ok (SOK := sel_ok n) x 0 l H). Qed.

Lemma rep_bound (p : P) l : Rep p 0 0 l -> 0 <= maxref.
Proof. intros H. pose proof (rep_wf _ _ _ _ H) as (_ & _ & _ & Hm). apply Forall_cons_1 in Hm. lia. Qed.

Lemma selects_empty : 0 <= maxref -> selects EmptySelection [].
Proof. intros H. cbn. repeat split; lia. Qed.

Lemma sel_empty_nil n (x : Sel P n) l : sel_empty P n x = true -> Rep (PostingsOK := sel_ok n) x 0 0 l -> l = [].
Proof.
  revert x l. induction n as [|n IH]; intros [e|[x|x]] l; cbn [sel_empty]; intros H Hr; try discriminate.
  - apply Hr.
  - exact (empty_nil x l H Hr).
  - apply Hr.
  - exact (IH x l H Hr).
Qed.

Lemma empty_member (its : list P) ls z : Forall2 (fun p l => Rep p 0 0 l) its ls -> existsb is_empty_postings its = true -> ~ Forall (fun l => z ∈ l) ls.
Proof.
  induction 1 as [|p l its ls Hp _ IH]; cbn [existsb]; [discriminate|]. rewrite orb_true_iff. intros [Ep|Ee] Hz; apply Forall_cons_1 in Hz as [Hz1 Hz2].
  - rewrite (empty_nil p l Ep Hp) in Hz1. apply not_elem_of_nil in Hz1 as [].
  - exact (IH Ee Hz2).
Qed.

Lemma intersect_selects (its : list P) ls : its <> [] -> Forall2 (fun p l => Rep p 0 0 l) its ls ->
  exists l, selects (intersect its) l /\ forall z, z ∈ l <-> Forall (fun l => z ∈ l) ls.
Proof.
  intros Hne H. destruct H as [|p l its ls Hp H]; [congruence|]. unfold intersect, Intersect. destruct H as [|q k its ls Hq H].
  - exists l. split; [exact Hp|]. intros z. rewrite Forall_singleton. reflexivity.
  - destruct (existsb is_empty_postings (p :: q :: its)) eqn:Ee.
    + exists []. split; [apply selects_empty, (rep_bound p l Hp)|]. intros z. split; [intros Hz; apply not_elem_of_nil in Hz as []|].
      intros Hz. exfalso. refine (empty_member (p :: q :: its) (l :: k :: ls) z _ Ee Hz). repeat constructor; assumption.
    + exists (meet_all l (k :: ls)). split.
      * apply (new_intersect_rep p l (q :: its) (k :: ls)); [exact Hp|constructor; assumption].
      * intros z. rewrite meet_all_elem, !Forall_cons. reflexivity.
Qed.

Lemma without_selects (s : selection P) l n d : selects s l -> Rep n 0 0 d ->
  exists l', selects (without s n) l' /\ forall z, z ∈ l' <-> z ∈ l /\ z ∉ d.
Proof.
  destruct s as [k x]. intros Hs Hn. unfold without, Without. destruct (sel_empty P k x) eqn:Ee.
  - exists []. split; [apply selects_empty, (rep_bound n d Hn)|]. rewrite (sel_empty_nil k x l Ee Hs). intros z. split; [intros H; apply not_elem_of_nil in H as []|intros [H _]; exact H].
  - destruct (is_empty_postings n) eqn:En.
    + exists l. split; [exact Hs|]. rewrite (empty_nil n d En Hn). intros z. split; [intros H; split; [exact H|apply not_elem_of_nil]|intros [H _]; exact H].
    + exists (minus l d). split; [|intros z; apply minus_elem].
      exact (@new_removed_rep maxref _ _ _ (sel_ok k) _ _ PR x n l d Hs Hn).
Qed.

Lemma fold_without_selects notIts ds s l : Forall2 (fun p l => Rep p 0 0 l) notIts ds -> selects s l ->
  exists l', selects (fold_left without notIts s) l' /\ forall z, z ∈ l' <-> z ∈ l /\ Forall (fun d => z ∉ d) ds.
Proof.
  intros H. revert s l. induction H as [|n d notIts ds Hn _ IH]; intros s l Hs; cbn [fold_left].
  - exists l. split; [exact Hs|]. intros z. rewrite Forall_nil. tauto.
  - destruct (without_selects s l n d Hs Hn) as (l1 & Hs1 & Hl1). destruct (IH _ _ Hs1) as (l2 & Hs2 & Hl2).
    exists l2. split; [exact Hs2|]. intros z. rewrite Hl2, Hl1, Forall_cons. tauto.
Qed.
End iterators.

(** ** One matcher *)

Section spec.
Context {U : Unicode} {L : RegexpLib} {LOK : RegexpLibOK U L} {Dots : DotLaws U L}.
Context {range_set : gset bytes -> list bytes}.
Context {maxref : Z} {Ix P : Type} {pops : PostingsOps P} {POK : PostingsOK maxref P} {PR : PostingsRobust maxref P}
  {E : EmptyTest P} {EOK : EmptyTestOK maxref P} {IR : IndexReader Ix P}.
Context (ix : Ix) (all : list Z) (label_of : Z -> bytes -> bytes) {IOK : IndexReaderOK maxref ix all label_of}.

(** The series passes the matcher; the empty value passes it. *)
Definition passes (z : Z) (m : Matcher) : Prop := value_matches (m_Type m) (m_Value m) (label_of z (m_Name m)).
Definition passes_empty (m : Matcher) : Prop := value_matches (m_Type m) (m_Value m) [].
Definition set_in (z : Z) (n : bytes) : Prop := label_of z n <> [].

Lemma valid_empty : valid_utf8 [].
Proof. exists []. auto. Qed.

Lemma dot_star_all s : valid_utf8 s -> value_matches MatchRegexp dot_star s.
Proof. intros (rs & -> & Hrs). destruct parse_dot_star as (re & Ep & H). exists rs. split; [reflexivity|]. split; [exact Hrs|]. exists re. auto. Qed.

Lemma dot_plus_nonempty s : valid_utf8 s -> value_matches MatchRegexp dot_plus s <-> s <> [].
Proof.
  intros (rs & -> & Hrs). destruct parse_dot_plus as (re & Ep & H). rewrite value_matches_runes by exact Hrs. split.
  - intros (re' & Ep' & Hl). rewrite Ep in Ep'. injection Ep' as <-. apply H in Hl. intros En. apply Hl, of_runes_nil, En.
  - intros Hn. exists re. split; [exact Ep|]. apply H. intros ->. exact (Hn eq_refl).
Qed.

Lemma empty_pattern s : valid_utf8 s -> value_matches MatchRegexp [] s <-> s = [].
Proof.
  intros (rs & -> & Hrs). rewrite (value_matches_runes [] rs Hrs).
  destruct parse_empty as (re & Ep). pose proof (literal_choice [[]] [] re ltac:(congruence) ltac:(repeat constructor; apply quote_empty) eq_refl ltac:(constructor) Ep) as H.
  rewrite <- (list_elem_of_singleton (of_runes rs)), <- (H rs Hrs). split; [intros (re' & Ep' & Hl)|intros Hl; exists re; auto].
  rewrite Ep in Ep'. injection Ep' as <-. exact Hl.
Qed.

Lemma tests_dec m s : tests m -> valid_utf8 s -> value_matches (m_Type m) (m_Value m) s \/ ~ value_matches (m_Type m) (m_Value m) s.
Proof. intros T V. destruct (t_matches m T s V) as ([|] & _ & H); [left; apply H; reflexivity|right; intros G; apply H in G; discriminate]. Qed.

Lemma matches_fun m : tests m -> exists g, (forall s, valid_utf8 s -> m_Matches m s = Ret (g s))
  /\ forall s, valid_utf8 s -> g s = true <-> value_matches (m_Type m) (m_Value m) s.
Proof.
  intros T. exists (fun s => match m_Matches m s with Ret b => b | Panic => false end).
  split; intros s V; destruct (t_matches m T s V) as (b & Eb & Hb); rewrite Eb; [reflexivity|exact Hb].
Qed.

(** The iterators over the series that have the label and pass the matcher, or do not. *)
Definition over (p : P) (Q : Z -> Prop) : Prop := exists l, Rep p 0 0 l /\ forall z, z ∈ l <-> z ∈ all /\ Q z.

Lemma over_iff p Q Q' : (forall z, z ∈ all -> Q z <-> Q' z) -> over p Q -> over p Q'.
Proof. intros H (l & Hr & Hl). exists l. split; [exact Hr|]. intros z. rewrite Hl. specialize (H z). tauto. Qed.

Lemma over_ok p Q : over p Q -> with_err p = inr p.
Proof. intros (l & Hr & _). unfold with_err. rewrite (rep_err _ _ _ _ Hr). reflexivity. Qed.

Lemma postings_over n vs : n <> [] -> exists p, ix_Postings ix n vs = Ret (inr p) /\ over p (fun z => set_in z n /\ label_of z n ∈ vs).
Proof. intros Hn. destruct (ix_postings n vs Hn) as (p & l & Ep & H). exists p. split; [exact Ep|]. exists l. exact H. Qed.

Lemma all_values_over n : n <> [] -> exists p, ix_PostingsForAllLabelValues ix n = Ret p /\ over p (fun z => set_in z n).
Proof. intros Hn. destruct (ix_all_values n Hn) as (p & l & Ep & H). exists p. split; [exact Ep|]. exists l. exact H. Qed.

Lemma matching_over n f g : n <> [] -> (forall s, valid_utf8 s -> f s = Ret (g s)) ->
  exists p, ix_PostingsForLabelMatching ix n f = Ret p /\ over p (fun z => set_in z n /\ g (label_of z n) = true).
Proof.
  intros Hn Hf. destruct (ix_matching n f g Hn) as (p & l & Ep & H); [intros z Hz _; apply Hf, (ix_values_utf8 z n Hz)|].
  exists p. split; [exact Ep|]. exists l. exact H.
Qed.

Lemma postingsForMatcher_over m : tests m -> m_Name m <> [] ->
  exists p, postingsForMatcher ix m = Ret (inr p) /\ over p (fun z => set_in z (m_Name m) /\ passes z m).
Proof.
  intros T Hn. destruct (matches_fun m T) as (g & Hg & Hgv). destruct (matching_over (m_Name m) (m_Matches m) g Hn Hg) as (p & Ep & Hp).
  assert (G : exists p, (let* it := ix_PostingsForLabelMatching ix (m_Name m) (m_Matches m) in Ret (with_err it)) = Ret (inr p)
    /\ over p (fun z => set_in z (m_Name m) /\ passes z m)).
  { rewrite Ep. cbn [outcome_bind]. rewrite (over_ok p _ Hp). exists p. split; [reflexivity|]. eapply over_iff; [|exact Hp].
    intros z Hz. cbn. rewrite Hgv by (apply ix_values_utf8; exact Hz). reflexivity. }
  unfold postingsForMatcher. unfold passes in *. destruct (m_Type m) eqn:Et; try exact G.
  - destruct (postings_over (m_Name m) [m_Value m] Hn) as (q & Eq & Hq). exists q. split; [exact Eq|]. eapply over_iff; [|exact Hq].
    intros z Hz. cbn. rewrite list_elem_of_singleton. reflexivity.
  - destruct (Nat.ltb_spec 0 (length (m_SetMatches m))) as [Hl|_]; [|exact G]. destruct (postings_over (m_Name m) (m_SetMatches m) Hn) as (q & Eq & Hq).
    exists q. split; [exact Eq|]. eapply over_iff; [|exact Hq]. intros z Hz. cbn beta. rewrite (t_set m T); [reflexivity| |apply ix_values_utf8; exact Hz].
    intros En. rewrite En in Hl. cbn in Hl. lia.
Qed.

Lemma value_not_regexp v s : value_matches MatchNotRegexp v s <-> ~ value_matches MatchRegexp v s.
Proof. reflexivity. Qed.

Lemma inversePostings_over m : tests m -> m_Name m <> [] ->
  exists p, inversePostingsForMatcher ix m = Ret (inr p) /\ over p (fun z => set_in z (m_Name m) /\ ~ passes z m).
Proof.
  intros T Hn. destruct (matches_fun m T) as (g & Hg & Hgv). unfold inversePostingsForMatcher.
  destruct (matching_over (m_Name m) (not_matching m) (fun s => negb (g s)) Hn) as (p & Ep & Hp).
  { intros s V. unfold not_matching. rewrite (Hg s V). reflexivity. }
  assert (G : exists p, (let* it := ix_PostingsForLabelMatching ix (m_Name m) (not_matching m) in Ret (with_err it)) = Ret (inr p)
    /\ over p (fun z => set_in z (m_Name m) /\ ~ passes z m)).
  { rewrite Ep. cbn [outcome_bind]. rewrite (over_ok p _ Hp). exists p. split; [reflexivity|]. eapply over_iff; [|exact Hp].
    intros z Hz. cbn beta. unfold passes. rewrite negb_true_iff, <- Hgv, not_true_iff_false by (apply ix_values_utf8; exact Hz). reflexivity. }
  destruct (bool_decide_reflect (m_Type m = MatchNotRegexp)) as [Et|Et]; cbn [andb].
  - destruct (Nat.ltb_spec 0 (length (m_SetMatches m))) as [Hl|_].
    + destruct (postings_over (m_Name m) (m_SetMatches m) Hn) as (q & Eq & Hq). exists q. split; [exact Eq|]. eapply over_iff; [|exact Hq]. intros z Hz. cbn beta.
      assert (V : valid_utf8 (label_of z (m_Name m))) by (apply ix_values_utf8; exact Hz).
      assert (D : label_of z (m_Name m) ∈ m_SetMatches m <-> value_matches MatchRegexp (m_Value m) (label_of z (m_Name m)))
        by (apply (t_set m T); [intros En; rewrite En in Hl; cbn in Hl; lia|exact V]).
      unfold passes. rewrite Et, value_not_regexp, <- D. destruct (decide (label_of z (m_Name m) ∈ m_SetMatches m)); tauto.
    + rewrite !Et. cbn. rewrite andb_false_r. exact G.
  - destruct (bool_decide_reflect (m_Type m = MatchNotEqual)) as [Et2|Et2].
    + destruct (postings_over (m_Name m) [m_Value m] Hn) as (q & Eq & Hq). exists q. split; [exact Eq|]. eapply over_iff; [|exact Hq]. intros z Hz. cbn beta. rewrite list_elem_of_singleton.
      unfold passes. rewrite Et2. cbn. destruct (decide (label_of z (m_Name m) = m_Value m)); tauto.
    + destruct (bool_decide_reflect (m_Value m = [])) as [Ev|Ev]; cbn [andb]; [|exact G].
      destruct (bool_decide (m_Type m = MatchRegexp) || bool_decide (m_Type m = MatchEqual)) eqn:Et3; [|exact G].
      destruct (all_values_over (m_Name m) Hn) as (q & Eq & Hq). rewrite Eq. cbn [outcome_bind]. rewrite (over_ok q _ Hq). exists q. split; [reflexivity|].
      eapply over_iff; [|exact Hq]. intros z Hz. cbn beta. unfold passes, set_in. rewrite Ev.
      destruct (m_Type m) eqn:Et4; try discriminate; try congruence; [cbn; tauto|]. rewrite empty_pattern by (apply ix_values_utf8; exact Hz). tauto.
Qed.

(** ** The effect of a matcher

    Every matcher that the empty string does not pass requires its label: [must]
    are these labels, and only matchers for them add postings or end the search. *)
Definition effect (must : gset bytes) (m : Matcher) (a : action) : Prop :=
  match a with
  | Skip => passes_empty m /\ forall z, z ∈ all -> passes z m
  | Add p => m_Name m ∈ must /\ over p (fun z => set_in z (m_Name m) /\ passes z m)
  | Subtract p => passes_empty m /\ over p (fun z => ~ passes z m)
  | ReturnEmpty => m_Name m ∈ must /\ forall z, z ∈ all -> set_in z (m_Name m) -> ~ passes z m
  end.

Lemma add_effect must m p : m_Name m ∈ must -> over p (fun z => set_in z (m_Name m) /\ passes z m) -> effect must m (add_unless_empty p).
Proof.
  intros Hm Hp. unfold add_unless_empty. destruct (is_empty_postings p) eqn:Ee; [|split; assumption]. split; [exact Hm|].
  destruct Hp as (l & Hr & Hl). rewrite (empty_nil p l Ee Hr) in Hl. intros z Hz Hs Hpz. apply (not_elem_of_nil z), Hl. auto.
Qed.

(** Without the label the value is the empty string. *)
Lemma fails_set z m : passes_empty m -> ~ passes z m -> set_in z (m_Name m).
Proof. intros He Hn E0. apply Hn. unfold passes. rewrite E0. exact He. Qed.

Lemma subtract_effect must m p : passes_empty m -> over p (fun z => set_in z (m_Name m) /\ ~ passes z m) -> effect must m (Subtract p).
Proof. intros He Hp. split; [exact He|]. eapply over_iff; [|exact Hp]. intros z _. cbn beta. pose proof (fails_set z m He). tauto. Qed.

Lemma inverse_value t v s : value_matches (inverse_type t) v s -> ~ value_matches t v s.
Proof. destruct t; cbn; tauto. Qed.

Lemma inverse_passes m m' z : is_not (m_Type m) = true -> m_Type m' = inverse_type (m_Type m) -> m_Name m' = m_Name m -> m_Value m' = m_Value m ->
  passes z m <-> ~ passes z m'.
Proof.
  intros Hn E1 E2 E3. unfold passes. rewrite E1, E2, E3. destruct (m_Type m); try discriminate; reflexivity.
Qed.

Lemma matcher_effect must m : matcher_ok range_set m -> m_Name m <> [] -> (~ passes_empty m -> m_Name m ∈ must) ->
  exists a, matcher_action (range_set := range_set) ix must m = Ret (inr a) /\ effect must m a.
Proof.
  intros (T & m' & Em' & Ht & Hn' & Hv & T') Hn Hmust. unfold matcher_action.
  rewrite (bool_decide_eq_false_2 _ Hn). cbn [andb].
  destruct (bool_decide (m_Type m = MatchRegexp) && bool_decide (m_Value m = dot_star)) eqn:E1.
  { apply andb_prop in E1 as [E1%bool_decide_eq_true E2%bool_decide_eq_true]. exists Skip. split; [reflexivity|]. unfold effect, passes, passes_empty. rewrite E1, E2.
    split; [apply dot_star_all, valid_empty|]. intros z Hz. apply dot_star_all, ix_values_utf8, Hz. }
  destruct (bool_decide (m_Type m = MatchNotRegexp) && bool_decide (m_Value m = dot_star)) eqn:E2.
  { apply andb_prop in E2 as [E2%bool_decide_eq_true E3%bool_decide_eq_true]. exists ReturnEmpty. split; [reflexivity|]. unfold effect, passes. rewrite E2, E3. split.
    - apply Hmust. unfold passes_empty. rewrite E2, E3, value_not_regexp. intros H. apply H, dot_star_all, valid_empty.
    - intros z Hz _. rewrite value_not_regexp. intros H. apply H, dot_star_all, ix_values_utf8, Hz. }
  destruct (bool_decide (m_Type m = MatchRegexp) && bool_decide (m_Value m = dot_plus)) eqn:E3.
  { apply andb_prop in E3 as [E3%bool_decide_eq_true E4%bool_decide_eq_true]. destruct (all_values_over (m_Name m) Hn) as (p & -> & Hp). cbn [outcome_bind]. eexists. split; [reflexivity|].
    apply add_effect.
    - apply Hmust. unfold passes_empty. rewrite E3, E4, dot_plus_nonempty by apply valid_empty. congruence.
    - eapply over_iff; [|exact Hp]. intros z Hz. cbn beta. unfold passes. rewrite E3, E4, dot_plus_nonempty by (apply ix_values_utf8, Hz). unfold set_in. tauto. }
  destruct (bool_decide (m_Type m = MatchNotRegexp) && bool_decide (m_Value m = dot_plus)) eqn:E4.
  { apply andb_prop in E4 as [E4%bool_decide_eq_true E5%bool_decide_eq_true]. destruct (all_values_over (m_Name m) Hn) as (p & -> & Hp). cbn [outcome_bind]. eexists. split; [reflexivity|].
    split.
    - unfold passes_empty. rewrite E4, E5, value_not_regexp, dot_plus_nonempty by apply valid_empty. congruence.
    - eapply over_iff; [|exact Hp]. intros z Hz. cbn beta. unfold passes. rewrite E4, E5, value_not_regexp, dot_plus_nonempty by (apply ix_values_utf8, Hz).
      unfold set_in. destruct (decide (label_of z (m_Name m) = [])); tauto. }
  clear E1 E2 E3 E4. destruct (t_matches m T [] valid_empty) as (b & Eb & Hb). change (b = true <-> passes_empty m) in Hb.
  destruct (bool_decide_reflect (m_Name m ∈ must)) as [Hin|Hout].
  - rewrite Eb. cbn [outcome_bind]. rewrite Em'. cbn [outcome_bind]. rewrite <- Hn' in Hn. destruct (is_not (m_Type m)) eqn:Eneg; cbn [andb].
    + pose proof (inverse_passes m m') as Hinv. destruct b.
      * destruct (postingsForMatcher_over m' T' Hn) as (p & Ep & Hp). unfold on_ok. rewrite Ep. cbn [outcome_bind]. eexists. split; [reflexivity|].
        apply subtract_effect; [tauto|]. eapply over_iff; [|exact Hp]. intros z Hz. cbn beta. rewrite Hn', (Hinv z) by assumption.
        pose proof (tests_dec m' _ T' (ix_values_utf8 z (m_Name m') Hz)) as D. change (passes z m' \/ ~ passes z m') in D. tauto.
      * destruct (inversePostings_over m' T' Hn) as (p & Ep & Hp). unfold on_ok. rewrite Ep. cbn [outcome_bind]. eexists. split; [reflexivity|].
        apply add_effect; [exact Hin|]. eapply over_iff; [|exact Hp]. intros z Hz. cbn beta. rewrite Hn', (Hinv z) by assumption. reflexivity.
    + rewrite Hn' in Hn. destruct (postingsForMatcher_over m T Hn) as (p & Ep & Hp). unfold on_ok. rewrite Ep. cbn [outcome_bind]. eexists. split; [reflexivity|].
      apply add_effect; assumption.
  - destruct (inversePostings_over m T Hn) as (p & Ep & Hp). unfold on_ok. rewrite Ep. cbn [outcome_bind]. eexists. split; [reflexivity|].
    apply subtract_effect; [|exact Hp]. apply Hb. destruct b; [reflexivity|]. exfalso. apply Hout, Hmust. intros G. apply Hb in G. discriminate.
Qed.

(** ** The loops *)

Definition matcher_good (m : Matcher) : Prop := matcher_ok range_set m /\ m_Name m <> [].

Lemma matches_empty m : matcher_good m -> exists b, m_Matches m [] = Ret b /\ (b = true <-> passes_empty m).
Proof. intros [[T _] _]. exact (t_matches m T [] valid_empty). Qed.

Lemma labelMustBeSet_spec ms : Forall matcher_good ms ->
  exists must, labelMustBeSet ms = Ret must /\ forall n, n ∈ must <-> exists m, m ∈ ms /\ m_Name m = n /\ ~ passes_empty m.
Proof.
  induction 1 as [|m ms Hm _ (must & IH & Hmust)]; cbn [labelMustBeSet].
  - exists ∅. split; [reflexivity|]. intros n. split; [set_solver|]. intros (m & H & _). apply not_elem_of_nil in H as [].
  - destruct (matches_empty m Hm) as (b & -> & Hb). cbn [outcome_bind]. rewrite IH. cbn [outcome_bind]. eexists. split; [reflexivity|]. intros n.
    assert (G : (exists m0, m0 ∈ m :: ms /\ m_Name m0 = n /\ ~ passes_empty m0) <-> (m_Name m = n /\ ~ passes_empty m) \/ n ∈ must).
    { rewrite Hmust. split.
      - intros (m0 & H & H'). apply elem_of_cons in H as [->|H]; [auto|right; eauto].
      - intros [H|(m0 & H & H')]; [exists m; split; [left|exact H]|exists m0; split; [right; exact H|exact H']]. }
    rewrite G. destruct b.
    + assert (He : passes_empty m) by (apply Hb; reflexivity). tauto.
    + assert (He : ~ passes_empty m) by (intros H; apply Hb in H; discriminate). rewrite elem_of_union, elem_of_singleton.
      split; [intros [->|H]; auto|intros [[<- _]|H]; auto].
Qed.

Lemma classify_spec must ms : Forall matcher_good ms ->
  exists tagged, classify must ms = Ret tagged /\ map fst tagged = ms /\ forall m, (m, false) ∈ tagged -> m ∈ ms /\ m_Name m ∈ must.
Proof.
  induction 1 as [|m ms Hm _ (l & IH & Hf & Hl)]; cbn [classify].
  - exists []. split; [reflexivity|]. split; [reflexivity|]. intros m H. apply not_elem_of_nil in H as [].
  - assert (G : exists b, isSubtractingMatcher must m = Ret b /\ (b = false -> m_Name m ∈ must)).
    { unfold isSubtractingMatcher. destruct (bool_decide_reflect (m_Name m ∈ must)) as [H|H]; cbn [negb]; [|exists true; split; [reflexivity|discriminate]].
      destruct (is_not (m_Type m)); [|exists false; auto]. destruct (matches_empty m Hm) as (b & -> & _). eauto. }
    destruct G as (b & -> & Hb). cbn [outcome_bind]. rewrite IH. cbn [outcome_bind]. eexists. split; [reflexivity|]. split; [cbn; rewrite Hf; reflexivity|].
    intros m0 H. apply elem_of_cons in H as [[= -> <-]|H]; [split; [left|apply Hb; reflexivity]|]. destruct (Hl m0 H). split; [right; assumption|assumption].
Qed.

(** The postings collected, and what they say of a series. *)
Record collected (must : gset bytes) (ms : list Matcher) (A N : list P) (ls ds : list (list Z)) : Prop := {
  co_add : Forall2 (fun p l => Rep p 0 0 l) A ls;
  co_sub : Forall2 (fun p l => Rep p 0 0 l) N ds;
  co_in : Forall (fun l => forall z, z ∈ l -> z ∈ all) ls;
  co_sound : forall z, z ∈ all -> Forall (fun l => z ∈ l) ls -> Forall (fun d => z ∉ d) ds -> Forall (passes z) ms;
  co_complete : forall z, z ∈ all -> Forall (passes z) ms -> (forall n, n ∈ must -> set_in z n) -> Forall (fun l => z ∈ l) ls /\ Forall (fun d => z ∉ d) ds;
  co_some : Exists (fun m => ~ passes_empty m) ms -> ls <> [] }.

Lemma collected_nil must : collected must [] [] [] [] [].
Proof. constructor; auto. intros H. inversion H. Qed.

Lemma collected_skip must m ms A N ls ds : effect must m Skip -> collected must ms A N ls ds -> collected must (m :: ms) A N ls ds.
Proof.
  intros [He Hz] [C1 C2 C3 C4 C5 C6]. constructor; auto.
  - intros z Hin Hp. apply Forall_cons_1 in Hp as [_ Hp]. auto.
  - intros Hx. apply Exists_cons in Hx as [Hx|Hx]; [contradiction|auto].
Qed.

Lemma collected_add must m ms p A N ls ds : effect must m (Add p) -> collected must ms A N ls ds -> exists l, collected must (m :: ms) (p :: A) N (l :: ls) ds.
Proof.
  intros (Hm & l & Hr & Hl) [C1 C2 C3 C4 C5 C6]. exists l. constructor; auto.
  - constructor; [intros z Hz; apply Hl, Hz|exact C3].
  - intros z Hin Hz Hd. apply Forall_cons_1 in Hz as [Hz1 Hz2]. constructor; [apply Hl, Hz1|auto].
  - intros z Hin Hp Hs. apply Forall_cons_1 in Hp as [Hp1 Hp2]. destruct (C5 z Hin Hp2 Hs) as [H1 H2]. split; [constructor; [apply Hl; auto|exact H1]|exact H2].
Qed.

Lemma collected_subtract must m ms p A N ls ds : tests m -> effect must m (Subtract p) -> collected must ms A N ls ds -> exists d, collected must (m :: ms) A (p :: N) ls (d :: ds).
Proof.
  intros T (He & d & Hr & Hd) [C1 C2 C3 C4 C5 C6]. exists d. constructor; auto.
  - intros z Hin Hz Hn. apply Forall_cons_1 in Hn as [Hn1 Hn2]. constructor; [|auto].
    destruct (tests_dec m _ T (ix_values_utf8 z (m_Name m) Hin)) as [H|H]; [exact H|]. exfalso. apply Hn1, Hd. auto.
  - intros z Hin Hp Hs. apply Forall_cons_1 in Hp as [Hp1 Hp2]. destruct (C5 z Hin Hp2 Hs) as [H1 H2]. split; [exact H1|]. constructor; [|exact H2].
    intros Hz. apply Hd in Hz as [_ Hz]. exact (Hz Hp1).
  - intros Hx. apply Exists_cons in Hx as [Hx|Hx]; [contradiction|auto].
Qed.

Lemma collect_spec ctx must ms : (forall i, ctx i = None) -> Forall matcher_good ms -> Forall (fun m => ~ passes_empty m -> m_Name m ∈ must) ms ->
  forall i its notIts, exists r, collect (range_set := range_set) ctx i ix must ms its notIts = Ret (inr r)
  /\ match r with
     | None => exists m, m ∈ ms /\ m_Name m ∈ must /\ forall z, z ∈ all -> set_in z (m_Name m) -> ~ passes z m
     | Some (its', notIts') => exists A N ls ds, its' = its ++ A /\ notIts' = notIts ++ N /\ collected must ms A N ls ds
     end.
Proof.
  intros Hctx Hms. induction Hms as [|m ms [Hok Hn] _ IH]; intros Hmust i its notIts; cbn [collect].
  - eexists. split; [reflexivity|]. exists [], [], [], []. rewrite !app_nil_r. split; [reflexivity|]. split; [reflexivity|]. apply collected_nil.
  - apply Forall_cons_1 in Hmust as [Hm Hmust]. rewrite Hctx.
    destruct (matcher_effect must m Hok Hn Hm) as (a & -> & He). cbn [outcome_bind]. destruct a as [|p|p|].
    + destruct (IH Hmust (S i) its notIts) as (r & -> & Hr). exists r. split; [reflexivity|]. destruct r as [[its' notIts']|].
      * destruct Hr as (A & N & ls & ds & -> & -> & C). exists A, N, ls, ds. split; [reflexivity|]. split; [reflexivity|]. apply collected_skip; assumption.
      * destruct Hr as (m0 & H & H'). exists m0. split; [right; exact H|exact H'].
    + destruct (IH Hmust (S i) (its ++ [p]) notIts) as (r & -> & Hr). exists r. split; [reflexivity|]. destruct r as [[its' notIts']|].
      * destruct Hr as (A & N & ls & ds & -> & -> & C). destruct (collected_add must m ms p A N ls ds He C) as (l & C').
        exists (p :: A), N, (l :: ls), ds. rewrite <- app_assoc. auto.
      * destruct Hr as (m0 & H & H'). exists m0. split; [right; exact H|exact H'].
    + destruct (IH Hmust (S i) its (notIts ++ [p])) as (r & -> & Hr). exists r. split; [reflexivity|]. destruct r as [[its' notIts']|].
      * destruct Hr as (A & N & ls & ds & -> & -> & C). destruct (collected_subtract must m ms p A N ls ds (proj1 Hok) He C) as (d & C').
        exists A, (p :: N), ls, (d :: ds). rewrite <- app_assoc. auto.
      * destruct Hr as (m0 & H & H'). exists m0. split; [right; exact H|exact H'].
    + exists None. split; [reflexivity|]. exists m. split; [left|exact He].
Qed.

(** ** All of it *)

Lemma must_set (must : gset bytes) (ms : list Matcher) z n : (forall n, n ∈ must <-> exists m, m ∈ ms /\ m_Name m = n /\ ~ passes_empty m) ->
  Forall (passes z) ms -> n ∈ must -> set_in z n.
Proof.
  intros Hmust Hp Hn. apply Hmust in Hn as (m & Hm & <- & He). intros E0. apply He.
  pose proof (proj1 (Forall_forall _ _) Hp m Hm) as H. unfold passes in H. rewrite E0 in H. exact H.
Qed.

(** The postings to begin with: all, if there are only matchers that remove. *)
Lemma base_postings (tagged : list (Matcher * bool)) :
  exists its ls, (if existsb snd tagged && negb (existsb (fun t => negb (snd t)) tagged)
    then on_ok (ix_Postings ix [] [[]]) (fun p => [p]) else Ret (inr [])) = Ret (inr its)
  /\ Forall2 (fun p l => Rep p 0 0 l) its ls /\ Forall (eq all) ls
  /\ (ls <> [] \/ tagged = [] \/ exists m, (m, false) ∈ tagged).
Proof.
  destruct (existsb snd tagged) eqn:E1; destruct (existsb (fun t => negb (snd t)) tagged) eqn:E2; cbn [andb negb].
  2: { destruct ix_all_postings as (p & -> & Hr). exists [p], [all]. split; [reflexivity|]. split; [constructor; [exact Hr|constructor]|]. split; [repeat constructor|]. left. discriminate. }
  1, 2: exists [], []; (split; [reflexivity|]); (split; [constructor|]); (split; [constructor|]); right; right;
    apply existsb_exists in E2 as ([m b] & Hin & Hb); cbn in Hb; destruct b; [discriminate|]; exists m; apply list_elem_of_In; exact Hin.
  exists [], []. split; [reflexivity|]. split; [constructor|]. split; [constructor|]. right. left.
  destruct tagged as [|[m b] l]; [reflexivity|]. cbn in E1, E2. destruct b; discriminate.
Qed.

Lemma select_members (its notIts : list P) ls ds : its <> [] -> Forall2 (fun p l => Rep p 0 0 l) its ls -> Forall2 (fun p l => Rep p 0 0 l) notIts ds ->
  exists l, selects (fold_left without notIts (intersect its)) l /\ forall z, z ∈ l <-> Forall (fun l => z ∈ l) ls /\ Forall (fun d => z ∉ d) ds.
Proof.
  intros Hne H1 H2. destruct (intersect_selects its ls Hne H1) as (l1 & Hs1 & Hl1). destruct (fold_without_selects notIts ds _ l1 H2 Hs1) as (l2 & Hs2 & Hl2).
  exists l2. split; [exact Hs2|]. intros z. rewrite Hl2, Hl1. reflexivity.
Qed.

Context {Sort : StableSort} {SOK : StableSortOK Sort}.

Lemma sort_stable_map_perm (tagged : list (Matcher * bool)) : map fst (sort_stable_func intersecting_first tagged) ≡ₚ map fst tagged.
Proof. apply Permutation_map, sort_stable_perm. Qed.

Lemma PostingsForMatchers_ok ctx ms : (forall i, ctx i = None) -> ms <> [] -> Forall matcher_good ms ->
  exists s l, PostingsForMatchers (range_set := range_set) ctx ix ms = Ret (inr s) /\ selects s l /\ forall z, z ∈ l <-> z ∈ all /\ Forall (passes z) ms.
Proof.
  intros Hctx Hne Hms. unfold PostingsForMatchers.
  replace ((length ms =? 1)%nat && forallb is_all_postings ms) with false.
  2: { symmetry. apply andb_false_iff. right. destruct Hms as [|m ms [_ Hn] _]; [congruence|]. cbn. unfold is_all_postings. rewrite (bool_decide_eq_false_2 _ Hn). reflexivity. }
  destruct (labelMustBeSet_spec ms Hms) as (must & -> & Hmust). cbn [outcome_bind].
  destruct (classify_spec must ms Hms) as (tagged & -> & Hfst & Htag). cbn [outcome_bind].
  destruct (base_postings tagged) as (its & ls & -> & Hits & Hall & Hwhy). cbn [outcome_bind].
  set (sorted := map fst (sort_stable_func intersecting_first tagged)). assert (Hperm : sorted ≡ₚ ms) by (unfold sorted; rewrite sort_stable_map_perm, Hfst; reflexivity).
  assert (Hforced : Forall (fun m => ~ passes_empty m -> m_Name m ∈ must) ms) by (apply Forall_forall; intros m Hm He; apply Hmust; eauto).
  rewrite <- Hperm in Hforced, Hms. destruct (collect_spec ctx must sorted Hctx Hms Hforced 0%nat its []) as (r & -> & Hr). cbn [outcome_bind].
  destruct r as [[its' notIts']|].
  - destruct Hr as (A & N & lsA & ds & -> & -> & [C1 C2 C3 C4 C5 C6]).
    assert (Hsome : ls ++ lsA <> []).
    { destruct Hwhy as [H|[->|(m & Hm)]]; [destruct ls; [congruence|discriminate]|cbn in Hfst; congruence|]. intros [_ H]%app_eq_nil. refine (C6 _ H).
      apply Htag in Hm as [_ Hm]. apply Hmust in Hm as (m' & Hm' & _ & He). apply Exists_exists. exists m'. rewrite Hperm. auto. }
    destruct (select_members (its ++ A) N (ls ++ lsA) ds) as (l & Hs & Hl); [|apply Forall2_app; assumption|exact C2|].
    { intros E0. apply Hsome. apply (f_equal length) in E0. rewrite length_app in E0. cbn in E0. apply Forall2_length in Hits, C1. apply length_zero_iff_nil. rewrite length_app. lia. }
    exists (fold_left without N (intersect (its ++ A))), l. split; [reflexivity|]. split; [exact Hs|]. intros z. rewrite Hl, Forall_app, <- Hperm. split.
    + intros [[H1 H2] H3]. assert (Hin : z ∈ all).
      { destruct ls as [|l0 ls]; [|apply Forall_cons_1 in Hall as [-> _]; apply Forall_cons_1 in H1 as [H1 _]; exact H1].
        destruct lsA as [|l1 lsA]; [destruct (Hsome eq_refl)|]. apply Forall_cons_1 in C3 as [C3 _]. apply Forall_cons_1 in H2 as [H2 _]. apply C3, H2. }
      split; [exact Hin|]. apply C4; assumption.
    + intros [Hin Hp]. destruct (C5 z Hin Hp) as [H1 H2]; [intros n; apply (must_set must ms z n Hmust); rewrite <- Hperm; exact Hp|].
      split; [split; [|exact H1]|exact H2]. eapply Forall_impl; [exact Hall|]. intros l0 <-. exact Hin.
  - destruct Hr as (m & Hm & Hin & Hfail). destruct ix_all_postings as (p & _ & Hp). exists EmptySelection, []. split; [reflexivity|]. split; [apply selects_empty, (rep_bound p _ Hp)|].
    intros z. split; [intros H; apply not_elem_of_nil in H as []|]. intros [Hz Hpass]. exfalso. refine (Hfail z Hz _ _).
    + exact (must_set must ms z _ Hmust Hpass Hin).
    + rewrite Hperm in Hm. exact (proj1 (Forall_forall _ _) Hpass m Hm).
Qed.
End spec.
