(* ===== verification/HeadIndex.v ===== *)
(** * The index reader of the head block ([tsdb/head_read.go], [tsdb/index/postings.go])

    The methods of [MemPostings] that return iterators, which [headIndexReader]
    hands on, implement the interface of [Querier]: with the contract of
    [MemPostings] they obey the laws of [IndexReaderOK], so that selecting series
    of the head by matchers is right.  [ctx] is what polling the context returns;
    [range_lists] is the arbitrary order in which Go ranges over the lists of a map. *)
From stdpp Require Import base list numbers gmap strings.
From Stdlib Require Import ZArith Lia.
From S2P Require Import Prelude Utf8 Regexp RegexpSound RegexpMatchers RegexpFast Matcher Postings MemPostings Merge Querier QuerierSpec.

(** A list of numbers that are no bytes is no Go string: there are no postings for it. *)
Definition go_string (v : bytes) : option string := if forallb (fun b => (0 <=? b) && (b <? 256)) v then Some (to_string v) else None.

Definition checkContextEveryNIterations : Z := 128.

Section operations.
Context {LL : LoserLib}.
Variable ctx : nat -> option string.
Variable range_lists : gmap string (list Z) -> list (list Z).

Abbreviation HeadPostings := (errPostings + (ListPostings + mergedPostings ListPostings))%type.

#[export] Instance HeadPostings_empty : EmptyTest HeadPostings := fun p => match p with inl e => is_sentinel e | inr _ => false end.

Definition mp_Postings (p : MemPostings) (name : bytes) (values : list bytes) : HeadPostings :=
  Merge (postings_lists p (to_string name) (omap go_string values)).

(** The values that match, or the error of the context. *)
Fixpoint matching_values (i : nat) (match_ : bytes -> outcome bool) (vals : list string) : outcome (string + list string) :=
  match vals with
  | [] => Ret (inr [])
  | v :: vals =>
      match (if Z.of_nat i mod checkContextEveryNIterations =? 0 then ctx i else None) with
      | Some e => Ret (inl e)
      | None => let* b := match_ (of_string v) in let* r := matching_values (S i) match_ vals in
                Ret (match r with inl e => inl e | inr vs => inr (if b : bool then v :: vs else vs) end)
      end
  end.

Definition mp_PostingsForLabelMatching (p : MemPostings) (name : bytes) (match_ : bytes -> outcome bool) : outcome HeadPostings :=
  let* r := matching_values 0 match_ (default [] (mp_lvs p !! to_string name)) in
  Ret (match r with
       | inl e => inl (ErrPostings e)
       | inr [] => inl EmptyPostings
       | inr vals => Merge (postings_lists p (to_string name) vals)
       end).

Definition mp_PostingsForAllLabelValues (p : MemPostings) (name : bytes) : HeadPostings :=
  Merge (map NewListPostings (List.filter (fun refs => (0 <? length refs)%nat) (range_lists (default ∅ (mp_m p !! to_string name))))).

#[export] Instance headIndexReader : IndexReader MemPostings HeadPostings := {|
  ix_Postings := fun p name values => Ret (inr (mp_Postings p name values));
  ix_PostingsForLabelMatching := mp_PostingsForLabelMatching;
  ix_PostingsForAllLabelValues := fun p name => Ret (mp_PostingsForAllLabelValues p name) |}.
End operations.

(** ** The laws *)

#[local] Arguments of_string : simpl never.
#[local] Arguments to_string : simpl never.

(** The series of an index have references that are in range, are all under the
    key of all postings, and have one value for each label, which is not empty
    and valid UTF-8. *)
Record index_ok (maxref : Z) (s : index) : Prop := {
  io_range : forall z l, (z, l) ∈ s -> 1 <= z <= maxref;
  io_all : forall z l, (z, l) ∈ s -> (z, allPostingsKey) ∈ s;
  io_one : forall z n v v', (z, (n, v)) ∈ s -> (z, (n, v')) ∈ s -> v = v';
  io_value : forall z n v, (z, (n, v)) ∈ s -> n <> ""%string -> v <> ""%string /\ valid_utf8 (of_string v) }.

(** The value that a series has of a label, empty if it has none. *)
Definition label_of (s : index) (z : Z) (n : bytes) : bytes :=
  match filter (fun x => x.1 = z /\ x.2.1 = to_string n) (elements s) with x :: _ => of_string x.2.2 | [] => [] end.

Lemma label_of_some maxref s z n v : index_ok maxref s -> (z, (to_string n, v)) ∈ s -> label_of s z n = of_string v.
Proof.
  intros Hok Hin. unfold label_of. destruct (filter _ (elements s)) as [|[z' [n' v']] l] eqn:E.
  - exfalso. apply (not_elem_of_nil (z, (to_string n, v))). rewrite <- E. apply list_elem_of_filter. split; [auto|]. apply elem_of_elements. exact Hin.
  - assert (H : (z', (n', v')) ∈ (z', (n', v')) :: l) by left. rewrite <- E in H. apply list_elem_of_filter in H as [[Hz Hn] H]. cbn in Hz, Hn. subst z' n'.
    apply elem_of_elements in H. cbn. f_equal. eapply io_one; eassumption.
Qed.

Lemma label_of_elem s z n : label_of s z n <> [] -> exists v, (z, (to_string n, v)) ∈ s /\ label_of s z n = of_string v.
Proof.
  unfold label_of. destruct (filter _ (elements s)) as [|[z' [n' v']] l] eqn:E; [congruence|]. intros _.
  assert (H : (z', (n', v')) ∈ (z', (n', v')) :: l) by left. rewrite <- E in H. apply list_elem_of_filter in H as [[Hz Hn] H]. cbn in Hz, Hn. subst z' n'.
  apply elem_of_elements in H. eauto.
Qed.

Lemma to_string_empty n : n <> [] -> to_string n <> ""%string.
Proof. destruct n; [congruence|discriminate]. Qed.
Lemma of_string_empty v : v <> ""%string -> of_string v <> [].
Proof. destruct v; [congruence|discriminate]. Qed.

Lemma go_string_spec b v : go_string b = Some v <-> b = of_string v.
Proof.
  unfold go_string. destruct (forallb _ b) eqn:E.
  - assert (H : Forall is_u8 b).
    { apply List.Forall_forall. intros x Hx. rewrite forallb_forall in E. specialize (E x Hx). unfold is_u8. apply andb_prop in E as [E1%Z.leb_le E2%Z.ltb_lt]. lia. }
    split; [intros [= <-]; rewrite of_to_string by exact H; reflexivity|intros ->; rewrite to_of_string; reflexivity].
  - split; [discriminate|]. intros ->. rewrite (proj2 (forallb_forall _ _)) in E; [discriminate|]. intros x Hx.
    pose proof (proj1 (List.Forall_forall _ _) (of_string_u8 v) x Hx) as H. unfold is_u8 in H. apply andb_true_intro. rewrite Z.leb_le, Z.ltb_lt. lia.
Qed.

Section laws.
Context {LL : LoserLib} {LOK : LoserLibOK} {maxref : Z} {B : BelowMax maxref}.
Variable ctx : nat -> option string.
Variable range_lists : gmap string (list Z) -> list (list Z).
Hypothesis ctx_open : forall i, ctx i = None.
Hypothesis range_perm : forall e, range_lists e ≡ₚ (map_to_list e).*2.
Context {p : MemPostings} {s : index} (Hrep : represents p s) (Hok : index_ok maxref s).

Definition all_refs : list Z := list_of p allPostingsKey.

Lemma refs_all z : z ∈ all_refs <-> (z, allPostingsKey) ∈ s.
Proof. apply Hrep. Qed.

Lemma list_in z l : z ∈ list_of p l -> z ∈ all_refs.
Proof. intros H. apply refs_all. eapply io_all; [exact Hok|]. apply Hrep. exact H. Qed.

Lemma list_wf l : wf_abs maxref 0 0 (list_of p l).
Proof.
  pose proof (B : 0 <= maxref < MaxUint64). apply wf_abs_live; [lia| |].
  - apply incr_cons; [destruct Hrep as [[_ Hi] _]; eapply lof_incr; exact Hi|]. intros z Hz. apply Hrep, (io_range _ _ Hok) in Hz. lia.
  - constructor; [lia|]. apply Forall_forall. intros z Hz. apply Hrep, (io_range _ _ Hok) in Hz. lia.
Qed.

(** Lists of the index merge to the series in any of them. *)
Lemma merge_lists (ls : list (list Z)) : Forall (fun li => exists l, li = list_of p l) ls ->
  exists l, Rep (Merge (map NewListPostings ls)) 0 0 l /\ forall z, z ∈ l <-> Exists (fun li => z ∈ li) ls.
Proof.
  intros Hls. set (l := List.filter (fun z => existsb (fun li => existsb (Z.eqb z) li) ls) all_refs).
  assert (Hl : forall z, z ∈ l <-> Exists (fun li => z ∈ li) ls).
  { intros z. unfold l. rewrite elem_filter, existsb_exists, Exists_exists. split.
    - intros [_ (li & Hin & Hz)]. exists li. split; [apply list_elem_of_In; exact Hin|apply existsb_elem; exact Hz].
    - intros (li & Hin & Hz). split; [|exists li; split; [apply list_elem_of_In; exact Hin|apply existsb_elem; exact Hz]].
      destruct (proj1 (Forall_forall _ _) Hls li Hin) as [k ->]. eapply list_in. exact Hz. }
  exists l. split; [|exact Hl]. apply (Merge_rep _ ls); [|apply wf_abs_filter, list_wf|exact Hl].
  clear l Hl. induction Hls as [|li ls [k ->] _ IH]; cbn [map]; constructor; [|exact IH]. split; [apply list_wf|auto].
Qed.

Lemma lookup_list n v : default [] (default ∅ (mp_m p !! n) !! v) = list_of p (n, v).
Proof. reflexivity. Qed.

Lemma postings_lists_rep n vs : exists l, Rep (Merge (postings_lists p n vs)) 0 0 l /\ forall z, z ∈ l <-> exists v, v ∈ vs /\ (z, (n, v)) ∈ s.
Proof.
  assert (E : postings_lists p n vs = map NewListPostings (omap (fun v => default ∅ (mp_m p !! n) !! v) vs)).
  { unfold postings_lists. induction vs as [|v vs IH]; [reflexivity|]. cbn. destruct (default ∅ (mp_m p !! n) !! v); cbn; rewrite IH; reflexivity. }
  rewrite E. destruct (merge_lists (omap (fun v => default ∅ (mp_m p !! n) !! v) vs)) as (l & Hr & Hl).
  - apply Forall_forall. intros li Hli. apply list_elem_of_omap in Hli as (v & _ & Ev). exists (n, v). rewrite <- lookup_list, Ev. reflexivity.
  - exists l. split; [exact Hr|]. intros z. rewrite Hl, Exists_exists. split.
    + intros (li & Hli & Hz). apply list_elem_of_omap in Hli as (v & Hv & Ev). exists v. split; [exact Hv|]. apply Hrep. rewrite <- lookup_list, Ev. exact Hz.
    + intros (v & Hv & Hz). apply Hrep in Hz. rewrite <- lookup_list in Hz. destruct (default ∅ (mp_m p !! n) !! v) as [li|] eqn:Ev; [|apply not_elem_of_nil in Hz as []].
      exists li. split; [|exact Hz]. apply list_elem_of_omap. eauto.
Qed.

(** Having a value of a name, among values that satisfy [Q]. *)
Lemma has_value z n (Q : bytes -> Prop) : n <> [] ->
  (exists v, (z, (to_string n, v)) ∈ s /\ Q (of_string v)) <-> z ∈ all_refs /\ label_of s z n <> [] /\ Q (label_of s z n).
Proof.
  intros Hn. split.
  - intros (v & Hv & HQ). rewrite (label_of_some maxref s z n v Hok Hv). split; [apply refs_all; eapply io_all; eassumption|].
    split; [|exact HQ]. apply of_string_empty. eapply io_value; [exact Hok|exact Hv|apply to_string_empty, Hn].
  - intros (_ & Hne & HQ). destruct (label_of_elem s z n Hne) as (v & Hv & E). rewrite E in HQ. eauto.
Qed.

Lemma values_of_name n v : v ∈ default [] (mp_lvs p !! n) <-> exists z, (z, (n, v)) ∈ s.
Proof. destruct (label_values_spec p s n Hrep) as [_ H]. rewrite <- H. reflexivity. Qed.

Lemma matching_values_spec match_ g i vals : (forall v, v ∈ vals -> match_ (of_string v) = Ret (g (of_string v))) ->
  matching_values ctx i match_ vals = Ret (inr (List.filter (fun v => g (of_string v)) vals)).
Proof.
  revert i. induction vals as [|v vals IH]; intros i H; [reflexivity|]. cbn [matching_values List.filter]. rewrite ctx_open.
  replace (if (_ : bool) then None else None) with (@None string) by (destruct (_ =? 0); reflexivity).
  rewrite (H v ltac:(left)). cbn [outcome_bind]. rewrite IH by (intros v' Hv'; apply H; right; exact Hv'). reflexivity.
Qed.

Lemma head_all : exists q, ix_Postings (IndexReader := headIndexReader ctx range_lists) p [] [[]] = Ret (inr q) /\ Rep q 0 0 all_refs.
Proof.
  eexists. split; [reflexivity|]. destruct (postings_lists_rep "" [""%string]) as (l & Hr & Hl). unfold mp_Postings. cbn. 
  assert (l = all_refs) as <-; [|exact Hr]. pose proof (rep_wf _ _ _ _ Hr) as (_ & _ & Hi & _). apply incr_ext.
  - apply (incr_cons_inv _ _ Hi).
  - destruct Hrep as [[_ Hinv] _]. eapply lof_incr. exact Hinv.
  - intros z. rewrite Hl, refs_all. split; [intros (v & Hv & Hz); apply list_elem_of_singleton in Hv as ->; exact Hz|intros Hz; exists ""%string; split; [left|exact Hz]].
Qed.

#[export] Instance head_IndexReaderOK : IndexReaderOK (IR := headIndexReader ctx range_lists) maxref p all_refs (label_of s).
Proof.
  constructor.
  - exact head_all.
  - intros n vs Hn. destruct (postings_lists_rep (to_string n) (omap go_string vs)) as (l & Hr & Hl). exists (mp_Postings p n vs), l. split; [reflexivity|]. split; [exact Hr|].
    intros z. rewrite Hl. rewrite <- (has_value z n (fun b => b ∈ vs) Hn). split.
    + intros (v & Hv & Hz). apply list_elem_of_omap in Hv as (b & Hb & Ev). apply go_string_spec in Ev as ->. eauto.
    + intros (v & Hz & Hv). exists v. split; [|exact Hz]. apply list_elem_of_omap. exists (of_string v). split; [exact Hv|]. apply go_string_spec. reflexivity.
  - intros n f g Hn Hf. destruct (postings_lists_rep (to_string n) (List.filter (fun v => g (of_string v)) (default [] (mp_lvs p !! to_string n)))) as (l & Hr & Hl).
    cbn. unfold mp_PostingsForLabelMatching. rewrite (matching_values_spec f g).
    2: { intros v Hv. apply values_of_name in Hv as [z Hz]. rewrite <- (label_of_some maxref s z n v Hok Hz). destruct (proj1 (has_value z n (fun _ => True) Hn) (ex_intro _ v (conj Hz I))) as (H1 & H2 & _). apply Hf; assumption. }
    cbn [outcome_bind]. eexists _, l. split; [reflexivity|]. split.
    + destruct (List.filter _ _) as [|v vs] eqn:E; [exact Hr|exact Hr].
    + intros z. rewrite Hl, <- (has_value z n (fun b => g b = true) Hn). split; intros (v & H1 & H2); exists v.
      * apply list_elem_of_In, filter_In in H1 as [_ H1]. auto.
      * split; [|exact H1]. apply list_elem_of_In, filter_In. split; [|exact H2]. apply list_elem_of_In, values_of_name. eauto.
  - intros n Hn. cbn. unfold mp_PostingsForAllLabelValues. set (e := default ∅ (mp_m p !! to_string n)).
    destruct (merge_lists (List.filter (fun refs => (0 <? length refs)%nat) (range_lists e))) as (l & Hr & Hl).
    + apply Forall_forall. intros li Hli. apply list_elem_of_In, filter_In in Hli as [Hli _]. apply list_elem_of_In in Hli. rewrite range_perm in Hli.
      apply list_elem_of_fmap in Hli as ([v li'] & -> & Hli). apply elem_of_map_to_list in Hli. exists (to_string n, v). rewrite <- lookup_list. fold e. rewrite Hli. reflexivity.
    + eexists _, l. split; [reflexivity|]. split; [exact Hr|]. intros z. rewrite Hl, Exists_exists. pose proof (has_value z n (fun _ => True) Hn) as Hv. split.
      * intros (li & Hli & Hz). apply list_elem_of_In, filter_In in Hli as [Hli _]. apply list_elem_of_In in Hli. rewrite range_perm in Hli.
        apply list_elem_of_fmap in Hli as ([v li'] & -> & Hli). apply elem_of_map_to_list in Hli. destruct Hv as [Hv _]. destruct Hv as (H1 & H2 & _); [|auto].
        exists v. split; [|exact I]. apply Hrep. rewrite <- lookup_list. fold e. rewrite Hli. exact Hz.
      * intros [H1 H2]. destruct Hv as [_ Hv]. destruct Hv as (v & Hin & _); [auto|]. apply Hrep in Hin. rewrite <- lookup_list in Hin. fold e in Hin.
        destruct (e !! v) as [li|] eqn:Ev; [|apply not_elem_of_nil in Hin as []]. exists li. split; [|exact Hin]. apply list_elem_of_In, filter_In. split.
        -- apply list_elem_of_In. rewrite range_perm. apply list_elem_of_fmap. exists (v, li). split; [reflexivity|]. apply elem_of_map_to_list. exact Ev.
        -- cbn in Hin. destruct li; [apply not_elem_of_nil in Hin as []|reflexivity].
  - intros z n Hz. unfold label_of. destruct (filter _ (elements s)) as [|[z' [n' v']] l] eqn:E; [exists []; auto|].
    assert (H : (z', (n', v')) ∈ (z', (n', v')) :: l) by left. rewrite <- E in H. apply list_elem_of_filter in H as [[H1 H2] H]. cbn in H1, H2. subst z' n'. apply elem_of_elements in H.
    cbn. destruct (decide (to_string n = "")%string) as [En|En]; [|eapply io_value; eassumption].
    rewrite En in H. rewrite (io_one _ _ Hok _ _ _ _ H (io_all _ _ Hok _ _ H)). exists []. auto.
Qed.
End laws.

(** ** An example *)

#[local] Existing Instance plain_Unicode.

Lemma ex_DotLaws : DotLaws plain_Unicode ex_RegexpLib.
Proof.
  constructor; (eexists; split; [reflexivity|]); intros rs; cbn; unfold node.
  - apply star_any_all.
  - unfold language. rewrite plus_language by reflexivity. split; [intros [H _]; exact H|auto].
Qed.

(** Sorting by insertion. *)
Fixpoint insert_by {A} (cmp : A -> A -> Z) (x : A) (l : list A) : list A :=
  match l with [] => [x] | y :: l => if cmp y x <=? 0 then y :: insert_by cmp x l else x :: y :: l end.
Definition insertion_sort : StableSort := fun A cmp l => fold_left (fun acc x => insert_by cmp x acc) l [].

Lemma insert_by_perm {A} (cmp : A -> A -> Z) x l : insert_by cmp x l ≡ₚ x :: l.
Proof.
  induction l as [|y l IH]; [reflexivity|]. cbn. destruct (cmp y x <=? 0); [|reflexivity]. rewrite IH. apply perm_swap.
Qed.

#[export] Instance insertion_sort_ok : StableSortOK insertion_sort.
Proof.
  intros A cmp l. unfold sort_stable_func, insertion_sort. rewrite <- (app_nil_r l) at 2. generalize (@nil A). induction l as [|x l IH]; intros acc; [reflexivity|].
  cbn [fold_left app]. rewrite IH, insert_by_perm. symmetry. apply Permutation_middle.
Qed.

Definition ex_series : list mp_op :=
  [OpAdd 7 [("job", "ac"); ("env", "dev")]; OpAdd 4 [("job", "bc"); ("env", "prod")]; OpAdd 9 [("job", "bc")]; OpAdd 2 [("job", "c")]]%string.
Definition first_values (e : gmap string (list Z)) : list string := (map_to_list e).*1.
Definition ex_index : MemPostings := fold_left (mp_step first_values) ex_series NewMemPostings.
Definition ex_pairs : index := fold_left index_step ex_series ∅.
Definition ex_list : list (Z * Label) :=
  [(7, ("", "")); (7, ("job", "ac")); (7, ("env", "dev")); (4, ("", "")); (4, ("job", "bc")); (4, ("env", "prod")); (9, ("", "")); (9, ("job", "bc")); (2, ("", "")); (2, ("job", "c"))]%string.

Lemma ex_pairs_elem x : x ∈ ex_pairs <-> x ∈ ex_list.
Proof.
  unfold ex_pairs, ex_series, ex_list. cbn [fold_left index_step map]. rewrite !elem_of_union, !elem_of_list_to_set, !elem_of_cons. clear. pose proof (not_elem_of_empty (C := index) x). tauto.
Qed.

Lemma ex_index_ok : index_ok 100 ex_pairs.
Proof.
  assert (G : forall P : Z * Label -> Prop, Forall P ex_list -> forall x, x ∈ ex_pairs -> P x).
  { intros P H x Hx. apply ex_pairs_elem in Hx. exact (proj1 (Forall_forall _ _) H x Hx). }
  constructor.
  - intros z l Hz. apply (G (fun x => 1 <= x.1 <= 100)) in Hz; [exact Hz|]. repeat constructor; cbn; lia.
  - intros z l Hz. apply (G (fun x => (x.1, allPostingsKey) ∈ ex_pairs)) in Hz; [exact Hz|]. repeat constructor; apply ex_pairs_elem; cbn; unfold ex_list, allPostingsKey; rewrite ?elem_of_cons; tauto.
  - intros z n v v' Hz Hz'. apply (G (fun x => Forall (fun y => x.1 = y.1 -> x.2.1 = y.2.1 -> x.2.2 = y.2.2) ex_list)) in Hz.
    + apply ex_pairs_elem in Hz'. exact (proj1 (Forall_forall _ _) Hz _ Hz' eq_refl eq_refl).
    + repeat constructor; cbn; congruence.
  - intros z n v Hz Hn. refine (G (fun x => x.2.1 <> ""%string -> x.2.2 <> ""%string /\ valid_utf8 (of_string x.2.2)) _ _ Hz Hn).
    unfold ex_list. repeat apply List.Forall_cons; try apply List.Forall_nil; cbn [fst snd]; intros Hne; try congruence; (split; [discriminate|]);
      (match goal with |- valid_utf8 ?s => exists s; split; [reflexivity|repeat constructor; unfold MaxRune; cbn; lia] end).
Qed.

#[export] Instance below_100 : BelowMax 100.
Proof. unfold BelowMax, MaxUint64. lia. Qed.

(** ** Properties *)

(** C2: select a series by matchers in the index of the head, after any sequence
    of additions and deletions of series that leaves every series with all of its
    labels, one value for each, not empty and valid UTF-8.  For any matchers that
    [NewMatcher] makes, on labels with names, whose regular expressions are valid UTF-8
    that the parser accepts and have no part that ignores case or names a surrogate
    (see C10), [PostingsForMatchers] neither
    panics nor fails, and expanding its iterator ends, without an error, with the
    references of exactly the series whose values pass every matcher, a label that
    a series does not have counting as the empty value; each appears once, in
    increasing order.  The order in which Go ranges over maps, the sort and the
    tree of the merged iterators do not matter. *)
Theorem head_index_selects (U : Unicode) (L : RegexpLib) (LOK : RegexpLibOK U L) (Dots : DotLaws U L) (range_set : gset bytes -> list bytes)
    (LL : LoserLib) (TOK : LoserLibOK) (Sort : StableSort) (SOK : StableSortOK Sort) (maxref : Z) (B : BelowMax maxref) (ctx : nat -> option string)
    (range_lists : gmap string (list Z) -> list (list Z)) (range_keys : gmap string (list Z) -> list string) (ops : list mp_op) (ms : list Matcher) :
  (forall X v, v ∈ range_set X <-> v ∈ X) -> (forall i, ctx i = None) ->
  (forall e, range_lists e ≡ₚ (map_to_list e).*2) -> (forall e, range_keys e ≡ₚ (map_to_list e).*1) ->
  let p := fold_left (mp_step range_keys) ops NewMemPostings in
  let s := fold_left index_step ops ∅ in
  ops_ok ∅ ops -> index_ok maxref s -> ms <> [] ->
  Forall (fun m => exists t n v, NewMatcher range_set t n v = Ret (inr m) /\ pattern_ok t v /\ n <> []) ms ->
  exists sel l, PostingsForMatchers (range_set := range_set) (IR := headIndexReader ctx range_lists) ctx p ms = Ret (inr sel)
  /\ yields (fun f => ExpandSelection f sel) (l, None) /\ incr l
  /\ forall z, z ∈ l <-> (z, allPostingsKey) ∈ s /\ Forall (fun m => value_matches (m_Type m) (m_Value m) (label_of s z (m_Name m))) ms.
Proof.
  intros Hset Hctx Hlists Hkeys p s Hops Hok Hne Hms. pose proof (run_represents range_keys Hkeys ops _ _ represents_new Hops) as Hrep. fold p s in Hrep.
  pose proof (head_IndexReaderOK ctx range_lists Hctx Hlists Hrep Hok) as IOK.
  assert (Hgood : Forall (matcher_good (range_set := range_set)) ms).
  { eapply Forall_impl; [exact Hms|]. intros m (t & n & v & E & Hp & Hn). split; [exact (NewMatcher_ok range_set Hset t n v m Hp E)|].
    destruct (NewMatcher_shape range_set t n v m E) as (_ & -> & _). exact Hn. }
  assert (EOK : EmptyTestOK maxref (errPostings + (ListPostings + mergedPostings ListPostings))) by (intros [e|q] l He Hr; [apply Hr|discriminate]).
  clearbody p s.
  destruct (PostingsForMatchers_ok (IR := headIndexReader ctx range_lists) (IOK := IOK) p (all_refs (p := p)) (label_of s) ctx ms Hctx Hne Hgood) as (sel & l & E & Hs & Hl).
  exists sel, l. split; [exact E|]. split; [exact (selects_expand sel l Hs)|]. split.
  - destruct sel as [n x]. pose proof (rep_wf (PostingsOK := sel_ok n) _ _ _ _ Hs) as (_ & _ & Hi & _). apply (incr_cons_inv _ _ Hi).
  - intros z. rewrite Hl, (refs_all Hrep). reflexivity.
Qed.

(** The matchers job=~"[ab]c" and env!="prod". *)
Definition ex_matcher (t : MatchType) (n v : string) : Matcher :=
  match NewMatcher (L := ex_RegexpLib) elements t (of_string n) (of_string v) with Ret (inr m) => m | _ => mkMatcher t [] [] None end.
Definition ex_matchers : list Matcher := [ex_matcher MatchRegexp "job" "[ab]c"; ex_matcher MatchNotEqual "env" "prod"].
Definition ex_lists (e : gmap string (list Z)) : list (list Z) := (map_to_list e).*2.
Definition ex_select : outcome (string + selection (errPostings + (ListPostings + @mergedPostings linear_LoserLib ListPostings))) :=
  PostingsForMatchers (Sort := insertion_sort) (L := ex_RegexpLib) (range_set := elements) (IR := @headIndexReader linear_LoserLib (fun _ => None) ex_lists)
    (fun _ => None) ex_index ex_matchers.

(** The matchers of the example are made by [NewMatcher]. *)
Lemma ex_ops_ok : ops_ok ∅ ex_series.
Proof.
  cbn [ops_ok op_ok ex_series index_step]. repeat split; try (apply (bool_decide_unpack _); vm_compute; exact I);
    intros l _; rewrite ?elem_of_union, ?elem_of_list_to_set, ?elem_of_pairs, ?elem_of_empty; intuition discriminate.
Qed.

Lemma ex_matcher_made t n v :
  match NewMatcher (L := ex_RegexpLib) elements t (of_string n) (of_string v) with Ret (inr _) => true | _ => false end = true ->
  NewMatcher (L := ex_RegexpLib) elements t (of_string n) (of_string v) = Ret (inr (ex_matcher t n v)).
Proof. unfold ex_matcher. destruct (NewMatcher _ _ _ _) as [[e|m]|]; [discriminate|reflexivity|discriminate]. Qed.

Lemma ex_matchers_made : Forall (fun m => exists t n v, NewMatcher (L := ex_RegexpLib) elements t n v = Ret (inr m) /\ pattern_ok (L := ex_RegexpLib) t v /\ n <> []) ex_matchers.
Proof.
  apply List.Forall_cons; [|apply List.Forall_cons; [|apply List.Forall_nil]].
  - exists MatchRegexp, (of_string "job"), (of_string "[ab]c"). split; [apply ex_matcher_made; vm_compute; reflexivity|]. split; [|discriminate].
    intros _. exists (of_string "[ab]c"), (node OpConcat [node OpCharClass [] [97; 98]; node OpLiteral [] [99]] []). split; [vm_compute; reflexivity|]. split; [repeat constructor; unfold MaxRune; cbn; lia|]. split; [vm_compute; reflexivity|]. repeat (constructor; cbn); unfold MaxRune; lia.
  - exists MatchNotEqual, (of_string "env"), (of_string "prod"). split; [apply ex_matcher_made; vm_compute; reflexivity|]. split; [intros [=]|discriminate].
Qed.

Lemma head_index_selects_witness :
  match ex_select with Ret (inr sel) => ExpandSelection 30 sel | _ => None end = Some ([7; 9], None)
  /\ exists sel l, ex_select = Ret (inr sel) /\ yields (fun f => ExpandSelection f sel) (l, None) /\ incr l.
Proof.
  split; [vm_compute; reflexivity|].
  destruct (head_index_selects plain_Unicode ex_RegexpLib ex_RegexpLibOK ex_DotLaws elements linear_LoserLib linear_LoserLibOK insertion_sort insertion_sort_ok 100 below_100
    (fun _ => None) ex_lists first_values ex_series ex_matchers) as (sel & l & E & Hy & Hi & _).
  - intros X v. apply elem_of_elements.
  - reflexivity.
  - reflexivity.
  - reflexivity.
  - exact ex_ops_ok.
  - exact ex_index_ok.
  - discriminate.
  - exact ex_matchers_made.
  - exists sel, l. auto.
Defined.
