(* ===== verification/Heap.v ===== *)
(** * Heaps ([container/heap] of the standard library)

    A binary heap is a list ordered along the paths from its root.  The code
    keeps heaps of pointers to iterators and compares them by where these stand;
    here the comparison [less] is an argument of every operation.  [heap_ok] is
    the order of the heap, [heap_push_ok] and [heap_pop_ok] what the operations
    do to it: they permute, and the root is least. *)
From stdpp Require Import base list numbers.
From Stdlib Require Import ZArith Lia.
From S2P Require Import Prelude.

Section heap.
Context {A : Type} {HA : Inhabited A}.
Variable less : A -> A -> bool.
Implicit Types l : list A.

Definition heap_swap (i j : nat) l : list A := <[i := l !!! j]> (<[j := l !!! i]> l).

(** The parent of an index; in Go [(0 - 1) / 2] is 0, as it is here. *)
Definition parent (j : nat) : nat := ((j - 1) / 2)%nat.

(** [up]; an index has fewer ancestors than its value. *)
Fixpoint heap_up (fuel : nat) (j : nat) l : list A :=
  match fuel with
  | O => l
  | S f => let i := parent j in
           if (i =? j)%nat || negb (less (l !!! j) (l !!! i)) then l else heap_up f i (heap_swap i j l)
  end.

(** [down] on the first [n] elements. *)
Fixpoint heap_down (fuel : nat) (i n : nat) l : list A :=
  match fuel with
  | O => l
  | S f => let j1 := (2 * i + 1)%nat in
           if (n <=? j1)%nat then l
           else let j := if (j1 + 1 <? n)%nat && less (l !!! (j1 + 1)%nat) (l !!! j1) then (j1 + 1)%nat else j1 in
                if negb (less (l !!! j) (l !!! i)) then l else heap_down f j n (heap_swap i j l)
  end.

Definition heap_push l (x : A) : list A := heap_up (S (length l)) (length l) (l ++ [x]).

(** [Pop] of an empty heap panics. *)
Definition heap_pop l : outcome (A * list A) :=
  match l with
  | [] => Panic
  | _ => let n := (length l - 1)%nat in
         let l := heap_down n 0 n (heap_swap 0 n l) in
         Ret (l !!! n, take n l)
  end.

(** ** The order *)

Definition not_above (x y : A) : Prop := less y x = false.

Class LessOK : Prop := {
  not_above_trans x y z : not_above x y -> not_above y z -> not_above x z;
  less_not_above x y : less x y = true -> not_above x y }.

Definition edge l (k : nat) : Prop := not_above (l !!! parent k) (l !!! k).
Definition heap_ok l : Prop := forall k, (0 < k < length l)%nat -> edge l k.

Lemma parent_lt j : (0 < j)%nat -> (parent j < j)%nat.
Proof. intros H. unfold parent. apply Nat.Div0.div_lt_upper_bound; lia. Qed.

Lemma parent_child k i : (0 < k)%nat -> parent k = i <-> k = (2 * i + 1)%nat \/ k = (2 * i + 2)%nat.
Proof.
  intros H. unfold parent. pose proof (Nat.div_mod (k - 1) 2 ltac:(lia)) as E. pose proof (Nat.mod_upper_bound (k - 1) 2 ltac:(lia)).
  split; intros; lia.
Qed.

Lemma length_swap i j l : length (heap_swap i j l) = length l.
Proof. unfold heap_swap. rewrite !length_insert. reflexivity. Qed.

Lemma swap_at i j l k : (i < length l)%nat -> (j < length l)%nat ->
  heap_swap i j l !!! k = if decide (k = i) then l !!! j else if decide (k = j) then l !!! i else l !!! k.
Proof.
  intros Hi Hj. unfold heap_swap. destruct (decide (k = i)) as [->|Hki].
  - rewrite list_lookup_total_insert_eq; [reflexivity|rewrite length_insert; exact Hi].
  - rewrite list_lookup_total_insert_ne by congruence. destruct (decide (k = j)) as [->|Hkj].
    + apply list_lookup_total_insert_eq. exact Hj.
    + apply list_lookup_total_insert_ne. congruence.
Qed.

Lemma swap_perm i j l : (i < length l)%nat -> (j < length l)%nat -> heap_swap i j l ≡ₚ l.
Proof.
  intros Hi Hj. destruct (lookup_lt_is_Some_2 l i Hi) as [x Ex]. destruct (lookup_lt_is_Some_2 l j Hj) as [y Ey].
  unfold heap_swap. rewrite (list_lookup_total_correct l i x Ex), (list_lookup_total_correct l j y Ey).
  exact (Permutation_insert_swap l j i y x Ey Ex).
Qed.

Context {LOK : LessOK}.

Lemma not_above_refl x : not_above x x.
Proof. destruct (less x x) eqn:E; [apply less_not_above in E; exact E|exact E]. Qed.

(** One place [j] where the order may fail: the rest is in order, also without [j]. *)
Definition up_inv l (j : nat) : Prop :=
  (forall k, (0 < k < length l)%nat -> k <> j -> edge l k)
  /\ (forall k, (0 < k < length l)%nat -> parent k = j -> (0 < j)%nat -> not_above (l !!! parent j) (l !!! k)).

Lemma heap_up_ok fuel j l : (j < length l)%nat -> (j < fuel)%nat -> up_inv l j -> heap_ok (heap_up fuel j l) /\ heap_up fuel j l ≡ₚ l.
Proof.
  revert j l. induction fuel as [|f IH]; intros j l Hj Hf [H1 H2]; [lia|]. cbn [heap_up].
  destruct (Nat.eqb_spec (parent j) j) as [E|E]; cbn [orb].
  { split; [|reflexivity]. intros k Hk. apply H1; [exact Hk|]. intros ->. pose proof (parent_lt j ltac:(lia)). lia. }
  assert (Hj0 : (0 < j)%nat) by (destruct j; [exfalso; apply E; reflexivity|lia]). pose proof (parent_lt j Hj0) as Hp.
  destruct (less (l !!! j) (l !!! parent j)) eqn:El; cbn [negb].
  2: { split; [|reflexivity]. intros k Hk. destruct (decide (k = j)) as [->|Hk']; [exact El|apply H1; assumption]. }
  apply less_not_above in El. destruct (IH (parent j) (heap_swap (parent j) j l)) as [IH1 IH2]; [rewrite length_swap; lia|lia| |].
  - assert (Hat : forall k, heap_swap (parent j) j l !!! k = if decide (k = parent j) then l !!! j else if decide (k = j) then l !!! parent j else l !!! k)
      by (intros k; apply swap_at; lia).
    split; rewrite length_swap.
    + intros k Hk Hne. unfold edge. rewrite !Hat. rewrite (decide_False (P := k = parent j)) by exact Hne. pose proof (parent_lt k ltac:(lia)).
      destruct (decide (k = j)) as [->|Hkj].
      * rewrite decide_True by reflexivity. exact El.
      * destruct (decide (parent k = parent j)) as [Ep|Ep].
        -- eapply not_above_trans; [exact El|]. rewrite <- Ep. apply (H1 k Hk Hkj).
        -- destruct (decide (parent k = j)) as [Ek|Ek]; [apply (H2 k Hk Ek Hj0)|apply (H1 k Hk Hkj)].
    + intros k Hk Ek Hp0. rewrite !Hat. pose proof (parent_lt (parent j) Hp0). pose proof (parent_lt k ltac:(lia)).
      rewrite (decide_False (P := parent (parent j) = parent j)), (decide_False (P := parent (parent j) = j)), (decide_False (P := k = parent j)) by lia.
      assert (Hup : not_above (l !!! parent (parent j)) (l !!! parent j)) by (apply (H1 (parent j)); lia).
      destruct (decide (k = j)) as [->|Hkj]; [exact Hup|]. eapply not_above_trans; [exact Hup|]. rewrite <- Ek. apply (H1 k Hk Hkj).
  - split; [exact IH1|]. rewrite IH2. apply swap_perm; lia.
Qed.

(** The order among the first [n], except between [i] and its children. *)
Definition down_inv l (i n : nat) : Prop :=
  (forall k, (0 < k < n)%nat -> parent k <> i -> edge l k)
  /\ (forall k, (0 < k < n)%nat -> parent k = i -> (0 < i)%nat -> not_above (l !!! parent i) (l !!! k)).
Definition ordered_to l (n : nat) : Prop := forall k, (0 < k < n)%nat -> edge l k.

(** The child that [down] looks at is above no child. *)
Lemma least_child l i n j1 : j1 = (2 * i + 1)%nat -> (j1 < n)%nat ->
  let j := if (j1 + 1 <? n)%nat && less (l !!! (j1 + 1)%nat) (l !!! j1) then (j1 + 1)%nat else j1 in
  (0 < j < n)%nat /\ parent j = i /\ forall k, (0 < k < n)%nat -> parent k = i -> not_above (l !!! j) (l !!! k).
Proof.
  intros -> Hn j. assert (Hj : (0 < j < n)%nat /\ (j = 2 * i + 1 \/ j = 2 * i + 2)%nat).
  { unfold j. destruct (Nat.ltb_spec (2 * i + 1 + 1) n); cbn [andb]; [destruct (less _ _)|]; lia. }
  destruct Hj as [Hj Hj']. split; [exact Hj|]. split; [apply parent_child; lia|]. intros k Hk Ek. apply parent_child in Ek; [|lia].
  unfold j. destruct (Nat.ltb_spec (2 * i + 1 + 1) n) as [Hlt|Hge]; cbn [andb].
  - destruct (less (l !!! (2 * i + 1 + 1)%nat) (l !!! (2 * i + 1)%nat)) eqn:El; destruct Ek as [-> | ->];
      replace (2 * i + 2)%nat with (2 * i + 1 + 1)%nat by lia; try apply not_above_refl; [apply less_not_above; exact El|exact El].
  - assert (k = 2 * i + 1)%nat as -> by lia. apply not_above_refl.
Qed.

Lemma heap_down_ok fuel i n l : (n <= length l)%nat -> (i < n)%nat -> (n <= fuel + i)%nat -> down_inv l i n ->
  ordered_to (heap_down fuel i n l) n /\ (forall k, (n <= k)%nat -> heap_down fuel i n l !!! k = l !!! k) /\ heap_down fuel i n l ≡ₚ l.
Proof.
  revert i l. induction fuel as [|f IH]; intros i l Hl Hi Hf [H1 H2]; [lia|]. cbn [heap_down].
  destruct (Nat.leb_spec n (2 * i + 1)) as [Hleaf|Hin].
  { split; [|auto]. intros k Hk. apply H1; [exact Hk|]. intros Ek. apply parent_child in Ek; lia. }
  pose proof (least_child l i n (2 * i + 1) eq_refl Hin) as Hc. set (j := if (2 * i + 1 + 1 <? n)%nat && _ then _ else _) in *. cbv zeta in Hc.
  destruct Hc as (Hj & Hpj & Hleast). pose proof (parent_lt j ltac:(lia)) as Hij. rewrite Hpj in Hij.
  destruct (less (l !!! j) (l !!! i)) eqn:El; cbn [negb].
  2: { split; [|auto]. intros k Hk. destruct (decide (parent k = i)) as [Ek|Ek]; [|apply H1; assumption].
       unfold edge. rewrite Ek. eapply not_above_trans; [exact El|apply Hleast; assumption]. }
  apply less_not_above in El.
  assert (Hat : forall k, heap_swap i j l !!! k = if decide (k = i) then l !!! j else if decide (k = j) then l !!! i else l !!! k)
    by (intros k; apply swap_at; lia).
  destruct (IH j (heap_swap i j l)) as (IH1 & IH2 & IH3); [rewrite length_swap; lia|lia|lia| |].
  - split.
    + intros k Hk Hne. unfold edge. rewrite !Hat. rewrite (decide_False (P := parent k = j)) by exact Hne.
      destruct (decide (k = i)) as [->|Hki].
      * rewrite decide_False by (pose proof (parent_lt i ltac:(lia)); lia). apply (H2 j); [exact Hj|exact Hpj|lia].
      * destruct (decide (parent k = i)) as [Ek|Ek].
        -- destruct (decide (k = j)) as [->|Hkj]; [exact El|apply Hleast; assumption].
        -- rewrite decide_False by (intros ->; congruence). apply (H1 k Hk Ek).
    + intros k Hk Ek Hj0. rewrite !Hat, Hpj. pose proof (parent_lt k ltac:(lia)). rewrite (decide_True (P := i = i)) by reflexivity.
      rewrite (decide_False (P := k = i)), (decide_False (P := k = j)) by lia. rewrite <- Ek. apply (H1 k Hk). lia.
  - split; [exact IH1|]. split; [|rewrite IH3; apply swap_perm; lia]. intros k Hk. rewrite (IH2 k Hk), Hat. rewrite !decide_False by lia. reflexivity.
Qed.

(** ** The operations *)

Lemma heap_root l k : heap_ok l -> (k < length l)%nat -> not_above (l !!! 0%nat) (l !!! k).
Proof.
  intros H. induction k as [k IH] using lt_wf_ind. intros Hk. destruct (decide (k = 0%nat)) as [->|Hk0]; [apply not_above_refl|].
  pose proof (parent_lt k ltac:(lia)). eapply not_above_trans; [apply (IH (parent k)); lia|]. apply (H k). lia.
Qed.

Lemma heap_least l x y : heap_ok l -> head l = Some x -> y ∈ l -> not_above x y.
Proof.
  intros H Hx Hy. apply list_elem_of_lookup in Hy as [k Hk]. destruct l as [|z l]; [discriminate|]. injection Hx as ->.
  rewrite <- (list_lookup_total_correct _ _ _ Hk). apply (heap_root _ k H). eapply lookup_lt_Some. exact Hk.
Qed.

Lemma heap_push_ok l x : heap_ok l -> heap_ok (heap_push l x) /\ heap_push l x ≡ₚ x :: l.
Proof.
  intros H. unfold heap_push. destruct (heap_up_ok (S (length l)) (length l) (l ++ [x])) as [H1 H2]; [rewrite length_app; cbn; lia|lia| |].
  - split; rewrite length_app; cbn [length]; intros k Hk.
    + intros Hne. assert (Hk' : (0 < k < length l)%nat) by lia. pose proof (parent_lt k ltac:(lia)). unfold edge.
      rewrite !lookup_total_app_l by lia. apply (H k Hk').
    + intros E. apply parent_child in E; lia.
  - split; [exact H1|]. rewrite H2. symmetry. apply Permutation_cons_append.
Qed.

Lemma heap_pop_ok l : heap_ok l -> l <> [] ->
  exists x l', heap_pop l = Ret (x, l') /\ head l = Some x /\ heap_ok l' /\ x :: l' ≡ₚ l.
Proof.
  intros H Hne. unfold heap_pop. destruct l as [|x t]; [congruence|]. set (l := x :: t) in *. set (n := (length l - 1)%nat).
  assert (Hn : length l = S n) by (unfold n, l; cbn; lia).
  assert (Hat : forall k, heap_swap 0 n l !!! k = if decide (k = 0%nat) then l !!! n else if decide (k = n) then l !!! 0%nat else l !!! k)
    by (intros k; apply swap_at; lia).
  assert (Hd : ordered_to (heap_down n 0 n (heap_swap 0 n l)) n /\ heap_down n 0 n (heap_swap 0 n l) !!! n = x /\ heap_down n 0 n (heap_swap 0 n l) ≡ₚ l).
  { destruct (decide (n = 0%nat)) as [E|E].
    - rewrite E. cbn [heap_down]. split; [intros k Hk; lia|]. split; [reflexivity|]. rewrite E in Hn. apply swap_perm; lia.
    - destruct (heap_down_ok n 0 n (heap_swap 0 n l)) as (H1 & H2 & H3); [rewrite length_swap; lia|lia|lia| |].
      + split; [|lia]. intros k Hk Hp. unfold edge. rewrite !Hat. pose proof (parent_lt k ltac:(lia)). rewrite !decide_False by lia. apply (H k). lia.
      + split; [exact H1|]. split; [|rewrite H3; apply swap_perm; lia]. rewrite (H2 n (le_n n)), Hat, (decide_False (P := n = 0%nat)) by exact E. rewrite decide_True by reflexivity. reflexivity. }
  destruct Hd as (H1 & H2 & H3). set (d := heap_down n 0 n (heap_swap 0 n l)) in *. assert (Hlen : length d = S n) by (rewrite <- Hn; apply Permutation_length; exact H3).
  exists x, (take n d). split; [rewrite H2; reflexivity|]. split; [reflexivity|]. split.
  - intros k Hk. rewrite length_take in Hk. pose proof (parent_lt k ltac:(lia)). unfold edge. rewrite !lookup_total_take_lt by lia. apply (H1 k). lia.
  - rewrite <- H3. rewrite <- (take_drop n d) at 2. rewrite <- H2. symmetry. rewrite (drop_S d (d !!! n) n) by (apply list_lookup_lookup_total_lt; lia).
    rewrite (drop_ge d (S n)) by lia. symmetry. apply Permutation_cons_append.
Qed.
End heap.

(** The order only depends on how the elements of the heap compare. *)
Lemma heap_ok_ext {A} `{Inhabited A} (less less' : A -> A -> bool) l :
  (forall x y, x ∈ l -> y ∈ l -> less' x y = less x y) -> heap_ok less l -> heap_ok less' l.
Proof.
  intros He Hl k Hk. pose proof (parent_lt k ltac:(lia)). unfold edge, not_above in *. rewrite He; [apply (Hl k Hk)| |];
    (apply list_elem_of_lookup; eexists; apply list_lookup_lookup_total_lt; lia).
Qed.
