(* ===== verification/SampleIter.v ===== *)
(** * Iterators over samples ([tsdb/chunkenc/chunk.go], [storage/series.go])

    [chunkenc.Iterator] is the class [IterOps]; what its comments promise is the
    class [IterOK].  An iterator stands at a sample ([Some t]) or at none (it was not
    started or is exhausted), has passed every timestamp up to a bound [m], and
    still has the timestamps [l] to come.  The value at a timestamp is only known
    up to a predicate [P] on samples, so that an iterator that keeps any one of
    several samples with the same timestamp has the contract as well.

    Iterators built on others call them in loops: [run] is code that takes a
    fuel for its loops and can panic. *)
From stdpp Require Import base list numbers strings.
From Stdlib Require Import ZArith Lia Sorted.
From S2P Require Import Prelude Postings.

(** ** Code with loops *)

Definition run (A : Type) : Type := nat -> option (outcome A).
Definition rret {A} (a : A) : run A := fun _ => Some (Ret a).
Definition rlift {A} (o : outcome A) : run A := fun _ => Some o.
Definition rbind {A B} (m : run A) (k : A -> run B) : run B := fun f =>
  match m f with Some (Ret a) => k a f | Some Panic => Some Panic | None => None end.

Notation "'do' x <- m ;; k" := (rbind m (fun x => k)) (at level 100, x pattern, m at next level, right associativity) : go_scope.

(** A loop whose body returns the state of the next turn or the result. *)
Fixpoint rloop {S R} (body : S -> run (S + R)) (s : S) (fuel : nat) : option (outcome R) :=
  match fuel with
  | O => None
  | S f => match body s f with
           | Some (Ret (inl s)) => rloop body s f
           | Some (Ret (inr r)) => Some (Ret r)
           | Some Panic => Some Panic
           | None => None
           end
  end.

(** With enough fuel the code returns [r]. *)
Definition returns {A} (m : run A) (r : A) : Prop := yields m (Ret r).

Lemma returns_ret {A} (a : A) : returns (rret a) a.
Proof. apply yields_ret. Qed.

Lemma returns_lift {A} (o : outcome A) a : o = Ret a -> returns (rlift o) a.
Proof. intros ->. apply yields_ret. Qed.

Lemma returns_bind {A B} (m : run A) (k : A -> run B) a b : returns m a -> returns (k a) b -> returns (rbind m k) b.
Proof.
  intros [N1 H1] [N2 H2]. exists (N1 + N2)%nat. intros n Hn. unfold rbind. rewrite H1 by lia. apply H2. lia.
Qed.

Lemma returns_loop_next {S R} (body : S -> run (S + R)) s s' r : returns (body s) (inl s') -> returns (rloop body s') r -> returns (rloop body s) r.
Proof.
  intros [N1 H1] [N2 H2]. exists (Datatypes.S (N1 + N2)). intros [|n] Hn; [lia|]. cbn [rloop]. rewrite H1 by lia. apply H2. lia.
Qed.

Lemma returns_loop_end {S R} (body : S -> run (S + R)) s r : returns (body s) (inr r) -> returns (rloop body s) r.
Proof. intros [N H]. exists (Datatypes.S N). intros [|n] Hn; [lia|]. cbn [rloop]. rewrite H by lia. reflexivity. Qed.

Lemma returns_det {A} (m : run A) a b : returns m a -> returns m b -> a = b.
Proof. intros H1 H2. pose proof (yields_det _ _ _ H1 H2) as E. congruence. Qed.

(** One bind whose first step is known to return. *)
Ltac r_step H := eapply returns_bind; [exact H|]; cbv beta iota.

(** ** Samples *)

Inductive ValueType := ValNone | ValFloat | ValHistogram | ValFloatHistogram.

#[export] Instance ValueType_eq_dec : EqDecision ValueType.
Proof. solve_decision. Defined.

Inductive CounterResetHint := UnknownCounterReset | CounterReset | NotCounterReset | GaugeType.

#[export] Instance hint_eq_dec : EqDecision CounterResetHint.
Proof. solve_decision. Defined.

(** A value is a float (its bits) or a histogram, of which only the hint matters
    here; [h] stands for its buckets. *)
Inductive value := VFloat (v : Z) | VHistogram (hint : CounterResetHint) (h : Z) | VFloatHistogram (hint : CounterResetHint) (h : Z).
Abbreviation sample := (Z * value)%type.

Definition type_of (v : value) : ValueType := match v with VFloat _ => ValFloat | VHistogram _ _ => ValHistogram | VFloatHistogram _ _ => ValFloatHistogram end.

Lemma type_of_some v : type_of v <> ValNone.
Proof. destruct v; discriminate. Qed.

(** ** The interface *)

(** [it_At] is whichever of [At], [AtHistogram] and [AtFloatHistogram] the type of
    the value asks for. *)
Class IterOps (It : Type) := {
  it_Next : It -> run (ValueType * It);
  it_Seek : Z -> It -> run (ValueType * It);
  it_AtT : It -> outcome Z;
  it_At : It -> outcome sample;
  it_Err : It -> option string }.

Definition time_le (t : Z) (cur : option Z) : Prop := match cur with Some x => t <= x | None => False end.

(** [m (ty, s')]: the call found a sample, [s'] stands at [x]. *)
Definition found {It} {ops : IterOps It} (m : run (ValueType * It)) (s' : It) (x : Z) : Prop :=
  exists v, returns m (type_of v, s') /\ it_At s' = Ret (x, v).

Class IterOK (P : sample -> Prop) (It : Type) {ops : IterOps It} := {
  IRep : It -> option Z -> Z -> list Z -> Prop;
  irep_wf s cur m l : IRep s cur m l -> incr (m :: l) /\ (forall x, cur = Some x -> m = x);
  irep_err s cur m l : IRep s cur m l -> it_Err s = None;
  irep_at s x m l : IRep s (Some x) m l -> it_AtT s = Ret x /\ exists v, it_At s = Ret (x, v) /\ P (x, v);
  inext_cons s cur m x l : IRep s cur m (x :: l) -> exists s', found (it_Next s) s' x /\ IRep s' (Some x) x l;
  inext_nil s cur m : IRep s cur m [] -> exists s', returns (it_Next s) (ValNone, s') /\ IRep s' None m [];
  iseek_stay s x m l t : IRep s (Some x) m l -> t <= x -> exists s', found (it_Seek t s) s' x /\ IRep s' (Some x) m l;
  iseek_fwd s cur m l t : IRep s cur m l -> m < t ->
    match drop_lt t l with
    | y :: r => exists s', found (it_Seek t s) s' y /\ IRep s' (Some y) y r
    | [] => exists s', returns (it_Seek t s) (ValNone, s') /\ IRep s' None t []
    end;
  irep_done s m m' : IRep s None m [] -> m <= m' -> IRep s None m' [] }.

(** ** Sequences of calls *)

Inductive call := CNext | CSeek (t : Z).

Definition perform {It} {ops : IterOps It} (c : call) (s : It) : run (ValueType * It) := match c with CNext => it_Next s | CSeek t => it_Seek t s end.

(** What a client that reads the sample after every call sees. *)
Fixpoint observe {It} {ops : IterOps It} (cs : list call) (s : It) : run (list (option sample)) :=
  match cs with
  | [] => rret []
  | c :: cs =>
      do (ty, s) <- perform c s ;;
      do o <- (if bool_decide (ty = ValNone) then rret None else do x <- rlift (it_At s) ;; rret (Some x)) ;;
      do os <- observe cs s ;;
      rret (o :: os)
  end.

(** What it should see: the timestamps of an iterator that stands at [cur], has
    passed all up to [m] and has [l] to come.  An exhausted iterator cannot be
    asked to seek backwards: there is no answer then. *)
Fixpoint ideal (cs : list call) (cur : option Z) (m : Z) (l : list Z) : option (list (option Z)) :=
  match cs with
  | [] => Some []
  | c :: cs =>
      let to := fun m l => match l with x :: r => option_map (cons (Some x)) (ideal cs (Some x) x r) | [] => option_map (cons None) (ideal cs None m []) end in
      match c with
      | CNext => to m l
      | CSeek t =>
          if match cur with Some x => t <=? x | None => false end then option_map (cons cur) (ideal cs cur m l)
          else if m <? t then to t (drop_lt t l) else None
      end
  end.

Definition agrees (P : sample -> Prop) (o : option sample) (t : option Z) : Prop :=
  match o, t with Some (x, v), Some y => x = y /\ P (x, v) | None, None => True | _, _ => False end.

Section calls.
Context {P : sample -> Prop} {It : Type} {ops : IterOps It} {IOK : IterOK P It}.

(** Any client of an iterator that keeps the contract sees what it should. *)
Lemma observe_cons c cs (s s' : It) x os : found (perform c s) s' x -> returns (observe cs s') os -> (exists v, it_At s' = Ret (x, v) /\ P (x, v)) ->
  exists o, returns (observe (c :: cs) s) (o :: os) /\ agrees P o (Some x).
Proof.
  intros (v & Hc & Hat) Hos (w & Hw & HP). rewrite Hat in Hw. injection Hw as <-. exists (Some (x, v)). split; [|split; [reflexivity|exact HP]].
  cbn [observe]. r_step Hc. rewrite (bool_decide_eq_false_2 _ (type_of_some v)). eapply returns_bind; [eapply returns_bind; [apply returns_lift; exact Hat|apply returns_ret]|].
  cbv beta. r_step Hos. apply returns_ret.
Qed.

Lemma observe_none c cs (s s' : It) os : returns (perform c s) (ValNone, s') -> returns (observe cs s') os -> returns (observe (c :: cs) s) (None :: os).
Proof.
  intros Hc Hos. cbn [observe]. r_step Hc. rewrite bool_decide_eq_true_2 by reflexivity. eapply returns_bind; [apply returns_ret|]. cbv beta. r_step Hos. apply returns_ret.
Qed.

Lemma observe_ideal cs s cur m l ts : IRep s cur m l -> ideal cs cur m l = Some ts -> exists os, returns (observe cs s) os /\ Forall2 (agrees P) os ts.
Proof.
  revert s cur m l ts. induction cs as [|c cs IH]; intros s cur m l ts Hr Hts; cbn [ideal] in Hts.
  { injection Hts as <-. exists []. split; [apply returns_ret|constructor]. }
  assert (Hfound : forall s' x m' l' ts', found (perform c s) s' x -> IRep s' (Some x) m' l' -> ideal cs (Some x) m' l' = Some ts' ->
    exists os, returns (observe (c :: cs) s) os /\ Forall2 (agrees P) os (Some x :: ts')).
  { intros s' x m' l' ts' Hc Hr' Ht. destruct (IH s' _ _ _ _ Hr' Ht) as (os & Hos & Hag). destruct (irep_at _ _ _ _ Hr') as [_ Hat].
    destruct (observe_cons c cs s s' x os Hc Hos Hat) as (o & Ho & Hag'). exists (o :: os). split; [exact Ho|]. constructor; assumption. }
  assert (Hto : forall m' l', match l' with x :: r => exists s', found (perform c s) s' x /\ IRep s' (Some x) x r | [] => exists s', returns (perform c s) (ValNone, s') /\ IRep s' None m' [] end ->
    match l' with x :: r => option_map (cons (Some x)) (ideal cs (Some x) x r) | [] => option_map (cons None) (ideal cs None m' []) end = Some ts ->
    exists os, returns (observe (c :: cs) s) os /\ Forall2 (agrees P) os ts).
  { intros m' [|x r] (s' & Hc & Hr') Ht.
    - destruct (ideal cs None m' []) as [ts'|] eqn:Et; [|discriminate]. injection Ht as <-. destruct (IH s' _ _ _ _ Hr' Et) as (os & Hos & Hag). exists (None :: os).
      split; [exact (observe_none c cs s s' os Hc Hos)|]. constructor; [exact I|exact Hag].
    - destruct (ideal cs (Some x) x r) as [ts'|] eqn:Et; [|discriminate]. injection Ht as <-. exact (Hfound s' x x r ts' Hc Hr' Et). }
  destruct c as [|t].
  - apply (Hto m l); [|exact Hts]. destruct l as [|x r]; [exact (inext_nil s cur m Hr)|exact (inext_cons s cur m x r Hr)].
  - destruct (match cur with Some x => t <=? x | None => false end) eqn:Estay.
    + destruct cur as [x|]; [|discriminate]. apply Z.leb_le in Estay. destruct (ideal cs (Some x) m l) as [ts'|] eqn:Et; [|discriminate]. injection Hts as <-.
      destruct (iseek_stay s x m l t Hr Estay) as (s' & Hc & Hr'). exact (Hfound s' x m l ts' Hc Hr' Et).
    + destruct (Z.ltb_spec m t) as [Hmt|]; [|discriminate]. apply (Hto t (drop_lt t l)); [|exact Hts]. exact (iseek_fwd s cur m l t Hr Hmt).
Qed.
End calls.

(** ** [listSeriesIterator] *)

Record listSeriesIterator := mkListIter { li_samples : list sample; li_idx : Z }.

Definition NewListSeriesIterator (samples : list sample) : listSeriesIterator := mkListIter samples (-1).

Definition li_get (it : listSeriesIterator) (i : Z) : outcome sample :=
  if i <? 0 then Panic else match li_samples it !! Z.to_nat i with Some s => Ret s | None => Panic end.
Definition li_len (it : listSeriesIterator) : Z := Z.of_nat (length (li_samples it)).
Definition li_at (it : listSeriesIterator) : outcome sample := li_get it (li_idx it).
Definition li_AtT (it : listSeriesIterator) : outcome Z := match li_at it with Ret s => Ret (fst s) | Panic => Panic end.

(** The type of the sample at the index, or none beyond the end. *)
Definition li_type (it : listSeriesIterator) : outcome (ValueType * listSeriesIterator) :=
  if li_len it <=? li_idx it then Ret (ValNone, it)
  else match li_at it with Ret s => Ret (type_of (snd s), it) | Panic => Panic end.

Definition li_Next (it : listSeriesIterator) : outcome (ValueType * listSeriesIterator) := li_type (mkListIter (li_samples it) (li_idx it + 1)).

(** The search is among the samples from the index on. *)
Definition li_Seek (t : Z) (it : listSeriesIterator) : outcome (ValueType * listSeriesIterator) :=
  let it := if li_idx it =? -1 then mkListIter (li_samples it) 0 else it in
  if li_len it <=? li_idx it then Ret (ValNone, it)
  else match li_at it with
       | Panic => Panic
       | Ret s =>
           if t <=? fst s then Ret (type_of (snd s), it)
           else let i := sort_search (length (li_samples it) - Z.to_nat (li_idx it))
                           (fun i => match li_get it (Z.of_nat i + li_idx it) with Ret s => t <=? fst s | Panic => false end) in
                li_type (mkListIter (li_samples it) (li_idx it + Z.of_nat i))
       end.

#[export] Instance listSeriesIterator_ops : IterOps listSeriesIterator := {|
  it_Next := fun it => rlift (li_Next it); it_Seek := fun t it => rlift (li_Seek t it);
  it_AtT := li_AtT; it_At := li_at; it_Err := fun _ => None |}.

(** ** It keeps the contract *)

Section list_iterator.
Variable P : sample -> Prop.

Definition times (l : list sample) : list Z := map fst l.

Definition li_rep (it : listSeriesIterator) (cur : option Z) (m : Z) (l : list Z) : Prop :=
  let s := li_samples it in
  Forall P s /\ incr (times s) /\ incr (m :: l) /\ (forall x, cur = Some x -> m = x)
  /\ exists n, li_idx it = Z.of_nat n - 1 /\ l = times (drop n s) /\ cur = match n with O => None | S i => option_map fst (s !! i) end.

Lemma times_sorted s i j a b : incr (times s) -> s !! i = Some a -> s !! j = Some b -> (i < j)%nat -> fst a < fst b.
Proof.
  intros Hs. revert i j. induction s as [|x s IH]; intros i j Ha Hb Hij; [discriminate|]. destruct (incr_cons_inv _ _ Hs) as [Hs' Hlt].
  destruct j as [|j]; [lia|]. destruct i as [|i]; cbn in Ha, Hb.
  - injection Ha as ->. apply Hlt. unfold times. apply list_elem_of_fmap. exists b. split; [reflexivity|]. eapply list_elem_of_lookup_2. exact Hb.
  - apply (IH Hs' i j Ha Hb). lia.
Qed.

Lemma sorted_app_r (a b : list Z) : incr (a ++ b) -> incr b.
Proof. induction a as [|x a IH]; [auto|]. intros H. apply IH. exact (proj1 (incr_cons_inv _ _ H)). Qed.

(** Skipping to the first sample that is not before [t]. *)
Lemma skip_to s n k t : (n <= k <= length s)%nat -> (forall j a, (n <= j < k)%nat -> s !! j = Some a -> fst a < t) ->
  (forall a, s !! k = Some a -> t <= fst a) -> drop_lt t (times (drop n s)) = times (drop k s).
Proof.
  intros Hk Hlt Hge. remember (k - n)%nat as d eqn:Ed. revert n Hk Hlt Ed. induction d as [|d IH]; intros n Hk Hlt Ed.
  - assert (n = k) as -> by lia. destruct (s !! k) as [a|] eqn:Ea.
    + rewrite (drop_S s a k Ea). cbn. apply drop_lt_head_le. apply Hge. reflexivity.
    + rewrite drop_ge by (apply lookup_ge_None; exact Ea). reflexivity.
  - destruct (s !! n) as [a|] eqn:Ea; [|apply lookup_ge_None in Ea; lia]. rewrite (drop_S s a n Ea). cbn [times map].
    rewrite drop_lt_head_gt by (apply (Hlt n); [lia|exact Ea]). apply IH; [lia| |lia]. intros j b Hj Hb. apply (Hlt j); [lia|exact Hb].
Qed.

(** Standing at an index from which a step leads to the rest. *)
Lemma li_type_at s (k : nat) m l : Forall P s -> incr (times s) -> times (drop k s) = l -> (forall x, x ∈ l -> m < x) ->
  let it := mkListIter s (Z.of_nat k) in
  match l with
  | x :: r => found (rlift (li_type it)) it x /\ li_rep it (Some x) x r
  | [] => returns (rlift (li_type it)) (ValNone, it) /\ li_rep it None m []
  end.
Proof.
  intros HP Hs El Hm it. unfold li_type, li_at, li_get, li_len. cbn [li_samples li_idx it]. destruct (s !! k) as [[x v]|] eqn:Ek.
  - rewrite (drop_S s (x, v) k Ek) in El. cbn in El. subst l. pose proof (lookup_lt_Some _ _ _ Ek).
    assert (Hat : li_get it (Z.of_nat k) = Ret (x, v)) by (unfold li_get; cbn; rewrite Nat2Z.id, Ek; destruct (Z.ltb_spec (Z.of_nat k) 0); [lia|reflexivity]).
    destruct (Z.leb_spec (Z.of_nat (length s)) (Z.of_nat k)); [lia|]. destruct (Z.ltb_spec (Z.of_nat k) 0); [lia|]. rewrite Nat2Z.id, Ek. cbn [snd].
    split; [exists v; split; [apply returns_lift; reflexivity|exact Hat]|]. split; [exact HP|]. split; [exact Hs|]. cbn [li_samples it]. split.
    + apply incr_cons.
      * rewrite <- (take_drop (S k) s) in Hs. unfold times in Hs. rewrite map_app in Hs. apply sorted_app_r in Hs. exact Hs.
      * intros z Hz. unfold times in Hz. apply list_elem_of_fmap in Hz as (b & -> & Hb). apply list_elem_of_lookup in Hb as [j Hb]. rewrite lookup_drop in Hb.
        apply (times_sorted s k (S k + j) (x, v) b Hs Ek Hb). lia.
    + split; [congruence|]. exists (S k). cbn [li_idx it]. split; [lia|]. split; [reflexivity|]. cbn. rewrite Ek. reflexivity.
  - pose proof (proj1 (lookup_ge_None _ _) Ek) as Hk. rewrite drop_ge in El by exact Hk. cbn in El. subst l.
    destruct (Z.leb_spec (Z.of_nat (length s)) (Z.of_nat k)); [|lia]. split; [apply returns_lift; reflexivity|]. split; [exact HP|]. split; [exact Hs|]. cbn [li_samples it].
    split; [repeat constructor|]. split; [discriminate|]. exists (S k). cbn [li_idx it]. split; [lia|]. split; [rewrite drop_ge by lia; reflexivity|]. rewrite Ek. reflexivity.
Qed.

Lemma li_next s n m l : Forall P s -> incr (times s) -> l = times (drop n s) -> (forall x, x ∈ l -> m < x) ->
  match l with
  | x :: r => exists it', found (rlift (li_Next (mkListIter s (Z.of_nat n - 1)))) it' x /\ li_rep it' (Some x) x r
  | [] => exists it', returns (rlift (li_Next (mkListIter s (Z.of_nat n - 1)))) (ValNone, it') /\ li_rep it' None m []
  end.
Proof.
  intros HP Hs El Hm. unfold li_Next. cbn [li_samples li_idx]. replace (Z.of_nat n - 1 + 1) with (Z.of_nat n) by lia.
  pose proof (li_type_at s n m l HP Hs (eq_sym El) Hm) as H. cbv zeta in H. destruct l; eauto.
Qed.

(** The search of [Seek], from an index [b] whose sample is too early. *)
Lemma li_search s (b : nat) t a : incr (times s) -> s !! b = Some a -> fst a < t ->
  let f := fun i => match li_get (mkListIter s (Z.of_nat b)) (Z.of_nat i + Z.of_nat b) with Ret s => t <=? fst s | Panic => false end in
  let k := (b + sort_search (length s - b) f)%nat in
  (b < k <= length s)%nat /\ (forall j a, (b <= j < k)%nat -> s !! j = Some a -> fst a < t) /\ (forall a, s !! k = Some a -> t <= fst a).
Proof.
  intros Hs Hb Hlt f k. pose proof (lookup_lt_Some _ _ _ Hb) as Hbl.
  assert (Hf : forall i c, s !! (b + i)%nat = Some c -> f i = (t <=? fst c)).
  { intros i c Hc. unfold f, li_get. cbn [li_samples]. destruct (Z.ltb_spec (Z.of_nat i + Z.of_nat b) 0); [lia|].
    replace (Z.to_nat (Z.of_nat i + Z.of_nat b)) with (b + i)%nat by lia. rewrite Hc. reflexivity. }
  destruct (sort_search_spec (length s - b) f) as (H1 & H2 & H3).
  { intros i j Hij. destruct (lookup_lt_is_Some_2 s (b + i)) as [c Hc]; [lia|]. destruct (lookup_lt_is_Some_2 s (b + j)) as [d Hd]; [lia|].
    rewrite (Hf i c Hc), (Hf j d Hd), !Z.leb_le. destruct (decide (i = j)) as [->|]; [congruence|]. pose proof (times_sorted s (b + i) (b + j) c d Hs Hc Hd ltac:(lia)). lia. }
  set (r := sort_search (length s - b) f) in *. assert (Hr : (0 < r)%nat).
  { destruct r as [|r]; [|lia]. assert (Ht : f 0%nat = true) by (apply H3; lia). rewrite (Hf 0%nat a) in Ht by (rewrite Nat.add_0_r; exact Hb). apply Z.leb_le in Ht. lia. }
  split; [unfold k; lia|]. split.
  - intros j c Hj Hc. assert (Ht : f (j - b)%nat = false) by (apply H2; lia). rewrite (Hf (j - b)%nat c) in Ht by (rewrite <- Hc; f_equal; lia). apply Z.leb_gt in Ht. lia.
  - intros c Hc. pose proof (lookup_lt_Some _ _ _ Hc). assert (Ht : f r = true) by (apply H3; unfold k in *; lia). rewrite (Hf r c) in Ht by exact Hc. apply Z.leb_le. exact Ht.
Qed.

(** Where [Seek] stops, from the place after index [n - 1]. *)
Lemma li_seek_to s n t : incr (times s) -> (forall i a, n = S i -> s !! i = Some a -> fst a < t) ->
  exists k, li_Seek t (mkListIter s (Z.of_nat n - 1)) = li_type (mkListIter s (Z.of_nat k))
  /\ drop_lt t (times (drop n s)) = times (drop k s) /\ forall a, s !! k = Some a -> t <= fst a.
Proof.
  intros Hs Hn. set (b := match n with O => 0%nat | S i => i end).
  assert (Eb : (if Z.of_nat n - 1 =? -1 then mkListIter s 0 else mkListIter s (Z.of_nat n - 1)) = mkListIter s (Z.of_nat b)).
  { destruct n as [|i]; unfold b; [reflexivity|]. destruct (Z.eqb_spec (Z.of_nat (S i) - 1) (-1)); [lia|]. f_equal. lia. }
  unfold li_Seek. cbn [li_idx li_samples]. rewrite Eb. unfold li_len, li_at. cbn [li_idx li_samples]. destruct (Z.leb_spec (Z.of_nat (length s)) (Z.of_nat b)) as [Hend|Hin].
  - exists b. unfold li_type, li_len. cbn [li_idx li_samples]. rewrite (proj2 (Z.leb_le _ _) Hend). split; [reflexivity|].
    split; [|intros a Ha; apply lookup_lt_Some in Ha; lia]. rewrite !drop_ge by (unfold b in Hend; destruct n; lia). reflexivity.
  - destruct (lookup_lt_is_Some_2 s b) as [a Ha]; [lia|]. assert (Hat : li_get (mkListIter s (Z.of_nat b)) (Z.of_nat b) = Ret a).
    { unfold li_get. cbn. destruct (Z.ltb_spec (Z.of_nat b) 0); [lia|]. rewrite Nat2Z.id, Ha. reflexivity. }
    rewrite Hat. destruct (Z.leb_spec t (fst a)) as [Hle|Hgt].
    + assert (n = 0%nat) as -> by (destruct n as [|i]; [reflexivity|]; specialize (Hn i a eq_refl Ha); lia). exists 0%nat. subst b.
      unfold li_type, li_len, li_at. cbn [li_idx li_samples]. rewrite Hat. destruct (Z.leb_spec (Z.of_nat (length s)) (Z.of_nat 0)); [lia|]. split; [reflexivity|].
      split; [apply skip_to; [lia| |]; intros; [lia|congruence]|congruence].
    + pose proof (li_search s b t a Hs Ha Hgt) as H. cbv zeta in H. destruct H as (H1 & H2 & H3). rewrite Nat2Z.id.
      set (r := sort_search _ _) in *. exists (b + r)%nat. split; [f_equal; f_equal; lia|]. split; [|exact H3].
      apply skip_to; [unfold b in *; destruct n; lia| |exact H3]. intros j c Hj. apply H2. unfold b. destruct n; lia.
Qed.

Lemma after_at s k x t : incr (times s) -> (forall a, s !! k = Some a -> t <= fst a) -> x ∈ times (drop k s) -> t <= x.
Proof.
  intros Hs Hge Hx. unfold times in Hx. apply list_elem_of_fmap in Hx as (a & -> & Ha). apply list_elem_of_lookup in Ha as [j Ha]. rewrite lookup_drop in Ha.
  destruct (s !! k) as [c|] eqn:Ek; [|apply lookup_ge_None in Ek; apply lookup_lt_Some in Ha; lia]. specialize (Hge c eq_refl).
  destruct j as [|j]; [rewrite Nat.add_0_r in Ha; rewrite Ha in Ek; injection Ek as <-; exact Hge|]. pose proof (times_sorted s k (k + S j) c a Hs Ek Ha ltac:(lia)). lia.
Qed.

Lemma incr_bound m l : incr (m :: l) -> forall x, x ∈ l -> m < x.
Proof. intros H. apply (incr_cons_inv _ _ H). Qed.

#[export] Program Instance listSeriesIterator_ok : IterOK P listSeriesIterator := {| IRep := li_rep |}.
Next Obligation. intros s cur m l (_ & _ & H1 & H2 & _). auto. Qed.
Next Obligation. reflexivity. Qed.
Next Obligation.
  intros [s idx] x m l (HP & _ & _ & _ & n & E & _ & Ec). cbn in *. destruct n as [|i]; [discriminate|]. destruct (s !! i) as [[x' v]|] eqn:Ei; [|discriminate]. injection Ec as ->.
  unfold li_AtT, li_at, li_get. cbn. destruct (Z.ltb_spec idx 0); [lia|]. replace (Z.to_nat idx) with i by lia. rewrite Ei. split; [reflexivity|].
  exists v. split; [reflexivity|]. exact (proj1 (Forall_lookup _ _) HP i _ Ei).
Qed.
Next Obligation.
  intros [s idx] cur m x l (HP & Hs & Hm & _ & n & E & El & _). cbn in *. subst idx. exact (li_next s n m (x :: l) HP Hs El (incr_bound _ _ Hm)).
Qed.
Next Obligation.
  intros [s idx] cur m (HP & Hs & Hm & _ & n & E & El & _). cbn in *. subst idx. exact (li_next s n m [] HP Hs El (incr_bound _ _ Hm)).
Qed.
Next Obligation.
  intros [s idx] x m l t Hrep Ht. pose proof Hrep as (_ & _ & _ & _ & n & E & _ & Ec). cbn [li_idx li_samples] in *. destruct n as [|i]; [discriminate|].
  destruct (s !! i) as [[x' v]|] eqn:Ei; [|discriminate]. injection Ec as ->. exists (mkListIter s idx). split; [|exact Hrep]. assert (idx = Z.of_nat i) as -> by lia.
  assert (Hat : li_at (mkListIter s (Z.of_nat i)) = Ret (x', v)).
  { unfold li_at, li_get. cbn. destruct (Z.ltb_spec (Z.of_nat i) 0); [lia|]. rewrite Nat2Z.id, Ei. reflexivity. }
  exists v. split; [|exact Hat]. apply returns_lift. unfold li_Seek. cbn [li_idx]. destruct (Z.eqb_spec (Z.of_nat i) (-1)); [lia|]. rewrite Hat. unfold li_len. cbn [li_samples li_idx].
  apply lookup_lt_Some in Ei. destruct (Z.leb_spec (Z.of_nat (length s)) (Z.of_nat i)); [lia|]. cbn [fst snd]. destruct (Z.leb_spec t x'); [reflexivity|lia].
Qed.
Next Obligation.
  intros [s idx] cur m l t (HP & Hs & Hm & Hcur & n & E & El & Ec) Ht. cbn [li_idx li_samples it_Seek listSeriesIterator_ops] in *. subst idx.
  destruct (li_seek_to s n t Hs) as (k & -> & Ek & Hge).
  { intros i a -> Ei. rewrite Ei in Ec. cbn in Ec. rewrite <- (Hcur _ Ec). exact Ht. }
  rewrite El, Ek. pose proof (li_type_at s k (t - 1) _ HP Hs eq_refl) as H. cbv zeta in H. destruct (times (drop k s)) as [|y r] eqn:Ed.
  - destruct H as [H1 (H2 & H3 & _ & _ & H6)]; [intros x Hx; apply not_elem_of_nil in Hx as []|]. eexists. split; [exact H1|]. split; [exact H2|]. split; [exact H3|].
    split; [repeat constructor|]. split; [discriminate|exact H6].
  - destruct H as [H1 H2]; [|eauto]. rewrite <- Ed. intros x Hx. pose proof (after_at s k x t Hs Hge Hx). lia.
Qed.
Next Obligation.
  intros [s idx] m m' (HP & Hs & _ & _ & n & E & El & Ec) Hm. split; [exact HP|]. split; [exact Hs|]. split; [repeat constructor|]. split; [discriminate|]. eauto.
Qed.
End list_iterator.
