(* ===== verification/ChainIter.v ===== *)
(** * Chaining the samples of a series ([chainSampleIterator] of [storage/merge.go])

    Several iterators over samples of one series, for instance from blocks that
    overlap in time, are read as one.  The iterator that was read last is kept
    apart from a heap of the others, ordered by where they stand.  The heap, the
    current iterator and the list of all hold pointers to the same iterators:
    here they are indexes into the list.

    [ChainSpec.v] shows that the chain keeps the contract of an iterator over the
    union of the timestamps, with a value that some member has at each. *)
From stdpp Require Import base list numbers strings.
From Stdlib Require Import ZArith Lia Sorted.
From S2P Require Import Prelude Postings Heap SampleIter.

Section chain.
Context {It : Type} {ops : IterOps It}.

Record chainSampleIterator := mkChain {
  c_iterators : list It; c_h : option (list nat); c_curr : option nat; c_lastT : Z; c_consecutive : bool }.

(** A new iterator; [getChainSampleIterator] can also reuse the memory of another. *)
Definition ChainSampleIteratorFromIterators (iterators : list It) : chainSampleIterator := mkChain iterators None None MinInt64 false.

(** [samplesIteratorHeap.Less]: by the timestamps at which iterators stand. *)
Definition time_at (its : list It) (i : nat) : Z :=
  match its !! i with Some it => match it_AtT it with Ret t => t | Panic => 0 end | None => 0 end.
Definition earlier (its : list It) (i j : nat) : bool := time_at its i <? time_at its j.

Definition set_its (c : chainSampleIterator) (its : list It) := mkChain its (c_h c) (c_curr c) (c_lastT c) (c_consecutive c).
Definition set_h (c : chainSampleIterator) (h : list nat) := mkChain (c_iterators c) (Some h) (c_curr c) (c_lastT c) (c_consecutive c).
Definition set_curr (c : chainSampleIterator) (i : option nat) := mkChain (c_iterators c) (c_h c) i (c_lastT c) (c_consecutive c).
Definition heap_of (c : chainSampleIterator) : list nat := default [] (c_h c).

Definition push (i : nat) (c : chainSampleIterator) := set_h c (heap_push (earlier (c_iterators c)) (heap_of c) i).
Definition pop (c : chainSampleIterator) : outcome (nat * chainSampleIterator) :=
  match heap_pop (earlier (c_iterators c)) (heap_of c) with Ret (i, h) => Ret (i, set_h c h) | Panic => Panic end.

(** A call of a method of the iterator [i]. *)
Definition on (i : nat) (m : It -> run (ValueType * It)) (c : chainSampleIterator) : run (ValueType * chainSampleIterator) :=
  match c_iterators c !! i with
  | Some it => do (ty, it') <- m it ;; rret (ty, set_its c (<[i := it']> (c_iterators c)))
  | None => rlift Panic
  end.
Definition at_t (i : nat) (c : chainSampleIterator) : outcome Z := match c_iterators c !! i with Some it => it_AtT it | None => Panic end.
Definition err_of (i : nat) (c : chainSampleIterator) : option string := match c_iterators c !! i with Some it => it_Err it | None => None end.

(** One call on each iterator [ids]; those that find a sample go to the heap. *)
Fixpoint fill (m : It -> run (ValueType * It)) (ids : list nat) (c : chainSampleIterator) : run (bool * chainSampleIterator) :=
  match ids with
  | [] => rret (true, c)
  | i :: ids =>
      do (ty, c) <- on i m c ;;
      if bool_decide (ty = ValNone) then match err_of i c with Some _ => rret (false, c) | None => fill m ids c end
      else fill m ids (push i c)
  end.

(** The break of the loop, with the state it leaves. *)
Definition finish (ty : ValueType) (changed : bool) (currT : Z) (c : chainSampleIterator) : run ((chainSampleIterator * bool) + (ValueType * chainSampleIterator)) :=
  rret (inr (ty, mkChain (c_iterators c) (c_h c) (c_curr c) currT (negb changed))).

(** The end of the body: go on with the iterator on top of the heap. *)
Definition take_top (c : chainSampleIterator) : run ((chainSampleIterator * bool) + (ValueType * chainSampleIterator)) :=
  do (j, c) <- rlift (pop c) ;;
  let c := set_curr c (Some j) in
  do currT <- rlift (at_t j c) ;;
  do (ty, c) <- on j (it_Seek currT) c ;;
  if currT =? c_lastT c then rret (inl (c, true)) else finish ty true currT c.

Definition chain_body (s : chainSampleIterator * bool) : run ((chainSampleIterator * bool) + (ValueType * chainSampleIterator)) :=
  let '(c, changed) := s in
  match c_curr c with
  | None => rlift Panic
  | Some i =>
      do (ty, c) <- on i it_Next c ;;
      if bool_decide (ty = ValNone) then
        match err_of i c with
        | Some _ => rret (inr (ValNone, c))
        | None => if bool_decide (heap_of c = []) then rret (inr (ValNone, set_curr c None)) else take_top c
        end
      else
        do currT <- rlift (at_t i c) ;;
        if currT =? c_lastT c then rret (inl (c, changed))
        else match heap_of c with
             | [] => finish ty changed currT c
             | top :: _ =>
                 do nextT <- rlift (at_t top c) ;;
                 if currT <? nextT then finish ty changed currT c else take_top (push i c)
             end
  end.

Definition chain_Next (c : chainSampleIterator) : run (ValueType * chainSampleIterator) :=
  match c_h c with
  | None =>
      match c_iterators c with
      | [] => rlift Panic
      | _ :: rest =>
          do (ok, c) <- fill it_Next (seq 1 (length rest)) (set_curr (set_h c []) (Some 0%nat)) ;;
          if ok : bool then rloop chain_body (c, true) else rret (ValNone, c)
      end
  | Some _ => match c_curr c with None => rret (ValNone, c) | Some _ => rloop chain_body (c, false) end
  end.

Definition chain_Seek (t : Z) (c : chainSampleIterator) : run (ValueType * chainSampleIterator) :=
  let search :=
    do (ok, c) <- fill (it_Seek t) (seq 0 (length (c_iterators c))) (mkChain (c_iterators c) (Some []) (c_curr c) (c_lastT c) false) ;;
    if negb ok then rret (ValNone, c)
    else if bool_decide (heap_of c = []) then rret (ValNone, set_curr c None)
    else do (j, c) <- rlift (pop c) ;;
         do currT <- rlift (at_t j c) ;;
         on j (it_Seek currT) (mkChain (c_iterators c) (c_h c) (Some j) currT (c_consecutive c)) in
  match c_curr c with
  | Some i => if t <=? c_lastT c then on i (it_Seek (c_lastT c)) c else search
  | None => search
  end.

Definition chain_AtT (c : chainSampleIterator) : outcome Z := match c_curr c with Some i => at_t i c | None => Panic end.

(** Without the sample before it, nothing is known about resets of counters. *)
Definition weaken (v : value) : value :=
  let hint := fun h => if bool_decide (h = GaugeType) then h else UnknownCounterReset in
  match v with VFloat _ => v | VHistogram h b => VHistogram (hint h) b | VFloatHistogram h b => VFloatHistogram (hint h) b end.
Definition chain_At (c : chainSampleIterator) : outcome sample :=
  match c_curr c with
  | Some i => match c_iterators c !! i with
              | Some it => match it_At it with Ret (t, v) => Ret (t, if c_consecutive c then v else weaken v) | Panic => Panic end
              | None => Panic
              end
  | None => Panic
  end.

(** The errors of all iterators, of which the first is kept here. *)
Fixpoint first_error (its : list It) : option string :=
  match its with [] => None | it :: its => match it_Err it with Some e => Some e | None => first_error its end end.

#[export] Instance chain_ops : IterOps chainSampleIterator := {|
  it_Next := chain_Next; it_Seek := chain_Seek; it_AtT := chain_AtT; it_At := chain_At; it_Err := fun c => first_error (c_iterators c) |}.
End chain.
Arguments chainSampleIterator It : clear implicits.
