(* ===== verification/ChainSpec.v ===== *)
(** * A chain of iterators is an iterator over their union

    [Inv] is what holds between the turns of the loop of [Next]: the heap holds
    exactly the iterators that stand at a sample, apart from the current one, and
    every sample up to the bound [L] has been passed. *)
From stdpp Require Import base list numbers strings.
From Stdlib Require Import ZArith Lia Sorted.
From S2P Require Import Prelude Postings Heap SampleIter ChainIter.

(** ** Lists updated by index *)

Definition total (pend : list (list Z)) : nat := sum_list_with length pend.
Definition member (pend : list (list Z)) (t : Z) : Prop := exists k p, pend !! k = Some p /\ t ∈ p.

Lemma pending_total pend j x l : pend !! j = Some (x :: l) -> (total (<[j := l]> pend) < total pend)%nat.
Proof.
  revert j. induction pend as [|p pend IH]; intros [|j] H; cbn in H; try discriminate.
  - injection H as ->. cbn. lia.
  - specialize (IH j H). change (length p + total (<[j := l]> pend) < length p + total pend)%nat. lia.
Qed.

Lemma pending_insert pend j x l t : pend !! j = Some (x :: l) -> t <> x -> member (<[j := l]> pend) t <-> member pend t.
Proof.
  intros Hj Hx. pose proof (lookup_lt_Some _ _ _ Hj) as Hlt. split; intros (k & p & Hk & Ht); destruct (decide (k = j)) as [->|Hkj].
  - rewrite list_lookup_insert_eq in Hk by exact Hlt. injection Hk as <-. exists j, (x :: l). split; [exact Hj|right; exact Ht].
  - rewrite list_lookup_insert_ne in Hk by congruence. exists k, p. auto.
  - rewrite Hj in Hk. injection Hk as <-. apply elem_of_cons in Ht as [E|Ht]; [congruence|]. exists j, l. rewrite list_lookup_insert_eq by exact Hlt. auto.
  - exists k, p. rewrite list_lookup_insert_ne by congruence. auto.
Qed.

#[export] Instance by_key_ok {A} (f : A -> Z) : LessOK (fun i j => f i <? f j).
Proof. constructor; intros *; unfold not_above; rewrite ?Z.ltb_ge, ?Z.ltb_lt; lia. Qed.

Section chain.
Context {P : sample -> Prop} {It : Type} {ops : IterOps It} {IOK : IterOK P It}.

#[export] Instance earlier_ok (its : list It) : LessOK (earlier its) := by_key_ok (time_at its).

(** ** Calls on one iterator *)

Lemma on_returns i it m ty it' (c : chainSampleIterator It) : c_iterators c !! i = Some it -> returns (m it) (ty, it') ->
  returns (on i m c) (ty, set_its c (<[i := it']> (c_iterators c))).
Proof. intros Hi Hm. unfold on. rewrite Hi. r_step Hm. apply returns_ret. Qed.

Lemma time_at_standing (its : list It) i it x m l : its !! i = Some it -> IRep it (Some x) m l -> time_at its i = x.
Proof. intros Hi Hr. unfold time_at. rewrite Hi. destruct (irep_at _ _ _ _ Hr) as [-> _]. reflexivity. Qed.

Lemma heap_insert (its : list It) k it h : k ∉ h -> heap_ok (earlier its) h -> heap_ok (earlier (<[k := it]> its)) h.
Proof.
  intros Hk. apply heap_ok_ext. intros x y Hx Hy. unfold earlier, time_at. rewrite !list_lookup_insert_ne by (intros ->; contradiction). reflexivity.
Qed.

(** ** The invariant *)

Inductive slot (h : list nat) (L : Z) (cur : option nat) (k : nat) (it : It) (p : list Z) : Prop :=
| InHeap x l : k ∈ h -> p = x :: l -> IRep it (Some x) x l -> L <= x -> slot h L cur k it p
| Current cu m : k ∉ h -> cur = Some k -> IRep it cu m p -> m <= L -> (forall t, t ∈ p -> L < t) -> slot h L cur k it p
| Exhausted : k ∉ h -> cur <> Some k -> p = [] -> IRep it None L [] -> slot h L cur k it p.

Record Inv (its : list It) (h : list nat) (L : Z) (pend : list (list Z)) (cur : option nat) : Prop := {
  inv_nodup : NoDup h;
  inv_cur : forall i, cur = Some i -> i ∉ h;
  inv_heap : heap_ok (earlier its) h;
  inv_slot : forall k, match its !! k, pend !! k with
                       | Some it, Some p => slot h L cur k it p
                       | None, None => (k ∉ h) /\ cur <> Some k
                       | _, _ => False
                       end }.

Lemma inv_lookup its h L pend cur k : Inv its h L pend cur -> k ∈ h \/ cur = Some k ->
  exists it p, its !! k = Some it /\ pend !! k = Some p /\ slot h L cur k it p.
Proof.
  intros H Hk. pose proof (inv_slot _ _ _ _ _ H k) as Hs. destruct (its !! k) as [it|], (pend !! k) as [p|]; [eauto|contradiction|contradiction|]. destruct Hs, Hk; contradiction.
Qed.

Lemma inv_in_heap its h L pend cur k : Inv its h L pend cur -> k ∈ h ->
  exists it x l, its !! k = Some it /\ pend !! k = Some (x :: l) /\ IRep it (Some x) x l /\ L <= x /\ time_at its k = x.
Proof.
  intros H Hk. destruct (inv_lookup _ _ _ _ _ k H (or_introl Hk)) as (it & p & Hi & Hp & Hs). destruct Hs as [x l _ -> Hr HL|cu m Hn _ _ _ _|Hn _ _ _]; [|contradiction|contradiction].
  exists it, x, l. split; [exact Hi|]. split; [exact Hp|]. split; [exact Hr|]. split; [exact HL|]. eapply time_at_standing; eassumption.
Qed.

(** The top of the heap has the least timestamp of all that are pending, with
    no current iterator. *)
Lemma inv_top its top h L pend t : Inv its (top :: h) L pend None -> member pend t -> time_at its top <= t.
Proof.
  intros H (k & p & Hk & Ht). pose proof (inv_slot _ _ _ _ _ H k) as Hs. rewrite Hk in Hs. destruct (its !! k) as [it|] eqn:Ei; [|contradiction].
  destruct Hs as [x l Hin -> Hr HL|cu m _ E _ _ _|_ _ -> _]; [|discriminate|apply not_elem_of_nil in Ht as []].
  pose proof (heap_least (earlier its) (top :: h) top k (inv_heap _ _ _ _ _ H) eq_refl Hin) as Hle. unfold not_above, earlier in Hle. apply Z.ltb_ge in Hle.
  rewrite (time_at_standing its k it x x l Ei Hr) in Hle. destruct (irep_wf _ _ _ _ Hr) as [Hincr _]. apply elem_of_cons in Ht as [->|Ht]; [exact Hle|].
  pose proof (proj2 (incr_cons_inv _ _ Hincr) t Ht). lia.
Qed.

(** The current iterator is exhausted. *)
Lemma inv_drop_current its h L pend i it' m : Inv its h L pend (Some i) -> pend !! i = Some [] -> IRep it' None m [] -> m <= L -> Inv (<[i := it']> its) h L pend None.
Proof.
  intros H Hp Hr Hm. pose proof (inv_cur _ _ _ _ _ H i eq_refl) as Hi. constructor.
  - apply (inv_nodup _ _ _ _ _ H).
  - discriminate.
  - apply heap_insert; [exact Hi|apply (inv_heap _ _ _ _ _ H)].
  - intros k. pose proof (inv_slot _ _ _ _ _ H k) as Hs. destruct (decide (k = i)) as [->|Hk].
    + destruct (inv_lookup _ _ _ _ _ i H (or_intror eq_refl)) as (it & p & Ei & Ep & _). rewrite list_lookup_insert_eq by (eapply lookup_lt_Some; exact Ei).
      rewrite Hp. apply Exhausted; [exact Hi|discriminate|reflexivity|]. eapply irep_done; eassumption.
    + rewrite list_lookup_insert_ne by congruence. destruct (its !! k) as [it|], (pend !! k) as [p|]; try contradiction.
      * destruct Hs as [x l H1 H2 H3 H4|cu m0 H1 H2|H1 H2 H3 H4]; [eapply InHeap; eassumption|congruence|apply Exhausted; auto; discriminate].
      * split; [apply Hs|discriminate].
Qed.

(** The current iterator stands at [x] and goes to the heap. *)
Lemma inv_push its h L pend i x l it' : Inv its h L pend (Some i) -> pend !! i = Some (x :: l) -> IRep it' (Some x) x l -> L <= x ->
  Inv (<[i := it']> its) (heap_push (earlier (<[i := it']> its)) h i) L pend None.
Proof.
  intros H Hp Hr HL. pose proof (inv_cur _ _ _ _ _ H i eq_refl) as Hi. destruct (inv_lookup _ _ _ _ _ i H (or_intror eq_refl)) as (it & p & Ei & Ep & _).
  destruct (heap_push_ok (earlier (<[i := it']> its)) h i (heap_insert its i it' h Hi (inv_heap _ _ _ _ _ H))) as [Hok Hperm]. constructor.
  - rewrite Hperm. constructor; [exact Hi|apply (inv_nodup _ _ _ _ _ H)].
  - discriminate.
  - exact Hok.
  - intros k. pose proof (inv_slot _ _ _ _ _ H k) as Hs. destruct (decide (k = i)) as [->|Hk].
    + rewrite list_lookup_insert_eq by (eapply lookup_lt_Some; exact Ei). rewrite Hp. eapply InHeap; [rewrite Hperm; left|reflexivity|exact Hr|exact HL].
    + rewrite list_lookup_insert_ne by congruence. assert (Hin : k ∈ heap_push (earlier (<[i := it']> its)) h i <-> k ∈ h)
        by (rewrite Hperm, elem_of_cons; split; [intros [E|E]; [congruence|exact E]|auto]).
      destruct (its !! k) as [it0|], (pend !! k) as [q|]; try contradiction.
      * destruct Hs as [y r H1 H2 H3 H4|cu m0 H1 H2|H1 H2 H3 H4]; [eapply InHeap; [apply Hin; exact H1|eassumption..]|congruence|].
        apply Exhausted; [rewrite Hin; exact H1|discriminate|exact H3|exact H4].
      * split; [rewrite Hin; apply Hs|discriminate].
Qed.

(** The top of the heap becomes the current iterator; its timestamp is the new bound. *)
Lemma inv_pop its h L pend : Inv its h L pend None -> h <> [] ->
  exists j h' it x l, heap_pop (earlier its) h = Ret (j, h') /\ head h = Some j /\ its !! j = Some it /\ pend !! j = Some (x :: l) /\ IRep it (Some x) x l /\ L <= x
  /\ (forall t, member pend t -> x <= t)
  /\ forall it', IRep it' (Some x) x l -> Inv (<[j := it']> its) h' x (<[j := l]> pend) (Some j).
Proof.
  intros H Hne. destruct (heap_pop_ok (earlier its) h (inv_heap _ _ _ _ _ H) Hne) as (j & h' & Epop & Hhead & Hok & Hperm).
  assert (Hj : j ∈ h) by (rewrite <- Hperm; left). destruct (inv_in_heap _ _ _ _ _ j H Hj) as (it & x & l & Ei & Ep & Hr & HL & Htime).
  exists j, h', it, x, l. split; [exact Epop|]. split; [exact Hhead|]. split; [exact Ei|]. split; [exact Ep|]. split; [exact Hr|]. split; [exact HL|].
  assert (Hmin : forall t, member pend t -> x <= t).
  { intros t Ht. destruct h as [|top h0]; [congruence|]. injection Hhead as ->. rewrite <- Htime. exact (inv_top its j h0 L pend t H Ht). }
  split; [exact Hmin|]. intros it' Hr'. pose proof (inv_nodup _ _ _ _ _ H) as Hnd. rewrite <- Hperm in Hnd. apply NoDup_cons in Hnd as [Hjh Hnd]. constructor.
  - exact Hnd.
  - intros i [= ->]. exact Hjh.
  - apply heap_insert; assumption.
  - intros k. pose proof (inv_slot _ _ _ _ _ H k) as Hs. destruct (decide (k = j)) as [->|Hk].
    + rewrite !list_lookup_insert_eq by (eapply lookup_lt_Some; eassumption). eapply Current; [exact Hjh|reflexivity|exact Hr'|lia|].
      destruct (irep_wf _ _ _ _ Hr) as [Hincr _]. apply (incr_cons_inv _ _ Hincr).
    + rewrite !list_lookup_insert_ne by congruence. assert (Hin : k ∈ h' <-> k ∈ h) by (rewrite <- Hperm, elem_of_cons; split; [auto|intros [E|E]; [congruence|exact E]]).
      destruct (its !! k) as [it0|] eqn:Ek, (pend !! k) as [q|] eqn:Eq; try contradiction.
      * destruct Hs as [y r H1 H2 H3 H4|cu m0 H1 H2|H1 H2 H3 H4]; [|discriminate|].
        -- eapply InHeap; [apply Hin; exact H1|exact H2|exact H3|]. apply Hmin. exists k, q. split; [exact Eq|]. rewrite H2. left.
        -- apply Exhausted; [rewrite Hin; exact H1|congruence|exact H3|]. eapply irep_done; [exact H4|exact HL].
      * split; [rewrite Hin; apply Hs|congruence].
Qed.

(** ** The loop of [Next] *)

Definition standing (c : chainSampleIterator It) (i : nat) (pend : list (list Z)) (x : Z) (v : value) : Prop :=
  exists it l, c_iterators c !! i = Some it /\ pend !! i = Some l /\ IRep it (Some x) x l /\ it_At it = Ret (x, v).

(** The chain stands at [x]; [pend] is what was pending, past [L]. *)
Definition at_next (c : chainSampleIterator It) (L : Z) (pend : list (list Z)) (x : Z) (v : value) : Prop :=
  exists h i pend', c_h c = Some h /\ c_curr c = Some i /\ c_lastT c = x /\ Inv (c_iterators c) h x pend' (Some i) /\ standing c i pend' x v
  /\ L < x /\ member pend x /\ (forall t, member pend t -> L < t -> x <= t) /\ (forall t, x < t -> member pend' t <-> member pend t).
Definition ended (c : chainSampleIterator It) (L : Z) : Prop :=
  c_h c = Some [] /\ c_curr c = None /\ exists pend', Inv (c_iterators c) [] L pend' None.

Lemma found_bound it' x m l : IRep it' (Some x) m l -> m = x.
Proof. intros H. apply (irep_wf _ _ _ _ H). reflexivity. Qed.

Lemma take_top_ok c h L pend : Inv (c_iterators c) h L pend None -> c_h c = Some h -> h <> [] ->
  exists j x l v its' h', pend !! j = Some (x :: l) /\ L <= x /\ (forall t, member pend t -> x <= t) /\ Inv its' h' x (<[j := l]> pend) (Some j)
  /\ (exists it', its' !! j = Some it' /\ IRep it' (Some x) x l /\ it_At it' = Ret (x, v))
  /\ returns (take_top c) (if x =? c_lastT c then inl (mkChain its' (Some h') (Some j) (c_lastT c) (c_consecutive c), true)
                           else inr (type_of v, mkChain its' (Some h') (Some j) x false)).
Proof.
  intros H Hh Hne. destruct (inv_pop _ _ _ _ H Hne) as (j & h' & it & x & l & Epop & _ & Ei & Ep & Hr & HL & Hmin & Hinv).
  destruct (iseek_stay it x x l x Hr ltac:(lia)) as (it' & (v & Hseek & Hat) & Hr').
  exists j, x, l, v, (<[j := it']> (c_iterators c)), h'. split; [exact Ep|]. split; [exact HL|]. split; [exact Hmin|]. split; [apply Hinv; exact Hr'|]. split.
  { exists it'. split; [apply list_lookup_insert_eq; eapply lookup_lt_Some; exact Ei|]. auto. }
  unfold take_top, pop, heap_of. rewrite Hh. change (default [] (Some h)) with h. rewrite Epop. eapply returns_bind; [apply returns_lift; reflexivity|]. cbv beta iota.
  destruct (irep_at _ _ _ _ Hr) as [Ht _]. eapply returns_bind; [apply returns_lift; unfold at_t; cbn; rewrite Ei; exact Ht|]. cbv beta.
  eapply returns_bind; [eapply on_returns; [exact Ei|exact Hseek]|]. cbn. destruct (x =? c_lastT c); apply returns_ret.
Qed.

Lemma ended_bound its L pend t : Inv its [] L pend None -> ~ member pend t.
Proof.
  intros H (k & p & Hk & Ht). pose proof (inv_slot _ _ _ _ _ H k) as Hs. rewrite Hk in Hs. destruct (its !! k) as [it|]; [|contradiction].
  destruct Hs as [x l Hin _ _ _|cu m _ E _ _ _|_ _ -> _]; [apply not_elem_of_nil in Hin as []|discriminate|apply not_elem_of_nil in Ht as []].
Qed.

(** The current iterator moves to [x], which is not past the top of the heap. *)
Lemma inv_advance its h L pend i x l it' : Inv its h L pend (Some i) -> pend !! i = Some (x :: l) -> IRep it' (Some x) x l -> L < x ->
  (forall k, k ∈ h -> x <= time_at its k) -> Inv (<[i := it']> its) h x (<[i := l]> pend) (Some i).
Proof.
  intros H Hp Hr HL Hmin. pose proof (inv_cur _ _ _ _ _ H i eq_refl) as Hi. destruct (inv_lookup _ _ _ _ _ i H (or_intror eq_refl)) as (it & p & Ei & _ & _). constructor.
  - apply (inv_nodup _ _ _ _ _ H).
  - intros j [= <-]. exact Hi.
  - apply heap_insert; [exact Hi|apply (inv_heap _ _ _ _ _ H)].
  - intros k. pose proof (inv_slot _ _ _ _ _ H k) as Hs. destruct (decide (k = i)) as [->|Hk].
    + rewrite !list_lookup_insert_eq by (eapply lookup_lt_Some; eassumption). eapply Current; [exact Hi|reflexivity|exact Hr|lia|].
      destruct (irep_wf _ _ _ _ Hr) as [Hincr _]. apply (incr_cons_inv _ _ Hincr).
    + rewrite !list_lookup_insert_ne by congruence. destruct (its !! k) as [it0|] eqn:Ek, (pend !! k) as [q|]; try contradiction; [|exact Hs].
      destruct Hs as [y r H1 H2 H3 H4|cu m0 H1 H2|H1 H2 H3 H4]; [|congruence|apply Exhausted; auto; eapply irep_done; [exact H4|lia]].
      eapply InHeap; [exact H1|exact H2|exact H3|]. rewrite <- (time_at_standing its k it0 y y r Ek H3). apply Hmin. exact H1.
Qed.

Lemma current_least its h L pend i x l it' t : Inv its h L pend (Some i) -> pend !! i = Some (x :: l) -> IRep it' (Some x) x l ->
  (forall k, k ∈ h -> x <= time_at its k) -> member pend t -> x <= t.
Proof.
  intros H Hp Hr Hmin (k & p & Hk & Ht). pose proof (inv_slot _ _ _ _ _ H k) as Hs. rewrite Hk in Hs. destruct (its !! k) as [it0|] eqn:Ek; [|contradiction].
  destruct Hs as [y r H1 -> H3 _|cu m0 _ E _ _ _|_ _ -> _]; [| |apply not_elem_of_nil in Ht as []].
  - specialize (Hmin k H1). rewrite (time_at_standing its k it0 y y r Ek H3) in Hmin. apply elem_of_cons in Ht as [->|Ht]; [exact Hmin|].
    destruct (irep_wf _ _ _ _ H3) as [Hi _]. pose proof (proj2 (incr_cons_inv _ _ Hi) t Ht). lia.
  - injection E as ->. rewrite Hp in Hk. injection Hk as <-. apply elem_of_cons in Ht as [->|Ht]; [lia|].
    destruct (irep_wf _ _ _ _ Hr) as [Hi _]. pose proof (proj2 (incr_cons_inv _ _ Hi) t Ht). lia.
Qed.

Lemma top_least its h L pend cur top k : Inv its (top :: h) L pend cur -> k ∈ top :: h -> time_at its top <= time_at its k.
Proof.
  intros H Hk. pose proof (heap_least (earlier its) (top :: h) top k (inv_heap _ _ _ _ _ H) eq_refl Hk) as Hle. unfold not_above, earlier in Hle. apply Z.ltb_ge in Hle. exact Hle.
Qed.

(** What the loop starts from: the current iterator, with the timestamp [c_lastT] passed. *)
Record ready (c : chainSampleIterator It) (h : list nat) (i : nat) (L : Z) (pend : list (list Z)) : Prop := {
  rd_inv : Inv (c_iterators c) h L pend (Some i);
  rd_heap : c_h c = Some h;
  rd_curr : c_curr c = Some i;
  rd_last : forall t, member pend t -> L <= t -> t = c_lastT c <-> t = L }.

(** The three ways in which a turn can go. *)
Definition turn_ends (c : chainSampleIterator It) (ch : bool) (L : Z) (pend : list (list Z)) : Prop :=
  exists c', returns (chain_body (c, ch)) (inr (ValNone, c')) /\ ended c' L /\ forall t, ~ member pend t.
Definition turn_finds (c : chainSampleIterator It) (ch : bool) (L : Z) (pend : list (list Z)) : Prop :=
  exists c' x v, returns (chain_body (c, ch)) (inr (type_of v, c')) /\ at_next c' L pend x v.
Definition turn_takes (c : chainSampleIterator It) (ch : bool) (L : Z) (pend : list (list Z)) : Prop :=
  exists c1 h1, Inv (c_iterators c1) h1 L pend None /\ c_h c1 = Some h1 /\ h1 <> [] /\ c_lastT c1 = c_lastT c
  /\ forall r, returns (take_top c1) r -> returns (chain_body (c, ch)) r.

Lemma turn_exhausted c ch h i L pend : ready c h i L pend -> pend !! i = Some [] -> turn_ends c ch L pend \/ turn_takes c ch L pend.
Proof.
  intros [H Hh Hc _] Ep. destruct (inv_lookup _ _ _ _ _ i H (or_intror eq_refl)) as (it & p & Ei & Ep' & Hs). rewrite Ep in Ep'. injection Ep' as <-.
  destruct Hs as [x l Hin _ _ _|cu m Hin _ Hr Hm HpL|_ Hc' _ _]; [exfalso; exact (inv_cur _ _ _ _ _ H i eq_refl Hin)| |congruence].
  pose proof (lookup_lt_Some _ _ _ Ei) as Hlen. destruct (inext_nil it cu m Hr) as (it' & Hnext & Hr').
  pose proof (inv_drop_current _ h L pend i it' m H Ep Hr' Hm) as H'. set (c1 := set_its c (<[i := it']> (c_iterators c))).
  assert (Herr : err_of i c1 = None) by (unfold err_of; cbn; rewrite list_lookup_insert_eq by exact Hlen; exact (irep_err _ _ _ _ Hr')).
  assert (Hbody : forall o, returns (if bool_decide (h = []) then rret (inr (ValNone, set_curr c1 None)) else take_top c1) o -> returns (chain_body (c, ch)) o).
  { intros o Ho. unfold chain_body. rewrite Hc. eapply returns_bind; [eapply on_returns; [exact Ei|exact Hnext]|]. fold c1.
    cbv beta iota. rewrite bool_decide_eq_true_2, Herr by reflexivity. unfold heap_of. replace (c_h c1) with (Some h) by (symmetry; exact Hh). exact Ho. }
  destruct h as [|top h].
  - left. exists (set_curr c1 None). split; [apply Hbody, returns_ret|]. split; [split; [exact Hh|split; [reflexivity|exists pend; exact H']]|]. intros t. exact (ended_bound _ _ _ t H').
  - right. exists c1, (top :: h). split; [exact H'|]. split; [exact Hh|]. split; [discriminate|]. split; [reflexivity|]. exact Hbody.
Qed.

Lemma turn_found c ch h i L pend x l : ready c h i L pend -> pend !! i = Some (x :: l) -> turn_finds c ch L pend \/ turn_takes c ch L pend.
Proof.
  intros [H Hh Hc HG] Ep. destruct (inv_lookup _ _ _ _ _ i H (or_intror eq_refl)) as (it & p & Ei & Ep' & Hs). rewrite Ep in Ep'. injection Ep' as <-.
  destruct Hs as [? ? Hin _ _ _|cu m Hin _ Hr Hm HpL|_ Hc' _ _]; [exfalso; exact (inv_cur _ _ _ _ _ H i eq_refl Hin)| |congruence].
  pose proof (lookup_lt_Some _ _ _ Ei) as Hlen. destruct (inext_cons it cu m x l Hr) as (it' & (v & Hnext & Hat) & Hr').
  assert (Hx : L < x) by (apply HpL; left). assert (Hmem : member pend x) by (exists i, (x :: l); split; [exact Ep|left]).
  assert (HxT : x <> c_lastT c) by (intros E; apply (HG x Hmem) in E; lia). set (c1 := set_its c (<[i := it']> (c_iterators c))).
  assert (Hfin : (forall k, k ∈ h -> x <= time_at (c_iterators c) k) -> at_next (mkChain (c_iterators c1) (c_h c1) (c_curr c1) x (negb ch)) L pend x v).
  { intros Hmin. exists h, i, (<[i := l]> pend). split; [exact Hh|]. split; [exact Hc|]. split; [reflexivity|]. split; [apply (inv_advance _ _ L _ _ _ _ _ H Ep Hr' Hx Hmin)|]. split.
    - exists it', l. split; [apply list_lookup_insert_eq; exact Hlen|]. split; [apply list_lookup_insert_eq; eapply lookup_lt_Some; exact Ep|]. auto.
    - split; [exact Hx|]. split; [exact Hmem|]. split; [intros t Ht _; exact (current_least _ _ _ _ _ _ _ _ t H Ep Hr' Hmin Ht)|].
      intros t Ht. apply pending_insert with (x := x); [exact Ep|lia]. }
  assert (Hbody : forall o, returns (match h with [] => finish (type_of v) ch x c1
             | top :: _ => do nextT <- rlift (at_t top c1) ;; if x <? nextT then finish (type_of v) ch x c1 else take_top (push i c1) end) o -> returns (chain_body (c, ch)) o).
  { intros o Ho. unfold chain_body. rewrite Hc. eapply returns_bind; [eapply on_returns; [exact Ei|exact Hnext]|]. fold c1. cbv beta iota. rewrite (bool_decide_eq_false_2 _ (type_of_some v)).
    eapply returns_bind; [apply returns_lift; unfold at_t, c1; cbn; rewrite list_lookup_insert_eq by exact Hlen; exact (proj1 (irep_at _ _ _ _ Hr'))|]. cbv beta.
    replace (c_lastT c1) with (c_lastT c) by reflexivity. rewrite (proj2 (Z.eqb_neq _ _) HxT). unfold heap_of. replace (c_h c1) with (Some h) by (symmetry; exact Hh). exact Ho. }
  destruct h as [|top h].
  - left. eexists _, x, v. split; [apply Hbody, returns_ret|]. apply Hfin. intros k Hk. apply not_elem_of_nil in Hk as [].
  - destruct (inv_in_heap _ _ _ _ _ top H ltac:(left)) as (itt & y & r & Eit & Epy & Hry & HLy & Htime).
    assert (Htop : at_t top c1 = Ret y).
    { unfold at_t. cbn. rewrite list_lookup_insert_ne by (intros ->; apply (inv_cur _ _ _ _ _ H top eq_refl); left). rewrite Eit. exact (proj1 (irep_at _ _ _ _ Hry)). }
    destruct (x <? y) eqn:Exy.
    + left. eexists _, x, v. split; [apply Hbody; eapply returns_bind; [apply returns_lift; exact Htop|]; cbv beta; rewrite Exy; apply returns_ret|].
      apply Hfin. intros k Hk. apply Z.ltb_lt in Exy. pose proof (top_least _ _ _ _ _ _ k H Hk). lia.
    + right. exists (push i c1), (heap_push (earlier (c_iterators c1)) (top :: h) i). split; [apply (inv_push _ _ L _ _ x l it' H Ep Hr'); lia|].
      split; [unfold push, heap_of; replace (c_h c1) with (Some (top :: h)) by (symmetry; exact Hh); reflexivity|]. split.
      * intros E. pose proof (proj2 (heap_push_ok (earlier (c_iterators c1)) (top :: h) i (heap_insert _ i it' _ (inv_cur _ _ _ _ _ H i eq_refl) (inv_heap _ _ _ _ _ H)))) as Hperm.
        rewrite E in Hperm. apply Permutation_nil in Hperm. discriminate.
      * split; [reflexivity|]. intros o Ho. apply Hbody. eapply returns_bind; [apply returns_lift; exact Htop|]. cbv beta. rewrite Exy. exact Ho.
Qed.

Definition next_ok (m : run (ValueType * chainSampleIterator It)) (L : Z) (pend : list (list Z)) : Prop :=
  (exists c', returns m (ValNone, c') /\ ended c' L /\ forall t, member pend t -> t <= L)
  \/ (exists c' x v, returns m (type_of v, c') /\ at_next c' L pend x v).

(** A timestamp that was passed may be left out. *)
Lemma next_ok_insert m L pend j l : pend !! j = Some (L :: l) -> next_ok m L (<[j := l]> pend) -> next_ok m L pend.
Proof.
  intros Ep [(c' & Hc' & He & Hle)|(c' & y & w & Hc' & h2 & i2 & p2 & A1 & A2 & A3 & A4 & A5 & A6 & A7 & A8 & A9)].
  - left. exists c'. split; [exact Hc'|]. split; [exact He|]. intros t Ht. destruct (decide (t = L)) as [->|Hne]; [lia|]. apply Hle, (pending_insert pend j L l t Ep Hne), Ht.
  - right. exists c', y, w. split; [exact Hc'|]. exists h2, i2, p2. repeat (split; [assumption|]). split; [apply (pending_insert pend j L l y Ep); [lia|exact A7]|]. split.
    + intros t Ht Hlt. apply A8; [apply (pending_insert pend j L l t Ep); [lia|exact Ht]|exact Hlt].
    + intros t Ht. rewrite (A9 t Ht). apply (pending_insert pend j L l t Ep). lia.
Qed.

Lemma loop_ok n c ch h i L pend : (total pend <= n)%nat -> ready c h i L pend -> next_ok (rloop chain_body (c, ch)) L pend.
Proof.
  revert c ch h i pend. induction n as [n IH] using lt_wf_ind. intros c ch h i pend Hn Hrd.
  assert (Hturn : turn_ends c ch L pend \/ turn_finds c ch L pend \/ turn_takes c ch L pend).
  { destruct (inv_lookup _ _ _ _ _ i (rd_inv _ _ _ _ _ Hrd) (or_intror eq_refl)) as (it & [|x l] & _ & Ep & _).
    - pose proof (turn_exhausted c ch h i L pend Hrd Ep). tauto.
    - pose proof (turn_found c ch h i L pend x l Hrd Ep). tauto. }
  destruct Hturn as [(c' & Hret & He & Hno)|[(c' & x & v & Hret & Hat)|(c1 & h1 & H1 & Hh1 & Hne & HlT & Hbody)]].
  - left. exists c'. split; [apply returns_loop_end; exact Hret|]. split; [exact He|]. intros t Ht. destruct (Hno t Ht).
  - right. exists c', x, v. split; [apply returns_loop_end; exact Hret|exact Hat].
  - destruct (take_top_ok c1 h1 L pend H1 Hh1 Hne) as (j & x & l & v & its' & h' & Ep & HL & Hmin & Hinv & (it' & Ei' & Hr' & Hat) & Hret).
    apply Hbody in Hret. rewrite HlT in Hret. pose proof (rd_last _ _ _ _ _ Hrd) as HG.
    assert (Hmem : member pend x) by (exists j, (x :: l); split; [exact Ep|left]). destruct (Z.eqb_spec x (c_lastT c)) as [Ex|Ex].
    + assert (x = L) by (apply (HG x Hmem HL); exact Ex). subst L.
      pose proof (pending_total pend j x l Ep) as Htot. apply (next_ok_insert _ x pend j l Ep).
      destruct (IH (total (<[j := l]> pend)) ltac:(lia) (mkChain its' (Some h') (Some j) (c_lastT c) (c_consecutive c1)) true h' j _ (le_n _)) as [(c' & Hc' & He)|(c' & y & w & Hc' & Hnx)].
      * constructor; [exact Hinv|reflexivity|reflexivity|]. intros t Ht Hle. cbn. rewrite <- Ex. reflexivity.
      * left. exists c'. split; [eapply returns_loop_next; eassumption|exact He].
      * right. exists c', y, w. split; [eapply returns_loop_next; eassumption|exact Hnx].
    + right. eexists _, x, v. split; [apply returns_loop_end; exact Hret|]. exists h', j, (<[j := l]> pend). split; [reflexivity|]. split; [reflexivity|]. split; [reflexivity|]. split; [exact Hinv|]. split.
      { exists it', l. split; [exact Ei'|]. split; [apply list_lookup_insert_eq; eapply lookup_lt_Some; exact Ep|]. auto. }
      assert (x <> L) by (intros E; apply Ex, (HG x Hmem HL), E).
      split; [lia|]. split; [exact Hmem|]. split; [intros t Ht _; apply Hmin, Ht|]. intros t Ht. apply pending_insert with (x := x); [exact Ep|lia].
Qed.

(** ** Filling the heap *)

(** What the call [m] finds with an iterator that has [p] to come, all after [L]. *)
Definition call_ok (m : It -> run (ValueType * It)) (L : Z) (it : It) (p : list Z) : Prop :=
  match p with
  | x :: l => L <= x /\ exists it', found (m it) it' x /\ IRep it' (Some x) x l
  | [] => exists it', returns (m it) (ValNone, it') /\ IRep it' None L []
  end.

(** The invariant for the first [n] iterators; the others are still to be called. *)
Record Partial (m : It -> run (ValueType * It)) (n : nat) (its : list It) (h : list nat) (L : Z) (pend : list (list Z)) (cur : option nat) : Prop := {
  pa_nodup : NoDup h;
  pa_cur : forall i, cur = Some i -> (i ∉ h) /\ (i < n)%nat;
  pa_heap : heap_ok (earlier its) h;
  pa_length : length pend = length its;
  pa_slot : forall k it p, its !! k = Some it -> pend !! k = Some p -> if (k <? n)%nat then slot h L cur k it p else call_ok m L it p;
  pa_in : forall k, k ∈ h -> (k < n)%nat;
  pa_bound : (n <= length its)%nat }.

Lemma partial_inv m its h L pend cur : Partial m (length its) its h L pend cur -> Inv its h L pend cur.
Proof.
  intros [H1 H2 H3 H4 H5 H6 H7]. constructor; [exact H1|intros i Hi; apply H2, Hi|exact H3|]. intros k.
  destruct (its !! k) as [it|] eqn:Ei, (pend !! k) as [p|] eqn:Ep.
  - specialize (H5 k it p Ei Ep). apply lookup_lt_Some in Ei. destruct (Nat.ltb_spec k (length its)); [exact H5|lia].
  - apply lookup_lt_Some in Ei. apply lookup_ge_None in Ep. lia.
  - apply lookup_lt_Some in Ep. apply lookup_ge_None in Ei. lia.
  - apply lookup_ge_None in Ei. split; [intros Hk; specialize (H6 k Hk); lia|intros E; apply H2 in E as [_ E]; lia].
Qed.

(** One more iterator was called and is not in the heap. *)
Lemma partial_none m n its h L pend cur it' : Partial m n its h L pend cur -> (n < length its)%nat -> pend !! n = Some [] -> IRep it' None L [] ->
  Partial m (S n) (<[n := it']> its) h L pend cur.
Proof.
  intros [H1 H2 H3 H4 H5 H6 H7] Hn Ep Hr. assert (Hnh : n ∉ h) by (intros Hk; apply H6 in Hk; lia). constructor; [exact H1| | | | | |].
  - intros i Hi. destruct (H2 i Hi). split; [assumption|lia].
  - apply heap_insert; assumption.
  - rewrite length_insert. exact H4.
  - intros k it p Ei Ek. destruct (decide (k = n)) as [->|Hk].
    + rewrite list_lookup_insert_eq in Ei by exact Hn. injection Ei as <-. rewrite Ep in Ek. injection Ek as <-. destruct (Nat.ltb_spec n (S n)); [|lia].
      apply Exhausted; [exact Hnh| |reflexivity|exact Hr]. intros E. apply H2 in E as [_ E]. lia.
    + rewrite list_lookup_insert_ne in Ei by congruence. specialize (H5 k it p Ei Ek). destruct (Nat.ltb_spec k n), (Nat.ltb_spec k (S n)); try lia; exact H5.
  - intros k Hk. apply H6 in Hk. lia.
  - rewrite length_insert. lia.
Qed.

(** One more iterator was called and went to the heap. *)
Lemma partial_push m n its h L pend cur it' x l : Partial m n its h L pend cur -> (n < length its)%nat -> pend !! n = Some (x :: l) -> L <= x -> IRep it' (Some x) x l ->
  Partial m (S n) (<[n := it']> its) (heap_push (earlier (<[n := it']> its)) h n) L pend cur.
Proof.
  intros [H1 H2 H3 H4 H5 H6 H7] Hn Ep HL Hr. assert (Hnh : n ∉ h) by (intros Hk; apply H6 in Hk; lia).
  destruct (heap_push_ok (earlier (<[n := it']> its)) h n (heap_insert its n it' h Hnh H3)) as [Hok Hperm].
  assert (Hin : forall k, k ∈ heap_push (earlier (<[n := it']> its)) h n <-> k = n \/ k ∈ h) by (intros k; rewrite Hperm; apply elem_of_cons). constructor.
  - rewrite Hperm. constructor; assumption.
  - intros i Hi. destruct (H2 i Hi). split; [rewrite Hin; intros [E|E]; [lia|contradiction]|lia].
  - exact Hok.
  - rewrite length_insert. exact H4.
  - intros k it p Ei Ek. destruct (decide (k = n)) as [->|Hk].
    + rewrite list_lookup_insert_eq in Ei by exact Hn. injection Ei as <-. rewrite Ep in Ek. injection Ek as <-. destruct (Nat.ltb_spec n (S n)); [|lia].
      eapply InHeap; [apply Hin; left; reflexivity|reflexivity|exact Hr|exact HL].
    + rewrite list_lookup_insert_ne in Ei by congruence. specialize (H5 k it p Ei Ek). destruct (Nat.ltb_spec k n), (Nat.ltb_spec k (S n)); try lia; [|exact H5].
      destruct H5 as [y r A1 A2 A3 A4|cu m0 A1 A2 A3 A4 A5|A1 A2 A3 A4].
      * eapply InHeap; [apply Hin; right; exact A1|eassumption..].
      * eapply Current; [rewrite Hin; intros [E|E]; [lia|contradiction]|eassumption..].
      * apply Exhausted; [rewrite Hin; intros [E|E]; [lia|contradiction]|assumption..].
  - intros k Hk. apply Hin in Hk as [->|Hk]; [lia|]. apply H6 in Hk. lia.
  - rewrite length_insert. lia.
Qed.

Lemma fill_ok m d n c h L pend cur : length (c_iterators c) = (n + d)%nat -> c_h c = Some h -> Partial m n (c_iterators c) h L pend cur ->
  exists its' h', returns (fill m (seq n d) c) (true, mkChain its' (Some h') (c_curr c) (c_lastT c) (c_consecutive c)) /\ Inv its' h' L pend cur /\ length its' = length (c_iterators c).
Proof.
  revert n c h. induction d as [|d IH]; intros n c h Hlen Hh HP; cbn [seq fill].
  - exists (c_iterators c), h. split; [destruct c; cbn in *; subst; apply returns_ret|]. split; [|reflexivity]. apply partial_inv with (m := m). rewrite Hlen, Nat.add_0_r. exact HP.
  - destruct (lookup_lt_is_Some_2 (c_iterators c) n) as [it Ei]; [lia|]. destruct (lookup_lt_is_Some_2 pend n) as [p Ep]; [rewrite (pa_length _ _ _ _ _ _ _ HP); lia|].
    pose proof (pa_slot _ _ _ _ _ _ _ HP n it p Ei Ep) as Hs. destruct (Nat.ltb_spec n n); [lia|]. unfold call_ok in Hs. destruct p as [|x l].
    + destruct Hs as (it' & Hm & Hr). assert (HP' := partial_none _ _ _ _ _ _ _ it' HP ltac:(lia) Ep Hr).
      destruct (IH (S n) (set_its c (<[n := it']> (c_iterators c))) h) as (its' & h' & Hf & Hi & Hl); [cbn; rewrite length_insert; lia|exact Hh|exact HP'|].
      exists its', h'. split; [|split; [exact Hi|cbn in Hl; rewrite length_insert in Hl; exact Hl]].
      eapply returns_bind; [eapply on_returns; [exact Ei|exact Hm]|]. cbv beta iota. rewrite bool_decide_eq_true_2 by reflexivity.
      assert (Herr : err_of n (set_its c (<[n := it']> (c_iterators c))) = None) by (unfold err_of; cbn; rewrite list_lookup_insert_eq by lia; exact (irep_err _ _ _ _ Hr)).
      rewrite Herr. exact Hf.
    + destruct Hs as (HL & it' & (v & Hm & Hat) & Hr). assert (HP' := partial_push _ _ _ _ _ _ _ it' x l HP ltac:(lia) Ep HL Hr).
      destruct (IH (S n) (push n (set_its c (<[n := it']> (c_iterators c)))) (heap_push (earlier (<[n := it']> (c_iterators c))) h n)) as (its' & h' & Hf & Hi & Hl).
      { cbn. rewrite length_insert. lia. }
      { unfold push, heap_of. cbn. rewrite Hh. reflexivity. }
      { exact HP'. }
      exists its', h'. split; [|split; [exact Hi|cbn in Hl; rewrite length_insert in Hl; exact Hl]].
      eapply returns_bind; [eapply on_returns; [exact Ei|exact Hm]|]. cbv beta iota. rewrite (bool_decide_eq_false_2 _ (type_of_some v)). exact Hf.
Qed.

(** ** The chain keeps the contract *)

(** A chain gives up what it knows about resets of counters. *)
Context (P_weaken : forall t v, P (t, v) -> P (t, weaken v)).

(** [l] is what is pending past [m]. *)
Definition pending_from (m : Z) (pend : list (list Z)) (l : list Z) : Prop := forall t, t ∈ l <-> m < t /\ member pend t.

Definition fresh (c : chainSampleIterator It) (m : Z) (l : list Z) : Prop :=
  c_h c = None /\ c_curr c = None /\ c_lastT c <= m /\ c_iterators c <> [] /\ exists pend, length pend = length (c_iterators c)
  /\ (forall k it p, c_iterators c !! k = Some it -> pend !! k = Some p -> exists m', m' <= m /\ IRep it None m' p /\ forall t, t ∈ p -> m < t)
  /\ pending_from m pend l.
Definition running (c : chainSampleIterator It) (x : Z) (l : list Z) : Prop :=
  exists h i v pend, c_h c = Some h /\ c_curr c = Some i /\ c_lastT c = x /\ Inv (c_iterators c) h x pend (Some i) /\ standing c i pend x v /\ pending_from x pend l.
Definition chain_rep (c : chainSampleIterator It) (cur : option Z) (m : Z) (l : list Z) : Prop :=
  incr (m :: l) /\ match cur with Some x => m = x /\ running c x l | None => fresh c m l \/ (l = [] /\ ended c m) end.

Lemma type_of_weaken v : type_of (weaken v) = type_of v.
Proof. destruct v; reflexivity. Qed.

Lemma chain_at_standing c i pend x v : c_curr c = Some i -> standing c i pend x v ->
  exists v', type_of v' = type_of v /\ chain_AtT c = Ret x /\ chain_At c = Ret (x, v') /\ P (x, v').
Proof.
  intros Hc (it & l & Ei & _ & Hr & Hat). destruct (irep_at _ _ _ _ Hr) as (Ht & w & Hw & HP). rewrite Hat in Hw. injection Hw as <-.
  exists (if c_consecutive c then v else weaken v). unfold chain_AtT, at_t, chain_At. rewrite Hc, Ei, Ht, Hat.
  destruct (c_consecutive c); auto using type_of_weaken.
Qed.

Lemma pending_first L pend l x : incr (L :: l) -> pending_from L pend l -> L < x -> member pend x -> (forall t, member pend t -> L < t -> x <= t) -> exists r, l = x :: r.
Proof.
  intros Hl Hp HL Hm Hmin. assert (Hx : x ∈ l) by (apply Hp; auto). destruct l as [|y r]; [apply not_elem_of_nil in Hx as []|]. exists r. f_equal.
  destruct (proj1 (Hp y) ltac:(left)) as [Hy1 Hy2]. specialize (Hmin y Hy2 Hy1). apply elem_of_cons in Hx as [->|Hx]; [reflexivity|].
  pose proof (proj2 (incr_cons_inv _ _ (proj1 (incr_cons_inv _ _ Hl))) x Hx). lia.
Qed.

(** After [x], only what is later is pending. *)
Lemma pending_rest L pend pend' x r : incr (L :: x :: r) -> pending_from L pend (x :: r) -> (forall t, x < t -> member pend' t <-> member pend t) -> pending_from x pend' r.
Proof.
  intros Hl Hp Hpend t. pose proof (incr_bound _ _ Hl x ltac:(left)) as HLx. pose proof (incr_bound _ _ (proj1 (incr_cons_inv _ _ Hl))) as Hb. split.
  - intros Ht. specialize (Hb t Ht). split; [exact Hb|]. apply Hpend; [exact Hb|]. apply (Hp t). right. exact Ht.
  - intros [Ht Hm]. apply Hpend in Hm; [|exact Ht]. assert (Hin : t ∈ x :: r) by (apply Hp; split; [lia|exact Hm]). apply elem_of_cons in Hin as [->|Hin]; [lia|exact Hin].
Qed.

Lemma pending_none L pend l : pending_from L pend l -> (forall t, member pend t -> t <= L) -> l = [].
Proof. intros Hp Hle. destruct l as [|y r]; [reflexivity|]. destruct (proj1 (Hp y) ltac:(left)) as [H1 H2]. specialize (Hle y H2). lia. Qed.

(** What a call that finds the least timestamp past [m] establishes. *)
Definition moved (m : run (ValueType * chainSampleIterator It)) (L : Z) (l : list Z) : Prop :=
  match l with
  | x :: r => exists c', found m c' x /\ chain_rep c' (Some x) x r
  | [] => exists c', returns m (ValNone, c') /\ chain_rep c' None L []
  end.

Lemma next_moved m L pend l : incr (L :: l) -> pending_from L pend l -> next_ok m L pend -> moved m L l.
Proof.
  intros Hl Hp [(c' & Hret & He & Hle)|(c' & x & v & Hret & h & i & pend' & A1 & A2 & A3 & A4 & A5 & A6 & A7 & A8 & A9)].
  - rewrite (pending_none L pend l Hp Hle). exists c'. split; [exact Hret|]. split; [repeat constructor|]. right. auto.
  - destruct (pending_first L pend l x Hl Hp A6 A7 A8) as [r ->]. destruct (chain_at_standing c' i pend' x v A2 A5) as (v' & Ety & _ & Hat & _).
    exists c'. split; [exists v'; rewrite Ety; split; [exact Hret|exact Hat]|]. split; [exact (proj1 (incr_cons_inv _ _ Hl))|]. split; [reflexivity|].
    exists h, i, v, pend'. repeat (split; [assumption|]). exact (pending_rest L pend pend' x r Hl Hp A9).
Qed.

Lemma first_error_none (its : list It) : (forall k it, its !! k = Some it -> it_Err it = None) -> first_error its = None.
Proof. induction its as [|it its IH]; [reflexivity|]. intros H. cbn. rewrite (H 0%nat it eq_refl). apply IH. intros k. exact (H (S k)). Qed.

Lemma inv_no_error its h L pend cur : Inv its h L pend cur -> first_error its = None.
Proof.
  intros H. apply first_error_none. intros k it Ei. pose proof (inv_slot _ _ _ _ _ H k) as Hs. rewrite Ei in Hs. destruct (pend !! k) as [p|]; [|contradiction].
  destruct Hs as [x l _ _ Hr _|cu m _ _ Hr _ _|_ _ _ Hr]; exact (irep_err _ _ _ _ Hr).
Qed.

Lemma chain_err c cur m l : chain_rep c cur m l -> first_error (c_iterators c) = None.
Proof.
  intros [_ H]. destruct cur as [x|].
  - destruct H as (_ & h & i & v & pend & _ & _ & _ & H & _). exact (inv_no_error _ _ _ _ _ H).
  - destruct H as [(_ & _ & _ & _ & pend & Hlen & H & _)|(_ & _ & _ & pend & H)]; [|exact (inv_no_error _ _ _ _ _ H)].
    apply first_error_none. intros k it Ei. destruct (lookup_lt_is_Some_2 pend k) as [p Ep]; [rewrite Hlen; eapply lookup_lt_Some; exact Ei|].
    destruct (H k it p Ei Ep) as (m' & _ & Hr & _). exact (irep_err _ _ _ _ Hr).
Qed.

(** *** [Next] *)

(** Before the first call only the first iterator is current, and no other was called. *)
Lemma fresh_partial c m l pend : c_iterators c <> [] -> length pend = length (c_iterators c) ->
  (forall k it p, c_iterators c !! k = Some it -> pend !! k = Some p -> exists m', m' <= m /\ IRep it None m' p /\ forall t, t ∈ p -> m < t) ->
  pending_from m pend l -> Partial it_Next 1 (c_iterators c) [] m pend (Some 0%nat).
Proof.
  intros Hne Hlen H Hp. assert (0 < length (c_iterators c))%nat by (destruct (c_iterators c); [congruence|cbn; lia]). constructor.
  - constructor.
  - intros i [= <-]. split; [apply not_elem_of_nil|lia].
  - intros k Hk. cbn in Hk. lia.
  - exact Hlen.
  - intros k it p Ei Ep. destruct (H k it p Ei Ep) as (m' & Hm & Hr & Hlt). destruct (Nat.ltb_spec k 1) as [Hk|Hk].
    + eapply Current; [apply not_elem_of_nil|f_equal; lia|exact Hr|exact Hm|exact Hlt].
    + destruct p as [|x r]; cbn [call_ok].
      * destruct (inext_nil it None m' Hr) as (it' & Hret & Hr'). exists it'. split; [exact Hret|]. eapply irep_done; eassumption.
      * split; [apply Z.lt_le_incl, Hlt; left|]. exact (inext_cons it None m' x r Hr).
  - intros k Hk. apply not_elem_of_nil in Hk as [].
  - lia.
Qed.

Lemma next_fresh c m l : incr (m :: l) -> fresh c m l -> moved (chain_Next c) m l.
Proof.
  intros Hl (Eh & Ec & Et & Hne & pend & Hlen & H & Hp). apply (next_moved _ m pend l Hl Hp). unfold chain_Next. rewrite Eh.
  pose proof (fresh_partial c m l pend Hne Hlen H Hp) as HP. destruct (c_iterators c) as [|it0 rest] eqn:Eits; [congruence|].
  destruct (fill_ok it_Next (length rest) 1 (set_curr (set_h c []) (Some 0%nat)) [] m pend (Some 0%nat)) as (its' & h' & Hf & Hinv & Hl'); [cbn; rewrite Eits; reflexivity|reflexivity|cbn; rewrite Eits; exact HP|].
  cbn in Hf. assert (Hloop : next_ok (rloop chain_body (mkChain its' (Some h') (Some 0%nat) (c_lastT c) (c_consecutive c), true)) m pend).
  { apply (loop_ok (total pend) _ _ h' 0%nat); [lia|]. constructor; [exact Hinv|reflexivity|reflexivity|]. intros t Ht Hmt.
    assert (m < t); [|cbn; lia]. destruct Ht as (k & p & Ep & Ht). destruct (lookup_lt_is_Some_2 (it0 :: rest) k) as [it Ei]; [rewrite <- Hlen; eapply lookup_lt_Some; exact Ep|].
    destruct (H k it p Ei Ep) as (m' & _ & _ & Hlt). exact (Hlt t Ht). }
  destruct Hloop as [(c' & Hret & Hrest)|(c' & x & v & Hret & Hrest)]; [left; exists c'|right; exists c', x, v]; (split; [r_step Hf; exact Hret|exact Hrest]).
Qed.

Lemma next_running c x l : incr (x :: l) -> running c x l -> moved (chain_Next c) x l.
Proof.
  intros Hl (h & i & v & pend & Eh & Ec & Et & Hinv & _ & Hp). apply (next_moved _ x pend l Hl Hp). unfold chain_Next. rewrite Eh, Ec.
  apply (loop_ok (total pend) c false h i x pend (le_n _)). constructor; [exact Hinv|exact Eh|exact Ec|]. rewrite Et. tauto.
Qed.

Lemma next_moves c cur m l : chain_rep c cur m l -> moved (chain_Next c) m l.
Proof.
  intros [Hl H]. destruct cur as [x|]; [destruct H as [-> H]; exact (next_running c x l Hl H)|]. destruct H as [H|[-> He]]; [exact (next_fresh c m l Hl H)|].
  exists c. split; [|split; [exact Hl|right; auto]]. destruct He as (Eh & Ec & _). unfold chain_Next. rewrite Eh, Ec. apply returns_ret.
Qed.

(** *** [Seek] *)

Lemma seek_call it cur m p t : IRep it cur m p -> m < t -> call_ok (it_Seek t) t it (drop_lt t p).
Proof.
  intros Hr Ht. pose proof (iseek_fwd it cur m p t Hr Ht) as H. destruct (drop_lt t p) as [|y r] eqn:E; [exact H|]. split; [exact (drop_lt_cons _ _ _ _ E)|exact H].
Qed.

Lemma seek_call_at it x l t : IRep it (Some x) x l -> call_ok (it_Seek t) t it (drop_lt t (x :: l)).
Proof.
  intros Hr. destruct (Z.le_gt_cases t x) as [Hle|Hgt].
  - rewrite drop_lt_head_le by exact Hle. split; [exact Hle|]. exact (iseek_stay it x x l t Hr Hle).
  - rewrite drop_lt_head_gt by exact Hgt. exact (seek_call it (Some x) x l t Hr Hgt).
Qed.

(** What the search of [Seek] can start from. *)
Definition seekable (its : list It) (m : Z) (pend : list (list Z)) : Prop :=
  length pend = length its /\ forall k it p, its !! k = Some it -> pend !! k = Some p -> incr p /\ forall t, m < t -> call_ok (it_Seek t) t it (drop_lt t p).

Lemma irep_incr it cur m p : IRep it cur m p -> incr p.
Proof. intros H. apply irep_wf in H as [H _]. exact (proj1 (incr_cons_inv _ _ H)). Qed.

Lemma inv_seekable its h L pend cur : Inv its h L pend cur -> seekable its L pend.
Proof.
  intros H. split.
  - assert (E : forall k, (k < length pend <-> k < length its)%nat).
    { intros k. rewrite <- !lookup_lt_is_Some. pose proof (inv_slot _ _ _ _ _ H k) as Hs. destruct (its !! k), (pend !! k); try contradiction; split; intros [? ?]; eauto; congruence. }
    pose proof (E (length pend)). pose proof (E (length its)). lia.
  - intros k it p Ei Ep. pose proof (inv_slot _ _ _ _ _ H k) as Hs. rewrite Ei, Ep in Hs. destruct Hs as [x l _ -> Hr _|cu m _ _ Hr Hm _|_ _ -> Hr].
    + split; [exact (proj1 (irep_wf _ _ _ _ Hr))|]. intros t _. exact (seek_call_at it x l t Hr).
    + split; [exact (irep_incr _ _ _ _ Hr)|]. intros t Ht. apply (seek_call it cu m p t Hr). lia.
    + split; [constructor|]. intros t Ht. exact (seek_call it None L [] t Hr Ht).
Qed.

Lemma rep_seekable c cur m l : chain_rep c cur m l -> exists pend, seekable (c_iterators c) m pend /\ pending_from m pend l.
Proof.
  intros [Hl H]. destruct cur as [x|].
  - destruct H as (-> & h & i & v & pend & _ & _ & _ & H & _ & Hp). exists pend. split; [exact (inv_seekable _ _ _ _ _ H)|exact Hp].
  - destruct H as [(_ & _ & _ & _ & pend & Hlen & H & Hp)|(-> & _ & _ & pend & H)].
    + exists pend. split; [|exact Hp]. split; [exact Hlen|]. intros k it p Ei Ep. destruct (H k it p Ei Ep) as (m' & Hm & Hr & _).
      split; [exact (irep_incr _ _ _ _ Hr)|]. intros t Ht. apply (seek_call it None m' p t Hr). lia.
    + exists pend. split; [exact (inv_seekable _ _ _ _ _ H)|]. intros t. split; [intros Ht; apply not_elem_of_nil in Ht as []|]. intros [_ Ht]. destruct (ended_bound _ _ _ t H Ht).
Qed.

Lemma seekable_partial its m pend t : seekable its m pend -> m < t -> Partial (it_Seek t) 0 its [] t (map (drop_lt t) pend) None.
Proof.
  intros [Hlen H] Ht. constructor; [constructor|discriminate| | | |intros k Hk; apply not_elem_of_nil in Hk as []|lia].
  - intros k Hk. cbn in Hk. lia.
  - rewrite length_map. exact Hlen.
  - intros k it p Ei Ep. change (map (drop_lt t) pend) with (drop_lt t <$> pend) in Ep. rewrite list_lookup_fmap in Ep. destruct (pend !! k) as [q|] eqn:Eq; [|discriminate].
    injection Ep as <-. cbn. apply (H k it q Ei Eq), Ht.
Qed.

Lemma member_seek its m pend t u : seekable its m pend -> member (map (drop_lt t) pend) u <-> t <= u /\ member pend u.
Proof.
  intros [Hlen H]. assert (Hi : forall k p, pend !! k = Some p -> incr p).
  { intros k p Ep. destruct (lookup_lt_is_Some_2 its k) as [it Ei]; [rewrite <- Hlen; eapply lookup_lt_Some; exact Ep|]. exact (proj1 (H k it p Ei Ep)). }
  unfold member. change (map (drop_lt t) pend) with (drop_lt t <$> pend). setoid_rewrite list_lookup_fmap. split.
  - intros (k & p & Ep & Hu). destruct (pend !! k) as [q|] eqn:Eq; [|discriminate]. injection Ep as <-. apply drop_lt_elem in Hu as [Hu Hle]; [|exact (Hi k q Eq)]. eauto.
  - intros (Hle & k & p & Ep & Hu). exists k, (drop_lt t p). rewrite Ep. split; [reflexivity|]. apply drop_lt_elem; [exact (Hi k p Ep)|auto].
Qed.

(** The search of [Seek], after the check that it is needed. *)
Definition seek_search (t : Z) (c : chainSampleIterator It) : run (ValueType * chainSampleIterator It) :=
  do (ok, c) <- fill (it_Seek t) (seq 0 (length (c_iterators c))) (mkChain (c_iterators c) (Some []) (c_curr c) (c_lastT c) false) ;;
  if negb ok then rret (ValNone, c)
  else if bool_decide (heap_of c = []) then rret (ValNone, set_curr c None)
  else do (j, c) <- rlift (pop c) ;;
       do currT <- rlift (at_t j c) ;;
       on j (it_Seek currT) (mkChain (c_iterators c) (c_h c) (Some j) currT (c_consecutive c)).

Lemma seek_is_search c cur m l t : chain_rep c cur m l -> m < t -> chain_Seek t c = seek_search t c.
Proof.
  intros [_ H] Ht. unfold chain_Seek, seek_search. destruct cur as [x|].
  - destruct H as (-> & h & i & v & pend & _ & -> & -> & _). destruct (Z.leb_spec t x); [lia|reflexivity].
  - destruct H as [(_ & -> & _)|(_ & _ & -> & _)]; reflexivity.
Qed.

(** The heap of the search is not empty: its top is taken. *)
Lemma search_take c h t pend : Inv (c_iterators c) h t pend None -> c_h c = Some h -> h <> [] ->
  exists c' x v, at_next c' (t - 1) pend x v
  /\ returns (do (j, c) <- rlift (pop c) ;; do currT <- rlift (at_t j c) ;; on j (it_Seek currT) (mkChain (c_iterators c) (c_h c) (Some j) currT (c_consecutive c))) (type_of v, c').
Proof.
  intros H Hh Hne. destruct (inv_pop _ _ _ _ H Hne) as (j & h' & it & x & l & Epop & _ & Ei & Ep & Hr & HL & Hmin & Hinv).
  destruct (iseek_stay it x x l x Hr ltac:(lia)) as (it' & (v & Hseek & Hat) & Hr'). pose proof (lookup_lt_Some _ _ _ Ei) as Hlen.
  exists (mkChain (<[j := it']> (c_iterators c)) (Some h') (Some j) x (c_consecutive c)), x, v. split.
  - exists h', j, (<[j := l]> pend). split; [reflexivity|]. split; [reflexivity|]. split; [reflexivity|]. split; [exact (Hinv it' Hr')|]. split.
    { exists it', l. split; [apply list_lookup_insert_eq; exact Hlen|]. split; [apply list_lookup_insert_eq; eapply lookup_lt_Some; exact Ep|]. auto. }
    split; [lia|]. split; [exists j, (x :: l); split; [exact Ep|left]|]. split; [intros u Hu _; exact (Hmin u Hu)|]. intros u Hu. apply pending_insert with (x := x); [exact Ep|lia].
  - unfold pop, heap_of. rewrite Hh. change (default [] (Some h)) with h. rewrite Epop. eapply returns_bind; [apply returns_lift; reflexivity|]. cbv beta iota.
    eapply returns_bind; [apply returns_lift; unfold at_t; cbn; rewrite Ei; exact (proj1 (irep_at _ _ _ _ Hr))|]. cbv beta.
    exact (on_returns j it (it_Seek x) (type_of v) it' (mkChain (c_iterators c) (Some h') (Some j) x (c_consecutive c)) Ei Hseek).
Qed.

Lemma seek_moves c cur m l t : chain_rep c cur m l -> m < t -> moved (chain_Seek t c) t (drop_lt t l).
Proof.
  intros Hrep Ht. rewrite (seek_is_search c cur m l t Hrep Ht). destruct (rep_seekable c cur m l Hrep) as (pend & Hs & Hp). pose proof (proj1 (incr_cons_inv _ _ (proj1 Hrep))) as Hl.
  assert (Hp' : pending_from (t - 1) (map (drop_lt t) pend) (drop_lt t l)).
  { intros u. rewrite drop_lt_elem by exact Hl. rewrite (Hp u), (member_seek (c_iterators c) m pend t u Hs). intuition lia. }
  destruct (fill_ok (it_Seek t) (length (c_iterators c)) 0 (mkChain (c_iterators c) (Some []) (c_curr c) (c_lastT c) false) [] t _ None eq_refl eq_refl (seekable_partial _ m pend t Hs Ht)) as (its' & h' & Hf & Hinv & _).
  cbn in Hf. destruct (decide (h' = [])) as [->|Hne].
  - rewrite (pending_none (t - 1) _ _ Hp') by (intros u Hu; destruct (ended_bound _ _ _ u Hinv Hu)). eexists. split.
    + unfold seek_search. r_step Hf. cbn [negb heap_of c_h default]. rewrite bool_decide_eq_true_2 by reflexivity. apply returns_ret.
    + split; [repeat constructor|]. right. split; [reflexivity|]. split; [reflexivity|]. split; [reflexivity|]. exists (map (drop_lt t) pend). exact Hinv.
  - destruct (search_take (mkChain its' (Some h') (c_curr c) (c_lastT c) false) h' t _ Hinv eq_refl Hne) as (c' & x & v & Hat & Hret).
    assert (Hbound : incr (t - 1 :: drop_lt t l)) by (apply incr_cons; [exact (drop_lt_incr t l Hl)|]; intros u Hu; apply drop_lt_elem in Hu; [lia|exact Hl]).
    pose proof (next_moved (seek_search t c) (t - 1) _ _ Hbound Hp') as Hm. unfold moved in *. destruct (drop_lt t l) as [|y r].
    + exfalso. destruct Hat as (? & ? & ? & _ & _ & _ & _ & _ & A1 & A2 & _). pose proof (proj2 (Hp' x) (conj A1 A2)) as Hx. apply not_elem_of_nil in Hx as [].
    + apply Hm. right. exists c', x, v. split; [|exact Hat]. unfold seek_search. r_step Hf. cbn [negb heap_of c_h]. rewrite bool_decide_eq_false_2 by exact Hne. exact Hret.
Qed.

(** The current iterator stays where it is. *)
Lemma inv_stay its h x pend i it' l : Inv its h x pend (Some i) -> pend !! i = Some l -> IRep it' (Some x) x l -> Inv (<[i := it']> its) h x pend (Some i).
Proof.
  intros H Ep Hr. pose proof (inv_cur _ _ _ _ _ H i eq_refl) as Hi. destruct (inv_lookup _ _ _ _ _ i H (or_intror eq_refl)) as (it & p & Ei & _ & _). constructor.
  - apply (inv_nodup _ _ _ _ _ H).
  - apply (inv_cur _ _ _ _ _ H).
  - apply heap_insert; [exact Hi|apply (inv_heap _ _ _ _ _ H)].
  - intros k. pose proof (inv_slot _ _ _ _ _ H k) as Hs. destruct (decide (k = i)) as [->|Hk]; [|rewrite list_lookup_insert_ne by congruence; exact Hs].
    rewrite list_lookup_insert_eq by (eapply lookup_lt_Some; exact Ei). rewrite Ep. eapply Current; [exact Hi|reflexivity|exact Hr|lia|]. apply irep_wf in Hr as [Hr _]. exact (incr_bound _ _ Hr).
Qed.

Lemma seek_stays c x m l t : chain_rep c (Some x) m l -> t <= x -> exists c', found (chain_Seek t c) c' x /\ chain_rep c' (Some x) m l.
Proof.
  intros (Hl & -> & h & i & v & pend & Eh & Ec & Et & Hinv & (it & p & Ei & Ep & Hr & Hat) & Hp) Ht.
  destruct (iseek_stay it x x p x Hr ltac:(lia)) as (it' & (w & Hseek & Hat') & Hr'). pose proof (lookup_lt_Some _ _ _ Ei) as Hlen.
  set (c' := set_its c (<[i := it']> (c_iterators c))). assert (Hst : standing c' i pend x w) by (exists it', p; cbn; rewrite list_lookup_insert_eq by exact Hlen; auto).
  destruct (chain_at_standing c' i pend x w Ec Hst) as (w' & Ety & _ & Hcat & _). exists c'. split.
  - exists w'. split; [|exact Hcat]. unfold chain_Seek. rewrite Ec, Et. destruct (Z.leb_spec t x); [|lia]. rewrite Ety. exact (on_returns i it _ _ it' c Ei Hseek).
  - split; [exact Hl|]. split; [reflexivity|]. exists h, i, w, pend. split; [exact Eh|]. split; [exact Ec|]. split; [exact Et|]. split; [exact (inv_stay _ h x pend i it' p Hinv Ep Hr')|]. split; [exact Hst|exact Hp].
Qed.

Lemma chain_done c m m' : chain_rep c None m [] -> m <= m' -> chain_rep c None m' [].
Proof.
  intros [_ H] Hm. split; [repeat constructor|]. destruct H as [(Eh & Ec & Et & Hne & pend & Hlen & H & Hp)|(_ & Eh & Ec & pend & H)].
  - left. assert (Hno : forall k it p t, c_iterators c !! k = Some it -> pend !! k = Some p -> ~ t ∈ p).
    { intros k it p t Ei Ep Ht. destruct (H k it p Ei Ep) as (m0 & _ & _ & Hlt). assert (E : t ∈ @nil Z) by (apply Hp; split; [exact (Hlt t Ht)|exists k, p; auto]). apply not_elem_of_nil in E as []. }
    split; [exact Eh|]. split; [exact Ec|]. split; [lia|]. split; [exact Hne|]. exists pend. split; [exact Hlen|]. split.
    + intros k it p Ei Ep. destruct (H k it p Ei Ep) as (m0 & Hm0 & Hr & _). exists m0. split; [lia|]. split; [exact Hr|]. intros t Ht. destruct (Hno k it p t Ei Ep Ht).
    + intros t. split; [intros Ht; apply not_elem_of_nil in Ht as []|]. intros (Hlt & Ht). apply Hp. split; [lia|exact Ht].
  - right. split; [reflexivity|]. split; [exact Eh|]. split; [exact Ec|]. exists pend. destruct H as [H1 H2 H3 H4]. constructor; [exact H1|discriminate|exact H3|]. intros k. specialize (H4 k).
    destruct (c_iterators c !! k) as [it|], (pend !! k) as [p|]; try contradiction; [|exact H4].
    destruct H4 as [x l Hin _ _ _|cu m0 _ E _ _ _|A1 A2 A3 A4]; [apply not_elem_of_nil in Hin as []|discriminate|]. apply Exhausted; [exact A1|exact A2|exact A3|]. eapply irep_done; eassumption.
Qed.

Lemma chain_at_rep c x m l : chain_rep c (Some x) m l -> chain_AtT c = Ret x /\ exists v, chain_At c = Ret (x, v) /\ P (x, v).
Proof.
  intros (_ & -> & h & i & v & pend & _ & Ec & _ & _ & Hst & _). destruct (chain_at_standing c i pend x v Ec Hst) as (w & _ & Ht & Hat & HP). eauto.
Qed.

Lemma chain_wf c cur m l : chain_rep c cur m l -> incr (m :: l) /\ (forall x, cur = Some x -> m = x).
Proof. intros [Hl H]. split; [exact Hl|]. intros x ->. exact (proj1 H). Qed.

(** A chain of iterators that keep the contract keeps it too. *)
Definition chain_ok : IterOK P (chainSampleIterator It) := {|
  IRep := chain_rep; irep_wf := chain_wf; irep_err := chain_err; irep_at := chain_at_rep;
  inext_cons c cur m x l := next_moves c cur m (x :: l); inext_nil c cur m := next_moves c cur m [];
  iseek_stay := seek_stays; iseek_fwd := seek_moves; irep_done := chain_done |}.
End chain.

(** ** Chains of lists of samples *)

Section lists.
Variable ss : list (list sample).

Lemma lookup_map {A B} (f : A -> B) (l : list A) k y : map f l !! k = Some y -> exists x, l !! k = Some x /\ y = f x.
Proof. intros H. change (map f l) with (f <$> l) in H. rewrite list_lookup_fmap in H. destruct (l !! k) as [x|]; [|discriminate]. injection H as <-. eauto. Qed.

(** A sample of one of the lists, perhaps without what it says about resets. *)
Definition kept (s : sample) : Prop := exists l v, l ∈ ss /\ (fst s, v) ∈ l /\ (snd s = v \/ snd s = weaken v).

Lemma weaken_twice v : weaken (weaken v) = weaken v.
Proof. destruct v as [|h b|h b]; [reflexivity|destruct h; reflexivity|destruct h; reflexivity]. Qed.

Lemma kept_weaken t v : kept (t, v) -> kept (t, weaken v).
Proof. intros (l & w & Hl & Hw & E). exists l, w. cbn in *. split; [exact Hl|]. split; [exact Hw|]. right. destruct E as [-> | ->]; auto using weaken_twice. Qed.

Lemma kept_all l : l ∈ ss -> Forall kept l.
Proof. intros Hl. apply List.Forall_forall. intros [t v] Hs. apply list_elem_of_In in Hs. exists l, v. cbn. auto. Qed.

Definition all_times : list Z := concat (map times ss).

Lemma all_times_elem t : t ∈ all_times <-> exists l, l ∈ ss /\ t ∈ times l.
Proof.
  unfold all_times. rewrite list_elem_of_In, in_concat. split.
  - intros (p & Hp & Ht). apply in_map_iff in Hp as (l & <- & Hl). exists l. rewrite !list_elem_of_In. auto.
  - intros (l & Hl & Ht). apply list_elem_of_In in Hl, Ht. exists (times l). split; [apply in_map; exact Hl|exact Ht].
Qed.

Definition chain_of : chainSampleIterator listSeriesIterator := ChainSampleIteratorFromIterators (map NewListSeriesIterator ss).

Lemma chain_of_fresh us : ss <> [] -> (forall l, l ∈ ss -> incr (MinInt64 :: times l)) -> incr us -> (forall t, t ∈ us <-> t ∈ all_times) ->
  @chain_rep kept listSeriesIterator _ (listSeriesIterator_ok kept) chain_of None MinInt64 us.
Proof.
  intros Hne Hs Hus Hu. setoid_rewrite all_times_elem in Hu.
  split; [apply incr_cons; [exact Hus|]; intros t Ht; apply Hu in Ht as (l & Hl & Ht); exact (incr_bound _ _ (Hs l Hl) t Ht)|]. left.
  split; [reflexivity|]. split; [reflexivity|]. split; [cbn; lia|]. split; [cbn; destruct ss; [congruence|discriminate]|]. exists (map times ss). split; [cbn; rewrite !length_map; reflexivity|]. split.
  - intros k it p Ei Ep. apply lookup_map in Ei as (l & El & ->). apply lookup_map in Ep as (l' & El' & ->). rewrite El in El'. injection El' as <-.
    pose proof (list_elem_of_lookup_2 _ _ _ El) as Hl.
    pose proof (Hs l Hl) as Hi. exists MinInt64. split; [lia|]. split; [|exact (incr_bound _ _ Hi)]. split; [exact (kept_all l Hl)|]. split; [exact (proj1 (incr_cons_inv _ _ Hi))|].
    split; [exact Hi|]. split; [discriminate|]. exists 0%nat. repeat split.
  - intros t. rewrite (Hu t). split.
    + intros (l & Hl & Ht). split; [exact (incr_bound _ _ (Hs l Hl) t Ht)|]. apply list_elem_of_lookup in Hl as [k Hk]. exists k, (times l). split; [|exact Ht].
      change (map times ss) with (times <$> ss). rewrite list_lookup_fmap, Hk. reflexivity.
    + intros (_ & k & p & Ep & Ht). apply lookup_map in Ep as (l & El & ->). eauto using list_elem_of_lookup_2.
Qed.
End lists.

(** C4: any sequence of [Next] and [Seek] on a chain of overlapping lists of samples, in
    any order of the lists, returns and reads what an iterator over the union [us] of
    the timestamps would: each timestamp once and in increasing order, [Seek] going to the
    first that is not before its argument, with a sample that one of the lists has
    at that timestamp (of a histogram, perhaps without its hint about counter resets). *)
Theorem chain_merges ss us cs ts : ss <> [] -> (forall l, l ∈ ss -> incr (MinInt64 :: times l)) -> incr us -> (forall t, t ∈ us <-> t ∈ all_times ss) ->
  ideal cs None MinInt64 us = Some ts -> exists os, returns (observe cs (chain_of ss)) os /\ Forall2 (agrees (kept ss)) os ts.
Proof.
  intros Hne Hs Hus Hu Hts. pose proof (chain_of_fresh ss us Hne Hs Hus Hu) as Hr.
  exact (@observe_ideal _ _ _ (@chain_ok _ _ _ (listSeriesIterator_ok (kept ss)) (kept_weaken ss)) cs (chain_of ss) None MinInt64 us ts Hr Hts).
Qed.

Definition chain_example : list (list sample) :=
  [[(1, VFloat 10); (4, VFloat 11); (6, VFloat 12)]; [(2, VFloat 20); (4, VFloat 21); (9, VHistogram NotCounterReset 5)]; []; [(3, VFloat 30)]].
Definition chain_calls : list call := [CNext; CNext; CSeek 3; CSeek 1; CNext; CNext; CSeek 9; CNext; CNext].
Definition chain_times : list (option Z) := [Some 1; Some 2; Some 3; Some 3; Some 4; Some 6; Some 9; None; None].

Lemma chain_example_sorted l : l ∈ chain_example -> incr (MinInt64 :: times l).
Proof. intros Hl. repeat (apply elem_of_cons in Hl as [->|Hl]; [repeat constructor; vm_compute; reflexivity|]). apply not_elem_of_nil in Hl as []. Qed.

Lemma chain_example_union t : t ∈ [1; 2; 3; 4; 6; 9] <-> t ∈ all_times chain_example.
Proof. cbn. rewrite !elem_of_cons, elem_of_nil. intuition lia. Qed.

Lemma chain_merges_witness : exists os, returns (observe chain_calls (chain_of chain_example)) os /\ Forall2 (agrees (kept chain_example)) os chain_times.
Proof.
  apply (chain_merges chain_example [1; 2; 3; 4; 6; 9] chain_calls chain_times).
  - discriminate.
  - exact chain_example_sorted.
  - repeat constructor; vm_compute; reflexivity.
  - exact chain_example_union.
  - reflexivity.
Defined.

(** The samples themselves: where lists overlap, one of them gives its sample. *)
Example chain_example_samples : observe chain_calls (chain_of chain_example) 20%nat
  = Some (Ret [Some (1, VFloat 10); Some (2, VFloat 20); Some (3, VFloat 30); Some (3, VFloat 30); Some (4, VFloat 11); Some (6, VFloat 12);
               Some (9, VHistogram UnknownCounterReset 5); None; None]).
Proof. vm_compute. reflexivity. Qed.

(** A sample at the least timestamp of all is taken for one that was already read. *)
Lemma chain_skips_least : observe [CNext] (chain_of [[(MinInt64, VFloat 1)]]) 9%nat = Some (Ret [None]).
Proof. vm_compute. reflexivity. Qed.
