(* ===== verification/MergeSet.v ===== *)
(** * Merging sorted sets of series ([genericMergeSeriesSet] of [storage/merge.go])

    Several sets that return series in the order of their labels are read as one:
    series with equal labels are merged.  The sets and the heap that orders them hold
    pointers to the same sets: here they are indexes into the list of all sets. *)
From stdpp Require Import base list numbers strings sorting.
From Stdlib Require Import ZArith Lia Sorted.
From S2P Require Import Prelude Labels Postings Heap SampleIter.

(** ** The interface *)

(** [genericSeriesSet]. *)
Class SetOps (S X : Type) := {
  set_Next : S -> run (bool * S);
  set_At : S -> outcome X;
  set_Err : S -> option string }.

(** [labels.Compare(a, b) < 0]; [Labels] shows that the comparison of encoded label sets is this one. *)
Definition labels_less (a b : list Label) : bool := match labels_compare a b with Lt => true | _ => false end.

Section merge_set.
Context {S X : Type} {sops : SetOps S X}.
(** [Labels.Labels()], and the function that merges series with equal labels. *)
Variable lset : X -> list Label.
Variable mergeFunc : list X -> X.

(** An absent set is [nil]. *)
Record genericMergeSeriesSet := mkMergeSet {
  ms_currentLabels : list Label; ms_heap : list nat; ms_sets : list (option S); ms_currentSets : list nat; ms_seriesLimit : Z; ms_mergedSeries : Z }.

Definition nth_set (sets : list (option S)) (i : nat) : outcome S := match sets !! i with Some (Some s) => Ret s | _ => Panic end.
Definition at_of (sets : list (option S)) (i : nat) : outcome X := outcome_bind (nth_set sets i) set_At.
(** The sets in the heap stand at a series, so that [At] does not panic there ([mi_in_heap]). *)
Definition labels_at (sets : list (option S)) (i : nat) : list Label := match at_of sets i with Ret x => lset x | Panic => [] end.
Definition set_before (sets : list (option S)) (i j : nat) : bool := labels_less (labels_at sets i) (labels_at sets j).

(** [if set.Next() { heap.Push(&h, set) }] *)
Definition advance (i : nat) (sets : list (option S)) (h : list nat) : run (list (option S) * list nat) :=
  do s <- rlift (nth_set sets i) ;;
  do (ok, s) <- set_Next s ;;
  let sets := <[i := Some s]> sets in
  rret (sets, if ok : bool then heap_push (set_before sets) h i else h).

(** What [newGenericMergeSeriesSet] returns: the only set, an error, or the merged set. *)
Inductive merge_result := OnlySet (s : option S) | ErrorOnly (e : string) | MergedSet (m : genericMergeSeriesSet).

Fixpoint first_advance (ids : list nat) (sets : list (option S)) (h : list nat) : run (string + (list (option S) * list nat)) :=
  match ids with
  | [] => rret (inr (sets, h))
  | i :: ids =>
      match sets !! i with
      | Some None => first_advance ids sets h
      | _ =>
          do (sets, h) <- advance i sets h ;;
          do s <- rlift (nth_set sets i) ;;
          match set_Err s with Some e => rret (inl e) | None => first_advance ids sets h end
      end
  end.

Definition newGenericMergeSeriesSet (sets : list (option S)) (seriesLimit : Z) : run merge_result :=
  match sets with
  | [s] => rret (OnlySet s)
  | _ => do r <- first_advance (seq 0 (length sets)) sets [] ;;
         rret (match r with inl e => ErrorOnly e | inr (sets, h) => MergedSet (mkMergeSet [] h sets [] seriesLimit 0) end)
  end.

Fixpoint advance_all (ids : list nat) (sets : list (option S)) (h : list nat) : run (list (option S) * list nat) :=
  match ids with [] => rret (sets, h) | i :: ids => do (sets, h) <- advance i sets h ;; advance_all ids sets h end.

(** Pops the sets whose series has the labels [ls]. *)
Definition pop_body (sets : list (option S)) (ls : list Label) (s : list nat * list nat) : run (list nat * list nat + list nat * list nat) :=
  let '(h, cur) := s in
  match h with
  | [] => rret (inr (h, cur))
  | top :: _ =>
      do x <- rlift (at_of sets top) ;;
      if bool_decide (ls = lset x) then do (i, h) <- rlift (heap_pop (set_before sets) h) ;; rret (inl (h, cur ++ [i]))
      else rret (inr (h, cur))
  end.

Definition next_set_body (c : genericMergeSeriesSet) : run (genericMergeSeriesSet + (bool * genericMergeSeriesSet)) :=
  do (sets, h) <- advance_all (ms_currentSets c) (ms_sets c) (ms_heap c) ;;
  match h with
  | [] => rret (inr (false, mkMergeSet (ms_currentLabels c) h sets (ms_currentSets c) (ms_seriesLimit c) (ms_mergedSeries c)))
  | top :: _ =>
      do x <- rlift (at_of sets top) ;;
      do (h, cur) <- rloop (pop_body sets (lset x)) (h, []) ;;
      let c := mkMergeSet (lset x) h sets cur (ms_seriesLimit c) (ms_mergedSeries c) in
      rret (if bool_decide (cur = []) then inl c else inr (true, mkMergeSet (lset x) h sets cur (ms_seriesLimit c) (ms_mergedSeries c + 1)))
  end.

Definition ms_Next (c : genericMergeSeriesSet) : run (bool * genericMergeSeriesSet) :=
  if (0 <? ms_seriesLimit c) && (ms_seriesLimit c <=? ms_mergedSeries c) then rret (false, c) else rloop next_set_body c.

Fixpoint all_at (sets : list (option S)) (ids : list nat) : outcome (list X) :=
  match ids with [] => Ret [] | i :: ids => outcome_bind (at_of sets i) (fun x => outcome_bind (all_at sets ids) (fun xs => Ret (x :: xs))) end.

Definition ms_At (c : genericMergeSeriesSet) : outcome X :=
  match ms_currentSets c with [i] => at_of (ms_sets c) i | ids => outcome_bind (all_at (ms_sets c) ids) (fun xs => Ret (mergeFunc xs)) end.

(** A [nil] set is called, too. *)
Fixpoint first_set_Err (sets : list (option S)) : outcome (option string) :=
  match sets with
  | [] => Ret None
  | None :: _ => Panic
  | Some s :: sets => match set_Err s with Some e => Ret (Some e) | None => first_set_Err sets end
  end.
Definition ms_Err (c : genericMergeSeriesSet) : outcome (option string) := first_set_Err (ms_sets c).

(** A client that reads all series. *)
Definition collect_body (s : list X * genericMergeSeriesSet) : run (list X * genericMergeSeriesSet + list X * genericMergeSeriesSet) :=
  let '(acc, c) := s in
  do (ok, c) <- ms_Next c ;;
  if ok : bool then do x <- rlift (ms_At c) ;; rret (inl (acc ++ [x], c)) else rret (inr (acc, c)).
Definition collect_series (c : genericMergeSeriesSet) : run (list X * genericMergeSeriesSet) := rloop collect_body ([], c).
End merge_set.

(** ** The order of label sets *)

Lemma str_compare_trans a b c : str_compare a b = Lt -> str_compare b c = Lt -> str_compare a c = Lt.
Proof. apply str_lt_trans. Qed.

Lemma labels_compare_eq a b : labels_compare a b = Eq <-> a = b.
Proof.
  revert b. induction a as [|[an av] a IH]; intros [|[bn bv] b]; cbn; try (split; congruence). split.
  - destruct (str_compare an bn) eqn:E1; try discriminate. destruct (str_compare av bv) eqn:E2; try discriminate. intros E3.
    apply str_compare_eq in E1, E2. apply IH in E3. congruence.
  - intros [= -> -> ->]. rewrite !str_compare_refl. apply IH. reflexivity.
Qed.

Lemma labels_compare_opp a b : labels_compare b a = CompOpp (labels_compare a b).
Proof. rewrite !labels_fields_compare. apply fields_compare_opp. Qed.

Lemma labels_fields_trans a b c : fields_compare a b = Lt -> fields_compare b c = Lt -> fields_compare a c = Lt.
Proof.
  revert b c. induction a as [|x a IH]; intros [|y b] [|z c]; cbn; try congruence. destruct (str_compare x y) eqn:E1; [|intros _|discriminate].
  - apply str_compare_eq in E1. subst y. destruct (str_compare x z); [apply IH|reflexivity|discriminate].
  - destruct (str_compare y z) eqn:E2; [apply str_compare_eq in E2; subst z; rewrite E1; reflexivity| |discriminate]. intros _. rewrite (str_compare_trans _ _ _ E1 E2). reflexivity.
Qed.

Definition labels_lt (a b : list Label) : Prop := labels_compare a b = Lt.

Lemma labels_lt_trans a b c : labels_lt a b -> labels_lt b c -> labels_lt a c.
Proof. unfold labels_lt. rewrite !labels_fields_compare. apply labels_fields_trans. Qed.

Lemma labels_lt_irrefl a : ~ labels_lt a a.
Proof. unfold labels_lt. rewrite (proj2 (labels_compare_eq a a) eq_refl). discriminate. Qed.

Lemma labels_less_spec a b : labels_less a b = true <-> labels_lt a b.
Proof. unfold labels_less, labels_lt. destruct (labels_compare a b); split; congruence. Qed.

Lemma labels_less_false a b : labels_less a b = false <-> a = b \/ labels_lt b a.
Proof.
  unfold labels_less, labels_lt. rewrite (labels_compare_opp a b). destruct (labels_compare a b) eqn:E; cbn.
  - apply labels_compare_eq in E. tauto.
  - split; [discriminate|]. intros [->|]; [|discriminate]. rewrite (proj2 (labels_compare_eq b b) eq_refl) in E. discriminate.
  - tauto.
Qed.

#[export] Instance by_labels_ok {A} (f : A -> list Label) : LessOK (fun i j => labels_less (f i) (f j)).
Proof.
  constructor; unfold not_above; intros *.
  - rewrite !labels_less_false. intros [->|H1] [->|H2]; auto. right. eapply labels_lt_trans; eassumption.
  - rewrite labels_less_spec, labels_less_false. auto.
Qed.

(** ** What sets promise *)

Definition labels_before {X} (lset : X -> list Label) (x y : X) : Prop := labels_lt (lset x) (lset y).

(** The set stands at a series, or was not started or is exhausted, and has [l] to come. *)
Class SetOK {X} (lset : X -> list Label) (S : Type) {sops : SetOps S X} := {
  SRep : S -> option X -> list X -> Prop;
  srep_sorted s cur l : SRep s cur l -> StronglySorted (labels_before lset) (option_list cur ++ l);
  srep_at s x l : SRep s (Some x) l -> set_At s = Ret x;
  srep_err s cur l : SRep s cur l -> set_Err s = None;
  snext_cons s cur x l : SRep s cur (x :: l) -> exists s', returns (set_Next s) (true, s') /\ SRep s' (Some x) l;
  snext_nil s cur : SRep s cur [] -> exists s', returns (set_Next s) (false, s') /\ SRep s' None [] }.

Section merge_ok.
Context {S X : Type} {sops : SetOps S X} {lset : X -> list Label} {SOK : SetOK lset S}.
#[local] Abbreviation set_before := (set_before lset).

#[export] Instance set_before_ok (sets : list (option S)) : LessOK (set_before sets) := by_labels_ok (labels_at lset sets).

(** ** The invariant *)

(** What is pending of the set at [i]: in the heap with the series at which it
    stands, otherwise what comes after it. *)
Inductive mslot (h cur : list nat) (i : nat) : option S -> list X -> Prop :=
| SlotNil : i ∉ h -> i ∉ cur -> mslot h cur i None []
| SlotHeap s x l : i ∈ h -> i ∉ cur -> SRep s (Some x) l -> mslot h cur i (Some s) (x :: l)
| SlotCurrent s c p : i ∉ h -> i ∈ cur -> SRep s c p -> mslot h cur i (Some s) p
| SlotEnd s : i ∉ h -> i ∉ cur -> SRep s None [] -> mslot h cur i (Some s) [].

Record MInv (sets : list (option S)) (h cur : list nat) (pend : list (list X)) : Prop := {
  mi_h : NoDup h;
  mi_cur : NoDup cur;
  mi_heap : heap_ok (set_before sets) h;
  mi_slot : forall i, match sets !! i, pend !! i with
                      | Some so, Some p => mslot h cur i so p
                      | None, None => (i ∉ h) /\ (i ∉ cur)
                      | _, _ => False
                      end }.

Lemma mi_in_heap sets h cur pend i : MInv sets h cur pend -> i ∈ h ->
  (i ∉ cur) /\ exists s x l, sets !! i = Some (Some s) /\ pend !! i = Some (x :: l) /\ SRep s (Some x) l /\ at_of sets i = Ret x /\ labels_at lset sets i = lset x.
Proof.
  intros H Hi. pose proof (mi_slot _ _ _ _ H i) as Hs. destruct (sets !! i) as [so|] eqn:Es, (pend !! i) as [p|]; try contradiction; [|destruct Hs; contradiction].
  destruct Hs as [Hn _|s x l _ Hc Hr|s c p Hn _ _|s Hn _ _]; try contradiction. split; [exact Hc|]. exists s, x, l. repeat (split; [solve [auto]|]).
  assert (E : at_of sets i = Ret x) by (unfold at_of, nth_set; rewrite Es; exact (srep_at _ _ _ Hr)). split; [exact E|]. unfold labels_at. rewrite E. reflexivity.
Qed.

Lemma mi_in_cur sets h cur pend i : MInv sets h cur pend -> i ∈ cur ->
  (i ∉ h) /\ exists s c p, sets !! i = Some (Some s) /\ pend !! i = Some p /\ SRep s c p.
Proof.
  intros H Hi. pose proof (mi_slot _ _ _ _ H i) as Hs. destruct (sets !! i) as [so|] eqn:Es, (pend !! i) as [p|]; try contradiction; [|destruct Hs; contradiction].
  destruct Hs as [_ Hn|s x l _ Hn _|s c p Hn _ Hr|s _ Hn _]; try contradiction. split; [exact Hn|]. eauto 8.
Qed.

Lemma set_heap_insert sets i so h : i ∉ h -> heap_ok (set_before sets) h -> heap_ok (set_before (<[i := so]> sets)) h.
Proof.
  intros Hi. apply heap_ok_ext. intros x y Hx Hy. unfold MergeSet.set_before, labels_at, at_of, nth_set. rewrite !list_lookup_insert_ne by (intros ->; contradiction). reflexivity.
Qed.

(** ** Advancing the current sets *)

Lemma advance_ok sets h i cur pend : MInv sets h (i :: cur) pend ->
  exists s' h', returns (advance lset i sets h) (<[i := Some s']> sets, h') /\ MInv (<[i := Some s']> sets) h' cur pend /\ set_Err s' = None.
Proof.
  intros H. destruct (mi_in_cur _ _ _ _ i H ltac:(left)) as (Hih & s & c & p & Es & Ep & Hr). pose proof (mi_cur _ _ _ _ H) as Hnd. apply NoDup_cons in Hnd as [Hic Hnd].
  pose proof (lookup_lt_Some _ _ _ Es) as Hlen.
  assert (Hother : forall s' h', (forall k, k <> i -> k ∈ h' <-> k ∈ h) -> mslot h' cur i (Some s') p ->
    forall k, match <[i := Some s']> sets !! k, pend !! k with Some so, Some p => mslot h' cur k so p | None, None => (k ∉ h') /\ (k ∉ cur) | _, _ => False end).
  { intros s' h' Hh Hslot k. destruct (decide (k = i)) as [->|Hk]; [rewrite list_lookup_insert_eq by exact Hlen; rewrite Ep; exact Hslot|]. rewrite list_lookup_insert_ne by congruence.
    pose proof (mi_slot _ _ _ _ H k) as Hs. assert (Hcur : k ∈ i :: cur <-> k ∈ cur) by (rewrite elem_of_cons; intuition congruence). specialize (Hh k Hk).
    destruct (sets !! k) as [so|], (pend !! k) as [q|]; try contradiction; [|rewrite Hh, <- Hcur; exact Hs].
    destruct Hs; [apply SlotNil|eapply SlotHeap|eapply SlotCurrent|apply SlotEnd]; rewrite ?Hh, <- ?Hcur; eassumption. }
  assert (Hret : forall ok s', returns (set_Next s) (ok, s') -> returns (advance lset i sets h) (<[i := Some s']> sets, if ok then heap_push (set_before (<[i := Some s']> sets)) h i else h)).
  { intros ok s' Hn. unfold advance. eapply returns_bind; [apply returns_lift; unfold nth_set; rewrite Es; reflexivity|]. cbv beta. r_step Hn. apply returns_ret. }
  destruct p as [|x l].
  - destruct (snext_nil s c Hr) as (s' & Hn & Hr'). exists s', h. split; [exact (Hret false s' Hn)|]. split; [|exact (srep_err _ _ _ Hr')].
    constructor; [exact (mi_h _ _ _ _ H)|exact Hnd|apply set_heap_insert; [exact Hih|exact (mi_heap _ _ _ _ H)]|]. apply Hother; [tauto|]. apply SlotEnd; assumption.
  - destruct (snext_cons s c x l Hr) as (s' & Hn & Hr'). set (sets' := <[i := Some s']> sets). destruct (heap_push_ok (set_before sets') h i (set_heap_insert sets i (Some s') h Hih (mi_heap _ _ _ _ H))) as [Hok Hperm].
    exists s', (heap_push (set_before sets') h i). split; [exact (Hret true s' Hn)|]. split; [|exact (srep_err _ _ _ Hr')]. constructor; [rewrite Hperm; constructor; [exact Hih|exact (mi_h _ _ _ _ H)]|exact Hnd|exact Hok|].
    apply Hother; [intros k Hk; rewrite Hperm, elem_of_cons; intuition congruence|]. eapply SlotHeap; [rewrite Hperm; left|exact Hic|exact Hr'].
Qed.

Lemma advance_all_ok cur : forall sets h pend, MInv sets h cur pend ->
  exists sets' h', returns (advance_all lset cur sets h) (sets', h') /\ MInv sets' h' [] pend.
Proof.
  induction cur as [|i cur IH]; intros sets h pend H; cbn [advance_all]; [exists sets, h; split; [apply returns_ret|exact H]|].
  destruct (advance_ok sets h i cur pend H) as (s' & h1 & Hret & H1 & _). destruct (IH _ _ _ H1) as (sets' & h' & Hret' & H'). exists sets', h'. split; [r_step Hret; exact Hret'|exact H'].
Qed.

(** The start: every set that is not absent is advanced. *)
Definition present (sets : list (option S)) (i : nat) : bool := match sets !! i with Some (Some _) => true | _ => false end.

Lemma first_advance_ok ids : forall sets h pend, NoDup ids -> (forall i, i ∈ ids -> (i < length sets)%nat) -> MInv sets h (List.filter (present sets) ids) pend ->
  exists sets' h', returns (first_advance lset ids sets h) (inr (sets', h')) /\ MInv sets' h' [] pend.
Proof.
  induction ids as [|i ids IH]; intros sets h pend Hnd Hlen H; cbn [first_advance]; [exists sets, h; split; [apply returns_ret|exact H]|].
  apply NoDup_cons in Hnd as [Hi Hnd]. destruct (lookup_lt_is_Some_2 sets i) as [so Es]; [apply Hlen; left|]. cbn [List.filter] in H. unfold present in H at 1. rewrite Es in H |- *. destruct so as [s|].
  - destruct (advance_ok sets h i _ pend H) as (s' & h1 & Hret & H1 & He). assert (Hp : List.filter (present sets) ids = List.filter (present (<[i := Some s']> sets)) ids).
    { apply filter_ext_in. intros k Hk. unfold present. rewrite list_lookup_insert_ne; [reflexivity|]. intros <-. apply Hi, list_elem_of_In. exact Hk. }
    rewrite Hp in H1. destruct (IH _ _ _ Hnd ltac:(intros k Hk; rewrite length_insert; apply Hlen; right; exact Hk) H1) as (sets' & h' & Hret' & H'). exists sets', h'. split; [|exact H'].
    r_step Hret. eapply returns_bind; [apply returns_lift; unfold nth_set; rewrite list_lookup_insert_eq by (eapply lookup_lt_Some; exact Es); reflexivity|]. cbv beta. rewrite He. exact Hret'.
  - apply (IH _ _ _ Hnd); [intros k Hk; apply Hlen; right; exact Hk|exact H].
Qed.

(** ** Popping the series with equal labels *)

Lemma concat_insert (pend : list (list X)) i x l : pend !! i = Some (x :: l) -> concat pend ≡ₚ x :: concat (<[i := l]> pend).
Proof.
  revert i. induction pend as [|p pend IH]; intros [|i] H; cbn in H; try discriminate.
  - injection H as ->. reflexivity.
  - cbn [concat]. change (<[Datatypes.S i:=l]> (p :: pend)) with (p :: <[i:=l]> pend). cbn [concat]. rewrite (IH i H). symmetry. apply Permutation_middle.
Qed.

Lemma in_concat_slot (pend : list (list X)) x : x ∈ concat pend <-> exists i p, pend !! i = Some p /\ x ∈ p.
Proof.
  rewrite list_elem_of_In, in_concat. split.
  - intros (p & Hp & Hx). apply list_elem_of_In, list_elem_of_lookup in Hp as [i Hp]. apply list_elem_of_In in Hx. eauto.
  - intros (i & p & Hp & Hx). exists p. split; [apply list_elem_of_In; eapply list_elem_of_lookup_2; exact Hp|apply list_elem_of_In; exact Hx].
Qed.

(** The top of the heap goes to the current sets. *)
Lemma pop_ok sets h cur pend top h0 : MInv sets h cur pend -> h = top :: h0 ->
  exists h' x l, heap_pop (set_before sets) h = Ret (top, h') /\ at_of sets top = Ret x /\ pend !! top = Some (x :: l) /\ top :: h' ≡ₚ h /\ MInv sets h' (cur ++ [top]) (<[top := l]> pend).
Proof.
  intros H Eh. destruct (heap_pop_ok (set_before sets) h (mi_heap _ _ _ _ H) ltac:(rewrite Eh; discriminate)) as (j & h' & Epop & Hhead & Hok & Hperm).
  rewrite Eh in Hhead. injection Hhead as <-. assert (Hj : top ∈ h) by (rewrite Eh; left). destruct (mi_in_heap _ _ _ _ top H Hj) as (Hcur & s & x & l & Es & Ep & Hr & Eat & _).
  pose proof (mi_h _ _ _ _ H) as Hnd. rewrite <- Hperm in Hnd. apply NoDup_cons in Hnd as [Hjh Hnd].
  exists h', x, l. split; [exact Epop|]. split; [exact Eat|]. split; [exact Ep|]. split; [exact Hperm|]. constructor.
  - exact Hnd.
  - apply NoDup_app. split; [exact (mi_cur _ _ _ _ H)|]. split; [|apply NoDup_singleton]. intros k Hk Hk'. apply list_elem_of_singleton in Hk' as ->. contradiction.
  - exact Hok.
  - intros k. pose proof (mi_slot _ _ _ _ H k) as Hs. assert (Hc : k ∈ cur ++ [top] <-> k = top \/ k ∈ cur) by (rewrite elem_of_app, list_elem_of_singleton; tauto).
    assert (Hh : k <> top -> k ∈ h' <-> k ∈ h) by (intros Hk; rewrite <- Hperm, elem_of_cons; intuition congruence). destruct (decide (k = top)) as [->|Hk].
    + rewrite list_lookup_insert_eq by (eapply lookup_lt_Some; exact Ep). rewrite Es. eapply SlotCurrent; [exact Hjh|apply Hc; left; reflexivity|exact Hr].
    + rewrite list_lookup_insert_ne by congruence. specialize (Hh Hk). assert (Hc' : k ∈ cur ++ [top] <-> k ∈ cur) by (rewrite Hc; intuition congruence).
      destruct (sets !! k) as [so|], (pend !! k) as [q|]; try contradiction; [|rewrite Hh, Hc'; exact Hs].
      destruct Hs; [apply SlotNil|eapply SlotHeap|eapply SlotCurrent|apply SlotEnd]; rewrite ?Hh, ?Hc'; eassumption.
Qed.

Lemma all_at_snoc (sets : list (option S)) ids i xs x : all_at sets ids = Ret xs -> at_of sets i = Ret x -> all_at sets (ids ++ [i]) = Ret (xs ++ [x]).
Proof.
  revert xs. induction ids as [|j ids IH]; intros xs H Hi; cbn [app all_at] in *; [injection H as <-; rewrite Hi; reflexivity|].
  destruct (at_of sets j) as [y|]; [|discriminate]. cbn [outcome_bind] in *. destruct (all_at sets ids) as [ys|]; [|discriminate]. injection H as <-. rewrite (IH ys eq_refl Hi). reflexivity.
Qed.

(** The least labels in the heap are at its top. *)
Lemma top_before sets h cur pend top h0 i x y : MInv sets h cur pend -> h = top :: h0 -> at_of sets top = Ret x -> i ∈ h -> at_of sets i = Ret y -> lset y = lset x \/ labels_before lset x y.
Proof.
  intros H Eh Hx Hi Hy. pose proof (heap_least (set_before sets) h top i (mi_heap _ _ _ _ H) ltac:(rewrite Eh; reflexivity) Hi) as Hle.
  unfold not_above, MergeSet.set_before, labels_at in Hle. rewrite Hx, Hy in Hle. apply labels_less_false in Hle. exact Hle.
Qed.

(** [xs] were popped, all with the labels [k], and the rest of the heap is not before. *)
Record popping (sets : list (option S)) (k : list Label) (all : list X) (h cur : list nat) (pend : list (list X)) (xs : list X) : Prop := {
  pp_inv : MInv sets h cur pend;
  pp_heap : forall i x, i ∈ h -> at_of sets i = Ret x -> lset x = k \/ labels_lt k (lset x);
  pp_at : all_at sets cur = Ret xs;
  pp_key : Forall (fun x => lset x = k) xs;
  pp_cur : forall i x, i ∈ cur -> at_of sets i = Ret x -> lset x = k /\ forall p, pend !! i = Some p -> StronglySorted (labels_before lset) (x :: p);
  pp_perm : all ≡ₚ xs ++ concat pend }.

Lemma popping_step sets k all h cur pend xs top h0 x : popping sets k all h cur pend xs -> h = top :: h0 -> at_of sets top = Ret x -> lset x = k ->
  exists h' pend', heap_pop (set_before sets) h = Ret (top, h') /\ (length h' < length h)%nat /\ popping sets k all h' (cur ++ [top]) pend' (xs ++ [x]).
Proof.
  intros [H1 H2 H3 H4 H5 H6] Eh Hx Hk. destruct (pop_ok sets h cur pend top h0 H1 Eh) as (h' & x' & l & Epop & Hx' & Ep & Hperm & Hinv). rewrite Hx in Hx'. injection Hx' as <-.
  exists h', (<[top := l]> pend). split; [exact Epop|]. split; [rewrite <- Hperm; cbn; lia|]. destruct (mi_in_heap _ _ _ _ top H1 ltac:(rewrite Eh; left)) as (Hcur & s & x0 & l0 & Es & Ep0 & Hr & Eat & _).
  rewrite Hx in Eat. injection Eat as <-. rewrite Ep in Ep0. injection Ep0 as <-. constructor.
  - exact Hinv.
  - intros i y Hi. apply H2. rewrite <- Hperm. right. exact Hi.
  - exact (all_at_snoc sets cur top xs x H3 Hx).
  - apply Forall_app. split; [exact H4|]. repeat constructor. exact Hk.
  - intros i y Hi Hy. apply elem_of_app in Hi as [Hi|Hi].
    + destruct (H5 i y Hi Hy) as [E Hs]. split; [exact E|]. intros p. rewrite list_lookup_insert_ne by (intros ->; contradiction). apply Hs.
    + apply list_elem_of_singleton in Hi as ->. rewrite Hx in Hy. injection Hy as <-. split; [exact Hk|]. intros p. rewrite list_lookup_insert_eq by (eapply lookup_lt_Some; exact Ep). intros [= <-]. exact (srep_sorted _ _ _ Hr).
  - rewrite H6, (concat_insert pend top x l Ep). rewrite <- app_assoc. reflexivity.
Qed.

(** What is left when the loop ends comes after [k]. *)
Lemma popping_rest sets k all h cur pend xs : popping sets k all h cur pend xs -> (forall top h0 x, h = top :: h0 -> at_of sets top = Ret x -> lset x <> k) ->
  forall y, y ∈ concat pend -> labels_lt k (lset y).
Proof.
  intros [H1 H2 H3 H4 H5 H6] Hend y Hy. apply in_concat_slot in Hy as (i & p & Ep & Hy). pose proof (mi_slot _ _ _ _ H1 i) as Hs. rewrite Ep in Hs. destruct (sets !! i) as [so|] eqn:Es; [|contradiction].
  destruct Hs as [_ _|s x l Hi _ Hr|s c p Hi Hc Hr|s _ _ _]; [apply not_elem_of_nil in Hy as []| | |apply not_elem_of_nil in Hy as []].
  - assert (Eat : at_of sets i = Ret x) by (unfold at_of, nth_set; rewrite Es; exact (srep_at _ _ _ Hr)).
    assert (Hkx : labels_lt k (lset x)).
    { destruct (H2 i x Hi Eat) as [E|Hlt]; [|exact Hlt]. destruct h as [|top h0]; [apply not_elem_of_nil in Hi as []|]. destruct (mi_in_heap _ _ _ _ top H1 ltac:(left)) as (_ & s' & z & l' & _ & _ & _ & Ez & _).
      pose proof (Hend top h0 z eq_refl Ez) as Hne. destruct (H2 top z ltac:(left) Ez) as [|Hlt]; [contradiction|]. destruct (top_before sets _ cur pend top h0 i z x H1 eq_refl Ez Hi Eat) as [Ezx|Hzx]; [congruence|].
      exfalso. apply (labels_lt_irrefl k). rewrite <- E at 2. exact (labels_lt_trans _ _ _ Hlt Hzx). }
    apply elem_of_cons in Hy as [->|Hy]; [exact Hkx|]. pose proof (srep_sorted _ _ _ Hr) as Hsrt. apply StronglySorted_inv in Hsrt as [_ Hf]. rewrite List.Forall_forall in Hf.
    apply list_elem_of_In in Hy. exact (labels_lt_trans _ _ _ Hkx (Hf y Hy)).
  - assert (Hat : exists x, at_of sets i = Ret x).
    { clear -H3 Hc. revert xs H3. induction cur as [|j cur IH]; intros xs H; [apply not_elem_of_nil in Hc as []|]. cbn in H. destruct (at_of sets j) as [z|] eqn:Ez; [|discriminate]. apply elem_of_cons in Hc as [->|Hc]; [eauto|].
      cbn in H. destruct (all_at sets cur) as [zs|]; [|discriminate]. exact (IH Hc zs eq_refl). }
    destruct Hat as [x Ex]. destruct (H5 i x Hc Ex) as [<- Hsrt]. specialize (Hsrt p Ep). apply StronglySorted_inv in Hsrt as [_ Hf]. rewrite List.Forall_forall in Hf. apply list_elem_of_In in Hy. exact (Hf y Hy).
Qed.

Lemma pop_loop_ok n : forall sets k all h cur pend xs, (length h <= n)%nat -> popping sets k all h cur pend xs ->
  exists h' cur' pend' xs', returns (rloop (pop_body lset sets k) (h, cur)) (h', cur') /\ popping sets k all h' cur' pend' xs' /\ (length xs <= length xs')%nat
  /\ (forall top h0 x, h = top :: h0 -> at_of sets top = Ret x -> lset x = k -> (length xs < length xs')%nat)
  /\ forall y, y ∈ concat pend' -> labels_lt k (lset y).
Proof.
  induction n as [n IH] using lt_wf_ind. intros sets k all h cur pend xs Hn Hp. destruct h as [|top h0].
  - exists [], cur, pend, xs. split; [apply returns_loop_end, returns_ret|]. split; [exact Hp|]. split; [lia|]. split; [discriminate|]. apply (popping_rest _ _ _ _ _ _ _ Hp). discriminate.
  - destruct (mi_in_heap _ _ _ _ top (pp_inv _ _ _ _ _ _ _ Hp) ltac:(left)) as (_ & s & x & l & _ & _ & _ & Ex & _).
    assert (Hbody : forall r, returns (if bool_decide (k = lset x) then do (i, h) <- rlift (heap_pop (set_before sets) (top :: h0)) ;; rret (inl (h, cur ++ [i])) else rret (inr (top :: h0, cur))) r ->
      returns (pop_body lset sets k (top :: h0, cur)) r).
    { intros r Hr. unfold pop_body. eapply returns_bind; [apply returns_lift; exact Ex|]. exact Hr. }
    destruct (decide (k = lset x)) as [Ek|Ek].
    + destruct (popping_step _ _ _ _ _ _ _ top h0 x Hp eq_refl Ex (eq_sym Ek)) as (h' & pend' & Epop & Hlen & Hp'). destruct (IH (length h') ltac:(lia) _ _ _ _ _ _ _ (le_n _) Hp') as (h2 & cur2 & pend2 & xs2 & Hret & Hp2 & Hle & _ & Hrest).
      rewrite length_app in Hle. cbn [length] in Hle. exists h2, cur2, pend2, xs2. split; [|split; [exact Hp2|split; [lia|split; [intros; lia|exact Hrest]]]].
      eapply returns_loop_next; [|exact Hret]. apply Hbody. rewrite bool_decide_eq_true_2 by exact Ek. eapply returns_bind; [apply returns_lift; exact Epop|]. apply returns_ret.
    + exists (top :: h0), cur, pend, xs. split; [apply returns_loop_end, Hbody; rewrite bool_decide_eq_false_2 by exact Ek; apply returns_ret|]. split; [exact Hp|]. split; [lia|].
      split; [intros t h1 y [= <- <-] Hy E; congruence|]. apply (popping_rest _ _ _ _ _ _ _ Hp). intros t h1 y [= <- <-] Hy E. congruence.
Qed.

(** ** [Next] *)

Variable mergeFunc : list X -> X.

(** What [At] makes of a group of series with equal labels. *)
Definition merge1 (xs : list X) : X := match xs with [x] => x | _ => mergeFunc xs end.

Lemma all_at_one c xs : all_at (ms_sets c) (ms_currentSets c) = Ret xs -> ms_At mergeFunc c = Ret (merge1 xs).
Proof.
  unfold ms_At. intros H. destruct (ms_currentSets c) as [|i ids]; [injection H as <-; reflexivity|]. cbn [all_at] in H. destruct (at_of (ms_sets c) i) as [x|] eqn:Ex; [|discriminate]. cbn [outcome_bind] in H.
  destruct (all_at (ms_sets c) ids) as [ys|] eqn:Ey; [|discriminate]. injection H as <-. destruct ids as [|j ids]; [injection Ey as <-; reflexivity|].
  cbn [all_at outcome_bind] in *. destruct (at_of (ms_sets c) j) as [y|]; [|discriminate]. cbn [outcome_bind] in *. destruct (all_at (ms_sets c) ids); [|discriminate]. injection Ey as <-. rewrite Ex. reflexivity.
Qed.

Lemma no_heap_done sets pend : MInv sets [] [] pend -> concat pend = [].
Proof.
  intros H. destruct (concat pend) as [|y l] eqn:E; [reflexivity|]. exfalso. assert (Hy : y ∈ concat pend) by (rewrite E; left). apply in_concat_slot in Hy as (i & p & Ep & Hy).
  pose proof (mi_slot _ _ _ _ H i) as Hs. rewrite Ep in Hs. destruct (sets !! i) as [so|]; [|contradiction].
  destruct Hs as [_ _|s x l' Hi _ _|s c p _ Hi _|s _ _ _]; try (apply not_elem_of_nil in Hi as []); apply not_elem_of_nil in Hy as [].
Qed.

#[local] Abbreviation state_inv c pend := (MInv (ms_sets c) (ms_heap c) (ms_currentSets c) pend).

Lemma next_set_ok c pend : state_inv c pend ->
  (concat pend = [] /\ exists c', returns (rloop (next_set_body lset) c) (false, c')) \/
  (exists c' xs k pend', returns (rloop (next_set_body lset) c) (true, c') /\ state_inv c' pend' /\ ms_seriesLimit c' = ms_seriesLimit c /\ ms_mergedSeries c' = ms_mergedSeries c + 1
    /\ ms_At mergeFunc c' = Ret (merge1 xs) /\ xs <> [] /\ Forall (fun x => lset x = k) xs /\ concat pend ≡ₚ xs ++ concat pend' /\ forall y, y ∈ concat pend' -> labels_lt k (lset y)).
Proof.
  intros H. destruct (advance_all_ok _ _ _ _ H) as (sets & h & Hret & H1). destruct h as [|top h0].
  - left. split; [exact (no_heap_done _ _ H1)|]. eexists. apply returns_loop_end. unfold next_set_body. r_step Hret. apply returns_ret.
  - right. destruct (mi_in_heap _ _ _ _ top H1 ltac:(left)) as (_ & s & x & l & _ & _ & _ & Ex & _).
    assert (Hp : popping sets (lset x) (concat pend) (top :: h0) [] pend []).
    { constructor; [exact H1| |reflexivity|constructor|intros i y Hi; apply not_elem_of_nil in Hi as []|reflexivity]. intros i y Hi Hy. exact (top_before _ _ _ _ _ _ i x y H1 eq_refl Ex Hi Hy). }
    destruct (pop_loop_ok _ _ _ _ _ _ _ _ (le_n _) Hp) as (h' & cur & pend' & xs & Hpop & Hp' & _ & Hlt & Hrest). specialize (Hlt top h0 x eq_refl Ex eq_refl). cbn [length] in Hlt.
    assert (Hxs : xs <> []) by (intros ->; cbn in Hlt; lia). pose proof (pp_at _ _ _ _ _ _ _ Hp') as Hat. assert (Hcur : cur <> []) by (intros ->; injection Hat as <-; contradiction).
    exists (mkMergeSet (lset x) h' sets cur (ms_seriesLimit c) (ms_mergedSeries c + 1)), xs, (lset x), pend'. split.
    + apply returns_loop_end. unfold next_set_body. r_step Hret. eapply returns_bind; [apply returns_lift; exact Ex|]. cbv beta. r_step Hpop. rewrite bool_decide_eq_false_2 by exact Hcur. apply returns_ret.
    + split; [exact (pp_inv _ _ _ _ _ _ _ Hp')|]. split; [reflexivity|]. split; [reflexivity|]. split; [exact (all_at_one (mkMergeSet (lset x) h' sets cur _ _) xs Hat)|]. split; [exact Hxs|].
      split; [exact (pp_key _ _ _ _ _ _ _ Hp')|]. split; [exact (pp_perm _ _ _ _ _ _ _ Hp')|exact Hrest].
Qed.

(** ** All the series *)

(** [gs] are the groups of the series [all] with equal labels, in order, [rest]
    is left because the limit was reached; [m] groups were returned before. *)
Record grouped (limit m : Z) (all : list X) (gs : list (list X)) (rest : list X) : Prop := {
  gr_perm : all ≡ₚ concat gs ++ rest;
  gr_equal : Forall (fun g => g <> [] /\ exists k, Forall (fun x => lset x = k) g) gs;
  gr_order : StronglySorted (fun g h => forall x y, x ∈ g -> y ∈ h -> labels_before lset x y) gs;
  gr_rest : forall x y, x ∈ concat gs -> y ∈ rest -> labels_before lset x y;
  gr_limit : 0 < limit -> m + Z.of_nat (length gs) <= limit;
  gr_all : rest = [] \/ (0 < limit /\ m + Z.of_nat (length gs) = limit) }.

Lemma grouped_cons limit m all k xs all' gs rest : xs <> [] -> Forall (fun x => lset x = k) xs -> all ≡ₚ xs ++ all' -> (forall y, y ∈ all' -> labels_lt k (lset y)) ->
  grouped limit (m + 1) all' gs rest -> grouped limit m all (xs :: gs) rest.
Proof.
  intros Hne Hk Hperm Hlt [H1 H2 H3 H4 H5 H6]. rewrite List.Forall_forall in Hk.
  assert (Hxs : forall x y, x ∈ xs -> y ∈ concat gs ++ rest -> labels_before lset x y).
  { intros x y Hx Hy. unfold labels_before. apply list_elem_of_In in Hx. rewrite (Hk x Hx). apply Hlt. rewrite H1. exact Hy. }
  constructor.
  - cbn [concat]. rewrite Hperm, H1, app_assoc. reflexivity.
  - constructor; [|exact H2]. split; [exact Hne|]. exists k. apply List.Forall_forall. exact Hk.
  - constructor; [exact H3|]. apply List.Forall_forall. intros g Hg x y Hx Hy. apply Hxs; [exact Hx|]. apply elem_of_app. left. apply list_elem_of_In, in_concat. exists g. split; [exact Hg|apply list_elem_of_In; exact Hy].
  - intros x y Hx Hy. cbn [concat] in Hx. apply elem_of_app in Hx as [Hx|Hx]; [|exact (H4 x y Hx Hy)]. apply Hxs; [exact Hx|]. apply elem_of_app. right. exact Hy.
  - cbn [length]. lia.
  - cbn [length]. intuition lia.
Qed.

Lemma collect_ok n : forall c pend acc, (length (concat pend) <= n)%nat -> state_inv c pend -> (0 < ms_seriesLimit c -> ms_mergedSeries c <= ms_seriesLimit c) ->
  exists c' gs rest, returns (rloop (collect_body lset mergeFunc) (acc, c)) (acc ++ map merge1 gs, c') /\ grouped (ms_seriesLimit c) (ms_mergedSeries c) (concat pend) gs rest.
Proof.
  induction n as [n IH] using lt_wf_ind. intros c pend acc Hn H Hm.
  assert (Hend : forall c' rest, returns (ms_Next lset c) (false, c') -> rest = concat pend -> (rest = [] \/ 0 < ms_seriesLimit c /\ ms_mergedSeries c = ms_seriesLimit c) ->
    exists c' gs rest, returns (rloop (collect_body lset mergeFunc) (acc, c)) (acc ++ map merge1 gs, c') /\ grouped (ms_seriesLimit c) (ms_mergedSeries c) (concat pend) gs rest).
  { intros c' rest Hret -> Hrest. exists c', [], (concat pend). split; [rewrite app_nil_r; apply returns_loop_end; unfold collect_body; r_step Hret; apply returns_ret|].
    constructor; [reflexivity|constructor|constructor|intros x y Hx; apply not_elem_of_nil in Hx as []|cbn; lia|cbn; intuition lia]. }
  destruct ((0 <? ms_seriesLimit c) && (ms_seriesLimit c <=? ms_mergedSeries c)) eqn:El.
  - apply (Hend c (concat pend)); [unfold ms_Next; rewrite El; apply returns_ret|reflexivity|]. right. lia.
  - assert (Hnext : forall r, returns (rloop (next_set_body lset) c) r -> returns (ms_Next lset c) r) by (intros r Hr; unfold ms_Next; rewrite El; exact Hr).
    destruct (next_set_ok c pend H) as [(He & c' & Hret)|(c' & xs & k & pend' & Hret & H' & El' & Em' & Hat & Hne & Hk & Hperm & Hlt)].
    + apply (Hend c' [] (Hnext _ Hret)); [congruence|left; reflexivity].
    + assert (Hlen : (length (concat pend') < n)%nat). { apply Permutation_length in Hperm. rewrite length_app in Hperm. destruct xs; [contradiction|]. cbn [length] in Hperm. lia. }
      destruct (IH _ Hlen c' pend' (acc ++ [merge1 xs]) (le_n _) H' ltac:(rewrite El', Em'; lia)) as (c2 & gs & rest & Hret2 & Hg). exists c2, (xs :: gs), rest. rewrite El', Em' in Hg. split; [|exact (grouped_cons _ _ _ _ _ _ _ _ Hne Hk Hperm Hlt Hg)].
      rewrite <- app_assoc in Hret2. eapply returns_loop_next; [|exact Hret2]. unfold collect_body. eapply returns_bind; [exact (Hnext _ Hret)|]. cbv beta iota. eapply returns_bind; [apply returns_lift; exact Hat|]. apply returns_ret.
Qed.

(** Nothing was read from the set; an absent set has no series. *)
Definition fresh_set (so : option S) (l : list X) : Prop := match so with Some s => SRep s None l | None => l = [] end.

Lemma fresh_inv sets ls : Forall2 fresh_set sets ls -> MInv sets [] (List.filter (present sets) (seq 0 (length sets))) ls.
Proof.
  intros H. constructor; [apply NoDup_nil_2|apply NoDup_ListNoDup, List.NoDup_filter, seq_NoDup|intros k Hk; cbn in Hk; lia|]. intros i.
  assert (Hin : i ∈ List.filter (present sets) (seq 0 (length sets)) <-> present sets i = true).
  { rewrite list_elem_of_In, filter_In, in_seq. split; [tauto|]. intros Hp. split; [|exact Hp]. unfold present in Hp. destruct (sets !! i) eqn:E; [|discriminate]. apply lookup_lt_Some in E. lia. }
  unfold present in Hin at 2. destruct (sets !! i) as [so|] eqn:Es.
  - destruct (Forall2_lookup_l _ _ _ _ _ H Es) as (l & El & Hf). rewrite El. destruct so as [s|]; cbn in Hf.
    + eapply SlotCurrent; [apply not_elem_of_nil|apply Hin; reflexivity|exact Hf].
    + subst l. apply SlotNil; [apply not_elem_of_nil|rewrite Hin; discriminate].
  - destruct (ls !! i) eqn:E; [apply lookup_lt_Some in E; apply lookup_ge_None in Es; apply Forall2_length in H; lia|]. split; [apply not_elem_of_nil|]. rewrite Hin. discriminate.
Qed.

Lemma new_merge_set_ok sets ls limit : Forall2 fresh_set sets ls -> length sets <> 1%nat ->
  exists sets' h, returns (newGenericMergeSeriesSet lset sets limit) (MergedSet (mkMergeSet [] h sets' [] limit 0)) /\ MInv sets' h [] ls.
Proof.
  intros H Hlen. destruct (first_advance_ok (seq 0 (length sets)) sets [] ls) as (sets' & h & Hret & H').
  - apply NoDup_ListNoDup, seq_NoDup.
  - intros i Hi. apply list_elem_of_In, in_seq in Hi. lia.
  - exact (fresh_inv sets ls H).
  - exists sets', h. split; [|exact H']. unfold newGenericMergeSeriesSet. destruct sets as [|s [|s2 sets]]; [|contradiction|]; (r_step Hret; apply returns_ret).
Qed.
End merge_ok.

(** ** A set of decoded series ([concreteSeriesSet] of [storage/remote/codec.go]) *)

Section concrete_set.
Context {X : Type}.

Record concreteSeriesSet := mkConcreteSet { cc_cur : Z; cc_series : list X }.

#[export] Instance concreteSeriesSet_ops : SetOps concreteSeriesSet X := {|
  set_Next c := let c := mkConcreteSet (cc_cur c + 1) (cc_series c) in rret (cc_cur c - 1 <? Z.of_nat (length (cc_series c)), c);
  set_At c := let i := cc_cur c - 1 in if i <? 0 then Panic else match cc_series c !! Z.to_nat i with Some x => Ret x | None => Panic end;
  set_Err _ := None |}.
End concrete_set.
Arguments concreteSeriesSet X : clear implicits.

(** Standing at the series before the cursor. *)
Definition cc_rep {X} (lset : X -> list Label) (c : concreteSeriesSet X) (cur : option X) (l : list X) : Prop :=
  0 <= cc_cur c /\ StronglySorted (labels_before lset) (cc_series c) /\ l = drop (Z.to_nat (cc_cur c)) (cc_series c)
  /\ match cur with Some x => 0 < cc_cur c /\ cc_series c !! Z.to_nat (cc_cur c - 1) = Some x | None => True end.

Lemma cc_step {X} (lset : X -> list Label) (c : concreteSeriesSet X) cur l : cc_rep lset c cur l ->
  drop (Z.to_nat (cc_cur c + 1)) (cc_series c) = tail l /\ cc_series c !! Z.to_nat (cc_cur c + 1 - 1) = head l
  /\ (cc_cur c + 1 - 1 <? Z.of_nat (length (cc_series c))) = match l with [] => false | _ => true end.
Proof.
  intros (H0 & _ & -> & _). rewrite (Z2Nat.inj_add (cc_cur c) 1), <- drop_drop by lia. replace (cc_cur c + 1 - 1) with (cc_cur c) by lia.
  split; [destruct (drop (Z.to_nat (cc_cur c)) _); reflexivity|]. rewrite <- (Nat.add_0_r (Z.to_nat (cc_cur c))) at 1. rewrite <- lookup_drop. split; [destruct (drop _ _); reflexivity|].
  pose proof (length_drop (cc_series c) (Z.to_nat (cc_cur c))) as Hl. destruct (drop _ _) as [|x l]; cbn [length] in Hl; [apply Z.ltb_ge|apply Z.ltb_lt]; lia.
Qed.

Lemma strongly_sorted_suffix {A} (R : A -> A -> Prop) l1 l2 : StronglySorted R (l1 ++ l2) -> StronglySorted R l2.
Proof. induction l1 as [|x l1 IH]; [auto|]. cbn. intros H. apply StronglySorted_inv in H as [H _]. auto. Qed.

#[export] Instance concreteSeriesSet_ok {X} (lset : X -> list Label) : SetOK lset (concreteSeriesSet X).
Proof.
  refine {| SRep := cc_rep lset |}.
  - intros c cur l (H0 & Hs & -> & Hc). apply (strongly_sorted_suffix _ (take (Z.to_nat (cc_cur c - match cur with Some _ => 1 | None => 0 end)) (cc_series c))). destruct cur as [x|].
    + destruct Hc as [Hpos Hx]. replace (Z.to_nat (cc_cur c)) with (Datatypes.S (Z.to_nat (cc_cur c - 1))) by lia. cbn. rewrite take_drop_middle by exact Hx. exact Hs.
    + rewrite Z.sub_0_r. cbn. rewrite take_drop. exact Hs.
  - intros c x l (H0 & _ & _ & Hpos & Hx). cbn. destruct (Z.ltb_spec (cc_cur c - 1) 0); [lia|]. rewrite Hx. reflexivity.
  - intros c cur l _. reflexivity.
  - intros c cur x l H. destruct (cc_step lset c cur _ H) as (Hd & Hx & Hlt). destruct H as (H0 & Hs & _ & _). exists (mkConcreteSet (cc_cur c + 1) (cc_series c)). split.
    + apply returns_lift. cbn. f_equal. f_equal. exact Hlt.
    + split; [cbn; lia|]. split; [exact Hs|]. split; [symmetry; exact Hd|]. split; [cbn; lia|exact Hx].
  - intros c cur H. destruct (cc_step lset c cur _ H) as (Hd & Hx & Hlt). destruct H as (H0 & Hs & _ & _). exists (mkConcreteSet (cc_cur c + 1) (cc_series c)). split.
    + apply returns_lift. cbn. f_equal. f_equal. exact Hlt.
    + split; [cbn; lia|]. split; [exact Hs|]. split; [symmetry; exact Hd|exact I].
Defined.

(** ** The merged set holds each label set once *)

(** C5: reading the merge of several sets, each sorted by labels (absent sets have
    none), returns without a panic one series for every group of the series with equal
    labels: a series that stands alone as it is, the others put through the
    merge function.  The groups come in strictly increasing order of labels and
    together hold every series of every set; without a limit none is left out, with
    one exactly the groups up to the limit are returned, and what is left comes after them. *)
Theorem merge_sets_union {S X : Type} {sops : SetOps S X} (lset : X -> list Label) {SOK : SetOK lset S} (mergeFunc : list X -> X) (limit : Z) (sets : list (option S)) (ls : list (list X)) :
  Forall2 fresh_set sets ls -> length sets <> 1%nat ->
  exists c c' gs rest, returns (newGenericMergeSeriesSet lset sets limit) (MergedSet c) /\ returns (collect_series lset mergeFunc c) (map (merge1 mergeFunc) gs, c')
    /\ grouped (lset := lset) limit 0 (concat ls) gs rest.
Proof.
  intros H Hlen. destruct (new_merge_set_ok (lset := lset) sets ls limit H Hlen) as (sets' & h & Hret & Hinv). exists (mkMergeSet [] h sets' [] limit 0).
  destruct (collect_ok mergeFunc _ (mkMergeSet [] h sets' [] limit 0) ls [] (le_n _) Hinv ltac:(cbn; lia)) as (c' & gs & rest & Hc & Hg).
  exists c', gs, rest. split; [exact Hret|]. split; [exact Hc|exact Hg].
Qed.

Definition example_label (v : Z) : list Label := [mkLabel [106; 111; 98] [v]].
Definition example_series : list (list (list Label * list Z)) :=
  [[(example_label 97, [1]); (example_label 99, [2])]; []; [(example_label 97, [3]); (example_label 98, [4])]; []].
Definition example_sets : list (option (concreteSeriesSet (list Label * list Z))) :=
  [Some (mkConcreteSet 0 [(example_label 97, [1]); (example_label 99, [2])]); None;
   Some (mkConcreteSet 0 [(example_label 97, [3]); (example_label 98, [4])]); Some (mkConcreteSet 0 [])].
Definition example_merge (xs : list (list Label * list Z)) : list Label * list Z :=
  match xs with [] => ([], []) | (ls, _) :: _ => (ls, concat (map snd xs)) end.

Lemma merge_sets_union_witness : exists c c' gs rest, returns (newGenericMergeSeriesSet fst example_sets 2) (MergedSet c)
  /\ returns (collect_series fst example_merge c) (map (merge1 example_merge) gs, c') /\ grouped (lset := fst) 2 0 (concat example_series) gs rest.
Proof.
  apply (merge_sets_union fst example_merge 2 example_sets example_series).
  - repeat constructor; cbn; try (repeat constructor; vm_compute; reflexivity); lia.
  - discriminate.
Defined.

(** The series themselves, without and with a limit. *)
Definition read_merged (limit : Z) : option (outcome (list (list Label * list Z))) :=
  (do m <- newGenericMergeSeriesSet fst example_sets limit ;;
   match m with MergedSet c => do (l, _) <- collect_series fst example_merge c ;; rret l | _ => rret [] end) 20%nat.
Example merged_example : read_merged 0 = Some (Ret [(example_label 97, [1; 3]); (example_label 98, [4]); (example_label 99, [2])]).
Proof. vm_compute. reflexivity. Qed.
Example merged_limit_example : read_merged 2 = Some (Ret [(example_label 97, [1; 3]); (example_label 98, [4])]).
Proof. vm_compute. reflexivity. Qed.

(** An absent set is passed over when the merge starts, but asked for its error. *)
Lemma merge_err_absent : (do m <- newGenericMergeSeriesSet fst example_sets 0 ;; match m with MergedSet c => rlift (ms_Err c) | _ => rret None end) 20%nat = Some Panic.
Proof. vm_compute. reflexivity. Qed.

(** A single set is returned as it is: its series are not limited. *)
Lemma merge_one_ignores_limit {S X : Type} {sops : SetOps S X} (lset : X -> list Label) (so : option S) limit : returns (newGenericMergeSeriesSet lset [so] limit) (OnlySet so).
Proof. apply returns_ret. Qed.
