(* ===== verification/MergeQuerier.v ===== *)
(** * Label queries of merged queriers ([storage/merge.go], [storage/secondary.go])

    A merged querier asks several queriers for label names and values and merges
    the sorted answers.  The failure of a primary querier fails the query, that
    of a secondary one becomes a warning. *)
From stdpp Require Import base list numbers strings gmap sets.
From Stdlib Require Import ZArith Lia Sorted.
From S2P Require Import Prelude Utf8 Labels Index.

(** [annotations.Annotations]: a map from the texts of errors to the errors; an error is its text here. *)
Abbreviation Annotations := (gset string).

(** The values, the annotations and the error of a query. *)
Abbreviation answer := (list bytes * Annotations * option string)%type.

(** The hints of a query: only [Limit] is used. *)
Abbreviation LabelHints := (option Z).

Section queriers.
(** Matchers are only handed on. *)
Context {M : Type}.

(** [storage.LabelQuerier], without [Close]. *)
Record LabelQuerier := mkLabelQuerier { LabelValues : bytes -> LabelHints -> list M -> answer; LabelNames : LabelHints -> list M -> answer }.

(** What is given to [NewMergeQuerier]: [nil], a [noopQuerier], or a querier that does something. *)
Inductive given := GivenNil | GivenNoop | Given (q : LabelQuerier).
Fixpoint filterQueriers (qs : list given) : list LabelQuerier :=
  match qs with [] => [] | Given q :: qs => q :: filterQueriers qs | _ :: qs => filterQueriers qs end.

(** [secondaryQuerier]: errors become warnings. *)
Definition secondary_answer (a : answer) : answer := match a with (_, w, Some err) => ([], {[ err ]} ∪ w, None) | _ => a end.
Definition newSecondaryQuerierFrom (q : LabelQuerier) : LabelQuerier :=
  mkLabelQuerier (fun name h ms => secondary_answer (LabelValues q name h ms)) (fun h ms => secondary_answer (LabelNames q h ms)).

Definition SplitByHalf (l : list LabelQuerier) : list LabelQuerier * list LabelQuerier := let i := (length l / 2)%nat in (take i l, drop i l).

Definition truncateToLimit (s : list bytes) (hints : LabelHints) : list bytes :=
  match hints with Some limit => if (0 <? limit) && (limit <? Z.of_nat (length s)) then take (Z.to_nat limit) s else s | None => s end.

Fixpoint mergeStrings (a : list bytes) : list bytes -> list bytes :=
  match a with
  | [] => fun b => b
  | x :: a' => fix merge_b (b : list bytes) : list bytes :=
      match b with
      | [] => x :: a'
      | y :: b' => if str_eqb x y then x :: mergeStrings a' b' else if str_ltb x y then x :: mergeStrings a' b else y :: merge_b b'
      end
  end.

(** The queriers halve at each call: their number is enough fuel. *)
Fixpoint mergeResults (fuel : nat) (lq : list LabelQuerier) (hints : LabelHints) (resultsFn : LabelQuerier -> answer) : answer :=
  match lq, fuel with
  | [], _ | _, 0%nat => ([], ∅, None)
  | [q], _ => resultsFn q
  | _, S fuel =>
      let (a, b) := SplitByHalf lq in
      let '(s1, w1, err) := mergeResults fuel a hints resultsFn in
      match err with
      | Some e => ([], w1, Some e)
      | None =>
          let '(s2, w2, err) := mergeResults fuel b hints resultsFn in
          let ws := w1 ∪ w2 in
          match err with
          | Some e => ([], ws, Some e)
          | None => (truncateToLimit (mergeStrings (truncateToLimit s1 hints) (truncateToLimit s2 hints)) hints, ws, None)
          end
      end
  end.

(** [mergeGenericQuerier], of which label queries use the queriers only. *)
Definition wrap_error (text : string) (a : answer) : answer := match a with (_, _, Some e) => ([], ∅, Some (text ++ ": " ++ e)%string) | _ => a end.
Definition merge_LabelValues (queriers : list LabelQuerier) (name : bytes) (hints : LabelHints) (ms : list M) : answer :=
  wrap_error ("LabelValues() from merge generic querier for label " ++ to_string name)
    (mergeResults (length queriers) queriers hints (fun q => LabelValues q name hints ms)).
Definition merge_LabelNames (queriers : list LabelQuerier) (hints : LabelHints) (ms : list M) : answer :=
  wrap_error "LabelNames() from merge generic querier" (mergeResults (length queriers) queriers hints (fun q => LabelNames q hints ms)).
Definition mergeGenericQuerier (queriers : list LabelQuerier) : LabelQuerier := mkLabelQuerier (merge_LabelValues queriers) (merge_LabelNames queriers).

Definition noopQuerier : LabelQuerier := mkLabelQuerier (fun _ _ _ => ([], ∅, None)) (fun _ _ => ([], ∅, None)).

Definition NewMergeQuerier (primaries secondaries : list given) : LabelQuerier :=
  let primaries := filterQueriers primaries in
  let secondaries := filterQueriers secondaries in
  match primaries, secondaries with
  | [], [] => noopQuerier
  | [q], [] => q
  | [], [q] => newSecondaryQuerierFrom q
  | _, _ => mergeGenericQuerier (primaries ++ map newSecondaryQuerierFrom secondaries)
  end.
End queriers.
Arguments LabelQuerier M : clear implicits.
Arguments given M : clear implicits.

(** ** Merging sorted lists *)

Lemma mergeStrings_nil_r a : mergeStrings a [] = a.
Proof. destruct a; reflexivity. Qed.

Lemma mergeStrings_cons x a y b : mergeStrings (x :: a) (y :: b)
  = if str_eqb x y then x :: mergeStrings a b else if str_ltb x y then x :: mergeStrings a (y :: b) else y :: mergeStrings (x :: a) b.
Proof. reflexivity. Qed.

(** Induction on the two lists that are merged. *)
Lemma merge_ind (P : list bytes -> list bytes -> Prop) : (forall b, P [] b) -> (forall a, P a []) ->
  (forall a x b, P a b -> P (x :: a) (x :: b)) -> (forall x a y b, str_lt x y -> P a (y :: b) -> P (x :: a) (y :: b)) ->
  (forall x a y b, str_lt y x -> P (x :: a) b -> P (x :: a) (y :: b)) -> forall a b, P a b.
Proof.
  intros Hl Hr He Hlt Hgt. induction a as [|x a IHa]; [exact Hl|]. induction b as [|y b IHb]; [apply Hr|]. destruct (str_compare x y) eqn:E.
  - apply str_compare_eq in E as ->. apply He, IHa.
  - apply Hlt; [exact E|apply IHa].
  - apply Hgt; [|exact IHb]. unfold str_lt. rewrite str_compare_opp, E. reflexivity.
Qed.

Lemma merge_equal x a b : mergeStrings (x :: a) (x :: b) = x :: mergeStrings a b.
Proof. rewrite mergeStrings_cons, (proj2 (str_eqb_spec x x) eq_refl). reflexivity. Qed.

Lemma merge_less x a y b : str_lt x y -> mergeStrings (x :: a) (y :: b) = x :: mergeStrings a (y :: b).
Proof.
  intros H. rewrite mergeStrings_cons, (proj2 (str_ltb_spec x y) H), (proj2 (str_eqb_false x y)); [reflexivity|]. intros ->. destruct (str_lt_irrefl _ H).
Qed.

Lemma merge_greater x a y b : str_lt y x -> mergeStrings (x :: a) (y :: b) = y :: mergeStrings (x :: a) b.
Proof.
  intros H. rewrite mergeStrings_cons, (proj2 (str_eqb_false x y)) by (intros ->; destruct (str_lt_irrefl _ H)).
  destruct (str_ltb x y) eqn:E; [|reflexivity]. apply str_ltb_spec in E. destruct (str_lt_irrefl x). exact (str_lt_trans _ _ _ E H).
Qed.

Lemma elem_of_merge z a b : z ∈ mergeStrings a b <-> z ∈ a \/ z ∈ b.
Proof.
  pattern a, b. apply merge_ind; clear a b.
  - intros b. cbn. rewrite elem_of_nil. tauto.
  - intros a. rewrite mergeStrings_nil_r, elem_of_nil. tauto.
  - intros a x b IH. rewrite merge_equal, !elem_of_cons, IH. tauto.
  - intros x a y b H IH. rewrite (merge_less x a y b H), !elem_of_cons, IH, elem_of_cons. tauto.
  - intros x a y b H IH. rewrite (merge_greater x a y b H), !elem_of_cons, IH, elem_of_cons. tauto.
Qed.

Lemma str_sorted_cons x l : str_sorted (x :: l) <-> (forall y, y ∈ l -> str_lt x y) /\ str_sorted l.
Proof.
  unfold str_sorted. split.
  - intros H. apply StronglySorted_inv in H as [H1 H2]. split; [|exact H1]. rewrite List.Forall_forall in H2. intros y Hy. apply H2, list_elem_of_In, Hy.
  - intros [H1 H2]. constructor; [exact H2|]. apply List.Forall_forall. intros y Hy. apply H1, list_elem_of_In, Hy.
Qed.

Lemma merge_sorted a b : str_sorted a -> str_sorted b -> str_sorted (mergeStrings a b).
Proof.
  pattern a, b. apply merge_ind; clear a b.
  - intros b _ H. exact H.
  - intros a H _. rewrite mergeStrings_nil_r. exact H.
  - intros a x b IH [Ha Hsa]%str_sorted_cons [Hb Hsb]%str_sorted_cons. rewrite merge_equal. apply str_sorted_cons. split; [|exact (IH Hsa Hsb)].
    intros z [Hz|Hz]%elem_of_merge; auto.
  - intros x a y b H IH [Ha Hsa]%str_sorted_cons Hb. rewrite (merge_less x a y b H). apply str_sorted_cons. split; [|exact (IH Hsa Hb)].
    apply str_sorted_cons in Hb as [Hb _]. intros z [Hz|[->|Hz]%elem_of_cons]%elem_of_merge; auto. exact (str_lt_trans _ _ _ H (Hb z Hz)).
  - intros x a y b H IH Ha [Hb Hsb]%str_sorted_cons. rewrite (merge_greater x a y b H). apply str_sorted_cons. split; [|exact (IH Ha Hsb)].
    apply str_sorted_cons in Ha as [Ha _]. intros z [[->|Hz]%elem_of_cons|Hz]%elem_of_merge; auto. exact (str_lt_trans _ _ _ H (Ha z Hz)).
Qed.

(** The first [n] of a merge come from the first [n] of each list. *)
Lemma take_merge a b : forall n m k, (n <= m)%nat -> (n <= k)%nat -> take n (mergeStrings (take m a) (take k b)) = take n (mergeStrings a b).
Proof.
  pattern a, b. apply merge_ind; clear a b.
  - intros b n m k Hm Hk. rewrite take_nil. cbn. rewrite take_take. f_equal. lia.
  - intros a n m k Hm Hk. rewrite take_nil, !mergeStrings_nil_r, take_take. f_equal. lia.
  - intros a x b IH [|n] [|m] [|k] Hm Hk; try lia; try reflexivity. cbn [take]. rewrite !merge_equal. cbn [take]. f_equal. apply IH; lia.
  - intros x a y b H IH [|n] [|m] [|k] Hm Hk; try lia; try reflexivity. cbn [take]. rewrite !merge_less by exact H. cbn [take]. f_equal. apply (IH n m (S k)); lia.
  - intros x a y b H IH [|n] [|m] [|k] Hm Hk; try lia; try reflexivity. cbn [take]. rewrite !merge_greater by exact H. cbn [take]. f_equal. apply (IH n (S m) k); lia.
Qed.

Lemma truncate_merge a b h : truncateToLimit (mergeStrings (truncateToLimit a h) (truncateToLimit b h)) h = truncateToLimit (mergeStrings a b) h.
Proof.
  assert (Ht : forall l s, 0 < l -> truncateToLimit s (Some l) = take (Z.to_nat l) s).
  { intros l s Hl. cbn. destruct (Z.ltb_spec 0 l), (Z.ltb_spec l (Z.of_nat (length s))); cbn; try lia; [reflexivity|]. rewrite take_ge by lia. reflexivity. }
  destruct h as [l|]; [|reflexivity]. destruct (Z.ltb_spec 0 l) as [Hl|Hl].
  - rewrite !Ht by exact Hl. apply take_merge; lia.
  - assert (Hn : forall s, truncateToLimit s (Some l) = s) by (intros s; cbn; destruct (Z.ltb_spec 0 l); [lia|reflexivity]). rewrite !Hn. reflexivity.
Qed.

Lemma truncate_nil h : truncateToLimit [] h = [].
Proof. destruct h as [l|]; [|reflexivity]. cbn. destruct (_ && _); [apply take_nil|reflexivity]. Qed.

Lemma truncate_idem a h : truncateToLimit (truncateToLimit a h) h = truncateToLimit a h.
Proof. pose proof (truncate_merge a [] h) as H. rewrite truncate_nil, !mergeStrings_nil_r in H. exact H. Qed.

(** ** Merging the answers of several queriers *)

Section results.
Context {M : Type}.
Implicit Types (lq : list (LabelQuerier M)) (f : LabelQuerier M -> answer) (h : LabelHints).

Definition values (a : answer) : list bytes := a.1.1.
Definition warnings (a : answer) : Annotations := a.1.2.
Definition first_error f lq : option string := head (omap (fun q => (f q).2) lq).

Lemma first_error_app f l1 l2 : first_error f (l1 ++ l2) = match first_error f l1 with Some e => Some e | None => first_error f l2 end.
Proof. unfold first_error. rewrite omap_app. destruct (omap _ l1); reflexivity. Qed.

Lemma no_first_error f lq : first_error f lq = None <-> forall q, q ∈ lq -> (f q).2 = None.
Proof.
  induction lq as [|q lq IH]; [split; [intros _ q Hq; apply not_elem_of_nil in Hq as []|reflexivity]|]. change (q :: lq) with ([q] ++ lq). rewrite first_error_app.
  unfold first_error at 1. cbn. destruct (f q).2 as [e|] eqn:E; cbn; [split; [discriminate|]; intros H; rewrite (H q ltac:(left)) in E; discriminate|].
  rewrite IH. split; [intros H q' [->|Hq]%elem_of_cons; auto|]. intros H q' Hq. apply H. right. exact Hq.
Qed.

(** Several queriers are asked in two halves, both shorter and neither empty. *)
Lemma mergeResults_step fuel q1 q2 lq h f : exists l1 l2, q1 :: q2 :: lq = l1 ++ l2 /\ (0 < length l1)%nat /\ (0 < length l2)%nat /\
  mergeResults (S fuel) (q1 :: q2 :: lq) h f = let '(s1, w1, err) := mergeResults fuel l1 h f in
    match err with
    | Some e => ([], w1, Some e)
    | None => let '(s2, w2, err) := mergeResults fuel l2 h f in
        match err with Some e => ([], w1 ∪ w2, Some e) | None => (truncateToLimit (mergeStrings (truncateToLimit s1 h) (truncateToLimit s2 h)) h, w1 ∪ w2, None) end
    end.
Proof.
  set (l := q1 :: q2 :: lq). set (i := (length l / 2)%nat). exists (take i l), (drop i l). split; [symmetry; apply take_drop|].
  assert (Hi : (0 < i < length l)%nat). { subst i. split; [apply Nat.div_str_pos; cbn; lia|apply Nat.div_lt; cbn; lia]. }
  rewrite length_take, length_drop. split; [lia|]. split; [lia|]. reflexivity.
Qed.

Lemma mergeResults_error fuel : forall lq h f, (length lq <= fuel)%nat -> (mergeResults fuel lq h f).2 = first_error f lq.
Proof.
  induction fuel as [|fuel IH]; intros [|q1 [|q2 lq]] h f Hf; cbn [length] in Hf; try lia; try reflexivity.
  - cbn. unfold first_error. cbn. destruct (f q1).2; reflexivity.
  - destruct (mergeResults_step fuel q1 q2 lq h f) as (l1 & l2 & El & H1 & H2 & ->). assert (Hlen : length (q1 :: q2 :: lq) = (length l1 + length l2)%nat) by (rewrite El, length_app; reflexivity). cbn [length] in Hlen.
    rewrite El, first_error_app. pose proof (IH l1 h f ltac:(lia)) as E1. pose proof (IH l2 h f ltac:(lia)) as E2. destruct (mergeResults fuel l1 h f) as [[s1 w1] err1]. cbn in E1. rewrite <- E1. destruct err1; [reflexivity|].
    destruct (mergeResults fuel l2 h f) as [[s2 w2] err2]. cbn in E2. rewrite <- E2. destruct err2; reflexivity.
Qed.

(** [all] are the values of every querier, without duplicates. *)
Definition union_of f lq (all : list bytes) : Prop := str_sorted all /\ forall x, x ∈ all <-> exists q, q ∈ lq /\ x ∈ values (f q).

Lemma union_of_app f l1 l2 a b : union_of f l1 a -> union_of f l2 b -> union_of f (l1 ++ l2) (mergeStrings a b).
Proof.
  intros [Ha Ea] [Hb Eb]. split; [exact (merge_sorted a b Ha Hb)|]. intros x. rewrite elem_of_merge, Ea, Eb. setoid_rewrite elem_of_app. firstorder.
Qed.

Lemma mergeResults_ok fuel : forall lq h f, (length lq <= fuel)%nat -> (forall q, q ∈ lq -> (f q).2 = None /\ str_sorted (values (f q))) ->
  exists vals all, mergeResults fuel lq h f = (vals, ⋃ map (fun q => warnings (f q)) lq, None) /\ union_of f lq all /\ truncateToLimit vals h = truncateToLimit all h /\
    (length lq <> 1%nat -> vals = truncateToLimit all h).
Proof.
  induction fuel as [|fuel IH]; intros [|q1 [|q2 lq]] h f Hf Hq; cbn [length] in Hf; try lia.
  1, 2: exists [], []; split; [reflexivity|]; split; [split; [constructor|intros x; rewrite elem_of_nil; split; [intros []|intros (q & Hx & _); apply not_elem_of_nil in Hx as []]]|]; rewrite truncate_nil; auto.
  - destruct (Hq q1 ltac:(left)) as [He Hs]. exists (values (f q1)), (values (f q1)). split; [cbn; unfold values, warnings; destruct (f q1) as [[v w] e]; cbn in *; subst e; f_equal; f_equal; symmetry; apply (right_id_L ∅ (∪))|].
    split; [split; [exact Hs|]; intros x; split; [intros Hx; exists q1; split; [left|exact Hx]|intros (q & Hx & Hv); apply list_elem_of_singleton in Hx as ->; exact Hv]|]. split; [reflexivity|]. intros Hl. destruct Hl. reflexivity.
  - destruct (mergeResults_step fuel q1 q2 lq h f) as (l1 & l2 & El & H1 & H2 & ->). assert (Hlen : length (q1 :: q2 :: lq) = (length l1 + length l2)%nat) by (rewrite El, length_app; reflexivity). cbn [length] in Hlen.
    rewrite El in Hq |- *. destruct (IH l1 h f ltac:(lia)) as (v1 & a1 & -> & U1 & T1 & _); [intros q Hx; apply Hq, elem_of_app; auto|]. destruct (IH l2 h f ltac:(lia)) as (v2 & a2 & -> & U2 & T2 & _); [intros q Hx; apply Hq, elem_of_app; auto|].
    exists (truncateToLimit (mergeStrings a1 a2) h), (mergeStrings a1 a2). rewrite T1, T2, truncate_merge, map_app, union_list_app_L. split; [reflexivity|]. split; [exact (union_of_app f l1 l2 a1 a2 U1 U2)|]. split; [apply truncate_idem|reflexivity].
Qed.
End results.

(** ** What a merged querier answers *)

Section merged.
Context {M : Type}.
Variables (ask : LabelQuerier M -> answer) (h : LabelHints).

(** Answers are sorted, without duplicates.  They need not keep the limit, which
    queriers may ignore ([blockBaseQuerier.LabelNames] does). *)
Definition good_answers (qs : list (LabelQuerier M)) : Prop :=
  forall q, q ∈ qs -> (ask q).2 = None -> str_sorted (values (ask q)).

(** The limit cuts the union of several queriers; a single one answers itself. *)
Definition cut (qs : list (LabelQuerier M)) (all : list bytes) : list bytes :=
  match qs with [_] => all | _ => truncateToLimit all h end.

Definition merged_answer (ps ss : list (LabelQuerier M)) (a : answer) : Prop :=
  match first_error ask ps with
  | Some e => exists text, a.2 = Some (text ++ e)%string
  | None => exists all, values a = cut (ps ++ ss) all /\ a.2 = None
      /\ str_sorted all /\ (forall x, x ∈ all <-> exists q, q ∈ ps ++ ss /\ (ask q).2 = None /\ x ∈ values (ask q))
      /\ forall w, w ∈ warnings a <-> exists q, q ∈ ps ++ ss /\ (w ∈ warnings (ask q) \/ (q ∈ ss /\ (ask q).2 = Some w))
  end.

Definition all_queriers (ps ss : list (LabelQuerier M)) : list (LabelQuerier M) := ps ++ map newSecondaryQuerierFrom ss.

Hypothesis ask_secondary : forall q, ask (newSecondaryQuerierFrom q) = secondary_answer (ask q).

Lemma secondary_error q : (ask (newSecondaryQuerierFrom q)).2 = None.
Proof. rewrite ask_secondary. destruct (ask q) as [[v w] [e|]]; reflexivity. Qed.

Lemma secondary_value q x : x ∈ values (ask (newSecondaryQuerierFrom q)) <-> (ask q).2 = None /\ x ∈ values (ask q).
Proof.
  rewrite ask_secondary. unfold values. destruct (ask q) as [[v w] [e|]]; cbn; [|tauto]. rewrite elem_of_nil. split; [intros []|intros [H _]; discriminate].
Qed.

Lemma secondary_warning q w : w ∈ warnings (ask (newSecondaryQuerierFrom q)) <-> w ∈ warnings (ask q) \/ (ask q).2 = Some w.
Proof.
  rewrite ask_secondary. unfold warnings. destruct (ask q) as [[v w'] [e|]]; cbn; [rewrite elem_of_union, elem_of_singleton; intuition congruence|].
  split; [auto|]. intros [H|H]; [exact H|discriminate].
Qed.

Lemma secondaries_error ps ss : first_error ask (all_queriers ps ss) = first_error ask ps.
Proof.
  unfold all_queriers. rewrite first_error_app. destruct (first_error ask ps); [reflexivity|]. apply no_first_error. intros q Hq.
  apply list_elem_of_In, in_map_iff in Hq as (q' & <- & _). apply secondary_error.
Qed.

Lemma in_secondaries (q : LabelQuerier M) ss : q ∈ map newSecondaryQuerierFrom ss <-> exists q', q = newSecondaryQuerierFrom q' /\ q' ∈ ss.
Proof. rewrite list_elem_of_In, in_map_iff. setoid_rewrite list_elem_of_In. split; intros (q' & H1 & H2); exists q'; auto. Qed.

(** The union of the answers is what the primary queriers and the secondary ones without an error have. *)
Lemma merged_answer_of ps ss a all : first_error ask ps = None -> union_of ask (all_queriers ps ss) all ->
  a = (cut (ps ++ ss) all, ⋃ map (fun q => warnings (ask q)) (all_queriers ps ss), None) -> merged_answer ps ss a.
Proof.
  intros He [Hs Hall] ->. unfold merged_answer. rewrite He. exists all. split; [reflexivity|]. split; [reflexivity|]. split; [exact Hs|]. pose proof (proj1 (no_first_error ask ps) He) as Hps. split.
  - intros x. rewrite Hall. unfold all_queriers. setoid_rewrite elem_of_app. setoid_rewrite in_secondaries. split.
    + intros (q & [Hq|(q' & -> & Hq)] & Hx); [exists q; auto|]. apply secondary_value in Hx. exists q'. tauto.
    + intros (q & [Hq|Hq] & Hn & Hx); [exists q; auto|]. exists (newSecondaryQuerierFrom q). split; [right; eauto|]. apply secondary_value. auto.
  - intros w. unfold warnings at 1. cbn [fst snd]. rewrite elem_of_union_list. unfold all_queriers. setoid_rewrite elem_of_app. split.
    + intros (X & HX & Hw). apply list_elem_of_In, in_map_iff in HX as (q & <- & Hq). apply list_elem_of_In in Hq. apply elem_of_app in Hq as [Hq|(q' & -> & Hq)%in_secondaries]; [eauto|].
      apply secondary_warning in Hw. exists q'. intuition.
    + intros (q & Hq & Hw). destruct Hw as [Hw|[Hq' Hw]].
      * destruct Hq as [Hq|Hq]; [exists (warnings (ask q))|exists (warnings (ask (newSecondaryQuerierFrom q)))]; (split; [|try apply secondary_warning; auto]);
          apply list_elem_of_In, in_map_iff; eexists; (split; [reflexivity|]); apply list_elem_of_In, elem_of_app; [left; exact Hq|right; apply in_secondaries; eauto].
      * exists (warnings (ask (newSecondaryQuerierFrom q))). split; [|apply secondary_warning; auto]. apply list_elem_of_In, in_map_iff. eexists. split; [reflexivity|].
        apply list_elem_of_In, elem_of_app. right. apply in_secondaries. eauto.
Qed.

Lemma good_all ps ss : good_answers (ps ++ ss) -> first_error ask ps = None ->
  forall q, q ∈ all_queriers ps ss -> (ask q).2 = None /\ str_sorted (values (ask q)).
Proof.
  intros Hg He q Hq. pose proof (proj1 (no_first_error ask ps) He) as Hps. unfold all_queriers in Hq. apply elem_of_app in Hq as [Hq|(q' & -> & Hq)%in_secondaries].
  - split; [auto|]. apply Hg; [apply elem_of_app; auto|auto].
  - split; [apply secondary_error|]. rewrite ask_secondary. specialize (Hg q' ltac:(apply elem_of_app; auto)). unfold values in *. destruct (ask q') as [[v w] [e|]]; cbn in *; [|exact (Hg eq_refl)].
    constructor.
Qed.

Lemma cut_one ps ss q all : all_queriers ps ss = [q] -> cut (ps ++ ss) all = all.
Proof. unfold all_queriers. destruct ps as [|p [|]], ss as [|s [|]]; cbn; intros E; try discriminate; reflexivity. Qed.

Lemma cut_many ps ss all : length (all_queriers ps ss) <> 1%nat -> cut (ps ++ ss) all = truncateToLimit all h.
Proof. unfold all_queriers. rewrite length_app, length_map, <- length_app. destruct (ps ++ ss) as [|q [|]]; cbn; intros H; [reflexivity|destruct H; reflexivity|reflexivity]. Qed.

Hypothesis ask_merge : forall qs, exists text, ask (mergeGenericQuerier qs) = wrap_error text (mergeResults (length qs) qs h ask).

Lemma one_answer ps ss q : all_queriers ps ss = [q] -> good_answers (ps ++ ss) -> first_error ask ps = None -> merged_answer ps ss (ask q).
Proof.
  intros Eq Hg He. destruct (good_all ps ss Hg He q ltac:(rewrite Eq; left)) as (Hn & Hs). apply (merged_answer_of ps ss _ (values (ask q)) He); rewrite Eq.
  - split; [exact Hs|]. intros x. split; [intros Hx; exists q; split; [left|exact Hx]|intros (q' & ->%list_elem_of_singleton & Hx); exact Hx].
  - rewrite (cut_one ps ss q _ Eq). unfold values, warnings. cbn. rewrite (right_id_L ∅ (∪)). destruct (ask q) as [[v w] e]. cbn in *. subst e. reflexivity.
Qed.

Lemma merged_results ps ss : length (all_queriers ps ss) <> 1%nat -> good_answers (ps ++ ss) -> merged_answer ps ss (ask (mergeGenericQuerier (all_queriers ps ss))).
Proof.
  intros Hlen Hg. destruct (ask_merge (all_queriers ps ss)) as [text ->]. destruct (first_error ask ps) as [e|] eqn:He.
  - pose proof (mergeResults_error _ (all_queriers ps ss) h ask (le_n _)) as E. rewrite secondaries_error, He in E. unfold merged_answer. rewrite He.
    destruct (mergeResults _ _ _ _) as [[v w] err]. cbn in E. subst err. exists (text ++ ": ")%string. cbn. f_equal. clear. induction text as [|c text IH]; [reflexivity|exact (f_equal (String.String c) IH)].
  - destruct (mergeResults_ok _ (all_queriers ps ss) h ask (le_n _)) as (vals & all & E & U & _ & Hv). { intros q Hq. exact (good_all ps ss Hg He q Hq). }
    apply (merged_answer_of ps ss _ all He U). rewrite E, (cut_many ps ss all Hlen). cbn [wrap_error]. rewrite (Hv Hlen). reflexivity.
Qed.

Lemma new_merge_querier_ok primaries secondaries : let ps := filterQueriers primaries in let ss := filterQueriers secondaries in
  good_answers (ps ++ ss) -> merged_answer ps ss (ask (NewMergeQuerier primaries secondaries)).
Proof.
  cbv zeta. unfold NewMergeQuerier. generalize (filterQueriers primaries) (filterQueriers secondaries). intros ps ss Hg.
  (* Without a querier, the merged one answers as [noopQuerier]. *)
  assert (Hone : forall q, all_queriers ps ss = [q] -> first_error ask ps = None -> merged_answer ps ss (ask q)) by (intros q Eq He; exact (one_answer ps ss q Eq Hg He)).
  pose proof (fun H => merged_results ps ss H Hg) as Hmany. unfold all_queriers in Hone, Hmany. destruct ps as [|p1 [|p2 ps]], ss as [|s1 [|s2 ss]]; cbn [app map] in *; try (apply Hmany; cbn [length]; rewrite ?length_app, ?length_map; cbn [length]; lia).
  - apply Hone; reflexivity.
  - destruct (first_error ask [p1]) as [e|] eqn:He; [|apply Hone; reflexivity]. unfold merged_answer. rewrite He. exists ""%string.
    unfold first_error in He. cbn in He. destruct (ask p1).2; cbn in He; [exact He|discriminate].
Qed.
End merged.

(** C18: the label values and label names that a merged querier answers.  If
    the answers of its queriers are sorted without duplicates, the
    merged answer is the sorted union, without duplicates, of the
    values of all primary queriers and of those secondary ones that did not
    fail, cut to the limit unless there is just one querier, whose answer is left as it
    is, and its warnings are theirs and the errors of the secondary queriers that failed;
    when a primary querier fails, the query fails with the error of the first such. *)
Theorem merged_label_queries {M : Type} (primaries secondaries : list (given M)) (name : bytes) (h : LabelHints) (ms : list M) :
  let ps := filterQueriers primaries in let ss := filterQueriers secondaries in
  let values_of q := LabelValues q name h ms in let names_of q := LabelNames q h ms in
  good_answers values_of (ps ++ ss) -> good_answers names_of (ps ++ ss) ->
  merged_answer values_of h ps ss (LabelValues (NewMergeQuerier primaries secondaries) name h ms) /\
  merged_answer names_of h ps ss (LabelNames (NewMergeQuerier primaries secondaries) h ms).
Proof.
  cbv zeta. intros Hv Hn. split.
  - apply (new_merge_querier_ok (fun q => LabelValues q name h ms)); [reflexivity|intros qs; eexists; reflexivity|exact Hv].
  - apply (new_merge_querier_ok (fun q => LabelNames q h ms)); [reflexivity|intros qs; eexists; reflexivity|exact Hn].
Qed.

(** A decision procedure for sorted lists. *)
Fixpoint pairs_sorted (l : list bytes) : bool := match l with x :: ((y :: _) as l') => str_ltb x y && pairs_sorted l' | _ => true end.
Lemma sorted_by_pairs l : pairs_sorted l = true -> str_sorted l.
Proof.
  intros H. apply Sorted_StronglySorted; [exact str_lt_trans|]. induction l as [|x [|y l] IH]; [constructor|repeat constructor|].
  apply andb_prop in H as [H1 H2]. constructor; [exact (IH H2)|]. constructor. apply str_ltb_spec. exact H1.
Qed.

Definition example_querier (a : answer) : LabelQuerier unit := mkLabelQuerier (fun _ _ _ => a) (fun _ _ => a).
Definition example_primaries : list (given unit) :=
  [Given (example_querier ([[97]; [99]], ∅, None)); GivenNoop; Given (example_querier ([[98]; [99]], {[ "slow" ]}, None))].
Definition example_secondaries : list (given unit) :=
  [Given (example_querier ([[97]], ∅, Some "unreachable"%string)); GivenNil; Given (example_querier ([[100]; [101]], ∅, None))].

Lemma merged_label_queries_witness :
  let f q := LabelValues q [106] (Some 4) [tt] in let g q := LabelNames q (Some 4) [tt] in
  let ps := filterQueriers example_primaries in let ss := filterQueriers example_secondaries in
  merged_answer f (Some 4) ps ss (LabelValues (NewMergeQuerier example_primaries example_secondaries) [106] (Some 4) [tt]) /\
  merged_answer g (Some 4) ps ss (LabelNames (NewMergeQuerier example_primaries example_secondaries) (Some 4) [tt]).
Proof.
  apply (merged_label_queries example_primaries example_secondaries [106] (Some 4) [tt]);
    (intros q Hq; cbn in Hq; rewrite !elem_of_cons, elem_of_nil in Hq; destruct Hq as [->|[->|[->|[->|[]]]]];
     try discriminate; intros _; apply sorted_by_pairs; reflexivity).
Defined.

(** A single querier that ignores the limit is not cut. *)
Example single_values_example : LabelNames (NewMergeQuerier [Given (example_querier ([[97]; [99]], ∅, None)); GivenNoop] []) (Some 1) [tt] = ([[97]; [99]], ∅, None).
Proof. vm_compute. reflexivity. Qed.

(** The answer itself: the limit cuts the last value, and the failure is a warning. *)
Example merged_values_example : LabelValues (NewMergeQuerier example_primaries example_secondaries) [106] (Some 4) [tt]
  = ([[97]; [98]; [99]; [100]], {[ "slow"%string; "unreachable"%string ]}, None).
Proof. vm_compute. reflexivity. Qed.
Example failed_values_example : LabelValues (NewMergeQuerier (example_primaries ++ example_secondaries) []) [106] None [tt]
  = ([], ∅, Some "LabelValues() from merge generic querier for label j: unreachable"%string).
Proof. vm_compute. reflexivity. Qed.
