(* ===== verification/DeletedIter.v ===== *)
(** * Iterators of chunks and deletions ([DeletedIterator] of [tsdb/querier.go])

    An iterator over one chunk has a stronger contract than iterators in general,
    [ChunkIterOK]: it says what happens when an exhausted iterator is asked to
    seek, since it may then go back to its last sample.  [DeletedIterator] leaves out
    the samples in the given intervals and keeps the general contract. *)
From stdpp Require Import base list numbers strings.
From Stdlib Require Import ZArith Lia Sorted.
From S2P Require Import Prelude Tombstones Postings SampleIter.

(** ** Iterators of chunks *)

(** The last of the timestamps, if any was read or is to come. *)
Definition last_of (cur : option Z) (l : list Z) : option Z := match last l with Some y => Some y | None => cur end.

(** [CRep s cur l]: the iterator stands at [cur], or was not started, and has [l] to
    come.  [CEnd s last]: it is exhausted, after the timestamp [last]. *)
Class ChunkIterOK (P : sample -> Prop) (It : Type) {ops : IterOps It} := {
  CRep : It -> option Z -> list Z -> Prop;
  CEnd : It -> option Z -> Prop;
  crep_incr s cur l : CRep s cur l -> incr (match cur with Some x => x :: l | None => l end);
  crep_err s cur l : CRep s cur l -> it_Err s = None;
  cend_err s T : CEnd s T -> it_Err s = None;
  crep_at s x l : CRep s (Some x) l -> it_AtT s = Ret x /\ exists v, it_At s = Ret (x, v) /\ P (x, v);
  cnext_cons s cur x l : CRep s cur (x :: l) -> exists s', found (it_Next s) s' x /\ CRep s' (Some x) l;
  cnext_nil s cur : CRep s cur [] -> exists s', returns (it_Next s) (ValNone, s') /\ CEnd s' cur;
  cend_next s T : CEnd s T -> exists s', returns (it_Next s) (ValNone, s') /\ CEnd s' T;
  cseek_stay s x l t : CRep s (Some x) l -> t <= x -> exists s', found (it_Seek t s) s' x /\ CRep s' (Some x) l;
  cseek_fwd s cur l t : CRep s cur l -> (forall x, cur = Some x -> x < t) ->
    match drop_lt t l with
    | y :: r => exists s', found (it_Seek t s) s' y /\ CRep s' (Some y) r
    | [] => exists s', returns (it_Seek t s) (ValNone, s') /\ CEnd s' (last_of cur l)
    end;
  cend_seek s T t : CEnd s T -> exists s',
    (returns (it_Seek t s) (ValNone, s') /\ CEnd s' T) \/ (exists x, T = Some x /\ t <= x /\ found (it_Seek t s) s' x /\ CRep s' (Some x) []) }.

(** ** [DeletedIterator] *)

Record DeletedIterator (It : Type) := mkDeleted { d_Iter : It; d_Intervals : Intervals }.
Arguments mkDeleted {It}. Arguments d_Iter {It}. Arguments d_Intervals {It}.

(** Is [ts] in an interval?  Those before it are dropped. *)
Fixpoint next_intervals (ts : Z) (ivs : Intervals) : bool * Intervals :=
  match ivs with
  | [] => (false, [])
  | tr :: rest => if InBounds tr ts then (true, ivs) else if ts <=? Maxt tr then (false, ivs) else next_intervals ts rest
  end.
Fixpoint seek_intervals (ts : Z) (ivs : Intervals) : bool * Intervals :=
  match ivs with
  | [] => (false, [])
  | itv :: rest => if ts <? Mint itv then (false, ivs) else if Maxt itv <? ts then seek_intervals ts rest else (true, ivs)
  end.

Section deleted.
Context {It : Type} {ops : IterOps It}.

Definition d_body (s : DeletedIterator It) : run (DeletedIterator It + (ValueType * DeletedIterator It)) :=
  do (ty, it) <- it_Next (d_Iter s) ;;
  if bool_decide (ty = ValNone) then rret (inr (ValNone, mkDeleted it (d_Intervals s)))
  else do ts <- rlift (it_AtT it) ;;
       let '(deleted, ivs) := next_intervals ts (d_Intervals s) in
       if deleted : bool then rret (inl (mkDeleted it ivs)) else rret (inr (ty, mkDeleted it ivs)).
Definition d_Next (s : DeletedIterator It) : run (ValueType * DeletedIterator It) := rloop d_body s.

Definition d_Seek (t : Z) (s : DeletedIterator It) : run (ValueType * DeletedIterator It) :=
  match it_Err (d_Iter s) with
  | Some _ => rret (ValNone, s)
  | None =>
      do (ty, it) <- it_Seek t (d_Iter s) ;;
      if bool_decide (ty = ValNone) then rret (ValNone, mkDeleted it (d_Intervals s))
      else do ts <- rlift (it_AtT it) ;;
           let '(deleted, ivs) := seek_intervals ts (d_Intervals s) in
           if deleted : bool then d_Next (mkDeleted it ivs) else rret (ty, mkDeleted it ivs)
  end.

#[export] Instance deleted_ops : IterOps (DeletedIterator It) := {|
  it_Next := d_Next; it_Seek := d_Seek; it_AtT s := it_AtT (d_Iter s); it_At s := it_At (d_Iter s); it_Err s := it_Err (d_Iter s) |}.
End deleted.

(** ** What is left *)

Definition covered (ivs : Intervals) (t : Z) : bool := existsb (fun iv => InBounds iv t) ivs.
Definition live (ivs : Intervals) (l : list Z) : list Z := List.filter (fun t => negb (covered ivs t)) l.

Lemma covered_covers ivs t : covered ivs t = true <-> covers ivs t.
Proof.
  unfold covered, covers, InBounds. rewrite existsb_exists, List.Exists_exists.
  split; intros (iv & Hin & H); exists iv; (split; [exact Hin|]); [apply andb_true_iff in H as [H1 H2]; split; apply Z.leb_le; assumption|].
  destruct H. apply andb_true_iff. split; apply Z.leb_le; assumption.
Qed.

Lemma wf_tail iv ivs : wf_intervals (iv :: ivs) -> wf_intervals ivs /\ Mint iv <= Maxt iv /\ forall t, covered ivs t = true -> Maxt iv < t.
Proof.
  intros [Hs Hw]. apply Forall_cons in Hw as [Hiv Hw]. apply StronglySorted_inv in Hs as [Hs Hlt]. split; [split; assumption|]. split; [apply Hiv|].
  intros t Ht. apply covered_covers in Ht. apply List.Exists_exists in Ht as (iv' & Hin & H). rewrite List.Forall_forall in Hlt. specialize (Hlt iv' Hin). unfold iv_before in Hlt. lia.
Qed.

Lemma next_intervals_spec ts ivs : wf_intervals ivs ->
  exists ivs', next_intervals ts ivs = (covered ivs ts, ivs') /\ wf_intervals ivs' /\ forall u, ts <= u -> covered ivs' u = covered ivs u.
Proof.
  induction ivs as [|iv ivs IH]; intros Hw; [exists []; auto|]. destruct (wf_tail _ _ Hw) as (Hw' & Hle & Hlt). cbn [next_intervals]. unfold covered at 1. cbn [existsb]. fold (covered ivs ts).
  destruct (InBounds iv ts) eqn:Eb; [exists (iv :: ivs); auto|]. destruct (Z.leb_spec ts (Maxt iv)) as [Hts|Hts].
  - exists (iv :: ivs). split; [|auto]. cbn. destruct (covered ivs ts) eqn:Ec; [specialize (Hlt ts Ec); lia|reflexivity].
  - destruct (IH Hw') as (ivs' & -> & Hw2 & Hsame). exists ivs'. split; [reflexivity|]. split; [exact Hw2|]. intros u Hu. rewrite (Hsame u Hu). cbn.
    assert (Eu : InBounds iv u = false) by (unfold InBounds; apply andb_false_iff; right; apply Z.leb_gt; lia). rewrite Eu. reflexivity.
Qed.

Lemma seek_intervals_eq ts ivs : wf_intervals ivs -> seek_intervals ts ivs = next_intervals ts ivs.
Proof.
  induction ivs as [|iv ivs IH]; intros Hw; [reflexivity|]. destruct (wf_tail _ _ Hw) as (Hw' & Hle & _). cbn. rewrite (IH Hw'). unfold InBounds.
  destruct (Z.ltb_spec ts (Mint iv)), (Z.leb_spec (Mint iv) ts), (Z.leb_spec ts (Maxt iv)), (Z.ltb_spec (Maxt iv) ts); try lia; reflexivity.
Qed.

Lemma live_ext ivs ivs' l : (forall u, u ∈ l -> covered ivs' u = covered ivs u) -> live ivs' l = live ivs l.
Proof. intros H. apply filter_ext_in. intros u Hu. apply list_elem_of_In in Hu. rewrite (H u Hu). reflexivity. Qed.

Lemma live_elem ivs l t : t ∈ live ivs l <-> t ∈ l /\ covered ivs t = false.
Proof. unfold live. rewrite !list_elem_of_In, filter_In, negb_true_iff. tauto. Qed.

Lemma live_incr ivs l : incr l -> incr (live ivs l).
Proof. apply incr_filter. Qed.

Lemma live_drop ivs t l : incr l -> drop_lt t (live ivs l) = live ivs (drop_lt t l).
Proof.
  intros Hl. apply incr_ext; [apply drop_lt_incr, live_incr, Hl|apply live_incr, drop_lt_incr, Hl|].
  intros z. rewrite live_elem, !drop_lt_elem, live_elem by (try apply live_incr; exact Hl). tauto.
Qed.

(** ** Both keep the general contract *)

Section contracts.
Context {P : sample -> Prop} {It : Type} {ops : IterOps It} {COK : ChunkIterOK P It}.

(** The timestamp [T] was passed by [m], unless it is deleted. *)
Definition passed (ivs : Intervals) (m : Z) (T : option Z) : Prop := forall x, T = Some x -> x <= m \/ covered ivs x = true.

Lemma crep_after s x l u : CRep s (Some x) l -> u ∈ l -> x < u.
Proof. intros H. apply crep_incr in H. exact (incr_bound _ _ H u). Qed.

Lemma crep_sorted s cur l : CRep s cur l -> incr l.
Proof. intros H. apply crep_incr in H. destruct cur; [exact (proj1 (incr_cons_inv _ _ H))|exact H]. Qed.

(** *** The loop of [DeletedIterator.Next] *)

(** What the loop of [Next] leads to, from an iterator that has [l0] to come. *)
Definition loop_result (m : Z) (r : run (ValueType * DeletedIterator It)) (l : list Z) : Prop :=
  match l with
  | x :: l => exists it ivs l1, found r (mkDeleted it ivs) x /\ CRep it (Some x) l1 /\ wf_intervals ivs /\ covered ivs x = false /\ l = live ivs l1
  | [] => exists it ivs T, returns r (ValNone, mkDeleted it ivs) /\ CEnd it T /\ wf_intervals ivs /\ passed ivs m T
  end.

(** What follows a sample at [x] that the inner iterator found. *)
Lemma check_step it x l ivs : CRep it (Some x) l -> wf_intervals ivs ->
  exists ivs', next_intervals x ivs = (covered ivs x, ivs') /\ wf_intervals ivs' /\ covered ivs' x = covered ivs x /\ live ivs' l = live ivs l.
Proof.
  intros Hr Hw. destruct (next_intervals_spec x ivs Hw) as (ivs' & E & Hw' & Hsame). exists ivs'. split; [exact E|]. split; [exact Hw'|].
  split; [apply Hsame; lia|]. apply live_ext. intros u Hu. apply Hsame. pose proof (crep_after it x l u Hr Hu). lia.
Qed.

Lemma d_loop_end it T ivs m it' : returns (it_Next it) (ValNone, it') -> CEnd it' T -> wf_intervals ivs -> passed ivs m T -> loop_result m (d_Next (mkDeleted it ivs)) [].
Proof.
  intros Hn He Hw Hp. exists it', ivs, T. split; [|auto]. apply returns_loop_end. unfold d_body. cbn [d_Iter d_Intervals]. r_step Hn. rewrite bool_decide_eq_true_2 by reflexivity. apply returns_ret.
Qed.

Lemma d_loop l0 it cur m ivs : CRep it cur l0 -> wf_intervals ivs -> passed ivs m cur -> loop_result m (d_Next (mkDeleted it ivs)) (live ivs l0).
Proof.
  revert it cur ivs. induction l0 as [|x l0 IH]; intros it cur ivs Hr Hw Hp.
  - destruct (cnext_nil it cur Hr) as (it' & Hn & He). exact (d_loop_end it cur ivs m it' Hn He Hw Hp).
  - destruct (cnext_cons it cur x l0 Hr) as (it' & (v & Hn & Hat) & Hr'). destruct (check_step it' x l0 ivs Hr' Hw) as (ivs' & Hck & Hw' & Hx & Hlive).
    assert (Hbody : returns (d_body (mkDeleted it ivs)) (if covered ivs x then inl (mkDeleted it' ivs') else inr (type_of v, mkDeleted it' ivs'))).
    { unfold d_body. cbn [d_Iter d_Intervals]. r_step Hn. rewrite (bool_decide_eq_false_2 _ (type_of_some v)). eapply returns_bind; [apply returns_lift; exact (proj1 (crep_at _ _ _ Hr'))|].
      cbv beta. rewrite Hck. destruct (covered ivs x); apply returns_ret. }
    unfold live. cbn [List.filter]. fold (live ivs l0). destruct (covered ivs x) eqn:Ec; cbn [negb].
    + rewrite <- Hlive. specialize (IH it' (Some x) ivs' Hr' Hw' ltac:(intros y [= <-]; right; exact Hx)). unfold loop_result in *. destruct (live ivs' l0) as [|y r].
      * destruct IH as (it2 & ivs2 & T & Hret & H). exists it2, ivs2, T. split; [eapply returns_loop_next; eassumption|exact H].
      * destruct IH as (it2 & ivs2 & l1 & (w & Hret & Hat2) & H). exists it2, ivs2, l1. split; [exists w; split; [eapply returns_loop_next; eassumption|exact Hat2]|exact H].
    + exists it', ivs', l0. split; [exists v; split; [apply returns_loop_end; exact Hbody|exact Hat]|]. auto.
Qed.

(** *** [DeletedIterator] *)

Definition d_rep (s : DeletedIterator It) (cur : option Z) (m : Z) (l : list Z) : Prop :=
  incr (m :: l) /\ wf_intervals (d_Intervals s)
  /\ ((exists l0, CRep (d_Iter s) cur l0 /\ (forall x, cur = Some x -> m = x /\ covered (d_Intervals s) x = false) /\ l = live (d_Intervals s) l0)
      \/ (cur = None /\ l = [] /\ exists T, CEnd (d_Iter s) T /\ passed (d_Intervals s) m T)).

Lemma d_rep_loop r m l : incr (m :: l) -> loop_result m r l ->
  match l with x :: l => exists s', found r s' x /\ d_rep s' (Some x) x l | [] => exists s', returns r (ValNone, s') /\ d_rep s' None m [] end.
Proof.
  intros Hl. destruct l as [|x l].
  - intros (it & ivs & T & Hret & He & Hw & Hp). exists (mkDeleted it ivs). split; [exact Hret|]. split; [exact Hl|]. split; [exact Hw|]. right. eauto.
  - intros (it & ivs & l1 & Hf & Hr & Hw & Hx & E). exists (mkDeleted it ivs). split; [exact Hf|]. split; [exact (proj1 (incr_cons_inv _ _ Hl))|]. split; [exact Hw|]. left.
    exists l1. split; [exact Hr|]. split; [intros y [= <-]; auto|exact E].
Qed.

Lemma d_next s cur m l : d_rep s cur m l ->
  match l with x :: l => exists s', found (d_Next s) s' x /\ d_rep s' (Some x) x l | [] => exists s', returns (d_Next s) (ValNone, s') /\ d_rep s' None m [] end.
Proof.
  destruct s as [it ivs]. intros (Hl & Hw & H). apply (d_rep_loop _ m l Hl). cbn [d_Iter d_Intervals] in *. destruct H as [(l0 & Hr & Hcur & ->)|(-> & -> & T & He & Hp)].
  - apply (d_loop l0 it cur m ivs Hr Hw). intros x E. left. destruct (Hcur x E). lia.
  - destruct (cend_next it T He) as (it' & Hn & He'). exact (d_loop_end it T ivs m it' Hn He' Hw Hp).
Qed.

(** The call of [Seek] when the inner iterator has found a sample at [y]. *)
Lemma d_seek_found it t it' y v r ivs : it_Err it = None -> returns (it_Seek t it) (type_of v, it') -> CRep it' (Some y) r -> wf_intervals ivs ->
  exists ivs', wf_intervals ivs' /\ covered ivs' y = covered ivs y /\ live ivs' r = live ivs r
  /\ forall o, returns (if covered ivs y then d_Next (mkDeleted it' ivs') else rret (type_of v, mkDeleted it' ivs')) o -> returns (d_Seek t (mkDeleted it ivs)) o.
Proof.
  intros Herr Hs Hr Hw. destruct (check_step it' y r ivs Hr Hw) as (ivs' & Hck & Hw' & Hx & Hlive). exists ivs'. repeat (split; [assumption|]). intros o Ho.
  unfold d_Seek. cbn [d_Iter d_Intervals]. rewrite Herr. r_step Hs. rewrite (bool_decide_eq_false_2 _ (type_of_some v)). eapply returns_bind; [apply returns_lift; exact (proj1 (crep_at _ _ _ Hr))|].
  cbv beta. rewrite (seek_intervals_eq y ivs Hw), Hck. exact Ho.
Qed.

Lemma d_seek_none it t it' ivs : it_Err it = None -> returns (it_Seek t it) (ValNone, it') -> returns (d_Seek t (mkDeleted it ivs)) (ValNone, mkDeleted it' ivs).
Proof. intros Herr Hs. unfold d_Seek. cbn [d_Iter d_Intervals]. rewrite Herr. r_step Hs. rewrite bool_decide_eq_true_2 by reflexivity. apply returns_ret. Qed.

Lemma d_seek_loop it t it' y v r ivs m : it_Err it = None -> returns (it_Seek t it) (type_of v, it') -> it_At it' = Ret (y, v) -> CRep it' (Some y) r -> wf_intervals ivs ->
  loop_result m (d_Seek t (mkDeleted it ivs)) (live ivs (y :: r)).
Proof.
  intros Herr Hs Hat Hr Hw. destruct (d_seek_found it t it' y v r ivs Herr Hs Hr Hw) as (ivs' & Hw' & Hy & Hlive & Hseek). unfold live. cbn [List.filter]. fold (live ivs r).
  destruct (covered ivs y) eqn:Ec; cbn [negb].
  - rewrite <- Hlive. pose proof (d_loop r it' (Some y) m ivs' Hr Hw' ltac:(intros x [= <-]; right; exact Hy)) as H. unfold loop_result in *. destruct (live ivs' r) as [|z q].
    + destruct H as (it2 & ivs2 & T & Hret & H). exists it2, ivs2, T. auto.
    + destruct H as (it2 & ivs2 & l1 & (w & Hret & Hat2) & H). exists it2, ivs2, l1. split; [exists w; auto|exact H].
  - exists it', ivs', r. split; [exists v; split; [apply Hseek, returns_ret|exact Hat]|]. auto.
Qed.

Lemma last_of_before cur l t x : incr l -> drop_lt t l = [] -> (forall y, cur = Some y -> y < t) -> last_of cur l = Some x -> x < t.
Proof.
  intros Hl Hd Hc. unfold last_of. destruct (last l) as [y|] eqn:E; [|apply Hc]. intros [= <-]. apply last_Some in E as (l' & ->).
  destruct (Z.lt_ge_cases y t) as [|Hge]; [assumption|]. assert (Hin : y ∈ drop_lt t (l' ++ [y])) by (apply drop_lt_elem; [exact Hl|]; rewrite elem_of_app, list_elem_of_singleton; auto).
  rewrite Hd in Hin. apply not_elem_of_nil in Hin as [].
Qed.

Lemma d_done s m m' : d_rep s None m [] -> m <= m' -> d_rep s None m' [].
Proof.
  intros (_ & Hw & H) Hm. split; [repeat constructor|]. split; [exact Hw|]. destruct H as [(l0 & Hr & _ & E)|(_ & _ & T & He & Hp)]; [left; exists l0; split; [exact Hr|split; [discriminate|exact E]]|].
  right. split; [reflexivity|]. split; [reflexivity|]. exists T. split; [exact He|]. intros x E. destruct (Hp x E); [left; lia|auto].
Qed.

Lemma d_seek s cur m l t : d_rep s cur m l -> m < t ->
  match drop_lt t l with y :: r => exists s', found (d_Seek t s) s' y /\ d_rep s' (Some y) y r | [] => exists s', returns (d_Seek t s) (ValNone, s') /\ d_rep s' None t [] end.
Proof.
  destruct s as [it ivs]. intros (Hl & Hw & H) Ht. cbn [d_Iter d_Intervals] in *. pose proof (proj1 (incr_cons_inv _ _ Hl)) as Hl'.
  assert (Hres : loop_result (t - 1) (d_Seek t (mkDeleted it ivs)) (drop_lt t l)).
  { destruct H as [(l0 & Hr & Hcur & ->)|(-> & -> & T & He & Hp)].
    - assert (Hct : forall x, cur = Some x -> x < t) by (intros x E; destruct (Hcur x E); lia). rewrite live_drop by exact (crep_sorted _ _ _ Hr).
      pose proof (cseek_fwd it cur l0 t Hr Hct) as Hs. destruct (drop_lt t l0) as [|y r] eqn:Ed.
      + destruct Hs as (it' & Hs & He). exists it', ivs, (last_of cur l0). split; [exact (d_seek_none it t it' ivs (crep_err _ _ _ Hr) Hs)|]. split; [exact He|]. split; [exact Hw|].
        intros x E. pose proof (last_of_before cur l0 t x (crep_sorted _ _ _ Hr) Ed Hct E). lia.
      + destruct Hs as (it' & (v & Hs & Hat) & Hr'). exact (d_seek_loop it t it' y v r ivs _ (crep_err _ _ _ Hr) Hs Hat Hr' Hw).
    - destruct (cend_seek it T t He) as (it' & [[Hs He']|(x & -> & Hx & (v & Hs & Hat) & Hr)]).
      + exists it', ivs, T. split; [exact (d_seek_none it t it' ivs (cend_err _ _ He) Hs)|]. split; [exact He'|]. split; [exact Hw|]. intros x E. destruct (Hp x E); [lia|auto].
      + pose proof (d_seek_loop it t it' x v [] ivs (t - 1) (cend_err _ _ He) Hs Hat Hr Hw) as H. destruct (Hp x eq_refl) as [|Hc]; [lia|].
        unfold live in H. cbn [List.filter] in H. rewrite Hc in H. exact H. }
  assert (Hbound : incr (t - 1 :: drop_lt t l)) by (apply incr_cons; [exact (drop_lt_incr t l Hl')|]; intros u Hu; apply drop_lt_elem in Hu; [lia|exact Hl']).
  pose proof (d_rep_loop _ _ _ Hbound Hres) as H'. destruct (drop_lt t l); [|exact H']. destruct H' as (s' & Hret & H'). exists s'. split; [exact Hret|]. exact (d_done s' _ t H' ltac:(lia)).
Qed.

Lemma d_seek_stay s x m l t : d_rep s (Some x) m l -> t <= x -> exists s', found (d_Seek t s) s' x /\ d_rep s' (Some x) m l.
Proof.
  destruct s as [it ivs]. intros (Hl & Hw & [(l0 & Hr & Hcur & ->)|(? & _)]) Ht; [|discriminate]. cbn [d_Iter d_Intervals] in *. destruct (Hcur x eq_refl) as [-> Hx].
  destruct (cseek_stay it x l0 t Hr Ht) as (it' & (v & Hs & Hat) & Hr'). destruct (d_seek_found it t it' x v l0 ivs (crep_err _ _ _ Hr) Hs Hr' Hw) as (ivs' & Hw' & Hx' & Hlive & Hseek).
  rewrite Hx in Hseek, Hx'. exists (mkDeleted it' ivs'). split; [exists v; split; [apply Hseek, returns_ret|exact Hat]|]. split; [exact Hl|]. split; [exact Hw'|]. left.
  exists l0. split; [exact Hr'|]. split; [intros y [= <-]; auto|symmetry; exact Hlive].
Qed.

Lemma d_wf s cur m l : d_rep s cur m l -> incr (m :: l) /\ (forall x, cur = Some x -> m = x).
Proof. intros (Hl & _ & [(l0 & _ & H & _)|(-> & _)]); (split; [exact Hl|]); [|discriminate]. intros x E. exact (proj1 (H x E)). Qed.

Lemma d_err s cur m l : d_rep s cur m l -> it_Err (d_Iter s) = None.
Proof. intros (_ & _ & [(l0 & Hr & _)|(_ & _ & T & He & _)]); [exact (crep_err _ _ _ Hr)|exact (cend_err _ _ He)]. Qed.

Lemma d_at s x m l : d_rep s (Some x) m l -> it_AtT (d_Iter s) = Ret x /\ exists v, it_At (d_Iter s) = Ret (x, v) /\ P (x, v).
Proof. intros (_ & _ & [(l0 & Hr & _)|(? & _)]); [exact (crep_at _ _ _ Hr)|discriminate]. Qed.

#[export] Instance deleted_ok : IterOK P (DeletedIterator It) := {|
  IRep := d_rep; irep_wf := d_wf; irep_err := d_err; irep_at := d_at;
  inext_cons s cur m x l := d_next s cur m (x :: l); inext_nil s cur m := d_next s cur m [];
  iseek_stay := d_seek_stay; iseek_fwd := d_seek; irep_done := d_done |}.

(** *** The iterator of a chunk by itself *)

Definition chunk_rep (s : It) (cur : option Z) (m : Z) (l : list Z) : Prop :=
  incr (m :: l) /\ ((CRep s cur l /\ forall x, cur = Some x -> m = x) \/ (cur = None /\ l = [] /\ exists T, CEnd s T /\ forall x, T = Some x -> x <= m)).

Lemma chunk_next s cur m l : chunk_rep s cur m l ->
  match l with x :: l => exists s', found (it_Next s) s' x /\ chunk_rep s' (Some x) x l | [] => exists s', returns (it_Next s) (ValNone, s') /\ chunk_rep s' None m [] end.
Proof.
  intros [Hl [[Hr Hcur]|(-> & -> & T & He & HT)]]; [destruct l as [|x l]|].
  - destruct (cnext_nil s cur Hr) as (s' & Hn & He). exists s'. split; [exact Hn|]. split; [exact Hl|]. right. split; [reflexivity|]. split; [reflexivity|]. exists cur. split; [exact He|].
    intros x E. rewrite (Hcur x E). lia.
  - destruct (cnext_cons s cur x l Hr) as (s' & Hf & Hr'). exists s'. split; [exact Hf|]. split; [exact (proj1 (incr_cons_inv _ _ Hl))|]. left. split; [exact Hr'|]. intros y [= <-]. reflexivity.
  - destruct (cend_next s T He) as (s' & Hn & He'). exists s'. split; [exact Hn|]. split; [exact Hl|]. right. eauto.
Qed.

Lemma chunk_seek s cur m l t : chunk_rep s cur m l -> m < t ->
  match drop_lt t l with y :: r => exists s', found (it_Seek t s) s' y /\ chunk_rep s' (Some y) y r | [] => exists s', returns (it_Seek t s) (ValNone, s') /\ chunk_rep s' None t [] end.
Proof.
  intros [Hl H] Ht. pose proof (proj1 (incr_cons_inv _ _ Hl)) as Hl'. destruct H as [[Hr Hcur]|(-> & -> & T & He & HT)].
  - assert (Hct : forall x, cur = Some x -> x < t) by (intros x E; rewrite <- (Hcur x E); exact Ht). pose proof (cseek_fwd s cur l t Hr Hct) as Hs. destruct (drop_lt t l) as [|y r] eqn:Ed.
    + destruct Hs as (s' & Hs & He). exists s'. split; [exact Hs|]. split; [repeat constructor|]. right. split; [reflexivity|]. split; [reflexivity|]. exists (last_of cur l). split; [exact He|].
      intros x E. pose proof (last_of_before cur l t x Hl' Ed Hct E). lia.
    + destruct Hs as (s' & Hs & Hr'). exists s'. split; [exact Hs|]. split; [rewrite <- Ed; exact (drop_lt_incr t l Hl')|]. left. split; [exact Hr'|]. intros z [= <-]. reflexivity.
  - cbn [drop_lt]. destruct (cend_seek s T t He) as (s' & [[Hs He']|(x & -> & Hx & _)]); [|specialize (HT x eq_refl); lia]. exists s'. split; [exact Hs|]. split; [repeat constructor|]. right.
    split; [reflexivity|]. split; [reflexivity|]. exists T. split; [exact He'|]. intros x E. specialize (HT x E). lia.
Qed.

Lemma chunk_seek_stay s x m l t : chunk_rep s (Some x) m l -> t <= x -> exists s', found (it_Seek t s) s' x /\ chunk_rep s' (Some x) m l.
Proof.
  intros [Hl [[Hr Hcur]|(? & _)]] Ht; [|discriminate]. destruct (cseek_stay s x l t Hr Ht) as (s' & Hs & Hr'). exists s'. split; [exact Hs|]. split; [exact Hl|]. left. auto.
Qed.

Lemma chunk_wf s cur m l : chunk_rep s cur m l -> incr (m :: l) /\ (forall x, cur = Some x -> m = x).
Proof. intros [Hl [[_ H]|(-> & _)]]; (split; [exact Hl|]); [exact H|discriminate]. Qed.

Lemma chunk_err s cur m l : chunk_rep s cur m l -> it_Err s = None.
Proof. intros [_ [[Hr _]|(_ & _ & T & He & _)]]; [exact (crep_err _ _ _ Hr)|exact (cend_err _ _ He)]. Qed.

Lemma chunk_at s x m l : chunk_rep s (Some x) m l -> it_AtT s = Ret x /\ exists v, it_At s = Ret (x, v) /\ P (x, v).
Proof. intros [_ [[Hr _]|(? & _)]]; [exact (crep_at _ _ _ Hr)|discriminate]. Qed.

Lemma chunk_done s m m' : chunk_rep s None m [] -> m <= m' -> chunk_rep s None m' [].
Proof. intros [_ [[Hr _]|(_ & _ & T & He & HT)]] Hm; (split; [repeat constructor|]); [left; split; [exact Hr|discriminate]|]. right. split; [reflexivity|]. split; [reflexivity|]. exists T. split; [exact He|]. intros x E. specialize (HT x E). lia. Qed.

Definition chunk_ok : IterOK P It := {|
  IRep := chunk_rep; irep_wf := chunk_wf; irep_err := chunk_err; irep_at := chunk_at;
  inext_cons s cur m x l := chunk_next s cur m (x :: l); inext_nil s cur m := chunk_next s cur m [];
  iseek_stay := chunk_seek_stay; iseek_fwd := chunk_seek; irep_done := chunk_done |}.
End contracts.
