(* ===== verification/XorIter.v ===== *)
(** * The iterator of XOR chunks keeps the contract ([tsdb/chunkenc/xor.go])

    [XorChunk] models the iterator and shows what draining it yields; here it is
    an instance of the interface of sample iterators, with [Seek] and with the reuse
    of an old iterator. *)
From stdpp Require Import base list numbers strings.
From Stdlib Require Import ZArith Lia Sorted.
From S2P Require Import Prelude Encoding Bstream XorChunk Postings SampleIter DeletedIter.

Definition rd_error_text (e : rd_err) : string :=
  match e with
  | EOF => "EOF"
  | UnexpectedEOF => "unexpected EOF"
  | VarintOverflow => "binary: varint overflows a 64-bit integer"
  | InvalidBitPattern _ => "invalid bit pattern"
  end.

(** [Iterator]: an old iterator of the same kind is reset. *)
Definition xor_Iterator (c : bstream) (old : option xorIterator) : xorIterator := match old with Some _ => xor_Reset (bs_bytes c) | None => xor_iterator c end.

Definition xor_Next (it : xorIterator) : ValueType * xorIterator := let '(ok, it) := Next it in (if ok : bool then ValFloat else ValNone, it).

Definition seek_body (t : Z) (it : xorIterator) : run (xorIterator + (ValueType * xorIterator)) :=
  if (it_t it <? t) || (it_numRead it =? 0) then
    let '(ok, it) := Next it in rret (if ok : bool then inl it else inr (ValNone, it))
  else rret (inr (ValFloat, it)).
Definition xor_Seek (t : Z) (it : xorIterator) : run (ValueType * xorIterator) :=
  match it_err it with Some _ => rret (ValNone, it) | None => rloop (seek_body t) it end.

#[export] Instance xor_ops : IterOps xorIterator := {|
  it_Next it := rret (xor_Next it); it_Seek := xor_Seek; it_AtT it := Ret (it_t it); it_At it := Ret (it_t it, VFloat (it_val it));
  it_Err it := option_map rd_error_text (it_err it) |}.

(** ** What [Next] does to the counters *)

Definition keeps {A} (m : ItM A) : Prop := forall it, it_numRead (snd (m it)) = it_numRead it /\ it_numTotal (snd (m it)) = it_numTotal it /\ it_err (snd (m it)) = it_err it.

Lemma xor_keeps_bind {A B} (m : ItM A) (k : A -> ItM B) : keeps m -> (forall a, keeps (k a)) -> keeps (it_bind m k).
Proof.
  intros Hm Hk it. unfold it_bind. specialize (Hm it). destruct (m it) as [[e|a] it1]; [exact Hm|]. cbn in Hm. destruct Hm as (H1 & H2 & H3). destruct (Hk a it1) as (K1 & K2 & K3). repeat split; congruence.
Qed.

Lemma keeps_read {A} (m : Rd A) : keeps (it_read m).
Proof. intros it. unfold it_read. destruct (m (it_br it)). auto. Qed.

Lemma xor_keeps_ret {A} (a : A) : keeps (it_ret a).
Proof. intros it. auto. Qed.

Ltac keeps := repeat first [apply xor_keeps_bind; [|intros ?] | apply keeps_read | apply xor_keeps_ret | progress cbv zeta | match goal with |- keeps (if ?b then _ else _) => destruct b end | (intros ?; cbn; auto)].

Lemma keeps_xorRead : keeps xorRead.
Proof. unfold xorRead. keeps. Qed.

(** A call that reads a sample counts it. *)
Lemma counts_bind {A} (m : ItM A) (k : A -> ItM unit) : keeps m -> (forall a it it', k a it = (inr tt, it') -> it_numRead it' = u16 (it_numRead it + 1) /\ it_numTotal it' = it_numTotal it /\ it_err it' = it_err it) ->
  forall it it', it_bind m k it = (inr tt, it') -> it_numRead it' = u16 (it_numRead it + 1) /\ it_numTotal it' = it_numTotal it /\ it_err it' = it_err it.
Proof.
  intros Hm Hk it it'. unfold it_bind. specialize (Hm it). destruct (m it) as [[e|a] it1]; [discriminate|]. cbn in Hm. destruct Hm as (H1 & H2 & H3). intros E.
  destruct (Hk a it1 it' E) as (K1 & K2 & K3). repeat split; congruence.
Qed.

Lemma next_body_counts it it' : next_body it = (inr tt, it') -> it_numRead it' = u16 (it_numRead it + 1) /\ it_numTotal it' = it_numTotal it /\ it_err it' = it_err it.
Proof.
  assert (Hinc : forall it it', it_inc_read it = (inr tt, it') -> it_numRead it' = u16 (it_numRead it + 1) /\ it_numTotal it' = it_numTotal it /\ it_err it' = it_err it).
  { intros s s' [= <-]. auto. }
  assert (Hval : forall it it', readValue it = (inr tt, it') -> it_numRead it' = u16 (it_numRead it + 1) /\ it_numTotal it' = it_numTotal it /\ it_err it' = it_err it).
  { unfold readValue. apply counts_bind; [apply keeps_xorRead|]. intros _. apply Hinc. }
  revert it it'. unfold next_body. apply counts_bind; [intros ?; auto|]. intros it. destruct (it_numRead it =? 0); [|destruct (it_numRead it =? 1)];
    repeat (first [apply Hinc | apply Hval | apply counts_bind; [first [apply keeps_read | intros ?; cbn; auto]|intros ?] | progress cbv zeta]).
Qed.

Definition counted (it : xorIterator) : Prop := 0 <= it_numRead it <= it_numTotal it /\ it_numTotal it < 2 ^ 16.

Lemma Next_counts it it' : counted it -> Next it = (true, it') -> it_err it = None /\ it_err it' = None /\ counted it' /\ 0 < it_numRead it'.
Proof.
  intros [Hc1 Hc2]. unfold Next. destruct (it_err it) eqn:Ee; [discriminate|]. destruct (Z.eqb_spec (it_numRead it) (it_numTotal it)) as [|Hne]; [discriminate|].
  destruct (next_body it) as [[e|[]] it1] eqn:E; [discriminate|]. intros [= <-]. apply next_body_counts in E as (E1 & E2 & E3). split; [reflexivity|]. split; [congruence|].
  assert (it_numRead it1 = it_numRead it + 1) by (rewrite E1; apply Z.mod_small; lia). unfold counted. lia.
Qed.

(** ** What is still to be read *)

Definition xor_reads (it : xorIterator) (ss : list (Z * Z)) : Prop := exists e, collect (S (length ss)) it = (ss, e) /\ it_err e = None.

Lemma xor_reads_nil it : xor_reads it [] -> Next it = (false, it) /\ it_err it = None.
Proof.
  intros (e & Hc & He). cbn [collect length] in Hc. destruct (Next it) as [[] it1] eqn:E; [discriminate|]. injection Hc as ->. unfold Next in *.
  destruct (it_err it) eqn:Ee; [injection E as <-; congruence|]. destruct (_ =? _); [injection E as <-; auto|]. destruct (next_body it) as [[err|[]] it2]; [|discriminate]. injection E as <-. discriminate.
Qed.

Lemma xor_reads_cons it s ss : xor_reads it (s :: ss) -> exists it', Next it = (true, it') /\ At it' = s /\ xor_reads it' ss.
Proof.
  intros (e & Hc & He). cbn [length] in Hc. change (collect (S (S (length ss))) it) with (match Next it with (true, it') => let '(ss, it2) := collect (S (length ss)) it' in (At it' :: ss, it2) | (false, it') => ([], it') end) in Hc.
  destruct (Next it) as [[] it1]; [|discriminate]. destruct (collect (S (length ss)) it1) as [ss' e'] eqn:E. injection Hc as <- -> ->. exists it1. split; [reflexivity|]. split; [reflexivity|]. exists e. auto.
Qed.

Section xor_contract.
Variable P : sample -> Prop.

Definition keeps_sample (s : Z * Z) : Prop := P (fst s, VFloat (snd s)).

(** The sample at which the iterator stands. *)
Definition xor_at (it : xorIterator) (cur : option Z) : Prop :=
  match cur with Some x => 0 < it_numRead it /\ it_t it = x /\ P (x, VFloat (it_val it)) | None => it_numRead it = 0 end.
Definition xor_rep (it : xorIterator) (cur : option Z) (l : list Z) : Prop :=
  exists ss, l = map fst ss /\ xor_reads it ss /\ counted it /\ Forall keeps_sample ss /\ xor_at it cur /\ incr (match cur with Some x => x :: l | None => l end).
Definition xor_end (it : xorIterator) (T : option Z) : Prop := xor_reads it [] /\ counted it /\ xor_at it T.

Lemma xor_reads_err it ss : counted it -> xor_reads it ss -> it_err it = None.
Proof.
  intros Hc H. destruct ss as [|s ss]; [exact (proj2 (xor_reads_nil it H))|]. destruct (xor_reads_cons it s ss H) as (it' & Hn & _). exact (proj1 (Next_counts it it' Hc Hn)).
Qed.

Lemma xor_step it cur x l : xor_rep it cur (x :: l) -> exists it', Next it = (true, it') /\ xor_rep it' (Some x) l.
Proof.
  intros (ss & E & Hr & Hc & Hf & _ & Hi). destruct ss as [|[t v] ss]; [discriminate|]. injection E as -> ->. apply Forall_cons in Hf as [Hs Hf].
  destruct (xor_reads_cons it (t, v) ss Hr) as (it' & Hn & Hat & Hr'). destruct (Next_counts it it' Hc Hn) as (_ & _ & Hc' & Hpos). exists it'. split; [exact Hn|]. exists ss.
  injection Hat as Ht Hv. repeat (split; [solve [auto]|]). split; [split; [exact Hpos|split; [exact Ht|rewrite Hv; exact Hs]]|].
  cbn [fst] in Hi. destruct cur; [exact (proj1 (incr_cons_inv _ _ Hi))|exact Hi].
Qed.

Lemma xor_stop it cur : xor_rep it cur [] -> Next it = (false, it) /\ xor_end it cur.
Proof.
  intros (ss & E & Hr & Hc & _ & Hat & _). destruct ss; [|discriminate]. split; [exact (proj1 (xor_reads_nil it Hr))|]. split; [exact Hr|]. auto.
Qed.

Lemma xor_found it' x l (m : run (ValueType * xorIterator)) : xor_rep it' (Some x) l -> returns m (ValFloat, it') -> found m it' x.
Proof. intros (ss & _ & _ & _ & _ & (_ & Ht & _) & _) Hm. exists (VFloat (it_val it')). split; [exact Hm|]. cbn. rewrite Ht. reflexivity. Qed.

(** The loop of [Seek]. *)
Lemma seek_done it x t : xor_at it (Some x) -> t <= x -> returns (rloop (seek_body t) it) (ValFloat, it).
Proof.
  intros (Hn & Ht & _) Hx. apply returns_loop_end. unfold seek_body. destruct (Z.ltb_spec (it_t it) t); [lia|]. destruct (Z.eqb_spec (it_numRead it) 0); [lia|]. apply returns_ret.
Qed.

Lemma seek_goes it cur t ok it' : xor_at it cur -> (forall x, cur = Some x -> x < t) -> Next it = (ok, it') ->
  seek_body t it = rret (if ok then inl it' else inr (ValNone, it')).
Proof.
  intros Hat Ht Hn. unfold seek_body. rewrite Hn. destruct cur as [x|].
  - destruct Hat as (_ & E & _). specialize (Ht x eq_refl). destruct (Z.ltb_spec (it_t it) t); [reflexivity|lia].
  - cbn in Hat. rewrite Hat, orb_true_r. reflexivity.
Qed.

Lemma rep_at it cur l : xor_rep it cur l -> xor_at it cur.
Proof. intros (ss & _ & _ & _ & _ & H & _). exact H. Qed.

Lemma xor_seek_loop t l : forall it cur, xor_rep it cur l -> (forall x, cur = Some x -> x < t) ->
  match drop_lt t l with
  | y :: r => exists it', returns (rloop (seek_body t) it) (ValFloat, it') /\ xor_rep it' (Some y) r
  | [] => exists it', returns (rloop (seek_body t) it) (ValNone, it') /\ xor_end it' (last_of cur l)
  end.
Proof.
  induction l as [|x l IH]; intros it cur Hr Ht.
  - destruct (xor_stop it cur Hr) as [Hn He]. exists it. split; [|exact He]. apply returns_loop_end. rewrite (seek_goes it cur t _ _ (rep_at _ _ _ Hr) Ht Hn). apply returns_ret.
  - destruct (xor_step it cur x l Hr) as (it' & Hn & Hr'). pose proof (seek_goes it cur t _ _ (rep_at _ _ _ Hr) Ht Hn) as Hb. cbn in Hb.
    assert (Hgo : returns (seek_body t it) (inl it')) by (rewrite Hb; apply returns_ret). destruct (Z.le_gt_cases t x) as [Hle|Hgt].
    + rewrite drop_lt_head_le by exact Hle. exists it'. split; [|exact Hr']. eapply returns_loop_next; [exact Hgo|]. exact (seek_done it' x t (rep_at _ _ _ Hr') Hle).
    + rewrite drop_lt_head_gt by exact Hgt. specialize (IH it' (Some x) Hr' ltac:(intros y [= <-]; exact Hgt)).
      assert (El : last_of cur (x :: l) = last_of (Some x) l) by (unfold last_of; destruct l; [reflexivity|]; cbn; destruct (last (z :: l)) eqn:E; [reflexivity|]; apply last_None in E; discriminate).
      rewrite El. destruct (drop_lt t l) as [|y r]; destruct IH as (it2 & Hret & H); exists it2; (split; [eapply returns_loop_next; eassumption|exact H]).
Qed.

Lemma xor_rep_err it cur l : xor_rep it cur l -> it_err it = None.
Proof. intros (ss & _ & Hr & Hc & _). exact (xor_reads_err it ss Hc Hr). Qed.

Lemma xor_end_err it T : xor_end it T -> it_err it = None.
Proof. intros (Hr & Hc & _). exact (xor_reads_err it [] Hc Hr). Qed.

Lemma xor_end_next it T : xor_end it T -> exists it', returns (rret (xor_Next it)) (ValNone, it') /\ xor_end it' T.
Proof. intros H. exists it. split; [|exact H]. unfold xor_Next. rewrite (proj1 (xor_reads_nil it (proj1 H))). apply returns_ret. Qed.

#[export] Program Instance xor_ok : ChunkIterOK P xorIterator := {| CRep := xor_rep; CEnd := xor_end |}.
Next Obligation. intros it cur l (ss & _ & _ & _ & _ & _ & H). exact H. Qed.
Next Obligation. intros it cur l H. cbn. rewrite (xor_rep_err _ _ _ H). reflexivity. Qed.
Next Obligation. intros it T H. cbn. rewrite (xor_end_err _ _ H). reflexivity. Qed.
Next Obligation. intros it x l H. destruct (rep_at _ _ _ H) as (_ & <- & HP). cbn. eauto. Qed.
Next Obligation.
  intros it cur x l H. destruct (xor_step it cur x l H) as (it' & Hn & Hr). exists it'. split; [|exact Hr]. apply (xor_found it' x l _ Hr). cbn. unfold xor_Next. rewrite Hn. apply returns_ret.
Qed.
Next Obligation. intros it cur H. exact (xor_end_next it cur (proj2 (xor_stop it cur H))). Qed.
Next Obligation. intros it T H. exact (xor_end_next it T H). Qed.
Next Obligation.
  intros it x l t H Ht. exists it. split; [|exact H]. apply (xor_found it x l _ H). cbn. unfold xor_Seek. rewrite (xor_rep_err _ _ _ H). exact (seek_done it x t (rep_at _ _ _ H) Ht).
Qed.
Next Obligation.
  intros it cur l t H Ht. cbn. unfold xor_Seek. rewrite (xor_rep_err _ _ _ H). pose proof (xor_seek_loop t l it cur H Ht) as Hs. destruct (drop_lt t l) as [|y r]; [exact Hs|].
  destruct Hs as (it' & Hs & Hr). exists it'. split; [exact (xor_found it' y r _ Hr Hs)|exact Hr].
Qed.
Next Obligation.
  intros it T t H. exists it. cbn. unfold xor_Seek. rewrite (xor_end_err _ _ H). destruct H as (Hr & Hc & Hat).
  assert (Hgo : (forall x, T = Some x -> x < t) -> returns (rloop (seek_body t) it) (ValNone, it)).
  { intros Ht. apply returns_loop_end. rewrite (seek_goes it T t _ _ Hat Ht (proj1 (xor_reads_nil it Hr))). apply returns_ret. }
  destruct T as [x|]; [destruct (Z.le_gt_cases t x) as [Hx|Hx]|].
  - right. exists x. split; [reflexivity|]. split; [exact Hx|]. assert (Hrep : xor_rep it (Some x) []) by (exists []; repeat (split; [solve [auto]|]); repeat constructor).
    split; [exact (xor_found it x [] _ Hrep (seek_done it x t Hat Hx))|exact Hrep].
  - left. split; [apply Hgo; intros y [= <-]; exact Hx|split; auto].
  - left. split; [apply Hgo; discriminate|split; auto].
Qed.
End xor_contract.

(** ** The iterator of a chunk that an appender has written *)

Lemma reset_next c it : Next (xor_iterator c) = (true, it) -> Next (xor_Reset (bs_bytes c)) = (true, it).
Proof.
  unfold Next, xor_iterator, xor_Reset. cbn [it_err it_numRead it_numTotal]. destruct (0 =? be_uint16 (bs_bytes c)); [discriminate|].
  unfold next_body, it_bind, it_get. cbn [it_numRead Z.eqb]. unfold it_read. cbn [it_br it_numTotal it_numRead it_t it_val it_leading it_trailing it_tDelta it_err].
  destruct (ReadVarint (newBReader (drop 2 (bs_bytes c)))) as [[e|t] br]; [discriminate|]. cbn [it_br it_numTotal it_numRead it_t it_val it_leading it_trailing it_tDelta it_err].
  destruct (readBits 64 br) as [[e|v] br']; [discriminate|]. intros H. exact H.
Qed.

Lemma xor_Iterator_ok P a ss old : good_appender a ss -> incr (map fst ss) -> Forall (keeps_sample P) ss -> xor_rep P (xor_Iterator (xa_b a) old) None (map fst ss).
Proof.
  intros Hg Hi Hf. assert (Hn : be_uint16 (bs_bytes (xa_b a)) = Z.of_nat (length ss) /\ is_u16 (Z.of_nat (length ss))).
  { destruct Hg as (it & l & [Hr Hu] & _). split; [exact (header_num _ _ l Hu Hr)|exact Hu]. }
  assert (Hfresh : xor_reads (xor_iterator (xa_b a)) ss) by exact (good_iterates a ss Hg).
  assert (Hreads : xor_reads (xor_Iterator (xa_b a) old) ss).
  { destruct old as [o|]; [|exact Hfresh]. cbn [xor_Iterator]. destruct ss as [|s ss].
    - exists (xor_Reset (bs_bytes (xa_b a))). split; [|reflexivity]. cbn [collect length]. unfold Next, xor_Reset. cbn [it_err it_numRead it_numTotal]. rewrite (proj1 Hn). reflexivity.
    - destruct (xor_reads_cons _ s ss Hfresh) as (it' & HN & <- & e & Hc & He). exists e. split; [|exact He]. cbn [length].
      change (collect (S (S (length ss))) (xor_Reset (bs_bytes (xa_b a)))) with (match Next (xor_Reset (bs_bytes (xa_b a))) with (true, it') => let '(ss, it2) := collect (S (length ss)) it' in (At it' :: ss, it2) | (false, it') => ([], it') end).
      rewrite (reset_next _ _ HN), Hc. reflexivity. }
  exists ss. split; [reflexivity|]. split; [exact Hreads|]. destruct Hn as [Hn [_ Hu]]. split; [|split; [exact Hf|split; [|exact Hi]]].
  - destruct old; unfold counted; cbn; rewrite Hn; lia.
  - destruct old; reflexivity.
Qed.
