(* ===== verification/BlockQuery.v ===== *)
(** * Querying the samples of a block ([tsdb/querier.go])

    [blockBaseSeriesSet] goes through the series of a block and picks the chunks that
    overlap the queried range; [populateWithDelSeriesIterator] iterates over
    the samples of the chunks of one series, without those that are deleted.
    The index, the chunks and the tombstones are read through their interfaces. *)
From stdpp Require Import base list numbers strings pretty.
From Stdlib Require Import ZArith Lia Sorted.
From S2P Require Import Prelude Tombstones Postings Index SampleIter DeletedIter.

Definition OverlapsClosedInterval (cm : Meta) (mint maxt : Z) : bool := (MinTime cm <=? maxt) && (mint <=? MaxTime cm).

(** What [ChunkReader.ChunkOrIterable] returns: one chunk, or samples in several. *)
Inductive stored (C : Type) := Chunk (c : C) | Iterable (c : C).
Arguments Chunk {C}. Arguments Iterable {C}.

(** ** The samples of a series *)

Section populate.
Context {C It : Type} {ops : IterOps It}.
(** The iterator of a chunk; it can reuse the memory of another. *)
Variable chunk_Iterator : C -> option It -> It.
Variable ChunkOrIterable : Meta -> string + stored C.
Variable blockID : string.

(** [populateWithDelGenericSeriesIterator].  [g_chunk] is [currMeta.Chunk]; [g_del] tells
    that [currDelIter] is set, and then it points to [bufIter]. *)
Record generic := mkGeneric {
  g_metas : list Meta; g_i : Z; g_err : option string;
  g_bufIter : option It; g_bufIntervals : Intervals;
  g_intervals : Intervals; g_del : bool; g_chunk : option C }.

(** The intervals that the chunk overlaps. *)
Fixpoint overlapping (cm : Meta) (ivs acc : Intervals) : outcome Intervals :=
  match ivs with
  | [] => Ret acc
  | iv :: ivs => if OverlapsClosedInterval cm (Mint iv) (Maxt iv) then outcome_bind (Add acc iv) (overlapping cm ivs) else overlapping cm ivs acc
  end.

Definition populate_error (cm : Meta) (e : string) : string := "cannot populate chunk " +:+ pretty (Ref cm) +:+ " from block " +:+ blockID +:+ ": " +:+ e.

(** [next], with [copyHeadChunk] false. *)
Definition generic_next (p : generic) : outcome (bool * generic) :=
  if bool_decide (g_err p <> None) || (Z.of_nat (length (g_metas p)) - 1 <=? g_i p) then Ret (false, p)
  else
    let i := g_i p + 1 in
    if i <? 0 then Panic else
    match g_metas p !! Z.to_nat i with
    | None => Panic
    | Some currMeta =>
        outcome_bind (overlapping currMeta (g_intervals p) []) (fun bufIntervals =>
        match ChunkOrIterable currMeta with
        | inl e => Ret (false, mkGeneric (g_metas p) i (Some (populate_error currMeta e)) (g_bufIter p) bufIntervals (g_intervals p) (g_del p) None)
        | inr (Chunk c) =>
            if bool_decide (bufIntervals = []) then Ret (true, mkGeneric (g_metas p) i None (g_bufIter p) bufIntervals (g_intervals p) false (Some c))
            else Ret (true, mkGeneric (g_metas p) i None (Some (chunk_Iterator c (g_bufIter p))) bufIntervals (g_intervals p) true (Some c))
        | inr (Iterable c) =>
            Ret (true, mkGeneric (g_metas p) i None (Some (chunk_Iterator c (g_bufIter p))) bufIntervals (g_intervals p) true None)
        end)
    end.

(** What [populateWithDelSeriesIterator.curr] points to: [bufIter], or the iterator of a chunk. *)
Inductive current := OnBuf | OnChunk (it : It).

Record populateWithDelSeriesIterator := mkPopulate { p_gen : generic; p_curr : option current }.

(** An old iterator of the same type keeps the memory of [bufIter]. *)
Definition p_reset (old : option populateWithDelSeriesIterator) (chks : list Meta) (intervals : Intervals) : populateWithDelSeriesIterator :=
  mkPopulate (mkGeneric chks (-1) None (match old with Some p => g_bufIter (p_gen p) | None => None end) [] intervals false None) None.

Definition set_buf (p : generic) (d : DeletedIterator It) : generic :=
  mkGeneric (g_metas p) (g_i p) (g_err p) (Some (d_Iter d)) (d_Intervals d) (g_intervals p) (g_del p) (g_chunk p).

(** A call of a method of [curr]. *)
Definition on_curr (d : DeletedIterator It -> run (ValueType * DeletedIterator It)) (c : It -> run (ValueType * It)) (p : populateWithDelSeriesIterator)
    : run (ValueType * populateWithDelSeriesIterator) :=
  match p_curr p with
  | None => rlift Panic
  | Some OnBuf =>
      match g_bufIter (p_gen p) with
      | None => rlift Panic
      | Some it => do (ty, it) <- d (mkDeleted it (g_bufIntervals (p_gen p))) ;; rret (ty, mkPopulate (set_buf (p_gen p) it) (Some OnBuf))
      end
  | Some (OnChunk it) => do (ty, it) <- c it ;; rret (ty, mkPopulate (p_gen p) (Some (OnChunk it)))
  end.
Definition curr_Next := on_curr d_Next it_Next.
Definition curr_Seek (t : Z) := on_curr (d_Seek t) (it_Seek t).

(** The iterator of the current chunk becomes [curr]. *)
Definition use_next (p : populateWithDelSeriesIterator) (g : generic) : outcome populateWithDelSeriesIterator :=
  if g_del g then Ret (mkPopulate g (Some OnBuf))
  else match g_chunk g with
       | Some c => Ret (mkPopulate g (Some (OnChunk (chunk_Iterator c (match p_curr p with Some (OnChunk it) => Some it | _ => None end)))))
       | None => Panic
       end.

Definition p_next_body (p : populateWithDelSeriesIterator) : run (populateWithDelSeriesIterator + (ValueType * populateWithDelSeriesIterator)) :=
  do (ok, g) <- rlift (generic_next (p_gen p)) ;;
  if negb ok then rret (inr (ValNone, mkPopulate g (p_curr p)))
  else do p <- rlift (use_next p g) ;;
       do (ty, p) <- curr_Next p ;;
       rret (if bool_decide (ty = ValNone) then inl p else inr (ty, p)).

Definition p_Next (p : populateWithDelSeriesIterator) : run (ValueType * populateWithDelSeriesIterator) :=
  match p_curr p with
  | None => rloop p_next_body p
  | Some _ => do (ty, p) <- curr_Next p ;; if bool_decide (ty = ValNone) then rloop p_next_body p else rret (ty, p)
  end.

Definition p_seek_body (t : Z) (p : populateWithDelSeriesIterator) : run (populateWithDelSeriesIterator + (ValueType * populateWithDelSeriesIterator)) :=
  do (ty, p) <- p_Next p ;;
  if bool_decide (ty = ValNone) then rret (inr (ValNone, p))
  else do (ty, p) <- curr_Seek t p ;;
       rret (if bool_decide (ty = ValNone) then inl p else inr (ty, p)).

Definition p_Seek (t : Z) (p : populateWithDelSeriesIterator) : run (ValueType * populateWithDelSeriesIterator) :=
  match p_curr p with
  | None => rloop (p_seek_body t) p
  | Some _ => do (ty, p) <- curr_Seek t p ;; if bool_decide (ty = ValNone) then rloop (p_seek_body t) p else rret (ty, p)
  end.

Definition p_inner (p : populateWithDelSeriesIterator) : option It :=
  match p_curr p with None => None | Some OnBuf => g_bufIter (p_gen p) | Some (OnChunk it) => Some it end.
Definition p_AtT (p : populateWithDelSeriesIterator) : outcome Z := match p_inner p with Some it => it_AtT it | None => Panic end.
Definition p_At (p : populateWithDelSeriesIterator) : outcome sample := match p_inner p with Some it => it_At it | None => Panic end.
Definition p_Err (p : populateWithDelSeriesIterator) : option string :=
  match g_err (p_gen p) with Some e => Some e | None => match p_inner p with Some it => it_Err it | None => None end end.

#[local] Instance populate_ops : IterOps populateWithDelSeriesIterator := {| it_Next := p_Next; it_Seek := p_Seek; it_AtT := p_AtT; it_At := p_At; it_Err := p_Err |}.
End populate.

(** ** The series of a block *)

(** The chunks to read, and whether the first or last must be cut. *)
Definition pick_chunk (mint maxt : Z) (disableTrimming : bool) (intervals : Intervals) (acc : list Meta * bool * bool) (chk : Meta) : list Meta * bool * bool :=
  let '(chks, trimFront, trimBack) := acc in
  if (MaxTime chk <? mint) || (maxt <? MinTime chk) || IsSubrange (mkInterval (MinTime chk) (MaxTime chk)) intervals then acc
  else (chks ++ [chk], trimFront || (negb disableTrimming && (MinTime chk <? mint)), trimBack || (negb disableTrimming && (maxt <? MaxTime chk))).

(** The chunks and deletions of one series, or nothing to read. *)
Definition trim_series (mint maxt : Z) (disableTrimming : bool) (bufChks : list Meta) (intervals : Intervals) : outcome (option (list Meta * Intervals)) :=
  let '(chks, trimFront, trimBack) := fold_left (pick_chunk mint maxt disableTrimming intervals) bufChks ([], false, false) in
  match chks with
  | [] => Ret None
  | _ => outcome_bind (if trimFront : bool then Add intervals (mkInterval MinInt64 (mint - 1)) else Ret intervals) (fun intervals =>
         outcome_bind (if trimBack : bool then Add intervals (mkInterval (maxt + 1) MaxInt64) else Ret intervals) (fun intervals =>
         Ret (Some (chks, intervals))))
  end.

(** What [IndexReader.Series] finds. *)
Inductive series_result (L : Type) := SeriesNotFound | SeriesError (e : string) | SeriesFound (lset : L) (chks : list Meta).
Arguments SeriesNotFound {L}. Arguments SeriesError {L}. Arguments SeriesFound {L}.

Section block_series.
Context {L S : Type} {post : PostingsOps S}.
Variable Series : Z -> series_result L.
Variable tombstones_Get : Z -> string + Intervals.
Variables (mint maxt : Z) (disableTrimming : bool).

Record seriesData := mkSeriesData { sd_chks : list Meta; sd_intervals : Intervals; sd_labels : L }.
Record blockBaseSeriesSet := mkSeriesSet { b_p : S; b_curr : option seriesData; b_err : option string }.

Definition series_error (ref : Z) (e : string) : string := "get series " +:+ pretty ref +:+ ": " +:+ e.

Definition b_body (b : blockBaseSeriesSet) : run (blockBaseSeriesSet + (bool * blockBaseSeriesSet)) :=
  do (ok, p) <- (fun f => option_map Ret (pNext f (b_p b))) ;;
  let b := mkSeriesSet p (b_curr b) (b_err b) in
  let fail := fun e => rret (inr (false, mkSeriesSet p (b_curr b) (Some e))) in
  if negb ok then rret (inr (false, b))
  else match Series (pAt p) with
       | SeriesNotFound => rret (inl b)
       | SeriesError e => fail (series_error (pAt p) e)
       | SeriesFound lset [] => rret (inl b)
       | SeriesFound lset bufChks =>
           match tombstones_Get (pAt p) with
           | inl e => fail ("get tombstones: " +:+ e)
           | inr intervals =>
               do r <- rlift (trim_series mint maxt disableTrimming bufChks intervals) ;;
               match r with
               | None => rret (inl b)
               | Some (chks, intervals) => rret (inr (true, mkSeriesSet p (Some (mkSeriesData chks intervals lset)) (b_err b)))
               end
           end
       end.
Definition b_Next (b : blockBaseSeriesSet) : run (bool * blockBaseSeriesSet) := rloop b_body b.
Definition b_Err (b : blockBaseSeriesSet) : option string := match b_err b with Some e => Some e | None => pErr (b_p b) end.
End block_series.
