(* ===== verification/BlockQuerySpec.v ===== *)
(** * Queries of a block return exactly the samples in range that are not deleted

    [populate_ok] shows that the iterator over the chunks of a series keeps the
    contract of iterators over the timestamps that are not deleted; the rest is
    about the chunks and intervals that [blockBaseSeriesSet] picks. *)
From stdpp Require Import base list numbers strings.
From Stdlib Require Import ZArith Lia Sorted.
From S2P Require Import Prelude Tombstones Postings Index SampleIter DeletedIter BlockQuery.

(** ** The intervals of a chunk *)

Definition overlaps (cm : Meta) (iv : Interval) : bool := OverlapsClosedInterval cm (Mint iv) (Maxt iv).

Lemma wf_without a iv b : wf_intervals (a ++ iv :: b) -> wf_intervals (a ++ [iv]) /\ wf_intervals (a ++ b).
Proof.
  intros H. change (iv :: b) with ([iv] ++ b) in H. split; [rewrite app_assoc in H; apply wf_intervals_app in H; tauto|].
  apply wf_intervals_app in H as (Ha & Hb & Hf). apply wf_intervals_app in Hb as (_ & Hb & _). apply wf_intervals_app. split; [exact Ha|]. split; [exact Hb|].
  eapply List.Forall_impl; [|exact Hf]. intros x Hx. apply Forall_app in Hx. tauto.
Qed.

Lemma overlapping_filter cm ivs acc : wf_intervals (acc ++ ivs) -> overlapping cm ivs acc = Ret (acc ++ List.filter (overlaps cm) ivs).
Proof.
  revert acc. induction ivs as [|iv ivs IH]; intros acc Hw; cbn [overlapping List.filter]; [rewrite app_nil_r; reflexivity|].
  destruct (wf_without acc iv ivs Hw) as [H1 H2]. unfold overlaps at 1. destruct (OverlapsClosedInterval cm (Mint iv) (Maxt iv)).
  - rewrite (Add_snoc acc iv H1). cbn [outcome_bind]. rewrite IH by (rewrite <- app_assoc; exact Hw). rewrite <- app_assoc. reflexivity.
  - exact (IH acc H2).
Qed.

(** Within the chunk they cover the same timestamps. *)
Lemma overlaps_covered cm ivs t : MinTime cm <= t <= MaxTime cm -> covered (List.filter (overlaps cm) ivs) t = covered ivs t.
Proof.
  intros Ht. unfold covered. induction ivs as [|iv ivs IH]; [reflexivity|]. cbn [List.filter existsb]. destruct (overlaps cm iv) eqn:Eo; [cbn; rewrite IH; reflexivity|].
  rewrite IH. assert (E : InBounds iv t = false); [|rewrite E; reflexivity]. unfold overlaps, OverlapsClosedInterval, InBounds in *. apply andb_false_iff.
  apply andb_false_iff in Eo as [E|E]; apply Z.leb_gt in E; [right|left]; apply Z.leb_gt; lia.
Qed.

Lemma live_nil l : live [] l = l.
Proof. unfold live. induction l as [|x l IH]; cbn; [reflexivity|]. f_equal. exact IH. Qed.

Lemma incr_app_r (a b : list Z) m : incr (m :: a ++ b) -> incr (m :: b).
Proof. intros H. destruct (incr_cons_inv _ _ H) as [Hs Hlt]. apply incr_cons; [exact (sorted_app_r a b Hs)|]. intros z Hz. apply Hlt. apply elem_of_app. auto. Qed.

Lemma incr_app_l (a b : list Z) : incr (a ++ b) -> incr a.
Proof. induction a as [|x a IH]; intros H; [constructor|]. destruct (incr_cons_inv _ _ H) as [Hs Hlt]. apply incr_cons; [exact (IH Hs)|]. intros z Hz. apply Hlt, elem_of_app. auto. Qed.

Lemma drop_lt_app t a b : drop_lt t (a ++ b) = match drop_lt t a with y :: r => (y :: r) ++ b | [] => drop_lt t b end.
Proof. induction a as [|x a IH]; [reflexivity|]. cbn. destruct (x <? t); [exact IH|reflexivity]. Qed.

(** ** The iterator over the chunks of a series *)

(** A call that finds the first of [l], or nothing with the bound [m]. *)
Definition goes {X} {ops : IterOps X} (R : X -> option Z -> Z -> list Z -> Prop) (r : run (ValueType * X)) (m : Z) (l : list Z) : Prop :=
  match l with x :: l => exists s, found r s x /\ R s (Some x) x l | [] => exists s, returns r (ValNone, s) /\ R s None m [] end.

Section populate.
Context {C It : Type} {P : sample -> Prop} {ops : IterOps It} {COK : ChunkIterOK P It}.
Variable chunk_Iterator : C -> option It -> It.
Variable ChunkOrIterable : Meta -> string + stored C.
Variable blockID : string.
Variable content : Meta -> list Z.
Let series_iter : Type := @populateWithDelSeriesIterator C It.
#[local] Instance iter_ops : IterOps series_iter := populate_ops chunk_Iterator ChunkOrIterable blockID.
#[local] Abbreviation iter_Next := (p_Next chunk_Iterator ChunkOrIterable blockID).
#[local] Abbreviation iter_Seek := (p_Seek chunk_Iterator ChunkOrIterable blockID).
#[local] Abbreviation iter_next_body := (p_next_body chunk_Iterator ChunkOrIterable blockID).
#[local] Abbreviation iter_seek_body := (p_seek_body chunk_Iterator ChunkOrIterable blockID).

(** The chunk can be read, and its timestamps are in its range. *)
Definition good_meta (cm : Meta) : Prop :=
  (exists c, (ChunkOrIterable cm = inr (Chunk c) \/ ChunkOrIterable cm = inr (Iterable c)) /\ forall old, CRep (chunk_Iterator c old) None (content cm))
  /\ Forall (fun t => MinTime cm <= t <= MaxTime cm) (content cm).

Definition pending (ivs : Intervals) (metas : list Meta) : list Z := flat_map (fun cm => live ivs (content cm)) metas.

Definition curr_rep (p : series_iter) (cur : option Z) (m : Z) (l : list Z) : Prop :=
  match p_curr p with
  | None => cur = None /\ l = []
  | Some OnBuf => exists it, g_bufIter (p_gen p) = Some it /\ d_rep (mkDeleted it (g_bufIntervals (p_gen p))) cur m l
  | Some (OnChunk it) => chunk_rep it cur m l
  end.

(** The first [n] chunks were opened. *)
Record opened (g : @generic C It) (n : nat) : Prop := {
  op_err : g_err g = None;
  op_wf : wf_intervals (g_intervals g);
  op_good : Forall good_meta (g_metas g);
  op_i : g_i g = Z.of_nat n - 1;
  op_n : (n <= length (g_metas g))%nat }.

Definition same (p p' : series_iter) : Prop :=
  g_metas (p_gen p') = g_metas (p_gen p) /\ g_i (p_gen p') = g_i (p_gen p) /\ g_err (p_gen p') = g_err (p_gen p) /\ g_intervals (p_gen p') = g_intervals (p_gen p)
  /\ p_curr p' <> None.

Definition p_rep (p : series_iter) (cur : option Z) (m : Z) (l : list Z) : Prop :=
  incr (m :: l) /\ (forall x, cur = Some x -> m = x)
  /\ exists n l1, opened (p_gen p) n /\ l = l1 ++ pending (g_intervals (p_gen p)) (drop n (g_metas (p_gen p))) /\ curr_rep p cur m l1.

Lemma same_opened p p' n : same p p' -> opened (p_gen p) n -> opened (p_gen p') n.
Proof. intros (E1 & E2 & E3 & E4 & _) [H1 H2 H3 H4 H5]. constructor; rewrite ?E1, ?E2, ?E3, ?E4; assumption. Qed.

Lemma same_pending p p' n : same p p' -> pending (g_intervals (p_gen p')) (drop n (g_metas (p_gen p'))) = pending (g_intervals (p_gen p)) (drop n (g_metas (p_gen p))).
Proof. intros (-> & _ & _ & -> & _). reflexivity. Qed.

(** A call of a method of the current iterator. *)
Lemma on_curr_goes d c p cur m l m' l' :
  (forall it ivs, d_rep (mkDeleted it ivs) cur m l -> goes d_rep (d (mkDeleted it ivs)) m' l') -> (forall it, chunk_rep it cur m l -> goes chunk_rep (c it) m' l') ->
  p_curr p <> None -> curr_rep p cur m l -> goes (fun p' cur m l => curr_rep p' cur m l /\ same p p') (on_curr d c p) m' l'.
Proof.
  intros Hd Hc Hne Hr. unfold curr_rep in Hr. unfold goes, on_curr, found. destruct (p_curr p) as [[|it]|] eqn:Ec; [| |contradiction].
  - destruct Hr as (it & Eb & Hr). specialize (Hd it _ Hr). rewrite Eb. unfold goes in Hd. destruct l' as [|x l'].
    + destruct Hd as (s & Hs & Hr'). exists (mkPopulate (set_buf (p_gen p) s) (Some OnBuf)). split; [r_step Hs; apply returns_ret|]. split; [|repeat split; discriminate].
      unfold curr_rep. cbn. exists (d_Iter s). split; [reflexivity|]. destruct s; exact Hr'.
    + destruct Hd as (s & (v & Hs & Hat) & Hr'). exists (mkPopulate (set_buf (p_gen p) s) (Some OnBuf)). split; [exists v; split; [r_step Hs; apply returns_ret|exact Hat]|]. split; [|repeat split; discriminate].
      unfold curr_rep. cbn. exists (d_Iter s). split; [reflexivity|]. destruct s; exact Hr'.
  - specialize (Hc it Hr). unfold goes in Hc. destruct l' as [|x l'].
    + destruct Hc as (s & Hs & Hr'). exists (mkPopulate (p_gen p) (Some (OnChunk s))). split; [r_step Hs; apply returns_ret|]. split; [exact Hr'|repeat split; discriminate].
    + destruct Hc as (s & (v & Hs & Hat) & Hr'). exists (mkPopulate (p_gen p) (Some (OnChunk s))). split; [exists v; split; [r_step Hs; apply returns_ret|exact Hat]|]. split; [exact Hr'|repeat split; discriminate].
Qed.

Definition curr_goes (p : series_iter) (r : run (ValueType * series_iter)) (m : Z) (l : list Z) : Prop := goes (fun p' cur m l => curr_rep p' cur m l /\ same p p') r m l.

Lemma curr_next p cur m l : p_curr p <> None -> curr_rep p cur m l -> curr_goes p (curr_Next p) m l.
Proof. intros Hne Hr. apply (on_curr_goes d_Next it_Next p cur m l m l); [intros it ivs H; exact (d_next _ _ _ _ H)|intros it H; exact (chunk_next _ _ _ _ H)|exact Hne|exact Hr]. Qed.

Lemma curr_seek p cur m l t : p_curr p <> None -> curr_rep p cur m l -> m < t -> curr_goes p (curr_Seek t p) t (drop_lt t l).
Proof. intros Hne Hr Ht. apply (on_curr_goes _ _ p cur m l t (drop_lt t l)); [intros it ivs H; exact (d_seek _ _ _ _ t H Ht)|intros it H; exact (chunk_seek _ _ _ _ t H Ht)|exact Hne|exact Hr]. Qed.

Lemma curr_stay p x l t : p_curr p <> None -> curr_rep p (Some x) x l -> t <= x -> curr_goes p (curr_Seek t p) x (x :: l).
Proof. intros Hne Hr Ht. apply (on_curr_goes _ _ p (Some x) x l x (x :: l)); [intros it ivs H; exact (d_seek_stay _ _ _ _ t H Ht)|intros it H; exact (chunk_seek_stay _ _ _ _ t H Ht)|exact Hne|exact Hr]. Qed.

Lemma curr_done p m m' : curr_rep p None m [] -> m <= m' -> curr_rep p None m' [].
Proof.
  unfold curr_rep. destruct (p_curr p) as [[|it]|]; [|intros H Hm; exact (chunk_done it m m' H Hm)|auto].
  intros (it & E & H) Hm. exists it. split; [exact E|exact (d_done _ m m' H Hm)].
Qed.

(** *** Opening the next chunk *)

Lemma opened_next g n cm : opened g n -> g_metas g !! n = Some cm ->
  exists g' c, generic_next chunk_Iterator ChunkOrIterable blockID g = Ret (true, g') /\ opened g' (S n) /\ g_metas g' = g_metas g /\ g_intervals g' = g_intervals g
  /\ g_bufIntervals g' = List.filter (overlaps cm) (g_intervals g)
  /\ if g_del g' then g_bufIter g' = Some (chunk_Iterator c (g_bufIter g)) /\ (forall old, CRep (chunk_Iterator c old) None (content cm))
     else g_chunk g' = Some c /\ g_bufIntervals g' = [] /\ (forall old, CRep (chunk_Iterator c old) None (content cm)).
Proof.
  intros [H1 H2 H3 H4 H5] Hcm. pose proof (lookup_lt_Some _ _ _ Hcm) as Hn. destruct (proj1 (Forall_lookup _ _) H3 n cm Hcm) as [(c & Hc & Hrep) _].
  unfold generic_next. rewrite H1, bool_decide_eq_false_2 by congruence. destruct (Z.leb_spec (Z.of_nat (length (g_metas g)) - 1) (g_i g)); [lia|]. cbn [orb].
  rewrite H4. replace (Z.of_nat n - 1 + 1) with (Z.of_nat n) by lia. destruct (Z.ltb_spec (Z.of_nat n) 0); [lia|]. rewrite Nat2Z.id, Hcm.
  rewrite (overlapping_filter cm (g_intervals g) [] H2). cbn [outcome_bind app]. set (ivs := List.filter (overlaps cm) (g_intervals g)).
  assert (Hop : forall b i del ch, opened (mkGeneric (g_metas g) (Z.of_nat n) None b i (g_intervals g) del ch) (S n)) by (intros *; constructor; cbn; auto; lia).
  destruct Hc as [-> | ->]; [destruct (bool_decide (ivs = [])) eqn:Eb|]; (eexists _, c; split; [reflexivity|]; split; [apply Hop|]; cbn); [apply bool_decide_eq_true in Eb|..]; auto 10.
Qed.

Lemma use_next_ok p g g' cm c n : opened g n -> g_metas g !! n = Some cm -> g_bufIntervals g' = List.filter (overlaps cm) (g_intervals g) ->
  (if g_del g' then g_bufIter g' = Some (chunk_Iterator c (g_bufIter g)) /\ (forall old, CRep (chunk_Iterator c old) None (content cm))
   else g_chunk g' = Some c /\ g_bufIntervals g' = [] /\ (forall old, CRep (chunk_Iterator c old) None (content cm))) ->
  exists p', use_next chunk_Iterator p g' = Ret p' /\ p_gen p' = g' /\ p_curr p' <> None
  /\ forall m, incr (m :: live (g_intervals g) (content cm)) -> curr_rep p' None m (live (g_intervals g) (content cm)).
Proof.
  intros Hop Hcm Eb Hg. destruct (proj1 (Forall_lookup _ _) (op_good _ _ Hop) n cm Hcm) as [_ Hin].
  assert (Hlive : live (List.filter (overlaps cm) (g_intervals g)) (content cm) = live (g_intervals g) (content cm)).
  { apply live_ext. intros u Hu. apply list_elem_of_In in Hu. apply overlaps_covered. exact (proj1 (List.Forall_forall _ _) Hin u Hu). }
  unfold use_next. destruct (g_del g').
  - destruct Hg as [Ei Hrep]. exists (mkPopulate g' (Some OnBuf)). split; [reflexivity|]. split; [reflexivity|]. split; [discriminate|]. intros m Hm. unfold curr_rep. cbn.
    exists (chunk_Iterator c (g_bufIter g)). split; [exact Ei|]. split; [exact Hm|]. rewrite Eb. split; [apply wf_filter, (op_wf _ _ Hop)|]. left. exists (content cm). split; [apply Hrep|]. split; [discriminate|].
    symmetry. exact Hlive.
  - destruct Hg as (Ec & Enil & Hrep). rewrite Ec. eexists. split; [reflexivity|]. split; [reflexivity|]. split; [discriminate|]. intros m Hm. unfold curr_rep. cbn.
    rewrite Enil in Eb. rewrite <- Eb, live_nil in Hlive. rewrite <- Hlive in *. split; [exact Hm|]. left. split; [apply Hrep|discriminate].
Qed.

Lemma opened_last g n : opened g n -> g_metas g !! n = None -> generic_next chunk_Iterator ChunkOrIterable blockID g = Ret (false, g).
Proof.
  intros [H1 _ _ H4 H5] Hn. apply lookup_ge_None in Hn. unfold generic_next. destruct (Z.leb_spec (Z.of_nat (length (g_metas g)) - 1) (g_i g)); [|lia]. rewrite orb_true_r. reflexivity.
Qed.

(** *** [Next] *)

(** Nothing is left of the current iterator; [l] is to come from the other chunks,
    after [m], and if there is nothing the bound becomes [M]. *)
Definition between (p : series_iter) (m M : Z) (l : list Z) : Prop :=
  incr (m :: l) /\ m <= M /\ curr_rep p None M [] /\ exists n, opened (p_gen p) n /\ l = pending (g_intervals (p_gen p)) (drop n (g_metas (p_gen p))).

(** What a call on the current iterator leads to, when [rest] comes from the others. *)
Lemma curr_goes_found p p' x l1 n m : same p p' -> opened (p_gen p) n -> curr_rep p' (Some x) x l1 -> incr (m :: x :: l1 ++ pending (g_intervals (p_gen p)) (drop n (g_metas (p_gen p)))) ->
  p_rep p' (Some x) x (l1 ++ pending (g_intervals (p_gen p)) (drop n (g_metas (p_gen p)))).
Proof.
  intros Hs Hop Hr Hl. split; [exact (proj1 (incr_cons_inv _ _ Hl))|]. split; [intros y [= <-]; reflexivity|]. exists n, l1. split; [exact (same_opened p p' n Hs Hop)|].
  rewrite (same_pending p p' n Hs). auto.
Qed.

Lemma p_next_loop k p m M l : between p m M l -> (forall n, opened (p_gen p) n -> length (g_metas (p_gen p)) - n <= k)%nat -> goes p_rep (rloop iter_next_body p) M l.
Proof.
  revert p. induction k as [k IH] using lt_wf_ind. intros p (Hl & HmM & Hr & n & Hop & El) Hk. specialize (Hk n Hop). destruct (g_metas (p_gen p) !! n) as [cm|] eqn:Ecm.
  - destruct (opened_next (p_gen p) n cm Hop Ecm) as (g' & c & Enext & Hop' & Em & Ei & Eb & Hg).
    destruct (use_next_ok p (p_gen p) g' cm c n Hop Ecm Eb Hg) as (p1 & Euse & Egen & Hne & Hrep). pose proof (lookup_lt_Some _ _ _ Ecm) as Hn.
    rewrite (drop_S _ cm n Ecm) in El. cbn [pending flat_map] in El. fold (pending (g_intervals (p_gen p)) (drop (S n) (g_metas (p_gen p)))) in El.
    set (lc := live (g_intervals (p_gen p)) (content cm)) in *. set (rest := pending _ (drop (S n) _)) in *. subst l.
    assert (Hlm : incr (m :: lc)) by (change (m :: lc ++ rest) with ((m :: lc) ++ rest) in Hl; exact (incr_app_l _ _ Hl)).
    pose proof (curr_next p1 None m lc Hne (Hrep m Hlm)) as Hc. unfold curr_goes, goes in Hc.
    assert (Hrest : pending (g_intervals (p_gen p1)) (drop (S n) (g_metas (p_gen p1))) = rest) by (rewrite Egen, Em, Ei; reflexivity).
    assert (Hop1 : opened (p_gen p1) (S n)) by (rewrite Egen; exact Hop').
    assert (Hbody : forall ty p2, returns (curr_Next p1) (ty, p2) -> returns (iter_next_body p) (if bool_decide (ty = ValNone) then inl p2 else inr (ty, p2))).
    { intros ty p2 Hret. unfold p_next_body. eapply returns_bind; [apply returns_lift; exact Enext|]. cbn [negb]. eapply returns_bind; [apply returns_lift; exact Euse|]. cbv beta.
      r_step Hret. apply returns_ret. }
    destruct lc as [|x lc].
    + destruct Hc as (p2 & Hret & Hr2 & Hs). apply Hbody in Hret. rewrite bool_decide_eq_true_2 in Hret by reflexivity.
      assert (Hb2 : between p2 m M rest).
      { split; [exact Hl|]. split; [exact HmM|]. split; [exact (curr_done p2 m M Hr2 HmM)|]. exists (S n). split; [exact (same_opened p1 p2 _ Hs Hop1)|]. rewrite (same_pending p1 p2 _ Hs). symmetry. exact Hrest. }
      assert (Hm2 : g_metas (p_gen p2) = g_metas (p_gen p)) by (destruct Hs as (-> & _); rewrite Egen; exact Em).
      pose proof (IH (length (g_metas (p_gen p)) - S n)%nat ltac:(lia) p2 Hb2) as IHp. cbn [app]. unfold goes in *. rewrite Hm2 in IHp.
      assert (Hn2 : forall n2, opened (p_gen p2) n2 -> (length (g_metas (p_gen p)) - n2 <= length (g_metas (p_gen p)) - S n)%nat).
      { intros n2 H2. pose proof (op_i _ _ H2) as E2. destruct Hs as (_ & E & _). rewrite E, (op_i _ _ Hop1) in E2. lia. }
      specialize (IHp Hn2). destruct rest as [|x rest']; destruct IHp as (s & H1 & H2); exists s; (split; [|exact H2]); [eapply returns_loop_next; eassumption|].
      destruct H1 as (v & H1 & Hat). exists v. split; [eapply returns_loop_next; eassumption|exact Hat].
    + destruct Hc as (p2 & (v & Hret & Hat) & Hr2 & Hs). apply Hbody in Hret. rewrite (bool_decide_eq_false_2 _ (type_of_some v)) in Hret. cbn [app]. exists p2.
      split; [exists v; split; [apply returns_loop_end; exact Hret|exact Hat]|]. rewrite <- Hrest. apply (curr_goes_found p1 p2 x lc (S n) m Hs Hop1 Hr2). rewrite Hrest. exact Hl.
  - pose proof (opened_last (p_gen p) n Hop Ecm) as Enext. apply lookup_ge_None in Ecm. rewrite drop_ge in El by exact Ecm. cbn in El. subst l. exists (mkPopulate (p_gen p) (p_curr p)). split.
    + apply returns_loop_end. unfold p_next_body. eapply returns_bind; [apply returns_lift; exact Enext|]. cbn [negb]. apply returns_ret.
    + split; [repeat constructor|]. split; [discriminate|]. exists n, []. split; [exact Hop|]. cbn [p_gen]. rewrite drop_ge by exact Ecm. split; [reflexivity|]. exact Hr.
Qed.

Lemma goes_bind {X} {o : IterOps X} (R : X -> option Z -> Z -> list Z -> Prop) (r r' : run (ValueType * X)) m l :
  (forall ty s, returns r (ty, s) -> returns r' (ty, s)) -> goes R r m l -> goes R r' m l.
Proof. intros H. unfold goes. destruct l as [|x l]; intros (s & H1 & H2); exists s; (split; [|exact H2]); [auto|]. destruct H1 as (v & H1 & Hat). exists v. auto. Qed.

Lemma next_between p m M l : between p m M l -> goes p_rep (iter_Next p) M l.
Proof.
  intros Hb. destruct (p_curr p) as [c|] eqn:Ec.
  - pose proof Hb as (Hl & HmM & Hr & n & Hop & El). pose proof (curr_next p None M [] ltac:(congruence) Hr) as (p' & Hret & Hr' & Hs).
    assert (Hb' : between p' m M l).
    { split; [exact Hl|]. split; [exact HmM|]. split; [exact Hr'|]. exists n. split; [exact (same_opened p p' n Hs Hop)|]. rewrite (same_pending p p' n Hs). exact El. }
    apply (goes_bind _ (rloop iter_next_body p')); [|exact (p_next_loop _ p' m M l Hb' (fun n _ => Nat.le_sub_l _ _))].
    intros ty s H. unfold p_Next. rewrite Ec. r_step Hret. rewrite bool_decide_eq_true_2 by reflexivity. exact H.
  - apply (goes_bind _ (rloop iter_next_body p)); [|exact (p_next_loop _ p m M l Hb (fun n _ => Nat.le_sub_l _ _))]. intros ty s H. unfold p_Next. rewrite Ec. exact H.
Qed.

(** A representation without a current sample in the current iterator. *)
Lemma rep_between p p' n m M l1 : same p p' -> opened (p_gen p) n -> curr_rep p' None M [] -> m <= M -> incr (m :: l1 ++ pending (g_intervals (p_gen p)) (drop n (g_metas (p_gen p)))) ->
  between p' m M (pending (g_intervals (p_gen p)) (drop n (g_metas (p_gen p)))).
Proof.
  intros Hs Hop Hr HmM Hl. split; [exact (incr_app_r l1 _ m Hl)|]. split; [exact HmM|]. split; [exact Hr|]. exists n. split; [exact (same_opened p p' n Hs Hop)|]. rewrite (same_pending p p' n Hs). reflexivity.
Qed.

Lemma p_next_ok p cur m l : p_rep p cur m l -> goes p_rep (iter_Next p) m l.
Proof.
  intros (Hl & Hcur & n & l1 & Hop & -> & Hr). destruct (p_curr p) as [c|] eqn:Ec.
  - pose proof (curr_next p cur m l1 ltac:(congruence) Hr) as Hc. destruct l1 as [|x l1].
    + destruct Hc as (p' & Hret & Hr' & Hs). pose proof (rep_between p p' n m m [] Hs Hop Hr' (Z.le_refl m) Hl) as Hb.
      apply (goes_bind _ (rloop iter_next_body p')); [|exact (p_next_loop _ p' m m _ Hb (fun n _ => Nat.le_sub_l _ _))].
      intros ty s H. unfold p_Next. rewrite Ec. r_step Hret. rewrite bool_decide_eq_true_2 by reflexivity. exact H.
    + destruct Hc as (p' & (v & Hret & Hat) & Hr' & Hs). exists p'. split; [|exact (curr_goes_found p p' x l1 n m Hs Hop Hr' Hl)]. exists v. split; [|exact Hat].
      unfold p_Next. rewrite Ec. r_step Hret. rewrite (bool_decide_eq_false_2 _ (type_of_some v)). apply returns_ret.
  - unfold curr_rep in Hr. rewrite Ec in Hr. destruct Hr as [-> ->]. apply (next_between p m m). split; [exact Hl|]. split; [lia|]. split; [unfold curr_rep; rewrite Ec; auto|]. eauto.
Qed.

(** *** [Seek] *)

Lemma p_seek_loop t k : forall p m l, (length l <= k)%nat -> between p m t l -> goes p_rep (rloop (iter_seek_body t) p) t (drop_lt t l).
Proof.
  induction k as [k IH] using lt_wf_ind. intros p m l Hk Hb. pose proof (next_between p m t l Hb) as Hn. destruct l as [|x l].
  - destruct Hn as (p' & Hret & Hr). exists p'. split; [|exact Hr]. apply returns_loop_end. unfold p_seek_body. r_step Hret. rewrite bool_decide_eq_true_2 by reflexivity. apply returns_ret.
  - destruct Hn as (p' & (v & Hret & _) & (Hl & _ & n & l1 & Hop & El & Hr)). assert (Hne : p_curr p' <> None) by (intros E; unfold curr_rep in Hr; rewrite E in Hr; destruct Hr; discriminate).
    assert (Hbody : forall ty p2, returns (curr_Seek t p') (ty, p2) -> returns (iter_seek_body t p) (if bool_decide (ty = ValNone) then inl p2 else inr (ty, p2))).
    { intros ty p2 H. unfold p_seek_body. r_step Hret. rewrite (bool_decide_eq_false_2 _ (type_of_some v)). r_step H. apply returns_ret. }
    set (rest := pending _ _) in El. assert (Hfound : forall m' y r, incr (m' :: y :: r ++ rest) -> curr_goes p' (curr_Seek t p') t (y :: r) -> goes p_rep (rloop (iter_seek_body t) p) t (y :: r ++ rest)).
    { intros m' y r Hy (p2 & (w & Hret2 & Hat2) & Hr2 & Hs2). exists p2. apply Hbody in Hret2. rewrite (bool_decide_eq_false_2 _ (type_of_some w)) in Hret2.
      split; [exists w; split; [apply returns_loop_end; exact Hret2|exact Hat2]|]. exact (curr_goes_found p' p2 y r n m' Hs2 Hop Hr2 Hy). }
    subst l. destruct (Z.le_gt_cases t x) as [Hle|Hgt].
    + rewrite drop_lt_head_le by exact Hle. apply (Hfound (x - 1)); [apply incr_low with (c := x) (d := x - 1) in Hl; [exact Hl|lia]|]. exact (curr_stay p' x l1 t Hne Hr Hle).
    + rewrite drop_lt_head_gt by exact Hgt. pose proof (curr_seek p' (Some x) x l1 t Hne Hr Hgt) as Hc. rewrite drop_lt_app. pose proof (drop_lt_suffix t l1) as (pre & Epre & _). destruct (drop_lt t l1) as [|y r] eqn:Ed.
      * destruct Hc as (p2 & Hret2 & Hr2 & Hs2). apply Hbody in Hret2. rewrite bool_decide_eq_true_2 in Hret2 by reflexivity.
        pose proof (rep_between p' p2 n x t l1 Hs2 Hop Hr2 ltac:(lia) Hl) as Hb2. cbn [length] in Hk. rewrite length_app in Hk.
        specialize (IH (length rest) ltac:(lia) p2 x rest (le_n _) Hb2). apply (goes_bind _ (rloop (iter_seek_body t) p2)); [|exact IH]. intros ty s H. eapply returns_loop_next; eassumption.
      * apply (Hfound x); [|exact Hc]. rewrite Epre, <- app_assoc in Hl. cbn [app] in Hl. exact (incr_app_r pre _ x Hl).
Qed.

Lemma p_seek_ok p cur m l t : p_rep p cur m l -> m < t -> goes p_rep (iter_Seek t p) t (drop_lt t l).
Proof.
  intros (Hl & Hcur & n & l1 & Hop & -> & Hr) Ht. destruct (p_curr p) as [c|] eqn:Ec.
  - pose proof (curr_seek p cur m l1 t ltac:(congruence) Hr Ht) as Hc. rewrite drop_lt_app. pose proof (drop_lt_suffix t l1) as (pre & Epre & _). destruct (drop_lt t l1) as [|y r] eqn:Ed.
    + destruct Hc as (p' & Hret & Hr' & Hs). pose proof (rep_between p p' n m t l1 Hs Hop Hr' ltac:(lia) Hl) as Hb.
      apply (goes_bind _ (rloop (iter_seek_body t) p')); [|exact (p_seek_loop t _ p' m _ (le_n _) Hb)].
      intros ty s H. unfold p_Seek. rewrite Ec. r_step Hret. rewrite bool_decide_eq_true_2 by reflexivity. exact H.
    + destruct Hc as (p' & (v & Hret & Hat) & Hr' & Hs). exists p'. split; [exists v; split; [|exact Hat]|].
      * unfold p_Seek. rewrite Ec. r_step Hret. rewrite (bool_decide_eq_false_2 _ (type_of_some v)). apply returns_ret.
      * apply (curr_goes_found p p' y r n m Hs Hop Hr'). rewrite Epre, <- app_assoc in Hl. exact (incr_app_r pre _ m Hl).
  - pose proof Hr as Hr0. unfold curr_rep in Hr. rewrite Ec in Hr. destruct Hr as [-> ->]. apply (goes_bind _ (rloop (iter_seek_body t) p)); [intros ty s H; unfold p_Seek; rewrite Ec; exact H|].
    apply (p_seek_loop t _ p m _ (le_n _)). split; [exact Hl|]. split; [lia|]. split; [unfold curr_rep; rewrite Ec; auto|]. eauto.
Qed.

Lemma p_seek_stay p x m l t : p_rep p (Some x) m l -> t <= x -> exists p', found (iter_Seek t p) p' x /\ p_rep p' (Some x) m l.
Proof.
  intros (Hl & Hcur & n & l1 & Hop & -> & Hr) Ht. pose proof (Hcur x eq_refl) as ->. assert (Hne : p_curr p <> None) by (intros E; unfold curr_rep in Hr; rewrite E in Hr; destruct Hr; discriminate).
  destruct (curr_stay p x l1 t Hne Hr Ht) as (p' & (v & Hret & Hat) & Hr' & Hs). exists p'. split.
  - exists v. split; [|exact Hat]. unfold p_Seek. destruct (p_curr p); [|contradiction]. r_step Hret. rewrite (bool_decide_eq_false_2 _ (type_of_some v)). apply returns_ret.
  - apply (curr_goes_found p p' x l1 n (x - 1) Hs Hop Hr'). apply incr_low; [exact Hl|lia].
Qed.

Lemma p_wf p cur m l : p_rep p cur m l -> incr (m :: l) /\ (forall x, cur = Some x -> m = x).
Proof. intros (H1 & H2 & _). auto. Qed.

Lemma p_err p cur m l : p_rep p cur m l -> p_Err p = None.
Proof.
  intros (_ & _ & n & l1 & Hop & _ & Hr). unfold p_Err, p_inner. rewrite (op_err _ _ Hop). unfold curr_rep in Hr. destruct (p_curr p) as [[|it]|]; [| |reflexivity].
  - destruct Hr as (it & -> & Hr). exact (d_err _ _ _ _ Hr).
  - exact (chunk_err _ _ _ _ Hr).
Qed.

Lemma p_at p x m l : p_rep p (Some x) m l -> p_AtT p = Ret x /\ exists v, p_At p = Ret (x, v) /\ P (x, v).
Proof.
  intros (_ & _ & n & l1 & _ & _ & Hr). unfold p_AtT, p_At, p_inner. unfold curr_rep in Hr. destruct (p_curr p) as [[|it]|]; [| |destruct Hr; discriminate].
  - destruct Hr as (it & -> & Hr). exact (d_at _ _ _ _ Hr).
  - exact (chunk_at _ _ _ _ Hr).
Qed.

Lemma p_done p m m' : p_rep p None m [] -> m <= m' -> p_rep p None m' [].
Proof.
  intros (_ & _ & n & l1 & Hop & El & Hr) Hm. split; [repeat constructor|]. split; [discriminate|]. exists n, l1. split; [exact Hop|]. split; [exact El|].
  destruct l1; [|discriminate]. exact (curr_done p m m' Hr Hm).
Qed.

Definition populate_ok : IterOK P series_iter := {|
  IRep := p_rep; irep_wf := p_wf; irep_err := p_err; irep_at := p_at;
  inext_cons p cur m x l := p_next_ok p cur m (x :: l); inext_nil p cur m := p_next_ok p cur m [];
  iseek_stay := p_seek_stay; iseek_fwd := p_seek_ok; irep_done := p_done |}.
End populate.

(** ** The chunks and deletions that are picked *)

Definition wf_meta (cm : Meta) : Prop := is_i64 (MinTime cm) /\ is_i64 (MaxTime cm).

Section trim.
Variables (mint maxt : Z) (ivs : Intervals).
Hypothesis ivs_wf : wf_intervals ivs.
Hypothesis range_wf : is_i64 mint /\ is_i64 maxt /\ mint <= maxt.

(** The chunk is read. *)
Definition kept_chunk (cm : Meta) : bool := negb ((MaxTime cm <? mint) || (maxt <? MinTime cm) || IsSubrange (mkInterval (MinTime cm) (MaxTime cm)) ivs).
Definition cut_front (cm : Meta) : bool := kept_chunk cm && (MinTime cm <? mint).
Definition cut_back (cm : Meta) : bool := kept_chunk cm && (maxt <? MaxTime cm).

Lemma pick_chunks l acc tf tb : fold_left (pick_chunk mint maxt false ivs) l (acc, tf, tb) = (acc ++ List.filter kept_chunk l, tf || existsb cut_front l, tb || existsb cut_back l).
Proof.
  revert acc tf tb. induction l as [|cm l IH]; intros acc tf tb; cbn [fold_left List.filter existsb]; [rewrite app_nil_r, !orb_false_r; reflexivity|].
  assert (E : pick_chunk mint maxt false ivs (acc, tf, tb) cm = if kept_chunk cm then (acc ++ [cm], tf || (MinTime cm <? mint), tb || (maxt <? MaxTime cm)) else (acc, tf, tb)).
  { unfold kept_chunk. cbn [pick_chunk]. destruct (_ || _ || _); reflexivity. }
  rewrite E. change (cut_front cm) with (kept_chunk cm && (MinTime cm <? mint)). change (cut_back cm) with (kept_chunk cm && (maxt <? MaxTime cm)). destruct (kept_chunk cm); rewrite IH; [|reflexivity]. rewrite <- app_assoc, !orb_assoc. reflexivity.
Qed.

(** The timestamps that the query asks for. *)
Definition asked (t : Z) : bool := (mint <=? t) && (t <=? maxt) && negb (covered ivs t).

Lemma subrange_covered cm t : IsSubrange (mkInterval (MinTime cm) (MaxTime cm)) ivs = true -> MinTime cm <= t <= MaxTime cm -> covered ivs t = true.
Proof.
  clear. unfold covered. induction ivs as [|iv l IH]; [discriminate|]. cbn [IsSubrange existsb Mint Maxt]. intros H Ht. destruct (InBounds iv (MinTime cm) && InBounds iv (MaxTime cm)) eqn:E; [|rewrite (IH H Ht); apply orb_true_r].
  assert (E' : InBounds iv t = true); [|rewrite E'; reflexivity]. unfold InBounds in *. rewrite !andb_true_iff, !Z.leb_le in *. lia.
Qed.

(** The intervals with what lies outside of the range, where chunks must be cut. *)
Definition cut_covers (tf tb : bool) (ivs' : Intervals) : Prop :=
  wf_intervals ivs' /\ forall t, is_i64 t -> covered ivs' t = covered ivs t || (tf && (t <? mint)) || (tb && (maxt <? t)).

Definition pending_asked (content : Meta -> list Z) (metas : list Meta) : list Z := List.filter asked (flat_map content metas).

Lemma pending_kept content metas ivs' tf tb : Forall wf_meta metas -> Forall (fun cm => Forall (fun t => MinTime cm <= t <= MaxTime cm) (content cm)) metas ->
  (forall cm, cm ∈ metas -> cut_front cm = true -> tf = true) -> (forall cm, cm ∈ metas -> cut_back cm = true -> tb = true) -> cut_covers tf tb ivs' ->
  pending content ivs' (List.filter kept_chunk metas) = pending_asked content metas.
Proof.
  intros Hw Hin Hf Hb [_ Hcov]. unfold pending_asked. induction metas as [|cm metas IH]; [reflexivity|]. apply Forall_cons in Hw as [[Hw1 Hw2] Hw]. apply Forall_cons in Hin as [Hin1 Hin].
  specialize (IH Hw Hin (fun c Hc => Hf c (list_elem_of_further _ _ _ Hc)) (fun c Hc => Hb c (list_elem_of_further _ _ _ Hc))).
  cbn [List.filter flat_map]. rewrite List.filter_app, <- IH. rewrite List.Forall_forall in Hin1. destruct (kept_chunk cm) eqn:Ek.
  - cbn [pending flat_map]. f_equal. unfold live. apply filter_ext_in. intros t Ht. specialize (Hin1 t Ht). unfold asked. rewrite Hcov by (unfold is_i64 in *; lia).
    specialize (Hf cm ltac:(left)). specialize (Hb cm ltac:(left)). unfold cut_front in Hf. unfold cut_back in Hb. rewrite Ek in Hf, Hb. cbn [andb] in Hf, Hb.
    destruct (Z.ltb_spec t mint), (Z.ltb_spec maxt t), (Z.leb_spec mint t), (Z.leb_spec t maxt); try lia; rewrite ?andb_false_r, ?andb_true_r, ?orb_false_r; cbn [andb]; try reflexivity.
    + rewrite Hf by (apply Z.ltb_lt; lia). rewrite !orb_true_r. reflexivity.
    + rewrite Hb by (apply Z.ltb_lt; lia). rewrite orb_true_r. reflexivity.
  - enough (E' : List.filter asked (content cm) = []) by (rewrite E'; reflexivity).
    assert (E : forall t, In t (content cm) -> asked t = false).
    { intros t Ht. specialize (Hin1 t Ht). unfold asked. unfold kept_chunk in Ek. apply negb_false_iff in Ek. apply orb_true_iff in Ek as [Ek|Ek].
      - apply orb_true_iff in Ek as [Ek|Ek]; apply Z.ltb_lt in Ek; destruct (Z.leb_spec mint t), (Z.leb_spec t maxt); try lia; reflexivity.
      - rewrite (subrange_covered cm t Ek Hin1). apply andb_false_r. }
    clear -E. induction (content cm) as [|t l IHl]; [reflexivity|]. cbn. rewrite (E t (or_introl eq_refl)). apply IHl. intros u Hu. apply E. right. exact Hu.
Qed.

Lemma covered_interval iv t : covered [iv] t = InBounds iv t.
Proof. unfold covered. cbn. apply orb_false_r. Qed.

(** [Add], with coverage as a test. *)
Lemma Add_covered l n out : wf_intervals l -> wf_interval n -> Add l n = Ret out -> wf_intervals out /\ forall t, covered out t = covered l t || InBounds n t.
Proof.
  intros Hl Hn E. destruct (Add_result l n out Hl Hn E) as [Hw Hc]. split; [exact Hw|]. intros t. apply eq_true_iff_eq. rewrite orb_true_iff, !covered_covers, Hc.
  unfold InBounds. rewrite andb_true_iff, !Z.leb_le. reflexivity.
Qed.

Lemma add_front tf : (tf = true -> MinInt64 < mint) -> exists out, (if tf then Add ivs (mkInterval MinInt64 (mint - 1)) else Ret ivs) = Ret out /\ cut_covers tf false out.
Proof.
  intros Hf. destruct tf; [|exists ivs; split; [reflexivity|]; split; [exact ivs_wf|]; intros t _; cbn; rewrite !orb_false_r; reflexivity].
  specialize (Hf eq_refl). assert (Hn : wf_interval (mkInterval MinInt64 (mint - 1))) by (repeat split; unfold is_i64, MinInt64 in *; cbn; zlia).
  destruct (Add ivs (mkInterval MinInt64 (mint - 1))) as [out|] eqn:E.
  - exists out. split; [reflexivity|]. destruct (Add_covered _ _ _ ivs_wf Hn E) as [Hw Hc]. split; [exact Hw|]. intros t Ht. rewrite Hc. unfold InBounds. cbn [Mint Maxt andb]. rewrite !orb_false_r. f_equal.
    unfold is_i64, MinInt64 in *. destruct (Z.leb_spec (-2 ^ 63) t), (Z.leb_spec t (mint - 1)), (Z.ltb_spec t mint); try lia; reflexivity.
  - apply Add_panics in E; [|exact ivs_wf|exact Hn]. cbn in E. destruct E as (E & _). unfold is_i64, MaxInt64 in *. zlia.
Qed.

(** The only interval that ends at the largest timestamp is that of the end of the range. *)
Lemma add_back tf tb l : (tb = true -> maxt < MaxInt64) -> cut_covers tf false l ->
  match (if tb then Add l (mkInterval (maxt + 1) MaxInt64) else Ret l) with
  | Ret out => cut_covers tf tb out
  | Panic => tb = true /\ exists iv, iv ∈ ivs /\ maxt <= Maxt iv
  end.
Proof.
  intros Hb [Hw Hc]. destruct tb; [|split; assumption]. specialize (Hb eq_refl).
  assert (Hn : wf_interval (mkInterval (maxt + 1) MaxInt64)) by (repeat split; unfold is_i64, MaxInt64 in *; cbn; zlia). destruct (Add l (mkInterval (maxt + 1) MaxInt64)) as [out|] eqn:E.
  - destruct (Add_covered _ _ _ Hw Hn E) as [Hw' Hc']. split; [exact Hw'|]. intros t Ht. rewrite Hc', (Hc t Ht). unfold InBounds. cbn [Mint Maxt andb]. rewrite !orb_false_r. f_equal.
    unfold is_i64, MaxInt64 in *. destruct (Z.leb_spec (maxt + 1) t), (Z.leb_spec t (2 ^ 63 - 1)), (Z.ltb_spec maxt t); try lia; reflexivity.
  - apply Add_panics in E; [|exact Hw|exact Hn]. destruct E as (_ & _ & b & Hin & Hle). cbn in Hle. split; [reflexivity|].
    assert (Hb64 : is_i64 (Maxt b) /\ Mint b <= Maxt b) by (destruct Hw as [_ Hw]; pose proof (proj1 (List.Forall_forall _ _) Hw b Hin) as (_ & ? & ?); auto).
    assert (Hcb : covered l (Maxt b) = true) by (unfold covered; apply existsb_exists; exists b; split; [exact Hin|]; unfold InBounds; apply andb_true_iff; split; apply Z.leb_le; lia).
    rewrite (Hc _ (proj1 Hb64)) in Hcb. cbn [andb] in Hcb. rewrite orb_false_r in Hcb. destruct (Z.ltb_spec (Maxt b) mint); [lia|]. rewrite andb_false_r, orb_false_r in Hcb.
    apply existsb_exists in Hcb as (iv & Hiv & Hbd). exists iv. apply list_elem_of_In in Hiv. split; [exact Hiv|]. unfold InBounds in Hbd. apply andb_true_iff in Hbd as [_ Hbd]. apply Z.leb_le in Hbd. lia.
Qed.

(** What the query of one series reads, or why it panics. *)
Lemma trim_series_spec content metas : Forall wf_meta metas -> Forall (fun cm => Forall (fun t => MinTime cm <= t <= MaxTime cm) (content cm)) metas ->
  match trim_series mint maxt false metas ivs with
  | Ret None => pending_asked content metas = []
  | Ret (Some (chks, ivs')) => wf_intervals ivs' /\ pending content ivs' chks = pending_asked content metas /\ (forall cm, cm ∈ chks -> cm ∈ metas)
  | Panic => (exists cm, cm ∈ metas /\ maxt < MaxTime cm) /\ exists iv, iv ∈ ivs /\ maxt <= Maxt iv
  end.
Proof.
  intros Hw Hin. unfold trim_series. rewrite pick_chunks. cbn [app orb]. set (tf := existsb cut_front metas). set (tb := existsb cut_back metas).
  assert (Hcut : forall (f : Meta -> bool) cm, cm ∈ metas -> f cm = true -> existsb f metas = true) by (intros f cm Hcm E; apply existsb_exists; exists cm; split; [apply list_elem_of_In; exact Hcm|exact E]).
  assert (Htf : tf = true -> MinInt64 < mint).
  { intros E. apply existsb_exists in E as (cm & Hcm & E). apply andb_true_iff in E as [_ E]. apply Z.ltb_lt in E. pose proof (proj1 (List.Forall_forall _ _) Hw cm Hcm) as [[] _]. unfold MinInt64. lia. }
  assert (Htb : tb = true -> exists cm, cm ∈ metas /\ maxt < MaxTime cm).
  { intros E. apply existsb_exists in E as (cm & Hcm & E). apply andb_true_iff in E as [_ E]. apply Z.ltb_lt in E. exists cm. split; [apply list_elem_of_In; exact Hcm|exact E]. }
  assert (Htb' : tb = true -> maxt < MaxInt64).
  { intros E. destruct (Htb E) as (cm & Hcm & Hlt). apply list_elem_of_In in Hcm. pose proof (proj1 (List.Forall_forall _ _) Hw cm Hcm) as [_ []]. unfold MaxInt64. lia. }
  destruct (add_front tf Htf) as (l & Ef & Hl). pose proof (add_back tf tb l Htb' Hl) as Hb.
  assert (Hpend : forall out, cut_covers tf tb out -> pending content out (List.filter kept_chunk metas) = pending_asked content metas).
  { intros out Ho. apply (pending_kept content metas out tf tb Hw Hin); [intros cm Hcm; exact (Hcut cut_front cm Hcm)|intros cm Hcm; exact (Hcut cut_back cm Hcm)|exact Ho]. }
  destruct (List.filter kept_chunk metas) as [|c chks] eqn:Ek.
  - assert (Hno : forall cm, In cm metas -> kept_chunk cm = false).
    { intros cm Hcm. destruct (kept_chunk cm) eqn:E; [|reflexivity]. assert (Hc : In cm (List.filter kept_chunk metas)) by (apply filter_In; auto). rewrite Ek in Hc. destruct Hc. }
    assert (Etb : tb = false) by (apply not_true_is_false; intros E; apply existsb_exists in E as (cm & Hcm & E); unfold cut_back in E; rewrite (Hno cm Hcm) in E; discriminate).
    rewrite <- (Hpend l); [reflexivity|]. rewrite Etb. exact Hl.
  - rewrite Ef. cbn [outcome_bind]. destruct (if tb then Add l (mkInterval (maxt + 1) MaxInt64) else Ret l) as [out|] eqn:Eb; cbn [outcome_bind].
    + split; [exact (proj1 Hb)|]. split; [exact (Hpend out Hb)|]. intros cm Hcm. rewrite <- Ek in Hcm. apply list_elem_of_In, filter_In in Hcm as [Hcm _]. apply list_elem_of_In. exact Hcm.
    + destruct Hb as [Et Hb]. split; [exact (Htb Et)|exact Hb].
Qed.
End trim.
