(* ===== verification/BlockSeries.v ===== *)
(** * The series of a block, read to the end

    Reading all series of a [blockBaseSeriesSet] over XOR chunks gives, for the
    series of the postings, the samples in range that are not deleted, or panics on the
    deletions of a series that is cut at the end of the range. *)
From stdpp Require Import base list numbers strings gmap.
From Stdlib Require Import ZArith Lia Sorted.
From S2P Require Import Prelude Bstream XorChunk Tombstones Postings Index SampleIter DeletedIter XorIter BlockQuery BlockQuerySpec.

(** With enough fuel the code panics. *)
Definition panics {A} (m : run A) : Prop := yields m Panic.

Lemma panics_bind {A B} (m : run A) (k : A -> run B) : panics m -> panics (rbind m k).
Proof. intros [N H]. exists N. intros n Hn. unfold rbind. rewrite H by lia. reflexivity. Qed.

Lemma panics_bind_later {A B} (m : run A) (k : A -> run B) a : returns m a -> panics (k a) -> panics (rbind m k).
Proof. intros [N1 H1] [N2 H2]. exists (N1 + N2)%nat. intros n Hn. unfold rbind. rewrite H1 by lia. apply H2. lia. Qed.

Lemma panics_loop {S R} (body : S -> run (S + R)) s : panics (body s) -> panics (rloop body s).
Proof. intros [N H]. exists (Datatypes.S N). intros [|n] Hn; [lia|]. cbn [rloop]. rewrite H by lia. reflexivity. Qed.

Lemma panics_loop_next {S R} (body : S -> run (S + R)) s s' : returns (body s) (inl s') -> panics (rloop body s') -> panics (rloop body s).
Proof. intros [N1 H1] [N2 H2]. exists (Datatypes.S (N1 + N2)). intros [|n] Hn; [lia|]. cbn [rloop]. rewrite H1 by lia. apply H2. lia. Qed.

Lemma returns_not_panics {A} (m : run A) a : returns m a -> ~ panics m.
Proof. intros H1 H2. discriminate (yields_det _ _ _ H1 H2). Qed.

(** [for set.Next() { ... set.At() ... }] *)
Section read_all.
Context {L S : Type} {post : PostingsOps S}.
Variable Series : Z -> series_result L.
Variable tombstones_Get : Z -> string + Intervals.
Variables (mint maxt : Z) (disableTrimming : bool).

Definition read_body (s : list (@seriesData L) * @blockBaseSeriesSet L S) : run (list (@seriesData L) * @blockBaseSeriesSet L S + list (@seriesData L) * @blockBaseSeriesSet L S) :=
  let '(acc, b) := s in
  do (ok, b) <- b_Next Series tombstones_Get mint maxt disableTrimming b ;;
  if ok : bool then match b_curr b with Some sd => rret (inl (acc ++ [sd], b)) | None => rlift Panic end else rret (inr (acc, b)).
Definition read_all (b : @blockBaseSeriesSet L S) : run (list (@seriesData L) * @blockBaseSeriesSet L S) := rloop read_body ([], b).
End read_all.

Section block_series.
Context {maxref : Z} {L S : Type} {post : PostingsOps S} {POK : PostingsOK maxref S}.
Variable Series : Z -> series_result L.
Variable Get : Z -> Intervals.
Variables (mint maxt : Z) (dt : bool).
#[local] Abbreviation set_body := (b_body Series (fun ref => inr (Get ref)) mint maxt dt).
#[local] Abbreviation set_Next := (b_Next Series (fun ref => inr (Get ref)) mint maxt dt).

(** What is read of one series. *)
Definition entry (ref : Z) : option (@seriesData L) :=
  match Series ref with
  | SeriesFound lset chks => match trim_series mint maxt dt chks (Get ref) with Ret (Some (chks, ivs)) => Some (mkSeriesData chks ivs lset) | _ => None end
  | _ => None
  end.

Definition entries (refs : list Z) : list (@seriesData L) := flat_map (fun ref => option_list (entry ref)) refs.

(** The index finds the series or not, and the intervals can be added. *)
Definition readable (ref : Z) : Prop :=
  match Series ref with SeriesFound lset chks => trim_series mint maxt dt chks (Get ref) <> Panic | SeriesError _ => False | SeriesNotFound => True end.

(** The intervals of the series cannot be added. *)
Definition unaddable (ref : Z) : Prop :=
  match Series ref with SeriesFound _ chks => trim_series mint maxt dt chks (Get ref) = Panic | _ => False end.

(** Where the reading stops: at the end, or at a series whose intervals cannot be added. *)
Definition stops (tail : list Z) : Prop := match tail with [] => True | x :: _ => unaddable x end.

Lemma split_readable refs : (forall ref, ref ∈ refs -> match Series ref with SeriesError _ => False | _ => True end) ->
  exists l tail, refs = l ++ tail /\ (forall x, x ∈ l -> readable x) /\ stops tail.
Proof.
  induction refs as [|x refs IH]; intros Hc; [exists [], []; split; [reflexivity|]; split; [intros x Hx; apply not_elem_of_nil in Hx as []|exact I]|].
  assert (Hx : readable x \/ unaddable x).
  { specialize (Hc x ltac:(left)). unfold readable, unaddable. destruct (Series x) as [|e|lset chks]; [left; exact I|contradiction|]. destruct (trim_series mint maxt dt chks (Get x)); [left; discriminate|right; reflexivity]. }
  destruct Hx as [Hx|Hx]; [|exists [], (x :: refs); split; [reflexivity|]; split; [intros y Hy; apply not_elem_of_nil in Hy as []|exact Hx]].
  destruct IH as (l & tail & -> & Hl & Ht); [intros ref H; apply Hc; right; exact H|]. exists (x :: l), tail. split; [reflexivity|]. split; [|exact Ht].
  intros y Hy. apply elem_of_cons in Hy as [->|Hy]; [exact Hx|apply Hl; exact Hy].
Qed.

(** One turn of the loop, at a reference. *)
Lemma body_step p c x l (b : @blockBaseSeriesSet L S) : Rep p c c (x :: l) -> b_p b = p -> readable x ->
  exists p', Rep p' x x l /\ returns (set_body b) (match entry x with Some sd => inr (true, mkSeriesSet p' (Some sd) (b_err b)) | None => inl (mkSeriesSet p' (b_curr b) (b_err b)) end).
Proof.
  intros Hr Hp Hok. destruct (next_cons p c c x l Hr) as (p' & Hn & Hr' & Hat). exists p'. split; [exact Hr'|]. unfold b_body. eapply returns_bind.
  { destruct Hn as [N Hn]. exists N. intros n Hge. rewrite Hp, (Hn n Hge). reflexivity. }
  cbv beta iota. cbn [negb]. rewrite Hat. unfold entry, readable in *. destruct (Series x) as [|e|lset chks]; [apply returns_ret|contradiction|].
  destruct chks as [|c0 chks]; [apply returns_ret|]. eapply returns_bind with (a := match trim_series mint maxt dt (c0 :: chks) (Get x) with Ret r => r | Panic => None end);
    [apply returns_lift; destruct (trim_series mint maxt dt (c0 :: chks) (Get x)); [reflexivity|contradiction]|].
  destruct (trim_series mint maxt dt (c0 :: chks) (Get x)) as [[[chks' ivs]|]|]; apply returns_ret.
Qed.

Lemma body_panics p c x l (b : @blockBaseSeriesSet L S) : Rep p c c (x :: l) -> b_p b = p -> unaddable x -> panics (set_body b).
Proof.
  intros Hr Hp Hbad. destruct (next_cons p c c x l Hr) as (p' & Hn & Hr' & Hat). unfold b_body. eapply panics_bind_later.
  { destruct Hn as [N Hn]. exists N. intros n Hge. rewrite Hp, (Hn n Hge). reflexivity. }
  cbv beta iota. cbn [negb]. rewrite Hat. unfold unaddable in Hbad. destruct (Series x) as [|e|lset chks]; [contradiction|contradiction|].
  destruct chks as [|c0 chks]; [discriminate Hbad|]. apply panics_bind. rewrite Hbad. apply yields_ret.
Qed.

Lemma body_end p c m (b : @blockBaseSeriesSet L S) : Rep p c m [] -> b_p b = p ->
  exists p' c' m', Rep p' c' m' [] /\ returns (set_body b) (inr (false, mkSeriesSet p' (b_curr b) (b_err b))).
Proof.
  intros Hr Hp. destruct (next_nil p c m Hr) as (p' & c' & m' & Hn & Hr' & _). exists p', c', m'. split; [exact Hr'|]. unfold b_body. eapply returns_bind.
  { destruct Hn as [N Hn]. exists N. intros n Hge. rewrite Hp, (Hn n Hge). reflexivity. }
  cbv beta iota. cbn [negb]. apply returns_ret.
Qed.

Lemma rep_live (p : S) c m x l : Rep p c m (x :: l) -> m = c.
Proof. intros H. destruct (rep_wf _ _ _ _ H) as (_ & Hm & _). apply Hm. discriminate. Qed.

(** [Next] goes to the next series of which something is read. *)
Lemma series_next tail l : forall p c m (b : @blockBaseSeriesSet L S), stops tail -> Rep p c m (l ++ tail) -> b_p b = p -> b_err b = None -> (forall x, x ∈ l -> readable x) ->
  match entries l with
  | sd :: sds => exists p' x l', returns (set_Next b) (true, mkSeriesSet p' (Some sd) None) /\ Rep p' x x (l' ++ tail) /\ entries l' = sds /\ (forall y, y ∈ l' -> readable y) /\ (length l' < length l)%nat
  | [] => match tail with
          | [] => exists p' c' m' cur, returns (set_Next b) (false, mkSeriesSet p' cur None) /\ Rep p' c' m' []
          | _ :: _ => panics (set_Next b)
          end
  end.
Proof.
  induction l as [|x l IH]; intros p c m b Ht Hr Hp He Hok.
  - cbn [entries flat_map app] in *. destruct tail as [|x tail].
    + destruct (body_end p c m b Hr Hp) as (p' & c' & m' & Hr' & Hb). exists p', c', m', (b_curr b). split; [|exact Hr']. rewrite <- He. apply returns_loop_end. exact Hb.
    + pose proof (rep_live p c m x tail Hr) as ->. apply panics_loop. exact (body_panics p c x tail b Hr Hp Ht).
  - pose proof (rep_live p c m x (l ++ tail) Hr) as ->. destruct (body_step p c x (l ++ tail) b Hr Hp (Hok x ltac:(left))) as (p' & Hr' & Hb). cbn [entries flat_map]. destruct (entry x) as [sd|]; cbn [option_list app].
    + exists p', x, l. split; [rewrite <- He; apply returns_loop_end; exact Hb|]. split; [exact Hr'|]. split; [reflexivity|]. split; [intros y Hy; apply Hok; right; exact Hy|cbn; lia].
    + specialize (IH p' x x (mkSeriesSet p' (b_curr b) (b_err b)) Ht Hr' eq_refl He (fun y Hy => Hok y (list_elem_of_further _ _ _ Hy))).
      fold (entries l). destruct (entries l) as [|sd sds].
      * destruct tail as [|z tail]; [|eapply panics_loop_next; eassumption]. destruct IH as (p2 & c2 & m2 & cur & Hret & Hr2). exists p2, c2, m2, cur. split; [eapply returns_loop_next; eassumption|exact Hr2].
      * destruct IH as (p2 & y & l' & Hret & Hr2 & Hsds & Hok2 & Hlen). exists p2, y, l'. split; [eapply returns_loop_next; eassumption|]. split; [exact Hr2|]. split; [exact Hsds|]. split; [exact Hok2|cbn; lia].
Qed.

#[local] Abbreviation read_loop_body := (read_body Series (fun ref => inr (Get ref)) mint maxt dt).

Lemma read_loop tail k : forall l p c m (b : @blockBaseSeriesSet L S) acc, (length l <= k)%nat -> stops tail -> Rep p c m (l ++ tail) -> b_p b = p -> b_err b = None -> (forall x, x ∈ l -> readable x) ->
  match tail with
  | [] => exists b', returns (rloop read_loop_body (acc, b)) (acc ++ entries l, b') /\ b_Err b' = None
  | _ :: _ => panics (rloop read_loop_body (acc, b))
  end.
Proof.
  induction k as [k IH] using lt_wf_ind. intros l p c m b acc Hk Ht Hr Hp He Hok. pose proof (series_next tail l p c m b Ht Hr Hp He Hok) as Hn. destruct (entries l) as [|sd sds] eqn:El.
  - destruct tail as [|x tail]; [|apply panics_loop; apply panics_bind; exact Hn]. destruct Hn as (p' & c' & m' & cur & Hret & Hr'). exists (mkSeriesSet p' cur None). split; [|exact (rep_err _ _ _ _ Hr')]. rewrite app_nil_r. apply returns_loop_end. unfold read_body. r_step Hret. apply returns_ret.
  - destruct Hn as (p' & x & l' & Hret & Hr' & Esds & Hok' & Hlen). pose proof (IH (length l') ltac:(lia) l' p' x x (mkSeriesSet p' (Some sd) None) (acc ++ [sd]) (le_n _) Ht Hr' eq_refl eq_refl Hok') as Hrest.
    assert (Hturn : returns (read_loop_body (acc, b)) (inl (acc ++ [sd], mkSeriesSet p' (Some sd) None))) by (unfold read_body; r_step Hret; apply returns_ret).
    destruct tail as [|z tail]; [|eapply panics_loop_next; eassumption]. destruct Hrest as (b' & Hb & He').
    exists b'. split; [|exact He']. rewrite Esds, <- app_assoc in Hb. eapply returns_loop_next; eassumption.
Qed.

(** Reading to the end gives the entries of all series, or panics at one. *)
Lemma read_all_total p refs : Rep p 0 0 refs -> (forall ref, ref ∈ refs -> match Series ref with SeriesError _ => False | _ => True end) ->
  (exists b', returns (read_all Series (fun ref => inr (Get ref)) mint maxt dt (mkSeriesSet p None None)) (entries refs, b') /\ b_Err b' = None /\ forall x, x ∈ refs -> readable x)
  \/ (panics (read_all Series (fun ref => inr (Get ref)) mint maxt dt (mkSeriesSet p None None)) /\ exists ref, ref ∈ refs /\ unaddable ref).
Proof.
  intros Hr Hc. destruct (split_readable refs Hc) as (l & tail & -> & Hl & Ht). pose proof (read_loop tail _ l p 0 0 (mkSeriesSet p None None) [] (le_n _) Ht Hr eq_refl eq_refl Hl) as Hread.
  destruct tail as [|x tail].
  - rewrite app_nil_r. left. destruct Hread as (b' & Hb & He). exists b'. split; [exact Hb|]. split; [exact He|exact Hl].
  - right. split; [exact Hread|]. exists x. split; [apply elem_of_app; right; left|exact Ht].
Qed.
End block_series.

(** ** Blocks of XOR chunks *)

Section xor_block.
Variable ChunkOrIterable : Meta -> string + stored bstream.
Variable samples : Meta -> list (Z * Z).

Definition chunk_times (cm : Meta) : list Z := map fst (samples cm).

(** The chunk was written by an appender, with the samples of its range. *)
Definition written (cm : Meta) : Prop :=
  wf_meta cm /\ ChunkOrIterable cm = inr (Chunk (xa_b (append_all (samples cm) new_appender))) /\ Forall wf_sample (samples cm) /\ Z.of_nat (length (samples cm)) <= 65535
  /\ Forall (fun t => MinTime cm <= t <= MaxTime cm) (chunk_times cm).

(** The chunks of a series, in order and without overlap. *)
Definition series_chunks (metas : list Meta) : Prop := Forall written metas /\ incr (flat_map chunk_times metas).

Definition stored_sample (metas : list Meta) (s : sample) : Prop := exists cm v, cm ∈ metas /\ (fst s, v) ∈ samples cm /\ snd s = VFloat v.

Lemma incr_flat_map {A} (f : A -> list Z) l x : incr (flat_map f l) -> In x l -> incr (f x).
Proof.
  induction l as [|y l IH]; intros H [].
  - subst. exact (incr_app_l _ _ H).
  - apply IH; [exact (sorted_app_r _ _ H)|assumption].
Qed.

Lemma written_good metas cm : series_chunks metas -> cm ∈ metas ->
  @good_meta bstream xorIterator (stored_sample metas) _ (xor_ok _) xor_Iterator ChunkOrIterable chunk_times cm.
Proof.
  intros [Hw Hi] Hcm. apply list_elem_of_In in Hcm. pose proof (proj1 (List.Forall_forall _ _) Hw cm Hcm) as (_ & Hc & Hf & Hlen & Hin). split; [|exact Hin].
  exists (xa_b (append_all (samples cm) new_appender)). split; [auto|]. intros old.
  apply (xor_Iterator_ok (stored_sample metas) _ (samples cm) old); [exact (good_append_all new_appender [] (samples cm) good_new Hf Hlen)|exact (incr_flat_map chunk_times metas cm Hi Hcm)|].
  apply List.Forall_forall. intros [t v] Hs. apply list_elem_of_In in Hs, Hcm. exists cm, v. auto.
Qed.

Lemma asked_bound mint maxt ivs metas : series_chunks metas -> incr (MinInt64 - 1 :: pending_asked mint maxt ivs chunk_times metas).
Proof.
  intros [Hw Hi]. apply incr_cons; [apply incr_filter; exact Hi|]. intros t Ht. unfold pending_asked in Ht. apply list_elem_of_In, filter_In in Ht as [Ht _]. apply in_flat_map in Ht as (cm & Hcm & Ht).
  pose proof (proj1 (List.Forall_forall _ _) Hw cm Hcm) as (_ & _ & Hf & _). unfold chunk_times in Ht. apply in_map_iff in Ht as (s & <- & Hs).
  pose proof (proj1 (List.Forall_forall _ _) Hf s Hs) as [[H _] _]. unfold MinInt64. lia.
Qed.

(** The iterator of a series, before it is started. *)
Lemma series_start old mint maxt ivs ivs' metas chks blockID : series_chunks metas -> wf_intervals ivs' -> pending chunk_times ivs' chks = pending_asked mint maxt ivs chunk_times metas ->
  (forall cm, cm ∈ chks -> cm ∈ metas) ->
  IRep (IterOK := @populate_ok bstream xorIterator (stored_sample metas) _ (xor_ok _) xor_Iterator ChunkOrIterable blockID chunk_times)
    (p_reset old chks ivs') None (MinInt64 - 1) (pending_asked mint maxt ivs chunk_times metas).
Proof.
  intros Hs Hw Hp Hsub. split; [exact (asked_bound mint maxt ivs metas Hs)|]. split; [discriminate|]. exists 0%nat, []. split; [|split; [symmetry; exact Hp|split; reflexivity]].
  constructor; [reflexivity|exact Hw| |reflexivity|lia]. apply List.Forall_forall. intros cm Hcm. apply (written_good metas cm Hs). apply Hsub, list_elem_of_In. exact Hcm.
Qed.
End xor_block.

(** C3: reading all series of a block between [mint] and [maxt], for a sequence of
    postings that the index can look up, over XOR chunks that do not overlap and that the
    appender wrote, either gives the series in the order of the postings, without those
    that the index no longer has; or it panics, and then one of the series has a chunk
    that passes [maxt] and a tombstone that reaches [maxt] ([Intervals.Add] panics, C39).
    In the first case there is no error, and of each series, any sequence of [Next] and
    [Seek] on its iterator that does not seek backwards once the iterator is exhausted
    sees exactly the samples in range that no tombstone covers, and a series that is
    left out has none. *)
Theorem block_query_exact {maxref L S} {post : PostingsOps S} {POK : PostingsOK maxref S} (p : S) refs Series (tombstones : MemTombstones) mint maxt blockID ChunkOrIterable samples :
  Rep p 0 0 refs -> is_i64 mint -> is_i64 maxt -> mint <= maxt -> (forall ref, wf_intervals (Get tombstones ref)) ->
  (forall ref, ref ∈ refs -> match Series ref with SeriesNotFound => True | SeriesError _ => False | SeriesFound _ metas => series_chunks ChunkOrIterable samples metas end) ->
  let found := entry Series (Get tombstones) mint maxt false in
  let reading := read_all Series (fun ref => inr (Get tombstones ref)) mint maxt false (mkSeriesSet p None None) in
  (exists b, returns reading (flat_map (fun ref => option_list (found ref)) refs, b)
     /\ b_Err b = None
     /\ forall ref (lset : L) metas, ref ∈ refs -> Series ref = SeriesFound lset metas ->
        let times := pending_asked mint maxt (Get tombstones ref) (chunk_times samples) metas in
        match found ref with
        | None => times = []
        | Some sd => sd_labels sd = lset /\ forall old calls ts, ideal calls None (MinInt64 - 1) times = Some ts ->
            exists os, returns (@observe _ (populate_ops xor_Iterator ChunkOrIterable blockID) calls (p_reset old (sd_chks sd) (sd_intervals sd))) os
            /\ Forall2 (agrees (stored_sample samples metas)) os ts
        end)
  \/ (panics reading
     /\ exists ref lset metas, ref ∈ refs /\ Series ref = SeriesFound lset metas
        /\ (exists cm, cm ∈ metas /\ maxt < MaxTime cm) /\ exists iv, iv ∈ Get tombstones ref /\ maxt <= Maxt iv).
Proof.
  intros Hp H1 H2 H3 Hw Hs found reading.
  assert (Htrim : forall ref lset metas, ref ∈ refs -> Series ref = SeriesFound lset metas -> series_chunks ChunkOrIterable samples metas
    /\ match trim_series mint maxt false metas (Get tombstones ref) with
       | Ret None => pending_asked mint maxt (Get tombstones ref) (chunk_times samples) metas = []
       | Ret (Some (chks, ivs')) => wf_intervals ivs' /\ pending (chunk_times samples) ivs' chks = pending_asked mint maxt (Get tombstones ref) (chunk_times samples) metas /\ (forall cm, cm ∈ chks -> cm ∈ metas)
       | Panic => (exists cm, cm ∈ metas /\ maxt < MaxTime cm) /\ exists iv, iv ∈ Get tombstones ref /\ maxt <= Maxt iv
       end).
  { intros ref lset metas Href E. specialize (Hs ref Href). rewrite E in Hs. split; [exact Hs|]. destruct Hs as [Hc _].
    apply (trim_series_spec mint maxt (Get tombstones ref) (Hw ref) (conj H1 (conj H2 H3)) (chunk_times samples) metas); (eapply List.Forall_impl; [|exact Hc]; intros cm H; apply H). }
  destruct (read_all_total Series (Get tombstones) mint maxt false p refs Hp) as [(b & Hb & He & Hread)|(Hpanic & ref & Href & Hbad)].
  - intros ref Href. specialize (Hs ref Href). destruct (Series ref); [exact I|exact Hs|exact I].
  - left. exists b. split; [exact Hb|]. split; [exact He|]. intros ref lset metas Href E times. destruct (Htrim ref lset metas Href E) as [Hc Ht]. specialize (Hread ref Href). unfold readable in Hread. unfold found, entry. rewrite E in *.
    destruct (trim_series mint maxt false metas (Get tombstones ref)) as [[[chks ivs']|]|]; [|exact Ht|congruence]. destruct Ht as (Hw' & Hpend & Hsub). split; [reflexivity|]. intros old calls ts Hts. cbn [sd_chks sd_intervals].
    pose proof (series_start ChunkOrIterable samples old mint maxt (Get tombstones ref) ivs' metas chks blockID Hc Hw' Hpend Hsub) as Hrep.
    exact (@observe_ideal _ _ _ (@populate_ok bstream xorIterator (stored_sample samples metas) _ (xor_ok _) xor_Iterator ChunkOrIterable blockID (chunk_times samples)) calls _ None (MinInt64 - 1) times ts Hrep Hts).
  - right. split; [exact Hpanic|]. unfold unaddable in Hbad. destruct (Series ref) as [|e|lset metas] eqn:E; [contradiction|contradiction|]. exists ref, lset, metas. split; [exact Href|]. split; [exact E|].
    destruct (Htrim ref lset metas Href E) as [_ Ht]. rewrite Hbad in Ht. exact Ht.
Qed.

(** A block with two series and a stale reference. *)
Definition block_samples (cm : Meta) : list (Z * Z) :=
  if Ref cm =? 1 then [(1, 10); (3, 30); (5, 50)] else if Ref cm =? 2 then [(7, 70); (9, 90)] else [(100, 1)].
Definition block_chunk (cm : Meta) : string + stored bstream := inr (Chunk (xa_b (append_all (block_samples cm) new_appender))).
Definition block_metas : list Meta := [mkMeta 1 1 5; mkMeta 2 7 9].
Definition block_index (ref : Z) : series_result string :=
  if ref =? 2 then SeriesFound "a" block_metas else if ref =? 3 then SeriesFound "b" [mkMeta 3 100 100] else SeriesNotFound.
Definition block_tombstones : MemTombstones := {[2 := [mkInterval 3 4]]}.

Lemma block_tombstones_wf ref : wf_intervals (Get block_tombstones ref).
Proof.
  unfold Get, block_tombstones. destruct (decide (ref = 2)) as [->|Hne].
  - rewrite lookup_singleton_eq. cbn. split; repeat constructor; cbn; zlia.
  - rewrite lookup_singleton_ne by congruence. cbn. split; constructor.
Qed.

(** No tombstone of the block reaches 8. *)
Lemma block_tombstones_end ref iv : iv ∈ Get block_tombstones ref -> Maxt iv < 8.
Proof.
  unfold Get, block_tombstones. intros Hiv. destruct (decide (ref = 2)) as [->|Hne].
  - rewrite lookup_singleton_eq in Hiv. apply list_elem_of_singleton in Hiv as ->. cbn. lia.
  - rewrite lookup_singleton_ne in Hiv by congruence. apply not_elem_of_nil in Hiv as [].
Qed.

Lemma block_series_ok ref : ref ∈ [1; 2; 3] -> match block_index ref with
  | SeriesNotFound => True
  | SeriesError _ => False
  | SeriesFound _ metas => series_chunks block_chunk block_samples metas
  end.
Proof.
  assert (Hw : forall cm, In cm (mkMeta 3 100 100 :: block_metas) -> written block_chunk block_samples cm).
  { intros cm Hcm. assert (Hb : forall l : list (Z * Z), l = block_samples cm -> forallb (fun s => (-2 ^ 63 <=? fst s) && (fst s <? 2 ^ 63) && (0 <=? snd s) && (snd s <? 2 ^ 64) && (MinTime cm <=? fst s) && (fst s <=? MaxTime cm)) l = true -> wf_meta cm -> (length l <= 3)%nat -> written block_chunk block_samples cm).
    { intros l -> Hf Hm Hlen. rewrite forallb_forall in Hf. split; [exact Hm|]. split; [reflexivity|]. split; [|split; [lia|]].
      - apply List.Forall_forall. intros s Hin. specialize (Hf s Hin). rewrite !andb_true_iff, !Z.leb_le, !Z.ltb_lt in Hf. unfold wf_sample, is_i64, is_u64. lia.
      - unfold chunk_times. apply List.Forall_forall. intros t Ht. apply in_map_iff in Ht as (s & <- & Hin). specialize (Hf s Hin). rewrite !andb_true_iff, !Z.leb_le, !Z.ltb_lt in Hf. lia. }
    destruct Hcm as [<-|[<-|[<-|[]]]]; (eapply Hb; [reflexivity|vm_compute; reflexivity|split; split; cbn; zlia|cbn; lia]). }
  intros Hr. repeat (apply elem_of_cons in Hr as [->|Hr]; [|]); [exact I| | |apply not_elem_of_nil in Hr as []]; cbn.
  - split; [apply List.Forall_forall; intros cm Hcm; apply Hw; right; exact Hcm|repeat constructor].
  - split; [apply List.Forall_forall; intros cm [<-|[]]; apply Hw; left; reflexivity|repeat constructor].
Qed.

Lemma block_query_exact_witness : exists b os sd, returns (read_all block_index (fun ref => inr (Get block_tombstones ref)) 2 8 false (mkSeriesSet (NewListPostings [1; 2; 3]) None None)) ([sd], b)
  /\ b_Err b = None /\ sd_labels sd = "a"%string
  /\ returns (@observe _ (populate_ops xor_Iterator block_chunk "01") [CNext; CNext; CNext] (p_reset None (sd_chks sd) (sd_intervals sd))) os
  /\ Forall2 (agrees (stored_sample block_samples block_metas)) os [Some 5; Some 7; None].
Proof.
  destruct (block_query_exact (maxref := 10) (NewListPostings [1; 2; 3]) [1; 2; 3] block_index block_tombstones 2 8 "01" block_chunk block_samples) as [(b & Hb & He & Hs)|(_ & ref & lset & metas & _ & _ & _ & iv & Hiv & Hend)].
  - repeat split; repeat constructor; lia.
  - unfold is_i64. zlia.
  - unfold is_i64. zlia.
  - lia.
  - exact block_tombstones_wf.
  - exact block_series_ok.
  - destruct (Hs 2 "a"%string block_metas) as [Hl Hit]; [right; left|reflexivity|]. destruct (Hit None [CNext; CNext; CNext] [Some 5; Some 7; None]) as (os & Hos & Hag); [vm_compute; reflexivity|].
    eexists b, os, _. split; [exact Hb|]. split; [exact He|]. split; [exact Hl|]. split; [exact Hos|exact Hag].
  - apply block_tombstones_end in Hiv. lia.
Defined.

(** With a tombstone before the end of the range and another at the end, the query panics. *)
Lemma block_query_panics : trim_series 0 6 false [mkMeta 1 0 10] [mkInterval 1 2; mkInterval 5 8] = Panic.
Proof. vm_compute. reflexivity. Qed.
